(* ===== verification/_CoqProject ===== *)
-Q . S2P
Prelude.v
Oxenc.v
Messages.v
Str.v
Crypto.v
SessionKeys.v
RelayContact.v
Path.v
PathContext.v
PathBuild.v
PathMsg.v
RcStore.v
NodeDB.v
Profiling.v
HopSelection.v
PathHandler.v
IpPacket.v
ClientContact.v
Session.v
SessionPaths.v
SessionHandshake.v
SessionEndpoint.v
SessionDispatch.v
SessionLookup.v
InboundPaths.v
ContactRouting.v
Reachability.v
Tun.v
UdpPorts.v
IpRange.v
Ini.v
ConfigDef.v
ConfigTyped.v
ConfigText.v
ConfigPaths.v
RcFetch.v
NodeDisk.v
DnsWire.v
DnsMessage.v
DnsResponse.v
DnsQuery.v
DnsName.v
DnsHandler.v
QueueManager.v
Queue.v
QueueSafe.v
QueuePlace.v
QueueFifo.v
QueueWake.v
