(* ===== verification/Prelude.v ===== *)
(** * Session Router: a verification of its core in Rocq

    Session Router is an onion router.  Relays form the network; clients build paths of up to
    eight relays, publish encrypted contacts that say at which relays they can be reached, and
    hold sessions with other clients or relays over such paths.  This development models the
    program of src/ and proves what makes its parts correct.  This file is its root and its
    shared prelude; the sections below say where each part is, what is proved about it, and
    what is left out.

    ** Conventions

    A definition is named after the function it translates.  Bytes and strings are [list Z]; an
    integer of a fixed width is a [Z] whose wrap-around is written where it matters ([to_ms] is the
    conversion of a time read from the wire to milliseconds, in 64 bits).  A function
    that may throw returns an [outcome] ([Ok] or [Throw]); undefined behaviour (reading past the
    end of a container, following a null or expired pointer) is [None] or [Undefined].  Objects
    behind a std::shared_ptr live in a heap and the tables hold pointers, so that a change made
    through one table is seen through another.  Random draws, the clock, the iteration order of
    unordered containers and the answers of parts that are not modelled are arguments, and the
    theorems hold for all of them.  Calls into parts that are not modelled are returned as
    effects, in order.  Third-party libraries are classes with their documented behaviour as laws
    (oxenc in Oxenc.v; libsodium in Crypto.v; sealed boxes and ML-KEM in SessionKeys.v; zstd in
    RcFetch.v), each with an instance that satisfies the laws, so that no theorem is vacuous.

    Loops whose recursion is not structural take fuel.  The fuel is an upper bound of the number
    of iterations, named where the loop is defined, and the theorems about such a loop show that
    the bound is enough (the length of the string for the string loops, the number of hops for a
    path build, the number of relays left for a bootstrap, the number of sessions for the choice
    of a fresh tag).

    ** Foundations

    - Prelude.v: errors, bytes, endianness, tactics and the hint database [router].
    - Oxenc.v: bt encoding and fixed-width integers as an interface, and an instance.
    - Str.v: util/str.cpp and contact/sns.cpp: splitting, trimming, numbers, names.
    - Messages.v: the status dictionaries of messages/common.cpp.
    - Crypto.v, SessionKeys.v: crypto/crypto.cpp, crypto/session_keys.cpp, crypto/keys.cpp,
      crypto/mlkem768.cpp over the primitives.

    ** Relays and what is known of them

    - RelayContact.v (contact/relay_contact.cpp): an RC that is encoded and signed is read back,
      and nothing unsigned, expired or malformed is accepted.
    - RcStore.v, NodeDB.v, NodeDisk.v, RcFetch.v (nodedb.cpp, link/link_manager.cpp): the table of
      RCs with its 128 bucket digests (every digest is the XOR of exactly the RCs held), sampling,
      the consensus on router IDs (a colluding minority is rejected, a round of requests always
      ends), the directory on disk and the 0-RTT tickets, and the exchange of RCs between nodes
      (a fetch leaves the client with the relay's newer RCs, gossip is not repeated, a bootstrap
      ends and transfers).
    - Profiling.v (profiling.cpp): success counters, verdicts and their file.
    - Reachability.v (consensus/reachability_testing.cpp): a failing relay is tested again.

    ** Paths

    - Path.v, PathContext.v, PathBuild.v (path/path.cpp, path/transit_hop.cpp,
      path/path_context.cpp, path/path_handler.cpp, link/link_manager.cpp): the build onion, and
      the run of a build through a network of relays, after which every relay has a hop that
      agrees with the client's.
    - PathMsg.v (link/link_manager.cpp): a request sent along a built path reaches its end and the
      answer comes back, peeled at the client.
    - HopSelection.v, PathHandler.v (path/path_handler.cpp): chosen hops are distinct, allowed and
      from distinct networks; the handler's and the context's tables agree over any events.

    ** Sessions

    - ClientContact.v, ContactRouting.v (contact/, net/policy.cpp, dns/srv_data.cpp,
      link/link_manager.cpp): contacts, their blinded and encrypted form, the store on relays, and
      that what is published is what a lookup finds.
    - Session.v, SessionHandshake.v (session/session.cpp): the handshake leaves the two ends with
      swapped keys and each other's tags, messages are read back, unsigned accepts change nothing.
    - SessionPaths.v (session/session.cpp): the choice and upkeep of an outbound session's paths.
    - SessionEndpoint.v, SessionDispatch.v, SessionLookup.v, InboundPaths.v (handlers/session.cpp,
      link/link_manager.cpp): the tables of sessions agree, tags are fresh, path switches are
      followed; names are resolved by majority and contacts by age; inbound paths are spread over
      their lifetime.

    ** The local side

    - IpPacket.v (net/ip_packet.cpp): incremental checksums agree with the sums a receiver
      computes; ICMP replies and UDP packets are well formed.
    - DnsWire.v, DnsMessage.v, DnsResponse.v, DnsQuery.v (dns/): responses read back by the rules
      of RFC 1035, queries with EDNS and cookies, and what malformed input gives.
    - Ini.v (config/ini.cpp): the configuration file parser.
    - ConfigDef.v, ConfigTyped.v, ConfigText.v (config/definition.{hpp,cpp}): typed options, their
      acceptors and validators; that processing a configuration never goes wrong in another way
      than by rejecting it; and that the text written for a configuration loads to the same one.
    - ConfigPaths.v (config/config.cpp): the options of the paths section and loading a file.
    - Tun.v (handlers/tun.cpp, address/map.hpp): local addresses for remotes, and packets through
      the tun device.
    - UdpPorts.v (handlers/session.cpp, session/session.cpp): local ports for ports of remotes, their
      pseudo ports and holders; UDP reaches the remote and comes back.
    - IpRange.v (address/ip_range.cpp): parsing networks and finding a free private one.
    - DnsName.v, DnsHandler.v (address/address.cpp, dns/handler.cpp): addresses as text, reverse
      names, and the handler of DNS requests with its callbacks: every request is answered once,
      and the address given for a name leads to it and back.
    - QueueManager.v, Queue.v (util/thread/queue_manager.{hpp,cpp}, util/thread/queue.hpp, the
      semaphore of util/thread/threading.hpp): the bounded lock-free queue between threads.  Each
      operation is a machine ([MPc], [QPc]) whose step is one atomic access; [perform] interleaves
      the threads; relaxed loads of the indices, and loads of the counters of waiting threads, which
      relaxed operations change, may read old values.  QueueSafe.v: each cell is owned by at most
      one thread, so that no thread touches an object that is not there, whatever the timing.
      QueuePlace.v, QueueFifo.v: the wrapped indices stand for positions that
      only grow, and every execution is a history of a first-in first-out queue ([fifo_trace]);
      this needs at least five generations, which capacities up to 2^31 / 5 give, and threads that
      do not sleep through [window] changes of an index between reading and using it.
      QueueWake.v: no reader is left waiting beside a value unless the queue is disabled meanwhile
      or a writer reads an old count of waiting readers; in both cases a reader can be.

    ** Properties and findings

    A theorem whose comment starts with C and a number is one of the main properties; where it
    has hypotheses, the lemma of the same name with [_witness] applies it to a concrete input.
    Other theorems are steps towards them, or show that the code does something else than it
    means to; these are the findings.

    ** Not modelled

    - Operating system and platform code: vpn/, win32/, apple/, android/, linux/, net/posix.cpp,
      net/win32.cpp, dns/sd_platform.cpp, dns/nm_platform.cpp, dns/platform.cpp, ev/.  It is system
      calls with no state of its own to reason about.
    - Servers and clients of third-party protocols: rpc/, full/, auth/rpc.cpp, dns/listener.cpp,
      dns/unbound.cpp, daemon/, pybind, jni.  They pass requests between a library (oxen-mq,
      unbound, nlohmann::json) and the router.
    - The wiring of the router: router/router.cpp, context.cpp, session_router.cpp.  It constructs
      the parts, starts their timers and calls the operations that are modelled.
    - link/endpoint.cpp, apart from the choice of unique edges in InboundPaths.v, drives oxen-quic
      connections, whose state is that library's.
    - session/tcp_tunnel.cpp and router/route_poker.cpp connect sessions to sockets and the routing
      table; of handlers/tun.cpp, creating and polling the interface.
    - The options of the other sections of config/config.cpp, whose acceptors parse addresses and
      files with other libraries.
    - Logging, JSON status output and printing, everywhere. *)

From Stdlib Require Import ZArith Lia.
From stdpp Require Import base list list_numbers numbers gmap strings sorting.


(** ** Notations

    A byte buffer (std::vector<std::byte>, std::string, std::span,
    AlignedBuffer) is a list of integers, each of them in [0, 256). *)
Abbreviation bytes := (list Z) (only parsing).

Declare Scope router_scope.
Delimit Scope router_scope with router.

(** ** Errors

    A C++ function that may throw returns an [outcome]; [Throw e] records
    which exception left the function. *)
Inductive outcome (E A : Type) : Type :=
| Ok (a : A)
| Throw (e : E).
Arguments Ok {E A} a.
Arguments Throw {E A} e.

Definition outcome_bind {E A B} (m : outcome E A) (k : A -> outcome E B) : outcome E B :=
  match m with
  | Ok a => k a
  | Throw e => Throw e
  end.

Definition or_throw {E A} (e : E) (o : option A) : outcome E A :=
  match o with
  | Some a => Ok a
  | None => Throw e
  end.

Notation "'let!' x ':=' m 'in' k" := (outcome_bind m (fun x => k))
  (at level 10, x pattern, m at level 100, k at level 200) : router_scope.

(** A guard [if (c) throw e;] *)
Notation "'throw_if' c 'with' e 'in' k" := (if c then Throw e else k)
  (at level 10, c at level 100, e at level 100, k at level 200) : router_scope.

Lemma outcome_bind_Ok {E A B} (m : outcome E A) (k : A -> outcome E B) b :
  outcome_bind m k = Ok b <-> exists a, m = Ok a /\ k a = Ok b.
Proof. destruct m; simpl; naive_solver. Qed.

Lemma throw_if_Ok {E A} (c : bool) (e : E) (k : outcome E A) b :
  (if c then Throw e else k) = Ok b <-> c = false /\ k = Ok b.
Proof. destruct c; naive_solver. Qed.

Lemma or_throw_Ok {E A} (e : E) (o : option A) a : or_throw e o = Ok a <-> o = Some a.
Proof. destruct o; simpl; naive_solver. Qed.

(** Takes apart a hypothesis that a function with guards and binds returned [Ok]. *)
Ltac outcome_inv H :=
  repeat match type of H with
  | outcome_bind _ _ = Ok _ =>
      let a := fresh "a" in let Ha := fresh "Ha" in
      apply outcome_bind_Ok in H as (a & Ha & H);
      try (apply or_throw_Ok in Ha); try (destruct a as [[? ?] ?]); try (destruct a as [? ?])
  | (if _ then Throw _ else _) = Ok _ =>
      let Hg := fresh "Hg" in apply throw_if_Ok in H as [Hg H]
  end.

(** ** Undefined behaviour

    Reading or writing past the end of a container, or a signed overflow. *)
Inductive deref (A : Type) : Type :=
| Value (a : A)
| Undefined.
Arguments Value {A} a.
Arguments Undefined {A}.

Definition deref_bind {A B} (m : deref A) (k : A -> deref B) : deref B :=
  match m with
  | Value a => k a
  | Undefined => Undefined
  end.

Notation "'let?' x ':=' m 'in' k" := (deref_bind m (fun x => k))
  (at level 10, x pattern, m at level 100, k at level 200) : router_scope.

(** ** Bytes *)
Definition is_byte (b : Z) : Prop := (0 <= b < 256)%Z.
Definition is_bytes (l : bytes) : Prop := Forall is_byte l.
Definition is_buf (n : nat) (l : bytes) : Prop := length l = n /\ is_bytes l.

#[export] Instance is_byte_dec b : Decision (is_byte b).
Proof. unfold is_byte. apply _. Defined.
#[export] Instance is_bytes_dec l : Decision (is_bytes l).
Proof. unfold is_bytes. apply _. Defined.
#[export] Instance is_buf_dec n l : Decision (is_buf n l).
Proof. unfold is_buf. apply _. Defined.

(** [AlignedBuffer::operator^] and [operator^=] (util/aligned.hpp). *)
Definition buf_xor (a b : bytes) : bytes := zip_with Z.lxor a b.

(** Lexicographic order of byte strings (std::string_view and std::array comparison). *)
Fixpoint bytes_ltb (a b : bytes) : bool :=
  match a, b with
  | _, [] => false
  | [], _ :: _ => true
  | x :: a, y :: b => (x <? y)%Z || ((x =? y)%Z && bytes_ltb a b)
  end.

(** [is_zero] of an AlignedBuffer. *)
Definition is_zero (a : bytes) : bool := forallb (Z.eqb 0) a.

Definition zero_buf (n : nat) : bytes := replicate n 0%Z.

(** XOR of a buffer with a key stream, given position by position. *)
Definition xor_stream (ks : nat -> Z) (buf : bytes) : bytes :=
  imap (fun i b => Z.lxor b (ks i)) buf.

(** [std::memcpy] of [data] into [buf] at offset [off]. *)
Definition write_at (off : nat) (data buf : bytes) : bytes :=
  take off buf ++ data ++ drop (off + length data) buf.

(** [span.subspan(off, len)] *)
Definition subspan (off len : nat) (buf : bytes) : bytes := take len (drop off buf).

(** ** Little and big endian integers of [w] bytes *)
Fixpoint le_bytes (w : nat) (x : Z) : bytes :=
  match w with
  | O => []
  | S w => (x mod 256)%Z :: le_bytes w (x / 256)
  end.

Fixpoint le_value (l : bytes) : Z :=
  match l with
  | [] => 0
  | b :: l => (b + 256 * le_value l)%Z
  end.

Definition be_bytes (w : nat) (x : Z) : bytes := rev (le_bytes w x).
Definition be_value (l : bytes) : Z := le_value (rev l).

(** The integer a value becomes when it is stored in an unsigned type of [w] bits. *)
Definition wrap (w : Z) (x : Z) : Z := (x mod 2 ^ w)%Z.

(** The value an int64_t expression has: two's complement, as the machine computes
    it where the arithmetic overflows. *)
Definition i64 (x : Z) : Z :=
  let y := wrap 64 x in if (y <? 2 ^ 63)%Z then y else (y - 2 ^ 64)%Z.

(** Seconds converted to milliseconds, both counted in an int64_t
    ([std::chrono::duration_cast] to a finer unit, and the mixed arithmetic and
    comparisons that imply it). *)
Definition to_ms (s : Z) : Z := i64 (s * 1000)%Z.

Definition fits_i64 (x : Z) : Prop := (- 2 ^ 63 <= x < 2 ^ 63)%Z.

(** ** Automation *)
Create HintDb router.

Ltac case_match_eq := case_match; simplify_eq/=.

(** Passes a guard [throw_if c with e in k] whose condition [tac] shows to be false. *)
Ltac pass_guard tac :=
  match goal with
  | |- (if ?c then _ else _) = _ => replace c with false by (symmetry; tac)
  end.

Ltac split_and_solve := repeat split; eauto with router lia.

(** ** Lemmas on 64-bit integers *)
Lemma i64_fits x : fits_i64 x -> i64 x = x.
Proof.
  unfold fits_i64, i64, wrap. intros Hx. destruct (Z.le_gt_cases 0 x).
  - rewrite Z.mod_small by lia. destruct (Z.ltb_spec x (2 ^ 63)); lia.
  - replace (x mod 2 ^ 64)%Z with (x + 2 ^ 64)%Z.
    + destruct (Z.ltb_spec (x + 2 ^ 64) (2 ^ 63)); lia.
    + symmetry. rewrite <-(Z.mod_small (x + 2 ^ 64) (2 ^ 64)) by lia.
      by rewrite Z.add_mod, Z.mod_same, Z.add_0_r, Z.mod_mod by lia.
Qed.

Lemma i64_range x : fits_i64 (i64 x).
Proof.
  unfold fits_i64, i64, wrap. pose proof (Z.mod_pos_bound x (2 ^ 64)).
  destruct (Z.ltb_spec (x mod 2 ^ 64) (2 ^ 63)); lia.
Qed.

Lemma to_ms_fits s : fits_i64 (s * 1000) -> to_ms s = (s * 1000)%Z.
Proof. apply i64_fits. Qed.

(** ** Lemmas on bytes *)
Lemma lxor_byte a b : is_byte a -> is_byte b -> is_byte (Z.lxor a b).
Proof.
  unfold is_byte. intros Ha Hb.
  assert (0 <= Z.lxor a b)%Z by (apply Z.lxor_nonneg; lia).
  split; [done|].
  destruct (decide (Z.lxor a b = 0)%Z) as [->|]; [lia|].
  apply (Z.log2_lt_pow2 _ 8); [lia|].
  pose proof (Z.log2_lxor a b ltac:(lia) ltac:(lia)) as H1.
  assert (forall c, (0 <= c < 256)%Z -> (Z.log2 c < 8)%Z) as Hl.
  { intros c Hc. destruct (decide (c = 0)%Z) as [->|]; [done|].
    apply Z.log2_lt_pow2; lia. }
  pose proof (Hl a Ha). pose proof (Hl b Hb). lia.
Qed.

Lemma lxor_cancel_r a b : Z.lxor (Z.lxor a b) b = a.
Proof. by rewrite Z.lxor_assoc, Z.lxor_nilpotent, Z.lxor_0_r. Qed.

Lemma length_buf_xor a b : length (buf_xor a b) = length a `min` length b.
Proof. apply length_zip_with. Qed.

Lemma buf_xor_cancel_r a b : length a <= length b -> buf_xor (buf_xor a b) b = a.
Proof.
  unfold buf_xor. revert b. induction a as [|x a IH]; intros [|y b]; simpl; try done; intros; [lia|].
  rewrite lxor_cancel_r, IH by lia. done.
Qed.

Lemma buf_xor_comm a b : buf_xor a b = buf_xor b a.
Proof.
  unfold buf_xor. revert b. induction a as [|x a IH]; intros [|y b]; simpl; try done.
  by rewrite IH, Z.lxor_comm.
Qed.

Lemma buf_xor_assoc a b c : buf_xor (buf_xor a b) c = buf_xor a (buf_xor b c).
Proof.
  unfold buf_xor. revert b c. induction a as [|x a IH]; intros [|y b] [|z c]; simpl; try done.
  by rewrite IH, Z.lxor_assoc.
Qed.

Lemma buf_xor_zero_r n a : length a <= n -> buf_xor a (zero_buf n) = a.
Proof.
  unfold buf_xor, zero_buf. revert n. induction a as [|x a IH]; intros [|n] Hn; simpl in *; try done; [lia|].
  by rewrite Z.lxor_0_r, IH by lia.
Qed.

Lemma is_buf_xor n a b : is_buf n a -> is_buf n b -> is_buf n (buf_xor a b).
Proof.
  intros [La Ha] [Lb Hb]. split; [rewrite length_buf_xor; lia|].
  clear La Lb. unfold is_bytes, buf_xor in *. revert b Hb.
  induction Ha; intros [|y b] Hb; simpl; auto using Forall_nil.
  inversion Hb; subst. constructor; eauto using lxor_byte.
Qed.

Lemma length_xor_stream ks l : length (xor_stream ks l) = length l.
Proof. apply length_imap. Qed.

Lemma xor_stream_app ks l1 l2 :
  xor_stream ks (l1 ++ l2) =
  xor_stream ks l1 ++ xor_stream (fun i => ks (length l1 + i)) l2.
Proof. unfold xor_stream. rewrite imap_app. done. Qed.

Lemma lookup_xor_stream ks l i :
  xor_stream ks l !! i = (fun b => Z.lxor b (ks i)) <$> l !! i.
Proof. apply list_lookup_imap. Qed.

Lemma xor_stream_involutive ks l : xor_stream ks (xor_stream ks l) = l.
Proof.
  apply list_eq. intros i. rewrite !lookup_xor_stream.
  destruct (l !! i); simpl; [by rewrite lxor_cancel_r | done].
Qed.

Lemma take_xor_stream ks n l : take n (xor_stream ks l) = xor_stream ks (take n l).
Proof.
  apply list_eq. intros i. rewrite lookup_xor_stream.
  destruct (decide (i < n)).
  - by rewrite !lookup_take_lt, lookup_xor_stream.
  - by rewrite !lookup_take_ge by lia.
Qed.

Lemma is_bytes_xor_stream ks l :
  (forall i, is_byte (ks i)) -> is_bytes l -> is_bytes (xor_stream ks l).
Proof.
  intros Hk Hl. apply Forall_lookup. intros i b. rewrite lookup_xor_stream.
  destruct (l !! i) as [c|] eqn:E; simpl; [|done]. intros [= <-].
  apply lxor_byte; [|done]. by eapply Forall_lookup in Hl.
Qed.

(** ** Lemmas on buffers *)
Lemma length_write_at off data buf :
  off + length data <= length buf -> length (write_at off data buf) = length buf.
Proof. intros. unfold write_at. rewrite !length_app, length_take, length_drop. lia. Qed.

Lemma write_at_app off data l1 l2 l3 :
  length l1 = off -> length l2 = length data ->
  write_at off data (l1 ++ l2 ++ l3) = l1 ++ data ++ l3.
Proof.
  intros <- H. unfold write_at. rewrite take_app_length.
  rewrite <-H, <-drop_drop, drop_app_length. by rewrite drop_app_length.
Qed.

Lemma subspan_app off len l1 l2 l3 :
  length l1 = off -> length l2 = len -> subspan off len (l1 ++ l2 ++ l3) = l2.
Proof. intros <- <-. unfold subspan. by rewrite drop_app_length, take_app_length. Qed.

Lemma lookup_write_at off data buf i : off + length data <= length buf ->
  write_at off data buf !! i = if decide (off <= i < off + length data) then data !! (i - off) else buf !! i.
Proof.
  intros Hl. unfold write_at. assert (length (take off buf) = off) as Ht by (rewrite length_take; lia).
  case_decide.
  - rewrite lookup_app_r, lookup_app_l by lia. by rewrite Ht.
  - destruct (decide (i < off)).
    + rewrite lookup_app_l, lookup_take_lt by lia. done.
    + rewrite lookup_app_r, lookup_app_r, lookup_drop by lia. f_equal. lia.
Qed.

(** A write seen through a window that contains it, or that it does not touch. *)
Lemma take_write_at n off data buf : off + length data <= n -> n <= length buf ->
  take n (write_at off data buf) = write_at off data (take n buf).
Proof.
  intros H1 H2. apply list_eq. intros i. rewrite lookup_write_at by (rewrite length_take; lia).
  destruct (decide (i < n)).
  - rewrite !lookup_take_lt, lookup_write_at by lia. done.
  - rewrite !lookup_take_ge by lia. case_decide; [lia|done].
Qed.

Lemma drop_write_at n off data buf : n <= off -> off + length data <= length buf ->
  drop n (write_at off data buf) = write_at (off - n) data (drop n buf).
Proof.
  intros H1 H2. apply list_eq. intros i. rewrite lookup_write_at, !lookup_drop, lookup_write_at by (rewrite ?length_drop; lia).
  repeat case_decide; try lia; f_equal; lia.
Qed.

Lemma drop_write_at_before n off data buf : off + length data <= n -> off + length data <= length buf ->
  drop n (write_at off data buf) = drop n buf.
Proof.
  intros H1 H2. apply list_eq. intros i. rewrite !lookup_drop, lookup_write_at by lia. by case_decide; [lia|].
Qed.

Lemma take_write_at_after n off data buf : n <= off -> off + length data <= length buf ->
  take n (write_at off data buf) = take n buf.
Proof.
  intros H1 H2. apply list_eq. intros i. destruct (decide (i < n)).
  - rewrite !lookup_take_lt, lookup_write_at by lia. by case_decide; [lia|].
  - by rewrite !lookup_take_ge by lia.
Qed.

Lemma subspan_write_at off data buf : off + length data <= length buf ->
  subspan off (length data) (write_at off data buf) = data.
Proof.
  intros Hl. unfold subspan. rewrite drop_write_at by lia. rewrite Nat.sub_diag. unfold write_at.
  rewrite take_0. cbn [app]. by rewrite take_app_length.
Qed.

Lemma subspan_write_at_ne o n off data buf : off + length data <= length buf ->
  o + n <= off \/ off + length data <= o -> subspan o n (write_at off data buf) = subspan o n buf.
Proof.
  intros Hl Hd. apply list_eq. intros i. unfold subspan. destruct (decide (i < n)).
  - rewrite !lookup_take_lt, !lookup_drop, lookup_write_at by lia. by case_decide; [lia|].
  - by rewrite !lookup_take_ge by lia.
Qed.

Lemma length_subspan o n buf : o + n <= length buf -> length (subspan o n buf) = n.
Proof. intros. unfold subspan. rewrite length_take, length_drop. lia. Qed.

Lemma is_bytes_subspan o n buf : is_bytes buf -> is_bytes (subspan o n buf).
Proof. intros. by apply Forall_take, Forall_drop. Qed.

Lemma is_bytes_write_at off data buf : is_bytes data -> is_bytes buf -> is_bytes (write_at off data buf).
Proof.
  intros. apply Forall_app. split; [by apply Forall_take|]. apply Forall_app. split; [done | by apply Forall_drop].
Qed.

Lemma existsb_ext {A} (f g : A -> bool) l : (forall x, f x = g x) -> existsb f l = existsb g l.
Proof. intros E. induction l as [|x l IH]; simpl; [done|]. by rewrite E, IH. Qed.

(** ** Lemmas on integers *)
Lemma length_le_bytes w x : length (le_bytes w x) = w.
Proof. revert x. induction w; intros; simpl; auto. Qed.

Lemma is_bytes_le_bytes w x : is_bytes (le_bytes w x).
Proof.
  revert x. induction w; intros; simpl; constructor; [|apply IHw].
  apply Z.mod_pos_bound; lia.
Qed.

Lemma le_value_le_bytes w x : le_value (le_bytes w x) = (x mod 256 ^ Z.of_nat w)%Z.
Proof.
  revert x. induction w as [|w IH]; intros x; simpl le_bytes; simpl le_value.
  - by rewrite Z.mod_1_r.
  - rewrite IH, Nat2Z.inj_succ, Z.pow_succ_r by lia.
    rewrite Z.rem_mul_r by lia. done.
Qed.

Lemma le_bytes_le_value l : is_bytes l -> le_bytes (length l) (le_value l) = l.
Proof.
  induction 1 as [|b l Hb Hl IH]; [done|]. simpl. unfold is_byte in Hb.
  rewrite (Z.mul_comm 256), Z.mod_add, Z.div_add, Z.mod_small, Z.div_small by lia.
  by rewrite Z.add_0_l, IH.
Qed.

Lemma length_be_bytes w x : length (be_bytes w x) = w.
Proof. unfold be_bytes. by rewrite length_rev, length_le_bytes. Qed.

Lemma be_value_be_bytes w x : be_value (be_bytes w x) = (x mod 256 ^ Z.of_nat w)%Z.
Proof. unfold be_value, be_bytes. by rewrite rev_involutive, le_value_le_bytes. Qed.

Lemma be_bytes_be_value l : is_bytes l -> be_bytes (length l) (be_value l) = l.
Proof.
  intros Hl. unfold be_bytes, be_value. rewrite <-(length_rev l), le_bytes_le_value by by apply Forall_rev.
  apply rev_involutive.
Qed.

Lemma be_value_bound l : is_bytes l -> (0 <= be_value l < 256 ^ Z.of_nat (length l))%Z.
Proof.
  intros Hl. rewrite <-(be_bytes_be_value l Hl) at 1 2. rewrite be_value_be_bytes. apply Z.mod_pos_bound. lia.
Qed.

Lemma is_bytes_be_bytes w x : is_bytes (be_bytes w x).
Proof. unfold is_bytes, be_bytes. apply Forall_rev, is_bytes_le_bytes. Qed.

(** ** Lemmas on lists *)
Lemma filter_all {A} (P : A -> Prop) `{!forall x, Decision (P x)} (l : list A) :
  (forall x, x ∈ l -> P x) -> filter P l = l.
Proof.
  induction l as [|x l IH]; intros Hl; [done|]. rewrite filter_cons_True by (apply Hl; set_solver).
  by rewrite IH by set_solver.
Qed.

Lemma filter_none {A} (P : A -> Prop) `{!forall x, Decision (P x)} (l : list A) :
  (forall x, x ∈ l -> ~ P x) -> filter P l = [].
Proof.
  induction l as [|x l IH]; intros Hl; [done|]. rewrite filter_cons_False by (apply Hl; set_solver).
  by apply IH; set_solver.
Qed.

Lemma filter_iff_in {A} (P Q : A -> Prop) `{!forall x, Decision (P x)} `{!forall x, Decision (Q x)} (l : list A) :
  (forall x, x ∈ l -> P x <-> Q x) -> filter P l = filter Q l.
Proof.
  induction l as [|x l IH]; intros Hl; [done|]. rewrite !filter_cons, IH by set_solver.
  assert (P x <-> Q x) by (apply Hl; set_solver). repeat case_decide; naive_solver.
Qed.

Lemma filter_fst_sublist {A B} (P : A * B -> Prop) `{!forall x, Decision (P x)} (l : list (A * B)) :
  (filter P l).*1 `sublist_of` l.*1.
Proof. induction l as [|kv l IH]; [done|]. rewrite filter_cons. case_decide; cbn [fmap list_fmap]; by constructor. Qed.

#[export] Hint Resolve lxor_byte is_buf_xor is_bytes_le_bytes is_bytes_be_bytes
  is_bytes_xor_stream : router.
#[export] Hint Rewrite length_buf_xor length_xor_stream length_le_bytes length_be_bytes
  @length_app @length_take @length_drop @length_replicate : router.
