(* ===== verification/Oxenc.v ===== *)
(** * The serialization library (oxenc) as an interface

    Session Router serializes with oxenc: fixed-width integers in a chosen
    byte order, and bt-encoded dictionaries and lists.  oxenc is a submodule,
    not part of src/; the rest of the development uses it through the class
    [Oxenc], with the behaviour its documentation promises as the laws of
    [OxencLaws].  [bencode] is an instance of both. *)

From Stdlib Require Import ZArith Lia Decimal DecimalNat DecimalZ DecimalFacts.
From stdpp Require Import base list numbers strings.
From S2P Require Import Prelude.

(** A bt value: a byte string, an integer, a list or a dictionary. *)
Inductive btval : Type :=
| BStr (s : bytes)
| BInt (z : Z)
| BList (l : list btval)
| BDict (d : list (bytes * btval)).

(** The decimal digits of a numeral, as ASCII. *)
Fixpoint uint_bytes (u : Decimal.uint) : bytes :=
  match u with
  | Decimal.Nil => []
  | Decimal.D0 u => 48%Z :: uint_bytes u | Decimal.D1 u => 49%Z :: uint_bytes u
  | Decimal.D2 u => 50%Z :: uint_bytes u | Decimal.D3 u => 51%Z :: uint_bytes u
  | Decimal.D4 u => 52%Z :: uint_bytes u | Decimal.D5 u => 53%Z :: uint_bytes u
  | Decimal.D6 u => 54%Z :: uint_bytes u | Decimal.D7 u => 55%Z :: uint_bytes u
  | Decimal.D8 u => 56%Z :: uint_bytes u | Decimal.D9 u => 57%Z :: uint_bytes u
  end.

(** The header [N:] of the bt encoding of a string of [n] bytes. *)
Definition str_header (n : nat) : bytes := uint_bytes (Nat.to_uint n) ++ [58%Z].

Class Oxenc := {
  (** [oxenc::write_host_as_little] / [write_host_as_big] of a [w]-byte integer. *)
  write_host_as_little : nat -> Z -> bytes;
  write_host_as_big : nat -> Z -> bytes;
  (** [oxenc::load_little_to_host] / [load_big_to_host] from the first [w] bytes. *)
  load_little_to_host : nat -> bytes -> Z;
  load_big_to_host : nat -> bytes -> Z;
  (** [bt_dict_producer]: the encoding of a dictionary with its keys appended in order. *)
  bt_dict_produce : list (bytes * btval) -> bytes;
  (** [bt_dict_consumer]: the constructor (throws when the data is not a dict),
      [require(key)] (skips to [key], throws when it is not there), [maybe(key)]
      (the same, but nullopt when it is not there), [require_signature(key)] (also
      gives the data before the key), [is_finished] and [finish]. *)
  bt_consumer : Type;
  bt_dict_open : bytes -> option bt_consumer;
  bt_require : bytes -> bt_consumer -> option (btval * bt_consumer);
  bt_maybe : bytes -> bt_consumer -> option (option btval * bt_consumer);
  bt_require_signature : bytes -> bt_consumer -> option (bytes * bytes * bt_consumer);
  bt_finish : bt_consumer -> bool;
  (** [skip_until(key)] (whether [key] is next), [key()] (throws at the end),
      [next_integer], [next_string], [next_list] and [next_dict_consumer] (the
      key and the value), and where the
      string_view of the next key points to, as an offset into the data. *)
  bt_skip_until : bytes -> bt_consumer -> option (bool * bt_consumer);
  bt_key : bt_consumer -> option bytes;
  bt_next_integer : bt_consumer -> option (bytes * Z * bt_consumer);
  bt_next_string : bt_consumer -> option (bytes * bytes * bt_consumer);
  bt_next_list : bt_consumer -> option (bytes * list btval * bt_consumer);
  bt_next_dict : bt_consumer -> option (bytes * list (bytes * btval) * bt_consumer);
  bt_key_offset : bt_consumer -> nat;
  (** [bt_list_consumer] with [consume_dict_data] until [is_finished]: the
      encodings of the dicts up to the first element that is not one, and
      whether the end of the list was reached. *)
  bt_list_dict_data : bytes -> list bytes * bool;
  (** [bt_list_consumer] read to the end of the list: its elements. *)
  bt_list_open : bytes -> option (list btval);
  (** The encoding of a single value; [bt_list_producer] makes that of a list. *)
  bt_value : btval -> bytes;
  (** [append_signature] hands the signer the encoding of the pairs before it. *)
  bt_signed_data : list (bytes * btval) -> bytes;
  (** The consumer that has read [done] and has [todo] left; a dict that is a
      value is consumed by [bt_reading []] of its pairs. *)
  bt_reading : list (bytes * btval) -> list (bytes * btval) -> bt_consumer;
}.

(** The typed forms of [require]. *)
Definition bt_require_string `{Oxenc} (k : bytes) (c : bt_consumer) : option (bytes * bt_consumer) :=
  match bt_require k c with
  | Some (BStr s, c') => Some (s, c')
  | _ => None
  end.

Definition bt_require_int `{Oxenc} (k : bytes) (c : bt_consumer) : option (Z * bt_consumer) :=
  match bt_require k c with
  | Some (BInt z, c') => Some (z, c')
  | _ => None
  end.

(** [require_span<T, N>(key)]: a string of exactly [n] bytes. *)
Definition bt_require_span `{Oxenc} (n : nat) (k : bytes) (c : bt_consumer)
  : option (bytes * bt_consumer) :=
  match bt_require_string k c with
  | Some (s, c') => if decide (length s = n) then Some (s, c') else None
  | None => None
  end.

Definition bt_maybe_string `{Oxenc} (k : bytes) (c : bt_consumer)
  : option (option bytes * bt_consumer) :=
  match bt_maybe k c with
  | Some (Some (BStr s), c') => Some (Some s, c')
  | Some (None, c') => Some (None, c')
  | _ => None
  end.

Definition bt_maybe_int `{Oxenc} (k : bytes) (c : bt_consumer)
  : option (option Z * bt_consumer) :=
  match bt_maybe k c with
  | Some (Some (BInt z), c') => Some (Some z, c')
  | Some (None, c') => Some (None, c')
  | _ => None
  end.

(** [require<bt_list_consumer>(key)], [maybe<bt_list_consumer>(key)]: the elements. *)
Definition bt_require_list `{Oxenc} (k : bytes) (c : bt_consumer) : option (list btval * bt_consumer) :=
  match bt_require k c with
  | Some (BList l, c') => Some (l, c')
  | _ => None
  end.
Definition bt_maybe_list `{Oxenc} (k : bytes) (c : bt_consumer)
  : option (option (list btval) * bt_consumer) :=
  match bt_maybe k c with
  | Some (Some (BList l), c') => Some (Some l, c')
  | Some (None, c') => Some (None, c')
  | _ => None
  end.

(** [require<T>(key)] of an integer type of [w] bits: other values do not fit. *)
Definition fits_unsigned (w z : Z) : bool := ((0 <=? z) && (z <? 2 ^ w))%Z.
Definition fits_signed (w z : Z) : bool := ((- 2 ^ (w - 1) <=? z) && (z <? 2 ^ (w - 1)))%Z.
Definition bt_require_num `{Oxenc} (fits : Z -> bool) (k : bytes) (c : bt_consumer) : option (Z * bt_consumer) :=
  match bt_require_int k c with
  | Some (z, c') => if fits z then Some (z, c') else None
  | None => None
  end.

(** The length in bytes of a decimal numeral, and of the encoding of a string. *)
Definition dec_len (n : nat) : nat := Decimal.nb_digits (Nat.to_uint n).
Definition bt_str_len (n : nat) : nat := dec_len n + 1 + n.

Class OxencLaws `{Oxenc} : Prop := {
  write_little_spec w x : write_host_as_little w x = le_bytes w x;
  write_big_spec w x : write_host_as_big w x = be_bytes w x;
  load_little_spec w l : load_little_to_host w l = le_value (take w l);
  load_big_spec w l : load_big_to_host w l = be_value (take w l);
  bt_open_produce kvs : bt_dict_open (bt_dict_produce kvs) = Some (bt_reading [] kvs);
  bt_require_next k v d t :
    bt_require k (bt_reading d ((k, v) :: t)) = Some (v, bt_reading (d ++ [(k, v)]) t);
  bt_maybe_next k v d t :
    bt_maybe k (bt_reading d ((k, v) :: t)) = Some (Some v, bt_reading (d ++ [(k, v)]) t);
  bt_maybe_absent k k' v d t : bytes_ltb k k' = true ->
    bt_maybe k (bt_reading d ((k', v) :: t)) = Some (None, bt_reading d ((k', v) :: t));
  bt_maybe_end k d : bt_maybe k (bt_reading d []) = Some (None, bt_reading d []);
  bt_require_past k k' v d t : bytes_ltb k' k = true ->
    bt_require k (bt_reading d ((k', v) :: t)) = bt_require k (bt_reading (d ++ [(k', v)]) t);
  bt_maybe_past k k' v d t : bytes_ltb k' k = true ->
    bt_maybe k (bt_reading d ((k', v) :: t)) = bt_maybe k (bt_reading (d ++ [(k', v)]) t);
  bt_require_signature_next k s d t :
    bt_require_signature k (bt_reading d ((k, BStr s) :: t)) =
    Some (bt_signed_data d, s, bt_reading (d ++ [(k, BStr s)]) t);
  bt_finish_end d : bt_finish (bt_reading d []) = true;
  bt_skip_until_here k v d t :
    bt_skip_until k (bt_reading d ((k, v) :: t)) = Some (true, bt_reading d ((k, v) :: t));
  bt_skip_until_past k k' v d t : bytes_ltb k' k = true ->
    bt_skip_until k (bt_reading d ((k', v) :: t)) = bt_skip_until k (bt_reading (d ++ [(k', v)]) t);
  bt_skip_until_absent k k' v d t : bytes_ltb k k' = true ->
    bt_skip_until k (bt_reading d ((k', v) :: t)) = Some (false, bt_reading d ((k', v) :: t));
  bt_key_next k v d t : bt_key (bt_reading d ((k, v) :: t)) = Some k;
  bt_next_integer_next k z d t :
    bt_next_integer (bt_reading d ((k, BInt z) :: t)) = Some (k, z, bt_reading (d ++ [(k, BInt z)]) t);
  bt_next_string_next k s d t :
    bt_next_string (bt_reading d ((k, BStr s) :: t)) = Some (k, s, bt_reading (d ++ [(k, BStr s)]) t);
  bt_next_list_next k l d t :
    bt_next_list (bt_reading d ((k, BList l) :: t)) = Some (k, l, bt_reading (d ++ [(k, BList l)]) t);
  bt_next_dict_next k l d t :
    bt_next_dict (bt_reading d ((k, BDict l) :: t)) = Some (k, l, bt_reading (d ++ [(k, BDict l)]) t);
  bt_finish_more d kv t : bt_finish (bt_reading d (kv :: t)) = false;
  bt_key_offset_next k v d t :
    bt_key_offset (bt_reading d ((k, v) :: t)) =
    length (bt_signed_data d) + length (str_header (length k));
  (** The format: [d], the pairs one after the other, [e]; a string is its length,
      a colon and its bytes. *)
  bt_signed_nil : bt_signed_data [] = [100%Z];
  bt_signed_snoc d k v :
    bt_signed_data (d ++ [(k, v)]) = bt_signed_data d ++ bt_value (BStr k) ++ bt_value v;
  bt_produce_signed kvs : bt_dict_produce kvs = bt_signed_data kvs ++ [101%Z];
  bt_list_dict_data_list ds :
    bt_list_dict_data (108%Z :: concat (bt_dict_produce <$> ds) ++ [101%Z])
    = (bt_dict_produce <$> ds, true);
  bt_list_open_value l : bt_list_open (bt_value (BList l)) = Some l;
  bt_value_list_head l : head (bt_value (BList l)) = Some 108%Z;
  bt_value_str s : bt_value (BStr s) = str_header (length s) ++ s;
  bt_produce_head kvs : head (bt_dict_produce kvs) = Some 100%Z;
  bt_produce_length (kvs : list (bytes * bytes)) :
    length (bt_dict_produce (prod_map id BStr <$> kvs)) =
    2 + sum_list_with (fun kv => bt_str_len (length kv.1) + bt_str_len (length kv.2)) kvs;
}.

(** Key and text literals. *)
Definition str (s : string) : bytes :=
  (fun a => Z.of_N (Ascii.N_of_ascii a)) <$> String.list_ascii_of_string s.

(** ** An instance: plain byte order codecs and bencode *)
Section Btval_ind.
Context (P : btval -> Prop).
Context (Hstr : forall s, P (BStr s)) (Hint : forall z, P (BInt z)).
Context (Hlist : forall l, Forall P l -> P (BList l)).
Context (Hdict : forall d, Forall (fun kv => P kv.2) d -> P (BDict d)).

Fixpoint btval_rect' (v : btval) : P v :=
  match v with
  | BStr s => Hstr s
  | BInt z => Hint z
  | BList l => Hlist l ((fix go l : Forall P l :=
      match l with
      | [] => Forall_nil_2 _
      | v :: l => Forall_cons_2 _ _ _ (btval_rect' v) (go l)
      end) l)
  | BDict d => Hdict d ((fix go d : Forall (fun kv => P kv.2) d :=
      match d with
      | [] => Forall_nil_2 _
      | kv :: d => Forall_cons_2 _ _ _ (btval_rect' kv.2) (go d)
      end) d)
  end.
End Btval_ind.

Module Bencode.

Definition digit (b : Z) : option (Decimal.uint -> Decimal.uint) :=
  match b with
  | 48%Z => Some Decimal.D0 | 49%Z => Some Decimal.D1 | 50%Z => Some Decimal.D2
  | 51%Z => Some Decimal.D3 | 52%Z => Some Decimal.D4 | 53%Z => Some Decimal.D5
  | 54%Z => Some Decimal.D6 | 55%Z => Some Decimal.D7 | 56%Z => Some Decimal.D8
  | 57%Z => Some Decimal.D9 | _ => None
  end.

Fixpoint parse_uint (l : bytes) : Decimal.uint * bytes :=
  match l with
  | [] => (Decimal.Nil, [])
  | b :: l' => match digit b with
               | Some d => let '(u, r) := parse_uint l' in (d u, r)
               | None => (Decimal.Nil, l)
               end
  end.

Definition enc_str (s : bytes) : bytes := uint_bytes (Nat.to_uint (length s)) ++ 58%Z :: s.

Definition enc_int (z : Z) : bytes :=
  match Z.to_int z with
  | Decimal.Pos u => uint_bytes u
  | Decimal.Neg u => 45%Z :: uint_bytes u
  end.

Fixpoint enc (v : btval) : bytes :=
  match v with
  | BStr s => enc_str s
  | BInt z => 105%Z :: enc_int z ++ [101%Z]
  | BList l => 108%Z :: concat (enc <$> l) ++ [101%Z]
  | BDict d => 100%Z :: concat ((fun kv => enc_str kv.1 ++ enc kv.2) <$> d) ++ [101%Z]
  end.

Definition parse_str (l : bytes) : option (bytes * bytes) :=
  let '(u, r) := parse_uint l in
  match r with
  | 58%Z :: r => let n := Nat.of_uint u in
                 if decide (n <= length r) then Some (take n r, drop n r) else None
  | _ => None
  end.

Definition parse_int (l : bytes) : option (Z * bytes) :=
  let '(i, r) := match l with
                 | 45%Z :: l => let '(u, r) := parse_uint l in (Decimal.Neg u, r)
                 | _ => let '(u, r) := parse_uint l in (Decimal.Pos u, r)
                 end in
  match r with
  | 101%Z :: r => Some (Z.of_int i, r)
  | _ => None
  end.

Fixpoint parse_val (fuel : nat) (l : bytes) {struct fuel} : option (btval * bytes) :=
  match fuel with
  | O => None
  | S f =>
    match l with
    | 105%Z :: l => '(z, r) ← parse_int l; Some (BInt z, r)
    | 108%Z :: l => '(vs, r) ← parse_list f l; Some (BList vs, r)
    | 100%Z :: l => '(d, r) ← parse_dict f l; Some (BDict d, r)
    | _ => '(s, r) ← parse_str l; Some (BStr s, r)
    end
  end
with parse_list (fuel : nat) (l : bytes) {struct fuel} : option (list btval * bytes) :=
  match fuel with
  | O => None
  | S f =>
    match l with
    | 101%Z :: l => Some ([], l)
    | _ => '(v, r) ← parse_val f l; '(vs, r) ← parse_list f r; Some (v :: vs, r)
    end
  end
with parse_dict (fuel : nat) (l : bytes) {struct fuel} : option (list (bytes * btval) * bytes) :=
  match fuel with
  | O => None
  | S f =>
    match l with
    | 101%Z :: l => Some ([], l)
    | _ => '(k, r) ← parse_str l; '(v, r) ← parse_val f r;
           '(d, r) ← parse_dict f r; Some ((k, v) :: d, r)
    end
  end.

Definition open (l : bytes) : option (list (bytes * btval)) :=
  match l with
  | 100%Z :: r => fst <$> parse_dict (2 * length l) r
  | _ => None
  end.

(** A consumer: the pairs read or skipped so far and the pairs left. *)
Abbreviation consumer := (list (bytes * btval) * list (bytes * btval))%type.

(** [skip_until]: skips the keys before [k]; says whether [k] is next. *)
Fixpoint skip_until (k : bytes) (d t : list (bytes * btval)) : consumer :=
  match t with
  | [] => (d, [])
  | (k', v) :: t' => if bytes_ltb k' k then skip_until k (d ++ [(k', v)]) t' else (d, t)
  end.

Definition maybe (k : bytes) (c : consumer) : option (option btval * consumer) :=
  match skip_until k c.1 c.2 with
  | (d, (k', v) :: t) =>
      if decide (k = k') then Some (Some v, (d ++ [(k', v)], t)) else Some (None, (d, (k', v) :: t))
  | (d, []) => Some (None, (d, []))
  end.

Definition require (k : bytes) (c : consumer) : option (btval * consumer) :=
  match maybe k c with
  | Some (Some v, c) => Some (v, c)
  | _ => None
  end.

Definition signed_data (d : list (bytes * btval)) : bytes :=
  100%Z :: concat ((fun kv => enc_str kv.1 ++ enc kv.2) <$> d).

Definition require_signature (k : bytes) (c : consumer) : option (bytes * bytes * consumer) :=
  match require k c with
  | Some (BStr s, (d, t)) => Some (signed_data (take (length d - 1) d), s, (d, t))
  | _ => None
  end.

Definition skip (k : bytes) (c : consumer) : option (bool * consumer) :=
  let '(d, t) := skip_until k c.1 c.2 in
  Some (match t with (k', _) :: _ => bool_decide (k = k') | [] => false end, (d, t)).

Definition key (c : consumer) : option bytes := fst <$> head c.2.

Definition next_integer (c : consumer) : option (bytes * Z * consumer) :=
  match c with
  | (d, (k, BInt z) :: t) => Some (k, z, (d ++ [(k, BInt z)], t))
  | _ => None
  end.

Definition next_string (c : consumer) : option (bytes * bytes * consumer) :=
  match c with
  | (d, (k, BStr s) :: t) => Some (k, s, (d ++ [(k, BStr s)], t))
  | _ => None
  end.

Definition next_list (c : consumer) : option (bytes * list btval * consumer) :=
  match c with
  | (d, (k, BList l) :: t) => Some (k, l, (d ++ [(k, BList l)], t))
  | _ => None
  end.

Definition next_dict (c : consumer) : option (bytes * list (bytes * btval) * consumer) :=
  match c with
  | (d, (k, BDict l) :: t) => Some (k, l, (d ++ [(k, BDict l)], t))
  | _ => None
  end.

Definition key_offset (c : consumer) : nat :=
  length (signed_data c.1) + length (str_header (from_option length 0 (key c))).

Fixpoint dict_data (fuel : nat) (l : bytes) : list bytes * bool :=
  match fuel with
  | O => ([], false)
  | S f =>
    match l with
    | 101%Z :: _ => ([], true)
    | 100%Z :: r =>
        match parse_dict (2 * length l) r with
        | Some (_, r) => let '(ds, b) := dict_data f r in (take (length l - length r) l :: ds, b)
        | None => ([], false)
        end
    | _ => ([], false)
    end
  end.

Definition list_dict_data (l : bytes) : list bytes * bool :=
  match l with
  | 108%Z :: r => dict_data (length l) r
  | _ => ([], false)
  end.

Definition list_open (l : bytes) : option (list btval) :=
  match l with
  | 108%Z :: r => fst <$> parse_list (2 * length l) r
  | _ => None
  end.

Definition finish (c : consumer) : bool := match c.2 with [] => true | _ => false end.

End Bencode.

Definition bencode : Oxenc := {|
  write_host_as_little := le_bytes;
  write_host_as_big := be_bytes;
  load_little_to_host w l := le_value (take w l);
  load_big_to_host w l := be_value (take w l);
  bt_dict_produce kvs := Bencode.enc (BDict kvs);
  bt_consumer := list (bytes * btval) * list (bytes * btval);
  bt_dict_open l := pair [] <$> Bencode.open l;
  bt_require := Bencode.require;
  bt_maybe := Bencode.maybe;
  bt_require_signature := Bencode.require_signature;
  bt_finish := Bencode.finish;
  bt_skip_until := Bencode.skip;
  bt_key := Bencode.key;
  bt_next_integer := Bencode.next_integer;
  bt_next_string := Bencode.next_string;
  bt_next_list := Bencode.next_list;
  bt_next_dict := Bencode.next_dict;
  bt_key_offset := Bencode.key_offset;
  bt_list_dict_data := Bencode.list_dict_data;
  bt_list_open := Bencode.list_open;
  bt_value := Bencode.enc;
  bt_signed_data := Bencode.signed_data;
  bt_reading d t := (d, t) |}.

(** ** The instance satisfies the laws *)
Section BencodeLaws.
Import Bencode.

Lemma parse_uint_bytes u c r :
  digit c = None -> parse_uint (uint_bytes u ++ c :: r) = (u, c :: r).
Proof. intros Hc. induction u; simpl; rewrite ?Hc, ?IHu; done. Qed.

Lemma length_uint_bytes u : length (uint_bytes u) = Decimal.nb_digits u.
Proof. induction u; simpl; congruence. Qed.

Lemma parse_str_enc s r : parse_str (enc_str s ++ r) = Some (s, r).
Proof.
  unfold parse_str, enc_str. rewrite <-app_assoc. simpl.
  rewrite parse_uint_bytes by done.
  rewrite Unsigned.of_to, decide_True by (rewrite length_app; lia).
  by rewrite take_app_length, drop_app_length.
Qed.

Lemma uint_bytes_head u c r :
  digit c = None -> exists b t, uint_bytes u ++ c :: r = b :: t /\ (48 <= b <= 57 \/ b = c)%Z.
Proof. intros. destruct u; simpl; eexists _, _; (split; [done|]); lia. Qed.

Lemma parse_int_enc z r : parse_int (enc_int z ++ 101%Z :: r) = Some (z, r).
Proof.
  unfold parse_int, enc_int. pose proof (DecimalZ.of_to z) as Hz.
  destruct (Z.to_int z) as [u|u].
  - pose proof (parse_uint_bytes u 101 r ltac:(done)) as Hp.
    destruct (uint_bytes_head u 101 r ltac:(done)) as (b & t & E & Hb).
    rewrite E in Hp |- *. repeat case_match; simplify_eq; first [done | lia].
  - simpl. rewrite parse_uint_bytes by done. by rewrite Hz.
Qed.

(** The head of a string's encoding is a digit. *)
Lemma enc_str_head s r : exists b t, enc_str s ++ r = b :: t /\ (48 <= b <= 58)%Z.
Proof.
  unfold enc_str. rewrite <-app_assoc. simpl.
  destruct (uint_bytes_head (Nat.to_uint (length s)) 58 (s ++ r) ltac:(done)) as (b & t & -> & ?).
  eexists _, _; split; [done|lia].
Qed.

Fixpoint size_val (v : btval) : nat :=
  match v with
  | BStr _ | BInt _ => 1
  | BList l => 2 + sum_list_with (fun v => S (size_val v)) l
  | BDict d => 2 + sum_list_with (fun kv => S (size_val kv.2)) d
  end.

Lemma enc_head v r : exists b t, enc v ++ r = b :: t /\ (48 <= b <= 58 \/ b = 105 \/ b = 108 \/ b = 100)%Z.
Proof.
  destruct v; simpl; try (eexists _, _; split; [done|lia]).
  destruct (enc_str_head s r) as (b & t & -> & ?). eexists _, _; split; [done|lia].
Qed.

Lemma parse_list_enc l : Forall (fun v => forall f r, size_val v <= f ->
    parse_val f (enc v ++ r) = Some (v, r)) l ->
  forall f r, S (sum_list_with (fun v => S (size_val v)) l) <= f ->
    parse_list f (concat (enc <$> l) ++ 101%Z :: r) = Some (l, r).
Proof.
  induction 1 as [|v l Hv _ IH]; intros f r Hf; (destruct f as [|f]; [simpl in Hf; lia|]); [done|].
  rewrite fmap_cons. simpl concat. rewrite <-app_assoc.
  destruct (enc_head v (concat (enc <$> l) ++ 101%Z :: r)) as (b & t & E & Hb).
  rewrite E. assert (parse_list (S f) (b :: t) = '(v, r) ← parse_val f (b :: t);
    '(vs, r) ← parse_list f r; Some (v :: vs, r)) as ->.
  { simpl. repeat case_match; first [done | lia]. }
  simpl in Hf. rewrite <-E, Hv by lia. simpl. rewrite IH by lia. done.
Qed.

Lemma parse_dict_enc d : Forall (fun kv => forall f r, size_val kv.2 <= f ->
    parse_val f (enc kv.2 ++ r) = Some (kv.2, r)) d ->
  forall f r, S (sum_list_with (fun kv => S (size_val kv.2)) d) <= f ->
    parse_dict f (concat ((fun kv => enc_str kv.1 ++ enc kv.2) <$> d) ++ 101%Z :: r) = Some (d, r).
Proof.
  induction 1 as [|[k v] d Hv _ IH]; intros f r Hf; (destruct f as [|f]; [simpl in Hf; lia|]); [done|].
  rewrite fmap_cons. simpl concat. rewrite <-!app_assoc.
  match goal with |- parse_dict _ (_ ++ ?x) = _ =>
    destruct (enc_str_head k x) as (b & t & E & Hb) end.
  rewrite E. assert (parse_dict (S f) (b :: t) = '(k, r) ← parse_str (b :: t);
    '(v, r) ← parse_val f r; '(d, r) ← parse_dict f r; Some ((k, v) :: d, r)) as ->.
  { simpl. repeat case_match; first [done | lia]. }
  simpl in Hf, Hv. rewrite <-E, parse_str_enc. simpl. rewrite Hv by lia. simpl. by rewrite IH by lia.
Qed.

Lemma parse_val_enc v f r : size_val v <= f -> parse_val f (enc v ++ r) = Some (v, r).
Proof.
  revert f r. induction v as [s|z|l IH|d IH] using btval_rect';
    intros f r Hf; (destruct f as [|f]; [simpl in Hf; lia|]).
  - simpl enc. destruct (enc_str_head s r) as (b & t & E & Hb). rewrite E.
    assert (parse_val (S f) (b :: t) = '(s, r) ← parse_str (b :: t); Some (BStr s, r)) as ->.
    { simpl. repeat case_match; first [done | lia]. }
    by rewrite <-E, parse_str_enc.
  - simpl. rewrite <-app_assoc. simpl. by rewrite parse_int_enc.
  - simpl. rewrite <-app_assoc. simpl. simpl in Hf. rewrite parse_list_enc; [done|done|lia].
  - simpl. rewrite <-app_assoc. simpl. simpl in Hf. rewrite parse_dict_enc; [done|done|lia].
Qed.

Lemma length_enc_str s : length (enc_str s) = bt_str_len (length s).
Proof. unfold enc_str, bt_str_len, dec_len. rewrite length_app, length_uint_bytes. simpl. lia. Qed.

Lemma size_val_le v : S (size_val v) <= 2 * length (enc v).
Proof.
  assert (forall s, 2 <= length (enc_str s)) as Hs.
  { intros s. rewrite length_enc_str. unfold bt_str_len, dec_len.
    destruct (length s) as [|n]; simpl; [lia|lia]. }
  induction v as [s|z|l IH|d IH] using btval_rect'; simpl.
  - specialize (Hs s). lia.
  - lia.
  - rewrite length_app; simpl length. induction IH; [simpl; lia|].
    rewrite fmap_cons. simpl sum_list_with. simpl concat. rewrite length_app. lia.
  - rewrite length_app; simpl length. induction IH as [|[k v] d]; [simpl; lia|].
    rewrite fmap_cons. simpl sum_list_with. simpl concat. rewrite !length_app. simpl in H.
    specialize (Hs k). lia.
Qed.
End BencodeLaws.

Lemma bytes_ltb_irrefl k : bytes_ltb k k = false.
Proof. induction k as [|x k IH]; [done|]. simpl. rewrite IH, Z.ltb_irrefl. by rewrite andb_false_r. Qed.

Lemma bytes_ltb_asym a b : bytes_ltb a b = true -> bytes_ltb b a = false.
Proof.
  revert b. induction a as [|x a IH]; intros [|y b]; simpl; try done.
  destruct (Z.ltb_spec x y), (Z.ltb_spec y x), (Z.eqb_spec x y), (Z.eqb_spec y x);
    simpl; try lia; try done. apply IH.
Qed.

Lemma bencode_maybe_next k v d t :
  Bencode.maybe k (d, (k, v) :: t) = Some (Some v, (d ++ [(k, v)], t)).
Proof. unfold Bencode.maybe. simpl. by rewrite bytes_ltb_irrefl, decide_True. Qed.

Lemma dict_data_enc ds fuel :
  length (concat ((fun kvs => Bencode.enc (BDict kvs)) <$> ds)) < fuel ->
  Bencode.dict_data fuel (concat ((fun kvs => Bencode.enc (BDict kvs)) <$> ds) ++ [101%Z])
  = ((fun kvs => Bencode.enc (BDict kvs)) <$> ds, true).
Proof.
  revert fuel. induction ds as [|kvs ds IH]; intros fuel Hf; (destruct fuel as [|fuel]; [simpl in Hf; lia|]); [done|].
  rewrite fmap_cons in *. cbn [concat] in *. rewrite length_app in Hf. rewrite <-app_assoc.
  set (tail := concat ((fun kvs => Bencode.enc (BDict kvs)) <$> ds) ++ [101%Z]) in *.
  pose proof (size_val_le (BDict kvs)) as Hs.
  assert (Bencode.enc (BDict kvs) ++ tail = 100%Z :: concat ((fun kv => Bencode.enc_str kv.1 ++ Bencode.enc kv.2) <$> kvs) ++ 101%Z :: tail) as E.
  { simpl. by rewrite <-app_assoc. }
  assert (forall r, Bencode.dict_data (S fuel) (100%Z :: r) =
    match Bencode.parse_dict (2 * length (100%Z :: r)) r with
    | Some (_, r') => let '(ds, b) := Bencode.dict_data fuel r' in (take (length (100%Z :: r) - length r') (100%Z :: r) :: ds, b)
    | None => ([], false)
    end) as Hd by done.
  rewrite E, Hd. rewrite parse_dict_enc; [| |rewrite <-E, length_app; simpl in *; lia].
  2: { apply Forall_true. intros. by apply parse_val_enc. }
  rewrite IH by (simpl in *; lia). rewrite <-E, length_app, Nat.add_sub, take_app_length. done.
Qed.

Lemma bencode_laws : @OxencLaws bencode.
Proof.
  constructor; try (intros; reflexivity).
  - intros kvs. pose proof (size_val_le (BDict kvs)) as Hs.
    change (pair [] <$> (fst <$> Bencode.parse_dict (2 * length (Bencode.enc (BDict kvs)))
      (concat ((fun kv => Bencode.enc_str kv.1 ++ Bencode.enc kv.2) <$> kvs) ++ [101%Z]))
      = Some ([] : list (bytes * btval), kvs)).
    rewrite parse_dict_enc; [done| |simpl in *; lia].
    apply Forall_true. intros. by apply parse_val_enc.
  - intros. cbn. unfold Bencode.require. by rewrite bencode_maybe_next.
  - intros. apply bencode_maybe_next.
  - intros k k' v d t Hk. cbn. unfold Bencode.maybe. simpl.
    rewrite (bytes_ltb_asym _ _ Hk), decide_False; [done|].
    intros <-. by rewrite bytes_ltb_irrefl in Hk.
  - intros k k' v d t Hk. cbn. unfold Bencode.require, Bencode.maybe. simpl. by rewrite Hk.
  - intros k k' v d t Hk. cbn. unfold Bencode.maybe. simpl. by rewrite Hk.
  - intros. cbn. unfold Bencode.require_signature, Bencode.require. rewrite bencode_maybe_next.
    rewrite length_app. simpl. by rewrite Nat.add_sub, take_app_length.
  - intros. cbn. unfold Bencode.skip. simpl. by rewrite bytes_ltb_irrefl, bool_decide_true.
  - intros k k' v d t Hk. cbn. unfold Bencode.skip. simpl. by rewrite Hk.
  - intros k k' v d t Hk. cbn. unfold Bencode.skip. simpl. rewrite (bytes_ltb_asym _ _ Hk).
    rewrite bool_decide_false; [done|]. intros <-. by rewrite bytes_ltb_irrefl in Hk.
  - intros. cbn. unfold Bencode.signed_data. rewrite fmap_app, concat_app. simpl.
    by rewrite app_nil_r.
  - intros ds. change (Bencode.dict_data (S (length (concat ((fun kvs => Bencode.enc (BDict kvs)) <$> ds) ++ [101%Z])))
      (concat ((fun kvs => Bencode.enc (BDict kvs)) <$> ds) ++ [101%Z]) =
      ((fun kvs => Bencode.enc (BDict kvs)) <$> ds, true)).
    apply dict_data_enc. rewrite length_app. simpl. lia.
  - intros l. pose proof (size_val_le (BList l)) as Hs.
    change (fst <$> Bencode.parse_list (2 * length (Bencode.enc (BList l))) (concat (Bencode.enc <$> l) ++ [101%Z]) = Some l).
    rewrite parse_list_enc; [done| |simpl in *; lia]. apply Forall_true. intros. by apply parse_val_enc.
  - intros. cbn. unfold Bencode.enc_str, str_header. by rewrite <-app_assoc.
  - intros kvs. simpl. rewrite length_app. simpl length.
    induction kvs as [|[k v] kvs IH]; [done|].
    rewrite !fmap_cons. simpl concat. simpl sum_list_with.
    rewrite !length_app, !length_enc_str. simpl in *. lia.
Qed.

(** ** Decimal numerals *)
(** A number of [d] digits, [d > 1], is at least [10 ^ (d - 1)]. *)
Lemma nb_digits_lower n :
  1 < Decimal.nb_digits (Nat.to_uint n) -> 10 ^ (Decimal.nb_digits (Nat.to_uint n) - 1) <= n.
Proof.
  assert (Decimal.unorm (Nat.to_uint n) = Nat.to_uint n) as Hn
    by by rewrite <-Unsigned.to_of, Unsigned.of_to.
  rewrite <-(Unsigned.of_to n) at 3.
  destruct (Nat.to_uint n) as [|u|u|u|u|u|u|u|u|u|u]; cbn [Decimal.nb_digits]; intros Hd; [lia| |..].
  1: { unfold Decimal.unorm in Hn. destruct (Decimal.nzhead (Decimal.D0 u)) eqn:E; try discriminate.
       - injection Hn as <-. simpl in Hd. lia.
       - by apply DecimalFacts.nzhead_nonzero in E. }
  all: rewrite Nat.sub_succ, Nat.sub_0_r; unfold Nat.of_uint; cbn [Nat.of_uint_acc];
    rewrite Unsigned.of_uint_acc_spec; simpl Nat.tail_mul; change Unsigned.usize with Decimal.nb_digits; lia.
Qed.

Lemma str_header_length n k :
  (Z.of_nat n < 10 ^ Z.of_nat k)%Z -> 1 <= k -> length (str_header n) <= k + 1.
Proof.
  intros Hn Hk. unfold str_header. rewrite length_app, length_uint_bytes. simpl length.
  destruct (decide (Decimal.nb_digits (Nat.to_uint n) <= k)); [lia|]. exfalso.
  pose proof (nb_digits_lower n ltac:(lia)) as Hl.
  apply Nat2Z.inj_le in Hl. rewrite Nat2Z.inj_pow in Hl.
  pose proof (Z.pow_le_mono_r 10 (Z.of_nat k) (Z.of_nat (Decimal.nb_digits (Nat.to_uint n) - 1)) ltac:(lia) ltac:(lia)).
  simpl Z.of_nat in Hl. lia.
Qed.

(** ** Reading back what was produced, with the typed accessors *)
Section Reading.
Context `{OxencLaws}.

Lemma bt_require_string_next k s d t :
  bt_require_string k (bt_reading d ((k, BStr s) :: t)) = Some (s, bt_reading (d ++ [(k, BStr s)]) t).
Proof. unfold bt_require_string. by rewrite bt_require_next. Qed.

Lemma bt_require_int_next k z d t :
  bt_require_int k (bt_reading d ((k, BInt z) :: t)) = Some (z, bt_reading (d ++ [(k, BInt z)]) t).
Proof. unfold bt_require_int. by rewrite bt_require_next. Qed.

Lemma bt_require_span_next n k s d t :
  length s = n ->
  bt_require_span n k (bt_reading d ((k, BStr s) :: t)) = Some (s, bt_reading (d ++ [(k, BStr s)]) t).
Proof. intros. unfold bt_require_span. by rewrite bt_require_string_next, decide_True. Qed.

Lemma bt_maybe_int_next k z d t :
  bt_maybe_int k (bt_reading d ((k, BInt z) :: t)) = Some (Some z, bt_reading (d ++ [(k, BInt z)]) t).
Proof. unfold bt_maybe_int. by rewrite bt_maybe_next. Qed.

Lemma bt_maybe_int_absent k k' v d t :
  bytes_ltb k k' = true ->
  bt_maybe_int k (bt_reading d ((k', v) :: t)) = Some (None, bt_reading d ((k', v) :: t)).
Proof. intros. unfold bt_maybe_int. by rewrite bt_maybe_absent. Qed.

Lemma bt_maybe_string_next k s d t :
  bt_maybe_string k (bt_reading d ((k, BStr s) :: t)) =
  Some (Some s, bt_reading (d ++ [(k, BStr s)]) t).
Proof. unfold bt_maybe_string. by rewrite bt_maybe_next. Qed.

Lemma bt_maybe_string_absent k k' v d t :
  bytes_ltb k k' = true ->
  bt_maybe_string k (bt_reading d ((k', v) :: t)) = Some (None, bt_reading d ((k', v) :: t)).
Proof. intros. unfold bt_maybe_string. by rewrite bt_maybe_absent. Qed.
End Reading.

(** Runs a consumer over the pairs a producer wrote. *)
Ltac bt_step :=
  first [ rewrite bt_open_produce
        | rewrite bt_require_string_next
        | rewrite bt_require_int_next
        | rewrite bt_require_span_next by (first [done | assumption])
        | rewrite bt_maybe_int_next
        | rewrite bt_maybe_string_next
        | rewrite bt_maybe_int_absent by done
        | rewrite bt_maybe_string_absent by done
        | rewrite bt_require_signature_next
        | rewrite bt_finish_end ];
  cbn [outcome_bind or_throw default from_option id app].
