(* ===== verification/Messages.v ===== *)
(** * Status responses (messages/common.hpp, messages/common.cpp)

    The bt dictionaries with a single status that relays answer with. *)

From Stdlib Require Import ZArith.
From stdpp Require Import base list strings.
From S2P Require Import Prelude Oxenc.

Section Status.
Context `{Oxenc}.

(** [messages::serialize_status_response(value)] *)
Definition serialize_status_response (value : bytes) : bytes :=
  bt_dict_produce [(str "!", BStr value)].
Definition OK_RESPONSE : bytes := serialize_status_response (str "OK").
Definition TIMEOUT_RESPONSE : bytes := serialize_status_response (str "TIMEOUT").
Definition ERROR_RESPONSE : bytes := serialize_status_response (str "ERROR").
Definition NOT_FOUND_RESPONSE : bytes := serialize_status_response (str "NOT FOUND").
Definition EXPIRED_RESPONSE : bytes := serialize_status_response (str "SLOW CLOCK").
Definition FUTURE_RESPONSE : bytes := serialize_status_response (str "FAST CLOCK").
End Status.
