(* ===== verification/Str.v ===== *)
(** * String helpers (util/str.{hpp,cpp}) and SNS names (contact/sns.cpp)

    A string is the list of its bytes.  The loops of [split] and [split_any] cut at
    least one byte off the string per iteration, so its length is enough fuel. *)

From Stdlib Require Import ZArith Lia.
From stdpp Require Import base list numbers strings sets.
From S2P Require Import Prelude Oxenc.

Local Open Scope Z_scope.
Local Open Scope router_scope.

(** [starts_with], [ends_with], [find] and [find_first_of] of std::string_view *)
Definition starts_with (s p : bytes) : bool := bool_decide (take (length p) s = p).
Definition ends_with (s p : bytes) : bool :=
  bool_decide (length p <= length s)%nat && bool_decide (drop (length s - length p) s = p).
Fixpoint str_find (d s : bytes) : option nat :=
  if starts_with s d then Some 0%nat
  else match s with [] => None | _ :: s => S <$> str_find d s end.
Fixpoint find_first (p : Z -> bool) (s : bytes) : option nat :=
  match s with
  | [] => None
  | c :: s => if p c then Some 0%nat else S <$> find_first p s
  end.
Definition remove_suffix (n : nat) (s : bytes) : bytes := take (length s - n) s.

(** [strip_prefix(str, prefix)] *)
Definition strip_prefix (s p : bytes) : bytes := if starts_with s p then drop (length p) s else s.

(** Appending a piece in [split]: leading empty pieces are left out when trimming. *)
Definition push_piece (trim : bool) (results : list bytes) (piece : bytes) : list bytes :=
  if negb trim || negb (bool_decide (results = [])) || negb (bool_decide (piece = [])) then results ++ [piece]
  else results.

(** [while (!results.empty() && results.back().empty()) results.pop_back();] *)
Fixpoint drop_empty (l : list bytes) : list bytes :=
  match l with
  | [] :: l => drop_empty l
  | _ => l
  end.
Definition pop_empty (results : list bytes) : list bytes := rev (drop_empty (rev results)).

Definition finish_split (trim : bool) (r : list bytes * bytes) : list bytes :=
  if negb trim || negb (bool_decide (r.2 = [])) then r.1 ++ [r.2] else pop_empty r.1.

(** The loop of [split]: the pieces so far and the rest of the string. *)
Fixpoint split_loop (fuel : nat) (delim : bytes) (trim : bool) (results : list bytes) (s : bytes)
    : list bytes * bytes :=
  match fuel with
  | O => (results, s)
  | S fuel =>
    match str_find delim s with
    | None => (results, s)
    | Some pos => split_loop fuel delim trim (push_piece trim results (take pos s)) (drop (pos + length delim) s)
    end
  end.

(** [split(str, delim, trim)] *)
Definition split (s delim : bytes) (trim : bool) : list bytes :=
  match delim with
  | [] => (fun c => [c]) <$> s
  | _ => finish_split trim (split_loop (length s) delim trim [] s)
  end.

(** The loop of [split_any] *)
Fixpoint split_any_loop (fuel : nat) (delims : Z -> bool) (trim : bool) (results : list bytes) (s : bytes)
    : list bytes * bytes :=
  match fuel with
  | O => (results, s)
  | S fuel =>
    match find_first delims s with
    | None => (results, s)
    | Some pos =>
      let results := push_piece trim results (take pos s) in
      match find_first (fun c => negb (delims c)) (drop (pos + 1) s) with
      | None => split_any_loop fuel delims trim results []
      | Some until => split_any_loop fuel delims trim results (drop (pos + 1 + until) s)
      end
    end
  end.

(** [split_any(str, delims, trim)] *)
Definition split_any (s delims : bytes) (trim : bool) : list bytes :=
  match delims with
  | [] => split s delims trim
  | _ => finish_split trim (split_any_loop (length s) (fun c => bool_decide (c ∈ delims)) trim [] s)
  end.

Definition is_digit (c : Z) : bool := (48 <=? c) && (c <=? 57).
Definition is_lower (c : Z) : bool := (97 <=? c) && (c <=? 122).

(** [parse_int(str, value)] into an unsigned integer of [w] bits, base 10: std::from_chars
    takes the digits and fails when there are none or the value does not fit. *)
Definition digits_value (s : bytes) : Z := foldl (fun v c => 10 * v + (c - 48)) 0 s.
Definition parse_uint_str (w : Z) (s : bytes) : option Z :=
  if bool_decide (s = []) || negb (forallb is_digit s) then None
  else let v := digits_value s in if v <? 2 ^ w then Some v else None.

(** [parse_int(str, value, 16)]: digits of both cases, and no prefix *)
Definition hex_digit (c : Z) : option Z :=
  if is_digit c then Some (c - 48)
  else if is_lower c && (c <=? 102) then Some (c - 87)
  else if (65 <=? c) && (c <=? 70) then Some (c - 55) else None.
Definition parse_hex_str (w : Z) (s : bytes) : option Z :=
  if bool_decide (s = []) then None
  else ds ← mapM hex_digit s; let v := foldl (fun v d => 16 * v + d) 0 ds in if v <? 2 ^ w then Some v else None.

(** [lowercase_ascii_string] *)
Definition lowercase_ascii_string (s : bytes) : bytes :=
  (fun c => if (65 <=? c) && (c <=? 90) then c + 32 else c) <$> s.

(** [TrimWhitespace]: space, \t, \n, \r, \f, \v *)
Definition is_space (c : Z) : bool := (c =? 32) || (c =? 9) || (c =? 10) || (c =? 13) || (c =? 12) || (c =? 11).
Definition TrimWhitespace (s : bytes) : bytes :=
  match find_first (fun c => negb (is_space c)) s with
  | None => []
  | Some begin =>
    let s := drop begin s in
    match find_first (fun c => negb (is_space c)) (rev s) with
    | Some k => remove_suffix k s
    | None => s
    end
  end.

(** ** SNS names *)
Definition sns_char (c : Z) : bool := (c =? 45) || (c =? 46) || is_lower c || is_digit c.

(** [is_valid_sns(sns_name)] *)
Definition is_valid_sns (sns_name : bytes) : bool :=
  if negb (ends_with sns_name (str ".loki")) then false
  else
    let sns_name := remove_suffix 5 sns_name in
    if negb (forallb sns_char sns_name) then false
    else
      let primaryName := List.last (split sns_name (str ".") false) [] in
      if existsb (fun r => bool_decide (primaryName = r)) [str "localhost"; str "sesh"; str "snode"; str "loki"] then false
      else if negb (existsb (Z.eqb 45) primaryName) then bool_decide (length primaryName <= 32)%nat
      else if starts_with primaryName (str "-") || ends_with primaryName (str "-") then false
      else if bool_decide (63 < length primaryName)%nat then false
      else negb (bool_decide (4 <= length primaryName)%nat && bool_decide (subspan 2 2 primaryName = str "--")
                 && negb (starts_with primaryName (str "xn"))).

(** ** Splitting and joining *)
Fixpoint join (delim : bytes) (l : list bytes) : bytes :=
  match l with
  | [] => []
  | [p] => p
  | p :: l => p ++ delim ++ join delim l
  end.

Lemma starts_with_spec s p : starts_with s p = true <-> exists r, s = p ++ r.
Proof.
  unfold starts_with. rewrite bool_decide_eq_true. split.
  - intros E. exists (drop (length p) s). rewrite <- E at 1. by rewrite take_drop.
  - intros [r ->]. apply take_app_length.
Qed.

Lemma str_find_Some d s p : str_find d s = Some p ->
  s = take p s ++ d ++ drop (p + length d) s /\ (p + length d <= length s)%nat /\
  forall q, (q < p)%nat -> starts_with (drop q s) d = false.
Proof.
  revert p. induction s as [|c s IH]; intros p; cbn [str_find].
  - destruct (starts_with [] d) eqn:E; [|done]. intros [= <-]. apply starts_with_spec in E as [r E].
    destruct d; [|done]. split; [done|]. split; [done|]. intros; lia.
  - destruct (starts_with (c :: s) d) eqn:E.
    + intros [= <-]. apply starts_with_spec in E as [r E]. rewrite E. cbn [take Nat.add app].
      rewrite drop_app_length. split; [done|]. split; [rewrite length_app; lia|]. intros; lia.
    + destruct (str_find d s) as [p'|] eqn:Ef; [|done]. intros [= <-].
      destruct (IH p' eq_refl) as (E1 & E2 & E3). cbn [take Nat.add drop app length].
      split; [by f_equal|]. split; [lia|]. intros [|q] Hq; [done|]. apply E3. lia.
Qed.

Lemma str_find_None d s : str_find d s = None <-> forall q, (q <= length s)%nat -> starts_with (drop q s) d = false.
Proof.
  induction s as [|c s IH]; cbn [str_find].
  - destruct (starts_with [] d) eqn:E.
    + split; [done|]. intros H. pose proof (H 0%nat ltac:(done)) as H0. cbn [drop] in H0. congruence.
    + split; [|done]. intros _ q Hq. by rewrite drop_nil.
  - destruct (starts_with (c :: s) d) eqn:E.
    + split; [done|]. intros H. pose proof (H 0%nat ltac:(lia)) as H0. cbn [drop] in H0. congruence.
    + split.
      * intros Hn [|q] Hq; [done|]. cbn [drop]. cbn [length] in Hq. destruct (str_find d s); [done|]. apply IH; [done | lia].
      * intros H. assert (str_find d s = None) as ->; [|done]. apply IH. intros q Hq. apply (H (S q)). cbn [length]. lia.
Qed.

(** The piece before the first delimiter has none. *)
Lemma str_find_piece d s p : d <> [] -> str_find d s = Some p -> str_find d (take p s) = None.
Proof.
  intros Hd Hf. destruct (str_find_Some d s p Hf) as (_ & Hp & Hno). apply str_find_None. intros q Hq.
  rewrite length_take in Hq. apply not_true_iff_false. intros [r Hr]%starts_with_spec.
  destruct (decide (q < p)%nat) as [Hlt|].
  - specialize (Hno q Hlt). apply not_true_iff_false in Hno. apply Hno, starts_with_spec. exists (r ++ drop p s).
    rewrite app_assoc, <- Hr. rewrite <- (take_drop p s) at 1. rewrite drop_app_le by (rewrite length_take; lia). done.
  - rewrite drop_ge in Hr by (rewrite length_take; lia). by destruct d.
Qed.

Lemma join_cons delim p l : l <> [] -> join delim (p :: l) = p ++ delim ++ join delim l.
Proof. by destruct l. Qed.

Lemma join_snoc delim l p : join delim (l ++ [p]) = concat ((fun x => x ++ delim) <$> l) ++ p.
Proof.
  induction l as [|x l IH]; [done|]. cbn [app]. rewrite join_cons by (by destruct l). rewrite IH. cbn. by rewrite <- !app_assoc.
Qed.

Lemma split_loop_spec fuel delim results s : delim <> [] -> (length s <= fuel)%nat ->
  exists pieces rest, split_loop fuel delim false results s = (results ++ pieces, rest) /\
    s = concat ((fun x => x ++ delim) <$> pieces) ++ rest /\
    Forall (fun p => str_find delim p = None) pieces /\ str_find delim rest = None.
Proof.
  intros Hd. revert results s. induction fuel as [|fuel IH]; intros results s Hs; cbn [split_loop].
  - destruct s; [|simpl in Hs; lia]. exists [], []. rewrite app_nil_r. split; [done|]. split; [done|]. split; [done|].
    by destruct delim.
  - destruct (str_find delim s) as [pos|] eqn:Ef.
    + destruct (str_find_Some _ _ _ Ef) as (E1 & E2 & _). assert (0 < length delim)%nat by (destruct delim; simpl; [done|lia]).
      destruct (IH (results ++ [take pos s]) (drop (pos + length delim) s)) as (ps & rest & E & Es & Hps & Hr);
        [rewrite length_drop; lia|].
      exists (take pos s :: ps), rest. cbn [push_piece negb orb]. rewrite E. split; [by rewrite <- app_assoc|].
      cbn [fmap list_fmap concat]. split; [rewrite E1 at 1; rewrite Es; by rewrite <- !app_assoc|].
      split; [|done]. constructor; [by apply str_find_piece | done].
    + exists [], s. rewrite app_nil_r. done.
Qed.

(** The pieces of a split are free of the delimiter, and joining them gives the
    string back. *)
Lemma split_spec s delim : delim <> [] ->
  join delim (split s delim false) = s /\ Forall (fun p => str_find delim p = None) (split s delim false)
  /\ split s delim false <> [].
Proof.
  intros Hd. unfold split. destruct delim as [|d ds]; [done|].
  destruct (split_loop_spec (length s) (d :: ds) [] s Hd) as (ps & rest & E & Es & Hps & Hr); [done|].
  rewrite E. cbn [finish_split negb orb fst snd app]. rewrite join_snoc. split; [done|].
  split; [apply Forall_app; split; [done | by apply Forall_singleton] | by destruct ps].
Qed.

Lemma str_find_char d s : str_find [d] s = None <-> d ∉ s.
Proof.
  induction s as [|c s IH]; cbn [str_find]; [split; [intros _; set_solver | done]|].
  destruct (starts_with (c :: s) [d]) eqn:E.
  - apply starts_with_spec in E as [r E]. injection E as -> _. split; [done | set_solver].
  - assert (c <> d) as Hc by (intros ->; apply not_true_iff_false in E; apply E, starts_with_spec; by exists s).
    rewrite fmap_None, IH. set_solver.
Qed.

(** A string is cut in one way only into pieces free of a delimiter character. *)
Lemma join_inj d l l' : l <> [] -> l' <> [] -> Forall (fun p => d ∉ p) l -> Forall (fun p => d ∉ p) l' ->
  join [d] l = join [d] l' -> l = l'.
Proof.
  assert (forall p p' r r' : bytes, d ∉ p -> d ∉ p' -> p ++ d :: r = p' ++ d :: r' -> p = p' /\ r = r') as Hcut.
  { induction p as [|x p IH]; intros [|x' p'] r r' Hp Hp' E; cbn [app] in E.
    - by injection E.
    - injection E as -> _. set_solver.
    - injection E as -> _. set_solver.
    - injection E as -> E. destruct (IH p' r r') as [-> ->]; [set_solver | set_solver | done | done]. }
  revert l'. induction l as [|p l IH]; intros l' Hl Hl' Hf Hf' E; [done|]. destruct l' as [|p' l']; [done|].
  apply Forall_cons in Hf as [Hp Hf]. apply Forall_cons in Hf' as [Hp' Hf'].
  destruct (decide (l = [])) as [->|Hln], (decide (l' = [])) as [->|Hln'].
  - cbn [join] in E. by subst.
  - rewrite (join_cons _ p') in E by done. cbn [join] in E. subst p. set_solver.
  - rewrite (join_cons _ p) in E by done. cbn [join] in E. subst p'. set_solver.
  - rewrite !join_cons in E by done. cbn [app] in E. destruct (Hcut p p' _ _ Hp Hp' E) as [-> E'].
    f_equal. by apply IH.
Qed.

Lemma split_join d l : l <> [] -> Forall (fun p => d ∉ p) l -> split (join [d] l) [d] false = l.
Proof.
  intros Hl Hf. destruct (split_spec (join [d] l) [d]) as (E & Hs & Hn); [done|].
  apply (join_inj d); try done. eapply Forall_impl; [exact Hs|]. intros p. apply str_find_char.
Qed.

(** A name whose last label is empty passes: ".loki", "name..loki". *)
Lemma empty_sns_valid : is_valid_sns (str ".loki") = true /\ is_valid_sns (str "name..loki") = true.
Proof. vm_compute. done. Qed.
