(* ===== verification/Crypto.v ===== *)
(** * Cryptography: libsodium as an interface, and the wrappers of src/crypto

    The primitives (XChaCha20, XChaCha20-Poly1305, BLAKE2b, Ed25519 and X25519
    arithmetic, ML-KEM-768) are third-party code: they are the fields of the
    class [Sodium], and what their documentation promises are the laws of
    [SodiumLaws].  The definitions after it are the functions of
    crypto/crypto.cpp and crypto/session_keys.cpp that call them.  [toy] is an
    instance of both classes. *)

From Stdlib Require Import ZArith Lia.
From stdpp Require Import base list numbers strings.
From S2P Require Import Prelude Oxenc.

(** ** Sizes (crypto/crypto.hpp, crypto/keys.hpp) *)
Definition TAG_SIZE : nat := 16.
Definition SYMM_NONCE_SIZE : nat := 24.
Definition SYMM_KEY_SIZE : nat := 32.
Definition PUBKEY_SIZE : nat := 32.

Class Sodium := {
  (** The XChaCha20 key stream of (key, nonce), position by position. *)
  xchacha20_stream : bytes -> bytes -> nat -> Z;
  (** [crypto_aead_xchacha20poly1305_ietf_{en,de}crypt]: message, additional data, nonce, key. *)
  aead_encrypt : bytes -> bytes -> bytes -> bytes -> bytes;
  aead_decrypt : bytes -> bytes -> bytes -> bytes -> option bytes;
  (** BLAKE2b: output length, message, key (empty: none), personalisation (empty: none). *)
  blake2b : nat -> bytes -> bytes -> bytes -> bytes;
  (** Ed25519 and X25519 arithmetic; [None] when libsodium returns non-zero. *)
  ed25519_sk_to_curve25519 : bytes -> bytes;
  ed25519_pk_to_curve25519 : bytes -> option bytes;
  scalarmult_ed25519 : bytes -> bytes -> option bytes;
  scalarmult_ed25519_noclamp : bytes -> bytes -> option bytes;
  scalarmult_curve25519 : bytes -> bytes -> option bytes;
  scalarmult_curve25519_base : bytes -> bytes;
  ed25519_scalar_reduce : bytes -> bytes;
  (** [crypto_sign_detached] (key, message) and [crypto_sign_verify_detached]
      (signature, message, public key). *)
  sign_detached : bytes -> bytes -> bytes;
  sign_verify_detached : bytes -> bytes -> bytes -> bool;
  (** The secret keys [crypto_sign_keypair] produces: seed and public key. *)
  ed25519_keypair : bytes -> Prop;
}.

(** [Ed25519SecretKey::to_pubkey], [pubkey_span]: the last 32 of the 64 bytes. *)
Definition ed25519_pubkey (sk : bytes) : bytes := drop (length sk - 32) sk.

Class SodiumLaws `{Sodium} : Prop := {
  xchacha20_stream_byte k n i : is_byte (xchacha20_stream k n i);
  aead_decrypt_encrypt m ad n k : aead_decrypt (aead_encrypt m ad n k) ad n k = Some m;
  aead_encrypt_length m ad n k : length (aead_encrypt m ad n k) = length m + TAG_SIZE;
  aead_encrypt_bytes m ad n k : is_bytes m -> is_bytes (aead_encrypt m ad n k);
  aead_decrypt_length c ad n k m :
    aead_decrypt c ad n k = Some m -> length c = length m + TAG_SIZE;
  blake2b_buf len m k p : is_buf len (blake2b len m k p);
  ed25519_keypair_buf sk : ed25519_keypair sk -> is_buf 64 sk;
  ed25519_dh a b : ed25519_keypair a -> ed25519_keypair b ->
    scalarmult_ed25519 (ed25519_sk_to_curve25519 a) (ed25519_pubkey b) =
    scalarmult_ed25519 (ed25519_sk_to_curve25519 b) (ed25519_pubkey a);
  ed25519_dh_ok a b : ed25519_keypair a -> ed25519_keypair b ->
    is_Some (scalarmult_ed25519 (ed25519_sk_to_curve25519 a) (ed25519_pubkey b));
  ed25519_sk_to_curve25519_buf sk : ed25519_keypair sk -> is_buf 32 (ed25519_sk_to_curve25519 sk);
  ed25519_to_curve25519 sk : ed25519_keypair sk ->
    ed25519_pk_to_curve25519 (ed25519_pubkey sk) =
    Some (scalarmult_curve25519_base (ed25519_sk_to_curve25519 sk));
  sign_detached_buf sk m : is_buf 64 (sign_detached sk m);
  sign_verify sk m : ed25519_keypair sk ->
    sign_verify_detached (sign_detached sk m) m (ed25519_pubkey sk) = true;
  curve25519_base_buf a : is_buf 32 a -> is_buf 32 (scalarmult_curve25519_base a);
  curve25519_dh a b : is_buf 32 a -> is_buf 32 b ->
    scalarmult_curve25519 a (scalarmult_curve25519_base b) =
    scalarmult_curve25519 b (scalarmult_curve25519_base a);
  curve25519_dh_ok a b : is_buf 32 a -> is_buf 32 b ->
    is_Some (scalarmult_curve25519 a (scalarmult_curve25519_base b));
}.

Section Wrappers.
Context `{Sodium} `{Oxenc}.

(** [crypto::xchacha20(buf, secret, nonce)], in place. *)
Definition xchacha20 (buf secret nonce : bytes) : bytes :=
  xor_stream (xchacha20_stream secret nonce) buf.

(** [xchacha20_poly1305_encrypt_inplace]: [buf] ends with TAG_SIZE bytes of room. *)
Definition xchacha20_poly1305_encrypt_inplace (buf secret nonce ad : bytes) : bytes :=
  let payload_size := length buf - TAG_SIZE in
  aead_encrypt (take payload_size buf) ad nonce secret.

(** [xchacha20_poly1305_decrypt_inplace]: the decrypted front part of [buf]. *)
Definition xchacha20_poly1305_decrypt_inplace (buf secret nonce ad : bytes) : option bytes :=
  if decide (length buf < TAG_SIZE) then None else aead_decrypt buf ad nonce secret.

(** [xchacha20_poly1305_encrypt] / [decrypt] into a fresh vector. *)
Definition xchacha20_poly1305_encrypt (plaintext secret nonce : bytes) : bytes :=
  aead_encrypt plaintext [] nonce secret.

Definition xchacha20_poly1305_decrypt (ciphertext secret nonce : bytes) : option bytes :=
  if decide (length ciphertext < TAG_SIZE) then None else aead_decrypt ciphertext [] nonce secret.

(** [dh]: BLAKE2b of (client_pk, server_pk, shared point), keyed with the nonce. *)
Definition dh (client_pk server_pk : bytes) (we_are_client : bool)
    (local_keys nonce : bytes) : option bytes :=
  let a := ed25519_sk_to_curve25519 local_keys in
  match scalarmult_ed25519 a (if we_are_client then server_pk else client_pk) with
  | None => None
  | Some shared => Some (blake2b SYMM_KEY_SIZE (client_pk ++ server_pk ++ shared) nonce [])
  end.

Definition dh_client (pk sk n : bytes) : option bytes := dh (ed25519_pubkey sk) pk true sk n.

Definition dh_server (pk sk n : bytes) : option bytes := dh pk (ed25519_pubkey sk) false sk n.

(** [dh_client_gen]: the ephemeral key and the nonce are the random draws. *)
Definition dh_client_gen (server_pk eph_keys nonce : bytes)
    : outcome string (bytes * bytes * bytes) :=
  match dh_client server_pk eph_keys nonce with
  | None => Throw "shared secret generation failed"%string
  | Some secret => Ok (secret, ed25519_pubkey eph_keys, nonce)
  end.

Definition shorthash (buf : bytes) : bytes := blake2b 32 buf [] [].

(** The nonce mutation of a hop: [shorthash(secret).first<SymmNonce::SIZE>()]. *)
Definition xor_nonce_of (secret : bytes) : bytes := take SYMM_NONCE_SIZE (shorthash secret).

(** [maybe_decrypt_name]: the client address stored in an SNS record. *)
Definition maybe_decrypt_name (ciphertext nonce namestr : bytes) : option bytes :=
  if decide (Z.of_nat (length ciphertext) - Z.of_nat TAG_SIZE = 32)%Z
  then
    let namehash := shorthash namestr in
    let derivedKey := blake2b 32 namestr namehash [] in
    aead_decrypt ciphertext [] nonce derivedKey
  else None.

(** [blinding_scalar], [blind]: crypto_generichash_KEYBYTES_MAX is 64. *)
Definition blinding_scalar (pubkey blind_domain : bytes) : bytes :=
  let blind_domain := if decide (64 < length blind_domain) then take 64 blind_domain
                      else blind_domain in
  ed25519_scalar_reduce (blake2b 64 pubkey blind_domain []).

Definition blind (root blind_domain : bytes) : option bytes :=
  scalarmult_ed25519_noclamp (blinding_scalar root blind_domain) root.

(** ** crypto/session_keys.cpp *)

(** [X25519PubKey::X25519PubKey(const PubKey&)] *)
Definition X25519PubKey_of_ed (ed_pk : bytes) : outcome string bytes :=
  or_throw "Ed->X25519 conversion failed: invalid Ed25519 pubkey"%string
    (ed25519_pk_to_curve25519 ed_pk).

(** [X25519SecKey::operator*] *)
Definition X25519SecKey_mul (sec pk : bytes) : outcome string bytes :=
  or_throw "X25519 scalarmult failed"%string (scalarmult_curve25519 sec pk).

Record X25519KeyPair := mkX25519KeyPair { x_pub : bytes; x_sec : bytes }.

(** The pair of a secret key: [X25519KeyPair::generate] draws [sec],
    [X25519KeyPair(Ed25519SecretKey)] converts it. *)
Definition x25519_keypair (sec : bytes) : X25519KeyPair :=
  mkX25519KeyPair (scalarmult_curve25519_base sec) sec.

Definition X25519KeyPair_of_ed (ed_sk : bytes) : X25519KeyPair :=
  x25519_keypair (ed25519_sk_to_curve25519 ed_sk).

(** [path_build_secret(local, remote, is_client)] *)
Definition path_build_secret (local : X25519KeyPair) (remote : bytes) (is_client : bool)
    : outcome string bytes :=
  let A := if is_client then x_pub local else remote in
  let B := if is_client then remote else x_pub local in
  match X25519SecKey_mul (x_sec local) remote with
  | Throw e => Throw e
  | Ok s => Ok (blake2b SYMM_KEY_SIZE (A ++ B ++ s) [] (str "srouter_path_v01"))
  end.

(** [session_secret]: (key_in, key_out) of one side of a session. *)
Definition session_secret (initiator receiver : bytes) (a : X25519KeyPair) (B : bytes)
    (is_initiator : bool) (k_s M : bytes) (tag_i tag_r : Z) : outcome string (bytes * bytes) :=
  let tag_i_bytes := write_host_as_little 4 tag_i in
  let tag_r_bytes := write_host_as_little 4 tag_r in
  let ss_context_hash :=
    blake2b 64 (initiator ++ receiver ++ tag_i_bytes ++ tag_r_bytes)
      (str "srouter session context") [] in
  let X := if is_initiator then x_pub a else B in
  let Y := if is_initiator then B else x_pub a in
  match X25519SecKey_mul (x_sec a) B with
  | Throw e => Throw e
  | Ok aB =>
    let shared_secret := blake2b (2 * SYMM_KEY_SIZE) (aB ++ X ++ Y ++ k_s ++ M) ss_context_hash [] in
    let k1 := take SYMM_KEY_SIZE shared_secret in
    let k2 := drop SYMM_KEY_SIZE shared_secret in
    let key_out := if is_initiator then k1 else k2 in
    let key_in := if is_initiator then k2 else k1 in
    Ok (key_in, key_out)
  end.
End Wrappers.

Arguments X25519KeyPair : clear implicits.

(** ** Properties of the wrappers *)
Section WrapperLemmas.
Context `{SodiumLaws} `{OxencLaws}.

Lemma length_xchacha20 buf k n : length (xchacha20 buf k n) = length buf.
Proof. apply length_xor_stream. Qed.

Lemma xchacha20_involutive buf k n : xchacha20 (xchacha20 buf k n) k n = buf.
Proof. apply xor_stream_involutive. Qed.

Lemma is_bytes_xchacha20 buf k n : is_bytes buf -> is_bytes (xchacha20 buf k n).
Proof. intros. apply is_bytes_xor_stream; [|done]. intros. apply xchacha20_stream_byte. Qed.

Lemma encrypt_inplace_eq m room k n ad :
  length room = TAG_SIZE ->
  xchacha20_poly1305_encrypt_inplace (m ++ room) k n ad = aead_encrypt m ad n k.
Proof.
  intros Hr. unfold xchacha20_poly1305_encrypt_inplace.
  rewrite length_app, Hr, Nat.add_sub. by rewrite take_app_length.
Qed.

Lemma decrypt_inplace_encrypt m k n ad :
  xchacha20_poly1305_decrypt_inplace (aead_encrypt m ad n k) k n ad = Some m.
Proof.
  unfold xchacha20_poly1305_decrypt_inplace.
  rewrite decide_False by (rewrite aead_encrypt_length; lia). apply aead_decrypt_encrypt.
Qed.

Lemma is_buf_xor_nonce_of k : is_buf SYMM_NONCE_SIZE (xor_nonce_of k).
Proof.
  unfold xor_nonce_of, shorthash. destruct (blake2b_buf 32 k [] []) as [Hl Hb].
  split; [rewrite length_take, Hl; done | by apply Forall_take].
Qed.

Lemma length_ed25519_pubkey sk : ed25519_keypair sk -> length (ed25519_pubkey sk) = 32.
Proof. intros [Hl _]%ed25519_keypair_buf. unfold ed25519_pubkey. rewrite length_drop, Hl. done. Qed.

(** Both ends of a v0 frame derive the same secret. *)
Lemma dh_agreement eph sk n :
  ed25519_keypair eph -> ed25519_keypair sk ->
  exists s, dh_client (ed25519_pubkey sk) eph n = Some s
    /\ dh_server (ed25519_pubkey eph) sk n = Some s /\ is_buf SYMM_KEY_SIZE s.
Proof.
  intros He Hs. unfold dh_client, dh_server, dh.
  destruct (ed25519_dh_ok eph sk He Hs) as [p Hp].
  rewrite Hp. rewrite <-(ed25519_dh _ _ He Hs), Hp.
  eexists. split; [done|]. split; [done|]. apply blake2b_buf.
Qed.

(** Both ends of a v1 frame derive the same secret. *)
Lemma path_build_secret_agreement a b :
  is_buf 32 a -> is_buf 32 b ->
  exists s, path_build_secret (x25519_keypair a) (scalarmult_curve25519_base b) true = Ok s
    /\ path_build_secret (x25519_keypair b) (scalarmult_curve25519_base a) false = Ok s
    /\ is_buf SYMM_KEY_SIZE s.
Proof.
  intros Ha Hb. unfold path_build_secret, X25519SecKey_mul. simpl.
  destruct (curve25519_dh_ok a b Ha Hb) as [p Hp].
  rewrite <-(curve25519_dh _ _ Ha Hb), Hp. simpl.
  eexists. split; [done|]. split; [done|]. apply blake2b_buf.
Qed.
End WrapperLemmas.

#[export] Hint Resolve is_buf_xor_nonce_of is_bytes_xchacha20 : router.
#[export] Hint Rewrite @length_xchacha20 : router.

(** ** An instance of the interface *)
Definition toy_sum (l : bytes) : Z := foldr Z.add 0%Z l.

Definition toy : Sodium := {|
  xchacha20_stream k n i := ((toy_sum k + toy_sum n + Z.of_nat i) mod 256)%Z;
  aead_encrypt m ad n k := m ++ zero_buf 16;
  aead_decrypt c ad n k := if decide (16 <= length c) then Some (take (length c - 16) c) else None;
  blake2b len m k p := replicate len ((1 + toy_sum m + 3 * toy_sum k + 5 * toy_sum p) mod 256)%Z;
  ed25519_sk_to_curve25519 sk := take 32 sk;
  ed25519_pk_to_curve25519 pk := Some pk;
  scalarmult_ed25519 a P := Some (buf_xor a P);
  scalarmult_ed25519_noclamp a P := Some (buf_xor a P);
  scalarmult_curve25519 a P := Some (buf_xor a P);
  scalarmult_curve25519_base a := a;
  ed25519_scalar_reduce n := take 32 n;
  sign_detached sk m := zero_buf 64;
  sign_verify_detached sig m pk := bool_decide (sig = zero_buf 64);
  ed25519_keypair sk := is_buf 64 sk /\ take 32 sk = drop 32 sk |}.

Lemma toy_laws : @SodiumLaws toy.
Proof.
  assert (forall x, is_byte (x mod 256)%Z) as Hm by (intros; apply Z.mod_pos_bound; lia).
  constructor; simpl; try (by eauto).
  - intros. rewrite decide_True by (rewrite length_app; simpl; lia).
    rewrite length_app. simpl length. by rewrite Nat.add_sub, take_app_length.
  - intros. by rewrite length_app.
  - intros. apply Forall_app; split; [done|]. by apply Forall_replicate.
  - intros c _ _ _ m. case_decide; [|done]. intros [= <-]. rewrite length_take. unfold TAG_SIZE. lia.
  - intros. split; [by rewrite length_replicate|]. by apply Forall_replicate.
  - by intros sk [? _].
  - intros a b [[La _] Ha] [[Lb _] Hb]. unfold ed25519_pubkey. rewrite La, Lb. simpl (64 - 32).
    by rewrite Ha, Hb, buf_xor_comm.
  - intros sk [[L B] _]. split; [by rewrite length_take, L | by apply Forall_take].
  - intros sk [[L B] E]. unfold ed25519_pubkey. rewrite L. simpl (64 - 32). by rewrite E.
  - intros. split; [done | by apply Forall_replicate].
  - intros. by rewrite buf_xor_comm.
Qed.

(** Both ends of a session derive the same two keys from the same exchange,
    each side's outgoing key being the other's incoming one; the keys have the
    size the ciphers take. *)
Lemma session_secret_agreement `{SodiumLaws} `{Oxenc} initiator receiver a b k_s M tag_i tag_r :
  is_buf 32 a -> is_buf 32 b ->
  exists k1 k2,
    session_secret initiator receiver (x25519_keypair a) (x_pub (x25519_keypair b)) true k_s M tag_i tag_r
      = Ok (k2, k1)
    /\ session_secret initiator receiver (x25519_keypair b) (x_pub (x25519_keypair a)) false k_s M tag_i tag_r
      = Ok (k1, k2)
    /\ is_buf SYMM_KEY_SIZE k1 /\ is_buf SYMM_KEY_SIZE k2.
Proof.
  intros Ha Hb. unfold session_secret, X25519SecKey_mul. cbn [x_pub x_sec x25519_keypair].
  destruct (curve25519_dh_ok a b Ha Hb) as [p Hp]. rewrite <-(curve25519_dh a b Ha Hb), Hp. cbn [or_throw].
  eexists _, _. split; [done|]. split; [done|].
  match goal with |- context [blake2b (2 * SYMM_KEY_SIZE) ?m ?k ?p] =>
    destruct (blake2b_buf (2 * SYMM_KEY_SIZE) m k p) as [Hl Hy] end.
  unfold SYMM_KEY_SIZE in *. split; split.
  - rewrite length_take, Hl. lia.
  - by apply Forall_take.
  - rewrite length_drop, Hl. lia.
  - by apply Forall_drop.
Qed.
