(* ===== verification/SessionKeys.v ===== *)
(** * Sealed boxes and ML-KEM-768

    The sealed boxes of crypto/keys.cpp ([PubKey::seal_box],
    [Ed25519SecretKey::unseal_box]) and the key encapsulation of
    crypto/session_keys.cpp and crypto/mlkem768.cpp.  The primitives are
    libsodium's crypto_box_curve25519xchacha20poly1305_seal and mlkem-native:
    the fields of the class [BoxKem], with the laws [BoxKemLaws].  Random draws
    are arguments. *)

From Stdlib Require Import ZArith Lia.
From stdpp Require Import base list numbers strings.
From S2P Require Import Prelude Oxenc Crypto.

Local Open Scope router_scope.

Definition SEALBYTES : nat := 48.
Definition MLKEM_SEED_SIZE : nat := 64.
Definition MLKEM_PUB_SIZE : nat := 1184.
Definition MLKEM_SEC_SIZE : nat := 2400.
Definition MLKEM_CT_SIZE : nat := 1088.
Definition MLKEM_SS_SIZE : nat := 32.

Class BoxKem := {
  (** [crypto_box_curve25519xchacha20poly1305_seal]: message, public key and the
      ephemeral key it draws; [seal_open]: box, public key, secret key.  [None]
      when libsodium returns non-zero. *)
  box_seal : bytes -> bytes -> bytes -> option bytes;
  box_seal_open : bytes -> bytes -> bytes -> option bytes;
  (** mlkem-native: [keypair_derand(seed)], [enc_derand(pk, seed)], [dec(ct, sk)]. *)
  mlkem768_keypair_derand : bytes -> option (bytes * bytes);
  mlkem768_enc_derand : bytes -> bytes -> option (bytes * bytes);
  mlkem768_dec : bytes -> bytes -> option bytes;
}.

(** What their documentation promises: a box opens with the key it was sealed
    for, and decapsulation recovers the encapsulated secret. *)
Class BoxKemLaws `{Sodium} `{BoxKem} : Prop := {
  box_seal_ok sk m r : is_buf 32 sk ->
    exists c, box_seal m (scalarmult_curve25519_base sk) r = Some c
      /\ length c = length m + SEALBYTES
      /\ box_seal_open c (scalarmult_curve25519_base sk) sk = Some m;
  mlkem768_keypair_ok seed : is_buf MLKEM_SEED_SIZE seed ->
    exists pk sk, mlkem768_keypair_derand seed = Some (pk, sk)
      /\ is_buf MLKEM_PUB_SIZE pk /\ is_buf MLKEM_SEC_SIZE sk;
  mlkem768_correct seed pk sk coins :
    is_buf MLKEM_SEED_SIZE seed -> mlkem768_keypair_derand seed = Some (pk, sk) ->
    is_buf MLKEM_SS_SIZE coins ->
    exists ct ss, mlkem768_enc_derand pk coins = Some (ct, ss)
      /\ is_buf MLKEM_CT_SIZE ct /\ is_buf MLKEM_SS_SIZE ss /\ mlkem768_dec ct sk = Some ss;
}.

Section BoxKemWrappers.
Context `{Sodium} `{BoxKem}.

(** [PubKey::seal_box(message)]; [draw] is the box's ephemeral key. *)
Definition seal_box (ed_pk message draw : bytes) : outcome string bytes :=
  let! xpk := X25519PubKey_of_ed ed_pk in
  or_throw "Sealed box encryption failed!"%string (box_seal message xpk draw).

(** [Ed25519SecretKey::unseal_box(ciphertext)] *)
Definition unseal_box (ed_sk ciphertext : bytes) : outcome string bytes :=
  throw_if bool_decide (length ciphertext < SEALBYTES)
    with "Decryption failed: ciphertext too short"%string in
  let x := X25519KeyPair_of_ed ed_sk in
  or_throw "Sealed box decryption failed!"%string (box_seal_open ciphertext (x_pub x) (x_sec x)).

Record MLKEM768KeyPair := mkMLKEM768KeyPair { m_pub : bytes; m_sec : bytes }.

(** [MLKEM768KeyPair::generate()] from its random seed. *)
Definition mlkem_generate (seed : bytes) : outcome string MLKEM768KeyPair :=
  let! k := or_throw "ML-KEM-768 keygen failed"%string (mlkem768_keypair_derand seed) in
  Ok (mkMLKEM768KeyPair k.1 k.2).

(** [MLKEM768PubKey::encapsulate()]: the ciphertext and the shared secret. *)
Definition encapsulate (pub seed : bytes) : outcome string (bytes * bytes) :=
  or_throw "ML-KEM-768 encapsulation failed"%string (mlkem768_enc_derand pub seed).

(** [MLKEM768SecKey::decapsulate(ct)] *)
Definition decapsulate (sec ct : bytes) : outcome string bytes :=
  or_throw "ML-KEM-768 decapsulation failed!"%string (mlkem768_dec ct sec).
End BoxKemWrappers.

(** ** Boxes open and secrets agree *)
Section BoxKemLemmas.
Context `{SodiumLaws} `{!BoxKem} `{!BoxKemLaws}.

Lemma seal_unseal sk m r :
  ed25519_keypair sk ->
  exists c, seal_box (ed25519_pubkey sk) m r = Ok c /\ unseal_box sk c = Ok m.
Proof.
  intros Hk. unfold seal_box, unseal_box, X25519PubKey_of_ed.
  rewrite ed25519_to_curve25519 by done. cbn [or_throw outcome_bind].
  destruct (box_seal_ok _ m r (ed25519_sk_to_curve25519_buf sk Hk)) as (c & Ec & Lc & Eo).
  exists c. rewrite Ec. split; [done|].
  rewrite bool_decide_false by lia. cbn [x_pub x_sec X25519KeyPair_of_ed x25519_keypair]. by rewrite Eo.
Qed.

Lemma mlkem_agreement seed coins :
  is_buf MLKEM_SEED_SIZE seed -> is_buf MLKEM_SS_SIZE coins ->
  exists m ct ss, mlkem_generate seed = Ok m /\ is_buf MLKEM_PUB_SIZE (m_pub m)
    /\ encapsulate (m_pub m) coins = Ok (ct, ss) /\ is_buf MLKEM_CT_SIZE ct
    /\ decapsulate (m_sec m) ct = Ok ss.
Proof.
  intros Hs Hc. destruct (mlkem768_keypair_ok seed Hs) as (pk & sk & Ek & Hp & _).
  destruct (mlkem768_correct seed pk sk coins Hs Ek Hc) as (ct & ss & Ee & Hct & _ & Ed).
  exists (mkMLKEM768KeyPair pk sk), ct, ss.
  unfold mlkem_generate, encapsulate, decapsulate. rewrite Ek. cbn [or_throw outcome_bind fst snd m_pub m_sec].
  rewrite Ee, Ed. done.
Qed.
End BoxKemLemmas.

(** ** An instance *)
Definition toy_box : BoxKem := {|
  box_seal m pk r := Some (m ++ zero_buf 48);
  box_seal_open c pk sk := if decide (48 <= length c) then Some (take (length c - 48) c) else None;
  mlkem768_keypair_derand seed := Some (seed ++ zero_buf 1120, seed ++ zero_buf 2336);
  mlkem768_enc_derand pk coins := Some (coins ++ zero_buf 1056, coins);
  mlkem768_dec ct sk := Some (take 32 ct) |}.

Lemma toy_box_laws : @BoxKemLaws toy toy_box.
Proof.
  assert (forall n, is_bytes (zero_buf n)) as Hz by (intros; apply Forall_replicate; unfold is_byte; lia).
  split; simpl box_seal; simpl box_seal_open; simpl mlkem768_keypair_derand; simpl mlkem768_enc_derand;
    simpl mlkem768_dec.
  - intros sk m r _. eexists. split; [done|].
    rewrite length_app. unfold zero_buf. rewrite length_replicate. split; [done|].
    rewrite decide_True by lia. by rewrite Nat.add_sub, take_app_length.
  - intros seed [L B]. eexists _, _. split; [done|]. unfold MLKEM_SEED_SIZE, MLKEM_PUB_SIZE, MLKEM_SEC_SIZE in *.
    split; (split; [rewrite length_app; unfold zero_buf; rewrite length_replicate; lia|];
      apply Forall_app; split; [done | apply Hz]).
  - intros seed pk sk coins _ _ [L B]. eexists _, _. split; [done|]. unfold MLKEM_CT_SIZE, MLKEM_SS_SIZE in *.
    split; [split; [rewrite length_app; unfold zero_buf; rewrite length_replicate; lia|];
      apply Forall_app; split; [done | apply Hz]|].
    split; [done|]. by rewrite <-L, take_app_length.
Qed.
