(* ===== verification/RelayContact.v ===== *)
(** * Relay contacts (contact/relay_contact.hpp, contact/relay_contact.cpp)

    The signed record (RC) a relay publishes about itself, its bt encoding and
    its parser, and the age predicates the rest of the program uses on it. *)

From Stdlib Require Import ZArith Lia.
From stdpp Require Import base list numbers strings.
From S2P Require Import Prelude Oxenc Crypto.

Local Open Scope Z_scope.
Local Open Scope router_scope.

(** A [quic::Address] is the socket address it wraps: the raw bytes of the IP
    and of the port, both in network order. *)
Inductive Address : Type :=
| Addr4 (ip port : bytes)
| Addr6 (ip port : bytes).

#[export] Instance Address_eq_dec : EqDecision Address.
Proof. solve_decision. Defined.

Definition is_ipv4 (a : Address) : bool := match a with Addr4 _ _ => true | _ => false end.
Definition is_ipv6 (a : Address) : bool := match a with Addr6 _ _ => true | _ => false end.

(** [RelayContact]; timestamps are seconds. *)
Record RelayContact := mkRC {
  rc_router_id : bytes;
  rc_addr : Address;
  rc_addr6 : option Address;
  rc_timestamp : Z;
  rc_netid : Z;
  rc_version : bytes;
  rc_payload : bytes;
}.

#[export] Instance RelayContact_eq_dec : EqDecision RelayContact.
Proof. solve_decision. Defined.

Definition NetID_MAINNET : Z := 0.
Definition NetID_TESTNET : Z := 1.
Definition RC_VERSION : Z := 0.
Definition MAX_RC_SIZE : nat := 2048.
(** [std::chrono] hours and minutes, in the seconds they are converted to next to
    a [sys_seconds]. *)
Definition RC_OUTDATED_AGE : Z := 12 * 3600.
Definition RC_LIFETIME : Z := 30 * 24 * 3600.
Definition MIN_GOSSIP_RC_AGE : Z := 60.

(** ** Ages; [now] is in milliseconds. [_timestamp + LIFETIME] is a count of
    seconds in an int64_t, converted to milliseconds to meet [now]: both steps can
    overflow for a timestamp read from the network. *)
Definition rc_is_outdated (rc : RelayContact) (now : Z) : bool :=
  to_ms (i64 (rc_timestamp rc + RC_OUTDATED_AGE)) <=? now.

Definition rc_is_expired (rc : RelayContact) (now : Z) : bool :=
  to_ms (i64 (rc_timestamp rc + RC_LIFETIME)) <=? now.

Definition time_to_expiry (rc : RelayContact) (now : Z) : Z :=
  let expiry := i64 (rc_timestamp rc + RC_LIFETIME) in
  if now <? to_ms expiry then i64 (to_ms expiry - now) else 0.

Definition rc_age (rc : RelayContact) (now : Z) : Z :=
  let delta := i64 (now - to_ms (rc_timestamp rc)) in
  if 0 <? delta then delta else 0.

Definition expires_within_delta (rc : RelayContact) (now dlt : Z) : bool :=
  time_to_expiry rc now <=? dlt.

(** [newer_than(other, at_least)], in seconds. *)
Definition newer_than (rc other : RelayContact) (at_least : Z) : bool :=
  at_least <=? rc_timestamp rc - rc_timestamp other.

Definition address_changed (rc other : RelayContact) : bool :=
  negb (bool_decide (rc_addr rc = rc_addr other /\ rc_addr6 rc = rc_addr6 other)).

(** [operator==]: the netid and the payload do not take part. *)
Definition rc_equal (rc other : RelayContact) : bool :=
  bool_decide (rc_router_id rc = rc_router_id other /\ rc_addr rc = rc_addr other
    /\ rc_addr6 rc = rc_addr6 other /\ rc_timestamp rc = rc_timestamp other
    /\ rc_version rc = rc_version other).

(** A uint64_t stored in std::chrono::seconds' int64_t. *)
Definition to_int64 (x : Z) : Z := if x <? 2 ^ 63 then x else x - 2 ^ 64.

(** [require<uint64_t>] and [maybe<uint8_t>], [maybe<int>] throw out of range. *)
Definition in_range (lo hi x : Z) : bool := (lo <=? x) && (x <=? hi).

Section Codec.
Context `{Sodium} `{Oxenc}.
(** [quic::Address::is_public] and the value of [BLOCK_BOGONS]. *)
Context (is_public : Address -> bool) (BLOCK_BOGONS : bool).

(** [RelayContact::load(netid, accept_expired)] on [payload]. *)
Definition rc_load (payload : bytes) (netid : Z) (accept_expired : bool) (now : Z)
    : outcome string RelayContact :=
  let! c := or_throw "not a dict"%string (bt_dict_open payload) in
  let! (ver0, c) := or_throw "rc version"%string (bt_maybe_int (str "") c) in
  throw_if negb (in_range 0 255 (default 0 ver0)) with "rc version"%string in
  throw_if negb (default 0 ver0 =? RC_VERSION) with "do not know how to parse"%string in
  let! (net, c) := or_throw "netid"%string (bt_maybe_int (str "#") c) in
  throw_if negb (in_range (- 2 ^ 31) (2 ^ 31 - 1) (default NetID_MAINNET net)) with "netid"%string in
  let parsed_netid := default NetID_MAINNET net in
  throw_if negb (netid =? parsed_netid) with "Invalid RC netid"%string in
  let! (ipv4_port, c) := or_throw "4"%string (bt_require_string (str "4") c) in
  throw_if negb (bool_decide (length ipv4_port = 6%nat)) with "Invalid RC address"%string in
  let addr := Addr4 (take 4 ipv4_port) (drop 4 ipv4_port) in
  throw_if (negb (is_public addr) && BLOCK_BOGONS) with "IPv4 not public"%string in
  let! (ipv6_port, c) := or_throw "6"%string (bt_maybe_string (str "6") c) in
  let! addr6 := match ipv6_port with
                | Some p =>
                    throw_if negb (bool_decide (length p = 18%nat)) with "Invalid RC address"%string in
                    let a := Addr6 (take 16 p) (drop 16 p) in
                    throw_if negb (is_public a) with "IPv6 not public"%string in
                    Ok (Some a)
                | None => Ok None
                end in
  let! (pubkey, c) := or_throw "p"%string (bt_require_string (str "p") c) in
  throw_if negb (bool_decide (length pubkey = 32%nat)) with "Invalid RC pubkey"%string in
  let! (t, c) := or_throw "t"%string (bt_require_int (str "t") c) in
  throw_if negb (in_range 0 (2 ^ 64 - 1) t) with "t"%string in
  let! (ver, c) := or_throw "v"%string (bt_require_string (str "v") c) in
  throw_if negb (bool_decide (length ver = 3%nat)) with "Invalid RC router version"%string in
  let rc := mkRC pubkey addr addr6 (to_int64 t) netid ver payload in
  let! (msg, sig, c) := or_throw "~"%string (bt_require_signature (str "~") c) in
  throw_if negb (bool_decide (length sig = 64%nat)) with "Invalid signature: not 64 bytes"%string in
  throw_if (negb accept_expired && rc_is_expired rc now) with "Rejecting expired relay contact!"%string in
  throw_if negb (sign_verify_detached sig msg pubkey) with "Failed to verify"%string in
  throw_if negb (bt_finish c) with "post-signature fields"%string in
  Ok rc.

(** [RelayContact(std::string_view data, netid, accept_expired)] *)
Definition rc_parse (data : bytes) (netid : Z) (accept_expired : bool) (now : Z)
    : outcome string RelayContact :=
  throw_if bool_decide (MAX_RC_SIZE < length data)%nat with "exceeds maximum size"%string in
  rc_load data netid accept_expired now.

(** The body of [RelayContact(const Router&)], for given member values. *)
Definition rc_fields (rid : bytes) (addr : Address) (addr6 : option Address)
    (timestamp netid : Z) (version : bytes) : outcome string (list (bytes * btval)) :=
  let ver_kv := if RC_VERSION =? 0 then [] else [(str "", BInt RC_VERSION)] in
  let net_kv := if netid =? NetID_MAINNET then [] else [(str "#", BInt netid)] in
  let! addr_kv := match addr with
                  | Addr4 ip port => Ok [(str "4", BStr (ip ++ port))]
                  | Addr6 _ _ => Throw "Unable to encode RC: addr is not IPv4"%string
                  end in
  let! addr6_kv := match addr6 with
                   | None => Ok []
                   | Some _ => match addr with
                               | Addr6 ip port => Ok [(str "6", BStr (ip ++ port))]
                               | Addr4 _ _ => Throw "addr6 is set but is not IPv6"%string
                               end
                   end in
  Ok (ver_kv ++ net_kv ++ addr_kv ++ addr6_kv ++
      [(str "p", BStr rid); (str "t", BInt timestamp); (str "v", BStr version)]).

(** [RelayContact(const Router&)]: [addr6] is left unset by the constructor. *)
Definition rc_build (sk rid : bytes) (public_addr : Address) (now_s netid : Z) (version : bytes)
    : outcome string RelayContact :=
  let! kvs := rc_fields rid public_addr None now_s netid version in
  let sig := sign_detached sk (bt_signed_data kvs) in
  let payload := bt_dict_produce (kvs ++ [(str "~", BStr sig)]) in
  throw_if bool_decide (MAX_RC_SIZE < length payload)%nat with "exceeds maximum size"%string in
  Ok (mkRC rid public_addr None now_s netid version payload).
End Codec.

(** ** Properties *)

(** A timestamp, in seconds, for which the age arithmetic does not overflow: from
    292 million years before 1970 to as many after it. *)
Definition plain_time (ts : Z) : Prop := - 2 ^ 53 <= ts <= 2 ^ 53.

Lemma expiry_plain ts age :
  plain_time ts -> 0 <= age <= RC_LIFETIME -> to_ms (i64 (ts + age)) = (ts + age) * 1000.
Proof.
  unfold plain_time, RC_LIFETIME. intros Ht Ha.
  rewrite (i64_fits (ts + age)) by (unfold fits_i64; lia). apply to_ms_fits. unfold fits_i64. lia.
Qed.

Lemma rc_is_expired_plain rc now :
  plain_time (rc_timestamp rc) ->
  rc_is_expired rc now = ((rc_timestamp rc + RC_LIFETIME) * 1000 <=? now).
Proof. intros Ht. unfold rc_is_expired. rewrite expiry_plain by (done || (unfold RC_LIFETIME; lia)). done. Qed.

(** The age predicates are stages of one clock: an expired RC is outdated, and
    [is_expired] says exactly that no time is left. *)
Lemma expired_outdated rc now :
  plain_time (rc_timestamp rc) -> rc_is_expired rc now = true -> rc_is_outdated rc now = true.
Proof.
  intros Ht. rewrite rc_is_expired_plain by done. unfold rc_is_outdated.
  rewrite expiry_plain by (done || (unfold RC_LIFETIME, RC_OUTDATED_AGE; lia)).
  unfold RC_LIFETIME, RC_OUTDATED_AGE. lia.
Qed.

Lemma time_to_expiry_zero rc now :
  plain_time (rc_timestamp rc) -> 0 <= now ->
  rc_is_expired rc now = true <-> time_to_expiry rc now = 0.
Proof.
  intros Ht Hn. rewrite rc_is_expired_plain by done. unfold time_to_expiry.
  rewrite expiry_plain by (done || (unfold RC_LIFETIME; lia)). unfold plain_time, RC_LIFETIME in *.
  destruct (Z.ltb_spec now ((rc_timestamp rc + 30 * 24 * 3600) * 1000)); [|lia].
  rewrite i64_fits by (unfold fits_i64; lia). lia.
Qed.

(** Two timestamps of the far future: as computed, the earlier one is expired, the
    later one is not. *)
Lemma huge_timestamp_wraps :
  exists a b, rc_timestamp b = rc_timestamp a + 10 ^ 16 /\ 2 ^ 53 < rc_timestamp a
  /\ rc_is_expired a 0 = true /\ rc_is_expired b 0 = false.
Proof.
  exists (mkRC [] (Addr4 [] []) None 9300000000000000 0 [] []),
    (mkRC [] (Addr4 [] []) None 19300000000000000 0 [] []). by vm_compute.
Qed.

Section CodecProofs.
Context `{SodiumLaws} `{OxencLaws}.
Context (is_public : Address -> bool) (BLOCK_BOGONS : bool).

(** The fields of an RC as anyone may send them: the version, the network and the
    IPv6 address are optional, and no field need be well formed. *)
Definition wire_fields (ver0 net : option Z) (ip4 : bytes) (ip6 : option bytes) (rid : bytes) (t : Z)
    (ver : bytes) : list (bytes * btval) :=
  from_option (fun z => [(str "", BInt z)]) [] ver0 ++ from_option (fun z => [(str "#", BInt z)]) [] net
  ++ [(str "4", BStr ip4)] ++ from_option (fun p => [(str "6", BStr p)]) [] ip6
  ++ [(str "p", BStr rid); (str "t", BInt t); (str "v", BStr ver)].

(** The RC such fields denote. *)
Definition wire_rc (netid : Z) (ip4 : bytes) (ip6 : option bytes) (rid : bytes) (t : Z)
    (ver payload : bytes) : RelayContact :=
  mkRC rid (Addr4 (take 4 ip4) (drop 4 ip4)) ((fun p => Addr6 (take 16 p) (drop 16 p)) <$> ip6)
    (to_int64 t) netid ver payload.

Lemma bind_throw_if {E A B} (c : bool) (e : E) (k : outcome E A) (f : A -> outcome E B) :
  outcome_bind (throw_if c with e in k) f = throw_if c with e in outcome_bind k f.
Proof. by destruct c. Qed.

Lemma bt_finish_iff d post : bt_finish (bt_reading d post) = true <-> post = [].
Proof. destruct post; [by rewrite bt_finish_end|by rewrite bt_finish_more]. Qed.

Lemma allowed_iff (a b : bool) : negb a && b = false <-> a = true \/ b = false.
Proof. destruct a, b; naive_solver. Qed.

Lemma in_range_iff lo hi x : in_range lo hi x = true <-> lo <= x <= hi.
Proof. unfold in_range. lia. Qed.

(** [RelayContact(data, netid)] on such fields, a signature and whatever follows. *)
Lemma rc_load_wire ver0 net ip4 ip6 rid t ver sig post netid acc now rc :
  let fields := wire_fields ver0 net ip4 ip6 rid t ver in
  let payload := bt_dict_produce (fields ++ [(str "~", BStr sig)] ++ post) in
  rc_load is_public BLOCK_BOGONS payload netid acc now = Ok rc <->
  rc = wire_rc netid ip4 ip6 rid t ver payload
  /\ default 0 ver0 = RC_VERSION /\ default NetID_MAINNET net = netid /\ - 2 ^ 31 <= netid < 2 ^ 31
  /\ length ip4 = 6%nat /\ (is_public (rc_addr rc) = true \/ BLOCK_BOGONS = false)
  /\ (forall p, ip6 = Some p -> length p = 18%nat /\ is_public (Addr6 (take 16 p) (drop 16 p)) = true)
  /\ length rid = 32%nat /\ 0 <= t < 2 ^ 64 /\ length ver = 3%nat /\ length sig = 64%nat
  /\ (acc = true \/ rc_is_expired rc now = false)
  /\ sign_verify_detached sig (bt_signed_data fields) rid = true /\ post = [].
Proof.
  intros fields payload. unfold payload at 1, fields, wire_fields, rc_load.
  destruct ver0 as [ver0|], net as [net|], ip6 as [p6|]; cbn [from_option app default id];
  repeat bt_step; rewrite ?bind_throw_if; cbn [outcome_bind];
  rewrite !throw_if_Ok, !negb_false_iff, !allowed_iff, !in_range_iff, bt_finish_iff,
    ?bool_decide_eq_true, ?Z.eqb_eq;
  split; intros Hl; destruct_and! Hl; simplify_eq/=; unfold RC_VERSION, NetID_MAINNET in *;
  split_and!; try (done || lia); naive_solver.
Qed.

(** What the parser accepts is signed, by the key the RC names, over the fields
    before the signature; it belongs to this network and is not expired. *)
Lemma rc_load_sound payload netid accept_expired now rc :
  rc_load is_public BLOCK_BOGONS payload netid accept_expired now = Ok rc ->
  rc_payload rc = payload /\ rc_netid rc = netid
  /\ length (rc_router_id rc) = 32%nat /\ length (rc_version rc) = 3%nat
  /\ is_ipv4 (rc_addr rc) = true
  /\ (BLOCK_BOGONS = true -> is_public (rc_addr rc) = true)
  /\ (forall a, rc_addr6 rc = Some a -> is_ipv6 a = true /\ is_public a = true)
  /\ (accept_expired = false -> rc_is_expired rc now = false)
  /\ (exists msg sig, length sig = 64%nat /\ sign_verify_detached sig msg (rc_router_id rc) = true).
Proof.
  unfold rc_load. intros Hl. outcome_inv Hl. simplify_eq/=.
  repeat match goal with
  | Hg : negb ?b = false |- _ => apply negb_false_iff in Hg
  | Hg : bool_decide _ = true |- _ => apply bool_decide_eq_true_1 in Hg
  | Hg : _ && _ = false |- _ => apply andb_false_iff in Hg
  end.
  assert (forall a, a0 = Some a -> is_ipv6 a = true /\ is_public a = true) as Ha6'.
  { destruct o1; outcome_inv Ha4; simplify_eq/=; [|done].
    intros a' [= <-]. by apply negb_false_iff in Hg13. }
  split_and!; try done.
  - intros ->. destruct Hg4 as [Hg4|]; [by apply negb_false_iff in Hg4|done].
  - intros ->. by destruct Hg9.
  - eauto.
Qed.
(** What [RelayContact(const Router&)] writes are fields of that form. *)
Lemma rc_fields_wire rid ip port ts netid version :
  rc_fields rid (Addr4 ip port) None ts netid version =
  Ok (wire_fields None (if netid =? NetID_MAINNET then None else Some netid) (ip ++ port) None rid ts version).
Proof. unfold rc_fields, wire_fields. by destruct (netid =? NetID_MAINNET). Qed.

(** An RC that [RelayContact(const Router&)] produced is accepted by
    [RelayContact(data, netid)] with every field unchanged, while it is not expired. *)
Lemma rc_parse_build sk ip port ts netid version rc now :
  ed25519_keypair sk -> length ip = 4%nat -> length port = 2%nat -> length version = 3%nat ->
  0 <= ts <= 2 ^ 53 -> - 2 ^ 31 <= netid < 2 ^ 31 -> is_public (Addr4 ip port) = true ->
  rc_build sk (ed25519_pubkey sk) (Addr4 ip port) ts netid version = Ok rc ->
  now < (ts + RC_LIFETIME) * 1000 ->
  rc_parse is_public BLOCK_BOGONS (rc_payload rc) netid false now = Ok rc.
Proof.
  intros Hsk Hip Hport Hver Hts Hnet Hpub. unfold rc_build. rewrite rc_fields_wire. cbn [outcome_bind].
  set (fields := wire_fields _ _ _ _ _ _ _).
  case_match eqn:Hsize; [done|]. intros [= <-] Hexp. unfold rc_parse. cbn [rc_payload].
  rewrite Hsize. apply (rc_load_wire _ _ _ _ _ _ _ _ []).
  assert (mkRC (ed25519_pubkey sk) (Addr4 ip port) None ts netid version
    (bt_dict_produce (fields ++ [(str "~", BStr (sign_detached sk (bt_signed_data fields)))] ++ [])) =
    wire_rc netid (ip ++ port) None (ed25519_pubkey sk) ts version
    (bt_dict_produce (fields ++ [(str "~", BStr (sign_detached sk (bt_signed_data fields)))] ++ []))) as E.
  { unfold wire_rc, to_int64. rewrite take_app_length', drop_app_length' by done. f_equal.
    destruct (Z.ltb_spec ts (2 ^ 63)); lia. }
  split_and!; try (done || lia).
  - by destruct (Z.eqb_spec netid NetID_MAINNET).
  - rewrite length_app. lia.
  - by left.
  - by apply length_ed25519_pubkey.
  - apply sign_detached_buf.
  - right. rewrite rc_is_expired_plain; cbn [rc_timestamp]; [lia|]. unfold plain_time. lia.
  - by apply sign_verify.
Qed.
End CodecProofs.

(** [RelayContact(const Router&)] with [_addr6] set can never encode: the branch
    tests and copies [_addr], which the branch before it requires to be IPv4. *)
Lemma rc_fields_addr6_throws rid addr a6 ts netid ver :
  exists e, rc_fields rid addr (Some a6) ts netid ver = Throw e.
Proof. destruct addr; simpl; eauto. Qed.

(** C4. A relay's own RC, as its constructor builds and signs it, is accepted by
    every node of the network until it expires, with all its fields unchanged.
    And for any sender: take any fields in the order of the format (the version,
    the network and the IPv6 address present or not, every value of any size), any
    signature and any fields after it. The parser accepts them exactly when the
    version is 0, the network is this one, both addresses have the size of their
    kind and are public (a bogon is allowed as the IPv4 address when the build
    allows them), the key has 32 bytes, the time fits 64 bits, the software version
    has 3 bytes, the signature has 64 and is one of that key over precisely the
    bytes before it, nothing follows it, the whole is within the size limit, and
    the RC is not expired or the caller accepts expired ones; and then each member
    is the field. Expiry is thirty days after the timestamp for a timestamp within
    2^53 seconds of 1970; beyond that the arithmetic of [is_expired] wraps. *)
Theorem rc_round_trip `{SodiumLaws} `{OxencLaws} is_public BLOCK_BOGONS :
  (forall sk ip port ts netid version rc now,
     ed25519_keypair sk -> length ip = 4%nat -> length port = 2%nat -> length version = 3%nat ->
     0 <= ts <= 2 ^ 53 -> - 2 ^ 31 <= netid < 2 ^ 31 -> is_public (Addr4 ip port) = true ->
     rc_build sk (ed25519_pubkey sk) (Addr4 ip port) ts netid version = Ok rc ->
     now < (ts + RC_LIFETIME) * 1000 ->
     rc_parse is_public BLOCK_BOGONS (rc_payload rc) netid false now = Ok rc)
  /\ (forall ver0 net ip4 ip6 rid t ver sig post netid accept_expired now rc,
     let fields := wire_fields ver0 net ip4 ip6 rid t ver in
     let payload := bt_dict_produce (fields ++ [(str "~", BStr sig)] ++ post) in
     rc_parse is_public BLOCK_BOGONS payload netid accept_expired now = Ok rc <->
     rc = wire_rc netid ip4 ip6 rid t ver payload
     /\ default 0 ver0 = RC_VERSION /\ default NetID_MAINNET net = netid /\ - 2 ^ 31 <= netid < 2 ^ 31
     /\ length ip4 = 6%nat /\ (is_public (rc_addr rc) = true \/ BLOCK_BOGONS = false)
     /\ (forall p, ip6 = Some p -> length p = 18%nat /\ is_public (Addr6 (take 16 p) (drop 16 p)) = true)
     /\ length rid = 32%nat /\ 0 <= t < 2 ^ 64 /\ length ver = 3%nat /\ length sig = 64%nat
     /\ (accept_expired = true \/ rc_is_expired rc now = false)
     /\ sign_verify_detached sig (bt_signed_data fields) rid = true /\ post = []
     /\ (length payload <= MAX_RC_SIZE)%nat)
  /\ (forall rc now, - 2 ^ 53 <= rc_timestamp rc <= 2 ^ 53 ->
     rc_is_expired rc now = true <-> (rc_timestamp rc + RC_LIFETIME) * 1000 <= now).
Proof.
  split_and!.
  - intros. by eapply rc_parse_build.
  - intros. unfold rc_parse. rewrite throw_if_Ok, bool_decide_eq_false. fold fields payload.
    unfold payload at 2, fields. rewrite rc_load_wire. fold fields payload. split; [|naive_solver lia].
    intros (? & ?). destruct_and!. split_and!; (done || lia).
  - intros rc now Ht. rewrite rc_is_expired_plain by done. lia.
Qed.

Definition demo_payload : bytes :=
  @bt_dict_produce bencode (wire_fields None (Some 1) [1; 2; 3; 4; 0; 99] (Some (replicate 18 7))
    (replicate 32 3) 1000 [1; 0; 0] ++ [(str "~", BStr (replicate 64 0))] ++ []).

Lemma rc_round_trip_witness :
  @rc_parse toy bencode (fun _ => true) true demo_payload 1 false 2000000 =
  Ok (wire_rc 1 [1; 2; 3; 4; 0; 99] (Some (replicate 18 7)) (replicate 32 3) 1000 [1; 0; 0] demo_payload).
Proof.
  apply (@rc_round_trip toy toy_laws bencode bencode_laws (fun _ => true) true).
  split_and!; try reflexivity; try lia; auto.
  - intros p [= <-]. split; reflexivity.
  - apply Nat.leb_le. vm_compute. reflexivity.
Defined.
