(* ===== verification/Path.v ===== *)
(** * Paths: hops, construction and the path build onion

    path/transit_hop.{hpp,cpp}, path/path.{hpp,cpp}, constants/path.hpp and the
    path build frames of path/path_handler.cpp: the frames a client writes
    ([encode_frame_v0], [encode_frame_v1], [path_build_onion]) and the ones a
    relay reads ([decode_frame_v0], [decode_frame_v1], [decrypt_build_frame]).
    Times are milliseconds unless said otherwise. *)

From Stdlib Require Import ZArith Lia.
From stdpp Require Import base list numbers strings gmap.
From S2P Require Import Prelude Oxenc Crypto RelayContact.

Local Open Scope router_scope.

(** ** Constants (constants/path.hpp, path/hopid.hpp) *)
Definition HOPID_SIZE : nat := 16.
Definition BUILD_LENGTH : nat := 8.
Definition BUILD_FRAME_SIZE_V0 : nat := 169.
Definition BUILD_FRAME_SIZE_V1 : nat := 115.
Definition BUILD_FRAME_SIZE_MIN : nat := BUILD_FRAME_SIZE_V1.
Definition BUILD_FRAME_SIZE_MAX : nat := 256.
Definition BUILD_FRAME_SIZE : nat := BUILD_FRAME_SIZE_V0.
Definition BUILD_FRAME_V1_MIN_VERSION : bytes := [1; 1; 0]%Z.
Definition MAX_LIFETIME : Z := 20 * 60 * 1000.
Definition MAX_LIFETIME_FUZZ : Z := 3 * 60 * 1000.
Definition MAX_LIFETIME_ACCEPTED : Z := MAX_LIFETIME + MAX_LIFETIME_FUZZ.
(** [sys_ms::min()] *)
Definition SYS_MS_MIN : Z := - 2 ^ 63.

(** ** Hops *)

(** std::variant<RouterID, quic::ConnectionID> *)
Inductive Peer : Type :=
| PRouter (rid : bytes)
| PConn (cid : bytes).

#[export] Instance Peer_eq_dec : EqDecision Peer.
Proof. solve_decision. Defined.

Record TransitHop := mkHop {
  txid : bytes;
  rxid : bytes;
  upstream : bytes;
  router_id : bytes;
  downstream : Peer;
  shared_secret : bytes;
  xor_nonce : bytes;
  expiry : Z;
  last_activity : Z;
  version : Z;
  terminal_hop : bool;
  is_dead : bool;
}.

#[export] Instance TransitHop_eq_dec : EqDecision TransitHop.
Proof. solve_decision. Defined.

(** [TransitHop() = default]: AlignedBuffers start out zeroed. *)
Definition default_hop : TransitHop :=
  mkHop (zero_buf HOPID_SIZE) (zero_buf HOPID_SIZE) (zero_buf 32) (zero_buf 32)
    (PRouter (zero_buf 32)) (zero_buf 32) (zero_buf 24) SYS_MS_MIN SYS_MS_MIN 0 false false.

Definition set_keys (secret nonce : bytes) (h : TransitHop) : TransitHop :=
  mkHop (txid h) (rxid h) (upstream h) (router_id h) (downstream h) secret nonce
    (expiry h) (last_activity h) (version h) (terminal_hop h) (is_dead h).
Definition set_route (tx rx up : bytes) (exp : Z) (h : TransitHop) : TransitHop :=
  mkHop tx rx up (router_id h) (downstream h) (shared_secret h) (xor_nonce h)
    exp (last_activity h) (version h) (terminal_hop h) (is_dead h).
Definition set_version (v : Z) (h : TransitHop) : TransitHop :=
  mkHop (txid h) (rxid h) (upstream h) (router_id h) (downstream h) (shared_secret h) (xor_nonce h)
    (expiry h) (last_activity h) v (terminal_hop h) (is_dead h).
Definition set_terminal (b : bool) (h : TransitHop) : TransitHop :=
  mkHop (txid h) (rxid h) (upstream h) (router_id h) (downstream h) (shared_secret h) (xor_nonce h)
    (expiry h) (last_activity h) (version h) b (is_dead h).
Definition set_downstream (p : Peer) (h : TransitHop) : TransitHop :=
  mkHop (txid h) (rxid h) (upstream h) (router_id h) p (shared_secret h) (xor_nonce h)
    (expiry h) (last_activity h) (version h) (terminal_hop h) (is_dead h).
Definition set_dead (h : TransitHop) : TransitHop :=
  mkHop (txid h) (rxid h) (upstream h) (router_id h) (downstream h) (shared_secret h) (xor_nonce h)
    (expiry h) (last_activity h) (version h) (terminal_hop h) true.

(** [TransitHop::next_id(h)] *)
Definition next_id (hop : TransitHop) (h : bytes) : Peer * bytes :=
  if decide (h = rxid hop) then (PRouter (upstream hop), txid hop)
  else (downstream hop, rxid hop).

(** [TransitHop::same_transit(other)] *)
Definition same_transit (a b : TransitHop) : bool :=
  bool_decide (txid a = txid b /\ rxid a = rxid b /\ upstream a = upstream b
    /\ downstream a = downstream b).

(** [TransitHop::is_expired(now)] *)
Definition hop_is_expired (h : TransitHop) (now : Z) : bool := (expiry h <=? now)%Z.

(** ** Path construction *)

(** The hops of [Path::Path(router, hop_rcs, expiry_ts)], from the one after
    [prev]; [rng] gives the successive results of [HopID::make_random()] and
    [draw] counts the ones already used. *)
Fixpoint path_hops (self : bytes) (rng : nat -> bytes) (prev : option TransitHop) (draw : nat)
    (rcs : list RelayContact) : list TransitHop :=
  match rcs with
  | [] => []
  | rc :: rest =>
    let last := match rest with [] => true | _ => false end in
    let '(rx, draw) := match prev with
                       | None => (rng draw, S draw)
                       | Some p => (txid p, draw)
                       end in
    let '(tx, draw) := if last then (rx, draw) else (rng draw, S draw) in
    let up := match rest with [] => rc_router_id rc | next :: _ => rc_router_id next end in
    let down := match prev with None => PRouter self | Some p => PRouter (router_id p) end in
    let ver := if bytes_ltb (rc_version rc) BUILD_FRAME_V1_MIN_VERSION then 0%Z else 1%Z in
    let hop := mkHop tx rx up (rc_router_id rc) down (zero_buf 32) (zero_buf 24)
                 SYS_MS_MIN SYS_MS_MIN ver last false in
    hop :: path_hops self rng (Some hop) draw rest
  end.

(** [Path]; the ping counters are in PathHandler.v. *)
Record Path := mkPath {
  hops : list TransitHop;
  path_expiry : Z;
  is_built : bool;
  is_established : bool;
  path_dead : bool;
  aligned_hopid : option bytes;
}.

Definition Path_new (self : bytes) (rng : nat -> bytes) (rcs : list RelayContact) (expiry_ts : Z) : Path :=
  mkPath (path_hops self rng None 0 rcs) expiry_ts false false false None.

(** [std::chrono::round<seconds>] of milliseconds: to nearest, ties to even. *)
Definition round_seconds (ms : Z) : Z :=
  let t0 := (ms / 1000)%Z in
  let diff0 := (ms - t0 * 1000)%Z in
  let diff1 := (1000 - diff0)%Z in
  if (diff0 =? diff1)%Z then (if Z.even t0 then t0 else t0 + 1)%Z
  else if (diff0 <? diff1)%Z then t0 else (t0 + 1)%Z.

(** ** Path build frames *)

(** The error codes of [TransitHopError]. *)
Inductive TransitHopError : Type :=
| INVALID_DATA | DH_PUBKEY | INVALID_PAYLOAD | INVALID_HOP_ID
| HOP_ID_UNAVAILABLE | INVALID_LIFETIME | UPSTREAM_UNREACHABLE.

Definition error_code (e : TransitHopError) : bytes :=
  str match e with
      | INVALID_DATA => "INVALID DATA"
      | DH_PUBKEY => "INVALID DH PUBKEY"
      | INVALID_PAYLOAD => "INVALID TRANSIT HOP PAYLOAD"
      | INVALID_HOP_ID => "INVALID TRANSIT HOP IDS"
      | HOP_ID_UNAVAILABLE => "TRANSIT HOP ID ALREADY IN USE"
      | INVALID_LIFETIME => "INVALID PATH LIFETIME"
      | UPSTREAM_UNREACHABLE => "UPSTREAM UNREACHABLE"
      end.

(** The random draws for one hop's frame: the ephemeral Ed25519 key and DH nonce
    of a v0 frame, the ephemeral X25519 secret and the padding of a v1 frame. *)
Record HopRandom := mkHopRandom {
  eph_ed : bytes;
  eph_nonce : bytes;
  eph_x : bytes;
  eph_pad : bytes;
}.

(** namespace frame_v1 *)
Definition FRAME_V1_VERSION : Z := 1.
Definition PUBKEY_OFFSET : nat := 1.
Definition RECORD_OFFSET : nat := PUBKEY_OFFSET + 32.
Definition RXID_OFFSET : nat := 2.
Definition TXID_OFFSET : nat := RXID_OFFSET + HOPID_SIZE.
Definition UPSTREAM_OFFSET : nat := TXID_OFFSET + HOPID_SIZE.
Definition RECORD_SIZE : nat := UPSTREAM_OFFSET + 32.

Section Frames.
Context `{Sodium} `{Oxenc}.

(** [encode_frame_v0(hop, frame, lifetime)]: the hop with its keys set, the
    bytes written into [frame] and the nonce for the frames that follow. *)
Definition encode_frame_v0 (rnd : HopRandom) (hop : TransitHop) (frame : bytes) (lifetime : Z)
    : outcome string (TransitHop * bytes * bytes) :=
  let lifetime_encoded := write_host_as_little 4 lifetime in
  let hop_payload := bt_dict_produce
    [(str "l", BStr lifetime_encoded); (str "r", BStr (rxid hop));
     (str "t", BStr (txid hop)); (str "u", BStr (upstream hop))] in
  let dh_nonce := eph_nonce rnd in
  let eph_key := eph_ed rnd in
  let! secret := or_throw "Client DH failed"%string (dh_client (router_id hop) eph_key dh_nonce) in
  let hop := set_keys secret (xor_nonce_of secret) hop in
  let hop_payload := xchacha20 hop_payload (shared_secret hop) dh_nonce in
  let encoded := bt_dict_produce
    [(str "k", BStr (ed25519_pubkey eph_key)); (str "n", BStr dh_nonce);
     (str "x", BStr hop_payload)] in
  throw_if negb (bool_decide (length encoded = length frame)) with "frame size mismatch"%string in
  Ok (hop, encoded, buf_xor dh_nonce (xor_nonce hop)).

(** [encode_frame_v1(hop, frame, lifetime)] *)
Definition encode_frame_v1 (rnd : HopRandom) (hop : TransitHop) (frame : bytes) (lifetime : Z)
    : outcome string (TransitHop * bytes * bytes) :=
  let eph := x25519_keypair (eph_x rnd) in
  let! remote := X25519PubKey_of_ed (router_id hop) in
  let! secret := path_build_secret eph remote true in
  let hop := set_keys secret (xor_nonce_of secret) hop in
  let record := write_host_as_little 2 (wrap 16 lifetime) ++ rxid hop ++ txid hop ++ upstream hop
                ++ subspan (RECORD_OFFSET + RECORD_SIZE) TAG_SIZE frame in
  let sealed := xchacha20_poly1305_encrypt_inplace record (shared_secret hop)
                  (zero_buf SYMM_NONCE_SIZE) [FRAME_V1_VERSION] in
  Ok (hop, FRAME_V1_VERSION :: x_pub eph ++ sealed ++ eph_pad rnd, xor_nonce hop).

(** The loop of [path_build_onion], for hops [k-1] down to [0]. *)
Fixpoint onion_loop (rnd : nat -> HopRandom) (lifetime : Z) (n_hops k : nat)
    (path_hops : list TransitHop) (result : bytes) : outcome string (list TransitHop * bytes) :=
  match k with
  | O => Ok (path_hops, result)
  | S i =>
    let! hop := or_throw "index"%string (path_hops !! i) in
    let frame := subspan (i * BUILD_FRAME_SIZE) BUILD_FRAME_SIZE result in
    throw_if ((version hop =? 0)%Z && negb (bool_decide (BUILD_FRAME_SIZE = BUILD_FRAME_SIZE_V0)))
      with "Cannot build a v0 frame"%string in
    let! (hop', encoded, onion_nonce) :=
      if (version hop =? 0)%Z then encode_frame_v0 (rnd i) hop frame lifetime
      else encode_frame_v1 (rnd i) hop frame lifetime in
    let result := write_at (i * BUILD_FRAME_SIZE) encoded result in
    let following_frames := n_hops - 1 - i in
    let result :=
      if decide (0 < following_frames) then
        write_at (S i * BUILD_FRAME_SIZE)
          (xchacha20 (subspan (S i * BUILD_FRAME_SIZE) (following_frames * BUILD_FRAME_SIZE) result)
             (shared_secret hop') onion_nonce) result
      else result in
    onion_loop rnd lifetime n_hops i (<[i := hop']> path_hops) result
  end.

(** [PathHandler::path_build_onion(path)]: [junk] is what [random_fill] puts in
    the frames after the last hop's. *)
Definition path_build_onion (rnd : nat -> HopRandom) (junk : bytes) (now : Z) (path : Path)
    : outcome string (Path * bytes) :=
  throw_if is_built path with "Cannot build a path multiple times"%string in
  let result := zero_buf (BUILD_FRAME_SIZE * BUILD_LENGTH) in
  let n_hops := length (hops path) in
  let lifetime := wrap 32 (round_seconds (path_expiry path - now)) in
  let result :=
    if decide (n_hops < BUILD_LENGTH) then write_at (n_hops * BUILD_FRAME_SIZE) junk result
    else result in
  let! (hops', result) := onion_loop rnd lifetime n_hops n_hops (hops path) result in
  Ok (mkPath hops' (path_expiry path) true (is_established path) (path_dead path)
        (aligned_hopid path), result).

(** [decode_frame_v0(hop, frame, r, now)] on the relay whose secret key is [sk]. *)
Definition decode_frame_v0 (sk : bytes) (now : Z) (hop : TransitHop) (frame : bytes)
    : outcome TransitHopError (TransitHop * bytes) :=
  throw_if negb (bool_decide (length frame = BUILD_FRAME_SIZE_V0)) with INVALID_DATA in
  let! c := or_throw INVALID_DATA (bt_dict_open frame) in
  let! (eph_pubkey, c) := or_throw INVALID_DATA (bt_require_span PUBKEY_SIZE (str "k") c) in
  let! (dh_nonce, c) := or_throw INVALID_DATA (bt_require_span SYMM_NONCE_SIZE (str "n") c) in
  let! (payload, c) := or_throw INVALID_DATA (bt_require_string (str "x") c) in
  throw_if negb (bt_finish c) with INVALID_DATA in
  let! secret := or_throw DH_PUBKEY (dh_server eph_pubkey sk dh_nonce) in
  let payload := xchacha20 payload secret dh_nonce in
  let hop := set_keys secret (xor_nonce_of secret) hop in
  let! c := or_throw INVALID_PAYLOAD (bt_dict_open payload) in
  let! (l, c) := or_throw INVALID_PAYLOAD (bt_require_span 4 (str "l") c) in
  let! (rx, c) := or_throw INVALID_PAYLOAD (bt_require_span HOPID_SIZE (str "r") c) in
  let! (tx, c) := or_throw INVALID_PAYLOAD (bt_require_span HOPID_SIZE (str "t") c) in
  let! (up, c) := or_throw INVALID_PAYLOAD (bt_require_span 32 (str "u") c) in
  let hop := set_route tx rx up (now + 1000 * load_little_to_host 4 l)%Z hop in
  Ok (hop, buf_xor dh_nonce (xor_nonce hop)).

(** [decode_frame_v1(hop, frame, r, now)] *)
Definition decode_frame_v1 (sk : bytes) (now : Z) (hop : TransitHop) (frame : bytes)
    : outcome TransitHopError (TransitHop * bytes) :=
  throw_if bool_decide (length frame < BUILD_FRAME_SIZE_V1) with INVALID_DATA in
  let eph_pubkey := subspan PUBKEY_OFFSET 32 frame in
  let! secret := match path_build_secret (X25519KeyPair_of_ed sk) eph_pubkey false with
                 | Ok s => Ok s
                 | Throw _ => Throw DH_PUBKEY
                 end in
  let record := subspan RECORD_OFFSET (RECORD_SIZE + TAG_SIZE) frame in
  let! rec := or_throw INVALID_PAYLOAD
    (xchacha20_poly1305_decrypt_inplace record secret (zero_buf SYMM_NONCE_SIZE) (take 1 frame)) in
  let hop := set_route (subspan TXID_OFFSET HOPID_SIZE rec) (subspan RXID_OFFSET HOPID_SIZE rec)
               (subspan UPSTREAM_OFFSET 32 rec) (now + 1000 * load_little_to_host 2 rec)%Z hop in
  let hop := set_keys secret (xor_nonce_of secret) hop in
  let hop := set_version 1 hop in
  Ok (hop, xor_nonce hop).

(** [PathHandler::decrypt_build_frame(frame, r, src, now)] *)
Definition decrypt_build_frame (sk : bytes) (src : Peer) (now : Z) (frame : bytes)
    : outcome TransitHopError (TransitHop * bytes) :=
  let hop := set_downstream src default_hop in
  match frame with
  | [] => Throw INVALID_DATA
  | b :: _ =>
    let! (hop, onion_nonce) :=
      if (b =? 100)%Z then decode_frame_v0 sk now hop frame
      else if (b =? FRAME_V1_VERSION)%Z then decode_frame_v1 sk now hop frame
      else Throw INVALID_DATA in
    let hop := set_terminal (bool_decide (upstream hop = ed25519_pubkey sk)) hop in
    let terminal_mismatch := negb (eqb (terminal_hop hop) (bool_decide (txid hop = rxid hop))) in
    throw_if (is_zero (txid hop) || is_zero (rxid hop) || terminal_mismatch) with INVALID_HOP_ID in
    Ok (hop, onion_nonce)
  end.
End Frames.

(** ** What a frame carries *)

(** The layering of the build message: each frame in the clear, the ones after it
    under the hop's stream cipher.  An entry is (secret, frame, onion nonce). *)
Fixpoint onion `{Sodium} (sealed : list (bytes * bytes * bytes)) : bytes :=
  match sealed with
  | [] => []
  | (secret, frame, nonce) :: rest => frame ++ xchacha20 (onion rest) secret nonce
  end.

(** A hop with the secret its frame established. *)
Definition keyed `{Sodium} (secret : bytes) (h : TransitHop) : TransitHop :=
  set_keys secret (xor_nonce_of secret) h.

(** The hop a relay records for the client's [h]. *)
Definition relay_hop `{Sodium} (h : TransitHop) (secret : bytes) (src : Peer) (now lifetime : Z)
    : TransitHop :=
  mkHop (txid h) (rxid h) (upstream h) (zero_buf 32) src secret (xor_nonce_of secret)
    (now + 1000 * lifetime)%Z SYS_MS_MIN (version h)
    (bool_decide (upstream h = router_id h)) false.

(** What a client needs of a hop before it can write a frame for it: [sk] is the
    secret key of the hop's relay. *)
Record hop_buildable `{Sodium} (h : TransitHop) (rnd : HopRandom) (sk : bytes) : Prop := {
  hb_key : ed25519_keypair sk;
  hb_rid : router_id h = ed25519_pubkey sk;
  hb_tx : length (txid h) = HOPID_SIZE;
  hb_rx : length (rxid h) = HOPID_SIZE;
  hb_tx0 : is_zero (txid h) = false;
  hb_rx0 : is_zero (rxid h) = false;
  hb_up : length (upstream h) = 32;
  hb_terminal : upstream h = router_id h <-> txid h = rxid h;
  hb_version : version h = 0%Z \/ version h = 1%Z;
  hb_eph : ed25519_keypair (eph_ed rnd);
  hb_nonce : is_buf SYMM_NONCE_SIZE (eph_nonce rnd);
  hb_ephx : is_buf 32 (eph_x rnd);
  hb_pad : length (eph_pad rnd) = BUILD_FRAME_SIZE - BUILD_FRAME_SIZE_V1;
}.

Definition encode_frame `{Sodium} `{Oxenc} (rnd : HopRandom) (hop : TransitHop) (frame : bytes)
    (lifetime : Z) : outcome string (TransitHop * bytes * bytes) :=
  if (version hop =? 0)%Z then encode_frame_v0 rnd hop frame lifetime
  else encode_frame_v1 rnd hop frame lifetime.

(** (secret, frame, nonce) is what the client writes for [hop], and the relay
    reads exactly [hop]'s data from it. *)
Record hop_sealed `{Sodium} `{Oxenc} (lifetime : Z) (hop : TransitHop) (rnd : HopRandom) (sk : bytes)
    (secret enc nonce : bytes) : Prop := {
  hs_encode frame : length frame = BUILD_FRAME_SIZE ->
    encode_frame rnd hop frame lifetime = Ok (keyed secret hop, enc, nonce);
  hs_length : length enc = BUILD_FRAME_SIZE;
  hs_decode now src :
    decrypt_build_frame sk src now enc = Ok (relay_hop hop secret src now lifetime, nonce);
}.

Section FrameProofs.
Context `{SodiumLaws} `{OxencLaws}.

Lemma length_v0_inner l r t u :
  length l = 4 -> length r = 16 -> length t = 16 -> length u = 32 ->
  length (bt_dict_produce [(str "l", BStr l); (str "r", BStr r); (str "t", BStr t); (str "u", BStr u)]) = 93.
Proof.
  intros Hl Hr Ht Hu.
  rewrite (bt_produce_length [(str "l", l); (str "r", r); (str "t", t); (str "u", u)]).
  cbn [sum_list_with fst snd]. by rewrite Hl, Hr, Ht, Hu.
Qed.

Lemma length_v0_outer k n x :
  length k = 32 -> length n = 24 -> length x = 93 ->
  length (bt_dict_produce [(str "k", BStr k); (str "n", BStr n); (str "x", BStr x)]) = BUILD_FRAME_SIZE_V0.
Proof.
  intros Hk Hn Hx. rewrite (bt_produce_length [(str "k", k); (str "n", n); (str "x", x)]).
  cbn [sum_list_with fst snd]. by rewrite Hk, Hn, Hx.
Qed.

Lemma decode_encode_v0 h rnd sk lifetime :
  hop_buildable h rnd sk -> (0 <= lifetime < 2 ^ 32)%Z ->
  exists secret enc nonce,
    (forall frame, length frame = BUILD_FRAME_SIZE ->
       encode_frame_v0 rnd h frame lifetime = Ok (keyed secret h, enc, nonce))
    /\ length enc = BUILD_FRAME_SIZE /\ head enc = Some 100%Z
    /\ (forall now hop, decode_frame_v0 sk now hop enc =
          Ok (set_route (txid h) (rxid h) (upstream h) (now + 1000 * lifetime)%Z (keyed secret hop), nonce)).
Proof.
  intros Hb Hlt. destruct (dh_agreement (eph_ed rnd) sk (eph_nonce rnd)) as (s & Hc & Hs & _);
    [apply Hb | apply Hb |].
  set (inner := bt_dict_produce [(str "l", BStr (write_host_as_little 4 lifetime));
    (str "r", BStr (rxid h)); (str "t", BStr (txid h)); (str "u", BStr (upstream h))]).
  assert (length (write_host_as_little 4 lifetime) = 4) as Hl4
    by (rewrite write_little_spec; apply length_le_bytes).
  assert (length inner = 93) as Hi by (apply length_v0_inner; [done|apply Hb|apply Hb|apply Hb]).
  set (enc := bt_dict_produce [(str "k", BStr (ed25519_pubkey (eph_ed rnd)));
    (str "n", BStr (eph_nonce rnd)); (str "x", BStr (xchacha20 inner s (eph_nonce rnd)))]).
  pose proof (length_ed25519_pubkey _ (hb_eph _ _ _ Hb)) as Hpk.
  pose proof (proj1 (hb_nonce _ _ _ Hb)) as Hn.
  assert (length enc = BUILD_FRAME_SIZE_V0) as He
    by (apply length_v0_outer; [done|done|by rewrite length_xchacha20]).
  exists s, enc, (buf_xor (eph_nonce rnd) (xor_nonce_of s)).
  split_and!; [| done | apply bt_produce_head |].
  - intros frame Hf. unfold encode_frame_v0. rewrite (hb_rid _ _ _ Hb), Hc. simpl.
    fold inner. fold enc. rewrite He, Hf. done.
  - intros now hop. unfold decode_frame_v0. rewrite He. unfold enc.
    pose proof (hb_rx _ _ _ Hb). pose proof (hb_tx _ _ _ Hb). pose proof (hb_up _ _ _ Hb).
    repeat first [bt_step | pass_guard ltac:(reflexivity)].
    rewrite Hs. cbn [outcome_bind or_throw]. rewrite xchacha20_involutive. unfold inner.
    repeat bt_step.
    rewrite load_little_spec, write_little_spec.
    rewrite take_ge by (rewrite length_le_bytes; done).
    rewrite le_value_le_bytes, Z.mod_small by (simpl; lia). done.
Qed.

(** The record inside a v1 frame, taken apart again. *)
Lemma v1_record_fields lt rx tx up rec :
  rec = le_bytes 2 lt ++ rx ++ tx ++ up ->
  length rx = HOPID_SIZE -> length tx = HOPID_SIZE -> length up = 32 ->
  (0 <= lt < 2 ^ 16)%Z ->
  length rec = RECORD_SIZE
  /\ subspan RXID_OFFSET HOPID_SIZE rec = rx /\ subspan TXID_OFFSET HOPID_SIZE rec = tx
  /\ subspan UPSTREAM_OFFSET 32 rec = up /\ load_little_to_host 2 rec = lt.
Proof.
  intros -> Hr Ht Hu Hl. pose proof (length_le_bytes 2 lt) as Hl2.
  assert (forall l : bytes, length l = 32 -> take 32 l = l) as Htk
    by (intros; apply take_ge; lia).
  split_and!.
  - rewrite !length_app, Hr, Ht, Hu, Hl2. done.
  - apply subspan_app; done.
  - rewrite app_assoc. apply subspan_app; [rewrite length_app, Hl2, Hr|]; done.
  - rewrite !app_assoc. unfold subspan. rewrite drop_app_length'; [auto|].
    rewrite !length_app, Hl2, Hr, Ht. done.
  - rewrite load_little_spec, take_app_length' by done.
    rewrite le_value_le_bytes. apply Z.mod_small. simpl. lia.
Qed.

Lemma decode_encode_v1 h rnd sk lifetime :
  hop_buildable h rnd sk -> (0 <= lifetime < 2 ^ 16)%Z ->
  exists secret enc nonce,
    (forall frame, length frame = BUILD_FRAME_SIZE ->
       encode_frame_v1 rnd h frame lifetime = Ok (keyed secret h, enc, nonce))
    /\ length enc = BUILD_FRAME_SIZE /\ head enc = Some FRAME_V1_VERSION
    /\ (forall now hop, decode_frame_v1 sk now hop enc =
          Ok (set_version 1 (set_route (txid h) (rxid h) (upstream h) (now + 1000 * lifetime)%Z
                (keyed secret hop)), nonce)).
Proof.
  intros Hb Hlt. destruct Hb as [Hkey Hrid Htx Hrx _ _ Hup _ _ _ _ Hex Hpad].
  pose proof (ed25519_sk_to_curve25519_buf _ Hkey) as Hc.
  destruct (path_build_secret_agreement _ _ Hex Hc) as (s & Hcl & Hsv & _).
  set (rec := le_bytes 2 lifetime ++ rxid h ++ txid h ++ upstream h).
  destruct (v1_record_fields lifetime _ _ _ rec eq_refl Hrx Htx Hup Hlt) as (Lr & Er & Et & Eu & El).
  set (sealed := aead_encrypt rec [FRAME_V1_VERSION] (zero_buf SYMM_NONCE_SIZE) s).
  assert (length sealed = RECORD_SIZE + TAG_SIZE) as Ls
    by (unfold sealed; rewrite aead_encrypt_length, Lr; done).
  pose proof (proj1 (curve25519_base_buf _ Hex)) as Lpub.
  set (pub := scalarmult_curve25519_base (eph_x rnd)) in *.
  exists s, (FRAME_V1_VERSION :: pub ++ sealed ++ eph_pad rnd), (xor_nonce_of s).
  assert (length (FRAME_V1_VERSION :: pub ++ sealed ++ eph_pad rnd) = BUILD_FRAME_SIZE) as Le.
  { cbn [length]. rewrite !length_app, Lpub, Ls, Hpad. done. }
  split_and!; [| done | done |].
  - intros frame Hf. unfold encode_frame_v1, X25519PubKey_of_ed.
    rewrite Hrid, ed25519_to_curve25519 by done. cbn [outcome_bind or_throw]. rewrite Hcl.
    cbn [outcome_bind set_keys rxid txid upstream shared_secret xor_nonce].
    rewrite write_little_spec. unfold wrap. rewrite Z.mod_small by done.
    set (room := subspan (RECORD_OFFSET + RECORD_SIZE) TAG_SIZE frame).
    replace (le_bytes 2 lifetime ++ rxid h ++ txid h ++ upstream h ++ room) with (rec ++ room)
      by (unfold rec; by rewrite <-!app_assoc).
    rewrite encrypt_inplace_eq; [done|].
    unfold room, subspan. rewrite length_take, length_drop, Hf. done.
  - intros now hop. unfold decode_frame_v1. rewrite Le.
    pass_guard ltac:(done).
    assert (subspan PUBKEY_OFFSET 32 (FRAME_V1_VERSION :: pub ++ sealed ++ eph_pad rnd) = pub) as ->
      by (apply (subspan_app 1 32 [FRAME_V1_VERSION]); done).
    unfold X25519KeyPair_of_ed. rewrite Hsv. cbn [outcome_bind].
    assert (subspan RECORD_OFFSET (RECORD_SIZE + TAG_SIZE)
      (FRAME_V1_VERSION :: pub ++ sealed ++ eph_pad rnd) = sealed) as ->.
    { rewrite app_comm_cons. apply subspan_app; [cbn [length]; rewrite Lpub|]; done. }
    cbn [take]. unfold sealed. rewrite decrypt_inplace_encrypt. cbn [outcome_bind or_throw].
    rewrite Er, Et, Eu, El. done.
Qed.

(** A frame written for a hop is read back by the hop's relay. *)
Lemma hop_sealable h rnd sk lifetime :
  hop_buildable h rnd sk -> (0 <= lifetime < 2 ^ 16)%Z ->
  exists secret enc nonce, hop_sealed lifetime h rnd sk secret enc nonce.
Proof.
  intros Hb Hlt.
  assert (is_zero (txid h) || is_zero (rxid h) ||
    negb (eqb (bool_decide (upstream h = ed25519_pubkey sk)) (bool_decide (txid h = rxid h))) = false) as Hok.
  { rewrite (hb_tx0 _ _ _ Hb), (hb_rx0 _ _ _ Hb), <-(hb_rid _ _ _ Hb).
    rewrite (bool_decide_ext _ _ (hb_terminal _ _ _ Hb)), eqb_reflx. done. }
  destruct (hb_version _ _ _ Hb) as [Hv|Hv].
  - destruct (decode_encode_v0 h rnd sk lifetime Hb ltac:(lia)) as (s & enc & nonce & He & Hl & Hh & Hd).
    exists s, enc, nonce. split; [|done|].
    + intros frame Hf. unfold encode_frame. rewrite Hv. by apply He.
    + intros now src. destruct enc as [|b enc']; [done|]. injection Hh as ->.
      unfold decrypt_build_frame. simpl (100 =? 100)%Z. cbv iota.
      rewrite Hd. cbn [outcome_bind]. simpl. rewrite Hok.
      unfold relay_hop. by rewrite Hv, (hb_rid _ _ _ Hb).
  - destruct (decode_encode_v1 h rnd sk lifetime Hb ltac:(lia)) as (s & enc & nonce & He & Hl & Hh & Hd).
    exists s, enc, nonce. split; [|done|].
    + intros frame Hf. unfold encode_frame. rewrite Hv. by apply He.
    + intros now src. destruct enc as [|b enc']; [done|]. injection Hh as ->.
      unfold decrypt_build_frame. simpl (FRAME_V1_VERSION =? _)%Z. cbv iota.
      rewrite Hd. cbn [outcome_bind]. simpl. rewrite Hok.
      unfold relay_hop. by rewrite Hv, (hb_rid _ _ _ Hb).
Qed.
End FrameProofs.

(** ** The onion of a whole path *)
Section OnionProofs.
Context `{SodiumLaws} `{OxencLaws}.
Implicit Types (sealed : list (bytes * bytes * bytes)).

Lemma length_onion sealed :
  Forall (fun e => length e.1.2 = BUILD_FRAME_SIZE) sealed ->
  length (onion sealed) = length sealed * BUILD_FRAME_SIZE.
Proof.
  induction 1 as [|[[s f] n] l Hf _ IH]; [done|].
  cbn [onion length]. rewrite length_app, length_xchacha20, IH. simpl in Hf. lia.
Qed.

(** Every hop's frame is the corresponding entry of [sealed]. *)
Definition path_sealed (lifetime : Z) (rnd : nat -> HopRandom) (hs : list TransitHop)
    (sks : list bytes) (sealed : list (bytes * bytes * bytes)) : Prop :=
  length sks = length hs /\ length sealed = length hs /\
  forall i h sk s e n, hs !! i = Some h -> sks !! i = Some sk -> sealed !! i = Some (s, e, n) ->
    hop_sealed lifetime h (rnd i) sk s e n.

Lemma path_sealable lifetime rnd hs sks :
  (0 <= lifetime < 2 ^ 16)%Z -> length sks = length hs ->
  (forall i h sk, hs !! i = Some h -> sks !! i = Some sk -> hop_buildable h (rnd i) sk) ->
  exists sealed, path_sealed lifetime rnd hs sks sealed.
Proof.
  intros Hlt. revert rnd sks. induction hs as [|h hs IH]; intros rnd [|sk sks] Hlen Hb; try done.
  - exists []. done.
  - destruct (hop_sealable h (rnd 0) sk lifetime (Hb 0 h sk eq_refl eq_refl) Hlt) as (s & e & n & Hs).
    destruct (IH (fun i => rnd (S i)) sks) as (sealed & _ & Hl & Hse).
    + simpl in Hlen; lia.
    + intros i h' sk' Hh Hk. by apply (Hb (S i)).
    + exists ((s, e, n) :: sealed). split_and!; [done | simpl; lia |].
      intros [|i] h' sk' s' e' n' ???; simplify_eq/=; [done|]. by eapply (Hse i).
Qed.

Lemma path_sealed_frames lifetime rnd hs sks sealed :
  path_sealed lifetime rnd hs sks sealed ->
  Forall (fun e => length e.1.2 = BUILD_FRAME_SIZE) sealed.
Proof.
  intros (Hk & Hl & Hse). apply Forall_lookup. intros i [[s e] n] Hi.
  destruct (lookup_lt_is_Some_2 hs i) as [h Hh]; [rewrite <-Hl; by eapply lookup_lt_Some|].
  destruct (lookup_lt_is_Some_2 sks i) as [sk Hsk]; [rewrite Hk; by eapply lookup_lt_Some|].
  by destruct (Hse i h sk s e n Hh Hsk Hi).
Qed.

Definition keyed_all (hs : list TransitHop) (sealed : list (bytes * bytes * bytes)) : list TransitHop :=
  zip_with (fun h e => keyed e.1.1 h) hs sealed.

(** One round of the loop: the frame is written and the frames after it wrapped. *)
Lemma onion_write i n A fr e s nonce R J :
  length A = i * BUILD_FRAME_SIZE -> length fr = BUILD_FRAME_SIZE -> length e = BUILD_FRAME_SIZE ->
  length R = (n - 1 - i) * BUILD_FRAME_SIZE ->
  let result := write_at (i * BUILD_FRAME_SIZE) e (A ++ fr ++ R ++ J) in
  (if decide (0 < n - 1 - i) then
     write_at (S i * BUILD_FRAME_SIZE)
       (xchacha20 (subspan (S i * BUILD_FRAME_SIZE) ((n - 1 - i) * BUILD_FRAME_SIZE) result) s nonce) result
   else result) = A ++ (e ++ xchacha20 R s nonce) ++ J.
Proof.
  intros HA Hfr He HR result.
  assert (result = (A ++ e) ++ R ++ J) as Hres.
  { unfold result. rewrite write_at_app by congruence. by rewrite app_assoc. }
  assert (length (A ++ e) = S i * BUILD_FRAME_SIZE) as HAe by (rewrite length_app, HA, He; lia).
  case_decide.
  - rewrite Hres, subspan_app by done. rewrite write_at_app by (rewrite ?length_xchacha20; done).
    by rewrite <-!app_assoc.
  - replace (n - 1 - i) with 0 in HR by lia. apply nil_length_inv in HR as ->. rewrite Hres. simpl. by rewrite app_nil_r, <-app_assoc.
Qed.

Lemma onion_loop_spec lifetime rnd hs sks sealed k A J :
  path_sealed lifetime rnd hs sks sealed -> k <= length hs -> length A = k * BUILD_FRAME_SIZE ->
  onion_loop rnd lifetime (length hs) k
    (take k hs ++ keyed_all (drop k hs) (drop k sealed)) (A ++ onion (drop k sealed) ++ J)
  = Ok (keyed_all hs sealed, onion sealed ++ J).
Proof.
  intros Hp. revert A. induction k as [|i IH]; intros A Hk HA.
  { destruct A; [|done]. by rewrite !drop_0. }
  pose proof Hp as (Lk & Ls & Hse).
  destruct (lookup_lt_is_Some_2 hs i) as [h Hh]; [lia|].
  destruct (lookup_lt_is_Some_2 sks i) as [sk Hsk]; [lia|].
  destruct (lookup_lt_is_Some_2 sealed i) as [[[s e] n] Hi]; [lia|].
  destruct (Hse i h sk s e n Hh Hsk Hi) as [Henc He _].
  pose proof (path_sealed_frames _ _ _ _ _ Hp) as Hfr.
  cbn [onion_loop].
  rewrite lookup_app_l by (rewrite length_take; lia). rewrite lookup_take_lt, Hh by lia.
  cbn [outcome_bind or_throw].
  replace (_ && _) with false by (by rewrite andb_false_r).
  assert (length (take (i * BUILD_FRAME_SIZE) A) = i * BUILD_FRAME_SIZE) as HA1
    by (rewrite length_take, HA; lia).
  assert (length (drop (i * BUILD_FRAME_SIZE) A) = BUILD_FRAME_SIZE) as HA2
    by (rewrite length_drop, HA; lia).
  rewrite <-(take_drop (i * BUILD_FRAME_SIZE) A).
  set (A1 := take _ A) in *. set (fr := drop _ A) in *. rewrite <-(app_assoc A1).
  rewrite subspan_app by done. fold (encode_frame (rnd i) h fr lifetime).
  rewrite Henc by done. cbn [outcome_bind].
  rewrite onion_write; [|done|done|done|rewrite length_onion by (by apply Forall_drop); rewrite length_drop; lia].
  change (shared_secret (keyed s h)) with s.
  rewrite <-(IH A1) by (lia || done). f_equal.
  - rewrite (drop_S hs _ _ Hh), (drop_S sealed _ _ Hi). cbn [keyed_all zip_with].
    rewrite (take_S_r hs i h) by done. rewrite <-app_assoc.
    rewrite insert_app_r_alt by (rewrite length_take; lia).
    rewrite length_take, Nat.min_l by lia. by rewrite Nat.sub_diag.
  - rewrite (drop_S sealed _ _ Hi). cbn [onion]. done.
Qed.

(** [path_build_onion] writes the onion of the hops' frames, followed by junk. *)
Lemma path_build_onion_spec lifetime rnd junk now path sks sealed :
  is_built path = false ->
  lifetime = wrap 32 (round_seconds (path_expiry path - now)) ->
  length (hops path) <= BUILD_LENGTH ->
  length junk = (BUILD_LENGTH - length (hops path)) * BUILD_FRAME_SIZE ->
  path_sealed lifetime rnd (hops path) sks sealed ->
  path_build_onion rnd junk now path =
    Ok (mkPath (keyed_all (hops path) sealed) (path_expiry path) true (is_established path) (path_dead path)
          (aligned_hopid path),
        onion sealed ++ junk).
Proof.
  intros Hb Hlt Hn Hj Hp. unfold path_build_onion. rewrite Hb, <-Hlt.
  set (n := length (hops path)) in *.
  pose proof Hp as (_ & Ls & _). fold n in Ls.
  pose proof (onion_loop_spec lifetime rnd (hops path) sks sealed n
    (zero_buf (n * BUILD_FRAME_SIZE)) junk Hp ltac:(done) ltac:(apply length_replicate)) as Hloop.
  rewrite (drop_ge sealed) in Hloop by lia. rewrite (drop_ge (hops path)) in Hloop by done.
  rewrite (take_ge (hops path)) in Hloop by done. cbn [keyed_all zip_with onion] in Hloop.
  rewrite app_nil_r in Hloop. fold n in Hloop. simpl ([] ++ junk) in Hloop.
  match goal with |- context [onion_loop _ _ _ _ _ ?r] =>
    replace r with (zero_buf (n * BUILD_FRAME_SIZE) ++ junk) end.
  - rewrite Hloop. done.
  - unfold zero_buf. case_decide.
    + replace (BUILD_FRAME_SIZE * BUILD_LENGTH) with
        (n * BUILD_FRAME_SIZE + (BUILD_LENGTH - n) * BUILD_FRAME_SIZE) by (unfold BUILD_LENGTH in *; lia).
      rewrite replicate_add.
      pose proof (write_at_app (n * BUILD_FRAME_SIZE) junk (zero_buf (n * BUILD_FRAME_SIZE))
        (zero_buf ((BUILD_LENGTH - n) * BUILD_FRAME_SIZE)) []) as Hw. unfold zero_buf in Hw.
      rewrite !app_nil_r in Hw. rewrite Hw; [done| |]; rewrite ?length_replicate; done.
    + replace n with BUILD_LENGTH in * by lia. rewrite Nat.sub_diag in Hj.
      apply nil_length_inv in Hj as ->. by rewrite app_nil_r.
Qed.
End OnionProofs.

(** ** The hops a path is constructed with *)
Section PathNew.
Context (self : bytes) (rng : nat -> bytes).

Definition is_last {A} (l : list A) (i : nat) : bool := bool_decide (l !! S i = None).

(** Hop [i] of a path over [rcs] whose first hop uses draw [d]. *)
Definition hop_at (down0 : Peer) (d : nat) (rcs : list RelayContact) (i : nat) (rc : RelayContact)
    : TransitHop :=
  mkHop (if is_last rcs i then rng (d + i) else rng (S (d + i))) (rng (d + i))
    (match rcs !! S i with None => rc_router_id rc | Some next => rc_router_id next end)
    (rc_router_id rc)
    (match i with O => down0 | S j => match rcs !! j with None => down0 | Some p => PRouter (rc_router_id p) end end)
    (zero_buf 32) (zero_buf 24) SYS_MS_MIN SYS_MS_MIN
    (if bytes_ltb (rc_version rc) BUILD_FRAME_V1_MIN_VERSION then 0%Z else 1%Z)
    (is_last rcs i) false.

Lemma path_hops_after prev d rcs i :
  txid prev = rng d ->
  path_hops self rng (Some prev) (S d) rcs !! i =
  hop_at (PRouter (router_id prev)) d rcs i <$> rcs !! i.
Proof.
  revert prev d i. induction rcs as [|rc rcs IH]; intros prev d i Hp; [done|].
  cbn [path_hops]. rewrite Hp. destruct rcs as [|rc2 rcs].
  - destruct i as [|i]; [|done]. simpl. unfold hop_at. simpl. by rewrite Nat.add_0_r.
  - destruct i as [|i].
    + cbn. unfold hop_at. simpl. by rewrite !Nat.add_0_r.
    + cbn [lookup list_lookup]. rewrite IH by done.
      destruct ((rc2 :: rcs) !! i) as [rci|] eqn:E; [|done]. cbn [fmap option_fmap option_map].
      unfold hop_at, is_last. cbn [router_id]. f_equal.
      rewrite !Nat.add_succ_r, !Nat.add_succ_l.
      destruct i as [|j]; [done|]. destruct ((rc2 :: rcs) !! j) eqn:Ej; [by replace ((rc :: rc2 :: rcs) !! S j) with (Some r) by (by rewrite <-Ej)|].
      apply lookup_ge_None in Ej. apply lookup_lt_Some in E. lia.
Qed.

Lemma Path_new_lookup rcs exp i :
  hops (Path_new self rng rcs exp) !! i = hop_at (PRouter self) 0 rcs i <$> rcs !! i.
Proof.
  unfold Path_new. cbn [hops]. destruct rcs as [|rc rcs]; [done|].
  cbn [path_hops]. destruct rcs as [|rc2 rcs].
  { by destruct i. }
  destruct i as [|i]; [done|].
  cbn [lookup list_lookup]. rewrite path_hops_after by done.
  destruct ((rc2 :: rcs) !! i) as [rci|] eqn:E; [|done]. cbn [fmap option_fmap option_map].
  unfold hop_at, is_last. cbn [router_id]. f_equal.
  destruct i as [|j]; [done|].
  destruct ((rc2 :: rcs) !! j) eqn:Ej; [by replace ((rc :: rc2 :: rcs) !! S j) with (Some r) by (by rewrite <-Ej)|].
      apply lookup_ge_None in Ej. apply lookup_lt_Some in E. lia.
Qed.

Lemma length_path_hops prev d rcs : length (path_hops self rng prev d rcs) = length rcs.
Proof.
  revert prev d. induction rcs as [|rc rcs IH]; intros; [done|].
  cbn [path_hops]. destruct prev, rcs; cbn [length]; rewrite IH; done.
Qed.
End PathNew.
