(* ===== verification/PathContext.v ===== *)
(** * The path context (path/path_context.{hpp,cpp})

    The tables through which a router finds the path or the transit hop of a
    message.  Hops and paths are shared objects (std::shared_ptr): the same hop
    is filed under its rxid and its txid, and the [is_dead] mark set through one
    of them is seen through the other.  So the tables hold pointers into a heap. *)

From Stdlib Require Import ZArith Lia.
From stdpp Require Import base list numbers strings gmap.
From S2P Require Import Prelude Oxenc Crypto RelayContact Path.

Record PathContext := mkCtx {
  hop_heap : gmap nat TransitHop;
  path_heap : gmap nat Path;
  next_ptr : nat;
  transit_hops : gmap bytes nat;
  path_map : gmap bytes nat;
  allow_transit_flag : bool;
}.

Definition empty_ctx : PathContext := mkCtx ∅ ∅ 0 ∅ ∅ false.

Definition with_hops (heap : gmap nat TransitHop) (tbl : gmap bytes nat) (c : PathContext) : PathContext :=
  mkCtx heap (path_heap c) (next_ptr c) tbl (path_map c) (allow_transit_flag c).
Definition with_paths (heap : gmap nat Path) (tbl : gmap bytes nat) (c : PathContext) : PathContext :=
  mkCtx (hop_heap c) heap (next_ptr c) (transit_hops c) tbl (allow_transit_flag c).

(** [Path::edge()] *)
Definition edge (p : Path) : option TransitHop := head (hops p).
Definition edge_rxid (p : Path) : bytes := match edge p with Some h => rxid h | None => [] end.

Definition set_path_dead (p : Path) : Path :=
  mkPath (hops p) (path_expiry p) (is_built p) (is_established p) true (aligned_hopid p).

(** [unordered_map::emplace]: an existing entry stays. *)
Definition emplace {V} (k : bytes) (v : V) (m : gmap bytes V) : gmap bytes V :=
  match m !! k with
  | Some _ => m
  | None => <[k := v]> m
  end.

Definition allow_transit (c : PathContext) : PathContext :=
  mkCtx (hop_heap c) (path_heap c) (next_ptr c) (transit_hops c) (path_map c) true.

(** [PathContext::add_path(path)] for the path at [p]. *)
Definition add_path (p : nat) (c : PathContext) : PathContext :=
  match path_heap c !! p with
  | Some path => with_paths (path_heap c) (emplace (edge_rxid path) p (path_map c)) c
  | None => c
  end.

(** One iteration of [expire_hops]' loop over the table. *)
Definition expire_hop (now : Z) (c : PathContext) (kv : bytes * nat) : PathContext :=
  match hop_heap c !! kv.2 with
  | Some h =>
      if hop_is_expired h now
      then with_hops (<[kv.2 := set_dead h]> (hop_heap c)) (delete kv.1 (transit_hops c)) c
      else c
  | None => c
  end.

(** [PathContext::expire_hops(now)] *)
Definition expire_hops (now : Z) (c : PathContext) : PathContext :=
  foldl (expire_hop now) c (map_to_list (transit_hops c)).

(** [PathContext::drop(const Path&)] *)
Definition drop_path_ctx (path : Path) (c : PathContext) : PathContext :=
  match path_map c !! edge_rxid path with
  | Some p =>
      with_paths (alter set_path_dead p (path_heap c)) (delete (edge_rxid path) (path_map c)) c
  | None => c
  end.

(** [PathContext::drop(const TransitHop&)] *)
Definition drop_hop_id (c : PathContext) (h : bytes) : PathContext :=
  match transit_hops c !! h with
  | Some p => with_hops (alter set_dead p (hop_heap c)) (delete h (transit_hops c)) c
  | None => c
  end.
Definition drop_hop (thop : TransitHop) (c : PathContext) : PathContext :=
  foldl drop_hop_id c [txid thop; rxid thop].

(** [PathContext::path_ctx_stats()] *)
Definition path_ctx_stats (c : PathContext) : nat * nat :=
  (size (path_map c) `div` 2, size (transit_hops c) `div` 2).

(** [PathContext::has_transit_hop(id)] *)
Definition has_transit_hop (c : PathContext) (id : bytes) : bool :=
  bool_decide (is_Some (transit_hops c !! id)).

(** [PathContext::put_transit_hop(hop)]; [hop] is a fresh object. *)
Definition put_transit_hop (hop : TransitHop) (c : PathContext) : PathContext :=
  let p := next_ptr c in
  mkCtx (<[p := hop]> (hop_heap c)) (path_heap c) (S p)
    (emplace (txid hop) p (emplace (rxid hop) p (transit_hops c))) (path_map c) (allow_transit_flag c).

(** [PathContext::get_transit_hop(id)] *)
Definition get_transit_hop (c : PathContext) (id : bytes) : option TransitHop :=
  match transit_hops c !! id with
  | Some p => hop_heap c !! p
  | None => None
  end.

(** [PathContext::get_path(id)] *)
Definition get_path (c : PathContext) (id : bytes) : option Path :=
  match path_map c !! id with
  | Some p => path_heap c !! p
  | None => None
  end.

(** ** Well-formedness: entries point to live objects filed under their own ids *)
Record ctx_wf (c : PathContext) : Prop := {
  wf_hop id p : transit_hops c !! id = Some p ->
    exists h, hop_heap c !! p = Some h /\ (id = rxid h \/ id = txid h);
  wf_path id p : path_map c !! id = Some p ->
    exists path, path_heap c !! p = Some path /\ edge_rxid path = id;
  wf_fresh p : next_ptr c <= p -> hop_heap c !! p = None /\ path_heap c !! p = None;
}.

Lemma lookup_emplace_ne {V} k k' (v : V) m : k <> k' -> emplace k v m !! k' = m !! k'.
Proof. intros. unfold emplace. case_match; [done|]. by rewrite lookup_insert_ne. Qed.

Lemma lookup_emplace_new {V} k (v : V) m : m !! k = None -> emplace k v m !! k = Some v.
Proof. intros Hm. unfold emplace. rewrite Hm. apply lookup_insert_eq. Qed.

Lemma lookup_emplace_Some {V} k k' (v v' : V) m :
  emplace k v m !! k' = Some v' -> m !! k' = Some v' \/ (k' = k /\ v' = v /\ m !! k = None).
Proof.
  unfold emplace. destruct (m !! k) eqn:E; [by left|].
  destruct (decide (k = k')) as [<-|]; [rewrite lookup_insert_eq; naive_solver|].
  rewrite lookup_insert_ne by done. by left.
Qed.

Lemma put_transit_hop_wf hop c : ctx_wf c -> ctx_wf (put_transit_hop hop c).
Proof.
  intros [Hh Hp Hf]. split; simpl.
  - intros id p [[Hl|(-> & -> & _)]%lookup_emplace_Some|(-> & -> & _)]%lookup_emplace_Some;
      [|exists hop; rewrite lookup_insert_eq; auto..].
    destruct (Hh id p Hl) as (h & Hl' & Hid). exists h. split; [|done].
    rewrite lookup_insert_ne; [done|]. intros <-. destruct (Hf (next_ptr c)); [done|]. congruence.
  - done.
  - intros p Hle. destruct (Hf p) as [? ?]; [lia|]. rewrite lookup_insert_ne by lia. done.
Qed.

Lemma get_put_transit_hop hop c id :
  ctx_wf c -> transit_hops c !! rxid hop = None -> transit_hops c !! txid hop = None ->
  id = rxid hop \/ id = txid hop -> get_transit_hop (put_transit_hop hop c) id = Some hop.
Proof.
  intros Hwf Hr Ht Hid. unfold get_transit_hop, put_transit_hop. simpl.
  destruct (decide (txid hop = rxid hop)) as [E|E].
  - assert (id = rxid hop) as -> by naive_solver.
    unfold emplace at 1. rewrite E, lookup_emplace_new by done. rewrite lookup_emplace_new by done.
    apply lookup_insert_eq.
  - destruct Hid as [->| ->].
    + rewrite lookup_emplace_ne, lookup_emplace_new by done. apply lookup_insert_eq.
    + rewrite lookup_emplace_new; [apply lookup_insert_eq|]. by rewrite lookup_emplace_ne.
Qed.

Lemma get_put_transit_hop_ne hop c id :
  ctx_wf c -> id <> rxid hop -> id <> txid hop ->
  get_transit_hop (put_transit_hop hop c) id = get_transit_hop c id
  /\ transit_hops (put_transit_hop hop c) !! id = transit_hops c !! id.
Proof.
  intros Hwf Hr Ht. unfold get_transit_hop, put_transit_hop. simpl.
  rewrite !lookup_emplace_ne by done. split; [|done].
  destruct (transit_hops c !! id) as [p|] eqn:E; [|done].
  destruct (wf_hop _ Hwf id p E) as (h & Hh & _).
  rewrite lookup_insert_ne; [done|]. intros <-.
  destruct (wf_fresh _ Hwf (next_ptr c)); [done|]. congruence.
Qed.

(** ** Expiry *)
Definition expired_at (now : Z) (c : PathContext) (p : nat) : bool :=
  match hop_heap c !! p with
  | Some h => hop_is_expired h now
  | None => false
  end.

Lemma expire_hop_expired_at now c kv p :
  expired_at now (expire_hop now c kv) p = expired_at now c p.
Proof.
  unfold expire_hop, expired_at. destruct (hop_heap c !! kv.2) as [h|] eqn:E; [|done].
  destruct (hop_is_expired h now) eqn:Ex; [|done]. simpl.
  destruct (decide (kv.2 = p)) as [<-|]; [by rewrite lookup_insert_eq, E|].
  by rewrite lookup_insert_ne.
Qed.

Lemma expire_hop_cases now c kv :
  expire_hop now c kv =
    if expired_at now c kv.2
    then with_hops (alter set_dead kv.2 (hop_heap c)) (delete kv.1 (transit_hops c)) c else c.
Proof.
  unfold expire_hop, expired_at. destruct (hop_heap c !! kv.2) as [h|] eqn:E; [|done].
  destruct (hop_is_expired h now); [|done]. f_equal. apply map_eq. intros p.
  destruct (decide (kv.2 = p)) as [<-|].
  - by rewrite lookup_insert_eq, lookup_alter_eq, E.
  - by rewrite lookup_insert_ne, lookup_alter_ne.
Qed.

Lemma expire_loop_table now l c id :
  transit_hops (foldl (expire_hop now) c l) !! id =
    if existsb (fun kv => bool_decide (kv.1 = id) && expired_at now c kv.2) l then None
    else transit_hops c !! id.
Proof.
  revert c. induction l as [|kv l IH]; intros c; [done|]. simpl. rewrite IH.
  rewrite (existsb_ext _ (fun kv => bool_decide (kv.1 = id) && expired_at now c kv.2))
    by (intros; by rewrite expire_hop_expired_at).
  rewrite expire_hop_cases. destruct (expired_at now c kv.2); [|by rewrite andb_false_r].
  rewrite andb_true_r. simpl. destruct (existsb _ l); [by rewrite orb_true_r|]. rewrite orb_false_r.
  case_bool_decide; [subst; apply lookup_delete_eq | by rewrite lookup_delete_ne].
Qed.

Lemma expire_loop_heap now l c p :
  hop_heap (foldl (expire_hop now) c l) !! p =
    if existsb (fun kv => bool_decide (kv.2 = p)) l && expired_at now c p
    then set_dead <$> hop_heap c !! p else hop_heap c !! p.
Proof.
  revert c. induction l as [|kv l IH]; intros c; [done|]. simpl. rewrite IH, expire_hop_expired_at.
  rewrite expire_hop_cases. case_bool_decide as E; simpl.
  - subst. destruct (expired_at now c kv.2); rewrite ?andb_false_r; [|done]. simpl.
    rewrite lookup_alter_eq. destruct (existsb _ l); simpl; [|done]. by destruct (hop_heap c !! kv.2).
  - destruct (expired_at now c kv.2); [|done]. simpl. by rewrite lookup_alter_ne.
Qed.

(** After [expire_hops(now)] the table holds exactly the unexpired hops, each
    unchanged, and every hop that was removed is marked dead. *)
Lemma expire_hops_spec now c :
  ctx_wf c ->
  (forall id, get_transit_hop (expire_hops now c) id =
     match get_transit_hop c id with
     | Some h => if hop_is_expired h now then None else Some h
     | None => None
     end)
  /\ (forall id p h, transit_hops c !! id = Some p -> hop_heap c !! p = Some h ->
        hop_is_expired h now = true -> hop_heap (expire_hops now c) !! p = Some (set_dead h)).
Proof.
  intros Hwf. unfold expire_hops. split.
  - intros id. unfold get_transit_hop. rewrite expire_loop_table.
    destruct (transit_hops c !! id) as [p|] eqn:E.
    2:{ by destruct (existsb _ _). }
    destruct (wf_hop _ Hwf id p E) as (h & Hh & _). rewrite Hh.
    assert (existsb (fun kv => bool_decide (kv.1 = id) && expired_at now c kv.2)
      (map_to_list (transit_hops c)) = hop_is_expired h now) as ->.
    { apply eq_true_iff_eq. rewrite existsb_exists. split.
      - intros ([id' p'] & Hin & [Heq%bool_decide_eq_true_1 Hx]%andb_true_iff).
        apply list_elem_of_In, elem_of_map_to_list in Hin. simpl in *. simplify_eq.
        unfold expired_at in Hx. by rewrite Hh in Hx.
      - intros Hx. exists (id, p). split; [by apply list_elem_of_In, elem_of_map_to_list|].
        simpl. rewrite bool_decide_true by done. unfold expired_at. by rewrite Hh. }
    destruct (hop_is_expired h now) eqn:Hx; [done|].
    rewrite expire_loop_heap. unfold expired_at. by rewrite Hh, Hx, andb_false_r.
  - intros id p h E Hh Hx. rewrite expire_loop_heap. unfold expired_at. rewrite Hh, Hx.
    replace (existsb _ _) with true; [done|]. symmetry. apply existsb_exists.
    exists (id, p). split; [by apply list_elem_of_In, elem_of_map_to_list|]. by apply bool_decide_true.
Qed.

Lemma expire_loop_frame now l c :
  let c' := foldl (expire_hop now) c l in
  path_heap c' = path_heap c /\ path_map c' = path_map c /\ next_ptr c' = next_ptr c.
Proof.
  revert c. induction l as [|kv l IH]; intros c; [done|]. simpl.
  destruct (IH (expire_hop now c kv)) as (-> & -> & ->). rewrite expire_hop_cases. by case_match.
Qed.

Lemma expire_hops_wf now c : ctx_wf c -> ctx_wf (expire_hops now c).
Proof.
  intros Hwf. unfold expire_hops.
  destruct (expire_loop_frame now (map_to_list (transit_hops c)) c) as (Hph & Hpm & Hnp). split.
  - intros id p. rewrite expire_loop_table. case_match; [done|]. intros E.
    destruct (wf_hop _ Hwf id p E) as (h & Hh & Hid). rewrite expire_loop_heap, Hh.
    destruct (_ && _); simpl; eauto.
  - intros id p. rewrite Hph, Hpm. apply Hwf.
  - intros p. rewrite Hph, Hnp. intros Hle. destruct (wf_fresh _ Hwf p Hle) as [Hn ?].
    rewrite expire_loop_heap, Hn. split; [|done]. by destruct (_ && _).
Qed.
