(* ===== verification/PathBuild.v ===== *)
(** * Building a path through the network

    [Manager::handle_path_build] (link/link_manager.cpp) on each relay, the
    response handler it leaves behind, and the run of a build request through a
    network of relays. *)

From Stdlib Require Import ZArith Lia.
From stdpp Require Import base list numbers strings gmap.
From S2P Require Import Prelude Oxenc Messages Crypto RelayContact Path PathContext.

Local Open Scope router_scope.

(** ** A relay, as its link manager sees it *)
Record Relay := mkRelay {
  secret_key : bytes;
  is_service_node : bool;
  clock : Z;
  path_context : PathContext;
  (** [node_db().get_rc(rid)] is not null *)
  has_rc : bytes -> bool;
  (** [endpoint.relay_unreachable(rid)] *)
  relay_unreachable : bytes -> bool;
}.

Definition with_context (c : PathContext) (r : Relay) : Relay :=
  mkRelay (secret_key r) (is_service_node r) (clock r) c (has_rc r) (relay_unreachable r).

Definition relay_id (r : Relay) : bytes := ed25519_pubkey (secret_key r).

(** The response to a request: a body with its error flag, or none in time. *)
Inductive Response : Type :=
| Respond (body : bytes) (is_error : bool)
| Timeout.

Section Build.
Context `{Sodium} `{Oxenc}.

(** What [handle_path_build] does with a request. *)
Inductive BuildStep : Type :=
| BuildRespond (r : Relay) (resp : Response)
| BuildForward (upstream : bytes) (frames : bytes) (hop : TransitHop).

(** The part of [handle_path_build] inside its try block. *)
Definition path_build_try (junk : nat -> bytes) (r : Relay) (from : Peer) (frames_in : bytes)
    : outcome TransitHopError BuildStep :=
  let frame_size := length frames_in `div` BUILD_LENGTH in
  if negb (bool_decide (length frames_in `mod` BUILD_LENGTH = 0))
     || bool_decide (frame_size < BUILD_FRAME_SIZE_MIN)
     || bool_decide (BUILD_FRAME_SIZE_MAX < frame_size)
  then Ok (BuildRespond r (Respond (serialize_status_response (str "BAD FRAMES")) true))
  else
    let now := clock r in
    let! (hop, onion_nonce) :=
      decrypt_build_frame (secret_key r) from now (take frame_size frames_in) in
    throw_if ((now + MAX_LIFETIME_ACCEPTED <? expiry hop)%Z || (expiry hop <=? now)%Z)
      with INVALID_LIFETIME in
    throw_if (has_transit_hop (path_context r) (rxid hop) || has_transit_hop (path_context r) (txid hop))
      with HOP_ID_UNAVAILABLE in
    if terminal_hop hop then
      Ok (BuildRespond (with_context (put_transit_hop hop (path_context r)) r) (Respond OK_RESPONSE false))
    else
      (* rotate the remaining frames forward, junk at the end *)
      let frames := drop frame_size frames_in ++ junk frame_size in
      (* de-onion the remaining frames, not including the junk *)
      let n := (BUILD_LENGTH - 1) * frame_size in
      let frames := xchacha20 (take n frames) (shared_secret hop) onion_nonce ++ drop n frames in
      throw_if (negb (has_rc r (upstream hop)) || relay_unreachable r (upstream hop))
        with UPSTREAM_UNREACHABLE in
      Ok (BuildForward (upstream hop) frames hop).

(** [Manager::handle_path_build(m, from)] *)
Definition handle_path_build (junk : nat -> bytes) (r : Relay) (from : Peer) (frames_in : bytes)
    : BuildStep :=
  if negb (is_service_node r) then BuildRespond r (Respond ERROR_RESPONSE true)
  else match path_build_try junk r from frames_in with
       | Ok step => step
       | Throw e => BuildRespond r (Respond (serialize_status_response (error_code e)) true)
       end.

(** The handler of the upstream's response. *)
Definition path_build_response (hop : TransitHop) (r : Relay) (m : Response) : Relay * Response :=
  match m with
  | Respond _ false =>
      (with_context (put_transit_hop hop (path_context r)) r, Respond OK_RESPONSE false)
  | Respond body true => (r, Respond body true)
  | Timeout => (r, Timeout)
  end.

(** A build request sent to relay [rid] of the network [net]; [junk k] are the
    random bytes drawn by the relay reached with [k] steps left. *)
Fixpoint run_path_build (junk : nat -> nat -> bytes) (fuel : nat) (net : gmap bytes Relay)
    (rid : bytes) (from : Peer) (frames : bytes) : gmap bytes Relay * Response :=
  match fuel with
  | O => (net, Timeout)
  | S k =>
    match net !! rid with
    | None => (net, Timeout)
    | Some r =>
      match handle_path_build (junk k) r from frames with
      | BuildRespond r' resp => (<[rid := r']> net, resp)
      | BuildForward up frames' hop =>
        let '(net1, m) := run_path_build junk k net up (PRouter rid) frames' in
        match net1 !! rid with
        | None => (net1, Timeout)
        | Some r1 => let '(r1', resp) := path_build_response hop r1 m in (<[rid := r1']> net1, resp)
        end
      end
    end
  end.
End Build.

Arguments BuildStep : clear implicits.

(** ** A relay on the path *)
Section RelayStep.
Context `{SodiumLaws} `{OxencLaws}.

(** The relay behind [h] is ready to carry the path. *)
Record relay_ready (r : Relay) (h : TransitHop) (sk : bytes) (last : bool) : Prop := {
  rr_key : secret_key r = sk;
  rr_node : is_service_node r = true;
  rr_rx : has_transit_hop (path_context r) (rxid h) = false;
  rr_tx : has_transit_hop (path_context r) (txid h) = false;
  rr_up : last = false -> has_rc r (upstream h) = true /\ relay_unreachable r (upstream h) = false;
}.

Lemma frames_in_size (l : bytes) :
  length l = BUILD_FRAME_SIZE * BUILD_LENGTH ->
  length l `div` BUILD_LENGTH = BUILD_FRAME_SIZE /\ length l `mod` BUILD_LENGTH = 0.
Proof. intros ->. done. Qed.

(** A ready relay strips its own frame and one layer from the rest. *)
Lemma handle_path_build_step junk r h rnd sk lifetime s e n rest J from :
  hop_sealed lifetime h rnd sk s e n ->
  relay_ready r h sk (bool_decide (upstream h = router_id h)) ->
  (0 < lifetime <= 1380)%Z ->
  length (onion ((s, e, n) :: rest) ++ J) = BUILD_FRAME_SIZE * BUILD_LENGTH ->
  (upstream h <> router_id h -> length (onion rest) <= (BUILD_LENGTH - 1) * BUILD_FRAME_SIZE) ->
  (forall k, length (junk k) = k) ->
  let hop := relay_hop h s from (clock r) lifetime in
  if bool_decide (upstream h = router_id h) then
    handle_path_build junk r from (onion ((s, e, n) :: rest) ++ J) =
      BuildRespond (with_context (put_transit_hop hop (path_context r)) r) (Respond OK_RESPONSE false)
  else exists J',
    handle_path_build junk r from (onion ((s, e, n) :: rest) ++ J) =
      BuildForward (upstream h) (onion rest ++ J') hop
    /\ length (onion rest ++ J') = BUILD_FRAME_SIZE * BUILD_LENGTH.
Proof.
  intros [_ He Hdec] [Hkey Hnode Hrx Htx Hup] Hlt Hlen Hrest Hjunk hop.
  destruct (frames_in_size _ Hlen) as [Hdiv Hmod].
  unfold handle_path_build, path_build_try. rewrite Hnode. cbn [negb].
  rewrite Hdiv, Hmod.
  replace (_ || _ || _) with false by done.
  cbn [onion]. rewrite <-app_assoc.
  rewrite (take_app_length' e) by done. rewrite Hkey, Hdec. cbn [outcome_bind].
  replace ((_ <? _)%Z || _) with false
    by (symmetry; cbn [relay_hop expiry]; unfold MAX_LIFETIME_ACCEPTED, MAX_LIFETIME, MAX_LIFETIME_FUZZ; lia).
  cbn [relay_hop rxid txid terminal_hop]. rewrite Hrx, Htx. cbn [orb].
  case_bool_decide as Hterm; [done|].
  fold hop. change (upstream hop) with (upstream h). change (shared_secret hop) with s.
  destruct Hup as [Hrc Hun]; [done|]. rewrite Hrc, Hun. cbn [negb orb].
  rewrite (drop_app_length' e) by done.
  cbn [onion] in Hlen. rewrite !length_app, length_xchacha20 in Hlen.
  specialize (Hrest Hterm).
  set (m := (BUILD_LENGTH - 1) * BUILD_FRAME_SIZE) in *.
  assert (length (xchacha20 (onion rest) s n ++ J) = m) as Lm.
  { rewrite length_app, length_xchacha20. unfold m, BUILD_LENGTH in *. lia. }
  rewrite take_app_length', drop_app_length' by done.
  unfold xchacha20 at 1. rewrite xor_stream_app. fold (xchacha20 (xchacha20 (onion rest) s n) s n).
  rewrite xchacha20_involutive, <-app_assoc. eexists. split; [done|].
  rewrite !length_app, length_xor_stream, Hjunk.
  rewrite length_app, length_xchacha20 in Lm. unfold m, BUILD_LENGTH in *. lia.
Qed.
End RelayStep.

(** ** The whole path *)
Section Run.
Context `{SodiumLaws} `{OxencLaws}.
Implicit Types (net : gmap bytes Relay) (hs : list TransitHop).

(** Consecutive hops name each other; the last one names itself. *)
Inductive linked : list TransitHop -> Prop :=
| linked_last h : upstream h = router_id h -> linked [h]
| linked_cons h h' hs :
    upstream h = router_id h' -> upstream h <> router_id h -> linked (h' :: hs) ->
    linked (h :: h' :: hs).

Definition put_hop (hop : TransitHop) (r : Relay) : Relay :=
  with_context (put_transit_hop hop (path_context r)) r.

Definition clock_at net (rid : bytes) : Z :=
  match net !! rid with Some r => clock r | None => 0%Z end.

(** The network once every relay of the path has stored its hop. *)
Fixpoint installed (lifetime : Z) net (from : Peer) hs (sealed : list (bytes * bytes * bytes))
    : gmap bytes Relay :=
  match hs, sealed with
  | h :: hs, (s, _, _) :: sealed =>
      alter (put_hop (relay_hop h s from (clock_at net (router_id h)) lifetime)) (router_id h)
        (installed lifetime net (PRouter (router_id h)) hs sealed)
  | _, _ => net
  end.

Lemma installed_cons lifetime net from h hs s e n sealed :
  installed lifetime net from (h :: hs) ((s, e, n) :: sealed) =
  alter (put_hop (relay_hop h s from (clock_at net (router_id h)) lifetime)) (router_id h)
    (installed lifetime net (PRouter (router_id h)) hs sealed).
Proof. done. Qed.

(** Storing hops does not create, remove or re-key relays. *)
Definition same_relay (r r' : Relay) : Prop := exists c, r' = with_context c r.

Lemma installed_lookup lifetime net from hs sealed rid r :
  net !! rid = Some r ->
  exists r', installed lifetime net from hs sealed !! rid = Some r' /\ same_relay r r'.
Proof.
  intros Hr. revert from sealed. induction hs as [|h hs IH]; intros from [|[[s e] n] sealed]; simpl;
    try (exists r; split; [done|]; exists (path_context r); by destruct r).
  destruct (IH (PRouter (router_id h)) sealed) as (r1 & Hr1 & c & Hc).
  destruct (decide (router_id h = rid)) as [<-|Hne].
  - rewrite lookup_alter_eq, Hr1. simpl. eexists. split; [done|]. rewrite Hc. eexists. done.
  - rewrite lookup_alter_ne by done. exists r1. split; [done|]. by exists c.
Qed.

Lemma path_sealed_cons lifetime rnd h hs sk sks s e n sealed :
  path_sealed lifetime rnd (h :: hs) (sk :: sks) ((s, e, n) :: sealed) ->
  hop_sealed lifetime h (rnd 0) sk s e n
  /\ path_sealed lifetime (fun i => rnd (S i)) hs sks sealed.
Proof.
  intros (L1 & L2 & Hs). split; [by apply (Hs 0)|].
  split_and!; [simpl in *; lia.. |]. intros i. apply (Hs (S i)).
Qed.

Lemma run_path_build_installed lifetime junk hs :
  linked hs -> (0 < lifetime <= 1380)%Z -> (forall k n, length (junk k n) = n) ->
  forall rnd sks sealed net from J fuel,
  path_sealed lifetime rnd hs sks sealed ->
  (forall i h sk, hs !! i = Some h -> sks !! i = Some sk ->
     exists r, net !! router_id h = Some r
       /\ relay_ready r h sk (bool_decide (upstream h = router_id h))) ->
  length (onion sealed ++ J) = BUILD_FRAME_SIZE * BUILD_LENGTH -> length hs <= fuel ->
  exists h0, head hs = Some h0 /\
  run_path_build junk fuel net (router_id h0) from (onion sealed ++ J)
  = (installed lifetime net from hs sealed, Respond OK_RESPONSE false).
Proof.
  intros Hlink Hlt Hjunk. induction Hlink as [h Hup|h h' hs Hup Hne Hlink IH];
    intros rnd sks sealed net from J fuel Hp Hready Hlen Hfuel.
  all: pose proof Hp as (L1 & L2 & _).
  all: destruct sks as [|sk sks]; [done|]; destruct sealed as [|[[s e] n] sealed]; [done|].
  all: apply path_sealed_cons in Hp as [Hs Hp].
  all: destruct (Hready 0 h sk eq_refl eq_refl) as (r & Hr & Hrdy).
  all: destruct fuel as [|fuel]; [simpl in Hfuel; lia|].
  all: exists h; split; [done|]; cbn [run_path_build]; rewrite Hr.
  all: assert (length (onion sealed) <= (BUILD_LENGTH - 1) * BUILD_FRAME_SIZE) as Hle
    by (cbn [onion] in Hlen; rewrite !length_app, length_xchacha20, (hs_length _ _ _ _ _ _ _ Hs) in Hlen;
        unfold BUILD_LENGTH in *; lia).
  all: pose proof (handle_path_build_step (junk fuel) r h (rnd 0) sk lifetime s e n sealed J from
         Hs Hrdy Hlt Hlen (fun _ => Hle) (Hjunk fuel)) as Hstep; cbv zeta in Hstep.
  - rewrite bool_decide_true in Hstep by done. rewrite Hstep.
    destruct sealed; [|done]. cbn [installed]. unfold clock_at. rewrite Hr. f_equal.
    apply map_eq. intros rid. destruct (decide (router_id h = rid)) as [<-|].
    + by rewrite lookup_insert_eq, lookup_alter_eq, Hr.
    + by rewrite lookup_insert_ne, lookup_alter_ne.
  - rewrite bool_decide_false in Hstep by done. destruct Hstep as (J' & Hstep & HJ').
    rewrite Hstep.
    destruct (IH (fun i => rnd (S i)) sks sealed net (PRouter (router_id h)) J' fuel)
      as (h0 & [= <-] & Hrun); [done| | done | simpl in *; lia |].
    { intros i hi ski Hhi Hski. by apply (Hready (S i)). }
    rewrite Hup, Hrun.
    destruct (installed_lookup lifetime net (PRouter (router_id h)) (h' :: hs) sealed _ _ Hr)
      as (r1 & Hr1 & _).
    rewrite Hr1, installed_cons. cbn [path_build_response]. f_equal.
    replace (clock_at net (router_id h)) with (clock r) by (unfold clock_at; by rewrite Hr). apply map_eq. intros rid.
    destruct (decide (router_id h = rid)) as [<-|].
    + by rewrite lookup_insert_eq, lookup_alter_eq, Hr1.
    + by rewrite lookup_insert_ne, lookup_alter_ne.
Qed.

(** Two hops on the same relay use different ids. *)
Definition ids_apart (h h' : TransitHop) : Prop :=
  router_id h = router_id h' ->
  rxid h <> rxid h' /\ rxid h <> txid h' /\ txid h <> rxid h' /\ txid h <> txid h'.

Definition net_wf net : Prop := map_Forall (fun _ r => ctx_wf (path_context r)) net.

Definition id_free net (rid id : bytes) : Prop :=
  forall r, net !! rid = Some r -> transit_hops (path_context r) !! id = None.

Definition hop_stored net (rid id : bytes) (hop : TransitHop) : Prop :=
  exists r, net !! rid = Some r /\ get_transit_hop (path_context r) id = Some hop.

Lemma net_wf_put net rid hop : net_wf net -> net_wf (alter (put_hop hop) rid net).
Proof.
  intros Hwf rid' r'. destruct (decide (rid = rid')) as [<-|].
  - rewrite lookup_alter_eq. intros (r & Hr & ->)%fmap_Some_1.
    apply put_transit_hop_wf. by apply (Hwf rid).
  - rewrite lookup_alter_ne by done. apply Hwf.
Qed.

Lemma net_wf_installed lifetime net from hs sealed :
  net_wf net -> net_wf (installed lifetime net from hs sealed).
Proof.
  revert from sealed. induction hs as [|h hs IH]; intros from [|[[s e] n] sealed] Hwf; try done.
  rewrite installed_cons. auto using net_wf_put.
Qed.

Lemma id_free_put net rid id hop rid' :
  net_wf net -> (rid' = rid -> id <> rxid hop /\ id <> txid hop) ->
  id_free net rid id -> id_free (alter (put_hop hop) rid' net) rid id.
Proof.
  intros Hwf Hne Hfree r. destruct (decide (rid' = rid)) as [->|].
  - rewrite lookup_alter_eq. intros (r0 & Hr & ->)%fmap_Some_1.
    cbn [put_hop with_context path_context]. destruct Hne as [? ?]; [done|].
    rewrite (proj2 (get_put_transit_hop_ne hop _ id (Hwf _ _ Hr) ltac:(done) ltac:(done))). eauto.
  - rewrite lookup_alter_ne by done. apply Hfree.
Qed.

Lemma hop_stored_put net rid id hop hop' rid' :
  net_wf net -> (rid' = rid -> id <> rxid hop' /\ id <> txid hop') ->
  hop_stored net rid id hop -> hop_stored (alter (put_hop hop') rid' net) rid id hop.
Proof.
  intros Hwf Hne (r & Hr & Hg). destruct (decide (rid' = rid)) as [->|].
  - destruct Hne as [? ?]; [done|]. exists (put_hop hop' r). rewrite lookup_alter_eq, Hr. split; [done|].
    cbn [put_hop with_context path_context]. by rewrite (proj1 (get_put_transit_hop_ne hop' _ id (Hwf _ _ Hr) ltac:(done) ltac:(done))).
  - exists r. by rewrite lookup_alter_ne.
Qed.

Lemma installed_id_free lifetime net from hs sealed rid id :
  net_wf net -> id_free net rid id ->
  Forall (fun h => router_id h = rid -> id <> rxid h /\ id <> txid h) hs ->
  id_free (installed lifetime net from hs sealed) rid id.
Proof.
  intros Hwf Hfree Hs. revert from sealed.
  induction Hs as [|h hs Hh _ IH]; intros from [|[[s e] n] sealed]; try done.
  rewrite installed_cons. apply id_free_put; [by apply net_wf_installed | done | apply IH].
Qed.

(** Every relay of the path finds its hop under both of the hop's ids. *)
Lemma installed_stored lifetime net from hs sealed :
  net_wf net -> length sealed = length hs -> ForallOrdPairs ids_apart hs ->
  (forall i h, hs !! i = Some h -> is_Some (net !! router_id h)
     /\ id_free net (router_id h) (rxid h) /\ id_free net (router_id h) (txid h)) ->
  forall i h s e n id, hs !! i = Some h -> sealed !! i = Some (s, e, n) -> id = rxid h \/ id = txid h ->
  let src := match i with O => Some from | S j => (fun p => PRouter (router_id p)) <$> hs !! j end in
  exists p, src = Some p /\
  hop_stored (installed lifetime net from hs sealed) (router_id h) id
    (relay_hop h s p (clock_at net (router_id h)) lifetime).
Proof.
  intros Hwf Hlen Hap. revert from sealed Hlen.
  induction Hap as [|h0 hs Hh0 Hap IH]; intros from [|[[s0 e0] n0] sealed] Hlen Hnet; try done.
  intros i h s e n id Hi Hs Hid src. rewrite installed_cons.
  destruct (Hnet 0 h0 eq_refl) as ([r0 Hr0] & Frx & Ftx).
  assert (forall id', id' = rxid h0 \/ id' = txid h0 ->
    Forall (fun h' => router_id h' = router_id h0 -> id' <> rxid h' /\ id' <> txid h') hs) as Hout.
  { intros id' Hid'. eapply Forall_impl; [exact Hh0|]. intros h' Hap' E.
    destruct (Hap' (eq_sym E)) as (? & ? & ? & ?). destruct Hid' as [-> | ->]; done. }
  destruct i as [|j]; simplify_eq/=.
  - exists from. split; [done|].
    destruct (installed_lookup lifetime net (PRouter (router_id h)) hs sealed _ _ Hr0) as (r1 & Hr1 & _).
    eexists. rewrite lookup_alter_eq, Hr1. split; [done|].
    apply get_put_transit_hop; [| | |done]; simpl.
    + by eapply net_wf_installed.
    + eapply installed_id_free; [done | exact Frx | by apply Hout; left | done].
    + eapply installed_id_free; [done | exact Ftx | by apply Hout; right | done].
  - destruct (IH (PRouter (router_id h0)) sealed ltac:(lia)
      ltac:(intros i' h' Hi'; by apply (Hnet (S i'))) j h s e n id Hi Hs Hid) as (p & Hp & Hst).
    exists p. split; [by destruct j|].
    apply hop_stored_put; [by apply net_wf_installed | | done].
    intros E. simpl. rewrite Forall_lookup in Hh0.
    destruct (Hh0 j h Hi E) as (? & ? & ? & ?). destruct Hid as [-> | ->]; done.
Qed.
End Run.

(** ** A path built from relay contacts *)
Section Establish.
Context `{SodiumLaws} `{OxencLaws}.
Context (self : bytes) (rng : nat -> bytes) (rcs : list RelayContact) (sks : list bytes).
Context (rnd : nat -> HopRandom) (net : gmap bytes Relay).

(** What holds before the build: [sks] are the secret keys of the relays of
    [rcs]; the random draws have their types' sizes and the hop ids are fresh. *)
Record build_setup : Prop := {
  bs_nonempty : rcs <> [];
  bs_length : length rcs <= BUILD_LENGTH;
  bs_sks : length sks = length rcs;
  bs_keys i rc sk : rcs !! i = Some rc -> sks !! i = Some sk ->
    ed25519_keypair sk /\ rc_router_id rc = ed25519_pubkey sk;
  bs_adjacent i a b : rcs !! i = Some a -> rcs !! S i = Some b -> rc_router_id a <> rc_router_id b;
  bs_ids i : i <= length rcs -> length (rng i) = HOPID_SIZE /\ is_zero (rng i) = false;
  bs_inj i j : i <= length rcs -> j <= length rcs -> rng i = rng j -> i = j;
  bs_rnd i : ed25519_keypair (eph_ed (rnd i)) /\ is_buf SYMM_NONCE_SIZE (eph_nonce (rnd i))
    /\ is_buf 32 (eph_x (rnd i)) /\ length (eph_pad (rnd i)) = BUILD_FRAME_SIZE - BUILD_FRAME_SIZE_V1;
  bs_wf : net_wf net;
  bs_net i rc sk : rcs !! i = Some rc -> sks !! i = Some sk ->
    exists r, net !! rc_router_id rc = Some r /\ secret_key r = sk /\ is_service_node r = true
      /\ (forall k, k <= length rcs -> transit_hops (path_context r) !! rng k = None)
      /\ (forall next, rcs !! S i = Some next ->
            has_rc r (rc_router_id next) = true /\ relay_unreachable r (rc_router_id next) = false);
}.

Hypothesis Hset : build_setup.
Context (exp : Z).
Let hs := hops (Path_new self rng rcs exp).

Lemma new_hop i h : hs !! i = Some h ->
  exists rc sk, rcs !! i = Some rc /\ sks !! i = Some sk /\ h = hop_at rng (PRouter self) 0 rcs i rc
    /\ i < length rcs.
Proof.
  unfold hs. rewrite Path_new_lookup. intros (rc & Hrc & ->)%fmap_Some_1.
  pose proof (lookup_lt_Some _ _ _ Hrc) as Hi.
  destruct (lookup_lt_is_Some_2 sks i) as [sk Hsk]; [rewrite (bs_sks Hset); done|].
  eauto 8.
Qed.

Lemma length_hs : length hs = length rcs.
Proof. apply length_path_hops. Qed.

Lemma next_rc_cases i : i < length rcs ->
  (exists next, rcs !! S i = Some next /\ is_last rcs i = false /\ S i < length rcs)
  \/ (rcs !! S i = None /\ is_last rcs i = true).
Proof.
  intros Hi. unfold is_last. destruct (rcs !! S i) as [next|] eqn:E.
  - left. exists next. split_and!; [done | done | by eapply lookup_lt_Some].
  - right. split; [done|]. by rewrite bool_decide_true.
Qed.

Lemma new_hop_terminal i rc : rcs !! i = Some rc ->
  let h := hop_at rng (PRouter self) 0 rcs i rc in
  (upstream h = router_id h <-> is_last rcs i = true)
  /\ (txid h = rxid h <-> is_last rcs i = true).
Proof.
  intros Hrc h. pose proof (lookup_lt_Some _ _ _ Hrc) as Hi.
  unfold h, hop_at. cbn [upstream router_id txid rxid].
  destruct (next_rc_cases i Hi) as [(next & Hn & -> & Hlt)|(Hn & ->)]; rewrite Hn; [|done].
  split; (split; [|done]).
  - intros E. exfalso. by eapply (bs_adjacent Hset i).
  - simpl. intros E%(bs_inj Hset); lia.
Qed.

Lemma new_hop_buildable i h sk : hs !! i = Some h -> sks !! i = Some sk -> hop_buildable h (rnd i) sk.
Proof.
  intros Hh Hsk. destruct (new_hop i h Hh) as (rc & sk' & Hrc & Hsk' & -> & Hi). simplify_eq.
  destruct (bs_keys Hset i rc sk Hrc Hsk) as [Hk Hrid].
  destruct (bs_rnd Hset i) as (? & ? & ? & ?).
  destruct (bs_ids Hset i) as [Li Zi]; [lia|]. destruct (bs_ids Hset (S i)) as [Lsi Zsi]; [lia|].
  destruct (new_hop_terminal i rc Hrc) as [T1 T2].
  split; try done.
  - simpl. by destruct (is_last rcs i).
  - simpl. by destruct (is_last rcs i).
  - unfold hop_at. cbn [upstream]. destruct (rcs !! S i) as [next|] eqn:E.
    + destruct (lookup_lt_is_Some_2 sks (S i)) as [skn Hskn];
        [rewrite (bs_sks Hset); by eapply lookup_lt_Some|].
      destruct (bs_keys Hset (S i) next skn E Hskn) as [? ->]. by apply length_ed25519_pubkey.
    + rewrite Hrid. by apply length_ed25519_pubkey.
  - by rewrite T1, T2.
  - simpl. destruct (bytes_ltb _ _); auto.
Qed.

Lemma linked_drop i : i < length rcs -> linked (drop i hs).
Proof.
  intros Hi. remember (length rcs - i) as m eqn:Em. revert i Hi Em.
  induction m as [|m IH]; intros i Hi Em; [lia|].
  destruct (lookup_lt_is_Some_2 hs i) as [h Hh]; [rewrite length_hs; done|].
  rewrite (drop_S _ _ _ Hh). destruct (new_hop i h Hh) as (rc & sk & Hrc & Hsk & -> & _).
  destruct (new_hop_terminal i rc Hrc) as [T1 _].
  destruct (next_rc_cases i Hi) as [(next & Hn & Hl & Hlt)|(Hn & Hl)].
  - destruct (lookup_lt_is_Some_2 hs (S i)) as [h' Hh']; [rewrite length_hs; lia|].
    pose proof (IH (S i) Hlt ltac:(lia)) as IH'. rewrite (drop_S _ _ _ Hh') in IH' |- *.
    destruct (new_hop (S i) h' Hh') as (rc' & _ & Hrc' & _ & -> & _). simplify_eq.
    constructor; [|rewrite T1; by rewrite Hl|done]. unfold hop_at at 1. cbn [upstream]. by rewrite Hn.
  - rewrite drop_ge by (rewrite length_hs; apply lookup_ge_None in Hn; done).
    constructor. by apply T1.
Qed.

(** The ids of hop [i] are draws [i] and, except at the end, [i+1]. *)
Lemma new_hop_ids i h id : hs !! i = Some h -> id = rxid h \/ id = txid h ->
  exists k, id = rng k /\ (k = i \/ k = S i) /\ k <= length rcs.
Proof.
  intros Hh Hid. destruct (new_hop i h Hh) as (rc & _ & _ & _ & -> & Hi).
  unfold hop_at in Hid. cbn [rxid txid] in Hid. simpl in Hid.
  destruct Hid as [->| ->]; [exists i; auto with lia|].
  destruct (is_last rcs i); [exists i | exists (S i)]; auto with lia.
Qed.

Lemma ids_apart_hs : ForallOrdPairs ids_apart hs.
Proof.
  assert (forall i j h h', i < j -> hs !! i = Some h -> hs !! j = Some h' -> ids_apart h h') as Hp.
  { intros i j h h' Hij Hh Hh' E.
    assert (S i < j) as Hij'.
    { destruct (decide (j = S i)) as [->|]; [|lia]. exfalso.
      destruct (new_hop _ _ Hh) as (rc & _ & Hrc & _ & -> & _).
      destruct (new_hop _ _ Hh') as (rc' & _ & Hrc' & _ & -> & _).
      by eapply (bs_adjacent Hset i). }
    assert (forall id id', id = rxid h \/ id = txid h -> id' = rxid h' \/ id' = txid h' -> id <> id') as Hne.
    { intros id id' Hid Hid' <-.
      destruct (new_hop_ids i h id Hh Hid) as (k & Ek & Hk & Hkn).
      destruct (new_hop_ids j h' id Hh' Hid') as (k' & Ek' & Hk' & Hkn').
      assert (k = k') by (apply (bs_inj Hset); congruence || lia). lia. }
    split_and!; apply Hne; auto. }
  clearbody hs. clear - Hp. induction hs as [|h hs' IH]; constructor.
  - apply Forall_lookup. intros j h' Hj. by apply (Hp 0 (S j) h h' ltac:(lia)).
  - apply IH. intros i j h1 h2 Hij H1 H2. by apply (Hp (S i) (S j) h1 h2 ltac:(lia)).
Qed.

Lemma new_hop_ready i h sk : hs !! i = Some h -> sks !! i = Some sk ->
  exists r, net !! router_id h = Some r
    /\ relay_ready r h sk (bool_decide (upstream h = router_id h))
    /\ id_free net (router_id h) (rxid h) /\ id_free net (router_id h) (txid h).
Proof.
  intros Hh Hsk. destruct (new_hop i h Hh) as (rc & sk' & Hrc & Hsk' & Eh & Hi).
  assert (sk' = sk) as -> by congruence.
  destruct (bs_net Hset i rc sk Hrc Hsk) as (r & Hr & Hkey & Hnode & Hfree & Hnext).
  assert (router_id h = rc_router_id rc) as Er by (by rewrite Eh).
  assert (forall id, id = rxid h \/ id = txid h -> transit_hops (path_context r) !! id = None) as Hf.
  { intros id Hid. destruct (new_hop_ids i h id Hh Hid) as (k & -> & _ & Hk). by apply Hfree. }
  exists r. rewrite Er. split_and!; [done| | |].
  - unfold has_transit_hop. split; [done | done | | |].
    + apply bool_decide_false. rewrite Hf by auto. apply is_Some_None.
    + apply bool_decide_false. rewrite Hf by auto. apply is_Some_None.
    + intros Hl%bool_decide_eq_false_1. rewrite Eh in *. unfold hop_at in Hl |- *.
      cbn [upstream router_id] in Hl |- *.
      destruct (rcs !! S i) as [next|] eqn:E; [by apply Hnext | done].
  - intros r' Hr'. simplify_eq. apply Hf; auto.
  - intros r' Hr'. simplify_eq. apply Hf; auto.
Qed.
End Establish.

(** What a relay stores for a hop of the client's path. *)
Record hop_agrees (lifetime now : Z) (src : Peer) (h hop : TransitHop) : Prop := {
  ha_secret : shared_secret hop = shared_secret h;
  ha_nonce : xor_nonce hop = xor_nonce h;
  ha_rxid : rxid hop = rxid h;
  ha_txid : txid hop = txid h;
  ha_upstream : upstream hop = upstream h;
  ha_downstream : downstream hop = src;
  ha_terminal : terminal_hop hop = terminal_hop h;
  ha_version : version hop = version h;
  ha_expiry : expiry hop = (now + 1000 * lifetime)%Z;
  ha_alive : is_dead hop = false;
}.

Section Built.
Context `{SodiumLaws} `{OxencLaws}.
Context (self : bytes) (rng : nat -> bytes) (rcs : list RelayContact) (sks : list bytes).
Context (rnd : nat -> HopRandom) (junk : bytes) (fill : nat -> nat -> bytes) (net : gmap bytes Relay).
Context (now exp lifetime : Z) (src : Peer) (rc0 : RelayContact).
Hypothesis Hset : build_setup rng rcs sks rnd net.
Hypothesis Hrc0 : head rcs = Some rc0.
Hypothesis Hlt : lifetime = round_seconds (exp - now).
Hypothesis Hlt' : (0 < lifetime <= 1380)%Z.
Hypothesis Hjunk : length junk = (BUILD_LENGTH - length rcs) * BUILD_FRAME_SIZE.
Hypothesis Hfill : forall k n, length (fill k n) = n.
Let hs := hops (Path_new self rng rcs exp).

(** The message the client sends and the network it leaves behind. *)
Lemma path_build_run :
  exists sealed, path_sealed lifetime rnd hs sks sealed
  /\ path_build_onion rnd junk now (Path_new self rng rcs exp) =
       Ok (mkPath (keyed_all hs sealed) exp true false false None, onion sealed ++ junk)
  /\ run_path_build fill (length rcs) net (rc_router_id rc0) src (onion sealed ++ junk) =
       (installed lifetime net src hs sealed, Respond OK_RESPONSE false).
Proof.
  assert (wrap 32 lifetime = lifetime) as Hw by (unfold wrap; apply Z.mod_small; lia).
  destruct (path_sealable lifetime rnd hs sks) as (sealed & Hp); [lia | | |].
  { unfold hs. rewrite (length_hs self rng rcs exp). apply Hset. }
  { intros i h sk. apply (new_hop_buildable self rng rcs sks rnd net Hset exp). }
  pose proof Hp as (L1 & L2 & _). pose proof (length_hs self rng rcs exp) as Lhs. fold hs in Lhs.
  pose proof (path_build_onion_spec lifetime rnd junk now (Path_new self rng rcs exp) sks sealed
    eq_refl ltac:(cbn [path_expiry Path_new]; by rewrite <-Hlt, Hw) ltac:(fold hs; rewrite Lhs; apply Hset)
    ltac:(by fold hs; rewrite Lhs) Hp) as Honion.
  destruct (run_path_build_installed lifetime fill hs) with (rnd := rnd) (sks := sks) (sealed := sealed)
    (net := net) (from := src) (J := junk) (fuel := length rcs) as (h0 & Hh0 & Hrun);
    [ | done | done | done | | | by rewrite Lhs | ].
  { unfold hs. rewrite <-(drop_0 (hops _)).
    apply (linked_drop self rng rcs sks rnd net Hset exp). destruct rcs; [done | simpl; lia]. }
  { intros i h sk Hh Hsk.
    destruct (new_hop_ready self rng rcs sks rnd net Hset exp i h sk Hh Hsk) as (r & ? & ? & _). eauto. }
  { rewrite length_app, (length_onion sealed), L2, Lhs, Hjunk by (by eapply path_sealed_frames).
    pose proof (bs_length _ _ _ _ _ Hset). unfold BUILD_LENGTH, BUILD_FRAME_SIZE, BUILD_FRAME_SIZE_V0 in *. lia. }
  assert (router_id h0 = rc_router_id rc0) as Er0.
  { unfold hs in Hh0. clear - Hh0 Hrc0. destruct rcs as [|? [|? ?]]; [done|..]; by simplify_eq/=. }
  rewrite Er0 in Hrun. eauto.
Qed.

(** Every hop of the built path is stored on its relay, and agrees with it. *)
Lemma built_hop_stored sealed i h :
  path_sealed lifetime rnd hs sks sealed -> keyed_all hs sealed !! i = Some h ->
  exists r hop, net !! router_id h = Some r
    /\ hop_stored (installed lifetime net src hs sealed) (router_id h) (rxid h) hop
    /\ hop_stored (installed lifetime net src hs sealed) (router_id h) (txid h) hop
    /\ hop_agrees lifetime (clock r) (match i with O => src | _ => downstream h end) h hop.
Proof.
  clear Hrc0 Hlt Hlt' Hjunk Hfill. intros Hp Hk. pose proof Hp as (L1 & L2 & _).
  unfold keyed_all in Hk. apply lookup_zip_with_Some in Hk as (h0 & [[s e] n] & -> & Hh & Hs).
  cbn [keyed set_keys router_id rxid txid fst].
  destruct (new_hop self rng rcs sks rnd net Hset exp i h0 Hh) as (rc & sk & Hrc & Hsk & Eh & Hi).
  destruct (new_hop_ready self rng rcs sks rnd net Hset exp i h0 sk Hh Hsk) as (r & Hr & _ & Frx & Ftx).
  assert (forall j hj, hs !! j = Some hj -> is_Some (net !! router_id hj)
    /\ id_free net (router_id hj) (rxid hj) /\ id_free net (router_id hj) (txid hj)) as Hall.
  { intros j hj Hj. destruct (new_hop self rng rcs sks rnd net Hset exp j hj Hj) as (_ & skj & _ & Hskj & _ & _).
    destruct (new_hop_ready self rng rcs sks rnd net Hset exp j hj skj Hj Hskj) as (rj & ? & _ & ? & ?). eauto. }
  pose proof (installed_stored lifetime net src hs sealed (bs_wf _ _ _ _ _ Hset) L2
    (ids_apart_hs self rng rcs sks rnd net Hset exp) Hall i h0 s e n) as Hst.
  destruct (Hst (rxid h0) Hh Hs ltac:(auto)) as (p & Hp1 & Hst1).
  destruct (Hst (txid h0) Hh Hs ltac:(auto)) as (p' & Hp2 & Hst2).
  assert (p' = p) as -> by congruence.
  unfold clock_at in Hst1, Hst2. rewrite Hr in Hst1, Hst2.
  exists r, (relay_hop h0 s p (clock r) lifetime). split_and!; [done..|].
  assert (terminal_hop h0 = bool_decide (upstream h0 = router_id h0)) as Ht.
  { rewrite Eh. destruct (new_hop_terminal self rng rcs sks rnd net Hset i rc Hrc) as [T1 _].
    apply eq_true_iff_eq. rewrite bool_decide_eq_true, T1. done. }
  split; try done.
  cbn [relay_hop downstream keyed set_keys]. destruct i as [|j]; [congruence|].
  rewrite Eh. unfold hop_at. cbn [downstream].
  destruct (hs !! j) as [hj|] eqn:Ej; [|done]. simplify_eq/=.
  destruct (new_hop self rng rcs sks rnd net Hset exp j hj Ej) as (rcj & _ & Hrcj & _ & -> & _).
  by rewrite Hrcj.
Qed.
End Built.

(** C1.  A build message that [path_build_onion] produces for up to eight hops,
    sent to the first relay and passed on by each relay's [handle_path_build],
    is answered with OK; afterwards every relay of the path holds, under both hop
    ids, a transit hop with the secret, nonce, ids, neighbours and version the
    client has for it, expiring after the lifetime the client asked for. *)
Theorem path_build_established `{SodiumLaws} `{OxencLaws}
    (self : bytes) (rng : nat -> bytes) (rcs : list RelayContact) (sks : list bytes)
    (rnd : nat -> HopRandom) (junk : bytes) (fill : nat -> nat -> bytes) (net : gmap bytes Relay)
    (now exp lifetime : Z) (src : Peer) (rc0 : RelayContact) :
  build_setup rng rcs sks rnd net -> head rcs = Some rc0 ->
  lifetime = round_seconds (exp - now) -> (0 < lifetime <= 1380)%Z ->
  length junk = (BUILD_LENGTH - length rcs) * BUILD_FRAME_SIZE ->
  (forall k n, length (fill k n) = n) ->
  exists path msg net',
    path_build_onion rnd junk now (Path_new self rng rcs exp) = Ok (path, msg)
    /\ run_path_build fill (length rcs) net (rc_router_id rc0) src msg = (net', Respond OK_RESPONSE false)
    /\ length (hops path) = length rcs
    /\ forall i h, hops path !! i = Some h ->
         exists r hop, net !! router_id h = Some r
           /\ hop_stored net' (router_id h) (rxid h) hop /\ hop_stored net' (router_id h) (txid h) hop
           /\ hop_agrees lifetime (clock r) (match i with O => src | _ => downstream h end) h hop.
Proof.
  intros Hset Hrc0 Hlt Hlt' Hjunk Hfill.
  destruct (path_build_run self rng rcs sks rnd junk fill net now exp lifetime src rc0
    Hset Hrc0 Hlt Hlt' Hjunk Hfill) as (sealed & Hp & Honion & Hrun).
  pose proof Hp as (_ & L2 & _). pose proof (length_hs self rng rcs exp) as Lhs.
  eexists _, _, _. split; [exact Honion|]. split; [exact Hrun|]. cbn [hops].
  split; [unfold keyed_all; rewrite length_zip_with; lia|].
  intros i h Hh. by eapply built_hop_stored.
Qed.

(** ** A concrete network: a v0 relay and a v1 relay *)
Module Demo.
#[local] Existing Instance toy.
#[local] Existing Instance bencode.
#[local] Existing Instance toy_laws.
#[local] Existing Instance bencode_laws.

Definition sk (k : Z) : bytes := replicate 64 k.
Definition pk (k : Z) : bytes := replicate 32 k.
Definition ids (i : nat) : bytes := replicate 16 (Z.of_nat (S i)).
Definition rc (k : Z) (ver : bytes) : RelayContact :=
  mkRC (pk k) (Addr4 [1; 2; 3; k]%Z [0; 99]%Z) None 0 0 ver [].
Definition rcs : list RelayContact := [rc 1 [1; 0; 0]%Z; rc 2 [1; 1; 0]%Z].
Definition sks : list bytes := [sk 1; sk 2].
Definition rnd (i : nat) : HopRandom :=
  mkHopRandom (sk 7) (replicate 24 3%Z) (replicate 32 5%Z) (zero_buf 54).
Definition relay (k : Z) : Relay :=
  mkRelay (sk k) true 1000 empty_ctx (fun _ => true) (fun _ => false).
Definition net : gmap bytes Relay := <[pk 1 := relay 1]> {[pk 2 := relay 2]}.

Lemma empty_ctx_wf : ctx_wf empty_ctx.
Proof. split; simpl; intros; by rewrite ?lookup_empty in *. Qed.

Lemma keypair k : is_byte k -> ed25519_keypair (sk k).
Proof. intros Hk. split; [|done]. split; [done|]. by apply Forall_replicate. Qed.

Lemma setup : build_setup ids rcs sks rnd net.
Proof.
  split.
  - done.
  - unfold BUILD_LENGTH. simpl. lia.
  - done.
  - intros [|[|i]] ?? E1 E2; simplify_eq/=; (split; [apply keypair; unfold is_byte; lia | done]).
  - intros [|[|i]] ?? E1 E2; by simplify_eq/=.
  - intros [|[|[|i]]] Hi; simpl in Hi; [done..|lia].
  - intros i j _ _ E. unfold ids in E. simpl in E. injection E. lia.
  - intros i. split_and!; [apply keypair; unfold is_byte; lia | | | done];
      (split; [done|]; apply Forall_replicate; unfold is_byte; lia).
  - intros rid r Hr. unfold net in Hr.
    apply lookup_insert_Some in Hr as [[_ <-]|[_ Hr]]; [apply empty_ctx_wf|].
    apply lookup_singleton_Some in Hr as [_ <-]. apply empty_ctx_wf.
  - intros [|[|i]] ?? E1 E2; simplify_eq/=.
    + exists (relay 1). unfold net. rewrite lookup_insert_eq. split_and!; done.
    + exists (relay 2). unfold net. rewrite lookup_insert_ne by done. rewrite lookup_singleton_eq.
      split_and!; done.
Qed.
End Demo.

(** The hypotheses of C1 hold for a two-hop path of relays with different versions. *)
Lemma path_build_established_witness :
  exists path msg net',
    @path_build_onion toy bencode Demo.rnd (zero_buf 1014) 0 (Path_new (Demo.pk 9) Demo.ids Demo.rcs 600000)
      = Ok (path, msg)
    /\ @run_path_build toy bencode (fun _ n => zero_buf n) 2 Demo.net (Demo.pk 1) (PConn []) msg
      = (net', Respond (@OK_RESPONSE bencode) false).
Proof.
  destruct (@path_build_established toy toy_laws bencode bencode_laws
    (Demo.pk 9) Demo.ids Demo.rcs Demo.sks Demo.rnd (zero_buf 1014) (fun _ n => zero_buf n)
    Demo.net 0 600000 600 (PConn []) (Demo.rc 1 [1; 0; 0]%Z)) as (path & msg & net' & H1 & H2 & _).
  - exact Demo.setup.
  - reflexivity.
  - reflexivity.
  - lia.
  - reflexivity.
  - intros. apply length_replicate.
  - exists path, msg, net'. split; [exact H1 | exact H2].
Defined.
