(* ===== verification/PathMsg.v ===== *)
(** * Messages along a path

    The onion encryption of path messages at the client ([Path::encrypt_path_message],
    [decrypt_path_message], path/path.cpp) and their handling on the way
    ([handle_path_control], [handle_session_message] and their helpers,
    link/link_manager.cpp). *)

From Stdlib Require Import ZArith Lia.
From stdpp Require Import base list numbers strings gmap.
From S2P Require Import Prelude Oxenc Messages Crypto RelayContact Path PathContext PathBuild.

Definition ENCRYPT_PATH_MESSAGE_OVERHEAD : nat := SYMM_NONCE_SIZE + HOPID_SIZE + 1.
Definition ENCRYPT_PATH_MESSAGE_OVERHEAD_MAC : nat := ENCRYPT_PATH_MESSAGE_OVERHEAD + TAG_SIZE.
Definition MIN_PATH_DATA_MESSAGE_SIZE : nat := 0 + 1 + HOPID_SIZE + ENCRYPT_PATH_MESSAGE_OVERHEAD.
Definition SESSION_TAG_SIZE : nat := 4.

(** [MessageType] *)
Definition MT_Data : Z := 1.
Definition MT_Control : Z := 1.
Definition MT_SessionHandshake : Z := 2.
Definition MT_CONTROL_MIN : Z := 1.
Definition MT_CONTROL_MAX : Z := 2.

(** The outer layout of a path message: onioned payload, nonce, hop id, type. *)
Definition path_message (inner nonce hop : bytes) (type : Z) : bytes := inner ++ nonce ++ hop ++ [type].

(** [split_span_tail<SymmNonce::SIZE, HopID::SIZE, 1>(l)] (util/bspan.hpp), for
    [l] of at least that size. *)
Definition split_path_message (l : bytes) : bytes * bytes * bytes * Z :=
  let n := length l - ENCRYPT_PATH_MESSAGE_OVERHEAD in
  (take n l, subspan n SYMM_NONCE_SIZE l, subspan (n + SYMM_NONCE_SIZE) HOPID_SIZE l,
   List.nth (length l - 1) l 0%Z).

Section Client.
Context `{Sodium} `{Oxenc}.

(** The loop of [encrypt_path_message], over the hops from the last to the first. *)
Fixpoint encrypt_layers (with_mac first : bool) (rev_hops : list TransitHop) (inner nonce : bytes)
    : bytes * bytes :=
  match rev_hops with
  | [] => (inner, nonce)
  | hop :: rest =>
    let '(first, inner) :=
      if first && with_mac
      then (false, xchacha20_poly1305_encrypt_inplace inner (shared_secret hop) nonce [])
      else (first, xchacha20 inner (shared_secret hop) nonce) in
    encrypt_layers with_mac first rest inner (buf_xor nonce (xor_nonce hop))
  end.

(** [Path::encrypt_path_message(data, nonce, type, with_mac)] *)
Definition encrypt_path_message (path : Path) (data nonce : bytes) (type : Z) (with_mac : bool) : bytes :=
  let inner := data ++ (if with_mac then zero_buf TAG_SIZE else []) in
  let '(inner, nonce) := encrypt_layers with_mac true (rev (hops path)) inner nonce in
  path_message inner nonce (edge_rxid path) type.

(** The loop of [decrypt_path_message] over all hops but the last. *)
Fixpoint decrypt_layers (hops : list TransitHop) (inner nonce : bytes) : bytes * bytes :=
  match hops with
  | [] => (inner, nonce)
  | hop :: rest =>
    let nonce := buf_xor nonce (xor_nonce hop) in
    decrypt_layers rest (xchacha20 inner (shared_secret hop) nonce) nonce
  end.

(** [Path::decrypt_path_message(payload)]; the empty string on failure. *)
Definition decrypt_path_message (path : Path) (payload : bytes) : bytes :=
  if decide (length payload <= ENCRYPT_PATH_MESSAGE_OVERHEAD_MAC) then []
  else
    let '(inner, nonce, _, _) := split_path_message payload in
    let n := length (hops path) - 1 in
    let '(inner, nonce) := decrypt_layers (take n (hops path)) inner nonce in
    match last (hops path) with
    | None => []
    | Some last_hop =>
      let nonce := buf_xor nonce (xor_nonce last_hop) in
      default [] (xchacha20_poly1305_decrypt_inplace inner (shared_secret last_hop) nonce [])
    end.

(** [Path::send_path_control_message(method, body)]: the request that is sent. *)
Definition path_control_request (path : Path) (method body nonce : bytes) : bytes :=
  encrypt_path_message path (bt_dict_produce [(str "e", BStr method); (str "p", BStr body)])
    nonce MT_Control true.
End Client.

(** ** Path control on a relay *)
Section Control.
Context `{Sodium} `{Oxenc}.

(** What [handle_path_control] does with a request. *)
Inductive ControlStep : Type :=
| CtlRespond (resp : Response)
| CtlServe (hop : TransitHop) (payload : bytes) (type : Z)
| CtlForward (target : Peer) (payload : bytes) (hop : TransitHop) (type : Z)
| CtlUndefined. (* std::optional dereferenced while empty *)

(** [Manager::handle_path_control(m)] *)
Definition handle_path_control (r : Relay) (body : bytes) : ControlStep :=
  if decide (length body <= ENCRYPT_PATH_MESSAGE_OVERHEAD_MAC) then CtlRespond (Respond ERROR_RESPONSE true)
  else
    let '(inner, nonce, hop_id, type) := split_path_message body in
    if negb (type =? 1)%Z then CtlRespond (Respond ERROR_RESPONSE true)
    else
      match get_transit_hop (path_context r) hop_id with
      | None => CtlRespond (Respond ERROR_RESPONSE true)
      | Some hop =>
        let nonce := buf_xor nonce (xor_nonce hop) in
        if terminal_hop hop then
          match xchacha20_poly1305_decrypt_inplace inner (shared_secret hop) nonce [] with
          | Some payload => CtlServe hop payload type
          | None => CtlUndefined
          end
        else
          let inner := xchacha20 inner (shared_secret hop) nonce in
          let '(next_target, next_hopid) := next_id hop hop_id in
          CtlForward next_target (path_message inner nonce next_hopid type) hop type
      end.

(** The responder of a terminal hop; [nonce] is its random draw. *)
Definition path_control_reply (hop : TransitHop) (type : Z) (nonce response : bytes) : Response :=
  let inner := xchacha20_poly1305_encrypt_inplace (response ++ zero_buf TAG_SIZE)
                 (shared_secret hop) nonce [] in
  let nonce := buf_xor nonce (xor_nonce hop) in
  Respond (path_message inner nonce (rxid hop) type) false.

(** The handler of the next hop's response: the responses sent back, in order. *)
Definition path_control_response (hop : TransitHop) (type : Z) (response : Response) : list Response :=
  match response with
  | Timeout => []
  | Respond body err =>
    (if err then [Respond body true] else []) ++
    if decide (length body <= ENCRYPT_PATH_MESSAGE_OVERHEAD) then [Respond ERROR_RESPONSE true]
    else
      let '(inner, nonce, recv_hopid, mtype) := split_path_message body in
      if negb (mtype =? type)%Z then [Respond ERROR_RESPONSE true]
      else if negb (bool_decide (recv_hopid = txid hop)) then [Respond ERROR_RESPONSE true]
      else
        let inner := xchacha20 inner (shared_secret hop) nonce in
        let nonce := buf_xor nonce (xor_nonce hop) in
        [Respond (path_message inner nonce (rxid hop) type) false]
  end.

(** [Manager::handle_path_request(payload, respond)]: [path_requests] is the
    table of local handlers; no response without one. *)
Definition handle_path_request (path_requests : bytes -> option (bytes -> bytes)) (payload : bytes)
    : option bytes :=
  match c ← bt_dict_open payload;
        '(endpoint, c) ← bt_require_string (str "e") c;
        '(body, _) ← bt_require_string (str "p") c;
        Some (endpoint, body) with
  | None => Some (serialize_status_response (str "ERROR"))
  | Some (endpoint, body) => (fun f => f body) <$> path_requests endpoint
  end.

(** [Manager::handle_path_ping] *)
Definition handle_path_ping (body : bytes) : bytes := OK_RESPONSE.

(** A path control request sent to relay [rid]: the first response the sender
    receives.  [serve rid] are the handlers of relay [rid], [reply_nonce] its
    random draw. *)
Fixpoint run_path_control (fuel : nat) (net : gmap bytes Relay)
    (serve : bytes -> bytes -> option (bytes -> bytes)) (reply_nonce : bytes)
    (rid : bytes) (body : bytes) : Response :=
  match fuel with
  | O => Timeout
  | S k =>
    match net !! rid with
    | None => Timeout
    | Some r =>
      match handle_path_control r body with
      | CtlRespond resp => resp
      | CtlUndefined => Timeout
      | CtlServe hop payload type =>
        match handle_path_request (serve rid) payload with
        | Some response => path_control_reply hop type reply_nonce response
        | None => Timeout
        end
      | CtlForward (PRouter next) payload hop type =>
        default Timeout (head (path_control_response hop type
          (run_path_control k net serve reply_nonce next payload)))
      | CtlForward (PConn _) _ _ _ => Timeout
      end
    end
  end.
End Control.

(** ** Session messages: data and session control *)
Section Session.
Context `{Sodium} `{Oxenc}.

(** [extract_path_message_metadata(message)]: hop id, nonce, type and what is left. *)
Definition extract_path_message_metadata (message : bytes) : option (bytes * bytes * Z * bytes) :=
  if decide (length message < MIN_PATH_DATA_MESSAGE_SIZE) then None
  else
    let msgtype := List.nth (length message - 1) message 0%Z in
    let message := take (length message - 1) message in
    let hop_id := drop (length message - HOPID_SIZE) message in
    let message := take (length message - HOPID_SIZE) message in
    let nonce := drop (length message - SYMM_NONCE_SIZE) message in
    let message := take (length message - SYMM_NONCE_SIZE) message in
    Some (hop_id, nonce, msgtype, message).

(** [unknown_message_type(msgtype, control)] *)
Definition unknown_message_type (msgtype : Z) (control : bool) : bool :=
  if control then ((msgtype <? MT_CONTROL_MIN) || (MT_CONTROL_MAX <? msgtype))%Z
  else negb (msgtype =? MT_Data)%Z.

(** Where a session message goes. *)
Inductive SessionStep : Type :=
| SessDrop
| SessUndefined (* a span longer than its buffer *)
| SessHandshake (message : bytes) (tag : Z) (nonce : bytes)
| SessInit (message : bytes)
| SessControl (message : bytes) (tag : Z) (nonce : bytes)
| SessData (message : bytes) (tag : Z) (nonce : bytes)
| SessForward (target : Peer) (message : bytes).

(** The tail shared by cases 1 and 2: dispatch of a decrypted message. *)
Definition deliver_session (control : bool) (msgtype tag : Z) (message nonce : bytes) : SessionStep :=
  if (msgtype =? MT_SessionHandshake)%Z then SessHandshake message tag nonce
  else if control && (tag =? 0)%Z then SessInit message
  else if control then SessControl message tag nonce
  else SessData message tag nonce.

(** The loop of case 1 over the hops of a client's path. *)
Fixpoint client_unwrap (hops : list TransitHop) (message nonce : bytes) : bytes * bytes :=
  match hops with
  | [] => (message, nonce)
  | hop :: rest =>
      client_unwrap rest (xchacha20 message (shared_secret hop) nonce) (buf_xor nonce (xor_nonce hop))
  end.

(** Case 1 of [handle_session_message]: a client. *)
Definition session_message_client (ctx : PathContext) (control : bool)
    (hop_id nonce : bytes) (msgtype : Z) (message : bytes) : SessionStep :=
  match get_path ctx hop_id with
  | None => SessDrop
  | Some path =>
    if decide (length message < SESSION_TAG_SIZE) then SessDrop
    else if unknown_message_type msgtype control then SessDrop
    else
      let '(message, nonce) := client_unwrap (hops path) message nonce in
      let n := length message - SESSION_TAG_SIZE in
      let tag := load_big_to_host SESSION_TAG_SIZE (drop n message) in
      deliver_session control msgtype tag (take n message) nonce
  end.

(** Cases 2 to 4: a relay. *)
Definition session_message_relay (ctx : PathContext) (control : bool)
    (hop_id nonce : bytes) (msgtype : Z) (message : bytes) : SessionStep :=
  match get_transit_hop ctx hop_id with
  | None => SessDrop
  | Some hop =>
    let nonce := buf_xor nonce (xor_nonce hop) in
    let message := xchacha20 message (shared_secret hop) nonce in
    if terminal_hop hop then
      if decide (length message < SESSION_TAG_SIZE + HOPID_SIZE) then SessUndefined
      else
        let n := length message - (SESSION_TAG_SIZE + HOPID_SIZE) in
        let bsession_tag := subspan n SESSION_TAG_SIZE message in
        let pivot_id := drop (n + SESSION_TAG_SIZE) message in
        if bool_decide (pivot_id = hop_id) then
          if unknown_message_type msgtype control then SessDrop
          else deliver_session control msgtype (load_big_to_host SESSION_TAG_SIZE bsession_tag)
                 (take n message) nonce
        else
          match get_transit_hop ctx pivot_id with
          | None => SessDrop
          | Some trans_hop =>
            let session_payload := take (length message - HOPID_SIZE) message in
            let nonce := buf_xor nonce (xor_nonce trans_hop) in
            let session_payload := xchacha20 session_payload (shared_secret trans_hop) nonce in
            SessForward (downstream trans_hop) (path_message session_payload nonce pivot_id msgtype)
          end
    else
      let '(next_target, next_hopid) := next_id hop hop_id in
      SessForward next_target (path_message message nonce next_hopid msgtype)
  end.

(** [Manager::handle_session_message(message, control)] *)
Definition handle_session_message (service_node : bool) (ctx : PathContext) (message : bytes)
    (control : bool) : SessionStep :=
  match extract_path_message_metadata message with
  | None => SessDrop
  | Some (hop_id, nonce, msgtype, message) =>
    if service_node then session_message_relay ctx control hop_id nonce msgtype message
    else session_message_client ctx control hop_id nonce msgtype message
  end.

(** [Manager::handle_path_session_control(m)] *)
Definition handle_path_session_control (service_node : bool) (ctx : PathContext) (body : bytes)
    : SessionStep :=
  if decide (length body <= ENCRYPT_PATH_MESSAGE_OVERHEAD_MAC) then SessDrop
  else handle_session_message service_node ctx body true.

(** A session message handed from router to router: [clients] are the routers
    reachable through a connection id.  Returns where the message ends. *)
Fixpoint run_session_message (fuel : nat) (net : gmap bytes Relay) (clients : gmap bytes PathContext)
    (control : bool) (target : Peer) (message : bytes) : option (Peer * SessionStep) :=
  match fuel with
  | O => None
  | S k =>
    match (match target with
           | PRouter rid => (fun r => handle_session_message (is_service_node r) (path_context r) message control)
                            <$> net !! rid
           | PConn cid => (fun c => handle_session_message false c message control) <$> clients !! cid
           end) with
    | None => None
    | Some (SessForward next message') => run_session_message k net clients control next message'
    | Some step => Some (target, step)
    end
  end.
End Session.

(** ** Properties of the message layout *)
Lemma split_path_message_eq inner nonce hop type :
  length nonce = SYMM_NONCE_SIZE -> length hop = HOPID_SIZE ->
  split_path_message (path_message inner nonce hop type) = (inner, nonce, hop, type).
Proof.
  intros Hn Hh. unfold split_path_message, path_message.
  assert (length (inner ++ nonce ++ hop ++ [type]) = length inner + ENCRYPT_PATH_MESSAGE_OVERHEAD) as HL.
  { rewrite !length_app, Hn, Hh. done. }
  rewrite HL, Nat.add_sub.
  rewrite take_app_length, subspan_app by done.
  replace (subspan (length inner + SYMM_NONCE_SIZE) HOPID_SIZE (inner ++ nonce ++ hop ++ [type])) with hop.
  2:{ rewrite app_assoc, subspan_app; [done | rewrite length_app, Hn; done | done]. }
  do 2 f_equal. rewrite !app_assoc, app_nth2; rewrite !length_app, Hn, Hh; [|unfold ENCRYPT_PATH_MESSAGE_OVERHEAD; lia].
  replace (_ - _) with 0; [done|]. unfold ENCRYPT_PATH_MESSAGE_OVERHEAD, SYMM_NONCE_SIZE, HOPID_SIZE. lia.
Qed.

Lemma length_path_message inner nonce hop type :
  length nonce = SYMM_NONCE_SIZE -> length hop = HOPID_SIZE ->
  length (path_message inner nonce hop type) = length inner + ENCRYPT_PATH_MESSAGE_OVERHEAD.
Proof. intros Hn Hh. unfold path_message. rewrite !length_app, Hn, Hh. done. Qed.

Lemma extract_path_message_eq inner nonce hop type :
  length nonce = SYMM_NONCE_SIZE -> length hop = HOPID_SIZE -> 1 + HOPID_SIZE <= length inner ->
  extract_path_message_metadata (path_message inner nonce hop type) = Some (hop, nonce, type, inner).
Proof.
  intros Hn Hh Hi. unfold extract_path_message_metadata.
  rewrite length_path_message by done.
  rewrite decide_False by (unfold MIN_PATH_DATA_MESSAGE_SIZE, ENCRYPT_PATH_MESSAGE_OVERHEAD in *; lia).
  unfold path_message.
  assert (List.nth (length inner + ENCRYPT_PATH_MESSAGE_OVERHEAD - 1) (inner ++ nonce ++ hop ++ [type]) 0%Z = type) as ->.
  { pose proof (split_path_message_eq inner nonce hop type Hn Hh) as E. unfold split_path_message in E.
    rewrite length_path_message in E by done. unfold path_message in E. by simplify_eq. }
  assert (take (length inner + ENCRYPT_PATH_MESSAGE_OVERHEAD - 1) (inner ++ nonce ++ hop ++ [type])
    = (inner ++ nonce) ++ hop) as ->.
  { rewrite !app_assoc. apply take_app_length'. rewrite !length_app, Hn, Hh. unfold ENCRYPT_PATH_MESSAGE_OVERHEAD. lia. }
  rewrite (length_app _ hop), Hh, Nat.add_sub.
  rewrite take_app_length, drop_app_length.
  rewrite length_app, Hn, Nat.add_sub. by rewrite take_app_length, drop_app_length.
Qed.

(** ** Paths whose relays hold their hops *)
Section Carried.
Context `{Sodium}.
Implicit Types (net : gmap bytes Relay) (h : TransitHop).

(** The relay of [h] finds, under both hop ids, a hop that matches [h]. *)
Definition relay_has net h : Prop :=
  exists r hop, net !! router_id h = Some r /\ is_service_node r = true
    /\ get_transit_hop (path_context r) (rxid h) = Some hop
    /\ get_transit_hop (path_context r) (txid h) = Some hop
    /\ shared_secret hop = shared_secret h /\ xor_nonce hop = xor_nonce h
    /\ rxid hop = rxid h /\ txid hop = txid h /\ upstream hop = upstream h
    /\ terminal_hop hop = terminal_hop h.

Record hop_sizes h : Prop := {
  hz_rx : length (rxid h) = HOPID_SIZE;
  hz_tx : length (txid h) = HOPID_SIZE;
  hz_nonce : length (xor_nonce h) = SYMM_NONCE_SIZE;
}.

Inductive carried net : list TransitHop -> Prop :=
| carried_last h : relay_has net h -> hop_sizes h -> terminal_hop h = true -> carried net [h]
| carried_cons h h' hs :
    relay_has net h -> hop_sizes h -> terminal_hop h = false ->
    upstream h = router_id h' -> txid h = rxid h' -> carried net (h' :: hs) ->
    carried net (h :: h' :: hs).

(** The cipher layers without the MAC: [hs] is in reverse order. *)
Fixpoint plain_layers (hs : list TransitHop) (m nonce : bytes) : bytes * bytes :=
  match hs with
  | [] => (m, nonce)
  | h :: hs => plain_layers hs (xchacha20 m (shared_secret h) nonce) (buf_xor nonce (xor_nonce h))
  end.

Lemma encrypt_layers_plain wm f hs m n :
  f && wm = false -> encrypt_layers wm f hs m n = plain_layers hs m n.
Proof. intros Hf. revert m n. induction hs as [|h hs IH]; intros; simpl; [done|]. by rewrite Hf. Qed.

Lemma plain_layers_app hs h m n :
  plain_layers (hs ++ [h]) m n =
    let '(m', n') := plain_layers hs m n in
    (xchacha20 m' (shared_secret h) n', buf_xor n' (xor_nonce h)).
Proof. revert m n. induction hs as [|h' hs IH]; intros; simpl; [done|]. apply IH. Qed.

(** A hop's nonce mutation is undone by repeating it. *)
Lemma nonce_cancel h n : hop_sizes h -> length n = SYMM_NONCE_SIZE ->
  buf_xor (buf_xor n (xor_nonce h)) (xor_nonce h) = n.
Proof. intros [_ _ Hz] Hn. apply buf_xor_cancel_r. lia. Qed.

Lemma length_nonce_xor h n : hop_sizes h -> length n = SYMM_NONCE_SIZE ->
  length (buf_xor n (xor_nonce h)) = SYMM_NONCE_SIZE.
Proof. intros [_ _ Hz] Hn. rewrite length_buf_xor, Hz, Hn. done. Qed.

Lemma plain_layers_sizes hs m n :
  Forall hop_sizes hs -> length n = SYMM_NONCE_SIZE ->
  length (plain_layers hs m n).1 = length m /\ length (plain_layers hs m n).2 = SYMM_NONCE_SIZE.
Proof.
  intros Hs. revert m n. induction Hs as [|h hs Hh _ IH]; intros m n Hn; simpl; [done|].
  destruct (IH (xchacha20 m (shared_secret h) n) (buf_xor n (xor_nonce h))) as [H1 H2];
    [by apply length_nonce_xor|]. rewrite length_xchacha20 in H1. done.
Qed.

Lemma carried_sizes net hs : carried net hs -> Forall hop_sizes hs.
Proof. induction 1; auto. Qed.

Lemma carried_terminus net init h :
  carried net (init ++ [h]) -> relay_has net h /\ hop_sizes h /\ terminal_hop h = true.
Proof.
  remember (init ++ [h]) as hs eqn:E. intros Hc. revert init E.
  induction Hc as [h1 | h1 h' hs ??????  IH]; intros [|i1 init] E; simplify_eq/=; try done.
  - by destruct init.
  - by apply (IH init).
Qed.

Lemma carried_edge net hs : carried net hs -> exists h hs', hs = h :: hs' /\ hop_sizes h.
Proof. destruct 1; eauto. Qed.
End Carried.

(** ** Path control: there and back *)
Section ControlProofs.
Context `{SodiumLaws} `{OxencLaws}.
Context (net : gmap bytes Relay) (serve : bytes -> bytes -> option (bytes -> bytes)).
Context (reply_nonce data : bytes).
Hypothesis (Hreply : length reply_nonce = SYMM_NONCE_SIZE) (Hdata : 0 < length data).

(** The request as it reaches the first hop of [hs], when [nonce] is the
    client's; the list is split into the hops before the terminus and it. *)
Definition sealed_request (init : list TransitHop) (h : TransitHop) (nonce : bytes) : bytes * bytes :=
  plain_layers (rev init) (aead_encrypt data [] nonce (shared_secret h)) (buf_xor nonce (xor_nonce h)).

Lemma sealed_request_cons h0 init h nonce :
  sealed_request (h0 :: init) h nonce =
    let '(m, n) := sealed_request init h nonce in
    (xchacha20 m (shared_secret h0) n, buf_xor n (xor_nonce h0)).
Proof. unfold sealed_request. simpl. apply plain_layers_app. Qed.

Lemma sealed_request_sizes init h nonce :
  Forall hop_sizes (init ++ [h]) -> length nonce = SYMM_NONCE_SIZE ->
  length (sealed_request init h nonce).1 = length data + TAG_SIZE
  /\ length (sealed_request init h nonce).2 = SYMM_NONCE_SIZE.
Proof.
  intros [Hi [Hh _]%Forall_cons]%Forall_app Hn. unfold sealed_request.
  destruct (plain_layers_sizes (rev init) (aead_encrypt data [] nonce (shared_secret h))
    (buf_xor nonce (xor_nonce h))) as [Ha Hb];
    [by apply Forall_rev | by apply length_nonce_xor |].
  by rewrite Ha, Hb, aead_encrypt_length.
Qed.

Lemma handle_path_control_hit r hop h inner nonce :
  get_transit_hop (path_context r) (rxid h) = Some hop -> hop_sizes h ->
  xor_nonce hop = xor_nonce h -> length nonce = SYMM_NONCE_SIZE -> TAG_SIZE < length inner ->
  handle_path_control r (path_message inner (buf_xor nonce (xor_nonce h)) (rxid h) MT_Control) =
    if terminal_hop hop then
      match xchacha20_poly1305_decrypt_inplace inner (shared_secret hop) nonce [] with
      | Some payload => CtlServe hop payload MT_Control
      | None => CtlUndefined
      end
    else
      let '(target, id) := next_id hop (rxid h) in
      CtlForward target (path_message (xchacha20 inner (shared_secret hop) nonce) nonce id MT_Control)
        hop MT_Control.
Proof.
  intros Hg Hz Hx Hn Hi. unfold handle_path_control.
  pose proof (length_nonce_xor h nonce Hz Hn) as Hnx.
  rewrite decide_False by (rewrite length_path_message by (done || apply Hz);
    unfold ENCRYPT_PATH_MESSAGE_OVERHEAD_MAC; lia).
  rewrite split_path_message_eq by (done || apply Hz).
  change (negb (MT_Control =? 1)%Z) with false. cbv iota. rewrite Hg, Hx, nonce_cancel by done. done.
Qed.

(** What comes back to the sender of a request, [hs] being the hops ahead. *)
Lemma run_path_control_spec f nonce hs :
  carried net hs -> length nonce = SYMM_NONCE_SIZE ->
  forall init h fuel, hs = init ++ [h] -> length hs <= fuel ->
  handle_path_request (serve (router_id h)) data = Some f ->
  exists h0 m n R N, head hs = Some h0 /\ sealed_request init h nonce = (m, n)
    /\ run_path_control fuel net serve reply_nonce (router_id h0) (path_message m n (rxid h0) MT_Control)
       = Respond (path_message R N (rxid h0) MT_Control) false
    /\ length R = length f + TAG_SIZE /\ length N = SYMM_NONCE_SIZE
    /\ decrypt_layers init R N =
         (aead_encrypt f [] reply_nonce (shared_secret h), buf_xor reply_nonce (xor_nonce h)).
Proof.
  intros Hc Hn. induction Hc as [h1 Hh Hz Ht | h1 h' hs Hh Hz Ht Hup Hid Hc IH];
    intros init h fuel Hhs Hfuel Hserve.
  - destruct init as [|? [|]]; simplify_eq/=. destruct fuel as [|fuel]; [lia|].
    destruct Hh as (r & hop & Hr & _ & Hg & _ & Es & Ex & Erx & _ & _ & Et).
    exists h, (aead_encrypt data [] nonce (shared_secret h)), (buf_xor nonce (xor_nonce h)).
    exists (aead_encrypt f [] reply_nonce (shared_secret h)), (buf_xor reply_nonce (xor_nonce h)).
    split_and!; [done | done | | apply aead_encrypt_length | by apply length_nonce_xor | done].
    cbn [run_path_control]. rewrite Hr.
    rewrite (handle_path_control_hit r hop) by (done || rewrite aead_encrypt_length; lia).
    rewrite Et, Ht, Es, decrypt_inplace_encrypt, Hserve.
    unfold path_control_reply. rewrite encrypt_inplace_eq by done. by rewrite Es, Ex, Erx.
  - destruct init as [|h1' init]; [by simplify_eq/=|]. injection Hhs as <- Hhs.
    destruct fuel as [|fuel]; [simpl in Hfuel; lia|].
    destruct (IH init h fuel Hhs ltac:(simpl in *; lia) Hserve)
      as (h0 & m & n & R & N & [= <-] & Hreq & Hrun & HR & HN & Hdec).
    destruct (sealed_request_sizes init h nonce) as [Lm Ln];
      [rewrite <-Hhs; by eapply carried_sizes | done |].
    rewrite Hreq in Lm, Ln. simpl in Lm, Ln.
    destruct Hh as (r & hop & Hr & _ & Hg & _ & Es & Ex & Erx & Etx & Eup & Et).
    exists h1, (xchacha20 m (shared_secret h1) n), (buf_xor n (xor_nonce h1)).
    exists (xchacha20 R (shared_secret h1) N), (buf_xor N (xor_nonce h1)).
    split_and!; [done | by rewrite sealed_request_cons, Hreq | | by rewrite length_xchacha20
      | by apply length_nonce_xor | ].
    + cbn [run_path_control]. rewrite Hr.
      rewrite (handle_path_control_hit r hop) by (done || rewrite length_xchacha20; lia).
      rewrite Et, Ht. unfold next_id. rewrite decide_True by done.
      rewrite Es, xchacha20_involutive, Eup, Hup, Etx, Hid, Hrun.
      destruct (carried_edge _ _ Hc) as (? & ? & [= <- _] & Hz').
      cbn [path_control_response app]. 
      rewrite decide_False by (rewrite length_path_message by (done || apply Hz');
        rewrite HR; unfold TAG_SIZE; lia).
      rewrite split_path_message_eq by (done || apply Hz').
      rewrite Z.eqb_refl. cbn [negb]. rewrite bool_decide_true by congruence. cbn [negb head default].
      by rewrite Es, Ex, Erx.
    + cbn [decrypt_layers]. rewrite nonce_cancel by done. by rewrite xchacha20_involutive.
Qed.
End ControlProofs.

(** A path control request travels to the terminus and its answer back: over a
    path whose relays hold their hops, the client's request is decrypted by the
    terminus to exactly the method and body the client sent, the terminus' handler
    runs on them, and [decrypt_path_message] of what the client receives is that
    handler's answer. *)
Lemma path_control_round_trip `{SodiumLaws} `{OxencLaws} (net : gmap bytes Relay)
    (serve : bytes -> bytes -> option (bytes -> bytes)) (path : Path)
    (method body nonce reply_nonce : bytes) (f : bytes -> bytes) (first terminus : TransitHop) :
  carried net (hops path) -> head (hops path) = Some first -> last (hops path) = Some terminus ->
  length nonce = SYMM_NONCE_SIZE -> length reply_nonce = SYMM_NONCE_SIZE ->
  serve (router_id terminus) method = Some f ->
  exists answer,
    run_path_control (length (hops path)) net serve reply_nonce (router_id first)
      (path_control_request path method body nonce) = Respond answer false
    /\ decrypt_path_message path answer = f body.
Proof.
  intros Hc Hfirst Hlast Hn Hrn Hserve.
  apply last_Some in Hlast as (init & Hhs).
  set (data := bt_dict_produce [(str "e", BStr method); (str "p", BStr body)]).
  assert (0 < length data) as Hd.
  { pose proof (bt_produce_head [(str "e", BStr method); (str "p", BStr body)]) as Hh. fold data in Hh.
    destruct data; [done | simpl; lia]. }
  destruct (run_path_control_spec net serve reply_nonce data Hrn Hd (f body) nonce (hops path) Hc Hn
    init terminus (length (hops path)) Hhs ltac:(done)) as (h0 & m & n & R & N & Hh0 & Hreq & Hrun & HR & HN & Hdec).
  { unfold handle_path_request, data. rewrite bt_open_produce. simpl. rewrite bt_require_string_next. simpl.
    rewrite bt_require_string_next. simpl. by rewrite Hserve. }
  assert (h0 = first) as -> by congruence.
  destruct (carried_edge _ _ Hc) as (h1 & hs' & Ehs & Hz).
  assert (h1 = first) as -> by (rewrite Ehs in Hfirst; by injection Hfirst).
  exists (path_message R N (rxid first) MT_Control). split.
  - rewrite <-Hrun. f_equal. unfold path_control_request, encrypt_path_message. fold data.
    rewrite Hhs, rev_app_distr. cbn [rev app encrypt_layers].
    cbn [andb]. rewrite encrypt_inplace_eq by done. rewrite encrypt_layers_plain by done.
    fold (sealed_request data init terminus nonce). rewrite Hreq. unfold edge_rxid, edge. by rewrite Hfirst.
  - unfold decrypt_path_message. rewrite length_path_message by (done || apply Hz). rewrite HR.
    case_decide as Hshort.
    + unfold ENCRYPT_PATH_MESSAGE_OVERHEAD_MAC in Hshort.
      destruct (f body); [done | cbn [length] in Hshort; lia].
    + rewrite split_path_message_eq by (done || apply Hz).
      rewrite Hhs, length_app. simpl length. rewrite Nat.add_sub, take_app_length, last_snoc, Hdec.
      assert (hop_sizes terminus) as Hzt.
      { pose proof (carried_sizes _ _ Hc) as Hs. rewrite Hhs in Hs.
        by apply Forall_app in Hs as [_ [? _]%Forall_cons]. }
      by rewrite nonce_cancel, decrypt_inplace_encrypt.
Qed.

(** ** Session messages: to the terminus, and down another path *)
Section SessionProofs.
Context `{SodiumLaws} `{OxencLaws}.
Context (net : gmap bytes Relay) (clients : gmap bytes PathContext) (control : bool) (type : Z).

Abbreviation run := (fun k p m => run_session_message k net clients control p m).

Lemma run_relay k rid r m step :
  net !! rid = Some r -> is_service_node r = true ->
  handle_session_message true (path_context r) m control = step ->
  run (S k) (PRouter rid) m =
    match step with SessForward p m' => run k p m' | _ => Some (PRouter rid, step) end.
Proof. intros Hr Hs Hm. simpl. rewrite Hr. simpl. rewrite Hs, Hm. by destruct step. Qed.

(** One relay on the way: [id] is the hop id the message carries. *)
Lemma relay_session_step r hop h id m n :
  get_transit_hop (path_context r) id = Some hop -> length id = HOPID_SIZE -> hop_sizes h ->
  shared_secret hop = shared_secret h -> xor_nonce hop = xor_nonce h -> terminal_hop hop = false ->
  length n = SYMM_NONCE_SIZE -> 1 + HOPID_SIZE <= length m ->
  handle_session_message true (path_context r) (path_message m n id type) control =
    let n' := buf_xor n (xor_nonce h) in
    let '(target, id') := next_id hop id in
    SessForward target (path_message (xchacha20 m (shared_secret h) n') n' id' type).
Proof.
  intros Hg Hid Hz Es Ex Et Hn Hm. unfold handle_session_message.
  rewrite extract_path_message_eq by done. unfold session_message_relay. by rewrite Hg, Et, Es, Ex.
Qed.

(** The upward leg: every relay before the terminus removes its layer. *)
Lemma run_session_up data nonce hs :
  carried net hs -> length nonce = SYMM_NONCE_SIZE -> 1 + HOPID_SIZE <= length data ->
  forall init h k, hs = init ++ [h] ->
  exists h0, head hs = Some h0 /\
  run (length init + k) (PRouter (router_id h0))
    (path_message (plain_layers (rev hs) data nonce).1 (plain_layers (rev hs) data nonce).2 (rxid h0) type)
  = run k (PRouter (router_id h))
      (path_message (xchacha20 data (shared_secret h) nonce) (buf_xor nonce (xor_nonce h)) (rxid h) type).
Proof.
  intros Hc Hn Hd. induction Hc as [h1 Hh Hz Ht | h1 h' hs Hh Hz Ht Hup Hid Hc IH]; intros init h k Hhs.
  - destruct init as [|? [|]]; simplify_eq/=. eauto.
  - destruct init as [|h1' init]; [by simplify_eq/=|]. injection Hhs as <- Hhs.
    destruct (IH init h k Hhs) as (h0 & [= <-] & Hrun).
    exists h1. split; [done|]. rewrite <-Hrun. clear Hrun IH.
    destruct (plain_layers_sizes (rev (h' :: hs)) data nonce) as [Lm Ln];
      [apply Forall_rev; by eapply carried_sizes | done |].
    set (l := rev (h' :: hs)) in *. change (rev (h1 :: h' :: hs)) with (l ++ [h1]).
    rewrite plain_layers_app. destruct (plain_layers l data nonce) as [m n] eqn:E. cbn [fst snd] in *.
    destruct Hh as (r & hop & Hr & Hs & Hg & _ & Es & Ex & Erx & Etx & Eup & Et).
    cbn [length Nat.add].
    pose proof (length_nonce_xor h1 n Hz Ln) as Lx.
    rewrite (run_relay _ _ r _ _ Hr Hs
      (relay_session_step r hop h1 _ (xchacha20 m (shared_secret h1) n) _ Hg (hz_rx _ Hz) Hz Es Ex ltac:(congruence) Lx
         ltac:(rewrite length_xchacha20; lia))).
    cbv zeta. rewrite nonce_cancel, xchacha20_involutive by done.
    unfold next_id. rewrite decide_True by done. by rewrite Eup, Hup, Etx, Hid.
Qed.

(** The downward leg ends at the client behind connection [cid]: [down_chain
    init p id] says that a message for hop id [id] handed to [p] passes the
    relays of [init] from the last to the first. *)
Inductive down_chain (cid edge_id : bytes) : list TransitHop -> Peer -> bytes -> Prop :=
| down_client : down_chain cid edge_id [] (PConn cid) edge_id
| down_relay init q p r hop :
    down_chain cid edge_id init p (rxid q) ->
    net !! router_id q = Some r -> is_service_node r = true ->
    get_transit_hop (path_context r) (txid q) = Some hop ->
    shared_secret hop = shared_secret q -> xor_nonce hop = xor_nonce q ->
    rxid hop = rxid q -> txid hop = txid q -> rxid q <> txid q -> downstream hop = p ->
    terminal_hop hop = false -> hop_sizes q ->
    down_chain cid edge_id (init ++ [q]) (PRouter (router_id q)) (txid q).

Lemma run_session_down cid edge_id init p id m n k :
  down_chain cid edge_id init p id -> length n = SYMM_NONCE_SIZE -> 1 + HOPID_SIZE <= length m ->
  run (length init + k) p (path_message m n id type) =
  run k (PConn cid) (path_message (decrypt_layers (rev init) m n).1 (decrypt_layers (rev init) m n).2 edge_id type).
Proof.
  intros Hd. revert m n k.
  induction Hd as [|init q p r hop Hd IH Hr Hs Hg Es Ex Erx Etx Hne Ed Et Hz]; intros m n k Hn Hm; [done|].
  rewrite length_app, rev_app_distr. simpl length. cbn [rev app decrypt_layers].
  replace (length init + 1 + k) with (S (length init + k)) by lia.
  pose proof (length_nonce_xor q n Hz Hn) as Lx.
  rewrite (run_relay _ _ r _ _ Hr Hs (relay_session_step r hop q _ _ _ Hg (hz_tx _ Hz) Hz Es Ex Et Hn Hm)).
  cbv zeta. unfold next_id. rewrite decide_False by congruence. rewrite Ed, Erx.
  apply IH; [done | by rewrite length_xchacha20].
Qed.

(** Unwrapping at the client undoes the downward layers. *)
Lemma client_unwrap_app hs h m n :
  client_unwrap (hs ++ [h]) m n =
    let '(m', n') := client_unwrap hs m n in
    (xchacha20 m' (shared_secret h) n', buf_xor n' (xor_nonce h)).
Proof. revert m n. induction hs as [|h' hs IH]; intros; simpl; [done|]. apply IH. Qed.

Lemma client_unwrap_down hs m n :
  Forall hop_sizes hs -> length n = SYMM_NONCE_SIZE ->
  client_unwrap hs (decrypt_layers (rev hs) m n).1 (decrypt_layers (rev hs) m n).2 = (m, n).
Proof.
  revert m n. induction hs as [|h hs IH] using rev_ind; intros m n Hs Hn; [done|].
  apply Forall_app in Hs as [Hs [Hh _]%Forall_cons].
  rewrite rev_app_distr. cbn [rev app decrypt_layers]. rewrite client_unwrap_app.
  rewrite IH by (done || by apply length_nonce_xor).
  by rewrite nonce_cancel, xchacha20_involutive.
Qed.

Lemma length_decrypt_layers hs m n :
  Forall hop_sizes hs -> length n = SYMM_NONCE_SIZE ->
  length (decrypt_layers hs m n).1 = length m /\ length (decrypt_layers hs m n).2 = SYMM_NONCE_SIZE.
Proof.
  intros Hs. revert m n. induction Hs as [|h hs Hh _ IH]; intros m n Hn; simpl; [done|].
  destruct (IH (xchacha20 m (shared_secret h) (buf_xor n (xor_nonce h))) (buf_xor n (xor_nonce h)))
    as [Ha Hb]; [by apply length_nonce_xor|]. by rewrite length_xchacha20 in Ha.
Qed.
End SessionProofs.

(** Client [cid] is reachable from the terminus [t] of its path: [t]'s relay
    pivots to it and the relays before [t] pass messages down. *)
Record path_reaches (net : gmap bytes Relay) (clients : gmap bytes PathContext) (cid : bytes)
    (path : Path) (init : list TransitHop) (t : TransitHop) : Prop := {
  pr_hops : hops path = init ++ [t];
  pr_sizes : Forall hop_sizes (hops path);
  pr_client : exists ctx, clients !! cid = Some ctx /\ get_path ctx (edge_rxid path) = Some path;
  pr_terminus : exists r hop, net !! router_id t = Some r
    /\ get_transit_hop (path_context r) (rxid t) = Some hop
    /\ shared_secret hop = shared_secret t /\ xor_nonce hop = xor_nonce t
    /\ down_chain net cid (edge_rxid path) init (downstream hop) (rxid t);
}.

(** The plaintext a session message carries to the terminus. *)
Definition session_plaintext (payload : bytes) (tag : Z) (pivot : bytes) : bytes :=
  payload ++ be_bytes SESSION_TAG_SIZE tag ++ pivot.

Lemma terminus_session_step `{SodiumLaws} `{OxencLaws} (r : Relay) (hop h : TransitHop) control type
    payload tag pivot nonce :
  get_transit_hop (path_context r) (rxid h) = Some hop -> hop_sizes h ->
  shared_secret hop = shared_secret h -> xor_nonce hop = xor_nonce h -> terminal_hop hop = true ->
  length nonce = SYMM_NONCE_SIZE -> length pivot = HOPID_SIZE -> (0 <= tag < 2 ^ 32)%Z ->
  handle_session_message true (path_context r)
    (path_message (xchacha20 (session_plaintext payload tag pivot) (shared_secret h) nonce)
       (buf_xor nonce (xor_nonce h)) (rxid h) type) control =
  if bool_decide (pivot = rxid h) then
    if unknown_message_type type control then SessDrop
    else deliver_session control type tag payload nonce
  else
    match get_transit_hop (path_context r) pivot with
    | None => SessDrop
    | Some t =>
      let nonce := buf_xor nonce (xor_nonce t) in
      SessForward (downstream t)
        (path_message (xchacha20 (payload ++ be_bytes SESSION_TAG_SIZE tag) (shared_secret t) nonce)
           nonce pivot type)
    end.
Proof.
  intros Hg Hz Es Ex Et Hn Hp Htag.
  pose proof (length_be_bytes SESSION_TAG_SIZE tag) as Lt.
  set (m := session_plaintext payload tag pivot).
  assert (length m = length payload + (SESSION_TAG_SIZE + HOPID_SIZE)) as Lm.
  { unfold m, session_plaintext. rewrite !length_app, Lt, Hp. done. }
  unfold handle_session_message.
  rewrite extract_path_message_eq;
    [| by apply length_nonce_xor | apply Hz | rewrite length_xchacha20, Lm; unfold SESSION_TAG_SIZE; lia].
  unfold session_message_relay. rewrite Hg, Et, Es, Ex, nonce_cancel, xchacha20_involutive by done.
  rewrite Lm. rewrite decide_False by lia. rewrite Nat.add_sub.
  assert (drop (length payload + SESSION_TAG_SIZE) m = pivot) as ->.
  { unfold m, session_plaintext. rewrite app_assoc. apply drop_app_length'. rewrite length_app, Lt. done. }
  assert (take (length payload) m = payload) as -> by (apply take_app_length).
  assert (subspan (length payload) SESSION_TAG_SIZE m = be_bytes SESSION_TAG_SIZE tag) as -> by (by apply subspan_app).
  rewrite load_big_spec, take_ge by (rewrite Lt; done).
  rewrite be_value_be_bytes, Z.mod_small by (change (256 ^ Z.of_nat SESSION_TAG_SIZE)%Z with (2 ^ 32)%Z; lia).
  case_bool_decide; [done|]. destruct (get_transit_hop (path_context r) pivot) as [t|]; [|done]. cbv zeta.
  do 3 f_equal. unfold m, session_plaintext.
  rewrite app_assoc. apply take_app_length'. rewrite length_app, Lt. unfold HOPID_SIZE. lia.
Qed.

(** The client at the end of the downward leg delivers what entered it. *)
Lemma client_session_deliver `{SodiumLaws} `{OxencLaws} (ctx : PathContext) (path : Path)
    control type payload tag nonce :
  get_path ctx (edge_rxid path) = Some path -> hops path <> [] -> Forall hop_sizes (hops path) ->
  length nonce = SYMM_NONCE_SIZE -> 13 <= length payload -> (0 <= tag < 2 ^ 32)%Z ->
  unknown_message_type type control = false ->
  let down := decrypt_layers (rev (hops path)) (payload ++ be_bytes SESSION_TAG_SIZE tag) nonce in
  handle_session_message false ctx (path_message down.1 down.2 (edge_rxid path) type) control
  = deliver_session control type tag payload nonce.
Proof.
  intros Hpath Hne Hz Hn Hlen Htag Htype down.
  set (m := payload ++ be_bytes SESSION_TAG_SIZE tag) in *.
  pose proof (length_be_bytes SESSION_TAG_SIZE tag) as Lt.
  assert (length m = length payload + SESSION_TAG_SIZE) as Lm by (unfold m; rewrite length_app, Lt; done).
  destruct (length_decrypt_layers (rev (hops path)) m nonce) as [L1 L2]; [by apply Forall_rev | done |].
  fold down in L1, L2.
  assert (length (edge_rxid path) = HOPID_SIZE) as Le.
  { unfold edge_rxid, edge. destruct Hz as [|q hs Hq]; [done | apply Hq]. }
  unfold handle_session_message. rewrite extract_path_message_eq
    by (done || (rewrite L1, Lm; unfold HOPID_SIZE, SESSION_TAG_SIZE; lia)).
  unfold session_message_client. rewrite Hpath, Htype.
  rewrite decide_False by (rewrite L1, Lm; lia).
  unfold down. rewrite client_unwrap_down by done.
  rewrite Lm, Nat.add_sub.
  assert (take (length payload) m = payload) as -> by apply take_app_length.
  assert (load_big_to_host SESSION_TAG_SIZE (drop (length payload) m) = tag) as ->; [|done].
  unfold m. rewrite drop_app_length, load_big_spec, take_ge by (rewrite Lt; done).
  rewrite be_value_be_bytes. apply Z.mod_small. change (256 ^ Z.of_nat SESSION_TAG_SIZE)%Z with (2 ^ 32)%Z. lia.
Qed.

Lemma encrypt_path_message_plain `{Sodium} (path : Path) (h : TransitHop) data nonce type :
  head (hops path) = Some h ->
  encrypt_path_message path data nonce type false =
  path_message (plain_layers (rev (hops path)) data nonce).1 (plain_layers (rev (hops path)) data nonce).2
    (rxid h) type.
Proof.
  intros Hh. unfold encrypt_path_message. rewrite app_nil_r, encrypt_layers_plain by done.
  destruct (plain_layers _ _ _). unfold edge_rxid, edge. by rewrite Hh.
Qed.

(** A session message goes from one client to another through the relay their
    paths share: sent over the first client's path with the second path's terminal
    hop id as pivot, it reaches the second client with the payload, the session tag
    and the nonce exactly as the sender had them. *)
Lemma session_message_pivot `{SodiumLaws} `{OxencLaws} (net : gmap bytes Relay)
    (clients : gmap bytes PathContext) (control : bool) (type : Z) (cid : bytes)
    (pa pb : Path) (a0 ta tb : TransitHop) (init : list TransitHop)
    (payload nonce : bytes) (tag : Z) :
  carried net (hops pa) -> head (hops pa) = Some a0 -> last (hops pa) = Some ta ->
  path_reaches net clients cid pb init tb ->
  router_id ta = router_id tb -> rxid ta <> rxid tb ->
  length nonce = SYMM_NONCE_SIZE -> 13 <= length payload -> (0 <= tag < 2 ^ 32)%Z ->
  unknown_message_type type control = false ->
  run_session_message (length (hops pa) + length (hops pb)) net clients control (PRouter (router_id a0))
    (encrypt_path_message pa (session_plaintext payload tag (rxid tb)) nonce type false)
  = Some (PConn cid, deliver_session control type tag payload nonce).
Proof.
  intros Hc Ha0 Hta [Hb Hzb (ctx & Hctx & Hpath) (r & hop & Hr & Hg & Es & Ex & Hdown)] Hsame Hne Hn Hlen Htag Htype.
  apply last_Some in Hta as (inita & Ha).
  set (data := session_plaintext payload tag (rxid tb)).
  assert (Forall hop_sizes init /\ hop_sizes tb) as [Hzi Hztb].
  { rewrite Hb in Hzb. by apply Forall_app in Hzb as [? [? _]%Forall_cons]. }
  pose proof (length_be_bytes SESSION_TAG_SIZE tag) as Lt.
  assert (1 + HOPID_SIZE <= length data) as Ld.
  { unfold data, session_plaintext. rewrite !length_app, Lt, (hz_rx _ Hztb). unfold HOPID_SIZE. lia. }
  assert (relay_has net ta /\ hop_sizes ta /\ terminal_hop ta = true) as (Hhas & Hzta & Htt).
  { apply (carried_terminus net inita). by rewrite <-Ha. }
  destruct (run_session_up net clients control type data nonce (hops pa) Hc Hn Ld inita ta
    (S (length (hops pb))) Ha) as (h0 & Hh0 & Hup).
  assert (h0 = a0) as -> by congruence.
  replace (length (hops pa) + length (hops pb)) with (length inita + S (length (hops pb)))
    by (rewrite Ha, length_app; simpl; lia).
  rewrite (encrypt_path_message_plain pa a0) by done.
  rewrite Hup. clear Hup.
  destruct Hhas as (r' & hopa & Hr' & Hs' & Hga & _ & Esa & Exa & Erxa & _ & _ & Eta).
  assert (r' = r) as -> by congruence.
  rewrite (run_relay net clients control _ _ r _ _ Hr' Hs'
    (terminus_session_step r hopa ta control type payload tag (rxid tb) nonce Hga Hzta Esa Exa
       ltac:(congruence) Hn (hz_rx _ Hztb) Htag)).
  rewrite bool_decide_false by congruence. rewrite Hg. cbv zeta. rewrite Es, Ex.
  set (m := payload ++ be_bytes SESSION_TAG_SIZE tag).
  assert (length m = length payload + SESSION_TAG_SIZE) as Lm by (unfold m; rewrite length_app, Lt; done).
  pose proof (length_nonce_xor tb nonce Hztb Hn) as Lx.
  replace (length (hops pb)) with (length init + 1) by (rewrite Hb, length_app; done).
  rewrite (run_session_down net clients control type cid (edge_rxid pb) init _ _ _ _ _ Hdown Lx)
    by (rewrite length_xchacha20, Lm; unfold HOPID_SIZE, SESSION_TAG_SIZE; lia).
  pose proof (client_session_deliver ctx pb control type payload tag nonce Hpath) as Hdel.
  cbv zeta in Hdel. rewrite Hb, rev_app_distr in Hdel. cbn [rev app decrypt_layers] in Hdel. fold m in Hdel.
  cbn [run_session_message]. rewrite Hctx. cbn [fmap option_fmap option_map].
  rewrite Hdel; [| by destruct init | by rewrite <-Hb | done..].
  unfold deliver_session. repeat case_match; done.
Qed.

(** ** A path that was built is carried *)
Section BuiltCarried.
Context `{SodiumLaws} `{OxencLaws}.
Context (self : bytes) (rng : nat -> bytes) (rcs : list RelayContact) (sks : list bytes).
Context (rnd : nat -> HopRandom) (net : gmap bytes Relay) (exp lifetime : Z) (src : Peer).
Hypothesis Hset : build_setup rng rcs sks rnd net.
Let hs := hops (Path_new self rng rcs exp).
Context (sealed : list (bytes * bytes * bytes)).
Hypothesis Hsealed : path_sealed lifetime rnd hs sks sealed.
Let net' := installed lifetime net src hs sealed.
Let built := keyed_all hs sealed.

Lemma length_built : length built = length rcs.
Proof.
  destruct Hsealed as (_ & L2 & _). unfold built, keyed_all. rewrite length_zip_with, L2, Nat.min_id.
  apply length_hs.
Qed.

(** A built hop, in terms of the relay contacts. *)
Lemma built_hop i h : built !! i = Some h ->
  exists rc s, rcs !! i = Some rc /\ h = keyed s (hop_at rng (PRouter self) 0 rcs i rc).
Proof.
  intros (h0 & [[s e] n] & -> & Hh & _)%lookup_zip_with_Some.
  destruct (new_hop self rng rcs sks rnd net Hset exp i h0 Hh) as (rc & _ & Hrc & _ & -> & _). eauto.
Qed.

Lemma built_relay_has i h : built !! i = Some h -> relay_has net' h /\ hop_sizes h.
Proof.
  intros Hh. destruct (built_hop_stored self rng rcs sks rnd net exp lifetime src Hset sealed i h Hsealed Hh)
    as (r0 & hop & Hr0 & (r & Hr & Hg1) & (r2 & Hr2 & Hg2) & [? ? ? ? ? _ ? _ _ _]).
  assert (r2 = r) as -> by congruence.
  destruct (built_hop i h Hh) as (rc & s & Hrc & Eh).
  pose proof (lookup_lt_Some _ _ _ Hrc) as Hi.
  destruct (lookup_lt_is_Some_2 sks i) as [sk Hsk]; [rewrite (bs_sks _ _ _ _ _ Hset); done|].
  split.
  - exists r, hop. split_and!; try done.
    destruct (installed_lookup lifetime net src hs sealed _ _ Hr0) as (r3 & Hr3 & c & ->).
    assert (Some r = Some (with_context c r0)) as [= ->] by (etrans; [exact (eq_sym Hr) | exact Hr3]). simpl.
    destruct (bs_net _ _ _ _ _ Hset i rc sk Hrc Hsk) as (r4 & Hr4 & _ & Hn & _).
    assert (r4 = r0) as -> by (rewrite Eh in Hr0; simpl in Hr0; congruence). done.
  - destruct (bs_ids _ _ _ _ _ Hset i) as [Li _]; [lia|].
    destruct (bs_ids _ _ _ _ _ Hset (S i)) as [Lsi _]; [lia|].
    rewrite Eh. split; simpl; [done | by destruct (is_last rcs i) | apply is_buf_xor_nonce_of].
Qed.

Lemma built_carried_drop i : i < length rcs -> carried net' (drop i built).
Proof.
  intros Hi. remember (length rcs - i) as m eqn:Em. revert i Hi Em.
  induction m as [|m IH]; intros i Hi Em; [lia|].
  destruct (lookup_lt_is_Some_2 built i) as [h Hh]; [rewrite length_built; done|].
  rewrite (drop_S _ _ _ Hh). destruct (built_relay_has i h Hh) as [Hhas Hz].
  destruct (built_hop i h Hh) as (rc & s & Hrc & Eh).
  destruct (next_rc_cases rcs i Hi) as [(next & Hn & Hl & Hlt)|(Hn & Hl)].
  - destruct (lookup_lt_is_Some_2 built (S i)) as [h' Hh']; [rewrite length_built; lia|].
    pose proof (IH (S i) Hlt ltac:(lia)) as IH'. rewrite (drop_S _ _ _ Hh') in IH' |- *.
    destruct (built_hop (S i) h' Hh') as (rc' & s' & Hrc' & Eh').
    assert (rc' = next) as -> by congruence.
    constructor; [done | done | rewrite Eh; simpl; done | | | done].
    + rewrite Eh, Eh'. unfold hop_at. cbn [upstream router_id keyed set_keys]. by rewrite Hn.
    + rewrite Eh, Eh'. unfold hop_at. cbn [txid rxid keyed set_keys]. by rewrite Hl.
  - rewrite drop_ge by (rewrite length_built; apply lookup_ge_None in Hn; done).
    constructor; [done | done | rewrite Eh; simpl; done].
Qed.

Lemma built_carried : carried net' built.
Proof.
  rewrite <-(drop_0 built). apply built_carried_drop.
  pose proof (bs_nonempty _ _ _ _ _ Hset). destruct rcs; [done | simpl; lia].
Qed.
End BuiltCarried.

(** C2.  Building a path and using it: once [path_build_onion]'s message has run
    through the relays, a path control request over the built path reaches the
    handler of the last relay and the answer comes back to the client. *)
Theorem built_path_round_trip `{SodiumLaws} `{OxencLaws}
    (self : bytes) (rng : nat -> bytes) (rcs : list RelayContact) (sks : list bytes)
    (rnd : nat -> HopRandom) (junk : bytes) (fill : nat -> nat -> bytes) (net : gmap bytes Relay)
    (now exp lifetime : Z) (src : Peer) (rc0 rcn : RelayContact)
    (serve : bytes -> bytes -> option (bytes -> bytes)) (method body nonce reply_nonce : bytes)
    (f : bytes -> bytes) :
  build_setup rng rcs sks rnd net -> head rcs = Some rc0 -> last rcs = Some rcn ->
  lifetime = round_seconds (exp - now) -> (0 < lifetime <= 1380)%Z ->
  length junk = (BUILD_LENGTH - length rcs) * BUILD_FRAME_SIZE ->
  (forall k n, length (fill k n) = n) ->
  length nonce = SYMM_NONCE_SIZE -> length reply_nonce = SYMM_NONCE_SIZE ->
  serve (rc_router_id rcn) method = Some f ->
  exists path msg net' answer,
    path_build_onion rnd junk now (Path_new self rng rcs exp) = Ok (path, msg)
    /\ run_path_build fill (length rcs) net (rc_router_id rc0) src msg = (net', Respond OK_RESPONSE false)
    /\ run_path_control (length rcs) net' serve reply_nonce (rc_router_id rc0)
         (path_control_request path method body nonce) = Respond answer false
    /\ decrypt_path_message path answer = f body.
Proof.
  intros Hset Hrc0 Hrcn Hlt Hlt' Hjunk Hfill Hn Hrn Hserve.
  destruct (path_build_run self rng rcs sks rnd junk fill net now exp lifetime src rc0
    Hset Hrc0 Hlt Hlt' Hjunk Hfill) as (sealed & Hp & Honion & Hrun).
  set (path := mkPath (keyed_all (hops (Path_new self rng rcs exp)) sealed) exp true false false None) in *.
  pose proof (built_carried self rng rcs sks rnd net exp lifetime src Hset sealed Hp) as Hc.
  pose proof (length_built self rng rcs sks rnd exp lifetime sealed Hp) as Lb.
  assert (forall i h, hops path !! i = Some h -> exists rc, rcs !! i = Some rc /\ router_id h = rc_router_id rc) as Hrid.
  { intros i h Hh. destruct (built_hop self rng rcs sks rnd net exp Hset sealed i h Hh) as (rc & s & Hrc & ->). eauto. }
  destruct (carried_edge _ _ Hc) as (first & hs' & Ehs & _).
  destruct (last (hops path)) as [tm|] eqn:Elast; [|by apply last_None in Elast; cbn [path hops] in Elast; rewrite Ehs in Elast].
  destruct (Hrid 0 first) as (rc0' & Hrc0' & E0); [cbn [path hops]; by rewrite Ehs|].
  destruct (Hrid (length rcs - 1) tm) as (rcn' & Hrcn' & En).
  { rewrite last_lookup in Elast. rewrite <-Lb, Nat.sub_1_r. exact Elast. }
  rewrite head_lookup in Hrc0. rewrite last_lookup, <-Nat.sub_1_r in Hrcn. simplify_eq.
  destruct (path_control_round_trip (installed (round_seconds (exp - now)) net src (hops (Path_new self rng rcs exp)) sealed)
    serve path method body nonce reply_nonce f first tm Hc) as (answer & Hctl & Hdec);
    [cbn [path hops]; by rewrite Ehs | done | done | done | by rewrite En |].
  rewrite E0 in Hctl. cbn [path hops] in Hctl. rewrite Lb in Hctl. eauto 8.
Qed.

(** ** Findings *)

(** A terminal relay splits a session tag and a pivot id off a message it has not
    checked to be that long: messages of 17 to 19 onioned bytes pass
    [extract_path_message_metadata] and then overrun. *)
Lemma short_terminal_message_undefined `{SodiumLaws} `{OxencLaws} (r : Relay) (hop : TransitHop)
    (id inner nonce : bytes) (type : Z) (control : bool) :
  get_transit_hop (path_context r) id = Some hop -> terminal_hop hop = true ->
  length id = HOPID_SIZE -> length nonce = SYMM_NONCE_SIZE -> 17 <= length inner < 20 ->
  handle_session_message true (path_context r) (path_message inner nonce id type) control = SessUndefined.
Proof.
  intros Hg Ht Hid Hn Hlen. unfold handle_session_message.
  rewrite extract_path_message_eq by (done || (unfold HOPID_SIZE; lia)).
  unfold session_message_relay. rewrite Hg, Ht.
  rewrite decide_True; [done|]. rewrite length_xchacha20. unfold SESSION_TAG_SIZE, HOPID_SIZE. lia.
Qed.

(** A path control message whose MAC does not verify at the terminus makes it
    dereference an empty optional. *)
Lemma bad_mac_undefined `{SodiumLaws} `{OxencLaws} (r : Relay) (hop : TransitHop) (id inner nonce : bytes) :
  get_transit_hop (path_context r) id = Some hop -> terminal_hop hop = true ->
  length id = HOPID_SIZE -> length nonce = SYMM_NONCE_SIZE -> TAG_SIZE < length inner ->
  aead_decrypt inner [] (buf_xor nonce (xor_nonce hop)) (shared_secret hop) = None ->
  handle_path_control r (path_message inner nonce id MT_Control) = CtlUndefined.
Proof.
  intros Hg Ht Hid Hn Hi Hbad. unfold handle_path_control.
  rewrite decide_False by (rewrite length_path_message by done; unfold ENCRYPT_PATH_MESSAGE_OVERHEAD_MAC; lia).
  rewrite split_path_message_eq by done. change (negb (MT_Control =? 1)%Z) with false. cbv iota.
  rewrite Hg, Ht. unfold xchacha20_poly1305_decrypt_inplace. rewrite decide_False by lia. by rewrite Hbad.
Qed.

(** An intermediate relay answers an upstream error twice: it passes the error on
    and then goes on to handle the same body as a successful response. *)
Lemma error_answered_twice `{Sodium} `{Oxenc} (hop : TransitHop) (type : Z) (body : bytes) :
  exists second, path_control_response hop type (Respond body true) = [Respond body true; second].
Proof. cbn [path_control_response app]. repeat case_match; eexists; done. Qed.

(** ** Concrete paths *)
Module MsgDemo.
Import PathBuild.Demo.
#[local] Existing Instance toy.
#[local] Existing Instance bencode.
#[local] Existing Instance toy_laws.
#[local] Existing Instance bencode_laws.

Definition hop (tx rx up rid : Z) (down : Peer) (key : Z) (term : bool) : TransitHop :=
  mkHop (replicate 16 tx) (replicate 16 rx) (pk up) (pk rid) down (replicate 32 key) (replicate 24 key)
    1000000 0 0 term false.
(** Path A: relay 1 only.  Path B: relay 2, then relay 1, owned by client [9]. *)
Definition a_t := hop 10 10 1 1 (PConn [7%Z]) 3 true.
Definition b_0 := hop 21 20 1 2 (PConn [9%Z]) 4 false.
Definition b_t := hop 21 21 1 1 (PRouter (pk 2)) 5 true.
Definition path_a := mkPath [a_t] 1000000 true true false None.
Definition path_b := mkPath [b_0; b_t] 1000000 true true false None.
Definition relay1 := with_context (put_transit_hop b_t (put_transit_hop a_t empty_ctx)) (relay 1).
Definition relay2 := with_context (put_transit_hop b_0 empty_ctx) (relay 2).
Definition net2 : gmap bytes Relay := <[pk 1 := relay1]> {[pk 2 := relay2]}.
Definition client_ctx : PathContext := mkCtx ∅ {[0 := path_b]} 1 ∅ {[edge_rxid path_b := 0]} false.
Definition clients : gmap bytes PathContext := {[[9%Z] := client_ctx]}.

Lemma sizes tx rx up rid down key term : hop_sizes (hop tx rx up rid down key term).
Proof. split; apply length_replicate. Qed.

Lemma a_carried : carried net2 (hops path_a).
Proof.
  constructor; [|apply sizes|done]. exists relay1, a_t. split_and!; vm_compute; done.
Qed.

Lemma b_reaches : path_reaches net2 clients [9%Z] path_b [b_0] b_t.
Proof.
  split; [done | repeat constructor; apply sizes | exists client_ctx; split; vm_compute; done |].
  exists relay1, b_t. split_and!; try (vm_compute; done).
  apply (down_relay _ _ _ [] b_0 (PConn [9%Z]) relay2 b_0);
    first [apply sizes | apply down_client | vm_compute; done].
Qed.
End MsgDemo.

Lemma built_path_round_trip_witness :
  exists path msg net' answer,
    @path_build_onion toy bencode Demo.rnd (zero_buf 1014) 0 (Path_new (Demo.pk 9) Demo.ids Demo.rcs 600000)
      = Ok (path, msg)
    /\ @run_path_build toy bencode (fun _ n => zero_buf n) 2 Demo.net (Demo.pk 1) (PConn []) msg
      = (net', Respond (@OK_RESPONSE bencode) false)
    /\ @run_path_control toy bencode 2 net' (fun _ m => if decide (m = str "path_ping") then Some (@handle_path_ping bencode) else None)
         (replicate 24 6%Z) (Demo.pk 1)
         (@path_control_request toy bencode path (str "path_ping") [] (replicate 24 2%Z)) = Respond answer false
    /\ @decrypt_path_message toy path answer = @OK_RESPONSE bencode.
Proof.
  apply (@built_path_round_trip toy toy_laws bencode bencode_laws
    (Demo.pk 9) Demo.ids Demo.rcs Demo.sks Demo.rnd (zero_buf 1014) (fun _ n => zero_buf n)
    Demo.net 0 600000 600 (PConn []) (Demo.rc 1 [1; 0; 0]%Z) (Demo.rc 2 [1; 1; 0]%Z)
    (fun _ m => if decide (m = str "path_ping") then Some (@handle_path_ping bencode) else None)
    (str "path_ping") [] (replicate 24 2%Z) (replicate 24 6%Z) (@handle_path_ping bencode)).
  - exact Demo.setup.
  - reflexivity.
  - reflexivity.
  - reflexivity.
  - lia.
  - reflexivity.
  - intros. apply length_replicate.
  - reflexivity.
  - reflexivity.
  - reflexivity.
Defined.
