(* ===== verification/RcStore.v ===== *)
(** * The relay contacts of the node database (nodedb.cpp)

    The table [known_rcs], the 128 buckets of RC hashes that a client and a
    relay compare to find out which RCs differ, and the operations that change
    them: [update_rc_buckets], [put_rc], [verify_store_gossip_rc],
    [remove_rcs_if] and the purge predicate.  The main invariant is that every
    bucket digest is the XOR of the hashes of exactly the RCs now held. *)

From Stdlib Require Import ZArith Lia.
From stdpp Require Import base list numbers strings gmap.
From S2P Require Import Prelude Oxenc Crypto RelayContact.

Local Open Scope Z_scope.
Local Open Scope router_scope.

(** What the database asks of the Router: [is_service_node], [id()] and the
    configured blacklist and strict edges. *)
Record RouterEnv := mkEnv {
  is_service_node : bool;
  self_id : bytes;
  snode_blacklist : gset bytes;
  strict_edges : gset bytes;
}.

(** Jobs for the disk loop. *)
Inductive DiskJob : Type :=
| WriteRC (rid payload : bytes)
| RemoveRCs (rids : list bytes).

Record RCStore := mkStore {
  known_rcs : gmap bytes RelayContact;
  rc_hashes : list (gmap bytes bytes);
  rc_bucket_hashes : list bytes;
  disk_jobs : list DiskJob;
}.

Definition NUM_BUCKETS : nat := 128.
Definition RCHASH_SIZE : nat := 8.

(** The members' default initializers. *)
Definition empty_store : RCStore :=
  mkStore ∅ (replicate NUM_BUCKETS ∅) (replicate NUM_BUCKETS (zero_buf RCHASH_SIZE)) [].

Definition bucket_of (rid : bytes) : nat := Z.to_nat (Z.land (nth 16 rid 0) 0x7f).

(** [xor_bucket_hash]: the XOR of the two as uint64_t is their bytewise XOR. *)
Definition xor_bucket_hash (bucket_hash rc_hash : bytes) : bytes := buf_xor bucket_hash rc_hash.

Section Store.
Context `{Sodium} `{Oxenc}.

(** [bucket_hash]; the assertions have no effect in a release build. *)
Definition bucket_hash (serialized_rc : bytes) : outcome string bytes :=
  let! btdc := or_throw "not a dict"%string (bt_dict_open serialized_rc) in
  let! (_, btdc) := or_throw "t"%string (bt_skip_until (str "t") btdc) in
  let! (_, time, btdc1) := or_throw "t"%string (bt_next_integer btdc) in
  throw_if negb (in_range 0 (2 ^ 64 - 1) time) with "t"%string in
  let h := take (bt_key_offset btdc) serialized_rc in
  let! after_time := or_throw "end of dict"%string (bt_key btdc1) in
  if decide (after_time = str "~") then Ok (blake2b RCHASH_SIZE h [] [])
  else
    let! (_, btdc2) := or_throw "~"%string (bt_skip_until (str "~") btdc1) in
    let! (_, _, _) := or_throw "~"%string (bt_next_string btdc2) in
    let after_size := (bt_key_offset btdc2 - bt_key_offset btdc1)%nat in
    Ok (blake2b RCHASH_SIZE (h ++ subspan (bt_key_offset btdc1) after_size serialized_rc) [] []).

(** [update_rc_buckets]: what was recorded goes out, then the new hash goes in;
    when [bucket_hash] throws, what was done before it stays. *)
Definition update_rc_buckets (st : RCStore) (rc : RelayContact) (added : bool)
    : RCStore * outcome string unit :=
  let rid := rc_router_id rc in
  let bucket := bucket_of rid in
  let hashes := rc_hashes st !!! bucket in
  let recorded := default (zero_buf RCHASH_SIZE) (hashes !! rid) in
  let digest := xor_bucket_hash (rc_bucket_hashes st !!! bucket) recorded in
  if added then
    match bucket_hash (rc_payload rc) with
    | Throw e =>
        (mkStore (known_rcs st) (<[bucket := <[rid := recorded]> hashes]> (rc_hashes st))
           (<[bucket := digest]> (rc_bucket_hashes st)) (disk_jobs st), Throw e)
    | Ok h =>
        (mkStore (known_rcs st) (<[bucket := <[rid := h]> hashes]> (rc_hashes st))
           (<[bucket := xor_bucket_hash digest h]> (rc_bucket_hashes st)) (disk_jobs st), Ok tt)
    end
  else
    (mkStore (known_rcs st) (<[bucket := delete rid hashes]> (rc_hashes st))
       (<[bucket := digest]> (rc_bucket_hashes st)) (disk_jobs st), Ok tt).

Definition get_rc (st : RCStore) (pk : bytes) : option RelayContact := known_rcs st !! pk.

Definition set_known_rcs (st : RCStore) (m : gmap bytes RelayContact) : RCStore :=
  mkStore m (rc_hashes st) (rc_bucket_hashes st) (disk_jobs st).

Definition disk_call_soon (st : RCStore) (j : DiskJob) : RCStore :=
  mkStore (known_rcs st) (rc_hashes st) (rc_bucket_hashes st) (disk_jobs st ++ [j]).

(** The end of [put_rc]: the bucket update, the disk job and the result. *)
Definition put_rc_finish (env : RouterEnv) (st : RCStore) (stored : RelayContact)
    (significant_change should_gossip : bool) : RCStore * outcome string (bool * bool) :=
  let '(st, r) := if significant_change then update_rc_buckets st stored true else (st, Ok tt) in
  match r with
  | Throw e => (st, Throw e)
  | Ok _ => (disk_call_soon st (WriteRC (rc_router_id stored) (rc_payload stored)),
             Ok (true, should_gossip && is_service_node env))
  end.

(** [put_rc]: {stored, gossip}. *)
Definition put_rc (env : RouterEnv) (st : RCStore) (rc : RelayContact)
    : RCStore * outcome string (bool * bool) :=
  let rid := rc_router_id rc in
  match known_rcs st !! rid with
  | None => put_rc_finish env (set_known_rcs st (<[rid := rc]> (known_rcs st))) rc true true
  | Some stored =>
      if negb (newer_than rc stored MIN_GOSSIP_RC_AGE) then (st, Ok (false, false))
      else match bucket_hash (rc_payload rc), bucket_hash (rc_payload stored) with
           | Ok h, Ok h' =>
               let significant_change := negb (bool_decide (h = h')) in
               let should_gossip := bool_decide (rc_router_id rc = self_id env)
                 || newer_than rc stored RC_OUTDATED_AGE || significant_change in
               put_rc_finish env (set_known_rcs st (<[rid := rc]> (known_rcs st))) rc
                 significant_change should_gossip
           | Throw e, _ | _, Throw e => (st, Throw e)
           end
  end.

(** [verify_store_gossip_rc], for the set of registered relays. *)
Definition verify_store_gossip_rc (env : RouterEnv) (registered : gset bytes) (st : RCStore)
    (rc : RelayContact) : RCStore * outcome string (bool * bool) :=
  if bool_decide (rc_router_id rc ∉ registered) || bool_decide (rc_router_id rc = self_id env)
  then (st, Ok (false, false))
  else put_rc env st rc.

Definition num_rcs (env : RouterEnv) (st : RCStore) (include_self : bool) : Z :=
  let total := Z.of_nat (size (known_rcs st)) in
  if negb include_self && is_service_node env && bool_decide (is_Some (known_rcs st !! self_id env))
  then total - 1 else total.

(** The loop of [remove_rcs_if] over the entries of [known_rcs], in the order
    the unordered_map gives them. *)
Fixpoint remove_loop (remove : RelayContact -> bool) (l : list (bytes * RelayContact))
    (st : RCStore) (removed : list bytes) : RCStore * list bytes :=
  match l with
  | [] => (st, removed)
  | (rid, rc) :: l =>
      if remove rc then
        let st := (update_rc_buckets st rc false).1 in
        remove_loop remove l (set_known_rcs st (delete rid (known_rcs st))) (removed ++ [rid])
      else remove_loop remove l st removed
  end.

Definition remove_rcs_if (remove : RelayContact -> bool) (order : list (bytes * RelayContact))
    (st : RCStore) : RCStore :=
  match remove_loop remove order st [] with
  | (st, []) => st
  | (st, removed) => disk_call_soon st (RemoveRCs removed)
  end.

(** The predicate of [purge_rcs]. *)
Definition purge_pred (is_public : Address -> bool) (env : RouterEnv) (registered : gset bytes)
    (now : Z) (rc : RelayContact) : bool :=
  if negb (is_public (rc_addr rc)) then true
  else if rc_is_expired rc now then true
  else if is_service_node env then
    if bool_decide (registered = ∅) then false
    else bool_decide (rc_router_id rc ∉ registered)
  else false.

(** [load_from_disk]'s last loop. *)
Fixpoint init_buckets (l : list (bytes * RelayContact)) (st : RCStore) : RCStore * outcome string unit :=
  match l with
  | [] => (st, Ok tt)
  | (_, rc) :: l =>
      match update_rc_buckets st rc true with
      | (st, Ok _) => init_buckets l st
      | (st, Throw e) => (st, Throw e)
      end
  end.
End Store.

(** ** The buckets as functions of the RCs held *)
Section Spec.
Context `{SodiumLaws} `{Oxenc}.

Definition rc_hash_of (rc : RelayContact) : option bytes :=
  match bucket_hash (rc_payload rc) with
  | Ok h => Some h
  | Throw _ => None
  end.

(** The hashes of the RCs of bucket [b]. *)
Definition bucket_spec (m : gmap bytes RelayContact) (b : nat) : gmap bytes bytes :=
  omap rc_hash_of (filter (fun kv => bucket_of kv.1 = b) m).

Definition xor_all (m : gmap bytes bytes) : bytes :=
  map_fold (fun _ h acc => xor_bucket_hash acc h) (zero_buf RCHASH_SIZE) m.

(** The buckets are those of the RCs of [m], and each digest is the XOR of its bucket. *)
Definition buckets_match (st : RCStore) (m : gmap bytes RelayContact) : Prop :=
  forall b,
    rc_hashes st !! b = (if decide (b < NUM_BUCKETS)%nat then Some (bucket_spec m b) else None) /\
    rc_bucket_hashes st !! b =
      (if decide (b < NUM_BUCKETS)%nat then Some (xor_all (bucket_spec m b)) else None).

(** Every RC is stored under its own key and could be hashed, and the buckets
    are those of the RCs held. *)
Record store_wf (st : RCStore) : Prop := {
  wf_rcs rid rc : known_rcs st !! rid = Some rc -> rc_router_id rc = rid /\ is_Some (rc_hash_of rc);
  wf_buckets : buckets_match st (known_rcs st);
}.

Lemma bucket_of_lt rid : (bucket_of rid < NUM_BUCKETS)%nat.
Proof.
  unfold bucket_of, NUM_BUCKETS. change 127 with (Z.ones 7). rewrite Z.land_ones by lia.
  pose proof (Z.mod_pos_bound (nth 16 rid 0) (2 ^ 7)). lia.
Qed.

Lemma bucket_hash_length p h : bucket_hash p = Ok h -> length h = RCHASH_SIZE.
Proof.
  unfold bucket_hash. intros Hb. outcome_inv Hb. case_decide; outcome_inv Hb; simplify_eq;
    apply blake2b_buf.
Qed.

Lemma rc_hash_of_Ok rc h : rc_hash_of rc = Some h <-> bucket_hash (rc_payload rc) = Ok h.
Proof. unfold rc_hash_of. destruct (bucket_hash _); naive_solver. Qed.

Lemma bucket_spec_lookup m b rid :
  bucket_spec m b !! rid = if decide (bucket_of rid = b) then m !! rid ≫= rc_hash_of else None.
Proof.
  unfold bucket_spec. rewrite lookup_omap, map_lookup_filter.
  destruct (m !! rid) eqn:E; simpl; case_decide; try done; [|].
  - by rewrite option_guard_True.
  - by rewrite option_guard_False.
Qed.

Lemma bucket_spec_insert m b rid rc h :
  rc_hash_of rc = Some h ->
  bucket_spec (<[rid := rc]> m) b =
  if decide (bucket_of rid = b) then <[rid := h]> (bucket_spec m b) else bucket_spec m b.
Proof.
  intros Hh. apply map_eq. intros k. rewrite bucket_spec_lookup.
  destruct (decide (rid = k)) as [<-|Hk].
  - rewrite lookup_insert_eq. simpl. rewrite Hh. case_decide; [by rewrite lookup_insert_eq|].
    by rewrite bucket_spec_lookup, decide_False.
  - rewrite lookup_insert_ne by done. repeat case_decide; rewrite ?lookup_insert_ne by done;
      rewrite bucket_spec_lookup; by case_decide.
Qed.

Lemma bucket_spec_delete m b rid :
  bucket_spec (delete rid m) b =
  if decide (bucket_of rid = b) then delete rid (bucket_spec m b) else bucket_spec m b.
Proof.
  apply map_eq. intros k. rewrite bucket_spec_lookup. destruct (decide (rid = k)) as [<-|Hk].
  - rewrite lookup_delete_eq. simpl. case_decide; [by rewrite lookup_delete_eq|].
    by rewrite bucket_spec_lookup, decide_False.
  - rewrite lookup_delete_ne by done. repeat case_decide; rewrite ?lookup_delete_ne by done;
      rewrite bucket_spec_lookup; by case_decide.
Qed.

Definition all_hashes (m : gmap bytes bytes) : Prop := map_Forall (fun _ h => length h = RCHASH_SIZE) m.

Lemma bucket_spec_hashes m b : all_hashes (bucket_spec m b).
Proof.
  intros k h. rewrite bucket_spec_lookup. case_decide; [|done].
  destruct (m !! k) as [rc|]; [|done]. simpl. rewrite rc_hash_of_Ok. apply bucket_hash_length.
Qed.

Lemma xor_all_insert m rid h :
  m !! rid = None -> xor_all (<[rid := h]> m) = xor_bucket_hash (xor_all m) h.
Proof.
  intros Hm. unfold xor_all. rewrite map_fold_insert_L; [done| |done].
  intros j1 j2 z1 z2 y _ _ _. unfold xor_bucket_hash.
  by rewrite !buf_xor_assoc, (buf_xor_comm z1).
Qed.

Lemma xor_all_length m : all_hashes m -> length (xor_all m) = RCHASH_SIZE.
Proof.
  induction m as [|k h m Hk IH] using map_ind; intros Hm; [done|].
  apply map_Forall_insert in Hm as [Hh Hm]; [|done].
  rewrite xor_all_insert by done. unfold xor_bucket_hash. rewrite length_buf_xor.
  rewrite IH, Hh by done. lia.
Qed.

(** Taking out what is recorded for [rid] gives the digest of the others. *)
Lemma xor_all_remove m rid :
  all_hashes m ->
  xor_bucket_hash (xor_all m) (default (zero_buf RCHASH_SIZE) (m !! rid)) = xor_all (delete rid m).
Proof.
  intros Hm. destruct (m !! rid) as [h|] eqn:E; simpl.
  - assert (all_hashes (delete rid m)) as Hd by by apply map_Forall_delete.
    rewrite <-(insert_delete_id m rid h E) at 1.
    rewrite xor_all_insert by apply lookup_delete_eq. unfold xor_bucket_hash.
    rewrite buf_xor_cancel_r; [done|]. rewrite xor_all_length by done.
    pose proof (Hm rid h E) as Hl. simpl in Hl. lia.
  - rewrite delete_id by done. apply buf_xor_zero_r. by rewrite xor_all_length.
Qed.

Lemma xor_all_replace m rid h :
  all_hashes m ->
  xor_bucket_hash
    (xor_bucket_hash (xor_all m) (default (zero_buf RCHASH_SIZE) (m !! rid))) h =
  xor_all (<[rid := h]> m).
Proof.
  intros Hm. rewrite xor_all_remove by done.
  rewrite <-(xor_all_insert _ rid) by apply lookup_delete_eq. by rewrite insert_delete_eq.
Qed.

(** ** The operations keep the invariant *)
Lemma buckets_match_at st m rid :
  buckets_match st m ->
  rc_hashes st !!! bucket_of rid = bucket_spec m (bucket_of rid)
  /\ rc_bucket_hashes st !!! bucket_of rid = xor_all (bucket_spec m (bucket_of rid)).
Proof.
  intros Hm. destruct (Hm (bucket_of rid)) as [Hh Hd].
  rewrite decide_True in Hh by apply bucket_of_lt. rewrite decide_True in Hd by apply bucket_of_lt.
  split; by apply list_lookup_total_correct.
Qed.

Lemma buckets_match_update st st' m m' rid :
  buckets_match st m ->
  rc_hashes st' = <[bucket_of rid := bucket_spec m' (bucket_of rid)]> (rc_hashes st) ->
  rc_bucket_hashes st' = <[bucket_of rid := xor_all (bucket_spec m' (bucket_of rid))]> (rc_bucket_hashes st) ->
  (forall b, b <> bucket_of rid -> bucket_spec m' b = bucket_spec m b) ->
  buckets_match st' m'.
Proof.
  intros Hm Hh Hd Hne b. rewrite Hh, Hd. pose proof (bucket_of_lt rid) as Hlt.
  destruct (Hm b) as [Hb1 Hb2]. destruct (decide (b = bucket_of rid)) as [->|Hb].
  - destruct (Hm (bucket_of rid)) as [E1 E2]. rewrite decide_True in E1 by done.
    rewrite decide_True in E2 by done.
    apply lookup_lt_Some in E1, E2. rewrite !decide_True by done.
    by rewrite !list_lookup_insert_eq.
  - by rewrite !list_lookup_insert_ne, Hne.
Qed.

Lemma update_added st m rc h :
  buckets_match st m -> rc_hash_of rc = Some h ->
  exists st', update_rc_buckets st rc true = (st', Ok tt)
    /\ known_rcs st' = known_rcs st /\ disk_jobs st' = disk_jobs st
    /\ buckets_match st' (<[rc_router_id rc := rc]> m).
Proof.
  intros Hm Hh. unfold update_rc_buckets. rewrite (proj1 (rc_hash_of_Ok _ _) Hh).
  destruct (buckets_match_at st m (rc_router_id rc) Hm) as [-> ->].
  eexists. split_and!; [done..|].
  eapply buckets_match_update with (rid := rc_router_id rc); [done| | |]; simpl.
  - by rewrite (bucket_spec_insert _ _ _ _ _ Hh), decide_True.
  - rewrite (bucket_spec_insert _ _ _ _ _ Hh), decide_True by done.
    by rewrite xor_all_replace by apply bucket_spec_hashes.
  - intros b Hb. by rewrite (bucket_spec_insert _ _ _ _ _ Hh), decide_False.
Qed.

Lemma update_removed st m rc :
  buckets_match st m ->
  exists st', update_rc_buckets st rc false = (st', Ok tt)
    /\ known_rcs st' = known_rcs st /\ disk_jobs st' = disk_jobs st
    /\ buckets_match st' (delete (rc_router_id rc) m).
Proof.
  intros Hm. unfold update_rc_buckets.
  destruct (buckets_match_at st m (rc_router_id rc) Hm) as [-> ->].
  eexists. split_and!; [done..|].
  eapply buckets_match_update with (rid := rc_router_id rc); [done| | |]; simpl.
  - by rewrite bucket_spec_delete, decide_True.
  - rewrite bucket_spec_delete, decide_True by done.
    by rewrite xor_all_remove by apply bucket_spec_hashes.
  - intros b Hb. by rewrite bucket_spec_delete, decide_False.
Qed.

Lemma empty_store_wf : store_wf empty_store.
Proof.
  assert (forall b, bucket_spec ∅ b = ∅) as He.
  { intros b. apply map_eq. intros k. rewrite bucket_spec_lookup, !lookup_empty. by case_decide. }
  split; [done|]. intros b. cbn [known_rcs rc_hashes rc_bucket_hashes empty_store]. rewrite He.
  case_decide; [by rewrite !lookup_replicate_2|].
  split; apply lookup_replicate_None; lia.
Qed.

(** Same bucket contents when an RC is replaced by one with the same hash. *)
Lemma bucket_spec_same_hash m b rid rc rc' :
  m !! rid = Some rc' -> rc_hash_of rc = rc_hash_of rc' ->
  bucket_spec (<[rid := rc]> m) b = bucket_spec m b.
Proof.
  intros Hm Hh. apply map_eq. intros k. rewrite !bucket_spec_lookup.
  destruct (decide (rid = k)) as [<-|]; [|by rewrite lookup_insert_ne].
  rewrite lookup_insert_eq, Hm. simpl. by rewrite Hh.
Qed.

Lemma insert_rcs_wf (m : gmap bytes RelayContact) rc :
  (forall rid rc, m !! rid = Some rc -> rc_router_id rc = rid /\ is_Some (rc_hash_of rc)) ->
  is_Some (rc_hash_of rc) ->
  forall rid rc', <[rc_router_id rc := rc]> m !! rid = Some rc' ->
  rc_router_id rc' = rid /\ is_Some (rc_hash_of rc').
Proof.
  intros Hm Hh rid rc'. destruct (decide (rc_router_id rc = rid)) as [<-|].
  - rewrite lookup_insert_eq. by intros [= <-].
  - rewrite lookup_insert_ne by done. apply Hm.
Qed.

(** What [put_rc] does when it stores: the RC replaces what was there. *)
Definition stores (st : RCStore) (rc : RelayContact) : bool :=
  match known_rcs st !! rc_router_id rc with
  | None => true
  | Some stored => newer_than rc stored MIN_GOSSIP_RC_AGE
  end.

Lemma put_rc_finish_spec env st m rc sig gossip :
  buckets_match st m -> is_Some (rc_hash_of rc) ->
  (sig = false -> forall b, bucket_spec (<[rc_router_id rc := rc]> m) b = bucket_spec m b) ->
  exists st', put_rc_finish env (set_known_rcs st (<[rc_router_id rc := rc]> m)) rc sig gossip
      = (st', Ok (true, gossip && is_service_node env))
    /\ known_rcs st' = <[rc_router_id rc := rc]> m
    /\ disk_jobs st' = disk_jobs st ++ [WriteRC (rc_router_id rc) (rc_payload rc)]
    /\ buckets_match st' (<[rc_router_id rc := rc]> m).
Proof.
  intros Hm [h Hh] Hsig. unfold put_rc_finish. destruct sig.
  - destruct (update_added (set_known_rcs st (<[rc_router_id rc := rc]> m)) m rc h Hm Hh)
      as (st' & -> & Hk & Hj & Hb). eexists. split_and!; [done| |by simpl; rewrite Hj|done].
    simpl. by rewrite Hk.
  - eexists. split_and!; [done..|]. intros b. simpl. rewrite Hsig by done. apply Hm.
Qed.

(** The gossip half of [put_rc]'s result, as its documentation words it. *)
Definition gossips (env : RouterEnv) (st : RCStore) (rc : RelayContact) : bool :=
  is_service_node env &&
  match known_rcs st !! rc_router_id rc with
  | None => true
  | Some old => newer_than rc old MIN_GOSSIP_RC_AGE
      && (bool_decide (rc_router_id rc = self_id env) || newer_than rc old RC_OUTDATED_AGE
          || negb (bool_decide (rc_hash_of rc = rc_hash_of old)))
  end.

Lemma put_rc_ok env st rc :
  store_wf st -> is_Some (rc_hash_of rc) ->
  exists st', put_rc env st rc = (st', Ok (stores st rc, gossips env st rc))
    /\ store_wf st'
    /\ known_rcs st' = (if stores st rc then <[rc_router_id rc := rc]> (known_rcs st) else known_rcs st)
    /\ disk_jobs st' = disk_jobs st ++
         (if stores st rc then [WriteRC (rc_router_id rc) (rc_payload rc)] else []).
Proof.
  intros [Hrcs Hb] Hh. unfold put_rc, stores, gossips.
  destruct (known_rcs st !! rc_router_id rc) as [old|] eqn:Eold.
  2: { destruct (put_rc_finish_spec env st (known_rcs st) rc true true Hb Hh ltac:(done))
         as (st' & E & Hk & Hj & Hb'). eexists. split_and!; [|split|done..].
       - rewrite E. by rewrite andb_true_r.
       - rewrite Hk. by apply insert_rcs_wf.
       - by rewrite Hk. }
  destruct (newer_than rc old MIN_GOSSIP_RC_AGE) eqn:Enew; simpl.
  2: { exists st. rewrite andb_false_r, app_nil_r. by split_and!. }
  destruct (Hrcs _ _ Eold) as [_ [h' Hh']]. pose proof Hh as [h Hh''].
  rewrite (proj1 (rc_hash_of_Ok _ _) Hh''), (proj1 (rc_hash_of_Ok _ _) Hh').
  edestruct (put_rc_finish_spec env st (known_rcs st) rc (negb (bool_decide (h = h'))))
    as (st' & E & Hk & Hj & Hb'); [done..| |].
  { intros Hs b. eapply bucket_spec_same_hash; [done|].
    apply negb_false_iff, bool_decide_eq_true_1 in Hs. congruence. }
  eexists. split_and!; [|split|done..].
  - rewrite E, Hh'', Hh'. do 3 f_equal. rewrite andb_comm. do 2 f_equal.
    by rewrite (bool_decide_ext (Some h = Some h') (h = h')) by naive_solver.
  - rewrite Hk. by apply insert_rcs_wf.
  - by rewrite Hk.
Qed.

(** [remove_loop] over entries of the table removes the selected ones. *)
Lemma remove_loop_spec remove l st removed :
  store_wf st -> NoDup l.*1 -> (forall rid rc, (rid, rc) ∈ l -> known_rcs st !! rid = Some rc) ->
  exists st', remove_loop remove l st removed =
      (st', removed ++ (filter (fun kv => remove kv.2 = true) l).*1)
    /\ store_wf st' /\ disk_jobs st' = disk_jobs st
    /\ (forall rid, known_rcs st' !! rid =
         if decide (rid ∈ (filter (fun kv => remove kv.2 = true) l).*1) then None
         else known_rcs st !! rid).
Proof.
  revert st removed. induction l as [|[rid rc] l IH]; intros st removed Hwf Hnd Hl; cbn [remove_loop].
  { exists st. rewrite filter_nil, app_nil_r. split_and!; [done..|]. intros k.
    by rewrite decide_False by set_solver. }
  apply NoDup_cons in Hnd as [Hnin Hnd].
  assert (known_rcs st !! rid = Some rc) as Erc by (apply Hl; set_solver).
  destruct (remove rc) eqn:Er.
  - rewrite filter_cons_True by done. destruct Hwf as [Hrcs Hb].
    destruct (update_removed st _ rc Hb) as (st1 & -> & Hk1 & Hj1 & Hb1). simpl.
    rewrite Hk1. destruct (Hrcs _ _ Erc) as [Hrid _]. rewrite Hrid in Hb1.
    edestruct (IH (set_known_rcs st1 (delete rid (known_rcs st))) (removed ++ [rid]))
      as (st' & -> & Hwf' & Hj' & Hk').
    { split; [|done]. simpl. intros k c. rewrite lookup_delete_Some. naive_solver. }
    { done. }
    { intros k c Hin. simpl. rewrite lookup_delete_ne; [apply Hl; set_solver|].
      intros ->. apply Hnin. apply list_elem_of_fmap. by exists (k, c). }
    exists st'. rewrite <-app_assoc. split_and!; [done..| |].
    + by rewrite Hj'.
    + intros k. rewrite Hk'. simpl. destruct (decide (k = rid)) as [->|].
      * rewrite lookup_delete_eq. repeat case_decide; try done; set_solver.
      * rewrite lookup_delete_ne by done. repeat case_decide; try done; set_solver.
  - rewrite filter_cons_False by (simpl; congruence). apply IH; [done..|]. set_solver.
Qed.

(** [remove_rcs_if] keeps exactly the RCs that are not selected, whatever the
    order of the table, and queues the removal of the files of the others. *)
Lemma remove_rcs_if_ok remove order st :
  store_wf st -> order ≡ₚ map_to_list (known_rcs st) ->
  store_wf (remove_rcs_if remove order st)
  /\ known_rcs (remove_rcs_if remove order st)
     = filter (fun kv => remove kv.2 = false) (known_rcs st).
Proof.
  intros Hwf Hord.
  edestruct (remove_loop_spec remove order st []) as (st' & E & Hwf' & Hj & Hk); [done| | |].
  { rewrite Hord. apply NoDup_fst_map_to_list. }
  { intros rid rc. rewrite Hord. apply elem_of_map_to_list. }
  assert (known_rcs st' = filter (fun kv => remove kv.2 = false) (known_rcs st)) as Hf.
  { apply map_eq. intros k. rewrite Hk, map_lookup_filter.
    assert (k ∈ (filter (fun kv => remove kv.2 = true) order).*1 <->
            exists rc, known_rcs st !! k = Some rc /\ remove rc = true) as Hin.
    { rewrite list_elem_of_fmap. setoid_rewrite list_elem_of_filter. setoid_rewrite Hord.
      split; [intros ([k' rc] & -> & Hr & Hm); apply elem_of_map_to_list in Hm; eauto|].
      intros (rc & Hm & Hr). exists (k, rc). by rewrite elem_of_map_to_list. }
    case_decide as Hd; rewrite Hin in Hd; clear Hin.
    - destruct Hd as (rc & -> & Hr). simpl. by rewrite option_guard_False by (simpl; congruence).
    - destruct (known_rcs st !! k) as [rc|] eqn:Ek; [|done]. simpl.
      rewrite option_guard_True; [done|]. simpl. destruct (remove rc) eqn:?; [|done].
      exfalso. eauto. }
  unfold remove_rcs_if. rewrite E. simpl. case_match; [done|]. destruct Hwf'. by split.
Qed.

(** [init_buckets] enters the RCs it is given one by one. *)
Lemma init_buckets_spec l st m :
  buckets_match st m -> Forall (fun kv => rc_router_id kv.2 = kv.1 /\ is_Some (rc_hash_of kv.2)) l ->
  exists st', init_buckets l st = (st', Ok tt)
    /\ known_rcs st' = known_rcs st /\ disk_jobs st' = disk_jobs st
    /\ buckets_match st' (foldl (fun m kv => <[kv.1 := kv.2]> m) m l).
Proof.
  revert st m. induction l as [|[rid rc] l IH]; intros st m Hm Hl; cbn [init_buckets foldl]; [by exists st|].
  apply Forall_cons in Hl as [[Hrid [h Hh]] Hl]. cbn [fst snd] in *.
  destruct (update_added st m rc h Hm Hh) as (st1 & -> & Hk & Hj & Hb). rewrite Hrid in Hb.
  destruct (IH st1 _ Hb Hl) as (st' & -> & Hk' & Hj' & Hb'). exists st'. split_and!; congruence || done.
Qed.

Lemma foldl_insert_map_to_list (l : list (bytes * RelayContact)) (m : gmap bytes RelayContact) :
  l ≡ₚ map_to_list m -> foldl (fun m kv => <[kv.1 := kv.2]> m) ∅ l = m.
Proof.
  intros Hl. assert (NoDup l.*1) as Hnd by (rewrite Hl; apply NoDup_fst_map_to_list).
  assert (forall m0 : gmap bytes RelayContact,
    (forall k, k ∈ l.*1 -> m0 !! k = None) ->
    foldl (fun m kv => <[kv.1 := kv.2]> m) m0 l = list_to_map l ∪ m0) as Hf.
  { clear Hl. induction l as [|[k v] l IH]; intros m0 Hm0; simpl; [by rewrite map_empty_union|].
    apply NoDup_cons in Hnd as [Hk Hnd]. rewrite IH; [|done|].
    - rewrite <-insert_union_r, insert_union_l; [done|]. by apply not_elem_of_list_to_map_1.
    - intros k' Hk'. rewrite lookup_insert_ne by set_solver. apply Hm0. set_solver. }
  rewrite Hf by done. rewrite map_union_empty. rewrite (list_to_map_proper l (map_to_list m)) by done.
  apply list_to_map_to_list.
Qed.

(** The buckets [load_from_disk] sets up for the RCs it loaded are right. *)
Lemma init_buckets_wf (m : gmap bytes RelayContact) order jobs :
  (forall rid rc, m !! rid = Some rc -> rc_router_id rc = rid /\ is_Some (rc_hash_of rc)) ->
  order ≡ₚ map_to_list m ->
  exists st', init_buckets order (mkStore m (rc_hashes empty_store) (rc_bucket_hashes empty_store) jobs)
      = (st', Ok tt) /\ known_rcs st' = m /\ store_wf st'.
Proof.
  intros Hm Hord.
  edestruct (init_buckets_spec order
    (mkStore m (rc_hashes empty_store) (rc_bucket_hashes empty_store) jobs) ∅)
    as (st' & E & Hk & _ & Hb).
  { apply empty_store_wf. }
  { rewrite Hord. apply Forall_forall. intros [rid rc] Hin%elem_of_map_to_list. by apply Hm. }
  exists st'. split_and!; [done..|]. rewrite (foldl_insert_map_to_list _ _ Hord) in Hb.
  split; [|by rewrite Hk]. rewrite Hk. apply Hm.
Qed.
End Spec.

(** ** What the hash covers *)
Section Hash.
Context `{SodiumLaws} `{OxencLaws}.

Definition bt_pairs (l : list (bytes * btval)) : bytes :=
  concat ((fun kv => bt_value (BStr kv.1) ++ bt_value kv.2) <$> l).

(** The bytes hashed for an RC with [pre] before its timestamp and [post]
    between the timestamp and the signature. *)
Definition hashed_content (pre post : list (bytes * btval)) : bytes :=
  bt_signed_data pre ++ str_header 1 ++
  match post with
  | [] => []
  | (k, v) :: post => k ++ bt_value v ++ bt_pairs post ++ str_header 1
  end.

Lemma bt_signed_app d l : bt_signed_data (d ++ l) = bt_signed_data d ++ bt_pairs l.
Proof.
  revert d. induction l as [|[k v] l IH]; intros d; [by rewrite !app_nil_r|].
  rewrite (cons_middle (k, v) d l), app_assoc, IH, bt_signed_snoc. unfold bt_pairs. simpl.
  by rewrite <-!app_assoc.
Qed.

Lemma bt_skip_until_pairs k v d l t :
  Forall (fun kv => bytes_ltb kv.1 k = true) l ->
  bt_skip_until k (bt_reading d (l ++ (k, v) :: t)) = Some (true, bt_reading (d ++ l) ((k, v) :: t)).
Proof.
  intros Hl. revert d. induction Hl as [|[k' v'] l Hk _ IH]; intros d; simpl.
  { by rewrite bt_skip_until_here, app_nil_r. }
  by rewrite bt_skip_until_past, IH, <-app_assoc.
Qed.

Lemma bt_value_key k : bt_value (BStr k) = str_header (length k) ++ k.
Proof. apply bt_value_str. Qed.

Lemma bucket_hash_produce pre ts post sig :
  Forall (fun kv => bytes_ltb kv.1 (str "t") = true) pre ->
  Forall (fun kv => bytes_ltb kv.1 (str "~") = true) post ->
  in_range 0 (2 ^ 64 - 1) ts = true ->
  bucket_hash (bt_dict_produce (pre ++ (str "t", BInt ts) :: post ++ [(str "~", BStr sig)]))
  = Ok (blake2b RCHASH_SIZE (hashed_content pre post) [] []).
Proof.
  intros Hpre Hpost Hts. unfold bucket_hash. rewrite bt_open_produce. cbn [or_throw outcome_bind].
  rewrite bt_skip_until_pairs by done. cbn [or_throw outcome_bind app].
  rewrite bt_next_integer_next. cbn [or_throw outcome_bind]. rewrite Hts. cbn [negb].
  rewrite bt_key_offset_next, bt_produce_signed, bt_signed_app.
  set (hdr := str_header (length (str "t"))).
  assert (forall l r, take (length (bt_signed_data pre) + length hdr)
    ((bt_signed_data pre ++ bt_pairs ((str "t", BInt ts) :: l)) ++ r) = bt_signed_data pre ++ hdr) as Htake.
  { intros l r. unfold bt_pairs. rewrite fmap_cons. cbn [concat fst snd]. rewrite bt_value_key. fold hdr.
    rewrite <-!app_assoc, app_assoc. apply take_app_length'. by rewrite length_app. }
  rewrite Htake. destruct post as [|[k v] post]; cbn [app].
  { rewrite bt_key_next. cbn [or_throw outcome_bind]. rewrite decide_True by done.
    unfold hashed_content. by rewrite app_nil_r. }
  rewrite bt_key_next. cbn [or_throw outcome_bind].
  rewrite decide_False by (intros ->; by apply Forall_cons in Hpost as [? _]).
  rewrite (bt_skip_until_pairs (str "~") (BStr sig) _ ((k, v) :: post) []) by done.
  cbn [or_throw outcome_bind]. rewrite bt_next_string_next. cbn [or_throw outcome_bind].
  rewrite !bt_key_offset_next. do 2 f_equal.
  unfold hashed_content. rewrite <-app_assoc. f_equal. f_equal.
  set (front := bt_signed_data (pre ++ [(str "t", BInt ts)])).
  rewrite (bt_signed_app (pre ++ [_]) ((k, v) :: post)). fold front.
  assert ((bt_signed_data pre ++ bt_pairs ((str "t", BInt ts) :: (k, v) :: post ++ [(str "~", BStr sig)])) ++ [101]
    = (front ++ str_header (length k)) ++ (k ++ bt_value v ++ bt_pairs post ++ hdr) ++
      (str "~" ++ bt_value (BStr sig) ++ [101])) as ->.
  { unfold front. rewrite bt_signed_app. unfold bt_pairs. simpl. rewrite fmap_app, concat_app. simpl.
    rewrite (bt_value_key k), (bt_value_key (str "~")). rewrite !app_nil_r. by rewrite <-!app_assoc. }
  unfold subspan. rewrite drop_app_length' by (rewrite length_app; lia).
  rewrite take_app_length'; [done|]. unfold bt_pairs. rewrite fmap_cons. cbn [concat fst snd].
  rewrite !length_app, bt_value_key, !length_app. subst hdr.
  change (length (str "~")) with (length (str "t")). lia.
Qed.

(** Two RCs of the same relay, signed at different times, hash alike. *)
Lemma rc_build_hash sk rid ip port netid version ts1 ts2 rc1 rc2 :
  in_range 0 (2 ^ 64 - 1) ts1 = true -> in_range 0 (2 ^ 64 - 1) ts2 = true ->
  rc_build sk rid (Addr4 ip port) ts1 netid version = Ok rc1 ->
  rc_build sk rid (Addr4 ip port) ts2 netid version = Ok rc2 ->
  exists h, bucket_hash (rc_payload rc1) = Ok h /\ bucket_hash (rc_payload rc2) = Ok h.
Proof.
  assert (forall ts rc, in_range 0 (2 ^ 64 - 1) ts = true ->
    rc_build sk rid (Addr4 ip port) ts netid version = Ok rc ->
    bucket_hash (rc_payload rc) = Ok (blake2b RCHASH_SIZE (hashed_content
      ((if netid =? NetID_MAINNET then [] else [(str "#", BInt netid)])
       ++ [(str "4", BStr (ip ++ port)); (str "p", BStr rid)]) [(str "v", BStr version)]) [] [])) as Hb.
  { intros ts rc Hts Hrc. unfold rc_build, rc_fields in Hrc. simpl in Hrc. case_match; [done|].
    injection Hrc as <-. cbn [rc_payload].
    match goal with |- context [sign_detached sk ?d] => set (sig := sign_detached sk d) end.
    rewrite <-(bucket_hash_produce _ ts _ sig); [| |by repeat constructor|done].
    - by destruct (netid =? NetID_MAINNET).
    - destruct (netid =? NetID_MAINNET); by repeat constructor. }
  eauto.
Qed.
End Hash.

(** ** Histories of a node's store *)
Section History.
Context `{SodiumLaws} `{Oxenc}.
Context (is_public : Address -> bool) (env : RouterEnv).

(** One change: an RC put directly (a fetch, a bootstrap answer, our own RC) or
    through [verify_store_gossip_rc], or a purge at some time. *)
Inductive store_step : RCStore -> RCStore -> Prop :=
| step_put st rc st' r :
    is_Some (rc_hash_of rc) -> put_rc env st rc = (st', r) -> store_step st st'
| step_gossip st rc registered st' r :
    is_Some (rc_hash_of rc) -> verify_store_gossip_rc env registered st rc = (st', r) -> store_step st st'
| step_purge st order registered now :
    order ≡ₚ map_to_list (known_rcs st) ->
    store_step st (remove_rcs_if (purge_pred is_public env registered now) order st).

Lemma store_step_wf st st' : store_step st st' -> store_wf st -> store_wf st'.
Proof.
  intros Hstep Hwf. destruct Hstep as [st rc st' r Hh E|st rc registered st' r Hh E|].
  - destruct (put_rc_ok env st rc Hwf Hh) as (st1 & E1 & Hwf1 & _). congruence.
  - unfold verify_store_gossip_rc in E. case_match; [congruence|].
    destruct (put_rc_ok env st rc Hwf Hh) as (st1 & E1 & Hwf1 & _). congruence.
  - by apply remove_rcs_if_ok.
Qed.

Lemma reachable_wf st : rtc store_step empty_store st -> store_wf st.
Proof.
  apply (rtc_ind_r (fun st => store_wf st)); [apply empty_store_wf|].
  intros ?? _. apply store_step_wf.
Qed.
End History.

(** C19. In every state a node's RC store can reach through puts, gossip and
    purges, each of the 128 bucket digests is the XOR of the hashes of exactly
    the RCs now held whose relay falls in that bucket: no removed or replaced RC
    leaves a trace and no held RC is missing. *)
Theorem bucket_digests_exact `{SodiumLaws} `{Oxenc} is_public env st b :
  rtc (store_step is_public env) empty_store st -> (b < NUM_BUCKETS)%nat ->
  rc_bucket_hashes st !! b = Some (xor_all (bucket_spec (known_rcs st) b))
  /\ (forall rid, is_Some (bucket_spec (known_rcs st) b !! rid) <->
       is_Some (known_rcs st !! rid) /\ bucket_of rid = b).
Proof.
  intros Hr Hb. apply reachable_wf in Hr as [Hrcs Hbk].
  split; [by rewrite (proj2 (Hbk b)), decide_True|].
  intros rid. rewrite bucket_spec_lookup. case_decide; [|naive_solver].
  destruct (known_rcs st !! rid) as [rc|] eqn:E; simpl; [|naive_solver].
  destruct (Hrcs _ _ E) as [_ ?]. naive_solver.
Qed.

(** [put_rc] on any reachable-shaped store: it stores exactly when the relay
    is unknown or the RC is at least a minute newer than the one held, reports
    whether to gossip as documented, queues the RC's file to be written when it
    stores, leaves every other relay's RC alone, keeps the buckets right, and
    never replaces an RC by an older one. *)
Theorem put_rc_spec `{SodiumLaws} `{Oxenc} env st rc :
  store_wf st -> is_Some (rc_hash_of rc) ->
  exists st', put_rc env st rc = (st', Ok (stores st rc, gossips env st rc))
    /\ store_wf st'
    /\ known_rcs st' = (if stores st rc then <[rc_router_id rc := rc]> (known_rcs st) else known_rcs st)
    /\ disk_jobs st' = disk_jobs st ++
         (if stores st rc then [WriteRC (rc_router_id rc) (rc_payload rc)] else [])
    /\ (forall rid old, known_rcs st !! rid = Some old ->
         exists new, known_rcs st' !! rid = Some new /\ rc_timestamp old <= rc_timestamp new).
Proof.
  intros Hwf Hh. destruct (put_rc_ok env st rc Hwf Hh) as (st' & E & Hwf' & Hk & Hj).
  exists st'. split_and!; [done..|]. intros rid old Hold. rewrite Hk.
  destruct (stores st rc) eqn:Hs; [|by exists old].
  destruct (decide (rc_router_id rc = rid)) as [<-|].
  - exists rc. rewrite lookup_insert_eq. split; [done|]. unfold stores in Hs. rewrite Hold in Hs.
    unfold newer_than, MIN_GOSSIP_RC_AGE in Hs. lia.
  - exists old. by rewrite lookup_insert_ne.
Qed.

(** An RC that differs from the one held only in its timestamp and signature,
    and is between a minute and twelve hours newer, is stored without touching
    any bucket and without being gossipped. *)
Theorem resigned_rc_is_mundane `{SodiumLaws} `{OxencLaws} env st sk rid ip port netid version ts1 ts2 rc1 rc2 :
  rc_build sk rid (Addr4 ip port) ts1 netid version = Ok rc1 ->
  rc_build sk rid (Addr4 ip port) ts2 netid version = Ok rc2 ->
  known_rcs st !! rid = Some rc1 -> rid <> self_id env ->
  0 <= ts1 -> 60 <= ts2 - ts1 < 43200 -> ts2 < 2 ^ 64 ->
  put_rc env st rc2 =
    (mkStore (<[rid := rc2]> (known_rcs st)) (rc_hashes st) (rc_bucket_hashes st)
       (disk_jobs st ++ [WriteRC rid (rc_payload rc2)]), Ok (true, false)).
Proof.
  intros Hb1 Hb2 Hk Hself Hts1 Hd Hts2.
  destruct (rc_build_hash sk rid ip port netid version ts1 ts2 rc1 rc2) as (h & E1 & E2);
    [unfold in_range; lia..|done|done|].
  assert (rc_router_id rc2 = rid /\ rc_timestamp rc2 = ts2 /\ rc_timestamp rc1 = ts1) as (R2 & T2 & T1).
  { unfold rc_build, rc_fields in Hb1, Hb2. simpl in Hb1, Hb2.
    repeat case_match; simplify_eq; done. }
  unfold put_rc. rewrite R2, Hk, E1, E2. unfold newer_than, MIN_GOSSIP_RC_AGE. rewrite T1, T2.
  rewrite (proj2 (Z.leb_le 60 (ts2 - ts1))) by lia. simpl negb. rewrite (bool_decide_true (h = h)) by done.
  rewrite (bool_decide_false (rid = self_id env)) by done. change RC_OUTDATED_AGE with 43200.
  rewrite (proj2 (Z.leb_gt 43200 (ts2 - ts1))) by lia. simpl. unfold put_rc_finish, disk_call_soon. simpl.
  by rewrite R2.
Qed.

(** A purge on a relay that has its registered list leaves exactly the RCs
    that are public, unexpired and registered, and right buckets, in whatever
    order the table is walked. *)
Theorem purge_rcs_keeps `{SodiumLaws} `{Oxenc} is_public env registered now order st rid :
  store_wf st -> order ≡ₚ map_to_list (known_rcs st) ->
  is_service_node env = true -> registered <> ∅ ->
  store_wf (remove_rcs_if (purge_pred is_public env registered now) order st)
  /\ forall rc, known_rcs (remove_rcs_if (purge_pred is_public env registered now) order st) !! rid = Some rc
     <-> known_rcs st !! rid = Some rc /\ is_public (rc_addr rc) = true
         /\ rc_is_expired rc now = false /\ rid ∈ registered.
Proof.
  intros Hwf Hord Hsn Hreg.
  destruct (remove_rcs_if_ok (purge_pred is_public env registered now) order st Hwf Hord) as [Hwf' Hk].
  split; [done|]. intros rc. rewrite Hk, map_lookup_filter_Some. simpl.
  split; intros [Hrc Hp]; (split; [done|]); destruct (wf_rcs _ Hwf _ _ Hrc) as [Hrid _];
    unfold purge_pred in *; rewrite Hsn, (bool_decide_false (registered = ∅)) in *; try done.
  - repeat case_match; simplify_eq. apply bool_decide_eq_false_1, dec_stable in Hp.
    split_and!; try done. by apply negb_false_iff.
  - destruct Hp as (-> & -> & Hin). simpl. rewrite Hrid. apply bool_decide_false. naive_solver.
Qed.

(** ** A concrete store *)
Module StoreDemo.
#[local] Existing Instance toy.
#[local] Existing Instance bencode.

Definition rid (k : Z) : bytes := replicate 32 k.
Definition env : RouterEnv := mkEnv true (rid 9) ∅ ∅.
Definition rc_of (k ts : Z) : RelayContact :=
  match rc_build (replicate 64 k) (rid k) (Addr4 [1; 2; 3; k] [0; 99]) ts 0 [1; 0; 0] with
  | Ok rc => rc
  | Throw _ => mkRC [] (Addr4 [] []) None 0 0 [] []
  end.
Definition store1 : RCStore := (put_rc env empty_store (rc_of 1 1000)).1.
Definition store2 : RCStore := (put_rc env store1 (rc_of 2 2000)).1.

Lemma rc_of_built k ts : k = 1 \/ k = 2 -> ts = 1000 \/ ts = 2000 ->
  rc_build (replicate 64 k) (rid k) (Addr4 [1; 2; 3; k] [0; 99]) ts 0 [1; 0; 0] = Ok (rc_of k ts)
  /\ is_Some (rc_hash_of (rc_of k ts)).
Proof. intros [-> | ->] [-> | ->]; (split; [vm_compute; reflexivity|]); eexists; vm_compute; reflexivity. Qed.

Lemma store2_reachable : rtc (store_step (fun _ => true) env) empty_store store2.
Proof.
  eapply rtc_l with (y := store1); [|eapply rtc_once].
  - eapply step_put; [apply (rc_of_built 1 1000); auto | apply surjective_pairing].
  - eapply step_put; [apply (rc_of_built 2 2000); auto | apply surjective_pairing].
Qed.

Lemma store2_wf : store_wf store2.
Proof. apply (@reachable_wf toy toy_laws bencode (fun _ => true) env). apply store2_reachable. Qed.
End StoreDemo.

Lemma bucket_digests_exact_witness :
  rc_bucket_hashes StoreDemo.store2 !! 1%nat =
    Some (xor_all (@bucket_spec toy bencode (known_rcs StoreDemo.store2) 1)).
Proof.
  apply (@bucket_digests_exact toy toy_laws bencode (fun _ => true) StoreDemo.env StoreDemo.store2 1%nat).
  - exact StoreDemo.store2_reachable.
  - unfold NUM_BUCKETS. lia.
Defined.

Lemma put_rc_spec_witness :
  exists st', @put_rc toy bencode StoreDemo.env StoreDemo.store2 (StoreDemo.rc_of 1 2000) = (st', Ok (true, false)).
Proof.
  destruct (@put_rc_spec toy toy_laws bencode StoreDemo.env StoreDemo.store2 (StoreDemo.rc_of 1 2000))
    as (st' & E & _).
  - exact StoreDemo.store2_wf.
  - apply StoreDemo.rc_of_built; auto.
  - exists st'. rewrite E. vm_compute. reflexivity.
Defined.

Lemma resigned_rc_is_mundane_witness :
  (@put_rc toy bencode StoreDemo.env StoreDemo.store2 (StoreDemo.rc_of 1 2000)).2 = Ok (true, false).
Proof.
  rewrite (@resigned_rc_is_mundane toy toy_laws bencode bencode_laws StoreDemo.env StoreDemo.store2
    (replicate 64 1) (StoreDemo.rid 1) [1; 2; 3; 1] [0; 99] 0 [1; 0; 0] 1000 2000
    (StoreDemo.rc_of 1 1000) (StoreDemo.rc_of 1 2000)).
  - reflexivity.
  - apply StoreDemo.rc_of_built; auto.
  - apply StoreDemo.rc_of_built; auto.
  - vm_compute. reflexivity.
  - discriminate.
  - lia.
  - lia.
  - lia.
Defined.

Lemma purge_rcs_keeps_witness :
  known_rcs (@remove_rcs_if toy bencode
    (purge_pred (fun _ => true) StoreDemo.env {[StoreDemo.rid 1]} 3000)
    (map_to_list (known_rcs StoreDemo.store2)) StoreDemo.store2) !! StoreDemo.rid 1
  = Some (StoreDemo.rc_of 1 1000).
Proof.
  apply (@purge_rcs_keeps toy toy_laws bencode (fun _ => true) StoreDemo.env {[StoreDemo.rid 1]} 3000
    (map_to_list (known_rcs StoreDemo.store2)) StoreDemo.store2 (StoreDemo.rid 1)).
  - exact StoreDemo.store2_wf.
  - reflexivity.
  - reflexivity.
  - intros E. assert (StoreDemo.rid 1 ∈ (∅ : gset bytes)) as Hin by (rewrite <-E; by apply elem_of_singleton).
    by apply not_elem_of_empty in Hin.
  - split; [vm_compute; reflexivity|]. split; [reflexivity|]. split; [vm_compute; reflexivity|].
    by apply elem_of_singleton.
Defined.
