(* ===== verification/NodeDB.v ===== *)
(** * Relay selection and the router ID lists of the node database (nodedb.cpp)

    Random sampling of RCs ([sample_rcs] and its callers), the registered
    relays, the relays closest to a blinded key, and the client's router ID
    consensus ([fetch_rids], [handle_fetched_router_ids]).  Iteration orders of
    unordered containers, random draws and shuffles are arguments. *)

From Stdlib Require Import ZArith Lia.
From stdpp Require Import base list numbers strings gmap sorting.
From S2P Require Import Prelude Oxenc Crypto RelayContact RcStore.

Local Open Scope Z_scope.
Local Open Scope router_scope.

(** ** Sampling *)
Section Sampling.
Context (env : RouterEnv) (now : Z).

(** The [continue]s of the loop of [sample_rcs]; [None] is an empty predicate. *)
Definition admissible (predicate : option (RelayContact -> bool)) (rc : RelayContact) : bool :=
  if rc_is_expired rc now then false
  else if (if is_service_node env then bool_decide (rc_router_id rc = self_id env)
           else bool_decide (rc_router_id rc ∈ snode_blacklist env)) then false
  else match predicate with
       | Some p => p rc
       | None => true
       end.

(** The loop: [draw a] is the number drawn from [0, a] for the RC admitted as
    number [a]; [None] in [rand] is a null pointer. *)
Fixpoint sample_loop (n : nat) (predicate : option (RelayContact -> bool)) (draw : nat -> nat)
    (rcs : list RelayContact) (rand : list (option RelayContact)) (admitted : nat)
    : list (option RelayContact) * nat :=
  match rcs with
  | [] => (rand, admitted)
  | rc :: rcs =>
      if negb (admissible predicate rc) then sample_loop n predicate draw rcs rand admitted
      else
        let pos := if decide (admitted < n)%nat then admitted else draw admitted in
        let rand := if decide (pos < n)%nat then <[pos := Some rc]> rand else rand in
        sample_loop n predicate draw rcs rand (S admitted)
  end.

(** [sample_rcs]; [shuf] is [std::ranges::shuffle].  Resizing to a negative
    number of elements throws. *)
Definition sample_rcs (rcs : list RelayContact) (n : Z) (predicate : option (RelayContact -> bool))
    (draw : nat -> nat) (shuf : list (option RelayContact) -> list (option RelayContact))
    (shuffle : bool) : outcome string (list (option RelayContact)) :=
  throw_if n <? 0 with "length_error"%string in
  let n := Z.to_nat n in
  let '(rand, admitted) := sample_loop n predicate draw rcs (replicate n None) 0 in
  let rand := if decide (admitted < n)%nat then take admitted rand else rand in
  Ok (if shuffle && bool_decide (1 < length rand)%nat then shuf rand else rand).

Definition get_n_random_rcs (order : list RelayContact) (n : Z) (shuffle : bool)
    (predicate : option (RelayContact -> bool)) (draw : nat -> nat)
    (shuf : list (option RelayContact) -> list (option RelayContact)) :=
  sample_rcs order n predicate draw shuf shuffle.

(** [get_random_rc]: no RC is a null pointer. *)
Definition get_random_rc (order : list RelayContact) (predicate : option (RelayContact -> bool))
    (draw : nat -> nat) : outcome string (option RelayContact) :=
  let! randos := get_n_random_rcs order 1 false predicate draw id in
  Ok (match randos with [] => None | x :: _ => x end).

(** [get_n_random_edge_rcs]; [strict_order] is the order of the strict edges. *)
Definition get_n_random_edge_rcs (st : RCStore) (order : list RelayContact) (strict_order : list bytes)
    (n : Z) (shuffle : bool) (predicate : option (RelayContact -> bool)) (draw : nat -> nat)
    (shuf : list (option RelayContact) -> list (option RelayContact)) :=
  if is_service_node env || bool_decide (strict_edges env = ∅)
  then get_n_random_rcs order n shuffle predicate draw shuf
  else
    let n := Z.min n (Z.of_nat (size (strict_edges env))) in
    sample_rcs (omap (get_rc st) strict_order) n predicate draw shuf shuffle.

Lemma insert_submseteq {A} (l s : list A) p x :
  l ⊆+ s -> (p < length l)%nat -> <[p := x]> l ⊆+ x :: s.
Proof.
  intros Hs Hp. rewrite insert_take_drop by done. rewrite <-Permutation_middle.
  apply submseteq_skip. rewrite <-delete_take_drop. etrans; [|done].
  apply sublist_submseteq, sublist_delete.
Qed.

(** The loop keeps as many of the RCs admitted so far as fit, never a null pointer. *)
Lemma sample_loop_spec n predicate draw rcs seen l :
  (forall a, (draw a <= a)%nat) ->
  length l = (n `min` length seen)%nat -> l ⊆+ seen ->
  exists l', sample_loop n predicate draw rcs ((Some <$> l) ++ replicate (n - length seen) None) (length seen)
      = ((Some <$> l') ++ replicate (n - length (seen ++ filter (admissible predicate) rcs)) None,
         length (seen ++ filter (admissible predicate) rcs))
    /\ length l' = (n `min` length (seen ++ filter (admissible predicate) rcs))%nat
    /\ l' ⊆+ seen ++ filter (admissible predicate) rcs.
Proof.
  intros Hdraw. revert seen l. induction rcs as [|rc rcs IH]; intros seen l Hlen Hsub.
  { exists l. rewrite filter_nil, app_nil_r. by split_and!. }
  cbn [sample_loop]. destruct (admissible predicate rc) eqn:Ha; simpl negb.
  2: { rewrite filter_cons_False by (rewrite Ha; auto). by apply IH. }
  rewrite filter_cons_True by by rewrite Ha.
  rewrite (cons_middle rc seen), app_assoc.
  replace (S (length seen)) with (length (seen ++ [rc])) by (rewrite length_app; simpl; lia).
  cbv zeta. destruct (decide (length seen < n)%nat) as [Hn|Hn].
  - rewrite decide_True by done.
    assert (length l = length seen) as El by lia.
    replace (n - length seen)%nat with (S (n - length (seen ++ [rc])))%nat
      by (rewrite length_app; simpl; lia).
    rewrite insert_app_r_alt by (rewrite length_fmap; lia).
    rewrite length_fmap, El, Nat.sub_diag. cbn [replicate insert list_insert].
    rewrite (cons_middle (Some rc)), app_assoc. change [Some rc] with (Some <$> [rc]).
    rewrite <-fmap_app. apply IH; [rewrite !length_app; simpl; lia|].
    by apply submseteq_app.
  - assert (n - length seen = 0 /\ n - length (seen ++ [rc]) = 0)%nat as [E0 E1]
      by (rewrite length_app; simpl; lia).
    specialize (IH (seen ++ [rc])). rewrite E0, E1 in *. cbn [replicate] in *.
    case_decide as Hp.
    + rewrite insert_app_l by (rewrite length_fmap; lia). rewrite <-list_fmap_insert.
      apply IH; [rewrite length_insert, length_app; simpl; lia|].
      rewrite (Permutation_app_comm seen). apply insert_submseteq; [done|lia].
    + apply IH; [rewrite length_app; simpl; lia|]. by apply submseteq_inserts_r.
Qed.

Lemma sample_rcs_ok rcs n predicate draw shuf shuffle :
  0 <= n -> (forall a, (draw a <= a)%nat) -> (forall l, shuf l ≡ₚ l) ->
  exists r l, sample_rcs rcs n predicate draw shuf shuffle = Ok r
    /\ r ≡ₚ Some <$> l
    /\ length l = (Z.to_nat n `min` length (filter (admissible predicate) rcs))%nat
    /\ l ⊆+ filter (admissible predicate) rcs.
Proof.
  intros Hn Hd Hs. unfold sample_rcs. rewrite (proj2 (Z.ltb_ge n 0)) by lia.
  destruct (sample_loop_spec (Z.to_nat n) predicate draw rcs [] [] Hd) as (l & E & Hl & Hsub); [simpl; lia|done|].
  simpl in E. rewrite Nat.sub_0_r in E. rewrite E. cbn [app] in Hl, Hsub.
  set (rand := if decide _ then _ else _).
  assert (rand = Some <$> l) as Hr.
  { subst rand. case_decide.
    - apply take_app_length'. rewrite length_fmap. lia.
    - rewrite (proj2 (Nat.sub_0_le _ _)) by lia. apply app_nil_r. }
  exists (if shuffle && bool_decide (1 < length rand)%nat then shuf rand else rand), l.
  split_and!; try done. rewrite Hr. case_match; [apply Hs|done].
Qed.

(** ** The sample is uniform *)

(** All sequences of draws for the RCs numbered [n], ..., [n + k - 1]. *)
Fixpoint all_draws (n k : nat) : list (list nat) :=
  match k with
  | O => [[]]
  | S k => ds ← all_draws n k; (fun d => ds ++ [d]) <$> seq 0 (S (n + k))
  end.

Definition draw_from (n : nat) (ds : list nat) (a : nat) : nat :=
  if decide (a < n)%nat then 0%nat else nth (a - n) ds 0%nat.

Definition reservoir (n : nat) (predicate : option (RelayContact -> bool)) (rcs : list RelayContact)
    (ds : list nat) : list (option RelayContact) :=
  (sample_loop n predicate (draw_from n ds) rcs (replicate n None) 0).1.

(** How many sequences of draws select [rc]. *)
Definition times_selected n predicate rcs (rc : RelayContact) : nat :=
  length (filter (fun ds => Some rc ∈ reservoir n predicate rcs ds) (all_draws n (length rcs - n))).

Lemma all_draws_bound n k ds :
  ds ∈ all_draws n k -> length ds = k /\ forall i, (nth i ds 0 <= n + i)%nat.
Proof.
  revert ds. induction k as [|k IH]; cbn [all_draws]; intros ds Hds.
  - apply list_elem_of_singleton in Hds as ->. split; [done|]. intros [|?]; simpl; lia.
  - apply list_elem_of_bind in Hds as (ds' & Hd & Hds'). apply IH in Hds' as [Hl Hb].
    apply list_elem_of_fmap in Hd as (d & -> & Hd%elem_of_seq).
    split; [rewrite length_app; simpl; lia|]. intros i.
    destruct (decide (i < k)%nat); [rewrite app_nth1 by lia; apply Hb|].
    rewrite app_nth2 by lia. rewrite Hl. destruct (i - k)%nat as [|[|?]]; simpl; lia.
Qed.

Lemma draw_from_le n k ds a : ds ∈ all_draws n k -> (draw_from n ds a <= a)%nat.
Proof.
  intros [_ Hb]%all_draws_bound. unfold draw_from. case_decide; [lia|].
  specialize (Hb (a - n)%nat). lia.
Qed.

Lemma sample_loop_ext n predicate draw draw' rcs rand a :
  (forall b, (a <= b < a + length rcs)%nat -> draw b = draw' b) ->
  sample_loop n predicate draw rcs rand a = sample_loop n predicate draw' rcs rand a.
Proof.
  revert rand a. induction rcs as [|rc rcs IH]; intros rand a Hd; [done|]. simpl in *.
  destruct (negb (admissible predicate rc)); [apply IH; intros; apply Hd; lia|].
  rewrite (Hd a) by lia. apply IH. intros. apply Hd. lia.
Qed.

Lemma sample_loop_app n predicate draw l1 l2 rand a :
  sample_loop n predicate draw (l1 ++ l2) rand a =
  let '(rand', a') := sample_loop n predicate draw l1 rand a in
  sample_loop n predicate draw l2 rand' a'.
Proof.
  revert rand a. induction l1 as [|rc l1 IH]; intros rand a; [done|].
  simpl. destruct (negb (admissible predicate rc)); apply IH.
Qed.

Lemma filter_admissible_all predicate rcs :
  Forall (fun rc => admissible predicate rc = true) rcs -> filter (admissible predicate) rcs = rcs.
Proof. intros Hr. apply filter_all. intros rc Hin. rewrite Forall_forall in Hr. by rewrite Hr. Qed.

(** The reservoir holds [n] of the RCs, and the count of RCs is right. *)
Lemma reservoir_spec n predicate rcs ds :
  Forall (fun rc => admissible predicate rc = true) rcs -> (n <= length rcs)%nat ->
  ds ∈ all_draws n (length rcs - n) ->
  exists l, sample_loop n predicate (draw_from n ds) rcs (replicate n None) 0 = (Some <$> l, length rcs)
    /\ length l = n /\ l ⊆+ rcs.
Proof.
  intros Hr Hn Hds.
  destruct (sample_loop_spec n predicate (draw_from n ds) rcs [] []) as (l & E & Hl & Hs);
    [intros a; by eapply draw_from_le|simpl; lia|done|].
  rewrite (filter_admissible_all predicate rcs Hr) in E, Hl, Hs. cbn [app length] in E, Hl, Hs.
  exists l. rewrite Nat.sub_0_r in E. simpl in E. rewrite (proj2 (Nat.sub_0_le n _) Hn), app_nil_r in E.
  split_and!; [done|lia|done].
Qed.

Lemma reservoir_snoc n predicate rcs rc ds d :
  Forall (fun rc => admissible predicate rc = true) (rcs ++ [rc]) -> (n <= length rcs)%nat ->
  ds ∈ all_draws n (length rcs - n) ->
  reservoir n predicate (rcs ++ [rc]) (ds ++ [d]) =
  if decide (d < n)%nat then <[d := Some rc]> (reservoir n predicate rcs ds)
  else reservoir n predicate rcs ds.
Proof.
  intros [Hr Hrc]%Forall_app Hn Hds. rewrite Forall_singleton in Hrc.
  pose proof (all_draws_bound _ _ _ Hds) as [Hl _].
  destruct (reservoir_spec n predicate rcs ds Hr Hn Hds) as (l & E & _).
  unfold reservoir. rewrite sample_loop_app.
  rewrite (sample_loop_ext n predicate (draw_from n (ds ++ [d])) (draw_from n ds)), E.
  - cbn [sample_loop]. rewrite Hrc. cbn [negb].
    unfold draw_from. rewrite !(decide_False (P := (length rcs < n)%nat)) by lia.
    rewrite app_nth2 by lia. rewrite Hl, Nat.sub_diag. simpl. by case_decide.
  - intros b Hb. unfold draw_from. case_decide; [done|]. rewrite app_nth1 by lia. done.
Qed.

Lemma length_filter_bind {A B} (P : B -> Prop) `{!forall x, Decision (P x)} (f : A -> list B) l :
  length (filter P (l ≫= f)) = sum_list_with (fun x => length (filter P (f x))) l.
Proof. induction l as [|x l IH]; [done|]. by rewrite bind_cons, filter_app, length_app, IH. Qed.

Lemma sum_list_with_if {A} (Q : A -> Prop) `{!forall x, Decision (Q x)} (f : A -> nat) c l :
  (forall x, x ∈ l -> f x = if decide (Q x) then c else 0%nat) ->
  sum_list_with f l = (c * length (filter Q l))%nat.
Proof.
  induction l as [|x l IH]; intros Hf; [simpl; lia|]. simpl. rewrite IH by set_solver.
  rewrite (Hf x) by set_solver. rewrite filter_cons. case_decide; simpl; lia.
Qed.

Lemma filter_seq_ne p m : (p < m)%nat -> length (filter (fun d => d <> p) (seq 0 m)) = (m - 1)%nat.
Proof.
  intros Hp. assert (seq 0 m = seq 0 p ++ p :: seq (S p) (m - S p)) as ->.
  { replace m with (p + S (m - S p))%nat at 1 by lia. by rewrite seq_app. }
  rewrite filter_app, filter_cons_False by auto.
  rewrite !filter_all, length_app, !length_seq; [lia|..]; intros d Hd%elem_of_seq; lia.
Qed.

Lemma filter_seq_lt n m : (n <= m)%nat -> length (filter (fun d => d < n)%nat (seq 0 m)) = n.
Proof.
  intros Hn. assert (seq 0 m = seq 0 n ++ seq n (m - n)) as ->.
  { replace m with (n + (m - n))%nat at 1 by lia. by rewrite seq_app. }
  rewrite filter_app, filter_all, length_app, length_seq by (intros d Hd%elem_of_seq; lia).
  assert (filter (fun d => d < n)%nat (seq n (m - n)) = []) as ->; [|simpl; lia].
  apply filter_none. intros d Hd%elem_of_seq. lia.
Qed.

Lemma length_all_draws_S n k : length (all_draws n (S k)) = (S (n + k) * length (all_draws n k))%nat.
Proof.
  cbn [all_draws]. induction (all_draws n k) as [|ds l IH]; [simpl; lia|].
  rewrite bind_cons, length_app, IH, length_fmap, length_seq. simpl. lia.
Qed.

Lemma length_filter_fmap {A B} (P : B -> Prop) `{!forall x, Decision (P x)} (f : A -> B) l :
  length (filter P (f <$> l)) = length (filter (fun x => P (f x)) l).
Proof. induction l as [|x l IH]; [done|]. rewrite fmap_cons, !filter_cons. case_decide; simpl; lia. Qed.

Lemma submseteq_NoDup {A} (l k : list A) : l ⊆+ k -> NoDup k -> NoDup l.
Proof. intros [k' Hk]%submseteq_Permutation. rewrite Hk. by intros [? _]%NoDup_app. Qed.

Lemma filter_seq_iff (P : nat -> Prop) `{!forall x, Decision (P x)} (Q : nat -> Prop)
    `{!forall x, Decision (Q x)} m :
  (forall d, P d <-> Q d) -> length (filter P (seq 0 m)) = length (filter Q (seq 0 m)).
Proof. intros HPQ. f_equal. by apply list_filter_iff. Qed.

(** Counting over the last draw, for a reservoir [l]. *)
Definition replaced (n : nat) (l : list (option RelayContact)) (x : RelayContact) (d : nat) :=
  if decide (d < n)%nat then <[d := Some x]> l else l.

Lemma replaced_old n l x rc m :
  length l = n -> NoDup l -> rc <> x -> (n <= m)%nat ->
  length (filter (fun d => Some rc ∈ replaced n (Some <$> l) x d) (seq 0 (S m)))
  = if decide (rc ∈ l) then m else 0%nat.
Proof.
  intros Hl Hnd Hx Hm. unfold replaced. case_decide as Hin.
  - apply list_elem_of_lookup in Hin as [p Hp]. pose proof (lookup_lt_Some _ _ _ Hp).
    rewrite (filter_seq_iff _ (fun d => d <> p)); [rewrite filter_seq_ne; lia|].
    intros d. case_decide; [|split; [lia|]; intros _; apply list_elem_of_fmap_2, list_elem_of_lookup; eauto].
    rewrite <-list_fmap_insert, list_elem_of_fmap. split.
    + intros (y & [= <-] & [q Hq]%list_elem_of_lookup) ->.
      apply list_lookup_insert_Some in Hq as [(-> & -> & _)|[Hne Hq]]; [done|].
      apply Hne. by eapply NoDup_lookup.
    + intros Hd. exists rc. split; [done|]. apply list_elem_of_lookup. exists p.
      by rewrite list_lookup_insert_ne.
  - rewrite filter_none; [done|]. intros d _. case_decide.
    + rewrite <-list_fmap_insert, list_elem_of_fmap. intros (y & [= <-] & Hy).
      apply Hin. apply list_elem_of_lookup in Hy as [q Hq].
      apply list_lookup_insert_Some in Hq as [(-> & -> & _)|[Hne Hq]]; [done|].
      apply list_elem_of_lookup. eauto.
    + rewrite list_elem_of_fmap. naive_solver.
Qed.

Lemma replaced_new n l x m :
  length l = n -> x ∉ l -> (n <= m)%nat ->
  length (filter (fun d => Some x ∈ replaced n (Some <$> l) x d) (seq 0 (S m))) = n.
Proof.
  intros Hl Hx Hm. unfold replaced.
  rewrite (filter_seq_iff _ (fun d => d < n)%nat); [rewrite filter_seq_lt; lia|].
  intros d. case_decide.
  - split; [done|]. intros _. apply list_elem_of_insert. by rewrite length_fmap, Hl.
  - rewrite list_elem_of_fmap. naive_solver.
Qed.

Lemma times_selected_snoc n predicate rcs rc x :
  Forall (fun rc => admissible predicate rc = true) (rcs ++ [x]) -> NoDup (rcs ++ [x]) ->
  (n <= length rcs)%nat ->
  times_selected n predicate (rcs ++ [x]) rc =
  if decide (rc = x) then (n * length (all_draws n (length rcs - n)))%nat
  else (length rcs * times_selected n predicate rcs rc)%nat.
Proof.
  intros Hadm Hnd Hn. unfold times_selected.
  replace (length (rcs ++ [x]) - n)%nat with (S (length rcs - n)) by (rewrite length_app; simpl; lia).
  cbn [all_draws]. rewrite length_filter_bind.
  replace (n + (length rcs - n))%nat with (length rcs) by lia.
  assert (forall ds, ds ∈ all_draws n (length rcs - n) -> exists l,
    length l = n /\ l ⊆+ rcs /\ reservoir n predicate rcs ds = Some <$> l /\
    length (filter (fun ds => Some rc ∈ reservoir n predicate (rcs ++ [x]) ds)
      ((fun d => ds ++ [d]) <$> seq 0 (S (length rcs)))) =
    length (filter (fun d => Some rc ∈ replaced n (Some <$> l) x d) (seq 0 (S (length rcs))))) as Hr.
  { intros ds Hds. destruct (reservoir_spec n predicate rcs ds) as (l & E & Hl & Hsub);
      [by apply Forall_app in Hadm as [? _]|done|done|].
    assert (reservoir n predicate rcs ds = Some <$> l) as ER by (unfold reservoir; by rewrite E).
    exists l. split_and!; try done. rewrite length_filter_fmap. apply filter_seq_iff.
    intros d. by rewrite reservoir_snoc, ER by done. }
  apply NoDup_app in Hnd as (Hnd & Hx & _). case_decide as Ex.
  - subst. transitivity (n * length (filter (fun _ => True) (all_draws n (length rcs - n))))%nat;
      [|by rewrite filter_all].
    apply sum_list_with_if. intros ds Hds. destruct (Hr ds Hds) as (l & Hl & Hsub & _ & ->).
    rewrite decide_True by done. apply replaced_new; [done| |done].
    intros Hin. eapply Hx; [by eapply elem_of_submseteq|by apply list_elem_of_singleton].
  - apply sum_list_with_if. intros ds Hds. destruct (Hr ds Hds) as (l & Hl & Hsub & -> & ->).
    rewrite replaced_old by (try done; by eapply submseteq_NoDup).
    apply decide_ext. rewrite list_elem_of_fmap. naive_solver.
Qed.

Lemma times_selected_uniform n predicate rcs rc :
  Forall (fun rc => admissible predicate rc = true) rcs -> NoDup rcs ->
  (n <= length rcs)%nat -> rc ∈ rcs ->
  (length rcs * times_selected n predicate rcs rc = n * length (all_draws n (length rcs - n)))%nat.
Proof.
  induction rcs as [|x rcs IH] using rev_ind; intros Hadm Hnd Hn Hin; [by apply elem_of_nil in Hin|].
  pose proof (length_app rcs [x]) as Hlen. simpl in Hlen.
  destruct (decide (n <= length rcs)%nat) as [Hn'|].
  - replace (length (rcs ++ [x]) - n)%nat with (S (length rcs - n)) by lia.
    rewrite length_all_draws_S, times_selected_snoc by done.
    replace (n + (length rcs - n))%nat with (length rcs) by lia. case_decide; [nia|].
    assert (rc ∈ rcs) as Hin' by set_solver.
    apply Forall_app in Hadm as [? _]. apply NoDup_app in Hnd as (? & _ & _).
    specialize (IH ltac:(done) ltac:(done) Hn' Hin'). rewrite Hlen. nia.
  - assert (length (rcs ++ [x]) = n) as E by lia.
    destruct (reservoir_spec n predicate (rcs ++ [x]) []) as (l & El & Hl & Hsub);
      [done..|rewrite E, Nat.sub_diag; by apply list_elem_of_singleton|].
    unfold times_selected. rewrite E, Nat.sub_diag. cbn [all_draws].
    rewrite filter_all; [done|]. intros ds ->%list_elem_of_singleton.
    unfold reservoir. rewrite El. apply list_elem_of_fmap_2.
    assert (l ≡ₚ rcs ++ [x]) as -> by (apply submseteq_length_Permutation; [done|lia]). done.
Qed.

Lemma sample_loop_filter n predicate draw rcs rand a :
  sample_loop n predicate draw rcs rand a =
  sample_loop n predicate draw (filter (admissible predicate) rcs) rand a.
Proof.
  revert rand a. induction rcs as [|rc rcs IH]; intros rand a; [done|]. cbn [sample_loop].
  destruct (admissible predicate rc) eqn:Ha; simpl negb.
  - rewrite filter_cons_True by by rewrite Ha. cbn [sample_loop]. rewrite Ha. apply IH.
  - rewrite filter_cons_False by (rewrite Ha; auto). apply IH.
Qed.

(** Whether [sample_rcs] selects [rc] with the draws [ds]. *)
Definition selects (rcs : list RelayContact) (n : nat) (predicate : option (RelayContact -> bool))
    (rc : RelayContact) (ds : list nat) : bool :=
  match sample_rcs rcs (Z.of_nat n) predicate (draw_from n ds) id false with
  | Ok r => bool_decide (Some rc ∈ r)
  | Throw _ => false
  end.

Lemma selects_reservoir rcs n predicate rc ds :
  (n <= length (filter (admissible predicate) rcs))%nat ->
  ds ∈ all_draws n (length (filter (admissible predicate) rcs) - n) ->
  selects rcs n predicate rc ds = true <->
  Some rc ∈ reservoir n predicate (filter (admissible predicate) rcs) ds.
Proof.
  intros Hn Hds. unfold selects, sample_rcs, reservoir.
  rewrite (proj2 (Z.ltb_ge _ 0)) by lia. rewrite Nat2Z.id, sample_loop_filter.
  destruct (reservoir_spec n predicate (filter (admissible predicate) rcs) ds) as (l & -> & _);
    [|done..|].
  - apply Forall_forall. intros x [Hx _]%list_elem_of_filter. by apply Is_true_eq_true.
  - simpl. rewrite decide_False by lia. apply bool_decide_eq_true.
Qed.
End Sampling.

(** [sample_rcs] returns, for any draws its generator can make, as many
    distinct entries of the table as were asked for (all of them when there are
    fewer), each one unexpired, not blacklisted (or, on a relay, not ourselves)
    and passing the predicate, and never a null pointer. *)
Theorem sample_rcs_sound env now rcs n predicate draw shuf shuffle :
  0 <= n -> (forall a, (draw a <= a)%nat) -> (forall l, shuf l ≡ₚ l) ->
  exists r l, sample_rcs env now rcs n predicate draw shuf shuffle = Ok r
    /\ r ≡ₚ Some <$> l
    /\ length l = (Z.to_nat n `min` length (filter (admissible env now predicate) rcs))%nat
    /\ l ⊆+ rcs
    /\ Forall (fun rc => rc_is_expired rc now = false
         /\ (is_service_node env = false -> rc_router_id rc ∉ snode_blacklist env)
         /\ (is_service_node env = true -> rc_router_id rc <> self_id env)
         /\ (forall p, predicate = Some p -> p rc = true)) l.
Proof.
  intros Hn Hd Hs.
  destruct (sample_rcs_ok env now rcs n predicate draw shuf shuffle Hn Hd Hs) as (r & l & E & Hr & Hl & Hsub).
  exists r, l. split_and!; try done.
  { etrans; [done|]. apply sublist_submseteq, sublist_filter. }
  apply Forall_forall. intros rc Hin. eapply elem_of_submseteq in Hin; [|done].
  apply list_elem_of_filter in Hin as [Ha%Is_true_eq_true _]. unfold admissible in Ha.
  destruct (rc_is_expired rc now); [done|]. destruct (is_service_node env); simpl in *;
    case_bool_decide; try done; split_and!; intros; try done; by subst.
Qed.

(** Sampling is uniform: over all the sequences of draws of one run, each of
    the [N] admissible RCs is selected by the fraction [n / N] of them. *)
Theorem sample_rcs_uniform env now rcs n predicate rc :
  NoDup rcs -> (n <= length (filter (admissible env now predicate) rcs))%nat ->
  rc ∈ filter (admissible env now predicate) rcs ->
  let N := length (filter (admissible env now predicate) rcs) in
  (N * length (filter (selects env now rcs n predicate rc) (all_draws n (N - n)))
   = n * length (all_draws n (N - n)))%nat.
Proof.
  intros Hnd Hn Hrc N. subst N.
  rewrite <-(times_selected_uniform env now n predicate _ rc); [| |by apply NoDup_filter|done..].
  - f_equal. unfold times_selected. f_equal. apply filter_iff_in.
    intros ds Hds. rewrite <-(selects_reservoir env now rcs n predicate rc ds Hn Hds). apply Is_true_true.
  - apply Forall_forall. intros x [Hx _]%list_elem_of_filter. by apply Is_true_eq_true.
Qed.

(** A concrete table of three RCs, one of them expired. *)
Module SampleDemo.
Definition env : RouterEnv := mkEnv false [] {[ [7] ]} ∅.
Definition rc (k ts : Z) : RelayContact := mkRC [k] (Addr4 [] []) None ts 0 [] [].
Definition rcs : list RelayContact := [rc 1 3000000; rc 2 0; rc 3 3000000; rc 4 3000000].
Definition now : Z := 3000000000.
End SampleDemo.

Lemma sample_rcs_sound_witness :
  exists r, sample_rcs SampleDemo.env SampleDemo.now SampleDemo.rcs 2 None (fun a => 0%nat) reverse true = Ok r
    /\ length r = 2%nat.
Proof.
  destruct (sample_rcs_sound SampleDemo.env SampleDemo.now SampleDemo.rcs 2 None (fun a => 0%nat) reverse true)
    as (r & l & E & Hr & Hl & _).
  - lia.
  - lia.
  - intros l. apply reverse_Permutation.
  - exists r. split; [exact E|]. rewrite Hr, length_fmap, Hl. vm_compute. reflexivity.
Defined.

Lemma sample_rcs_uniform_witness :
  (3 * length (filter (selects SampleDemo.env SampleDemo.now SampleDemo.rcs 2 None (SampleDemo.rc 3 3000000))
    (all_draws 2 1)) = 2 * length (all_draws 2 1))%nat.
Proof.
  apply (sample_rcs_uniform SampleDemo.env SampleDemo.now SampleDemo.rcs 2 None (SampleDemo.rc 3 3000000)).
  - apply (bool_decide_unpack _). vm_compute. exact I.
  - apply (bool_decide_unpack _). vm_compute. exact I.
  - apply (bool_decide_unpack _). vm_compute. exact I.
Defined.

(** ** Registered relays *)

Definition has_registered_relays (registered : gset bytes) : bool := negb (bool_decide (registered = ∅)).

Definition is_registered (registered : gset bytes) (relay : bytes) : bool := bool_decide (relay ∈ registered).

(** [set_registered_relays]: an empty list is ignored. *)
Definition set_registered_relays (registered relays : gset bytes) : gset bytes :=
  if bool_decide (relays = ∅) then registered else relays.

Definition load_registered_relays_fallback (registered : gset bytes)
    (known_rcs : gmap bytes RelayContact) (now : Z) : gset bytes :=
  if bool_decide (registered <> ∅) then registered
  else registered ∪ dom (filter (fun kv => rc_is_expired kv.2 now = false) known_rcs).

(** [get_random_registered_relay]: the element [draw] steps after the first of
    the set in iteration order; [draw] is drawn from the closed interval
    [0, size]. *)
Definition get_random_registered_relay (order : list bytes) (draw : nat) : option (deref bytes) :=
  match order with
  | [] => None
  | _ => Some (match order !! draw with Some r => Value r | None => Undefined end)
  end.

Definition random_registered_range (order : list bytes) : nat * nat := (0%nat, length order).

(** [num_rids] *)
Definition num_rids (env : RouterEnv) (registered known_rids : gset bytes) : Z :=
  if is_service_node env then Z.of_nat (size registered) else Z.of_nat (size known_rids).

(** ** The relays closest to a blinded key *)

(** [xor_condense] on a little-endian host: the buffer as four uint64_t. *)
Definition xor_condense (x : bytes) : Z :=
  let y i := le_value (take 8 (drop (8 * i) x)) in
  Z.lxor (Z.lxor (Z.lxor (y 0%nat) (y 1%nat)) (y 2%nat)) (y 3%nat).

(** [PublishLocationMetric::operator()] *)
Definition metric_less (pk_xor : Z) (left right : bytes) : bool :=
  let l := Z.lxor (xor_condense left) pk_xor in
  let r := Z.lxor (xor_condense right) pk_xor in
  (l <? r) || ((l =? r) && bytes_ltb left right).

(** [partial_sort] to [n] elements followed by [resize(n)]: the first [n]
    elements in order.  [order] is the iteration order of the registered set. *)
Definition metric_le (pk_xor : Z) (a b : bytes) : Prop := metric_less pk_xor b a = false.

#[export] Instance metric_le_dec pk_xor a b : Decision (metric_le pk_xor a b).
Proof. unfold metric_le. apply _. Defined.

Definition find_many_closest_to (order : list bytes) (blinded_pk : bytes) (num_routers : Z) : list bytes :=
  if num_routers <=? 0 then []
  else
    let num_routers := Z.min num_routers (Z.of_nat (length order)) in
    take (Z.to_nat num_routers) (merge_sort (metric_le (xor_condense blinded_pk)) order).

Lemma bytes_ltb_trans a b c : bytes_ltb a b = true -> bytes_ltb b c = true -> bytes_ltb a c = true.
Proof.
  revert b c. induction a as [|x a IH]; intros [|y b] [|z c]; simpl; try done.
  intros [?|[? ?]%andb_prop]%orb_prop [?|[? ?]%andb_prop]%orb_prop; apply orb_true_iff;
    [left; lia..|right]. apply andb_true_intro. split; [lia|]. by eapply IH.
Qed.

Lemma bytes_ltb_total a b : bytes_ltb a b = true \/ a = b \/ bytes_ltb b a = true.
Proof.
  revert b. induction a as [|x a IH]; intros [|y b]; simpl; auto.
  destruct (Z.ltb_spec x y), (Z.ltb_spec y x), (Z.eqb_spec x y), (Z.eqb_spec y x);
    simpl; auto; try lia. subst. destruct (IH b) as [?|[->|?]]; auto.
Qed.

Section Metric.
Context (pk_xor : Z).

Lemma metric_less_spec a b :
  metric_less pk_xor a b = true <->
  Z.lxor (xor_condense a) pk_xor < Z.lxor (xor_condense b) pk_xor
  \/ Z.lxor (xor_condense a) pk_xor = Z.lxor (xor_condense b) pk_xor /\ bytes_ltb a b = true.
Proof. unfold metric_less. rewrite orb_true_iff, andb_true_iff, Z.ltb_lt, Z.eqb_eq. done. Qed.

Lemma metric_total a b : metric_less pk_xor a b = true \/ a = b \/ metric_less pk_xor b a = true.
Proof.
  rewrite !metric_less_spec. destruct (bytes_ltb_total a b) as [?|[?|?]];
    destruct (Z.lt_trichotomy (Z.lxor (xor_condense a) pk_xor) (Z.lxor (xor_condense b) pk_xor))
      as [?|[?|?]]; auto.
Qed.

Lemma metric_less_irrefl a : metric_less pk_xor a a = false.
Proof. apply not_true_iff_false. rewrite metric_less_spec, bytes_ltb_irrefl. lia. Qed.

Lemma metric_less_trans a b c :
  metric_less pk_xor a b = true -> metric_less pk_xor b c = true -> metric_less pk_xor a c = true.
Proof.
  rewrite !metric_less_spec. pose proof (bytes_ltb_trans a b c). intros [?|[? ?]] [?|[? ?]]; [left; lia..|right]. split; [lia|auto].
Qed.

#[export] Instance metric_le_total : Total (metric_le pk_xor).
Proof.
  intros a b. unfold metric_le. destruct (metric_less pk_xor b a) eqn:E1; [|auto]. right.
  destruct (metric_less pk_xor a b) eqn:E2; [|done].
  pose proof (metric_less_trans _ _ _ E1 E2). by rewrite metric_less_irrefl in *.
Qed.

#[export] Instance metric_le_trans : Transitive (metric_le pk_xor).
Proof.
  intros a b c. unfold metric_le. intros Hba Hcb. apply not_true_iff_false. intros Hca.
  destruct (metric_total b c) as [Hbc|[->|Hbc]]; try congruence.
  pose proof (metric_less_trans _ _ _ Hbc Hca). congruence.
Qed.

#[export] Instance metric_le_antisymm : AntiSymm (=) (metric_le pk_xor).
Proof. intros a b. unfold metric_le. destruct (metric_total a b) as [?|[?|?]]; congruence. Qed.
End Metric.

Lemma StronglySorted_lookup {A} (R : relation A) (l : list A) i j a b :
  StronglySorted R l -> (i < j)%nat -> l !! i = Some a -> l !! j = Some b -> R a b.
Proof.
  intros Hs Hij Ha Hb. rewrite <-(take_drop j l) in Hs.
  eapply StronglySorted_app_1_elem_of; [done| |].
  - apply list_elem_of_lookup. exists i. by rewrite lookup_take_lt.
  - apply list_elem_of_lookup. exists 0%nat. by rewrite lookup_drop, Nat.add_0_r.
Qed.

Lemma find_many_closest_sorted order pk n :
  0 < n -> exists rest,
    merge_sort (metric_le (xor_condense pk)) order = find_many_closest_to order pk n ++ rest
    /\ length (find_many_closest_to order pk n) = (Z.to_nat n `min` length order)%nat.
Proof.
  intros Hn. unfold find_many_closest_to. rewrite (proj2 (Z.leb_gt n 0)) by lia.
  eexists. split; [by rewrite take_drop|].
  rewrite length_take. pose proof (merge_sort_Permutation (metric_le (xor_condense pk)) order) as Hp.
  rewrite Hp. lia.
Qed.

(** [find_many_closest_to] returns the requested number of distinct
    registered relays, in increasing distance from the key, and every registered
    relay left out is farther than each one returned. *)
Theorem find_many_closest_spec order pk n :
  NoDup order -> 0 < n ->
  let r := find_many_closest_to order pk n in
  length r = (Z.to_nat n `min` length order)%nat /\ NoDup r
  /\ (forall i j a b, (i < j)%nat -> r !! i = Some a -> r !! j = Some b ->
        metric_less (xor_condense pk) a b = true)
  /\ (forall x, x ∈ r -> x ∈ order)
  /\ (forall x y, x ∈ r -> y ∈ order -> y ∉ r -> metric_less (xor_condense pk) x y = true).
Proof.
  intros Hnd Hn r. subst r.
  destruct (find_many_closest_sorted order pk n Hn) as (rest & E & Hl).
  set (r := find_many_closest_to order pk n) in *.
  pose proof (merge_sort_Permutation (metric_le (xor_condense pk)) order) as Hp. rewrite E in Hp.
  pose proof (StronglySorted_merge_sort (metric_le (xor_condense pk)) order) as Hs. rewrite E in Hs.
  rewrite <-Hp in Hnd. pose proof Hnd as (Hr & Hdisj & _)%NoDup_app.
  split_and!; [done|done|..].
  - intros i j a b Hij Ha Hb. assert (a <> b) by (intros <-; assert (i = j) by (by eapply NoDup_lookup); lia).
    destruct (metric_total (xor_condense pk) a b) as [?|[?|Hba]]; [done..|].
    apply StronglySorted_app_1_l in Hs. pose proof (StronglySorted_lookup _ _ _ _ _ _ Hs Hij Ha Hb) as Hle.
    unfold metric_le in Hle. congruence.
  - intros x Hx. rewrite <-Hp. set_solver.
  - intros x y Hx Hy Hny. rewrite <-Hp in Hy. apply elem_of_app in Hy as [?|Hy]; [done|].
    destruct (metric_total (xor_condense pk) x y) as [?|[?|Hyx]]; [done|by subst|].
    pose proof (StronglySorted_app_1_elem_of _ _ _ _ _ Hs Hx Hy) as Hle. unfold metric_le in Hle. congruence.
Qed.

Lemma find_many_closest_spec_witness :
  length (find_many_closest_to [[1]; [2]; [3]] [2] 2) = 2%nat.
Proof.
  apply (find_many_closest_spec [[1]; [2]; [3]] [2] 2).
  - apply (bool_decide_unpack _). vm_compute. exact I.
  - lia.
Defined.

(** Every node with the same set of registered relays computes the same list
    of closest relays, whatever the iteration order of its hash table, and a
    longer list extends a shorter one. *)
Theorem find_many_closest_agree order order' pk n m :
  order ≡ₚ order' -> 0 < n <= m ->
  find_many_closest_to order pk n `prefix_of` find_many_closest_to order' pk m.
Proof.
  intros Hp Hn. unfold find_many_closest_to.
  rewrite (proj2 (Z.leb_gt n 0)), (proj2 (Z.leb_gt m 0)) by lia.
  assert (merge_sort (metric_le (xor_condense pk)) order = merge_sort (metric_le (xor_condense pk)) order') as ->.
  { apply (StronglySorted_unique (metric_le (xor_condense pk))); [apply StronglySorted_merge_sort..|];
      try apply _. rewrite !merge_sort_Permutation. done. }
  rewrite (Permutation_length Hp). set (l := merge_sort _ _).
  set (i := Z.to_nat (Z.min n _)). set (j := Z.to_nat (Z.min m _)).
  assert (i <= j)%nat by lia. exists (drop i (take j l)).
  rewrite <-(take_drop i (take j l)) at 1. by rewrite take_take, Nat.min_l.
Qed.

Lemma find_many_closest_agree_witness :
  find_many_closest_to [[1]; [2]; [3]] [2] 1 `prefix_of` find_many_closest_to [[3]; [2]; [1]] [2] 3.
Proof.
  apply (find_many_closest_agree [[1]; [2]; [3]] [[3]; [2]; [1]] [2] 1 3).
  - apply (reverse_Permutation [[3]; [2]; [1]]).
  - lia.
Defined.

(** The interval [get_random_registered_relay] draws from includes the size of
    the set: for that draw it dereferences the end iterator. *)
Lemma random_registered_past_end order :
  order <> [] ->
  get_random_registered_relay order (random_registered_range order).2 = Some Undefined.
Proof.
  intros Hne. destruct order as [|r l]; [done|]. unfold get_random_registered_relay, random_registered_range.
  cbn [snd]. by rewrite lookup_ge_None_2 by lia.
Qed.

(** ** Router IDs (clients) *)
Definition RID_SOURCE_COUNT : nat := 5.
(** Milliseconds. *)
Definition FETCH_INTERVAL : Z := 5 * 60 * 1000.
Definition FETCH_RETRY_INTERVAL : Z := 30 * 1000.

(** The inbound loop of [fetch_rids] over the terminals of the active paths:
    a terminal that is already a key of [results] is not asked again. *)
Fixpoint select_inbound (active : list bytes) (selected : list bytes) : list bytes :=
  match active with
  | [] => selected
  | t :: active =>
      if bool_decide (RID_SOURCE_COUNT <= length selected)%nat then selected
      else if bool_decide (t ∈ selected) then select_inbound active selected
      else select_inbound active (selected ++ [t])
  end.

(** What [fetch_rids] does: nothing, a retry in 100ms, or requests to the
    selected terminals; the keys of [results] are the selected terminals. *)
Inductive RidFetch : Type :=
| RidStopped
| RidRetry
| RidAsk (selected : list bytes) (inbound_sources : gset bytes).

Definition fetch_rids (stopping running : bool) (active extra_shuffled : list bytes) : RidFetch :=
  if stopping || negb running then RidStopped
  else
    let inbound := select_inbound active [] in
    if bool_decide (inbound = []) then RidRetry
    else
      let selected := if bool_decide (length inbound < RID_SOURCE_COUNT)%nat
                      then select_inbound extra_shuffled inbound else inbound in
      RidAsk selected (list_to_set inbound).

(** The count of the sources that affirm [rid] and whether one of them is inbound. *)
Definition count_agree (results : list (bytes * gset bytes)) (inbound_sources : gset bytes) (rid : bytes)
    : nat * bool :=
  foldl (fun '(agree, inbound_agrees) '(other, other_rids) =>
    if bool_decide (rid ∈ other_rids)
    then (S agree, inbound_agrees || bool_decide (other ∈ inbound_sources))
    else (agree, inbound_agrees)) (0%nat, false) results.

Definition consider_rid (results : list (bytes * gset bytes)) (inbound_sources : gset bytes) (needed : nat)
    (accepted : gset bytes) (rid : bytes) : gset bytes :=
  if bool_decide (rid ∈ accepted) then accepted
  else
    let '(agree, inbound_agrees) := count_agree results inbound_sources rid in
    if bool_decide (agree < needed)%nat then accepted
    else if negb inbound_agrees then accepted
    else {[rid]} ∪ accepted.

(** [handle_fetched_router_ids] for the results in iteration order: the new
    [known_rids] and whether the round was conclusive (and [fetch_rcs] called). *)
Definition handle_fetched_router_ids (set_order : gset bytes -> list bytes) (known_rids : gset bytes)
    (results : list (bytes * gset bytes)) (inbound_sources : gset bytes) : gset bytes * bool :=
  let needed := (length results / 2 + 1)%nat in
  let accepted :=
    foldl (fun accepted '(_, rids) =>
      foldl (consider_rid results inbound_sources needed) accepted (set_order rids)) ∅ results in
  if bool_decide (accepted = ∅) then (known_rids, false) else (accepted, true).

(** The interval before the next round. *)
Definition next_rid_fetch (conclusive : bool) : Z :=
  if conclusive then FETCH_INTERVAL else FETCH_RETRY_INTERVAL.

(** [fetch_rids]' per-request callback: the answers so far and their count. *)
Record RidRound := mkRound {
  rr_results : gmap bytes (gset bytes);
  rr_count : nat;
}.

Definition new_round (selected : list bytes) : RidRound :=
  mkRound (list_to_map ((fun t => (t, ∅)) <$> selected)) 0.

(** The body of a [fetch_rids] answer: a list of 32-byte strings under "r". *)
Definition parse_rid (v : btval) : option bytes :=
  match v with
  | BStr s => if decide (length s = 32%nat) then Some s else None
  | _ => None
  end.

Definition parse_rids `{Oxenc} (body : bytes) : outcome string (gset bytes) :=
  let! btdc := or_throw "not a dict"%string (bt_dict_open body) in
  let! (v, _) := or_throw "r"%string (bt_require (str "r") btdc) in
  match v with
  | BList l => let! rids := or_throw "not a router ID"%string (mapM parse_rid l) in
               Ok (list_to_set rids)
  | _ => Throw "not a list"%string
  end.

(** [None]: the request failed or timed out. *)
Definition rid_answer `{Oxenc} (resp : option bytes) : gset bytes :=
  match resp with
  | Some body => match parse_rids body with Ok rids => rids | Throw _ => ∅ end
  | None => ∅
  end.

Section RidCallback.
Context `{Oxenc}.
Context (map_order : gmap bytes (gset bytes) -> list (bytes * gset bytes)).
Context (set_order : gset bytes -> list bytes).

(** The result carries the new [known_rids], and the time to the next round,
    when the last answer is in. *)
Definition result_cb (known_rids inbound_sources : gset bytes) (round : RidRound)
    (source : bytes) (resp : option bytes) : RidRound * option (gset bytes * bool * Z) :=
  let results := <[source := rid_answer resp]> (rr_results round) in
  let round := mkRound results (S (rr_count round)) in
  (round,
   if bool_decide (rr_count round = size results)
   then let '(rids, conclusive) := handle_fetched_router_ids set_order known_rids (map_order results) inbound_sources in
        Some (rids, conclusive, next_rid_fetch conclusive)
   else None).

Fixpoint run_callbacks (known_rids inbound_sources : gset bytes) (round : RidRound)
    (resps : list (bytes * option bytes)) : list (option (gset bytes * bool * Z)) :=
  match resps with
  | [] => []
  | (source, resp) :: resps =>
      let '(round, o) := result_cb known_rids inbound_sources round source resp in
      o :: run_callbacks known_rids inbound_sources round resps
  end.
End RidCallback.

(** The sources that affirm [rid]. *)
Definition affirming (results : list (bytes * gset bytes)) (rid : bytes) : list bytes :=
  (filter (fun kv => rid ∈ kv.2) results).*1.

Lemma affirming_sublist results rid : affirming results rid `sublist_of` results.*1.
Proof. apply filter_fst_sublist. Qed.

Lemma count_agree_spec results inbound rid :
  (count_agree results inbound rid).1 = length (affirming results rid)
  /\ ((count_agree results inbound rid).2 = true <->
      exists source, source ∈ affirming results rid /\ source ∈ inbound).
Proof.
  unfold count_agree, affirming.
  assert (forall n b, let r := foldl (fun '(agree, inbound_agrees) '(other, other_rids) =>
    if bool_decide (rid ∈ other_rids)
    then (S agree, inbound_agrees || bool_decide (other ∈ inbound))
    else (agree, inbound_agrees)) (n, b) results in
    r.1 = (n + length (filter (fun kv => rid ∈ kv.2) results).*1)%nat
    /\ (r.2 = true <-> b = true \/ exists source, source ∈ (filter (fun kv => rid ∈ kv.2) results).*1
         /\ source ∈ inbound)) as Hg.
  { induction results as [|[k rids] results IH]; intros n b; cbn [foldl].
    - rewrite filter_nil. simpl. split; [lia|]. set_solver.
    - rewrite filter_cons. cbn [snd]. case_bool_decide; rewrite ?decide_True, ?decide_False by done.
      + destruct (IH (S n) (b || bool_decide (k ∈ inbound))) as [-> ->].
        rewrite fmap_cons, orb_true_iff, bool_decide_eq_true. cbn [fst length].
        split; [lia|]. setoid_rewrite elem_of_cons. naive_solver.
      + apply IH. }
  destruct (Hg 0%nat false) as [-> Hb]. split; [done|]. rewrite Hb. naive_solver.
Qed.

Lemma consider_rid_spec results inbound needed accepted rid x :
  x ∈ consider_rid results inbound needed accepted rid <->
  x ∈ accepted \/ x = rid /\ (needed <= length (affirming results rid))%nat
    /\ exists source, source ∈ affirming results rid /\ source ∈ inbound.
Proof.
  unfold consider_rid. destruct (count_agree_spec results inbound rid) as [Hc Hi].
  case_bool_decide; [set_solver|]. destruct (count_agree results inbound rid) as [agree ib]. simpl in *.
  case_bool_decide; [naive_solver lia|]. destruct ib; simpl; [|naive_solver].
  rewrite elem_of_union, elem_of_singleton. split; [|naive_solver].
  intros [->|?]; [right; split_and!; [done|lia|by apply Hi]|auto].
Qed.

(** The accepted router IDs: a strict majority of the sources, one of them inbound. *)
Definition rid_accepted (results : list (bytes * gset bytes)) (inbound : gset bytes) (rid : bytes) : Prop :=
  (length results / 2 + 1 <= length (affirming results rid))%nat
  /\ exists source, source ∈ affirming results rid /\ source ∈ inbound.

Lemma consider_all_spec results inbound needed l accepted x :
  x ∈ foldl (consider_rid results inbound needed) accepted l <->
  x ∈ accepted \/ x ∈ l /\ (needed <= length (affirming results x))%nat
    /\ exists source, source ∈ affirming results x /\ source ∈ inbound.
Proof.
  revert accepted. induction l as [|rid l IH]; intros accepted; cbn [foldl]; [set_solver|].
  rewrite IH, consider_rid_spec, elem_of_cons. naive_solver.
Qed.

Lemma handle_fetched_loop (set_order : gset bytes -> list bytes)
    (results todo : list (bytes * gset bytes)) (inbound : gset bytes) (needed : nat) (accepted : gset bytes) (x : bytes) :
  (forall s y, y ∈ set_order s <-> y ∈ s) ->
  x ∈ foldl (fun accepted '(_, rids) =>
    foldl (consider_rid results inbound needed) accepted (set_order rids)) accepted todo <->
  x ∈ accepted \/ (exists kv, kv ∈ todo /\ x ∈ kv.2) /\ (needed <= length (affirming results x))%nat
    /\ exists source, source ∈ affirming results x /\ source ∈ inbound.
Proof.
  intros Hso. revert accepted. induction todo as [|[k rids] todo IH]; intros accepted; cbn [foldl].
  { split; [auto|]. intros [?|[(kv & Hkv & _) _]]; [done|]. by apply elem_of_nil in Hkv. }
  rewrite IH, consider_all_spec, Hso. setoid_rewrite elem_of_cons. split.
  - intros [[?|(?&?&?)]|((kv&?&?)&?&?)]; [by left|right|right]; split_and!; eauto.
  - intros [?|((kv&[->|?]&?)&?&?)]; eauto 10.
Qed.

Lemma handle_fetched_spec (set_order : gset bytes -> list bytes) (known : gset bytes)
    (results : list (bytes * gset bytes)) (inbound : gset bytes) :
  (forall s y, y ∈ set_order s <-> y ∈ s) ->
  (exists accepted : gset bytes, handle_fetched_router_ids set_order known results inbound = (accepted, true)
     /\ accepted <> ∅ /\ forall x, x ∈ accepted <-> rid_accepted results inbound x)
  \/ (handle_fetched_router_ids set_order known results inbound = (known, false)
      /\ forall x, ~ rid_accepted results inbound x).
Proof.
  intros Hso. unfold handle_fetched_router_ids. set (acc := foldl _ ∅ results).
  assert (forall x, x ∈ acc <-> rid_accepted results inbound x) as Hacc.
  { intros x. subst acc. rewrite handle_fetched_loop by done. unfold rid_accepted. split.
    - intros [?|(_ & ? & ?)]; [set_solver|done].
    - intros (Hm & s & Hs & Hi). right. split_and!; eauto.
      apply list_elem_of_fmap in Hs as (kv & _ & [? ?]%list_elem_of_filter). eauto. }
  case_bool_decide as He.
  - right. split; [done|]. intros x Hx%Hacc. set_solver.
  - left. eauto.
Qed.

(** C20. [handle_fetched_router_ids] replaces the client's list exactly by the
    router IDs that a strict majority of the sources asked affirm, at least one
    of our inbound sources among them; when there is none it keeps the list and
    reports no consensus. *)
Theorem handle_fetched_router_ids_spec (set_order : gset bytes -> list bytes) (known : gset bytes)
    (results : list (bytes * gset bytes)) (inbound : gset bytes) :
  (forall s y, y ∈ set_order s <-> y ∈ s) ->
  let '(rids, conclusive) := handle_fetched_router_ids set_order known results inbound in
  if conclusive
  then (exists x, x ∈ rids)
       /\ forall x, x ∈ rids <->
            (length results < 2 * length (affirming results x))%nat
            /\ exists source, source ∈ affirming results x /\ source ∈ inbound
  else rids = known
       /\ forall x, ~ ((length results < 2 * length (affirming results x))%nat
            /\ exists source, source ∈ affirming results x /\ source ∈ inbound).
Proof.
  intros Hso.
  assert (forall x, rid_accepted results inbound x <->
    (length results < 2 * length (affirming results x))%nat
    /\ exists source, source ∈ affirming results x /\ source ∈ inbound) as Hacc.
  { intros x. unfold rid_accepted.
    pose proof (Nat.div_mod_eq (length results) 2). pose proof (Nat.mod_upper_bound (length results) 2).
    naive_solver lia. }
  destruct (handle_fetched_spec set_order known results inbound Hso) as [(acc & -> & Hne & Hx)|[-> Hx]].
  - split; [by apply set_choose_L|]. intros x. rewrite <-Hacc. apply Hx.
  - split; [done|]. intros x. rewrite <-Hacc. apply Hx.
Qed.

Module RidDemo.
Definition results : list (bytes * gset bytes) :=
  [([1], {[ [7]; [8] ]}); ([2], {[ [7] ]}); ([3], {[ [8] ]})].
Definition inbound : gset bytes := {[ [2] ]}.

Lemma outcome : handle_fetched_router_ids elements ∅ results inbound = ({[ [7] ]}, true).
Proof. vm_compute. reflexivity. Qed.

Lemma order (s : gset bytes) y : y ∈ elements s <-> y ∈ s.
Proof. apply elem_of_elements. Qed.
End RidDemo.

Lemma handle_fetched_router_ids_spec_witness :
  [7] ∈ ({[ [7] ]} : gset bytes) <->
    (length RidDemo.results < 2 * length (affirming RidDemo.results [7%Z]))%nat
    /\ exists source, source ∈ affirming RidDemo.results [7] /\ source ∈ RidDemo.inbound.
Proof.
  pose proof (handle_fetched_router_ids_spec elements ∅ RidDemo.results RidDemo.inbound RidDemo.order) as Hs.
  rewrite RidDemo.outcome in Hs. exact (proj2 Hs [7]).
Defined.

(** C21. Sources that collude cannot put a router ID on the client's list: what
    they affirm alone is not accepted when they are at most half of the sources
    asked, nor, however many they are, when none of them is inbound. *)
Theorem colluding_sources_rejected (set_order : gset bytes -> list bytes) (known : gset bytes)
    (results : list (bytes * gset bytes)) (inbound : gset bytes) (bad : bytes -> bool) (rid : bytes) :
  (forall s y, y ∈ set_order s <-> y ∈ s) ->
  NoDup results.*1 -> rid ∉ known ->
  (2 * length (filter bad results.*1) <= length results)%nat
    \/ (forall source, source ∈ inbound -> bad source = false) ->
  (forall source, source ∈ affirming results rid -> bad source = true) ->
  rid ∉ (handle_fetched_router_ids set_order known results inbound).1.
Proof.
  intros Hso Hnd Hk Hb Haff.
  destruct (handle_fetched_spec set_order known results inbound Hso) as [(acc & -> & _ & Hx)|[-> _]]; [|done].
  cbn [fst]. rewrite Hx. intros [Hm (source & Hs & Hi)]. destruct Hb as [Hb|Hb].
  2: { specialize (Haff _ Hs). specialize (Hb _ Hi). congruence. }
  assert (length (affirming results rid) <= length (filter bad results.*1))%nat.
  { apply submseteq_length, NoDup_submseteq.
    - eapply sublist_NoDup; [exact Hnd|]. apply affirming_sublist.
    - intros s Hin. apply list_elem_of_filter. split; [by rewrite Haff|].
      eapply elem_of_sublist; [exact Hin|]. apply affirming_sublist. }
  pose proof (Nat.div_mod_eq (length results) 2). pose proof (Nat.mod_upper_bound (length results) 2). lia.
Qed.

Lemma colluding_sources_rejected_witness :
  [8] ∉ (handle_fetched_router_ids elements ∅ RidDemo.results RidDemo.inbound).1.
Proof.
  apply (colluding_sources_rejected elements ∅ RidDemo.results RidDemo.inbound
    (fun s => bool_decide (s <> [2])) [8]).
  - exact RidDemo.order.
  - apply (bool_decide_unpack _). vm_compute. exact I.
  - apply (bool_decide_unpack _). vm_compute. exact I.
  - right. intros source Hs%elem_of_singleton. subst. reflexivity.
  - intros source Hs.
    assert (source ∈ [[1]; [3]]) as Hin by exact Hs.
    apply elem_of_cons in Hin as [-> | Hin]; [reflexivity|].
    apply list_elem_of_singleton in Hin as ->. reflexivity.
Defined.

Lemma select_inbound_spec active selected :
  NoDup selected -> (length selected <= RID_SOURCE_COUNT)%nat ->
  exists new, select_inbound active selected = selected ++ new
    /\ NoDup (selected ++ new) /\ (length (selected ++ new) <= RID_SOURCE_COUNT)%nat
    /\ (forall t, t ∈ new -> t ∈ active).
Proof.
  revert selected. induction active as [|t active IH]; intros selected Hnd Hl; cbn [select_inbound].
  { exists []. rewrite app_nil_r. split_and!; try done. }
  repeat case_bool_decide.
  - exists []. rewrite app_nil_r. split_and!; try done. set_solver.
  - destruct (IH selected Hnd Hl) as (new & E & ? & ? & Hn). exists new. split_and!; try done. set_solver.
  - destruct (IH (selected ++ [t])) as (new & E & Hnd' & Hl' & Hn).
    { apply NoDup_app. split_and!; [done|set_solver|apply NoDup_singleton]. }
    { rewrite length_app. simpl. lia. }
    exists (t :: new). rewrite E, <-!app_assoc in *. split_and!; try done. set_solver.
Qed.

(** Callbacks of a round that has had [n] answers and waits for the rest. *)
Lemma run_callbacks_spec `{Oxenc} map_order set_order known inbound round resps n :
  resps <> [] -> rr_count round = n -> size (rr_results round) = (n + length resps)%nat ->
  (forall t r, (t, r) ∈ resps -> is_Some (rr_results round !! t)) ->
  run_callbacks map_order set_order known inbound round resps =
  replicate (length resps - 1) None ++
  [let '(rids, conclusive) := handle_fetched_router_ids set_order known
     (map_order (foldl (fun m kv => <[kv.1 := rid_answer kv.2]> m) (rr_results round) resps)) inbound in
   Some (rids, conclusive, next_rid_fetch conclusive)].
Proof.
  revert round n. induction resps as [|[t r] resps IH]; intros round n Hne Hc Hsz Hdom; [done|].
  cbn [run_callbacks result_cb foldl fst snd length].
  assert (size (<[t := rid_answer r]> (rr_results round)) = size (rr_results round)) as Hins.
  { apply map_size_insert_Some. eapply Hdom. by left. }
  cbn [rr_count]. rewrite Hins, Hsz, Hc. simpl length. destruct resps as [|p resps].
  { simpl. rewrite bool_decide_true by lia. by destruct (handle_fetched_router_ids _ _ _ _). }
  rewrite bool_decide_false by (simpl; lia).
  rewrite (IH _ (S n)); [|done|simpl; lia|cbn [rr_results]; rewrite Hins, Hsz; simpl; lia|].
  - simpl. by rewrite Nat.sub_0_r.
  - cbn [rr_results]. intros t' r' Hin. rewrite lookup_insert_is_Some'. right. eapply Hdom. by right.
Qed.

Lemma foldl_answers `{Oxenc} (resps : list (bytes * option bytes)) (m : gmap bytes (gset bytes)) :
  NoDup resps.*1 -> (forall t, is_Some (m !! t) -> t ∈ resps.*1) ->
  foldl (fun m kv => <[kv.1 := rid_answer kv.2]> m) m resps = list_to_map (prod_map id rid_answer <$> resps).
Proof.
  intros Hnd Hdom.
  assert (forall (m0 : gmap bytes (gset bytes)) (t : bytes),
    foldl (fun m kv => <[kv.1 := rid_answer kv.2]> m) m0 resps !! t =
    match (list_to_map (prod_map id rid_answer <$> resps) : gmap bytes (gset bytes)) !! t with
    | Some v => Some v | None => m0 !! t end) as Hf.
  { clear Hdom. induction resps as [|[t r] resps IH]; intros m0 t'; [done|]. cbn [foldl fst snd].
    apply NoDup_cons in Hnd as [Ht Hnd]. rewrite IH by done. cbn [fmap list_fmap prod_map list_to_map foldr id].
    destruct (decide (t = t')) as [<-|].
    - rewrite !lookup_insert_eq. rewrite not_elem_of_list_to_map_1; [done|].
      rewrite <-list_fmap_compose. done.
    - by rewrite !lookup_insert_ne. }
  apply map_eq. intros t. rewrite Hf. destruct (list_to_map _ !! t) eqn:E; [done|].
  destruct (m !! t) eqn:Em; [|done]. exfalso. apply not_elem_of_list_to_map_2 in E. apply E.
  rewrite <-list_fmap_compose. apply Hdom. eauto.
Qed.

(** C22. A round of router ID fetches asks between one and five distinct
    terminals, at least one of them inbound; and in whatever order their answers
    (or failures) come in, the results are applied exactly once, when the last
    one is in, and the next round is scheduled. *)
Theorem fetch_rids_round `{Oxenc} map_order set_order known active extra selected inbound resps :
  fetch_rids false true active extra = RidAsk selected inbound ->
  resps.*1 ≡ₚ selected ->
  NoDup selected /\ (1 <= length selected <= RID_SOURCE_COUNT)%nat
  /\ (exists t, t ∈ inbound) /\ (forall t, t ∈ inbound -> t ∈ selected /\ t ∈ active)
  /\ run_callbacks map_order set_order known inbound (new_round selected) resps =
     replicate (length selected - 1) None ++
     [let '(rids, conclusive) := handle_fetched_router_ids set_order known
        (map_order (list_to_map (prod_map id rid_answer <$> resps))) inbound in
      Some (rids, conclusive, next_rid_fetch conclusive)].
Proof.
  unfold fetch_rids. simpl orb. cbv iota. intros Hf Hresp.
  destruct (select_inbound_spec active []) as (inb & Ei & Hni & Hli & Hin); [constructor|simpl; unfold RID_SOURCE_COUNT; lia|].
  rewrite Ei in Hf. cbn [app] in *. case_bool_decide as Hne; [done|].
  assert (exists new, selected = inb ++ new /\ NoDup selected /\ (length selected <= RID_SOURCE_COUNT)%nat
    /\ inbound = list_to_set inb) as (new & Es & Hnd & Hl & ->).
  { injection Hf as Hs <-. case_bool_decide.
    - destruct (select_inbound_spec extra inb) as (new & E & ? & ? & _); [done..|]. exists new.
      rewrite E in Hs. by subst.
    - exists []. rewrite app_nil_r. by subst. }
  assert (1 <= length selected)%nat by (subst selected; destruct inb; [done|simpl; lia]).
  split_and!; try done.
  - destruct inb as [|t inb]; [done|]. exists t. set_solver.
  - intros t Ht%elem_of_list_to_set. split; [subst; set_solver|by apply Hin].
  - assert (length resps = length selected) as Hlen by (by rewrite <-Hresp, length_fmap).
    assert (NoDup ((fun t => (t, ∅ : gset bytes)) <$> selected).*1) as Hnd'
      by by rewrite <-list_fmap_compose, list_fmap_id.
    rewrite (run_callbacks_spec _ _ _ _ _ _ 0%nat).
    + rewrite Hlen, foldl_answers; [done|by rewrite Hresp|]. intros t [v Hv].
      apply elem_of_list_to_map_2, list_elem_of_fmap in Hv as (t' & [= -> ->] & ?). by rewrite Hresp.
    + intros ->. simpl in *. lia.
    + done.
    + cbn [rr_results new_round]. rewrite map_size_list_to_map by done. by rewrite length_fmap, Hlen.
    + intros t r Hr. cbn [rr_results new_round]. exists ∅. apply elem_of_list_to_map_1; [done|].
      apply list_elem_of_fmap. exists t. split; [done|]. rewrite <-Hresp. apply list_elem_of_fmap. by exists (t, r).
Qed.

Definition demo_resps : list (bytes * option bytes) := [([3], None); ([1], None); ([2], None)].

Lemma fetch_rids_round_witness :
  @run_callbacks bencode map_to_list elements ∅ {[ [1]; [2] ]} (new_round [[1]; [2]; [3]]) demo_resps
  = [None; None; Some (∅, false, FETCH_RETRY_INTERVAL)].
Proof.
  destruct (@fetch_rids_round bencode map_to_list elements ∅ [[1]; [2]; [1]] [[2]; [3]] [[1]; [2]; [3]]
    {[ [1]; [2] ]} demo_resps) as (_ & _ & _ & _ & E).
  - vm_compute. reflexivity.
  - apply (Permutation_trans (l' := [[1]; [3]; [2]])); [apply perm_swap|apply perm_skip, perm_swap].
  - rewrite E. vm_compute. reflexivity.
Defined.
