(* ===== verification/Profiling.v ===== *)
(** * Router profiling (profiling.hpp, profiling.cpp)

    The counters a client keeps about each relay, the verdicts it draws from
    them, and the file they are saved in.  Counters are uint64_t and wrap; times
    are int64_t milliseconds, whose overflow is undefined behaviour. *)

From Stdlib Require Import ZArith Lia.
From stdpp Require Import base list numbers strings gmap sorting.
From S2P Require Import Prelude Oxenc RelayContact NodeDB.

Local Open Scope Z_scope.
Local Open Scope router_scope.

Definition sys_ms_min : Z := - 2 ^ 63.
Definition u64 (x : Z) : Z := wrap 64 x.
Definition proto_version : Z := 0.
Definition profiling_chances : Z := 4.

Record RouterProfile := mkProfile {
  conn_timeout : Z;
  conn_success : Z;
  path_success : Z;
  path_fail : Z;
  path_timeout : Z;
  last_update : Z;
  last_decay : Z;
  version : Z;
}.

#[export] Instance RouterProfile_eq_dec : EqDecision RouterProfile.
Proof. solve_decision. Defined.

Definition default_profile : RouterProfile := mkProfile 0 0 0 0 0 sys_ms_min sys_ms_min proto_version.

(** ** Verdicts *)
Definition is_good (p : RouterProfile) (chances : Z) : bool :=
  if chances <? conn_timeout p
  then (conn_timeout p <? conn_success p) && (path_fail p <? u64 (path_success p * chances))
  else path_fail p <? u64 (path_success p * chances).

Definition checkIsGood (fails success chances : Z) : bool :=
  if (0 <? fails) && (chances <=? u64 (fails + success)) then 1 <? success / fails
  else if success =? 0 then fails <? chances
  else true.

Definition is_good_for_connect (p : RouterProfile) (chances : Z) : bool :=
  checkIsGood (conn_timeout p) (conn_success p) chances.

Definition is_good_for_path (p : RouterProfile) (chances : Z) : bool :=
  if chances <? path_timeout p then false
  else checkIsGood (path_fail p) (path_success p) chances.

(** ** Decay *)
Definition decay (p : RouterProfile) (now : Z) : RouterProfile :=
  mkProfile (conn_timeout p / 2) (conn_success p / 2) (path_success p / 2) (path_fail p / 2)
    (path_timeout p / 2) (last_update p) now (version p).

(** A difference of time points; [None] when it overflows. *)
Definition time_sub (a b : Z) : option Z :=
  if in_range (- 2 ^ 63) (2 ^ 63 - 1) (a - b) then Some (a - b) else None.

(** [RouterProfile::tick] *)
Definition profile_tick (p : RouterProfile) (now : Z) : deref RouterProfile :=
  if last_decay p <? now then
    match time_sub now (last_decay p) with
    | None => Undefined
    | Some d => Value (if 30000 <? d then decay p now else p)
    end
  else Value p.

(** ** The table *)
Record Profiling := mkProfiling {
  profiles : gmap bytes RouterProfile;
  profiling_disabled : bool;
}.

Definition is_bad_with (good : RouterProfile -> Z -> bool) (s : Profiling) (r : bytes) (chances : Z) : bool :=
  if profiling_disabled s then false
  else match profiles s !! r with
       | None => false
       | Some p => negb (good p chances)
       end.

Definition is_bad_for_connect := is_bad_with is_good_for_connect.
Definition is_bad_for_path := is_bad_with is_good_for_path.
Definition is_bad := is_bad_with is_good.

(** [auto& profile = _profiles[r]; ...] *)
Definition update_profile (s : Profiling) (r : bytes) (f : RouterProfile -> RouterProfile) : Profiling :=
  mkProfiling (<[r := f (default default_profile (profiles s !! r))]> (profiles s)) (profiling_disabled s).

Definition connect_timeout (s : Profiling) (r : bytes) (now : Z) : Profiling :=
  update_profile s r (fun p => mkProfile (u64 (conn_timeout p + 1)) (conn_success p) (path_success p)
    (path_fail p) (path_timeout p) now (last_decay p) (version p)).

Definition connect_succeess (s : Profiling) (r : bytes) (now : Z) : Profiling :=
  update_profile s r (fun p => mkProfile (conn_timeout p) (u64 (conn_success p + 1)) (path_success p)
    (path_fail p) (path_timeout p) now (last_decay p) (version p)).

Definition clear_profile (s : Profiling) (r : bytes) : Profiling :=
  mkProfiling (delete r (profiles s)) (profiling_disabled s).

Definition fail_hop (now : Z) (p : RouterProfile) : RouterProfile :=
  mkProfile (conn_timeout p) (conn_success p) (path_success p) (u64 (path_fail p + 1)) (path_timeout p)
    now (last_decay p) (version p).

Definition hop_fail (s : Profiling) (r : bytes) (now : Z) : Profiling :=
  if profiling_disabled s then s else update_profile s r (fail_hop now).

(** The path operations take the router IDs of the hops. *)
Definition profile_path_fail (s : Profiling) (hops : list bytes) (now : Z) : Profiling :=
  if profiling_disabled s then s
  else foldl (fun s r => update_profile s r (fail_hop now)) s (drop 1 hops).

Definition profile_path_timeout (s : Profiling) (hops : list bytes) (now : Z) : Profiling :=
  if profiling_disabled s then s
  else foldl (fun s r => update_profile s r (fun p =>
    mkProfile (conn_timeout p) (conn_success p) (path_success p) (path_fail p) (u64 (path_timeout p + 1))
      now (last_decay p) (version p))) s hops.

Definition redeem_hop (n : nat) (now : Z) (p : RouterProfile) : RouterProfile :=
  mkProfile (conn_timeout p) (conn_success p) (u64 (path_success p + Z.of_nat n)) (path_fail p / 2) 0
    now (last_decay p) (version p).

Definition profile_path_success (s : Profiling) (hops : list bytes) (now : Z) : Profiling :=
  if profiling_disabled s then s
  else foldl (fun s r => update_profile s r (redeem_hop (length hops) now)) s hops.

(** ** The file *)
Section File.
Context `{Oxenc}.

Definition profile_encode (p : RouterProfile) : list (bytes * btval) :=
  [(str "g", BInt (conn_success p)); (str "p", BInt (path_success p)); (str "q", BInt (path_timeout p));
   (str "s", BInt (path_fail p)); (str "t", BInt (conn_timeout p)); (str "u", BInt (last_update p));
   (str "v", BInt (version p))].

(** [require<uint64_t>] *)
Definition require_u64 (k : bytes) (c : bt_consumer) : option (Z * bt_consumer) :=
  match bt_require_int k c with
  | Some (z, c) => if in_range 0 (2 ^ 64 - 1) z then Some (z, c) else None
  | None => None
  end.

Definition profile_decode (btdc : bt_consumer) : outcome string RouterProfile :=
  let! (g, btdc) := or_throw "g"%string (require_u64 (str "g") btdc) in
  let! (p, btdc) := or_throw "p"%string (require_u64 (str "p") btdc) in
  let! (q, btdc) := or_throw "q"%string (require_u64 (str "q") btdc) in
  let! (s, btdc) := or_throw "s"%string (require_u64 (str "s") btdc) in
  let! (t, btdc) := or_throw "t"%string (require_u64 (str "t") btdc) in
  let! (u, btdc) := or_throw "u"%string (require_u64 (str "u") btdc) in
  let! (v, btdc) := or_throw "v"%string (require_u64 (str "v") btdc) in
  Ok (mkProfile t g p s q (to_int64 u) sys_ms_min v).

(** The order of std::map: by router ID. *)
Definition key_le (a b : bytes * RouterProfile) : Prop := bytes_ltb b.1 a.1 = false.

#[export] Instance key_le_dec a b : Decision (key_le a b).
Proof. unfold key_le. apply _. Defined.

Definition BEncode (m : gmap bytes RouterProfile) : bytes :=
  bt_dict_produce ((fun kv => (kv.1, BDict (profile_encode kv.2))) <$> merge_sort key_le (map_to_list m)).

(** [BDecode]'s loop; every round consumes at least one byte of the data.  What
    was read before an exception stays. *)
Fixpoint BDecode_loop (fuel : nat) (dict : bt_consumer) (m : gmap bytes RouterProfile)
    : gmap bytes RouterProfile * outcome string unit :=
  if bt_finish dict then (m, Ok tt)
  else match fuel with
       | O => (m, Throw "out of fuel"%string)
       | S fuel =>
           match bt_next_dict dict with
           | None => (m, Throw "not a dict"%string)
           | Some (rid, subdict, dict) =>
               if negb (bool_decide (length rid = 32%nat)) then (m, Throw "Invalid profiling data"%string)
               else match profile_decode (bt_reading [] subdict) with
                    | Throw e => (m, Throw e)
                    | Ok p => BDecode_loop fuel dict (match m !! rid with Some _ => m | None => <[rid := p]> m end)
                    end
           end
       end.

(** [load_from_disk] for the content of the file: the profiles and whether it worked. *)
Definition profiles_load (old : gmap bytes RouterProfile) (data : bytes)
    : gmap bytes RouterProfile * bool :=
  match bt_dict_open data with
  | None => (old, false)
  | Some dict => match BDecode_loop (length data) dict ∅ with
                 | (m, Ok _) => (m, true)
                 | (m, Throw _) => (m, false)
                 end
  end.
End File.

(** ** Properties *)

(** What a profile read back from disk looks like: only [last_decay] is not saved. *)
Definition reloaded (p : RouterProfile) : RouterProfile :=
  mkProfile (conn_timeout p) (conn_success p) (path_success p) (path_fail p) (path_timeout p)
    (last_update p) sys_ms_min (version p).

Definition is_u64 (x : Z) : Prop := 0 <= x < 2 ^ 64.

Definition profile_wf (p : RouterProfile) : Prop :=
  is_u64 (conn_timeout p) /\ is_u64 (conn_success p) /\ is_u64 (path_success p) /\ is_u64 (path_fail p)
  /\ is_u64 (path_timeout p) /\ is_u64 (version p) /\ 0 <= last_update p < 2 ^ 63.

Section FileProofs.
Context `{OxencLaws}.

Lemma require_u64_next k z d t :
  is_u64 z -> require_u64 k (bt_reading d ((k, BInt z) :: t)) = Some (z, bt_reading (d ++ [(k, BInt z)]) t).
Proof.
  intros Hz. unfold require_u64. rewrite bt_require_int_next. unfold is_u64 in Hz.
  by replace (in_range 0 (2 ^ 64 - 1) z) with true by (symmetry; unfold in_range; lia).
Qed.

Lemma profile_decode_encode p :
  profile_wf p -> profile_decode (bt_reading [] (profile_encode p)) = Ok (reloaded p).
Proof.
  intros (? & ? & ? & ? & ? & ? & Hu). unfold profile_decode, profile_encode.
  rewrite require_u64_next by done. cbn [or_throw outcome_bind]. rewrite require_u64_next by done.
  cbn [or_throw outcome_bind]. rewrite require_u64_next by done. cbn [or_throw outcome_bind].
  rewrite require_u64_next by done. cbn [or_throw outcome_bind]. rewrite require_u64_next by done.
  cbn [or_throw outcome_bind]. rewrite require_u64_next by (unfold is_u64; lia). cbn [or_throw outcome_bind].
  rewrite require_u64_next by done. cbn [or_throw outcome_bind].
  unfold to_int64. by rewrite (proj2 (Z.ltb_lt _ (2 ^ 63))) by lia.
Qed.

Lemma BDecode_loop_spec l d fuel m :
  Forall (fun kv => length kv.1 = 32%nat /\ profile_wf kv.2) l -> NoDup l.*1 ->
  (forall k, k ∈ l.*1 -> m !! k = None) -> (length l <= fuel)%nat ->
  BDecode_loop fuel (bt_reading d ((fun kv => (kv.1, BDict (profile_encode kv.2))) <$> l)) m
  = (list_to_map (prod_map id reloaded <$> l) ∪ m, Ok tt).
Proof.
  intros Hl. revert d fuel m. induction Hl as [|[rid p] l [Hrid Hp] _ IH]; intros d fuel m Hnd Hm Hf.
  { destruct fuel; simpl; rewrite bt_finish_end; by rewrite map_empty_union. }
  apply NoDup_cons in Hnd as [Hn Hnd]. simpl in Hrid, Hp. destruct fuel as [|fuel]; [simpl in Hf; lia|].
  rewrite fmap_cons. cbn [BDecode_loop fst snd]. rewrite bt_finish_more, bt_next_dict_next.
  rewrite bool_decide_true by done. cbn [negb]. rewrite profile_decode_encode by done.
  rewrite (Hm rid) by (simpl; set_solver). rewrite IH; [|done| |simpl in Hf; lia].
  - rewrite fmap_cons. cbn [prod_map id fst snd list_to_map foldr]. f_equal.
    rewrite <-insert_union_r, insert_union_l; [done|]. apply not_elem_of_list_to_map_1.
    rewrite <-list_fmap_compose. done.
  - intros k Hk. rewrite lookup_insert_ne by (intros ->; done). apply Hm. simpl. set_solver.
Qed.

Lemma bt_signed_length d : (length d < length (bt_signed_data d))%nat.
Proof.
  induction d as [|[k v] d IH] using rev_ind; [rewrite bt_signed_nil; simpl; lia|].
  rewrite bt_signed_snoc, !length_app, bt_value_str, length_app. unfold str_header.
  rewrite length_app. simpl. lia.
Qed.
End FileProofs.

(** Router profiles saved to disk are loaded back as they were, for every
    relay, apart from the time of the last decay, which is not saved. *)
Theorem profiles_round_trip `{OxencLaws} (old m : gmap bytes RouterProfile) :
  map_Forall (fun rid p => length rid = 32%nat /\ profile_wf p) m ->
  profiles_load old (BEncode m) = (reloaded <$> m, true).
Proof.
  intros Hm. unfold profiles_load, BEncode. rewrite bt_open_produce.
  set (l := merge_sort key_le (map_to_list m)).
  assert (l ≡ₚ map_to_list m) as Hl by apply merge_sort_Permutation.
  rewrite (BDecode_loop_spec l).
  - rewrite map_union_empty. f_equal. rewrite (list_to_map_proper _ (prod_map id reloaded <$> map_to_list m)).
    + rewrite list_to_map_fmap, list_to_map_to_list. done.
    + rewrite <-list_fmap_compose, Hl. apply NoDup_fst_map_to_list.
    + by rewrite Hl.
  - apply Forall_forall. intros [k p] Hin. rewrite Hl in Hin. apply elem_of_map_to_list in Hin. by apply Hm.
  - rewrite Hl. apply NoDup_fst_map_to_list.
  - intros. apply lookup_empty.
  - rewrite bt_produce_signed, length_app.
    pose proof (bt_signed_length ((fun kv => (kv.1, BDict (profile_encode kv.2))) <$> l)) as Hs.
    rewrite length_fmap in Hs. lia.
Qed.

Lemma profiles_round_trip_witness :
  @profiles_load bencode ∅ (@BEncode bencode {[ replicate 32 1 := mkProfile 1 2 3 4 5 6 7 0 ]})
  = ({[ replicate 32 1 := mkProfile 1 2 3 4 5 6 sys_ms_min 0 ]}, true).
Proof.
  rewrite (@profiles_round_trip bencode bencode_laws ∅ {[ replicate 32 1 := mkProfile 1 2 3 4 5 6 7 0 ]}).
  - by rewrite map_fmap_singleton.
  - apply map_Forall_singleton. split; [reflexivity|]. unfold profile_wf, is_u64. simpl. lia.
Defined.

(** The first [tick] of a profile that has never decayed (every profile
    created or loaded since startup) subtracts the smallest time point from a
    current time, which overflows; so no profile ever decays with defined
    behaviour. *)
Theorem first_tick_overflows p now :
  last_decay p = sys_ms_min -> 0 <= now -> profile_tick p now = Undefined.
Proof.
  intros Hd Hn. unfold profile_tick, time_sub. rewrite Hd. unfold sys_ms_min.
  rewrite (proj2 (Z.ltb_lt _ now)) by lia.
  by replace (in_range (- 2 ^ 63) (2 ^ 63 - 1) (now - - 2 ^ 63)) with false
    by (symmetry; apply andb_false_iff; right; lia).
Qed.

Lemma first_tick_overflows_witness : profile_tick default_profile 1700000000000 = Undefined.
Proof. apply (first_tick_overflows default_profile 1700000000000); [reflexivity | lia]. Defined.

(** A successful path redeems its hops: timeouts are forgotten and failures halved. *)
Lemma path_success_redeems s hops now r chances :
  profiling_disabled s = false -> r ∈ hops -> 0 <= chances ->
  exists p, profiles (profile_path_success s hops now) !! r = Some p /\ path_timeout p = 0 /\ last_update p = now.
Proof.
  intros Hen Hr Hc. unfold profile_path_success. rewrite Hen. clear Hen. generalize (length hops) as n. intros n.
  assert (forall hops s, (r ∈ hops \/ exists p, profiles s !! r = Some p /\ path_timeout p = 0 /\ last_update p = now) ->
    exists p, profiles (foldl (fun s r => update_profile s r (redeem_hop n now)) s hops) !! r = Some p
      /\ path_timeout p = 0 /\ last_update p = now) as Hg; [|by apply Hg; left].
  clear s hops Hr. induction hops as [|h hops IH]; intros s Hs; cbn [foldl].
  { destruct Hs as [Hs|?]; [by apply elem_of_nil in Hs|done]. }
  apply IH. destruct (decide (h = r)) as [->|Hne].
  - right. unfold update_profile. cbn [profiles]. rewrite lookup_insert_eq. by eexists.
  - destruct Hs as [[->|?]%elem_of_cons|(p & Hp & ?)]; [done|by left|].
    right. exists p. unfold update_profile. cbn [profiles]. by rewrite lookup_insert_ne.
Qed.
