(* ===== verification/HopSelection.v ===== *)
(** * Choosing the hops of a path (path/path_handler.cpp)

    [select_first_hop], [select_hops_to_remote] and the build backoff.  The
    connected relays, the RC table's order and the random draws are arguments;
    IPv4 networks are those of the network library. *)

From Stdlib Require Import ZArith Lia.
From stdpp Require Import base list numbers strings gmap.
From S2P Require Import Prelude RelayContact RcStore NodeDB Profiling Path.

Local Open Scope Z_scope.
Local Open Scope router_scope.

Section Selection.
Context (env : RouterEnv) (now : Z) (st : RCStore) (prof : Profiling).
(** [addr.to_ipv4() % netmask] and [net.contains(addr.to_ipv4())]. *)
Context {Net : Type} (net_of : Address -> Z -> Net) (net_contains : Net -> Address -> bool).
(** [router.config().paths.unique_hop_netmask]; 0 disables the range checks. *)
Context (netmask : Z).
(** The order of the RC table, and the connected relays in theirs. *)
Context (rcs_order : list RelayContact) (current_remotes : list bytes).

(** The loop of [select_first_hop]; [draw n] is drawn from [0, n]. *)
Fixpoint first_hop_loop (pred : option (RelayContact -> bool)) (draw : nat -> nat) (remotes : list bytes)
    (selected : option RelayContact) (acceptable : nat) : option RelayContact :=
  match remotes with
  | [] => selected
  | rid :: remotes =>
      match get_rc st rid with
      | None => first_hop_loop pred draw remotes selected acceptable
      | Some rc =>
          if match pred with Some p => negb (p rc) | None => false end
          then first_hop_loop pred draw remotes selected acceptable
          else if is_bad_for_path prof rid profiling_chances
          then first_hop_loop pred draw remotes selected acceptable
          else
            let selected := if bool_decide (acceptable = 0%nat) || bool_decide (draw acceptable = 0%nat)
                            then Some rc else selected in
            first_hop_loop pred draw remotes selected (S acceptable)
      end
  end.

Definition select_first_hop (pred : option (RelayContact -> bool)) (draw : nat -> nat) : option RelayContact :=
  first_hop_loop pred draw current_remotes None 0.

(** What the lambda [exclude] records. *)
Record Excluded := mkExcluded {
  to_exclude : gset bytes;
  excluded_ranges : list Net;
}.

Definition exclude (x : Excluded) (rc : RelayContact) : Excluded :=
  mkExcluded ({[rc_router_id rc]} ∪ to_exclude x)
    (if negb (netmask =? 0) then excluded_ranges x ++ [net_of (rc_addr rc) netmask] else excluded_ranges x).

(** The lambda [filter]. *)
Definition hop_filter (x : Excluded) (rc : RelayContact) : bool :=
  if bool_decide (rc_router_id rc ∈ to_exclude x) then false
  else if negb (netmask =? 0) && existsb (fun r => net_contains r (rc_addr rc)) (excluded_ranges x) then false
  else negb (is_bad_for_path prof (rc_router_id rc) 1).

(** The loop over the hops between the first and the last; [draws i] are those
    of the [i]-th call of [get_random_rc]. *)
Fixpoint middle_hops (draws : nat -> nat -> nat) (hops_needed i : nat) (x : Excluded) (hops : list RelayContact)
    : option (list RelayContact) :=
  match hops_needed with
  | O => Some hops
  | S hops_needed =>
      match get_random_rc env now rcs_order (Some (hop_filter x)) (draws i) with
      | Ok (Some hop) => middle_hops draws hops_needed (S i) (exclude x hop) (hops ++ [hop])
      | _ => None
      end
  end.

(** The first hop, and whether the path has to be extended. *)
Definition choose_first (x : Excluded) (pivot : bytes) (draw1 draw2 draw3 : nat -> nat)
    : option RelayContact * bool :=
  let '(maybe_first, extend_path) :=
    if negb (netmask =? 0)
    then match select_first_hop (Some (hop_filter x)) draw1 with
         | Some rc => (Some rc, false)
         | None => (None, true)
         end
    else (None, false) in
  let maybe_first := match maybe_first with
                     | Some rc => Some rc
                     | None => select_first_hop
                         (Some (fun rc => negb (bool_decide (rc_router_id rc = pivot)))) draw2
                     end in
  let '(maybe_first, extend_path) :=
    match maybe_first with
    | Some rc => (Some rc, extend_path)
    | None => (get_rc st pivot, true)
    end in
  (match maybe_first with Some rc => Some rc | None => select_first_hop None draw3 end, extend_path).

Definition select_hops_to_remote (num_hops : Z) (pivot : bytes) (draw1 draw2 draw3 : nat -> nat)
    (draws : nat -> nat -> nat) : option (list RelayContact) :=
  let hops_needed := num_hops in
  match get_rc st pivot with
  | None => None
  | Some pivot_rc =>
      let hops_needed := hops_needed - 1 in
      if hops_needed <=? 0 then Some [pivot_rc]
      else
        let x := exclude (mkExcluded {[pivot]} []) pivot_rc in
        let '(maybe_first, extend_path) := choose_first x pivot draw1 draw2 draw3 in
        match maybe_first with
        | None => None
        | Some first =>
            let hops_needed := hops_needed - 1 in
            let x := exclude x first in
            let hops_needed := if extend_path && (hops_needed <? Z.of_nat BUILD_LENGTH - 2)
                               then hops_needed + 1 else hops_needed in
            match middle_hops draws (Z.to_nat hops_needed) 0 x [first] with
            | None => None
            | Some hops => Some (hops ++ [pivot_rc])
            end
        end
  end.
End Selection.

(** ** Backoff *)
Definition BACKOFF_THRESHOLD : Z := 3.
(** Milliseconds. *)
Definition BACKOFF_INCREMENT : Z := 1000.
Definition BACKOFF_MAX : Z := 15000.

(** [cooldown] at time [now]. *)
Definition cooldown (consecutive_failures last_failure now : Z) : bool :=
  if consecutive_failures <? BACKOFF_THRESHOLD then false
  else
    let delay := Z.min (BACKOFF_INCREMENT * (1 + consecutive_failures - BACKOFF_THRESHOLD)) BACKOFF_MAX in
    now <? last_failure + delay.

(** ** What is selected *)
Section SelectionProofs.
Context (env : RouterEnv) (now : Z) (st : RCStore) (prof : Profiling).
Context {Net : Type} (net_of : Address -> Z -> Net) (net_contains : Net -> Address -> bool) (netmask : Z).
Context (rcs_order : list RelayContact) (current_remotes : list bytes).

Lemma get_random_rc_spec p draw rc :
  (forall a, (draw a <= a)%nat) ->
  get_random_rc env now rcs_order (Some p) draw = Ok (Some rc) -> rc ∈ rcs_order /\ p rc = true.
Proof.
  intros Hd. unfold get_random_rc, get_n_random_rcs.
  destruct (sample_rcs_ok env now rcs_order 1 (Some p) draw id false) as (r & l & -> & Hr & _ & Hsub);
    [lia|done|done|]. cbn [outcome_bind]. destruct r as [|x r]; [done|]. intros [= ->].
  assert (Some rc ∈ Some <$> l) as Hin by (rewrite <-Hr; by left).
  apply list_elem_of_fmap in Hin as (y & [= <-] & Hin). eapply elem_of_submseteq in Hin; [|done].
  apply list_elem_of_filter in Hin as [Ha%Is_true_eq_true ?]. split; [done|].
  unfold admissible in Ha. repeat case_match; done.
Qed.

Lemma first_hop_loop_spec pred draw remotes selected n rc :
  first_hop_loop st prof pred draw remotes selected n = Some rc ->
  selected = Some rc \/ exists rid, rid ∈ remotes /\ get_rc st rid = Some rc
    /\ (forall p, pred = Some p -> p rc = true) /\ is_bad_for_path prof rid profiling_chances = false.
Proof.
  revert selected n. induction remotes as [|rid remotes IH]; intros selected n; cbn [first_hop_loop]; [auto|].
  assert (forall sel n', (sel = selected \/ sel = get_rc st rid /\ (forall rc, get_rc st rid = Some rc ->
      (forall p, pred = Some p -> p rc = true) /\ is_bad_for_path prof rid profiling_chances = false)) ->
    first_hop_loop st prof pred draw remotes sel n' = Some rc ->
    selected = Some rc \/ exists rid', rid' ∈ rid :: remotes /\ get_rc st rid' = Some rc
      /\ (forall p, pred = Some p -> p rc = true) /\ is_bad_for_path prof rid' profiling_chances = false) as Hstep.
  { intros sel n' Hsel [E|(rid' & ? & ? & ? & ?)]%IH; [|right; exists rid'; split_and!; try done; by right].
    destruct Hsel as [->|[-> Hok]]; [by left|]. right. exists rid. destruct (Hok rc E). split_and!; try done. by left. }
  destruct (get_rc st rid) as [rc'|] eqn:Eg; [|apply Hstep; auto].
  destruct (match pred with Some p => _ | None => _ end) eqn:Ep; [apply Hstep; auto|].
  destruct (is_bad_for_path prof rid profiling_chances) eqn:Eb; [apply Hstep; auto|].
  apply Hstep. destruct (_ || _); [|by left]. right. split; [done|]. intros ? [= <-]. split; [|done].
  intros p ->. by apply negb_false_iff.
Qed.

(** The connected relays a call of [select_first_hop] chooses from. *)
Definition candidate (pred : RelayContact -> Prop) (rc : RelayContact) : Prop :=
  pred rc /\ exists rid, rid ∈ current_remotes /\ get_rc st rid = Some rc
    /\ is_bad_for_path prof rid profiling_chances = false.

Lemma first_hop_loop_none pred draw remotes selected n :
  first_hop_loop st prof (Some pred) draw remotes selected n = None ->
  selected = None /\ (n = 0%nat -> forall rid rc, rid ∈ remotes -> get_rc st rid = Some rc ->
    pred rc = true -> is_bad_for_path prof rid profiling_chances = true).
Proof.
  revert selected n. induction remotes as [|rid remotes IH]; intros selected n; cbn [first_hop_loop].
  { intros ->. split; [done|]. intros _ ? ? Hin. by apply elem_of_nil in Hin. }
  destruct (get_rc st rid) as [rc'|] eqn:Eg.
  2: { intros [-> Hno]%IH. split; [done|]. intros -> rid' rc [->|Hin]%elem_of_cons; [congruence|by apply Hno]. }
  destruct (pred rc') eqn:Ep; cbn [negb].
  2: { intros [-> Hno]%IH. split; [done|]. intros -> rid' rc [->|Hin]%elem_of_cons; [congruence|by apply Hno]. }
  destruct (is_bad_for_path prof rid profiling_chances) eqn:Eb.
  { intros [-> Hno]%IH. split; [done|]. intros -> rid' rc [->|Hin]%elem_of_cons; [done|by apply Hno]. }
  intros [Hsel _]%IH. destruct n; [by rewrite bool_decide_true in Hsel|].
  destruct (_ || _); [done|]. by split.
Qed.

(** [select_first_hop] finds a relay exactly when there is one. *)
Lemma select_first_hop_spec pred (P : RelayContact -> Prop) draw :
  (forall rc, pred rc = true <-> P rc) ->
  match select_first_hop st prof current_remotes (Some pred) draw with
  | Some rc => candidate P rc
  | None => forall rc, ~ candidate P rc
  end.
Proof.
  intros HP. unfold select_first_hop. destruct (first_hop_loop _ _ _ _ _ _ _) as [rc|] eqn:E.
  - apply first_hop_loop_spec in E as [?|(rid & ? & ? & Hp & ?)]; [done|]. split; [by apply HP, Hp|eauto].
  - apply first_hop_loop_none in E as [_ Hno]. intros rc [Hp (rid & Hin & Hg & Hb)].
    apply HP in Hp. by rewrite (Hno eq_refl rid rc) in Hb.
Qed.

(** The hops between the first and the last, chosen one after the other. *)
Fixpoint hops_ok (x : Excluded) (mid : list RelayContact) : Prop :=
  match mid with
  | [] => True
  | m :: mid => m ∈ rcs_order /\ hop_filter prof net_contains netmask x m = true
      /\ hops_ok (exclude net_of netmask x m) mid
  end.

Lemma middle_hops_spec draws n i x hops res :
  (forall j a, (draws j a <= a)%nat) ->
  middle_hops env now prof net_of net_contains netmask rcs_order draws n i x hops = Some res ->
  exists mid, res = hops ++ mid /\ length mid = n /\ hops_ok x mid.
Proof.
  intros Hd. revert i x hops. induction n as [|n IH]; intros i x hops; cbn [middle_hops].
  { intros [= <-]. exists []. by rewrite app_nil_r. }
  destruct (get_random_rc _ _ _ _ _) as [[hop|]|] eqn:E; try done.
  apply get_random_rc_spec in E as [Hin Hf]; [|done].
  intros (mid & -> & <- & Hok)%IH. exists (hop :: mid). by rewrite <-app_assoc.
Qed.

(** How two hops, one chosen before the other, are kept apart. *)
Definition apart (a b : RelayContact) : Prop :=
  rc_router_id a <> rc_router_id b
  /\ (netmask <> 0 -> net_contains (net_of (rc_addr a) netmask) (rc_addr b) = false).

(** Every RC in [l] is recorded as excluded. *)
Definition records (x : Excluded) (l : list RelayContact) : Prop :=
  Forall (fun a => rc_router_id a ∈ to_exclude x
    /\ (netmask <> 0 -> net_of (rc_addr a) netmask ∈ excluded_ranges x)) l.

Lemma records_exclude x l rc : records x l -> records (exclude net_of netmask x rc) (l ++ [rc]).
Proof.
  intros Hl. apply Forall_app. split.
  - eapply Forall_impl; [exact Hl|]. intros a [? Hr]. cbn [exclude to_exclude excluded_ranges].
    split; [set_solver|]. intros Hn. destruct (Z.eqb_spec netmask 0); [done|]. simpl.
    apply elem_of_app. left. by apply Hr.
  - apply Forall_singleton. cbn [exclude to_exclude excluded_ranges]. split; [set_solver|]. intros Hn.
    destruct (Z.eqb_spec netmask 0); [done|]. simpl. apply elem_of_app. right. by apply list_elem_of_singleton.
Qed.

Lemma hop_filter_apart x l rc a :
  records x l -> hop_filter prof net_contains netmask x rc = true -> a ∈ l -> apart a rc.
Proof.
  intros Hl Hf Ha. unfold records in Hl. rewrite Forall_forall in Hl. destruct (Hl _ Ha) as [He Hr].
  unfold hop_filter in Hf. case_bool_decide as Hin; [done|].
  destruct (_ && _) eqn:E; [done|]. split; [intros Heq; by rewrite Heq in He|].
  intros Hn. apply andb_false_iff in E as [E|E]; [destruct (Z.eqb_spec netmask 0); done|].
  destruct (net_contains _ _) eqn:Ec; [|done]. exfalso. apply not_true_iff_false in E. apply E.
  apply existsb_exists. exists (net_of (rc_addr a) netmask). split; [|done]. by apply list_elem_of_In, Hr.
Qed.

(** All the chosen hops are apart from the hops recorded before and from each other. *)
Lemma hops_ok_apart x l mid :
  records x l -> hops_ok x mid ->
  Forall (fun m => m ∈ rcs_order /\ is_bad_for_path prof (rc_router_id m) 1 = false) mid
  /\ (forall a m, a ∈ l -> m ∈ mid -> apart a m)
  /\ (forall i j a b, (i < j)%nat -> mid !! i = Some a -> mid !! j = Some b -> apart a b).
Proof.
  revert x l. induction mid as [|m mid IH]; intros x l Hl Hok.
  { split_and!; [constructor| |done]. intros ? ? _ Hm. by apply elem_of_nil in Hm. }
  destruct Hok as (Hin & Hf & Hok).
  destruct (IH _ _ (records_exclude x l m Hl) Hok) as (Hall & Hap & Hpair). split_and!.
  - constructor; [|done]. split; [done|]. unfold hop_filter in Hf. repeat case_match; try done.
    by apply negb_true_iff.
  - intros a b Ha [->|Hb]%elem_of_cons; [by eapply hop_filter_apart|]. apply Hap; [set_solver|done].
  - intros [|i] [|j] a b Hij Ea Eb; simpl in Ea, Eb; try lia.
    + injection Ea as ->. apply Hap; [set_solver|]. by eapply list_elem_of_lookup_2.
    + eapply (Hpair i j); [lia|done|done].
Qed.

(** An edge that is not the pivot. *)
Definition other_edge (pivot : bytes) (rc : RelayContact) : Prop := rc_router_id rc <> pivot.

(** An edge in good standing that is also outside the network of the pivot. *)
Definition separate_edge (pivot : bytes) (pivot_rc rc : RelayContact) : Prop :=
  rc_router_id rc <> pivot /\ apart pivot_rc rc /\ is_bad_for_path prof (rc_router_id rc) 1 = false.

Lemma hop_filter_pivot pivot pivot_rc rc :
  hop_filter prof net_contains netmask (exclude net_of netmask (mkExcluded {[pivot]} []) pivot_rc) rc = true
  <-> separate_edge pivot pivot_rc rc.
Proof.
  unfold hop_filter, exclude, separate_edge, apart. cbn [to_exclude excluded_ranges app].
  destruct (Z.eqb_spec netmask 0) as [->|Hn]; cbn [negb andb existsb app];
  case_bool_decide as Hin; try set_solver; rewrite ?orb_false_r;
  try destruct (net_contains _ _); rewrite ?negb_true_iff; set_solver.
Qed.

(** The three passes over the edges, in their order. *)
Lemma choose_first_spec pivot pivot_rc d1 d2 d3 first ext :
  get_rc st pivot = Some pivot_rc ->
  choose_first st prof net_contains netmask current_remotes
    (exclude net_of netmask (mkExcluded {[pivot]} []) pivot_rc) pivot d1 d2 d3 = (Some first, ext) ->
  netmask <> 0 /\ candidate (separate_edge pivot pivot_rc) first /\ ext = false
  \/ (netmask <> 0 -> forall rc, ~ candidate (separate_edge pivot pivot_rc) rc)
     /\ (candidate (other_edge pivot) first /\ ext = negb (netmask =? 0)
         \/ (forall rc, ~ candidate (other_edge pivot) rc) /\ first = pivot_rc /\ ext = true).
Proof.
  intros Hp. unfold choose_first. rewrite Hp.
  assert (forall rc, negb (bool_decide (rc_router_id rc = pivot)) = true <-> other_edge pivot rc) as Ho.
  { intros rc. by rewrite negb_true_iff, bool_decide_eq_false. }
  pose proof (select_first_hop_spec _ (other_edge pivot) d2 Ho) as H2.
  pose proof (select_first_hop_spec _ (separate_edge pivot pivot_rc) d1 (hop_filter_pivot pivot pivot_rc)) as H1.
  destruct (Z.eqb_spec netmask 0) as [Hn|Hn]; cbn [negb];
  [|destruct (select_first_hop st prof current_remotes _ d1) as [rc1|]; [intros [= -> <-]; by left|]];
  (destruct (select_first_hop st prof current_remotes _ d2) as [rc2|]; intros [= <- <-]; right;
   (split; [done|]); [by left|by right]).
Qed.
End SelectionProofs.

(** C3. The path [select_hops_to_remote] chooses, for at most eight hops. For one
    hop it is the pivot alone. For two to eight it ends in the pivot and its first
    hop is found in three passes over the connected relays in good standing that
    have an RC. With a netmask: one outside the pivot's network, and then the path
    has the configured number of hops. Without a netmask, or when there is no such
    relay: one that is not the pivot; with a netmask the path then has one hop more.
    When there is no such relay either: the pivot itself, and the path has one hop
    more, so that there are hops in between. A path is never extended beyond the
    eight hops of a build message. All hops in between are different relays in good
    standing, and with a netmask each lies outside the networks of the first hop,
    of the pivot and of the hops in between chosen before it. *)
Theorem select_hops_spec env now st prof {Net : Type} (net_of : Address -> Z -> Net) net_contains netmask
    rcs_order current_remotes num_hops pivot d1 d2 d3 draws hops :
  num_hops <= Z.of_nat BUILD_LENGTH -> (forall i a, (draws i a <= a)%nat) ->
  select_hops_to_remote env now st prof net_of net_contains netmask rcs_order current_remotes
    num_hops pivot d1 d2 d3 draws = Some hops ->
  let edge := candidate st prof current_remotes in
  let extended := Z.min (num_hops + 1) (Z.of_nat BUILD_LENGTH) in
  exists pivot_rc, get_rc st pivot = Some pivot_rc
  /\ (num_hops <= 1 -> hops = [pivot_rc])
  /\ (2 <= num_hops -> exists first mid,
    let separate := separate_edge prof net_of net_contains netmask pivot pivot_rc in
    hops = first :: mid ++ [pivot_rc]
    /\ (netmask <> 0 /\ edge separate first /\ Z.of_nat (length hops) = num_hops
        \/ (netmask <> 0 -> forall rc, ~ edge separate rc)
           /\ (edge (other_edge pivot) first
                /\ Z.of_nat (length hops) = (if netmask =? 0 then num_hops else extended)
               \/ (forall rc, ~ edge (other_edge pivot) rc) /\ first = pivot_rc /\ mid <> []
                  /\ Z.of_nat (length hops) = extended))
    /\ Forall (fun m => m ∈ rcs_order /\ is_bad_for_path prof (rc_router_id m) 1 = false
         /\ apart net_of net_contains netmask first m /\ apart net_of net_contains netmask pivot_rc m) mid
    /\ (forall i j a b, (i < j)%nat -> mid !! i = Some a -> mid !! j = Some b ->
         apart net_of net_contains netmask a b)).
Proof.
  intros Hn Hd Hs edge extended. unfold select_hops_to_remote in Hs.
  destruct (get_rc st pivot) as [pivot_rc|] eqn:Ep; [|done]. exists pivot_rc. split; [done|].
  destruct (Z.leb_spec (num_hops - 1) 0); [split; [congruence|lia]|]. split; [lia|]. intros _.
  destruct (choose_first _ _ _ _ _ _ _ _ _ _) as [[first|] ext] eqn:Ef; [|done].
  apply choose_first_spec in Ef; [|done]. revert Hs. set (needed := if ext && _ then _ else _). intros Hs.
  assert (0 <= needed /\ needed + 2 = if ext then extended else num_hops) as [Hpos Hneed].
  { subst needed extended. unfold BUILD_LENGTH in *. destruct ext; cbn [andb]; [|lia].
    destruct (Z.ltb_spec (num_hops - 1 - 1) (Z.of_nat 8 - 2)); lia. }
  destruct (middle_hops _ _ _ _ _ _ _ _ _ _ _ _) as [res|] eqn:Em; [|done]. injection Hs as <-.
  apply middle_hops_spec in Em as (mid & -> & Hl & Hok); [|done].
  apply (hops_ok_apart prof net_of net_contains netmask rcs_order _ [pivot_rc; first]) in Hok
    as (Hall & Hap & Hpair).
  2: { apply (records_exclude net_of netmask _ [pivot_rc] first).
       apply (records_exclude net_of netmask (mkExcluded {[pivot]} []) [] pivot_rc). constructor. }
  exists first, mid. intros separate. cbn [app length]. rewrite length_app. cbn [length].
  assert (Z.of_nat (S (length mid + 1)) = needed + 2) as -> by lia. rewrite Hneed.
  split_and!; [done| | |exact Hpair].
  - destruct Ef as [(? & ? & ->)|(? & [(? & ->)|(? & -> & ->)])]; [by left|right; split; [done|]..].
    + left. split; [done|]. by destruct (netmask =? 0).
    + right. split_and!; try done. intros ->. simpl in Hl. subst extended. unfold BUILD_LENGTH in *. lia.
  - apply Forall_forall. intros m Hm. rewrite Forall_forall in Hall. destruct (Hall m Hm).
    split_and!; try done; apply Hap; set_solver.
Qed.

(** A client connected to one relay, which is also the pivot: the path is
    extended to go through another relay. *)
Module HopDemo.
Definition rc (k : Z) : RelayContact := mkRC [k] (Addr4 [10; 0; k; 1] [0; 0]) None 0 0 [] [].
Definition st : RCStore :=
  mkStore (<[ [1] := rc 1]> (<[ [2] := rc 2]> {[ [3] := rc 3 ]})) [] [] [].
Definition env : RouterEnv := mkEnv false [] ∅ ∅.
Definition prof : Profiling := mkProfiling ∅ false.
(** The networks of the first three bytes. *)
Definition net_of (a : Address) (m : Z) : bytes := match a with Addr4 ip _ => take 3 ip | Addr6 ip _ => take 3 ip end.
Definition net_contains (n : bytes) (a : Address) : bool := bool_decide (net_of a 24 = n).
End HopDemo.

Lemma select_hops_spec_witness :
  exists first mid pivot_rc,
    select_hops_to_remote HopDemo.env 0 HopDemo.st HopDemo.prof HopDemo.net_of HopDemo.net_contains 24
      [HopDemo.rc 1; HopDemo.rc 2; HopDemo.rc 3] [[1]] 2 [1] (fun _ => 0%nat) (fun _ => 0%nat) (fun _ => 0%nat)
      (fun _ _ => 0%nat) = Some (first :: mid ++ [pivot_rc])
    /\ first = pivot_rc /\ mid <> [].
Proof.
  destruct (select_hops_to_remote HopDemo.env 0 HopDemo.st HopDemo.prof HopDemo.net_of HopDemo.net_contains 24
      [HopDemo.rc 1; HopDemo.rc 2; HopDemo.rc 3] [[1]] 2 [1] (fun _ => 0%nat) (fun _ => 0%nat) (fun _ => 0%nat)
      (fun _ _ => 0%nat)) as [hops|] eqn:E; [|vm_compute in E; discriminate].
  destruct (select_hops_spec HopDemo.env 0 HopDemo.st HopDemo.prof HopDemo.net_of HopDemo.net_contains 24
      [HopDemo.rc 1; HopDemo.rc 2; HopDemo.rc 3] [[1]] 2 [1] (fun _ => 0%nat) (fun _ => 0%nat) (fun _ => 0%nat)
      (fun _ _ => 0%nat) hops) as (pivot_rc & Hp & _ & Hpath).
  - unfold BUILD_LENGTH. lia.
  - lia.
  - exact E.
  - destruct Hpath as (first & mid & -> & Hfirst & _); [lia|]. exists first, mid, pivot_rc.
    split; [reflexivity|].
    assert (forall rc, ~ candidate HopDemo.st HopDemo.prof [[1]] (other_edge [1]) rc) as Hno.
    { intros rc [Hrc (rid & Hin & Hg & _)]. apply list_elem_of_singleton in Hin. subst rid.
      vm_compute in Hg. injection Hg as <-. apply Hrc. reflexivity. }
    destruct Hfirst as [(_ & [Hs Hc] & _)|[_ [[Hc _]|(_ & Hf & Hm & _)]]].
    + exfalso. apply (Hno first). split; [exact (proj1 Hs)|exact Hc].
    + exfalso. exact (Hno first Hc).
    + exact (conj Hf Hm).
Defined.

(** The backoff: none below three failures in a row, then one second more for
    each further failure, never more than fifteen. *)
Lemma cooldown_spec failures last now :
  cooldown failures last now = true <->
  3 <= failures /\ now < last + Z.min (1000 * (failures - 2)) 15000.
Proof.
  unfold cooldown, BACKOFF_THRESHOLD, BACKOFF_INCREMENT, BACKOFF_MAX.
  destruct (Z.ltb_spec failures 3); [lia|].
  rewrite Z.ltb_lt. replace (1 + failures - 3) with (failures - 2) by lia. lia.
Qed.
