(* ===== verification/PathHandler.v ===== *)
(** * The path handler (path/path_handler.{hpp,cpp}, path/build_stats.hpp, pings of path/path.cpp)

    The paths a session or the session endpoint owns: builds that are started,
    succeed or fail, paths that expire or are dropped, and the pings that find
    dead ones.  Paths are objects in the heap of the path context; the handler and
    the context file pointers to them under the edge's rxid.  The hops of a build
    are chosen in HopSelection.v and its message is made in Path.v.  Times are
    milliseconds. *)

From Stdlib Require Import ZArith Lia.
From stdpp Require Import base list numbers strings gmap.
From coqutil Require Import Datatypes.RecordSettersUsingExistingGetters.
From S2P Require Import Prelude Oxenc Crypto RelayContact Profiling Path PathContext PathBuild.

Local Open Scope router_scope.

#[global] Arguments RecordSettersUsingExistingGetters.const {E} newValue / _.

(** [BuildStats] *)
Record BuildStats := mkStats {
  bs_attempts : Z;
  bs_success : Z;
  bs_build_fails : Z;
  bs_path_fails : Z;
  bs_timeouts : Z;
  bs_last_warn_time : Z;
}.

(** [BuildStats::update()]: when it warns is all that it remembers. *)
Definition stats_update (steady_now : Z) (s : BuildStats) : BuildStats :=
  if ((50 <? bs_attempts s) && (bs_success s * 4 <=? bs_attempts s) && (5000 <? steady_now - bs_last_warn_time s))%Z
  then s <| bs_last_warn_time := steady_now |> else s.

(** The ping state of a [Path]. *)
Record PingState := mkPing {
  next_ping : Z;
  ping_responses : Z;
  ping_timeouts : Z;
  ping_recent_timeouts : Z;
  ping_last : Z;
  ping_cumulative : Z;
  ping_abs_diffs : Z;
}.
Definition no_pings : PingState := mkPing 0 0 0 0 0 0 0.

Record Handler := mkHandler {
  ph_running : bool;
  ph_num_hops : Z;
  ph_target_paths : Z;
  ph_path_counter : Z;
  ph_failures : Z;
  ph_last_failure : Z;
  ph_paths : gmap bytes nat;
}.

(** [PathHandler::PathHandler(r, target_paths, num_hops)] *)
Definition Handler_new (target_paths num_hops : Z) : Handler := mkHandler true num_hops target_paths 0 0 0 ∅.

(** A handler with what it shares with the rest of the router; [w_pending] are the
    path_build requests whose response has not come yet, by build id. *)
Record World := mkWorld {
  w_ctx : PathContext;
  w_handler : Handler;
  w_stats : BuildStats;
  w_prof : Profiling;
  w_pings : gmap nat PingState;
  w_pending : gmap Z nat;
}.

Definition on_ctx (f : PathContext -> PathContext) (w : World) : World := w <| w_ctx ::= f |>.
Definition on_handler (f : Handler -> Handler) (w : World) : World := w <| w_handler ::= f |>.
Definition with_path_heap (f : gmap nat Path -> gmap nat Path) (c : PathContext) : PathContext :=
  mkCtx (hop_heap c) (f (path_heap c)) (next_ptr c) (transit_hops c) (path_map c) (allow_transit_flag c).

(** ** [Path] *)
Definition path_is_expired (now : Z) (p : Path) : bool := (path_expiry p <? now)%Z.
Definition path_is_active (now : Z) (p : Path) : bool := is_established p && negb (path_is_expired now p).
Definition path_expires_in (now : Z) (p : Path) : Z := (path_expiry p - now)%Z.
Definition set_established (p : Path) : Path :=
  mkPath (hops p) (path_expiry p) (is_built p) true (path_dead p) (aligned_hopid p).
Definition set_path_expiry (e : Z) (p : Path) : Path :=
  mkPath (hops p) e (is_built p) (is_established p) (path_dead p) (aligned_hopid p).
Definition set_aligned (id : bytes) (p : Path) : Path :=
  mkPath (hops p) (path_expiry p) (is_built p) (is_established p) (path_dead p) (Some id).

(** [Path::terminal_hopid()], [Path::terminal_rid()] *)
Definition terminal_hopid (p : Path) : bytes := match last (hops p) with Some h => txid h | None => [] end.
Definition terminal_rid (p : Path) : bytes := match last (hops p) with Some h => router_id h | None => [] end.

(** The paths of a handler: the values of [_paths]. *)
Definition get_handler_path (w : World) (id : bytes) : option Path :=
  ph_paths (w_handler w) !! id ≫= fun p => path_heap (w_ctx w) !! p.
Definition all_paths (w : World) : list Path :=
  omap (fun kv => path_heap (w_ctx w) !! kv.2) (map_to_list (ph_paths (w_handler w))).

(** ** The table *)

(** [add_path(p)] for the path at [p]. *)
Definition handler_add_path (p : nat) (w : World) : World :=
  match path_heap (w_ctx w) !! p with
  | Some path => on_ctx (add_path p) (on_handler (fun h => h <| ph_paths ::= insert (edge_rxid path) p |>) w)
  | None => w
  end.

(** [drop_path(p)] *)
Definition drop_path (path : Path) (w : World) : World :=
  on_ctx (drop_path_ctx path) (on_handler (fun h => h <| ph_paths ::= delete (edge_rxid path) |>) w).

(** One iteration of [expire_paths]' loop. *)
Definition expire_path (now : Z) (w : World) (kv : bytes * nat) : World :=
  match path_heap (w_ctx w) !! kv.2 with
  | Some path =>
    if path_is_expired now path
    then on_handler (fun h => h <| ph_paths ::= delete kv.1 |>) (on_ctx (drop_path_ctx path) w)
    else w
  | None => w
  end.

(** [expire_paths(now)]; also whether it calls [no_established_paths_left]. *)
Definition expire_paths (now : Z) (w : World) : World * bool :=
  let expired := filter (fun path => path_is_expired now path) (all_paths w) in
  let still_established := filter (fun path => negb (path_is_expired now path) && is_established path) (all_paths w) in
  (foldl (expire_path now) w (map_to_list (ph_paths (w_handler w))),
   match expired, still_established with _ :: _, [] => true | _, _ => false end).

(** [invalidate_paths()] *)
Definition invalidate_path (w : World) (kv : bytes * nat) : World :=
  on_handler (fun h => h <| ph_paths ::= delete kv.1 |>)
    (match path_heap (w_ctx w) !! kv.2 with Some path => on_ctx (drop_path_ctx path) w | None => w end).
Definition invalidate_paths (w : World) : World :=
  foldl invalidate_path w (map_to_list (ph_paths (w_handler w))).

(** [get_path_by_edge(id)], [get_path_by_terminus(id)] (the first of the iteration order). *)
Definition get_path_by_edge (w : World) (id : bytes) : option nat := ph_paths (w_handler w) !! id.
Definition get_path_by_terminus (w : World) (id : bytes) : option Path :=
  list_find (fun path => terminal_hopid path = id) (all_paths w) ≫= fun r => Some r.2.

(** [num_active_paths(expiry_ts)], [num_paths(expiry_ts)] *)
Definition num_active_paths (now expiry_ts : Z) (w : World) : nat :=
  length (filter (fun path => path_is_active now path && negb (path_is_expired expiry_ts path)) (all_paths w)).
Definition num_paths (expiry_ts : Z) (w : World) : nat :=
  length (filter (fun path => negb (path_is_expired expiry_ts path)) (all_paths w)).

(** [stop()], [is_stopped()] *)
Definition handler_stop (w : World) : World :=
  on_handler (fun h => h <| ph_running := false |> <| ph_paths := ∅ |>) w.
Definition is_stopped (w : World) : bool := negb (ph_running (w_handler w)).

(** ** Builds *)

(** [can_build(hops)] *)
Definition can_build (w : World) (rcs : list RelayContact) : bool :=
  ph_running (w_handler w) && negb (bool_decide (rcs = [])) && bool_decide (length rcs <= BUILD_LENGTH).

(** [std::make_shared<Path>(...)] *)
Definition alloc_path (path : Path) (c : PathContext) : PathContext :=
  mkCtx (hop_heap c) (<[next_ptr c := path]> (path_heap c)) (S (next_ptr c)) (transit_hops c) (path_map c)
    (allow_transit_flag c).

(** [build_init_path(hops, expiry_ts)] for the path its constructor makes. *)
Definition build_init_path (path : Path) (w : World) : World * option nat :=
  let p := next_ptr (w_ctx w) in
  let w := on_ctx (alloc_path path) w in
  match ph_paths (w_handler w) !! edge_rxid path with
  | Some _ => (w, None)
  | None => (on_handler (fun h => h <| ph_paths ::= insert (edge_rxid path) p |>) w, Some p)
  end.

(** [path_build_failed(build_id, p, timeout)] up to the call of the subclass hook
    [on_path_build_failure]; [p] is the path at a pointer, or nullptr. *)
Definition path_build_failed (now steady_now : Z) (p : option nat) (timeout : bool) (w : World) : World :=
  let w := match p ≫= fun p => path_heap (w_ctx w) !! p with
           | Some path =>
             let w := drop_path path w in
             if timeout then w <| w_prof ::= fun s => profile_path_timeout s (router_id <$> hops path) now |> else w
           | None => w
           end in
  let w := w <| w_stats ::= fun s =>
               if timeout then s <| bs_timeouts ::= Z.succ |> else s <| bs_build_fails ::= Z.succ |> |> in
  on_handler (fun h => h <| ph_last_failure := steady_now |> <| ph_failures ::= Z.succ |>) w.

(** [path_build_succeeded(build_id, p)] up to the call of [on_path_build_success]. *)
Definition path_build_succeeded (now : Z) (p : nat) (w : World) : World :=
  let w := on_ctx (with_path_heap (alter set_established p)) w in
  let w := handler_add_path p w in
  let hop_ids := match path_heap (w_ctx w) !! p with Some path => router_id <$> hops path | None => [] end in
  let w := w <| w_prof ::= fun s => profile_path_success s hop_ids now |>
             <| w_stats ::= fun s => s <| bs_success ::= Z.succ |> |> in
  on_handler (fun h => h <| ph_failures := 0%Z |>) w.

Section Build.
Context `{Sodium} `{Oxenc}.

(** [send_path_build(new_path, id)]: [rnd] and [junk] are the random draws of the
    onion, [sent] is what [send_command] returns.  The callback it registers stays
    in [w_pending] until the response comes. *)
Definition send_path_build (rnd : nat -> HopRandom) (junk : bytes) (sent : bool) (now steady_now : Z)
    (p : nat) (id : Z) (w : World) : World * outcome string bool :=
  match path_heap (w_ctx w) !! p with
  | None => (w, Ok false)
  | Some path =>
    match path_build_onion rnd junk now path with
    | Throw e => (w, Throw e)
    | Ok (path, _) =>
      let w := on_ctx (with_path_heap (insert p path)) w in
      let w := w <| w_stats ::= fun s => s <| bs_attempts ::= Z.succ |> |> in
      if sent then (w <| w_pending ::= insert id p |>, Ok true)
      else (path_build_failed now steady_now (Some p) false w, Ok false)
    end
  end.

(** [build(hops, expiry_ts)]: the path that is being built.  [self] and [rng] are
    the arguments of the [Path] constructor.  The boolean tells whether the build
    failed at once, in which case the subclass hook has been called. *)
Definition build (self : bytes) (rng : nat -> bytes) (rnd : nat -> HopRandom) (junk : bytes) (sent : bool)
    (now steady_now : Z) (rcs : list RelayContact) (expiry_ts : Z) (w : World)
    : World * outcome string (option nat) :=
  let fail w := (path_build_failed now steady_now None false w, Ok None) in
  if can_build w rcs then
    match build_init_path (Path_new self rng rcs expiry_ts) w with
    | (w, Some p) =>
      let id := (ph_path_counter (w_handler w) + 1)%Z in
      let w := on_handler (fun h => h <| ph_path_counter := id |>) w in
      match send_path_build rnd junk sent now steady_now p id w with
      | (w, Ok true) => (w, Ok (Some p))
      | (w, Ok false) => (w, Ok None)
      | (w, Throw e) => (w, Throw e)
      end
    | (w, None) => fail w
    end
  else fail w.
End Build.

(** The response of the path_build with the given id: [None] when it timed out,
    otherwise whether it reports success. *)
Definition build_response (now steady_now : Z) (id : Z) (response : option bool) (w : World) : World :=
  match w_pending w !! id with
  | None => w
  | Some p =>
    let w := w <| w_pending ::= delete id |> in
    match response with
    | Some true => path_build_succeeded now p w
    | Some false => path_build_failed now steady_now (Some p) false w
    | None => path_build_failed now steady_now (Some p) true w
    end
  end.

(** ** Pings *)

(** [Path::do_ping(start_time)] for the path at [p]: whether a ping is sent. *)
Definition do_ping (ping_interval now start_time : Z) (p : nat) (w : World) : World * bool :=
  match path_heap (w_ctx w) !! p with
  | None => (w, false)
  | Some path =>
    let st := default no_pings (w_pings w !! p) in
    if negb (path_is_active now path) || (start_time <? next_ping st)%Z then (w, false)
    else (w <| w_pings ::= insert p (st <| next_ping := start_time + ping_interval - 20 |>%Z) |>, true)
  end.

(** What came back for a ping. *)
Inductive PingResult : Type := PingOk | PingTimeout | PingError.

(** The callback of [do_ping]: a path with too many missed pings, or an error, expires. *)
Definition ping_response (max_missed_pings time_taken : Z) (r : PingResult) (p : nat) (w : World) : World :=
  let st := default no_pings (w_pings w !! p) in
  let expire w := on_ctx (with_path_heap (alter (set_path_expiry 0) p)) w in
  match r with
  | PingOk =>
    let responses := (ping_responses st + 1)%Z in
    w <| w_pings ::= insert p
          (st <| ping_responses := responses |>
              <| ping_abs_diffs ::= fun d => if (1 <? responses)%Z then (d + Z.abs (time_taken - ping_last st))%Z else d |>
              <| ping_last := time_taken |> <| ping_recent_timeouts := 0%Z |>
              <| ping_cumulative ::= Z.add time_taken |>) |>
  | PingTimeout =>
    let st := st <| ping_timeouts ::= Z.succ |> <| ping_recent_timeouts ::= Z.succ |> in
    let w := w <| w_pings ::= insert p st |> in
    if (max_missed_pings <? ping_recent_timeouts st)%Z then expire w else w
  | PingError => expire w
  end.

(** [ping_paths()]: the pointers of the paths that are pinged. *)
Definition ping_paths (ping_interval now steady_now : Z) (w : World) : World * list nat :=
  foldl (fun '(w, sent) kv =>
    let '(w, b) := do_ping ping_interval now steady_now kv.2 w in (w, if b : bool then sent ++ [kv.2] else sent))
    (w, []) (map_to_list (ph_paths (w_handler w))).

(** ** What can happen to a handler *)
Section Steps.
Context `{Sodium} `{Oxenc}.

(** A build draws a hop id that no path has: HopIDs are 128 random bits. *)
Definition fresh_edge (rng : nat -> bytes) (w : World) : Prop :=
  forall p path, path_heap (w_ctx w) !! p = Some path -> edge_rxid path <> rng 0.

Inductive ph_step : World -> World -> Prop :=
| step_build self rng rnd junk sent now steady rcs exp w :
    fresh_edge rng w -> ph_step w (build self rng rnd junk sent now steady rcs exp w).1
| step_response now steady id r w : ph_step w (build_response now steady id r w)
| step_expire now w : ph_step w (expire_paths now w).1
| step_drop id p path w :
    ph_paths (w_handler w) !! id = Some p -> path_heap (w_ctx w) !! p = Some path -> ph_step w (drop_path path w)
| step_invalidate w : ph_step w (invalidate_paths w)
| step_stop w : ph_step w (handler_stop w)
| step_align p id w : ph_step w (on_ctx (with_path_heap (alter (set_aligned id) p)) w)
| step_ping interval now start p w : ph_step w (do_ping interval now start p w).1
| step_pong max taken r p w : ph_step w (ping_response max taken r p w).

Inductive ph_reachable : World -> Prop :=
| reach_init target hops stats prof :
    ph_reachable (mkWorld empty_ctx (Handler_new target hops) stats prof ∅ ∅)
| reach_step w w' : ph_reachable w -> ph_step w w' -> ph_reachable w'.
End Steps.

Record ph_inv (w : World) : Prop := {
  (** entries point to paths filed under their edge's id *)
  inv_paths id p : ph_paths (w_handler w) !! id = Some p ->
    exists path, path_heap (w_ctx w) !! p = Some path /\ edge_rxid path = id;
  inv_map id p : path_map (w_ctx w) !! id = Some p ->
    exists path, path_heap (w_ctx w) !! p = Some path /\ edge_rxid path = id
      /\ is_established path = true /\ path_dead path = false;
  (** no two paths have the same edge id *)
  inv_unique p q path path' : path_heap (w_ctx w) !! p = Some path -> path_heap (w_ctx w) !! q = Some path' ->
    edge_rxid path = edge_rxid path' -> p = q;
  (** an established path of the handler is registered in the context *)
  inv_registered id p path : ph_paths (w_handler w) !! id = Some p -> path_heap (w_ctx w) !! p = Some path ->
    is_established path = true -> path_map (w_ctx w) !! id = Some p;
  (** a path whose build is pending is neither established nor dead *)
  inv_pending id p : w_pending w !! id = Some p ->
    exists path, path_heap (w_ctx w) !! p = Some path /\ is_established path = false /\ path_dead path = false;
  inv_pending_inj id id' p : w_pending w !! id = Some p -> w_pending w !! id' = Some p -> id = id';
  inv_counter id p : w_pending w !! id = Some p -> (id <= ph_path_counter (w_handler w))%Z;
  inv_fresh p : next_ptr (w_ctx w) <= p -> path_heap (w_ctx w) !! p = None;
}.

Ltac world_cbn :=
  cbn [set RecordSettersUsingExistingGetters.const on_ctx on_handler w_ctx w_handler w_stats w_prof w_pings w_pending
       ph_running ph_num_hops ph_target_paths ph_path_counter ph_failures ph_last_failure ph_paths
       with_path_heap with_paths path_heap path_map next_ptr hop_heap transit_hops] in *.

Lemma ph_inv_init target hops stats prof : ph_inv (mkWorld empty_ctx (Handler_new target hops) stats prof ∅ ∅).
Proof.
  split; cbn; intros *; rewrite ?lookup_empty; try discriminate. done.
Qed.

(** The invariant looks at no other part of the world. *)
Lemma ph_inv_frame w w' :
  w_ctx w' = w_ctx w -> ph_paths (w_handler w') = ph_paths (w_handler w) ->
  ph_path_counter (w_handler w') = ph_path_counter (w_handler w) -> w_pending w' = w_pending w ->
  ph_inv w -> ph_inv w'.
Proof. intros E1 E2 E3 E4 []. split; rewrite ?E1, ?E2, ?E3, ?E4; done. Qed.

(** A change of paths that keeps edge, established and dead marks. *)
Lemma ph_inv_alter f p w :
  (forall path, path_heap (w_ctx w) !! p = Some path ->
     edge_rxid (f path) = edge_rxid path /\ is_established (f path) = is_established path
     /\ path_dead (f path) = path_dead path) ->
  ph_inv w -> ph_inv (on_ctx (with_path_heap (alter f p)) w).
Proof.
  intros Hf [I1 I2 I3 I4 I5 I6 I7 I8]. split; world_cbn.
  - intros id q Hq. destruct (I1 id q Hq) as (path & Hh & He). destruct (decide (p = q)) as [<-|].
    + rewrite lookup_alter_eq, Hh. exists (f path). split; [done|]. by rewrite (proj1 (Hf path Hh)).
    + rewrite lookup_alter_ne by done. eauto.
  - intros id q Hq. destruct (I2 id q Hq) as (path & Hh & He & Hs & Hd). destruct (decide (p = q)) as [<-|].
    + rewrite lookup_alter_eq, Hh. exists (f path). destruct (Hf path Hh) as (-> & -> & ->). done.
    + rewrite lookup_alter_ne by done. eauto.
  - intros a b pa pb Ha Hb He.
    assert (forall q path, alter f p (path_heap (w_ctx w)) !! q = Some path ->
      exists path0, path_heap (w_ctx w) !! q = Some path0 /\ edge_rxid path0 = edge_rxid path) as Hback.
    { intros q path Hq. destruct (decide (p = q)) as [<-|].
      - rewrite lookup_alter_eq in Hq. destruct (path_heap (w_ctx w) !! p) as [path0|] eqn:Ep; [|done].
        injection Hq as <-. exists path0. split; [done|]. symmetry. by apply Hf.
      - rewrite lookup_alter_ne in Hq by done. eauto. }
    destruct (Hback a pa Ha) as (pa0 & Ha0 & Ea). destruct (Hback b pb Hb) as (pb0 & Hb0 & Eb).
    eapply I3; [exact Ha0 | exact Hb0 | congruence].
  - intros id q path Hq Hh Hs. destruct (I1 id q Hq) as (path0 & Hh0 & _).
    apply (I4 id q path0 Hq Hh0). destruct (decide (p = q)) as [<-|].
    + rewrite lookup_alter_eq, Hh0 in Hh. injection Hh as <-. by rewrite (proj1 (proj2 (Hf path0 Hh0))) in Hs.
    + rewrite lookup_alter_ne in Hh by done. congruence.
  - intros id q Hq. destruct (I5 id q Hq) as (path & Hh & Hs & Hd). destruct (decide (p = q)) as [<-|].
    + rewrite lookup_alter_eq, Hh. exists (f path). destruct (Hf path Hh) as (_ & -> & ->). done.
    + rewrite lookup_alter_ne by done. eauto.
  - done.
  - done.
  - intros q Hq. destruct (decide (p = q)) as [<-|].
    + rewrite lookup_alter_eq, (I8 p Hq). done.
    + rewrite lookup_alter_ne by done. auto.
Qed.

(** ** The invariant holds in every reachable state *)

(** The pointer whose path [drop_path_ctx] marks dead. *)
Lemma ph_inv_drop path w : ph_inv w -> ph_inv (drop_path path w).
Proof.
  intros [I1 I2 I3 I4 I5 I6 I7 I8]. unfold drop_path, drop_path_ctx.
  set (e := edge_rxid path). world_cbn. destruct (path_map (w_ctx w) !! e) as [q|] eqn:Eq.
  - destruct (I2 e q Eq) as (pq & Hq & Eqe & Hqs & Hqd).
    assert (forall r x, alter set_path_dead q (path_heap (w_ctx w)) !! r = Some x ->
      exists x0, path_heap (w_ctx w) !! r = Some x0 /\ edge_rxid x0 = edge_rxid x
        /\ is_established x0 = is_established x /\ (r <> q -> x0 = x)) as Hback.
    { intros r x Hr. destruct (decide (q = r)) as [<-|].
      - rewrite lookup_alter_eq, Hq in Hr. injection Hr as <-. exists pq. done.
      - rewrite lookup_alter_ne in Hr by done. exists x. done. }
    split; world_cbn; rewrite ?Eq; world_cbn.
    + intros id r Hr. apply lookup_delete_Some in Hr as [Hne Hr]. destruct (I1 id r Hr) as (x & Hx & Ex).
      assert (r <> q) by (intros ->; congruence). rewrite lookup_alter_ne by done. eauto.
    + intros id r Hr. apply lookup_delete_Some in Hr as [Hne Hr]. destruct (I2 id r Hr) as (x & Hx & Ex & Hs & Hd).
      assert (r <> q) by (intros ->; congruence). rewrite lookup_alter_ne by done. eauto.
    + intros a b pa pb Ha Hb He. destruct (Hback a pa Ha) as (xa & Hxa & Ea & _).
      destruct (Hback b pb Hb) as (xb & Hxb & Eb & _). eapply I3; [exact Hxa | exact Hxb | congruence].
    + intros id r x Hr Hx Hs. apply lookup_delete_Some in Hr as [Hne Hr].
      destruct (Hback r x Hx) as (x0 & Hx0 & _ & Hs0 & _).
      rewrite lookup_delete_ne by done. apply (I4 id r x0 Hr Hx0). congruence.
    + intros id r Hr. destruct (I5 id r Hr) as (x & Hx & Hs & Hd).
      assert (r <> q) by (intros ->; congruence). rewrite lookup_alter_ne by done. eauto.
    + done.
    + done.
    + intros r Hr. destruct (decide (q = r)) as [<-|].
      * by rewrite lookup_alter_eq, (I8 q Hr).
      * rewrite lookup_alter_ne by done. auto.
  - split; world_cbn; rewrite ?Eq; world_cbn; try done.
    + intros id r Hr. apply lookup_delete_Some in Hr as [_ Hr]. by apply I1.
    + intros id r x Hr. apply lookup_delete_Some in Hr as [_ Hr]. by apply I4.
Qed.

(** The edge ids of the paths are the same in [w'] as in [w]. *)
Definition same_edges (w w' : World) : Prop :=
  forall p, edge_rxid <$> path_heap (w_ctx w') !! p = edge_rxid <$> path_heap (w_ctx w) !! p.

Lemma same_edges_drop path w : same_edges w (drop_path path w).
Proof.
  intros p. unfold drop_path. world_cbn. unfold drop_path_ctx.
  destruct (path_map (w_ctx w) !! edge_rxid path) as [q|]; [|done]. world_cbn. destruct (decide (q = p)) as [<-|]; [rewrite lookup_alter_eq | by rewrite lookup_alter_ne].
  by destruct (path_heap (w_ctx w) !! q).
Qed.

Lemma expire_path_drop now w id p :
  edge_rxid <$> path_heap (w_ctx w) !! p = Some id ->
  expire_path now w (id, p) = w
  \/ exists path, path_heap (w_ctx w) !! p = Some path /\ expire_path now w (id, p) = drop_path path w.
Proof.
  intros He. unfold expire_path. cbn [fst snd].
  destruct (path_heap (w_ctx w) !! p) as [path|]; [|by left]. injection He as <-.
  destruct (path_is_expired now path); [|by left]. right. eauto.
Qed.

Lemma invalidate_path_drop w id p :
  edge_rxid <$> path_heap (w_ctx w) !! p = Some id ->
  exists path, path_heap (w_ctx w) !! p = Some path /\ invalidate_path w (id, p) = drop_path path w.
Proof.
  intros He. unfold invalidate_path. cbn [fst snd].
  destruct (path_heap (w_ctx w) !! p) as [path|]; [|done]. injection He as <-. eauto.
Qed.

(** Loops over the table that drop some of its paths. *)
Lemma ph_inv_drops (f : World -> bytes * nat -> World) l w :
  (forall w id p, edge_rxid <$> path_heap (w_ctx w) !! p = Some id ->
     f w (id, p) = w \/ exists path, path_heap (w_ctx w) !! p = Some path /\ f w (id, p) = drop_path path w) ->
  (forall id p, (id, p) ∈ l -> edge_rxid <$> path_heap (w_ctx w) !! p = Some id) ->
  ph_inv w -> ph_inv (foldl f w l).
Proof.
  intros Hf. revert w. induction l as [|[id p] l IH]; intros w Hl Hw; [done|]. cbn [foldl].
  destruct (Hf w id p) as [->|(path & Hp & ->)]; [apply Hl; set_solver | apply IH; [set_solver | done]|].
  apply IH; [|by apply ph_inv_drop].
  intros id' p' Hin. rewrite (same_edges_drop path w p'). apply Hl. set_solver.
Qed.

Lemma table_edges w id p :
  ph_inv w -> (id, p) ∈ map_to_list (ph_paths (w_handler w)) -> edge_rxid <$> path_heap (w_ctx w) !! p = Some id.
Proof. intros Hw Hin%elem_of_map_to_list. destruct (inv_paths w Hw id p Hin) as (path & -> & <-). done. Qed.

Lemma ph_inv_expire now w : ph_inv w -> ph_inv (expire_paths now w).1.
Proof.
  intros Hw. apply ph_inv_drops; [intros; by apply expire_path_drop | | done]. intros. by apply table_edges.
Qed.

Lemma ph_inv_invalidate w : ph_inv w -> ph_inv (invalidate_paths w).
Proof.
  intros Hw. apply ph_inv_drops; [intros; right; by apply invalidate_path_drop | | done]. intros. by apply table_edges.
Qed.

Lemma ph_inv_failed now steady p timeout w : ph_inv w -> ph_inv (path_build_failed now steady p timeout w).
Proof.
  intros Hw. unfold path_build_failed.
  set (w1 := match p ≫= _ with Some _ => _ | None => _ end).
  assert (ph_inv w1) as H1.
  { unfold w1. destruct (p ≫= _) as [path|]; [|done]. destruct timeout; [|by apply ph_inv_drop].
    eapply ph_inv_frame; [..|by apply (ph_inv_drop path)]; done. }
  eapply ph_inv_frame; [..|exact H1]; done.
Qed.

(** What the handler and the context hold after a successful build. *)
Lemma path_build_succeeded_parts now p path w :
  path_heap (w_ctx w) !! p = Some path -> path_map (w_ctx w) !! edge_rxid path = None ->
  let w' := path_build_succeeded now p w in
  path_heap (w_ctx w') = alter set_established p (path_heap (w_ctx w)) /\
  path_map (w_ctx w') = <[edge_rxid path := p]> (path_map (w_ctx w)) /\
  next_ptr (w_ctx w') = next_ptr (w_ctx w) /\
  ph_paths (w_handler w') = <[edge_rxid path := p]> (ph_paths (w_handler w)) /\
  ph_path_counter (w_handler w') = ph_path_counter (w_handler w) /\ w_pending w' = w_pending w.
Proof.
  intros Hp Hnone. assert (alter set_established p (path_heap (w_ctx w)) !! p = Some (set_established path)) as Hp'
    by (by rewrite lookup_alter_eq, Hp).
  unfold path_build_succeeded, handler_add_path, add_path. world_cbn. rewrite Hp'. world_cbn. rewrite Hp'.
  unfold emplace. world_cbn. change (edge_rxid (set_established path)) with (edge_rxid path). by rewrite Hnone.
Qed.

(** A path that is not established and no longer pending becomes the handler's. *)
Lemma ph_inv_succeeded now p path w :
  ph_inv w -> path_heap (w_ctx w) !! p = Some path -> is_established path = false -> path_dead path = false ->
  (forall id, w_pending w !! id <> Some p) ->
  ph_inv (path_build_succeeded now p w).
Proof.
  intros [I1 I2 I3 I4 I5 I6 I7 I8] Hp Hs Hd Hpend.
  set (e := edge_rxid path).
  assert (path_map (w_ctx w) !! e = None) as Hnone.
  { destruct (path_map (w_ctx w) !! e) as [q|] eqn:E; [|done]. destruct (I2 e q E) as (x & Hx & Ex & Hxs & _).
    assert (q = p) as -> by (eapply I3; eauto). congruence. }
  assert (forall r x, alter set_established p (path_heap (w_ctx w)) !! r = Some x ->
    exists x0, path_heap (w_ctx w) !! r = Some x0 /\ edge_rxid x0 = edge_rxid x /\ (r <> p -> x0 = x)) as Hback.
  { intros r x Hr. destruct (decide (p = r)) as [<-|].
    - rewrite lookup_alter_eq, Hp in Hr. injection Hr as <-. exists path. done.
    - rewrite lookup_alter_ne in Hr by done. exists x. done. }
  destruct (path_build_succeeded_parts now p path w Hp Hnone) as (E1 & E2 & E3 & E4 & E5 & E6).
  split; rewrite ?E1, ?E2, ?E3, ?E4, ?E5, ?E6; fold e.
  - intros id r Hr. apply lookup_insert_Some in Hr as [[<- <-]|[Hne Hr]].
    + rewrite lookup_alter_eq, Hp. by exists (set_established path).
    + destruct (I1 id r Hr) as (x & Hx & Ex).
      assert (r <> p) by (intros ->; assert (x = path) as -> by congruence; done).
      rewrite lookup_alter_ne by done. eauto.
  - intros id r Hr. apply lookup_insert_Some in Hr as [[<- <-]|[Hne Hr]].
    + rewrite lookup_alter_eq, Hp. by exists (set_established path).
    + destruct (I2 id r Hr) as (x & Hx & Ex & Hxs & Hxd).
      assert (r <> p) by (intros ->; congruence). rewrite lookup_alter_ne by done. eauto.
  - intros a b pa pb Ha Hb He. destruct (Hback a pa Ha) as (xa & Hxa & Ea & _).
    destruct (Hback b pb Hb) as (xb & Hxb & Eb & _). eapply I3; [exact Hxa | exact Hxb | congruence].
  - intros id r x Hr Hx Hxs. apply lookup_insert_Some in Hr as [[<- <-]|[Hne Hr]]; [by rewrite lookup_insert_eq|].
    rewrite lookup_insert_ne by done. destruct (I1 id r Hr) as (x1 & Hx1 & Ex1).
    assert (r <> p) as Hrp by (intros ->; assert (x1 = path) as -> by congruence; done).
    rewrite lookup_alter_ne in Hx by done. by apply (I4 id r x).
  - intros id r Hr. destruct (I5 id r Hr) as (x & Hx & Hxs & Hxd).
    assert (r <> p) by (intros ->; by apply (Hpend id)). rewrite lookup_alter_ne by done. eauto.
  - done.
  - done.
  - intros r Hr. destruct (decide (p = r)) as [<-|]; [rewrite (I8 p Hr) in Hp; done|].
    rewrite lookup_alter_ne by done. auto.
Qed.

Lemma ph_inv_response now steady id r w : ph_inv w -> ph_inv (build_response now steady id r w).
Proof.
  intros Hw. unfold build_response. destruct (w_pending w !! id) as [p|] eqn:Ep; [|done].
  assert (ph_inv (w <| w_pending ::= delete id |>)) as H1.
  { destruct Hw. split; world_cbn; try done.
    - intros i q [_ Hq]%lookup_delete_Some. eauto.
    - intros i j q [_ Hq]%lookup_delete_Some [_ Hq']%lookup_delete_Some. eauto.
    - intros i q [_ Hq]%lookup_delete_Some. eauto. }
  destruct (inv_pending w Hw id p Ep) as (path & Hp & Hs & Hd).
  destruct r as [[]|]; [|by apply ph_inv_failed..].
  apply (ph_inv_succeeded now p path); [done..|]. world_cbn.
  intros id' [Hne Hq]%lookup_delete_Some. apply Hne. by eapply (inv_pending_inj w Hw).
Qed.

Section BuildInv.
Context `{Sodium} `{Oxenc}.

(** Making the onion gives the hops their keys and nothing else. *)
Lemma onion_loop_rxid rnd lifetime n k hs result hs' result' :
  onion_loop rnd lifetime n k hs result = Ok (hs', result') -> rxid <$> hs' = rxid <$> hs.
Proof.
  revert hs result. induction k as [|i IH]; intros hs result; cbn [onion_loop]; [by intros [= <- <-]|].
  intros E. apply outcome_bind_Ok in E as (hop & Eh & E). apply or_throw_Ok in Eh.
  apply throw_if_Ok in E as [_ E]. apply outcome_bind_Ok in E as ([[hop' encoded] nonce] & Ee & E).
  assert (rxid hop' = rxid hop) as Hrx.
  { destruct (version hop =? 0)%Z; [unfold encode_frame_v0 in Ee | unfold encode_frame_v1 in Ee];
      outcome_inv Ee; by injection Ee as <- _ _. }
  rewrite (IH _ _ E), list_fmap_insert, Hrx. apply list_insert_id. by rewrite list_lookup_fmap, Eh.
Qed.

Lemma path_build_onion_marks rnd junk now path path' msg :
  path_build_onion rnd junk now path = Ok (path', msg) ->
  edge_rxid path' = edge_rxid path /\ is_established path' = is_established path /\ path_dead path' = path_dead path.
Proof.
  unfold path_build_onion. intros E. apply throw_if_Ok in E as [_ E].
  apply outcome_bind_Ok in E as ([hs result] & El & E). injection E as <- _. split; [|done].
  apply onion_loop_rxid in El. unfold edge_rxid, edge. cbn [hops].
  destruct hs, (hops path); cbn in El |- *; congruence.
Qed.

Lemma Path_new_edge self rng rcs exp : rcs <> [] -> edge_rxid (Path_new self rng rcs exp) = rng 0.
Proof. destruct rcs as [|rc [|]]; done. Qed.

(** A new path joins the handler under an id no other path has. *)
Lemma ph_inv_init_path path w w' r :
  ph_inv w -> is_established path = false -> path_dead path = false ->
  (forall p x, path_heap (w_ctx w) !! p = Some x -> edge_rxid x <> edge_rxid path) ->
  build_init_path path w = (w', r) ->
  ph_inv w' /\ ph_path_counter (w_handler w') = ph_path_counter (w_handler w) /\ w_pending w' = w_pending w /\
  (r = None \/ r = Some (next_ptr (w_ctx w)) /\ path_heap (w_ctx w') !! next_ptr (w_ctx w) = Some path).
Proof.
  intros [I1 I2 I3 I4 I5 I6 I7 I8] Hs Hd Hnew. unfold build_init_path, alloc_path.
  assert (path_heap (w_ctx w) !! next_ptr (w_ctx w) = None) as Hn by (by apply I8).
  world_cbn. remember (next_ptr (w_ctx w)) as n eqn:En.
  destruct (ph_paths _ !! edge_rxid path) as [q|] eqn:Eq; world_cbn.
  { exfalso. destruct (I1 _ _ Eq) as (x & Hx & Ex). by apply (Hnew q x). }
  intros [= <- <-]. split; [|world_cbn; rewrite <- En, lookup_insert_eq; auto].
  split; world_cbn; rewrite <- ?En.
  - intros id p [[<- <-]|[_ Hp]]%lookup_insert_Some; [rewrite lookup_insert_eq; eauto|].
    destruct (I1 id p Hp) as (x & Hx & Ex). rewrite lookup_insert_ne by congruence. eauto.
  - intros id p Hp. destruct (I2 id p Hp) as (x & Hx & Ex). rewrite lookup_insert_ne by congruence. eauto.
  - intros p q xp xq [[<- <-]|[Hpn Hp]]%lookup_insert_Some [[<- <-]|[Hqn Hq]]%lookup_insert_Some He; try done.
    + by destruct (Hnew q xq Hq).
    + by destruct (Hnew p xp Hp).
    + by eapply I3.
  - intros id p x [[<- <-]|[_ Hp]]%lookup_insert_Some Hx Hxs; [rewrite lookup_insert_eq in Hx; congruence|].
    destruct (I1 id p Hp) as (x1 & Hx1 & _). rewrite lookup_insert_ne in Hx by congruence. eauto.
  - intros id p Hp. destruct (I5 id p Hp) as (x & Hx & Hxs). rewrite lookup_insert_ne by congruence. eauto.
  - done.
  - done.
  - intros p Hp. rewrite lookup_insert_ne by lia. apply I8. lia.
Qed.

Lemma ph_inv_send rnd junk sent now steady p id path w :
  ph_inv w -> path_heap (w_ctx w) !! p = Some path -> is_established path = false -> path_dead path = false ->
  (forall i, w_pending w !! i <> Some p) -> id = ph_path_counter (w_handler w) -> w_pending w !! id = None ->
  ph_inv (send_path_build rnd junk sent now steady p id w).1.
Proof.
  intros Hw Hp Hs Hd Hpend Hid Hnone. unfold send_path_build. rewrite Hp.
  destruct (path_build_onion rnd junk now path) as [[path' m]|e] eqn:Eo; [|done].
  apply path_build_onion_marks in Eo as (M1 & M2 & M3).
  assert (on_ctx (with_path_heap (insert p path')) w = on_ctx (with_path_heap (alter (fun _ => path') p)) w) as ->.
  { assert (<[p := path']> (path_heap (w_ctx w)) = alter (fun _ => path') p (path_heap (w_ctx w))) as E.
    { apply map_eq. intros q. destruct (decide (p = q)) as [<-|].
      - by rewrite lookup_insert_eq, lookup_alter_eq, Hp.
      - by rewrite lookup_insert_ne, lookup_alter_ne by done. }
    unfold on_ctx, with_path_heap, set. by rewrite E. }
  assert (ph_inv (on_ctx (with_path_heap (alter (fun _ => path') p)) w)) as H1.
  { apply ph_inv_alter; [|done]. intros x Hx. assert (x = path) as -> by congruence. done. }
  destruct sent; cbn [fst]; [|apply ph_inv_failed; by apply (ph_inv_frame (on_ctx (with_path_heap (alter (fun _ => path') p)) w))].
  destruct H1 as [I1 I2 I3 I4 I5 I6 I7 I8]. split; world_cbn; try done.
  - intros i q [[<- <-]|[_ Hq]]%lookup_insert_Some; [|eauto].
    rewrite lookup_alter_eq, Hp. exists path'. split; [done|]. split; congruence.
  - intros i j q [[<- <-]|[_ Hi]]%lookup_insert_Some [[<- Hj]|[_ Hj]]%lookup_insert_Some; try done.
    + by destruct (Hpend j).
    + subst. by destruct (Hpend i).
    + by eapply I6.
  - intros i q [[<- <-]|[_ Hq]]%lookup_insert_Some; [lia | eauto].
Qed.

Lemma ph_inv_build self rng rnd junk sent now steady rcs exp w :
  ph_inv w -> fresh_edge rng w -> ph_inv (build self rng rnd junk sent now steady rcs exp w).1.
Proof.
  intros Hw Hf. unfold build. destruct (can_build w rcs) eqn:Ec; [|by apply ph_inv_failed].
  assert (rcs <> []) as Hr by (destruct rcs; [|done]; unfold can_build in Ec; by rewrite andb_false_r in Ec).
  destruct (build_init_path _ w) as [w1 r] eqn:Eb.
  destruct (ph_inv_init_path (Path_new self rng rcs exp) w w1 r Hw eq_refl eq_refl) as (H1 & E1 & E2 & H2); [|done|].
  { intros p x Hx. rewrite Path_new_edge by done. by apply (Hf p). }
  destruct H2 as [->|[-> Hp]]; [by apply ph_inv_failed|].
  set (id := (ph_path_counter (w_handler w1) + 1)%Z).
  set (w2 := on_handler _ w1).
  assert (ph_inv w2) as H2.
  { destruct H1 as [I1 I2 I3 I4 I5 I6 I7 I8]. split; unfold w2; world_cbn; try done.
    intros i q Hq. specialize (I7 i q Hq). unfold id. lia. }
  assert (ph_inv (send_path_build rnd junk sent now steady (next_ptr (w_ctx w)) id w2).1) as H3.
  { eapply (ph_inv_send _ _ _ _ _ _ _ _ w2 H2); [exact Hp|done|done| |done|].
    - intros i Hi. unfold w2 in Hi. world_cbn. rewrite E2 in Hi.
      destruct (inv_pending w Hw i _ Hi) as (x & Hx & _). rewrite (inv_fresh w Hw) in Hx by lia. done.
    - destruct (w_pending w2 !! id) as [q|] eqn:Eq; [|done]. exfalso.
      assert (w_pending w1 !! id = Some q) as Eq1 by done. pose proof (inv_counter w1 H1 id q Eq1). unfold id in *. lia. }
  destruct (send_path_build _ _ _ _ _ _ _ w2) as [w3 [[]|e]]; done.
Qed.
End BuildInv.

(** ** The theorems *)
Section Theorems.
Context `{Sodium} `{Oxenc}.

Lemma ph_inv_pong max taken r p w : ph_inv w -> ph_inv (ping_response max taken r p w).
Proof.
  intros Hw. unfold ping_response. destruct r.
  - by apply (ph_inv_frame w).
  - destruct (_ <? _)%Z; [apply ph_inv_alter; [done|]|]; by apply (ph_inv_frame w).
  - by apply ph_inv_alter.
Qed.

Lemma ph_step_inv w w' : ph_step w w' -> ph_inv w -> ph_inv w'.
Proof.
  intros Hs Hw. destruct Hs; auto using ph_inv_build, ph_inv_response, ph_inv_expire, ph_inv_drop,
    ph_inv_invalidate, ph_inv_pong.
  - destruct Hw. by split.
  - by apply ph_inv_alter.
  - unfold do_ping. destruct (path_heap _ !! p); [|done]. destruct (_ || _); [done|]. by apply (ph_inv_frame w).
Qed.

Lemma ph_reachable_inv w : ph_reachable w -> ph_inv w.
Proof. induction 1; [apply ph_inv_init | by eapply ph_step_inv]. Qed.

(** C9. In every state a path handler can reach, by any interleaving of builds,
    build responses, expiries, drops, pings and shutdown, an established path of
    the handler's table is registered in the shared path context: under the id
    the handler files it under, which is its edge's, as the same object, and not
    dead.  So traffic arriving for the path finds it. *)
Theorem handler_paths_registered w id p path :
  ph_reachable w -> ph_paths (w_handler w) !! id = Some p -> path_heap (w_ctx w) !! p = Some path ->
  is_established path = true ->
  id = edge_rxid path /\ path_map (w_ctx w) !! id = Some p /\ path_dead path = false.
Proof.
  intros Hr Hp Hh Hs. apply ph_reachable_inv in Hr as [I1 I2 _ I4 _ _ _ _].
  pose proof (I4 id p path Hp Hh Hs) as Hm. destruct (I2 id p Hm) as (x & Hx & Ex & _ & Hd).
  assert (x = path) as -> by congruence. done.
Qed.

(** A build that succeeds after its path was dropped puts the path back: the drop
    of a path that is still building leaves no mark the response could see. *)
Lemma dropped_build_returns now steady id p path w :
  ph_reachable w -> w_pending w !! id = Some p -> path_heap (w_ctx w) !! p = Some path ->
  let w' := build_response now steady id (Some true) (drop_path path w) in
  ph_paths (w_handler (drop_path path w)) !! edge_rxid path = None /\
  ph_paths (w_handler w') !! edge_rxid path = Some p /\ path_map (w_ctx w') !! edge_rxid path = Some p.
Proof.
  intros Hr Hp Hh w'. apply ph_reachable_inv in Hr.
  assert (path_map (w_ctx w) !! edge_rxid path = None) as Hm.
  { destruct (path_map _ !! _) as [q|] eqn:E; [|done]. destruct (inv_map w Hr _ _ E) as (x & Hx & Ex & Hs & _).
    assert (q = p) as -> by (eapply (inv_unique w Hr); eauto).
    destruct (inv_pending w Hr id p Hp) as (y & Hy & Hys & _). congruence. }
  assert (path_heap (w_ctx (drop_path path w)) = path_heap (w_ctx w) /\
          path_map (w_ctx (drop_path path w)) !! edge_rxid path = None) as [Eh Em].
  { unfold drop_path, drop_path_ctx. world_cbn. by rewrite Hm. }
  split; [unfold drop_path; world_cbn; by rewrite lookup_delete_eq|].
  unfold w', build_response. change (w_pending (drop_path path w)) with (w_pending w). rewrite Hp.
  destruct (path_build_succeeded_parts now p path ((drop_path path w) <| w_pending ::= delete id |>))
    as (_ & E2 & _ & E4 & _); [by world_cbn; rewrite Eh | done |].
  rewrite E2, E4, !lookup_insert_eq. done.
Qed.
End Theorems.

(** ** A handler that builds a path *)
Module HandlerDemo.
Definition start : World :=
  mkWorld empty_ctx (Handler_new 4 2) (mkStats 0 0 0 0 0 0) (mkProfiling ∅ false) ∅ ∅.
Definition building : World :=
  (@build toy bencode (Demo.pk 9) Demo.ids Demo.rnd (zero_buf 1014) true 0 0 Demo.rcs 600000 start).1.
Definition built : World := build_response 10 10 1 (Some true) building.
Definition path : Path :=
  match path_heap (w_ctx built) !! 0 with Some p => p | None => Path_new [] Demo.ids [] 0 end.

Lemma built_reachable : @ph_reachable toy bencode built.
Proof.
  eapply reach_step; [|apply step_response]. eapply reach_step; [apply reach_init|].
  apply step_build. intros p x Hx. cbn in Hx. by rewrite lookup_empty in Hx.
Qed.
End HandlerDemo.

(** After its build has succeeded, the two-hop path of the demo network is
    registered under its first hop id. *)
Lemma handler_paths_registered_witness :
  Demo.ids 0 = edge_rxid HandlerDemo.path /\ path_map (w_ctx HandlerDemo.built) !! Demo.ids 0 = Some 0
  /\ path_dead HandlerDemo.path = false.
Proof.
  apply (@handler_paths_registered toy bencode HandlerDemo.built (Demo.ids 0) 0 HandlerDemo.path).
  - exact HandlerDemo.built_reachable.
  - vm_compute. reflexivity.
  - vm_compute. reflexivity.
  - vm_compute. reflexivity.
Defined.
