(* ===== verification/IpPacket.v ===== *)
(** * IP packets (net/ip_packet.{hpp,cpp}, net/ip_headers.hpp)

    A packet is its buffer; a header field is read and written at its offset, in
    the byte order of a little endian host.  The Internet checksums are computed
    on host words as the code does, with unsigned 32-bit arithmetic; the
    specification is the one's complement sum of big endian words that a receiver
    computes (RFC 1071). *)

From Stdlib Require Import ZArith Lia Morphisms.
From stdpp Require Import base list numbers strings.
From S2P Require Import Prelude.

Local Open Scope Z_scope.
Local Open Scope router_scope.

(** ** Headers *)
Definition MAX_PACKET_SIZE : nat := 1500.
Definition MIN_PACKET_SIZE : nat := 20.
Definition IPV4_HEADER : nat := 20.
Definition IPV6_HEADER : nat := 40.
Definition UDP_HEADER : nat := 8.
Definition TCP_CSUM_OFF : nat := 16.
Definition UDP_CSUM_OFF : nat := 6.
Definition ICMP_CSUM_OFF : nat := 2.

(** [net::IPProtocol] *)
Definition PROTO_TCP : Z := 0x06.
Definition PROTO_UDP : Z := 0x11.
Definition PROTO_ICMP6 : Z := 0x3A.
Definition PROTO_UDP_LITE : Z := 0x88.

(** A field of one, two or four bytes as the host reads it. *)
Definition load8 (off : nat) (buf : bytes) : Z := default 0 (buf !! off).
Definition load (w off : nat) (buf : bytes) : Z := le_value (subspan off w buf).
Definition store (w off : nat) (v : Z) (buf : bytes) : bytes := write_at off (le_bytes w v) buf.
Definition load16 : nat -> bytes -> Z := load 2.
Definition load32 : nat -> bytes -> Z := load 4.

(** [oxenc::host_to_big] and [big_to_host] of [w] bytes *)
Definition host_to_big (w : nat) (x : Z) : Z := le_value (be_bytes w x).

(** [quic::ipv6]: two 64-bit halves; [in6_addr] is its bytes. *)
Record ipv6 := mkIPv6 { hi : Z; lo : Z }.
Definition in6_addr (a : ipv6) : bytes := be_bytes 8 (hi a) ++ be_bytes 8 (lo a).
Definition ipv6_of (b : bytes) : ipv6 := mkIPv6 (be_value (take 8 b)) (be_value (drop 8 b)).

Definition ip_version (buf : bytes) : Z := Z.shiftr (load8 0 buf) 4.
Definition header_len (buf : bytes) : Z := Z.land (load8 0 buf) 0xf.

Definition is_ipv4 (buf : bytes) : bool := bool_decide (IPV4_HEADER <= length buf)%nat && (ip_version buf =? 4).
Definition is_ipv6 (buf : bytes) : bool := bool_decide (IPV6_HEADER <= length buf)%nat && (ip_version buf =? 6).

Definition header_size (buf : bytes) : nat :=
  if is_ipv4 buf then Z.to_nat (header_len buf) * 4 else if is_ipv6 buf then IPV6_HEADER else 0.
Definition payload_size (buf : bytes) : nat :=
  let hsz := header_size buf in if decide (length buf <= hsz)%nat then 0 else length buf - hsz.

Definition protocol (buf : bytes) : Z :=
  if is_ipv4 buf then load8 9 buf else if is_ipv6 buf then load8 6 buf else 0.

(** [_s_d_port(offset)], [source_port()], [dest_port()] *)
Definition s_d_port (offset : nat) (buf : bytes) : option Z :=
  let pr := protocol buf in
  if (pr =? PROTO_TCP) || (pr =? PROTO_UDP) then
    let hs := header_size buf in
    if decide (hs + 4 <= length buf)%nat then Some (be_value (subspan (hs + offset) 2 buf)) else None
  else None.
Definition source_port : bytes -> option Z := s_d_port 0.
Definition dest_port : bytes -> option Z := s_d_port 2.

Definition source_ipv4 (buf : bytes) : option Z :=
  if is_ipv4 buf then Some (host_to_big 4 (load32 12 buf)) else None.
Definition dest_ipv4 (buf : bytes) : option Z :=
  if is_ipv4 buf then Some (host_to_big 4 (load32 16 buf)) else None.
Definition source_ipv6 (buf : bytes) : option ipv6 :=
  if is_ipv6 buf then Some (ipv6_of (subspan 8 16 buf)) else None.
Definition dest_ipv6 (buf : bytes) : option ipv6 :=
  if is_ipv6 buf then Some (ipv6_of (subspan 24 16 buf)) else None.

(** The constructors of [IPPacket]: of a size, of a buffer. *)
Definition IPPacket_sized (sz : nat) : outcome string bytes :=
  throw_if bool_decide (0 < sz < MIN_PACKET_SIZE)%nat with "Buffer size is too small for an IP packet!"%string in
  Ok (zero_buf sz).
Definition IPPacket_of (buf : bytes) : outcome string bytes :=
  throw_if bool_decide (length buf < MIN_PACKET_SIZE)%nat with "Buffer data is too small for an IP packet!"%string in
  Ok buf.

(** [udp_data()] *)
Definition udp_data (buf : bytes) : bytes :=
  if negb (protocol buf =? PROTO_UDP) || bool_decide (payload_size buf < 8)%nat then []
  else drop (header_size buf + 8) buf.

(** ** Checksums *)
Definition add32_cs (x : Z) : Z := Z.land x 0xffff + Z.shiftr x 16.
Definition sub32_cs (x : Z) : Z := add32_cs (wrap 32 (Z.lnot x)).

(** Both foldings of the carries: [sum = (sum & 0xFFff) + (sum >> 16); sum += sum >> 16] *)
Definition fold_carries (sum : Z) : Z :=
  let sum := Z.land sum 0xffff + Z.shiftr sum 16 in wrap 32 (sum + Z.shiftr sum 16).

(** The sum of the host words of a buffer, an odd last byte being the first of a word. *)
Fixpoint sum_words (sum : Z) (buf : bytes) : Z :=
  match buf with
  | a :: b :: buf => sum_words (wrap 32 (sum + (a + 256 * b))) buf
  | [a] => wrap 32 (sum + a)
  | [] => sum
  end.

Definition ip_checksum (buf : bytes) : Z := Z.land (Z.lnot (fold_carries (sum_words 0 buf))) 0xffff.

Definition update_ipv4_checksum (old_sum old_src old_dest new_src new_dest : Z) : Z :=
  let sum := wrap 32 (old_sum + add32_cs old_src + add32_cs old_dest + sub32_cs (host_to_big 4 new_src)
                      + sub32_cs (host_to_big 4 new_dest)) in
  Z.land (fold_carries sum) 0xffff.

Definition update_ipv4_tcp_checksum (old_sum old_src old_dest new_src new_dest : Z) : Z :=
  let new_sum := update_ipv4_checksum old_sum old_src old_dest new_src new_dest in
  if new_sum =? 0xffff then 0 else new_sum.

Definition update_ipv4_udp_checksum (old_sum old_src old_dest new_src new_dest : Z) : Z :=
  if old_sum =? 0 then old_sum else update_ipv4_checksum old_sum old_src old_dest new_src new_dest.

(** [add32x4_cs], [sub32x4_cs] of the 16 bytes of an address *)
Definition add32x4_cs (a : bytes) : Z :=
  add32_cs (load32 0 a) + add32_cs (load32 4 a) + add32_cs (load32 8 a) + add32_cs (load32 12 a).
Definition sub32x4_cs (a : bytes) : Z :=
  sub32_cs (load32 0 a) + sub32_cs (load32 4 a) + sub32_cs (load32 8 a) + sub32_cs (load32 12 a).

Definition update_ipv6_checksum (old_sum : Z) (old_src old_dest new_src new_dest : bytes) : Z :=
  let sum := wrap 32 (old_sum + add32x4_cs old_src + add32x4_cs old_dest + sub32x4_cs new_src
                      + sub32x4_cs new_dest) in
  Z.land (fold_carries sum) 0xffff.

(** [update_ipv6_proto_checksum]: [start] is where the payload begins in the buffer. *)
Definition update_ipv6_proto_checksum (start fragoff chksumoff : nat) (old_src old_dest new_src new_dest buf : bytes)
    : bytes :=
  if decide (chksumoff < fragoff \/ length buf - start < chksumoff - fragoff + 2)%nat then buf
  else
    let at_ := (start + (chksumoff - fragoff))%nat in
    let check := update_ipv6_checksum (load16 at_ buf) old_src old_dest new_src new_dest in
    store 2 at_ (if check =? 0xffff then 0 else check) buf.

(** [ipv6_proto_checksum(hdr, payload)]; the header is the first 40 bytes of the packet. *)
Definition ipv6_proto_checksum (hdr payload : bytes) : Z :=
  let sum := add32x4_cs (subspan 8 16 hdr) + add32x4_cs (subspan 24 16 hdr) in
  let sum := wrap 32 (sum + load16 4 hdr) in
  let sum := wrap 32 (sum + Z.shiftl (load8 6 hdr) 8) in
  let even := (length payload - length payload mod 2)%nat in
  let sum := if decide (length payload mod 2 = 1)%nat then wrap 32 (sum + load8 even payload) else sum in
  let sum := sum_words sum (take even payload) in
  Z.land (Z.lnot (fold_carries sum)) 0xffff.

(** ** Address changes *)

(** [update_ipv4_address(src, dst)] *)
Definition fragment_units (buf : bytes) : Z := Z.land (host_to_big 2 (load16 6 buf)) 0x1fff.

Definition update_ipv4_payload (src dst : Z) (buf : bytes) : deref bytes :=
  let ihs := (Z.to_nat (header_len buf) * 4)%nat in
  let sz := length buf in
  if decide (ihs <= sz)%nat then
    let payload_size := (sz - ihs)%nat in
    let frag_off := Z.to_nat (fragment_units buf * 8) in
    let ip_proto := load8 9 buf in
    if ip_proto =? PROTO_TCP then
      if decide (frag_off <= TCP_CSUM_OFF /\ TCP_CSUM_OFF - frag_off + 2 <= payload_size)%nat then
        let at_ := (ihs + TCP_CSUM_OFF)%nat in
        if decide (sz < at_ + 2)%nat then Undefined
        else Value (store 2 at_ (update_ipv4_tcp_checksum (load16 at_ buf) (load32 12 buf) (load32 16 buf) src dst) buf)
      else Value buf
    else if (ip_proto =? PROTO_UDP) || (ip_proto =? PROTO_UDP_LITE) then
      if decide (frag_off <= UDP_CSUM_OFF /\ UDP_CSUM_OFF + 2 <= payload_size)%nat then
        let at_ := (ihs + UDP_CSUM_OFF)%nat in
        Value (store 2 at_ (update_ipv4_udp_checksum (load16 at_ buf) (load32 12 buf) (load32 16 buf) src dst) buf)
      else Value buf
    else Value buf
  else Value buf.

Definition update_ipv4_address (src dst : Z) (buf : bytes) : deref bytes :=
  if decide (length buf < IPV4_HEADER)%nat then Undefined
  else
    let? buf := update_ipv4_payload src dst buf in
    let buf := store 2 10 (update_ipv4_checksum (load16 10 buf) (load32 12 buf) (load32 16 buf) src dst) buf in
    let buf := store 4 12 (host_to_big 4 src) buf in
    Value (store 4 16 (host_to_big 4 dst) buf).

(** [hdr.flowlabel(label)], whose [host_to_big(label & 0xffff)] is of a 32-bit integer;
    [hdr.flowlabel()] *)
Definition set_flowlabel (label : Z) (buf : bytes) : bytes :=
  let flow_hi := Z.land (Z.shiftr label 16) 0x0f in
  let buf := <[1%nat := Z.lor (Z.land (load8 1 buf) 0xf0) flow_hi]> buf in
  store 2 2 (host_to_big 4 (Z.land label 0xffff)) buf.
Definition get_flowlabel (buf : bytes) : Z :=
  Z.lor (Z.shiftl (Z.land (load8 1 buf) 0x0f) 16) (host_to_big 2 (load16 2 buf)).

(** The loop over the extension headers: the protocol, the fragment offset and the
    start of the payload, or [Value None] where the code returns.  Reading a byte
    past the end is undefined; [None] means that [fuel] iterations were not enough. *)
Fixpoint extension_headers (fuel : nat) (nextproto : Z) (start : nat) (buf : bytes)
    : option (deref (option (Z * nat * nat))) :=
  match fuel with
  | O => None
  | S fuel =>
    let size := (length buf - start)%nat in
    if (nextproto =? 0) || (nextproto =? 43) || (nextproto =? 60) then
      if decide (size < 2)%nat then Some Undefined
      else
        let addlen := ((Z.to_nat (load8 (start + 1) buf) + 1) * 8)%nat in
        if decide (size < addlen)%nat then Some (Value None)
        else extension_headers fuel (load8 start buf) (start + addlen) buf
    else if nextproto =? 44 then
      if decide (size < 4)%nat then Some Undefined
      else
        let fragoff := Z.lor (Z.shiftl (load8 (start + 2) buf) 8) (Z.land (load8 (start + 3) buf) 0xfc) in
        if decide (size < 8)%nat then Some (Value None)
        else if fragoff =? 0 then extension_headers fuel (load8 start buf) (start + 8) buf
        else Some (Value (Some (load8 start buf, Z.to_nat fragoff, (start + 8)%nat)))
    else Some (Value (Some (nextproto, 0%nat, start)))
  end.

Definition csum_off (nextproto : Z) : option nat :=
  if nextproto =? PROTO_TCP then Some TCP_CSUM_OFF
  else if nextproto =? PROTO_ICMP6 then Some ICMP_CSUM_OFF
  else if (nextproto =? PROTO_UDP) || (nextproto =? PROTO_UDP_LITE) then Some UDP_CSUM_OFF
  else None.

(** [update_ipv6_address(src, dst, flowlabel)] *)
Definition update_ipv6_address (src dst : ipv6) (flowlabel : option Z) (buf : bytes) : deref bytes :=
  if decide (length buf <= IPV6_HEADER)%nat then Value buf
  else
    let buf := match flowlabel with Some label => set_flowlabel label buf | None => buf end in
    let old_src := subspan 8 16 buf in
    let old_dest := subspan 24 16 buf in
    let buf := write_at 24 (in6_addr dst) (write_at 8 (in6_addr src) buf) in
    match extension_headers (length buf) (load8 6 buf) IPV6_HEADER buf with
    | None | Some Undefined => Undefined
    | Some (Value None) => Value buf
    | Some (Value (Some (nextproto, fragoff, start))) =>
      match csum_off nextproto with
      | Some off => Value (update_ipv6_proto_checksum start fragoff off old_src old_dest (in6_addr src) (in6_addr dst) buf)
      | None => Value buf
      end
    end.

(** [clear_addresses()] *)
Definition clear_addresses (buf : bytes) : deref bytes :=
  if is_ipv4 buf then update_ipv4_address 0 0 buf
  else if is_ipv6 buf then update_ipv6_address (mkIPv6 0 0) (mkIPv6 0 0) None buf
  else Value buf.

(** ** New packets *)

(** [make_icmp_unreachable()] of an IPv4 packet, before its checksums and with them *)
Definition icmp4_body (buf : bytes) : bytes :=
  let orig_prefix := take (Z.to_nat (header_len buf) * 4 + 32) buf in
  let pkt_size := (IPV4_HEADER + 8 + length orig_prefix)%nat in
  [0x45; 0] ++ be_bytes 2 (wrap 16 (Z.of_nat pkt_size)) ++ [0; 0] ++ be_bytes 2 0x4000 ++ [load8 8 buf; 1; 0; 0]
  ++ subspan 16 4 buf ++ subspan 12 4 buf ++ [3; 1; 0; 0; 0; 0; 0; 0] ++ orig_prefix.
Definition make_icmp4_unreachable (buf : bytes) : bytes :=
  let pkt := icmp4_body buf in
  let pkt := store 2 10 (ip_checksum (take IPV4_HEADER pkt)) pkt in
  store 2 22 (ip_checksum (drop IPV4_HEADER pkt)) pkt.

(** ... and of an IPv6 packet *)
Definition icmp6_body (buf : bytes) : bytes :=
  let orig_prefix := take (IPV6_HEADER + 32) buf in
  let orig_prefix := take (length orig_prefix - length orig_prefix mod 4) orig_prefix in
  let payload_size := wrap 16 (Z.of_nat (4 + 4 + length orig_prefix)) in
  [0x60; 0; 0; 0] ++ be_bytes 2 payload_size ++ [58; load8 7 buf] ++ subspan 24 16 buf ++ subspan 8 16 buf
  ++ [1; 3; 0; 0; 0; 0; 0; 0] ++ orig_prefix.
Definition make_icmp6_unreachable (buf : bytes) : bytes :=
  let pkt := icmp6_body buf in
  store 2 42 (ipv6_proto_checksum (take IPV6_HEADER pkt) (drop IPV6_HEADER pkt)) pkt.

Definition make_icmp_unreachable (buf : bytes) : option bytes :=
  if is_ipv4 buf then Some (make_icmp4_unreachable buf)
  else if is_ipv6 buf then Some (make_icmp6_unreachable buf)
  else None.

(** [make_udp_packet(src, src_port, dest, dest_port, payload)] *)
Definition udp6_body (src : ipv6) (src_port : Z) (dest : ipv6) (dest_port : Z) (payload : bytes) : bytes :=
  let len := be_bytes 2 (wrap 16 (Z.of_nat (UDP_HEADER + length payload))) in
  [0x60; 0; 0; 0] ++ len ++ [PROTO_UDP; 255] ++ in6_addr src ++ in6_addr dest
  ++ be_bytes 2 src_port ++ be_bytes 2 dest_port ++ len ++ [0; 0] ++ payload.
Definition make_udp_packet (src : ipv6) (src_port : Z) (dest : ipv6) (dest_port : Z) (payload : bytes) : bytes :=
  let pkt := udp6_body src src_port dest dest_port payload in
  let checksum := ipv6_proto_checksum (take IPV6_HEADER pkt) (drop IPV6_HEADER pkt) in
  store 2 46 (if checksum =? 0 then 0xffff else checksum) pkt.

(** ** What a receiver checks

    The one's complement sum of 16-bit words, with the end-around carry; data with
    a checksum in it is accepted when the sum is 0xffff. *)
Definition ones_add (a b : Z) : Z := let s := a + b in if s <? 65536 then s else s - 65535.
Fixpoint ones_sum (l : bytes) : Z :=
  match l with
  | a :: b :: l => ones_add (256 * a + b) (ones_sum l)
  | [a] => 256 * a
  | [] => 0
  end.
Definition checksum_ok (l : bytes) : Prop := ones_sum l = 0xffff.
#[export] Instance checksum_ok_dec l : Decision (checksum_ok l).
Proof. unfold checksum_ok. apply _. Defined.

(** The pseudo headers of the transport checksums. *)
Definition pseudo4 (src dst : bytes) (proto : Z) (len : nat) : bytes :=
  src ++ dst ++ [0; proto] ++ be_bytes 2 (Z.of_nat len).
Definition pseudo6 (src dst : bytes) (proto : Z) (len : nat) : bytes :=
  src ++ dst ++ be_bytes 4 (Z.of_nat len) ++ [0; 0; 0; proto].

(** ** Sums of words

    [word_sum] adds the big endian words, [le_sum] the little endian ones; modulo
    65535 they differ by a factor of 256. *)
Definition cong (a b : Z) : Prop := exists k, a = b + 65535 * k.
Notation "a ≡ b" := (cong a b) (at level 70) : router_scope.

#[export] Instance cong_equivalence : Equivalence cong.
Proof.
  split.
  - intros a. exists 0. lia.
  - intros a b [k H]. exists (- k). lia.
  - intros a b c [k H] [l H']. exists (k + l). lia.
Qed.
#[export] Instance cong_add : Proper (cong ==> cong ==> cong) Z.add.
Proof. intros a b [k H] c d [l H']. exists (k + l). lia. Qed.
#[export] Instance cong_sub : Proper (cong ==> cong ==> cong) Z.sub.
Proof. intros a b [k H] c d [l H']. exists (k - l). lia. Qed.
#[export] Instance cong_mul : Proper (cong ==> cong ==> cong) Z.mul.
Proof. intros a b [k ->] c d [l ->]. exists (k * d + b * l + 65535 * k * l). lia. Qed.

Fixpoint word_sum (l : bytes) : Z :=
  match l with
  | a :: b :: l => 256 * a + b + word_sum l
  | [a] => 256 * a
  | [] => 0
  end.
Fixpoint le_sum (l : bytes) : Z :=
  match l with
  | a :: b :: l => a + 256 * b + le_sum l
  | [a] => a
  | [] => 0
  end.

Lemma pair_ind (P : bytes -> Prop) :
  P [] -> (forall a, P [a]) -> (forall a b l, P l -> P (a :: b :: l)) -> forall l, P l.
Proof.
  intros H0 H1 H2 l. assert (P l /\ forall a, P (a :: l)) as [H _]; [|done].
  induction l as [|b l [IH1 IH2]]; split; auto.
Qed.

(** 256 is its own inverse. *)
Lemma cong_256 a b : 256 * a ≡ 256 * b -> a ≡ b.
Proof. intros [k H]. exists (256 * k + b - a). lia. Qed.

Lemma word_sum_le l : is_bytes l -> 256 * le_sum l ≡ word_sum l.
Proof.
  induction l as [|a|a b l IH] using pair_ind; intros Hl; [done..|].
  apply Forall_cons in Hl as [_ [_ Hl]%Forall_cons]. cbn [le_sum word_sum].
  rewrite <- (IH Hl). exists b. lia.
Qed.

Lemma word_sum_nonneg l : is_bytes l -> 0 <= word_sum l.
Proof.
  induction l as [|a|a b l IH] using pair_ind; intros Hl; cbn [word_sum]; [done| |].
  - apply Forall_cons in Hl as [Ha _]. unfold is_byte in Ha. lia.
  - apply Forall_cons in Hl as [Ha [Hb Hl]%Forall_cons]. specialize (IH Hl). unfold is_byte in *. lia.
Qed.

Lemma le_sum_bound l : is_bytes l -> 0 <= le_sum l <= 65535 * ((Z.of_nat (length l) + 1) / 2).
Proof.
  induction l as [|a|a b l IH] using pair_ind; intros Hl; cbn [le_sum length]; [done| |].
  - apply Forall_cons in Hl as [Ha _]. unfold is_byte in Ha.
    change ((Z.of_nat 1 + 1) / 2) with 1. lia.
  - apply Forall_cons in Hl as [Ha [Hb Hl]%Forall_cons]. specialize (IH Hl). unfold is_byte in *.
    replace (Z.of_nat (S (S (length l))) + 1) with (Z.of_nat (length l) + 1 + 1 * 2) by lia.
    rewrite Z.div_add by lia. lia.
Qed.

Lemma sums_zero l : is_bytes l -> word_sum l = 0 <-> le_sum l = 0.
Proof.
  induction l as [|a|a b l IH] using pair_ind; intros Hl; cbn [word_sum le_sum]; [done| |].
  - lia.
  - apply Forall_cons in Hl as [Ha [Hb Hl]%Forall_cons]. specialize (IH Hl).
    pose proof (word_sum_nonneg l Hl). pose proof (le_sum_bound l Hl). unfold is_byte in *. lia.
Qed.

Lemma word_sum_app l1 l2 : Nat.Even (length l1) -> word_sum (l1 ++ l2) = word_sum l1 + word_sum l2.
Proof.
  induction l1 as [|a|a b l IH] using pair_ind; intros He; cbn [app word_sum length] in *.
  - lia.
  - destruct He; lia.
  - rewrite IH; [lia|]. destruct He as [k ?]. exists (k - 1)%nat. lia.
Qed.

(** What the receiver's sum tells. *)
Lemma ones_sum_spec l : is_bytes l ->
  0 <= ones_sum l <= 65535 /\ ones_sum l ≡ word_sum l /\ (ones_sum l = 0 <-> word_sum l = 0).
Proof.
  induction l as [|a|a b l IH] using pair_ind; intros Hl; cbn [ones_sum word_sum].
  - done.
  - apply Forall_cons in Hl as [Ha _]. unfold is_byte in Ha. split; [lia|]. split; [done|lia].
  - apply Forall_cons in Hl as [Ha [Hb Hl]%Forall_cons]. destruct (IH Hl) as (B & E & Z0).
    pose proof (word_sum_nonneg l Hl). unfold is_byte, ones_add in *.
    destruct (Z.ltb_spec (256 * a + b + ones_sum l) 65536) as [|].
    + split; [lia|]. split; [by rewrite E | lia].
    + split; [lia|]. split; [|lia]. rewrite <- E. exists (-1). lia.
Qed.

Lemma checksum_ok_spec l : is_bytes l -> checksum_ok l <-> word_sum l ≡ 0 /\ word_sum l <> 0.
Proof.
  intros Hl. destruct (ones_sum_spec l Hl) as (B & E & Z0). unfold checksum_ok. split.
  - intros H. split; [rewrite <- E, H; by exists 1 | lia].
  - intros [H1 H2]. rewrite <- E in H1. destruct H1 as [k Hk].
    lia.
Qed.

(** Replacing an even field at an even offset. *)
Lemma word_sum_write_at off data buf :
  Nat.Even off -> Nat.Even (length data) -> (off + length data <= length buf)%nat ->
  word_sum (write_at off data buf) = word_sum buf - word_sum (subspan off (length data) buf) + word_sum data.
Proof.
  intros He Hd Hl. unfold write_at, subspan.
  rewrite <- (take_drop off buf) at 3. rewrite <- (take_drop (length data) (drop off buf)) at 1.
  rewrite drop_drop.
  rewrite !word_sum_app by (rewrite ?length_take, ?length_drop; rewrite ?Nat.min_l by lia; done). lia.
Qed.

(** ** The computations of the code *)
Lemma land_ffff x : Z.land x 0xffff = x mod 65536.
Proof. apply (Z.land_ones x 16). lia. Qed.
Lemma shiftr_16 x : Z.shiftr x 16 = x / 65536.
Proof. by rewrite Z.shiftr_div_pow2. Qed.
Lemma lnot_ffff x : Z.land (Z.lnot x) 0xffff = 65535 - x mod 65536.
Proof.
  rewrite land_ffff. pose proof (Z.div_mod x 65536). pose proof (Z.mod_pos_bound x 65536).
  replace (Z.lnot x) with (65535 - x mod 65536 + (- 1 - x / 65536) * 65536) by (unfold Z.lnot; lia).
  rewrite Z.mod_add, Z.mod_small by lia. done.
Qed.

(** Two foldings are enough for a 32-bit sum; only 0 folds to 0. *)
Lemma fold_carries_spec s : 0 <= s < 2 ^ 32 ->
  let f := Z.land (fold_carries s) 0xffff in 0 <= f <= 65535 /\ f ≡ s /\ (f = 0 <-> s = 0).
Proof.
  intros Hs. unfold fold_carries, wrap. rewrite !land_ffff, !shiftr_16. cbv zeta.
  pose proof (Z.div_mod s 65536). pose proof (Z.mod_pos_bound s 65536).
  assert (0 <= s / 65536 < 65536) by (split; [apply Z.div_pos | apply Z.div_lt_upper_bound]; lia).
  set (s1 := s mod 65536 + s / 65536). assert (s1 ≡ s) as E1 by (exists (- (s / 65536)); lia).
  assert (0 <= s1 <= 131070) by lia. assert (s1 = 0 <-> s = 0) by lia.
  destruct (decide (s1 < 65536)).
  - rewrite (Z.div_small s1), Z.add_0_r, (Z.mod_small s1 (2 ^ 32)), (Z.mod_small s1) by lia.
    split; [lia|]. split; [done | lia].
  - assert (s1 / 65536 = 1) as -> by (symmetry; apply (Z.div_unique _ _ _ (s1 - 65536)); lia).
    rewrite (Z.mod_small _ (2 ^ 32)) by lia.
    assert ((s1 + 1) mod 65536 = s1 - 65535) as -> by (symmetry; apply (Z.mod_unique _ _ 1); lia).
    split; [lia|]. split; [rewrite <- E1; exists (-1); lia | lia].
Qed.

Lemma sum_words_spec l s : is_bytes l -> 0 <= s -> s + 65535 * ((Z.of_nat (length l) + 1) / 2) < 2 ^ 32 ->
  sum_words s l = s + le_sum l.
Proof.
  revert s. induction l as [|a|a b l IH] using pair_ind; intros s Hl Hs Hb; cbn [sum_words le_sum].
  - lia.
  - apply Forall_cons in Hl as [Ha _]. unfold is_byte in Ha. cbn [length] in Hb.
    change ((Z.of_nat 1 + 1) / 2) with 1 in Hb. apply Z.mod_small. lia.
  - apply Forall_cons in Hl as [Ha [Hb' Hl]%Forall_cons]. unfold is_byte in *. cbn [length] in Hb.
    replace (Z.of_nat (S (S (length l))) + 1) with (Z.of_nat (length l) + 1 + 1 * 2) in Hb by lia.
    rewrite Z.div_add in Hb by lia. pose proof (le_sum_bound l Hl).
    assert (wrap 32 (s + (a + 256 * b)) = s + (a + 256 * b)) as -> by (apply Z.mod_small; lia).
    rewrite IH by (done || lia). lia.
Qed.

(** The words of a 32-bit field. *)
Lemma add32_cs_le l : is_buf 4 l -> add32_cs (le_value l) = le_sum l.
Proof.
  intros [Hl Hb]. do 4 (destruct l as [|? l]; [done|]). destruct l; [|done].
  repeat (apply Forall_cons in Hb as [? Hb]). unfold is_byte in *.
  unfold add32_cs. rewrite land_ffff, shiftr_16. cbn [le_value le_sum].
  match goal with |- ?v mod _ + _ = ?a + 256 * ?b + (?c + 256 * ?d + 0) =>
    replace v with (a + 256 * b + (c + 256 * d) * 65536) by lia end.
  rewrite Z.mod_add, Z.div_add, Z.mod_small, Z.div_small by lia. lia.
Qed.

Lemma sub32_cs_le l : is_buf 4 l -> sub32_cs (le_value l) = 131070 - le_sum l.
Proof.
  intros Hl. assert (is_buf 4 (map (fun b => 255 - b) l)) as Hl'.
  { destruct Hl as [Hl Hb]. split; [by rewrite length_map|]. apply Forall_fmap. eapply Forall_impl; [done|].
    unfold is_byte. simpl. lia. }
  destruct Hl as [Hl Hb]. unfold sub32_cs.
  assert (wrap 32 (Z.lnot (le_value l)) = le_value (map (fun b => 255 - b) l)) as ->.
  { do 4 (destruct l as [|? l]; [done|]). destruct l; [|done].
    repeat (apply Forall_cons in Hb as [? Hb]). unfold is_byte, wrap, Z.lnot in *. cbn [le_value map].
    symmetry. apply (Z.mod_unique _ _ (-1)); lia. }
  rewrite add32_cs_le by done. do 4 (destruct l as [|? l]; [done|]). destruct l; [|done]. cbn [le_sum map]. lia.
Qed.

Lemma word_sum_store v : 0 <= v < 65536 -> word_sum (le_bytes 2 v) ≡ 256 * v.
Proof.
  intros Hv. cbn [le_bytes word_sum]. rewrite (Z.mod_small (v / 256)) by (split; [apply Z.div_pos | apply Z.div_lt_upper_bound]; lia).
  exists (- (v / 256)). pose proof (Z.div_mod v 256). lia.
Qed.

Lemma word_sum_load off buf : is_bytes buf -> (off + 2 <= length buf)%nat ->
  word_sum (subspan off 2 buf) ≡ 256 * load16 off buf /\ 0 <= load16 off buf < 65536.
Proof.
  intros Hb Hl. pose proof (length_subspan off 2 buf Hl) as H2. pose proof (is_bytes_subspan off 2 buf Hb) as Hb2.
  unfold load16, load. rewrite <- word_sum_le by done.
  destruct (subspan off 2 buf) as [|a [|b [|]]]; try done.
  repeat (apply Forall_cons in Hb2 as [? Hb2]). unfold is_byte in *. cbn [le_sum le_value].
  split; [exists 0; lia | lia].
Qed.

(** A checksum computed with its field zero makes the receiver accept the data. *)
Lemma ip_checksum_ok off buf :
  is_bytes buf -> Nat.Even off -> (off + 2 <= length buf)%nat -> subspan off 2 buf = [0; 0] ->
  Z.of_nat (length buf) < 131070 -> checksum_ok (store 2 off (ip_checksum buf) buf).
Proof.
  intros Hb He Hl Hz Hlen. unfold ip_checksum.
  assert ((Z.of_nat (length buf) + 1) / 2 < 65536) by (apply Z.div_lt_upper_bound; lia).
  pose proof (le_sum_bound buf Hb) as Hs. rewrite sum_words_spec by (done || lia). rewrite Z.add_0_l.
  destruct (fold_carries_spec (le_sum buf) ltac:(lia)) as (B & E & Z0).
  rewrite lnot_ffff, <- land_ffff. set (f := Z.land _ 0xffff) in *.
  apply checksum_ok_spec; [apply is_bytes_write_at; auto with router|].
  unfold store. rewrite word_sum_write_at by (rewrite ?length_le_bytes; done || by exists 1%nat).
  rewrite length_le_bytes, Hz. cbn [word_sum]. split.
  - rewrite word_sum_store, <- word_sum_le, <- E by (done || lia). exists 256. lia.
  - pose proof (word_sum_nonneg _ (is_bytes_le_bytes 2 (65535 - f))). pose proof (word_sum_nonneg buf Hb).
    pose proof (sums_zero buf Hb). intros Hsum.
    assert (f = 0) as Hf by lia. rewrite Hf in Hsum. vm_compute (word_sum (le_bytes 2 (65535 - 0))) in Hsum. lia.
Qed.

(** ** Address changes of IPv4 packets *)
Lemma update_ipv4_checksum_spec old s d ns nd : 0 <= old < 65536 -> is_buf 4 s -> is_buf 4 d ->
  let c := update_ipv4_checksum old (le_value s) (le_value d) ns nd in
  0 <= c < 65536 /\ (c = 0 -> old = 0) /\
  256 * c ≡ 256 * old + (word_sum s + word_sum d) - (word_sum (be_bytes 4 ns) + word_sum (be_bytes 4 nd)).
Proof.
  intros Ho Hs Hd. unfold update_ipv4_checksum, host_to_big.
  assert (forall x, is_buf 4 (be_bytes 4 x)) as Hbe by (intros x; split; [apply length_be_bytes | apply is_bytes_be_bytes]).
  rewrite !add32_cs_le, !sub32_cs_le by done.
  assert (forall l, is_buf 4 l -> 0 <= le_sum l <= 131070) as Hle.
  { intros l [Hl Hb]. pose proof (le_sum_bound l Hb) as Hb'. by rewrite Hl in Hb'. }
  pose proof (Hle s Hs). pose proof (Hle d Hd). pose proof (Hle _ (Hbe ns)). pose proof (Hle _ (Hbe nd)).
  unfold wrap. rewrite Z.mod_small by lia.
  match goal with |- context [fold_carries ?x] => destruct (fold_carries_spec x ltac:(lia)) as (B & E & Z0) end.
  split; [lia|]. split; [lia|]. rewrite E.
  rewrite <- !word_sum_le by (apply Hs || apply Hd || apply Hbe). exists (256 * 4). lia.
Qed.

(** Where an unfragmented packet has its transport checksum, and what it covers. *)
Definition csum_field4 (buf : bytes) : option nat :=
  if (load8 9 buf =? PROTO_TCP) && bool_decide (header_size buf + 18 <= length buf)%nat then Some (header_size buf + 16)%nat
  else if (load8 9 buf =? PROTO_UDP) && bool_decide (header_size buf + 8 <= length buf)%nat then Some (header_size buf + 6)%nat
  else None.
Definition covered4 (buf : bytes) : bytes :=
  pseudo4 (subspan 12 4 buf) (subspan 16 4 buf) (load8 9 buf) (length buf - header_size buf) ++ drop (header_size buf) buf.

(** What a receiver finds of the transport checksum. *)
Inductive csum_state : Type := CsumNone | CsumGood | CsumBad.
Definition transport_state4 (buf : bytes) : csum_state :=
  match csum_field4 buf with
  | Some at_ =>
    if (load8 9 buf =? PROTO_UDP) && (load16 at_ buf =? 0) then CsumNone
    else if decide (checksum_ok (covered4 buf)) then CsumGood else CsumBad
  | None => CsumNone
  end.

(** The packets the theorems are about. *)
Record ipv4_packet (buf : bytes) : Prop := {
  ip4_bytes : is_bytes buf;
  ip4_version : is_ipv4 buf = true;
  ip4_header : (20 <= header_size buf <= length buf)%nat;
  ip4_length : Z.of_nat (length buf) < 65536;
}.

(** The writes of an address change to the header. *)
Definition rewrite_header (c src dst : Z) (buf : bytes) : bytes :=
  store 4 16 (host_to_big 4 dst) (store 4 12 (host_to_big 4 src) (store 2 10 c buf)).

Lemma store_host w off x buf : store w off (host_to_big w x) buf = write_at off (be_bytes w x) buf.
Proof.
  unfold store, host_to_big. f_equal. rewrite <- (length_be_bytes w x) at 1.
  apply le_bytes_le_value, is_bytes_be_bytes.
Qed.

Lemma host_to_big_load off buf : is_bytes buf -> (off + 4 <= length buf)%nat ->
  host_to_big 4 (load32 off buf) = be_value (subspan off 4 buf).
Proof.
  intros Hb Hl. unfold load32, load, host_to_big, be_bytes, be_value. f_equal. f_equal.
  rewrite <- (length_subspan off 4 buf) at 1 by done. by apply le_bytes_le_value, is_bytes_subspan.
Qed.

Lemma load8_write_at i off data buf : (off + length data <= length buf)%nat ->
  (i < off \/ off + length data <= i)%nat -> load8 i (write_at off data buf) = load8 i buf.
Proof. intros. unfold load8. rewrite lookup_write_at by done. by case_decide; [lia|]. Qed.

(** Reads a field through writes that do not touch it. *)
Ltac buf_len :=
  repeat (rewrite length_write_at by buf_len); autorewrite with router; unfold IPV4_HEADER, IPV6_HEADER in *; lia.
Ltac past_writes :=
  repeat first
    [ rewrite length_write_at by buf_len
    | rewrite load8_write_at by buf_len
    | rewrite subspan_write_at_ne by buf_len ].

Lemma subspan_written off n data buf : length data = n -> (off + n <= length buf)%nat ->
  subspan off n (write_at off data buf) = data.
Proof. intros <-. apply subspan_write_at. Qed.

Lemma header_size_same buf buf' : length buf' = length buf -> load8 0 buf' = load8 0 buf ->
  header_size buf' = header_size buf /\ is_ipv4 buf' = is_ipv4 buf.
Proof. intros E1 E2. unfold header_size, is_ipv4, is_ipv6, header_len, ip_version. by rewrite E1, E2. Qed.

Section Ipv4.
Context (src dst : Z) (buf : bytes) (Hpkt : ipv4_packet buf).
Let hs : nat := header_size buf.

Lemma ip4_even : Nat.Even hs.
Proof.
  destruct Hpkt as [_ Hv _ _]. unfold hs, header_size. rewrite Hv.
  exists (Z.to_nat (header_len buf) * 2)%nat. lia.
Qed.

Lemma ip4_hs : hs = (Z.to_nat (header_len buf) * 4)%nat.
Proof. destruct Hpkt as [_ Hv _ _]. unfold hs, header_size. by rewrite Hv. Qed.

Lemma ip4_fields : is_buf 4 (subspan 12 4 buf) /\ is_buf 4 (subspan 16 4 buf).
Proof.
  destruct Hpkt as [Hb _ Hh _]. split; (split; [apply length_subspan; lia | by apply is_bytes_subspan]).
Qed.

Lemma fragment_units_bound : 0 <= fragment_units buf.
Proof. apply Z.land_nonneg. by right. Qed.

(** What the code stores in the transport checksum. *)
Definition csum_moved (old c : Z) : Prop :=
  256 * c ≡ 256 * old + (word_sum (subspan 12 4 buf) + word_sum (subspan 16 4 buf))
            - (word_sum (be_bytes 4 src) + word_sum (be_bytes 4 dst)).

Lemma update_ipv4_moved old : 0 <= old < 65536 ->
  let c := update_ipv4_checksum old (load32 12 buf) (load32 16 buf) src dst in
  0 <= c < 65536 /\ (c = 0 -> old = 0) /\ csum_moved old c.
Proof. intros Ho. destruct ip4_fields. by apply update_ipv4_checksum_spec. Qed.

Lemma update_ipv4_tcp_moved old : 0 <= old < 65536 ->
  let c := update_ipv4_tcp_checksum old (load32 12 buf) (load32 16 buf) src dst in
  0 <= c < 65536 /\ csum_moved old c.
Proof.
  intros Ho. unfold update_ipv4_tcp_checksum. destruct (update_ipv4_moved old Ho) as (B & _ & E).
  destruct (Z.eqb_spec (update_ipv4_checksum old (load32 12 buf) (load32 16 buf) src dst) 0xffff) as [Hc|]; [|done].
  rewrite Hc in E. split; [lia|]. unfold csum_moved in *. rewrite <- E. exists (-256). lia.
Qed.

Lemma update_ipv4_payload_spec :
  (load8 9 buf = PROTO_TCP -> fragment_units buf = 0 \/ 2 < fragment_units buf) ->
  exists buf1, update_ipv4_payload src dst buf = Value buf1 /\
    ((buf1 = buf /\ (fragment_units buf = 0 -> csum_field4 buf = None)) \/
     exists at_ c, buf1 = store 2 at_ c buf /\ (hs <= at_ /\ at_ + 2 <= length buf)%nat /\ Nat.Even at_ /\ 0 <= c < 65536 /\
       (csum_field4 buf = None \/ csum_field4 buf = Some at_ /\
         if (load8 9 buf =? PROTO_UDP) && (load16 at_ buf =? 0) then c = 0
         else csum_moved (load16 at_ buf) c /\ (load8 9 buf = PROTO_UDP -> c <> 0))).
Proof.
  intros Hfrag. pose proof ip4_even as He. pose proof ip4_hs as Ehs. destruct Hpkt as [Hb Hv Hh Hl]. fold hs in Hh.
  pose proof fragment_units_bound as Hf0.
  assert (forall n, Nat.Even n -> Nat.Even (hs + n)) as Hev
    by (destruct He as [k1 ?]; intros n [k2 ?]; exists (k1 + k2)%nat; lia).
  unfold update_ipv4_payload, csum_field4. rewrite <- Ehs. fold hs. unfold TCP_CSUM_OFF, UDP_CSUM_OFF.
  rewrite decide_True by lia. destruct (Z.eqb_spec (load8 9 buf) PROTO_TCP) as [Ht|Ht].
  - specialize (Hfrag Ht). rewrite Ht. cbn [andb].
    destruct (decide (Z.to_nat (fragment_units buf * 8) <= 16 /\ _)%nat) as [[Hd1 Hd2]|Hd].
    + assert (fragment_units buf = 0) as Hz by lia. rewrite Hz in Hd2. simpl in Hd2.
      rewrite decide_False by lia. eexists. split; [done|]. right.
      destruct (word_sum_load (hs + 16) buf Hb) as [_ Hr]; [lia|].
      destruct (update_ipv4_tcp_moved (load16 (hs + 16) buf) Hr) as [B E].
      eexists _, _. split; [done|]. split; [lia|]. split; [by apply Hev; exists 8%nat|]. split; [done|]. right.
      rewrite bool_decide_true by lia. done.
    + eexists. split; [done|]. left. split; [done|]. intros Hz. rewrite Hz in Hd. simpl in Hd.
      by rewrite bool_decide_false by lia.
  - cbn [andb]. destruct (Z.eqb_spec (load8 9 buf) PROTO_UDP) as [Hu|Hu]; cbn [orb andb].
    + destruct (decide _) as [[Hd1 Hd2]|Hd].
      * eexists. split; [done|]. right. destruct (word_sum_load (hs + 6) buf Hb) as [_ Hr]; [lia|].
        destruct (update_ipv4_moved (load16 (hs + 6) buf) Hr) as (B & Z0 & E).
        eexists _, _. split; [done|]. split; [lia|]. split; [by apply Hev; exists 3%nat|].
        unfold update_ipv4_udp_checksum. rewrite bool_decide_true by lia.
        destruct (Z.eqb_spec (load16 (hs + 6) buf) 0); (split; [lia|]); right; (split; [done|]); naive_solver.
      * eexists. split; [done|]. left. split; [done|]. intros Hz. rewrite Hz in Hd. simpl in Hd.
        by rewrite bool_decide_false by lia.
    + destruct (load8 9 buf =? PROTO_UDP_LITE); [|eauto 10]. destruct (decide _) as [[Hd1 Hd2]|Hd]; [|eauto 10].
      eexists. split; [done|]. right. destruct (word_sum_load (hs + 6) buf Hb) as [_ Hr]; [lia|].
      destruct (update_ipv4_moved (load16 (hs + 6) buf) Hr) as (B & Z0 & E).
      eexists _, _. split; [done|]. split; [lia|]. split; [by apply Hev; exists 3%nat|].
      unfold update_ipv4_udp_checksum. split; [destruct (_ =? 0); lia | by left].
Qed.
End Ipv4.

Lemma word_sum_nonzero l i b : is_bytes l -> l !! i = Some b -> b <> 0 -> word_sum l <> 0.
Proof.
  revert i. induction l as [|x|x y l IH] using pair_ind; intros i Hl Hi Hb.
  - done.
  - destruct i; [|done]. injection Hi as ->. cbn [word_sum]. lia.
  - apply Forall_cons in Hl as [Hx [Hy Hl]%Forall_cons]. pose proof (word_sum_nonneg l Hl). unfold is_byte in *.
    cbn [word_sum]. destruct i as [|[|i]]; [injection Hi as ->; lia..|].
    specialize (IH i Hl Hi Hb). lia.
Qed.

(** The checksum of data stays right, or wrong, when its field moves with what it
    covers; [b] is a byte that is not zero. *)
Lemma checksum_ok_moved l l' i b :
  is_bytes l -> is_bytes l' -> l !! i = Some b -> l' !! i = Some b -> b <> 0 -> word_sum l' ≡ word_sum l ->
  checksum_ok l' <-> checksum_ok l.
Proof.
  intros Hl Hl' Hi Hi' Hb E. rewrite !checksum_ok_spec by done.
  pose proof (word_sum_nonzero l i b Hl Hi Hb). pose proof (word_sum_nonzero l' i b Hl' Hi' Hb).
  split; intros [Hc _]; (split; [|done]); [by rewrite <- E | by rewrite E].
Qed.

Section Header.
Context (src dst : Z) (buf : bytes) (Hpkt : ipv4_packet buf).
Let hs : nat := header_size buf.
Let c : Z := update_ipv4_checksum (load16 10 buf) (load32 12 buf) (load32 16 buf) src dst.
Let buf' : bytes := rewrite_header c src dst buf.

Lemma rewrite_header_writes :
  buf' = write_at 16 (be_bytes 4 dst) (write_at 12 (be_bytes 4 src) (write_at 10 (le_bytes 2 c) buf)).
Proof. unfold buf', rewrite_header. by rewrite !store_host. Qed.

Lemma rewrite_header_length : length buf' = length buf.
Proof. destruct Hpkt as [_ _ Hh _]. rewrite rewrite_header_writes. by past_writes. Qed.

Lemma rewrite_header_bytes : is_bytes buf'.
Proof. destruct Hpkt. rewrite rewrite_header_writes. auto using is_bytes_write_at with router. Qed.

Lemma rewrite_header_outside i : (i < 10 \/ 20 <= i)%nat -> buf' !! i = buf !! i.
Proof.
  intros Hi. destruct Hpkt as [_ _ Hh _]. rewrite rewrite_header_writes.
  rewrite !lookup_write_at by buf_len. autorewrite with router.
  by rewrite !decide_False by lia.
Qed.

Lemma rewrite_header_size : header_size buf' = hs /\ is_ipv4 buf' = true.
Proof.
  destruct Hpkt as [_ Hv _ _]. rewrite <- Hv. apply header_size_same; [apply rewrite_header_length|].
  unfold load8. by rewrite rewrite_header_outside by lia.
Qed.

Lemma rewrite_header_drop : drop hs buf' = drop hs buf.
Proof.
  apply list_eq. intros i. rewrite !lookup_drop. apply rewrite_header_outside.
  destruct Hpkt as [_ _ Hh _]. fold hs in Hh. lia.
Qed.

Lemma rewrite_header_addresses : 0 <= src < 2 ^ 32 -> 0 <= dst < 2 ^ 32 ->
  subspan 12 4 buf' = be_bytes 4 src /\ subspan 16 4 buf' = be_bytes 4 dst /\
  source_ipv4 buf' = Some src /\ dest_ipv4 buf' = Some dst.
Proof.
  intros Hs Hd. destruct Hpkt as [Hb Hv Hh Hl].
  assert (subspan 16 4 buf' = be_bytes 4 dst) as E2.
  { rewrite rewrite_header_writes. apply subspan_written; buf_len. }
  assert (subspan 12 4 buf' = be_bytes 4 src) as E1.
  { rewrite rewrite_header_writes, subspan_write_at_ne by buf_len.
    apply subspan_written; buf_len. }
  destruct rewrite_header_size as [_ Ev]. pose proof rewrite_header_length.
  unfold source_ipv4, dest_ipv4. rewrite Ev, !host_to_big_load by (apply rewrite_header_bytes || lia).
  rewrite E1, E2, !be_value_be_bytes. rewrite !Z.mod_small by (change (256 ^ Z.of_nat 4) with (2 ^ 32); lia). done.
Qed.

Lemma rewrite_header_checksum : checksum_ok (take hs buf') <-> checksum_ok (take hs buf).
Proof.
  pose proof (ip4_even buf Hpkt) as He. pose proof (update_ipv4_moved src dst buf Hpkt (load16 10 buf)) as Hm.
  destruct Hpkt as [Hb Hv Hh Hl]. fold hs in Hh, He.
  destruct (word_sum_load 10 buf Hb) as [El Hr]; [lia|]. destruct (Hm Hr) as (Bc & _ & Ec). unfold csum_moved in Ec.
  fold c in Bc, Ec.
  destruct (lookup_lt_is_Some_2 buf 0) as [b0 Hb0]; [lia|]. assert (load8 0 buf = b0) as E0 by (unfold load8; by rewrite Hb0).
  apply (checksum_ok_moved _ _ 0 b0).
  - by apply Forall_take.
  - apply Forall_take, rewrite_header_bytes.
  - by rewrite lookup_take_lt by lia.
  - by rewrite lookup_take_lt, rewrite_header_outside by lia.
  - unfold is_ipv4, ip_version in Hv. intros H0. by rewrite E0, H0, andb_comm in Hv.
  - rewrite rewrite_header_writes, !take_write_at by buf_len.
    rewrite !word_sum_write_at by first [buf_len | autorewrite with router;
      first [by exists 8%nat | by exists 6%nat | by exists 5%nat | by exists 2%nat | by exists 1%nat]].
    autorewrite with router. rewrite !subspan_write_at_ne by buf_len.
    assert (forall o n, (o + n <= hs)%nat -> subspan o n (take hs buf) = subspan o n buf) as Hsub.
    { intros o n Ho. unfold subspan. rewrite skipn_firstn_comm, take_take. f_equal. lia. }
    rewrite !Hsub by lia. rewrite (word_sum_store c), Ec, El by lia. exists 0. lia.
Qed.
End Header.

Lemma word_sum_pseudo4 s d proto len payload : length s = 4%nat -> length d = 4%nat ->
  word_sum (pseudo4 s d proto len ++ payload)
  = word_sum s + word_sum d + proto + word_sum (be_bytes 2 (Z.of_nat len)) + word_sum payload.
Proof.
  intros Hs Hd. unfold pseudo4. rewrite <- !app_assoc.
  rewrite !word_sum_app by (rewrite ?Hs, ?Hd, ?length_be_bytes; first [by exists 2%nat | by exists 1%nat]).
  cbn [word_sum]. lia.
Qed.

(** A store in the payload leaves the header as it is. *)
Lemma payload_store_packet at_ c buf : ipv4_packet buf ->
  (header_size buf <= at_ /\ at_ + 2 <= length buf)%nat ->
  let buf1 := store 2 at_ c buf in
  ipv4_packet buf1 /\ header_size buf1 = header_size buf /\ take (header_size buf) buf1 = take (header_size buf) buf.
Proof.
  intros [Hb Hv Hh Hl] Ha buf1. unfold buf1, store.
  destruct (header_size_same buf (write_at at_ (le_bytes 2 c) buf)) as [E1 E2]; [buf_len | past_writes; done |].
  split; [|split; [done|rewrite take_write_at_after by buf_len; done]].
  split; [by apply is_bytes_write_at; auto with router | by rewrite E2 | rewrite E1; buf_len | buf_len].
Qed.

Lemma covered4_bytes buf : ipv4_packet buf -> is_bytes (covered4 buf).
Proof.
  intros [Hb Hv Hh Hl]. unfold covered4, pseudo4.
  assert (is_byte (load8 9 buf)) as H9.
  { unfold load8. destruct (buf !! 9%nat) eqn:E; [by eapply Forall_lookup_1 in E | unfold is_byte; simpl; lia]. }
  apply Forall_app. split; [|by apply Forall_drop].
  do 2 (apply Forall_app; split; [by apply is_bytes_subspan|]).
  apply Forall_app. split; [|apply is_bytes_be_bytes].
  apply Forall_cons; split; [unfold is_byte; lia|]. by apply Forall_singleton.
Qed.

Lemma covered4_proto s d proto len payload : length s = 4%nat -> length d = 4%nat ->
  (pseudo4 s d proto len ++ payload) !! 9%nat = Some proto.
Proof.
  intros Hs Hd. unfold pseudo4. rewrite <- !app_assoc. rewrite lookup_app_r, Hs by lia.
  by rewrite lookup_app_r, Hd by lia.
Qed.

(** The transport checksum follows the addresses. *)
Lemma transport_moved src dst at_ c buf :
  ipv4_packet buf -> 0 <= src < 2 ^ 32 -> 0 <= dst < 2 ^ 32 -> 0 <= c < 65536 -> load8 9 buf <> 0 ->
  (header_size buf <= at_ /\ at_ + 2 <= length buf)%nat -> Nat.Even at_ -> csum_moved src dst buf (load16 at_ buf) c ->
  let buf1 := store 2 at_ c buf in
  let c1 := update_ipv4_checksum (load16 10 buf1) (load32 12 buf1) (load32 16 buf1) src dst in
  checksum_ok (covered4 (rewrite_header c1 src dst buf1)) <-> checksum_ok (covered4 buf).
Proof.
  intros Hp Hs Hd Hc Hz Ha He Hm buf1 c1.
  destruct (payload_store_packet at_ c buf Hp Ha) as (Hp1 & Eh & Et). fold buf1 in Hp1, Eh, Et.
  destruct (rewrite_header_addresses src dst buf1 Hp1 Hs Hd) as (A1 & A2 & _). fold c1 in A1, A2.
  set (buf' := rewrite_header c1 src dst buf1) in *.
  pose proof (rewrite_header_size src dst buf1 Hp1) as [Eh' Ev']. fold c1 buf' in Eh', Ev'.
  pose proof (rewrite_header_length src dst buf1 Hp1) as El'. fold c1 buf' in El'.
  pose proof (rewrite_header_bytes src dst buf1 Hp1) as Hb'. fold c1 buf' in Hb'.
  pose proof (rewrite_header_outside src dst buf1 Hp1) as Eo. fold c1 buf' in Eo.
  pose proof (rewrite_header_drop src dst buf1 Hp1) as Ed. fold c1 buf' in Ed.
  pose proof Hp as [Hb Hv Hh Hl].
  assert (length buf1 = length buf) as El1 by (unfold buf1, store; buf_len).
  assert (load8 9 buf' = load8 9 buf) as E9.
  { unfold load8 at 1. rewrite Eo by lia. unfold buf1, store. fold (load8 9 (write_at at_ (le_bytes 2 c) buf)). by past_writes. }
  apply (checksum_ok_moved (covered4 buf) _ 9 (load8 9 buf)).
  - by apply covered4_bytes.
  - apply covered4_bytes. split; [done | done | lia | lia].
  - apply covered4_proto; (rewrite length_subspan; lia).
  - unfold covered4. rewrite A1, A2, E9. apply covered4_proto; buf_len.
  - done.
  - unfold covered4. rewrite A1, A2, E9, El', Eh', Eh, El1. rewrite <- Eh, Ed, Eh.
    rewrite !word_sum_pseudo4 by (rewrite ?length_be_bytes, ?length_subspan; (done || lia)).
    unfold buf1, store. rewrite drop_write_at by buf_len.
    destruct (word_sum_load at_ buf Hb) as [Ew _]; [lia|].
    rewrite word_sum_write_at; [|destruct (ip4_even buf Hp) as [k Hk]; destruct He as [j Hj]; exists (j - k)%nat; lia
      |rewrite length_le_bytes; by exists 1%nat|buf_len].
    rewrite length_le_bytes. assert (subspan (at_ - header_size buf) 2 (drop (header_size buf) buf) = subspan at_ 2 buf) as ->.
    { unfold subspan. rewrite drop_drop. do 2 f_equal. lia. }
    rewrite word_sum_store by done. unfold csum_moved in Hm. rewrite Hm, Ew. exists 0. lia.
Qed.

Lemma transport_field4 buf at_ : csum_field4 buf = Some at_ -> load8 9 buf <> 0.
Proof.
  unfold csum_field4, PROTO_TCP, PROTO_UDP. destruct (Z.eqb_spec (load8 9 buf) 6); [lia|].
  destruct (Z.eqb_spec (load8 9 buf) 17); [lia|]. done.
Qed.

Lemma csum_field4_same buf buf' : length buf' = length buf -> header_size buf' = header_size buf ->
  load8 9 buf' = load8 9 buf -> csum_field4 buf' = csum_field4 buf.
Proof. intros E1 E2 E3. unfold csum_field4. by rewrite E1, E2, E3. Qed.

Lemma transport_state4_moved src dst at_ c buf :
  ipv4_packet buf -> 0 <= src < 2 ^ 32 -> 0 <= dst < 2 ^ 32 ->
  (header_size buf <= at_ /\ at_ + 2 <= length buf)%nat -> Nat.Even at_ -> 0 <= c < 65536 ->
  (csum_field4 buf = None \/ csum_field4 buf = Some at_ /\
     if (load8 9 buf =? PROTO_UDP) && (load16 at_ buf =? 0) then c = 0
     else csum_moved src dst buf (load16 at_ buf) c /\ (load8 9 buf = PROTO_UDP -> c <> 0)) ->
  let buf1 := store 2 at_ c buf in
  let c1 := update_ipv4_checksum (load16 10 buf1) (load32 12 buf1) (load32 16 buf1) src dst in
  transport_state4 (rewrite_header c1 src dst buf1) = transport_state4 buf.
Proof.
  intros Hp Hs Hd Ha He Hc Hcs buf1 c1. destruct (payload_store_packet at_ c buf Hp Ha) as (Hp1 & Eh & _).
  fold buf1 in Hp1, Eh. assert (load8 9 buf1 = load8 9 buf) as E9 by (destruct Hp; unfold buf1, store; by past_writes).
  pose proof (rewrite_header_size src dst buf1 Hp1) as [Eh' _]. pose proof (rewrite_header_length src dst buf1 Hp1) as El'.
  pose proof (rewrite_header_outside src dst buf1 Hp1) as Eo. fold c1 in Eh', El', Eo.
  assert (load8 9 (rewrite_header c1 src dst buf1) = load8 9 buf) as E9'
    by (rewrite <- E9; unfold load8; by rewrite Eo by lia).
  assert (length buf1 = length buf) as El by (unfold buf1, store; buf_len).
  unfold transport_state4. rewrite (csum_field4_same buf) by congruence. destruct Hcs as [->|[Ef Hcs]]; [done|].
  rewrite Ef, E9'.
  assert (load16 at_ (rewrite_header c1 src dst buf1) = c) as ->.
  { unfold load16, load. replace (subspan at_ 2 _) with (le_bytes 2 c);
      [rewrite le_value_le_bytes; apply Z.mod_small; lia|].
    symmetry. destruct Hp as [_ _ Hh _]. unfold c1. rewrite (rewrite_header_writes src dst). unfold buf1, store.
    rewrite !subspan_write_at_ne by buf_len. apply subspan_written; buf_len. }
  destruct ((load8 9 buf =? PROTO_UDP) && (load16 at_ buf =? 0)) eqn:Eu.
  - apply andb_true_iff in Eu as [-> _]. by rewrite Hcs.
  - destruct Hcs as [Hm Hu]. replace (_ && (c =? 0)) with false
      by (symmetry; destruct (Z.eqb_spec (load8 9 buf) PROTO_UDP); [apply Z.eqb_neq; auto | done]).
    pose proof (transport_moved src dst at_ c buf Hp Hs Hd Hc (transport_field4 buf at_ Ef) Ha He Hm) as Hiff.
    fold buf1 c1 in Hiff. cbv zeta in Hiff. repeat case_decide; naive_solver.
Qed.


(** The guard for a TCP fragment allows for the fragment offset, the write does not:
    a short fragment that starts 8 or 16 bytes into the segment is written past its
    end. *)
Lemma tcp_fragment_undefined src dst buf :
  ipv4_packet buf -> load8 9 buf = PROTO_TCP -> (fragment_units buf = 1 \/ fragment_units buf = 2) ->
  (header_size buf + 18 <= length buf + 8 * Z.to_nat (fragment_units buf) /\ length buf < header_size buf + 18)%nat ->
  update_ipv4_address src dst buf = Undefined.
Proof.
  intros Hp Ht Hf Hl. pose proof (ip4_hs buf Hp) as Eh. destruct Hp as [Hb Hv Hh _].
  unfold update_ipv4_address, update_ipv4_payload. unfold IPV4_HEADER, TCP_CSUM_OFF.
  rewrite decide_False by lia. rewrite <- Eh, Ht. rewrite decide_True by lia. rewrite Z.eqb_refl.
  rewrite decide_True by lia. by rewrite decide_True by lia.
Qed.

(** ** IPv6 checksums *)
Lemma split4 l : is_buf 16 l -> exists a b c d, is_buf 4 a /\ is_buf 4 b /\ is_buf 4 c /\ is_buf 4 d /\ l = a ++ b ++ c ++ d.
Proof.
  intros [Hl Hb]. exists (subspan 0 4 l), (subspan 4 4 l), (subspan 8 4 l), (subspan 12 4 l).
  split_and!; try (split; [apply length_subspan; lia | by apply is_bytes_subspan]).
  do 16 (destruct l as [|? l]; [done|]). by destruct l.
Qed.

Lemma le_sum_app l1 l2 : Nat.Even (length l1) -> le_sum (l1 ++ l2) = le_sum l1 + le_sum l2.
Proof.
  induction l1 as [|a|a b l IH] using pair_ind; intros He; cbn [app le_sum length] in *.
  - lia.
  - destruct He; lia.
  - rewrite IH; [lia|]. destruct He as [k ?]. exists (k - 1)%nat. lia.
Qed.

Lemma load32_parts a b c d : length a = 4%nat -> length b = 4%nat -> length c = 4%nat -> length d = 4%nat ->
  let l := a ++ b ++ c ++ d in
  load32 0 l = le_value a /\ load32 4 l = le_value b /\ load32 8 l = le_value c /\ load32 12 l = le_value d.
Proof.
  intros Ha Hb Hc Hd l.
  do 4 (destruct a as [|? a]; [done|]); destruct a; [|done]. do 4 (destruct b as [|? b]; [done|]); destruct b; [|done].
  do 4 (destruct c as [|? c]; [done|]); destruct c; [|done]. do 4 (destruct d as [|? d]; [done|]); by destruct d.
Qed.

Lemma add32x4_le l : is_buf 16 l -> add32x4_cs l = le_sum l /\ sub32x4_cs l = 524280 - le_sum l /\ 0 <= le_sum l <= 524280.
Proof.
  intros Hl. destruct (split4 l Hl) as (a & b & c & d & Ha & Hb & Hc & Hd & ->).
  destruct (load32_parts a b c d) as (E1 & E2 & E3 & E4); [apply Ha | apply Hb | apply Hc | apply Hd |].
  unfold add32x4_cs, sub32x4_cs. rewrite E1, E2, E3, E4, !add32_cs_le, !sub32_cs_le by done.
  rewrite !le_sum_app by (rewrite ?(proj1 Ha), ?(proj1 Hb), ?(proj1 Hc); by exists 2%nat).
  destruct Hl as [Hl Hbs]. pose proof (le_sum_bound _ Hbs) as Hbd. rewrite Hl in Hbd.
  rewrite !le_sum_app in Hbd by (rewrite ?(proj1 Ha), ?(proj1 Hb), ?(proj1 Hc); by exists 2%nat).
  change ((Z.of_nat 16 + 1) / 2) with 8 in Hbd. lia.
Qed.

Lemma update_ipv6_checksum_spec old s d ns nd : 0 <= old < 65536 ->
  is_buf 16 s -> is_buf 16 d -> is_buf 16 ns -> is_buf 16 nd ->
  let c := update_ipv6_checksum old s d ns nd in
  0 <= c < 65536 /\ 256 * c ≡ 256 * old + (word_sum s + word_sum d) - (word_sum ns + word_sum nd).
Proof.
  intros Ho Hs Hd Hns Hnd. unfold update_ipv6_checksum.
  destruct (add32x4_le s Hs) as (-> & _ & ?), (add32x4_le d Hd) as (-> & _ & ?),
    (add32x4_le ns Hns) as (_ & -> & ?), (add32x4_le nd Hnd) as (_ & -> & ?).
  unfold wrap. rewrite Z.mod_small by lia.
  match goal with |- context [fold_carries ?x] => destruct (fold_carries_spec x ltac:(lia)) as (B & E & _) end.
  split; [lia|]. rewrite E. rewrite <- !word_sum_le by (apply Hs || apply Hd || apply Hns || apply Hnd).
  exists (256 * 16). lia.
Qed.

(** The sum of a payload as the code splits it. *)
Lemma le_sum_split l : let even := (length l - length l mod 2)%nat in
  le_sum l = le_sum (take even l) + if decide (length l mod 2 = 1)%nat then load8 even l else 0.
Proof.
  intros even. assert (Nat.Even (length (take even l))) as He.
  { rewrite length_take. exists (length l / 2)%nat. unfold even. pose proof (Nat.div_mod_eq (length l) 2). lia. }
  rewrite <- (take_drop even l) at 1. rewrite le_sum_app by done. f_equal.
  pose proof (Nat.mod_upper_bound (length l) 2). assert (length (drop even l) = length l mod 2)%nat as Hd
    by (rewrite length_drop; unfold even; pose proof (Nat.Div0.mod_le (length l) 2); lia).
  unfold load8. replace (l !! even) with (drop even l !! 0%nat) by (by rewrite lookup_drop, Nat.add_0_r).
  rewrite <- Hd.
  destruct (drop even l) as [|x [|y r]]; [done | done |]. cbn [length] in Hd. lia.
Qed.

Lemma word_sum_be2 x : 0 <= x < 65536 -> word_sum (be_bytes 2 x) = x.
Proof.
  intros Hx. unfold be_bytes. cbn [le_bytes rev app word_sum].
  rewrite (Z.mod_small (x / 256)) by (split; [apply Z.div_pos | apply Z.div_lt_upper_bound]; lia).
  pose proof (Z.div_mod x 256). lia.
Qed.

Lemma word_sum_be4 x : 0 <= x < 65536 -> word_sum (be_bytes 4 x) = x.
Proof.
  intros Hx. rewrite <- (word_sum_be2 x Hx) at 2. unfold be_bytes. cbn [le_bytes rev app word_sum].
  assert (x / 256 / 256 = 0) as -> by (rewrite Z.div_div by lia; apply Z.div_small; lia). done.
Qed.

Lemma word_sum_pseudo6 s d proto len payload : length s = 16%nat -> length d = 16%nat -> Z.of_nat len < 65536 ->
  word_sum (pseudo6 s d proto len ++ payload) = word_sum s + word_sum d + Z.of_nat len + proto + word_sum payload.
Proof.
  intros Hs Hd Hl. unfold pseudo6. rewrite <- !app_assoc.
  rewrite !word_sum_app by (rewrite ?Hs, ?Hd, ?length_be_bytes; first [by exists 8%nat | by exists 2%nat]).
  rewrite word_sum_be4 by lia. cbn [word_sum]. lia.
Qed.

Lemma is_byte_load8 i buf : is_bytes buf -> is_byte (load8 i buf).
Proof.
  intros Hb. unfold load8. destruct (buf !! i) eqn:E; [by eapply Forall_lookup_1 in E | unfold is_byte; simpl; lia].
Qed.

(** The checksum of a payload makes the sum with the pseudo header a multiple of 65535. *)
Lemma ipv6_proto_checksum_spec hdr payload :
  is_buf 40 hdr -> is_bytes payload -> Z.of_nat (length payload) < 65536 ->
  let c := ipv6_proto_checksum hdr payload in
  0 <= c < 65536 /\
  256 * c + (word_sum (subspan 8 16 hdr) + word_sum (subspan 24 16 hdr) + word_sum (subspan 4 2 hdr) + load8 6 hdr
             + word_sum payload) ≡ 0.
Proof.
  intros [Hl Hb] Hp Hlen. unfold ipv6_proto_checksum.
  assert (forall o n, (o + n <= 40)%nat -> is_buf n (subspan o n hdr)) as Hf.
  { intros o n Ho. split; [apply length_subspan; lia | by apply is_bytes_subspan]. }
  pose proof (is_byte_load8 6 hdr Hb) as H6. destruct (word_sum_load 4 hdr Hb) as [E4 B4]; [lia|].
  destruct (add32x4_le _ (Hf 8%nat 16%nat ltac:(lia))) as (-> & _ & Bs).
  destruct (add32x4_le _ (Hf 24%nat 16%nat ltac:(lia))) as (-> & _ & Bd).
  set (even := (length payload - length payload mod 2)%nat).
  pose proof (is_byte_load8 even payload Hp) as He. unfold is_byte in *. rewrite Z.shiftl_mul_pow2 by lia. change (2 ^ 8) with 256.
  assert (is_bytes (take even payload)) as Ht by (by apply Forall_take).
  pose proof (le_sum_bound _ Ht) as Bt. assert (Z.of_nat (length (take even payload)) < 65536) by (rewrite length_take; lia).
  assert ((Z.of_nat (length (take even payload)) + 1) / 2 <= 32768) by (apply Z.div_le_upper_bound; lia).
  unfold wrap. rewrite (Z.mod_small (_ + load16 4 hdr)) by lia.
  rewrite (Z.mod_small (_ + load8 6 hdr * 256)), (Z.mod_small (_ + load8 even payload)) by lia.
  pose proof (le_sum_split payload) as Es. cbv zeta in Es. fold even in Es.
  set (odd := if decide (length payload mod 2 = 1)%nat then load8 even payload else 0) in Es.
  set (base := le_sum (subspan 8 16 hdr) + le_sum (subspan 24 16 hdr) + load16 4 hdr + load8 6 hdr * 256).
  replace (if decide _ then base + load8 even payload else base) with (base + odd) by (unfold odd; case_decide; lia).
  assert (0 <= odd < 256) by (unfold odd; case_decide; lia).
  rewrite sum_words_spec by (done || unfold base; lia).
  replace (base + odd + le_sum (take even payload)) with (base + le_sum payload) by lia.
  destruct (fold_carries_spec (base + le_sum payload)) as (B & E & _); [unfold base; lia|].
  rewrite lnot_ffff, <- land_ffff. set (f := Z.land _ 0xffff) in *. split; [lia|].
  rewrite E4, <- (word_sum_le payload), <- (word_sum_le (subspan 8 16 hdr)), <- (word_sum_le (subspan 24 16 hdr))
    by (done || apply Hf; lia).
  replace (256 * (65535 - f)) with (- 256 * f + 65535 * 256) by lia. rewrite E.
  exists (256 - load8 6 hdr). unfold base. lia.
Qed.

(** What the transport checksum of an IPv6 packet covers. *)
Definition covered6 (start : nat) (proto : Z) (buf : bytes) : bytes :=
  pseudo6 (subspan 8 16 buf) (subspan 24 16 buf) proto (length buf - start) ++ drop start buf.

Lemma covered6_bytes start proto buf : is_bytes buf -> is_byte proto -> is_bytes (covered6 start proto buf).
Proof.
  intros Hb Hp. unfold covered6, pseudo6. apply Forall_app. split; [|by apply Forall_drop].
  do 2 (apply Forall_app; split; [by apply is_bytes_subspan|]). apply Forall_app. split; [apply is_bytes_be_bytes|].
  do 3 (apply Forall_cons; split; [unfold is_byte; lia|]). by apply Forall_singleton.
Qed.

Lemma covered6_proto start proto buf : (40 <= length buf)%nat -> covered6 start proto buf !! 39%nat = Some proto.
Proof.
  intros Hl. unfold covered6, pseudo6. rewrite <- !app_assoc. rewrite lookup_app_r, length_subspan by (rewrite ?length_subspan; lia).
  rewrite lookup_app_r, length_subspan by (rewrite ?length_subspan; lia). rewrite lookup_app_r, length_be_bytes by (rewrite length_be_bytes; lia).
  done.
Qed.

(** A new packet with the computed checksum, or its other representation, is accepted. *)
Lemma ipv6_proto_checksum_ok off c pkt :
  is_bytes pkt -> Nat.Even off -> (40 + off + 2 <= length pkt)%nat -> Z.of_nat (length pkt) < 65536 + 40 ->
  subspan (40 + off) 2 pkt = [0; 0] -> subspan 4 2 pkt = be_bytes 2 (Z.of_nat (length pkt - 40)) -> load8 6 pkt <> 0 ->
  0 <= c < 65536 -> c ≡ ipv6_proto_checksum (take 40 pkt) (drop 40 pkt) ->
  checksum_ok (covered6 40 (load8 6 pkt) (store 2 (40 + off) c pkt)).
Proof.
  intros Hb He Hl Hlen Hz Hn H6 Hc Ec. unfold store.
  assert (is_bytes (write_at (40 + off) (le_bytes 2 c) pkt)) as Hb' by (apply is_bytes_write_at; auto with router).
  apply checksum_ok_spec; [by apply covered6_bytes; [|apply is_byte_load8]|]. split; [|
    by eapply word_sum_nonzero; [apply covered6_bytes; [|apply is_byte_load8] | apply covered6_proto; buf_len |]].
  destruct (ipv6_proto_checksum_spec (take 40 pkt) (drop 40 pkt)) as [_ E];
    [split; [buf_len | by apply Forall_take] | by apply Forall_drop | buf_len |]. rewrite <- Ec in E.
  assert (forall o n, (o + n <= 40)%nat -> subspan o n (take 40 pkt) = subspan o n pkt) as Hs.
  { intros o n Ho. unfold subspan. rewrite skipn_firstn_comm, take_take. f_equal. lia. }
  rewrite !Hs, Hn, word_sum_be2 in E by lia.
  assert (load8 6 (take 40 pkt) = load8 6 pkt) as E6 by (unfold load8; by rewrite lookup_take_lt by lia). rewrite E6 in E.
  unfold covered6. past_writes. rewrite word_sum_pseudo6 by (rewrite ?length_subspan; lia).
  rewrite drop_write_at by buf_len. replace (40 + off - 40)%nat with off by lia.
  rewrite word_sum_write_at by first [done | buf_len | rewrite length_le_bytes; by exists 1%nat].
  rewrite length_le_bytes. assert (subspan off 2 (drop 40 pkt) = [0; 0]) as ->.
  { rewrite <- Hz. unfold subspan. by rewrite drop_drop. }
  cbn [word_sum]. rewrite word_sum_store by done. etransitivity; [|exact E]. exists 0. lia.
Qed.

(** ** New packets *)
Lemma subspan_front o n l1 l2 : (o + n <= length l1)%nat -> subspan o n (l1 ++ l2) = subspan o n l1.
Proof.
  intros Hl. unfold subspan. rewrite skipn_app. rewrite take_app_le by (rewrite length_drop; lia). done.
Qed.

Lemma load8_front i l1 l2 : (i < length l1)%nat -> load8 i (l1 ++ l2) = load8 i l1.
Proof. intros Hl. unfold load8. by rewrite lookup_app_l. Qed.

Lemma length_in6_addr a : length (in6_addr a) = 16%nat.
Proof. unfold in6_addr. by rewrite length_app, !length_be_bytes. Qed.
Lemma is_bytes_in6_addr a : is_bytes (in6_addr a).
Proof. apply Forall_app. split; apply is_bytes_be_bytes. Qed.

Definition is_ipv6_addr (a : ipv6) : Prop := 0 <= hi a < 2 ^ 64 /\ 0 <= lo a < 2 ^ 64.

Lemma ipv6_of_in6 a : is_ipv6_addr a -> ipv6_of (in6_addr a) = a.
Proof.
  intros [Hh Hl]. unfold ipv6_of, in6_addr. rewrite take_app_length', drop_app_length' by (by rewrite length_be_bytes).
  rewrite !be_value_be_bytes. rewrite !Z.mod_small by (change (256 ^ Z.of_nat 8) with (2 ^ 64); lia). by destruct a.
Qed.
#[export] Hint Rewrite length_in6_addr : router.

(** A concatenation of fields is made of bytes. *)
Ltac bytes_tac :=
  unfold is_bytes;
  repeat match goal with
  | |- Forall _ (be_bytes _ _) => apply is_bytes_be_bytes
  | |- Forall _ (in6_addr _) => apply is_bytes_in6_addr
  | |- Forall _ (subspan _ _ _) => apply is_bytes_subspan; assumption
  | |- Forall _ (take _ _) => apply Forall_take
  | |- Forall _ (_ ++ _) => apply Forall_app; split
  | |- Forall _ [] => apply Forall_nil; exact I
  | |- Forall _ (_ :: _) => apply Forall_cons; split; [first [apply is_byte_load8; assumption | unfold is_byte; lia]|]
  | |- _ => assumption
  end.

Section Udp.
Context (src : ipv6) (sp : Z) (dst : ipv6) (dp : Z) (payload : bytes).
Let body : bytes := udp6_body src sp dst dp payload.
Let n : Z := wrap 16 (Z.of_nat (UDP_HEADER + length payload)).

Lemma udp6_length : length body = (48 + length payload)%nat.
Proof. unfold body, udp6_body. autorewrite with router. cbn [length]. lia. Qed.

Lemma udp6_parts :
  subspan 4 2 body = be_bytes 2 n /\ subspan 8 16 body = in6_addr src /\ subspan 24 16 body = in6_addr dst /\
  subspan 40 2 body = be_bytes 2 sp /\ subspan 42 2 body = be_bytes 2 dp /\ subspan 46 2 body = [0; 0] /\
  drop 48 body = payload /\ load8 0 body = 0x60 /\ load8 6 body = PROTO_UDP.
Proof.
  unfold body, udp6_body. fold n. set (len := be_bytes 2 n). assert (length len = 2%nat) as Hlen by apply length_be_bytes.
  assert (forall x, length (be_bytes 2 x) = 2%nat) as Hp by (intros; apply length_be_bytes).
  pose proof (length_in6_addr src) as Hs. pose proof (length_in6_addr dst) as Hd.
  assert (forall (l1 l2 l3 l : bytes) o k, l = l1 ++ l2 ++ l3 -> length l1 = o -> length l2 = k -> subspan o k l = l2) as Hsub
    by (intros l1 l2 l3 l o k ->; apply subspan_app).
  split_and!.
  - by apply (subspan_app 4 2 [0x60; 0; 0; 0]).
  - eapply (Hsub ([0x60; 0; 0; 0] ++ len ++ [PROTO_UDP; 255])); [by rewrite <- !app_assoc | autorewrite with router; rewrite Hlen; done | done].
  - eapply (Hsub ([0x60; 0; 0; 0] ++ len ++ [PROTO_UDP; 255] ++ in6_addr src)); [by rewrite <- !app_assoc | rewrite !length_app, Hs, Hlen; done | done].
  - eapply (Hsub ([0x60; 0; 0; 0] ++ len ++ [PROTO_UDP; 255] ++ in6_addr src ++ in6_addr dst));
      [by rewrite <- !app_assoc | rewrite !length_app, Hs, Hd, Hlen; done | done].
  - eapply (Hsub ([0x60; 0; 0; 0] ++ len ++ [PROTO_UDP; 255] ++ in6_addr src ++ in6_addr dst ++ be_bytes 2 sp));
      [by rewrite <- !app_assoc | rewrite !length_app, Hs, Hd, Hlen; done | done].
  - eapply (Hsub ([0x60; 0; 0; 0] ++ len ++ [PROTO_UDP; 255] ++ in6_addr src ++ in6_addr dst ++ be_bytes 2 sp ++ be_bytes 2 dp ++ len));
      [by rewrite <- !app_assoc | rewrite !length_app, Hs, Hd, Hlen; done | done].
  - match goal with |- drop 48 ?l = _ => replace l with (([0x60; 0; 0; 0] ++ len ++ [PROTO_UDP; 255] ++ in6_addr src ++ in6_addr dst
        ++ be_bytes 2 sp ++ be_bytes 2 dp ++ len ++ [0; 0]) ++ payload) by (by rewrite <- !app_assoc) end.
    apply drop_app_length'. rewrite !length_app, Hs, Hd, Hlen. done.
  - done.
  - done.
Qed.

Lemma udp6_bytes : is_bytes payload -> is_bytes body.
Proof.
  intros Hp. unfold body, udp6_body, PROTO_UDP. fold n. bytes_tac.
Qed.
End Udp.

(** A UDP packet made for a payload is what a receiver expects: an IPv6 packet
    between the given addresses and ports whose data is the payload, with a right
    checksum that is not the zero IPv6 forbids. *)
Theorem make_udp_packet_spec src sp dst dp payload :
  is_bytes payload -> Z.of_nat (length payload) <= 65527 -> is_ipv6_addr src -> is_ipv6_addr dst ->
  0 <= sp < 65536 -> 0 <= dp < 65536 ->
  let pkt := make_udp_packet src sp dst dp payload in
  source_ipv6 pkt = Some src /\ dest_ipv6 pkt = Some dst /\ source_port pkt = Some sp /\ dest_port pkt = Some dp /\
  udp_data pkt = payload /\ is_ipv6 pkt = true /\ protocol pkt = PROTO_UDP /\
  checksum_ok (covered6 40 PROTO_UDP pkt) /\ load16 46 pkt <> 0.
Proof.
  intros Hp Hl Hs Hd Hsp Hdp pkt. pose proof (udp6_length src sp dst dp payload) as Hlen.
  destruct (udp6_parts src sp dst dp payload) as (P1 & P2 & P3 & P4 & P5 & P6 & P7 & P8 & P9).
  pose proof (udp6_bytes src sp dst dp payload Hp) as Hb. unfold pkt, make_udp_packet, IPV6_HEADER.
  set (body := udp6_body src sp dst dp payload) in *. set (c := ipv6_proto_checksum _ _).
  destruct (ipv6_proto_checksum_spec (take 40 body) (drop 40 body)) as [Bc _];
    [split; [buf_len | by apply Forall_take] | by apply Forall_drop | buf_len |]. fold c in Bc.
  set (c' := if c =? 0 then 0xffff else c). assert (0 < c' < 65536 /\ c' ≡ c) as [Bc' Ec].
  { unfold c'. destruct (Z.eqb_spec c 0) as [->|]; (split; [lia|]); [by exists 1 | done]. }
  assert (load8 0 (store 2 46 c' body) = 0x60) as E0 by (unfold store; past_writes; done).
  assert (load8 6 (store 2 46 c' body) = PROTO_UDP) as E6 by (unfold store; past_writes; done).
  assert (length (store 2 46 c' body) = 48 + length payload)%nat as El by (unfold store; buf_len).
  assert (is_ipv6 (store 2 46 c' body) = true /\ is_ipv4 (store 2 46 c' body) = false) as [E6' E4'].
  { unfold is_ipv6, is_ipv4, ip_version, IPV6_HEADER. rewrite E0, El, bool_decide_true by lia. split; [done|]. apply andb_false_r. }
  assert (header_size (store 2 46 c' body) = 40%nat) as Eh by (unfold header_size; by rewrite E4', E6').
  assert (protocol (store 2 46 c' body) = PROTO_UDP) as Ep by (unfold protocol; by rewrite E4', E6').
  unfold source_ipv6, dest_ipv6, source_port, dest_port, s_d_port, udp_data, payload_size.
  rewrite E6', Eh, Ep, El. cbn [orb negb Z.eqb PROTO_UDP PROTO_TCP Pos.eqb]. rewrite decide_True by lia.
  rewrite (decide_False (P := (48 + _ <= 40)%nat)) by lia. rewrite bool_decide_false by lia.
  change (40 + 0)%nat with 40%nat. change (40 + 2)%nat with 42%nat. change (40 + 8)%nat with 48%nat.
  unfold store. past_writes. rewrite P2, P3, P4, P5, !ipv6_of_in6, !be_value_be_bytes, !Z.mod_small by (done || simpl; lia).
  rewrite drop_write_at_before, P7 by buf_len. split_and!; try done.
  - rewrite <- P9. apply (ipv6_proto_checksum_ok 6); try done; try buf_len; try (by exists 3%nat); try (by rewrite P9).
    rewrite P1, Hlen. unfold wrap, UDP_HEADER. rewrite Z.mod_small by (simpl; lia). f_equal; lia.
  - unfold load16, load. rewrite subspan_written, le_value_le_bytes, Z.mod_small by (buf_len || simpl; lia). lia.
Qed.

(** ** Address changes of IPv6 packets *)

(** The loop over the extension headers ends within one iteration per 8 bytes; the
    payload it finds starts a multiple of 8 bytes further on, inside the packet. *)
Lemma extension_headers_end fuel proto start buf :
  (length buf - start < 8 * fuel)%nat -> (start <= length buf)%nat ->
  exists r, extension_headers fuel proto start buf = Some r /\
    match r with
    | Value (Some (_, _, s)) => (start <= s <= length buf)%nat /\ exists k, s = (start + 8 * k)%nat
    | _ => True
    end.
Proof.
  revert proto start. induction fuel as [|fuel IH]; intros proto start Hf Hs; [lia|]. cbn [extension_headers].
  assert (forall p n, (8 * n <= length buf - start)%nat -> (1 <= n)%nat -> exists r,
    extension_headers fuel p (start + 8 * n) buf = Some r /\ match r with
    | Value (Some (_, _, s)) => (start <= s <= length buf)%nat /\ exists k, s = (start + 8 * k)%nat
    | _ => True end) as Hrec.
  { intros p n Hn1 Hn2. destruct (IH p (start + 8 * n)%nat) as (r & Er & Hr); [lia..|]. exists r. split; [done|].
    destruct r as [[[[? ?] s]|]|]; [|done..]. destruct Hr as [Hr [k ->]]. split; [lia|]. exists (n + k)%nat. lia. }
  destruct (_ || _).
  - destruct (decide _); [by eexists|]. destruct (decide _); [by eexists|].
    rewrite (Nat.mul_comm _ 8). apply Hrec; lia.
  - destruct (proto =? 44).
    + destruct (decide _); [by eexists|]. destruct (decide _); [by eexists|]. destruct (_ =? 0).
      * apply (Hrec _ 1%nat); lia.
      * eexists. split; [done|]. split; [lia | by exists 1%nat].
    + eexists. split; [done|]. split; [lia|]. exists 0%nat. lia.
Qed.

(** The loop does not look at the bytes of the header. *)
Lemma extension_headers_ext fuel proto start buf buf' :
  length buf' = length buf -> (forall i, (start <= i)%nat -> buf' !! i = buf !! i) ->
  extension_headers fuel proto start buf' = extension_headers fuel proto start buf.
Proof.
  intros El Ei. revert proto start Ei. induction fuel as [|fuel IH]; intros proto start Ei; [done|].
  cbn [extension_headers]. rewrite El. unfold load8. rewrite !Ei by lia.
  repeat case_match; try done; apply IH; intros; apply Ei; lia.
Qed.

Lemma lor_byte a b : is_byte a -> is_byte b -> is_byte (Z.lor a b).
Proof.
  unfold is_byte. intros Ha Hb. assert (0 <= Z.lor a b) by (apply Z.lor_nonneg; lia). split; [done|].
  destruct (decide (Z.lor a b = 0)) as [->|]; [lia|]. apply (Z.log2_lt_pow2 _ 8); [lia|]. rewrite Z.log2_lor by lia.
  assert (forall c, 0 <= c < 256 -> Z.log2 c < 8) as Hl
    by (intros c Hc; destruct (decide (c = 0)) as [->|]; [done | apply Z.log2_lt_pow2; lia]).
  pose proof (Hl a Ha). pose proof (Hl b Hb). lia.
Qed.

Lemma land_byte a b : 0 <= a -> is_byte b -> is_byte (Z.land a b).
Proof.
  unfold is_byte. intros Ha Hb. assert (0 <= Z.land a b) by (apply Z.land_nonneg; lia). split; [done|].
  destruct (decide (Z.land a b = 0)) as [->|]; [lia|]. apply (Z.log2_lt_pow2 _ 8); [lia|].
  pose proof (Z.log2_land a b ltac:(lia) ltac:(lia)). assert (b <> 0) by (intros ->; by rewrite Z.land_0_r in *).
  assert (Z.log2 b < 8) by (apply Z.log2_lt_pow2; lia). lia.
Qed.

(** Setting a flow label changes bytes 1 to 3 only. *)
Lemma set_flowlabel_spec label buf : is_bytes buf -> (40 <= length buf)%nat -> 0 <= label ->
  is_bytes (set_flowlabel label buf) /\ length (set_flowlabel label buf) = length buf /\
  forall i, (i = 0 \/ 4 <= i)%nat -> set_flowlabel label buf !! i = buf !! i.
Proof.
  intros Hb Hl Hlab. unfold set_flowlabel, store. set (b := Z.lor _ _).
  assert (is_bytes (<[1%nat := b]> buf)) as Hb1.
  { apply Forall_insert; [done|]. apply lor_byte; apply land_byte; try (unfold is_byte; lia).
    - pose proof (is_byte_load8 1 buf Hb) as H. unfold is_byte in H. lia.
    - by apply Z.shiftr_nonneg. }
  assert (length (<[1%nat := b]> buf) = length buf) as El by apply length_insert.
  split; [apply is_bytes_write_at; auto with router|]. split; [buf_len|].
  intros i Hi. rewrite lookup_write_at by buf_len. rewrite length_le_bytes, decide_False by lia.
  by rewrite list_lookup_insert_ne by lia.
Qed.

(** The low half of a flow label is lost: [host_to_big] of the 32-bit [label & 0xffff]
    has it in the bytes that storing into 16 bits cuts off. *)
Lemma set_flowlabel_drops_low label buf : is_bytes buf -> (40 <= length buf)%nat -> 0 <= label ->
  subspan 2 2 (set_flowlabel label buf) = [0; 0].
Proof.
  intros Hb Hl Hlab. unfold set_flowlabel, store. rewrite subspan_written; [|done|rewrite length_insert; lia].
  unfold host_to_big, be_bytes. rewrite land_ffff. pose proof (Z.mod_pos_bound label 65536) as Hm.
  set (x := label mod 65536) in *. cbn [le_bytes rev app].
  assert (x / 256 / 256 = 0) as -> by (rewrite Z.div_div by lia; apply Z.div_small; lia).
  change (0 / 256) with 0. change (0 mod 256) with 0. cbn [le_value]. set (v := _ + 256 * (x mod 256 + _)).
  replace (0 + 256 * (0 + 256 * v)) with (v * 256 * 256) by lia. by rewrite Z.div_mul, !Z.mod_mul by lia.
Qed.

Lemma csum_off_spec proto off : csum_off proto = Some off -> is_byte proto /\ proto <> 0 /\ Nat.Even off.
Proof.
  unfold csum_off, PROTO_TCP, PROTO_ICMP6, PROTO_UDP, PROTO_UDP_LITE, is_byte.
  destruct (Z.eqb_spec proto 6) as [->|]; [intros [= <-]; split; [lia|]; split; [done | by exists 8%nat]|].
  destruct (Z.eqb_spec proto 58) as [->|]; [intros [= <-]; split; [lia|]; split; [done | by exists 1%nat]|].
  destruct (Z.eqb_spec proto 17) as [->|]; cbn [orb].
  - intros [= <-]; split; [lia|]; split; [done | by exists 3%nat].
  - destruct (Z.eqb_spec proto 136) as [->|]; [|done]. intros [= <-]; split; [lia|]; split; [done | by exists 3%nat].
Qed.

(** New addresses and the checksum moved with them. *)
Lemma update_ipv6_moved src dst start proto off buf :
  is_bytes buf -> (40 <= start)%nat -> (start + off + 2 <= length buf)%nat -> Z.of_nat (length buf) < 65536 + 40 ->
  Nat.Even start -> csum_off proto = Some off ->
  let b1 := write_at 24 (in6_addr dst) (write_at 8 (in6_addr src) buf) in
  let b2 := update_ipv6_proto_checksum start 0 off (subspan 8 16 buf) (subspan 24 16 buf) (in6_addr src) (in6_addr dst) b1 in
  length b2 = length buf /\ load8 0 b2 = load8 0 buf /\
  subspan 8 16 b2 = in6_addr src /\ subspan 24 16 b2 = in6_addr dst /\
  (checksum_ok (covered6 start proto b2) <-> checksum_ok (covered6 start proto buf)).
Proof.
  intros Hb Hst Hl Hlen Hes Hoff b1 b2. destruct (csum_off_spec proto off Hoff) as (Hp & Hp0 & Heo).
  assert (length b1 = length buf) as El1 by (unfold b1; buf_len).
  assert (is_bytes b1) as Hb1 by (unfold b1; auto using is_bytes_write_at, is_bytes_in6_addr).
  assert (drop start b1 = drop start buf) as Ed by (unfold b1; by rewrite !drop_write_at_before by buf_len).
  unfold b2, update_ipv6_proto_checksum. rewrite El1, decide_False by lia. rewrite Nat.sub_0_r.
  set (old := load16 (start + off) b1). set (c := update_ipv6_checksum _ _ _ _ _).
  set (c' := if c =? 0xffff then 0 else c).
  destruct (word_sum_load (start + off) b1 Hb1) as [Ew Bo]; [lia|]. fold old in Ew, Bo.
  assert (forall o, (o + 16 <= 40)%nat -> is_buf 16 (subspan o 16 buf)) as Hf
    by (intros o Ho; split; [apply length_subspan; lia | by apply is_bytes_subspan]).
  assert (forall a, is_buf 16 (in6_addr a)) as Ha by (intros a; split; [apply length_in6_addr | apply is_bytes_in6_addr]).
  destruct (update_ipv6_checksum_spec old _ _ _ _ Bo (Hf 8%nat ltac:(lia)) (Hf 24%nat ltac:(lia)) (Ha src) (Ha dst)) as [Bc Ec].
  fold c in Bc, Ec. assert (0 <= c' < 65536 /\ c' ≡ c) as [Bc' Ec'].
  { unfold c'. destruct (Z.eqb_spec c 0xffff) as [Hc|]; (split; [lia|]); [rewrite Hc; by exists (-1) | done]. }
  assert (subspan 24 16 (store 2 (start + off) c' b1) = in6_addr dst) as E2.
  { unfold store, b1. rewrite subspan_write_at_ne by buf_len. apply subspan_written; buf_len. }
  assert (subspan 8 16 (store 2 (start + off) c' b1) = in6_addr src) as E1.
  { unfold store, b1. rewrite !subspan_write_at_ne by buf_len. apply subspan_written; buf_len. }
  assert (length (store 2 (start + off) c' b1) = length buf) as El2 by (unfold store; buf_len).
  split; [done|]. split; [unfold store, b1; past_writes; done|]. split; [done|]. split; [done|].
  apply (checksum_ok_moved _ _ 39 proto); [by apply covered6_bytes | | apply covered6_proto; lia | apply covered6_proto; lia | done |].
  { apply covered6_bytes; [|done]. apply is_bytes_write_at; auto with router. }
  unfold covered6. rewrite E1, E2, El2. rewrite !word_sum_pseudo6 by (rewrite ?length_in6_addr, ?length_subspan; lia).
  unfold store. rewrite drop_write_at, Ed by buf_len. replace (start + off - start)%nat with off by lia.
  rewrite word_sum_write_at by first [done | rewrite length_le_bytes; by exists 1%nat | buf_len]. rewrite length_le_bytes.
  assert (subspan off 2 (drop start buf) = subspan (start + off) 2 b1) as ->.
  { rewrite <- Ed. unfold subspan. by rewrite drop_drop. }
  rewrite word_sum_store, Ec', Ec, Ew by done. exists 0. lia.
Qed.

(** Giving an IPv6 packet new addresses keeps its transport checksum as right or
    wrong as it was, wherever extension headers put it. *)
Theorem update_ipv6_address_spec src dst flow buf proto off start :
  is_bytes buf -> is_ipv6 buf = true -> (40 < length buf)%nat -> Z.of_nat (length buf) < 65536 + 40 ->
  is_ipv6_addr src -> is_ipv6_addr dst -> (forall label, flow = Some label -> 0 <= label) ->
  extension_headers (length buf) (load8 6 buf) 40 buf = Some (Value (Some (proto, 0%nat, start))) ->
  csum_off proto = Some off -> (start + off + 2 <= length buf)%nat ->
  exists buf', update_ipv6_address src dst flow buf = Value buf' /\ length buf' = length buf /\
    source_ipv6 buf' = Some src /\ dest_ipv6 buf' = Some dst /\
    (checksum_ok (covered6 start proto buf') <-> checksum_ok (covered6 start proto buf)).
Proof.
  intros Hb Hv Hl Hlen Hs Hd Hflow Hext Hoff Hin. unfold update_ipv6_address, IPV6_HEADER. rewrite decide_False by lia.
  destruct (extension_headers_end (length buf) (load8 6 buf) 40 buf) as (r & Er & Hr); [lia..|].
  rewrite Hext in Er. injection Er as <-. destruct Hr as [Hst [k ->]]. set (start := (40 + 8 * k)%nat) in *.
  set (buf0 := match flow with Some label => set_flowlabel label buf | None => buf end).
  assert (is_bytes buf0 /\ length buf0 = length buf /\ forall i, (i = 0 \/ 4 <= i)%nat -> buf0 !! i = buf !! i)
    as (Hb0 & El0 & Ei0).
  { unfold buf0. destruct flow as [label|]; [|done]. apply set_flowlabel_spec; [done | lia | by apply Hflow]. }
  assert (forall o n, (4 <= o)%nat -> subspan o n buf0 = subspan o n buf) as Es0.
  { intros o n Ho. unfold subspan. f_equal. apply list_eq. intros i. rewrite !lookup_drop. apply Ei0. lia. }
  assert (drop start buf0 = drop start buf) as Ed0.
  { apply list_eq. intros i. rewrite !lookup_drop. apply Ei0. unfold start. lia. }
  destruct (update_ipv6_moved src dst start proto off buf0 Hb0) as (El & E0 & E1 & E2 & Hck);
    [unfold start; lia | lia | lia | exists (20 + 4 * k)%nat; unfold start; lia | done |].
  set (b1 := write_at 24 _ _) in *.
  assert (forall i, (6 = i \/ 40 <= i)%nat -> b1 !! i = buf !! i) as Ei1.
  { intros i Hi. unfold b1. rewrite !lookup_write_at by buf_len. autorewrite with router.
    rewrite !decide_False by lia. apply Ei0. lia. }
  rewrite (extension_headers_ext _ _ _ buf b1) by first [unfold b1; buf_len | intros; apply Ei1; lia].
  assert (load8 6 b1 = load8 6 buf) as -> by (unfold load8; by rewrite Ei1 by lia).
  assert (length b1 = length buf) as -> by (unfold b1; buf_len). rewrite Hext, Hoff.
  eexists. split; [done|]. set (b2 := update_ipv6_proto_checksum _ _ _ _ _ _ _ _) in *.
  assert (is_ipv6 b2 = true) as Hv2.
  { rewrite <- Hv. unfold is_ipv6, ip_version. rewrite El, E0, El0. unfold load8. by rewrite Ei0 by lia. }
  split; [lia|]. unfold source_ipv6, dest_ipv6. rewrite Hv2, E1, E2, !ipv6_of_in6 by done.
  split; [done|]. split; [done|]. rewrite Hck. unfold covered6. by rewrite !Es0, Ed0, El0 by lia.
Qed.

(** ** ICMP replies *)
Section Icmp.
Context (buf : bytes) (Hb : is_bytes buf).

Lemma icmp4_ok : is_ipv4 buf = true ->
  let pkt := make_icmp4_unreachable buf in
  source_ipv4 pkt = dest_ipv4 buf /\ dest_ipv4 pkt = source_ipv4 buf /\
  checksum_ok (take 20 pkt) /\ checksum_ok (drop 20 pkt) /\
  drop 28 pkt = take (Z.to_nat (header_len buf) * 4 + 32) buf.
Proof.
  intros Hv pkt. assert (20 <= length buf)%nat as Hl.
  { unfold is_ipv4 in Hv. apply andb_true_iff in Hv as [H _]. by apply bool_decide_eq_true in H. }
  set (orig := take (Z.to_nat (header_len buf) * 4 + 32) buf). set (body := icmp4_body buf).
  assert (0 <= header_len buf <= 15) as Hh.
  { unfold header_len. pose proof (Z.land_ones (load8 0 buf) 4 ltac:(lia)) as E. change (Z.ones 4) with 0xf in E.
    rewrite E. pose proof (Z.mod_pos_bound (load8 0 buf) (2 ^ 4)). lia. }
  assert (length orig <= 92)%nat as Ho by (unfold orig; rewrite length_take; lia).
  pose proof (length_subspan 16 4 buf ltac:(lia)) as L1. pose proof (length_subspan 12 4 buf ltac:(lia)) as L2.
  assert (length body = 28 + length orig)%nat as Hlen.
  { unfold body, icmp4_body. fold orig. rewrite !length_app, L1, L2, !length_be_bytes. done. }
  assert (is_bytes body) as Hbb by (unfold body, icmp4_body; bytes_tac).
  assert (subspan 12 4 body = subspan 16 4 buf /\ subspan 16 4 body = subspan 12 4 buf /\ subspan 10 2 body = [0; 0] /\
    subspan 22 2 body = [0; 0] /\ load8 0 body = 0x45 /\ drop 28 body = orig) as (P1 & P2 & P3 & P4 & P5 & P6).
  { unfold body, icmp4_body. fold orig. destruct (subspan 16 4 buf) as [|? [|? [|? [|? [|]]]]]; try done.
    by destruct (subspan 12 4 buf) as [|? [|? [|? [|? [|]]]]]. }
  unfold pkt, make_icmp4_unreachable, IPV4_HEADER. cbv zeta. fold body. set (c1 := ip_checksum (take 20 body)). set (b1 := store 2 10 c1 body).
  set (c2 := ip_checksum (drop 20 b1)).
  assert (length b1 = length body) as El1 by (unfold b1, store; buf_len).
  assert (drop 20 b1 = drop 20 body) as Ed by (unfold b1, store; by rewrite drop_write_at_before by buf_len).
  assert (forall o n, (o + n <= 20)%nat -> subspan o n (take 20 body) = subspan o n body) as Hsub.
  { intros o n Hon. unfold subspan. rewrite skipn_firstn_comm, take_take. f_equal. lia. }
  assert (length (store 2 22 c2 b1) = length body) as El2 by (unfold store; buf_len).
  assert (is_ipv4 (store 2 22 c2 b1) = true) as Hv2.
  { unfold is_ipv4, ip_version, IPV4_HEADER. rewrite El2, bool_decide_true by lia.
    assert (load8 0 (store 2 22 c2 b1) = 0x45) as -> by (unfold store, b1, store; past_writes; done). done. }
  assert (is_bytes (store 2 22 c2 b1)) as Hb2.
  { unfold b1, store. auto using is_bytes_write_at with router. }
  unfold source_ipv4, dest_ipv4. rewrite Hv2, Hv, !host_to_big_load by (done || lia).
  unfold store at 1 2, b1, store. past_writes. rewrite P1, P2. split; [done|]. split; [done|]. split_and!.
  - rewrite take_write_at_after, take_write_at by buf_len. 
    apply ip_checksum_ok; [by apply Forall_take | by exists 5%nat | buf_len | by rewrite Hsub by lia | buf_len].
  - rewrite drop_write_at by buf_len. replace (22 - 20)%nat with 2%nat by lia. fold (store 2 10 c1 body). fold b1.
    unfold c2. rewrite Ed. 
    apply ip_checksum_ok; [by apply Forall_drop | by exists 1%nat | buf_len | | buf_len].
    rewrite <- P4. unfold subspan. by rewrite drop_drop.
  - by rewrite !drop_write_at_before by buf_len.
Qed.

Lemma icmp6_ok : is_ipv6 buf = true ->
  let pkt := make_icmp6_unreachable buf in
  source_ipv6 pkt = dest_ipv6 buf /\ dest_ipv6 pkt = source_ipv6 buf /\
  checksum_ok (covered6 40 PROTO_ICMP6 pkt) /\
  drop 48 pkt = take (72 `min` length buf - (72 `min` length buf) mod 4) buf.
Proof.
  intros Hv pkt. assert (40 <= length buf)%nat as Hl.
  { unfold is_ipv6 in Hv. apply andb_true_iff in Hv as [H _]. by apply bool_decide_eq_true in H. }
  set (m := (72 `min` length buf)%nat). set (orig := take (m - m mod 4) buf).
  set (body := icmp6_body buf). set (n := wrap 16 (Z.of_nat (4 + 4 + length orig))).
  assert (body = [0x60; 0; 0; 0] ++ be_bytes 2 n ++ [58; load8 7 buf] ++ subspan 24 16 buf ++ subspan 8 16 buf
    ++ [1; 3; 0; 0; 0; 0; 0; 0] ++ orig) as Eb.
  { assert (take (length (take 72 buf) - length (take 72 buf) mod 4) (take 72 buf) = orig) as E.
    { rewrite length_take, take_take. fold m. unfold orig. f_equal. lia. }
    unfold body, icmp6_body, n, IPV6_HEADER. change (40 + 32)%nat with 72%nat. cbv zeta. by rewrite E. }
  assert (length orig <= 72)%nat as Ho by (unfold orig; rewrite length_take; lia).
  pose proof (length_subspan 24 16 buf ltac:(lia)) as L1. pose proof (length_subspan 8 16 buf ltac:(lia)) as L2.
  assert (length body = 48 + length orig)%nat as Hlen by (rewrite Eb, !length_app, L1, L2, !length_be_bytes; done).
  assert (is_bytes body) as Hbb by (rewrite Eb; unfold orig; bytes_tac).
  assert (subspan 8 16 body = subspan 24 16 buf /\ subspan 24 16 body = subspan 8 16 buf /\ subspan 42 2 body = [0; 0] /\
    subspan 4 2 body = be_bytes 2 n /\ load8 0 body = 0x60 /\ load8 6 body = 58 /\ drop 48 body = orig)
    as (P1 & P2 & P3 & P4 & P5 & P6 & P7).
  { rewrite Eb. clear Eb. destruct (subspan 24 16 buf) as [|? l1]; [done|]. do 15 (destruct l1 as [|? l1]; [done|]).
    destruct l1; [|done]. destruct (subspan 8 16 buf) as [|? l1]; [done|]. do 15 (destruct l1 as [|? l1]; [done|]). by destruct l1. }
  unfold pkt, make_icmp6_unreachable, IPV6_HEADER. cbv zeta. fold body. set (c := ipv6_proto_checksum _ _).
  assert (length (store 2 42 c body) = length body) as El2 by (unfold store; buf_len).
  assert (is_ipv6 (store 2 42 c body) = true) as Hv2.
  { unfold is_ipv6, ip_version, IPV6_HEADER. rewrite El2, bool_decide_true by lia.
    assert (load8 0 (store 2 42 c body) = 0x60) as -> by (unfold store; past_writes; done). done. }
  unfold source_ipv6, dest_ipv6. rewrite Hv2, Hv. unfold store at 1 2. past_writes. rewrite P1, P2.
  split; [done|]. split; [done|]. split; [|unfold store; by rewrite drop_write_at_before by buf_len].
  change PROTO_ICMP6 with 58. rewrite <- P6. 
  apply (ipv6_proto_checksum_ok 2); [done | by exists 1%nat | buf_len | buf_len | done | | by rewrite P6 | | done].
  - rewrite P4. f_equal. unfold n, wrap. rewrite Z.mod_small by (simpl; lia). lia.
  - destruct (ipv6_proto_checksum_spec (take 40 body) (drop 40 body)) as [Bc _];
      [split; [buf_len | by apply Forall_take] | by apply Forall_drop | buf_len | done].
Qed.
End Icmp.

(** The answer to a packet that cannot be delivered goes back to its sender, quotes
    its beginning (the IPv4 header and 32 bytes, at most 72 bytes of an IPv6 packet)
    and has right checksums; data that is not an IP packet is not answered. *)
Theorem make_icmp_unreachable_spec buf : is_bytes buf ->
  match make_icmp_unreachable buf with
  | Some pkt =>
    is_ipv4 buf = true /\ source_ipv4 pkt = dest_ipv4 buf /\ dest_ipv4 pkt = source_ipv4 buf /\
      checksum_ok (take 20 pkt) /\ checksum_ok (drop 20 pkt) /\
      drop 28 pkt = take (Z.to_nat (header_len buf) * 4 + 32) buf
    \/ is_ipv6 buf = true /\ source_ipv6 pkt = dest_ipv6 buf /\ dest_ipv6 pkt = source_ipv6 buf /\
      checksum_ok (covered6 40 PROTO_ICMP6 pkt) /\
      drop 48 pkt = take (72 `min` length buf - (72 `min` length buf) mod 4) buf
  | None => is_ipv4 buf = false /\ is_ipv6 buf = false
  end.
Proof.
  intros Hb. unfold make_icmp_unreachable. destruct (is_ipv4 buf) eqn:E4.
  - left. split; [done|]. by apply icmp4_ok.
  - destruct (is_ipv6 buf) eqn:E6; [|done]. right. split; [done|]. by apply icmp6_ok.
Qed.

(** ** Example packets *)
Module IpDemo.
Definition udp4 : bytes :=
  [69; 0; 0; 32; 0; 1; 0; 0; 64; 17; 102; 202; 10; 0; 0; 1; 10; 0; 0; 2; 4; 0; 0; 53; 0; 12; 227; 152; 1; 2; 3; 4].
Definition addr (x : Z) : ipv6 := mkIPv6 0xfd00000000000000 x.
Definition udp6 : bytes := make_udp_packet (addr 1) 1024 (addr 2) 53 [1; 2; 3].

Lemma addr_ok x : 0 <= x < 1000 -> is_ipv6_addr (addr x).
Proof. unfold is_ipv6_addr, addr. cbn [hi lo]. lia. Qed.

Lemma udp4_packet : ipv4_packet udp4.
Proof.
  split; [apply (bool_decide_unpack _); vm_compute; exact I | done | apply (bool_decide_unpack _); vm_compute; exact I | done].
Qed.
End IpDemo.


Lemma make_udp_packet_witness : udp_data IpDemo.udp6 = [1; 2; 3] /\ checksum_ok (covered6 40 PROTO_UDP IpDemo.udp6).
Proof.
  destruct (make_udp_packet_spec (IpDemo.addr 1) 1024 (IpDemo.addr 2) 53 [1; 2; 3]) as (_ & _ & _ & _ & E & _ & _ & Hc & _).
  - apply (bool_decide_unpack _). vm_compute. exact I.
  - simpl. lia.
  - apply IpDemo.addr_ok. lia.
  - apply IpDemo.addr_ok. lia.
  - lia.
  - lia.
  - split; [exact E | exact Hc].
Defined.

Lemma update_ipv6_address_witness :
  exists buf', update_ipv6_address (IpDemo.addr 7) (IpDemo.addr 9) None IpDemo.udp6 = Value buf' /\
    source_ipv6 buf' = Some (IpDemo.addr 7) /\ checksum_ok (covered6 40 PROTO_UDP buf').
Proof.
  destruct (update_ipv6_address_spec (IpDemo.addr 7) (IpDemo.addr 9) None IpDemo.udp6 PROTO_UDP 6 40)
    as (buf' & E & _ & Es & _ & Hc).
  - apply (bool_decide_unpack _). vm_compute. exact I.
  - vm_compute. reflexivity.
  - vm_compute. lia.
  - vm_compute. reflexivity.
  - apply IpDemo.addr_ok. lia.
  - apply IpDemo.addr_ok. lia.
  - discriminate.
  - vm_compute. reflexivity.
  - reflexivity.
  - vm_compute. lia.
  - exists buf'. split; [exact E|]. split; [exact Es|]. apply Hc. vm_compute. reflexivity.
Defined.

Lemma make_icmp_unreachable_witness :
  match make_icmp_unreachable IpDemo.udp4 with Some pkt => checksum_ok (take 20 pkt) | None => False end.
Proof.
  pose proof (make_icmp_unreachable_spec IpDemo.udp4) as Hs.
  destruct Hs as [Hs|Hs]; [apply (bool_decide_unpack _); vm_compute; exact I | |].
  - apply Hs.
  - destruct Hs as [Hs _]. vm_compute in Hs. discriminate.
Defined.

(** The checksum of a UDP packet over IPv6 can become the forbidden zero when its
    addresses change: a packet made for the new addresses has 0xffff there. *)
Lemma udp6_checksum_zeroed :
  let pkt := make_udp_packet (mkIPv6 0 64425) 1024 (mkIPv6 0 0) 53 [] in
  load16 46 pkt = 0xffff /\
  update_ipv6_address (mkIPv6 0 64425) (mkIPv6 0 0) None (make_udp_packet (mkIPv6 0 1) 1024 (mkIPv6 0 2) 53 [])
  = Value (store 2 46 0 pkt).
Proof. vm_compute. done. Qed.
