(* ===== verification/ClientContact.v ===== *)
(** * Client contacts (contact/client_contact.{hpp,cpp}, contact/client_intro.cpp, contact/contactdb.cpp)

    What a client publishes so that others can reach it: the relays its paths end
    at, with the services and the exit policy it offers (net/policy.cpp,
    dns/srv_data.cpp, the range encodings of address/ip_range.cpp), encrypted and
    signed with a blinded key (crypto/keys.cpp); and the store of such records on
    relays.  Times are milliseconds, expiries of intros seconds. *)

From Stdlib Require Import ZArith Lia Sorted.
From stdpp Require Import base list numbers strings gmap sorting.
From S2P Require Import Prelude Oxenc Str Crypto Path IpPacket.

Local Open Scope Z_scope.
Local Open Scope router_scope.

Definition CC_ERROR : string := "bt_deserialize_invalid".

(** ** IP ranges *)
Record ipv4_range := mkRange4 { r4_ip : Z; r4_mask : Z }.
Record ipv6_range := mkRange6 { r6_ip : ipv6; r6_mask : Z }.

Section Ranges.
Context `{Oxenc}.

(** [encode(r)], [decode_ipv4_range], [decode_ipv6_range], [decode_ip_range] *)
Definition encode_range4 (r : ipv4_range) : bytes := write_host_as_big 4 (r4_ip r) ++ [r4_mask r].
Definition encode_range6 (r : ipv6_range) : bytes :=
  write_host_as_big 8 (hi (r6_ip r))
  ++ (if lo (r6_ip r) =? 0 then [] else write_host_as_big 8 (lo (r6_ip r))) ++ [r6_mask r].

Definition decode_range4 (e : bytes) : outcome string ipv4_range :=
  throw_if negb (bool_decide (length e = 5%nat)) with "Invalid ipv4 range encoding"%string in
  let mask := load8 4 e in
  throw_if 32 <? mask with "Invalid ipv4 range encoded netmask"%string in
  Ok (mkRange4 (load_big_to_host 4 e) mask).
Definition decode_range6 (e : bytes) : outcome string ipv6_range :=
  throw_if negb (bool_decide (length e = 9%nat)) && negb (bool_decide (length e = 17%nat))
    with "Invalid ipv6 range encoding"%string in
  let mask := List.last e 0 in
  throw_if 128 <? mask with "Invalid ipv6 range encoded netmask"%string in
  Ok (mkRange6 (mkIPv6 (load_big_to_host 8 e) (if decide (length e = 17%nat) then load_big_to_host 8 (drop 8 e) else 0)) mask).
Definition decode_ip_range (e : bytes) : outcome string (ipv4_range + ipv6_range) :=
  if decide (length e = 5%nat) then let! r := decode_range4 e in Ok (inl r)
  else if decide (length e = 9%nat \/ length e = 17%nat) then let! r := decode_range6 e in Ok (inr r)
  else Throw "Invalid encoded ip range"%string.
End Ranges.

(** ** Exit policies *)
Record ProtocolInfo := mkProto { pi_protocol : Z; pi_port : option Z }.
#[export] Instance ProtocolInfo_eq_dec : EqDecision ProtocolInfo.
Proof. solve_decision. Defined.

(** [operator<=>]: the members in order, an absent port first. *)
Definition proto_ltb (a b : ProtocolInfo) : bool :=
  (pi_protocol a <? pi_protocol b)
  || ((pi_protocol a =? pi_protocol b) &&
      match pi_port a, pi_port b with
      | None, Some _ => true
      | Some x, Some y => x <? y
      | _, None => false
      end).

(** [std::set::emplace]: the set is the list of its elements in order. *)
Fixpoint proto_insert (p : ProtocolInfo) (l : list ProtocolInfo) : list ProtocolInfo :=
  match l with
  | [] => [p]
  | q :: l' => if proto_ltb p q then p :: l else if proto_ltb q p then q :: proto_insert p l' else l
  end.

Record ExitPolicy := mkPolicy {
  ep_ranges : list ipv4_range;
  ep_ranges_v6 : list ipv6_range;
  ep_protocols : list ProtocolInfo;
}.
Definition empty_policy : ExitPolicy := mkPolicy [] [] [].

Section Policy.
Context `{Oxenc}.

(** [ProtocolInfo::bt_encode], [ProtocolInfo(bt_list_consumer)] *)
Definition proto_encode (p : ProtocolInfo) : btval :=
  BList (BInt (pi_protocol p) :: match pi_port p with Some port => [BInt port] | None => [] end).
Definition proto_decode (v : btval) : outcome string ProtocolInfo :=
  match v with
  | BList (BInt z :: rest) =>
    throw_if negb (fits_unsigned 8 z) with CC_ERROR in
    match rest with
    | [] => Ok (mkProto z None)
    | BInt port :: _ => throw_if negb (fits_unsigned 16 port) with CC_ERROR in Ok (mkProto z (Some port))
    | _ => Throw CC_ERROR
    end
  | _ => Throw CC_ERROR
  end.

Fixpoint decode_protos (l : list btval) (protocols : list ProtocolInfo) : outcome string (list ProtocolInfo) :=
  match l with
  | [] => Ok protocols
  | v :: l => let! p := proto_decode v in decode_protos l (proto_insert p protocols)
  end.

Fixpoint decode_ranges (l : list btval) (ranges : list ipv4_range) (ranges_v6 : list ipv6_range)
    : outcome string (list ipv4_range * list ipv6_range) :=
  match l with
  | [] => Ok (ranges, ranges_v6)
  | BStr e :: l =>
    let! r := decode_ip_range e in
    match r with
    | inl r4 => decode_ranges l (ranges ++ [r4]) ranges_v6
    | inr r6 => decode_ranges l ranges (ranges_v6 ++ [r6])
    end
  | _ => Throw CC_ERROR
  end.

(** [ExitPolicy::bt_decode(btdc)], [ExitPolicy::bt_encode(btdp)] *)
Definition policy_decode (c : bt_consumer) : outcome string ExitPolicy :=
  let! (ps, c) := or_throw CC_ERROR (bt_maybe_list (str "p") c) in
  let! protocols := match ps with Some l => decode_protos l [] | None => Ok [] end in
  let! (rs, c) := or_throw CC_ERROR (bt_maybe_list (str "r") c) in
  let! (ranges, ranges_v6) := match rs with Some l => decode_ranges l [] [] | None => Ok ([], []) end in
  Ok (mkPolicy ranges ranges_v6 protocols).

Definition policy_fields (p : ExitPolicy) : list (bytes * btval) :=
  (if bool_decide (ep_protocols p = []) then [] else [(str "p", BList (proto_encode <$> ep_protocols p))])
  ++ (if bool_decide (ep_ranges p = []) && bool_decide (ep_ranges_v6 p = []) then []
      else [(str "r", BList ((BStr ∘ encode_range4 <$> ep_ranges p) ++ (BStr ∘ encode_range6 <$> ep_ranges_v6 p)))]).

(** [ProtocolInfo::from_config(config_input)]; [getprotobyname] is the system's. *)
Definition from_config (getprotobyname : bytes -> option Z) (config_input : bytes) : outcome string ProtocolInfo :=
  let parts := split config_input (str "/") false in
  throw_if (2 <? Z.of_nat (length parts)) with "Unparseable IP protocol/port value"%string in
  let name := default [] (head parts) in
  let! protocol :=
    match getprotobyname name with
    | Some p_proto => Ok (p_proto mod 256)
    | None =>
      match (if starts_with name (str "0x") then parse_hex_str 8 name else None) with
      | Some p => if 0 <? p then Ok p else Throw "No such IP protocol"%string
      | None => Throw "No such IP protocol"%string
      end
    end in
  match tail parts with
  | port :: _ =>
    let! p := or_throw "Invalid protocol port"%string (parse_uint_str 16 port) in
    Ok (mkProto protocol (Some p))
  | [] => Ok (mkProto protocol None)
  end.

(** [ExitPolicy::allow_ip_traffic(pkt)]; [contains4] and [contains6] are the ranges'. *)
Definition allow_ip_traffic (contains4 : ipv4_range -> Z -> bool) (contains6 : ipv6_range -> ipv6 -> bool)
    (p : ExitPolicy) (pkt : bytes) : bool :=
  let accept_range :=
    match dest_ipv4 pkt with
    | Some dest => existsb (fun r => contains4 r dest) (ep_ranges p)
    | None =>
      match dest_ipv6 pkt with
      | Some dest => existsb (fun r => contains6 r dest) (ep_ranges_v6 p)
      | None => false
      end
    end in
  accept_range && (bool_decide (ep_protocols p = [])
                   || existsb (fun q => protocol pkt =? pi_protocol q) (ep_protocols p)).
End Policy.

(** ** SRV records *)
Record SRVData := mkSRV {
  srv_service : bytes;
  srv_proto : bytes;
  srv_priority : Z;
  srv_weight : Z;
  srv_port : Z;
  srv_target : bytes;
}.
Definition TARGET_MAX_SIZE : nat := 200.

(** [is_valid()] *)
Definition check_piece (p : bytes) : bool :=
  if bool_decide (length p < 2)%nat || negb (starts_with p (str "_")) then false
  else forallb (fun c => is_lower c || is_digit c || (c =? 45)) (drop 1 p).
Definition srv_is_valid (s : SRVData) : bool :=
  if negb (check_piece (srv_service s)) || negb (check_piece (srv_proto s)) then false
  else if bool_decide (TARGET_MAX_SIZE < length (srv_target s))%nat then false
  else if ends_with (srv_target s) (str ".sesh") || ends_with (srv_target s) (str ".loki") then true
  else bool_decide (srv_target s = str ".") || bool_decide (srv_target s = []).

(** [SRVData(service, proto, priority, weight, port, target)], [SRVData(srv_proto, ...)] *)
Definition SRVData_new (service proto : bytes) (priority weight port : Z) (target : bytes) : outcome string SRVData :=
  let s := mkSRV service proto priority weight port target in
  throw_if negb (srv_is_valid s) with "Invalid SRVData!"%string in Ok s.
Definition SRVData_of_pair (srv_proto : bytes) (priority weight port : Z) (target : bytes) : outcome string SRVData :=
  match split srv_proto (str ".") false with
  | [service; proto] => SRVData_new service proto priority weight port target
  | _ => Throw "{} is not a valid _service._proto value"%string
  end.

(** [from_srv_string(buf)]: exactly five parts. *)
Definition from_srv_string (buf : bytes) : option SRVData :=
  match split buf (str " ") false with
  | [sp; priority; weight; port; target] =>
    match split sp (str ".") false with
    | [service; proto] =>
      match parse_uint_str 16 priority, parse_uint_str 16 weight, parse_uint_str 16 port with
      | Some u, Some w, Some p =>
        let s := mkSRV service proto u w p target in if srv_is_valid s then Some s else None
      | _, _, _ => None
      end
    | _ => None
    end
  | _ => None
  end.

Section Srv.
Context `{Oxenc}.

(** [bt_encode(btdp)] *)
Definition srv_fields (s : SRVData) : list (bytes * btval) :=
  [(str "p", BInt (srv_port s)); (str "s", BStr (srv_service s ++ str "." ++ srv_proto s));
   (str "t", BStr (srv_target s)); (str "u", BInt (srv_priority s)); (str "w", BInt (srv_weight s))].

(** [bt_decode(btdc)] on an object whose members were [s]: the members as far as they
    were read, and the result. *)
Definition srv_decode (s : SRVData) (c : bt_consumer) : SRVData * outcome string bool :=
  match bt_require_num (fits_unsigned 16) (str "p") c with
  | None => (s, Throw CC_ERROR)
  | Some (port, c) =>
    let s := mkSRV (srv_service s) (srv_proto s) (srv_priority s) (srv_weight s) port (srv_target s) in
    match bt_require_string (str "s") c with
    | None => (s, Throw CC_ERROR)
    | Some (sp, c) =>
      match split sp (str ".") false with
      | [service; proto] =>
        let s := mkSRV service proto (srv_priority s) (srv_weight s) port (srv_target s) in
        match bt_require_string (str "t") c with
        | None => (s, Throw CC_ERROR)
        | Some (target, c) =>
          let s := mkSRV service proto (srv_priority s) (srv_weight s) port target in
          match bt_require_num (fits_unsigned 16) (str "u") c with
          | None => (s, Throw CC_ERROR)
          | Some (priority, c) =>
            let s := mkSRV service proto priority (srv_weight s) port target in
            match bt_require_num (fits_unsigned 16) (str "w") c with
            | None => (s, Throw CC_ERROR)
            | Some (weight, c) =>
              let s := mkSRV service proto priority weight port target in (s, Ok (srv_is_valid s))
            end
          end
        end
      | _ => (s, Throw "Invalid _service._proto value"%string)
      end
    end
  end.

(** [SRVData(btdc)]: an exception is caught and the object kept as it is, as is one
    that is not valid.  [junk] is what the members held before. *)
Definition SRVData_of_dict (junk : SRVData) (c : bt_consumer) : SRVData := (srv_decode junk c).1.
End Srv.

(** ** Intros *)
Record ClientIntro := mkIntro { ci_relay : bytes; ci_hop : bytes; ci_expiry : Z }.
#[export] Instance ClientIntro_eq_dec : EqDecision ClientIntro.
Proof. solve_decision. Defined.

(** [expires_in(now)], [is_expired(now)] *)
Definition intro_expires_in (now : Z) (i : ClientIntro) : Z := ci_expiry i * 1000 - now.
Definition intro_is_expired (now : Z) (i : ClientIntro) : bool := intro_expires_in now i <=? 0.

Section Contact.
Context `{Oxenc}.

(** [ClientIntro::bt_encode], [ClientIntro(btdc)] *)
Definition intro_fields (i : ClientIntro) : list (bytes * btval) :=
  [(str "e", BInt (ci_expiry i)); (str "h", BStr (ci_hop i)); (str "r", BStr (ci_relay i))].
Definition intro_decode (v : btval) : outcome string ClientIntro :=
  match v with
  | BDict kvs =>
    let c := bt_reading [] kvs in
    let! (e, c) := or_throw CC_ERROR (bt_require_num (fits_signed 64) (str "e") c) in
    let! (h, c) := or_throw CC_ERROR (bt_require_span HOPID_SIZE (str "h") c) in
    let! (r, _) := or_throw CC_ERROR (bt_require_span 32 (str "r") c) in
    Ok (mkIntro r h e)
  | _ => Throw CC_ERROR
  end.

Fixpoint intros_decode (l : list btval) : outcome string (list ClientIntro) :=
  match l with
  | [] => Ok []
  | v :: l => let! i := intro_decode v in let! intros := intros_decode l in Ok (i :: intros)
  end.

Fixpoint srvs_decode (junk : nat -> SRVData) (l : list btval) : outcome string (list SRVData) :=
  match l with
  | [] => Ok []
  | BDict kvs :: l =>
    let s := SRVData_of_dict (junk (length l)) (bt_reading [] kvs) in
    let! ss := srvs_decode junk l in Ok (s :: ss)
  | _ => Throw CC_ERROR
  end.

(** ** Contacts *)
Record ClientContact := mkCC {
  cc_pubkey : bytes;
  cc_intros : list ClientIntro;
  cc_srv : list SRVData;
  cc_protos : Z;
  cc_signed_at : Z;
  cc_exit_policy : option ExitPolicy;
}.
Definition CC_VERSION : Z := 0.

(** [std::ranges::is_sorted(intros, greater, expiry)] *)
Fixpoint intros_sorted (l : list ClientIntro) : bool :=
  match l with
  | a :: (b :: _) as l' => (ci_expiry b <=? ci_expiry a) && intros_sorted l'
  | _ => true
  end.

(** [ClientContact(buf, signed_at)] *)
Definition cc_parse (junk : nat -> SRVData) (buf : bytes) (signed_at : Z) : outcome string ClientContact :=
  let! c := or_throw CC_ERROR (bt_dict_open buf) in
  let! (version, c) := or_throw CC_ERROR (bt_require_num (fits_unsigned 8) [] c) in
  throw_if negb (version =? CC_VERSION) with "Deserialized ClientContact with unsupported version"%string in
  let! (pk, c) := or_throw CC_ERROR (bt_require_span 32 (str "a") c) in
  let! (has_e, c) := or_throw CC_ERROR (bt_skip_until (str "e") c) in
  let! (policy, c) :=
    if has_e : bool then
      let! (_, kvs, c) := or_throw CC_ERROR (bt_next_dict c) in
      let! p := policy_decode (bt_reading [] kvs) in Ok (Some p, c)
    else Ok (None, c) in
  let! (l, c) := or_throw CC_ERROR (bt_require_list (str "i") c) in
  let! intros := intros_decode l in
  throw_if negb (intros_sorted intros) with "Invalid ClientContact: intros expiries are non-descending"%string in
  let! (protos, c) := or_throw CC_ERROR (bt_require_num (fits_unsigned 8) (str "p") c) in
  let! (s, c) := or_throw CC_ERROR (bt_maybe_list (str "s") c) in
  let! srvs := match s with Some l => srvs_decode junk l | None => Ok [] end in
  throw_if negb (bt_finish c) with CC_ERROR in
  Ok (mkCC pk intros srvs protos signed_at policy).

(** [bt_encode()] *)
Definition cc_fields (cc : ClientContact) : list (bytes * btval) :=
  [([], BInt CC_VERSION); (str "a", BStr (cc_pubkey cc))]
  ++ (match cc_exit_policy cc with Some p => [(str "e", BDict (policy_fields p))] | None => [] end)
  ++ [(str "i", BList (BDict ∘ intro_fields <$> cc_intros cc)); (str "p", BInt (cc_protos cc))]
  ++ (if bool_decide (cc_srv cc = []) then [] else [(str "s", BList (BDict ∘ srv_fields <$> cc_srv cc))]).
Definition cc_encode (cc : ClientContact) : bytes := bt_dict_produce (cc_fields cc).

(** [std::ranges::stable_sort(intros, greater, expiry)] by insertion *)
Fixpoint insert_intro (i : ClientIntro) (l : list ClientIntro) : list ClientIntro :=
  match l with
  | [] => [i]
  | j :: l' => if ci_expiry i <? ci_expiry j then j :: insert_intro i l' else i :: l
  end.
Definition sort_intros (l : list ClientIntro) : list ClientIntro := foldr insert_intro [] l.

(** [update_intros(iset)] *)
Definition cc_update_intros (iset : list ClientIntro) (cc : ClientContact) : outcome string ClientContact :=
  throw_if bool_decide (iset = []) with "Cannot update ClientContact with no ClientIntros!"%string in
  Ok (mkCC (cc_pubkey cc) (sort_intros iset) (cc_srv cc) (cc_protos cc) (cc_signed_at cc) (cc_exit_policy cc)).

(** [expiry()], [is_expired(now)] *)
Definition cc_expiry (cc : ClientContact) : Z := match cc_intros cc with i :: _ => ci_expiry i | [] => 0 end.
Definition cc_is_expired (now : Z) (cc : ClientContact) : bool :=
  match cc_intros cc with i :: _ => intro_is_expired now i | [] => true end.
End Contact.

(** ** Blinded keys *)

(** libsodium's SHA-512 and Ed25519 scalar arithmetic; [base_noclamp] is
    [crypto_scalarmult_ed25519_base_noclamp], which fails on zero. *)
Class EdScalar := {
  sha512 : bytes -> bytes;
  scalar_mul : bytes -> bytes -> bytes;
  scalar_add : bytes -> bytes -> bytes;
  base_noclamp : bytes -> option bytes;
}.

Class EdScalarLaws `{Sodium} `{EdScalar} : Prop := {
  base_noclamp_buf a A : base_noclamp a = Some A -> is_buf 32 A;
  scalar_add_buf a b : is_buf 32 (scalar_add a b);
  scalar_reduce_buf x : is_buf 64 x -> is_buf 32 (ed25519_scalar_reduce x);
  (** f (a G) = (a f) G *)
  blind_commutes sk f : ed25519_keypair sk -> is_buf 32 f ->
    scalarmult_ed25519_noclamp f (ed25519_pubkey sk) = base_noclamp (scalar_mul (ed25519_sk_to_curve25519 sk) f);
  (** An Ed25519 signature (RFC 8032): R = r G and S = r + H(R, A, M) a verify with A = a G. *)
  ed25519_equation a x m A R :
    base_noclamp a = Some A -> base_noclamp (ed25519_scalar_reduce (sha512 x)) = Some R ->
    sign_verify_detached
      (R ++ scalar_add (scalar_mul (ed25519_scalar_reduce (sha512 (R ++ A ++ m))) a) (ed25519_scalar_reduce (sha512 x)))
      m A = true;
}.

Record Ed25519BlindedKey := mkBlinded { bk_scalar : bytes; bk_hash_data : bytes; bk_pubkey : bytes }.

(** [ContactDB::_storage]: a record and its signing time by blinded key *)
Abbreviation Storage := (gmap bytes (bytes * Z)).

Section Blinded.
Context `{Sodium} `{EdScalar} `{Oxenc}.

Definition CLIENT_CONTACT_DOMAIN : bytes := str "SessionRouterClientContact".

(** [Ed25519BlindedKey(root, blind_domain)] *)
Definition Ed25519BlindedKey_of (root blind_domain : bytes) : outcome string Ed25519BlindedKey :=
  let scalar := ed25519_sk_to_curve25519 root in
  let bfactor := blinding_scalar (ed25519_pubkey root) blind_domain in
  let scalar := scalar_mul scalar bfactor in
  let! pubkey := or_throw "Keypair blinding failed!"%string (base_noclamp scalar) in
  Ok (mkBlinded scalar (blake2b 32 (take 32 root) blind_domain []) pubkey).

(** [Ed25519BlindedKey::sign(buf)]; the result of [crypto_scalarmult_ed25519_base_noclamp]
    is not looked at: it leaves zeros when it fails. *)
Definition blinded_sign (b : Ed25519BlindedKey) (buf : bytes) : bytes :=
  let nonce := ed25519_scalar_reduce (sha512 (bk_hash_data b ++ buf)) in
  let R := default (zero_buf 32) (base_noclamp nonce) in
  let hram := ed25519_scalar_reduce (sha512 (R ++ bk_pubkey b ++ buf)) in
  R ++ scalar_add (scalar_mul hram (bk_scalar b)) nonce.

(** ** Encrypted contacts *)

(** [encrypt_and_sign(blinded)]: the record and the contact with its signing time. *)
Definition enccc_fields (b : Ed25519BlindedKey) (nonce : bytes) (now : Z) (encrypted : bytes) : list (bytes * btval) :=
  [(str "i", BStr (bk_pubkey b)); (str "n", BStr nonce); (str "t", BInt now); (str "x", BStr encrypted)].
Definition encrypt_and_sign (b : Ed25519BlindedKey) (nonce : bytes) (now : Z) (cc : ClientContact)
    : bytes * ClientContact :=
  let encrypted := xchacha20 (cc_encode cc) (cc_pubkey cc) nonce in
  let kvs := enccc_fields b nonce now encrypted in
  (bt_dict_produce (kvs ++ [(str "~", BStr (blinded_sign b (bt_signed_data kvs)))]),
   mkCC (cc_pubkey cc) (cc_intros cc) (cc_srv cc) (cc_protos cc) now (cc_exit_policy cc)).

(** The callback given to [require_signature] *)
Definition verify_blinded (blinded : bytes) (c : bt_consumer) : outcome string bt_consumer :=
  let! (m, s, c) := or_throw CC_ERROR (bt_require_signature (str "~") c) in
  throw_if negb (bool_decide (length s = 64%nat)) with "Invalid signature: not 64 bytes"%string in
  throw_if negb (sign_verify_detached s m blinded)
    with "Encrypted client contact signature verification failed"%string in
  Ok c.

(** [decrypt(enccc, root)] *)
Definition cc_decrypt (junk : nat -> SRVData) (enccc root : bytes) : outcome string ClientContact :=
  let! c := or_throw CC_ERROR (bt_dict_open enccc) in
  let! (blinded, c) := or_throw CC_ERROR (bt_require_span 32 (str "i") c) in
  let! (nonce, c) := or_throw CC_ERROR (bt_require_span SYMM_NONCE_SIZE (str "n") c) in
  let! (signed_at, c) := or_throw CC_ERROR (bt_require_num (fits_signed 64) (str "t") c) in
  let! (enc, c) := or_throw CC_ERROR (bt_require_string (str "x") c) in
  let! _ := verify_blinded blinded c in
  cc_parse junk (xchacha20 enc root nonce) signed_at.

(** ** The store on relays *)

(** [get_encrypted_cc(blinded_key, now)], [num_ccs()] *)
Definition get_encrypted_cc (db : Storage) (blinded_key : bytes) (now : Z) : option bytes :=
  match db !! blinded_key with
  | None => None
  | Some (record, signed_at) => if signed_at + MAX_LIFETIME_ACCEPTED <=? now then None else Some record
  end.
Definition num_ccs (db : Storage) : nat := size db.

(** [purge_ccs(now)]; [stopping]: the router is stopping or not running. *)
Definition purge_ccs (stopping : bool) (now : Z) (db : Storage) : Storage :=
  if stopping then db
  else filter (fun kv : bytes * (bytes * Z) => ~ (kv.2.2 + MAX_LIFETIME_ACCEPTED < now)) db.

(** [put_cc(enccc)] with its stub: [try_emplace] puts an empty record with time 0 in
    the table, which the handler takes out again. *)
Definition put_cc (enccc : bytes) (db : Storage) : Storage * outcome string bool :=
  let head :=
    let! c := or_throw CC_ERROR (bt_dict_open enccc) in
    let! (blinded, c) := or_throw CC_ERROR (bt_require_span 32 (str "i") c) in
    let! (_, c) := or_throw CC_ERROR (bt_require_span SYMM_NONCE_SIZE (str "n") c) in
    let! (signed_at, c) := or_throw CC_ERROR (bt_require_num (fits_signed 64) (str "t") c) in
    Ok (blinded, signed_at, c) in
  match head with
  | Throw e => (db, Throw e)
  | Ok (blinded, signed_at, c) =>
    let old := db !! blinded in
    let ins := bool_decide (old = None) in
    let db := match old with None => <[blinded := ([], 0)]> db | Some _ => db end in
    if negb ins && match old with Some (_, t) => signed_at <=? t | None => false end then (db, Ok false)
    else
      match (let! (_, c) := or_throw CC_ERROR (bt_require_string (str "x") c) in verify_blinded blinded c) with
      | Throw e => (if ins then delete blinded db else db, Throw e)
      | Ok _ => (<[blinded := (enccc, signed_at)]> db, Ok true)
      end
  end.
End Blinded.

(** ** Well-formed contacts *)
Definition wf_range4 (r : ipv4_range) : Prop := 0 <= r4_ip r < 2 ^ 32 /\ 0 <= r4_mask r <= 32.
Definition wf_range6 (r : ipv6_range) : Prop := is_ipv6_addr (r6_ip r) /\ 0 <= r6_mask r <= 128.
Definition wf_proto (p : ProtocolInfo) : Prop :=
  0 <= pi_protocol p < 2 ^ 8 /\ match pi_port p with Some x => 0 <= x < 2 ^ 16 | None => True end.
Definition wf_policy (p : ExitPolicy) : Prop :=
  Forall wf_range4 (ep_ranges p) /\ Forall wf_range6 (ep_ranges_v6 p) /\ Forall wf_proto (ep_protocols p)
  /\ StronglySorted (fun a b => proto_ltb a b = true) (ep_protocols p).
Definition wf_srv (s : SRVData) : Prop :=
  46 ∉ srv_service s /\ 46 ∉ srv_proto s /\ 0 <= srv_priority s < 2 ^ 16 /\ 0 <= srv_weight s < 2 ^ 16
  /\ 0 <= srv_port s < 2 ^ 16.
Definition wf_intro (i : ClientIntro) : Prop :=
  length (ci_relay i) = 32%nat /\ length (ci_hop i) = HOPID_SIZE /\ - 2 ^ 63 <= ci_expiry i < 2 ^ 63.
Record wf_cc (cc : ClientContact) : Prop := {
  wf_pubkey : length (cc_pubkey cc) = 32%nat;
  wf_intros : Forall wf_intro (cc_intros cc);
  wf_sorted : intros_sorted (cc_intros cc) = true;
  wf_srvs : Forall wf_srv (cc_srv cc);
  wf_protos : 0 <= cc_protos cc < 2 ^ 8;
  wf_exit : match cc_exit_policy cc with Some p => wf_policy p | None => True end;
}.

Section Codec.
Context `{OxencLaws}.

Lemma fits_unsigned_true w z : 0 <= z < 2 ^ w -> fits_unsigned w z = true.
Proof. unfold fits_unsigned. intros. apply andb_true_iff. lia. Qed.
Lemma fits_signed_true w z : - 2 ^ (w - 1) <= z < 2 ^ (w - 1) -> fits_signed w z = true.
Proof. unfold fits_signed. intros. apply andb_true_iff. lia. Qed.

Lemma bt_require_num_next fits k z d t : fits z = true ->
  bt_require_num fits k (bt_reading d ((k, BInt z) :: t)) = Some (z, bt_reading (d ++ [(k, BInt z)]) t).
Proof. intros Hf. unfold bt_require_num. by rewrite bt_require_int_next, Hf. Qed.
Lemma bt_require_list_next k l d t :
  bt_require_list k (bt_reading d ((k, BList l) :: t)) = Some (l, bt_reading (d ++ [(k, BList l)]) t).
Proof. unfold bt_require_list. by rewrite bt_require_next. Qed.
Lemma bt_maybe_list_next k l d t :
  bt_maybe_list k (bt_reading d ((k, BList l) :: t)) = Some (Some l, bt_reading (d ++ [(k, BList l)]) t).
Proof. unfold bt_maybe_list. by rewrite bt_maybe_next. Qed.
Lemma bt_maybe_list_absent k k' v d t : bytes_ltb k k' = true ->
  bt_maybe_list k (bt_reading d ((k', v) :: t)) = Some (None, bt_reading d ((k', v) :: t)).
Proof. intros Hk. unfold bt_maybe_list. by rewrite bt_maybe_absent. Qed.
Lemma bt_maybe_list_end k d : bt_maybe_list k (bt_reading d []) = Some (None, bt_reading d []).
Proof. unfold bt_maybe_list. by rewrite bt_maybe_end. Qed.

Lemma load_be w x l : 0 <= x < 256 ^ Z.of_nat w -> load_big_to_host w (write_host_as_big w x ++ l) = x.
Proof.
  intros Hx. rewrite load_big_spec, write_big_spec, take_app_length' by (by rewrite length_be_bytes).
  by rewrite be_value_be_bytes, Z.mod_small.
Qed.

Lemma decode_encode_range4 r : wf_range4 r -> decode_ip_range (encode_range4 r) = Ok (inl r).
Proof.
  intros [Hip Hm]. destruct r as [ip mask]. unfold decode_ip_range, decode_range4, encode_range4.
  cbn [r4_ip r4_mask] in *.
  assert (length (write_host_as_big 4 ip) = 4%nat) as Hl by (by rewrite write_big_spec, length_be_bytes).
  assert (load8 4 (write_host_as_big 4 ip ++ [mask]) = mask) as ->.
  { unfold load8. by rewrite lookup_app_r, Hl by lia. }
  rewrite length_app, Hl. cbn [length Nat.add]. rewrite decide_True, bool_decide_true by done. cbn [negb].
  replace (32 <? mask) with false by (symmetry; apply Z.ltb_ge; lia). cbn [outcome_bind r4_ip].
  by rewrite load_be by (simpl; lia).
Qed.

Lemma decode_encode_range6 r : wf_range6 r -> decode_ip_range (encode_range6 r) = Ok (inr r).
Proof.
  intros [[Hh Hlo] Hm]. destruct r as [[h l] mask]. cbn [r6_ip r6_mask hi lo] in *.
  unfold decode_ip_range, decode_range6, encode_range6. cbn [r6_ip r6_mask hi lo].
  assert (forall x, length (write_host_as_big 8 x) = 8%nat) as Hl by (intros; by rewrite write_big_spec, length_be_bytes).
  assert (forall (pre : bytes), List.last (pre ++ [mask]) 0 = mask) as Hlast by (intros; apply List.last_last).
  assert (128 <? mask = false) as Hmask by (apply Z.ltb_ge; lia).
  destruct (Z.eqb_spec l 0) as [->|Hl0].
  - cbn [app]. rewrite length_app, Hl. cbn [length Nat.add]. rewrite decide_False, decide_True by lia.
    rewrite bool_decide_true by done. cbn [negb andb]. rewrite Hlast, Hmask, decide_False by lia. cbn [outcome_bind].
    rewrite load_be by (simpl; lia). done.
  - rewrite !length_app, !Hl. cbn [length Nat.add]. rewrite decide_False, decide_True by lia.
    rewrite (bool_decide_false (17%nat = 9%nat)), (bool_decide_true (17%nat = 17%nat)) by done. cbn [negb andb].
    rewrite app_assoc, Hlast, Hmask. rewrite decide_True by done. cbn [outcome_bind]. rewrite <- app_assoc, load_be by (simpl; lia).
    rewrite drop_app_length' by (by rewrite Hl). rewrite load_be by (simpl; lia). done.
Qed.

Lemma proto_decode_encode p : wf_proto p -> proto_decode (proto_encode p) = Ok p.
Proof.
  intros [Hp Hport]. destruct p as [z [port|]]; cbn [pi_protocol pi_port proto_encode proto_decode] in *;
    rewrite !fits_unsigned_true by lia; done.
Qed.

Lemma proto_ltb_asym a b : proto_ltb a b = true -> proto_ltb b a = false.
Proof.
  unfold proto_ltb. intros Hab. apply orb_true_iff in Hab as [Hlt|[He Hp]%andb_true_iff].
  - apply Z.ltb_lt in Hlt. apply orb_false_iff. split; [apply Z.ltb_ge; lia|]. apply andb_false_iff. left. apply Z.eqb_neq. lia.
  - apply Z.eqb_eq in He. rewrite He, Z.ltb_irrefl, Z.eqb_refl. cbn [orb andb].
    destruct (pi_port a), (pi_port b); try done. apply Z.ltb_lt in Hp. apply Z.ltb_ge. lia.
Qed.

Lemma proto_insert_last p l : Forall (fun q => proto_ltb q p = true) l -> proto_insert p l = l ++ [p].
Proof.
  induction 1 as [|q l Hq Hl IH]; [done|]. cbn [proto_insert app]. by rewrite (proto_ltb_asym q p), Hq, IH.
Qed.

Lemma decode_protos_encode l acc : Forall wf_proto l -> StronglySorted (fun a b => proto_ltb a b = true) (acc ++ l) ->
  decode_protos (proto_encode <$> l) acc = Ok (acc ++ l).
Proof.
  revert acc. induction l as [|p l IH]; intros acc Hl Hs; [by rewrite app_nil_r|].
  apply Forall_cons in Hl as [Hp Hl]. rewrite fmap_cons. cbn [decode_protos]. rewrite proto_decode_encode by done. cbn [outcome_bind].
  rewrite proto_insert_last.
  - rewrite IH by (done || by rewrite <- app_assoc). by rewrite <- app_assoc.
  - clear -Hs. induction acc as [|q acc IH]; [done|]. cbn [app] in Hs. inversion Hs as [|? ? Hs' Hq]; subst.
    constructor; [|by apply IH]. apply Forall_app in Hq as [_ Hq]. by apply Forall_cons in Hq as [Hq _].
Qed.

Lemma decode_ranges_encode l4 l6 a4 a6 : Forall wf_range4 l4 -> Forall wf_range6 l6 ->
  decode_ranges ((BStr ∘ encode_range4 <$> l4) ++ (BStr ∘ encode_range6 <$> l6)) a4 a6 = Ok (a4 ++ l4, a6 ++ l6).
Proof.
  revert a4. induction l4 as [|r l4 IH]; intros a4 H4 H6.
  - cbn [fmap list_fmap app]. rewrite app_nil_r. revert a6. induction l6 as [|r l6 IH]; intros a6; [by rewrite app_nil_r|].
    apply Forall_cons in H6 as [Hr H6]. rewrite fmap_cons. cbn [decode_ranges compose].
    rewrite decode_encode_range6 by done. cbn [outcome_bind]. rewrite IH by done. by rewrite <- app_assoc.
  - apply Forall_cons in H4 as [Hr H4]. rewrite fmap_cons. cbn [decode_ranges compose app].
    rewrite decode_encode_range4 by done. cbn [outcome_bind]. rewrite IH by done. by rewrite <- app_assoc.
Qed.

Lemma policy_decode_encode p : wf_policy p -> policy_decode (bt_reading [] (policy_fields p)) = Ok p.
Proof.
  intros (H4 & H6 & Hp & Hs). destruct p as [r4 r6 ps]. unfold policy_decode, policy_fields. cbn [ep_ranges ep_ranges_v6 ep_protocols] in *.
  pose proof (decode_protos_encode ps [] Hp Hs) as Ep. pose proof (decode_ranges_encode r4 r6 [] [] H4 H6) as Er. cbn [app] in Ep, Er.
  destruct (bool_decide_reflect (ps = [])) as [->|Hps]; cbn [app].
  - destruct (bool_decide_reflect (r4 = [])) as [->|Hr4], (bool_decide_reflect (r6 = [])) as [->|Hr6]; cbn [andb app];
      rewrite ?(bt_maybe_list_absent (str "p") (str "r")), ?bt_maybe_list_end by done; cbn [or_throw outcome_bind];
      rewrite ?bt_maybe_list_next, ?bt_maybe_list_end; cbn [or_throw outcome_bind]; try done; by rewrite Er.
  - rewrite bt_maybe_list_next. cbn [or_throw outcome_bind]. rewrite Ep. cbn [outcome_bind].
    destruct (bool_decide_reflect (r4 = [])) as [->|Hr4], (bool_decide_reflect (r6 = [])) as [->|Hr6]; cbn [andb app];
      rewrite ?bt_maybe_list_next, ?bt_maybe_list_end; cbn [or_throw outcome_bind]; try done; by rewrite Er.
Qed.

Lemma srv_decode_encode junk s : wf_srv s -> SRVData_of_dict junk (bt_reading [] (srv_fields s)) = s.
Proof.
  intros (Hs & Hp & Hu & Hw & Hpt). destruct s as [service proto priority weight port target].
  unfold SRVData_of_dict, srv_decode, srv_fields. cbn [srv_service srv_proto srv_priority srv_weight srv_port srv_target] in *.
  rewrite bt_require_num_next, bt_require_string_next by (apply fits_unsigned_true; lia).
  change (service ++ str "." ++ proto) with (join [46] [service; proto]). change (str ".") with [46].
  rewrite split_join by (done || by repeat constructor).
  by rewrite bt_require_string_next, !bt_require_num_next by (apply fits_unsigned_true; lia).
Qed.

Lemma srvs_decode_encode junk l : Forall wf_srv l -> srvs_decode junk (BDict ∘ srv_fields <$> l) = Ok l.
Proof.
  induction 1 as [|s l Hs Hl IH]; [done|]. rewrite fmap_cons. cbn [srvs_decode compose].
  rewrite srv_decode_encode, IH by done. done.
Qed.

Lemma intro_decode_encode i : wf_intro i -> intro_decode (BDict (intro_fields i)) = Ok i.
Proof.
  intros (Hr & Hh & He). destruct i as [relay hop expiry]. unfold intro_decode, intro_fields. cbn [ci_relay ci_hop ci_expiry] in *.
  rewrite bt_require_num_next by (apply fits_signed_true; simpl; lia). cbn [or_throw outcome_bind].
  rewrite bt_require_span_next by done. cbn [or_throw outcome_bind]. by rewrite bt_require_span_next.
Qed.

Lemma intros_decode_encode l : Forall wf_intro l -> intros_decode (BDict ∘ intro_fields <$> l) = Ok l.
Proof.
  induction 1 as [|i l Hi Hl IH]; [done|]. rewrite fmap_cons. cbn [intros_decode compose].
  by rewrite intro_decode_encode, IH by done.
Qed.

(** A contact is read back from its encoding. *)
Lemma cc_parse_encode junk cc t : wf_cc cc ->
  cc_parse junk (cc_encode cc) t
  = Ok (mkCC (cc_pubkey cc) (cc_intros cc) (cc_srv cc) (cc_protos cc) t (cc_exit_policy cc)).
Proof.
  intros [Hpk Hi Hs Hsv Hp He]. destruct cc as [pk intros srv protos t0 policy].
  unfold cc_parse, cc_encode, cc_fields.
  cbn [cc_pubkey cc_intros cc_srv cc_protos cc_signed_at cc_exit_policy] in *. rewrite bt_open_produce. cbn [or_throw outcome_bind app].
  rewrite bt_require_num_next by done. cbn [or_throw outcome_bind CC_VERSION Z.eqb negb].
  rewrite bt_require_span_next by done. cbn [or_throw outcome_bind].
  destruct policy as [p|]; cbn [app];
    [rewrite bt_skip_until_here | rewrite bt_skip_until_absent by done]; cbn [or_throw outcome_bind];
    [rewrite bt_next_dict_next; cbn [or_throw outcome_bind]; rewrite policy_decode_encode by done; cbn [outcome_bind] |];
    rewrite bt_require_list_next; cbn [or_throw outcome_bind]; rewrite intros_decode_encode by done; cbn [outcome_bind];
    rewrite Hs; cbn [negb]; rewrite bt_require_num_next by (by apply fits_unsigned_true); cbn [or_throw outcome_bind];
    (destruct (bool_decide_reflect (srv = [])) as [->|Hne];
      [rewrite bt_maybe_list_end | rewrite bt_maybe_list_next]; cbn [or_throw outcome_bind];
      [|rewrite srvs_decode_encode by done; cbn [outcome_bind]]; by rewrite bt_finish_end).
Qed.

(** What [update_intros] publishes is in the order the parser wants. *)
Lemma insert_intro_sorted i l : intros_sorted l = true -> intros_sorted (insert_intro i l) = true.
Proof.
  induction l as [|j l IH]; [done|]. intros Hs. cbn [insert_intro]. destruct (Z.ltb_spec (ci_expiry i) (ci_expiry j)).
  - assert (intros_sorted l = true) as Hl by (destruct l; [done|]; by apply andb_true_iff in Hs as [_ ?]). specialize (IH Hl).
    destruct l as [|k l].
    + cbn [insert_intro intros_sorted]. rewrite andb_true_r. lia.
    + apply andb_true_iff in Hs as [Hjk _]. cbn [insert_intro] in *. destruct (ci_expiry i <? ci_expiry k) eqn:E.
      * cbn [intros_sorted]. by rewrite Hjk.
      * cbn [intros_sorted]. apply andb_true_iff. split; [lia | done].
  - cbn [intros_sorted]. apply andb_true_iff. split; [lia | done].
Qed.

Lemma sort_intros_spec l : intros_sorted (sort_intros l) = true /\ sort_intros l ≡ₚ l.
Proof.
  induction l as [|i l [IH1 IH2]]; [done|]. cbn [sort_intros foldr]. fold (sort_intros l).
  split; [by apply insert_intro_sorted|].
  etransitivity; [|apply Permutation_skip; exact IH2]. generalize (sort_intros l). clear. intros l.
  induction l as [|j l IH]; [done|]. cbn [insert_intro]. destruct (_ <? _); [|done]. rewrite IH. apply Permutation_swap.
Qed.

(** Looking at the first intro is enough to tell that all have expired. *)
Lemma cc_is_expired_spec now cc : intros_sorted (cc_intros cc) = true ->
  cc_is_expired now cc = true <-> Forall (fun i => intro_is_expired now i = true) (cc_intros cc).
Proof.
  unfold cc_is_expired. destruct (cc_intros cc) as [|i l]; [done|]. intros Hs. split.
  - intros Hi. constructor; [done|]. revert i Hs Hi. induction l as [|j l IH]; intros i Hs Hi; [constructor|].
    apply andb_true_iff in Hs as [Hj Hs]. apply Z.leb_le in Hj.
    assert (intro_is_expired now j = true) as Hj'.
    { unfold intro_is_expired, intro_expires_in in *. apply Z.leb_le. apply Z.leb_le in Hi. lia. }
    constructor; [done|]. by apply (IH j).
  - by intros [? _]%Forall_cons.
Qed.
End Codec.

(** ** Publishing *)
Section Publish.
Context `{SodiumLaws} `{!EdScalar} `{!EdScalarLaws} `{OxencLaws}.

(** The key a blinded key was made from its own scalar. *)
Definition wf_blinded (b : Ed25519BlindedKey) : Prop := base_noclamp (bk_scalar b) = Some (bk_pubkey b).

(** The blinded key of an identity is found by blinding its public key. *)
Lemma blinded_key_found root domain b : ed25519_keypair root -> Ed25519BlindedKey_of root domain = Ok b ->
  wf_blinded b /\ blind (ed25519_pubkey root) domain = Some (bk_pubkey b).
Proof.
  intros Hk Hb. unfold Ed25519BlindedKey_of in Hb. outcome_inv Hb. injection Hb as <-. unfold wf_blinded, blind.
  cbn [bk_scalar bk_pubkey]. by rewrite blind_commutes by (done || apply scalar_reduce_buf, blake2b_buf).
Qed.

(** Its signatures verify, unless the nonce is zero. *)
Lemma blinded_sign_verifies b m : wf_blinded b ->
  is_Some (base_noclamp (ed25519_scalar_reduce (sha512 (bk_hash_data b ++ m)))) ->
  length (blinded_sign b m) = 64%nat /\ sign_verify_detached (blinded_sign b m) m (bk_pubkey b) = true.
Proof.
  intros Hb [R HR]. unfold blinded_sign. rewrite HR. cbn [from_option]. change (id R) with R. split.
  - rewrite length_app. rewrite (proj1 (base_noclamp_buf _ _ HR)), (proj1 (scalar_add_buf _ _)). done.
  - by apply ed25519_equation.
Qed.

Definition nonce_ok (b : Ed25519BlindedKey) (m : bytes) : Prop :=
  is_Some (base_noclamp (ed25519_scalar_reduce (sha512 (bk_hash_data b ++ m)))).

(** What a record made with any blinded key gives to its readers. *)
Lemma enccc_reads junk b nonce now cc root :
  wf_blinded b -> wf_cc cc -> length nonce = SYMM_NONCE_SIZE -> - 2 ^ 63 <= now < 2 ^ 63 -> root = cc_pubkey cc ->
  nonce_ok b (bt_signed_data (enccc_fields b nonce now (xchacha20 (cc_encode cc) (cc_pubkey cc) nonce))) ->
  let '(enc, cc') := encrypt_and_sign b nonce now cc in
  cc_decrypt junk enc root = Ok cc' /\
  forall db, put_cc enc db =
    match db !! bk_pubkey b with
    | Some (_, t) => if now <=? t then (db, Ok false) else (<[bk_pubkey b := (enc, now)]> db, Ok true)
    | None => (<[bk_pubkey b := (enc, now)]> db, Ok true)
    end.
Proof.
  intros Hb Hcc Hn Ht -> Hr. unfold encrypt_and_sign. set (x := xchacha20 _ _ _) in *. set (kvs := enccc_fields _ _ _ _) in *.
  destruct (blinded_sign_verifies b _ Hb Hr) as [Hl Hv]. set (sig := blinded_sign _ _) in *. clearbody sig.
  assert (length (bk_pubkey b) = 32%nat) as Hpk by (by apply (base_noclamp_buf _ _ Hb)).
  assert (verify_blinded (bk_pubkey b) (bt_reading kvs [(str "~", BStr sig)]) = Ok (bt_reading (kvs ++ [(str "~", BStr sig)]) []))
    as Hsig.
  { unfold verify_blinded. rewrite bt_require_signature_next. cbn [or_throw outcome_bind].
    by rewrite bool_decide_true, Hv by done. }
  assert (bt_require_num (fits_signed 64) (str "t") (bt_reading [(str "i", BStr (bk_pubkey b)); (str "n", BStr nonce)]
    [(str "t", BInt now); (str "x", BStr x); (str "~", BStr sig)])
    = Some (now, bt_reading [(str "i", BStr (bk_pubkey b)); (str "n", BStr nonce); (str "t", BInt now)]
        [(str "x", BStr x); (str "~", BStr sig)])) as Etime by (by apply bt_require_num_next, fits_signed_true).
  unfold kvs, enccc_fields in *. clear kvs. cbn [app] in *.
  split.
  - unfold cc_decrypt. rewrite bt_open_produce. cbn [or_throw outcome_bind].
    rewrite bt_require_span_next by done. cbn [or_throw outcome_bind]. rewrite bt_require_span_next by done.
    cbn [or_throw outcome_bind app]. rewrite Etime. cbn [or_throw outcome_bind]. rewrite bt_require_string_next.
    cbn [or_throw outcome_bind app]. rewrite Hsig. cbn [outcome_bind].
    unfold x. rewrite xchacha20_involutive. by apply cc_parse_encode.
  - intros db. unfold put_cc. rewrite bt_open_produce. cbn [or_throw outcome_bind].
    rewrite bt_require_span_next by done. cbn [or_throw outcome_bind]. rewrite bt_require_span_next by done.
    cbn [or_throw outcome_bind app]. rewrite Etime. cbn [or_throw outcome_bind]. rewrite bt_require_string_next.
    cbn [or_throw outcome_bind app]. rewrite Hsig. cbn [outcome_bind].
    destruct (db !! bk_pubkey b) as [[r t]|]; cbn [bool_decide negb andb decide].
    + rewrite bool_decide_false by done. cbn [negb andb]. by destruct (now <=? t).
    + rewrite bool_decide_true by done. cbn [negb andb]. by rewrite insert_insert_eq.
Qed.

(** A contact published by the owner of an identity is found by those who know only
    the identity's public key: the record [encrypt_and_sign] makes is taken by the relay's
    store, is the answer to a lookup of the key that [blind] gives for the identity until
    its life ends, and [cc_decrypt] gives back the contact, with its signing time. *)
Theorem client_contact_published junk root b nonce now cc db enc cc' :
  ed25519_keypair root -> Ed25519BlindedKey_of root CLIENT_CONTACT_DOMAIN = Ok b ->
  wf_cc cc -> cc_pubkey cc = ed25519_pubkey root -> length nonce = SYMM_NONCE_SIZE -> - 2 ^ 63 <= now < 2 ^ 63 ->
  nonce_ok b (bt_signed_data (enccc_fields b nonce now (xchacha20 (cc_encode cc) (cc_pubkey cc) nonce))) ->
  (forall r t, db !! bk_pubkey b = Some (r, t) -> t < now) ->
  encrypt_and_sign b nonce now cc = (enc, cc') ->
  exists db' k, put_cc enc db = (db', Ok true) /\ blind (ed25519_pubkey root) CLIENT_CONTACT_DOMAIN = Some k /\
    (forall t, t < now + MAX_LIFETIME_ACCEPTED -> get_encrypted_cc db' k t = Some enc) /\
    (forall k', k' <> k -> db' !! k' = db !! k') /\
    cc_decrypt junk enc (ed25519_pubkey root) = Ok cc'.
Proof.
  intros Hk Hb Hcc Hpk Hn Ht Hr Hold Henc. destruct (blinded_key_found _ _ _ Hk Hb) as [Hwf Hblind].
  pose proof (enccc_reads junk b nonce now cc (ed25519_pubkey root) Hwf Hcc Hn Ht (eq_sym Hpk) Hr) as Hread.
  rewrite Henc in Hread. destruct Hread as [Hdec Hput].
  exists (<[bk_pubkey b := (enc, now)]> db), (bk_pubkey b). split; [|split; [done|split; [|split; [|done]]]].
  - rewrite Hput. destruct (db !! bk_pubkey b) as [[r t]|] eqn:E; [|done].
    specialize (Hold _ _ eq_refl). by replace (now <=? t) with false by (symmetry; apply Z.leb_gt; lia).
  - intros t Hlt. unfold get_encrypted_cc. rewrite lookup_insert_eq.
    by replace (now + MAX_LIFETIME_ACCEPTED <=? t) with false by (symmetry; apply Z.leb_gt; lia).
  - intros k' Hne. by rewrite lookup_insert_ne.
Qed.

(** Whoever holds some key can make a contact for the identity of another: [cc_decrypt]
    does not compare the record's key with the one [blind] gives for the identity. *)
Lemma forged_contact_accepted junk b nonce now cc :
  wf_blinded b -> wf_cc cc -> length nonce = SYMM_NONCE_SIZE -> - 2 ^ 63 <= now < 2 ^ 63 ->
  blind (cc_pubkey cc) CLIENT_CONTACT_DOMAIN <> Some (bk_pubkey b) ->
  nonce_ok b (bt_signed_data (enccc_fields b nonce now (xchacha20 (cc_encode cc) (cc_pubkey cc) nonce))) ->
  let '(enc, cc') := encrypt_and_sign b nonce now cc in
  cc_decrypt junk enc (cc_pubkey cc) = Ok cc'.
Proof.
  intros Hwf Hcc Hn Ht _ Hr. pose proof (enccc_reads junk b nonce now cc _ Hwf Hcc Hn Ht eq_refl Hr) as Hread.
  destruct (encrypt_and_sign b nonce now cc) as [enc cc']. apply Hread.
Qed.
End Publish.

(** ** The store's invariant *)
Section Store.
Context `{Sodium} `{Oxenc}.

(** A record that names its key and time, and that its key signed *)
Definition cc_record_ok (k r : bytes) (t : Z) : Prop :=
  exists c0 c1 nonce c2 c3 x c4 m s c5,
    bt_dict_open r = Some c0 /\ bt_require_span 32 (str "i") c0 = Some (k, c1)
    /\ bt_require_span SYMM_NONCE_SIZE (str "n") c1 = Some (nonce, c2)
    /\ bt_require_num (fits_signed 64) (str "t") c2 = Some (t, c3)
    /\ bt_require_string (str "x") c3 = Some (x, c4)
    /\ bt_require_signature (str "~") c4 = Some (m, s, c5)
    /\ length s = 64%nat /\ sign_verify_detached s m k = true.

Definition store_inv (db : Storage) : Prop := map_Forall (fun k '(r, t) => cc_record_ok k r t) db.

(** A step of the store: a record put in, or the purge timer. *)
Inductive store_step : Storage -> Storage -> Prop :=
  | step_put enccc db db' res : put_cc enccc db = (db', res) -> store_step db db'
  | step_purge stopping now db : store_step db (purge_ccs stopping now db).

Lemma record_ok_of_reads r c0 k c1 nonce c2 t c3 a :
  bt_dict_open r = Some c0 -> bt_require_span 32 (str "i") c0 = Some (k, c1) ->
  bt_require_span SYMM_NONCE_SIZE (str "n") c1 = Some (nonce, c2) ->
  bt_require_num (fits_signed 64) (str "t") c2 = Some (t, c3) ->
  (let! (_, c) := or_throw CC_ERROR (bt_require_string (str "x") c3) in verify_blinded k c) = Ok a ->
  cc_record_ok k r t.
Proof.
  intros ???? Hv. unfold verify_blinded in Hv. outcome_inv Hv.
  apply negb_false_iff, bool_decide_eq_true in Hg. apply negb_false_iff in Hg0.
  by do 10 eexists; repeat split.
Qed.

(** What [put_cc] does on each of its branches *)
Lemma put_cc_cases enccc db db' res : put_cc enccc db = (db', res) ->
  match res with
  | Ok true => exists k t, cc_record_ok k enccc t /\ (forall r t', db !! k = Some (r, t') -> t' < t)
      /\ db' = <[k := (enccc, t)]> db
  | _ => db' = db
  end.
Proof.
  unfold put_cc. intros Hput. case_match eqn:Hhead; [|by simplify_eq].
  outcome_inv Hhead. simplify_eq. rename l into k, z into t.
  destruct (db !! k) as [[r0 t0]|] eqn:Ek;
    [rewrite bool_decide_false in Hput by done | rewrite bool_decide_true in Hput by done]; cbn [negb andb] in Hput.
  - destruct (Z.leb_spec t t0) as [Hle|Hlt]; [by simplify_eq|]. case_match eqn:Hrest; simplify_eq; [|done].
    exists k, t. split; [by eapply record_ok_of_reads|]. split; [|done]. intros r t' ?. by simplify_eq.
  - case_match eqn:Hrest; simplify_eq; [|by rewrite delete_insert_eq, delete_id].
    exists k, t. split; [by eapply record_ok_of_reads|]. split; [|by rewrite insert_insert_eq]. intros r t' ?. by simplify_eq.
Qed.

Lemma store_step_inv db db' : store_step db db' -> store_inv db -> store_inv db'.
Proof.
  intros [enccc ?? res Hput|stopping now ?] Hinv.
  - apply put_cc_cases in Hput. destruct res as [[]|]; [|by subst..].
    destruct Hput as (k & t & Hok & _ & ->). by apply map_Forall_insert_2.
  - unfold purge_ccs. destruct stopping; [done|]. intros k v [Hkv _]%map_lookup_filter_Some. by apply Hinv.
Qed.

(** C5. Whatever records relays are sent, the store holds only records signed by the
    key they are filed under, with the time the record names; a record is taken only
    when it is strictly newer than the one it replaces, and in every other case, the
    exceptions thrown after the stub was put in included, the store is unchanged. *)
Theorem contact_store_sound db enccc db' res : rtc store_step ∅ db -> put_cc enccc db = (db', res) ->
  store_inv db /\
  match res with
  | Ok true => exists k t, cc_record_ok k enccc t /\ (forall r t', db !! k = Some (r, t') -> t' < t)
      /\ db' = <[k := (enccc, t)]> db
  | _ => db' = db
  end.
Proof.
  intros Hreach Hput. split; [|by apply put_cc_cases].
  assert (store_inv ∅) as H0' by apply map_Forall_empty. clear Hput. revert H0'.
  induction Hreach as [|x y z Hxy _ IH]; [done|]. intros Hx. by apply IH, (store_step_inv x).
Qed.
End Store.

(** The number of a protocol in hexadecimal, which the documentation of [from_config]
    gives as an example, is never taken: [std::from_chars] does not read the "0x" that
    the code asks for. *)
Lemma hex_protocol_rejected getprotobyname s pi : from_config getprotobyname s = Ok pi ->
  is_Some (getprotobyname (default [] (head (split s (str "/") false)))).
Proof.
  unfold from_config. set (n := default [] _) in *. intros Hok. outcome_inv Hok. clearbody n.
  destruct (getprotobyname n); [by eexists|]. destruct (starts_with n _) eqn:Hx; [|done].
  unfold starts_with in Hx. apply bool_decide_eq_true in Hx. destruct n as [|a0 [|b n]]; [done..|].
  by injection Hx as -> ->.
Qed.

(** ** A contact published *)

(** Scalars whose product is the sum of their bits, over [toy] *)
Definition toy_scalar : EdScalar := {|
  sha512 _ := zero_buf 64;
  scalar_mul a f := buf_xor f a;
  scalar_add _ _ := zero_buf 32;
  base_noclamp a := if bool_decide (length a = 32%nat) && forallb (fun b => (0 <=? b) && (b <? 256)) a
                    then Some a else None |}.

Lemma toy_base_noclamp a A : is_buf 32 a \/ @base_noclamp toy_scalar a = Some A ->
  @base_noclamp toy_scalar a = Some a /\ is_buf 32 a.
Proof.
  cbn [base_noclamp toy_scalar]. assert (is_buf 32 a <-> bool_decide (length a = 32%nat)
    && forallb (fun b => (0 <=? b) && (b <? 256)) a = true) as Hbuf.
  { unfold is_buf, is_bytes, is_byte. rewrite andb_true_iff, bool_decide_eq_true, List.forallb_forall.
    rewrite List.Forall_forall. split; intros [? Hb]; split; [done| |done|]; intros x Hx; specialize (Hb x Hx).
    - apply andb_true_iff. lia.
    - apply andb_true_iff in Hb. lia. }
  intros [Ha|Ha].
  - apply Hbuf in Ha as Hc. by rewrite Hc.
  - rewrite Hbuf. by destruct (_ && _).
Qed.

Lemma toy_scalar_laws : @EdScalarLaws toy toy_scalar.
Proof.
  constructor.
  - intros a A Ha. destruct (toy_base_noclamp a A) as [E Hb]; [by right|]. rewrite Ha in E. by injection E as ->.
  - intros a b. split; [done|]. by apply Forall_replicate.
  - intros x [Hl Hx]. cbn [ed25519_scalar_reduce toy]. split; [by rewrite length_take, Hl|]. by apply Forall_take.
  - intros sk f [[Hl Hb] Hsk] Hf. cbn [scalarmult_ed25519_noclamp ed25519_sk_to_curve25519 scalar_mul toy toy_scalar].
    unfold ed25519_pubkey. rewrite Hl. cbn [Nat.sub]. rewrite <- Hsk. symmetry.
    apply (toy_base_noclamp _ []). left. apply is_buf_xor; [done|].
    split; [by rewrite length_take, Hl | by apply Forall_take].
  - intros a x m A R _. cbn [ed25519_scalar_reduce sha512 toy toy_scalar sign_verify_detached scalar_add].
    change (take 32 (zero_buf 64)) with (zero_buf 32). intros HR. destruct (toy_base_noclamp _ _ (or_intror HR)) as [E _]. rewrite HR in E.
    injection E as ->. by rewrite bool_decide_true.
Qed.

Definition contact_root : bytes := replicate 64 7.
Definition demo_contact : ClientContact :=
  mkCC (replicate 32 7) [mkIntro (replicate 32 1) (replicate 16 2) 1000] [] 1 0 None.
Definition demo_blinded : Ed25519BlindedKey :=
  match @Ed25519BlindedKey_of toy toy_scalar contact_root CLIENT_CONTACT_DOMAIN with
  | Ok b => b
  | Throw _ => mkBlinded [] [] []
  end.
Definition demo_enc : bytes * ClientContact :=
  @encrypt_and_sign toy toy_scalar bencode demo_blinded (replicate SYMM_NONCE_SIZE 3) 500000 demo_contact.
Definition no_junk (_ : nat) : SRVData := mkSRV [] [] 0 0 0 [].

Lemma wf_demo_contact : wf_cc demo_contact.
Proof.
  constructor; cbn [demo_contact cc_pubkey cc_intros cc_srv cc_protos cc_exit_policy]; try done.
  constructor; [|done]. split; [done|]. split; [done|]. cbn [ci_expiry]. lia.
Qed.

Lemma client_contact_published_witness :
  exists db' k, @put_cc toy bencode demo_enc.1 ∅ = (db', Ok true)
    /\ @blind toy (ed25519_pubkey contact_root) CLIENT_CONTACT_DOMAIN = Some k
    /\ get_encrypted_cc db' k 600000 = Some demo_enc.1
    /\ @cc_decrypt toy bencode no_junk demo_enc.1 (ed25519_pubkey contact_root) = Ok demo_enc.2.
Proof.
  destruct (@client_contact_published toy toy_laws toy_scalar toy_scalar_laws bencode bencode_laws no_junk contact_root
    demo_blinded (replicate SYMM_NONCE_SIZE 3) 500000 demo_contact ∅ demo_enc.1 demo_enc.2) as (db' & k & Hput & Hk & Hget & _ & Hdec).
  - split; [|reflexivity]. split; [reflexivity|]. apply Forall_replicate. unfold is_byte. lia.
  - vm_compute. reflexivity.
  - exact wf_demo_contact.
  - reflexivity.
  - reflexivity.
  - lia.
  - exists (zero_buf 32). vm_compute. reflexivity.
  - intros r t. rewrite lookup_empty. discriminate.
  - apply surjective_pairing.
  - exists db', k. split; [exact Hput|]. split; [exact Hk|]. split; [|exact Hdec].
    apply Hget. reflexivity.
Defined.

Lemma contact_store_sound_witness :
  @put_cc toy bencode demo_enc.1 {[ demo_blinded.(bk_pubkey) := (demo_enc.1, 500000) ]} =
    ({[ demo_blinded.(bk_pubkey) := (demo_enc.1, 500000) ]}, Ok false) /\
  @store_inv toy bencode {[ demo_blinded.(bk_pubkey) := (demo_enc.1, 500000) ]}.
Proof.
  assert (@put_cc toy bencode demo_enc.1 {[ demo_blinded.(bk_pubkey) := (demo_enc.1, 500000) ]} =
    ({[ demo_blinded.(bk_pubkey) := (demo_enc.1, 500000) ]}, Ok false)) as Hput by (vm_compute; reflexivity).
  assert (@put_cc toy bencode demo_enc.1 ∅ =
    ({[ demo_blinded.(bk_pubkey) := (demo_enc.1, 500000) ]}, Ok true)) as Hfirst by (vm_compute; reflexivity).
  split; [exact Hput|].
  exact (proj1 (contact_store_sound _ _ _ _ (rtc_once _ _ (step_put _ _ _ _ Hfirst)) Hput)).
Defined.
