(* ===== verification/Session.v ===== *)
(** * Sessions: state, messages and the handshake (session/session.{hpp,cpp})

    The four kinds of session share the record [Session]; what C++ dispatches
    through virtual methods is a match on the kind.  A session method runs in
    [SM]: it may change the session, it does things to the rest of the program
    (the [Effect]s, in the order they happen) and it may throw, keeping the
    changes made so far.  Random draws, the time and the answers of other
    components are arguments.  Times are milliseconds. *)

From Stdlib Require Import ZArith Lia.
From stdpp Require Import base list numbers strings gmap.
From coqutil Require Import Datatypes.RecordSettersUsingExistingGetters.
From S2P Require Import Prelude Oxenc Messages Crypto SessionKeys RelayContact Path PathContext PathBuild PathMsg.
From S2P Require Import PathHandler IpPacket.

Local Open Scope router_scope.

(** ** Addresses, kinds and traffic types *)

(** [NetworkAddress] (address/address.hpp) *)
Record NetworkAddress := mkNetAddr { na_pubkey : bytes; na_client : bool }.

#[export] Instance NetworkAddress_eq_dec : EqDecision NetworkAddress.
Proof. solve_decision. Defined.

(** The concrete classes. *)
Inductive SessionKind : Type :=
| OutboundRelaySession | OutboundClientSession | InboundRelaySession | InboundClientSession.

#[export] Instance SessionKind_eq_dec : EqDecision SessionKind.
Proof. solve_decision. Defined.

Definition is_outbound (k : SessionKind) : bool :=
  match k with OutboundRelaySession | OutboundClientSession => true | _ => false end.
Definition is_relay_session (k : SessionKind) : bool :=
  match k with OutboundRelaySession | InboundRelaySession => true | _ => false end.

(** [traffic_type] (net/traffic_type.hpp) *)
Definition TT_UDP : Z := 0.
Definition TT_TCP : Z := 1.
Definition TT_RAW : Z := 2.
Definition TT_TUNNELED_QUIC : Z := 3.
Definition traffic_type_is_valid (t : Z) : bool := ((TT_UDP <=? t) && (t <=? TT_TUNNELED_QUIC))%Z.

(** [to_traffic_type(proto)]: IP protocol numbers 17 and 6 are UDP and TCP. *)
Definition to_traffic_type (proto : Z) : Z :=
  if (proto =? 17)%Z then TT_UDP else if (proto =? 6)%Z then TT_TCP else TT_RAW.

Definition SESSION_TIMEOUT : Z := 30000.
Definition MAX_QUEUED_PACKETS : nat := 30.
(** [DATA_MESSAGE_OVERHEAD] *)
Definition DATA_MESSAGE_OVERHEAD : nat := 1 + TAG_SIZE + SESSION_TAG_SIZE + HOPID_SIZE.
Definition switch_xor_factor : bytes := replicate SYMM_NONCE_SIZE 66%Z.

(** ** State *)

(** [_current_path] and [_current_thop] are pointers into the heaps of the path
    context; [s_waiting] is the priority queue [_on_established], callbacks
    being numbers, kept in the order they are popped. *)
Record Session := mkSession {
  s_kind : SessionKind;
  s_inbound_tag : Z;
  s_outbound_tag : Z;
  s_remote : NetworkAddress;
  s_shared_secret : option bytes;
  s_pending_shared_secret : option bytes;
  s_inbound_key : option bytes;
  s_outbound_key : option bytes;
  s_remote_pivot_txid : bytes;
  s_is_established : bool;
  s_is_closed : bool;
  s_unreachable : bool;
  s_dead_path : bool;
  s_last_activity : Z;
  s_last_inbound_activity : Z;
  s_ipv4_mapped : bool;
  s_current : option nat;
  s_mlkem : option MLKEM768KeyPair;
  s_x25519 : option X25519KeyPair;
  s_queue : option (list bytes);
  s_waiting : list (Z * nat);
  s_accept_msg : bytes;
  s_old_accept : bool;
}.


(** Computes the fields of an updated session. *)
Ltac session_cbn :=
  cbn [set RecordSettersUsingExistingGetters.const s_kind s_inbound_tag s_outbound_tag s_remote s_shared_secret
       s_pending_shared_secret s_inbound_key s_outbound_key s_remote_pivot_txid s_is_established s_is_closed
       s_unreachable s_dead_path s_last_activity s_last_inbound_activity s_ipv4_mapped s_current s_mlkem s_x25519
       s_queue s_waiting s_accept_msg s_old_accept].

(** [Session::Session(r, parent, remote, inbound_tag)]: an outbound session. *)
Definition Session_outbound (relay : bool) (remote : NetworkAddress) (tag now : Z) : Session :=
  mkSession (if relay then OutboundRelaySession else OutboundClientSession) tag 0 remote
    None None None None (zero_buf HOPID_SIZE) false false false true now now false None
    None None None [] [] false.

(** [Session::Session(r, parent)]: an inbound session, with the path or transit
    hop its constructor is given. *)
Definition Session_inbound (relay : bool) (current : option nat) (now : Z) : Session :=
  mkSession (if relay then InboundRelaySession else InboundClientSession) 0 0
    (mkNetAddr (zero_buf 32) false) None None None None (zero_buf HOPID_SIZE) true false false
    (match current with Some _ => false | None => true end) now now false current
    None None None [] [] false.

(** What a session does to the rest of the program. *)
Inductive Effect : Type :=
| ESendDatagram (to : Peer) (body : bytes)        (* link_endpoint().send_datagram *)
| ESendCommand (to : Peer) (body : bytes)         (* send_command(to, "session_control", body) *)
| ECloseSession (tag : Z)                         (* _parent.close_session(tag, false) *)
| EInvalidatePaths                                (* invalidate_paths() *)
| ERefreshCC                                      (* _cc_ok = false; _next_cc_update = now *)
| EClientContact (payload : bytes)                (* OutboundClientSession::handle_client_contact *)
| EResetTunnel                                    (* tcp_tunnel.reset() *)
| ETunnelPacket (data : bytes)                    (* tunnel().receive_packet *)
| EUdpFromRemote (pkt : bytes)                    (* handle_udp_from_remote *)
| EInboundPacket (pkt : bytes) (type : Z) (remote : NetworkAddress) (* tun->handle_inbound_packet *)
| EFired (callback : nat) (established : bool).   (* an on_established callback *)

(** ** The monad of session methods *)
Definition SM (A : Type) : Type := Session -> Session * list Effect * outcome string A.

Definition sret {A} (a : A) : SM A := fun s => (s, [], Ok a).
Definition sbind {A B} (m : SM A) (k : A -> SM B) : SM B := fun s =>
  match m s with
  | (s1, e1, Ok a) => let '(s2, e2, r) := k a s1 in (s2, e1 ++ e2, r)
  | (s1, e1, Throw x) => (s1, e1, Throw x)
  end.
Definition sget : SM Session := fun s => (s, [], Ok s).
Definition smod (f : Session -> Session) : SM unit := fun s => (f s, [], Ok tt).
Definition stell (e : Effect) : SM unit := fun s => (s, [e], Ok tt).
Definition sthrow {A} (x : string) : SM A := fun s => (s, [], Throw x).
Definition slift {A} (o : outcome string A) : SM A := fun s => (s, [], o).
(** [try { m } catch (...) { h }] *)
Definition scatch {A} (m : SM A) (h : string -> SM A) : SM A := fun s =>
  match m s with
  | (s1, e1, Ok a) => (s1, e1, Ok a)
  | (s1, e1, Throw x) => let '(s2, e2, r) := h x s1 in (s2, e1 ++ e2, r)
  end.

Notation "'do' x '<-' m ';' k" := (sbind m (fun x => k))
  (at level 10, x pattern, m at level 100, k at level 200, right associativity) : router_scope.
Notation "m ';;' k" := (sbind m (fun _ => k)) (at level 100, k at level 200, right associativity) : router_scope.

(** [for (auto& x : l) f(x);] *)
Fixpoint sfor {A} (l : list A) (f : A -> SM unit) : SM unit :=
  match l with
  | [] => sret tt
  | x :: l => f x ;; sfor l f
  end.

(** ** Sending *)

(** [Path::edge().router_id] *)
Definition edge_router (p : Path) : bytes := match edge p with Some h => router_id h | None => [] end.

Definition update_active (now : Z) : SM unit := smod (fun s => s <| s_last_activity := now |>).

Section Sending.
Context `{Sodium} `{Oxenc}.
Context (ctx : PathContext).

(** The condition of [check_dead]; a pointer of a session always points into the heap. *)
Definition current_is_dead (s : Session) : bool :=
  match s_current s with
  | None => true
  | Some p =>
    match s_kind s with
    | InboundRelaySession => match hop_heap ctx !! p with Some h => is_dead h | None => true end
    | _ => match path_heap ctx !! p with Some path => path_dead path | None => true end
    end
  end.

(** [check_dead(path_like, s)] *)
Definition check_dead : SM bool :=
  do s <- sget;
  if current_is_dead s
  then smod (fun s => s <| s_dead_path := true |> <| s_current := None |>) ;; sret true
  else sret false.

(** [InboundRelaySession::encrypt_path_message] *)
Definition encrypt_return_message (thop : TransitHop) (data nonce : bytes) (type : Z) : bytes :=
  let nonce := buf_xor nonce (xor_nonce thop) in
  path_message (xchacha20 data (shared_secret thop) nonce) nonce (rxid thop) type.

Definition send_wire (control : bool) (to : Peer) (body : bytes) : SM unit :=
  stell (if control then ESendCommand to body else ESendDatagram to body).

(** [send_path_data_impl], [send_path_control_impl] and the two sends of
    [InboundRelaySession]. *)
Definition send_over_current (control : bool) (type : Z) (data nonce : bytes) : SM unit :=
  do dead <- check_dead;
  if dead then sret tt
  else
    do s <- sget;
    match s_current s with
    | None => sret tt
    | Some p =>
      match s_kind s with
      | InboundRelaySession =>
        match hop_heap ctx !! p with
        | Some thop => send_wire control (downstream thop) (encrypt_return_message thop data nonce type)
        | None => sret tt
        end
      | _ =>
        match path_heap ctx !! p with
        | Some path =>
          if is_established path
          then send_wire control (PRouter (edge_router path)) (encrypt_path_message path data nonce type false)
          else sret tt
        | None => sret tt
        end
      end
    end.

(** [send_path_data_message], [send_path_control_message] *)
Definition send_path_data_message (now : Z) (data nonce : bytes) : SM unit :=
  update_active now ;; send_over_current false MT_Data data nonce.
Definition send_path_control_message (now : Z) (data nonce : bytes) (type : Z) : SM unit :=
  update_active now ;; send_over_current true type data nonce.

(** [Session::make_session_message(data, data_type, encrypt)]; [nonce] is its random draw. *)
Definition make_session_message (s : Session) (data : bytes) (data_type : option Z) (encrypt : bool)
    (nonce : bytes) : option (bytes * bytes) :=
  if s_dead_path s then None
  else
    let relay_session_return := negb (is_outbound (s_kind s)) && is_relay_session (s_kind s) in
    let plain := data ++ (match data_type with Some t => [t] | None => [] end) in
    let tag := write_host_as_big SESSION_TAG_SIZE (s_outbound_tag s) in
    let pivot := if relay_session_return then [] else s_remote_pivot_txid s in
    if encrypt then
      match (match s_outbound_key s with Some k => Some k | None => s_shared_secret s end) with
      | None => None
      | Some key =>
        Some (xchacha20_poly1305_encrypt_inplace (plain ++ zero_buf TAG_SIZE) key nonce [] ++ tag ++ pivot, nonce)
      end
    else Some (plain ++ tag ++ pivot, nonce).

(** [Session::send_session_control_message(method, body)] *)
Definition send_session_control_message (now : Z) (method body nonce : bytes) : SM unit :=
  do s <- sget;
  if negb (s_is_established s) then sret tt
  else if s_dead_path s then sret tt
  else
    match make_session_message s (bt_dict_produce [(str "e", BStr method); (str "p", BStr body)]) None true nonce with
    | Some (message, nonce) => send_path_control_message now message nonce MT_Control
    | None => sret tt
    end.

(** [Session::send_session_precontrol_message(body, mtype)] *)
Definition send_session_precontrol_message (now : Z) (body : bytes) (mtype : Z) (nonce : bytes) : SM unit :=
  do s <- sget;
  if s_dead_path s then sret tt
  else
    match make_session_message s body None false nonce with
    | Some (message, nonce) => send_path_control_message now message nonce mtype
    | None => sret tt
    end.

(** [while (queue.size() >= MAX_QUEUED_PACKETS) queue.pop_front();] *)
Fixpoint trim_queue (q : list bytes) : list bytes :=
  match q with
  | [] => []
  | _ :: q' => if decide (MAX_QUEUED_PACKETS <= length q) then trim_queue q' else q
  end.

(** [OutboundSession::queue_data_message(data, type)]; other sessions do nothing. *)
Definition queue_data_message (now : Z) (data : bytes) (type : Z) : SM unit :=
  do s <- sget;
  if is_outbound (s_kind s) then
    update_active now ;;
    let q := match s_queue s with None => [] | Some q => trim_queue q end in
    smod (fun s => s <| s_queue := Some (q ++ [data ++ [type]]) |>)
  else sret tt.

(** [Session::send_session_data_message(data, type)] *)
Definition send_session_data_message (now : Z) (data : bytes) (type : Z) (nonce : bytes) : SM unit :=
  do s <- sget;
  if negb (s_is_established s) then queue_data_message now data type
  else
    match make_session_message s data (Some type) true nonce with
    | Some (message, nonce) => send_path_data_message now message nonce
    | None => sret tt
    end.

(** [Session::close(send_close)] *)
Definition close (now : Z) (send_close : bool) (nonce : bytes) : SM unit :=
  do s <- sget;
  if s_is_closed s then sret tt
  else
    stell EResetTunnel ;;
    smod (fun s => s <| s_is_closed := true |>) ;;
    if send_close then send_session_control_message now (str "session_close") [] nonce else sret tt.
End Sending.

(** [Session::is_established()], [is_established_pfs()], [is_expired(now)] *)
Definition session_is_established (s : Session) : bool := s_is_established s && negb (s_is_closed s).
Definition is_established_pfs (s : Session) : bool := bool_decide (is_Some (s_inbound_key s)).
Definition session_is_expired (s : Session) (now : Z) : bool := (SESSION_TIMEOUT <? now - s_last_activity s)%Z.

(** ** Waiting for the session (on_established) *)

(** The order in which [std::priority_queue] with [on_established_sorter] gives its
    items: by deadline.  (The order of equal deadlines is not specified.) *)
Fixpoint pq_push (item : Z * nat) (q : list (Z * nat)) : list (Z * nat) :=
  match q with
  | [] => [item]
  | x :: q' => if (item.1 <? x.1)%Z then item :: q else x :: pq_push item q'
  end.

(** [OutboundSession::on_established(callback, timeout)] *)
Definition on_established (steady_now build_timeout : Z) (callback : nat) (timeout : option Z) : SM unit :=
  smod (fun s => s <| s_waiting ::= pq_push (steady_now + default build_timeout timeout, callback)%Z |>).

(** The loop of [fire_waiting], and of [mark_unreachable] with [all] set. *)
Fixpoint fire_loop (all : bool) (steady_now : Z) (q : list (Z * nat)) : SM unit :=
  match q with
  | [] => smod (fun s => s <| s_waiting := [] |>)
  | (deadline, callback) :: q' =>
    if all || (deadline <=? steady_now)%Z then
      do s <- sget;
      stell (EFired callback (session_is_established s)) ;; fire_loop all steady_now q'
    else smod (fun s => s <| s_waiting := q |>)
  end.

(** [OutboundSession::fire_waiting()] *)
Definition fire_waiting (steady_now : Z) : SM unit :=
  do s <- sget;
  fire_loop (session_is_established s) steady_now (s_waiting s).

(** [OutboundSession::mark_unreachable()] *)
Definition mark_unreachable : SM unit :=
  smod (fun s => s <| s_unreachable := true |> <| s_dead_path := true |>) ;;
  do s <- sget;
  fire_loop true 0 (s_waiting s).

(** ** The handshake *)

(** [require<session_tag>("t")]: an integer that fits in 32 bits. *)
Definition bt_require_tag `{Oxenc} (c : bt_consumer) : option (Z * bt_consumer) :=
  match bt_require_int (str "t") c with
  | Some (z, c') => if ((0 <=? z) && (z <? 2 ^ 32))%Z then Some (z, c') else None
  | None => None
  end.

Definition BT_ERROR : string := "bt_deserialize_invalid".

(** The random draws of [make_session_init]. *)
Record InitDraws := mkInitDraws {
  d_eph_keys : bytes;
  d_dh_nonce : bytes;
  d_mlkem_seed : bytes;
  d_x25519 : bytes;
  d_box : bytes;
}.

(** The random draws of [InboundSession::init]. *)
Record AcceptDraws := mkAcceptDraws {
  d_y : bytes;
  d_coins : bytes;
  d_abox : bytes;
}.

Section Handshake.
Context `{Sodium} `{Oxenc} `{BoxKem}.
(** The router's Ed25519 secret key; [_r.id()] is its public half. *)
Context (sk : bytes).

(** [append_signature("~", sign)] *)
Definition append_signature (kvs : list (bytes * btval)) : list (bytes * btval) :=
  kvs ++ [(str "~", BStr (sign_detached sk (bt_signed_data kvs)))].

(** The callback given to [require_signature] in the handshake messages. *)
Definition check_signature (pubkey : bytes) (c : bt_consumer) : outcome string bt_consumer :=
  let! (msg, sig, c) := or_throw BT_ERROR (bt_require_signature (str "~") c) in
  throw_if negb (bool_decide (length sig = 64)) with "Invalid signature: not 64 bytes"%string in
  throw_if negb (sign_verify_detached sig msg pubkey)
    with "Failed to verify session_init identity signature"%string in
  Ok c.

(** The pairs of the PFS+PQ session init that are sealed, and of the accept. *)
Definition init_fields (id m x pivot : bytes) (tag : Z) : list (bytes * btval) :=
  append_signature [(str "I", BStr id); (str "M", BStr m); (str "X", BStr x); (str "p", BStr pivot);
                    (str "t", BInt tag)].
Definition accept_fields (y ct : bytes) (tag : Z) : list (bytes * btval) :=
  append_signature [(str "Y", BStr y); (str "c", BStr ct); (str "t", BInt tag)].

(** [OutboundSession::make_session_init(path)]; [old_init] is [use_old_init()]. *)
Definition make_session_init (old_init : bool) (path : Path) (d : InitDraws) : SM (bytes * Z) :=
  do s <- sget;
  if old_init then
    smod (fun s => s <| s_mlkem := None |> <| s_x25519 := None |>
                     <| s_pending_shared_secret := Some (zero_buf SYMM_KEY_SIZE) |>) ;;
    do gen <- slift (dh_client_gen (na_pubkey (s_remote s)) (d_eph_keys d) (d_dh_nonce d));
    let '(secret, dh_pk, dh_nonce) := gen in
    smod (fun s => s <| s_pending_shared_secret := Some secret |>) ;;
    let inner := append_signature [(str "i", BStr (ed25519_pubkey sk)); (str "p", BStr (terminal_hopid path));
                                   (str "t", BInt (s_inbound_tag s))] in
    let inner_payload :=
      xchacha20_poly1305_encrypt_inplace (bt_dict_produce inner ++ zero_buf TAG_SIZE) secret dh_nonce [] in
    sret (bt_dict_produce [(str "k", BStr dh_pk); (str "n", BStr dh_nonce); (str "x", BStr inner_payload)],
          MT_Control)
  else
    do m <- slift (mlkem_generate (d_mlkem_seed d));
    smod (fun s => s <| s_mlkem := Some m |>) ;;
    let x := x25519_keypair (d_x25519 d) in
    smod (fun s => s <| s_x25519 := Some x |>) ;;
    let inner := init_fields (ed25519_pubkey sk) (m_pub m) (x_pub x) (terminal_hopid path) (s_inbound_tag s) in
    do box <- slift (seal_box (na_pubkey (s_remote s)) (bt_dict_produce inner) (d_box d));
    sret (bt_dict_produce [([], BStr (str "i")); (str "B", BStr box)], MT_SessionHandshake).

(** [InboundSession::init_legacy(outer_btdc)] on the constructed session [s]. *)
Definition init_legacy (s : Session) (next_tag : Z) (outer : bt_consumer) : outcome string Session :=
  let! (eph_pubkey, outer) := or_throw BT_ERROR (bt_require_span PUBKEY_SIZE (str "k") outer) in
  let! (dh_nonce, outer) := or_throw BT_ERROR (bt_require_span SYMM_NONCE_SIZE (str "n") outer) in
  let! (inner_payload, outer) := or_throw BT_ERROR (bt_require_string (str "x") outer) in
  throw_if negb (bt_finish outer) with BT_ERROR in
  (* the result of dh_server is not looked at; the secret stays zero when it fails *)
  let secret := default (zero_buf SYMM_KEY_SIZE) (dh_server eph_pubkey sk dh_nonce) in
  let! decrypted := or_throw "Session init decryption failed"%string
                      (xchacha20_poly1305_decrypt inner_payload secret dh_nonce) in
  let! inner := or_throw BT_ERROR (bt_dict_open decrypted) in
  let! (remote_rid, inner) := or_throw BT_ERROR (bt_require_span 32 (str "i") inner) in
  let! (pivot, inner) := or_throw BT_ERROR (bt_require_span HOPID_SIZE (str "p") inner) in
  let! (tag, inner) := or_throw BT_ERROR (bt_require_tag inner) in
  let! inner := check_signature remote_rid inner in
  throw_if negb (bt_finish inner) with BT_ERROR in
  Ok (s <| s_shared_secret := Some secret |> <| s_remote := mkNetAddr remote_rid true |>
        <| s_remote_pivot_txid := pivot |> <| s_outbound_tag := tag |> <| s_inbound_tag := next_tag |>
        <| s_accept_msg := bt_dict_produce [(str "t", BInt next_tag)] |> <| s_old_accept := true |>).

(** What [InboundSession::init] reads from the opened box: the initiator, its two
    ephemeral keys, its pivot and its tag, once the signature is checked. *)
Definition read_init (inner : bytes) : outcome string (bytes * bytes * bytes * bytes * Z) :=
  let! c := or_throw BT_ERROR (bt_dict_open inner) in
  let! (id, c) := or_throw BT_ERROR (bt_require_span 32 (str "I") c) in
  let! (m, c) := or_throw BT_ERROR (bt_require_span MLKEM_PUB_SIZE (str "M") c) in
  let! (x, c) := or_throw BT_ERROR (bt_require_span 32 (str "X") c) in
  let! (pivot, c) := or_throw BT_ERROR (bt_require_span HOPID_SIZE (str "p") c) in
  let! (tag, c) := or_throw BT_ERROR (bt_require_tag c) in
  let! c := check_signature id c in
  throw_if negb (bt_finish c) with BT_ERROR in
  Ok (id, m, x, pivot, tag).

(** [InboundSession::init(request)] on the constructed session [s];
    [next_tag] is what [_parent.next_tag()] returns. *)
Definition inbound_init (s : Session) (next_tag : Z) (request : bytes) (d : AcceptDraws)
    : outcome string Session :=
  let! outer := or_throw BT_ERROR (bt_dict_open request) in
  let! (found, outer) := or_throw BT_ERROR (bt_skip_until [] outer) in
  if negb found then init_legacy s next_tag outer
  else
    let! (_, init_type, outer) := or_throw BT_ERROR (bt_next_string outer) in
    throw_if negb (bool_decide (init_type = str "i"))
      with "Invalid/unsupported session handshake init type"%string in
    let! (box, outer) := or_throw BT_ERROR (bt_require_string (str "B") outer) in
    let! inner := unseal_box sk box in
    let! (id, m, x, pivot, tag) := read_init inner in
    let local_eph_x := x25519_keypair (d_y d) in
    let! (mlct, mlss) := encapsulate m (d_coins d) in
    let! (key_in, key_out) := session_secret id (ed25519_pubkey sk) local_eph_x x false mlss m tag next_tag in
    let! abox := seal_box id (bt_dict_produce (accept_fields (x_pub local_eph_x) mlct next_tag)) (d_abox d) in
    Ok (s <| s_remote := mkNetAddr id true |> <| s_remote_pivot_txid := pivot |> <| s_outbound_tag := tag |>
          <| s_inbound_tag := next_tag |> <| s_inbound_key := Some key_in |> <| s_outbound_key := Some key_out |>
          <| s_accept_msg := bt_dict_produce [([], BStr (str "a")); (str "B", BStr abox)] |>
          <| s_old_accept := false |>).

(** The unauthenticated part of [handle_session_accept]: the other side's ephemeral
    key, the ML-KEM ciphertext and the tag, once the signature is checked. *)
Definition read_accept (remote : bytes) (payload : bt_consumer) : outcome string (bytes * bytes * Z) :=
  let! (box, payload) := or_throw BT_ERROR (bt_require_string (str "B") payload) in
  throw_if negb (bt_finish payload) with BT_ERROR in
  let! inner := unseal_box sk box in
  let! c := or_throw BT_ERROR (bt_dict_open inner) in
  let! (y, c) := or_throw BT_ERROR (bt_require_span 32 (str "Y") c) in
  let! (ct, c) := or_throw BT_ERROR (bt_require_span MLKEM_CT_SIZE (str "c") c) in
  let! (tag, c) := or_throw BT_ERROR (bt_require_tag c) in
  let! c := check_signature remote c in
  throw_if negb (bt_finish c) with BT_ERROR in
  Ok (y, ct, tag).

(** The inner [try] block of [handle_session_accept]. *)
Definition complete_accept (m : MLKEM768KeyPair) (x : X25519KeyPair) (y ct : bytes) (tag : Z) : SM unit :=
  scatch
    (do mlss <- slift (decapsulate (m_sec m) ct);
     smod (fun s => s <| s_outbound_tag := tag |>) ;;
     do s <- sget;
     do keys <- slift (session_secret (ed25519_pubkey sk) (na_pubkey (s_remote s)) x y true mlss (m_pub m)
                         (s_inbound_tag s) (s_outbound_tag s));
     smod (fun s => s <| s_inbound_key := Some keys.1 |> <| s_outbound_key := Some keys.2 |>
                      <| s_is_established := true |> <| s_mlkem := None |> <| s_x25519 := None |>))
    (fun e => smod (fun s => s <| s_is_established := false |> <| s_outbound_tag := 0%Z |>) ;; sthrow e).

(** The data messages queued before the session was established are sent. *)
Definition flush_queue (ctx : PathContext) (now : Z) (nonces : nat -> bytes) : SM unit :=
  do s <- sget;
  match s_queue s with
  | None => sret tt
  | Some q =>
    sfor (imap pair q)
      (fun '(i, d) => send_session_data_message ctx now (take (length d - 1) d) (List.last d 0%Z) (nonces i)) ;;
    smod (fun s => s <| s_queue := None |>)
  end.

(** [OutboundSession::handle_session_accept(payload)] *)
Definition handle_session_accept (ctx : PathContext) (now steady_now : Z) (nonces : nat -> bytes)
    (payload : bt_consumer) : SM unit :=
  do s <- sget;
  match s_mlkem s, s_x25519 s with
  | Some m, Some x =>
    do ok <- scatch
      (do acc <- slift (read_accept (na_pubkey (s_remote s)) payload);
       let '(y, ct, tag) := acc in
       complete_accept m x y ct tag ;; sret true)
      (fun _ => sret false);
    if ok then flush_queue ctx now nonces ;; fire_waiting steady_now else sret tt
  | _, _ => sret tt
  end.
End Handshake.

Section Receiving.
Context `{Sodium} `{Oxenc} `{BoxKem}.
Context (ctx : PathContext).
(** What a failed in-place decryption leaves in its buffer: libsodium does not say. *)
Context (spoiled : bytes -> bytes).

(** [InboundSession::session_init_accept()] *)
Definition session_init_accept (now : Z) (nonce : bytes) : SM unit :=
  do s <- sget;
  match s_accept_msg s with
  | [] => sret tt
  | msg =>
    (if s_old_accept s
     then send_session_control_message ctx now (str "session_accept") msg nonce
     else send_session_precontrol_message ctx now msg MT_SessionHandshake nonce) ;;
    smod (fun s => s <| s_accept_msg := [] |>)
  end.

(** [handle_session_accept_deprecated(params)]: only outbound sessions do something. *)
Definition handle_session_accept_deprecated (now steady_now : Z) (nonces : nat -> bytes) (params : bytes)
    : SM unit :=
  do s <- sget;
  if negb (is_outbound (s_kind s)) then sret tt
  else
    match s_pending_shared_secret s with
    | None => sret tt
    | Some pending =>
      smod (fun s => s <| s_shared_secret := Some pending |> <| s_pending_shared_secret := None |>
                       <| s_is_established := false |> <| s_outbound_tag := 0%Z |>) ;;
      do c <- slift (or_throw BT_ERROR (bt_dict_open params));
      do tc <- slift (or_throw BT_ERROR (bt_require_tag c));
      (if bt_finish tc.2 then sret tt else sthrow BT_ERROR) ;;
      smod (fun s => s <| s_outbound_tag := tc.1 |> <| s_is_established := true |>) ;;
      flush_queue ctx now nonces ;;
      fire_waiting steady_now
    end.

(** Where a message came in: the transit hop on a relay, the path on a client. *)
Inductive Source : Type :=
| SrcHop (p : nat) (hop : TransitHop)
| SrcPath (p : nat) (path : Path).

(** The two [handle_path_switch] methods. *)
Definition handle_path_switch (pivot : bytes) (p : nat) : SM unit :=
  smod (fun s => s <| s_current := Some p |> <| s_dead_path := false |> <| s_remote_pivot_txid := pivot |>).

(** [recv_close()] of the session's class. *)
Definition recv_close : SM unit :=
  do s <- sget;
  match s_kind s with
  | OutboundRelaySession => stell EInvalidatePaths
  | OutboundClientSession => stell EInvalidatePaths ;; stell ERefreshCC
  | _ => stell (ECloseSession (s_inbound_tag s))
  end.

(** The decryption of a control message: the plaintext, and whether the pending
    secret of a 1.0.x session was the one that worked. *)
Definition decrypt_control (s : Session) (message nonce : bytes) : option (bytes * bool) :=
  match s_inbound_key s with
  | Some k => (fun m => (m, false)) <$> xchacha20_poly1305_decrypt_inplace message k nonce []
  | None =>
    let first := match s_shared_secret s with
                 | Some k => xchacha20_poly1305_decrypt_inplace message k nonce []
                 | None => None
                 end in
    match first with
    | Some m => Some (m, false)
    | None =>
      let buffer := match s_shared_secret s with Some _ => spoiled message | None => message end in
      match s_pending_shared_secret s with
      | Some k => (fun m => (m, true)) <$> xchacha20_poly1305_decrypt_inplace buffer k nonce []
      | None => None
      end
    end
  end.

(** The [path_switch] branch of [recv_session_control_message]. *)
Definition recv_path_switch (params : bytes) (source : Source) : SM unit :=
  do s <- sget;
  if is_outbound (s_kind s) then sret tt
  else
    do c <- slift (or_throw BT_ERROR (bt_dict_open params));
    do hc <- slift (or_throw BT_ERROR (bt_require_span HOPID_SIZE (str "p") c));
    (if bt_finish hc.2 then sret tt else sthrow BT_ERROR) ;;
    match is_relay_session (s_kind s), source with
    | true, SrcHop p hop =>
      if bool_decide (hc.1 = rxid hop) then handle_path_switch hc.1 p else sret tt
    | false, SrcPath p path =>
      if bool_decide (hc.1 = terminal_hopid path) then sret tt else handle_path_switch hc.1 p
    | _, _ => sthrow "bad_variant_access"
    end.

(** [Session::recv_session_control_message(message, nonce, source)] *)
Definition recv_session_control_message (now steady_now : Z) (nonces : nat -> bytes)
    (message nonce : bytes) (source : Source) : SM unit :=
  smod (fun s => s <| s_last_inbound_activity := now |> <| s_last_activity := now |>) ;;
  do s <- sget;
  match decrypt_control s message nonce with
  | None => sret tt
  | Some (decrypted, used_pending) =>
    do c <- slift (or_throw BT_ERROR (bt_dict_open decrypted));
    do mc <- slift (or_throw BT_ERROR (bt_require_string (str "e") c));
    do pc <- slift (or_throw BT_ERROR (bt_require_string (str "p") mc.2));
    let method := mc.1 in
    let params := pc.1 in
    if bool_decide (method = str "session_accept")
    then handle_session_accept_deprecated now steady_now nonces params
    else if used_pending then sret tt
    else if bool_decide (method = str "session_close") then recv_close
    else if bool_decide (method = str "publish_cc")
    then (if bool_decide (s_kind s = OutboundClientSession) then stell (EClientContact params) else sret tt)
    else if bool_decide (method = str "path_switch") then recv_path_switch params source
    else sret tt
  end.

(** [Session::recv_session_data_message(data, nonce)]; [embedded], [has_tun] are
    the router's, [map_v4] tells whether [_parent.map_session_v4] finds an address. *)
Definition recv_session_data_message (embedded has_tun map_v4 : bool) (now : Z) (data nonce : bytes) : SM unit :=
  smod (fun s => s <| s_last_inbound_activity := now |> <| s_last_activity := now |>) ;;
  do s <- sget;
  match data with
  | [] => sret tt
  | _ =>
    match (match s_inbound_key s with Some k => Some k | None => s_shared_secret s end) with
    | None => sret tt
    | Some key =>
      match xchacha20_poly1305_decrypt_inplace data key nonce [] with
      | None => sret tt
      | Some [] => sret tt
      | Some plain =>
        let dgram_type := List.last plain 0%Z in
        let data := take (length plain - 1) plain in
        if negb (traffic_type_is_valid dgram_type) then sret tt
        else if (dgram_type =? TT_TUNNELED_QUIC)%Z then
          (if s_is_closed s then sret tt else stell (ETunnelPacket data))
        else if embedded && negb (dgram_type =? TT_UDP)%Z then sret tt
        else if bool_decide (length data < MIN_PACKET_SIZE)
        then sthrow "Buffer data is too small for an IP packet!"
        else if embedded then stell (EUdpFromRemote data)
        else
          if is_ipv4 data && negb (s_ipv4_mapped s) then
            if map_v4 then
              smod (fun s => s <| s_ipv4_mapped := true |>) ;;
              (if has_tun then stell (EInboundPacket data dgram_type (s_remote s)) else sret tt)
            else sret tt
          else (if has_tun then stell (EInboundPacket data dgram_type (s_remote s)) else sret tt)
      end
    end
  end.
End Receiving.
