(* ===== verification/SessionPaths.v ===== *)
(** * The paths of outbound sessions (session/session.{hpp,cpp})

    An outbound session is a path handler: it keeps a number of paths to the remote
    (a relay, or the pivots of the remote client's contact), uses one of them, and
    moves to another when that one dies or is about to expire.  [Outbound] is such a
    session with its handler.  All reads of the clock in one call give the same value.
    The iteration order of the table of paths, the random draws and the answers of
    the link layer are arguments. *)

From Stdlib Require Import ZArith Lia.
From stdpp Require Import base list numbers strings gmap.
From coqutil Require Import Datatypes.RecordSettersUsingExistingGetters.
From S2P Require Import Prelude Oxenc Messages Crypto SessionKeys RelayContact Path PathContext PathBuild PathMsg.
From S2P Require Import RcStore NodeDB Profiling HopSelection PathHandler ClientContact Session.

Local Open Scope Z_scope.
Local Open Scope router_scope.

(** ** Constants *)
Definition CC_FETCH_STALE : Z := 10 * 60 * 1000.
Definition CC_FETCH_BACKOFF : Z := 990.
Definition CC_FETCH_BACKOFF_MAX : Z := 10000.
Definition INT_MAX : Z := 2147483647.

(** [protocol_flag::PFS_PQ], [protocol_flag::TCP_TUNNEL], [has_flag] *)
Definition PFS_PQ : Z := 16.
Definition TCP_TUNNEL : Z := 32.
Definition has_flag (flags contains : Z) : bool := Z.land flags contains =? contains.

(** ** State *)

(** What [OutboundClientSession] adds to a session *)
Record ClientPart := mkClientPart {
  cp_intros : list ClientIntro;
  cp_pivots : gset bytes;
  cp_processed : bool;       (* _intro_update_processed *)
  cp_updating : bool;        (* _updating_intros *)
  cp_next_update : Z;        (* _next_cc_update *)
  cp_fail_count : Z;         (* _cc_fetch_fail_count *)
  cp_cc_ok : bool;           (* _cc_ok *)
  cp_last_signed : Z;        (* _cc_last_signed *)
  cp_protos : Z;             (* _cc_protos *)
}.
Definition ClientPart_new : ClientPart := mkClientPart [] ∅ false false 0 0 false 0 0.

Record Outbound := mkOutbound {
  ob_session : Session;
  ob_world : World;
  ob_client : ClientPart;
}.

(** Computes the fields of an updated outbound session. *)
Ltac outbound_cbn :=
  cbn [set RecordSettersUsingExistingGetters.const ob_session ob_world ob_client cp_intros cp_pivots cp_processed
       cp_updating cp_next_update cp_fail_count cp_cc_ok cp_last_signed cp_protos].

(** [router.config().paths] *)
Record PathConf := mkPathConf { min_expiry : Z; acceptable_expiry : Z }.

(** ** The monad of outbound sessions *)
Definition OM (A : Type) : Type := Outbound -> Outbound * list Effect * outcome string A.

Definition oret {A} (a : A) : OM A := fun o => (o, [], Ok a).
Definition obind {A B} (m : OM A) (k : A -> OM B) : OM B := fun o =>
  match m o with
  | (o1, e1, Ok a) => let '(o2, e2, r) := k a o1 in (o2, e1 ++ e2, r)
  | (o1, e1, Throw x) => (o1, e1, Throw x)
  end.
Definition oget : OM Outbound := fun o => (o, [], Ok o).
Definition omod (f : Outbound -> Outbound) : OM unit := fun o => (f o, [], Ok tt).
(** A method of the session, and one of the path handler *)
Definition on_session {A} (m : SM A) : OM A := fun o =>
  let '(s, e, r) := m (ob_session o) in (o <| ob_session := s |>, e, r).
Definition on_world {A} (f : World -> World * outcome string A) : OM A := fun o =>
  let '(w, r) := f (ob_world o) in (o <| ob_world := w |>, [], r).

Notation "'get' x '<-' m ';' k" := (obind m (fun x => k))
  (at level 10, x pattern, m at level 100, k at level 200, right associativity) : router_scope.
Notation "m ';>' k" := (obind m (fun _ => k)) (at level 100, k at level 200, right associativity) : router_scope.

(** The same for code that may not return: [None] when it runs out of fuel *)
Definition DM (A : Type) : Type := Outbound -> option (Outbound * list Effect * outcome string A).
Definition dlift {A} (m : OM A) : DM A := fun o => Some (m o).
Definition dbind {A B} (m : DM A) (k : A -> DM B) : DM B := fun o =>
  match m o with
  | Some (o1, e1, Ok a) =>
    match k a o1 with
    | Some (o2, e2, r) => Some (o2, e1 ++ e2, r)
    | None => None
    end
  | Some (o1, e1, Throw x) => Some (o1, e1, Throw x)
  | None => None
  end.

Section Candidates.
Context (conf : PathConf) (now : Z) (order : list nat).

(** [active_paths()]: the active paths of the table, in its order *)
Definition in_table (w : World) (p : nat) : bool :=
  match path_heap (w_ctx w) !! p with
  | Some path => bool_decide (ph_paths (w_handler w) !! edge_rxid path = Some p)
  | None => false
  end.
Definition active_paths (w : World) : list (nat * Path) :=
  omap (fun p => match path_heap (w_ctx w) !! p with
                 | Some path => if in_table w p && path_is_active now path then Some (p, path) else None
                 | None => None
                 end) order.

(** The loop of [OutboundRelaySession::select_new_current]: the good paths and the fallbacks *)
Definition relay_candidates (w : World) : list (nat * bytes) * list (nat * bytes) :=
  foldl (fun '(good, fallback) '(p, path) =>
    let expires_in := path_expires_in now path in
    if expires_in <? min_expiry conf then (good, fallback)
    else if acceptable_expiry conf <=? expires_in
    then (good ++ [(p, terminal_hopid path)], fallback)
    else (good, fallback ++ [(p, terminal_hopid path)])) ([], []) (active_paths w).

(** The loops of [OutboundClientSession::select_new_current] *)
Definition client_candidates (intros : list ClientIntro) (w : World) : list (nat * bytes) * list (nat * bytes) :=
  foldl (fun '(good, fallback) '(p, path) =>
    let path_expires_in := path_expires_in now path in
    if path_expires_in <? min_expiry conf then (good, fallback)
    else
      foldl (fun '(good, fallback) intro =>
        if negb (bool_decide (ci_relay intro = terminal_rid path)) then (good, fallback)
        else if intro_expires_in now intro <? min_expiry conf then (good, fallback)
        else
          let expires_in := Z.min path_expires_in (intro_expires_in now intro) in
          if acceptable_expiry conf <=? expires_in
          then (good ++ [(p, ci_hop intro)], fallback)
          else (good, fallback ++ [(p, ci_hop intro)])) (good, fallback) intros) ([], []) (active_paths w).

(** The paths [select_new_current_impl(good, fallback)] draws from *)
Definition choices (c : list (nat * bytes) * list (nat * bytes)) : list (nat * bytes) :=
  match c.1 with [] => c.2 | good => good end.

(** The loop of [OutboundSession::close_old_paths]: what it closes, and what it may close *)
Definition old_paths (current : option nat) (w : World) : bool * list Path * list Path :=
  foldl (fun '(found, close_me, maybe_close) '(p, path) =>
    if bool_decide (current = Some p) then (found, close_me, maybe_close)
    else
      let expires_in := path_expires_in now path in
      if acceptable_expiry conf <=? expires_in then (true, close_me, maybe_close)
      else if expires_in <? min_expiry conf then (found, close_me ++ [path], maybe_close)
      else if negb found then (found, close_me, maybe_close ++ [path])
      else (found, close_me, maybe_close)) (false, [], []) (active_paths w).

(** [OutboundSession::close_old_paths(now)] *)
Definition close_old_paths (current : option nat) (w : World) : World :=
  let '(found, close_me, maybe_close) := old_paths current w in
  let w := foldl (fun w path => drop_path path w) w close_me in
  if found : bool then foldl (fun w path => drop_path path w) w maybe_close else w.
End Candidates.

Section Paths.
Context `{Sodium} `{Oxenc} `{BoxKem}.
(** The router: its secret key, its configuration, and what hop selection uses *)
Context (sk : bytes) (conf : PathConf).
Context (env : RouterEnv) (st : RCStore).
Context {Net : Type} (net_of : Address -> Z -> Net) (net_contains : Net -> Address -> bool) (netmask : Z).
Context (rcs_order : list RelayContact) (current_remotes : list bytes).

(** [use_old_init()] of the two classes *)
Definition use_old_init (o : Outbound) : bool :=
  match s_kind (ob_session o) with
  | OutboundClientSession => negb (has_flag (cp_protos (ob_client o)) PFS_PQ)
  | _ =>
    match get_rc st (na_pubkey (s_remote (ob_session o))) with
    | Some rc => bytes_ltb (rc_version rc) [1; 1; 0]
    | None => false
    end
  end.

(** [OutboundClientSession::remote_accepts_tcp()] *)
Definition remote_accepts_tcp (c : ClientPart) : option bool :=
  if cp_protos c =? 0 then None else Some (has_flag (cp_protos c) TCP_TUNNEL).

(** ** Switching paths *)

(** The random draws of [switch_path] *)
Record SwitchDraws := mkSwitchDraws { d_init : InitDraws; d_nonce : bytes }.

(** The path switch request that goes into the session message *)
Definition path_switch_request (path : Path) : bytes :=
  bt_dict_produce [(str "e", BStr (str "path_switch"));
                   (str "p", BStr (bt_dict_produce [(str "p", BStr (terminal_hopid path))]))].

(** The body of the SessionHandshake message: the request with the session init that
    is used when the remote does not know the session any more *)
Definition switch_payload (old_init : bool) (m session_init_msg : bytes) : bytes :=
  if old_init then bt_value (BList [BStr m; BStr session_init_msg])
  else bt_dict_produce [([], BStr (str "s")); (str "S", BStr m); (str "i", BStr session_init_msg)].

(** [OutboundSession::switch_path(path, pivot_hopid)] for the path at [p] *)
Definition switch_path (ctx : PathContext) (old_init : bool) (now : Z) (p : nat) (path : Path) (d : SwitchDraws)
    : SM unit :=
  smod (fun s => s <| s_current := Some p |> <| s_dead_path := false |>
                   <| s_remote_pivot_txid := default (terminal_hopid path) (aligned_hopid path) |>) ;;
  do s <- sget;
  if negb (s_is_established s) then
    do mt <- make_session_init sk old_init path (d_init d);
    send_session_precontrol_message ctx now mt.1 mt.2 (d_nonce d)
  else
    do mt <- make_session_init sk old_init path (d_init d);
    do s <- sget;
    match make_session_message s (path_switch_request path) None true (d_nonce d) with
    | None => sret tt
    | Some (m, nonce) =>
      let nonce := if is_established_pfs s then nonce else buf_xor nonce switch_xor_factor in
      let m := take (length m - (SESSION_TAG_SIZE + HOPID_SIZE)) m in
      let payload := switch_payload old_init m mt.1
                     ++ write_host_as_big SESSION_TAG_SIZE (s_outbound_tag s) ++ s_remote_pivot_txid s in
      send_path_control_message ctx now payload nonce MT_SessionHandshake
    end.

(** [OutboundSession::select_new_current_impl(good, fallback)]; [draw] is the index drawn. *)
Definition select_new_current_impl (now : Z) (c : list (nat * bytes) * list (nat * bytes)) (draw : nat)
    (d : SwitchDraws) : OM unit :=
  get o <- oget;
  match choices c with
  | [] => on_session (smod (fun s => s <| s_current := None |> <| s_dead_path := true |>))
  | good =>
    match good !! (draw mod length good)%nat ≫= fun '(p, _) => pair p <$> path_heap (w_ctx (ob_world o)) !! p with
    | Some (p, path) => on_session (switch_path (w_ctx (ob_world o)) (use_old_init o) now p path d)
    | None => oret tt
    end
  end.

(** [select_new_current()] of the two classes *)
Definition candidates (now : Z) (order : list nat) (o : Outbound) : list (nat * bytes) * list (nat * bytes) :=
  match s_kind (ob_session o) with
  | OutboundClientSession => client_candidates conf now order (cp_intros (ob_client o)) (ob_world o)
  | _ => relay_candidates conf now order (ob_world o)
  end.
Definition select_new_current (now : Z) (order : list nat) (draw : nat) (d : SwitchDraws) : OM unit :=
  get o <- oget; select_new_current_impl now (candidates now order o) draw d.

(** ** Building paths *)

(** The random draws of a build, and what [send_command] returns *)
Record BuildDraws := mkBuildDraws {
  bd_first : nat -> nat;
  bd_other : nat -> nat;
  bd_any : nat -> nat;
  bd_middle : nat -> nat -> nat;
  bd_ids : nat -> bytes;
  bd_hops : nat -> HopRandom;
  bd_junk : bytes;
  bd_sent : bool;
}.

(** [PathHandler::build_path_to_remote(remote, lifetime)] *)
Definition build_path_to_remote (now steady_now : Z) (d : BuildDraws) (remote : bytes) (lifetime : Z) (w : World)
    : World * outcome string (option nat) :=
  match select_hops_to_remote env now st (w_prof w) net_of net_contains netmask rcs_order current_remotes
          (ph_num_hops (w_handler w)) remote (bd_first d) (bd_other d) (bd_any d) (bd_middle d) with
  | Some rcs => build (ed25519_pubkey sk) (bd_ids d) (bd_hops d) (bd_junk d) (bd_sent d) now steady_now rcs
                  (now + lifetime) w
  | None => (w, Ok None)
  end.

(** [PathHandler::cooldown()] *)
Definition handler_cooldown (steady_now : Z) (w : World) : bool :=
  cooldown (ph_failures (w_handler w)) (ph_last_failure (w_handler w)) steady_now.

(** The loop of [OutboundRelaySession::update_paths]; the result is its [count]. *)
Fixpoint relay_build_loop (now steady_now : Z) (draws : nat -> BuildDraws) (remote : bytes) (needed i : nat) (w : World)
    : World * outcome string nat :=
  match needed with
  | O => (w, Ok i)
  | S needed =>
    match build_path_to_remote now steady_now (draws i) remote MAX_LIFETIME w with
    | (w, Ok (Some _)) => relay_build_loop now steady_now draws remote needed (S i) w
    | (w, Ok None) => (w, Ok i)
    | (w, Throw e) => (w, Throw e)
    end
  end.

(** [OutboundRelaySession::update_paths(now)] *)
Definition relay_update_paths (now steady_now : Z) (draws : nat -> BuildDraws) (remote : bytes) (w : World)
    : World * outcome string unit :=
  let needed := ph_target_paths (w_handler w) - Z.of_nat (num_paths now w) in
  if (needed <=? 0) || handler_cooldown steady_now w then (w, Ok tt)
  else
    let '(w, r) := relay_build_loop now steady_now draws remote (Z.to_nat needed) 0 w in
    (w, let! _ := r in Ok tt).

(** ** Client sessions *)

(** One intro of [select_pivot]'s loop; a pivot's entry is the life of a path to it
    and the hop id it is for.  [floor<seconds>] rounds down. *)
Definition pivot_step (now : Z) (w : World) (acc : list (bytes * (Z * bytes)) * Z) (intro : ClientIntro)
    : list (bytes * (Z * bytes)) * Z :=
  let '(select_from, min_path_count) := acc in
  if ci_expiry intro * 1000 <? now + acceptable_expiry conf then (select_from, min_path_count)
  else
    let existing_count :=
      Z.of_nat (length (filter (fun path => bool_decide (terminal_rid path = ci_relay intro)) (all_paths w))) in
    if min_path_count <? existing_count then (select_from, min_path_count)
    else
      let '(select_from, min_path_count) :=
        if existing_count <? min_path_count then ([], existing_count) else (select_from, min_path_count) in
      let exp := Z.min (intro_expires_in now intro / 1000) (MAX_LIFETIME / 1000) in
      match list_find (fun e => e.1 = ci_relay intro) select_from with
      | None => (select_from ++ [(ci_relay intro, (exp, ci_hop intro))], min_path_count)
      | Some (i, (_, (old, _))) =>
        (if old <? exp then <[i := (ci_relay intro, (exp, ci_hop intro))]> select_from else select_from, min_path_count)
      end.

(** [OutboundClientSession::select_pivot()]; [draw] is the random index. *)
Definition select_pivot (now : Z) (intros : list ClientIntro) (draw : nat) (w : World) : option (bytes * (Z * bytes)) :=
  let '(select_from, _) := foldl (pivot_step now w) ([], INT_MAX) intros in
  select_from !! (draw mod length select_from)%nat.

(** The loop of [OutboundClientSession::update_paths]: iteration [i] starts with [count]
    paths.  It only ends when enough builds were started or no pivot is left, so it takes
    a fuel. *)
Fixpoint client_build_loop (fuel : nat) (now steady_now : Z) (intros : list ClientIntro) (pick : nat -> nat)
    (draws : nat -> BuildDraws) (needed count i : nat) (w : World) : option (World * outcome string nat) :=
  match fuel with
  | O => None
  | S fuel =>
    if decide (needed <= count)%nat then Some (w, Ok count)
    else
      match select_pivot now intros (pick i) w with
      | None => Some (w, Ok count)
      | Some (relay, (lifetime, hop)) =>
        match build_path_to_remote now steady_now (draws i) relay (lifetime * 1000) w with
        | (w, Ok (Some p)) =>
          client_build_loop fuel now steady_now intros pick draws needed (S count) (S i)
            (on_ctx (with_path_heap (alter (set_aligned hop) p)) w)
        | (w, Ok None) => client_build_loop fuel now steady_now intros pick draws needed count (S i) w
        | (w, Throw e) => Some (w, Throw e)
        end
      end
  end.

(** A path whose pivot and remote hop id are those of an intro *)
Definition aligned_with (intros : list ClientIntro) (path : Path) : bool :=
  existsb (fun i => bool_decide (ci_relay i = terminal_rid path) && bool_decide (Some (ci_hop i) = aligned_hopid path))
    intros.

(** The paths that new intros make useless are dropped. *)
Definition drop_stale (intros : list ClientIntro) (w : World) : World :=
  foldl (fun w path => drop_path path w) w (filter (fun path => negb (aligned_with intros path)) (all_paths w)).

(** [OutboundClientSession::update_paths(now)] up to the builds: the number of paths that
    are needed *)
Definition client_update_prepare (now steady_now : Z) (order : list nat) (draw : nat) (d : SwitchDraws) : OM Z :=
  get o <- oget;
  let c := ob_client o in
  (if cp_processed c then oret tt
   else omod (fun o => o <| ob_world ::= drop_stale (cp_intros c) |> <| ob_client ::= set cp_processed (fun _ => true) |>)) ;>
  get o <- oget;
  (match s_current (ob_session o) with
   | Some _ =>
     if current_is_dead (w_ctx (ob_world o)) (ob_session o)
     then on_session (smod (fun s => s <| s_current := None |> <| s_dead_path := true |>))
     else oret tt
   | None => oret tt
   end) ;>
  get o <- oget;
  (match s_current (ob_session o) with
   | None => if bool_decide (num_active_paths now now (ob_world o) = 0%nat) then oret tt
             else select_new_current now order draw d
   | Some _ => oret tt
   end) ;>
  get o <- oget;
  let w := ob_world o in
  let needed := ph_target_paths (w_handler w) - Z.of_nat (num_paths (now + acceptable_expiry conf) w) in
  let needed :=
    match s_current (ob_session o) ≫= fun p => path_heap (w_ctx w) !! p with
    | Some path =>
      let curr_expires_in := path_expires_in now path in
      if (min_expiry conf <? curr_expires_in) && (curr_expires_in <? acceptable_expiry conf) then needed - 1 else needed
    | None => needed
    end in
  oret (if (needed <=? 0) || handler_cooldown steady_now w then 0 else needed).

Definition client_update_paths (fuel : nat) (now steady_now : Z) (order : list nat) (draw : nat) (d : SwitchDraws)
    (pick : nat -> nat) (draws : nat -> BuildDraws) : DM unit := fun o =>
  if negb (cp_cc_ok (ob_client o)) then Some (o, [], Ok tt)
  else
    dbind (dlift (client_update_prepare now steady_now order draw d))
      (fun needed o =>
        match client_build_loop fuel now steady_now (cp_intros (ob_client o)) pick draws (Z.to_nat needed) 0 0
                (ob_world o) with
        | Some (w, r) => Some (o <| ob_world := w |>, [], let! _ := r in Ok tt)
        | None => None
        end) o.

(** [OutboundClientSession::update_intros(cc)] up to its call of [update_paths] *)
Definition update_intros (now : Z) (cc : ClientContact) (o : Outbound) : Outbound :=
  o <| ob_session ::= set s_last_inbound_activity (fun _ => now) |>
    <| ob_client ::= fun c =>
         c <| cp_fail_count := 0 |> <| cp_next_update := now + CC_FETCH_STALE |>
           <| cp_last_signed := cc_signed_at cc |> <| cp_protos := cc_protos cc |>
           <| cp_intros := cc_intros cc |> <| cp_pivots := list_to_set (ci_relay <$> cc_intros cc) |> |>.

(** [OutboundClientSession::refresh_intros()]: whether a lookup is started *)
Definition refresh_intros (o : Outbound) : Outbound * bool :=
  if cp_updating (ob_client o) then (o, false)
  else (o <| ob_client ::= set cp_updating (fun _ => true) |>, true).

(** Its callback, and whether it goes on with [update_paths] *)
Definition intros_found (now : Z) (cc : option ClientContact) (o : Outbound) : Outbound * bool :=
  let o := o <| ob_client ::= set cp_updating (fun _ => false) |> in
  match cc with
  | Some cc =>
    if negb (cp_cc_ok (ob_client o)) && (cc_signed_at cc <=? cp_last_signed (ob_client o)) then (o, false)
    else (update_intros now cc (o <| ob_client ::= fun c => c <| cp_cc_ok := true |> <| cp_processed := false |> |>), true)
  | None =>
    let fails := cp_fail_count (ob_client o) + 1 in
    (o <| ob_client ::= fun c =>
           c <| cp_fail_count := fails |>
             <| cp_next_update := now + Z.min (fails * CC_FETCH_BACKOFF) CC_FETCH_BACKOFF_MAX |> |>, false)
  end.

(** [OutboundClientSession::recv_close()] *)
Definition client_recv_close (now : Z) (o : Outbound) : Outbound :=
  o <| ob_world ::= invalidate_paths |> <| ob_client ::= fun c => c <| cp_cc_ok := false |> <| cp_next_update := now |> |>.

(** ** Ticks *)

(** What a tick draws and reads: the clocks, the order of the table, the index drawn for a
    new current path, the pivots picked and the draws of the builds, and whether this is a
    relay, or a client that has its edge connections *)
Record TickDraws := mkTickDraws {
  t_now : Z;
  t_steady : Z;
  t_order : list nat;
  t_draw : nat;
  t_switch : SwitchDraws;
  t_pick : nat -> nat;
  t_builds : nat -> BuildDraws;
  t_connected : bool;
  t_ping_interval : Z;
}.

(** [_parent.close_session(_inbound_tag, false)] closes the session; the endpoint forgets
    it later. *)
Definition close_self (now : Z) : OM unit :=
  get o <- oget;
  on_session (close (w_ctx (ob_world o)) now false [] ;; stell (ECloseSession (s_inbound_tag (ob_session o)))).

(** [Session::tick(now)] *)
Definition session_tick (now : Z) : OM unit :=
  get o <- oget; if session_is_expired (ob_session o) now then close_self now else oret tt.

(** [update_paths(now)] of the two classes *)
Definition update_paths (fuel : nat) (t : TickDraws) : DM unit := fun o =>
  match s_kind (ob_session o) with
  | OutboundClientSession =>
    client_update_paths fuel (t_now t) (t_steady t) (t_order t) (t_draw t) (t_switch t) (t_pick t) (t_builds t) o
  | _ => Some (on_world (relay_update_paths (t_now t) (t_steady t) (t_builds t) (na_pubkey (s_remote (ob_session o)))) o)
  end.

(** [PathHandler::tick(now)]; the pings it sends are the result. *)
Definition handler_tick (fuel : nat) (t : TickDraws) : DM (list nat) :=
  dbind (dlift (omod (fun o => o <| ob_world ::= fun w => (expire_paths (t_now t) w).1 |>))) (fun _ =>
  if negb (t_connected t) then dlift (oret [])
  else
    dbind (fun o => if is_stopped (ob_world o) then Some (o, [], Ok tt) else update_paths fuel t o) (fun _ =>
    dlift (on_world (fun w =>
      let '(w, pings) := ping_paths (t_ping_interval t) (t_now t) (t_steady t)
                           (w <| w_stats ::= stats_update (t_steady t) |>) in
      (w, Ok pings))))).

(** [OutboundSession::tick(now)] *)
Definition outbound_tick (fuel : nat) (t : TickDraws) : DM (list nat) :=
  dbind (dlift (session_tick (t_now t))) (fun _ o =>
  if s_is_closed (ob_session o) then Some (o, [], Ok [])
  else if s_unreachable (ob_session o) then dbind (dlift (close_self (t_now t))) (fun _ => dlift (oret [])) o
  else
    dbind (dlift (omod (fun o => o <| ob_world ::= close_old_paths conf (t_now t) (t_order t) (s_current (ob_session o)) |>)))
      (fun _ => dbind (handler_tick fuel t)
      (fun pings => dbind (dlift (on_session (fire_waiting (t_steady t)))) (fun _ => dlift (oret pings)))) o).

(** [OutboundClientSession::tick(now)]: also whether a lookup of the contact is started *)
Definition client_tick (fuel : nat) (t : TickDraws) : DM (list nat * bool) :=
  dbind (outbound_tick fuel t) (fun pings o =>
  let c := ob_client o in
  if s_is_closed (ob_session o) then Some (o, [], Ok (pings, false))
  else if negb (cp_updating c)
          && ((cp_next_update c <=? t_now t) || (30000 <? t_now t - s_last_inbound_activity (ob_session o)))
  then let '(o, b) := refresh_intros o in Some (o, [], Ok (pings, b))
  else Some (o, [], Ok (pings, false))).

(** The response to a build, with [OutboundSession::on_path_build_success] *)
Definition session_build_response (now steady_now : Z) (order : list nat) (draw : nat) (d : SwitchDraws) (id : Z)
    (response : option bool) : OM unit :=
  get o <- oget;
  let pending := w_pending (ob_world o) !! id in
  on_world (fun w => (build_response now steady_now id response w, Ok tt)) ;>
  get o <- oget;
  match pending, response with
  | Some _, Some true =>
    if current_is_dead (w_ctx (ob_world o)) (ob_session o) then select_new_current now order draw d else oret tt
  | _, _ => oret tt
  end.
End Paths.

(** ** Dropping some paths *)
Abbreviation drops := (foldl (fun w path => drop_path path w)).

Lemma drop_path_other path0 w p path : ph_inv w -> path_heap (w_ctx w) !! p = Some path ->
  edge_rxid path <> edge_rxid path0 ->
  path_heap (w_ctx (drop_path path0 w)) !! p = Some path /\ in_table (drop_path path0 w) p = in_table w p.
Proof.
  intros Hw Hp Hne. assert (path_heap (w_ctx (drop_path path0 w)) !! p = Some path) as Hp'.
  { unfold drop_path, drop_path_ctx. world_cbn. destruct (path_map (w_ctx w) !! edge_rxid path0) as [q|] eqn:Eq; [|done].
    destruct (inv_map w Hw _ _ Eq) as (x & Hx & Ex & _). world_cbn.
    rewrite lookup_alter_ne; [done|]. intros ->. congruence. }
  split; [done|]. unfold in_table. rewrite Hp', Hp. unfold drop_path. world_cbn. by rewrite lookup_delete_ne.
Qed.

Lemma drop_path_gone path0 w p path : path_heap (w_ctx (drop_path path0 w)) !! p = Some path ->
  edge_rxid path = edge_rxid path0 -> in_table (drop_path path0 w) p = false.
Proof.
  intros Hp He. unfold in_table. rewrite Hp, He. unfold drop_path. world_cbn.
  rewrite lookup_delete_eq. by apply bool_decide_false.
Qed.

Lemma drops_inv L w : ph_inv w -> ph_inv (drops w L).
Proof. revert w. induction L as [|x L IH]; intros w Hw; [done|]. by apply IH, ph_inv_drop. Qed.

Lemma drops_frame L w p path : ph_inv w -> path_heap (w_ctx w) !! p = Some path ->
  edge_rxid path ∉ edge_rxid <$> L ->
  path_heap (w_ctx (drops w L)) !! p = Some path /\ in_table (drops w L) p = in_table w p.
Proof.
  revert w. induction L as [|x L IH]; intros w Hw Hp Hn; [done|]. cbn [foldl].
  rewrite fmap_cons, not_elem_of_cons in Hn. destruct Hn as [Hx Hn].
  destruct (drop_path_other x w p path Hw Hp Hx) as [Hp1 Ht1].
  destruct (IH (drop_path x w)) as [Hp2 Ht2]; [by apply ph_inv_drop|done..|]. by rewrite Ht2.
Qed.

Lemma drops_same_edges L w : same_edges w (drops w L).
Proof.
  revert w. induction L as [|x L IH]; intros w p; [done|]. cbn [foldl]. rewrite (IH _ p). apply same_edges_drop.
Qed.

(** A path out of the table stays out of it. *)
Lemma drops_not_in L w p : in_table w p = false -> in_table (drops w L) p = false.
Proof.
  revert w. induction L as [|x L IH]; intros w Hw; [done|]. cbn [foldl]. apply IH.
  unfold in_table in *. pose proof (same_edges_drop x w p) as He.
  destruct (path_heap (w_ctx (drop_path x w)) !! p) as [path'|]; [|done].
  destruct (path_heap (w_ctx w) !! p) as [path|]; [|done]. injection He as He.
  apply bool_decide_eq_false in Hw. apply bool_decide_false. rewrite He. unfold drop_path. world_cbn.
  rewrite lookup_delete_Some. tauto.
Qed.

Lemma drops_gone L w p path : path_heap (w_ctx w) !! p = Some path -> edge_rxid path ∈ edge_rxid <$> L ->
  in_table (drops w L) p = false.
Proof.
  revert w path. induction L as [|x L IH]; intros w path Hp Hin; [by apply elem_of_nil in Hin|]. cbn [foldl].
  pose proof (same_edges_drop x w p) as He. rewrite Hp in He.
  destruct (path_heap (w_ctx (drop_path x w)) !! p) as [path'|] eqn:Ep'; [|done]. injection He as He.
  rewrite fmap_cons, elem_of_cons in Hin. destruct Hin as [Hx|Hin].
  - apply drops_not_in. eapply drop_path_gone; [exact Ep' | congruence].
  - eapply IH; [exact Ep' | by rewrite He].
Qed.

(** The active paths after some were dropped *)
Lemma active_after_drops now order L w : ph_inv w ->
  active_paths now order (drops w L) = filter (fun pp => edge_rxid pp.2 ∉ edge_rxid <$> L) (active_paths now order w).
Proof.
  intros Hw. unfold active_paths. induction order as [|p order IH]; [done|]. cbn [omap list_omap].
  destruct (path_heap (w_ctx w) !! p) as [path|] eqn:Ep.
  - destruct (decide (edge_rxid path ∈ edge_rxid <$> L)) as [Hin|Hin].
    + rewrite (drops_gone L w p path Ep Hin). cbn [andb]. pose proof (drops_same_edges L w p) as He. rewrite Ep in He.
      destruct (path_heap (w_ctx (drops w L)) !! p); [|done]. destruct (in_table w p && path_is_active now path); [|done].
      rewrite filter_cons, decide_False by (by intros Hn). exact IH.
    + destruct (drops_frame L w p path Hw Ep Hin) as [-> ->]. destruct (in_table w p && path_is_active now path); [|done].
      rewrite filter_cons, decide_True by done. f_equal. exact IH.
  - pose proof (drops_same_edges L w p) as He. rewrite Ep in He.
    destruct (path_heap (w_ctx (drops w L)) !! p); [done|]. exact IH.
Qed.

Lemma active_spec now order w p path : (p, path) ∈ active_paths now order w ->
  path_heap (w_ctx w) !! p = Some path /\ path_is_active now path = true /\ in_table w p = true.
Proof.
  unfold active_paths. intros (q & Hq & Hf)%list_elem_of_omap. destruct (path_heap (w_ctx w) !! q) as [x|] eqn:Ex; [|done].
  destruct (in_table w q) eqn:Et; [|done]. destruct (path_is_active now x) eqn:Ea; [|done].
  cbn [andb] in Hf. by simplify_eq.
Qed.

(** ** Old paths *)
Section OldPaths.
Context (conf : PathConf) (now : Z).

Abbreviation left pp := (path_expires_in now pp.2).
Definition usable (pp : nat * Path) : bool := negb (left pp <? min_expiry conf).
Definition acceptable (pp : nat * Path) : bool := acceptable_expiry conf <=? left pp.
Definition with_hop (pp : nat * Path) : nat * bytes := (pp.1, terminal_hopid pp.2).

Lemma relay_candidates_spec order w :
  relay_candidates conf now order w =
  (with_hop <$> filter (fun pp => usable pp && acceptable pp) (active_paths now order w),
   with_hop <$> filter (fun pp => usable pp && negb (acceptable pp)) (active_paths now order w)).
Proof.
  unfold relay_candidates. generalize (active_paths now order w). intros l.
  assert (forall g f, foldl (fun '(good, fallback) '(p, path) =>
      let expires_in := path_expires_in now path in
      if expires_in <? min_expiry conf then (good, fallback)
      else if acceptable_expiry conf <=? expires_in then (good ++ [(p, terminal_hopid path)], fallback)
      else (good, fallback ++ [(p, terminal_hopid path)])) (g, f) l =
    (g ++ (with_hop <$> filter (fun pp => usable pp && acceptable pp) l),
     f ++ (with_hop <$> filter (fun pp => usable pp && negb (acceptable pp)) l))) as Hl; [|apply Hl].
  induction l as [|[p path] l IH]; intros g f; [by rewrite !app_nil_r|]. cbn [foldl].
  rewrite !filter_cons.
  destruct (usable (p, path)) eqn:Eu, (acceptable (p, path)) eqn:Ea; cbn [negb andb];
    unfold usable in Eu; unfold acceptable in Ea; cbn [snd] in Eu, Ea;
    rewrite ?negb_true_iff, ?negb_false_iff in Eu; rewrite Eu, ?Ea;
    rewrite IH; repeat first [rewrite decide_True by done | rewrite decide_False by (by intros [])];
    try done; cbn; by rewrite <- app_assoc.
Qed.

Lemma old_paths_spec order current w found close_me maybe_close :
  old_paths conf now order current w = (found, close_me, maybe_close) ->
  (found = true <-> exists pp, pp ∈ active_paths now order w /\ current <> Some pp.1 /\ acceptable pp = true) /\
  (forall path, path ∈ close_me -> exists p, (p, path) ∈ active_paths now order w /\ current <> Some p
     /\ acceptable (p, path) = false /\ usable (p, path) = false) /\
  (forall path, path ∈ maybe_close -> exists p, (p, path) ∈ active_paths now order w /\ current <> Some p
     /\ acceptable (p, path) = false).
Proof.
  unfold old_paths. generalize (active_paths now order w). intros l. revert found close_me maybe_close.
  induction l as [|[p path] l IH] using rev_ind; intros found close_me maybe_close Hf.
  - cbn in Hf. simplify_eq. split; [|set_solver]. split; [done|]. by intros (? & Hin%elem_of_nil & _).
  - rewrite foldl_app in Hf. destruct (foldl _ _ l) as [[f0 c0] m0] eqn:E0. cbn [foldl] in Hf.
    destruct (IH f0 c0 m0 eq_refl) as (IHf & IHc & IHm). clear IH E0.
    assert (forall pp P, (exists x, x ∈ l ++ [pp] /\ P x) <-> (exists x, x ∈ l /\ P x) \/ P pp) as Hex by set_solver.
    assert (forall (P : nat -> Prop) x, (exists q, (q, x) ∈ l /\ P q) -> exists q, (q, x) ∈ l ++ [(p, path)] /\ P q)
      as Hmono by set_solver.
    assert (forall (P : nat -> Prop), P p -> exists q, (q, path) ∈ l ++ [(p, path)] /\ P q) as Hlast by set_solver.
    case_bool_decide as Hcur.
    { injection Hf as <- <- <-. rewrite Hex. cbn [fst]. split; [rewrite IHf; tauto|]. split; eauto. }
    destruct (acceptable_expiry conf <=? path_expires_in now path) eqn:Ea.
    { injection Hf as <- <- <-. split; [|split; eauto]. split; [|done]. intros _. apply Hex. right. done. }
    assert (forall b, f0 = b -> b = true <-> exists pp, pp ∈ l ++ [(p, path)] /\ current <> Some pp.1 /\ acceptable pp = true)
      as Hfound.
    { intros b <-. rewrite Hex, IHf. unfold acceptable at 3. cbn [fst snd]. rewrite Ea. intuition congruence. }
    destruct (path_expires_in now path <? min_expiry conf) eqn:Em.
    { injection Hf as <- <- <-. split; [by apply Hfound|]. split; [|by eauto].
      intros x [Hx| ->%list_elem_of_singleton]%elem_of_app; [by eauto|]. apply Hlast. unfold acceptable, usable.
      cbn [snd]. rewrite Ea, Em. done. }
    destruct f0; cbn [negb] in Hf; injection Hf as <- <- <-; (split; [by apply Hfound|]); (split; [by eauto|]); [by eauto|].
    intros x [Hx| ->%list_elem_of_singleton]%elem_of_app; [by eauto|]. apply Hlast. unfold acceptable. cbn [snd].
    rewrite Ea. done.
Qed.

(** What [close_old_paths] drops: never the current path or one with enough life left,
    and one that could still be used only when there is a better one *)
Lemma close_old_paths_drops order current w : exists L,
  close_old_paths conf now order current w = drops w L /\
  forall path, path ∈ L -> exists p, (p, path) ∈ active_paths now order w /\ current <> Some p
    /\ acceptable (p, path) = false
    /\ (usable (p, path) = true -> exists pp, pp ∈ active_paths now order w /\ acceptable pp = true).
Proof.
  unfold close_old_paths. destruct (old_paths conf now order current w) as [[found close_me] maybe_close] eqn:Eo.
  destruct (old_paths_spec _ _ _ _ _ _ Eo) as (Hf & Hc & Hm).
  exists (close_me ++ if found then maybe_close else []). split.
  - rewrite foldl_app. by destruct found.
  - intros path [Hin|Hin]%elem_of_app.
    + destruct (Hc path Hin) as (p & ? & ? & ? & Hu). exists p. rewrite Hu. done.
    + destruct found; [|by apply elem_of_nil in Hin]. destruct (Hm path Hin) as (p & ? & ? & ?).
      exists p. split_and!; [done..|]. intros _. destruct (proj1 Hf eq_refl) as (pp & ? & _ & ?). eauto.
Qed.

(** An active path that is not dropped keeps its edge id to itself. *)
Lemma not_dropped order w (P : nat * Path -> Prop) (L : list Path) pp : ph_inv w ->
  (forall path, path ∈ L -> exists p, (p, path) ∈ active_paths now order w /\ P (p, path)) ->
  pp ∈ active_paths now order w -> ~ P pp -> edge_rxid pp.2 ∉ edge_rxid <$> L.
Proof.
  intros Hw HL Hpp HP (path & He & Hin)%list_elem_of_fmap. destruct (HL path Hin) as (q & Hq & HPq).
  destruct pp as [p path0]. apply active_spec in Hpp as (Hp & _), Hq as (Hq & _).
  pose proof (inv_unique w Hw p q path0 path Hp Hq He) as <-. rewrite Hp in Hq. by simplify_eq.
Qed.

Lemma filter_filter_same {A} (P Q : A -> Prop) `{!forall x, Decision (P x), !forall x, Decision (Q x)} (l : list A) :
  (forall x, x ∈ l -> Q x -> P x) -> filter Q (filter P l) = filter Q l.
Proof.
  induction l as [|x l IH]; intros Hl; [done|]. rewrite !filter_cons.
  destruct (decide (P x)) as [Hp|Hp], (decide (Q x)) as [Hq|Hq]; rewrite ?filter_cons;
    rewrite ?(decide_True _ _ Hq), ?(decide_False _ _ Hq), ?IH by set_solver; try done.
  exfalso. apply Hp, Hl; [by left | done].
Qed.
End OldPaths.

(** C10. Closing the old paths of a session to a relay leaves it everything it could need:
    the path in use stays as it is, and a new current path would be drawn from exactly
    the same paths as before, whatever the order of the table. *)
Theorem close_old_paths_keeps_choices `{Sodium} `{Oxenc} conf now order current w :
  ph_reachable w -> min_expiry conf <= acceptable_expiry conf ->
  choices (relay_candidates conf now order (close_old_paths conf now order current w))
    = choices (relay_candidates conf now order w)
  /\ (forall p, current = Some p -> p ∈ (active_paths now order w).*1 ->
       p ∈ (active_paths now order (close_old_paths conf now order current w)).*1).
Proof.
  intros Hw%ph_reachable_inv Hconf. destruct (close_old_paths_drops conf now order current w) as (L & -> & HL).
  assert (forall pp, pp ∈ active_paths now order w -> acceptable conf now pp = true \/ current = Some pp.1 ->
    edge_rxid pp.2 ∉ edge_rxid <$> L) as Hkeep.
  { intros pp Hpp Hor. eapply (not_dropped now order w (fun pp => current <> Some pp.1 /\ acceptable conf now pp = false));
      [done| |done|].
    - intros path Hin. destruct (HL path Hin) as (p & ? & ? & ? & _). eauto.
    - intros [? ?]. destruct Hor; congruence. }
  split.
  - rewrite !relay_candidates_spec, active_after_drops by done. unfold choices. cbn [fst snd].
    rewrite (filter_filter_same _ (fun pp => usable conf now pp && acceptable conf now pp)).
    2: { intros pp Hpp [_ Ha]%andb_True. apply Hkeep; [done|]. left. by apply Is_true_true. }
    case_match eqn:Eg; [|done]. apply fmap_nil_inv in Eg. f_equal. apply filter_filter_same.
    intros pp Hpp [Hu Hn]%andb_True (path & He & Hin)%list_elem_of_fmap.
    destruct (HL path Hin) as (q & Hq & _ & _ & Hbetter). destruct pp as [p path0].
    pose proof (proj1 (active_spec _ _ _ _ _ Hpp)) as Hp. pose proof (proj1 (active_spec _ _ _ _ _ Hq)) as Hq'.
    pose proof (inv_unique w Hw p q path0 path Hp Hq' He) as <-. rewrite Hp in Hq'. simplify_eq.
    destruct Hbetter as (pp & Hin' & Ha'); [by apply Is_true_true|].
    assert (pp ∈ filter (fun pp => usable conf now pp && acceptable conf now pp) (active_paths now order w)) as Habs.
    { apply list_elem_of_filter. split; [|done]. apply andb_True. split; [|by apply Is_true_true].
      unfold acceptable in Ha'. apply Is_true_true, negb_true_iff, Z.ltb_ge. apply Z.leb_le in Ha'. lia. }
    rewrite Eg in Habs. by apply elem_of_nil in Habs.
  - intros p -> ([p' path] & -> & Hpp)%list_elem_of_fmap. rewrite active_after_drops by done.
    apply list_elem_of_fmap. exists (p', path). split; [done|]. apply list_elem_of_filter. split; [|done].
    apply (Hkeep (p', path)); [done|]. by right.
Qed.

Lemma close_old_paths_keeps_choices_witness :
  choices (relay_candidates (mkPathConf 60000 300000) 100 [0%nat]
    (close_old_paths (mkPathConf 60000 300000) 100 [0%nat] None HandlerDemo.built))
  = [(0%nat, terminal_hopid HandlerDemo.path)].
Proof.
  transitivity (choices (relay_candidates (mkPathConf 60000 300000) 100 [0%nat] HandlerDemo.built)).
  - apply (@close_old_paths_keeps_choices toy bencode (mkPathConf 60000 300000) 100 [0%nat] None HandlerDemo.built
      HandlerDemo.built_reachable). cbn. lia.
  - vm_compute. reflexivity.
Defined.

(** ** Pivots *)
Section Pivots.
Context (conf : PathConf) (now : Z) (w : World).

(** An intro with enough life left, the life of a path to it, and the paths there are to a relay *)
Definition eligible (i : ClientIntro) : bool := negb (ci_expiry i * 1000 <? now + acceptable_expiry conf).
Definition pivot_life (i : ClientIntro) : Z := Z.min (intro_expires_in now i / 1000) (MAX_LIFETIME / 1000).
Definition paths_to (relay : bytes) : Z :=
  Z.of_nat (length (filter (fun path => bool_decide (terminal_rid path = relay)) (all_paths w))).

Record pivot_core (pre : list ClientIntro) (sf : list (bytes * (Z * bytes))) (m : Z) : Prop := {
  pv_nodup : NoDup sf.*1;
  pv_least i : i ∈ pre -> eligible i = true ->
    m <= paths_to (ci_relay i)
    /\ (paths_to (ci_relay i) = m -> exists e h, (ci_relay i, (e, h)) ∈ sf /\ pivot_life i <= e);
  pv_entry r e h : (r, (e, h)) ∈ sf ->
    paths_to r = m /\ exists i, i ∈ pre /\ eligible i = true /\ ci_relay i = r /\ ci_hop i = h /\ pivot_life i = e;
  pv_max : m <= INT_MAX;
}.
Record pivot_inv (pre : list ClientIntro) (sf : list (bytes * (Z * bytes))) (m : Z) : Prop := {
  pv_core : pivot_core pre sf m;
  pv_some i : i ∈ pre -> eligible i = true -> sf <> [];
  pv_none : sf = [] -> m = INT_MAX;
}.

(** Changing the entry of a key in a list without duplicate keys *)
Lemma elem_of_insert_key {A} (sf : list (bytes * A)) j r (old new : A) x :
  NoDup sf.*1 -> sf !! j = Some (r, old) ->
  x ∈ <[j := (r, new)]> sf <-> x = (r, new) \/ x ∈ sf /\ x.1 <> r.
Proof.
  intros Hnd Ej. pose proof (lookup_lt_Some _ _ _ Ej) as Hj. rewrite !list_elem_of_lookup. split.
  - intros [k Hk]. destruct (decide (j = k)) as [<-|Hjk].
    + rewrite list_lookup_insert_eq in Hk by done. left. congruence.
    + rewrite list_lookup_insert_ne in Hk by done. right. split; [by exists k|]. intros Hr. apply Hjk.
      eapply (NoDup_lookup _ _ _ r Hnd); rewrite list_lookup_fmap; [by rewrite Ej|]. rewrite Hk. cbn. by rewrite Hr.
  - intros [->|[[k Hk] Hne]]; [exists j; by rewrite list_lookup_insert_eq|].
    exists k. rewrite list_lookup_insert_ne; [done|]. intros <-. rewrite Ej in Hk. by simplify_eq.
Qed.

Lemma key_unique {A} (sf : list (bytes * A)) r (a b : A) : NoDup sf.*1 -> (r, a) ∈ sf -> (r, b) ∈ sf -> a = b.
Proof.
  intros Hnd [j Ha]%list_elem_of_lookup [k Hb]%list_elem_of_lookup.
  assert (j = k) as ->; [|rewrite Ha in Hb; by simplify_eq].
  eapply (NoDup_lookup _ _ _ r Hnd); rewrite list_lookup_fmap; [by rewrite Ha | by rewrite Hb].
Qed.

(** A list of entries that holds those of [sf], with the one of [i]'s relay at least [i]'s *)
Lemma pivot_inv_update pre sf sf' m i :
  pivot_core pre sf m -> eligible i = true -> paths_to (ci_relay i) = m -> NoDup sf'.*1 ->
  (forall x, x ∈ sf' -> x ∈ sf \/ x = (ci_relay i, (pivot_life i, ci_hop i))) ->
  (forall r e h, (r, (e, h)) ∈ sf -> exists e' h', (r, (e', h')) ∈ sf' /\ e <= e') ->
  (exists e h, (ci_relay i, (e, h)) ∈ sf' /\ pivot_life i <= e) ->
  pivot_inv (pre ++ [i]) sf' m.
Proof.
  intros [I1 I2 I3 I5] Hi Hc Hnd Hnew Hold Hself.
  assert (sf' <> []) as Hne by (intros ->; destruct Hself as (? & ? & []%elem_of_nil & _)). split; [split|done..].
  - done.
  - intros i' [Hi'| ->%list_elem_of_singleton]%elem_of_app He; [|split; [lia|done]].
    destruct (I2 i' Hi' He) as [Hle Hex]. split; [done|]. intros Hm. destruct (Hex Hm) as (e & h & Hin & Hl).
    destruct (Hold _ _ _ Hin) as (e' & h' & ? & ?). exists e', h'. split; [done|lia].
  - intros r e h [Hx|Hx]%Hnew; [|simplify_eq; split; [done|]; exists i; set_solver].
    destruct (I3 r e h Hx) as (? & i' & ? & ?). split; [done|]. exists i'. set_solver.
  - done.
Qed.

(** Adding an intro to the entries, when it has as few paths as they have *)
Lemma pivot_inv_add pre sf m i : pivot_inv pre sf m -> eligible i = true -> paths_to (ci_relay i) = m ->
  pivot_inv (pre ++ [i])
    (match list_find (fun e => e.1 = ci_relay i) sf with
     | None => sf ++ [(ci_relay i, (pivot_life i, ci_hop i))]
     | Some (j, (_, (old, _))) =>
       if old <? pivot_life i then <[j := (ci_relay i, (pivot_life i, ci_hop i))]> sf else sf
     end) m.
Proof.
  intros [Hinv _ _] Hi Hc. pose proof (pv_nodup _ _ _ Hinv) as Hnd. apply (pivot_inv_update _ sf); [done..| | | |].
  all: destruct (list_find _ sf) as [[j [r [old h]]]|] eqn:Ef; [apply list_find_Some in Ef as (Ej & Er & _); cbn in Er; subst r|
    apply list_find_None in Ef; rewrite Forall_forall in Ef].
  all: try destruct (Z.ltb_spec old (pivot_life i)) as [Hlt|Hge].
  - rewrite list_fmap_insert. cbn [fst]. rewrite list_insert_id; [done|]. by rewrite list_lookup_fmap, Ej.
  - done.
  - rewrite fmap_app. apply NoDup_app. split; [done|]. split; [|apply NoDup_singleton].
    intros r (x & -> & Hx)%list_elem_of_fmap Hr%list_elem_of_singleton. by apply (Ef x Hx).
  - intros x [->|[? _]]%(elem_of_insert_key _ _ _ _ _ _ Hnd Ej); auto.
  - auto.
  - set_solver.
  - intros r e h' Hin. destruct (decide (r = ci_relay i)) as [->|Hr].
    + exists (pivot_life i), (ci_hop i). rewrite (elem_of_insert_key _ _ _ _ _ _ Hnd Ej). split; [by left|].
      pose proof (key_unique _ _ _ _ Hnd Hin (list_elem_of_lookup_2 _ _ _ Ej)). simplify_eq. lia.
    + exists e, h'. rewrite (elem_of_insert_key _ _ _ _ _ _ Hnd Ej). split; [by right|lia].
  - intros r e h' Hin. exists e, h'. split; [done|lia].
  - intros r e h' Hin. exists e, h'. split; [set_solver|lia].
  - exists (pivot_life i), (ci_hop i). rewrite (elem_of_insert_key _ _ _ _ _ _ Hnd Ej). split; [by left|lia].
  - exists old, h. split; [by eapply list_elem_of_lookup_2|lia].
  - exists (pivot_life i), (ci_hop i). split; [set_solver|lia].
Qed.

Lemma pivot_inv_skip pre sf m i : pivot_inv pre sf m -> (eligible i = true -> m < paths_to (ci_relay i) /\ sf <> []) ->
  pivot_inv (pre ++ [i]) sf m.
Proof.
  intros [[I1 I2 I3 I5] I4 I6] Hi. split; [split; [done| | |done]| |done].
  - intros i' [Hi'| ->%list_elem_of_singleton]%elem_of_app He; [by apply I2|]. destruct (Hi He). lia.
  - intros r e h Hx. destruct (I3 r e h Hx) as (? & i' & ? & ?). split; [done|]. exists i'. set_solver.
  - intros i' [Hi'| ->%list_elem_of_singleton]%elem_of_app He; [by eapply I4|]. by apply Hi.
Qed.

Lemma pivot_inv_step pre sf m i : Z.of_nat (length (all_paths w)) <= INT_MAX -> pivot_inv pre sf m ->
  let '(sf', m') := pivot_step conf now w (sf, m) i in pivot_inv (pre ++ [i]) sf' m'.
Proof.
  intros Hlen Hinv. unfold pivot_step. fold (paths_to (ci_relay i)) (pivot_life i).
  assert (paths_to (ci_relay i) <= INT_MAX) as Hmax.
  { unfold paths_to. pose proof (length_filter (fun path => bool_decide (terminal_rid path = ci_relay i)) (all_paths w)). lia. }
  destruct (ci_expiry i * 1000 <? now + acceptable_expiry conf) eqn:Ee.
  { apply pivot_inv_skip; [done|]. unfold eligible. by rewrite Ee. }
  assert (eligible i = true) as Hi by (unfold eligible; by rewrite Ee).
  destruct (Z.ltb_spec m (paths_to (ci_relay i))) as [Hlt|Hge].
  { apply pivot_inv_skip; [done|]. intros _. split; [done|]. intros ->. pose proof (pv_none _ _ _ Hinv eq_refl). lia. }
  destruct (Z.ltb_spec (paths_to (ci_relay i)) m) as [Hlt|Heq].
  - cbn [list_find]. apply (pivot_inv_update _ [] _ _ i); [|done|done| | | |].
    + split; [constructor| |by intros ??? []%elem_of_nil|lia].
      intros i' Hi' He. destruct (pv_least _ _ _ (pv_core _ _ _ Hinv) i' Hi' He). split; [lia|]. intros. lia.
    + apply NoDup_singleton.
    + set_solver.
    + set_solver.
    + exists (pivot_life i), (ci_hop i). split; [set_solver|lia].
  - pose proof (pivot_inv_add _ _ _ i Hinv Hi ltac:(lia)) as Hadd.
    destruct (list_find _ sf) as [[j [r [old h]]]|]; exact Hadd.
Qed.

Lemma select_from_inv intros : Z.of_nat (length (all_paths w)) <= INT_MAX ->
  let '(sf, m) := foldl (pivot_step conf now w) ([], INT_MAX) intros in pivot_inv intros sf m.
Proof.
  intros Hlen. induction intros as [|i l IH] using rev_ind.
  - cbn. split; [split; [constructor|by intros ? []%elem_of_nil|by intros ??? []%elem_of_nil|lia]|by intros ? []%elem_of_nil|done].
  - rewrite foldl_app. destruct (foldl _ _ l) as [sf m]. cbn [foldl]. by apply pivot_inv_step.
Qed.
End Pivots.

(** The pivot for a new path of a client session is the relay of one of the contact's
    intros with enough life left, has the fewest paths of all such relays, and is used
    with the longest-lived of its intros, for no longer than that lives; there is none
    exactly when no intro has enough life left. *)
Theorem select_pivot_spec conf now intros draw w : Z.of_nat (length (all_paths w)) <= INT_MAX ->
  match select_pivot conf now intros draw w with
  | Some (relay, (life, hop)) =>
    (exists i, i ∈ intros /\ eligible conf now i = true /\ ci_relay i = relay /\ ci_hop i = hop /\ life = pivot_life now i
       /\ now + life * 1000 <= ci_expiry i * 1000)
    /\ forall i, i ∈ intros -> eligible conf now i = true ->
         paths_to w relay <= paths_to w (ci_relay i) /\ (ci_relay i = relay -> pivot_life now i <= life)
  | None => forall i, i ∈ intros -> eligible conf now i = false
  end.
Proof.
  intros Hlen. unfold select_pivot. pose proof (select_from_inv conf now w intros Hlen) as Hinv.
  destruct (foldl _ _ intros) as [sf m]. destruct (sf !! (draw mod length sf)%nat) as [[r [life hop]]|] eqn:Ed.
  - apply list_elem_of_lookup_2 in Ed. destruct Hinv as [Hcore _ _]. destruct (pv_entry _ _ _ _ _ _ Hcore _ _ _ Ed) as
      (Hm & i & Hi & He & Hr & Hh & Hl). split.
    + exists i. split_and!; try done. subst life. unfold pivot_life, intro_expires_in.
      pose proof (Z.mul_div_le (ci_expiry i * 1000 - now) 1000 ltac:(lia)). lia.
    + intros i' Hi' He'. destruct (pv_least _ _ _ _ _ _ Hcore i' Hi' He') as [Hle Hex]. split; [lia|]. intros Hr'.
      destruct Hex as (e & h & Hin & Hle'); [congruence|]. rewrite Hr' in Hin.
      pose proof (key_unique _ _ _ _ (pv_nodup _ _ _ _ _ _ Hcore) Hin Ed). by simplify_eq.
  - intros i Hi. destruct (eligible conf now i) eqn:He; [|done]. exfalso.
    apply (pv_some _ _ _ _ _ _ Hinv i Hi He). destruct sf as [|x sf]; [done|]. apply lookup_ge_None in Ed.
    pose proof (Nat.mod_upper_bound draw (length (x :: sf)) ltac:(done)). lia.
Qed.

Definition pivot_intros : list ClientIntro :=
  [mkIntro [1] [11] 1000; mkIntro [2] [22] 1100; mkIntro [1] [12] 1200; mkIntro [3] [33] 100].

Lemma select_pivot_spec_witness :
  select_pivot (mkPathConf 60000 300000) 0 pivot_intros 2 HandlerDemo.start = Some ([1], (1200, [12]))
  /\ forall i, i ∈ pivot_intros -> eligible (mkPathConf 60000 300000) 0 i = true ->
       paths_to HandlerDemo.start [1] <= paths_to HandlerDemo.start (ci_relay i)
       /\ (ci_relay i = [1] -> pivot_life 0 i <= 1200).
Proof.
  assert (select_pivot (mkPathConf 60000 300000) 0 pivot_intros 2 HandlerDemo.start = Some ([1], (1200, [12]))) as E
    by (vm_compute; reflexivity).
  split; [exact E|]. pose proof (select_pivot_spec (mkPathConf 60000 300000) 0 pivot_intros 2 HandlerDemo.start) as Hs.
  rewrite E in Hs. apply Hs. vm_compute. discriminate.
Defined.

(** ** The loops that start builds *)
Section Builds.
Context `{Sodium} `{Oxenc}.
Context (sk : bytes) (conf : PathConf) (env : RouterEnv) (st : RCStore).
Context {Net : Type} (net_of : Address -> Z -> Net) (net_contains : Net -> Address -> bool) (netmask : Z).
Context (rcs_order : list RelayContact) (current_remotes : list bytes).
Abbreviation client_loop := (client_build_loop sk conf env st net_of net_contains netmask rcs_order current_remotes).
Abbreviation build_to := (build_path_to_remote sk env st net_of net_contains netmask rcs_order current_remotes).

(** When every build is started, or throws, the loop ends. *)
Lemma client_loop_ends now steady intros pick draws needed count i w fuel :
  (forall d relay life w, (build_to now steady d relay life w).2 <> Ok None) ->
  (needed - count < fuel)%nat -> is_Some (client_loop fuel now steady intros pick draws needed count i w).
Proof.
  intros Hb. revert count i w. induction fuel as [|fuel IH]; intros count i w Hf; [|cbn [client_build_loop]].
  - lia.
  - case_decide; [by eexists|]. destruct (select_pivot _ _ _ _ _) as [[relay [life hop]]|]; [|by eexists].
    pose proof (Hb (draws i) relay (life * 1000) w) as Hne.
    destruct (build_to _ _ _ _ _ _) as [w' [[p|]|e]]; [apply IH; lia|done|by eexists].
Qed.

(** When the network's relays of a contact are not known, the loop picks one of them
    again and again. *)
Lemma client_loop_diverges now steady intros pick draws needed count i w fuel :
  Z.of_nat (length (all_paths w)) <= INT_MAX -> (count < needed)%nat ->
  (exists x, x ∈ intros /\ eligible conf now x = true) -> (forall x, x ∈ intros -> get_rc st (ci_relay x) = None) ->
  client_loop fuel now steady intros pick draws needed count i w = None.
Proof.
  intros Hlen Hc (x & Hx & He) Hrc. revert i. induction fuel as [|fuel IH]; intros i; [done|]. cbn [client_build_loop].
  rewrite decide_False by lia. pose proof (select_pivot_spec conf now intros (pick i) w Hlen) as Hp.
  destruct (select_pivot _ _ _ _ _) as [[relay [life hop]]|]; [|by rewrite (Hp x Hx) in He].
  destruct Hp as [(y & Hy & _ & <- & _) _]. unfold build_path_to_remote, select_hops_to_remote. rewrite (Hrc y Hy). apply IH.
Qed.
End Builds.

(** ** Stale paths *)
Lemma elem_of_all_paths w path : ph_inv w ->
  path ∈ all_paths w <-> exists p, path_heap (w_ctx w) !! p = Some path /\ in_table w p = true.
Proof.
  intros Hw. unfold all_paths. rewrite list_elem_of_omap. split.
  - intros ([id p] & Hin%elem_of_map_to_list & Hp). cbn [snd] in Hp. exists p. split; [done|]. unfold in_table. rewrite Hp.
    destruct (inv_paths w Hw id p Hin) as (x & Hx & <-). apply bool_decide_true. congruence.
  - intros (p & Hp & Ht). unfold in_table in Ht. rewrite Hp in Ht. apply bool_decide_eq_true in Ht.
    exists (edge_rxid path, p). split; [by apply elem_of_map_to_list | done].
Qed.

(** After new intros were processed, the paths that are left are those of before whose
    pivot and hop id are in an intro. *)
Lemma drop_stale_spec intros w path : ph_inv w ->
  path ∈ all_paths (drop_stale intros w) <-> path ∈ all_paths w /\ aligned_with intros path = true.
Proof.
  intros Hw. unfold drop_stale. set (L := filter _ _).
  assert (forall x, x ∈ L <-> aligned_with intros x = false /\ x ∈ all_paths w) as HL.
  { intros x. unfold L. rewrite list_elem_of_filter. destruct (aligned_with intros x); cbn; naive_solver. }
  rewrite !elem_of_all_paths by (done || by apply drops_inv). split.
  - intros (p & Hp & Ht). pose proof (drops_same_edges L w p) as He. rewrite Hp in He.
    destruct (path_heap (w_ctx w) !! p) as [x|] eqn:Ex; [|done]. injection He as He.
    destruct (decide (edge_rxid x ∈ edge_rxid <$> L)) as [Hin|Hin];
      [by rewrite (drops_gone L w p x Ex Hin) in Ht|].
    destruct (drops_frame L w p x Hw Ex Hin) as [Hx Hxt]. rewrite Hp in Hx. injection Hx as <-.
    rewrite Hxt in Ht. split; [by exists p|]. destruct (aligned_with intros path) eqn:Ea; [done|].
    exfalso. apply Hin, list_elem_of_fmap. exists path. split; [done|]. apply HL. split; [done|].
    apply elem_of_all_paths; [done|]. by exists p.
  - intros [(p & Hp & Ht) Ha]. exists p.
    assert (edge_rxid path ∉ edge_rxid <$> L) as Hin.
    { intros (x & He & [Hna Hx]%HL)%list_elem_of_fmap. apply elem_of_all_paths in Hx as (q & Hq & _); [|done].
      pose proof (inv_unique w Hw p q path x Hp Hq He) as <-. congruence. }
    destruct (drops_frame L w p path Hw Hp Hin) as [-> ->]. done.
Qed.

(** ** What goes wrong *)

(** A session to a client whose relays are not in the node database, and that has no
    paths, never returns from [update_paths]. *)
Lemma client_update_never_returns `{Sodium} `{Oxenc} `{BoxKem} sk conf env st {Net : Type}
    (net_of : Address -> Z -> Net) net_contains netmask rcs_order remotes fuel now steady order draw d pick draws o :
  let c := ob_client o in let h := w_handler (ob_world o) in
  cp_cc_ok c = true -> cp_processed c = true -> s_current (ob_session o) = None ->
  ph_paths h = ∅ -> 0 < ph_target_paths h -> ph_failures h < BACKOFF_THRESHOLD ->
  (exists x, x ∈ cp_intros c /\ eligible conf now x = true) -> (forall x, x ∈ cp_intros c -> get_rc st (ci_relay x) = None) ->
  client_update_paths sk conf env st net_of net_contains netmask rcs_order remotes fuel now steady order draw d pick draws o
    = None.
Proof.
  intros c h Hok Hproc Hcur Hempty Htarget Hfail Hex Hrc. unfold client_update_paths. fold c. rewrite Hok. cbn [negb].
  assert (all_paths (ob_world o) = []) as Hall by (unfold all_paths; fold h; rewrite Hempty, map_to_list_empty; done).
  assert (client_update_prepare sk conf st now steady order draw d o = (o, [], Ok (ph_target_paths h))) as Hprep.
  { unfold client_update_prepare, obind, oget, oret. fold c. rewrite Hproc, Hcur.
    unfold num_active_paths, num_paths. rewrite Hall. cbn [filter list_filter length]. rewrite bool_decide_true by done.
    rewrite !Hcur. cbn [mbind option_bind].
    rewrite Hall. cbn [filter list_filter length]. change (Z.of_nat 0) with 0. rewrite Z.sub_0_r. fold h.
    replace (ph_target_paths h <=? 0) with false by (symmetry; apply Z.leb_gt; lia).
    unfold handler_cooldown, cooldown. fold h. apply Z.ltb_lt in Hfail. by rewrite Hfail. }
  unfold dbind, dlift. rewrite Hprep. fold c. rewrite (client_loop_diverges sk conf); [done| |lia|done..].
  rewrite Hall. cbn. unfold INT_MAX. lia.
Qed.

(** Two paths to pivots [1] and [2]: the first lives long but its intro does not. *)
Module ClientDemo.
Definition hop (rid tx rx : bytes) : TransitHop :=
  mkHop tx rx [] rid (PRouter []) [] [] 0 0 1 true false.
Definition path_a : Path := mkPath [hop [1] [10] [11]] 1000000 true true false (Some [5]).
Definition path_b : Path := mkPath [hop [2] [20] [21]] 200000 true true false (Some [6]).
Definition world : World :=
  mkWorld (mkCtx ∅ {[0%nat := path_a; 1%nat := path_b]} 2 ∅ {[[11] := 0%nat; [21] := 1%nat]} false)
    ((Handler_new 4 1) <| ph_paths := {[[11] := 0%nat; [21] := 1%nat]} |>) (mkStats 0 0 0 0 0 0)
    (mkProfiling ∅ false) ∅ ∅.
Definition intros : list ClientIntro := [mkIntro [1] [5] 200; mkIntro [2] [6] 1000].
Definition conf : PathConf := mkPathConf 60000 300000.
End ClientDemo.

(** For a session to a client, [close_old_paths] can drop a path that [select_new_current]
    could choose at that moment: it does not look at the intros. *)
Lemma client_close_drops_choice :
  choices (client_candidates ClientDemo.conf 0 [1%nat; 0%nat] ClientDemo.intros ClientDemo.world)
    = [(1%nat, [6]); (0%nat, [5])]
  /\ choices (client_candidates ClientDemo.conf 0 [1%nat; 0%nat] ClientDemo.intros
       (close_old_paths ClientDemo.conf 0 [1%nat; 0%nat] None ClientDemo.world)) = [(0%nat, [5])].
Proof. vm_compute. done. Qed.

(** Whether it drops a path that expires soon depends on where it is in the table: here
    it is dropped when it comes first and kept when it comes last. *)
Lemma close_old_paths_order_dependent :
  in_table (close_old_paths ClientDemo.conf 0 [1%nat; 0%nat] None ClientDemo.world) 1 = false
  /\ in_table (close_old_paths ClientDemo.conf 0 [0%nat; 1%nat] None ClientDemo.world) 1 = true.
Proof. vm_compute. done. Qed.

(** A contact that is refused because a newer one is needed leaves the time of the next
    lookup where it was: every tick starts another one. *)
Lemma refused_contact_refetched now cc o :
  cp_cc_ok (ob_client o) = false -> cc_signed_at cc <= cp_last_signed (ob_client o) ->
  cp_next_update (ob_client o) <= now ->
  let o' := (intros_found now (Some cc) o).1 in
  cp_updating (ob_client o') = false /\ cp_next_update (ob_client o') <= now.
Proof.
  intros Hok Hs Hn. unfold intros_found. outbound_cbn. rewrite Hok.
  replace (cc_signed_at cc <=? cp_last_signed (ob_client o)) with true by (symmetry; by apply Z.leb_le). done.
Qed.
