(* ===== verification/SessionHandshake.v ===== *)
(** * The session handshake and session messages, proved

    A handshake run between two routers ([make_session_init],
    [InboundSession::init], [session_init_accept], [handle_session_accept]) leaves both ends with the
    other's tag and with swapped keys; a session message sent by one end is read
    back by the other; an accept that the remote has not signed changes nothing. *)

From Stdlib Require Import ZArith Lia.
From stdpp Require Import base list numbers strings gmap.
From coqutil Require Import Datatypes.RecordSettersUsingExistingGetters.
From S2P Require Import Prelude Oxenc Messages Crypto SessionKeys RelayContact Path PathContext PathBuild PathMsg.
From S2P Require Import PathHandler IpPacket Session.

Local Open Scope router_scope.

(** ** Equations of the monad *)
Lemma sbind_sget {B} (k : Session -> SM B) s : sbind sget k s = k s s.
Proof. unfold sbind, sget. by destruct (k s s) as [[? ?] ?]. Qed.

Lemma sbind_smod {B} f (k : unit -> SM B) s : sbind (smod f) k s = k tt (f s).
Proof. unfold sbind, smod. by destruct (k tt (f s)) as [[? ?] ?]. Qed.

Lemma sbind_sret {A B} (a : A) (k : A -> SM B) s : sbind (sret a) k s = k a s.
Proof. unfold sbind, sret. by destruct (k a s) as [[? ?] ?]. Qed.

Lemma sbind_slift_Ok {A B} (a : A) (k : A -> SM B) s : sbind (slift (Ok a)) k s = k a s.
Proof. unfold sbind, slift. by destruct (k a s) as [[? ?] ?]. Qed.

Lemma sbind_slift_Throw {A B} x (k : A -> SM B) s : sbind (slift (Throw x)) k s = (s, [], Throw x).
Proof. done. Qed.

Lemma sbind_assoc {A B C} (m : SM A) (k : A -> SM B) (h : B -> SM C) s :
  sbind (sbind m k) h s = sbind m (fun a => sbind (k a) h) s.
Proof.
  unfold sbind. destruct (m s) as [[s1 e1] [a|x]]; [|done].
  destruct (k a s1) as [[s2 e2] [b|x]]; [|done].
  destruct (h b s2) as [[s3 e3] r]. by rewrite app_assoc.
Qed.

#[export] Hint Rewrite @sbind_sget @sbind_smod @sbind_sret @sbind_slift_Ok @sbind_slift_Throw @sbind_assoc : session.

(** The final session of a method. *)
Definition final {A} (r : Session * list Effect * outcome string A) : Session := r.1.1.

(** ** Methods that leave part of a session alone

    [keeps P m]: the part [P] of the session is the same after [m]. *)
Definition keeps {A B} (P : Session -> B) (m : SM A) : Prop := forall s, P (final (m s)) = P s.

Section Keeps.
Context {B : Type} (P : Session -> B).

Lemma keeps_sret {A} (a : A) : keeps P (sret a).
Proof. by intros s. Qed.
Lemma keeps_stell e : keeps P (stell e).
Proof. by intros s. Qed.
Lemma keeps_slift {A} (o : outcome string A) : keeps P (slift o).
Proof. by intros s. Qed.
Lemma keeps_sthrow {A} x : keeps P (@sthrow A x).
Proof. by intros s. Qed.
Lemma keeps_sget : keeps P sget.
Proof. by intros s. Qed.
Lemma keeps_smod f : (forall s, P (f s) = P s) -> keeps P (smod f).
Proof. intros Hf s. apply Hf. Qed.
Lemma keeps_sbind {A C} (m : SM A) (k : A -> SM C) :
  keeps P m -> (forall a, keeps P (k a)) -> keeps P (sbind m k).
Proof.
  intros Hm Hk s. unfold sbind. specialize (Hm s). destruct (m s) as [[s1 e1] [a|x]]; [|done].
  specialize (Hk a s1). destruct (k a s1) as [[s2 e2] r]. cbn in *. congruence.
Qed.
Lemma keeps_scatch {A} (m : SM A) h : keeps P m -> (forall x, keeps P (h x)) -> keeps P (scatch m h).
Proof.
  intros Hm Hk s. unfold scatch. specialize (Hm s). destruct (m s) as [[s1 e1] [a|x]]; [done|].
  specialize (Hk x s1). destruct (h x s1) as [[s2 e2] r]. cbn in *. congruence.
Qed.
Lemma keeps_sfor {A} (l : list A) f : (forall x, keeps P (f x)) -> keeps P (sfor l f).
Proof. intros Hf. induction l as [|x l IH]; [apply keeps_sret|]. by apply keeps_sbind. Qed.
End Keeps.

(** Proves [keeps P m] by following the structure of [m]; the state changes are
    those of fields outside [P]. *)
Ltac keeps_step :=
  match goal with
  | |- keeps _ (sret _) => apply keeps_sret
  | |- keeps _ (stell _) => apply keeps_stell
  | |- keeps _ (slift _) => apply keeps_slift
  | |- keeps _ (sthrow _) => apply keeps_sthrow
  | |- keeps _ sget => apply keeps_sget
  | |- keeps _ (smod _) => apply keeps_smod; intros; reflexivity
  | |- keeps _ (sbind _ _) => apply keeps_sbind; [|intros]
  | |- keeps _ (scatch _ _) => apply keeps_scatch; [|intros]
  | |- keeps _ (sfor _ _) => apply keeps_sfor; intros
  | |- keeps _ (match ?x with _ => _ end) => destruct x
  | |- keeps _ (if ?x then _ else _) => destruct x
  end.
Ltac keeps_tac := repeat keeps_step; try done.

(** The part of a session the handshake decides. *)
Record KeyPart := mkKeyPart {
  kp_in_tag : Z; kp_out_tag : Z; kp_remote : NetworkAddress;
  kp_in : option bytes; kp_out : option bytes; kp_secret : option bytes; kp_established : bool; kp_pivot : bytes;
  kp_mlkem : option MLKEM768KeyPair; kp_x25519 : option X25519KeyPair;
}.
Definition key_part (s : Session) : KeyPart :=
  mkKeyPart (s_inbound_tag s) (s_outbound_tag s) (s_remote s) (s_inbound_key s) (s_outbound_key s)
    (s_shared_secret s) (s_is_established s) (s_remote_pivot_txid s) (s_mlkem s) (s_x25519 s).

Section KeysKept.
Context `{Sodium} `{Oxenc} (ctx : PathContext).

Lemma keeps_send_over_current control type data nonce :
  keeps key_part (send_over_current ctx control type data nonce).
Proof. unfold send_over_current, check_dead, send_wire. keeps_tac. Qed.

Lemma keeps_send_session_data_message now data type nonce :
  keeps key_part (send_session_data_message ctx now data type nonce).
Proof.
  unfold send_session_data_message, queue_data_message, send_path_data_message, update_active.
  keeps_tac. apply keeps_send_over_current.
Qed.

Lemma keeps_flush_queue now nonces : keeps key_part (flush_queue ctx now nonces).
Proof. unfold flush_queue. keeps_tac. apply keeps_send_session_data_message. Qed.

Lemma keeps_fire_loop all now q : keeps key_part (fire_loop all now q).
Proof. induction q as [|[d c] q IH]; cbn [fire_loop]; keeps_tac. Qed.

Lemma keeps_fire_waiting now : keeps key_part (fire_waiting now).
Proof. unfold fire_waiting. keeps_tac. apply keeps_fire_loop. Qed.
End KeysKept.

(** ** Methods that do not throw *)
Definition no_throw {A} (m : SM A) : Prop := forall s, exists s' e a, m s = (s', e, Ok a).

Lemma no_throw_sbind {A C} (m : SM A) (k : A -> SM C) :
  no_throw m -> (forall a, no_throw (k a)) -> no_throw (sbind m k).
Proof.
  intros Hm Hk s. unfold sbind. destruct (Hm s) as (s1 & e1 & a & ->).
  destruct (Hk a s1) as (s2 & e2 & c & ->). eauto.
Qed.
Lemma no_throw_sfor {A} (l : list A) f : (forall x, no_throw (f x)) -> no_throw (sfor l f).
Proof. intros Hf. induction l as [|x l IH]; [by intros s; eexists _, _, _|]. by apply no_throw_sbind. Qed.

Ltac no_throw_step :=
  match goal with
  | |- no_throw (sret _) => by intros ?; eexists _, _, _
  | |- no_throw (stell _) => by intros ?; eexists _, _, _
  | |- no_throw sget => by intros ?; eexists _, _, _
  | |- no_throw (smod _) => by intros ?; eexists _, _, _
  | |- no_throw (sbind _ _) => apply no_throw_sbind; [|intros]
  | |- no_throw (sfor _ _) => apply no_throw_sfor; intros
  | |- no_throw (match ?x with _ => _ end) => destruct x
  | |- no_throw (if ?x then _ else _) => destruct x
  end.
Ltac no_throw_tac := repeat no_throw_step; try done.

Section NoThrow.
Context `{Sodium} `{Oxenc} (ctx : PathContext).

Lemma no_throw_send_over_current control type data nonce : no_throw (send_over_current ctx control type data nonce).
Proof. unfold send_over_current, check_dead, send_wire. no_throw_tac. Qed.

Lemma no_throw_send_session_data_message now data type nonce :
  no_throw (send_session_data_message ctx now data type nonce).
Proof.
  unfold send_session_data_message, queue_data_message, send_path_data_message, update_active.
  no_throw_tac. apply no_throw_send_over_current.
Qed.

Lemma no_throw_flush_queue now nonces : no_throw (flush_queue ctx now nonces).
Proof. unfold flush_queue. no_throw_tac. apply no_throw_send_session_data_message. Qed.

Lemma no_throw_fire_loop all now q : no_throw (fire_loop all now q).
Proof. induction q as [|[d c] q IH]; cbn [fire_loop]; no_throw_tac. Qed.

Lemma no_throw_fire_waiting now : no_throw (fire_waiting now).
Proof. unfold fire_waiting. no_throw_tac. apply no_throw_fire_loop. Qed.
End NoThrow.

(** ** The handshake *)

(** The two ends of a session: each sends with the other's tag, and encrypts with
    the key the other decrypts with. *)
Record paired (a b : Session) : Prop := {
  pair_tag_ab : s_outbound_tag a = s_inbound_tag b;
  pair_tag_ba : s_outbound_tag b = s_inbound_tag a;
  pair_key_ab : exists k, s_outbound_key a = Some k /\ s_inbound_key b = Some k /\ is_buf SYMM_KEY_SIZE k;
  pair_key_ba : exists k, s_outbound_key b = Some k /\ s_inbound_key a = Some k /\ is_buf SYMM_KEY_SIZE k;
}.

Section HandshakeProofs.
Context `{SodiumLaws} `{OxencLaws} `{!BoxKem} `{!BoxKemLaws}.

Lemma bt_require_tag_next z d t :
  (0 <= z < 2 ^ 32)%Z ->
  bt_require_tag (bt_reading d ((str "t", BInt z) :: t)) = Some (z, bt_reading (d ++ [(str "t", BInt z)]) t).
Proof.
  intros Hz. unfold bt_require_tag. rewrite bt_require_int_next.
  destruct (Z.leb_spec 0 z), (Z.ltb_spec z (2 ^ 32)); try lia. done.
Qed.

Lemma check_signature_ok sk kvs d t :
  ed25519_keypair sk -> d = kvs ->
  check_signature (ed25519_pubkey sk)
    (bt_reading d ((str "~", BStr (sign_detached sk (bt_signed_data kvs))) :: t)) =
  Ok (bt_reading (d ++ [(str "~", BStr (sign_detached sk (bt_signed_data kvs)))]) t).
Proof.
  intros Hk ->. unfold check_signature. rewrite bt_require_signature_next. cbn [or_throw outcome_bind].
  destruct (sign_detached_buf sk (bt_signed_data kvs)) as [-> _].
  rewrite bool_decide_true by done. cbn [negb]. rewrite sign_verify by done. done.
Qed.

(** The receiver reads back what the initiator sealed. *)
Lemma read_init_fields ska m x pivot tag :
  ed25519_keypair ska -> length m = MLKEM_PUB_SIZE -> length x = 32 -> length pivot = HOPID_SIZE ->
  (0 <= tag < 2 ^ 32)%Z ->
  read_init (bt_dict_produce (init_fields ska (ed25519_pubkey ska) m x pivot tag)) =
  Ok (ed25519_pubkey ska, m, x, pivot, tag).
Proof.
  intros Hk Lm Lx Lp Ht. unfold read_init, init_fields, append_signature. cbn [app].
  pose proof (length_ed25519_pubkey ska Hk).
  repeat bt_step. rewrite bt_require_tag_next by done. cbn [or_throw outcome_bind].
  rewrite check_signature_ok by done. cbn [outcome_bind]. by rewrite bt_finish_end.
Qed.

(** The initiator reads back what the receiver sealed. *)
Lemma read_accept_fields ska skb y ct tag draw box d :
  ed25519_keypair ska -> ed25519_keypair skb -> length y = 32 -> length ct = MLKEM_CT_SIZE ->
  (0 <= tag < 2 ^ 32)%Z ->
  seal_box (ed25519_pubkey ska) (bt_dict_produce (accept_fields skb y ct tag)) draw = Ok box ->
  read_accept ska (ed25519_pubkey skb) (bt_reading d [(str "B", BStr box)]) = Ok (y, ct, tag).
Proof.
  intros Ha Hb Ly Lc Ht Es. unfold read_accept. repeat bt_step. cbn [negb].
  destruct (seal_unseal ska (bt_dict_produce (accept_fields skb y ct tag)) draw Ha) as (c & Ec & Eu).
  assert (c = box) as -> by congruence. rewrite Eu. cbn [outcome_bind].
  unfold accept_fields, append_signature. cbn [app].
  repeat bt_step. rewrite bt_require_tag_next by done. cbn [or_throw outcome_bind].
  rewrite check_signature_ok by done. cbn [outcome_bind]. by rewrite bt_finish_end.
Qed.

(** What the initiator sends, and keeps for the accept. *)
Lemma make_session_init_pq ska skb path d s m :
  ed25519_keypair skb -> na_pubkey (s_remote s) = ed25519_pubkey skb ->
  mlkem_generate (d_mlkem_seed d) = Ok m ->
  let x := x25519_keypair (d_x25519 d) in
  exists box,
    make_session_init ska false path d s =
      (s <| s_mlkem := Some m |> <| s_x25519 := Some x |>, [],
       Ok (bt_dict_produce [([], BStr (str "i")); (str "B", BStr box)], MT_SessionHandshake))
    /\ unseal_box skb box =
       Ok (bt_dict_produce (init_fields ska (ed25519_pubkey ska) (m_pub m) (x_pub x) (terminal_hopid path)
             (s_inbound_tag s))).
Proof.
  intros Hb Hr Hm x. unfold make_session_init. rewrite Hm. autorewrite with session. rewrite Hr. fold x.
  destruct (seal_unseal skb (bt_dict_produce (init_fields ska (ed25519_pubkey ska) (m_pub m) (x_pub x)
    (terminal_hopid path) (s_inbound_tag s))) (d_box d) Hb) as (box & Es & Eu).
  exists box. rewrite Es. by autorewrite with session.
Qed.

(** What the receiver makes of it. *)
Lemma inbound_init_pq ska skb s next_tag box d m x pivot tag ct ss k1 k2 :
  ed25519_keypair ska ->
  unseal_box skb box = Ok (bt_dict_produce (init_fields ska (ed25519_pubkey ska) m x pivot tag)) ->
  length m = MLKEM_PUB_SIZE -> length x = 32 -> length pivot = HOPID_SIZE -> (0 <= tag < 2 ^ 32)%Z ->
  encapsulate m (d_coins d) = Ok (ct, ss) ->
  session_secret (ed25519_pubkey ska) (ed25519_pubkey skb) (x25519_keypair (d_y d)) x false ss m tag next_tag
    = Ok (k1, k2) ->
  exists abox,
    seal_box (ed25519_pubkey ska)
      (bt_dict_produce (accept_fields skb (x_pub (x25519_keypair (d_y d))) ct next_tag)) (d_abox d) = Ok abox
    /\ inbound_init skb s next_tag (bt_dict_produce [([], BStr (str "i")); (str "B", BStr box)]) d =
       Ok (s <| s_remote := mkNetAddr (ed25519_pubkey ska) true |> <| s_remote_pivot_txid := pivot |>
             <| s_outbound_tag := tag |> <| s_inbound_tag := next_tag |> <| s_inbound_key := Some k1 |>
             <| s_outbound_key := Some k2 |>
             <| s_accept_msg := bt_dict_produce [([], BStr (str "a")); (str "B", BStr abox)] |>
             <| s_old_accept := false |>).
Proof.
  intros Ha Hu Lm Lx Lp Ht Ee Ek.
  destruct (seal_unseal ska (bt_dict_produce (accept_fields skb (x_pub (x25519_keypair (d_y d))) ct next_tag))
    (d_abox d) Ha) as (abox & Es & _).
  exists abox. split; [done|]. unfold inbound_init. rewrite bt_open_produce. cbn [or_throw outcome_bind].
  rewrite bt_skip_until_here. cbn [or_throw outcome_bind negb].
  rewrite bt_next_string_next. cbn [or_throw outcome_bind].
  rewrite bool_decide_true by done. cbn [negb app]. bt_step. rewrite Hu. cbn [outcome_bind].
  rewrite read_init_fields by done. cbn [outcome_bind]. rewrite Ee. cbn [outcome_bind].
  rewrite Ek. cbn [outcome_bind]. rewrite Es. done.
Qed.

(** What the initiator makes of an accept it can read. *)
Lemma handle_session_accept_pq ska ctx now steady_now nonces payload s m x y ct tag ss kin kout :
  s_mlkem s = Some m -> s_x25519 s = Some x ->
  read_accept ska (na_pubkey (s_remote s)) payload = Ok (y, ct, tag) ->
  decapsulate (m_sec m) ct = Ok ss ->
  session_secret (ed25519_pubkey ska) (na_pubkey (s_remote s)) x y true ss (m_pub m) (s_inbound_tag s) tag
    = Ok (kin, kout) ->
  exists s2 effects,
    handle_session_accept ska ctx now steady_now nonces payload s = (s2, effects, Ok tt)
    /\ key_part s2 = key_part (s <| s_outbound_tag := tag |> <| s_inbound_key := Some kin |>
         <| s_outbound_key := Some kout |> <| s_is_established := true |> <| s_mlkem := None |> <| s_x25519 := None |>).
Proof.
  intros Hm Hx Hr Hd Hk. unfold handle_session_accept. rewrite sbind_sget, Hm, Hx.
  set (s1 := s <| s_outbound_tag := tag |> <| s_inbound_key := Some kin |>
         <| s_outbound_key := Some kout |> <| s_is_established := true |> <| s_mlkem := None |> <| s_x25519 := None |>).
  assert (scatch (do acc <- slift (read_accept ska (na_pubkey (s_remote s)) payload);
       let '(y, ct, tag) := acc in complete_accept ska m x y ct tag ;; sret true) (fun _ => sret false) s
     = (s1, [], Ok true)) as Ec.
  { unfold scatch at 1. rewrite Hr, sbind_slift_Ok. unfold complete_accept, scatch, sbind at 1.
    rewrite Hd. autorewrite with session. session_cbn.
    rewrite Hk. autorewrite with session. done. }
  unfold sbind at 1. rewrite Ec.
  destruct (no_throw_flush_queue ctx now nonces s1) as (s2 & e2 & [] & E2).
  destruct (no_throw_fire_waiting steady_now s2) as (s3 & e3 & [] & E3).
  unfold sbind. rewrite E2, E3. eexists _, _. split; [done|].
  pose proof (keeps_fire_waiting steady_now s2) as K3. rewrite E3 in K3. cbn in K3. rewrite K3.
  pose proof (keeps_flush_queue ctx now nonces s1) as K2. rewrite E2 in K2. done.
Qed.
End HandshakeProofs.

(** ** The way back to the initiator

    An inbound session answers over the transit hop (on a relay) or over the path
    (on a client) the init came in on. *)
Inductive ReturnWay : Type :=
| ViaHop (hop : TransitHop)
| ViaPath (path : Path).

Definition way_is_relay (way : ReturnWay) : bool := match way with ViaHop _ => true | ViaPath _ => false end.

(** Object [p] of the heap is this way, and it can be used. *)
Definition way_open (ctx : PathContext) (p : nat) (way : ReturnWay) : Prop :=
  match way with
  | ViaHop hop => hop_heap ctx !! p = Some hop /\ is_dead hop = false
  | ViaPath path => path_heap ctx !! p = Some path /\ is_established path = true /\ path_dead path = false
  end.

(** The command that carries [payload] for session [tag]: a relay sends it down its
    hop, a client up its path to the initiator's [pivot]. *)
Definition way_command `{Sodium} `{Oxenc} (way : ReturnWay) (payload : bytes) (tag : Z)
    (pivot nonce : bytes) : Effect :=
  match way with
  | ViaHop hop =>
      ESendCommand (downstream hop)
        (encrypt_return_message hop (session_plaintext payload tag []) nonce MT_SessionHandshake)
  | ViaPath path =>
      ESendCommand (PRouter (edge_router path))
        (encrypt_path_message path (session_plaintext payload tag pivot) nonce MT_SessionHandshake false)
  end.

Section ReturnProofs.
Context `{SodiumLaws} `{OxencLaws} `{!BoxKem}.

Lemma send_path_control_sends ctx s p path now data nonce type :
  s_kind s <> InboundRelaySession -> s_current s = Some p -> path_heap ctx !! p = Some path ->
  is_established path = true -> path_dead path = false ->
  send_path_control_message ctx now data nonce type s =
    (s <| s_last_activity := now |>,
     [ESendCommand (PRouter (edge_router path)) (encrypt_path_message path data nonce type false)], Ok tt).
Proof.
  intros Hk Hc Hp Hpe Hpd. unfold send_path_control_message, update_active. rewrite sbind_smod.
  unfold send_over_current, check_dead. rewrite sbind_assoc, sbind_sget.
  assert (current_is_dead ctx (s <| s_last_activity := now |>) = false) as ->.
  { unfold current_is_dead. session_cbn. rewrite Hc, Hp, Hpd. by destruct (s_kind s). }
  rewrite sbind_sret, sbind_sget. session_cbn. rewrite Hc, Hp, Hpe. by destruct (s_kind s).
Qed.

Lemma send_path_control_hop ctx s p hop now data nonce type :
  s_kind s = InboundRelaySession -> s_current s = Some p -> hop_heap ctx !! p = Some hop ->
  is_dead hop = false ->
  send_path_control_message ctx now data nonce type s =
    (s <| s_last_activity := now |>,
     [ESendCommand (downstream hop) (encrypt_return_message hop data nonce type)], Ok tt).
Proof.
  intros Hk Hc Hp Hd. unfold send_path_control_message, update_active. rewrite sbind_smod.
  unfold send_over_current, check_dead. rewrite sbind_assoc, sbind_sget.
  assert (current_is_dead ctx (s <| s_last_activity := now |>) = false) as ->.
  { unfold current_is_dead. session_cbn. by rewrite Hc, Hk, Hp. }
  rewrite sbind_sret, sbind_sget. session_cbn. by rewrite Hc, Hk, Hp.
Qed.

(** The accept is sent at once, and only once. *)
Lemma session_init_accept_sends ctx p way now nonce s msg :
  way_open ctx p way -> s_kind s = (if way_is_relay way then InboundRelaySession else InboundClientSession) ->
  s_current s = Some p -> s_dead_path s = false -> s_old_accept s = false ->
  s_accept_msg s = msg -> msg <> [] ->
  session_init_accept ctx now nonce s =
    (s <| s_last_activity := now |> <| s_accept_msg := [] |>,
     [way_command way msg (s_outbound_tag s) (s_remote_pivot_txid s) nonce], Ok tt).
Proof.
  intros Hw Hk Hc Hd Ho Em Hne. unfold session_init_accept. rewrite sbind_sget, Em, Ho.
  destruct msg as [|b msg]; [done|]. set (m := b :: msg) in *.
  unfold send_session_precontrol_message. rewrite sbind_assoc, sbind_sget, Hd.
  unfold make_session_message. rewrite Hd, Hk, app_nil_r, write_big_spec. destruct way as [hop|path]; cbn.
  - destruct Hw as [Hp Hdead]. unfold sbind. by rewrite (send_path_control_hop ctx s p hop).
  - destruct Hw as (Hp & He & Hdead). unfold sbind.
    by rewrite (send_path_control_sends ctx s p path) by (done || by rewrite Hk).
Qed.
End ReturnProofs.

(** C6. The PFS+PQ handshake works: the init the initiator sends is taken by a fresh
    inbound session, on a relay as on a client; the accept that session prepares is
    sent back over the hop or the path the init came on, when that is still up, under
    the initiator's tag, and once; and the initiator takes it. Then both sessions are
    established, each has the other's tag as its outbound tag and decrypts with the
    key the other encrypts with; the receiver knows the initiator's identity and the
    pivot to reach it through, and the initiator has dropped its ephemeral keys. *)
Theorem session_handshake `{SodiumLaws} `{OxencLaws} `{!BoxKem} `{!BoxKemLaws}
    (ska skb : bytes) (sa : Session) (path : Path) (di : InitDraws) (da : AcceptDraws) (next_tag : Z)
    (ctxb : PathContext) (p : nat) (way : ReturnWay) (now0 now1 : Z) (nonce : bytes) :
  ed25519_keypair ska -> ed25519_keypair skb -> na_pubkey (s_remote sa) = ed25519_pubkey skb ->
  (0 <= s_inbound_tag sa < 2 ^ 32)%Z -> (0 <= next_tag < 2 ^ 32)%Z -> length (terminal_hopid path) = HOPID_SIZE ->
  is_buf MLKEM_SEED_SIZE (d_mlkem_seed di) -> is_buf 32 (d_x25519 di) ->
  is_buf 32 (d_y da) -> is_buf MLKEM_SS_SIZE (d_coins da) -> way_open ctxb p way ->
  exists init sa1 sb sb1 reply accept,
    make_session_init ska false path di sa = (sa1, [], Ok (init, MT_SessionHandshake))
    /\ inbound_init skb (Session_inbound (way_is_relay way) (Some p) now0) next_tag init da = Ok sb
    /\ session_init_accept ctxb now1 nonce sb =
         (sb1, [way_command way reply (s_inbound_tag sa) (terminal_hopid path) nonce], Ok tt)
    /\ bt_dict_open reply ≫= bt_require_string [] = Some (str "a", accept)
    /\ (forall ctx now steady_now nonces, exists sa2 effects,
          handle_session_accept ska ctx now steady_now nonces accept sa1 = (sa2, effects, Ok tt)
          /\ paired sa2 sb1 /\ s_is_established sa2 = true /\ s_mlkem sa2 = None /\ s_x25519 sa2 = None)
    /\ session_is_established sb1 = true
    /\ s_remote sb1 = mkNetAddr (ed25519_pubkey ska) true
    /\ s_remote_pivot_txid sb1 = terminal_hopid path
    /\ (forall ctx now nonce, session_init_accept ctx now nonce sb1 = (sb1, [], Ok tt)).
Proof.
  intros Ha Hb Hr Hta Htb Hp Hseed Hx Hy Hc Hw.
  destruct (mlkem_agreement (d_mlkem_seed di) (d_coins da) Hseed Hc) as (m & ct & ss & Em & [Lm _] & Ee & [Lct _] & Ed).
  destruct (make_session_init_pq ska skb path di sa m Hb Hr Em) as (box & Ei & Eu).
  destruct (session_secret_agreement (ed25519_pubkey ska) (ed25519_pubkey skb) (d_x25519 di) (d_y da) ss (m_pub m)
    (s_inbound_tag sa) next_tag Hx Hy) as (k1 & k2 & E1 & E2 & Hk1 & Hk2).
  destruct (curve25519_base_buf _ Hx) as [Lx _]. destruct (curve25519_base_buf _ Hy) as [Ly _].
  destruct (inbound_init_pq ska skb (Session_inbound (way_is_relay way) (Some p) now0) next_tag box da (m_pub m)
    _ _ _ ct ss k1 k2 Ha Eu Lm Lx Hp Hta Ee E2) as (abox & Es & Eb).
  set (msg := bt_dict_produce [([], BStr (str "a")); (str "B", BStr abox)]) in Eb.
  assert (msg <> []) as Hne by (intros E; pose proof (bt_produce_head [([], BStr (str "a")); (str "B", BStr abox)]) as Hh;
    fold msg in Hh; by rewrite E in Hh).
  eexists _, _, _, _, msg, (bt_reading [([], BStr (str "a"))] [(str "B", BStr abox)]).
  split; [exact Ei|]. split; [exact Eb|]. split; [by eapply session_init_accept_sends|].
  split. { unfold msg. rewrite bt_open_produce. cbn [mbind option_bind]. by rewrite bt_require_string_next. }
  split; [|split_and!; done].
  intros ctx now steady_now nonces.
  destruct (handle_session_accept_pq ska ctx now steady_now nonces (bt_reading [([], BStr (str "a"))] [(str "B", BStr abox)])
    (sa <| s_mlkem := Some m |> <| s_x25519 := Some (x25519_keypair (d_x25519 di)) |>) m
    (x25519_keypair (d_x25519 di)) (x_pub (x25519_keypair (d_y da))) ct next_tag ss k2 k1) as (sa2 & effects & E & K);
    [done|done|session_cbn; rewrite Hr; by eapply read_accept_fields|done|session_cbn; by rewrite Hr|].
  exists sa2, effects. split; [done|]. unfold key_part in K. cbn in K. injection K as Kit Kot Kr Ki Ko Ks Kest Kp Km Kx.
  split; [split; cbn; [done | congruence | by exists k1 | by exists k2] | done].
Qed.

(** ** Accepts are authenticated *)

(** The box of [payload] opens with [sk] to a dictionary that carries a signature
    of [remote] over what precedes it. *)
Definition signed_accept `{Sodium} `{Oxenc} `{BoxKem} (sk remote : bytes) (payload : bt_consumer) : Prop :=
  exists box rest inner c0 y c1 ct c2 tag c3 msg sig c4,
    bt_require_string (str "B") payload = Some (box, rest) /\ unseal_box sk box = Ok inner
    /\ bt_dict_open inner = Some c0 /\ bt_require_span 32 (str "Y") c0 = Some (y, c1)
    /\ bt_require_span MLKEM_CT_SIZE (str "c") c1 = Some (ct, c2) /\ bt_require_tag c2 = Some (tag, c3)
    /\ bt_require_signature (str "~") c3 = Some (msg, sig, c4)
    /\ length sig = 64 /\ sign_verify_detached sig msg remote = true.

Lemma read_accept_signed `{Sodium} `{Oxenc} `{BoxKem} sk remote payload r :
  read_accept sk remote payload = Ok r -> signed_accept sk remote payload.
Proof.
  unfold read_accept, check_signature. intros E. outcome_inv E.
  outcome_inv Ha5. rewrite negb_false_iff in *.
  repeat match goal with Hb : bool_decide _ = true |- _ => apply bool_decide_eq_true in Hb end.
  unfold signed_accept. eexists _, _, _, _, _, _, _, _, _, _, _, _, _. split_and!; eauto.
Qed.

(** C8. A session accept changes nothing - no key, no tag, no established state,
    and nothing is sent - unless its box holds a signature of the remote over its
    contents: who knows the session tag but not the remote's key cannot disturb a
    live session. *)
Theorem accept_needs_signature `{Sodium} `{Oxenc} `{BoxKem} (sk : bytes) (ctx : PathContext)
    (now steady_now : Z) (nonces : nat -> bytes) (payload : bt_consumer) (s : Session) :
  handle_session_accept sk ctx now steady_now nonces payload s = (s, [], Ok tt)
  \/ signed_accept sk (na_pubkey (s_remote s)) payload.
Proof.
  unfold handle_session_accept. rewrite sbind_sget.
  destruct (s_mlkem s) as [m|]; [|by left]. destruct (s_x25519 s) as [x|]; [|by left].
  destruct (read_accept sk (na_pubkey (s_remote s)) payload) as [r|e] eqn:E;
    [right; by eapply read_accept_signed | by left].
Qed.

(** ** Data messages *)
Section Delivery.
Context `{SodiumLaws} `{OxencLaws}.

(** A session able to send: established, with an outbound key, on a live path. *)
Record can_send (ctx : PathContext) (s : Session) (path : Path) (key : bytes) : Prop := {
  cs_kind : s_kind s <> InboundRelaySession;
  cs_established : s_is_established s = true;
  cs_path : s_dead_path s = false;
  cs_current : exists p, s_current s = Some p /\ path_heap ctx !! p = Some path;
  cs_path_established : is_established path = true;
  cs_path_alive : path_dead path = false;
  cs_key : s_outbound_key s = Some key;
}.

Lemma send_session_data_message_sends ctx s path key now data type nonce :
  can_send ctx s path key ->
  send_session_data_message ctx now data type nonce s =
    (s <| s_last_activity := now |>,
     [ESendDatagram (PRouter (edge_router path))
        (encrypt_path_message path
           (session_plaintext (aead_encrypt (data ++ [type]) [] nonce key) (s_outbound_tag s) (s_remote_pivot_txid s))
           nonce MT_Data false)],
     Ok tt).
Proof.
  intros [Hk He Hd (p & Hc & Hp) Hpe Hpd Hkey].
  unfold send_session_data_message. rewrite sbind_sget, He. cbn [negb].
  unfold make_session_message. rewrite Hd, Hkey. cbv zeta.
  replace (negb (is_outbound (s_kind s)) && is_relay_session (s_kind s)) with false
    by (destruct (s_kind s); done).
  rewrite encrypt_inplace_eq by apply length_replicate. rewrite write_big_spec.
  unfold send_path_data_message, update_active. rewrite sbind_smod.
  unfold send_over_current, check_dead. rewrite sbind_assoc, sbind_sget.
  assert (current_is_dead ctx (s <| s_last_activity := now |>) = false) as ->.
  { unfold current_is_dead. session_cbn. rewrite Hc, Hp, Hpd. by destruct (s_kind s). }
  rewrite sbind_sret, sbind_sget. session_cbn. rewrite Hc, Hp, Hpe. by destruct (s_kind s).
Qed.

(** A session that decrypts with the sender's key hands the packet to the tun. *)
Lemma recv_session_data_message_delivers s key now data type nonce :
  s_inbound_key s = Some key -> MIN_PACKET_SIZE <= length data ->
  traffic_type_is_valid type = true -> type <> TT_TUNNELED_QUIC ->
  (recv_session_data_message false true true now (aead_encrypt (data ++ [type]) [] nonce key) nonce s).1.2
    = [EInboundPacket data type (s_remote s)].
Proof.
  intros Hk Hl Hv Ht. unfold recv_session_data_message. rewrite sbind_smod, sbind_sget. session_cbn. rewrite Hk.
  destruct (aead_encrypt (data ++ [type]) [] nonce key) as [|b c] eqn:E.
  { pose proof (aead_encrypt_length (data ++ [type]) [] nonce key) as L. rewrite E, length_app in L. simpl in L. lia. }
  rewrite <-E. unfold xchacha20_poly1305_decrypt_inplace.
  rewrite decide_False by (rewrite aead_encrypt_length; lia). rewrite aead_decrypt_encrypt.
  destruct (data ++ [type]) as [|d0 r] eqn:Ed; [by destruct data|]. rewrite <-Ed.
  rewrite List.last_last, length_app. cbn [length]. rewrite Nat.add_sub, take_app_length. cbv zeta.
  rewrite Hv. cbn [negb]. rewrite (proj2 (Z.eqb_neq _ _) Ht), bool_decide_false by lia. cbn [andb].
  by destruct (is_ipv4 data && negb (s_ipv4_mapped s)).
Qed.
End Delivery.

(** C7. Session data goes from end to end: what an established session sends over
    its path pivots onto the other end's path, arrives at that client under the
    other session's tag and is handed to its tun device with the same bytes, the
    same traffic type and the sender's address. *)
Theorem session_data_delivered `{SodiumLaws} `{OxencLaws} (net : gmap bytes Relay)
    (clients : gmap bytes PathContext) (ctx : PathContext) (sa sb : Session) (ka : bytes)
    (cid : bytes) (pa pb : Path) (a0 ta tb : TransitHop) (init : list TransitHop)
    (now now' : Z) (data nonce : bytes) (type : Z) :
  paired sa sb -> can_send ctx sa pa ka -> s_remote_pivot_txid sa = rxid tb ->
  (0 <= s_outbound_tag sa < 2 ^ 32)%Z ->
  carried net (hops pa) -> head (hops pa) = Some a0 -> last (hops pa) = Some ta ->
  path_reaches net clients cid pb init tb -> router_id ta = router_id tb -> rxid ta <> rxid tb ->
  length nonce = SYMM_NONCE_SIZE -> MIN_PACKET_SIZE <= length data ->
  traffic_type_is_valid type = true -> type <> TT_TUNNELED_QUIC ->
  exists message payload,
    (send_session_data_message ctx now data type nonce sa).1.2 = [ESendDatagram (PRouter (router_id a0)) message]
    /\ run_session_message (length (hops pa) + length (hops pb)) net clients false (PRouter (router_id a0)) message
       = Some (PConn cid, SessData payload (s_inbound_tag sb) nonce)
    /\ (recv_session_data_message false true true now' payload nonce sb).1.2
       = [EInboundPacket data type (s_remote sb)].
Proof.
  intros [Htag _ (k & Hka & Hkb & _) _] Hcs Hpiv Ht Hc Ha0 Hta Hb Hsame Hne Hn Hl Hv Hq.
  assert (k = ka) as -> by (pose proof (cs_key _ _ _ _ Hcs); congruence).
  rewrite (send_session_data_message_sends ctx sa pa ka) by done. cbn [fst snd].
  eexists _, _. split; [unfold edge_router, edge; by rewrite Ha0|]. rewrite Hpiv.
  rewrite (session_message_pivot net clients false MT_Data cid pa pb a0 ta tb init) by
    (done || (rewrite aead_encrypt_length, length_app; unfold TAG_SIZE; lia)).
  split; [by rewrite Htag|]. by apply recv_session_data_message_delivers.
Qed.

(** ** Concrete sessions *)
Module SessionDemo.
Definition ska : bytes := replicate 64 1%Z.
Definition skb : bytes := replicate 64 2%Z.
Definition draws : InitDraws :=
  mkInitDraws (replicate 64 3%Z) (replicate 24 4%Z) (replicate 64 5%Z) (replicate 32 6%Z) [].
Definition adraws : AcceptDraws := mkAcceptDraws (replicate 32 7%Z) (replicate 32 8%Z) [].
Definition to_b : Session := Session_outbound false (mkNetAddr (replicate 32 2%Z) true) 77 0.
Definition at_b : Session := Session_inbound false (Some 0) 0.

(** The same session once the handshake is done, on path A of [MsgDemo]. *)
Definition sender : Session :=
  to_b <| s_outbound_tag := 88%Z |> <| s_outbound_key := Some (replicate 32 9%Z) |>
       <| s_inbound_key := Some (replicate 32 10%Z) |> <| s_is_established := true |> <| s_dead_path := false |>
       <| s_current := Some 0 |> <| s_remote_pivot_txid := rxid MsgDemo.b_t |>.
Definition receiver : Session :=
  at_b <| s_inbound_tag := 88%Z |> <| s_outbound_tag := 77%Z |> <| s_inbound_key := Some (replicate 32 9%Z) |>
       <| s_outbound_key := Some (replicate 32 10%Z) |> <| s_remote := mkNetAddr (replicate 32 1%Z) true |>.
Definition sender_ctx : PathContext := mkCtx ∅ {[0 := MsgDemo.path_a]} 1 ∅ ∅ false.
Definition receiver_ctx : PathContext := mkCtx ∅ {[0 := MsgDemo.path_b]} 1 ∅ ∅ false.

Lemma buf n b : (0 <= b < 256)%Z -> is_buf n (replicate n b).
Proof. intros. split; [apply length_replicate | by apply Forall_replicate]. Qed.

Lemma demo_keypair b : (0 <= b < 256)%Z -> @ed25519_keypair toy (replicate 64 b).
Proof. intros. split; [by apply buf | done]. Qed.
End SessionDemo.

Lemma session_handshake_witness :
  exists init sa1 sb sb1 reply accept,
    @make_session_init toy bencode toy_box SessionDemo.ska false MsgDemo.path_a SessionDemo.draws SessionDemo.to_b
      = (sa1, [], Ok (init, MT_SessionHandshake))
    /\ @inbound_init toy bencode toy_box SessionDemo.skb (Session_inbound false (Some 0) 0) 88 init
         SessionDemo.adraws = Ok sb
    /\ @session_init_accept toy bencode SessionDemo.receiver_ctx 1 [] sb =
         (sb1, [@way_command toy bencode (ViaPath MsgDemo.path_b) reply 77 (terminal_hopid MsgDemo.path_a) []], Ok tt)
    /\ (exists sa2 effects,
          @handle_session_accept toy bencode toy_box SessionDemo.ska empty_ctx 0 0 (fun _ => []) accept sa1
            = (sa2, effects, Ok tt) /\ paired sa2 sb1)
    /\ session_is_established sb1 = true.
Proof.
  destruct (@session_handshake toy toy_laws bencode bencode_laws toy_box toy_box_laws
    SessionDemo.ska SessionDemo.skb SessionDemo.to_b MsgDemo.path_a SessionDemo.draws
    SessionDemo.adraws 88 SessionDemo.receiver_ctx 0 (ViaPath MsgDemo.path_b) 0 1 [])
    as (init & sa1 & sb & sb1 & reply & accept & Ei & Eb & Es & _ & Ha & He & _).
  - apply SessionDemo.demo_keypair. lia.
  - apply SessionDemo.demo_keypair. lia.
  - reflexivity.
  - cbn. lia.
  - lia.
  - reflexivity.
  - apply SessionDemo.buf. lia.
  - apply SessionDemo.buf. lia.
  - apply SessionDemo.buf. lia.
  - apply SessionDemo.buf. lia.
  - split; [reflexivity|]. split; reflexivity.
  - exists init, sa1, sb, sb1, reply, accept. split; [exact Ei|]. split; [exact Eb|]. split; [exact Es|].
    split; [|exact He].
    destruct (Ha empty_ctx 0%Z 0%Z (fun _ => [])) as (sa2 & effects & E & P & _).
    exists sa2, effects. split; [exact E | exact P].
Defined.

Lemma session_data_delivered_witness :
  exists message payload,
    (@send_session_data_message toy bencode SessionDemo.sender_ctx 5 (replicate 30 69%Z) TT_UDP (replicate 24 2%Z)
       SessionDemo.sender).1.2 = [ESendDatagram (PRouter (Demo.pk 1)) message]
    /\ @run_session_message toy bencode 3 MsgDemo.net2 MsgDemo.clients false (PRouter (Demo.pk 1)) message
       = Some (PConn [9%Z], SessData payload 88 (replicate 24 2%Z))
    /\ (@recv_session_data_message toy false true true 6 payload (replicate 24 2%Z) SessionDemo.receiver).1.2
       = [EInboundPacket (replicate 30 69%Z) TT_UDP (mkNetAddr (replicate 32 1%Z) true)].
Proof.
  apply (@session_data_delivered toy toy_laws bencode bencode_laws MsgDemo.net2 MsgDemo.clients SessionDemo.sender_ctx
    SessionDemo.sender SessionDemo.receiver (replicate 32 9%Z) [9%Z] MsgDemo.path_a MsgDemo.path_b MsgDemo.a_t
    MsgDemo.a_t MsgDemo.b_t [MsgDemo.b_0] 5 6 (replicate 30 69%Z) (replicate 24 2%Z) TT_UDP).
  - split; [reflexivity | reflexivity | |];
      (eexists; split; [reflexivity|]; split; [reflexivity|]; apply SessionDemo.buf; lia).
  - split; try reflexivity; [discriminate|]. exists 0. split; reflexivity.
  - reflexivity.
  - cbn. lia.
  - exact MsgDemo.a_carried.
  - reflexivity.
  - reflexivity.
  - exact MsgDemo.b_reaches.
  - reflexivity.
  - vm_compute. discriminate.
  - reflexivity.
  - simpl. unfold MIN_PACKET_SIZE. lia.
  - reflexivity.
  - discriminate.
Defined.
