(* ===== verification/SessionEndpoint.v ===== *)
(** * The session endpoint (handlers/session.{hpp,cpp}) and the dispatch of session
      messages to it (link/link_manager.cpp)

    The endpoint owns the sessions: the table by remote address, the table by tag that
    incoming messages are looked up in, and the jobs that forget closed sessions.
    Sessions are objects in a heap, the tables hold pointers to them.  The parts of
    the router that are not modelled here (the tun device, the event loop) are
    arguments, effects and the list of deferred jobs.  Times are milliseconds. *)

From Stdlib Require Import ZArith Lia.
From stdpp Require Import base list numbers strings gmap relations.
From coqutil Require Import Datatypes.RecordSettersUsingExistingGetters.
From S2P Require Import Prelude Oxenc Messages Crypto SessionKeys RelayContact Path PathContext PathBuild PathMsg.
From S2P Require Import RcStore NodeDB PathHandler ClientContact Session SessionPaths SessionHandshake.

Local Open Scope Z_scope.
Local Open Scope router_scope.

#[export] Instance NetworkAddress_countable : Countable NetworkAddress :=
  inj_countable' (fun a => (na_pubkey a, na_client a)) (fun x => mkNetAddr x.1 x.2) ltac:(by intros []).

(** ** State *)
Record Endpoint := mkEndpoint {
  se_heap : gmap nat Session;
  se_next : nat;
  se_sessions : gmap NetworkAddress nat;   (* _sessions *)
  se_tags : gmap Z nat;                    (* _session_tags *)
  se_last_tag : Z;                         (* last_tag, 32 bits *)
  se_deferred : list nat;                  (* the call_soon jobs of close_session *)
  se_running : bool;
}.

(** Computes the fields of an updated endpoint. *)
Ltac endpoint_cbn :=
  cbn [set RecordSettersUsingExistingGetters.const se_heap se_next se_sessions se_tags se_last_tag se_deferred se_running
       fst snd].

Definition Endpoint_new (last_tag : Z) : Endpoint := mkEndpoint ∅ 0 ∅ ∅ last_tag [] true.

(** [std::make_shared] of a session *)
Definition alloc_session (s : Session) (e : Endpoint) : nat * Endpoint :=
  (se_next e, e <| se_heap ::= insert (se_next e) s |> <| se_next ::= S |>).

(** A method of the session at [p] *)
Definition run_session {A} (p : nat) (m : SM A) (dflt : A) (e : Endpoint) : Endpoint * list Effect * outcome string A :=
  match se_heap e !! p with
  | Some s => let '(s, effects, r) := m s in (e <| se_heap ::= insert p s |>, effects, r)
  | None => (e, [], Ok dflt)
  end.

(** [get_session(tag)], [get_session(remote)] *)
Definition get_session (tag : Z) (e : Endpoint) : option nat := if tag =? 0 then None else se_tags e !! tag.
Definition get_session_to (remote : NetworkAddress) (e : Endpoint) : option nat := se_sessions e !! remote.

(** ** Tags *)

(** The loop of [next_tag]; tags are 32 bits wide, 0 is reserved. *)
Fixpoint next_tag_loop (fuel : nat) (tags : gmap Z nat) (last_tag : Z) : option Z :=
  match fuel with
  | O => None
  | S fuel =>
    if bool_decide (is_Some (tags !! last_tag)) || (last_tag =? 0)
    then next_tag_loop fuel tags ((last_tag + 1) mod 2 ^ 32)
    else Some last_tag
  end.
(** [next_tag()]: it looks at no more tags than there are in use, and two. *)
Definition next_tag (e : Endpoint) : option (Z * Endpoint) :=
  (fun t => (t, e <| se_last_tag := t |>)) <$> next_tag_loop (size (se_tags e) + 2) (se_tags e) (se_last_tag e).

(** ** Closing *)

(** [close_session(s, send_close)] *)
Definition close_session `{Sodium} `{Oxenc} (ctx : PathContext) (now : Z) (send_close : bool) (nonce : bytes) (p : nat)
    (e : Endpoint) : Endpoint * list Effect :=
  let '(e, effects, _) := run_session p (close ctx now send_close nonce) tt e in
  (e <| se_deferred ::= fun l => l ++ [p] |>, effects).

(** [close_session(remote, send_close)], [close_session(tag, send_close)]: whether there is one *)
Definition close_session_to `{Sodium} `{Oxenc} ctx now send_close nonce (remote : NetworkAddress) (e : Endpoint)
    : Endpoint * list Effect * bool :=
  match se_sessions e !! remote with
  | Some p => (close_session ctx now send_close nonce p e, true)
  | None => (e, [], false)
  end.
Definition close_session_tag `{Sodium} `{Oxenc} ctx now send_close nonce (tag : Z) (e : Endpoint)
    : Endpoint * list Effect * bool :=
  match se_tags e !! tag with
  | Some p => (close_session ctx now send_close nonce p e, true)
  | None => (e, [], false)
  end.

(** The deferred job: a session that is not in the table any more is left alone, which is
    also what happens when nothing holds it. *)
Definition forget_session (p : nat) (e : Endpoint) : Endpoint :=
  match se_heap e !! p with
  | Some s =>
    if decide (se_sessions e !! s_remote s = Some p)
    then e <| se_tags ::= delete (s_inbound_tag s) |> <| se_sessions ::= delete (s_remote s) |>
    else e
  | None => e
  end.
Definition run_deferred (e : Endpoint) : Endpoint :=
  match se_deferred e with
  | [] => e
  | p :: l => forget_session p (e <| se_deferred := l |>)
  end.

(** [stop(send_close)] *)
Definition endpoint_stop `{Sodium} `{Oxenc} (ctx : PathContext) (now : Z) (send_close : bool) (nonces : nat -> bytes)
    (e : Endpoint) : Endpoint * list Effect :=
  let '(e, effects) :=
    foldl (fun '(e, effects) '(_, p) =>
      let '(e, eff, _) := run_session p (close ctx now send_close (nonces p)) tt e in (e, effects ++ eff))
      (e <| se_running := false |>, []) (map_to_list (se_sessions e)) in
  (e <| se_tags := ∅ |>, effects).

(** [session_stats()]: inbound, outbound to relays and to clients, and those of them that
    are pending *)
Definition session_stats (e : Endpoint) : Z * Z * Z * Z * Z :=
  foldl (fun '(i, r, c, rp, cp) '(_, p) =>
    match se_heap e !! p with
    | None => (i, r, c, rp, cp)
    | Some s =>
      let pending := if session_is_established s then 0 else 1 in
      if s_is_closed s then (i, r, c, rp, cp)
      else if negb (is_outbound (s_kind s)) then (i + 1, r, c, rp, cp)
      else if is_relay_session (s_kind s) then (i, r + 1, c, rp + pending, cp)
      else (i, r, c + 1, rp, cp + pending)
    end) (0, 0, 0, 0, 0) (map_to_list (se_sessions e)).

(** ** New sessions *)

(** [session_post_init(new_session)] for the session at [p]; [mapped] tells whether
    [map_session_v6] finds an address. *)
Definition session_post_init `{Sodium} `{Oxenc} (ctx : PathContext) (now : Z) (nonce : bytes) (mapped : bool) (p : nat)
    (e : Endpoint) : Endpoint * list Effect :=
  match se_heap e !! p with
  | None => (e, [])
  | Some s =>
    if negb mapped then (e, [])
    else
      let e := match se_sessions e !! s_remote s ≫= fun q => se_heap e !! q with
               | Some old => e <| se_tags ::= delete (s_inbound_tag old) |>
               | None => e
               end in
      let e := e <| se_sessions ::= insert (s_remote s) p |> <| se_tags ::= insert (s_inbound_tag s) p |> in
      (run_session p (session_init_accept ctx now nonce) tt e).1
  end.

(** The two [handle_session_init(payload, path)]: [relay] for a transit hop.  The exceptions
    of the session's constructor are caught. *)
Definition handle_session_init `{Sodium} `{Oxenc} `{BoxKem} (sk : bytes) (ctx : PathContext) (now : Z) (nonce : bytes)
    (mapped relay : bool) (d : AcceptDraws) (payload : bytes) (current : nat) (e : Endpoint) : Endpoint * list Effect :=
  match next_tag e with
  | None => (e, [])
  | Some (tag, e1) =>
    match inbound_init sk (Session_inbound relay (Some current) now) tag payload d with
    | Throw _ => (e, [])
    | Ok s => let '(p, e) := alloc_session s e1 in session_post_init ctx now nonce mapped p e
    end
  end.

(** [initiate_remote_session(remote, on_attempted, timeout)]; [start] is the body of the
    session's constructor, which looks the remote up. *)
Definition initiate_remote_session (now steady_now build_timeout : Z) (start : SM unit) (remote : NetworkAddress)
    (on_attempted : option nat) (timeout : option Z) (e : Endpoint)
    : Endpoint * list Effect * outcome string (option nat) :=
  let usable := se_sessions e !! remote ≫= fun p => se_heap e !! p ≫= fun s =>
                  if negb (s_is_closed s) && negb (s_unreachable s) then Some (p, s) else None in
  let wait := match on_attempted with
              | Some cb => on_established steady_now build_timeout cb timeout
              | None => sret tt
              end in
  match usable with
  | Some (p, s) =>
    let m := match on_attempted with
             | Some cb => if session_is_established s then stell (EFired cb true) else wait
             | None => sret tt
             end in
    let '(e, effects, r) := run_session p m tt e in (e, effects, let! _ := r in Ok (Some p))
  | None =>
    match next_tag e with
    | None => (e, [], Ok None)
    | Some (tag, e) =>
      match (wait ;; start) (Session_outbound (negb (na_client remote)) remote tag now) with
      | (_, effects, Throw x) => (e, effects, Throw "Error creating session to remote"%string)
      | (s, effects, Ok _) =>
        if s_unreachable s then (e, effects, Ok None)
        else
          let '(p, e) := alloc_session s e in
          (e <| se_tags ::= fun t => match t !! tag with Some _ => t | None => <[tag := p]> t end |>
             <| se_sessions ::= insert remote p |>, effects, Ok (Some p))
      end
    end
  end.

(** ** Tags are fresh *)
Lemma next_tag_loop_some fuel tags t t' : next_tag_loop fuel tags t = Some t' -> 0 <= t < 2 ^ 32 ->
  tags !! t' = None /\ t' <> 0 /\ 0 <= t' < 2 ^ 32.
Proof.
  revert t. induction fuel as [|fuel IH]; intros t Hl Ht; [done|]. cbn [next_tag_loop] in Hl.
  destruct (bool_decide_reflect (is_Some (tags !! t))) as [Hs|Hs]; cbn [orb] in Hl.
  - apply IH in Hl; [done|]. by apply Z.mod_pos_bound.
  - destruct (Z.eqb_spec t 0) as [Hz|Hz]; [apply IH in Hl; [done|by apply Z.mod_pos_bound]|].
    injection Hl as <-. split; [by apply eq_None_not_Some|done].
Qed.

(** A loop that finds nothing has seen that many different tags in use. *)
Lemma next_tag_loop_none fuel tags t : next_tag_loop fuel tags t = None -> 0 <= t < 2 ^ 32 ->
  forall i, (i < fuel)%nat -> (t + Z.of_nat i) mod 2 ^ 32 ∈ {[0]} ∪ dom tags.
Proof.
  revert t. induction fuel as [|fuel IH]; intros t Hl Ht i Hi; [lia|]. cbn [next_tag_loop] in Hl.
  assert (t ∈ ({[0]} ∪ dom tags : gset Z) /\ next_tag_loop fuel tags ((t + 1) mod 2 ^ 32) = None) as [Hin Hl'].
  { destruct (bool_decide_reflect (is_Some (tags !! t))) as [Hs|Hs]; cbn [orb] in Hl.
    - split; [|done]. apply elem_of_union_r. by apply elem_of_dom.
    - destruct (Z.eqb_spec t 0) as [Hz|]; [|done]. rewrite Hz at 1. split; [set_solver|done]. }
  destruct i as [|i]; [by rewrite Z.add_0_r, Z.mod_small|].
  replace ((t + Z.of_nat (S i)) mod 2 ^ 32) with (((t + 1) mod 2 ^ 32 + Z.of_nat i) mod 2 ^ 32).
  - apply IH; [done| by apply Z.mod_pos_bound | lia].
  - rewrite Z.add_mod_idemp_l by lia. f_equal. lia.
Qed.

(** As long as not every 32-bit value is in use, [next_tag] returns: it stops after at
    most as many steps as there are tags in use plus two, with a tag that is neither in
    use nor the reserved 0. *)
Theorem next_tag_terminates e : 0 <= se_last_tag e < 2 ^ 32 -> Z.of_nat (size (se_tags e)) + 2 <= 2 ^ 32 ->
  exists t, next_tag e = Some (t, e <| se_last_tag := t |>) /\ se_tags e !! t = None /\ t <> 0 /\ 0 <= t < 2 ^ 32.
Proof.
  intros Ht Hsize. unfold next_tag. destruct (next_tag_loop _ _ _) as [t|] eqn:El.
  { exists t. split; [done|]. by eapply next_tag_loop_some. }
  exfalso. set (n := (size (se_tags e) + 2)%nat) in *.
  set (l := (fun i => (se_last_tag e + Z.of_nat i) mod 2 ^ 32) <$> seq 0 n).
  assert (NoDup l) as Hnd.
  { apply NoDup_fmap_2_strong; [|apply NoDup_seq]. intros i j Hi%elem_of_seq Hj%elem_of_seq Heq.
    assert (Z.of_nat i = Z.of_nat j); [|lia]. rewrite <- (Z.mod_small (Z.of_nat i) (2 ^ 32)), <- (Z.mod_small (Z.of_nat j) (2 ^ 32)) by lia.
    replace (Z.of_nat i) with (se_last_tag e + Z.of_nat i - se_last_tag e) by lia.
    replace (Z.of_nat j) with (se_last_tag e + Z.of_nat j - se_last_tag e) by lia.
    by rewrite <- Zminus_mod_idemp_l, Heq, Zminus_mod_idemp_l. }
  assert (list_to_set l ⊆ ({[0]} ∪ dom (se_tags e) : gset Z)) as Hsub.
  { intros x (i & -> & Hi%elem_of_seq)%elem_of_list_to_set%list_elem_of_fmap. eapply next_tag_loop_none; [exact El|done|lia]. }
  apply subseteq_size in Hsub. rewrite size_list_to_set in Hsub by done. unfold l in Hsub. rewrite length_fmap, length_seq in Hsub.
  rewrite size_union_alt, size_singleton in Hsub.
  pose proof (subseteq_size (dom (se_tags e) ∖ {[0]}) (dom (se_tags e)) ltac:(set_solver)) as Hd. rewrite size_dom in Hd. lia.
Qed.

Lemma next_tag_terminates_witness :
  next_tag (mkEndpoint ∅ 0 ∅ {[2 ^ 32 - 1 := 0%nat; 1 := 1%nat]} (2 ^ 32 - 1) [] true)
  = Some (2, mkEndpoint ∅ 0 ∅ {[2 ^ 32 - 1 := 0%nat; 1 := 1%nat]} 2 [] true).
Proof.
  destruct (next_tag_terminates (mkEndpoint ∅ 0 ∅ {[2 ^ 32 - 1 := 0%nat; 1 := 1%nat]} (2 ^ 32 - 1) [] true))
    as (t & Ht & _).
  - cbn. lia.
  - vm_compute. discriminate.
  - rewrite Ht. vm_compute in Ht. injection Ht as <-. reflexivity.
Defined.

(** ** What session methods keep *)
Definition ident (s : Session) : Z * NetworkAddress := (s_inbound_tag s, s_remote s).

Lemma keeps_ident {A} (m : SM A) : keeps key_part m -> keeps ident m.
Proof. intros Hm s. specialize (Hm s). unfold key_part, ident in *. injection Hm. congruence. Qed.

Section Ident.
Context `{Sodium} `{Oxenc} `{BoxKem} (ctx : PathContext).

Lemma keeps_send_path_control now data nonce type : keeps ident (send_path_control_message ctx now data nonce type).
Proof. unfold send_path_control_message, update_active. keeps_tac. apply keeps_ident, keeps_send_over_current. Qed.
Lemma keeps_send_control now method body nonce : keeps ident (send_session_control_message ctx now method body nonce).
Proof. unfold send_session_control_message. keeps_tac. apply keeps_send_path_control. Qed.
Lemma keeps_send_precontrol now body type nonce : keeps ident (send_session_precontrol_message ctx now body type nonce).
Proof. unfold send_session_precontrol_message. keeps_tac. apply keeps_send_path_control. Qed.
Lemma keeps_close now send_close nonce : keeps ident (close ctx now send_close nonce).
Proof. unfold close. keeps_tac. apply keeps_send_control. Qed.
Lemma keeps_session_init_accept now nonce : keeps ident (session_init_accept ctx now nonce).
Proof. unfold session_init_accept. keeps_tac; [apply keeps_send_control | apply keeps_send_precontrol]. Qed.
Lemma keeps_flush_ident now nonces : keeps ident (flush_queue ctx now nonces).
Proof. apply keeps_ident, keeps_flush_queue. Qed.
Lemma keeps_fire_ident now : keeps ident (fire_waiting now).
Proof. apply keeps_ident, keeps_fire_waiting. Qed.

Lemma keeps_recv_control spoiled now steady nonces message nonce source :
  keeps ident (recv_session_control_message ctx spoiled now steady nonces message nonce source).
Proof.
  unfold recv_session_control_message, handle_session_accept_deprecated, recv_close, recv_path_switch, handle_path_switch.
  keeps_tac; (apply keeps_flush_ident || apply keeps_fire_ident).
Qed.
Lemma keeps_recv_data e t m now data nonce : keeps ident (recv_session_data_message e t m now data nonce).
Proof. unfold recv_session_data_message. keeps_tac. Qed.
Lemma keeps_make_init sk old path d : keeps ident (make_session_init sk old path d).
Proof. unfold make_session_init. keeps_tac. Qed.
Lemma keeps_switch_path sk old now p path d : keeps ident (switch_path sk ctx old now p path d).
Proof.
  unfold switch_path. keeps_tac;
    (apply keeps_make_init || apply keeps_send_precontrol || apply keeps_send_path_control).
Qed.
Lemma keeps_handle_accept sk now steady nonces payload : keeps ident (handle_session_accept sk ctx now steady nonces payload).
Proof.
  unfold handle_session_accept, complete_accept. keeps_tac; (apply keeps_flush_ident || apply keeps_fire_ident).
Qed.

Lemma inbound_init_tag sk s tag request d s' : inbound_init sk s tag request d = Ok s' -> s_inbound_tag s' = tag.
Proof.
  unfold inbound_init. intros Hi. outcome_inv Hi. destruct (negb _).
  - unfold init_legacy in Hi. outcome_inv Hi. by injection Hi as <-.
  - outcome_inv Hi. repeat (case_match; outcome_inv Hi). by injection Hi as <-.
Qed.
End Ident.

(** ** The tables *)
Record se_inv (e : Endpoint) : Prop := {
  si_tags t p : se_tags e !! t = Some p -> t <> 0 /\ exists s, se_heap e !! p = Some s /\ s_inbound_tag s = t;
  si_sessions a p : se_sessions e !! a = Some p -> exists s, se_heap e !! p = Some s /\ s_remote s = a
    /\ (se_running e = true -> se_tags e !! s_inbound_tag s = Some p);
  si_next p : (se_next e <= p)%nat -> se_heap e !! p = None;
  si_last : 0 <= se_last_tag e < 2 ^ 32;
}.

Lemma se_inv_frame e e' : se_heap e' = se_heap e -> se_next e' = se_next e -> se_sessions e' = se_sessions e ->
  se_tags e' = se_tags e -> se_running e' = se_running e -> 0 <= se_last_tag e' < 2 ^ 32 -> se_inv e -> se_inv e'.
Proof. intros E1 E2 E3 E4 E5 Hl [I1 I2 I3 I4]. split; rewrite ?E1, ?E2, ?E3, ?E4, ?E5; done. Qed.

Lemma se_inv_run {A} p (m : SM A) dflt e : keeps ident m -> se_inv e -> se_inv (run_session p m dflt e).1.1.
Proof.
  intros Hm [I1 I2 I3 I4]. unfold run_session. destruct (se_heap e !! p) as [s|] eqn:Ep; [|done].
  specialize (Hm s). destruct (m s) as [[s' eff] r]. cbn [final fst] in Hm. unfold ident in Hm. injection Hm as Ht Hr.
  assert (forall q x, se_heap e !! q = Some x -> exists y, <[p:=s']> (se_heap e) !! q = Some y
    /\ s_inbound_tag y = s_inbound_tag x /\ s_remote y = s_remote x) as Hup.
  { intros q x Hq. destruct (decide (p = q)) as [<-|].
    - rewrite lookup_insert_eq. rewrite Ep in Hq. injection Hq as <-. eauto.
    - rewrite lookup_insert_ne by done. eauto. }
  split; endpoint_cbn.
  - intros t q Hq. destruct (I1 t q Hq) as (? & x & Hx & <-). destruct (Hup q x Hx) as (y & ? & ? & _). eauto.
  - intros a q Hq. destruct (I2 a q Hq) as (x & Hx & <- & Hrun). destruct (Hup q x Hx) as (y & Hy & Hyt & Hyr).
    exists y. by rewrite Hyt, Hyr.
  - intros q Hq. rewrite lookup_insert_ne; [by apply I3|]. intros ->. by rewrite I3 in Ep.
  - done.
Qed.

Lemma se_inv_forget p e : se_inv e -> se_inv (forget_session p e).
Proof.
  intros [I1 I2 I3 I4]. unfold forget_session. destruct (se_heap e !! p) as [s|] eqn:Ep; [|done].
  case_decide as Hs; [|done]. split; endpoint_cbn; [| |done..].
  - intros t q [_ Hq]%lookup_delete_Some. by apply I1.
  - intros a q [Hne Hq]%lookup_delete_Some. destruct (I2 a q Hq) as (x & Hx & Ha & Hrun). exists x. split_and!; [done..|].
    intros Hr. apply lookup_delete_Some. split; [|by apply Hrun]. intros Ht.
    destruct (I2 _ p Hs) as (s2 & Hs2 & _ & Hrun2). rewrite Ep in Hs2. injection Hs2 as <-.
    specialize (Hrun Hr). specialize (Hrun2 Hr). rewrite Ht in Hrun2. rewrite Hrun in Hrun2. injection Hrun2 as ->. congruence.
Qed.

(** A new session is put into the tables under a tag that is not in use; [drop] is the tag
    that is taken out. *)
Lemma se_inv_register s a (drop : option Z) e :
  se_inv e -> s_remote s = a -> s_inbound_tag s <> 0 -> se_tags e !! s_inbound_tag s = None ->
  (forall t, drop = Some t -> exists q old, se_sessions e !! a = Some q /\ se_heap e !! q = Some old /\ s_inbound_tag old = t) ->
  let p := se_next e in
  se_inv ((alloc_session s e).2 <| se_sessions ::= insert a p |>
            <| se_tags ::= fun t => insert (s_inbound_tag s) p (match drop with Some d => delete d t | None => t end) |>).
Proof.
  intros [I1 I2 I3 I4] <- Hz Hfresh Hdrop p. unfold alloc_session. cbn [snd]. fold p.
  assert (se_heap e !! p = None) as Hp by (by apply I3).
  assert (forall q, is_Some (se_heap e !! q) -> p <> q) as Hne by (intros q [x Hx] <-; congruence).
  set (tags := match drop with Some d => delete d (se_tags e) | None => se_tags e end).
  assert (forall t q, tags !! t = Some q -> se_tags e !! t = Some q) as Htags.
  { intros t q. unfold tags. destruct drop; [by intros [_ ?]%lookup_delete_Some | done]. }
  split; endpoint_cbn; fold tags.
  - intros t q [[<- <-]|[Ht Hq%Htags]]%lookup_insert_Some; [split; [done|]; exists s; by rewrite lookup_insert_eq|].
    destruct (I1 t q Hq) as (? & x & Hx & <-). split; [done|]. exists x. rewrite lookup_insert_ne; [done|]. apply Hne. by eexists.
  - intros b q [[<- <-]|[Hb Hq]]%lookup_insert_Some.
    + exists s. rewrite !lookup_insert_eq. done.
    + destruct (I2 b q Hq) as (x & Hx & Hxa & Hrun). exists x. rewrite lookup_insert_ne by (apply Hne; by eexists).
      split_and!; [done..|]. intros Hr. specialize (Hrun Hr). rewrite lookup_insert_ne by congruence.
      unfold tags. destruct drop as [d|]; [|done]. apply lookup_delete_Some. split; [|done]. intros Hd.
      destruct (Hdrop d eq_refl) as (o & old & Ho & Hold & Hod). destruct (I2 _ o Ho) as (x2 & Hx2 & Hx2a & Hrun2).
      rewrite Hold in Hx2. injection Hx2 as <-. specialize (Hrun2 Hr). rewrite Hod, Hd, Hrun in Hrun2.
      injection Hrun2 as ->. rewrite Hx in Hold. injection Hold as ->. congruence.
  - intros q Hq. rewrite lookup_insert_ne by lia. apply I3. lia.
  - done.
Qed.

Section Reachable.
Context `{Sodium} `{Oxenc} `{BoxKem}.

Lemma se_inv_close ctx now send_close nonce p e : se_inv e -> se_inv (close_session ctx now send_close nonce p e).1.
Proof.
  intros He. unfold close_session. pose proof (se_inv_run p _ tt e (keeps_close ctx now send_close nonce) He) as Hr.
  destruct (run_session _ _ _ _) as [[e' eff] r]. cbn [fst] in *. by apply (se_inv_frame e'); try apply (si_last e' Hr).
Qed.

Lemma se_inv_deferred e : se_inv e -> se_inv (run_deferred e).
Proof.
  intros He. unfold run_deferred. destruct (se_deferred e) as [|p l]; [done|]. apply se_inv_forget.
  by apply (se_inv_frame e); try apply (si_last e He).
Qed.

Lemma se_inv_stop ctx now send_close nonces e : se_inv e -> se_inv (endpoint_stop ctx now send_close nonces e).1.
Proof.
  intros He. unfold endpoint_stop.
  assert (forall l e eff, se_running e = false -> se_inv e ->
    let '(e', _) := foldl (fun '(e, effects) '(_, p) =>
      let '(e, eff, _) := run_session p (close ctx now send_close (nonces p)) tt e in (e, effects ++ eff)) (e, eff)
      (l : list (NetworkAddress * nat)) in
    se_running e' = false /\ se_inv e') as Hl.
  { induction l as [|[a p] l IH]; intros e0 eff Hr Hi; [done|]. cbn [foldl].
    pose proof (se_inv_run p _ tt e0 (keeps_close ctx now send_close (nonces p)) Hi) as Hi'.
    assert (se_running (run_session p (close ctx now send_close (nonces p)) tt e0).1.1 = false) as Hr'.
    { unfold run_session. destruct (se_heap e0 !! p) as [s|]; [|done]. by destruct (close _ _ _ _ s) as [[? ?] ?]. }
    destruct (run_session _ _ _ _) as [[e1 eff1] r1]. by apply IH. }
  specialize (Hl (map_to_list (se_sessions e)) (e <| se_running := false |>) [] eq_refl).
  destruct (foldl _ _ _) as [e' eff]. destruct Hl as [Hr [I1 I2 I3 I4]].
  { destruct He as [I1 I2 I3 I4]. split; endpoint_cbn; [done| |done|done]. intros a p Hp.
    destruct (I2 a p Hp) as (s & ? & ? & _). by exists s. }
  cbn [fst]. split; endpoint_cbn; [by intros; rewrite lookup_empty in *| |done|done].
  intros a p Hp. destruct (I2 a p Hp) as (s & ? & ? & _). exists s. split_and!; [done..|]. by rewrite Hr.
Qed.

Lemma next_tag_spec e t e' : se_inv e -> next_tag e = Some (t, e') ->
  e' = e <| se_last_tag := t |> /\ se_inv e' /\ t <> 0 /\ se_tags e !! t = None.
Proof.
  intros He Hn. unfold next_tag in Hn. destruct (next_tag_loop _ _ _) as [t'|] eqn:El; [|done]. injection Hn as <- <-.
  destruct (next_tag_loop_some _ _ _ _ El (si_last e He)) as (? & ? & ?). split_and!; try done. by apply (se_inv_frame e).
Qed.

Lemma se_inv_post_init ctx now nonce mapped s e :
  se_inv e -> s_inbound_tag s <> 0 -> se_tags e !! s_inbound_tag s = None ->
  se_inv (session_post_init ctx now nonce mapped (alloc_session s e).1 (alloc_session s e).2).1.
Proof.
  intros He Hz Ht. unfold session_post_init. cbn [alloc_session fst snd]. endpoint_cbn. rewrite lookup_insert_eq.
  destruct mapped; cbn [negb fst].
  2: { destruct He as [I1 I2 I3 I4]. assert (se_heap e !! se_next e = None) as Hp by (by apply I3).
       assert (forall q x, se_heap e !! q = Some x -> <[se_next e := s]> (se_heap e) !! q = Some x) as Hup.
       { intros q x Hq. rewrite lookup_insert_ne; [done|]. intros <-. congruence. }
       split; endpoint_cbn; [| |intros q Hq; rewrite lookup_insert_ne by lia; apply I3; lia|done].
       - intros t q Hq. destruct (I1 t q Hq) as (? & x & ? & ?). eauto.
       - intros a q Hq. destruct (I2 a q Hq) as (x & ? & ? & ?). eauto. }
  apply se_inv_run; [apply keeps_session_init_accept|].
  assert (se_sessions e !! s_remote s ≫= (fun q => <[se_next e := s]> (se_heap e) !! q)
    = se_sessions e !! s_remote s ≫= (fun q => se_heap e !! q)) as ->.
  { destruct (se_sessions e !! s_remote s) as [q|] eqn:Eq; [|done]. cbn. destruct (si_sessions e He _ _ Eq) as (x & Hx & _).
    rewrite lookup_insert_ne; [done|]. intros <-. by rewrite (si_next e He) in Hx. }
  destruct (se_sessions e !! s_remote s ≫= (fun q => se_heap e !! q)) as [old|] eqn:Eo.
  - apply (se_inv_register s _ (Some (s_inbound_tag old)) e He eq_refl Hz Ht). intros t [= <-].
    destruct (se_sessions e !! s_remote s) as [q|] eqn:Eq; [|done]. cbn in Eo. eauto.
  - by apply (se_inv_register s _ None e He eq_refl Hz Ht).
Qed.

Lemma se_inv_handle_init sk ctx now nonce mapped relay d payload current e :
  se_inv e -> se_inv (handle_session_init sk ctx now nonce mapped relay d payload current e).1.
Proof.
  intros He. unfold handle_session_init. destruct (next_tag e) as [[t e1]|] eqn:En; [|done].
  destruct (next_tag_spec e t e1 He En) as (-> & He1 & Hz & Ht).
  destruct (inbound_init _ _ _ _ _) as [s|] eqn:Ei; [|done]. apply inbound_init_tag in Ei.
  apply (se_inv_post_init ctx now nonce mapped s (e <| se_last_tag := t |>) He1); by rewrite Ei.
Qed.

Lemma se_inv_initiate now steady build start remote cb timeout e :
  keeps ident start -> se_inv e -> se_inv (initiate_remote_session now steady build start remote cb timeout e).1.1.
Proof.
  intros Hstart He. unfold initiate_remote_session.
  set (wait := match cb with Some _ => _ | None => _ end).
  assert (keeps ident wait) as Hwait by (unfold wait, on_established; keeps_tac).
  destruct (_ ≫= _) as [[p s]|].
  - match goal with |- context [run_session p ?m tt e] => set (k := m) end.
    assert (keeps ident k) as Hk by (unfold k; destruct cb; [destruct (session_is_established s)|]; keeps_tac).
    pose proof (se_inv_run p k tt e Hk He) as Hr. by destruct (run_session p k tt e) as [[e' eff] r].
  - destruct (next_tag e) as [[t e1]|] eqn:En; [|done]. destruct (next_tag_spec e t e1 He En) as (-> & He1 & Hz & Ht).
    set (s0 := Session_outbound _ _ _ _). assert (keeps ident (wait ;; start)) as Hk by (by apply keeps_sbind).
    specialize (Hk s0). destruct ((wait ;; start) s0) as [[s eff] [u|x]]; [|done]. cbn [final fst] in Hk.
    injection Hk as Hst Hsr. destruct (s_unreachable s); [done|]. cbn [alloc_session fst snd]. endpoint_cbn.
    subst s0. unfold Session_outbound in Hst, Hsr. cbn in Hst, Hsr.
    pose proof (se_inv_register s remote None (e <| se_last_tag := t |>) He1 Hsr) as Hreg. rewrite Hst in Hreg.
    specialize (Hreg Hz Ht ltac:(done)). unfold set in *. endpoint_cbn. by rewrite Ht.
Qed.

(** What happens to an endpoint; a session's own methods keep its tag and its remote
    ([keeps_recv_control] and the lemmas by it). *)
Inductive se_step : Endpoint -> Endpoint -> Prop :=
| se_method {A} p (m : SM A) dflt e : keeps ident m -> se_step e (run_session p m dflt e).1.1
| se_close ctx now send_close nonce p e : se_step e (close_session ctx now send_close nonce p e).1
| se_defer e : se_step e (run_deferred e)
| se_init sk ctx now nonce mapped relay d payload current e :
    se_step e (handle_session_init sk ctx now nonce mapped relay d payload current e).1
| se_initiate now steady build start remote cb timeout e : keeps ident start ->
    se_step e (initiate_remote_session now steady build start remote cb timeout e).1.1
| se_stop ctx now send_close nonces e : se_step e (endpoint_stop ctx now send_close nonces e).1.

Lemma se_reachable_inv last e : 0 <= last < 2 ^ 32 -> rtc se_step (Endpoint_new last) e -> se_inv e.
Proof.
  intros Hl Hr. assert (se_inv (Endpoint_new last)) as H0'.
  { split; cbn; [by intros; rewrite lookup_empty in *..|done|done]. }
  revert H0'. induction Hr as [|x y z Hxy _ IH]; [done|]. intros Hx. apply IH. destruct Hxy.
  - by apply se_inv_run.
  - by apply se_inv_close.
  - by apply se_inv_deferred.
  - by apply se_inv_handle_init.
  - by apply se_inv_initiate.
  - by apply se_inv_stop.
Qed.

(** C11. While the endpoint runs, its tables agree, whatever the order of new sessions in
    both directions, session messages, closes and the deferred removals: every session in
    the table of remotes is found under its own tag, so that its messages reach it, and
    every tag is that of the session it gives. *)
Theorem endpoint_tables_agree last e : 0 <= last < 2 ^ 32 -> rtc se_step (Endpoint_new last) e -> se_running e = true ->
  (forall a p, get_session_to a e = Some p ->
     exists s, se_heap e !! p = Some s /\ s_remote s = a /\ get_session (s_inbound_tag s) e = Some p) /\
  (forall t p, get_session t e = Some p -> exists s, se_heap e !! p = Some s /\ s_inbound_tag s = t) /\
  (forall a b p, get_session_to a e = Some p -> get_session_to b e = Some p -> a = b).
Proof.
  intros Hl Hr Hrun. destruct (se_reachable_inv last e Hl Hr) as [I1 I2 I3 I4]. unfold get_session, get_session_to.
  split; [|split].
  - intros a p Hp. destruct (I2 a p Hp) as (s & Hs & Ha & Ht). specialize (Ht Hrun). destruct (I1 _ _ Ht) as [Hz _].
    exists s. split_and!; [done..|]. by rewrite (proj2 (Z.eqb_neq _ _) Hz).
  - intros t p. destruct (t =? 0); [done|]. intros Ht. by destruct (I1 _ _ Ht) as [_ ?].
  - intros a b p Ha Hb. destruct (I2 a p Ha) as (s & Hs & <- & _), (I2 b p Hb) as (s' & Hs' & <- & _). congruence.
Qed.

End Reachable.

(** ** An endpoint *)
Module EndpointDemo.
Definition remote : NetworkAddress := mkNetAddr (replicate 32 2) true.
Definition initiate (now : Z) (e : Endpoint) : Endpoint :=
  (initiate_remote_session now 0 0 (sret tt) remote None None e).1.1.
Definition one : Endpoint := initiate 0 (Endpoint_new (2 ^ 32 - 1)).
Definition closed : Endpoint := (@close_session toy bencode empty_ctx 10 false [] 0 one).1.
End EndpointDemo.

Lemma endpoint_tables_agree_witness :
  exists s, se_heap EndpointDemo.one !! 0%nat = Some s /\ s_remote s = EndpointDemo.remote
    /\ get_session (s_inbound_tag s) EndpointDemo.one = Some 0%nat.
Proof.
  destruct (@endpoint_tables_agree toy bencode toy_box (2 ^ 32 - 1) EndpointDemo.one) as [Ha _].
  - lia.
  - apply rtc_once. apply (se_initiate 0 0 0 (sret tt) EndpointDemo.remote None None). apply keeps_sret.
  - vm_compute. reflexivity.
  - apply Ha. vm_compute. reflexivity.
Defined.

(** A session that is closed, and replaced by a new one to the same remote before the
    deferred job runs, keeps its entry in the table of tags for good: the job finds
    another session in the table of remotes and does nothing. *)
Lemma closed_session_keeps_tag :
  let e := run_deferred (EndpointDemo.initiate 20 EndpointDemo.closed) in
  get_session (2 ^ 32 - 1) e = Some 0%nat /\ s_is_closed <$> se_heap e !! 0%nat = Some true
  /\ se_deferred e = [] /\ get_session_to EndpointDemo.remote e = Some 1%nat.
Proof. vm_compute. done. Qed.
