(* ===== verification/SessionDispatch.v ===== *)
(** * Session messages reach their sessions (link/link_manager.cpp)

    [handle_session_handshake], [handle_session_control] and [handle_session_data] look
    the session up by its tag and hand it the message, or make a new session.  With
    SessionPaths.v this gives the path switch: an initiator that moves to another
    path tells the other end, which answers on the path the request came in on. *)

From Stdlib Require Import ZArith Lia.
From stdpp Require Import base list numbers strings gmap.
From coqutil Require Import Datatypes.RecordSettersUsingExistingGetters.
From S2P Require Import Prelude Oxenc Messages Crypto SessionKeys RelayContact Path PathContext PathBuild PathMsg.
From S2P Require Import RcStore NodeDB PathHandler ClientContact Session SessionPaths SessionHandshake SessionEndpoint.

Local Open Scope Z_scope.
Local Open Scope router_scope.

Section Dispatch.
Context `{Sodium} `{Oxenc} `{BoxKem}.
Context (sk : bytes) (ctx : PathContext) (spoiled : bytes -> bytes).

Definition source_ptr (source : Source) : nat := match source with SrcHop p _ | SrcPath p _ => p end.
Definition source_is_hop (source : Source) : bool := match source with SrcHop _ _ => true | SrcPath _ _ => false end.

(** [handle_session_data(payload, tag, nonce)]: nothing catches what the session throws. *)
Definition handle_session_data (embedded has_tun map_v4 : bool) (now : Z) (payload : bytes) (tag : Z) (nonce : bytes)
    (e : Endpoint) : Endpoint * list Effect * outcome string unit :=
  match get_session tag e with
  | Some p => run_session p (recv_session_data_message embedded has_tun map_v4 now payload nonce) tt e
  | None => (e, [], Ok tt)
  end.

(** [handle_session_control(payload, tag, nonce, source)] *)
Definition handle_session_control (now steady_now : Z) (nonces : nat -> bytes) (payload : bytes) (tag : Z) (nonce : bytes)
    (source : Source) (e : Endpoint) : Endpoint * list Effect :=
  match get_session tag e with
  | Some p =>
    (run_session p (recv_session_control_message ctx spoiled now steady_now nonces payload nonce source) tt e).1
  | None => (e, [])
  end.

(** What a handshake message says: nothing understandable, a session init, an accept with
    what is left to read of it, or a path switch with its fallback init *)
Inductive Handshake : Type :=
| HsInvalid
| HsInit
| HsAccept (rest : bt_consumer)
| HsSwitch (path_switch fallback_init : bytes).

(** The [try] block of [handle_session_handshake] *)
Definition parse_handshake (payload : bytes) : Handshake :=
  match head payload with
  | Some 100 =>
    match (let! c := or_throw BT_ERROR (bt_dict_open payload) in
           let! (hs_type, c) := or_throw BT_ERROR (bt_require_string [] c) in
           if bool_decide (hs_type = str "i") then Ok HsInit
           else if bool_decide (hs_type = str "a") then Ok (HsAccept c)
           else if negb (bool_decide (hs_type = str "s")) then Ok HsInvalid
           else
             let! (path_switch, c) := or_throw BT_ERROR (bt_require_string (str "S") c) in
             let! (fallback_init, c) := or_throw BT_ERROR (bt_require_string (str "i") c) in
             throw_if negb (bt_finish c) with BT_ERROR in
             Ok (HsSwitch path_switch fallback_init)) with
    | Ok h => h
    | Throw _ => HsInvalid
    end
  | Some 108 =>
    match bt_list_open payload with
    | Some [BStr path_switch; BStr fallback_init] => HsSwitch path_switch fallback_init
    | _ => HsInvalid
    end
  | _ => HsInvalid
  end.

(** [handle_session_handshake(payload, tag, nonce, source)]; [reply] and [d] are the draws
    of a new session, [mapped] tells whether it gets an address. *)
Definition handle_session_handshake (now steady_now : Z) (nonces : nat -> bytes) (reply : bytes) (mapped : bool)
    (d : AcceptDraws) (payload : bytes) (tag : Z) (nonce : bytes) (source : Source) (e : Endpoint)
    : Endpoint * list Effect :=
  let init request :=
    handle_session_init sk ctx now reply mapped (source_is_hop source) d request (source_ptr source) e in
  match parse_handshake payload with
  | HsInvalid => (e, [])
  | HsInit => if tag =? 0 then init payload else (e, [])
  | HsAccept rest =>
    if tag =? 0 then (e, [])
    else
      match get_session tag e with
      | Some p =>
        match se_heap e !! p with
        | Some s =>
          if is_outbound (s_kind s)
          then (run_session p (handle_session_accept sk ctx now steady_now nonces rest) tt e).1
          else (e, [])
        | None => (e, [])
        end
      | None => (e, [])
      end
  | HsSwitch path_switch fallback_init =>
    match get_session tag e ≫= fun p => se_heap e !! p with
    | Some s =>
      let nonce := if is_established_pfs s then nonce else buf_xor nonce switch_xor_factor in
      handle_session_control now steady_now nonces path_switch tag nonce source e
    | None => if bool_decide (fallback_init = []) then (e, []) else init fallback_init
    end
  end.
End Dispatch.

(** ** Path switches *)
Section Switch.
Context `{SodiumLaws} `{OxencLaws} `{!BoxKem} `{!BoxKemLaws}.

Lemma parse_switch m init : parse_handshake (switch_payload false m init) = HsSwitch m init.
Proof.
  unfold parse_handshake, switch_payload. rewrite bt_produce_head, bt_open_produce. cbn [or_throw outcome_bind].
  rewrite bt_require_string_next. cbn [or_throw outcome_bind app]. rewrite !bool_decide_false by done.
  rewrite bool_decide_true by done. cbn [negb]. rewrite bt_require_string_next. cbn [or_throw outcome_bind app].
  rewrite bt_require_string_next. cbn [or_throw outcome_bind app]. by rewrite bt_finish_end.
Qed.

(** The list form that 1.0.x clients use is understood as well. *)
Lemma parse_switch_old m init : parse_handshake (switch_payload true m init) = HsSwitch m init.
Proof. unfold parse_handshake, switch_payload. by rewrite bt_value_list_head, bt_list_open_value. Qed.

Lemma switch_payload_length m init : (13 <= length (switch_payload false m init))%nat.
Proof.
  unfold switch_payload.
  pose proof (bt_produce_length [([], str "s"); (str "S", m); (str "i", init)]) as Hl. cbn [fmap list_fmap prod_map id] in Hl.
  unfold prod_map, id in Hl. cbn [fst snd] in Hl. rewrite Hl. cbn [sum_list_with fst snd].
  change (bt_str_len (length [])) with 2%nat. change (bt_str_len (length (str "s"))) with 3%nat.
  change (bt_str_len (length (str "S"))) with 3%nat. change (bt_str_len (length (str "i"))) with 3%nat.
  unfold bt_str_len. lia.
Qed.

(** What [switch_path] sends for an established session *)
Lemma switch_path_sends ctx ska skb now p path d s m key :
  ed25519_keypair skb -> na_pubkey (s_remote s) = ed25519_pubkey skb ->
  mlkem_generate (d_mlkem_seed (d_init d)) = Ok m ->
  s_kind s = OutboundClientSession -> s_is_established s = true -> is_established_pfs s = true ->
  s_outbound_key s = Some key ->
  path_heap ctx !! p = Some path -> is_established path = true -> path_dead path = false ->
  length (default (terminal_hopid path) (aligned_hopid path)) = HOPID_SIZE ->
  exists init_msg, (switch_path ska ctx false now p path d s).1.2 =
    [ESendCommand (PRouter (edge_router path))
      (encrypt_path_message path
        (session_plaintext (switch_payload false (aead_encrypt (path_switch_request path) [] (d_nonce d) key) init_msg)
           (s_outbound_tag s) (default (terminal_hopid path) (aligned_hopid path)))
        (d_nonce d) MT_SessionHandshake false)].
Proof.
  intros Hb Hr Hm Hk He Hpfs Hkey Hp Hpe Hpd Hlen. unfold switch_path. rewrite sbind_smod, sbind_sget.
  set (s1 := s <| s_current := Some p |> <| s_dead_path := false |>
               <| s_remote_pivot_txid := default (terminal_hopid path) (aligned_hopid path) |>).
  change (s_is_established s1) with (s_is_established s). rewrite He. cbn [negb].
  destruct (make_session_init_pq ska skb path (d_init d) s1 m) as (box & Ei & _); [done..|]. unfold sbind at 1. rewrite Ei.
  cbn [fst snd]. rewrite sbind_sget. set (s2 := s1 <| s_mlkem := Some m |> <| s_x25519 := Some (x25519_keypair (d_x25519 (d_init d))) |>).
  unfold make_session_message. change (s_dead_path s2) with false. change (s_kind s2) with (s_kind s). rewrite Hk.
  cbn [is_outbound is_relay_session negb andb]. change (s_outbound_key s2) with (s_outbound_key s). rewrite Hkey. cbv iota zeta.
  change (is_established_pfs s2) with (is_established_pfs s). rewrite Hpfs, app_nil_r, encrypt_inplace_eq by apply length_replicate.
  change (s_outbound_tag s2) with (s_outbound_tag s).
  change (s_remote_pivot_txid s2) with (default (terminal_hopid path) (aligned_hopid path)).
  set (pivot := default (terminal_hopid path) (aligned_hopid path)) in *. set (c := aead_encrypt _ _ _ _).
  rewrite write_big_spec. pose proof (length_be_bytes SESSION_TAG_SIZE (s_outbound_tag s)) as Lt.
  rewrite !length_app, Lt, Hlen, Nat.add_sub, take_app_length.
  rewrite (send_path_control_sends ctx s2 p path) by (done || (change (s_kind s2) with (s_kind s); by rewrite Hk)).
  eexists. reflexivity.
Qed.

(** The session that gets the request moves to the path it came over. *)
Definition switched (now : Z) (q : nat) (pivot : bytes) (s : Session) : Session :=
  s <| s_last_inbound_activity := now |> <| s_last_activity := now |>
    <| s_current := Some q |> <| s_dead_path := false |> <| s_remote_pivot_txid := pivot |>.

Lemma recv_path_switch_moves ctx spoiled now steady nonces nonce path q pb s key :
  s_kind s = InboundClientSession -> s_inbound_key s = Some key ->
  length (terminal_hopid path) = HOPID_SIZE -> terminal_hopid path <> terminal_hopid pb ->
  recv_session_control_message ctx spoiled now steady nonces
    (aead_encrypt (path_switch_request path) [] nonce key) nonce (SrcPath q pb) s
  = (switched now q (terminal_hopid path) s, [], Ok tt).
Proof.
  intros Hk Hkey Hlen Hne. unfold recv_session_control_message. rewrite sbind_smod, sbind_sget.
  set (s1 := s <| s_last_inbound_activity := now |> <| s_last_activity := now |>).
  unfold decrypt_control. change (s_inbound_key s1) with (s_inbound_key s). rewrite Hkey.
  unfold xchacha20_poly1305_decrypt_inplace. rewrite decide_False by (rewrite aead_encrypt_length; lia).
  rewrite aead_decrypt_encrypt. cbn [fmap option_fmap option_map]. unfold path_switch_request.
  rewrite bt_open_produce. cbn [or_throw]. rewrite sbind_slift_Ok, bt_require_string_next. cbn [or_throw].
  rewrite sbind_slift_Ok. cbn [fst snd app]. rewrite bt_require_string_next. cbn [or_throw].
  rewrite sbind_slift_Ok. cbn [fst snd]. rewrite !bool_decide_false, bool_decide_true by done.
  unfold recv_path_switch. rewrite sbind_sget. change (s_kind s1) with (s_kind s). rewrite Hk. cbn [is_outbound is_relay_session].
  rewrite bt_open_produce. cbn [or_throw]. rewrite sbind_slift_Ok, bt_require_span_next by done. cbn [or_throw].
  rewrite sbind_slift_Ok. cbn [fst snd app]. rewrite bt_finish_end, sbind_sret, bool_decide_false by done. done.
Qed.
End Switch.

(** C12. A path switch is followed: when an initiator with an established session moves to
    another path, the message it sends over that path pivots onto the other client's
    path, is dispatched there by its tag to the session, and that session then uses the
    path the message arrived on and addresses the initiator's new path; nothing else of
    the endpoint changes. *)
Theorem path_switch_followed `{SodiumLaws} `{OxencLaws} `{!BoxKem} `{!BoxKemLaws}
    (net : gmap bytes Relay) (clients : gmap bytes PathContext) (ska skb : bytes) (ctxa ctxb : PathContext)
    (spoiled : bytes -> bytes) (sa sb : Session) (ka : bytes) (cid : bytes) (pa pb : Path) (a0 ta tb : TransitHop)
    (init : list TransitHop) (p q r : nat) (e : Endpoint) (d : SwitchDraws) (m : MLKEM768KeyPair)
    (now now' steady : Z) (nonces : nat -> bytes) (reply : bytes) (mapped : bool) (ad : AcceptDraws) :
  paired sa sb -> s_kind sa = OutboundClientSession -> s_kind sb = InboundClientSession ->
  s_is_established sa = true -> s_outbound_key sa = Some ka ->
  ed25519_keypair skb -> na_pubkey (s_remote sa) = ed25519_pubkey skb -> mlkem_generate (d_mlkem_seed (d_init d)) = Ok m ->
  path_heap ctxa !! p = Some pa -> is_established pa = true -> path_dead pa = false -> aligned_hopid pa = Some (rxid tb) ->
  get_session (s_inbound_tag sb) e = Some q -> se_heap e !! q = Some sb ->
  (0 <= s_outbound_tag sa < 2 ^ 32)%Z -> length (terminal_hopid pa) = HOPID_SIZE -> terminal_hopid pa <> terminal_hopid pb ->
  carried net (hops pa) -> head (hops pa) = Some a0 -> last (hops pa) = Some ta ->
  path_reaches net clients cid pb init tb -> router_id ta = router_id tb -> rxid ta <> rxid tb ->
  length (d_nonce d) = SYMM_NONCE_SIZE ->
  exists message payload,
    (switch_path ska ctxa false now p pa d sa).1.2 = [ESendCommand (PRouter (router_id a0)) message]
    /\ run_session_message (length (hops pa) + length (hops pb)) net clients true (PRouter (router_id a0)) message
       = Some (PConn cid, SessHandshake payload (s_inbound_tag sb) (d_nonce d))
    /\ handle_session_handshake skb ctxb spoiled now' steady nonces reply mapped ad payload (s_inbound_tag sb) (d_nonce d)
         (SrcPath r pb) e
       = (e <| se_heap ::= insert q (switched now' r (terminal_hopid pa) sb) |>, []).
Proof.
  intros [Htag _ (k & Hka & Hkb & _) (k' & _ & Hkin & _)] Hk Hkb' He Hkey Hskb Hr Hm Hp Hpe Hpd Hal Hget Hq Ht Hlen Hne
    Hc Ha0 Hta Hb Hsame Hrx Hn.
  assert (k = ka) as -> by congruence.
  assert (hop_sizes tb) as Hzb.
  { pose proof (pr_sizes _ _ _ _ _ _ Hb) as Hz. rewrite (pr_hops _ _ _ _ _ _ Hb) in Hz. by apply Forall_app in Hz as [_ [? _]%Forall_cons]. }
  destruct (switch_path_sends ctxa ska skb now p pa d sa m ka) as (init_msg & Es); try done.
  { unfold is_established_pfs. rewrite Hkin. done. }
  { rewrite Hal. cbn. apply (hz_rx _ Hzb). }
  rewrite Es, Hal. cbn [from_option]. change (id (rxid tb)) with (rxid tb). eexists _, _. split; [unfold edge_router, edge; by rewrite Ha0|].
  rewrite (session_message_pivot net clients true MT_SessionHandshake cid pa pb a0 ta tb init) by
    (done || apply switch_payload_length).
  split; [unfold deliver_session; by rewrite Htag|].
  unfold handle_session_handshake. rewrite parse_switch, Hget. cbn [mbind option_bind]. rewrite Hq.
  unfold is_established_pfs. rewrite Hkb, bool_decide_true by (by eexists).
  unfold handle_session_control. rewrite Hget. unfold run_session. rewrite Hq.
  rewrite (recv_path_switch_moves ctxb spoiled now' steady nonces _ pa r pb sb ka) by done. done.
Qed.

(** ** Concrete sessions *)
Module SwitchDemo.
Definition path_a : Path := mkPath [MsgDemo.a_t] 1000000 true true false (Some (rxid MsgDemo.b_t)).
Definition ctx_a : PathContext := mkCtx ∅ {[3%nat := path_a]} 4 ∅ ∅ false.
Definition draws : SwitchDraws := mkSwitchDraws SessionDemo.draws (replicate 24 2).
Definition endpoint : Endpoint :=
  mkEndpoint {[0%nat := SessionDemo.receiver]} 1 {[mkNetAddr (replicate 32 1) true := 0%nat]} {[88 := 0%nat]} 88 [] true.
End SwitchDemo.

Lemma path_switch_followed_witness :
  exists message payload,
    (@switch_path toy bencode toy_box SessionDemo.ska SwitchDemo.ctx_a false 5 3 SwitchDemo.path_a SwitchDemo.draws
       SessionDemo.sender).1.2 = [ESendCommand (PRouter (Demo.pk 1)) message]
    /\ @run_session_message toy bencode 3 MsgDemo.net2 MsgDemo.clients true (PRouter (Demo.pk 1)) message
       = Some (PConn [9], SessHandshake payload 88 (replicate 24 2))
    /\ @handle_session_handshake toy bencode toy_box SessionDemo.skb empty_ctx id 6 0 (fun _ => []) [] true
         SessionDemo.adraws payload 88 (replicate 24 2) (SrcPath 7 MsgDemo.path_b) SwitchDemo.endpoint
       = (SwitchDemo.endpoint <| se_heap ::= insert 0%nat (switched 6 7 (replicate 16 10) SessionDemo.receiver) |>, []).
Proof.
  apply (@path_switch_followed toy toy_laws bencode bencode_laws toy_box toy_box_laws MsgDemo.net2 MsgDemo.clients
    SessionDemo.ska SessionDemo.skb SwitchDemo.ctx_a empty_ctx id SessionDemo.sender SessionDemo.receiver
    (replicate 32 9) [9] SwitchDemo.path_a MsgDemo.path_b MsgDemo.a_t MsgDemo.a_t MsgDemo.b_t [MsgDemo.b_0] 3 0 7
    SwitchDemo.endpoint SwitchDemo.draws (match @mlkem_generate toy_box (replicate 64 5) with Ok m => m | _ => mkMLKEM768KeyPair [] [] end)
    5 6 0 (fun _ => []) [] true SessionDemo.adraws); try reflexivity.
  - split; [reflexivity | reflexivity | |];
      (eexists; split; [reflexivity|]; split; [reflexivity|]; apply SessionDemo.buf; lia).
  - apply SessionDemo.demo_keypair. lia.
  - cbn. lia.
  - vm_compute. discriminate.
  - exact MsgDemo.a_carried.
  - exact MsgDemo.b_reaches.
  - vm_compute. discriminate.
Defined.
