(* ===== verification/SessionLookup.v ===== *)
(** * Lookups of names and client contacts (handlers/session.cpp)

    [resolve_sns] asks up to five relays for the address of a name and counts their
    answers; [lookup_client_intro] asks four relays for the contact of a client and
    keeps the newest.  Both answer their caller through a callback; the calls are
    part of the results here.  The time of each event is an argument. *)

From Stdlib Require Import ZArith Lia.
From stdpp Require Import base list numbers strings gmap.
From coqutil Require Import Datatypes.RecordSettersUsingExistingGetters.
From S2P Require Import Prelude Oxenc Messages Str Crypto RelayContact PathHandler ClientContact Session SessionEndpoint.

Local Open Scope Z_scope.
Local Open Scope router_scope.

(** [path_control_response] *)
Record ControlResponse := mkResponse { resp_ok : bool; resp_body : bytes }.

(** ** Names *)
Definition SNS_CACHE_TIME : Z := 5 * 60 * 1000.
Abbreviation SnsCache := (gmap bytes (option NetworkAddress * Z)).

(** A call of [func]: the address, whether it is assertive, and the time to live *)
Record SnsCall := mkSnsCall { call_addr : option NetworkAddress; call_assertive : bool; call_ttl : Z }.

(** [sns_results_t] *)
Record SnsResults := mkSnsResults {
  result_count : gmap NetworkAddress Z;
  not_found_count : Z;
  remaining : Z;
  threshold : Z;
}.

Inductive SnsAnswer : Type := SnsNotFound | SnsFound (addr : NetworkAddress) | SnsUndecryptable.

Section Sns.
Context `{Sodium} `{Oxenc}.

(** What a relay's response says *)
Definition sns_answer (name body : bytes) : outcome string SnsAnswer :=
  let! c := or_throw BT_ERROR (bt_dict_open body) in
  let! (err, c) := or_throw BT_ERROR (bt_maybe_string (str "!") c) in
  let failed := match err with Some s => negb (bool_decide (s = str "OK")) | None => false end in
  if failed then
    throw_if negb (bool_decide (err = Some (str "NOT FOUND"))) with "Relay returned unknown status"%string in
    Ok SnsNotFound
  else
    let! (ciphertext, c) := or_throw BT_ERROR (bt_require_string (str "c") c) in
    let! (nonce, c) := or_throw BT_ERROR (bt_require_span SYMM_NONCE_SIZE (str "n") c) in
    throw_if negb (bt_finish c) with BT_ERROR in
    match maybe_decrypt_name ciphertext nonce name with
    | Some pubkey => Ok (SnsFound (mkNetAddr pubkey true))
    | None => Ok SnsUndecryptable
    end.

Definition count_answer (a : SnsAnswer) (r : SnsResults) : SnsResults :=
  match a with
  | SnsNotFound => r <| not_found_count ::= Z.succ |>
  | SnsFound addr => r <| result_count ::= fun m => <[addr := default 0 (m !! addr) + 1]> m |>
  | SnsUndecryptable => r
  end.

(** The result that has reached the threshold *)
Definition confirmed (r : SnsResults) : option (option NetworkAddress) :=
  if threshold r <=? not_found_count r then Some None
  else (fun x => Some x.2.1) <$> list_find (fun kv => (threshold r <=? kv.2) = true) (map_to_list (result_count r)).

(** The addresses with the most answers, when there is no such result *)
Definition best_results (m : gmap NetworkAddress Z) : list NetworkAddress * Z :=
  foldl (fun '(best, best_count) '(addr, count) =>
    if best_count <=? count
    then ((if best_count <? count then [] else best) ++ [addr], Z.max best_count count)
    else (best, best_count)) ([], 0) (map_to_list m).

(** The end of the last response handler; [draw] breaks ties. *)
Definition sns_finish (name : bytes) (now : Z) (draw : nat) (r : SnsResults) (cache : SnsCache) : SnsCache * list SnsCall :=
  let answer res := (<[name := (res, now + SNS_CACHE_TIME)]> cache, [mkSnsCall res true SNS_CACHE_TIME]) in
  if bool_decide (result_count r = ∅) then
    if 0 <? not_found_count r then answer None else (cache, [mkSnsCall None false 0])
  else
    let '(best, best_count) := best_results (result_count r) in
    if best_count <=? not_found_count r then answer None
    else answer (best !! (draw mod length best)%nat).

(** The response handler of [resolve_sns] *)
Definition sns_response (name : bytes) (now : Z) (draw : nat) (resp : ControlResponse) (r : SnsResults) (cache : SnsCache)
    : SnsResults * SnsCache * list SnsCall :=
  let r := r <| remaining ::= Z.pred |> in
  if remaining r <? 0 then (r, cache, [])
  else
    let '(r, done) :=
      if resp_ok resp then
        match sns_answer name (resp_body resp) with
        | Ok a => let r := count_answer a r in (r, confirmed r)
        | Throw _ => (r, None)
        end
      else (r, None) in
    match done with
    | Some res =>
      (r <| remaining := 0 |>, <[name := (res, now + SNS_CACHE_TIME)]> cache, [mkSnsCall res true SNS_CACHE_TIME])
    | None =>
      if remaining r =? 0 then let '(cache, calls) := sns_finish name now draw r cache in (r, cache, calls)
      else (r, cache, [])
    end.

(** [resolve_sns(sns, func)] before the responses: the answer from the cache, or the state
    of the lookup that has [n] requests in flight, one for each of at most five active
    paths.  Without any, [func] gets a response as if the only request had failed. *)
Definition resolve_sns (sns : bytes) (now : Z) (n_active : nat) (cache : SnsCache) : SnsCache * SnsResults * list SnsCall :=
  let n := Z.min (Z.of_nat n_active) 5 in
  let fresh := mkSnsResults ∅ 0 n ((n + 1) / 2) in
  let send cache :=
    if n =? 0 then
      let '(r, cache, calls) := sns_response sns now 0 (mkResponse false []) (fresh <| remaining := 1 |>) cache in
      (cache, r, calls)
    else (cache, fresh, []) in
  if negb (is_valid_sns sns) then (cache, mkSnsResults ∅ 0 0 0, [mkSnsCall None true 0])
  else
    match cache !! sns with
    | Some (addr, expiry) =>
      if now <? expiry then (cache, mkSnsResults ∅ 0 0 0, [mkSnsCall addr true (expiry - now)])
      else send (delete sns cache)
    | None => send cache
    end.

(** The responses in the order they come in, with the time and the tie break of each *)
Fixpoint sns_responses (name : bytes) (l : list (Z * nat * ControlResponse)) (r : SnsResults) (cache : SnsCache)
    : SnsResults * SnsCache * list SnsCall :=
  match l with
  | [] => (r, cache, [])
  | (now, draw, resp) :: l =>
    let '(r, cache, calls) := sns_response name now draw resp r cache in
    let '(r, cache, calls') := sns_responses name l r cache in (r, cache, calls ++ calls')
  end.
End Sns.

(** *** What the responses amount to *)
Section SnsVotes.
Context `{Sodium} `{Oxenc}.

(** The result a response speaks for, [None] in it when the name does not exist *)
Definition sns_vote (name : bytes) (resp : ControlResponse) : option (option NetworkAddress) :=
  if resp_ok resp then
    match sns_answer name (resp_body resp) with
    | Ok SnsNotFound => Some None
    | Ok (SnsFound addr) => Some (Some addr)
    | _ => None
    end
  else None.

Definition sns_votes (name : bytes) (v : option NetworkAddress) (l : list (Z * nat * ControlResponse)) : Z :=
  Z.of_nat (length (filter (fun x => sns_vote name x.2 = Some v) l)).

Definition tally (v : option NetworkAddress) (r : SnsResults) : Z :=
  match v with None => not_found_count r | Some a => default 0 (result_count r !! a) end.

Definition undecided (r : SnsResults) : Prop := 0 < threshold r /\ forall v, tally v r < threshold r.

Lemma sns_votes_cons name v x l :
  sns_votes name v (x :: l) = (if decide (sns_vote name x.2 = Some v) then 1 else 0) + sns_votes name v l.
Proof.
  unfold sns_votes. rewrite filter_cons. destruct (decide _); cbn [length]; lia.
Qed.

Lemma sns_votes_nonneg name v l : 0 <= sns_votes name v l.
Proof. unfold sns_votes. lia. Qed.

Lemma sns_votes_exclusive name v w l :
  v <> w -> sns_votes name v l + sns_votes name w l <= Z.of_nat (length l).
Proof.
  intros Hne. induction l as [|x l IH]; [reflexivity|].
  rewrite !sns_votes_cons. cbn [length].
  destruct (decide _) as [E1|]; destruct (decide _) as [E2|]; [congruence|lia..].
Qed.

Lemma tally_count_answer v a r :
  tally v (count_answer a r) =
  tally v r + match a, v with
              | SnsNotFound, None => 1
              | SnsFound x, Some y => if decide (x = y) then 1 else 0
              | _, _ => 0
              end.
Proof.
  destruct a as [|x|], v as [y|]; unfold count_answer, tally; cbn; try lia.
  destruct (decide (x = y)) as [->|Hne].
  - rewrite lookup_insert, decide_True by done. reflexivity.
  - rewrite lookup_insert_ne by done. lia.
Qed.

(** [confirmed] finds a result at the threshold exactly when there is one. *)
Lemma confirmed_Some r v : 0 < threshold r -> confirmed r = Some v -> threshold r <= tally v r.
Proof.
  intros Hp. unfold confirmed. destruct (Z.leb_spec (threshold r) (not_found_count r)) as [Hn|Hn].
  - intros [= <-]. exact Hn.
  - intros E. apply fmap_Some in E as ([i [a c]] & Hf & ->).
    apply list_find_Some in Hf as (Hi & Hc & _). cbn in Hc. apply Z.leb_le in Hc.
    apply list_elem_of_lookup_2, elem_of_map_to_list in Hi. cbn. rewrite Hi. exact Hc.
Qed.

Lemma confirmed_None r : 0 < threshold r -> confirmed r = None -> undecided r.
Proof.
  intros Hp. unfold confirmed. destruct (Z.leb_spec (threshold r) (not_found_count r)) as [Hn|Hn]; [discriminate|].
  intros E. apply fmap_None in E. apply list_find_None in E. rewrite Forall_forall in E.
  split; [exact Hp|]. intros [a|]; [|exact Hn]. cbn.
  destruct (result_count r !! a) as [c|] eqn:Ea; [|exact Hp]. cbn.
  apply elem_of_map_to_list in Ea. specialize (E _ Ea). cbn in E.
  destruct (Z.leb_spec (threshold r) c); [done|lia].
Qed.

(** Assertive answers are cached, others are not. *)
Definition cached_answer (name : bytes) (call : SnsCall) (cache cache' : SnsCache) : Prop :=
  exists expiry, cache' = if call_assertive call then <[name := (call_addr call, expiry)]> cache else cache.

(** The scan for the best results keeps exactly the addresses with the highest count. *)
Lemma best_results_scan (l : list (NetworkAddress * Z)) (b0 : list NetworkAddress) (c0 : Z) b c :
  foldl (fun '(best, best_count) '(addr, count) =>
    if best_count <=? count
    then ((if best_count <? count then [] else best) ++ [addr], Z.max best_count count)
    else (best, best_count)) (b0, c0) l = (b, c) ->
  c0 <= c /\ (forall a, a ∈ b -> (a ∈ b0 /\ c = c0) \/ (a, c) ∈ l) /\ (forall a x, (a, x) ∈ l -> x <= c)
  /\ (c0 < c \/ b0 <> [] -> b <> []).
Proof.
  revert b0 c0. induction l as [|[a0 x0] l IH]; intros b0 c0; cbn [foldl].
  { intros [= -> ->]. split_and!; [lia|auto|intros ?? []%elem_of_nil|intros [?|?]; [lia|done]]. }
  destruct (Z.leb_spec c0 x0) as [Hle|Hlt]; intros (Hc & Hin & Hmax & Hne)%IH.
  - rewrite Z.max_r in Hc, Hin, Hne by lia.
    split_and!; [lia| | |intros _; apply Hne; right; intros []%app_nil; done].
    + intros a [[[Ha|Ha]%elem_of_app ->]|Ha]%Hin.
      * destruct (Z.ltb_spec c0 x0); [by apply elem_of_nil in Ha|]. left. split; [exact Ha|lia].
      * apply list_elem_of_singleton in Ha as ->. right. by left.
      * right. by right.
    + intros a x [[= -> ->]|Ha]%elem_of_cons; [lia|]. by eapply Hmax.
  - split_and!; [lia| | |exact Hne].
    + intros a [?|?]%Hin; [by left|right; by right].
    + intros a x [[= -> ->]|Ha]%elem_of_cons; [lia|]. by eapply Hmax.
Qed.

Lemma best_results_spec m b c :
  best_results m = (b, c) ->
  0 <= c /\ (forall a, a ∈ b -> m !! a = Some c) /\ (forall a x, m !! a = Some x -> x <= c) /\ (0 < c -> b <> []).
Proof.
  intros (Hc & Hin & Hmax & Hne)%best_results_scan. split_and!; [done| | |auto].
  - intros a [[[]%elem_of_nil _]|Ha%elem_of_map_to_list]%Hin. exact Ha.
  - intros a x Ha%elem_of_map_to_list. by eapply Hmax.
Qed.

(** The last handler calls back once, with a result no other result beats. *)
Lemma sns_finish_spec name now draw r cache cache' calls :
  (forall v, 0 <= tally v r) -> sns_finish name now draw r cache = (cache', calls) ->
  exists call, calls = [call] /\ cached_answer name call cache cache' /\ (call_assertive call = false -> forall v, tally v r <= 0)
    /\ (forall v, tally v r <= tally (call_addr call) r)
    /\ (call_addr call <> None -> 0 < tally (call_addr call) r).
Proof.
  intros Hpos. pose proof (Hpos None) as Hnf. cbn in Hnf. unfold sns_finish. case_bool_decide as He.
  { assert (forall v, tally v r <= not_found_count r) by (intros [a|]; cbn; [rewrite He, lookup_empty|]; cbn; lia).
    destruct (Z.ltb_spec 0 (not_found_count r)); intros [= <- <-]; eexists; (split; [done|]);
      (split; [by exists (now + SNS_CACHE_TIME)|]); split_and!; [by cbn..| |by cbn|by cbn].
    intros _ v. etransitivity; eauto. }
  destruct (best_results (result_count r)) as [b c] eqn:Eb.
  apply best_results_spec in Eb as (Hc & Hin & Hmax & Hne).
  assert (Hle : forall a, tally (Some a) r <= c).
  { intros a. cbn. destruct (result_count r !! a) eqn:Ea; cbn; [by eapply Hmax|lia]. }
  destruct (Z.leb_spec c (not_found_count r)) as [Hd|Hd]; intros [= <- <-]; eexists; (split; [done|]); (split; [by exists (now + SNS_CACHE_TIME)|]); (split; [done|]); cbn [call_addr].
  - split; [|done]. intros [a|]; [|reflexivity]. transitivity c; [apply Hle|exact Hd].
  - assert (Hlen : (0 < length b)%nat) by (destruct b; [destruct Hne; [lia|done]|cbn; lia]).
    destruct (lookup_lt_is_Some_2 b (draw mod length b)%nat) as [a Ha]; [apply Nat.mod_upper_bound; lia|].
    rewrite Ha. apply list_elem_of_lookup_2, Hin in Ha.
    assert (Hta : tally (Some a) r = c) by (cbn; by rewrite Ha). rewrite Hta.
    split; [|intros _; lia]. intros [a'|]; [apply Hle|cbn; lia].
Qed.

(** One response while nothing has reached the threshold: its vote is counted, and then
    either it decides the lookup or the lookup goes on, to its end with the last one. *)
Lemma sns_response_step name now draw resp r cache :
  undecided r -> 0 < remaining r ->
  exists r1, threshold r1 = threshold r
    /\ (forall v, tally v r1 = tally v r + if decide (sns_vote name resp = Some v) then 1 else 0)
    /\ ((exists v, threshold r <= tally v r1
           /\ sns_response name now draw resp r cache =
              (r1 <| remaining := 0 |>, <[name := (v, now + SNS_CACHE_TIME)]> cache, [mkSnsCall v true SNS_CACHE_TIME]))
        \/ (undecided r1 /\ remaining r1 = remaining r - 1
            /\ sns_response name now draw resp r cache =
               if remaining r =? 1 then let '(cache, calls) := sns_finish name now draw r1 cache in (r1, cache, calls)
               else (r1, cache, []))).
Proof.
  intros [Ht Hu] Hr. set (r0 := r <| remaining ::= Z.pred |>).
  assert (Hr0 : remaining r0 = remaining r - 1) by (cbn; lia).
  assert (Hnot : sns_vote name resp = None \/ (exists a, sns_answer name (resp_body resp) = Ok a /\ resp_ok resp = true)).
  { unfold sns_vote. destruct (resp_ok resp); [|by left]. destruct (sns_answer _ _); [|by left]. eauto. }
  unfold sns_response. fold r0. rewrite Hr0. destruct (Z.ltb_spec (remaining r - 1) 0) as [|_]; [lia|].
  replace (remaining r =? 1) with (remaining r - 1 =? 0) by (destruct (Z.eqb_spec (remaining r) 1); lia).
  destruct (if resp_ok resp then _ else _) as [r1 done] eqn:E.
  assert (Hr1 : remaining r1 = remaining r - 1 /\ threshold r1 = threshold r).
  { destruct (resp_ok resp); [destruct (sns_answer _ _) as [[]|]|]; injection E as <- <-; by rewrite <- Hr0. }
  assert (Ht1 : forall v, tally v r1 = tally v r + if decide (sns_vote name resp = Some v) then 1 else 0).
  { intros v. unfold sns_vote. destruct (resp_ok resp); [|injection E as <- <-; rewrite decide_False by done; cbn; destruct v; cbn; lia].
    destruct (sns_answer _ _) as [a|]; injection E as <- <-; [|rewrite decide_False by done; destruct v; cbn; lia].
    rewrite tally_count_answer. replace (tally v r0) with (tally v r) by (by destruct v).
    destruct a as [|x|], v as [y|]; repeat (destruct (decide _); simplify_eq); lia. }
  destruct Hr1 as [Hr1 Hth]. exists r1. split_and!; [done|done|].
  destruct done as [v|].
  - left. exists v. split; [|done]. rewrite <- Hth. apply confirmed_Some; [lia|].
    destruct (resp_ok resp); [destruct (sns_answer _ _)|]; by simplify_eq.
  - right. rewrite Hr1. split_and!; [|done|by destruct (remaining r - 1 =? 0)].
    destruct (decide (sns_vote name resp = None)) as [Hn|Hn].
    + split; [lia|]. intros v. rewrite Ht1, decide_False by congruence. specialize (Hu v). lia.
    + apply confirmed_None; [lia|]. destruct Hnot as [|(a & Ha & Hok)]; [done|].
      rewrite Hok, Ha in E. by injection E as <- ->.
Qed.

Lemma sns_responses_settled name l r cache :
  remaining r <= 0 -> exists r', sns_responses name l r cache = (r', cache, []).
Proof.
  revert r. induction l as [|[[now draw] resp] l IH]; intros r Hr; cbn [sns_responses]; [eauto|].
  unfold sns_response at 1. destruct (Z.ltb_spec (remaining (r <| remaining ::= Z.pred |>)) 0) as [|Hge]; [|cbn in Hge; lia].
  edestruct IH as [r' ->]; [cbn; lia|]. by eexists.
Qed.

(** How a lookup with a response still to come for each of [l] ends *)
Definition decided_by (name : bytes) (l : list (Z * nat * ControlResponse)) (r : SnsResults) (v : option NetworkAddress) : Prop :=
  (exists p, p `prefix_of` l /\ threshold r <= tally v r + sns_votes name v p)
  \/ ((forall w, tally w r + sns_votes name w l < threshold r)
      /\ (forall w, tally w r + sns_votes name w l <= tally v r + sns_votes name v l)
      /\ (v <> None -> 0 < tally v r + sns_votes name v l)).

Lemma decided_by_step name x l r r1 v :
  threshold r1 = threshold r ->
  (forall v, tally v r1 = tally v r + if decide (sns_vote name x.2 = Some v) then 1 else 0) ->
  decided_by name l r1 v -> decided_by name (x :: l) r v.
Proof.
  intros Ht Hv.
  assert (Hs : forall w p, tally w r1 + sns_votes name w p = tally w r + sns_votes name w (x :: p)).
  { intros w p. rewrite sns_votes_cons, Hv. lia. }
  intros [(p & Hp & Hd)|(H1 & H2 & H3)].
  - left. exists (x :: p). split; [by apply prefix_cons|]. by rewrite <- Hs, <- Ht.
  - right. split_and!; [intros w|intros w|]; rewrite <- !Hs, <- ?Ht; auto.
Qed.

Lemma sns_responses_run name l r cache :
  undecided r -> (forall v, 0 <= tally v r) -> remaining r = Z.of_nat (length l) -> l <> [] ->
  exists r' cache' call, sns_responses name l r cache = (r', cache', [call])
    /\ cached_answer name call cache cache' /\ (call_assertive call = false -> forall v, tally v r + sns_votes name v l <= 0)
    /\ decided_by name l r (call_addr call).
Proof.
  revert r. induction l as [|[[now draw] resp] l IH]; intros r Hu Hpos Hr Hl; [done|].
  cbn [length] in Hr. cbn [sns_responses].
  destruct (sns_response_step name now draw resp r cache Hu) as (r1 & Ht & Hv & [(v & Hd & ->)|(Hu1 & Hr1 & ->)]); [lia| |].
  { edestruct (sns_responses_settled name l (r1 <| remaining := 0 |>)) as [r' ->]; [cbn; lia|].
    do 3 eexists. split; [done|]. split; [by eexists|]. split; [done|]. left. exists [(now, draw, resp)]. split; [by exists l|].
    rewrite sns_votes_cons. cbn [snd call_addr]. rewrite Hv in Hd. change (sns_votes name v []) with 0. lia. }
  assert (Hs : forall v p, tally v r + sns_votes name v ((now, draw, resp) :: p) = tally v r1 + sns_votes name v p).
  { intros v p. rewrite sns_votes_cons, Hv. cbn [snd]. lia. }
  assert (Hpos1 : forall v, 0 <= tally v r1) by (intros v; rewrite Hv; specialize (Hpos v); destruct (decide _); lia).
  destruct l as [|y l].
  - replace (remaining r =? 1) with true by (symmetry; apply Z.eqb_eq; cbn in Hr; lia).
    destruct (sns_finish name now draw r1 cache) as [cache' calls] eqn:Ef.
    apply sns_finish_spec in Ef as (call & -> & Hc & Ha & Hmax & Hp); [|done].
    do 3 eexists. split; [done|]. split; [done|].
    split; [intros Hf v; rewrite Hs; specialize (Ha Hf v); unfold sns_votes; rewrite filter_nil; cbn; lia|].
    apply (decided_by_step _ _ _ _ r1); [done|done|].
    right. change (sns_votes name ?w []) with 0. destruct Hu1 as [_ Hu1].
    split_and!; [intros w; specialize (Hu1 w)|intros w; specialize (Hmax w)|intros Hn; specialize (Hp Hn)];
      unfold sns_votes; cbn [length filter]; rewrite ?filter_nil; cbn; lia.
  - replace (remaining r =? 1) with false by (symmetry; apply Z.eqb_neq; cbn [length] in Hr; lia).
    destruct (IH r1 Hu1 Hpos1) as (r' & cache' & call & -> & Hc & Ha & Hd); [lia|done|].
    do 3 eexists. split; [done|]. split; [done|]. split; [intros Hf v; rewrite Hs; auto|]. by eapply decided_by_step.
Qed.

Lemma sns_votes_prefix name v p l : p `prefix_of` l -> sns_votes name v p <= sns_votes name v l.
Proof. intros [q ->]. unfold sns_votes. rewrite filter_app, length_app. lia. Qed.

(** [resolve_sns] either answers at once, or waits for a response to each request. *)
Lemma resolve_sns_cases sns now n_active cache cache1 r calls :
  resolve_sns sns now n_active cache = (cache1, r, calls) ->
  (exists call, calls = [call] /\ remaining r = 0)
  \/ (calls = [] /\ undecided r /\ (forall v, tally v r = 0) /\ 0 < remaining r <= 5 /\ threshold r = (remaining r + 1) / 2).
Proof.
  assert (Hz : forall n th v, tally v (mkSnsResults ∅ 0 n th) = 0) by (intros n th [a|]; reflexivity).
  assert (Hsend : forall c, (let n := Z.min (Z.of_nat n_active) 5 in let fresh := mkSnsResults ∅ 0 n ((n + 1) / 2) in
      if n =? 0 then
        let '(r, cache, calls) := sns_response sns now 0 (mkResponse false []) (fresh <| remaining := 1 |>) c in (cache, r, calls)
      else (c, fresh, [])) = (cache1, r, calls) ->
    (exists call, calls = [call] /\ remaining r = 0)
    \/ (calls = [] /\ undecided r /\ (forall v, tally v r = 0) /\ 0 < remaining r <= 5 /\ threshold r = (remaining r + 1) / 2)).
  { intros c. cbn zeta. destruct (Z.eqb_spec (Z.min (Z.of_nat n_active) 5) 0) as [He|He].
    - unfold sns_response, sns_finish. cbn. intros [= <- <- <-]. left. by eexists.
    - intros [= <- <- <-]. right. cbn [remaining threshold]. split_and!; [done| |intros v; apply Hz|lia|lia|done].
      split; [|intros v; rewrite Hz]; cbn [threshold]; apply Z.div_str_pos; lia. }
  unfold resolve_sns. destruct (negb (is_valid_sns sns)); [intros [= <- <- <-]; left; by eexists|].
  destruct (cache !! sns) as [[addr expiry]|]; [|apply Hsend].
  destruct (now <? expiry); [intros [= <- <- <-]; left; by eexists|apply Hsend].
Qed.

(** C13. A name lookup calls its callback exactly once, whatever order the responses to its
    requests come in.  A result that more than half of the responses speak for is the one
    returned, assertively, and it is the one cached for the name; when no result reaches half
    of them, the one returned has at least as many votes as any other.  An address is returned
    only if some relay gave it, and the cache changes for no other name. *)
Theorem sns_lookup_majority sns now n_active cache cache1 r calls0 l r' cache' calls :
  resolve_sns sns now n_active cache = (cache1, r, calls0) ->
  remaining r = Z.of_nat (length l) ->
  sns_responses sns l r cache1 = (r', cache', calls) ->
  exists call, calls0 ++ calls = [call]
    /\ (l <> [] ->
        (forall v, Z.of_nat (length l) < 2 * sns_votes sns v l ->
           call_addr call = v /\ call_assertive call = true /\ exists expiry, cache' !! sns = Some (v, expiry))
        /\ ((forall v, 2 * sns_votes sns v l < Z.of_nat (length l)) ->
           forall v, sns_votes sns v l <= sns_votes sns (call_addr call) l)
        /\ (call_addr call <> None -> 0 < sns_votes sns (call_addr call) l)
        /\ (forall other, other <> sns -> cache' !! other = cache1 !! other)).
Proof.
  intros Hres Hr Hrun. apply resolve_sns_cases in Hres as [(call & -> & Hz)|(-> & Hu & Hv & Hn & Ht)].
  { destruct (sns_responses_settled sns l r cache1) as [r2 E]; [lia|]. rewrite E in Hrun. injection Hrun as <- <- <-.
    exists call. split; [done|]. destruct l; [done|cbn [length] in Hr; lia]. }
  destruct (sns_responses_run sns l r cache1) as (r2 & cache2 & call & E & [expiry Hc] & Ha & Hd);
    [done|intros v; by rewrite Hv|done|by intros ->; cbn in Hr; lia|].
  rewrite E in Hrun. injection Hrun as <- <- <-. exists call. split; [done|]. intros _.
  assert (Hge : remaining r <= 2 * threshold r) by (rewrite Ht; pose proof (Z.div_mod (remaining r + 1) 2); pose proof (Z.mod_pos_bound (remaining r + 1) 2); lia).
  assert (Hle : 2 * threshold r <= remaining r + 1) by (rewrite Ht; apply Z.mul_div_le; lia).
  split_and!.
  - intros v Hmaj. assert (Hw : call_addr call = v).
    { destruct (decide (call_addr call = v)) as [|Hne]; [done|]. exfalso.
      destruct Hd as [(p & Hp & Hd)|(Hb & _)]; [|specialize (Hb v); rewrite Hv in Hb; lia].
      apply (sns_votes_exclusive sns _ _ l) in Hne. apply (sns_votes_prefix sns (call_addr call)) in Hp.
      rewrite Hv in Hd. lia. }
    assert (Has : call_assertive call = true).
    { destruct (call_assertive call); [done|]. specialize (Ha eq_refl v). rewrite Hv in Ha. lia. }
    split_and!; [done|done|]. exists expiry. by rewrite Hc, Has, Hw, lookup_insert, decide_True.
  - intros Hall v. destruct Hd as [(p & Hp & Hd)|(_ & Hmax & _)]; [|specialize (Hmax v); rewrite !Hv in Hmax; lia].
    apply (sns_votes_prefix sns (call_addr call)) in Hp. specialize (Hall (call_addr call)). rewrite Hv in Hd. lia.
  - intros Hne. destruct Hd as [(p & Hp & Hd)|(_ & _ & Hpos)]; [|specialize (Hpos Hne); rewrite Hv in Hpos; lia].
    apply (sns_votes_prefix sns (call_addr call)) in Hp. rewrite Hv in Hd. destruct Hu. lia.
  - intros other Hne. rewrite Hc. destruct (call_assertive call); [by rewrite lookup_insert_ne|done].
Qed.
End SnsVotes.

Module SnsDemo.
Definition name : bytes := str "blocks.loki".
Definition found (pubkey : bytes) : ControlResponse :=
  mkResponse true (str "d1:c48:" ++ pubkey ++ zero_buf 16 ++ str "1:n24:" ++ zero_buf 24 ++ str "e").
Definition not_found : ControlResponse := mkResponse true (str "d1:!9:NOT FOUNDe").
Definition started := @resolve_sns toy bencode name 0 3 ∅.
Definition responses : list (Z * nat * ControlResponse) :=
  [(10, 0%nat, found (replicate 32 7)); (12, 0%nat, not_found); (15, 0%nat, found (replicate 32 7))].
Definition finished := @sns_responses toy bencode name responses started.1.2 started.1.1.
End SnsDemo.

Lemma sns_lookup_majority_witness :
  exists call, SnsDemo.started.2 ++ SnsDemo.finished.2 = [call] /\ call_addr call = Some (mkNetAddr (replicate 32 7) true).
Proof.
  destruct (@sns_lookup_majority toy bencode SnsDemo.name 0 3 ∅ SnsDemo.started.1.1 SnsDemo.started.1.2 SnsDemo.started.2
    SnsDemo.responses SnsDemo.finished.1.1 SnsDemo.finished.1.2 SnsDemo.finished.2) as (call & Hone & Hl).
  - vm_compute. reflexivity.
  - vm_compute. reflexivity.
  - vm_compute. reflexivity.
  - exists call. split; [exact Hone|]. destruct Hl as [Hmaj _]; [discriminate|].
    apply Hmaj. vm_compute. reflexivity.
Defined.

(** With two paths the threshold is one: the first response decides, although the comment
    over the test speaks of a confirmation by two. *)
Lemma sns_single_response_decides :
  let '(cache, r, _) := @resolve_sns toy bencode SnsDemo.name 0 2 ∅ in
  (@sns_responses toy bencode SnsDemo.name [(10, 0%nat, SnsDemo.found (replicate 32 7))] r cache).2
  = [mkSnsCall (Some (mkNetAddr (replicate 32 7) true)) true SNS_CACHE_TIME].
Proof. vm_compute. reflexivity. Qed.

(** ** Client contacts *)
Definition NO_CC_CACHE_TIME : Z := 15 * 1000.
Definition CC_LOOKUPS : nat := 4.
Abbreviation CcCache := (gmap bytes (option ClientContact * Z)).

(** [update_cc(remote, cc)], which returns the entry the cache then has. The cache
    keeps a [sys_ms], to which the expiry of the contact is converted. *)
Definition update_cc (now : Z) (remote : bytes) (cc : option ClientContact) (cache : CcCache)
    : CcCache * option ClientContact :=
  let new_exp := match cc with Some c => to_ms (cc_expiry c) | None => now + NO_CC_CACHE_TIME end in
  match cache !! remote with
  | None => (<[remote := (cc, new_exp)]> cache, cc)
  | Some (entry, exp) =>
    let newer := match cc, entry with Some c, Some e => cc_signed_at e <? cc_signed_at c | _, _ => false end in
    if negb (bool_decide (is_Some entry)) || (exp <? now) || newer
    then (<[remote := (cc, new_exp)]> cache, cc)
    else (cache, entry)
  end.

Section ContactLookup.
Context `{Sodium} `{Oxenc}.

(** The contact a response holds; the handler catches what the parsing throws. *)
Definition cc_answer (junk : nat -> SRVData) (remote body : bytes) : outcome string (option ClientContact) :=
  let! c := or_throw BT_ERROR (bt_dict_open body) in
  let! (err, c) := or_throw BT_ERROR (bt_maybe_string (str "!") c) in
  let failed := match err with Some s => negb (bool_decide (s = str "OK")) | None => false end in
  if failed then
    throw_if negb (bool_decide (err = Some (str "NOT FOUND"))) with "Relay returned unknown status"%string in
    Ok None
  else
    let! (x, _) := or_throw BT_ERROR (bt_require_string (str "x") c) in
    let! cc := cc_decrypt junk x remote in
    Ok (Some cc).

Definition cc_of_response (junk : nat -> SRVData) (remote : bytes) (resp : ControlResponse) : option ClientContact :=
  if resp_ok resp then match cc_answer junk remote (resp_body resp) with Ok cc => cc | Throw _ => None end else None.

(** The response handler of [lookup_client_intro]: the counter of responses to come, the
    cache and the calls of [func] *)
Definition cc_response (junk : nat -> SRVData) (now : Z) (remote : bytes) (resp : ControlResponse) (remaining : Z) (cache : CcCache)
    : Z * CcCache * list (option ClientContact) :=
  let rem := remaining - 1 in
  match cc_of_response junk remote resp with
  | Some cc =>
    let '(cache, ccc) := update_cc now remote (Some cc) cache in
    (if 0 <? rem then 0 else rem, cache, if 0 <=? rem then [ccc] else [])
  | None =>
    if rem =? 0 then let '(cache, ccc) := update_cc now remote None cache in (rem, cache, [ccc])
    else (rem, cache, [])
  end.

(** [lookup_client_intro(remote, func, allow_cache)] up to its responses; [own] is our own
    identity and contact, and [n_active] the number of active paths.  A request is a path, by
    its position among those used, and a storage index. *)
Definition lookup_client_intro (now : Z) (own : bytes * option ClientContact) (remote : bytes) (allow_cache : bool)
    (n_active : nat) (cache : CcCache) : CcCache * list (nat * nat) * list (option ClientContact) :=
  let send cache :=
    match blind remote CLIENT_CONTACT_DOMAIN with
    | None => let '(cache, ccc) := update_cc now remote None cache in (cache, [], [ccc])
    | Some _ =>
      let paths := Nat.min n_active 4 in
      if (paths =? 0)%nat then (cache, [], [None])
      else (cache, (fun i => (i mod paths, i)%nat) <$> seq 0 CC_LOOKUPS, [])
    end in
  if bool_decide (remote = own.1) then (cache, [], [own.2])
  else if allow_cache then
    match cache !! remote with
    | Some (cc, exp) => if exp <=? now then send (delete remote cache) else (cache, [], [cc])
    | None => send cache
    end
  else send cache.

Fixpoint cc_responses (remote : bytes) (l : list (Z * (nat -> SRVData) * ControlResponse)) (remaining : Z) (cache : CcCache)
    : Z * CcCache * list (option ClientContact) :=
  match l with
  | [] => (remaining, cache, [])
  | (now, junk, resp) :: l =>
    let '(remaining, cache, calls) := cc_response junk now remote resp remaining cache in
    let '(remaining, cache, calls') := cc_responses remote l remaining cache in (remaining, cache, calls ++ calls')
  end.
End ContactLookup.

(** *** The newest contact *)
Section ContactNewest.
Context `{Sodium} `{Oxenc}.
Variable remote : bytes.
Abbreviation Response := (Z * (nat -> SRVData) * ControlResponse)%type.

Definition carried (x : Response) : option ClientContact := let '(_, junk, resp) := x in cc_of_response junk remote resp.

(** The entry of the remote is at least as new as [c]. *)
Definition holds_newer (c : ClientContact) (cache : CcCache) : Prop :=
  exists e exp, cache !! remote = Some (Some e, exp) /\ cc_signed_at c <= cc_signed_at e.

(** The entry of the remote has not expired at any of the times in [l]. *)
Definition entry_lasts (l : list Response) (cache : CcCache) : Prop :=
  forall e exp, cache !! remote = Some (Some e, exp) -> Forall (fun x => x.1.1 <= exp) l.

Definition contacts_last (l : list Response) : Prop :=
  forall x y cc, x ∈ l -> y ∈ l -> carried x = Some cc -> y.1.1 <= to_ms (cc_expiry cc).

Lemma update_cc_other now cc cache k : k <> remote -> (update_cc now remote cc cache).1 !! k = cache !! k.
Proof.
  intros. unfold update_cc. destruct (cache !! remote) as [[e exp]|]; [destruct (_ || _)|]; cbn; by rewrite ?lookup_insert_ne.
Qed.

(** A contact that is offered leaves the newest of the old entry and itself. *)
Lemma update_cc_newest now cc cache :
  exists e exp, (update_cc now remote (Some cc) cache).2 = Some e
    /\ (update_cc now remote (Some cc) cache).1 !! remote = Some (Some e, exp)
    /\ ((e = cc /\ exp = to_ms (cc_expiry cc)) \/ cache !! remote = Some (Some e, exp))
    /\ ((forall e0 exp0, cache !! remote = Some (Some e0, exp0) -> now <= exp0) ->
        cc_signed_at cc <= cc_signed_at e /\ forall c, holds_newer c cache -> cc_signed_at c <= cc_signed_at e).
Proof.
  unfold update_cc, holds_newer. destruct (cache !! remote) as [[[e|] exp]|] eqn:E; cbn [negb bool_decide orb].
  - rewrite bool_decide_true by eauto. cbn [negb orb].
    destruct (Z.ltb_spec exp now) as [Hx|Hx]; cbn [orb]; [|destruct (Z.ltb_spec (cc_signed_at e) (cc_signed_at cc))]; cbn [fst snd].
    + do 2 eexists. split_and!; [done|by rewrite lookup_insert, decide_True|by left|].
      intros Hl. specialize (Hl _ _ eq_refl). lia.
    + do 2 eexists. split_and!; [done|by rewrite lookup_insert, decide_True|by left|].
      intros _. split; [lia|]. intros c (? & ? & [= <- <-] & ?). lia.
    + do 2 eexists. split_and!; [done|done|by right|]. intros _. split; [lia|]. by intros c (? & ? & [= <- <-] & ?).
  - rewrite bool_decide_false by (by intros []). cbn. do 2 eexists.
    split_and!; [done|by rewrite lookup_insert, decide_True|by left|]. intros _. split; [lia|]. by intros c (? & ? & ? & _).
  - cbn. do 2 eexists.
    split_and!; [done|by rewrite lookup_insert, decide_True|by left|]. intros _. split; [lia|]. by intros c (? & ? & ? & _).
Qed.

Lemma update_cc_none now cache :
  (forall e exp, (update_cc now remote None cache).1 !! remote = Some (Some e, exp) ->
     cache !! remote = Some (Some e, exp))
  /\ (forall e, (update_cc now remote None cache).2 = Some e -> exists exp, cache !! remote = Some (Some e, exp))
  /\ ((forall e exp, cache !! remote = Some (Some e, exp) -> now <= exp) ->
      forall e exp, cache !! remote = Some (Some e, exp) -> (update_cc now remote None cache).1 = cache).
Proof.
  unfold update_cc. destruct (cache !! remote) as [[[e|] exp]|] eqn:E; cbn [fst snd].
  - rewrite bool_decide_true by eauto. cbn [negb orb]. rewrite orb_false_r.
    destruct (Z.ltb_spec exp now); cbn [fst snd].
    + split_and!; [by rewrite lookup_insert, decide_True|done|]. intros Hl. specialize (Hl _ _ eq_refl). lia.
    + split_and!; [by rewrite E|naive_solver|done].
  - rewrite bool_decide_false by (by intros []). cbn. by rewrite lookup_insert, decide_True.
  - cbn. by rewrite lookup_insert, decide_True.
Qed.

(** Where the cached contact comes from, after the responses [l] *)
Definition cc_from (l : list Response) (cache cache' : CcCache) : Prop :=
  forall e exp, cache' !! remote = Some (Some e, exp) ->
    cache !! remote = Some (Some e, exp) \/ exists x, x ∈ l /\ carried x = Some e /\ exp = to_ms (cc_expiry e).

(** The cache has kept the newest contact, of its own and of the responses [l]. *)
Record cc_newer (l : list Response) (cache cache' : CcCache) : Prop := {
  keeps_newer : forall c, holds_newer c cache -> holds_newer c cache';
  covers : forall x cc, x ∈ l -> carried x = Some cc -> holds_newer cc cache';
}.

Lemma cc_from_trans l1 l2 c1 c2 c3 : cc_from l1 c1 c2 -> cc_from l2 c2 c3 -> cc_from (l1 ++ l2) c1 c3.
Proof.
  intros P1 P2 e exp [[?|(x & Hx & ?)]%P1|(x & Hx & ?)]%P2; [by left|right..]; exists x; (split; [set_solver|done]).
Qed.

Lemma cc_newer_trans l1 l2 c1 c2 c3 : cc_newer l1 c1 c2 -> cc_newer l2 c2 c3 -> cc_newer (l1 ++ l2) c1 c3.
Proof.
  intros [K1 C1] [K2 C2]. split; [auto|]. intros x cc [Hx|Hx]%elem_of_app Hc; [by eapply K2, C1|by eapply C2].
Qed.

Lemma cc_from_lasts l1 l2 c1 c2 :
  contacts_last (l1 ++ l2) -> entry_lasts (l1 ++ l2) c1 -> cc_from l1 c1 c2 -> entry_lasts l2 c2.
Proof.
  intros Hc He P e exp [Hx%He|(x & Hx & Hcar & ->)]%P; [by apply Forall_app in Hx as [_ Hx]|].
  apply Forall_forall. intros y Hy. eapply Hc; [..|exact Hcar]; set_solver.
Qed.

(** One response *)
Lemma cc_response_step now junk resp rem cache rem1 cache1 calls :
  let x := (now, junk, resp) in
  cc_response junk now remote resp rem cache = (rem1, cache1, calls) ->
  cc_from [x] cache cache1 /\ (entry_lasts [x] cache -> cc_newer [x] cache cache1)
  /\ match carried x with
     | Some _ => rem1 = (if 1 <? rem then 0 else rem - 1)
                 /\ exists e exp, calls = (if 1 <=? rem then [Some e] else []) /\ cache1 !! remote = Some (Some e, exp)
     | None => rem1 = rem - 1
               /\ if rem =? 1 then exists call, calls = [call]
                    /\ (forall e, call = Some e -> exists exp, cache !! remote = Some (Some e, exp))
                  else calls = [] /\ cache1 = cache
     end.
Proof.
  intros x. assert (Hnow : entry_lasts [x] cache -> forall e exp, cache !! remote = Some (Some e, exp) -> now <= exp).
  { intros He e exp Hx%He. exact (List.Forall_inv Hx). }
  unfold cc_response, carried at 1, x. destruct (cc_of_response junk remote resp) as [cc|] eqn:Ec.
  - destruct (update_cc_newest now cc cache) as (e & exp & H2 & H1 & Hp & Hn).
    destruct (update_cc now remote (Some cc) cache) as [c1 ccc]. cbn [fst snd] in H1, H2. subst ccc. intros [= <- <- <-].
    split_and!.
    + intros e' exp' Hl. rewrite H1 in Hl. injection Hl as <- <-. destruct Hp as [[-> ->]|Hp]; [right|by left].
      exists x. split; [by apply list_elem_of_singleton|done].
    + intros He. destruct (Hn (Hnow He)) as [Hn1 Hn2]. split; [intros c Hc; exists e, exp; auto|].
      intros y c ->%list_elem_of_singleton Hc. unfold carried in Hc. rewrite Ec in Hc. injection Hc as <-. by exists e, exp.
    + destruct (Z.ltb_spec 0 (rem - 1)), (Z.ltb_spec 1 rem); lia.
    + exists e, exp. split; [|done]. by destruct (Z.leb_spec 0 (rem - 1)), (Z.leb_spec 1 rem); try lia.
  - assert (Hsame : forall c, cc_newer [(now, junk, resp)] c c).
    { intros c. split; [done|]. intros y cc ->%list_elem_of_singleton Hc. unfold carried in Hc. congruence. }
    destruct (Z.eqb_spec (rem - 1) 0) as [Hz|Hz], (Z.eqb_spec rem 1) as [Hz1|Hz1]; try lia.
    2: { intros [= <- <- <-]. split_and!; [by left|intros _; apply Hsame|done..]. }
    destruct (update_cc_none now cache) as (Hf & Hret & Hk).
    destruct (update_cc now remote None cache) as [c1 ccc]. cbn [fst snd] in Hf, Hret, Hk. intros [= <- <- <-].
    split_and!; [by left; apply Hf| |done|by eexists].
    intros He. split; [|intros y cc ->%list_elem_of_singleton Hc; unfold carried in Hc; congruence].
    intros c (e & exp & El & Hle). exists e, exp. by rewrite (Hk (Hnow He) e exp El).
Qed.

Lemma entry_lasts_head x l cache : entry_lasts (x :: l) cache -> entry_lasts [x] cache.
Proof. intros He e exp Hx%He. apply Forall_cons in Hx as [Hx _]. by constructor. Qed.

Lemma contacts_last_tail x l : contacts_last (x :: l) -> contacts_last l.
Proof. intros Hc y z cc Hy Hz. apply Hc; by right. Qed.

(** After the callback, contacts that still come in go to the cache only. *)
Lemma cc_responses_settled l rem cache rem' cache' calls :
  rem <= 0 -> cc_responses remote l rem cache = (rem', cache', calls) ->
  calls = [] /\ cc_from l cache cache' /\ (contacts_last l -> entry_lasts l cache -> cc_newer l cache cache').
Proof.
  revert rem cache rem' cache' calls. induction l as [|[[now junk] resp] l IH]; intros rem cache rem' cache' calls Hr.
  { intros [= <- <- <-]. split_and!; [done|by left|]. intros _ _. split; [done|by intros ?? []%elem_of_nil]. }
  cbn [cc_responses]. destruct (cc_response junk now remote resp rem cache) as [[rem1 cache1] calls1] eqn:E1.
  apply cc_response_step in E1 as (Hf & Hn & Hcase).
  destruct (cc_responses remote l rem1 cache1) as [[rem2 cache2] calls2] eqn:E2. intros [= <- <- <-].
  apply IH in E2 as (-> & Hf2 & Hn2).
  2: { destruct (carried _); destruct Hcase as [-> _]; [destruct (Z.ltb_spec 1 rem)|]; lia. }
  split_and!; [|by apply (cc_from_trans [_] l _ cache1)|].
  - destruct (carried _); destruct Hcase as [_ Hcase]; [|destruct (Z.eqb_spec rem 1); [lia|]; by destruct Hcase as [-> _]].
    destruct Hcase as (e & exp & -> & _). destruct (Z.leb_spec 1 rem); [lia|done].
  - intros Hc He. apply (cc_newer_trans [_] l _ cache1); [by eapply Hn, entry_lasts_head|].
    apply Hn2; [by eapply contacts_last_tail|]. by eapply (cc_from_lasts [_] l).
Qed.

(** The contact a callback got is one of the cache before or of the responses. *)
Definition known_contact (l : list Response) (cache : CcCache) (e : ClientContact) : Prop :=
  (exists exp, cache !! remote = Some (Some e, exp)) \/ exists x, x ∈ l /\ carried x = Some e.

Lemma cc_from_known l l' cache cache1 e exp :
  cc_from l cache cache1 -> l ⊆ l' -> cache1 !! remote = Some (Some e, exp) -> known_contact l' cache e.
Proof. intros Hf Hl [?|(x & ? & ? & _)]%Hf; [left; eauto|right; eauto]. Qed.

Lemma cc_responses_run l rem cache rem' cache' calls :
  rem = Z.of_nat (length l) -> l <> [] -> cc_responses remote l rem cache = (rem', cache', calls) ->
  cc_from l cache cache' /\ (contacts_last l -> entry_lasts l cache -> cc_newer l cache cache')
  /\ exists call, calls = [call]
    /\ ((exists x, x ∈ l /\ is_Some (carried x)) -> exists e, call = Some e
          /\ (contacts_last l -> entry_lasts l cache -> holds_newer e cache'))
    /\ (forall e, call = Some e -> known_contact l cache e).
Proof.
  revert rem cache rem' cache' calls. induction l as [|[[now junk] resp] l IH]; intros rem cache rem' cache' calls Hr Hl; [done|].
  cbn [cc_responses]. destruct (cc_response junk now remote resp rem cache) as [[rem1 cache1] calls1] eqn:E1.
  apply cc_response_step in E1 as (Hf & Hn & Hcase).
  destruct (cc_responses remote l rem1 cache1) as [[rem2 cache2] calls2] eqn:E2. intros [= <- <- <-].
  assert (He1 : contacts_last ((now, junk, resp) :: l) -> entry_lasts ((now, junk, resp) :: l) cache -> entry_lasts l cache1)
    by (intros; by eapply (cc_from_lasts [_] l)).
  cbn [length] in Hr. destruct (carried (now, junk, resp)) as [cc|] eqn:Ecar; destruct Hcase as [Hrem Hcase].
  { apply cc_responses_settled in E2 as (-> & Hf2 & Hn2); [|destruct (Z.ltb_spec 1 rem); lia].
    split_and!; [by apply (cc_from_trans [_] l _ cache1)| |].
    { intros Hc He. apply (cc_newer_trans [_] l _ cache1); [by eapply Hn, entry_lasts_head|].
      apply Hn2; [by eapply contacts_last_tail|auto]. }
    destruct Hcase as (e & exp & -> & He2). destruct (Z.leb_spec 1 rem); [|lia].
    exists (Some e). split_and!; [done| |].
    - intros _. exists e. split; [done|]. intros Hc He. apply Hn2; [by eapply contacts_last_tail|auto|by exists e, exp].
    - intros ? [= <-]. eapply cc_from_known; [exact Hf|set_solver|exact He2]. }
  destruct l as [|y l].
  { injection E2 as <- <- <-. cbn in Hr. subst rem. destruct Hcase as (call & -> & Hno).
    split_and!; [done|by intros _|]. exists call. split_and!; [done| |intros e ?; left; auto].
    intros (x & ->%list_elem_of_singleton & [? Hx]). congruence. }
  destruct (Z.eqb_spec rem 1) as [Hz|Hz]; [cbn [length] in Hr; lia|]. destruct Hcase as [-> ->].
  apply IH in E2 as (Hf2 & Hn2 & call & -> & Hs & Hk); [|lia|done].
  split_and!; [by apply (cc_from_trans [_] (y :: l) _ cache)| |].
  { intros Hc He. apply (cc_newer_trans [_] (y :: l) _ cache); [by eapply Hn, entry_lasts_head|].
    apply Hn2; [by eapply contacts_last_tail|auto]. }
  exists call. split_and!; [done| |].
  - intros (x & [->|Hx]%elem_of_cons & [c Hcx]); [congruence|]. destruct Hs as (e & -> & Hnew); [exists x; eauto|].
    exists e. split; [done|]. intros Hc He. apply Hnew; [by eapply contacts_last_tail|auto].
  - intros e [?|(x & ? & ?)]%Hk; [by left|right; exists x; split; [by right|done]].
Qed.

(** [lookup_client_intro] answers at once, or asks for each of the storage indices. *)
Lemma lookup_client_intro_cases now own allow_cache n_active cache cache1 requests calls :
  lookup_client_intro now own remote allow_cache n_active cache = (cache1, requests, calls) ->
  (requests = [] /\ exists call, calls = [call])
  \/ (calls = [] /\ (0 < n_active)%nat /\ requests = (fun i => (i mod Nat.min n_active 4, i)%nat) <$> seq 0 CC_LOOKUPS).
Proof.
  unfold lookup_client_intro. case_bool_decide; [intros [= <- <- <-]; eauto|].
  destruct allow_cache; [destruct (cache !! remote) as [[c exp]|]; [destruct (exp <=? now); [|intros [= <- <- <-]; eauto]|]|];
    (destruct (blind _ _); [|destruct (update_cc _ _ _ _); intros [= <- <- <-]; eauto]);
    (destruct (Nat.eqb_spec (Nat.min n_active 4) 0) as [Hz|Hz]; intros [= <- <- <-]; [eauto|right; split_and!; [done|lia|done]]).
Qed.

End ContactNewest.

Module ContactDemo.
Definition remote : bytes := replicate 32 7.
Definition contact_response : ControlResponse :=
  mkResponse true (@bt_dict_produce bencode [(str "x", BStr demo_enc.1)]).
Definition failure : ControlResponse := mkResponse false [].
Definition own : bytes * option ClientContact := (replicate 32 1, None).
Definition started := @lookup_client_intro toy 0 own remote true 2 ∅.
Definition responses : list (Z * (nat -> SRVData) * ControlResponse) :=
  [(10, no_junk, failure); (12, no_junk, contact_response); (13, no_junk, SnsDemo.not_found); (15, no_junk, contact_response)].
Definition finished := @cc_responses toy bencode remote responses 4 started.1.1.
End ContactDemo.

