(* ===== verification/InboundPaths.v ===== *)
(** * Inbound paths of an endpoint (handlers/session.cpp)

    The endpoint keeps a number of paths to random relays, through which others reach
    it.  The expiries of these paths are spread over the slots of a path's lifetime;
    [update_paths] chooses the expiries of the missing paths and builds them, and a path
    that completes the set makes the endpoint publish its contact.

    The random samples, the order of the tables and the times are arguments.  Reading
    past the end of the chosen expiries, following a null pointer and running out of
    fuel are [None]. *)

From Stdlib Require Import ZArith Lia.
From stdpp Require Import base list numbers strings gmap.
From coqutil Require Import Datatypes.RecordSettersUsingExistingGetters.
From S2P Require Import Prelude Oxenc Messages Str Crypto RelayContact Path PathContext PathBuild RcStore NodeDB Profiling HopSelection PathHandler ClientContact Session SessionPaths SessionEndpoint.

Local Open Scope Z_scope.
Local Open Scope router_scope.

(** ** Expiry slots *)
Definition MAX_LIFETIME_SLOTS : Z := 4.

(** The part of the endpoint that this file is about.  [path_expiry_basis] and the fuzz
    are in seconds. *)
Record Inbound := mkInbound {
  path_expiry_basis : Z;
  slot_fuzz : gmap Z Z;
  ib_world : World;
}.

(** [cleanup_old_fuzz(oldest_slot)]: nothing is erased when [lower_bound] is the end. *)
Definition cleanup_old_fuzz (oldest_slot : Z) (m : gmap Z Z) : gmap Z Z :=
  if bool_decide (map_Forall (fun slot _ => slot < oldest_slot) m) then m
  else filter (fun kv : Z * Z => oldest_slot <= kv.1) m.

(** The samples of the normal distribution, cut to whole seconds, are drawn until one is
    small enough. *)
Fixpoint fuzz_loop (samples : list Z) : option Z :=
  match samples with
  | [] => None
  | x :: samples =>
    let fuzz := if x <? 0 then - x else x in
    if MAX_LIFETIME_FUZZ / 1000 <? fuzz then fuzz_loop samples else Some fuzz
  end.

(** [inbound_path_fuzz(slot)] *)
Definition inbound_path_fuzz (samples : list Z) (slot : Z) (m : gmap Z Z) : option (Z * gmap Z Z) :=
  match m !! slot with
  | Some fuzz => Some (fuzz, m)
  | None => fuzz ← fuzz_loop samples; Some (fuzz, <[slot := fuzz]> m)
  end.

Section Slots.
Context (basis : Z) (slots : Z).

Definition slot_size : Z := Z.quot (MAX_LIFETIME / 1000) slots.

(** The base slot, for a time in milliseconds; [floor<seconds>] rounds down and the
    division truncates. *)
Definition slot0 (now : Z) : Z := Z.quot (now / 1000 - basis) slot_size + 1.

(** The slot of a path *)
Definition path_slot (path : Path) : Z := Z.quot (path_expiry path - basis * 1000) (slot_size * 1000).

(** [slot_count] after the loop over the existing paths *)
Definition count_slot (base : Z) (counts : list Z) (path : Path) : list Z :=
  let slot := path_slot path in
  if slot <? base then counts
  else if slots <=? slot - base then counts
  else alter Z.succ (Z.to_nat (slot - base)) counts.
Definition count_slots (base : Z) (paths : list Path) : list Z :=
  foldl (count_slot base) (replicate (Z.to_nat MAX_LIFETIME_SLOTS) 0) paths.

(** The slot with the fewest paths, the later one of two with as many *)
Definition best_slot (counts : list Z) : nat :=
  foldl (fun best j => if default 0 (counts !! j) <=? default 0 (counts !! best) then j else best) 0%nat
    (seq 1 (Z.to_nat slots - 1)).

(** The loop that chooses the expiries, in seconds *)
Fixpoint select_expiries (samples : nat -> list Z) (base : Z) (needed : nat) (counts : list Z) (fuzz : gmap Z Z)
    : option (list Z * list Z * gmap Z Z) :=
  match needed with
  | O => Some ([], counts, fuzz)
  | S needed =>
    let best := best_slot counts in
    let slot := base + Z.of_nat best in
    '(f, fuzz) ← inbound_path_fuzz (samples needed) slot fuzz;
    '(l, counts, fuzz) ← select_expiries samples base needed (alter Z.succ best counts) fuzz;
    Some (basis + slot * slot_size + f :: l, counts, fuzz)
  end.
End Slots.

(** The expiries [update_paths] chooses *)
Definition new_expiries (samples : nat -> list Z) (now needed : Z) (ib : Inbound) : option (list Z * gmap Z Z) :=
  let basis := path_expiry_basis ib in
  let slots := Z.min (ph_target_paths (w_handler (ib_world ib))) MAX_LIFETIME_SLOTS in
  let base := slot0 basis slots now in
  '(l, _, fuzz) ← select_expiries basis slots samples base (Z.to_nat needed)
     (count_slots basis slots base (all_paths (ib_world ib))) (cleanup_old_fuzz base (slot_fuzz ib));
  Some (l, fuzz).

(** ** Building the missing paths *)
Section Update.
Context `{Sodium} `{Oxenc}.
(** The router: its key, the RCs, and the current edges *)
Context (sk : bytes) (env : RouterEnv) (st : RCStore).
Context {Net : Type} (net_of : Address -> Z -> Net) (net_contains : Net -> Address -> bool) (netmask : Z).
Context (rcs_order : list RelayContact) (current_remotes : list bytes).
(** [inbound_pivot_reuse] *)
Context (reuse : Z).

(** [Endpoint::unique_edge_range()]; [conns] are the remote addresses of the connections. *)
Fixpoint edge_range_loop (conns : list Address) (network : option Net) : option Net :=
  match conns, network with
  | [], _ => network
  | ip :: conns, None => edge_range_loop conns (Some (net_of ip netmask))
  | ip :: conns, Some n => if net_contains n ip then edge_range_loop conns network else None
  end.
Definition unique_edge_range (conns : list Address) : option Net :=
  if (netmask =? 0) || is_service_node env then None else edge_range_loop conns None.

(** The lambda [filter]: the loop counts the paths that end at the relay. *)
Definition pivot_filter (range : option Net) (w : World) (rc : RelayContact) : bool :=
  if match range with Some n => net_contains n (rc_addr rc) | None => false end then false
  else
    let rid := rc_router_id rc in
    let count := Z.of_nat (length (filter (fun p => terminal_rid p = rid) (all_paths w))) in
    if (0 <? count) && (reuse <=? count) then false
    else negb (is_bad_for_path (w_prof w) rid 1).

(** The draws of one round of the loop: the pivots, and the builds to them *)
Record RoundDraws := mkRound {
  rd_pivots : nat -> nat;
  rd_shuffle : list (option RelayContact) -> list (option RelayContact);
  rd_builds : nat -> BuildDraws;
}.

(** [build(hops, *next_expiry++)] *)
Definition build_at (now steady_now : Z) (d : BuildDraws) (rcs : list RelayContact) (expiries : list Z) (w : World)
    : option (list Z * (World * outcome string unit)) :=
  match expiries with
  | [] => None
  | e :: expiries =>
    let '(w, r) := build (ed25519_pubkey sk) (bd_ids d) (bd_hops d) (bd_junk d) (bd_sent d) now steady_now rcs (e * 1000) w in
    Some (expiries, (w, let! _ := r in Ok tt))
  end.

(** The single-hop loop *)
Fixpoint build_single_hops (now steady_now : Z) (draws : nat -> BuildDraws) (needed : nat) (expiries : list Z) (w : World)
    : option (World * outcome string unit) :=
  match needed with
  | O => Some (w, Ok tt)
  | S needed =>
    let d := draws needed in
    match select_first_hop st (w_prof w) current_remotes None (bd_first d) with
    | None => Some (w, Ok tt)
    | Some only_hop =>
      '(expiries, wr) ← build_at now steady_now d [only_hop] expiries w;
      match wr with
      | (w, Ok _) => build_single_hops now steady_now draws needed expiries w
      | (w, Throw e) => Some (w, Throw e)
      end
    end
  end.

(** The pivots of one round; a null pivot is an error of its own. *)
Fixpoint build_to_pivots (now steady_now : Z) (draws : nat -> BuildDraws) (pivots : list (option RelayContact))
    (expiries : list Z) (w : World) : option (list Z * (World * outcome string unit)) :=
  match pivots with
  | [] => Some (expiries, (w, Ok tt))
  | rc :: pivots =>
    rc ← rc;
    let d := draws (length pivots) in
    match select_hops_to_remote env now st (w_prof w) net_of net_contains netmask rcs_order current_remotes
            (ph_num_hops (w_handler w)) (rc_router_id rc) (bd_first d) (bd_other d) (bd_any d) (bd_middle d) with
    | None => build_to_pivots now steady_now draws pivots expiries w
    | Some hops =>
      '(expiries, wr) ← build_at now steady_now d hops expiries w;
      match wr with
      | (w, Ok _) => build_to_pivots now steady_now draws pivots expiries w
      | (w, Throw e) => Some (expiries, (w, Throw e))
      end
    end
  end.

(** The loop over the rounds *)
Fixpoint build_rounds (fuel : nat) (now steady_now : Z) (range : option Net) (draws : nat -> RoundDraws) (needed : Z)
    (expiries : list Z) (w : World) : option (World * outcome string unit) :=
  match fuel with
  | O => None
  | S fuel =>
    let d := draws fuel in
    match get_n_random_rcs env now rcs_order needed true (Some (pivot_filter range w)) (rd_pivots d) (rd_shuffle d) with
    | Throw e => Some (w, Throw e)
    | Ok [] => Some (w, Ok tt)
    | Ok new_pivots =>
      let needed := needed - Z.of_nat (length new_pivots) in
      '(expiries, wr) ← build_to_pivots now steady_now (rd_builds d) new_pivots expiries w;
      match wr with
      | (w, Ok _) => if 0 <? needed then build_rounds fuel now steady_now range draws needed expiries w else Some (w, Ok tt)
      | (w, Throw e) => Some (w, Throw e)
      end
    end
  end.

(** [num_paths] short of [_target_paths]; the subtraction is on [int]. *)
Definition paths_needed (now : Z) (w : World) : Z :=
  let target := ph_target_paths (w_handler w) in
  let max_paths := num_rcs env st true * reuse in
  (if (10 <? target) && (max_paths <? target) then max_paths else target) - Z.of_nat (num_paths now w).

(** [SessionEndpoint::update_paths(now)] *)
Definition inbound_update_paths (fuel : nat) (now steady_now : Z) (conns : list Address) (samples : nat -> list Z)
    (single : nat -> BuildDraws) (draws : nat -> RoundDraws) (ib : Inbound) : option (Inbound * outcome string unit) :=
  let w := ib_world ib in
  let needed := paths_needed now w in
  if (needed <=? 0) || handler_cooldown steady_now w then Some (ib, Ok tt)
  else
    '(expiries, fuzz) ← new_expiries samples now needed ib;
    '(w, r) ← (if ph_num_hops (w_handler w) =? 1
               then build_single_hops now steady_now single (Z.to_nat needed) expiries w
               else build_rounds fuel now steady_now (unique_edge_range conns) draws needed expiries w);
    Some (mkInbound (path_expiry_basis ib) fuzz w, r).
End Update.

(** ** The expiries chosen *)
Section SlotLemmas.
Context (basis : Z) (slots : Z).
Hypothesis Hslots : 1 <= slots <= MAX_LIFETIME_SLOTS.

Abbreviation count c j := (default 0 (c !! j)).

(** [best_slot] finds a slot with the fewest paths, and the last such one. *)
Lemma best_slot_spec counts :
  (best_slot slots counts < Z.to_nat slots)%nat
  /\ forall j, (j < Z.to_nat slots)%nat -> count counts (best_slot slots counts) <= count counts j
       /\ (count counts j = count counts (best_slot slots counts) -> (j <= best_slot slots counts)%nat).
Proof.
  unfold best_slot. set (f := fun best j : nat => _).
  assert (Hgen : forall n, (foldl f 0 (seq 1 n) <= n)%nat /\ forall j, (j <= n)%nat ->
    count counts (foldl f 0%nat (seq 1 n)) <= count counts j
    /\ (count counts j = count counts (foldl f 0%nat (seq 1 n)) -> (j <= foldl f 0 (seq 1 n))%nat)).
  { induction n as [|n [IH1 IH2]]; [split; [done|]; intros j Hj; replace j with 0%nat by lia; split; [reflexivity|done]|].
    rewrite seq_S, foldl_app. cbn [foldl]. set (b := foldl f 0%nat (seq 1 n)) in *.
    change (f b (1 + n)%nat) with (if count counts (S n) <=? count counts b then S n else b).
    destruct (Z.leb_spec (count counts (S n)) (count counts b)) as [Hle|Hgt].
    - split; [lia|]. intros j Hj. destruct (decide (j = S n)) as [->|]; [split; [reflexivity|done]|].
      destruct (IH2 j) as [H1 _]; [lia|]. split; lia.
    - split; [lia|]. intros j Hj. destruct (decide (j = S n)) as [->|]; [split; lia|]. apply IH2. lia. }
  destruct (Hgen (Z.to_nat slots - 1)%nat) as [H1 H2]. unfold MAX_LIFETIME_SLOTS in Hslots.
  split; [lia|]. intros j Hj. apply H2. lia.
Qed.

Definition fuzz_ok (m : gmap Z Z) : Prop := map_Forall (fun _ f => 0 <= f <= MAX_LIFETIME_FUZZ / 1000) m.

Lemma fuzz_loop_spec samples :
  Exists (fun x => - (MAX_LIFETIME_FUZZ / 1000) <= x <= MAX_LIFETIME_FUZZ / 1000) samples ->
  exists f, fuzz_loop samples = Some f /\ 0 <= f <= MAX_LIFETIME_FUZZ / 1000.
Proof.
  assert (Ha : forall x, (if x <? 0 then - x else x) = Z.abs x) by (intros x; destruct (Z.ltb_spec x 0); lia).
  induction 1 as [x l Hx|x l _ IH]; cbn [fuzz_loop]; rewrite Ha;
    destruct (Z.ltb_spec (MAX_LIFETIME_FUZZ / 1000) (Z.abs x)); [lia| |exact IH|]; exists (Z.abs x); split; (done || lia).
Qed.

(** The number of paths in the slot [j] after [base] *)
Definition in_slot (base : Z) (j : nat) (paths : list Path) : Z :=
  Z.of_nat (length (filter (fun p => path_slot basis slots p = base + Z.of_nat j) paths)).

Lemma in_slot_app base j l1 l2 : in_slot base j (l1 ++ l2) = in_slot base j l1 + in_slot base j l2.
Proof. unfold in_slot. rewrite filter_app, length_app. lia. Qed.

Lemma in_slot_cons base j p l :
  in_slot base j (p :: l) = (if decide (path_slot basis slots p = base + Z.of_nat j) then 1 else 0) + in_slot base j l.
Proof. unfold in_slot. rewrite filter_cons. destruct (decide _); cbn [length]; lia. Qed.

Lemma count_slots_spec base paths :
  Z.of_nat (length (count_slots basis slots base paths)) = MAX_LIFETIME_SLOTS
  /\ forall j, (j < Z.to_nat slots)%nat -> count (count_slots basis slots base paths) j = in_slot base j paths.
Proof.
  unfold count_slots. set (c0 := replicate _ 0). unfold MAX_LIFETIME_SLOTS in *.
  assert (Hc0 : forall j, count c0 j = 0).
  { intros j. destruct (c0 !! j) as [x|] eqn:E; [|done]. apply lookup_replicate in E as [-> _]. done. }
  assert (Hl0 : length c0 = 4%nat) by (unfold c0; by rewrite length_replicate).
  induction paths as [|p paths [IH1 IH2]] using rev_ind; [cbn [foldl]; split; [by rewrite Hl0|intros j _; by rewrite Hc0]|].
  rewrite foldl_app. cbn [foldl]. set (c := foldl _ c0 paths) in *. unfold count_slot.
  assert (Hadd : forall j, in_slot base j (paths ++ [p]) =
    in_slot base j paths + if decide (path_slot basis slots p = base + Z.of_nat j) then 1 else 0).
  { intros j. rewrite in_slot_app, in_slot_cons. change (in_slot base j []) with 0. lia. }
  destruct (Z.ltb_spec (path_slot basis slots p) base) as [Hlt|Hge];
    [|destruct (Z.leb_spec slots (path_slot basis slots p - base)) as [Hbig|Hin]].
  - split; [done|]. intros j Hj. rewrite Hadd, decide_False, IH2 by lia. lia.
  - split; [done|]. intros j Hj. rewrite Hadd, decide_False, IH2 by lia. lia.
  - split; [by rewrite length_alter|]. intros j Hj. rewrite Hadd, list_lookup_alter.
    destruct (decide (Z.to_nat (path_slot basis slots p - base) = j)) as [He|He].
    + subst j. rewrite decide_True by lia. specialize (IH2 _ Hj).
      destruct (lookup_lt_is_Some_2 c (Z.to_nat (path_slot basis slots p - base))) as [x Hx]; [lia|].
      rewrite Hx in IH2 |- *. cbn in *. lia.
    + rewrite decide_False by lia. rewrite IH2 by done. lia.
Qed.

(** The expiry of a path in the slot [k] after [base] *)
Definition slot_expiry (base : Z) (fuzz : gmap Z Z) (k : nat) : Z :=
  basis + (base + Z.of_nat k) * slot_size slots + default 0 (fuzz !! (base + Z.of_nat k)).

(** The slots of the expiries: each of them in the range, and none that got a path has two
    paths more than another. *)
Lemma select_expiries_spec samples base n counts fuzz :
  fuzz_ok fuzz ->
  (forall i, Exists (fun x => - (MAX_LIFETIME_FUZZ / 1000) <= x <= MAX_LIFETIME_FUZZ / 1000) (samples i)) ->
  Z.of_nat (length counts) = MAX_LIFETIME_SLOTS ->
  exists ks counts' fuzz', select_expiries basis slots samples base n counts fuzz
      = Some (slot_expiry base fuzz' <$> ks, counts', fuzz')
    /\ length ks = n /\ fuzz_ok fuzz' /\ fuzz ⊆ fuzz'
    /\ Forall (fun k => (k < Z.to_nat slots)%nat /\ is_Some (fuzz' !! (base + Z.of_nat k))) ks
    /\ (forall j, count counts' j = count counts j + Z.of_nat (length (filter (fun k => k = j) ks)))
    /\ (forall j k, (k < Z.to_nat slots)%nat -> j ∈ ks -> count counts' j <= count counts' k + 1).
Proof.
  intros Hf Hs. revert counts fuzz Hf. induction n as [|n IH]; intros counts fuzz Hf Hlen; cbn [select_expiries].
  { exists [], counts, fuzz. split_and!; [done|done|done|done|by apply Forall_nil|intros; cbn; lia|by intros j k _ ?%elem_of_nil]. }
  destruct (best_slot_spec counts) as [Hb Hmin]. set (b := best_slot slots counts) in *.
  assert (Hfz : exists f fuzz1, inbound_path_fuzz (samples n) (base + Z.of_nat b) fuzz = Some (f, fuzz1) /\ fuzz_ok fuzz1
    /\ fuzz ⊆ fuzz1 /\ fuzz1 !! (base + Z.of_nat b) = Some f).
  { unfold inbound_path_fuzz. destruct (fuzz !! (base + Z.of_nat b)) as [f|] eqn:E; [by exists f, fuzz|].
    destruct (fuzz_loop_spec _ (Hs n)) as (f & -> & Hr). exists f, (<[base + Z.of_nat b := f]> fuzz). cbn.
    split_and!; [done|by apply map_Forall_insert_2|by apply insert_subseteq|by rewrite lookup_insert, decide_True]. }
  destruct Hfz as (f & fuzz1 & -> & Hf1 & Hsub & Hlk). cbn [mbind option_bind].
  destruct (IH (alter Z.succ b counts) fuzz1 Hf1) as (ks & counts' & fuzz' & -> & Hl & Hf' & Hsub' & Hall & Hcnt & Hbal);
    [by rewrite length_alter|]. cbn [mbind option_bind].
  assert (Hlk' : fuzz' !! (base + Z.of_nat b) = Some f) by (by eapply lookup_weaken).
  assert (Hca : forall j, count (alter Z.succ b counts) j = count counts j + if decide (b = j) then 1 else 0).
  { intros j. rewrite list_lookup_alter. destruct (decide (b = j)) as [<-|]; [|lia].
    destruct (lookup_lt_is_Some_2 counts b) as [x ->]; [unfold MAX_LIFETIME_SLOTS in *; lia|]. cbn. lia. }
  assert (Hc' : forall j, count counts' j = count counts j + Z.of_nat (length (filter (fun k => k = j) (b :: ks)))).
  { intros j. rewrite Hcnt, Hca, filter_cons. destruct (decide (b = j)); cbn [length]; lia. }
  exists (b :: ks), counts', fuzz'. split_and!; [|cbn; lia|done|by etransitivity| |done|].
  - cbn [fmap list_fmap]. unfold slot_expiry at 2. by rewrite Hlk'.
  - constructor; [|exact Hall]. split; [done|by eexists].
  - intros j k Hk [->|Hj]%elem_of_cons; [|by apply Hbal].
    destruct (decide (b ∈ ks)) as [Hin|Hout]; [by apply Hbal|].
    destruct (Hmin k Hk) as [Hm _]. specialize (Hcnt k) as Hck. rewrite Hca in Hck.
    assert (Hz : filter (fun k => k = b) ks = []).
    { apply elem_of_nil_inv. intros x [-> Hx]%list_elem_of_filter. done. }
    specialize (Hcnt b). rewrite Hca, Hz, decide_True in Hcnt by done. cbn [length] in Hcnt.
    destruct (decide (b = k)); lia.
Qed.

(** A path with one of these expiries is counted in its slot, and the expiry is in the
    future and no later than relays accept. *)
Lemma slot_expiry_bounds now k f :
  basis <= now / 1000 -> 0 <= k < slots -> 0 <= f <= MAX_LIFETIME_FUZZ / 1000 ->
  let e := basis + (slot0 basis slots now + k) * slot_size slots + f in
  now < e * 1000 <= now + MAX_LIFETIME_ACCEPTED
  /\ forall path, path_expiry path = e * 1000 -> path_slot basis slots path = slot0 basis slots now + k.
Proof.
  intros Hb Hk Hf e. assert (He : e = basis + (slot0 basis slots now + k) * slot_size slots + f) by done. clearbody e.
  assert (Hsz : slot_size slots * slots = 1200 /\ 300 <= slot_size slots).
  { unfold MAX_LIFETIME_SLOTS in Hslots. assert (Hc : slots = 1 \/ slots = 2 \/ slots = 3 \/ slots = 4) by lia.
    destruct Hc as [-> | [-> | [-> | ->]]]; vm_compute; split; congruence. }
  change (MAX_LIFETIME_FUZZ / 1000) with 180 in Hf. change MAX_LIFETIME_ACCEPTED with 1380000.
  unfold path_slot, slot0 in *. set (size := slot_size slots) in *. destruct Hsz as [Hsz Hmin].
  rewrite Z.quot_div_nonneg in * by lia. set (q := (now / 1000 - basis) / size) in *.
  assert (Hq : q * size <= now / 1000 - basis < q * size + size).
  { pose proof (Z.div_mod (now / 1000 - basis) size) as Hd. pose proof (Z.mod_pos_bound (now / 1000 - basis) size). lia. }
  assert (Hn : 1000 * (now / 1000) <= now < 1000 * (now / 1000) + 1000).
  { pose proof (Z.div_mod now 1000) as Hd. pose proof (Z.mod_pos_bound now 1000). lia. }
  assert (Hks : 0 <= k * size <= 1200 - size) by nia.
  replace ((q + 1 + k) * size) with (q * size + size + k * size) in He by ring.
  split; [lia|]. intros path ->. assert (0 <= q) by (apply Z.div_pos; lia).
  rewrite Z.quot_div_nonneg by nia. replace (e * 1000 - basis * 1000) with ((e - basis) * 1000) by ring.
  rewrite Z.div_mul_cancel_r by lia. symmetry. apply (Z.div_unique _ _ _ f); [lia|]. rewrite He. ring.
Qed.
End SlotLemmas.

Definition samples_ok (samples : nat -> list Z) : Prop :=
  forall i, Exists (fun x => - (MAX_LIFETIME_FUZZ / 1000) <= x <= MAX_LIFETIME_FUZZ / 1000) (samples i).

Definition inbound_slots (ib : Inbound) : Z := Z.min (ph_target_paths (w_handler (ib_world ib))) MAX_LIFETIME_SLOTS.

Lemma fuzz_ok_cleanup oldest m : fuzz_ok m -> fuzz_ok (cleanup_old_fuzz oldest m).
Proof.
  intros Hm. unfold cleanup_old_fuzz. case_bool_decide; [done|].
  intros k f Hk. apply map_lookup_filter_Some in Hk as [Hk _]. by eapply Hm.
Qed.

(** The expiries in terms of the slots they are for *)
Lemma new_expiries_slots samples now needed ib :
  samples_ok samples -> fuzz_ok (slot_fuzz ib) -> 0 < ph_target_paths (w_handler (ib_world ib)) ->
  let basis := path_expiry_basis ib in let slots := inbound_slots ib in
  let base := slot0 basis slots now in let paths := all_paths (ib_world ib) in
  exists ks fuzz, new_expiries samples now needed ib = Some (slot_expiry basis slots base fuzz <$> ks, fuzz)
    /\ length ks = Z.to_nat needed /\ fuzz_ok fuzz
    /\ Forall (fun k => (k < Z.to_nat slots)%nat /\ is_Some (fuzz !! (base + Z.of_nat k))) ks
    /\ (forall j k, (k < Z.to_nat slots)%nat -> j ∈ ks ->
          in_slot basis slots base j paths + Z.of_nat (length (filter (fun k => k = j) ks))
          <= in_slot basis slots base k paths + Z.of_nat (length (filter (fun j => j = k) ks)) + 1).
Proof.
  intros Hs Hf Ht basis slots base paths. unfold new_expiries. fold slots basis base paths.
  change (Z.min (ph_target_paths (w_handler (ib_world ib))) MAX_LIFETIME_SLOTS) with slots. fold base.
  assert (Hsl : 1 <= slots <= MAX_LIFETIME_SLOTS) by (unfold slots, inbound_slots, MAX_LIFETIME_SLOTS; lia).
  destruct (count_slots_spec basis slots Hsl base paths) as [Hl Hc].
  destruct (select_expiries_spec basis slots Hsl samples base (Z.to_nat needed) (count_slots basis slots base paths)
    (cleanup_old_fuzz base (slot_fuzz ib))) as (ks & counts' & fuzz' & -> & Hlen & Hf' & _ & Hall & Hcnt & Hbal);
    [by apply fuzz_ok_cleanup|done|done|].
  exists ks, fuzz'. split_and!; [done..|]. intros j k Hk Hj. specialize (Hbal j k Hk Hj). rewrite !Hcnt in Hbal.
  rewrite Forall_forall in Hall. destruct (Hall _ Hj) as [Hjs _]. rewrite !Hc in Hbal by done. lia.
Qed.

(** C15. The expiries for new inbound paths: there is one for each missing path; each lies in the
    future and no later than a relay accepts a path for; and with paths of these expiries added,
    no slot that got one of them holds two paths more than any other slot, so that the paths
    keep expiring spread over the lifetime. *)
Theorem inbound_expiries_spread samples now needed ib :
  samples_ok samples -> fuzz_ok (slot_fuzz ib) -> 0 < ph_target_paths (w_handler (ib_world ib)) ->
  path_expiry_basis ib <= now / 1000 ->
  let slots := inbound_slots ib in let base := slot0 (path_expiry_basis ib) slots now in
  exists expiries fuzz, new_expiries samples now needed ib = Some (expiries, fuzz) /\ fuzz_ok fuzz
    /\ length expiries = Z.to_nat needed
    /\ Forall (fun e => now < e * 1000 <= now + MAX_LIFETIME_ACCEPTED) expiries
    /\ forall added, path_expiry <$> added = (fun e => e * 1000) <$> expiries ->
       let n := fun k => in_slot (path_expiry_basis ib) slots base k (all_paths (ib_world ib) ++ added) in
       (forall p, p ∈ added -> exists j, (j < Z.to_nat slots)%nat /\ path_slot (path_expiry_basis ib) slots p = base + Z.of_nat j)
       /\ (forall p j k, p ∈ added -> path_slot (path_expiry_basis ib) slots p = base + Z.of_nat j ->
             (k < Z.to_nat slots)%nat -> n j <= n k + 1).
Proof.
  intros Hs Hf Ht Hb slots base.
  destruct (new_expiries_slots samples now needed ib Hs Hf Ht) as (ks & fuzz & -> & Hlen & Hf' & Hall & Hbal).
  fold slots base in Hall, Hbal |- *. set (basis := path_expiry_basis ib) in *.
  assert (Hsl : 1 <= slots <= MAX_LIFETIME_SLOTS) by (unfold slots, inbound_slots, MAX_LIFETIME_SLOTS; lia).
  assert (Hk : forall k, k ∈ ks -> (k < Z.to_nat slots)%nat
    /\ now < slot_expiry basis slots base fuzz k * 1000 <= now + MAX_LIFETIME_ACCEPTED
    /\ forall p, path_expiry p = slot_expiry basis slots base fuzz k * 1000 -> path_slot basis slots p = base + Z.of_nat k).
  { intros k Hk. rewrite Forall_forall in Hall. destruct (Hall k Hk) as [Hks [f Hfk]]. split; [done|].
    unfold slot_expiry. rewrite Hfk. cbn [default]. apply (slot_expiry_bounds basis slots Hsl now (Z.of_nat k) f);
      [done|lia|by eapply Hf']. }
  do 2 eexists. split_and!; [done|done|by rewrite length_fmap| |].
  { apply Forall_fmap, Forall_forall. intros k Hin. by apply Hk. }
  intros added Hadd n.
  assert (Hslots : (path_slot basis slots <$> added) = (fun k => base + Z.of_nat k) <$> ks).
  { rewrite <- list_fmap_compose in Hadd. clear n Hbal Hlen Hall. revert added Hadd Hk.
    induction ks as [|k ks IH]; intros [|p added]; cbn; [done..|]. intros [= Hp Hrest] Hk. f_equal.
    - apply (Hk k); [by left|exact Hp].
    - apply IH; [done|]. intros k' Hk'. apply Hk. by right. }
  assert (Hn : forall j, n j = in_slot basis slots base j (all_paths (ib_world ib)) + Z.of_nat (length (filter (fun k => k = j) ks))).
  { intros j. unfold n. rewrite in_slot_app. f_equal. unfold in_slot. f_equal. clear -Hslots. revert ks Hslots.
    induction added as [|p added IH]; intros [|k ks]; cbn [fmap list_fmap]; [done..|]. intros [= Hp Hrest]. rewrite !filter_cons.
    destruct (decide (path_slot basis slots p = base + Z.of_nat j)), (decide (k = j)); cbn [length]; try lia;
      rewrite (IH ks); [done..|]. exact Hrest. }
  assert (Hin : forall p, p ∈ added -> exists k, k ∈ ks /\ path_slot basis slots p = base + Z.of_nat k).
  { intros p Hp. apply (list_elem_of_fmap_2 (path_slot basis slots)) in Hp. rewrite Hslots in Hp.
    apply list_elem_of_fmap in Hp as (k & -> & Hk'). by exists k. }
  split.
  - intros p (k & Hkk & ->)%Hin. exists k. split; [by apply Hk|done].
  - intros p j k (j' & Hj' & Hpj)%Hin Hj Hkk. assert (j' = j) as -> by lia. rewrite !Hn. apply Hbal; done.
Qed.

(** ** What [update_paths] leaves *)
Section UpdateLemmas.
Context `{Sodium} `{Oxenc}.
Context (sk : bytes) (env : RouterEnv) (st : RCStore).
Context {Net : Type} (net_of : Address -> Z -> Net) (net_contains : Net -> Address -> bool) (netmask : Z).
Context (rcs_order : list RelayContact) (current_remotes : list bytes) (reuse : Z).

(** Every path of [w'] is one of [w] with the same expiry, or has an expiry that is allowed. *)
Definition lives (allowed : Z -> Prop) (w w' : World) : Prop :=
  forall p path', path_heap (w_ctx w') !! p = Some path' ->
    allowed (path_expiry path')
    \/ exists path, path_heap (w_ctx w) !! p = Some path /\ path_expiry path = path_expiry path'.

Lemma lives_refl P w : lives P w w.
Proof. intros p path Hp. right. eauto. Qed.

Lemma lives_trans P w1 w2 w3 : lives P w1 w2 -> lives P w2 w3 -> lives P w1 w3.
Proof.
  intros H12 H23 p path [?|(path2 & Hp & <-)]%H23; [by left|].
  destruct (H12 _ _ Hp) as [?|(path1 & ? & ?)]; [by left|right; eauto].
Qed.

Lemma lives_same_heap P w w' : path_heap (w_ctx w') = path_heap (w_ctx w) -> lives P w w'.
Proof. intros E p path Hp. right. rewrite E in Hp. eauto. Qed.

Lemma lives_drop P path w : lives P w (drop_path path w).
Proof.
  unfold drop_path, drop_path_ctx. intros p path'. cbn.
  destruct (path_map (w_ctx w) !! edge_rxid path) as [q|]; cbn; [|intros Hp; right; eauto].
  rewrite lookup_alter. destruct (decide (q = p)) as [->|]; [|intros Hp; right; eauto].
  intros Hp. apply fmap_Some in Hp as (x & Hx & ->). right. by exists x.
Qed.

Lemma lives_failed P now steady p timeout w : lives P w (path_build_failed now steady p timeout w).
Proof.
  unfold path_build_failed. destruct (p ≫= _) as [path|]; [|by apply lives_same_heap].
  eapply lives_trans; [apply (lives_drop P path)|]. by destruct timeout; apply lives_same_heap.
Qed.

Lemma lives_build P self rng rnd junk sent now steady rcs e w :
  P e -> lives P w (build self rng rnd junk sent now steady rcs e w).1.
Proof.
  intros He. unfold build. destruct (can_build w rcs); [|apply lives_failed].
  set (path := Path_new self rng rcs e). set (q := next_ptr (w_ctx w)).
  assert (Ha : forall f w1, path_heap (w_ctx w1) = <[q := path]> (path_heap (w_ctx w)) -> lives P w (on_handler f w1)).
  { intros f w1 E p path' Hp. cbn in Hp. rewrite E, lookup_insert in Hp. destruct (decide (q = p)); [|right; eauto].
    injection Hp as <-. by left. }
  unfold build_init_path. fold q. destruct (ph_paths _ !! _).
  { cbn [fst]. eapply lives_trans; [|apply lives_failed]. by apply (Ha id). }
  unfold send_path_build. cbn [w_ctx on_handler on_ctx set path_heap alloc_path]. rewrite lookup_insert, decide_True by done.
  destruct (path_build_onion rnd junk now path) as [[path' msg]|] eqn:Eo.
  - assert (He' : path_expiry path' = e).
    { unfold path_build_onion in Eo. apply throw_if_Ok in Eo as [_ Eo].
      apply outcome_bind_Ok in Eo as ([hs result] & _ & Eo). by injection Eo as <- _. }
    assert (Hb : forall w1, path_heap (w_ctx w1) = <[q := path']> (<[q := path]> (path_heap (w_ctx w))) -> lives P w w1).
    { intros w1 E p x Hp. rewrite E, lookup_insert in Hp. destruct (decide (q = p)); [injection Hp as <-; left; congruence|].
      rewrite lookup_insert_ne in Hp by done. right. eauto. }
    destruct sent; [by apply Hb|]. eapply lives_trans; [|apply lives_failed]. by apply Hb.
  - cbn [fst]. by apply (Ha id).
Qed.

Section Allowed.
Context (P : Z -> Prop).
Abbreviation allowed := (Forall (fun e => P (e * 1000))).

Lemma build_at_ok now steady d rcs e l w :
  allowed (e :: l) -> exists w' r, build_at sk now steady d rcs (e :: l) w = Some (l, (w', r)) /\ lives P w w'.
Proof.
  intros [He _]%Forall_cons. unfold build_at.
  destruct (build _ _ _ _ _ _ _ _ _ _) as [w' r] eqn:E. do 2 eexists. split; [done|].
  change w' with (w', r).1. rewrite <- E. by apply lives_build.
Qed.

Lemma build_single_hops_ok now steady draws n l w :
  allowed l -> (n <= length l)%nat ->
  exists w' r, build_single_hops sk st current_remotes now steady draws n l w = Some (w', r) /\ lives P w w'.
Proof.
  revert l w. induction n as [|n IH]; intros l w Hl Hn; cbn [build_single_hops]; [eauto using lives_refl|].
  destruct (select_first_hop _ _ _ _ _); [|eauto using lives_refl].
  destruct l as [|e l]; [cbn in Hn; lia|].
  destruct (build_at_ok now steady (draws n) [r] e l w Hl) as (w1 & r1 & -> & H1). cbn [mbind option_bind].
  apply Forall_cons in Hl as [_ Hl]. destruct r1; [|eauto].
  destruct (IH l w1) as (w2 & r2 & -> & H2); [done|cbn in Hn; lia|]. eauto using lives_trans.
Qed.

Lemma build_to_pivots_ok now steady draws pivots l w :
  allowed l -> (length pivots <= length l)%nat ->
  exists l' w' r, build_to_pivots sk env st net_of net_contains netmask rcs_order current_remotes now steady draws
      (Some <$> pivots) l w = Some (l', (w', r))
    /\ lives P w w' /\ allowed l' /\ (length l - length pivots <= length l')%nat.
Proof.
  revert l w. induction pivots as [|rc pivots IH]; intros l w Hl Hn; cbn [fmap list_fmap build_to_pivots length].
  { do 3 eexists. split_and!; [done|apply lives_refl|done|lia]. }
  cbn [mbind option_bind length] in *. destruct (select_hops_to_remote _ _ _ _ _ _ _ _ _ _ _ _ _ _ _) as [hops|].
  - destruct l as [|e l]; [cbn in Hn; lia|]. cbn [length] in Hn.
    edestruct (build_at_ok now steady) as (w1 & r1 & -> & H1); [exact Hl|]. cbn [mbind option_bind].
    apply Forall_cons in Hl as [_ Hl].
    destruct r1; [|do 3 eexists; split_and!; [done..|cbn; lia]].
    destruct (IH l w1) as (l' & w' & r & -> & H2 & H3 & H4); [done|lia|].
    do 3 eexists. split_and!; [done|by eapply lives_trans|done|cbn; lia].
  - destruct (IH l w) as (l' & w' & r & -> & H2 & H3 & H4); [done|lia|].
    do 3 eexists. split_and!; [done..|lia].
Qed.

Lemma build_rounds_ok fuel now steady range draws needed l w :
  (forall i a, (rd_pivots (draws i) a <= a)%nat) -> (forall i l, rd_shuffle (draws i) l ≡ₚ l) ->
  allowed l -> 0 < needed <= Z.of_nat (length l) -> needed <= Z.of_nat fuel ->
  exists w' r, build_rounds sk env st net_of net_contains netmask rcs_order current_remotes reuse fuel now steady range
      draws needed l w = Some (w', r) /\ lives P w w'.
Proof.
  intros Hd Hs. revert needed l w. induction fuel as [|fuel IH]; intros needed l w Hl Hn Hf; [lia|].
  cbn [build_rounds]. unfold get_n_random_rcs.
  destruct (sample_rcs_ok env now rcs_order needed (Some (pivot_filter net_contains reuse range w)) (rd_pivots (draws fuel))
    (rd_shuffle (draws fuel)) true) as (r & rcs & -> & Hr & Hlen & _); [lia|done|done|].
  apply Permutation_map_inv in Hr as (rcs' & -> & Hp). apply Permutation_length in Hp as Hpl.
  destruct rcs' as [|rc rcs']; [cbn; eauto using lives_refl|].
  cbn [map]. change (Some rc :: map Some rcs') with (Some <$> rc :: rcs').
  destruct (build_to_pivots_ok now steady (rd_builds (draws fuel)) (rc :: rcs') l w) as (l' & w1 & r1 & -> & H1 & Hl' & Hle);
    [done|lia|]. cbn [mbind option_bind]. rewrite length_fmap.
  destruct r1; [|eauto]. destruct (Z.ltb_spec 0 (needed - Z.of_nat (length (rc :: rcs')))) as [Hmore|]; [|eauto].
  destruct (IH (needed - Z.of_nat (length (rc :: rcs'))) l' w1) as (w2 & r2 & -> & H2); [done|lia|cbn [length]; lia|].
  eauto using lives_trans.
Qed.
End Allowed.

(** [update_paths] of the endpoint ends, after at most as many rounds as paths are wanted,
    without reading past the expiries it chose or following a null pivot, and the paths it
    adds all expire in the future and no later than a relay accepts; the expiries of the paths
    it had stay as they were. *)
Theorem inbound_update_ends fuel now steady conns samples single draws ib :
  samples_ok samples -> fuzz_ok (slot_fuzz ib) -> path_expiry_basis ib <= now / 1000 ->
  (forall i a, (rd_pivots (draws i) a <= a)%nat) -> (forall i l, rd_shuffle (draws i) l ≡ₚ l) ->
  ph_target_paths (w_handler (ib_world ib)) <= Z.of_nat fuel ->
  exists ib' r, inbound_update_paths sk env st net_of net_contains netmask rcs_order current_remotes reuse fuel now steady
      conns samples single draws ib = Some (ib', r)
    /\ lives (fun e => now < e <= now + MAX_LIFETIME_ACCEPTED) (ib_world ib) (ib_world ib')
    /\ fuzz_ok (slot_fuzz ib') /\ path_expiry_basis ib' = path_expiry_basis ib.
Proof.
  intros Hs Hf Hb Hd Hsh Hfuel. unfold inbound_update_paths. set (needed := paths_needed env st reuse now (ib_world ib)).
  destruct (Z.leb_spec needed 0) as [|Hneed]; cbn [orb]; [do 2 eexists; split_and!; [done|apply lives_refl|done..]|].
  destruct (handler_cooldown steady (ib_world ib)); [do 2 eexists; split_and!; [done|apply lives_refl|done..]|].
  assert (Hle : needed <= ph_target_paths (w_handler (ib_world ib))).
  { unfold needed, paths_needed. destruct (Z.ltb_spec 10 (ph_target_paths (w_handler (ib_world ib)))); cbn [andb]; [|lia].
    destruct (Z.ltb_spec (num_rcs env st true * reuse) (ph_target_paths (w_handler (ib_world ib)))); lia. }
  destruct (new_expiries_slots samples now needed ib Hs Hf) as (ks & fuzz & -> & Hlen & Hf' & Hall & _); [lia|].
  cbn [mbind option_bind]. set (slots := inbound_slots ib) in *. set (basis := path_expiry_basis ib) in *.
  set (l := slot_expiry basis slots (slot0 basis slots now) fuzz <$> ks).
  assert (Hl : Forall (fun e => now < e * 1000 <= now + MAX_LIFETIME_ACCEPTED) l).
  { apply Forall_fmap. eapply Forall_impl; [exact Hall|]. intros k [Hk [f Hfk]]. cbn. unfold slot_expiry. rewrite Hfk.
    apply (slot_expiry_bounds basis slots); [unfold slots, inbound_slots, MAX_LIFETIME_SLOTS; lia|done|lia|by eapply Hf']. }
  assert (Hll : length l = Z.to_nat needed) by (unfold l; by rewrite length_fmap).
  destruct (ph_num_hops (w_handler (ib_world ib)) =? 1).
  - edestruct (build_single_hops_ok (fun e => now < e <= now + MAX_LIFETIME_ACCEPTED)) as (w' & r & -> & Hw); [exact Hl|lia|].
    do 2 eexists. by split_and!.
  - edestruct (build_rounds_ok (fun e => now < e <= now + MAX_LIFETIME_ACCEPTED) fuel) as (w' & r & -> & Hw);
      [exact Hd|exact Hsh|exact Hl|lia|lia|]. do 2 eexists. by split_and!.
Qed.
End UpdateLemmas.

Module InboundDemo.
Definition hop (rid tx rx : bytes) : TransitHop := mkHop tx rx [] rid (PRouter []) [] [] 0 0 1 true false.
Definition path : Path := mkPath [hop [1] [10] [11]] 700000 true true false None.
Definition world : World :=
  mkWorld (mkCtx ∅ {[0%nat := path]} 1 ∅ {[[11] := 0%nat]} false)
    ((Handler_new 4 2) <| ph_paths := {[[11] := 0%nat]} |>) (mkStats 0 0 0 0 0 0) (mkProfiling ∅ false) ∅ ∅.
Definition inbound : Inbound := mkInbound 0 ∅ world.
Definition samples (i : nat) : list Z := [-200; Z.of_nat (i mod 4) - 50].
Definition relay (k : Z) : RelayContact := mkRC (replicate 32 k) (Addr4 [10; 0; k; 1] [0; 0]) None 0 0 [] [].
Definition relays : list RelayContact := [relay 1; relay 2; relay 3; relay 4; relay 5].
Definition store : RCStore := mkStore (list_to_map ((fun rc => (rc_router_id rc, rc)) <$> relays)) [] [] [].
Definition builds (round i : nat) : BuildDraws :=
  mkBuildDraws (fun _ => 0%nat) (fun _ => 0%nat) (fun _ => 0%nat) (fun _ _ => 0%nat)
    (fun k => replicate 16 (Z.of_nat (i * 16 + k))) Demo.rnd (zero_buf 1014) true.
Definition rounds (i : nat) : RoundDraws := mkRound (fun a => a) reverse (builds i).
Definition updated : option (Inbound * outcome string unit) :=
  @inbound_update_paths toy bencode (replicate 64 9) HopDemo.env store bytes HopDemo.net_of HopDemo.net_contains 24
    relays [replicate 32 1; replicate 32 2] 1 4 100500 50 [] samples (builds 0) rounds inbound.
End InboundDemo.

Lemma inbound_demo_samples : samples_ok InboundDemo.samples.
Proof.
  intros i. apply Exists_cons. right. apply Exists_cons. left. change (MAX_LIFETIME_FUZZ / 1000) with 180.
  pose proof (Nat.mod_upper_bound i 4). lia.
Qed.

Lemma inbound_expiries_spread_witness :
  exists expiries fuzz, new_expiries InboundDemo.samples 100500 3 InboundDemo.inbound = Some (expiries, fuzz)
    /\ length expiries = 3%nat.
Proof.
  destruct (inbound_expiries_spread InboundDemo.samples 100500 3 InboundDemo.inbound) as (l & fuzz & E & _ & Hl & _).
  - exact inbound_demo_samples.
  - apply map_Forall_empty.
  - reflexivity.
  - discriminate.
  - exists l, fuzz. split; [exact E|exact Hl].
Defined.

Lemma inbound_update_ends_witness :
  exists ib r, InboundDemo.updated = Some (ib, r)
    /\ lives (fun e => 100500 < e <= 100500 + MAX_LIFETIME_ACCEPTED) InboundDemo.world (ib_world ib).
Proof.
  destruct (@inbound_update_ends toy bencode (replicate 64 9) HopDemo.env InboundDemo.store bytes HopDemo.net_of HopDemo.net_contains 24
    InboundDemo.relays [replicate 32 1; replicate 32 2] 1 4 100500 50 [] InboundDemo.samples (InboundDemo.builds 0)
    InboundDemo.rounds InboundDemo.inbound) as (ib & r & E & Hl & _).
  - exact inbound_demo_samples.
  - apply map_Forall_empty.
  - discriminate.
  - intros i a. reflexivity.
  - intros i l. apply reverse_Permutation.
  - discriminate.
  - exists ib, r. split; [exact E|exact Hl].
Defined.

(** A clean-up of the fuzz values does nothing when all of them are old: [lower_bound] is
    then the end of the map, and the values stay until a newer slot gets one. *)
Lemma cleanup_keeps_old_fuzz m oldest : map_Forall (fun slot _ => slot < oldest) m -> cleanup_old_fuzz oldest m = m.
Proof. intros Hm. unfold cleanup_old_fuzz. by rewrite bool_decide_true. Qed.
