(* ===== verification/ContactRouting.v ===== *)
(** * Publishing and finding contacts (link/link_manager.cpp, handlers/session.cpp)

    A client publishes its contact through four requests, one for each of the four relays
    closest to its blinded key; the relay at the end of a path forwards a request to the
    relay it is for, which stores the contact.  Lookups go the same way.  A handler's
    answers are its results: a response, or a command for another relay whose response is
    passed on.  Reading past the end of the closest relays is [None]. *)

From Stdlib Require Import ZArith Lia.
From stdpp Require Import base list numbers strings gmap sorting.
From coqutil Require Import Datatypes.RecordSettersUsingExistingGetters.
From S2P Require Import Prelude Oxenc Messages Str Crypto RelayContact Path PathContext RcStore NodeDB Profiling PathHandler ClientContact Session SessionPaths SessionEndpoint SessionLookup InboundPaths.

Local Open Scope Z_scope.
Local Open Scope router_scope.

Definition CC_PUBLISH_LOCATIONS : Z := 4.

(** ** The endpoint's side *)

(** [Path::make_intro()] *)
Definition make_intro (path : Path) : ClientIntro :=
  mkIntro (terminal_rid path) (terminal_hopid path) (path_expiry path / 1000).

Section Publish.
Context `{Sodium} `{EdScalar} `{Oxenc}.

(** What [publish_client_contact(encrypted_cc)] sends: the contact to the remote of each
    inbound session, and one request for each location.  [sampled] are the paths that
    [std::ranges::sample] and [std::shuffle] leave. *)
Definition publish_client_contact (sessions : list Session) (sampled : list nat)
    : list NetworkAddress * list (nat * Z) :=
  (s_remote <$> filter (fun s => negb (is_outbound (s_kind s))) sessions,
   match sampled with
   | [] => []
   | _ => (fun location => (default 0%nat (sampled !! (location mod length sampled)%nat), Z.of_nat location))
            <$> seq 0 (Z.to_nat CC_PUBLISH_LOCATIONS)
   end).

(** [update_and_publish_localcc()]: the new contact and its record; the exceptions of
    [encrypt_and_sign] are caught, that of [update_intros] is not. *)
Definition update_and_publish_localcc (is_reachable : bool) (b : Ed25519BlindedKey) (nonce : bytes) (now : Z)
    (w : World) (cc : ClientContact) : outcome string (ClientContact * option bytes) :=
  if negb is_reachable then Ok (cc, None)
  else
    let intros := make_intro <$> filter (fun p => path_is_active now p) (all_paths w) in
    let! cc := cc_update_intros intros cc in
    let '(enc, cc) := encrypt_and_sign b nonce now cc in
    Ok (cc, Some enc).

(** [on_path_build_success(build_id, p)], after the notice to the router *)
Definition inbound_build_success (is_reachable : bool) (b : Ed25519BlindedKey) (nonce : bytes) (now : Z) (w : World)
    (cc : ClientContact) : outcome string (ClientContact * option bytes) :=
  if negb is_reachable then Ok (cc, None)
  else if Z.of_nat (num_active_paths now now w) <? ph_target_paths (w_handler w) then Ok (cc, None)
  else update_and_publish_localcc is_reachable b nonce now w cc.

(** [Path::publish_client_contact(encrypted_cc, location, func)] and
    [Path::find_client_contact(blinded_pk, lookup_index, func)]: the bodies sent *)
Definition publish_request (encrypted_cc : bytes) (location : Z) : bytes :=
  bt_dict_produce [(str "e", BStr encrypted_cc); (str "n", BInt location)].
Definition find_request (blinded_pk : bytes) (lookup_index : Z) : bytes :=
  bt_dict_produce [(str "k", BStr blinded_pk); (str "n", BInt lookup_index)].
End Publish.

(** ** The relay's side *)

(** What of a relay these handlers use: its identity, the registered relays it knows, in
    the order of its table, and its store *)
Record ContactRelay := mkContactRelay {
  cr_id : bytes;
  cr_service : bool;
  cr_rids : list bytes;
  cr_contacts : Storage;
}.

Inductive Reply : Type :=
| Respond (body : bytes)
| Forward (rid body : bytes).

Section Handlers.
Context `{Sodium} `{Oxenc}.

Definition parse_publish (body : bytes) : outcome string (bytes * Z * bytes * Z) :=
  let! c := or_throw BT_ERROR (bt_dict_open body) in
  let! (enc_cc, c) := or_throw BT_ERROR (bt_require_string (str "e") c) in
  let! (location, _) := or_throw BT_ERROR (bt_require_num (fits_signed 32) (str "n") c) in
  let! p := or_throw BT_ERROR (bt_dict_open enc_cc) in
  let! (blinded_pk, p) := or_throw BT_ERROR (bt_require_span 32 (str "i") p) in
  let! (signed_at, _) := or_throw BT_ERROR (bt_require_num (fits_signed 64) (str "t") p) in
  Ok (enc_cc, location, blinded_pk, signed_at).

(** The lambda [store_it] *)
Definition store_it (enc_cc : bytes) (r : ContactRelay) : ContactRelay * list Reply :=
  let '(db, res) := put_cc enc_cc (cr_contacts r) in
  (mkContactRelay (cr_id r) (cr_service r) (cr_rids r) db,
   [Respond (match res with Ok _ => OK_RESPONSE | Throw _ => ERROR_RESPONSE end)]).

(** [Manager::handle_publish_cc(body, respond, source_is_relay)] *)
Definition handle_publish_cc (now : Z) (body : bytes) (source_is_relay : bool) (r : ContactRelay)
    : ContactRelay * list Reply :=
  match parse_publish body with
  | Throw _ => (r, [Respond ERROR_RESPONSE])
  | Ok (enc_cc, location, blinded_pk, signed_at) =>
    if signed_at <? now - MAX_LIFETIME_ACCEPTED then (r, [Respond EXPIRED_RESPONSE])
    else if now + 10 * 60 * 1000 <? signed_at then (r, [Respond FUTURE_RESPONSE])
    else if negb (cr_service r) then (r, [])
    else
      let closest_rids := find_many_closest_to (cr_rids r) blinded_pk (CC_PUBLISH_LOCATIONS + 1) in
      if Z.of_nat (length closest_rids) <? CC_PUBLISH_LOCATIONS
      then (r, [Respond (serialize_status_response (str "No RCs available!"))])
      else if negb source_is_relay then
        if (location <? 0) || (CC_PUBLISH_LOCATIONS <=? location)
        then (r, [Respond (serialize_status_response
                    (if location =? 0 then str "MISSING PUBLISH LOCATION" else str "INVALID PUBLISH LOCATION"))])
        else
          match closest_rids !! Z.to_nat location with
          | Some rid => if bool_decide (rid = cr_id r) then store_it enc_cc r else (r, [Forward rid body])
          | None => (r, [])
          end
      else if bool_decide (cr_id r ∈ closest_rids) then store_it enc_cc r
      else (r, [Respond ERROR_RESPONSE])
  end.

Definition parse_find (body : bytes) : outcome string (bytes * Z) :=
  let! c := or_throw BT_ERROR (bt_dict_open body) in
  let! (blinded_pubkey, c) := or_throw BT_ERROR (bt_require_span 32 (str "k") c) in
  let! (n, _) := or_throw BT_ERROR (bt_maybe_int (str "n") c) in
  throw_if negb (match n with Some z => fits_signed 32 z | None => true end) with BT_ERROR in
  Ok (blinded_pubkey, default (-1) n).

(** The lambdas [respond_if_local_cc] and [respond_local_cc_or_fail] *)
Definition local_cc (now : Z) (blinded_pubkey : bytes) (r : ContactRelay) : option bytes :=
  cc ← get_encrypted_cc (cr_contacts r) blinded_pubkey now;
  Some (bt_dict_produce [(str "!", BStr (str "OK")); (str "x", BStr cc)]).
Definition local_cc_or_fail (now : Z) (blinded_pubkey : bytes) (r : ContactRelay) : list Reply :=
  [Respond (default NOT_FOUND_RESPONSE (local_cc now blinded_pubkey r))].

Definition relay_find_cc (blinded_pubkey : bytes) : bytes := bt_dict_produce [(str "k", BStr blinded_pubkey)].

(** [Manager::handle_find_cc(body, respond, source_is_relay)] *)
Definition handle_find_cc (now : Z) (body : bytes) (source_is_relay : bool) (r : ContactRelay) : option (list Reply) :=
  match parse_find body with
  | Throw _ => Some [Respond ERROR_RESPONSE]
  | Ok (blinded_pubkey, lookup_index) =>
    if source_is_relay then Some (local_cc_or_fail now blinded_pubkey r)
    else
      let closest_rids := find_many_closest_to (cr_rids r) blinded_pubkey CC_PUBLISH_LOCATIONS in
      if Z.of_nat (length closest_rids) <? CC_PUBLISH_LOCATIONS then Some [Respond ERROR_RESPONSE]
      else if 0 <=? lookup_index then
        lookup_rid ← closest_rids !! Z.to_nat lookup_index;
        Some (if bool_decide (lookup_rid = cr_id r) then local_cc_or_fail now blinded_pubkey r
              else [Forward lookup_rid (relay_find_cc blinded_pubkey)])
      else
        let authoritative := bool_decide (cr_id r ∈ closest_rids) in
        match (if authoritative then local_cc now blinded_pubkey r else None) with
        | Some cc => Some [Respond cc]
        | None => Some ((fun rid => Forward rid (relay_find_cc blinded_pubkey)) <$> filter (fun rid => rid <> cr_id r) closest_rids)
        end
  end.

(** The response to a forwarded command: its body, or that it timed out or was an error *)
Record QuicMessage := mkMessage { msg_ok : bool; msg_timed_out : bool; msg_body : bytes }.

(** What the callbacks of the forwarded commands respond *)
Definition publish_relayed (msg : QuicMessage) : bytes := msg_body msg.
Definition find_relayed (msg : QuicMessage) : bytes := if msg_timed_out msg then TIMEOUT_RESPONSE else msg_body msg.

(** The callback [hook] of a lookup without an index, which several commands share *)
Definition find_hook (msg : QuicMessage) (remaining : Z) : Z * list bytes :=
  if remaining =? 0 then (remaining, [])
  else if msg_ok msg then (0, [msg_body msg])
  else
    let remaining := remaining - 1 in
    if remaining =? 0 then (remaining, [])
    else (remaining, [if msg_timed_out msg then TIMEOUT_RESPONSE else msg_body msg]).
End Handlers.

(** ** A network of relays *)
Section Network.
Context `{Sodium} `{Oxenc}.

(** A request served by the relay at the end of a path, and by the one it forwards to *)
Definition publish_at (now : Z) (net : gmap bytes ContactRelay) (pivot body : bytes) : gmap bytes ContactRelay * option bytes :=
  match net !! pivot with
  | None => (net, None)
  | Some r =>
    match handle_publish_cc now body false r with
    | (r, [Respond resp]) => (<[pivot := r]> net, Some resp)
    | (r, [Forward rid body]) =>
      match net !! rid with
      | None => (net, None)
      | Some r2 =>
        match handle_publish_cc now body true r2 with
        | (r2, [Respond resp]) => (<[rid := r2]> net, Some (publish_relayed (mkMessage true false resp)))
        | _ => (net, None)
        end
      end
    | _ => (net, None)
    end
  end.

Definition find_at (now : Z) (net : gmap bytes ContactRelay) (pivot body : bytes) : option bytes :=
  match net !! pivot ≫= handle_find_cc now body false with
  | Some [Respond resp] => Some resp
  | Some [Forward rid body] =>
    match net !! rid ≫= handle_find_cc now body true with
    | Some [Respond resp] => Some (find_relayed (mkMessage true false resp))
    | _ => None
    end
  | _ => None
  end.

(** The requests of a publisher; the relay at the end of path [p] is [pivot_of p]. *)
Definition publish_all (now : Z) (pivot_of : nat -> bytes) (enc : bytes) (requests : list (nat * Z)) (net : gmap bytes ContactRelay)
    : gmap bytes ContactRelay * list (option bytes) :=
  foldl (fun '(net, resps) '(p, location) =>
    let '(net, resp) := publish_at now net (pivot_of p) (publish_request enc location) in (net, resps ++ [resp]))
    (net, []) requests.

(** Relays that are registered with one another *)
Record contact_net (ids : list bytes) (net : gmap bytes ContactRelay) : Prop := {
  cn_nodup : NoDup ids;
  cn_enough : (4 <= length ids)%nat;
  cn_known : forall id, id ∈ ids -> is_Some (net !! id);
  cn_relay : forall id r, net !! id = Some r -> cr_id r = id /\ cr_service r = true /\ cr_rids r ≡ₚ ids;
}.

Lemma closest_length ids pk n : (4 <= length ids)%nat -> 4 <= n ->
  4 <= Z.of_nat (length (find_many_closest_to ids pk n)).
Proof.
  intros Hl Hn. unfold find_many_closest_to. rewrite (proj2 (Z.leb_gt n 0)) by lia.
  rewrite length_take, (Permutation_length (merge_sort_Permutation _ _)). lia.
Qed.

(** All relays agree on the relay of a location. *)
Lemma closest_agree ids order pk n i : NoDup ids -> (4 <= length ids)%nat -> order ≡ₚ ids -> 4 <= n -> 0 <= i < 4 ->
  exists rid, find_many_closest_to ids pk CC_PUBLISH_LOCATIONS !! Z.to_nat i = Some rid
    /\ find_many_closest_to order pk n !! Z.to_nat i = Some rid /\ rid ∈ ids.
Proof.
  intros Hnd Hl Hp Hn Hi. unfold CC_PUBLISH_LOCATIONS.
  destruct (lookup_lt_is_Some_2 (find_many_closest_to ids pk 4) (Z.to_nat i)) as [rid Hr].
  { pose proof (closest_length ids pk 4 Hl). lia. }
  exists rid. split; [done|]. split.
  - eapply prefix_lookup_Some; [exact Hr|]. by apply find_many_closest_agree; [|lia].
  - apply list_elem_of_lookup_2 in Hr. unfold find_many_closest_to in Hr. rewrite (proj2 (Z.leb_gt 4 0)) in Hr by lia.
    eapply elem_of_take in Hr as (j & Hj & _). apply list_elem_of_lookup_2 in Hj.
    by rewrite merge_sort_Permutation in Hj.
Qed.
End Network.

(** ** A published contact is found *)
Section Found.
Context `{SodiumLaws} `{!EdScalar} `{!EdScalarLaws} `{OxencLaws}.
Context (ids : list bytes) (b : Ed25519BlindedKey) (nonce : bytes) (t0 : Z) (cc : ClientContact).
Hypothesis Hb : wf_blinded b.
Hypothesis Hcc : wf_cc cc.
Hypothesis Hnonce : length nonce = SYMM_NONCE_SIZE.
Hypothesis Ht0 : - 2 ^ 63 <= t0 < 2 ^ 63.
Hypothesis Hsign : nonce_ok b (bt_signed_data (enccc_fields b nonce t0 (xchacha20 (cc_encode cc) (cc_pubkey cc) nonce))).

Abbreviation enc := (encrypt_and_sign b nonce t0 cc).1.
Abbreviation key := (bk_pubkey b).

(** The record is stored under the key at a relay. *)
Definition holds (net : gmap bytes ContactRelay) (rid : bytes) : Prop :=
  exists r, net !! rid = Some r /\ cr_contacts r !! key = Some (enc, t0).

(** Nothing newer is stored under the key. *)
Definition none_newer (net : gmap bytes ContactRelay) : Prop :=
  forall rid r record t, net !! rid = Some r -> cr_contacts r !! key = Some (record, t) -> t < t0 \/ (record = enc /\ t = t0).

Lemma parse_publish_enc i : 0 <= i < 4 -> parse_publish (publish_request enc i) = Ok (enc, i, key, t0).
Proof.
  intros Hi. assert (Hk : length key = 32%nat) by (by apply (base_noclamp_buf _ _ Hb)).
  unfold parse_publish, publish_request. rewrite bt_open_produce. cbn [or_throw outcome_bind].
  rewrite bt_require_string_next. cbn [or_throw outcome_bind].
  rewrite bt_require_num_next by (apply fits_signed_true; lia). cbn [or_throw outcome_bind].
  unfold encrypt_and_sign. cbn [fst]. rewrite bt_open_produce. cbn [or_throw outcome_bind].
  unfold enccc_fields. cbn [app]. rewrite bt_require_span_next by done. cbn [or_throw outcome_bind].
  unfold bt_require_num, bt_require_int. rewrite bt_require_past by done. cbn [app].
  rewrite bt_require_next, fits_signed_true by done. done.
Qed.

Lemma put_enc db : (forall record t, db !! key = Some (record, t) -> t < t0 \/ (record = enc /\ t = t0)) ->
  exists res, put_cc enc db = (<[key := (enc, t0)]> db, Ok res).
Proof.
  intros Hdb. pose proof (enccc_reads no_junk b nonce t0 cc (cc_pubkey cc) Hb Hcc Hnonce Ht0 eq_refl Hsign) as Hread.
  destruct (encrypt_and_sign b nonce t0 cc) as [e c'] eqn:E. destruct Hread as [_ Hput]. cbn [fst] in *. rewrite Hput.
  destruct (db !! key) as [[record t]|] eqn:El; [|by eexists].
  destruct (Hdb _ _ eq_refl) as [Hlt|[-> ->]].
  - destruct (Z.leb_spec t0 t); [lia|]. by eexists.
  - rewrite Z.leb_refl, insert_id by done. by eexists.
Qed.

(** Storing the record at a relay *)
Lemma store_enc net rid r :
  contact_net ids net -> none_newer net -> net !! rid = Some r ->
  exists r', store_it enc r = (r', [Respond OK_RESPONSE]) /\ contact_net ids (<[rid := r']> net) /\ none_newer (<[rid := r']> net)
    /\ (forall x, holds net x -> holds (<[rid := r']> net) x) /\ holds (<[rid := r']> net) rid.
Proof.
  intros [Hnd Hl Hkn Hrel] Hnew Hr. destruct (put_enc (cr_contacts r)) as [res Ep]; [intros; by eapply Hnew|].
  unfold store_it. rewrite Ep. eexists. split; [done|].
  assert (Hh : holds (<[rid := mkContactRelay (cr_id r) (cr_service r) (cr_rids r) (<[key := (enc, t0)]> (cr_contacts r))]> net) rid).
  { eexists. rewrite lookup_insert_eq. split; [done|]. cbn [cr_contacts]. by rewrite lookup_insert_eq. }
  split; [split; [done|done| |]|split; [|split; [|done]]].
  - intros id Hid. rewrite lookup_insert. destruct (decide (rid = id)); [by eexists|by apply Hkn].
  - intros id x. rewrite lookup_insert. destruct (decide (rid = id)) as [<-|]; [|apply Hrel].
    intros [= <-]. by apply (Hrel rid r).
  - intros id x record t. rewrite lookup_insert. destruct (decide (rid = id)) as [<-|]; [|apply Hnew].
    intros [= <-]. cbn [cr_contacts]. rewrite lookup_insert_eq. intros [= <- <-]. by right.
  - intros x Hx. destruct (decide (rid = x)) as [<-|Hne]; [done|]. destruct Hx as (y & Hy & ?).
    exists y. by rewrite lookup_insert_ne.
Qed.

(** The handler on a request that is in time *)
Lemma handle_publish_enc now net rid r i source :
  contact_net ids net -> net !! rid = Some r -> 0 <= i < 4 ->
  now - MAX_LIFETIME_ACCEPTED <= t0 <= now + 10 * 60 * 1000 ->
  handle_publish_cc now (publish_request enc i) source r =
  if source then if bool_decide (cr_id r ∈ find_many_closest_to (cr_rids r) key 5) then store_it enc r else (r, [Respond ERROR_RESPONSE])
  else match find_many_closest_to (cr_rids r) key 5 !! Z.to_nat i with
       | Some x => if bool_decide (x = cr_id r) then store_it enc r else (r, [Forward x (publish_request enc i)])
       | None => (r, [])
       end.
Proof.
  intros [_ Hl _ Hrel] Hr Hi Htime. destruct (Hrel _ _ Hr) as (_ & Hsv & Hids%Permutation_length).
  unfold handle_publish_cc. rewrite parse_publish_enc by done.
  destruct (Z.ltb_spec t0 (now - MAX_LIFETIME_ACCEPTED)); [lia|]. destruct (Z.ltb_spec (now + 10 * 60 * 1000) t0); [lia|].
  rewrite Hsv. change (CC_PUBLISH_LOCATIONS + 1) with 5. cbn [negb].
  pose proof (closest_length (cr_rids r) key 5) as Hlen. unfold CC_PUBLISH_LOCATIONS.
  destruct (Z.ltb_spec (Z.of_nat (length (find_many_closest_to (cr_rids r) key 5))) 4); [lia|].
  destruct source; [done|]. cbn [negb]. destruct (Z.ltb_spec i 0), (Z.leb_spec 4 i); try lia. done.
Qed.

(** A publish request that is in time is stored at its location, and nothing else changes. *)
Lemma publish_at_stores now net pivot i :
  contact_net ids net -> none_newer net -> pivot ∈ ids -> 0 <= i < 4 ->
  now - MAX_LIFETIME_ACCEPTED <= t0 <= now + 10 * 60 * 1000 ->
  exists net', publish_at now net pivot (publish_request enc i) = (net', Some OK_RESPONSE)
    /\ contact_net ids net' /\ none_newer net' /\ (forall rid, holds net rid -> holds net' rid)
    /\ (forall rid, find_many_closest_to ids key CC_PUBLISH_LOCATIONS !! Z.to_nat i = Some rid -> holds net' rid).
Proof.
  intros Hnet Hnew Hpiv Hi Htime. pose proof Hnet as [Hnd Hl Hkn Hrel].
  destruct (Hkn _ Hpiv) as [r Hr]. destruct (Hrel _ _ Hr) as (Hid & _ & Hids).
  destruct (closest_agree ids (cr_rids r) key 5 i Hnd Hl Hids) as (x & Hx & Hx5 & Hxin); [lia|done|].
  unfold publish_at. rewrite Hr, (handle_publish_enc now net pivot), Hx5 by done. case_bool_decide as Hself.
  - destruct (store_enc net pivot r Hnet Hnew Hr) as (r' & -> & Hn' & Hnew' & Hkeep & Hnow). eexists. split_and!; [done..|].
    intros rid Hrid. by simplify_eq.
  - destruct (Hkn _ Hxin) as [r2 Hr2]. destruct (Hrel _ _ Hr2) as (Hid2 & _ & Hids2).
    rewrite Hr2, (handle_publish_enc now net x) by done.
    destruct (closest_agree ids (cr_rids r2) key 5 i Hnd Hl Hids2) as (x2 & Hx2 & Hx25 & _); [lia|done|].
    rewrite bool_decide_true by (rewrite Hid2; simplify_eq; by eapply list_elem_of_lookup_2).
    destruct (store_enc net x r2 Hnet Hnew Hr2) as (r' & -> & Hn' & Hnew' & Hkeep & Hnow). eexists. split_and!; [done..|].
    intros rid Hrid. by simplify_eq.
Qed.

(** A lookup of a location that holds the record answers with it. *)
Lemma find_at_holds now net pivot i rid junk :
  contact_net ids net -> pivot ∈ ids -> 0 <= i < 4 -> now < t0 + MAX_LIFETIME_ACCEPTED ->
  find_many_closest_to ids key CC_PUBLISH_LOCATIONS !! Z.to_nat i = Some rid -> holds net rid ->
  exists body, find_at now net pivot (find_request key i) = Some body
    /\ cc_of_response junk (cc_pubkey cc) (mkResponse true body) = Some (encrypt_and_sign b nonce t0 cc).2.
Proof.
  intros [Hnd Hl Hkn Hrel] Hpiv Hi Ht Hrid Hh.
  assert (Hk : length key = 32%nat) by (by apply (base_noclamp_buf _ _ Hb)).
  assert (Hp : parse_find (find_request key i) = Ok (key, i)).
  { unfold parse_find, find_request. rewrite bt_open_produce. cbn [or_throw outcome_bind].
    rewrite bt_require_span_next by done. cbn [or_throw outcome_bind]. rewrite bt_maybe_int_next. cbn [or_throw outcome_bind].
    by rewrite fits_signed_true by lia. }
  assert (Hp' : parse_find (relay_find_cc key) = Ok (key, -1)).
  { unfold parse_find, relay_find_cc. rewrite bt_open_produce. cbn [or_throw outcome_bind].
    rewrite bt_require_span_next by done. cbn [or_throw outcome_bind]. unfold bt_maybe_int. by rewrite bt_maybe_end. }
  assert (Hlocal : forall r, net !! rid = Some r ->
    local_cc_or_fail now key r = [Respond (bt_dict_produce [(str "!", BStr (str "OK")); (str "x", BStr enc)])]).
  { intros r Hr. destruct Hh as (r' & Hr' & Hc). simplify_eq. unfold local_cc_or_fail, local_cc, get_encrypted_cc.
    rewrite Hc. by destruct (Z.leb_spec (t0 + MAX_LIFETIME_ACCEPTED) now); [lia|]. }
  exists (bt_dict_produce [(str "!", BStr (str "OK")); (str "x", BStr enc)]). split.
  - destruct (Hkn _ Hpiv) as [r Hr]. destruct (Hrel _ _ Hr) as (Hid & _ & Hids).
    destruct (closest_agree ids (cr_rids r) key 4 i Hnd Hl Hids) as (x & Hx & Hx4 & Hxin); [lia|done|]. simplify_eq.
    pose proof (closest_length (cr_rids r) key 4) as Hlen. apply Permutation_length in Hids.
    unfold find_at. rewrite Hr. cbn [mbind option_bind]. unfold handle_find_cc at 1. rewrite Hp. unfold CC_PUBLISH_LOCATIONS.
    destruct (Z.ltb_spec (Z.of_nat (length (find_many_closest_to (cr_rids r) key 4))) 4); [lia|].
    destruct (Z.leb_spec 0 i); [|lia]. rewrite Hx4. cbn [mbind option_bind]. case_bool_decide as Hself.
    + rewrite (Hlocal r); [done|congruence].
    + destruct (Hkn _ Hxin) as [r2 Hr2]. rewrite Hr2. cbn [mbind option_bind]. unfold handle_find_cc. rewrite Hp'.
      by rewrite (Hlocal r2 Hr2).
  - unfold cc_of_response, cc_answer. cbn [resp_ok resp_body]. rewrite bt_open_produce. cbn [or_throw outcome_bind].
    rewrite bt_maybe_string_next. cbn [or_throw outcome_bind]. rewrite bool_decide_true by done. cbn [negb app].
    rewrite bt_require_string_next. cbn [or_throw outcome_bind].
    pose proof (enccc_reads junk b nonce t0 cc (cc_pubkey cc) Hb Hcc Hnonce Ht0 eq_refl Hsign) as Hread.
    destruct (encrypt_and_sign b nonce t0 cc) as [e c']. destruct Hread as [Hdec _]. cbn [fst snd] in *. by rewrite Hdec.
Qed.

(** All the requests of a publisher *)
Lemma publish_all_stores now pivot_of requests net net' resps :
  contact_net ids net -> none_newer net -> now - MAX_LIFETIME_ACCEPTED <= t0 <= now + 10 * 60 * 1000 ->
  Forall (fun x => pivot_of x.1 ∈ ids /\ 0 <= x.2 < 4) requests ->
  publish_all now pivot_of enc requests net = (net', resps) ->
  resps = replicate (length requests) (Some OK_RESPONSE) /\ contact_net ids net'
  /\ forall i rid, i ∈ requests.*2 -> find_many_closest_to ids key CC_PUBLISH_LOCATIONS !! Z.to_nat i = Some rid -> holds net' rid.
Proof.
  intros Hnet Hnew Htime Hreq. unfold publish_all.
  assert (Hgen : forall pre resps0 done, contact_net ids pre -> none_newer pre ->
    (forall i rid, i ∈ done -> find_many_closest_to ids key CC_PUBLISH_LOCATIONS !! Z.to_nat i = Some rid -> holds pre rid) ->
    foldl (fun '(net, resps) '(p, location) =>
      let '(net, resp) := publish_at now net (pivot_of p) (publish_request enc location) in (net, resps ++ [resp]))
      (pre, resps0) requests = (net', resps) ->
    resps = resps0 ++ replicate (length requests) (Some OK_RESPONSE) /\ contact_net ids net'
    /\ forall i rid, i ∈ done ++ requests.*2 ->
         find_many_closest_to ids key CC_PUBLISH_LOCATIONS !! Z.to_nat i = Some rid -> holds net' rid).
  { clear Hnet Hnew. induction Hreq as [|[p loc] requests [Hp Hloc] _ IH]; intros pre resps0 done Hnet Hnew Hdone; cbn [foldl].
    { intros [= <- <-]. rewrite !app_nil_r. done. }
    destruct (publish_at_stores now pre (pivot_of p) loc Hnet Hnew Hp Hloc Htime) as (pre' & -> & Hn' & Hnew' & Hkeep & Hst).
    intros Hf. destruct (IH pre' (resps0 ++ [Some OK_RESPONSE]) (done ++ [loc]) Hn' Hnew') as (-> & Hn & Hh); [|done|].
    - intros i rid [Hi| ->%list_elem_of_singleton]%elem_of_app Hrid; [by eapply Hkeep, Hdone|by apply Hst].
    - cbn [length replicate fmap list_fmap snd]. rewrite <- app_assoc in Hh |- *. done. }
  intros Hf. destruct (Hgen net [] [] Hnet Hnew) as (-> & Hn & Hh); [by intros ?? []%elem_of_nil|done|]. done.
Qed.
End Found.

(** C16. A contact that its owner publishes is found by everyone who knows only the owner's public
    key.  The owner signs its active inbound paths and sends the record to the four storage
    locations through any relays; each request is acknowledged; and from then on, until the
    contact is too old, a lookup through any relay for any of the storage indices answers with
    a record that decrypts to the owner's contact, whose intros are the owner's active paths. *)
Theorem published_contact_found `{SodiumLaws} `{!EdScalar} `{!EdScalarLaws} `{OxencLaws}
    ids root b nonce t0 w cc0 cc enc now net net' resps sessions sampled pivot_of :
  contact_net ids net -> ed25519_keypair root -> Ed25519BlindedKey_of root CLIENT_CONTACT_DOMAIN = Ok b ->
  update_and_publish_localcc true b nonce t0 w cc0 = Ok (cc, Some enc) ->
  wf_cc cc -> cc_pubkey cc0 = ed25519_pubkey root -> length nonce = SYMM_NONCE_SIZE -> - 2 ^ 63 <= t0 < 2 ^ 63 ->
  nonce_ok b (bt_signed_data (enccc_fields b nonce t0 (xchacha20 (cc_encode cc) (cc_pubkey cc) nonce))) ->
  (forall rid r record t, net !! rid = Some r -> cr_contacts r !! bk_pubkey b = Some (record, t) -> t < t0) ->
  now - MAX_LIFETIME_ACCEPTED <= t0 <= now + 10 * 60 * 1000 ->
  sampled <> [] -> (forall p, p ∈ sampled -> pivot_of p ∈ ids) ->
  publish_all now pivot_of enc (publish_client_contact sessions sampled).2 net = (net', resps) ->
  resps = replicate 4 (Some OK_RESPONSE)
  /\ cc_intros cc ≡ₚ make_intro <$> filter (fun p => path_is_active t0 p) (all_paths w)
  /\ exists k, blind (ed25519_pubkey root) CLIENT_CONTACT_DOMAIN = Some k
    /\ forall start own allow_cache n_active cache cache1 requests calls p i later pivot junk,
         lookup_client_intro start own (ed25519_pubkey root) allow_cache n_active cache = (cache1, requests, calls) ->
         (p, i) ∈ requests -> later < t0 + MAX_LIFETIME_ACCEPTED -> pivot ∈ ids ->
         exists body, find_at later net' pivot (find_request k (Z.of_nat i)) = Some body
           /\ cc_of_response junk (ed25519_pubkey root) (mkResponse true body) = Some cc.
Proof.
  intros Hnet Hroot Hb Hpub Hcc Hpk Hn Ht0 Hsign Hold Htime Hs Hpiv Hall.
  destruct (blinded_key_found _ _ _ Hroot Hb) as [Hwf Hblind].
  unfold update_and_publish_localcc in Hpub. cbn [negb] in Hpub. apply outcome_bind_Ok in Hpub as (cc1 & Hup & Henc).
  destruct (encrypt_and_sign b nonce t0 cc1) as [e c] eqn:E. injection Henc as <- <-.
  unfold cc_update_intros in Hup. apply throw_if_Ok in Hup as [_ Hup]. injection Hup as <-.
  set (cc1 := mkCC _ _ _ _ _ _) in *.
  assert (Hc : c = mkCC (cc_pubkey cc1) (cc_intros cc1) (cc_srv cc1) (cc_protos cc1) t0 (cc_exit_policy cc1) /\ wf_cc cc1).
  { unfold encrypt_and_sign in E. injection E as <- <-. split; [done|]. by destruct Hcc. }
  destruct Hc as [-> Hcc1]. set (reqs := (publish_client_contact sessions sampled).2) in *.
  assert (Hreqs : Forall (fun x => pivot_of x.1 ∈ ids /\ 0 <= x.2 < 4) reqs /\ reqs.*2 = [0; 1; 2; 3]).
  { unfold reqs, publish_client_contact. cbn [snd]. destruct sampled as [|s0 sampled]; [done|]. split; [|done].
    apply Forall_fmap, Forall_forall. intros i Hi%elem_of_seq. unfold compose. cbn [fst snd]. unfold CC_PUBLISH_LOCATIONS in Hi. split; [|lia].
    destruct (lookup_lt_is_Some_2 (s0 :: sampled) (i mod length (s0 :: sampled))%nat) as [q Hq];
      [apply Nat.mod_upper_bound; cbn; lia|]. rewrite Hq. by eapply Hpiv, list_elem_of_lookup_2. }
  destruct Hreqs as [Hreqs Hlocs]. pose proof (f_equal fst E) as Ee. cbn [fst] in Ee. subst e.
  edestruct (publish_all_stores ids b nonce t0 cc1 Hwf Hcc1 Hn Ht0 Hsign now pivot_of reqs net net' resps) as (-> & Hnet' & Hh);
    [done|intros ??????; left; by eapply Hold|done|done|done|].
  split; [apply (f_equal length) in Hlocs; rewrite length_fmap in Hlocs; by rewrite Hlocs|].
  split; [apply sort_intros_spec|]. exists (bk_pubkey b). split; [done|].
  intros start own allow_cache n_active cache cache1 requests calls p i later pivot junk Hlook Hin Hlater Hq.
  apply lookup_client_intro_cases in Hlook as [[-> _]|(_ & _ & ->)]; [by apply elem_of_nil in Hin|].
  apply list_elem_of_fmap in Hin as (j & [= -> ->] & Hj%elem_of_seq). unfold CC_LOOKUPS in Hj.
  destruct Hnet' as [Hnd Hl Hkn Hrel].
  destruct (closest_agree ids ids (bk_pubkey b) 4 (Z.of_nat j) Hnd Hl) as (rid & Hrid & _); [done|lia|lia|].
  rewrite <- Hpk. change (cc_pubkey cc0) with (cc_pubkey cc1).
  pose proof (f_equal snd E) as Ec. cbn [snd] in Ec. rewrite <- Ec.
  apply (find_at_holds ids b nonce t0 cc1 Hwf Hcc1 Hn Ht0 Hsign later net' pivot (Z.of_nat j) rid junk);
    [by split|done|lia|done|exact Hrid|].
  apply (Hh (Z.of_nat j)); [|done]. rewrite Hlocs. destruct j as [|[|[|[|]]]]; [set_solver..|lia].
Qed.

Module RoutingDemo.
Definition ids : list bytes := [[1]; [2]; [3]; [4]; [5]].
Definition relay (id : bytes) (rids : list bytes) : ContactRelay := mkContactRelay id true rids ∅.
Definition net : gmap bytes ContactRelay :=
  list_to_map [([1], relay [1] ids); ([2], relay [2] (reverse ids)); ([3], relay [3] ids); ([4], relay [4] (reverse ids)); ([5], relay [5] ids)].
Definition path : Path := mkPath [ClientDemo.hop (replicate 32 1) (replicate 16 2) (replicate 16 3)] 1000000 true true false None.
Definition world : World :=
  mkWorld (mkCtx ∅ {[0%nat := path]} 1 ∅ {[replicate 16 3 := 0%nat]} false)
    ((Handler_new 1 1) <| ph_paths := {[replicate 16 3 := 0%nat]} |>) (mkStats 0 0 0 0 0 0) (mkProfiling ∅ false) ∅ ∅.
Definition nonce : bytes := replicate SYMM_NONCE_SIZE 3.
Definition published : ClientContact * bytes :=
  match @update_and_publish_localcc toy toy_scalar bencode true demo_blinded nonce 500000 world demo_contact with
  | Ok (cc, Some enc) => (cc, enc)
  | _ => (demo_contact, [])
  end.
Definition stored : gmap bytes ContactRelay * list (option bytes) :=
  @publish_all toy bencode 501000 (fun p => [Z.of_nat p]) published.2 (publish_client_contact [] [1; 3]%nat).2 net.
End RoutingDemo.

Lemma routing_demo_net : contact_net RoutingDemo.ids RoutingDemo.net.
Proof.
  split.
  - apply (bool_decide_unpack _). vm_compute. exact I.
  - vm_compute. lia.
  - apply Forall_forall. repeat constructor; vm_compute; eauto.
  - intros id r Hr. unfold RoutingDemo.net in Hr. apply elem_of_list_to_map_2 in Hr.
    repeat (apply elem_of_cons in Hr as [Hr|Hr]; [injection Hr as -> ->; split_and!; [done|done|];
      first [done | apply reverse_Permutation]|]). by apply elem_of_nil in Hr.
Qed.

Lemma published_contact_found_witness :
  RoutingDemo.stored.2 = replicate 4 (Some (@OK_RESPONSE bencode)).
Proof.
  destruct (@published_contact_found toy toy_laws toy_scalar toy_scalar_laws bencode bencode_laws RoutingDemo.ids contact_root
    demo_blinded RoutingDemo.nonce 500000 RoutingDemo.world demo_contact RoutingDemo.published.1 RoutingDemo.published.2 501000
    RoutingDemo.net RoutingDemo.stored.1 RoutingDemo.stored.2 [] [1; 3]%nat (fun p => [Z.of_nat p])) as [Hr _].
  - exact routing_demo_net.
  - split; [|reflexivity]. split; [reflexivity|]. apply Forall_replicate. unfold is_byte. lia.
  - vm_compute. reflexivity.
  - vm_compute. reflexivity.
  - assert (E : RoutingDemo.published.1 = mkCC (replicate 32 7) [mkIntro (replicate 32 1) (replicate 16 2) 1000] [] 1 500000 None)
      by (vm_compute; reflexivity). rewrite E. destruct wf_demo_contact. by constructor.
  - reflexivity.
  - reflexivity.
  - lia.
  - exists (zero_buf 32). vm_compute. reflexivity.
  - intros rid r record t Hr. unfold RoutingDemo.net in Hr. apply elem_of_list_to_map_2 in Hr.
    repeat (apply elem_of_cons in Hr as [Hr|Hr]; [injection Hr as -> ->; cbn; rewrite lookup_empty; discriminate|]).
    by apply elem_of_nil in Hr.
  - unfold MAX_LIFETIME_ACCEPTED, MAX_LIFETIME, MAX_LIFETIME_FUZZ. lia.
  - discriminate.
  - intros p [->|[->|[]%elem_of_nil]%elem_of_cons]%elem_of_cons; apply (bool_decide_unpack _); vm_compute; exact I.
  - vm_compute. reflexivity.
  - exact Hr.
Defined.

(** The index of a lookup is not compared with the number of closest relays: a client that
    asks for the index 4 makes the relay read past the end of the vector. *)
Lemma find_cc_reads_past_end :
  @handle_find_cc bencode 0 (@find_request bencode (replicate 32 7) 4) false
    (RoutingDemo.relay [1] RoutingDemo.ids) = None.
Proof. vm_compute. reflexivity. Qed.

(** The callback of a lookup without an index has its test the wrong way round: the first
    failure is reported although three responses are to come, and when the last of them
    fails too there is no response. *)
Lemma find_hook_inverted `{Oxenc} body :
  find_hook (mkMessage false false body) 4 = (3, [body]) /\ find_hook (mkMessage false false body) 1 = (0, []).
Proof. done. Qed.
