(* ===== verification/Reachability.v ===== *)
(** * Reachability testing (consensus/reachability_testing.cpp)

    A relay tests other relays: one from a shuffled list on every tick, and those that failed
    before, each after a delay that grows with its failures.  It also watches whether others
    test it.  Times of the steady clock are in nanoseconds.  The shuffles, the noise of the
    delays and the order of equal elements of the priority queue are arguments; a test that
    has been started is in [rt_pending] until its response comes. *)

From Stdlib Require Import ZArith Lia.
From stdpp Require Import base list numbers strings gmap.
From coqutil Require Import Datatypes.RecordSettersUsingExistingGetters.
From S2P Require Import Prelude Oxenc Crypto RelayContact RcStore NodeDB.

Local Open Scope Z_scope.

Definition SECOND : Z := 1000 * 1000 * 1000.
Definition MAX_RETESTS_PER_TICK : nat := 3.
(** In microseconds *)
Definition RETEST_BACKOFF : Z := 10 * 1000 * 1000.
Definition RETEST_MAX : Z := 2 * 60 * 1000 * 1000.
Definition MAX_TIME_WITHOUT_PING : Z := 2 * 60 * SECOND.
Definition MAX_TIME_INITIAL : Z := 15 * 60 * SECOND.
Definition WHINING_INTERVAL : Z := 5 * 60 * SECOND.

(** [FailingPK] *)
Record FailingPK := mkFailing { fp_pk : bytes; fp_retest : Z; fp_failures : Z }.

Record Testing := mkTesting {
  rt_testing_queue : list bytes;
  rt_failing_queue : list FailingPK;
  rt_failing : gset bytes;
  rt_pending : list (bytes * Z);
}.

Definition Testing_new : Testing := mkTesting [] [] ∅ [].

(** ** Timers *)

(** The two timer ids, and the timers of the job queue: those alive, and the next id *)
Record Timers := mkTimers {
  test_timer : option nat;
  whine_timer : option nat;
  jq_timers : gset nat;
  jq_next : nat;
}.

Definition remove_timer (id : option nat) (jq : gset nat) : gset nat :=
  match id with Some i => jq ∖ {[i]} | None => jq end.

(** [stop()], [start()] *)
Definition testing_stop (t : Timers) : Timers :=
  mkTimers None None (remove_timer (whine_timer t) (remove_timer (test_timer t) (jq_timers t))) (jq_next t).
Definition testing_start (disable_testing : bool) (t : Timers) : Timers :=
  let t := testing_stop t in
  if disable_testing then t
  else mkTimers (Some (jq_next t)) (Some (S (jq_next t))) ({[jq_next t; S (jq_next t)]} ∪ jq_timers t) (2 + jq_next t).

(** ** The queues *)

(** [retest_interval(n_failures)], in microseconds; [noise] is the sample of the normal
    distribution. *)
Definition retest_interval (noise n_failures : Z) : Z :=
  let n_failures := if n_failures <? 1 then 1 else n_failures in
  Z.max 0 (Z.min RETEST_MAX (n_failures * RETEST_BACKOFF + noise)).

(** [add_failing_node(pk, previous_failures)] *)
Definition add_failing_node (now noise : Z) (pk : bytes) (previous_failures : Z) (t : Testing) : Testing :=
  let failures := (if previous_failures <? 0 then 0 else previous_failures) + 1 in
  t <| rt_failing ::= union {[pk]} |>
    <| rt_failing_queue ::= cons (mkFailing pk (now + retest_interval noise failures * 1000) failures) |>.

(** [remove_node_from_failing(pk)] *)
Definition remove_node_from_failing (pk : bytes) (t : Testing) : Testing :=
  t <| rt_failing ::= fun s => s ∖ {[pk]} |>.

(** The loop of [next_random]: the element returned, and the queue left *)
Fixpoint pull_random (failing : gset bytes) (rev_queue : list bytes) : option bytes * list bytes :=
  match rev_queue with
  | [] => (None, [])
  | pk :: q => if bool_decide (pk ∈ failing) then pull_random failing q else (Some pk, q)
  end.

(** [next_random()]: the back of the vector is pulled first; [shuffled] is the shuffled list
    of registered relays. *)
Definition next_random (shuffled : list bytes) (t : Testing) : option bytes * Testing :=
  match pull_random (rt_failing t) (reverse (rt_testing_queue t)) with
  | (Some pk, q) => (Some pk, t <| rt_testing_queue := reverse q |>)
  | (None, _) =>
    let '(sn, q) := pull_random (rt_failing t) (reverse shuffled) in (sn, t <| rt_testing_queue := reverse q |>)
  end.

(** [priority_queue::top] and [pop]: an element with the earliest time, and the others; [tie]
    tells which of several. *)
Definition earliest (q : list FailingPK) : list (nat * FailingPK) :=
  filter (fun ix => Forall (fun x => fp_retest ix.2 <= fp_retest x) q) (imap pair q).
Definition pq_top (tie : nat) (q : list FailingPK) : option (FailingPK * list FailingPK) :=
  let c := earliest q in
  '(i, x) ← c !! (tie mod length c)%nat; Some (x, delete i q).

(** [get_failing(now)]; [fuel] bounds the number of elements popped. *)
Fixpoint get_failing_loop (fuel : nat) (now : Z) (ties : nat -> nat) (failing : gset bytes) (q : list FailingPK)
    (result : list (bytes * Z)) : list (bytes * Z) * list FailingPK :=
  match fuel with
  | O => (result, q)
  | S fuel =>
    if decide (MAX_RETESTS_PER_TICK <= length result)%nat then (result, q)
    else
      match pq_top (ties fuel) q with
      | None => (result, q)
      | Some (x, rest) =>
        if now <? fp_retest x then (result, q)
        else
          let result := if bool_decide (fp_pk x ∈ failing) then result ++ [(fp_pk x, fp_failures x)] else result in
          get_failing_loop fuel now ties failing rest result
      end
  end.
Definition get_failing (now : Z) (ties : nat -> nat) (t : Testing) : list (bytes * Z) * Testing :=
  let '(result, q) := get_failing_loop (S (length (rt_failing_queue t))) now ties (rt_failing t) (rt_failing_queue t) [] in
  (result, t <| rt_failing_queue := q |>).

(** ** Ticks *)
Section Tick.
(** The registered relays, the RCs, and the system time *)
Context (registered : gset bytes) (st : RCStore) (sys_now : Z).

(** One test of [tick]'s loop *)
Definition run_test (now : Z) (noise : nat -> Z) (acc : nat * Testing) (test : bytes * Z) : nat * Testing :=
  let '(i, t) := acc in
  let '(rid, prev_fails) := test in
  (S i,
   if negb (is_registered registered rid) then remove_node_from_failing rid t
   else
     match get_rc st rid with
     | Some rc => if rc_is_outdated rc sys_now then add_failing_node now (noise i) rid prev_fails t
                  else t <| rt_pending ::= cons (rid, prev_fails) |>
     | None => add_failing_node now (noise i) rid prev_fails t
     end).

(** [tick()], with the tests it runs; [active] is whether the router runs and appears registered. *)
Definition tick (active : bool) (now : Z) (ties : nat -> nat) (shuffled : list bytes) (noise : nat -> Z) (t : Testing)
    : Testing * list (bytes * Z) :=
  if negb active then (t, [])
  else
    let '(tests, t) := get_failing now ties t in
    let '(maybe, t) := next_random shuffled t in
    let tests := match maybe with Some rid => tests ++ [(rid, 0)] | None => tests end in
    ((foldl (run_test now noise) (0%nat, t) tests).2, tests).
End Tick.

(** The response to the test number [i] of the pending ones, as run by [call_soon]; the result
    also has what [inform_connection] is called with. *)
Definition test_response (now noise : Z) (i : nat) (ok : bool) (t : Testing) : Testing * option (bytes * bool) :=
  match rt_pending t !! i with
  | None => (t, None)
  | Some (rid, prev_fails) =>
    let t := t <| rt_pending ::= delete i |> in
    (if ok then remove_node_from_failing rid t else add_failing_node now noise rid prev_fails t, Some (rid, ok))
  end.

(** ** Tests by others *)

(** [incoming_test_state], with [startup] *)
Record Incoming := mkIncoming {
  in_startup : Z;
  in_last_test : Z;
  in_last_whine : Z;
  in_was_failing : bool;
  in_was_unregistered : bool;
}.

Inductive Whine : Type := WhineReachable | WhineNever | WhineNoPings (elapsed : Z).

(** [check_incoming_tests(now)] *)
Definition check_incoming_tests (registered : bool) (now : Z) (s : Incoming) : Incoming * list Whine :=
  if negb registered then (s <| in_was_unregistered := true |> <| in_was_failing := false |>, [])
  else
    let elapsed := now - Z.max (in_startup s) (in_last_test s) in
    let failing := (if in_was_unregistered s then MAX_TIME_INITIAL else MAX_TIME_WITHOUT_PING) <? elapsed in
    let whine := negb (eqb failing (in_was_failing s)) || (failing && (WHINING_INTERVAL <? now - in_last_whine s)) in
    let s := s <| in_was_failing := failing |> in
    if whine then
      (s <| in_last_whine := now |>,
       [if negb failing then WhineReachable else if in_last_test s =? 0 then WhineNever else WhineNoPings elapsed])
    else (s, []).

(** [incoming_ping()]; the two readings of the clock are [now] and [now']. *)
Definition incoming_ping (registered : bool) (now now' : Z) (s : Incoming) : Incoming * list Whine :=
  let s := s <| in_last_test := now |> in
  if in_was_failing s then check_incoming_tests registered now' s else (s, []).

(** ** Timers *)

(** The timers alive are those whose ids are kept, so that [stop] leaves none. *)
Definition timers_kept (t : Timers) : Prop :=
  jq_timers t = list_to_set (option_list (test_timer t) ++ option_list (whine_timer t))
  /\ forall i, i ∈ jq_timers t -> (i < jq_next t)%nat.

Lemma timers_kept_stop t : timers_kept t -> timers_kept (testing_stop t) /\ jq_timers (testing_stop t) = ∅.
Proof.
  intros [E Hlt]. assert (Hz : jq_timers (testing_stop t) = ∅).
  { unfold testing_stop. cbn [jq_timers]. rewrite E. destruct (test_timer t), (whine_timer t); cbn; set_solver. }
  split; [split|done]; rewrite Hz; [done|by intros i ?%elem_of_empty].
Qed.

Lemma timers_kept_start disable t : timers_kept t -> timers_kept (testing_start disable t).
Proof.
  intros [Hs Hz]%timers_kept_stop. unfold testing_start. destruct disable; [done|]. split; cbn -[testing_stop]; rewrite Hz; [set_solver|].
  set_solver by lia.
Qed.

(** ** The queues *)
Lemma retest_interval_bounds noise n : 0 <= retest_interval noise n <= RETEST_MAX.
Proof. unfold retest_interval, RETEST_MAX. lia. Qed.

Lemma pull_random_spec failing q r q' :
  pull_random failing q = (r, q') ->
  match r with
  | Some pk => pk ∉ failing /\ exists skipped, q = skipped ++ pk :: q' /\ Forall (fun x => x ∈ failing) skipped
  | None => q' = [] /\ Forall (fun x => x ∈ failing) q
  end.
Proof.
  induction q as [|pk q IH]; cbn [pull_random]; [intros [= <- <-]; by split|].
  case_bool_decide as Hf.
  - intros E. specialize (IH E). destruct r as [x|].
    + destruct IH as (? & skipped & -> & ?). split; [done|]. exists (pk :: skipped). split; [done|by constructor].
    + destruct IH as [-> ?]. split; [done|by constructor].
  - intros [= <- <-]. split; [done|]. by exists [].
Qed.

(** The queue is not empty: there is an earliest element. *)
Lemma earliest_nonempty q : q <> [] -> earliest q <> [].
Proof.
  intros Hq. assert (Hm : exists i x, q !! i = Some x /\ Forall (fun y => fp_retest x <= fp_retest y) q).
  { induction q as [|a q IH]; [done|]. destruct (decide (q = [])) as [->|Hne].
    - exists 0%nat, a. split; [done|]. repeat constructor. lia.
    - destruct (IH Hne) as (i & x & Hx & Hall). destruct (decide (fp_retest a <= fp_retest x)) as [Hle|Hgt].
      + exists 0%nat, a. split; [done|]. constructor; [lia|]. eapply Forall_impl; [exact Hall|]. cbn. lia.
      + exists (S i), x. split; [done|]. constructor; [lia|done]. }
  destruct Hm as (i & x & Hx & Hall). intros E.
  assert (Hin : (i, x) ∈ earliest q); [|rewrite E in Hin; by apply elem_of_nil in Hin].
  apply list_elem_of_filter. split; [done|]. apply list_elem_of_lookup. exists i. by rewrite list_lookup_imap, Hx.
Qed.

Lemma pq_top_spec tie q :
  match pq_top tie q with
  | Some (x, rest) => q ≡ₚ x :: rest /\ Forall (fun y => fp_retest x <= fp_retest y) q
  | None => q = []
  end.
Proof.
  unfold pq_top. destruct (earliest q !! (tie mod length (earliest q))%nat) as [[i x]|] eqn:E; cbn [mbind option_bind].
  - apply list_elem_of_lookup_2, list_elem_of_filter in E as [Hall Hin].
    apply list_elem_of_lookup in Hin as [j Hj]. rewrite list_lookup_imap in Hj. apply fmap_Some in Hj as (y & Hy & [= -> ->]).
    split; [|done]. by apply delete_Permutation.
  - apply lookup_ge_None in E. destruct (decide (q = [])) as [|Hq]; [done|]. apply earliest_nonempty in Hq.
    destruct (earliest q) as [|c l]; [done|]. pose proof (Nat.mod_upper_bound tie (length (c :: l))). cbn [length] in *. lia.
Qed.

(** [get_failing] takes the earliest entries that are due, up to three of nodes that are still
    failing; it takes all that are due when there are fewer. *)
Lemma get_failing_loop_spec fuel now ties failing q result result' q' :
  (length q < fuel)%nat -> (length result <= 3)%nat ->
  get_failing_loop fuel now ties failing q result = (result', q') ->
  exists popped, q ≡ₚ popped ++ q'
    /\ result' = result ++ ((fun x => (fp_pk x, fp_failures x)) <$> filter (fun x => fp_pk x ∈ failing) popped)
    /\ Forall (fun x => fp_retest x <= now) popped
    /\ (forall x y, x ∈ popped -> y ∈ q' -> fp_retest x <= fp_retest y)
    /\ (length result' <= 3)%nat /\ (length result' = 3%nat \/ Forall (fun x => now < fp_retest x) q').
Proof.
  revert q result. induction fuel as [|fuel IH]; intros q result Hf Hr; [lia|]. cbn [get_failing_loop].
  assert (Hstop : (length result = 3%nat \/ Forall (fun x => now < fp_retest x) q) -> (result, q) = (result', q') ->
    exists popped, q ≡ₚ popped ++ q'
    /\ result' = result ++ ((fun x => (fp_pk x, fp_failures x)) <$> filter (fun x => fp_pk x ∈ failing) popped)
    /\ Forall (fun x => fp_retest x <= now) popped
    /\ (forall x y, x ∈ popped -> y ∈ q' -> fp_retest x <= fp_retest y)
    /\ (length result' <= 3)%nat /\ (length result' = 3%nat \/ Forall (fun x => now < fp_retest x) q')).
  { intros Hend [= <- <-]. exists []. rewrite app_nil_r. split_and!; [done..|by intros ?? []%elem_of_nil|done|done]. }
  destruct (decide _) as [Hfull|Hroom]; [apply Hstop; left; unfold MAX_RETESTS_PER_TICK in *; lia|].
  pose proof (pq_top_spec (ties fuel) q) as Htop. destruct (pq_top (ties fuel) q) as [[x rest]|]; [|apply Hstop; right; by subst].
  destruct Htop as [Hp Hmin]. destruct (Z.ltb_spec now (fp_retest x)) as [Hlate|Hdue].
  { apply Hstop. right. eapply Forall_impl; [exact Hmin|]. cbn. lia. }
  intros E. apply IH in E as (popped & Hq & -> & Hdues & Hord & Hlen & Hend).
  - exists (x :: popped). split_and!; [by rewrite Hp, Hq| |by constructor| |done|done].
    + rewrite filter_cons. case_bool_decide; [rewrite decide_True by done|by rewrite decide_False].
      by rewrite fmap_cons, <- app_assoc.
    + intros a y [->|Ha]%elem_of_cons Hy; [|by apply Hord]. rewrite Forall_forall in Hmin. apply Hmin. rewrite Hp, Hq. set_solver.
  - apply Permutation_length in Hp. cbn in Hp. lia.
  - unfold MAX_RETESTS_PER_TICK in *. case_bool_decide; [rewrite length_app; cbn; lia|lia].
Qed.

Lemma get_failing_spec now ties t result t' :
  get_failing now ties t = (result, t') ->
  exists popped q, t' = t <| rt_failing_queue := q |> /\ rt_failing_queue t ≡ₚ popped ++ q
    /\ result = (fun x => (fp_pk x, fp_failures x)) <$> filter (fun x => fp_pk x ∈ rt_failing t) popped
    /\ Forall (fun x => fp_retest x <= now) popped
    /\ (forall x y, x ∈ popped -> y ∈ q -> fp_retest x <= fp_retest y)
    /\ (length result <= 3)%nat /\ (length result = 3%nat \/ Forall (fun x => now < fp_retest x) q).
Proof.
  unfold get_failing. destruct (get_failing_loop _ _ _ _ _ _) as [r q] eqn:E. intros [= <- <-].
  apply get_failing_loop_spec in E as (popped & ? & -> & ?); [|lia|cbn; lia]. by exists popped, q.
Qed.

(** ** Runs *)
Inductive Event : Type :=
| ETick (registered : gset bytes) (st : RCStore) (sys_now : Z) (active : bool) (now : Z) (ties : nat -> nat)
    (shuffled : list bytes) (noise : nat -> Z)
| EResponse (now noise : Z) (i : nat) (ok : bool).

Definition event_time (e : Event) : Z := match e with ETick _ _ _ _ now _ _ _ => now | EResponse now _ _ _ => now end.
Definition active_tick (e : Event) : bool := match e with ETick _ _ _ a _ _ _ _ => a | EResponse _ _ _ _ => false end.

(** The state after an event, the tests it starts and the results it reports *)
Definition rt_step (e : Event) (t : Testing) : Testing * list (bytes * Z) * list (bytes * bool) :=
  match e with
  | ETick registered st sys_now active now ties shuffled noise => (tick registered st sys_now active now ties shuffled noise t, [])
  | EResponse now noise i ok => let '(t, r) := test_response now noise i ok t in (t, [], option_list r)
  end.

Fixpoint rt_run (l : list Event) (t : Testing) : Testing * list (bytes * Z) * list (bytes * bool) :=
  match l with
  | [] => (t, [], [])
  | e :: l =>
    let '(t, tests, reports) := rt_step e t in
    let '(t, tests', reports') := rt_run l t in (t, tests ++ tests', reports ++ reports')
  end.

(** States reached by a time *)
Inductive rt_reachable : Z -> Testing -> Prop :=
| rt_init time : rt_reachable time Testing_new
| rt_event time t e : rt_reachable time t -> time <= event_time e -> rt_reachable (event_time e) (rt_step e t).1.1.

(** ** Failing nodes are not forgotten *)
Definition DELAY : Z := RETEST_MAX * 1000.

(** Every failing node is in [todo], has a test under way, or is queued for a time up to [by_time]. *)
Definition covered (by_time : Z) (todo : list bytes) (t : Testing) : Prop :=
  forall pk, pk ∈ rt_failing t ->
    pk ∈ todo \/ (exists f, (pk, f) ∈ rt_pending t)
    \/ exists x, x ∈ rt_failing_queue t /\ fp_pk x = pk /\ fp_retest x <= by_time.

Lemma covered_mono b b' todo t : b <= b' -> covered b todo t -> covered b' todo t.
Proof.
  intros Hb Hc pk Hpk. destruct (Hc pk Hpk) as [?|[?|(x & ? & ? & ?)]]; [by left|right; by left|].
  right; right. exists x. split_and!; [done..|lia].
Qed.

Lemma covered_remove b todo t pk : covered b (pk :: todo) t -> covered b todo (remove_node_from_failing pk t).
Proof.
  intros Hc pk' [Hin Hne%not_elem_of_singleton]%elem_of_difference. destruct (Hc pk' Hin) as [[->|?]%elem_of_cons|?]; [done|by left|by right].
Qed.

Lemma covered_add b todo t now noise pk f :
  now + DELAY <= b -> covered b (pk :: todo) t -> covered b todo (add_failing_node now noise pk f t).
Proof.
  intros Hb Hc pk' Hin. unfold add_failing_node in Hin |- *. set (x := mkFailing pk _ _).
  assert (Hx : fp_retest x <= b).
  { subst x. cbn [fp_retest]. pose proof (retest_interval_bounds noise ((if f <? 0 then 0 else f) + 1)). unfold DELAY in Hb. lia. }
  cbn in Hin |- *. destruct (decide (pk' = pk)) as [->|Hne]; [right; right; exists x; split_and!; [by left|done|done]|].
  destruct (Hc pk') as [[->|?]%elem_of_cons|[?|(y & ? & ? & ?)]]; [set_solver|done|by left|right; by left|].
  right; right. exists y. split_and!; [by right|done|done].
Qed.

Lemma covered_tests registered st sys now noise tests i t b :
  now + DELAY <= b -> covered b tests.*1 t -> covered b [] (foldl (run_test registered st sys now noise) (i, t) tests).2.
Proof.
  intros Hb. revert i t. induction tests as [|[rid f] tests IH]; intros i t Hc; [done|].
  cbn [foldl run_test]. apply IH. cbn [fmap list_fmap fst] in Hc.
  destruct (negb (is_registered registered rid)); [by apply covered_remove|].
  destruct (get_rc st rid) as [rc|]; [destruct (rc_is_outdated rc sys)|]; [by apply covered_add| |by apply covered_add].
  intros pk Hpk. destruct (Hc pk Hpk) as [[->|?]%elem_of_cons|[[g ?]|?]]; [|by left| |by right; right]; right; left; cbn.
  - exists f. by left.
  - exists g. by right.
Qed.

Lemma next_random_other shuffled t r t' :
  next_random shuffled t = (r, t') ->
  rt_failing t' = rt_failing t /\ rt_failing_queue t' = rt_failing_queue t /\ rt_pending t' = rt_pending t.
Proof.
  unfold next_random. destruct (pull_random (rt_failing t) _) as [[pk|] q]; [by intros [= <- <-]|].
  destruct (pull_random _ _). by intros [= <- <-].
Qed.

(** The parts of an active tick: the entries it takes from the queue and the tests it runs *)
Lemma tick_parts registered st sys now ties shuffled noise t t' tests :
  tick registered st sys true now ties shuffled noise t = (t', tests) ->
  exists popped q t1, rt_failing_queue t ≡ₚ popped ++ q
    /\ t' = (foldl (run_test registered st sys now noise) (0%nat, t1) tests).2
    /\ rt_failing t1 = rt_failing t /\ rt_failing_queue t1 = q /\ rt_pending t1 = rt_pending t
    /\ (forall x, x ∈ popped -> fp_pk x ∈ rt_failing t -> fp_pk x ∈ tests.*1)
    /\ (forall x y, x ∈ popped -> y ∈ q -> fp_retest x <= fp_retest y)
    /\ ((3 <= length popped)%nat \/ Forall (fun x => now < fp_retest x) q).
Proof.
  unfold tick. cbn [negb]. destruct (get_failing now ties t) as [result t0] eqn:Eg.
  apply get_failing_spec in Eg as (popped & q & -> & Hq & -> & _ & Hord & _ & Hend).
  destruct (next_random _ _) as [maybe t1] eqn:En. apply next_random_other in En as (H1 & H2 & H3). cbn in H1, H2, H3.
  intros [= <- <-]. exists popped, q, t1. split_and!; [done..| |done|].
  - intros x Hx Hfail. set (f := fun x => (fp_pk x, fp_failures x)) in *.
    assert (f x ∈ f <$> filter (fun x => fp_pk x ∈ rt_failing t) popped) as Hin.
    { apply list_elem_of_fmap_2, list_elem_of_filter. done. }
    apply (list_elem_of_fmap_2 fst) in Hin. destruct maybe; [rewrite fmap_app; set_solver|done].
  - destruct Hend as [Hl|]; [left|by right]. rewrite length_fmap in Hl.
    pose proof (length_filter (fun x => fp_pk x ∈ rt_failing t) popped). lia.
Qed.

Lemma covered_step time t e : covered (time + DELAY) [] t -> time <= event_time e ->
  covered (event_time e + DELAY) [] (rt_step e t).1.1.
Proof.
  intros Hc Ht. apply (covered_mono _ (event_time e + DELAY)) in Hc; [|lia].
  destruct e as [registered st sys active now ties shuffled noise|now noise i ok]; cbn [event_time rt_step] in *.
  - destruct active; [|done]. destruct (tick _ _ _ _ _ _ _ _ _) as [t' tests] eqn:E. cbn [fst].
    apply tick_parts in E as (popped & q & t1 & Hq & -> & H1 & H2 & H3 & Hpop & _).
    apply covered_tests; [lia|]. intros pk Hpk. rewrite H1 in Hpk. rewrite H2, H3.
    destruct (Hc pk Hpk) as [[]%elem_of_nil|[?|(x & Hx & <- & Hle)]]; [right; by left|].
    rewrite Hq in Hx. apply elem_of_app in Hx as [Hx|Hx]; [left; by apply Hpop|right; right; eauto].
  - unfold test_response. destruct (rt_pending t !! i) as [[rid f]|] eqn:Ei; [|done]. cbn [fst].
    assert (Hc' : covered (now + DELAY) [rid] (t <| rt_pending ::= delete i |>)).
    { intros pk Hpk. destruct (Hc pk Hpk) as [[]%elem_of_nil|[[g Hg]|?]]; [|by right; right]. cbn.
      rewrite (delete_Permutation _ _ _ Ei) in Hg. apply elem_of_cons in Hg as [[= -> ->]|Hg]; [left; by left|right; left; eauto]. }
    destruct ok; [by apply covered_remove|by apply covered_add].
Qed.

Lemma reachable_covered time t : rt_reachable time t -> covered (time + DELAY) [] t.
Proof. induction 1 as [|time t e _ IH Ht]; [intros pk []%elem_of_empty|by eapply covered_step]. Qed.

(** ** Failing nodes are tested again *)
Definition due_by (X : Z) (q : list FailingPK) : nat := length (filter (fun x => fp_retest x <= X) q).

Lemma due_by_perm X q q' : q ≡ₚ q' -> due_by X q = due_by X q'.
Proof. intros Hp. unfold due_by. by rewrite Hp. Qed.

Lemma due_by_app X q q' : due_by X (q ++ q') = (due_by X q + due_by X q')%nat.
Proof. unfold due_by. by rewrite filter_app, length_app. Qed.

(** The tests of a tick only add entries that are due after it, and leave other nodes alone. *)
Lemma run_tests_queue registered st sys now noise tests i t :
  let t' := (foldl (run_test registered st sys now noise) (i, t) tests).2 in
  exists new, rt_failing_queue t' = new ++ rt_failing_queue t /\ Forall (fun x => now <= fp_retest x) new
    /\ forall pk, pk ∉ tests.*1 -> pk ∈ rt_failing t -> pk ∈ rt_failing t'.
Proof.
  revert i t. induction tests as [|[rid f] tests IH]; intros i t; cbn [foldl]; [by exists []|].
  assert (Hadd : exists new, rt_failing_queue (run_test registered st sys now noise (i, t) (rid, f)).2 = new ++ rt_failing_queue t
    /\ Forall (fun x => now <= fp_retest x) new
    /\ forall pk, pk <> rid -> pk ∈ rt_failing t -> pk ∈ rt_failing (run_test registered st sys now noise (i, t) (rid, f)).2).
  { cbn [run_test snd]. destruct (negb (is_registered registered rid)); [exists []; cbn; split_and!; [done..|set_solver]|].
    destruct (get_rc st rid) as [rc|]; [destruct (rc_is_outdated rc sys)|]; [|by exists []|];
      (exists [mkFailing rid (now + retest_interval (noise i) ((if f <? 0 then 0 else f) + 1) * 1000) ((if f <? 0 then 0 else f) + 1)];
       split_and!; [done| |intros; cbn; set_solver]);
      (repeat constructor; cbn [fp_retest]; pose proof (retest_interval_bounds (noise i) ((if f <? 0 then 0 else f) + 1)); lia). }
  destruct Hadd as (new1 & E1 & F1 & K1).
  destruct (run_test registered st sys now noise (i, t) (rid, f)) as [i' t1]. cbn [snd] in *.
  destruct (IH i' t1) as (new2 & E2 & F2 & K2). exists (new2 ++ new1). rewrite E2, E1, app_assoc.
  split_and!; [done|by apply Forall_app|]. cbn [fmap list_fmap fst]. intros pk [? ?]%not_elem_of_cons Hpk. by apply K2, K1.
Qed.

(** What one event after [X] does to the entries due by [X] *)
Lemma due_step X t e t' tests reports :
  X < event_time e -> rt_step e t = (t', tests, reports) ->
  (due_by X (rt_failing_queue t') <= due_by X (rt_failing_queue t) - if active_tick e then 3 else 0)%nat
  /\ forall y, y ∈ rt_failing_queue t -> fp_pk y ∈ rt_failing t ->
       (y ∈ rt_failing_queue t' /\ fp_pk y ∈ rt_failing t') \/ fp_pk y ∈ tests.*1 \/ (fp_pk y, true) ∈ reports.
Proof.
  destruct e as [registered st sys active now ties shuffled noise|now noise i ok]; cbn [event_time rt_step active_tick]; intros HX.
  - destruct active; [|intros [= <- <- <-]; split; [lia|by left]].
    destruct (tick _ _ _ _ _ _ _ _ _) as [t1' tests1] eqn:E. intros [= <- <- <-].
    apply tick_parts in E as (popped & q & t1 & Hq & -> & H1 & H2 & H3 & Hpop & Hord & Hend).
    destruct (run_tests_queue registered st sys now noise tests1 0 t1) as (new & -> & Hnew & Hkeep). split.
    + rewrite (due_by_perm _ _ _ Hq), !due_by_app, H2.
      assert (Hn0 : due_by X new = 0%nat).
      { unfold due_by. apply length_zero_iff_nil, elem_of_nil_inv. intros x [Hx Hin]%list_elem_of_filter.
        rewrite Forall_forall in Hnew. specialize (Hnew x Hin). cbn in Hnew. lia. }
      destruct (decide (due_by X q = 0%nat)) as [|Hq0]; [lia|].
      assert (Hex : exists y, y ∈ q /\ fp_retest y <= X).
      { unfold due_by in Hq0. destruct (filter _ q) as [|y l] eqn:Ef; [done|]. exists y.
        assert (Hy : y ∈ filter (fun x => fp_retest x <= X) q) by (rewrite Ef; by left).
        apply list_elem_of_filter in Hy. naive_solver. }
      destruct Hex as (y & Hy & HyX). destruct Hend as [H3p|Hlate].
      * assert (due_by X popped = length popped); [|lia]. unfold due_by. f_equal. apply filter_all.
        intros x Hx. specialize (Hord x y Hx Hy). lia.
      * rewrite Forall_forall in Hlate. specialize (Hlate y Hy). cbn in Hlate. lia.
    + intros y Hy Hfail. rewrite Hq in Hy. apply elem_of_app in Hy as [Hy|Hy]; [right; left; by apply Hpop|].
      destruct (decide (fp_pk y ∈ tests1.*1)) as [|Hn]; [right; by left|left]. rewrite H2.
      split; [set_solver|]. apply Hkeep; [done|by rewrite H1].
  - unfold test_response. destruct (rt_pending t !! i) as [[rid f]|]; [|intros [= <- <- <-]; split; [lia|by left]].
    destruct ok; intros [= <- <- <-]; cbn [option_list].
    + split; [rewrite Nat.sub_0_r; exact (le_n _)|]. intros y Hy Hf. destruct (decide (fp_pk y = rid)) as [->|]; [right; right; by left|left].
      cbn. split; [done|set_solver].
    + split; [|intros y Hy Hf; left; cbn; set_solver]. rewrite Nat.sub_0_r. unfold add_failing_node.
      cbn [rt_failing_queue set]. unfold due_by. rewrite filter_cons, decide_False; [exact (le_n _)|]. cbn [fp_retest]. pose proof (retest_interval_bounds noise ((if f <? 0 then 0 else f) + 1)). lia.
Qed.


(** [next_random] gives a node that is not failing, from the queue or, once that has none, from
    the new list, if there is any. *)
Lemma next_random_spec shuffled t r t' :
  next_random shuffled t = (r, t') ->
  match r with
  | Some pk => pk ∉ rt_failing t /\ (pk ∈ rt_testing_queue t \/ pk ∈ shuffled)
  | None => forall pk, pk ∈ rt_testing_queue t ++ shuffled -> pk ∈ rt_failing t
  end.
Proof.
  unfold next_random. destruct (pull_random (rt_failing t) (reverse (rt_testing_queue t))) as [r1 q1] eqn:E1.
  apply pull_random_spec in E1. destruct r1 as [pk|].
  - intros [= <- <-]. destruct E1 as (? & skipped & E & _). split; [done|left]. apply elem_of_reverse. rewrite E. set_solver.
  - destruct (pull_random (rt_failing t) (reverse shuffled)) as [r2 q2] eqn:E2. apply pull_random_spec in E2.
    intros [= <- <-]. destruct r2 as [pk|].
    + destruct E2 as (? & skipped & E & _). split; [done|right]. apply elem_of_reverse. rewrite E. set_solver.
    + destruct E1 as [_ F1], E2 as [_ F2]. rewrite Forall_forall in F1, F2.
      intros pk [Hp|Hp]%elem_of_app; [apply F1|apply F2]; by apply elem_of_reverse.
Qed.

Module TestingDemo.
Definition no_rcs : RCStore := mkStore ∅ [] [] [].
Definition first : Event := ETick {[ [1] ]} no_rcs 0 true 0 (fun _ => 0%nat) [[1]] (fun _ => 0).
Definition later : Event := ETick {[ [1] ]} no_rcs 0 true (121 * SECOND) (fun _ => 0%nat) [[1]] (fun _ => 0).
Definition failed : Testing := (rt_step first Testing_new).1.1.
End TestingDemo.


(** A relay that was unregistered at one check has the longer limit for good: nothing clears the
    flag that stands for having just become registered. *)
Lemma unregistered_limit_stays registered now now' s :
  in_was_unregistered s = true ->
  in_was_unregistered (check_incoming_tests registered now s).1 = true
  /\ in_was_unregistered (incoming_ping registered now now' s).1 = true.
Proof.
  intros Hu. assert (Hc : forall n x, in_was_unregistered x = true -> in_was_unregistered (check_incoming_tests registered n x).1 = true).
  { intros n x Hx. unfold check_incoming_tests. destruct (negb registered); [done|]. destruct (_ || _); done. }
  split; [by apply Hc|]. unfold incoming_ping. cbn zeta. destruct (in_was_failing _); [by apply Hc|done].
Qed.

(** A node can be tested from the random list while a test of it is under way; when both fail it
    is in the queue twice, and each entry brings its own tests from then on. *)
Lemma node_queued_twice :
  let up := mkStore {[ [1] := mkRC [1] (Addr4 [] []) None 0 0 [] [] ]} [] [] [] in
  let tick now := ETick {[ [1] ]} up 0 true now (fun _ => 0%nat) [[1]] (fun _ => 0) in
  fp_pk <$> rt_failing_queue (rt_run [tick 0; tick 333333333; EResponse (4 * SECOND) 0 1 false; EResponse (5 * SECOND) 0 0 false]
    Testing_new).1.1 = [[1]; [1]].
Proof. vm_compute. reflexivity. Qed.
