(* ===== verification/Tun.v ===== *)
(** * The tun endpoint (handlers/tun.{hpp,cpp}, address/map.hpp, address/ip_range.hpp)

    Remotes have local addresses in the tun device's networks: [map4] and [map6] hand them out,
    packets to such an address go to the session with its remote, packets from a remote are
    given its address, and the addresses of closed sessions are kept until the cache of expired
    ones is full.

    The address types are oxen-quic's; what the code uses of them is the class [IPAddress].
    Nodes of the list [_expired] have identities, which stand for the iterators in [_exp_it].
    The device, the sessions and the event loop are effects. *)

From Stdlib Require Import ZArith Lia.
From stdpp Require Import base list numbers strings gmap.
From coqutil Require Import Datatypes.RecordSettersUsingExistingGetters.
From S2P Require Import Prelude Oxenc Crypto RelayContact Session IpPacket.

Local Open Scope Z_scope.
Local Open Scope router_scope.

#[export] Instance ipv6_eq_dec : EqDecision ipv6.
Proof. solve_decision. Defined.
#[export] Instance ipv6_countable : Countable ipv6.
Proof. apply (inj_countable' (fun a => (hi a, lo a)) (fun p => mkIPv6 p.1 p.2)). by intros []. Defined.
#[export] Instance NetworkAddress_countable : Countable NetworkAddress.
Proof. apply (inj_countable' (fun a => (na_pubkey a, na_client a)) (fun p => mkNetAddr p.1 p.2)). by intros []. Defined.

(** ** Address maps *)
Section AddressMap.
Context {A : Type} `{Countable A}.

Record address_map := mkMap {
  local_to_remote : gmap A NetworkAddress;
  remote_to_local : gmap NetworkAddress A;
}.

Definition address_map_new : address_map := mkMap ∅ ∅.

(** [insert(local, remote)]: whether it throws, and what it leaves behind *)
Definition map_insert (local : A) (remote : NetworkAddress) (m : address_map) : address_map * bool :=
  match local_to_remote m !! local with
  | Some _ => (m, true)
  | None =>
    let m := m <| local_to_remote ::= <[local := remote]> |> in
    match remote_to_local m !! remote with
    | Some _ => (m, true)
    | None => (m <| remote_to_local ::= <[remote := local]> |>, false)
    end
  end.

(** [operator[]], [contains] *)
Definition remote_of (m : address_map) (local : A) : option NetworkAddress := local_to_remote m !! local.
Definition local_of (m : address_map) (remote : NetworkAddress) : option A := remote_to_local m !! remote.
Definition map_contains (m : address_map) (local : A) : bool := bool_decide (is_Some (local_to_remote m !! local)).

(** [erase(remote)], [erase(local)] *)
Definition erase_remote (remote : NetworkAddress) (m : address_map) : address_map :=
  match remote_to_local m !! remote with
  | Some local => mkMap (delete local (local_to_remote m)) (delete remote (remote_to_local m))
  | None => m
  end.
Definition erase_local (local : A) (m : address_map) : address_map :=
  match local_to_remote m !! local with
  | Some remote => mkMap (delete local (local_to_remote m)) (delete remote (remote_to_local m))
  | None => m
  end.
End AddressMap.
Arguments address_map A {_ _}.

(** ** Walking a range *)

(** What is used of quic's addresses: their order and [next_ip()], which is nullopt at the
    largest address.  [ip_valid] are the values that the type can hold. *)
Class IPAddress (A : Type) := {
  ip_valid : A -> Prop;
  ip_val : A -> Z;
  next_ip : A -> option A;
}.
Class IPAddressLaws (A : Type) `{IPAddress A} := {
  ip_val_inj a b : ip_valid a -> ip_valid b -> ip_val a = ip_val b -> a = b;
  next_ip_Some a b : ip_valid a -> next_ip a = Some b -> ip_valid b /\ ip_val b = ip_val a + 1;
  next_ip_None a b : ip_valid a -> ip_valid b -> next_ip a = None -> ip_val b <= ip_val a;
}.

Section Range.
Context {A : Type} `{Countable A} `{IPAddress A}.

(** [IPRangeIterator] *)
Record IPRangeIterator := mkRange { rit_curr : A; rit_base : A; rit_last : A }.

(** [next_ip()], [reset()] *)
Definition rit_next (r : IPRangeIterator) : option A * IPRangeIterator :=
  if decide (rit_curr r = rit_last r) then (None, r)
  else match next_ip (rit_curr r) with
       | Some next => (Some next, mkRange next (rit_base r) (rit_last r))
       | None => (None, r)
       end.
Definition rit_reset (r : IPRangeIterator) : IPRangeIterator := mkRange (rit_base r) (rit_base r) (rit_last r).

(** The loop of [get_next_local_ipvX]; [None] is running out of fuel *)
Fixpoint next_local_loop (fuel : nat) (has_reset : bool) (m : address_map A) (r : IPRangeIterator)
    : option (option A * IPRangeIterator) :=
  match fuel with
  | O => None
  | S fuel =>
    match rit_next r with
    | (Some next, r) => if map_contains m next then next_local_loop fuel has_reset m r else Some (Some next, r)
    | (None, r) => if has_reset then Some (None, r) else next_local_loop fuel true m (rit_reset r)
    end
  end.

(** Both passes over the range, and the reset *)
Definition range_fuel (r : IPRangeIterator) : nat :=
  Z.to_nat (ip_val (rit_last r) - ip_val (rit_curr r)) + Z.to_nat (ip_val (rit_last r) - ip_val (rit_base r)) + 2.

(** [get_next_local_ipvX(rit, local_net, local_mapping)] *)
Definition get_next_local (m : address_map A) (r : IPRangeIterator) : option (option A * IPRangeIterator) :=
  next_local_loop (range_fuel r) false m r.
End Range.
Arguments IPRangeIterator A : clear implicits.

(** A network: the device's address in it, the mask, and the base ([to_base]) and last
    ([max_ip]) address that oxen-quic computes *)
Record Net (A : Type) := mkNet { net_ip : A; net_mask : Z; net_base : A; net_last : A }.
Arguments mkNet {A} _ _ _ _.
Arguments net_ip {A} _.
Arguments net_mask {A} _.
Arguments net_base {A} _.
Arguments net_last {A} _.

(** ** The endpoint *)
Section Tun.
Context {ox : Oxenc}.
Context `{IPAddress Z} `{IPAddress ipv6}.

Record TunEndpoint := mkTun {
  local_net : Net Z;
  local_ipv6_net : Net ipv6;
  range4 : IPRangeIterator Z;
  range6 : IPRangeIterator ipv6;
  ipv4_mapping : address_map Z;
  ipv6_mapping : address_map ipv6;
  expired : list (nat * NetworkAddress);
  exp_it : gmap NetworkAddress nat;
  next_node : nat;
}.

(** [IPRangeIterator(net)] *)
Definition range_of {A} (n : Net A) : IPRangeIterator A := mkRange (net_ip n) (net_base n) (net_last n).

(** The lambda [add_mappings] of the constructor: [reserved] in its iteration order *)
Definition add_mapping {A} `{Countable A} (contains : A -> bool) (m : address_map A) (rl : NetworkAddress * A) : address_map A :=
  let '(remote, local) := rl in
  if negb (contains local) then m
  else if bool_decide (is_Some (local_of m remote)) then m
  else if map_contains m local then m
  else (map_insert local remote m).1.

(** [TunEndpoint(router)] once the interface has its networks; [contains4], [contains6] are
    the networks' *)
Definition TunEndpoint_new (contains4 : Z -> bool) (contains6 : ipv6 -> bool) (n4 : Net Z) (n6 : Net ipv6)
    (me : NetworkAddress) (reserved4 : list (NetworkAddress * Z)) (reserved6 : list (NetworkAddress * ipv6)) : TunEndpoint :=
  let m4 := (map_insert (net_ip n4) me address_map_new).1 in
  let m6 := (map_insert (net_ip n6) me address_map_new).1 in
  mkTun n4 n6 (range_of n4) (range_of n6)
    (foldl (add_mapping contains4) m4 reserved4) (foldl (add_mapping contains6) m6 reserved6) [] ∅ 0.

(** The address made of a prefix of the remote's public key, in [get_next_local_ipv6] *)
Definition pubkey_ipv6 (n : Net ipv6) (rid : bytes) : ipv6 :=
  let addr_bits := wrap 8 (128 - net_mask n) in
  let addr_bytes := Z.to_nat (addr_bits / 8) in
  let to_try := net_ip n in
  let hi' := if bool_decide (8 < addr_bytes)%nat
             then Z.lor (hi to_try) (load_big_to_host 8 (replicate (16 - addr_bytes) 0 ++ take (addr_bytes - 8) rid))
             else hi to_try in
  let lo' := if bool_decide (8 <= addr_bytes)%nat then load_big_to_host 8 (drop (addr_bytes - 8) rid)
             else Z.lor (lo to_try) (load_big_to_host 8 (replicate (8 - addr_bytes) 0 ++ take addr_bytes rid)) in
  mkIPv6 hi' lo'.

(** [get_next_local_ipv6(a)], [get_next_local_ipv4()] *)
Definition get_next_local_ipv6 (a : NetworkAddress) (t : TunEndpoint) : option (option ipv6 * TunEndpoint) :=
  let n := local_ipv6_net t in
  let to_try := pubkey_ipv6 n (na_pubkey a) in
  if negb (map_contains (ipv6_mapping t) to_try) && negb (bool_decide (to_try = net_ip n))
     && negb (bool_decide (to_try = net_base n)) then Some (Some to_try, t)
  else
    r ← get_next_local (ipv6_mapping t) (range6 t);
    Some (r.1, t <| range6 := r.2 |>).
Definition get_next_local_ipv4 (t : TunEndpoint) : option (option Z * TunEndpoint) :=
  r ← get_next_local (ipv4_mapping t) (range4 t);
  Some (r.1, t <| range4 := r.2 |>).

(** [map6(remote)], which throws when there is no address left or [insert] does, and
    [map4(remote)] *)
Definition map6 (remote : NetworkAddress) (t : TunEndpoint) : option (outcome unit ipv6 * TunEndpoint) :=
  match local_of (ipv6_mapping t) remote with
  | Some ip => Some (Ok ip, t)
  | None =>
    r ← get_next_local_ipv6 remote t;
    match r with
    | (Some ip, t) =>
      let '(m, throws) := map_insert ip remote (ipv6_mapping t) in
      Some (if throws then Throw tt else Ok ip, t <| ipv6_mapping := m |>)
    | (None, t) => Some (Throw tt, t)
    end
  end.
Definition map4 (remote : NetworkAddress) (t : TunEndpoint) : option (outcome unit (option Z) * TunEndpoint) :=
  match local_of (ipv4_mapping t) remote with
  | Some ip => Some (Ok (Some ip), t)
  | None =>
    r ← get_next_local_ipv4 t;
    match r with
    | (Some ip, t) =>
      let '(m, throws) := map_insert ip remote (ipv4_mapping t) in
      Some (if throws then Throw tt else Ok (Some ip), t <| ipv4_mapping := m |>)
    | (None, t) => Some (Ok None, t)
    end
  end.

(** [prune_expired()] *)
Fixpoint prune_loop (fuel keep : nat) (t : TunEndpoint) : TunEndpoint :=
  match fuel with
  | O => t
  | S fuel =>
    if bool_decide (keep < length (expired t))%nat then
      match expired t with
      | [] => t
      | (_, remote) :: rest =>
        prune_loop fuel keep (t <| ipv4_mapping ::= erase_remote remote |> <| ipv6_mapping ::= erase_remote remote |>
                                <| exp_it ::= delete remote |> <| expired := rest |>)
      end
    else t
  end.
Definition prune_expired (keep : nat) (t : TunEndpoint) : TunEndpoint := prune_loop (length (expired t)) keep t.

(** [expire(remote)]; [keep] is the configured size of the cache *)
Definition expire (keep : nat) (remote : NetworkAddress) (t : TunEndpoint) : TunEndpoint :=
  let t := match exp_it t !! remote with
           | Some node => t <| expired ::= filter (fun e => e.1 <> node) |> <| exp_it ::= delete remote |>
           | None => t
           end in
  let node := next_node t in
  let t := t <| expired ::= (fun l => l ++ [(node, remote)]) |> <| exp_it ::= <[remote := node]> |>
             <| next_node ::= S |> in
  prune_expired keep t.

(** [reverse_lookup(ip)], [get_mapped_ip(addr)] *)
Definition reverse_lookup {A} `{Countable A} (m : address_map A) (contains : A -> bool) (ip : A)
    : option NetworkAddress * bool :=
  let netaddr := remote_of m ip in (netaddr, bool_decide (is_Some netaddr) || contains ip).
Definition get_mapped_ip (addr : NetworkAddress) (t : TunEndpoint) : option Z * option ipv6 :=
  (local_of (ipv4_mapping t) addr, local_of (ipv6_mapping t) addr).

(** ** Packets *)
Inductive TunEffect :=
| SendSessionData (remote : NetworkAddress) (data : bytes) (proto : Z)
| WritePacket (pkt : bytes).

(** [handle_outbound_packet(pkt)] (on platforms other than Apple's); [session] tells whether
    there is a session to a remote, or one can be initiated *)
Definition handle_outbound_packet (session : NetworkAddress -> bool) (pkt : bytes) (t : TunEndpoint)
    : deref (list TunEffect) :=
  if negb (is_ipv4 pkt) && negb (is_ipv6 pkt) then Value []
  else
    let remote := if is_ipv4 pkt then dest_ipv4 pkt ≫= remote_of (ipv4_mapping t)
                  else dest_ipv6 pkt ≫= remote_of (ipv6_mapping t) in
    match remote with
    | Some remote =>
      let? pkt := clear_addresses pkt in
      Value (if session remote then [SendSessionData remote pkt (protocol pkt)] else [])
    | None => Value (match make_icmp_unreachable pkt with Some icmp => [WritePacket icmp] | None => [] end)
    end.

(** [handle_inbound_packet(pkt, type, remote)], with the exit flags off as in the code *)
Definition handle_inbound_packet (pkt : bytes) (remote : NetworkAddress) (t : TunEndpoint) : deref (list TunEffect) :=
  if is_ipv4 pkt then
    match local_of (ipv4_mapping t) remote with
    | Some src => let? pkt := update_ipv4_address src (net_ip (local_net t)) pkt in Value [WritePacket pkt]
    | None => Value []
    end
  else
    match local_of (ipv6_mapping t) remote with
    | Some src => let? pkt := update_ipv6_address src (net_ip (local_ipv6_net t)) None pkt in Value [WritePacket pkt]
    | None => Value []
    end.
End Tun.

(** ** Address maps are one-to-one *)
Section AddressMapProofs.
Context {A : Type} `{Countable A}.

(** Each side of the map is the inverse of the other. *)
Definition map_ok (m : address_map A) : Prop := forall a r, local_to_remote m !! a = Some r <-> remote_to_local m !! r = Some a.

Lemma map_new_ok : map_ok address_map_new.
Proof. intros a r. cbn. by rewrite !lookup_empty. Qed.

Lemma map_insert_fresh local remote m : map_ok m -> local_to_remote m !! local = None -> remote_to_local m !! remote = None ->
  map_insert local remote m = (mkMap (<[local := remote]> (local_to_remote m)) (<[remote := local]> (remote_to_local m)), false) /\
  map_ok (map_insert local remote m).1.
Proof.
  intros Hm Hl Hr.
  assert (map_insert local remote m
    = (mkMap (<[local := remote]> (local_to_remote m)) (<[remote := local]> (remote_to_local m)), false)) as E.
  { unfold map_insert. rewrite Hl. cbn. by rewrite Hr. }
  split; [done|]. rewrite E. intros a r. cbn [local_to_remote remote_to_local fst].
  destruct (decide (a = local)) as [->|Ha], (decide (r = remote)) as [->|Hr']; rewrite ?lookup_insert_eq, ?lookup_insert_ne by done;
    [done|..]; [split; [by intros [=]|]|split; [|by intros [=]]|apply Hm].
  - intros Hx%Hm. congruence.
  - intros Hx%Hm. congruence.
Qed.

Lemma erase_remote_ok remote m : map_ok m -> map_ok (erase_remote remote m).
Proof.
  intros Hm. unfold erase_remote. destruct (remote_to_local m !! remote) as [l|] eqn:E; [|done]. intros a r. cbn.
  rewrite !lookup_delete_Some, (Hm a r). split; intros [Hne Hx]; (split; [|done]); intros <-.
  - congruence.
  - apply Hm in Hx, E. congruence.
Qed.

Lemma erase_remote_other remote m r : map_ok m -> r <> remote -> local_of (erase_remote remote m) r = local_of m r.
Proof.
  intros Hm Hr. unfold erase_remote, local_of. destruct (remote_to_local m !! remote); [|done]. cbn. by rewrite lookup_delete_ne.
Qed.

Lemma add_mapping_ok contains m rl : map_ok m -> map_ok (add_mapping contains m rl).
Proof.
  intros Hm. unfold add_mapping. destruct rl as [remote local]. destruct (contains local); [|done]. cbn [negb].
  destruct (bool_decide_reflect (is_Some (local_of m remote))) as [|Hr]; [done|].
  unfold map_contains. destruct (bool_decide_reflect (is_Some (local_to_remote m !! local))) as [|Hl]; [done|].
  apply map_insert_fresh; [done|by apply eq_None_not_Some..].
Qed.

Lemma add_mappings_ok contains m l : map_ok m -> map_ok (foldl (add_mapping contains) m l).
Proof. revert m. induction l as [|rl l IH]; intros m Hm; [done|]. apply IH. by apply add_mapping_ok. Qed.
End AddressMapProofs.

(** ** The next free address *)
Section RangeProofs.
Context {A : Type} `{Countable A} `{IPAddressLaws A}.

Definition range_ok (r : IPRangeIterator A) : Prop :=
  (ip_valid (rit_base r) /\ ip_valid (rit_curr r) /\ ip_valid (rit_last r)) /\
  ip_val (rit_base r) <= ip_val (rit_curr r) <= ip_val (rit_last r).
Definition in_range (r : IPRangeIterator A) (a : A) : Prop :=
  ip_valid a /\ ip_val (rit_base r) < ip_val a <= ip_val (rit_last r).
Definition same_range (r r' : IPRangeIterator A) : Prop := rit_base r' = rit_base r /\ rit_last r' = rit_last r.

Lemma rit_next_cases r : range_ok r ->
  (exists a, rit_next r = (Some a, mkRange a (rit_base r) (rit_last r)) /\ ip_valid a /\ ip_val a = ip_val (rit_curr r) + 1
             /\ ip_val a <= ip_val (rit_last r)) \/
  (rit_next r = (None, r) /\ rit_curr r = rit_last r).
Proof.
  intros [(Vb & Vc & Vl) [Hb Hl]]. unfold rit_next. destruct (decide (rit_curr r = rit_last r)) as [|Hne]; [by right|]. left.
  assert (ip_val (rit_curr r) <> ip_val (rit_last r)) as Hv by (intros ?%ip_val_inj; done).
  destruct (next_ip (rit_curr r)) as [a|] eqn:E.
  - exists a. apply next_ip_Some in E as [Va E]; [|done]. split; [done|]. split; [done|]. lia.
  - pose proof (next_ip_None _ (rit_last r) Vc Vl E). lia.
Qed.

(** One pass of the loop, to the end of the range or to a free address; [passed] says what is
    known to be taken already. *)
Lemma next_local_pass fuel (reset : bool) (m : address_map A) r : range_ok r ->
  (Z.to_nat (ip_val (rit_last r) - ip_val (rit_curr r))
   + (if reset then 0 else S (Z.to_nat (ip_val (rit_last r) - ip_val (rit_base r)))) < fuel)%nat ->
  (reset = true -> forall a, in_range r a -> ip_val a <= ip_val (rit_curr r) -> map_contains m a = true) ->
  exists res r', next_local_loop fuel reset m r = Some (res, r') /\ range_ok r' /\ same_range r r' /\
    match res with
    | Some a => in_range r a /\ map_contains m a = false
    | None => forall a, in_range r a -> map_contains m a = true
    end.
Proof.
  revert reset r. induction fuel as [|fuel IH]; intros reset r Hr Hf Hpass; [lia|]. cbn [next_local_loop].
  destruct (rit_next_cases r Hr) as [(a & -> & Va & Ha & Hl)|[-> Hend]]; destruct Hr as [(Vb & Vc & Vl) [Hr1 Hr2]].
  - destruct (map_contains m a) eqn:Em.
    + destruct (IH reset (mkRange a (rit_base r) (rit_last r))) as (res & r' & Hres & Hok & Hsame & Hspec).
      * split; [done|]. cbn. lia.
      * cbn. lia.
      * intros Ht b Hb Hle. cbn in Hle. destruct (decide (ip_val b = ip_val a)) as [Heq|].
        { apply ip_val_inj in Heq as ->; [done|apply Hb|done]. }
        apply Hpass; [done|done|]. lia.
      * exists res, r'. done.
    + exists (Some a), (mkRange a (rit_base r) (rit_last r)). split; [done|]. split; [split; [done|]; cbn; lia|]. split; [done|].
      split; [split; [done|]; lia|done].
  - destruct reset.
    + exists None, r. split; [done|]. split; [done|]. split; [done|]. intros a Ha. apply Hpass; [done|done|].
      rewrite Hend. apply Ha.
    + destruct (IH true (rit_reset r)) as (res & r' & Hres & Hok & Hsame & Hspec).
      * split; [done|]. cbn. lia.
      * cbn. rewrite Hend in Hf. lia.
      * intros _ a [_ Ha] Hle. cbn in Ha, Hle. lia.
      * exists res, r'. done.
Qed.

Lemma get_next_local_spec (m : address_map A) r : range_ok r ->
  exists res r', get_next_local m r = Some (res, r') /\ range_ok r' /\ same_range r r' /\
    match res with
    | Some a => in_range r a /\ map_contains m a = false
    | None => forall a, in_range r a -> map_contains m a = true
    end.
Proof. intros Hr. apply next_local_pass; [done| |done]. unfold range_fuel. lia. Qed.
End RangeProofs.

(** ** The endpoint's tables *)
Section TunProofs.
Context {ox : Oxenc}.
Context `{IPAddressLaws Z} `{IPAddressLaws ipv6}.

(** The list of expired remotes and the iterators into it *)
Record exp_ok (l : list (nat * NetworkAddress)) (its : gmap NetworkAddress nat) (next : nat) : Prop := {
  exp_nodup : NoDup l.*1;
  exp_its : forall node r, (node, r) ∈ l <-> its !! r = Some node;
  exp_next : forall node r, (node, r) ∈ l -> (node < next)%nat;
}.

Record tun_ok (t : TunEndpoint) : Prop := {
  tun_map4 : map_ok (ipv4_mapping t);
  tun_map6 : map_ok (ipv6_mapping t);
  tun_range4 : range_ok (range4 t) /\ same_range (range_of (local_net t)) (range4 t);
  tun_range6 : range_ok (range6 t) /\ same_range (range_of (local_ipv6_net t)) (range6 t);
  tun_exp : exp_ok (expired t) (exp_it t) (next_node t);
}.

Definition net_ok {A} `{IPAddress A} (n : Net A) : Prop :=
  (ip_valid (net_base n) /\ ip_valid (net_ip n) /\ ip_valid (net_last n)) /\
  ip_val (net_base n) <= ip_val (net_ip n) <= ip_val (net_last n).

Lemma tun_new_ok contains4 contains6 n4 n6 me res4 res6 : net_ok n4 -> net_ok n6 ->
  tun_ok (TunEndpoint_new contains4 contains6 n4 n6 me res4 res6).
Proof.
  intros H4 H6. split; cbn.
  - apply add_mappings_ok, map_insert_fresh; [apply map_new_ok|done..].
  - apply add_mappings_ok, map_insert_fresh; [apply map_new_ok|done..].
  - done.
  - done.
  - split; [constructor|..]; intros node r; rewrite ?lookup_empty, ?elem_of_nil; done.
Qed.

Lemma exp_remove l its next node r : exp_ok l its next -> its !! r = Some node ->
  exp_ok (filter (fun e => e.1 <> node) l) (delete r its) next.
Proof.
  intros [Hnd Hits Hnext] Hr. split.
  - eapply sublist_NoDup; [done|apply filter_fst_sublist].
  - intros n q. rewrite list_elem_of_filter, Hits, lookup_delete_Some. cbn. split; intros [Hne Hq]; (split; [|done]).
    + intros <-. congruence.
    + intros ->. apply Hne. apply Hits in Hq, Hr. apply list_elem_of_lookup in Hq as [i Hi], Hr as [j Hj].
      assert (i = j) as ->; [|congruence].
      apply (NoDup_lookup l.*1 i j node); [done|by rewrite list_lookup_fmap, Hi|by rewrite list_lookup_fmap, Hj].
  - intros n q [_ Hq]%list_elem_of_filter. by apply (Hnext n q).
Qed.

Lemma exp_append l its next r : exp_ok l its next -> its !! r = None ->
  exp_ok (l ++ [(next, r)]) (<[r := next]> its) (S next).
Proof.
  intros [Hnd Hits Hnext] Hr. split.
  - rewrite fmap_app. apply NoDup_app. split; [done|]. split; [|apply NoDup_singleton].
    intros n ([n' q] & -> & Hin)%list_elem_of_fmap Hn%list_elem_of_singleton. cbn in Hn. subst n'.
    apply Hnext in Hin. lia.
  - intros n q. rewrite elem_of_app, list_elem_of_singleton, Hits. destruct (decide (q = r)) as [->|Hq].
    + rewrite lookup_insert_eq, Hr. split; [by intros [[=]|[= ->]]|]. intros [= ->]. by right.
    + rewrite lookup_insert_ne by done. split; [by intros [?|[= _ ?]]|by left].
  - intros n q. rewrite elem_of_app, list_elem_of_singleton. intros [Hin%Hnext|[= -> _]]; lia.
Qed.

Lemma exp_pop node r l its next : exp_ok ((node, r) :: l) its next -> exp_ok l (delete r its) next.
Proof.
  intros Hok. assert (its !! r = Some node) as Hr by (apply Hok; set_solver).
  pose proof (exp_remove _ _ _ _ _ Hok Hr) as Hrem. rewrite filter_cons_False in Hrem by (cbn; naive_solver).
  rewrite filter_all in Hrem; [done|]. intros [n q] Hin. cbn. intros ->.
  pose proof (exp_nodup _ _ _ Hok) as Hnd. cbn in Hnd. apply NoDup_cons in Hnd as [Hn _]. apply Hn.
  apply list_elem_of_fmap. by exists (node, q).
Qed.

Lemma prune_loop_ok fuel keep t : tun_ok t -> (length (expired t) <= fuel + keep)%nat ->
  tun_ok (prune_loop fuel keep t) /\ (length (expired (prune_loop fuel keep t)) <= keep)%nat.
Proof.
  revert t. induction fuel as [|fuel IH]; intros t Ht Hlen; cbn [prune_loop]; [done|].
  destruct (bool_decide_reflect (keep < length (expired t))%nat) as [Hk|]; [|split; [done|lia]].
  destruct (expired t) as [|[node r] rest] eqn:E; [cbn in Hk; lia|]. apply IH; [|cbn in *; lia].
  destruct Ht as [T1 T2 T3 T4 T5]. split; cbn; [by apply erase_remote_ok..|done|done|].
  rewrite E in T5. by eapply exp_pop.
Qed.

Lemma expire_ok keep remote t : tun_ok t ->
  tun_ok (expire keep remote t) /\ (length (expired (expire keep remote t)) <= keep)%nat.
Proof.
  intros [T1 T2 T3 T4 T5]. unfold expire, prune_expired. apply prune_loop_ok; [|lia].
  destruct (exp_it t !! remote) as [node|] eqn:E.
  - split; cbn; try done. apply exp_append; [by eapply exp_remove|apply lookup_delete_eq].
  - split; cbn; try done. by apply exp_append.
Qed.

(** What [map4] and [map6] do to a map: the remote has a fresh address afterwards, and
    nothing else has changed. *)
Lemma map_insert_new {A} `{Countable A} (m : address_map A) ip remote : map_ok m -> map_contains m ip = false ->
  local_of m remote = None -> exists m', map_insert ip remote m = (m', false) /\ map_ok m' /\
    local_of m' remote = Some ip /\ forall r, r <> remote -> local_of m' r = local_of m r.
Proof.
  intros Hm Hc Hr. apply bool_decide_eq_false, eq_None_not_Some in Hc.
  destruct (map_insert_fresh ip remote m Hm Hc Hr) as [E Hok]. rewrite E in Hok.
  eexists. split; [done|]. split; [done|]. unfold local_of. cbn. split; [apply lookup_insert_eq|].
  intros r Hne. by rewrite lookup_insert_ne.
Qed.

Lemma map4_spec remote t : tun_ok t -> exists r t', map4 remote t = Some (Ok r, t') /\ tun_ok t' /\
  local_of (ipv4_mapping t') remote = r /\ ipv6_mapping t' = ipv6_mapping t /\ expired t' = expired t /\
  (forall q, q <> remote -> local_of (ipv4_mapping t') q = local_of (ipv4_mapping t) q) /\
  match r with
  | Some a => local_of (ipv4_mapping t) remote = Some a \/ in_range (range_of (local_net t)) a
  | None => forall a, in_range (range_of (local_net t)) a -> is_Some (remote_of (ipv4_mapping t) a)
  end.
Proof.
  intros Ht. unfold map4. destruct (local_of (ipv4_mapping t) remote) as [ip|] eqn:El.
  { exists (Some ip), t. split_and!; try done. by left. }
  destruct Ht as [T1 T2 [T3 [Eb El3]] T4 T5].
  destruct (get_next_local_spec (ipv4_mapping t) (range4 t) T3) as (res & r' & Hres & Hok & [Hb Hl] & Hspec).
  unfold get_next_local_ipv4. rewrite Hres. cbn [mbind option_bind fst snd].
  assert (Hin : forall a, in_range (range4 t) a <-> in_range (range_of (local_net t)) a).
  { intros a. unfold in_range. by rewrite Eb, El3. }
  destruct res as [ip|].
  - destruct Hspec as [Hip Hfree]. cbn.
    destruct (map_insert_new (ipv4_mapping t) ip remote T1 Hfree El) as (m' & -> & Hm' & Hrem & Hoth).
    do 2 eexists. split; [done|]. split; [|split_and!; try done; right; by apply Hin].
    split; cbn; try done. split; [done|]. split; [by rewrite Hb|by rewrite Hl].
  - do 2 eexists. split; [done|]. split.
    + split; cbn; try done. split; [done|]. split; [by rewrite Hb|by rewrite Hl].
    + split_and!; try done. intros a Ha%Hin%Hspec. by apply bool_decide_eq_true in Ha.
Qed.

Lemma map6_spec remote t : tun_ok t -> exists r t', map6 remote t = Some (r, t') /\ tun_ok t' /\
  ipv4_mapping t' = ipv4_mapping t /\ expired t' = expired t /\
  (forall q, q <> remote -> local_of (ipv6_mapping t') q = local_of (ipv6_mapping t) q) /\
  match r with
  | Ok a => local_of (ipv6_mapping t') remote = Some a /\
      (local_of (ipv6_mapping t) remote = Some a \/ in_range (range_of (local_ipv6_net t)) a
       \/ a = pubkey_ipv6 (local_ipv6_net t) (na_pubkey remote))
  | Throw _ => forall a, in_range (range_of (local_ipv6_net t)) a -> is_Some (remote_of (ipv6_mapping t) a)
  end.
Proof.
  intros Ht. unfold map6. destruct (local_of (ipv6_mapping t) remote) as [ip|] eqn:El.
  { exists (Ok ip), t. split_and!; try done. by left. }
  destruct Ht as [T1 T2 T3 [T4 [Eb El4]] T5]. unfold get_next_local_ipv6. cbn zeta.
  destruct (negb (map_contains _ _) && _ && _) eqn:Etry.
  { apply andb_prop in Etry as [[Hfree%negb_true_iff _]%andb_prop _]. cbn.
    destruct (map_insert_new (ipv6_mapping t) _ remote T2 Hfree El) as (m' & -> & Hm' & Hrem & Hoth).
    do 2 eexists. split; [done|]. split; [by split|]. split_and!; try done. by right; right. }
  destruct (get_next_local_spec (ipv6_mapping t) (range6 t) T4) as (res & r' & Hres & Hok & [Hb Hl] & Hspec).
  rewrite Hres. cbn [mbind option_bind fst snd].
  assert (Hin : forall a, in_range (range6 t) a <-> in_range (range_of (local_ipv6_net t)) a).
  { intros a. unfold in_range. by rewrite Eb, El4. }
  destruct res as [ip|].
  - destruct Hspec as [Hip Hfree]. cbn.
    destruct (map_insert_new (ipv6_mapping t) ip remote T2 Hfree El) as (m' & -> & Hm' & Hrem & Hoth).
    do 2 eexists. split; [done|]. split; [|split_and!; try done; right; left; by apply Hin].
    split; cbn; try done. split; [done|]. split; [by rewrite Hb|by rewrite Hl].
  - do 2 eexists. split; [done|]. split.
    + split; cbn; try done. split; [done|]. split; [by rewrite Hb|by rewrite Hl].
    + split_and!; try done. intros a Ha%Hin%Hspec. by apply bool_decide_eq_true in Ha.
Qed.

(** ** Any sequence of events *)
Inductive TunEvent := EvMap4 (remote : NetworkAddress) | EvMap6 (remote : NetworkAddress) | EvExpire (remote : NetworkAddress).

(** [None] would be an allocation that never ends. *)
Definition tun_step (keep : nat) (t : TunEndpoint) (ev : TunEvent) : option TunEndpoint :=
  match ev with
  | EvMap4 remote => snd <$> map4 remote t
  | EvMap6 remote => snd <$> map6 remote t
  | EvExpire remote => Some (expire keep remote t)
  end.
Fixpoint tun_run (keep : nat) (events : list TunEvent) (t : TunEndpoint) : option TunEndpoint :=
  match events with
  | [] => Some t
  | ev :: events => t ← tun_step keep t ev; tun_run keep events t
  end.

Lemma tun_run_ok keep events t : tun_ok t -> (length (expired t) <= keep)%nat ->
  exists t', tun_run keep events t = Some t' /\ tun_ok t' /\ (length (expired t') <= keep)%nat.
Proof.
  revert t. induction events as [|ev events IH]; intros t Ht Hk; [by exists t|]. cbn [tun_run].
  destruct ev; cbn [tun_step].
  - destruct (map4_spec remote t Ht) as (r & t' & -> & Ht' & _ & _ & He & _). cbn. apply IH; [done|by rewrite He].
  - destruct (map6_spec remote t Ht) as (r & t' & -> & Ht' & _ & He & _). cbn. apply IH; [done|by rewrite He].
  - destruct (expire_ok keep remote t Ht) as [Ht' He]. cbn. by apply IH.
Qed.

Lemma exp_remotes_nodup l its next : exp_ok l its next -> NoDup l.*2.
Proof.
  intros Hok. apply NoDup_alt. intros i j r Hi Hj. rewrite list_lookup_fmap in Hi, Hj.
  destruct (l !! i) as [[n1 r1]|] eqn:E1; [|done]. destruct (l !! j) as [[n2 r2]|] eqn:E2; [|done]. cbn in *. simplify_eq.
  assert (n1 = n2) as ->.
  { apply list_elem_of_lookup_2 in E1, E2. apply (exp_its _ _ _ Hok) in E1, E2. congruence. }
  apply (NoDup_lookup l.*1 i j n2); [apply Hok|by rewrite list_lookup_fmap, E1|by rewrite list_lookup_fmap, E2].
Qed.

(** C32. However sessions come and go, the tun endpoint's tables agree: a local address belongs to
    one remote and a remote has one local address of each kind, the expired remotes are distinct
    and no more than the cache holds, and asking for an IPv4 address always ends, giving the
    remote one that nobody else has and failing only when the whole range is taken. *)
Theorem tun_tables_agree contains4 contains6 n4 n6 me reserved4 reserved6 keep events :
  net_ok n4 -> net_ok n6 ->
  exists t, tun_run keep events (TunEndpoint_new contains4 contains6 n4 n6 me reserved4 reserved6) = Some t /\
  (forall a r, remote_of (ipv4_mapping t) a = Some r <-> local_of (ipv4_mapping t) r = Some a) /\
  (forall a r, remote_of (ipv6_mapping t) a = Some r <-> local_of (ipv6_mapping t) r = Some a) /\
  NoDup (expired t).*2 /\ (length (expired t) <= keep)%nat /\
  forall remote, exists r t', map4 remote t = Some (Ok r, t') /\ local_of (ipv4_mapping t') remote = r /\
    (forall q, q <> remote -> local_of (ipv4_mapping t') q = local_of (ipv4_mapping t) q) /\
    (r = None -> forall a, in_range (range_of (local_net t)) a -> is_Some (remote_of (ipv4_mapping t) a)).
Proof.
  intros H4 H6. pose proof (tun_new_ok contains4 contains6 n4 n6 me reserved4 reserved6 H4 H6) as Hnew.
  destruct (tun_run_ok keep events _ Hnew) as (t & -> & Ht & Hk); [cbn; lia|].
  exists t. split; [done|]. split; [apply Ht|]. split; [apply Ht|]. split; [by eapply exp_remotes_nodup, Ht|]. split; [done|].
  intros remote. destruct (map4_spec remote t Ht) as (r & t' & Hm & _ & Hr & _ & _ & Hoth & Hnone).
  exists r, t'. split; [done|]. split; [done|]. split; [done|]. by intros ->.
Qed.

(** ** The address made from a public key *)
Context {oxl : OxencLaws}.

Lemma be_value_zeros k l : be_value (replicate k 0 ++ l) = be_value l.
Proof.
  unfold be_value. rewrite rev_app_distr. assert (rev (replicate k 0) = replicate k 0) as ->.
  { induction k as [|k IH]; [done|]. cbn [replicate rev]. rewrite IH.
    clear IH. induction k as [|k IH]; [done|]. cbn. by rewrite IH. }
  induction (rev l) as [|b r IH]; [|cbn; by rewrite IH]. cbn. induction k as [|k IH]; [done|]. cbn. by rewrite IH.
Qed.

Definition ipv6_val (a : ipv6) : Z := hi a * 2 ^ 64 + lo a.

Lemma lor_low a b n : 0 <= n -> 0 <= a -> 0 <= b < 2 ^ n -> Z.lor a b / 2 ^ n = a / 2 ^ n.
Proof.
  intros Hn Ha Hb. rewrite <-!Z.shiftr_div_pow2 by done. rewrite Z.shiftr_lor.
  rewrite (Z.shiftr_div_pow2 b) by done. rewrite (Z.div_small b) by done. apply Z.lor_0_r.
Qed.

Lemma lor_64 a b : 0 <= a < 2 ^ 64 -> 0 <= b < 2 ^ 64 -> 0 <= Z.lor a b < 2 ^ 64.
Proof.
  intros Ha Hb. split; [apply Z.lor_nonneg; lia|].
  pose proof (lor_low a b 64 ltac:(lia) ltac:(lia) Hb) as H64. rewrite (Z.div_small a) in H64 by done.
  assert (0 <= Z.lor a b) by (apply Z.lor_nonneg; lia).
  pose proof (Z.div_mod (Z.lor a b) (2 ^ 64) ltac:(lia)). pose proof (Z.mod_pos_bound (Z.lor a b) (2 ^ 64) ltac:(lia)). lia.
Qed.

Lemma load_prefix rid k : is_bytes rid -> (k <= 8)%nat ->
  0 <= load_big_to_host 8 (replicate (8 - k) 0 ++ take k rid) < 2 ^ (8 * Z.of_nat k).
Proof.
  intros Hr Hk. rewrite load_big_spec, take_ge by (rewrite length_app, length_replicate, length_take; lia).
  rewrite be_value_zeros. pose proof (be_value_bound (take k rid) (Forall_take _ _ _ Hr)) as Hb.
  assert (256 ^ Z.of_nat (length (take k rid)) <= 2 ^ (8 * Z.of_nat k)); [|lia].
  change 256 with (2 ^ 8). rewrite <-Z.pow_mul_r by lia. apply Z.pow_le_mono_r; [lia|]. rewrite length_take. lia.
Qed.

(** The network prefix of two addresses that differ in their low bits only *)
Lemma same_prefix_high a h l n : 64 <= n -> is_ipv6_addr a -> 0 <= l < 2 ^ 64 ->
  h / 2 ^ (n - 64) = hi a / 2 ^ (n - 64) -> ipv6_val (mkIPv6 h l) / 2 ^ n = ipv6_val a / 2 ^ n.
Proof.
  intros Hn [Hh Hl] Hl' Heq. unfold ipv6_val. cbn [hi lo]. replace n with (64 + (n - 64)) by lia.
  rewrite Z.pow_add_r, <-!Z.div_div by lia.
  rewrite !(Z.add_comm (_ * 2 ^ 64)), !Z.div_add by lia. rewrite (Z.div_small l), (Z.div_small (lo a)) by done. by rewrite !Z.add_0_l.
Qed.

Lemma same_prefix_low a l n : 0 <= n -> l / 2 ^ n = lo a / 2 ^ n -> n <= 64 -> 
  ipv6_val (mkIPv6 (hi a) l) / 2 ^ n = ipv6_val a / 2 ^ n.
Proof.
  intros Hn Heq Hle. unfold ipv6_val. cbn [hi lo]. replace (2 ^ 64) with (2 ^ (64 - n) * 2 ^ n).
  - rewrite Z.mul_assoc, !(Z.add_comm (_ * 2 ^ n)), !Z.div_add by lia. by rewrite Heq.
  - rewrite <-Z.pow_add_r by lia. f_equal. lia.
Qed.

(** The assertion of [get_next_local_ipv6]: the address made from a public key is in the
    device's network, whatever its mask. *)
Lemma pubkey_ipv6_in_net n rid : is_buf 32 rid -> is_ipv6_addr (net_ip n) -> 0 <= net_mask n <= 128 ->
  is_ipv6_addr (pubkey_ipv6 n rid) /\
  ipv6_val (pubkey_ipv6 n rid) / 2 ^ (128 - net_mask n) = ipv6_val (net_ip n) / 2 ^ (128 - net_mask n).
Proof.
  intros [Hlen Hr] [Hh Hl] Hm. unfold pubkey_ipv6. cbn zeta. set (bits := 128 - net_mask n).
  replace (wrap 8 bits) with bits by (unfold wrap; rewrite Z.mod_small by (change (2 ^ 8) with 256; lia); done).
  set (k := Z.to_nat (bits / 8)). assert (8 * Z.of_nat k <= bits < 8 * Z.of_nat k + 8) as Hk.
  { unfold k. pose proof (Z.div_mod bits 8). pose proof (Z.mod_pos_bound bits 8). pose proof (Z.div_pos bits 8). lia. }
  assert (Hload : forall l, is_bytes l -> 0 <= load_big_to_host 8 l < 2 ^ 64).
  { intros l Hbl. rewrite load_big_spec. pose proof (be_value_bound (take 8 l) (Forall_take _ _ _ Hbl)) as Hb.
    assert (256 ^ Z.of_nat (length (take 8 l)) <= 256 ^ 8); [|change (2 ^ 64) with (256 ^ 8); lia].
    apply Z.pow_le_mono_r; [lia|]. rewrite length_take. lia. }
  clearbody k. assert (bits <= 128) by (unfold bits; lia). assert (0 <= bits) by (unfold bits; lia). clearbody bits.
  destruct (bool_decide_reflect (8 <= k)%nat) as [H8|H8].
  - pose proof (Hload (drop (k - 8) rid) (Forall_drop _ _ _ Hr)) as Hlo.
    destruct (bool_decide_reflect (8 < k)%nat) as [H9|H9].
    + pose proof (load_prefix rid (k - 8) Hr ltac:(lia)) as Hp. replace (8 - (k - 8))%nat with (16 - k)%nat in Hp by lia.
      set (p := load_big_to_host 8 (replicate (16 - k) 0 ++ take (k - 8) rid)) in *.
      assert (0 <= p < 2 ^ (bits - 64)) as Hp'.
      { pose proof (Z.pow_le_mono_r 2 (8 * Z.of_nat (k - 8)) (bits - 64) ltac:(lia) ltac:(lia)). lia. }
      assert (0 <= p < 2 ^ 64) as Hp64.
      { pose proof (Z.pow_le_mono_r 2 (bits - 64) 64 ltac:(lia) ltac:(lia)). lia. }
      split; [split; [by apply lor_64|done]|]. apply same_prefix_high; [lia|by split|done|]. apply lor_low; lia.
    + split; [by split|]. by apply same_prefix_high; [lia|split|..].
  - rewrite bool_decide_false by lia. pose proof (load_prefix rid k Hr ltac:(lia)) as Hp. set (p := load_big_to_host 8 _) in *.
    assert (0 <= p < 2 ^ bits) as Hp'.
    { pose proof (Z.pow_le_mono_r 2 (8 * Z.of_nat k) bits ltac:(lia) ltac:(lia)). lia. }
    assert (0 <= p < 2 ^ 64) as Hp64.
    { pose proof (Z.pow_le_mono_r 2 (8 * Z.of_nat k) 64 ltac:(lia) ltac:(lia)). lia. }
    split; [split; [done|by apply lor_64]|]. apply same_prefix_low; [lia| |lia]. apply lor_low; lia.
Qed.

(** ** Packets *)

(** An IPv6 packet whose transport header, with a checksum at [off], comes right after the IP
    header *)
Record plain6 (proto : Z) (off : nat) (pkt : bytes) : Prop := {
  p6_bytes : is_bytes pkt;
  p6_version : is_ipv6 pkt = true;
  p6_proto : load8 6 pkt = proto;
  p6_csum : csum_off proto = Some off;
  p6_length : (40 + off + 2 <= length pkt)%nat /\ Z.of_nat (length pkt) < 65536 + 40;
}.

Lemma extension_headers_plain fuel proto off buf : csum_off proto = Some off ->
  extension_headers (S fuel) proto 40 buf = Some (Value (Some (proto, 0%nat, 40%nat))).
Proof.
  intros Hc. cbn [extension_headers]. unfold csum_off, PROTO_TCP, PROTO_ICMP6, PROTO_UDP, PROTO_UDP_LITE in Hc.
  destruct (Z.eqb_spec proto 0) as [->|]; [done|]. destruct (Z.eqb_spec proto 43) as [->|]; [done|].
  destruct (Z.eqb_spec proto 60) as [->|]; [done|]. destruct (Z.eqb_spec proto 44) as [->|]; [done|]. done.
Qed.

(** The two packets have the same length and the same bytes, but for the addresses
    and the checksum at [off] of the transport header. *)
Definition same_but_addresses (off : nat) (pkt pkt' : bytes) : Prop :=
  length pkt' = length pkt
  /\ forall i, ~ (8 <= i < 40)%nat -> ~ (40 + off <= i < 40 + off + 2)%nat -> pkt' !! i = pkt !! i.

Lemma same_but_addresses_trans off p1 p2 p3 :
  same_but_addresses off p1 p2 -> same_but_addresses off p2 p3 -> same_but_addresses off p1 p3.
Proof. intros [L1 S1] [L2 S2]. split; [congruence|]. intros i Hi Ho. by rewrite S2, S1. Qed.

Lemma update_same src dst os od off pkt : (40 + off + 2 <= length pkt)%nat ->
  same_but_addresses off pkt
    (update_ipv6_proto_checksum 40 0 off os od (in6_addr src) (in6_addr dst)
       (write_at 24 (in6_addr dst) (write_at 8 (in6_addr src) pkt))).
Proof.
  intros Hl. set (b1 := write_at 24 (in6_addr dst) (write_at 8 (in6_addr src) pkt)).
  assert (length b1 = length pkt) as El by (unfold b1; buf_len).
  assert (forall i, ~ (8 <= i < 40)%nat -> b1 !! i = pkt !! i) as Hb.
  { intros i Hi. unfold b1. rewrite !lookup_write_at by buf_len. rewrite !length_in6_addr. by rewrite !decide_False by lia. }
  unfold update_ipv6_proto_checksum. case_match; [split; auto|]. unfold store. split.
  - rewrite length_write_at; [done|]. rewrite length_le_bytes. lia.
  - intros i Hi Ho. rewrite lookup_write_at by (rewrite length_le_bytes; lia).
    rewrite length_le_bytes, decide_False by lia. by apply Hb.
Qed.

Lemma update_plain6 src dst proto off pkt : plain6 proto off pkt -> is_ipv6_addr src -> is_ipv6_addr dst ->
  exists pkt', update_ipv6_address src dst None pkt = Value pkt' /\ plain6 proto off pkt' /\
    source_ipv6 pkt' = Some src /\ dest_ipv6 pkt' = Some dst /\ same_but_addresses off pkt pkt' /\
    (checksum_ok (covered6 40 proto pkt') <-> checksum_ok (covered6 40 proto pkt)).
Proof.
  intros [Hb Hv Hp Hc [Hl Hlen]] Hs Hd.
  pose proof (update_same src dst (subspan 8 16 pkt) (subspan 24 16 pkt) off pkt Hl) as Hsame.
  destruct (update_ipv6_moved src dst 40 proto off pkt Hb ltac:(lia) Hl Hlen ltac:(by exists 20%nat) Hc)
    as (El & E0 & E1 & E2 & Hck).
  set (b1 := write_at 24 (in6_addr dst) (write_at 8 (in6_addr src) pkt)) in *.
  set (b2 := update_ipv6_proto_checksum 40 0 off (subspan 8 16 pkt) (subspan 24 16 pkt) (in6_addr src) (in6_addr dst) b1) in *.
  assert (length b1 = length pkt) as El1 by (unfold b1; buf_len).
  assert (load8 6 b1 = proto) as Ep1 by (unfold b1; past_writes; done).
  exists b2. unfold update_ipv6_address, IPV6_HEADER. rewrite decide_False by lia. fold b1.
  rewrite El1, Ep1. destruct (length pkt) as [|fuel] eqn:Ef; [lia|].
  rewrite (extension_headers_plain fuel proto off) by done. rewrite Hc. fold b2.
  assert (is_ipv6 b2 = true) as Hv2.
  { unfold is_ipv6, ip_version in *. rewrite El, E0. by rewrite Ef in Hv. }
  split; [done|]. split; [split|].
  - assert (is_bytes b1) as Hb1 by (unfold b1; auto using is_bytes_write_at, is_bytes_in6_addr).
    unfold b2, update_ipv6_proto_checksum. case_match; [done|]. apply is_bytes_write_at; auto with router.
  - done.
  - unfold b2, update_ipv6_proto_checksum. case_match; [done|]. unfold store. past_writes; done.
  - done.
  - rewrite El. lia.
  - unfold source_ipv6, dest_ipv6. rewrite Hv2, E1, E2. destruct src, dst. rewrite !ipv6_of_in6 by done.
    split_and!; done.
Qed.

Definition tun_reached (keep : nat) (t : TunEndpoint) : Prop :=
  exists contains4 contains6 n4 n6 me reserved4 reserved6 events, net_ok n4 /\ net_ok n6 /\
    tun_run keep events (TunEndpoint_new contains4 contains6 n4 n6 me reserved4 reserved6) = Some t.

Lemma tun_reached_ok keep t : tun_reached keep t -> tun_ok t.
Proof.
  intros (c4 & c6 & n4 & n6 & me & r4 & r6 & events & Hn4 & Hn6 & Hrun).
  destruct (tun_run_ok keep events _ (tun_new_ok c4 c6 n4 n6 me r4 r6 Hn4 Hn6)) as (t' & Hrun' & Ht & _); [cbn; lia|].
  rewrite Hrun in Hrun'. by simplify_eq.
Qed.

(** The mapping of a remote leads back to it. *)
Lemma map6_remote keep remote t ip t' : tun_reached keep t -> map6 remote t = Some (Ok ip, t') ->
  remote_of (ipv6_mapping t') ip = Some remote /\ local_of (ipv6_mapping t') remote = Some ip.
Proof.
  intros Hreach Hm. destruct (map6_spec remote t (tun_reached_ok keep t Hreach)) as (r & t2 & Hm2 & Hok & _ & _ & _ & Hr).
  rewrite Hm in Hm2. simplify_eq. destruct Hr as [Hr _]. split; [|done]. by apply (tun_map6 _ Hok).
Qed.

Lemma is_ipv6_not_ipv4 pkt : is_ipv6 pkt = true -> is_ipv4 pkt = false.
Proof.
  unfold is_ipv6, is_ipv4. intros [_ H6%Z.eqb_eq]%andb_prop. rewrite H6. by rewrite andb_false_r.
Qed.

Lemma outbound_plain6 session proto off pkt remote ip t : plain6 proto off pkt -> dest_ipv6 pkt = Some ip ->
  remote_of (ipv6_mapping t) ip = Some remote -> session remote = true ->
  exists data, handle_outbound_packet session pkt t = Value [SendSessionData remote data (protocol data)] /\
    plain6 proto off data /\ source_ipv6 data = Some (mkIPv6 0 0) /\ dest_ipv6 data = Some (mkIPv6 0 0) /\
    same_but_addresses off pkt data /\
    (checksum_ok (covered6 40 proto data) <-> checksum_ok (covered6 40 proto pkt)).
Proof.
  intros Hp Hd Hr Hs. pose proof (p6_version _ _ _ Hp) as Hv.
  destruct (update_plain6 (mkIPv6 0 0) (mkIPv6 0 0) proto off pkt Hp) as (data & Hu & Hpd & Hsrc & Hdst & Hsame & Hck);
    [unfold is_ipv6_addr; cbn; lia..|].
  exists data. split; [|done]. unfold handle_outbound_packet, clear_addresses.
  rewrite (is_ipv6_not_ipv4 pkt Hv), Hv, Hd. cbn [negb andb mbind option_bind]. rewrite Hr, Hu. cbn [deref_bind]. by rewrite Hs.
Qed.

(** C31. An IPv6 packet whose TCP, UDP, UDP-Lite or ICMPv6 header follows the IP
    header directly goes through the tunnel with its addresses translated at both ends: sent
    to the local address of a remote it is handed to the session with that remote, without the
    local addresses; at the other end it comes out with the sender's local address there as
    its source and the device's own as its destination. It then has the same length and every
    byte it had, but for the addresses and the transport checksum, and the one's complement
    sum of what that checksum covers is right exactly when it was. (A checksum of 0xffff is
    written as 0, which has the same sum.) An answer to that source goes back to the sender. *)
Theorem packet_through_tunnel keep ra rb ta ta' tb tb' ipa ipb session session' proto off pkt :
  tun_reached keep ta -> map6 rb ta = Some (Ok ipb, ta') ->
  tun_reached keep tb -> map6 ra tb = Some (Ok ipa, tb') ->
  is_ipv6_addr ipa -> is_ipv6_addr (net_ip (local_ipv6_net tb')) ->
  plain6 proto off pkt -> dest_ipv6 pkt = Some ipb -> session rb = true -> session' ra = true ->
  exists data pkt', handle_outbound_packet session pkt ta' = Value [SendSessionData rb data (protocol data)] /\
    source_ipv6 data = Some (mkIPv6 0 0) /\ dest_ipv6 data = Some (mkIPv6 0 0) /\
    handle_inbound_packet data ra tb' = Value [WritePacket pkt'] /\
    source_ipv6 pkt' = Some ipa /\ dest_ipv6 pkt' = Some (net_ip (local_ipv6_net tb')) /\
    same_but_addresses off pkt pkt' /\
    (checksum_ok (covered6 40 proto pkt') <-> checksum_ok (covered6 40 proto pkt)) /\
    forall proto' off' reply, plain6 proto' off' reply -> dest_ipv6 reply = source_ipv6 pkt' ->
      exists data', handle_outbound_packet session' reply tb' = Value [SendSessionData ra data' (protocol data')].
Proof.
  intros Hta Hma Htb Hmb Hipa Hown Hp Hd Hs Hs'.
  destruct (map6_remote keep rb ta ipb ta' Hta Hma) as [Hra _]. destruct (map6_remote keep ra tb ipa tb' Htb Hmb) as [Hrb Hlb].
  destruct (outbound_plain6 session proto off pkt rb ipb ta' Hp Hd Hra Hs) as (data & Hout & Hpd & Hsrc & Hdst & Hsame & Hck).
  destruct (update_plain6 ipa (net_ip (local_ipv6_net tb')) proto off data Hpd Hipa Hown)
    as (pkt' & Hu & Hp' & Hsrc' & Hdst' & Hsame' & Hck').
  exists data, pkt'. split; [done|]. split; [done|]. split; [done|]. split.
  { unfold handle_inbound_packet. rewrite (is_ipv6_not_ipv4 data (p6_version _ _ _ Hpd)), Hlb, Hu. done. }
  split; [done|]. split; [done|]. split; [by eapply same_but_addresses_trans|].
  split; [by rewrite Hck'|]. intros proto' off' reply Hreply Hd'. rewrite Hsrc' in Hd'.
  destruct (outbound_plain6 session' proto' off' reply ra ipa tb' Hreply Hd' Hrb Hs') as (data' & Hout' & _). by exists data'.
Qed.
End TunProofs.

(** ** Examples *)
#[export] Instance ipv4_address : IPAddress Z := {
  ip_valid a := 0 <= a < 2 ^ 32;
  ip_val a := a;
  next_ip a := if a + 1 <? 2 ^ 32 then Some (a + 1) else None;
}.
#[export] Instance ipv4_address_laws : IPAddressLaws Z.
Proof.
  split; cbn.
  - done.
  - intros a b Ha. destruct (Z.ltb_spec (a + 1) (2 ^ 32)); [|done]. intros [= <-]. lia.
  - intros a b Ha Hb. destruct (Z.ltb_spec (a + 1) (2 ^ 32)); [done|]. lia.
Qed.

#[export] Instance ipv6_address : IPAddress ipv6 := {
  ip_valid := is_ipv6_addr;
  ip_val := ipv6_val;
  next_ip a := if lo a + 1 <? 2 ^ 64 then Some (mkIPv6 (hi a) (lo a + 1))
               else if hi a + 1 <? 2 ^ 64 then Some (mkIPv6 (hi a + 1) 0) else None;
}.
#[export] Instance ipv6_address_laws : IPAddressLaws ipv6.
Proof.
  split; cbn; unfold is_ipv6_addr, ipv6_val.
  - intros [ha la] [hb lb]; cbn. intros Ha Hb Heq. f_equal; lia.
  - intros [ha la] b Ha; cbn in *. destruct (Z.ltb_spec (la + 1) (2 ^ 64)); [intros [= <-]; cbn; lia|].
    destruct (Z.ltb_spec (ha + 1) (2 ^ 64)); [intros [= <-]; cbn; lia|done].
  - intros [ha la] [hb lb] Ha Hb; cbn in *. destruct (Z.ltb_spec (la + 1) (2 ^ 64)); [done|].
    destruct (Z.ltb_spec (ha + 1) (2 ^ 64)); [done|]. lia.
Qed.

Definition some_remote (x : Z) : NetworkAddress := mkNetAddr (replicate 32 x) true.
Definition small_net4 : Net Z := mkNet 0xac100001 29 0xac100000 0xac100006.
Definition sesh_net6 : Net ipv6 :=
  mkNet (mkIPv6 0xfd2e736573680000 1) 64 (mkIPv6 0xfd2e736573680000 0) (mkIPv6 0xfd2e736573680000 (2 ^ 64 - 2)).
Definition tun_example (me : Z) : TunEndpoint :=
  TunEndpoint_new (fun _ => true) (fun _ => true) small_net4 sesh_net6 (some_remote me)
    [(some_remote 50, 0xac100004)] [].

Lemma small_net4_ok : net_ok small_net4.
Proof. unfold net_ok, small_net4. cbn. lia. Qed.
Lemma sesh_net6_ok : net_ok sesh_net6.
Proof. unfold net_ok, sesh_net6, ip_valid, ip_val. cbn. unfold is_ipv6_addr, ipv6_val. cbn. lia. Qed.
Lemma tun_example_reached keep me : tun_reached (ox := bencode) keep (tun_example me).
Proof.
  exists (fun _ => true), (fun _ => true), small_net4, sesh_net6, (some_remote me), [(some_remote 50, 0xac100004)], [], [].
  split; [apply small_net4_ok|]. split; [apply sesh_net6_ok|done].
Qed.

Lemma tun_tables_agree_witness : exists t,
  tun_run (ox := bencode) 1 [EvMap4 (some_remote 2); EvMap6 (some_remote 2); EvMap4 (some_remote 3); EvExpire (some_remote 2);
                             EvExpire (some_remote 3); EvMap4 (some_remote 4)] (tun_example 1) = Some t /\
  NoDup (expired t).*2 /\ (length (expired t) <= 1)%nat.
Proof.
  destruct (tun_tables_agree (ox := bencode) (fun _ => true) (fun _ => true) small_net4 sesh_net6 (some_remote 1)
    [(some_remote 50, 0xac100004)] [] 1
    [EvMap4 (some_remote 2); EvMap6 (some_remote 2); EvMap4 (some_remote 3); EvExpire (some_remote 2);
     EvExpire (some_remote 3); EvMap4 (some_remote 4)] small_net4_ok sesh_net6_ok) as (t & Hrun & _ & _ & Hn & Hl & _).
  exists t. split; [exact Hrun|]. split; [exact Hn|exact Hl].
Defined.

(** Endpoint 1 maps remote 2 and endpoint 2 maps remote 1; a UDP packet between them *)
Definition ip_at (me remote : Z) : ipv6 :=
  match map6 (ox := bencode) (some_remote remote) (tun_example me) with Some (Ok ip, _) => ip | _ => mkIPv6 0 0 end.
Definition tun_with (me remote : Z) : TunEndpoint :=
  match map6 (ox := bencode) (some_remote remote) (tun_example me) with Some (_, t) => t | None => tun_example me end.
Definition tunnel_packet : bytes := make_udp_packet (net_ip sesh_net6) 4000 (ip_at 1 2) 53 [1; 2; 3; 4].

Lemma tunnel_packet_plain : plain6 17 6 tunnel_packet.
Proof.
  split; [apply (bool_decide_eq_true_1 (is_bytes tunnel_packet)); vm_compute; reflexivity|vm_compute; reflexivity..|].
  replace (length tunnel_packet) with 52%nat by (vm_compute; reflexivity). lia.
Qed.

Lemma packet_through_tunnel_witness : exists data pkt',
  handle_outbound_packet (fun _ => true) tunnel_packet (tun_with 1 2) = Value [SendSessionData (some_remote 2) data (protocol data)] /\
  handle_inbound_packet data (some_remote 1) (tun_with 2 1) = Value [WritePacket pkt'] /\
  source_ipv6 pkt' = Some (ip_at 2 1) /\ dest_ipv6 pkt' = Some (net_ip sesh_net6).
Proof.
  assert (map6 (ox := bencode) (some_remote 2) (tun_example 1) = Some (Ok (ip_at 1 2), tun_with 1 2)) as Ha by (vm_compute; reflexivity).
  assert (map6 (ox := bencode) (some_remote 1) (tun_example 2) = Some (Ok (ip_at 2 1), tun_with 2 1)) as Hb by (vm_compute; reflexivity).
  assert (is_ipv6_addr (ip_at 2 1)) as Hip
    by (split; split; vm_compute; first [reflexivity|discriminate]).
  assert (net_ip (local_ipv6_net (tun_with 2 1)) = net_ip sesh_net6) as Hown by (vm_compute; reflexivity).
  assert (is_ipv6_addr (net_ip (local_ipv6_net (tun_with 2 1)))) as Hown6
    by (rewrite Hown; apply (proj1 (proj2 (proj1 sesh_net6_ok)))).
  assert (dest_ipv6 tunnel_packet = Some (ip_at 1 2)) as Hd by (vm_compute; reflexivity).
  destruct (packet_through_tunnel (ox := bencode) 1 (some_remote 1) (some_remote 2) (tun_example 1) (tun_with 1 2)
    (tun_example 2) (tun_with 2 1) (ip_at 2 1) (ip_at 1 2) (fun _ => true) (fun _ => true) 17 6 tunnel_packet
    (tun_example_reached 1 1) Ha (tun_example_reached 1 2) Hb Hip Hown6 tunnel_packet_plain Hd eq_refl eq_refl)
    as (data & pkt' & Hout & _ & _ & Hin & Hsrc & Hdst & _).
  rewrite Hown in Hdst. exists data, pkt'. split; [exact Hout|]. split; [exact Hin|]. split; [exact Hsrc|exact Hdst].
Defined.

(** ** An address in use is taken away

    A remote whose session was closed and opened again keeps its place in the list of expired
    remotes, so that its address is removed while the session is open. *)
Lemma reused_address_pruned :
  (fun t => local_of (ipv6_mapping t) (some_remote 2)) <$> tun_run (ox := bencode) 1
      [EvMap6 (some_remote 2); EvExpire (some_remote 2); EvMap6 (some_remote 2); EvExpire (some_remote 3)] (tun_example 1)
  = Some None.
Proof. vm_compute. reflexivity. Qed.

(** A reserved address goes the same way, and the remote gets another one afterwards. *)
Lemma reserved_address_pruned :
  (fun r => r.1) <$> (tun_run (ox := bencode) 0 [EvExpire (some_remote 50)] (tun_example 1) ≫= map4 (some_remote 50))
  = Some (Ok (Some 0xac100002)).
Proof. vm_compute. reflexivity. Qed.
