(* ===== verification/UdpPorts.v ===== *)
(** * Mapped ports of remotes (handlers/session.cpp, session/session.cpp)

    An embedded client reaches a port of a remote through a socket on the local host.  For UDP,
    each port an application sends from is given a pseudo port towards the remote, and answers
    to the pseudo port go back to the application through the socket; for TCP, connections to
    the socket are tunnelled.  Mappings are counted, and go away with their last holder.

    Sockets and listeners are known by their local port, which the operating system chooses: it
    is an argument, [None] when opening the socket throws.  The results of
    [initiate_remote_session] are arguments, too. *)

From Stdlib Require Import ZArith Lia.
From stdpp Require Import base list numbers strings gmap.
From coqutil Require Import Datatypes.RecordSettersUsingExistingGetters.
From S2P Require Import Prelude Oxenc Session IpPacket Tun.

Local Open Scope Z_scope.
Local Open Scope router_scope.

Abbreviation mapped_remote := (NetworkAddress * Z)%type (only parsing).

Record udp_handle := mkUdpHandle { uh_socket : Z; cports : list mapped_remote; uh_holders : Z }.
Record tcp_handle := mkTcpHandle { th_listener : Z; th_holders : Z }.

Record Ports := mkPorts {
  udp_client_ports : gmap mapped_remote Z;
  udp_return_ports : gmap mapped_remote Z;
  udp_handles : gmap mapped_remote udp_handle;
  tcp_handles : gmap mapped_remote tcp_handle;
  next_udp_client_port : Z;
}.
Definition Ports_new : Ports := mkPorts ∅ ∅ ∅ ∅ 0.

Inductive PortEffect :=
| SendUdp (remote : NetworkAddress) (pkt : bytes)
| SocketSend (socket app_port : Z) (payload : bytes)
| ConnectStream (remote : NetworkAddress) (port : Z)
| CloseConnections (remote : NetworkAddress) (port : Z).

(** ** UDP *)

(** [map_udp_remote_port(remote, port)]; [draw] is the random port *)
Definition map_udp_remote_port (draw : Z) (initiated : outcome unit bool) (socket : option Z) (remote : NetworkAddress)
    (port : Z) (s : Ports) : outcome unit (option Z) * Ports :=
  let s := if next_udp_client_port s =? 0 then s <| next_udp_client_port := draw |> else s in
  match initiated with
  | Throw e => (Throw e, s)
  | Ok false => (Ok None, s)
  | Ok true =>
    let target := (remote, port) in
    match udp_handles s !! target with
    | Some h => (Ok (Some (uh_socket h)), s <| udp_handles ::= <[target := h <| uh_holders := uh_holders h + 1 |>]> |>)
    | None =>
      match socket with
      | None => (Throw tt, s)
      | Some local => (Ok (Some local), s <| udp_handles ::= <[target := mkUdpHandle local [] 1]> |>)
      end
    end
  end.

(** The search for a pseudo port: [None] is running out of fuel, [Some None] out of ports *)
Definition next_port (port : Z) : Z := let port := wrap 16 (port + 1) in if port <? 1024 then 1024 else port.
Fixpoint find_port (fuel : nat) (taken : Z -> bool) (start port : Z) : option (option Z) :=
  match fuel with
  | O => None
  | S fuel =>
    if taken port then
      let port := next_port port in if port =? start then Some None else find_port fuel taken start port
    else Some (Some port)
  end.

(** All the ports from 1024 on *)
Definition port_fuel : nat := Z.to_nat 64512.

(** The callback of the mapping's socket *)
Definition udp_from_app (target : mapped_remote) (initiated : outcome unit bool) (app_source_port : Z) (data : bytes)
    (s : Ports) : option (list PortEffect * Ports) :=
  match initiated with
  | Throw _ | Ok false => Some ([], s)
  | Ok true =>
    let instance := (target.1, app_source_port) in
    let send (mapped_port : Z) := [SendUdp target.1 (make_udp_packet (mkIPv6 0 0) mapped_port (mkIPv6 0 0) target.2 data)] in
    match default 0 (udp_client_ports s !! instance) with
    | 0 =>
      let taken p := bool_decide (is_Some (udp_return_ports s !! (target.1, p))) in
      p ← find_port port_fuel taken (next_udp_client_port s) (next_udp_client_port s);
      match p with
      | None => Some ([], s <| udp_client_ports ::= delete instance |>)
      | Some p =>
        let s := s <| udp_return_ports ::= <[(target.1, p) := app_source_port]> |> in
        let s := s <| udp_handles ::= alter (fun h => h <| cports ::= (fun l => l ++ [instance]) |>) target |> in
        Some (send p, s <| udp_client_ports ::= <[instance := p]> |>)
      end
    | mapped_port => Some (send mapped_port, s)
    end
  end.

(** The loop of [unmap_udp_remote_port] over the ports of the handle *)
Definition drop_cport (remote : NetworkAddress) (s : Ports) (c : mapped_remote) : Ports :=
  match udp_client_ports s !! c with
  | Some p => s <| udp_return_ports ::= delete (remote, p) |> <| udp_client_ports ::= delete c |>
  | None => s
  end.

(** [unmap_udp_remote_port(remote, port)] *)
Definition unmap_udp_remote_port (remote : NetworkAddress) (port : Z) (s : Ports) : Ports :=
  match udp_handles s !! (remote, port) with
  | None => s
  | Some h =>
    let h := h <| uh_holders := uh_holders h - 1 |> in
    let s := s <| udp_handles ::= <[(remote, port) := h]> |> in
    if 0 <? uh_holders h then s
    else (foldl (drop_cport remote) s (cports h)) <| udp_handles ::= delete (remote, port) |>
  end.

(** [Session::handle_udp_from_remote(pkt)] of the session with [remote] *)
Definition handle_udp_from_remote (remote : NetworkAddress) (pkt : bytes) (s : Ports) : list PortEffect :=
  if negb (is_ipv4 pkt || is_ipv6 pkt) || negb (protocol pkt =? PROTO_UDP) then []
  else
    match source_port pkt, dest_port pkt with
    | Some source_port, Some dest_port =>
      match udp_handles s !! (remote, source_port), udp_return_ports s !! (remote, dest_port) with
      | Some h, Some app_port => [SocketSend (uh_socket h) app_port (udp_data pkt)]
      | _, _ => []
      end
    | _, _ => []
    end.

(** ** TCP *)

(** [tunnel_tcp_connection(target, bev, fd)]; [accepts] is [remote_accepts_tcp()] *)
Definition tunnel_tcp_connection (target : mapped_remote) (initiated : outcome unit bool) (accepts : option bool)
    : list PortEffect :=
  match initiated with
  | Throw _ | Ok false => []
  | Ok true => if bool_decide (accepts = Some false) then [] else [ConnectStream target.1 target.2]
  end.

(** [map_tcp_remote_port(remote, port)] *)
Definition map_tcp_remote_port (initiated : outcome unit bool) (accepts : option bool) (listener : option Z)
    (remote : NetworkAddress) (port : Z) (s : Ports) : outcome unit (option Z) * Ports :=
  match initiated with
  | Throw e => (Throw e, s)
  | Ok false => (Ok None, s)
  | Ok true =>
    if bool_decide (accepts = Some false) then (Ok None, s)
    else
      let target := (remote, port) in
      match tcp_handles s !! target with
      | Some h => (Ok (Some (th_listener h)), s <| tcp_handles ::= <[target := h <| th_holders := th_holders h + 1 |>]> |>)
      | None =>
        match listener with
        | None => (Ok None, s)
        | Some local => (Ok (Some local), s <| tcp_handles ::= <[target := mkTcpHandle local 1]> |>)
        end
      end
  end.

(** [unmap_tcp_remote_port(remote, port)]; [has_tunnel] is whether a session with a tunnel exists *)
Definition unmap_tcp_remote_port (has_tunnel : bool) (remote : NetworkAddress) (port : Z) (s : Ports)
    : list PortEffect * Ports :=
  match tcp_handles s !! (remote, port) with
  | None => ([], s)
  | Some h =>
    let h := h <| th_holders := th_holders h - 1 |> in
    if 0 <? th_holders h then ([], s <| tcp_handles ::= <[(remote, port) := h]> |>)
    else (if has_tunnel then [CloseConnections remote port] else [], s <| tcp_handles ::= delete (remote, port) |>)
  end.

(** ** The search for a pseudo port *)
Definition is_port (p : Z) : Prop := 1024 <= p < 65536.

(** The port after [k] steps *)
Definition port_at (start k : Z) : Z := 1024 + (start - 1024 + k) mod 64512.

Lemma port_at_range start k : is_port (port_at start k).
Proof. unfold is_port, port_at. pose proof (Z.mod_pos_bound (start - 1024 + k) 64512 ltac:(lia)). lia. Qed.

Lemma port_at_0 start : is_port start -> port_at start 0 = start.
Proof. intros Hs. unfold port_at, is_port in *. rewrite Z.mod_small by lia. lia. Qed.

Lemma next_port_at start k : next_port (port_at start k) = port_at start (k + 1).
Proof.
  pose proof (port_at_range start k) as Hr. unfold next_port, wrap. unfold port_at in *. unfold is_port in Hr.
  set (x := start - 1024 + k) in *. replace (start - 1024 + (k + 1)) with (x + 1) by lia.
  rewrite <-(Zplus_mod_idemp_l x 1 64512). pose proof (Z.mod_pos_bound x 64512 ltac:(lia)) as Hx.
  generalize dependent (x mod 64512). intros y Hy _. destruct (decide (y = 64511)) as [->|Hne]; [done|].
  rewrite (Z.mod_small (1024 + y + 1)), (Z.mod_small (y + 1)) by lia. destruct (Z.ltb_spec (1024 + y + 1) 1024); lia.
Qed.

Lemma port_at_all start q : is_port start -> is_port q -> exists k, 0 <= k < 64512 /\ port_at start k = q.
Proof.
  intros Hs Hq. exists ((q - start) mod 64512). split; [apply Z.mod_pos_bound; lia|]. unfold port_at, is_port in *.
  rewrite Zplus_mod_idemp_r. replace (start - 1024 + (q - start)) with (q - 1024) by lia. rewrite Z.mod_small by lia. lia.
Qed.

Lemma port_at_start start k : is_port start -> 0 < k <= 64512 -> port_at start k = start -> k = 64512.
Proof.
  intros Hs Hk E. unfold port_at, is_port in *.
  destruct (decide (start - 1024 + k < 64512)); [rewrite Z.mod_small in E by lia; lia|].
  replace (start - 1024 + k) with (start - 1024 + k - 64512 + 1 * 64512) in E by lia. rewrite Z.mod_add in E by lia.
  destruct (decide (k = 64512)); [done|]. rewrite Z.mod_small in E by lia. lia.
Qed.

Lemma find_port_from taken start k fuel : is_port start -> 0 <= k < 64512 -> 64512 - k <= Z.of_nat fuel ->
  (forall j, 0 <= j < k -> taken (port_at start j) = true) ->
  exists r, find_port fuel taken start (port_at start k) = Some r /\
    match r with
    | Some p => is_port p /\ taken p = false
    | None => forall q, is_port q -> taken q = true
    end.
Proof.
  intros Hs. revert k. induction fuel as [|fuel IH]; intros k Hk Hf Hprev; [lia|]. cbn [find_port].
  destruct (taken (port_at start k)) eqn:Et; [|exists (Some (port_at start k)); split; [done|]; split; [apply port_at_range|done]].
  rewrite next_port_at.
  assert (Hprev' : forall j, 0 <= j < k + 1 -> taken (port_at start j) = true).
  { intros j Hj. destruct (decide (j = k)) as [->|]; [done|]. apply Hprev. lia. }
  destruct (Z.eqb_spec (port_at start (k + 1)) start) as [E|E].
  - exists None. split; [done|]. intros q Hq. apply port_at_start in E; [|done|lia].
    destruct (port_at_all start q Hs Hq) as (j & Hj & <-). apply Hprev'. lia.
  - apply IH; [|lia|done]. split; [lia|]. destruct (decide (k + 1 = 64512)) as [Ek|]; [|lia].
    exfalso. apply E. rewrite Ek. unfold port_at, is_port in *.
    replace (start - 1024 + 64512) with (start - 1024 + 1 * 64512) by lia. rewrite Z.mod_add, Z.mod_small by lia. lia.
Qed.

(** The search ends, with a free port unless there is none. *)
Lemma find_port_spec taken start : is_port start -> exists r, find_port port_fuel taken start start = Some r /\
  match r with
  | Some p => is_port p /\ taken p = false
  | None => forall q, is_port q -> taken q = true
  end.
Proof.
  intros Hs. pose proof (find_port_from taken start 0 port_fuel Hs) as Hf. rewrite (port_at_0 start Hs) in Hf.
  apply Hf; [lia| |lia]. unfold port_fuel. rewrite Z2Nat.id by lia. lia.
Qed.

(** ** The tables *)
Record ports_ok (s : Ports) : Prop := {
  po_client r a p : udp_client_ports s !! (r, a) = Some p -> is_port p /\ udp_return_ports s !! (r, p) = Some a;
  po_return r a p : udp_return_ports s !! (r, p) = Some a -> udp_client_ports s !! (r, a) = Some p;
  po_holder r a p : udp_client_ports s !! (r, a) = Some p -> exists port h, udp_handles s !! (r, port) = Some h /\ (r, a) ∈ cports h;
  po_cports r port h : udp_handles s !! (r, port) = Some h -> Forall (fun c => c.1 = r) (cports h) /\ 0 < uh_holders h;
  po_next : if decide (next_udp_client_port s = 0) then udp_handles s = ∅ else is_port (next_udp_client_port s);
}.

Lemma ports_new_ok : ports_ok Ports_new.
Proof. split; cbn; intros; try (by rewrite lookup_empty in * ); by case_decide. Qed.

(** What a handle keeps when [f] changes handles but no port *)
Lemma handles_ok s f :
  ports_ok s -> (if decide (next_udp_client_port s = 0) then f (udp_handles s) = ∅ else True) ->
  (forall r port h, udp_handles s !! (r, port) = Some h -> exists h', f (udp_handles s) !! (r, port) = Some h' /\ (forall c, c ∈ cports h -> c ∈ cports h')) ->
  (forall r port h, f (udp_handles s) !! (r, port) = Some h -> Forall (fun c => c.1 = r) (cports h) /\ 0 < uh_holders h) ->
  ports_ok (s <| udp_handles ::= f |>).
Proof.
  intros [P1 P2 P3 P4 P5] Hn Hkeep Hnew. split; cbn.
  - exact P1.
  - exact P2.
  - intros r a p Hc. destruct (P3 r a p Hc) as (port & h & Hh & Hin). destruct (Hkeep r port h Hh) as (h' & Hh' & Hsub).
    exists port, h'. split; [done|]. by apply Hsub.
  - exact Hnew.
  - by case_decide.
Qed.

Lemma map_udp_ok draw initiated socket remote port s : is_port draw -> ports_ok s ->
  ports_ok (map_udp_remote_port draw initiated socket remote port s).2.
Proof.
  intros Hd Hs. unfold map_udp_remote_port. cbn zeta.
  set (s0 := if next_udp_client_port s =? 0 then _ else s).
  assert (ports_ok s0 /\ is_port (next_udp_client_port s0)) as [H0 Hn].
  { subst s0. destruct Hs as [P1 P2 P3 P4 P5]. destruct (Z.eqb_spec (next_udp_client_port s) 0) as [E|E].
    - split; [|done]. split; try done. change (next_udp_client_port (s <| next_udp_client_port := draw |>)) with draw.
      rewrite decide_False by (unfold is_port in Hd; lia). done.
    - split; [by split|]. by rewrite decide_False in P5. }
  assert (next_udp_client_port s0 <> 0) as Hn0 by (unfold is_port in Hn; lia).
  destruct initiated as [[]|]; [|done|done]. destruct (udp_handles s0 !! (remote, port)) as [h|] eqn:Eh; [|destruct socket as [local|]; [|done]];
    cbn [snd]; (apply handles_ok; [done|by rewrite decide_False| |]); intros r port' h' Hh'.
  - destruct (decide ((r, port') = (remote, port))) as [[= -> ->]|Hne].
    + rewrite lookup_insert_eq. eexists. split; [done|]. rewrite Eh in Hh'. by simplify_eq.
    + rewrite lookup_insert_ne by done. by exists h'.
  - destruct (po_cports _ H0 remote port h Eh) as [Hf Hh]. destruct (decide ((r, port') = (remote, port))) as [[= -> ->]|Hne].
    + rewrite lookup_insert_eq in Hh'. injection Hh' as <-. cbn. split; [done|lia].
    + rewrite lookup_insert_ne in Hh' by done. by apply (po_cports _ H0) in Hh'.
  - destruct (decide ((r, port') = (remote, port))) as [[= -> ->]|Hne]; [congruence|].
    rewrite lookup_insert_ne by done. by exists h'.
  - destruct (decide ((r, port') = (remote, port))) as [[= -> ->]|Hne].
    + rewrite lookup_insert_eq in Hh'. injection Hh' as <-. cbn. by split.
    + rewrite lookup_insert_ne in Hh' by done. by apply (po_cports _ H0) in Hh'.
Qed.

(** A new pair of ports of a handle *)
Lemma new_port_ok s s' remote port app p h : ports_ok s -> udp_handles s !! (remote, port) = Some h -> is_port p ->
  udp_client_ports s !! (remote, app) = None -> udp_return_ports s !! (remote, p) = None ->
  udp_return_ports s' = <[(remote, p) := app]> (udp_return_ports s) ->
  udp_client_ports s' = <[(remote, app) := p]> (udp_client_ports s) ->
  udp_handles s' = alter (fun h => h <| cports ::= (fun l => l ++ [(remote, app)]) |>) (remote, port) (udp_handles s) ->
  next_udp_client_port s' = next_udp_client_port s -> ports_ok s'.
Proof.
  intros [P1 P2 P3 P4 P5] Hh Hp Hc Hr Er Ec Ehs En.
  assert (Hkeep : forall r port' h', udp_handles s !! (r, port') = Some h' ->
    exists h2, udp_handles s' !! (r, port') = Some h2 /\ forall c, c ∈ cports h' -> c ∈ cports h2).
  { intros r port' h' Hh'. rewrite Ehs. destruct (decide ((remote, port) = (r, port'))) as [[= <- <-]|Hne].
    - rewrite lookup_alter_eq, Hh'. eexists. split; [done|]. intros c Hin. cbn. apply elem_of_app. by left.
    - rewrite lookup_alter_ne by done. by exists h'. }
  split; rewrite ?Er, ?Ec.
  - intros r a q. rewrite !lookup_insert_Some. intros [[[= <- <-] <-]|[Hne Hq]]; [split; [done|by left]|].
    destruct (P1 _ _ _ Hq) as [Hq1 Hq2]. split; [done|]. right. split; [|done]. intros [= <- <-]. congruence.
  - intros r a q. rewrite !lookup_insert_Some. intros [[[= <- <-] <-]|[Hne Hq]]; [by left|].
    right. apply P2 in Hq. split; [|done]. intros [= <- <-]. congruence.
  - intros r a q. rewrite lookup_insert_Some. intros [[[= <- <-] <-]|[Hne Hq]].
    + exists port. rewrite Ehs, lookup_alter_eq, Hh. eexists. split; [done|]. cbn. apply elem_of_app. right. by apply list_elem_of_singleton.
    + destruct (P3 _ _ _ Hq) as (port' & h' & Hh' & Hin). destruct (Hkeep _ _ _ Hh') as (h2 & Hh2 & Hsub).
      exists port', h2. split; [done|]. by apply Hsub.
  - intros r port' h'. rewrite Ehs. destruct (decide ((remote, port) = (r, port'))) as [[= <- <-]|Hne].
    + rewrite lookup_alter_eq, Hh. intros [= <-]. destruct (P4 _ _ _ Hh) as [Hf Hpos]. cbn. split; [|done].
      apply Forall_app. split; [done|]. by apply Forall_singleton.
    + rewrite lookup_alter_ne by done. apply P4.
  - rewrite En. case_decide; [|done]. rewrite P5, lookup_empty in Hh. done.
Qed.

(** A packet of an application: it gets the pseudo port of its source, or a new one *)
Lemma udp_from_app_spec remote port app data s h : ports_ok s -> udp_handles s !! (remote, port) = Some h ->
  exists es s', udp_from_app (remote, port) (Ok true) app data s = Some (es, s') /\ ports_ok s' /\
    ((es = [] /\ s' = s /\
      forall p, is_port p -> is_Some (udp_return_ports s !! (remote, p))) \/
     exists p, es = [SendUdp remote (make_udp_packet (mkIPv6 0 0) p (mkIPv6 0 0) port data)] /\ is_port p /\
       udp_return_ports s' = <[(remote, p) := app]> (udp_return_ports s) /\
       udp_client_ports s' = <[(remote, app) := p]> (udp_client_ports s) /\
       (udp_return_ports s !! (remote, p) = None \/ udp_return_ports s !! (remote, p) = Some app) /\
       forall key h0, udp_handles s !! key = Some h0 -> exists h', udp_handles s' !! key = Some h' /\ uh_socket h' = uh_socket h0).
Proof.
  intros Hs Hh. unfold udp_from_app. cbn [fst snd]. pose proof Hs as [P1 P2 P3 P4 P5].
  assert (is_port (next_udp_client_port s)) as Hn.
  { case_decide; [|done]. rewrite P5, lookup_empty in Hh. done. }
  destruct (udp_client_ports s !! (remote, app)) as [p|] eqn:Ec; cbn [default].
  { destruct (P1 _ _ _ Ec) as [Hp Hr]. destruct p as [|p|p]; [unfold is_port in Hp; lia| |unfold is_port in Hp; lia].
    do 2 eexists. split; [done|]. split; [done|]. right. exists (Z.pos p). split; [done|]. split; [done|].
    rewrite !insert_id by done. split; [done|]. split; [done|]. split; [by right|].
    intros key h0 Hk. by exists h0. }
  destruct (find_port_spec (fun p => bool_decide (is_Some (udp_return_ports s !! (remote, p)))) _ Hn) as (r & -> & Hr).
  cbn [mbind option_bind]. destruct r as [p|].
  2:{ assert (s <| udp_client_ports ::= delete (remote, app) |> = s) as Es.
      { transitivity (mkPorts (delete (remote, app) (udp_client_ports s)) (udp_return_ports s) (udp_handles s) (tcp_handles s)
                        (next_udp_client_port s)); [done|]. rewrite delete_id by done. by destruct s. }
      do 2 eexists. split; [done|]. rewrite Es. split; [done|]. left. split; [done|]. split; [done|].
      intros p Hp. by apply Hr, bool_decide_eq_true in Hp. }
  destruct Hr as [Hp Hfree]. apply bool_decide_eq_false, eq_None_not_Some in Hfree.
  set (s' := s <| udp_return_ports ::= _ |> <| udp_handles ::= _ |> <| udp_client_ports ::= _ |>).
  assert (udp_return_ports s' = <[(remote, p) := app]> (udp_return_ports s)) as Er by done.
  assert (udp_client_ports s' = <[(remote, app) := p]> (udp_client_ports s)) as Ecl by done.
  assert (udp_handles s' = alter (fun h => h <| cports ::= (fun l => l ++ [(remote, app)]) |>) (remote, port) (udp_handles s)) as Ehs by done.
  assert (next_udp_client_port s' = next_udp_client_port s) as En by done. clearbody s'.
  do 2 eexists. split; [done|]. split; [|right; exists p; split; [done|]; split; [done|]; split; [done|]; split; [done|]; split; [by left|]].
  2:{ intros key h0 Hk. rewrite Ehs. destruct (decide ((remote, port) = key)) as [<-|Hne].
      - rewrite lookup_alter_eq, Hk. by eexists.
      - rewrite lookup_alter_ne by done. by exists h0. }
  by apply (new_port_ok s s' remote port app p h).
Qed.

(** *** Unmapping *)
Definition inverse (s : Ports) : Prop :=
  (forall r a p, udp_client_ports s !! (r, a) = Some p -> is_port p /\ udp_return_ports s !! (r, p) = Some a) /\
  (forall r a p, udp_return_ports s !! (r, p) = Some a -> udp_client_ports s !! (r, a) = Some p).

(** Only ports of [remote] are dropped. *)
Definition others_kept (remote : NetworkAddress) (s s' : Ports) : Prop :=
  udp_handles s' = udp_handles s /\ tcp_handles s' = tcp_handles s /\ next_udp_client_port s' = next_udp_client_port s /\
  (forall r p, r <> remote -> udp_return_ports s' !! (r, p) = udp_return_ports s !! (r, p)).

Lemma drop_cport_spec remote s c : inverse s -> c.1 = remote ->
  inverse (drop_cport remote s c) /\ others_kept remote s (drop_cport remote s c) /\
  udp_client_ports (drop_cport remote s c) = delete c (udp_client_ports s).
Proof.
  intros [I1 I2] Hc. unfold drop_cport. destruct c as [r0 a0]. cbn in Hc. subst r0.
  destruct (udp_client_ports s !! (remote, a0)) as [p0|] eqn:E.
  2:{ split; [split; assumption|]. split; [by split_and!|]. by rewrite delete_id. }
  set (s' := s <| udp_return_ports ::= _ |> <| udp_client_ports ::= _ |>).
  assert (udp_return_ports s' = delete (remote, p0) (udp_return_ports s)) as Er by done.
  assert (udp_client_ports s' = delete (remote, a0) (udp_client_ports s)) as Ec by done.
  assert (udp_handles s' = udp_handles s /\ tcp_handles s' = tcp_handles s /\
          next_udp_client_port s' = next_udp_client_port s) as (E1 & E2 & E3) by done.
  clearbody s'. destruct (I1 _ _ _ E) as [_ Hr0]. split; [split|split; [split_and!; try done|done]].
  - intros r a p. rewrite Ec, Er. rewrite !lookup_delete_Some. intros [Hne Hp]. destruct (I1 _ _ _ Hp) as [Hq Hr].
    split; [done|]. split; [|done]. intros [= <- <-]. congruence.
  - intros r a p. rewrite Ec, Er. rewrite !lookup_delete_Some. intros [Hne Hp]. apply I2 in Hp. split; [|done].
    intros [= <- <-]. congruence.
  - intros r p Hne. rewrite Er. apply lookup_delete_ne. congruence.
Qed.

Lemma drop_cports_spec remote l s : inverse s -> Forall (fun c => c.1 = remote) l ->
  let s' := foldl (drop_cport remote) s l in
  inverse s' /\ others_kept remote s s' /\
  (forall c, udp_client_ports s' !! c = if decide (c ∈ l) then None else udp_client_ports s !! c).
Proof.
  revert s. induction l as [|c l IH]; intros s Hi Hl; cbn [foldl].
  { split; [done|]. split; [by split_and!|]. intros c. by rewrite decide_False by (by intros ?%elem_of_nil). }
  apply Forall_cons in Hl as [Hc Hl]. destruct (drop_cport_spec remote s c Hi Hc) as (Hi1 & (H1 & H2 & H3 & H4) & Hc1).
  destruct (IH _ Hi1 Hl) as (Hi2 & (K1 & K2 & K3 & K4) & Hc2). split; [done|]. split.
  - split_and!; [congruence..|]. intros r p Hne. by rewrite K4, H4.
  - intros c'. rewrite Hc2, Hc1. destruct (decide (c' ∈ l)) as [Hin|Hin].
    + by rewrite decide_True by (by right).
    + destruct (decide (c' = c)) as [->|Hne]; [rewrite decide_True by left; apply lookup_delete_eq|].
      rewrite decide_False by (by intros [?|?]%elem_of_cons). by rewrite lookup_delete_ne.
Qed.

Lemma unmap_udp_ok remote port s : ports_ok s -> ports_ok (unmap_udp_remote_port remote port s).
Proof.
  intros Hs. unfold unmap_udp_remote_port. destruct (udp_handles s !! (remote, port)) as [h|] eqn:Eh; [|done]. cbn zeta.
  destruct (po_cports _ Hs remote port h Eh) as [Hf Hpos]. set (h1 := h <| uh_holders := uh_holders h - 1 |>).
  assert (uh_holders h1 = uh_holders h - 1 /\ cports h1 = cports h) as [E1 E2] by done. clearbody h1. rewrite E1.
  assert (next_udp_client_port s <> 0) as Hn.
  { intros E. pose proof (po_next _ Hs) as P5. rewrite E, decide_True in P5 by done. by rewrite P5, lookup_empty in Eh. }
  destruct (Z.ltb_spec 0 (uh_holders h - 1)).
  - apply handles_ok; [done|by rewrite decide_False| |]; intros r port' h' Hh'.
    + destruct (decide ((r, port') = (remote, port))) as [[= -> ->]|Hne].
      * rewrite lookup_insert_eq. exists h1. split; [done|]. rewrite Eh in Hh'. injection Hh' as <-. by rewrite E2.
      * rewrite lookup_insert_ne by done. by exists h'.
    + destruct (decide ((r, port') = (remote, port))) as [[= -> ->]|Hne].
      * rewrite lookup_insert_eq in Hh'. injection Hh' as <-. rewrite E1, E2. split; [done|lia].
      * rewrite lookup_insert_ne in Hh' by done. by apply (po_cports _ Hs) in Hh'.
  - rewrite E2. set (s1 := s <| udp_handles ::= _ |>).
    assert (inverse s1) as Hi by (split; [apply (po_client _ Hs)|apply (po_return _ Hs)]).
    assert (udp_handles s1 = <[(remote, port) := h1]> (udp_handles s) /\ udp_client_ports s1 = udp_client_ports s /\
            next_udp_client_port s1 = next_udp_client_port s) as (F1 & F2 & F3) by done.
    clearbody s1. destruct (drop_cports_spec remote (cports h) s1 Hi Hf) as ([I1 I2] & (K1 & _ & K3 & _) & Kc).
    set (s2 := foldl _ s1 _) in *. clearbody s2.
    set (s3 := s2 <| udp_handles ::= _ |>).
    assert (udp_handles s3 = delete (remote, port) (udp_handles s)) as G1.
    { transitivity (delete (remote, port) (udp_handles s2)); [done|]. rewrite K1, F1. apply delete_insert_eq. }
    assert (udp_client_ports s3 = udp_client_ports s2 /\ udp_return_ports s3 = udp_return_ports s2 /\
            next_udp_client_port s3 = next_udp_client_port s2) as (G2 & G3 & G4) by done. clearbody s3.
    split; rewrite ?G1, ?G2, ?G3; try done.
    + intros r a p Hc. rewrite Kc, F2 in Hc. destruct (decide _) as [|Hnin]; [done|].
      destruct (po_holder _ Hs r a p Hc) as (port' & h' & Hh' & Hin). exists port', h'. split; [|done].
      rewrite lookup_delete_ne; [done|]. intros [= <- <-]. rewrite Eh in Hh'. by simplify_eq.
    + intros r port' h' [_ Hh']%lookup_delete_Some. by apply (po_cports _ Hs) in Hh'.
    + rewrite G4, K3, F3. pose proof (po_next _ Hs) as P5. rewrite decide_False in P5 by done. by rewrite decide_False.
Qed.

(** ** Any sequence of events *)
Inductive PortEvent :=
| EvMapUdp (draw : Z) (initiated : outcome unit bool) (socket : option Z) (remote : NetworkAddress) (port : Z)
| EvApp (target : NetworkAddress * Z) (initiated : outcome unit bool) (app : Z) (data : bytes)
| EvUnmapUdp (remote : NetworkAddress) (port : Z)
| EvMapTcp (initiated : outcome unit bool) (accepts : option bool) (listener : option Z) (remote : NetworkAddress) (port : Z)
| EvUnmapTcp (has_tunnel : bool) (remote : NetworkAddress) (port : Z).

(** A packet arrives only at a socket that exists.  [None] would be a search that never ends. *)
Definition port_step (s : Ports) (ev : PortEvent) : option Ports :=
  match ev with
  | EvMapUdp draw initiated socket remote port => Some (map_udp_remote_port draw initiated socket remote port s).2
  | EvApp target initiated app data =>
    match udp_handles s !! target with
    | Some _ => snd <$> udp_from_app target initiated app data s
    | None => Some s
    end
  | EvUnmapUdp remote port => Some (unmap_udp_remote_port remote port s)
  | EvMapTcp initiated accepts listener remote port => Some (map_tcp_remote_port initiated accepts listener remote port s).2
  | EvUnmapTcp has_tunnel remote port => Some (unmap_tcp_remote_port has_tunnel remote port s).2
  end.
Fixpoint port_run (events : list PortEvent) (s : Ports) : option Ports :=
  match events with [] => Some s | ev :: events => s ← port_step s ev; port_run events s end.

(** The random port is in its range. *)
Definition event_ok (ev : PortEvent) : Prop := match ev with EvMapUdp draw _ _ _ _ => 49152 <= draw <= 60000 | _ => True end.
Definition keeps_remote (remote : NetworkAddress) (ev : PortEvent) : Prop :=
  match ev with EvUnmapUdp r _ => r <> remote | _ => True end.

Lemma tcp_only_ok s s' : ports_ok s -> udp_client_ports s' = udp_client_ports s -> udp_return_ports s' = udp_return_ports s ->
  udp_handles s' = udp_handles s -> next_udp_client_port s' = next_udp_client_port s -> ports_ok s'.
Proof. intros [P1 P2 P3 P4 P5] E1 E2 E3 E4. split; rewrite ?E1, ?E2, ?E3, ?E4; done. Qed.

(** What a TCP operation leaves alone *)
Definition same_udp (s s' : Ports) : Prop :=
  udp_client_ports s' = udp_client_ports s /\ udp_return_ports s' = udp_return_ports s /\
  udp_handles s' = udp_handles s /\ next_udp_client_port s' = next_udp_client_port s.

Lemma map_tcp_same initiated accepts listener remote port s :
  same_udp s (map_tcp_remote_port initiated accepts listener remote port s).2.
Proof.
  unfold map_tcp_remote_port. destruct initiated as [[]|]; [|done|done]. destruct (bool_decide _); [done|].
  destruct (tcp_handles s !! _); [done|]. by destruct listener.
Qed.
Lemma unmap_tcp_same has_tunnel remote port s : same_udp s (unmap_tcp_remote_port has_tunnel remote port s).2.
Proof. unfold unmap_tcp_remote_port. destruct (tcp_handles s !! _); [|done]. cbn zeta. by destruct (0 <? _). Qed.

Lemma port_step_ok s ev : ports_ok s -> event_ok ev -> exists s', port_step s ev = Some s' /\ ports_ok s'.
Proof.
  intros Hs He. destruct ev as [draw init sock remote port|[remote port] init app data|remote port|init acc lst remote port|tun remote port]; cbn.
  - eexists. split; [done|]. apply map_udp_ok; [|done]. cbn in He. unfold is_port. lia.
  - destruct (udp_handles s !! (remote, port)) as [h|] eqn:Eh; [|by eexists]. destruct init as [[]|]; [|by eexists..].
    destruct (udp_from_app_spec remote port app data s h Hs Eh) as (es & s' & -> & Hok & _). by exists s'.
  - eexists. split; [done|]. by apply unmap_udp_ok.
  - eexists. split; [done|]. destruct (map_tcp_same init acc lst remote port s) as (? & ? & ? & ?). by eapply tcp_only_ok.
  - eexists. split; [done|]. destruct (unmap_tcp_same tun remote port s) as (? & ? & ? & ?). by eapply tcp_only_ok.
Qed.

Lemma port_run_ok events s : ports_ok s -> Forall event_ok events -> exists s', port_run events s = Some s' /\ ports_ok s'.
Proof.
  revert s. induction events as [|ev events IH]; intros s Hs Hev; [by exists s|]. apply Forall_cons in Hev as [He Hev].
  destruct (port_step_ok s ev Hs He) as (s1 & E & Hs1). cbn. rewrite E. by apply IH.
Qed.

(** ** Answers come back *)

(** The socket of [remote]:[port], and the application behind the pseudo port [p] *)
Definition linked (remote : NetworkAddress) (port socket p app : Z) (s : Ports) : Prop :=
  (exists h, udp_handles s !! (remote, port) = Some h /\ uh_socket h = socket) /\
  udp_return_ports s !! (remote, p) = Some app.

Lemma unmap_udp_linked r port' remote port socket p app s : ports_ok s -> r <> remote -> linked remote port socket p app s ->
  linked remote port socket p app (unmap_udp_remote_port r port' s).
Proof.
  intros Hs Hne [(h & Hh & Hsock) Hr]. unfold unmap_udp_remote_port.
  destruct (udp_handles s !! (r, port')) as [h'|] eqn:E; [|split; [by exists h|done]]. cbn zeta.
  set (h1 := h' <| uh_holders := uh_holders h' - 1 |>). assert (cports h1 = cports h') as Eh1 by done. clearbody h1.
  set (s1 := s <| udp_handles ::= _ |>).
  assert (udp_handles s1 = <[(r, port') := h1]> (udp_handles s) /\ udp_return_ports s1 = udp_return_ports s /\
          udp_client_ports s1 = udp_client_ports s) as (F1 & F2 & F3) by done.
  assert (linked remote port socket p app s1) as Hl1.
  { split; [|by rewrite F2]. exists h. split; [|done]. rewrite F1, lookup_insert_ne by congruence. done. }
  assert (inverse s1) as Hi by (split; rewrite ?F2, ?F3; [apply (po_client _ Hs)|apply (po_return _ Hs)]).
  clearbody s1. destruct (0 <? _); [done|]. destruct (po_cports _ Hs r port' h' E) as [Hf _]. rewrite Eh1.
  destruct (drop_cports_spec r (cports h') s1 Hi Hf) as (_ & (K1 & _ & _ & K4) & _). destruct Hl1 as [(h2 & Hh2 & Hs2) Hr2].
  split; [|cbn; by rewrite K4]. exists h2. split; [|done].
  transitivity (delete (r, port') (udp_handles (foldl (drop_cport r) s1 (cports h'))) !! (remote, port)); [done|].
  rewrite lookup_delete_ne by congruence. by rewrite K1.
Qed.

Lemma map_udp_linked draw initiated sock r port' remote port socket p app s : linked remote port socket p app s ->
  linked remote port socket p app (map_udp_remote_port draw initiated sock r port' s).2.
Proof.
  intros [(h & Hh & Hsock) Hr]. unfold map_udp_remote_port. cbn zeta. set (s0 := if next_udp_client_port s =? 0 then _ else s).
  assert (udp_handles s0 = udp_handles s /\ udp_return_ports s0 = udp_return_ports s) as [E1 E2]
    by (subst s0; by destruct (_ =? _)).
  clearbody s0. assert (linked remote port socket p app s0) as Hl0 by (split; [exists h; by rewrite E1|by rewrite E2]).
  destruct initiated as [[]|]; [|exact Hl0..].
  destruct (udp_handles s0 !! (r, port')) as [h'|] eqn:E; [|destruct sock; [|exact Hl0]];
    (split; [|cbn; by rewrite E2]); cbn; destruct (decide ((r, port') = (remote, port))) as [[= -> ->]|Hne];
    rewrite ?lookup_insert_eq, ?lookup_insert_ne by done; rewrite E1 in *; try (by exists h); try congruence.
  rewrite Hh in E. injection E as <-. by eexists.
Qed.

Lemma port_step_linked s ev s' remote port socket p app : ports_ok s -> keeps_remote remote ev -> port_step s ev = Some s' ->
  linked remote port socket p app s -> linked remote port socket p app s'.
Proof.
  intros Hs Hk Hstep Hl. destruct ev as [draw init sock r port'|[r port'] init a data|r port'|init acc lst r port'|tn r port']; cbn in Hstep.
  - injection Hstep as <-. by apply map_udp_linked.
  - destruct (udp_handles s !! (r, port')) as [h|] eqn:Eh; [|by simplify_eq]. destruct init as [[]|]; [|by (cbn in Hstep; simplify_eq)..].
    destruct (udp_from_app_spec r port' a data s h Hs Eh) as (es & s1 & E & _ & Hcase). rewrite E in Hstep. cbn in Hstep.
    injection Hstep as <-. destruct Hcase as [(_ & -> & _)|(q & _ & _ & Er & _ & Hq & Hh)]; [done|].
    destruct Hl as [(h0 & Hh0 & Hs0) Hr]. destruct (Hh _ _ Hh0) as (h' & Hh' & Hs'). split; [exists h'; split; [done|congruence]|].
    rewrite Er. destruct (decide ((r, q) = (remote, p))) as [[= -> ->]|Hne]; [|by rewrite lookup_insert_ne].
    rewrite lookup_insert_eq. destruct Hq as [Hq|Hq]; congruence.
  - injection Hstep as <-. by apply unmap_udp_linked.
  - injection Hstep as <-. destruct (map_tcp_same init acc lst r port' s) as (_ & E2 & E3 & _). unfold linked. by rewrite E2, E3.
  - injection Hstep as <-. destruct (unmap_tcp_same tn r port' s) as (_ & E2 & E3 & _). unfold linked. by rewrite E2, E3.
Qed.

Lemma port_run_linked events s s' remote port socket p app : ports_ok s -> Forall event_ok events ->
  Forall (keeps_remote remote) events -> port_run events s = Some s' -> linked remote port socket p app s ->
  linked remote port socket p app s'.
Proof.
  revert s. induction events as [|ev events IH]; intros s Hs Hev Hk Hrun Hl; [by injection Hrun as <-|].
  apply Forall_cons in Hev as [He Hev]. apply Forall_cons in Hk as [Hk1 Hk]. cbn in Hrun.
  destruct (port_step_ok s ev Hs He) as (s1 & E & Hs1). rewrite E in Hrun. cbn in Hrun.
  apply (IH s1); [done|done|done|done|]. by apply (port_step_linked s ev).
Qed.

(** C33. UDP through a mapped port works both ways, whatever happened before: a packet of an
    application goes to the remote port with a pseudo port of its own as its source, unless all of
    the remote's are taken, and until a port of the remote is unmapped, whatever else happens,
    every answer to the pseudo port from the remote port reaches the application through the
    socket it used.  The search for a port always ends, and no pseudo port outlives the mappings. *)
Theorem udp_ports_round_trip events : Forall event_ok events -> exists s, port_run events Ports_new = Some s /\
  (forall remote app p, udp_client_ports s !! (remote, app) = Some p -> exists port, is_Some (udp_handles s !! (remote, port))) /\
  forall remote port h app data, udp_handles s !! (remote, port) = Some h -> 0 <= port < 65536 ->
    is_bytes data -> Z.of_nat (length data) <= 65527 ->
    exists es s', udp_from_app (remote, port) (Ok true) app data s = Some (es, s') /\
      ((es = [] /\ forall p, is_port p -> is_Some (udp_return_ports s !! (remote, p))) \/
       exists p pkt, es = [SendUdp remote pkt] /\ source_port pkt = Some p /\ dest_port pkt = Some port /\ udp_data pkt = data /\
         forall later s'' payload, Forall event_ok later -> Forall (keeps_remote remote) later -> port_run later s' = Some s'' ->
           is_bytes payload -> Z.of_nat (length payload) <= 65527 ->
           handle_udp_from_remote remote (make_udp_packet (mkIPv6 0 0) port (mkIPv6 0 0) p payload) s''
           = [SocketSend (uh_socket h) app payload]).
Proof.
  intros Hev. destruct (port_run_ok events Ports_new ports_new_ok Hev) as (s & Hrun & Hs). exists s. split; [done|]. split.
  { intros remote app p Hc. destruct (po_holder _ Hs _ _ _ Hc) as (port & h & Hh & _). exists port. by rewrite Hh. }
  intros remote port h app data Hh Hport Hd Hl.
  destruct (udp_from_app_spec remote port app data s h Hs Hh) as (es & s' & E & Hs' & Hcase). exists es, s'. split; [done|].
  destruct Hcase as [(-> & _ & Hall)|(p & -> & Hp & Er & _ & _ & Hkeep)]; [by left|right]. unfold is_port in Hp.
  assert (is_ipv6_addr (mkIPv6 0 0)) as H0 by (unfold is_ipv6_addr; cbn; lia).
  destruct (make_udp_packet_spec _ p _ port data Hd Hl H0 H0 ltac:(lia) Hport) as (_ & _ & Hsp & Hdp & Hdata & _).
  exists p. eexists. split; [done|]. split; [done|]. split; [done|]. split; [done|].
  intros later s'' payload Hlater Hk Hrun' Hpl Hlen.
  assert (linked remote port (uh_socket h) p app s') as Hlink.
  { split; [by apply Hkeep|]. rewrite Er. apply lookup_insert_eq. }
  destruct (port_run_linked later s' s'' _ _ _ _ _ Hs' Hlater Hk Hrun' Hlink) as [(h2 & Hh2 & Hsock) Hret].
  destruct (make_udp_packet_spec _ port _ p payload Hpl Hlen H0 H0 Hport ltac:(lia)) as (_ & _ & Hsp2 & Hdp2 & Hdata2 & H6 & Hpr & _).
  unfold handle_udp_from_remote. rewrite H6, Hpr, orb_true_r. cbn [negb orb]. rewrite Hsp2, Hdp2, Hh2, Hret, Hdata2, Hsock. done.
Qed.

(** ** A TCP mapping is there as long as somebody holds it *)
Definition tcp_claims (target : NetworkAddress * Z) (c : Z) (ev : PortEvent) : Z :=
  match ev with
  | EvMapTcp (Ok true) accepts listener r p =>
    if bool_decide ((r, p) = target) && negb (bool_decide (accepts = Some false)) then
      if 0 <? c then c + 1 else if listener then 1 else 0
    else c
  | EvUnmapTcp _ r p => if bool_decide ((r, p) = target) then Z.max 0 (c - 1) else c
  | _ => c
  end.
Definition held (c : Z) : option Z := if 0 <? c then Some c else None.

Lemma udp_keeps_tcp s ev s' : (match ev with EvMapTcp _ _ _ _ _ | EvUnmapTcp _ _ _ => False | _ => True end) ->
  port_step s ev = Some s' -> tcp_handles s' = tcp_handles s.
Proof.
  destruct ev as [draw init sock r p|tgt init a data|r p|init acc lst r p|tn r p]; cbn; intros He Hs; try done.
  - injection Hs as <-. unfold map_udp_remote_port. cbn zeta. set (s0 := if next_udp_client_port s =? 0 then _ else s).
    assert (tcp_handles s0 = tcp_handles s) as <- by (subst s0; by destruct (_ =? _)). clearbody s0.
    destruct init as [[]|]; [|done..]. destruct (udp_handles s0 !! _); [done|]. by destruct sock.
  - destruct (udp_handles s !! tgt); [|by simplify_eq]. unfold udp_from_app in Hs. destruct init as [[]|]; [|by (cbn in Hs; simplify_eq)..].
    destruct (default 0 _); [|by (cbn in Hs; simplify_eq)..]. destruct (find_port _ _ _ _) as [[q|]|]; cbn in Hs; by simplify_eq.
  - injection Hs as <-. unfold unmap_udp_remote_port. destruct (udp_handles s !! _) as [h|]; [|done]. cbn zeta. destruct (0 <? _); [done|].
    assert (Hd : forall l s1, tcp_handles (foldl (drop_cport r) s1 l) = tcp_handles s1).
    { induction l as [|c l IH]; intros s1; [done|]. cbn [foldl]. rewrite IH. unfold drop_cport. by destruct (udp_client_ports s1 !! c). }
    transitivity (tcp_handles (foldl (drop_cport r) (s <| udp_handles ::= <[(r, p) := h <| uh_holders := uh_holders h - 1 |>]> |>)
      (cports (h <| uh_holders := uh_holders h - 1 |>)))); [done|]. by rewrite Hd.
Qed.

Lemma tcp_step_claims target s ev s' c : 0 <= c -> th_holders <$> tcp_handles s !! target = held c -> port_step s ev = Some s' ->
  0 <= tcp_claims target c ev /\ th_holders <$> tcp_handles s' !! target = held (tcp_claims target c ev).
Proof.
  intros Hc Hh Hs. destruct ev as [draw init sock r p|tgt init a data|r p|init acc lst r p|tn r p];
    [by (apply udp_keeps_tcp in Hs; [rewrite Hs|])..| |]; cbn in Hs; injection Hs as <-; unfold tcp_claims, held in *.
  - unfold map_tcp_remote_port. destruct init as [[]|]; [|done..]. destruct (bool_decide (acc = Some false)); [by rewrite andb_false_r|].
    rewrite andb_true_r. case_bool_decide as Et.
    + subst target. destruct (tcp_handles s !! (r, p)) as [h|] eqn:E; cbn in Hh.
      * destruct (Z.ltb_spec 0 c); [|done]. injection Hh as Hh. split; [lia|]. destruct (Z.ltb_spec 0 (c + 1)); [|lia].
        cbn. rewrite lookup_insert_eq. cbn. by rewrite Hh.
      * destruct (Z.ltb_spec 0 c); [done|]. destruct lst; cbn; [by rewrite lookup_insert_eq|by rewrite E].
    + destruct (tcp_handles s !! (r, p)) as [h|]; [|destruct lst; [|done]]; cbn; by rewrite lookup_insert_ne.
  - unfold unmap_tcp_remote_port. case_bool_decide as Et.
    + subst target. destruct (tcp_handles s !! (r, p)) as [h|] eqn:E; cbn in Hh.
      * destruct (Z.ltb_spec 0 c); [|done]. injection Hh as Hh. cbn zeta.
        change (th_holders (h <| th_holders := th_holders h - 1 |>)) with (th_holders h - 1). rewrite Hh.
        split; [lia|]. rewrite Z.max_r by lia. destruct (Z.ltb_spec 0 (c - 1)); cbn; [|by rewrite lookup_delete_eq].
        by rewrite lookup_insert_eq.
      * destruct (Z.ltb_spec 0 c); [done|]. assert (c = 0) as -> by lia. cbn. by rewrite E.
    + split; [done|]. destruct (tcp_handles s !! (r, p)) as [h|]; [|done]. cbn zeta. destruct (0 <? th_holders _); cbn;
        [by rewrite lookup_insert_ne|by rewrite lookup_delete_ne].
Qed.

(** The listener of a target exists exactly while there are more claims than releases. *)
Lemma tcp_mapping_held target events s s' c : 0 <= c -> th_holders <$> tcp_handles s !! target = held c ->
  port_run events s = Some s' -> th_holders <$> tcp_handles s' !! target = held (foldl (tcp_claims target) c events).
Proof.
  revert s c. induction events as [|ev events IH]; intros s c Hc Hh Hrun; [by injection Hrun as <-|]. cbn in Hrun.
  destruct (port_step s ev) as [s1|] eqn:E; [|done]. cbn in Hrun. cbn [foldl].
  destruct (tcp_step_claims target s ev s1 c Hc Hh E) as [Hc1 Hh1]. by apply (IH s1).
Qed.

(** ** Examples *)
Definition ports_example : list PortEvent :=
  [EvMapUdp 50000 (Ok true) (Some 40001) (some_remote 2) 53; EvMapUdp 50000 (Ok true) (Some 40002) (some_remote 2) 80;
   EvApp (some_remote 2, 53) (Ok true) 5000 [1; 2]].

Lemma udp_ports_round_trip_witness : exists s, port_run ports_example Ports_new = Some s /\
  exists es s', udp_from_app (some_remote 2, 80) (Ok true) 6000 [7] s = Some (es, s').
Proof.
  destruct (udp_ports_round_trip ports_example) as (s & Hrun & _ & Hs).
  { repeat constructor; cbn; lia. }
  exists s. split; [exact Hrun|].
  assert ((fun s => udp_handles s !! (some_remote 2, 80)) <$> port_run ports_example Ports_new
          = Some (Some (mkUdpHandle 40002 [] 1))) as Hh by (vm_compute; reflexivity).
  rewrite Hrun in Hh. injection Hh as Hh.
  destruct (Hs (some_remote 2) 80 _ 6000 [7] Hh) as (es & s' & E & _);
    [lia|repeat constructor; lia|cbn; lia|exists es, s'; exact E].
Defined.

(** The key of a source port has no remote port: an application that uses one source port for two
    ports of a remote stops getting answers from one when the other is unmapped. *)
Lemma shared_source_port_unmapped :
  (fun s => handle_udp_from_remote (some_remote 2) (make_udp_packet (mkIPv6 0 0) 80 (mkIPv6 0 0) 50000 [9]) s) <$>
    port_run (ports_example ++ [EvApp (some_remote 2, 80) (Ok true) 5000 [3]]) Ports_new = Some [SocketSend 40002 5000 [9]] /\
  (fun s => handle_udp_from_remote (some_remote 2) (make_udp_packet (mkIPv6 0 0) 80 (mkIPv6 0 0) 50000 [9]) s) <$>
    port_run (ports_example ++ [EvApp (some_remote 2, 80) (Ok true) 5000 [3]; EvUnmapUdp (some_remote 2) 53]) Ports_new = Some [].
Proof. split; vm_compute; reflexivity. Qed.
