(* ===== verification/IpRange.v ===== *)
(** * Finding a free private network (address/ip_range.{hpp,cpp})

    [parse_ip_net] and the searches for a private network that overlaps none of the host's.  An
    address is its value, of 32 or 128 bits, and a network or range is an address and a mask.
    The parser of addresses and [contains] are oxen-quic's: variables, with the meaning of
    [contains] as a law. *)

From Stdlib Require Import ZArith Lia.
From stdpp Require Import base list numbers strings.
From S2P Require Import Prelude Oxenc Str.

Local Open Scope Z_scope.
Local Open Scope router_scope.

Record net := mkIpNet { ip : Z; mask : Z }.

(** ** Parsing *)
Section Parse.
(** [quic::Address(addr, 0)]: whether it is an IPv4 address and its value, or an exception *)
Variable parse_address : bytes -> option (bool * Z).

Inductive NetError := BadAddress | MaskRequired | BadMask | WrongFamily.

(** [parse_ip_net(address, default_mask4, default_mask6)] *)
Definition parse_ip_net (address : bytes) (default_mask4 default_mask6 : option Z) : outcome NetError (bool * net) :=
  let mask_pos := str_find (str "/") address in
  let addr := match mask_pos with Some p => take p address | None => address end in
  let! a := or_throw BadAddress (parse_address addr) in
  let '(is_v4, value) := a in
  let! m := match mask_pos with
            | None => or_throw MaskRequired (if is_v4 then default_mask4 else default_mask6)
            | Some p =>
              let! m := or_throw BadMask (parse_uint_str 8 (drop (S p) address)) in
              throw_if (if is_v4 then 32 else 128) <? m with BadMask in Ok m
            end in
  Ok (is_v4, mkIpNet value m).

(** [parse_ipv4_net(address, default_mask)], [parse_ipv6_net(address, default_mask)] *)
Definition parse_ipv4_net (address : bytes) (default_mask : option Z) : outcome NetError net :=
  let! r := parse_ip_net address default_mask default_mask in
  let '(is_v4, n) := r in throw_if negb is_v4 with WrongFamily in Ok n.
Definition parse_ipv6_net (address : bytes) (default_mask : option Z) : outcome NetError net :=
  let! r := parse_ip_net address default_mask default_mask in
  let '(is_v4, n) := r in throw_if is_v4 with WrongFamily in Ok n.
End Parse.

(** ** Searching *)
Section Search.
(** [range.contains(ip)], [net.contains(ip)] *)
Variables contains4 contains6 : net -> Z -> bool.

Definition overlapping (contains : net -> Z -> bool) (n e : net) : bool := contains e (ip n) || contains n (ip e).

(** The loop of [find_ipv4_net] over the addresses [addr] *)
Fixpoint find_ipv4_loop (fuel : nat) (addr step last m : Z) (exclude : list net) : option net :=
  match fuel with
  | O => None
  | S fuel =>
    if addr <? last then
      if negb (existsb (overlapping contains4 (mkIpNet addr m)) exclude) then Some (mkIpNet addr m)
      else find_ipv4_loop fuel (wrap 32 (addr + step)) step last m exclude
    else None
  end.

(** [find_ipv4_net(start, end, mask, exclude)] *)
Definition find_ipv4_net (start last m : Z) (exclude : list net) : option net :=
  let step := wrap 32 (Z.shiftl 1 (32 - m)) in
  find_ipv4_loop (Z.to_nat ((last - start) / step + 1)) (wrap 32 (start + 1)) step last m exclude.

Definition ip4 (a b : Z) : Z := Z.lor (Z.shiftl a 24) (Z.shiftl b 16).

(** [find_private_ipv4_net(exclude, mask)] *)
Definition find_private_ipv4_net (exclude : list net) (m : Z) : option net :=
  if m <? 8 then None
  else
    let search_mask := Z.min 18 m in
    let ret := if 12 <=? m then find_ipv4_net (ip4 172 16) (ip4 172 32) search_mask exclude else None in
    let ret := match ret with Some r => Some r | None => find_ipv4_net (ip4 10 0) (ip4 11 0) search_mask exclude end in
    let ret := match ret with
               | Some r => Some r
               | None => if 16 <=? m then find_ipv4_net (ip4 192 168) (ip4 192 169) search_mask exclude else None
               end in
    (fun n => mkIpNet (ip n) m) <$> ret.

(** [sesh_subnet_ip(subnet)]: fd2e:7365:7368:subnet::1 *)
Definition sesh_subnet_ip (subnet : Z) : Z := 0xfd2e73657368 * 2 ^ 80 + subnet * 2 ^ 64 + 1.

Fixpoint find_ipv6_loop (fuel : nat) (subnet step search_mask m : Z) (exclude : list net) : option net :=
  match fuel with
  | O => None
  | S fuel =>
    if subnet <=? 0xffff then
      let candidate := mkIpNet (sesh_subnet_ip (wrap 16 subnet)) search_mask in
      if negb (existsb (overlapping contains6 candidate) exclude) then Some (mkIpNet (ip candidate) m)
      else find_ipv6_loop fuel (wrap 32 (subnet + step)) step search_mask m exclude
    else None
  end.

(** [find_private_ipv6_net(exclude, mask)] *)
Definition find_private_ipv6_net (exclude : list net) (m : Z) : option net :=
  if m <? 48 then None
  else if existsb (fun e => (mask e <=? 48) && contains6 e (sesh_subnet_ip 0)) exclude then None
  else
    let search_mask := Z.min 64 m in
    let subnet_step := wrap 32 (Z.shiftl 1 (64 - search_mask)) in
    find_ipv6_loop (Z.to_nat (0x10000 / subnet_step + 1)) 0 subnet_step search_mask m exclude.
End Search.

(** ** Networks and what they contain *)
Definition in_net (w : Z) (n : net) (a : Z) : Prop := a / 2 ^ (w - mask n) = ip n / 2 ^ (w - mask n).
Definition mask_ok (w : Z) (n : net) : Prop := 0 <= mask n <= w.
Definition disjoint_nets (w : Z) (n e : net) : Prop := forall a, ~ (in_net w n a /\ in_net w e a).

Lemma div_coarser a b i j : 0 <= i <= j -> a / 2 ^ i = b / 2 ^ i -> a / 2 ^ j = b / 2 ^ j.
Proof.
  intros Hij Heq. replace j with (i + (j - i)) by lia. rewrite Z.pow_add_r, <-!Z.div_div by lia. by rewrite Heq.
Qed.

(** Two networks that share an address: the larger one contains the other's. *)
Lemma nets_nested w n e a : mask_ok w n -> mask_ok w e -> in_net w n a -> in_net w e a ->
  in_net w e (ip n) \/ in_net w n (ip e).
Proof.
  intros Hn He Ha Hb. unfold in_net, mask_ok in *. destruct (Z.le_ge_cases (mask e) (mask n)) as [Hle|Hle].
  - left. rewrite <-Hb. symmetry. apply (div_coarser _ _ (w - mask n)); [lia|done].
  - right. rewrite <-Ha. symmetry. apply (div_coarser _ _ (w - mask e)); [lia|done].
Qed.

Section Overlap.
Variable w : Z.
Variable contains : net -> Z -> bool.
Hypothesis contains_spec : forall n a, contains n a = true <-> in_net w n a.

Lemma not_overlapping n e : mask_ok w n -> mask_ok w e -> overlapping contains n e = false -> disjoint_nets w n e.
Proof.
  intros Hn He Ho a [Ha Hb]. apply orb_false_elim in Ho as [H1 H2].
  destruct (nets_nested w n e a Hn He Ha Hb) as [H3|H3]; apply contains_spec in H3; congruence.
Qed.

Lemma overlapping_shares n e : overlapping contains n e = true -> exists a, in_net w n a /\ in_net w e a.
Proof.
  intros [Ho|Ho]%orb_prop; apply contains_spec in Ho; [exists (ip n)|exists (ip e)]; done.
Qed.

Lemma none_overlapping n exclude : mask_ok w n -> Forall (mask_ok w) exclude ->
  existsb (overlapping contains n) exclude = false -> Forall (disjoint_nets w n) exclude.
Proof.
  intros Hn Hex Ho. apply Forall_forall. intros e He. apply not_overlapping; [done|by eapply Forall_forall|].
  apply not_true_iff_false. intros Hov. apply not_true_iff_false in Ho. apply Ho. apply existsb_exists.
  exists e. split; [by apply list_elem_of_In|done].
Qed.

Lemma some_overlapping n exclude : existsb (overlapping contains n) exclude = true -> ~ Forall (disjoint_nets w n) exclude.
Proof.
  intros (e & He & Ho)%existsb_exists Hall. destruct (overlapping_shares n e Ho) as (a & Ha).
  apply list_elem_of_In in He. rewrite Forall_forall in Hall. by apply (Hall e He a).
Qed.

(** A smaller network at the same address *)
Lemma disjoint_smaller a m m' e : m <= m' <= w -> disjoint_nets w (mkIpNet a m) e -> disjoint_nets w (mkIpNet a m') e.
Proof.
  intros Hm Hd x [Hx He]. apply (Hd x). split; [|done]. unfold in_net in *. cbn in *.
  apply (div_coarser _ _ (w - m')); [lia|done].
Qed.
End Overlap.

(** ** The searches are complete *)
Section SearchProofs.
Variables contains4 contains6 : net -> Z -> bool.
Hypothesis contains4_spec : forall n a, contains4 n a = true <-> in_net 32 n a.
Hypothesis contains6_spec : forall n a, contains6 n a = true <-> in_net 128 n a.

(** The result of a search through the candidates [cand 0, ..., cand (count - 1)] *)
Definition first_free (w : Z) (cand : Z -> Z) (count m : Z) (exclude : list net) (r : option net) : Prop :=
  match r with
  | Some n => mask n = m /\ Forall (disjoint_nets w n) exclude /\ exists i, 0 <= i < count /\ ip n = cand i
  | None => forall i, 0 <= i < count -> ~ Forall (disjoint_nets w (mkIpNet (cand i) m)) exclude
  end.

Lemma find_ipv4_loop_spec fuel start k count m exclude : 8 <= m <= 18 -> Forall (mask_ok 32) exclude ->
  0 <= start -> start + (count + 1) * 2 ^ (32 - m) < 2 ^ 32 -> 0 <= k <= count -> (Z.to_nat (count - k) < fuel)%nat ->
  (forall i, 0 <= i < k -> ~ Forall (disjoint_nets 32 (mkIpNet (start + i * 2 ^ (32 - m) + 1) m)) exclude) ->
  first_free 32 (fun i => start + i * 2 ^ (32 - m) + 1) count m exclude
    (find_ipv4_loop contains4 fuel (start + k * 2 ^ (32 - m) + 1) (2 ^ (32 - m)) (start + count * 2 ^ (32 - m)) m exclude).
Proof.
  intros Hm Hex Hs Hend. set (step := 2 ^ (32 - m)) in *.
  assert (2 <= step) as Hstep by (change 2 with (2 ^ 1); apply Z.pow_le_mono_r; lia). clearbody step.
  revert k. induction fuel as [|fuel IH]; intros k Hk Hf Hprev; [lia|]. cbn [find_ipv4_loop].
  destruct (Z.ltb_spec (start + k * step + 1) (start + count * step)) as [Hlt|Hge].
  - assert (k < count) as Hkc by nia.
    destruct (existsb _ exclude) eqn:Eo; cbn [negb].
    + unfold wrap. rewrite Z.mod_small by nia. replace (start + k * step + 1 + step) with (start + (k + 1) * step + 1) by lia.
      apply IH; [lia|lia|]. intros i Hi. destruct (decide (i = k)) as [->|]; [|apply Hprev; lia].
      by apply (some_overlapping 32 contains4).
    + split; [done|]. split; [apply (none_overlapping 32 contains4); [done|unfold mask_ok; cbn; lia|done|done]|].
      exists k. split; [lia|done].
  - assert (k = count) as -> by nia. exact Hprev.
Qed.

Lemma find_ipv4_net_spec start count m exclude : 8 <= m <= 18 -> Forall (mask_ok 32) exclude ->
  0 <= start -> 0 <= count -> start + (count + 1) * 2 ^ (32 - m) < 2 ^ 32 ->
  first_free 32 (fun i => start + i * 2 ^ (32 - m) + 1) count m exclude
    (find_ipv4_net contains4 start (start + count * 2 ^ (32 - m)) m exclude).
Proof.
  intros Hm Hex Hs Hc Hend. unfold find_ipv4_net. cbn zeta.
  assert (2 <= 2 ^ (32 - m) < 2 ^ 32) as Hstep.
  { split; [change 2 with (2 ^ 1) at 1; apply Z.pow_le_mono_r; lia|apply Z.pow_lt_mono_r; lia]. }
  rewrite Z.shiftl_1_l. unfold wrap. rewrite (Z.mod_small (2 ^ (32 - m))), (Z.mod_small (start + 1)) by nia.
  replace (start + count * 2 ^ (32 - m) - start) with (count * 2 ^ (32 - m)) by lia. rewrite Z.div_mul by lia.
  replace (start + 1) with (start + 0 * 2 ^ (32 - m) + 1) by lia.
  apply find_ipv4_loop_spec; [done|done|done|done|lia|lia|lia].
Qed.

(** The private networks that are searched: 172.16.0.0/12, 10.0.0.0/8, 192.168.0.0/16 *)
Definition private_blocks : list net := [mkIpNet (ip4 172 16) 12; mkIpNet (ip4 10 0) 8; mkIpNet (ip4 192 168) 16].

(** The first usable addresses of the blocks of a size *)
Definition first_address (w m a : Z) : Prop := a mod 2 ^ (w - m) = 1.

(** The candidates of a block are the first addresses of its blocks of the search size. *)
Lemma block_candidates w p s a : 0 <= mask p <= s -> s < w -> ip p mod 2 ^ (w - mask p) = 0 ->
  (in_net w p a /\ first_address w s a) <-> exists i, 0 <= i < 2 ^ (s - mask p) /\ a = ip p + i * 2 ^ (w - s) + 1.
Proof.
  intros Hp Hs Hbase. unfold in_net, first_address.
  assert (2 ^ (w - mask p) = 2 ^ (w - s) * 2 ^ (s - mask p)) as Hpow by (rewrite <-Z.pow_add_r by lia; f_equal; lia).
  assert (2 <= 2 ^ (w - s)) as H2 by (change 2 with (2 ^ 1) at 1; apply Z.pow_le_mono_r; lia).
  assert (0 < 2 ^ (s - mask p)) as H3 by (apply Z.pow_pos_nonneg; lia).
  set (u := 2 ^ (w - s)) in *. set (c := 2 ^ (s - mask p)) in *. set (b := 2 ^ (w - mask p)) in *.
  pose proof (Z.div_mod (ip p) b ltac:(lia)) as Dp. rewrite Hbase in Dp. set (q := ip p / b) in *. split.
  - intros [Hin Hfirst]. pose proof (Z.div_mod a u ltac:(lia)) as Da. rewrite Hfirst in Da.
    pose proof (Z.div_mod a b ltac:(lia)) as Db. rewrite Hin in Db. pose proof (Z.mod_pos_bound a b ltac:(lia)) as Bb.
    set (j := a / u) in *. exists (j - q * c). split; [|nia]. split; nia.
  - intros (i & Hi & ->).
    assert (ip p + i * u + 1 = (q * c + i) * u + 1) as E by nia. split.
    + symmetry. apply (Z.div_unique _ b q (i * u + 1)); [left; nia|nia].
    + rewrite E, Z.add_comm, Z.mod_add by lia. apply Z.mod_small. lia.
Qed.

(** What a search of the block [p] for a network of [m] bits finds, at the granularity [s] *)
Definition block_searched (w s m : Z) (p : net) (exclude : list net) (r : option net) : Prop :=
  match r with
  | Some n => mask n = m /\ Forall (disjoint_nets w n) exclude /\ in_net w p (ip n) /\ first_address w s (ip n)
  | None => forall a, in_net w p a -> first_address w s a -> ~ Forall (disjoint_nets w (mkIpNet a s)) exclude
  end.

Lemma find_ipv4_block p s exclude : 8 <= s <= 18 -> Forall (mask_ok 32) exclude -> 0 <= mask p <= s ->
  0 <= ip p -> ip p mod 2 ^ (32 - mask p) = 0 -> ip p + 2 * 2 ^ (32 - mask p) < 2 ^ 32 ->
  block_searched 32 s s p exclude (find_ipv4_net contains4 (ip p) (ip p + 2 ^ (32 - mask p)) s exclude).
Proof.
  intros Hs Hex Hp H0 Hbase Hend.
  assert (2 ^ (32 - mask p) = 2 ^ (s - mask p) * 2 ^ (32 - s)) as Hpow by (rewrite <-Z.pow_add_r by lia; f_equal; lia).
  assert (0 < 2 ^ (s - mask p)) by (apply Z.pow_pos_nonneg; lia). assert (0 < 2 ^ (32 - s)) by (apply Z.pow_pos_nonneg; lia).
  pose proof (find_ipv4_net_spec (ip p) (2 ^ (s - mask p)) s exclude Hs Hex H0 ltac:(lia) ltac:(nia)) as Hf.
  rewrite <-Hpow in Hf. destruct (find_ipv4_net _ _ _ _ _) as [n|]; cbn in *.
  - destruct Hf as (Hm & Hd & i & Hi & Hip). split; [done|]. split; [done|].
    apply (block_candidates 32 p s (ip n)); [lia|lia|done|]. by exists i.
  - intros a Hin Hfirst. destruct (proj1 (block_candidates 32 p s a Hp ltac:(lia) Hbase) (conj Hin Hfirst)) as (i & Hi & ->).
    by apply Hf.
Qed.

Lemma block_smaller w s m p exclude n : s <= m <= w -> block_searched w s s p exclude (Some n) ->
  block_searched w s m p exclude (Some (mkIpNet (ip n) m)).
Proof.
  intros Hm (Hs & Hd & Hin & Hf). split; [done|]. split; [|done].
  eapply Forall_impl; [done|]. intros e He. destruct n as [a s']. cbn in Hs. subst s'. by apply (disjoint_smaller w a s).
Qed.

(** The search for a private IPv4 network returns one that overlaps none of the given
    networks, starting at the first usable address of a private block, whenever there is a free
    block of the search size; otherwise it returns nothing. *)
Theorem find_private_ipv4_net_spec exclude m : m <= 32 -> Forall (mask_ok 32) exclude ->
  let s := Z.min 18 m in
  match find_private_ipv4_net contains4 exclude m with
  | Some n => exists p, p ∈ private_blocks /\ mask p <= m /\ block_searched 32 s m p exclude (Some n)
  | None => m < 8 \/ forall p, p ∈ private_blocks -> mask p <= m -> block_searched 32 s m p exclude None
  end.
Proof.
  intros Hm Hex s. unfold find_private_ipv4_net. destruct (Z.ltb_spec m 8); [by left|]. cbn zeta. fold s.
  assert (8 <= s <= 18 /\ s <= m) as [Hs Hsm] by lia.
  assert (Hblock : forall p, p ∈ private_blocks -> mask p <= s ->
    block_searched 32 s s p exclude (find_ipv4_net contains4 (ip p) (ip p + 2 ^ (32 - mask p)) s exclude)).
  { intros p Hp Hle. apply find_ipv4_block; try done; unfold private_blocks in Hp;
      repeat (apply elem_of_cons in Hp as [->|Hp]); try (by apply elem_of_nil in Hp); cbn; try lia; done. }
  assert (Hfound : forall p n, p ∈ private_blocks -> mask p <= s -> block_searched 32 s s p exclude (Some n) ->
    exists p, p ∈ private_blocks /\ mask p <= m /\ block_searched 32 s m p exclude (Some (mkIpNet (ip n) m))).
  { intros p n Hp Hle Hb. exists p. split; [done|]. split; [lia|]. apply block_smaller; [lia|done]. }
  pose proof (Hblock (mkIpNet (ip4 172 16) 12)) as H12. pose proof (Hblock (mkIpNet (ip4 10 0) 8)) as H8.
  pose proof (Hblock (mkIpNet (ip4 192 168) 16)) as H16.
  change (ip (mkIpNet (ip4 172 16) 12) + 2 ^ (32 - mask (mkIpNet (ip4 172 16) 12))) with (ip4 172 32) in H12.
  change (ip (mkIpNet (ip4 10 0) 8) + 2 ^ (32 - mask (mkIpNet (ip4 10 0) 8))) with (ip4 11 0) in H8.
  change (ip (mkIpNet (ip4 192 168) 16) + 2 ^ (32 - mask (mkIpNet (ip4 192 168) 16))) with (ip4 192 169) in H16.
  cbn [ip mask] in H12, H8, H16.
  destruct (if 12 <=? m then find_ipv4_net _ _ _ _ _ else None) as [n|] eqn:E12; cbn [fmap option_fmap option_map].
  { destruct (Z.leb_spec 12 m); [|done]. apply (Hfound (mkIpNet (ip4 172 16) 12)); [unfold private_blocks; rewrite !elem_of_cons; tauto|cbn; lia|].
    rewrite <-E12. apply H12; [unfold private_blocks; rewrite !elem_of_cons; tauto|lia]. }
  destruct (find_ipv4_net contains4 (ip4 10 0) (ip4 11 0) s exclude) as [n|] eqn:E8; cbn [fmap option_fmap option_map].
  { apply (Hfound (mkIpNet (ip4 10 0) 8)); [unfold private_blocks; rewrite !elem_of_cons; tauto|cbn; lia|]. apply H8; [unfold private_blocks; rewrite !elem_of_cons; tauto|lia]. }
  destruct (if 16 <=? m then find_ipv4_net _ _ _ _ _ else None) as [n|] eqn:E16; cbn [fmap option_fmap option_map].
  { destruct (Z.leb_spec 16 m); [|done]. apply (Hfound (mkIpNet (ip4 192 168) 16)); [unfold private_blocks; rewrite !elem_of_cons; tauto|cbn; lia|].
    rewrite <-E16. apply H16; [unfold private_blocks; rewrite !elem_of_cons; tauto|lia]. }
  right. intros p Hp Hle. unfold private_blocks in Hp. repeat (apply elem_of_cons in Hp as [->|Hp]); cbn [mask] in Hle.
  - destruct (Z.leb_spec 12 m); [|lia]. rewrite E12 in H12. apply H12; [unfold private_blocks; rewrite !elem_of_cons; tauto|lia].
  - apply H8; [unfold private_blocks; rewrite !elem_of_cons; tauto|lia].
  - destruct (Z.leb_spec 16 m); [|lia]. rewrite E16 in H16. apply H16; [unfold private_blocks; rewrite !elem_of_cons; tauto|lia].
  - by apply elem_of_nil in Hp.
Qed.

(** ** IPv6 *)
Definition sesh_block : net := mkIpNet (sesh_subnet_ip 0 - 1) 48.

Lemma find_ipv6_loop_spec fuel k count s m exclude : 48 <= s <= 64 -> s <= m <= 128 -> Forall (mask_ok 128) exclude ->
  count = 2 ^ (s - 48) -> 0 <= k <= count -> (Z.to_nat (count - k) < fuel)%nat ->
  (forall i, 0 <= i < k -> ~ Forall (disjoint_nets 128 (mkIpNet (ip sesh_block + i * 2 ^ (128 - s) + 1) s)) exclude) ->
  match find_ipv6_loop contains6 fuel (k * 2 ^ (64 - s)) (2 ^ (64 - s)) s m exclude with
  | Some n => mask n = m /\ Forall (disjoint_nets 128 n) exclude /\
      exists i, 0 <= i < count /\ ip n = ip sesh_block + i * 2 ^ (128 - s) + 1
  | None => forall i, 0 <= i < count -> ~ Forall (disjoint_nets 128 (mkIpNet (ip sesh_block + i * 2 ^ (128 - s) + 1) s)) exclude
  end.
Proof.
  intros Hs Hm Hex Hcount.
  assert (count * 2 ^ (64 - s) = 2 ^ 16) as Hall by (subst count; rewrite <-Z.pow_add_r by lia; f_equal; lia).
  assert (2 ^ (128 - s) = 2 ^ (64 - s) * 2 ^ 64) as Hpow by (rewrite <-Z.pow_add_r by lia; f_equal; lia).
  assert (1 <= 2 ^ (64 - s)) as Hstep by (pose proof (Z.pow_pos_nonneg 2 (64 - s)); lia).
  clear Hcount. revert k. induction fuel as [|fuel IH]; intros k Hk Hf Hprev; [lia|]. cbn [find_ipv6_loop].
  destruct (Z.leb_spec (k * 2 ^ (64 - s)) 0xffff) as [Hle|Hgt].
  - assert (k < count) as Hkc by nia.
    assert (sesh_subnet_ip (wrap 16 (k * 2 ^ (64 - s))) = ip sesh_block + k * 2 ^ (128 - s) + 1) as ->.
    { unfold wrap. rewrite Z.mod_small by (change (2 ^ 16) with 0x10000; nia). unfold sesh_block, sesh_subnet_ip. cbn [ip]. nia. }
    destruct (existsb _ exclude) eqn:Eo; cbn [negb ip].
    + unfold wrap. rewrite Z.mod_small by (change (2 ^ 16) with 0x10000 in Hall; change (2 ^ 32) with 0x100000000; nia).
      replace (k * 2 ^ (64 - s) + 2 ^ (64 - s)) with ((k + 1) * 2 ^ (64 - s)) by lia.
      apply IH; [lia|lia|]. intros i Hi. destruct (decide (i = k)) as [->|]; [|apply Hprev; lia].
      by apply (some_overlapping 128 contains6).
    + split; [done|]. split; [|exists k; split; [lia|done]].
      eapply Forall_impl; [apply (none_overlapping 128 contains6); [done| |done|done]|].
      { unfold mask_ok; cbn; lia. }
      intros e. apply disjoint_smaller. lia.
  - assert (k = count) as -> by (change (2 ^ 16) with 0x10000 in Hall; nia). exact Hprev.
Qed.

(** The same for IPv6, in fd2e:7365:7368::/48. *)
Theorem find_private_ipv6_net_spec exclude m : m <= 128 -> Forall (mask_ok 128) exclude ->
  let s := Z.min 64 m in
  match find_private_ipv6_net contains6 exclude m with
  | Some n => block_searched 128 s m sesh_block exclude (Some n)
  | None => m < 48 \/ block_searched 128 s m sesh_block exclude None
  end.
Proof.
  intros Hm Hex s. unfold find_private_ipv6_net. destruct (Z.ltb_spec m 48); [by left|].
  destruct (existsb _ exclude) eqn:Eall.
  { right. intros a Ha _ Hfree. apply existsb_exists in Eall as (e & He & [Hle%Z.leb_le Hc%contains6_spec]%andb_prop).
    apply list_elem_of_In in He. rewrite Forall_forall in Hfree, Hex. apply (Hfree e He a). split; [done|].
    pose proof (Hex e He) as [H0 _]. unfold in_net in *. rewrite <-Hc. apply (div_coarser _ _ (128 - 48)); [lia|].
    unfold sesh_block in Ha. cbn [ip mask] in Ha. rewrite Ha. done. }
  cbn zeta. fold s. assert (48 <= s <= 64 /\ s <= m) as [Hs Hsm] by lia.
  assert (1 <= 2 ^ (64 - s) <= 2 ^ 16) as Hstep.
  { split; [pose proof (Z.pow_pos_nonneg 2 (64 - s)); lia|apply Z.pow_le_mono_r; lia]. }
  assert (2 ^ (s - 48) * 2 ^ (64 - s) = 2 ^ 16) as Hpow by (rewrite <-Z.pow_add_r by lia; f_equal; lia).
  rewrite Z.shiftl_1_l. unfold wrap. rewrite Z.mod_small by (change (2 ^ 16) with 0x10000 in Hstep; change (2 ^ 32) with 0x100000000; lia).
  assert (0x10000 / 2 ^ (64 - s) = 2 ^ (s - 48)) as ->.
  { change 0x10000 with (2 ^ 16). rewrite <-Hpow. apply Z.div_mul. lia. }
  assert (0 < 2 ^ (s - 48)) as Hc by (apply Z.pow_pos_nonneg; lia).
  pose proof (find_ipv6_loop_spec (Z.to_nat (2 ^ (s - 48) + 1)) 0 (2 ^ (s - 48)) s m exclude Hs ltac:(lia) Hex eq_refl
                ltac:(lia) ltac:(lia) ltac:(lia)) as Hf.
  change (0 * 2 ^ (64 - s)) with 0 in Hf.
  assert (Hcand : forall a, (in_net 128 sesh_block a /\ first_address 128 s a) <->
    exists i, 0 <= i < 2 ^ (s - 48) /\ a = ip sesh_block + i * 2 ^ (128 - s) + 1).
  { intros a. apply (block_candidates 128 sesh_block s a); [cbn; lia|lia|done]. }
  destruct (find_ipv6_loop _ _ _ _ _ _ _) as [n|]; cbn.
  - destruct Hf as (Hn & Hd & Hi). split; [done|]. split; [done|]. by apply Hcand.
  - right. intros a Hin Hfirst. destruct (proj1 (Hcand a) (conj Hin Hfirst)) as (i & Hi & ->). by apply Hf.
Qed.
End SearchProofs.

(** ** An example: a host that uses 172.16.0.0/14 *)
Definition net_contains_bits (w : Z) (n : net) (a : Z) : bool := a / 2 ^ (w - mask n) =? ip n / 2 ^ (w - mask n).

Lemma find_private_ipv4_net_spec_witness :
  find_private_ipv4_net (net_contains_bits 32) [mkIpNet (ip4 172 16) 14] 20 = Some (mkIpNet (ip4 172 20 + 1) 20) /\
  exists p, p ∈ private_blocks /\ mask p <= 20 /\
    block_searched 32 18 20 p [mkIpNet (ip4 172 16) 14] (Some (mkIpNet (ip4 172 20 + 1) 20)).
Proof.
  assert (find_private_ipv4_net (net_contains_bits 32) [mkIpNet (ip4 172 16) 14] 20 = Some (mkIpNet (ip4 172 20 + 1) 20)) as H
    by (vm_compute; reflexivity).
  split; [exact H|].
  pose proof (find_private_ipv4_net_spec (net_contains_bits 32) (fun n a => Z.eqb_eq _ _) [mkIpNet (ip4 172 16) 14] 20
    ltac:(lia) ltac:(constructor; [unfold mask_ok; cbn; lia|constructor])) as Hs.
  cbn zeta in Hs. rewrite H in Hs. exact Hs.
Defined.
