(* ===== verification/Ini.v ===== *)
(** * The configuration file parser (config/ini.{hpp,cpp})

    [_config] maps a section to a map from an option to its values in the order of the file.
    A parse that throws leaves the values of the lines before the bad one in the parser, so
    [parse] returns the parser along with the error. *)

From Stdlib Require Import ZArith Lia.
From stdpp Require Import base list numbers strings gmap.
From coqutil Require Import Datatypes.RecordSettersUsingExistingGetters.
From S2P Require Import Prelude Oxenc Str.

Local Open Scope Z_scope.

Abbreviation SectionValues := (gmap bytes (list bytes)) (only parsing).
Abbreviation ConfigMap := (gmap bytes (gmap bytes (list bytes))) (only parsing).

(** The line number, from 1, and the trimmed line *)
Inductive IniError := InvalidLine (lineno : nat) (line : bytes).

Record ConfigParser := mkParser {
  cp_data : bytes;
  cp_config : ConfigMap;
  cp_file_desc : bytes;
}.

(** [ConfigParser(file_description)] *)
Definition ConfigParser_new (file_description : bytes) : ConfigParser := mkParser [] ∅ file_description.

(** [clear()] *)
Definition parser_clear (p : ConfigParser) : ConfigParser := p <| cp_config := ∅ |> <| cp_data := [] |>.

(** ** Lines *)
Definition is_eol (c : Z) : bool := (c =? 10) || (c =? 13).

(** The loop that splits the data: there is no line after a final end of line *)
Fixpoint split_lines (fuel : nat) (data : bytes) : list bytes :=
  match fuel with
  | O => []
  | S fuel =>
    match data with
    | [] => []
    | _ =>
      match find_first is_eol data with
      | None => [data]
      | Some n => take n data :: split_lines fuel (drop (S n) data)
      end
    end
  end.
Definition ini_lines (data : bytes) : list bytes := split_lines (length data) data.

(** The loops [while (!s.empty() && whitespace(s.front())) s.remove_prefix(1)], and at the back *)
Fixpoint trim_front (s : bytes) : bytes :=
  match s with
  | c :: s' => if is_space c then trim_front s' else s
  | [] => []
  end.
Definition trim_back (s : bytes) : bytes := rev (trim_front (rev s)).

(** [_config[sect][k].emplace_back(v)] *)
Definition config_add (sect k v : bytes) (cfg : ConfigMap) : ConfigMap :=
  let values := default ∅ (cfg !! sect) in
  <[sect := <[k := default [] (values !! k) ++ [v]]> values]> cfg.

(** What a line is, after trimming *)
Inductive IniLine :=
| Ignored
| Header (sect : bytes)
| KeyValue (k v : bytes)
| Malformed.

Definition classify (line : bytes) : IniLine :=
  match line with
  | [] => Ignored
  | c :: _ =>
    if (c =? 59) || (c =? 35) then Ignored
    else if (c =? 91) && bool_decide (last line = Some 93) then Header (remove_suffix 1 (drop 1 line))
    else
      match str_find (str "=") line with
      | None => Malformed
      | Some kvDelim =>
        let k := trim_back (take kvDelim line) in
        let v := trim_front (drop (S kvDelim) line) in
        if bool_decide (k = []) then Malformed else KeyValue k v
      end
  end.

Definition trim_line (line : bytes) : bytes := trim_back (trim_front line).

(** The loop over the lines *)
Fixpoint parse_lines (lineno : nat) (sectName : bytes) (cfg : ConfigMap) (lines : list bytes)
    : ConfigMap * option IniError :=
  match lines with
  | [] => (cfg, None)
  | line :: lines =>
    let lineno := S lineno in
    match classify (trim_line line) with
    | Ignored => parse_lines lineno sectName cfg lines
    | Header sect => parse_lines lineno sect cfg lines
    | KeyValue k v => parse_lines lineno sectName (config_add sectName k v cfg) lines
    | Malformed => (cfg, Some (InvalidLine lineno (trim_line line)))
    end
  end.

(** [parse()] *)
Definition parse (p : ConfigParser) : ConfigParser * option IniError :=
  let '(cfg, err) := parse_lines 0 [] (cp_config p) (ini_lines (cp_data p)) in
  (p <| cp_config := cfg |>, err).

(** [load_from_str(str)], and [load_file(fname)] with the content of the file and its name *)
Definition load_from_str (s : bytes) (p : ConfigParser) : ConfigParser * option IniError :=
  parse (p <| cp_data := s |>).
Definition ini_load_file (content fname : bytes) (p : ConfigParser) : ConfigParser * option IniError :=
  parse (p <| cp_data := content |> <| cp_file_desc := fname |>).

(** [visit_section(name, visit)]: nothing when there is no such section *)
Definition visit_section (p : ConfigParser) (name : bytes) : option SectionValues := cp_config p !! name.

(** ** Lookup *)

(** The values of an option of a section, in order *)
Definition ini_values (cfg : ConfigMap) (sect k : bytes) : list bytes :=
  default [] (cfg !! sect ≫= (.!! k)).

Lemma ini_values_add sect k v cfg s n :
  ini_values (config_add sect k v cfg) s n = ini_values cfg s n ++ (if decide (s = sect /\ n = k) then [v] else []).
Proof.
  unfold ini_values, config_add. destruct (decide (s = sect)) as [->|Hs].
  - rewrite lookup_insert, decide_True by done. simpl. destruct (decide (n = k)) as [->|Hn].
    + rewrite lookup_insert, decide_True by done. rewrite decide_True by done. simpl.
      by destruct (cfg !! sect).
    + rewrite lookup_insert_ne by done. rewrite decide_False by naive_solver. rewrite app_nil_r.
      by destruct (cfg !! sect).
  - rewrite lookup_insert_ne by done. rewrite decide_False by naive_solver. by rewrite app_nil_r.
Qed.

(** ** The meaning of a file

    The entries of the file: every [key = value] line under the section header before it. *)
Fixpoint ini_entries (sectName : bytes) (lines : list bytes) : list (bytes * bytes * bytes) :=
  match lines with
  | [] => []
  | line :: lines =>
    match classify (trim_line line) with
    | Header sect => ini_entries sect lines
    | KeyValue k v => (sectName, k, v) :: ini_entries sectName lines
    | _ => ini_entries sectName lines
    end
  end.

(** The values that entries give an option *)
Definition entry_values (entries : list (bytes * bytes * bytes)) (s k : bytes) : list bytes :=
  (fun e => e.2) <$> filter (fun e => e.1 = (s, k)) entries.

Definition well_formed_line (line : bytes) : bool :=
  match classify (trim_line line) with Malformed => false | _ => true end.

Lemma entry_values_cons e entries s k :
  entry_values (e :: entries) s k = (if decide (s = e.1.1 /\ k = e.1.2) then [e.2] else []) ++ entry_values entries s k.
Proof.
  unfold entry_values. destruct e as [[es ek] ev]. cbn [fst snd].
  destruct (decide (s = es /\ k = ek)) as [[-> ->]|Hne].
  - by rewrite filter_cons_True.
  - rewrite filter_cons_False; [done|]. cbn. naive_solver.
Qed.

(** The good lines at the start of a file are all taken in. *)
Lemma parse_lines_values lineno sect cfg good rest : forallb well_formed_line good = true ->
  exists sect' cfg', parse_lines lineno sect cfg (good ++ rest) = parse_lines (lineno + length good) sect' cfg' rest /\
    forall s k, ini_values cfg' s k = ini_values cfg s k ++ entry_values (ini_entries sect good) s k.
Proof.
  revert lineno sect cfg. induction good as [|line good IH]; intros lineno sect cfg Hgood.
  - exists sect, cfg. simpl. rewrite Nat.add_0_r. split; [done|]. intros. by rewrite app_nil_r.
  - cbn [forallb] in Hgood. apply andb_prop in Hgood as [Hl Hgood].
    unfold well_formed_line in Hl. cbn [ini_entries parse_lines length app].
    rewrite <-Nat.add_succ_comm.
    destruct (classify (trim_line line)) as [|sect2|k2 v2|]; [by apply IH..| |done].
    destruct (IH (S lineno) sect (config_add sect k2 v2 cfg) Hgood) as (s' & c & -> & Hc).
    exists s', c. split; [done|]. intros s k.
    rewrite Hc, entry_values_cons, ini_values_add. cbn [fst snd]. by rewrite app_assoc.
Qed.

(** The lines before the first malformed one *)
Fixpoint good_lines (lines : list bytes) : list bytes :=
  match lines with
  | line :: lines => if well_formed_line line then line :: good_lines lines else []
  | [] => []
  end.

Lemma good_lines_spec lines : exists rest, lines = good_lines lines ++ rest /\
  forallb well_formed_line (good_lines lines) = true /\
  match rest with [] => True | bad :: _ => well_formed_line bad = false end.
Proof.
  induction lines as [|l lines (rest & Hr & Hg & Hb)]; [by exists []|]. cbn [good_lines].
  destruct (well_formed_line l) eqn:Hl; [|by exists (l :: lines)].
  exists rest. cbn [forallb app]. rewrite Hl, <-Hr. done.
Qed.

(** Loading a configuration text adds to every option, in the order of the text, the
    values of its [key = value] lines under the section it is in; a malformed line ends the
    parse with an error that gives its number and text, and what was read before it stays. *)
Theorem load_from_str_spec s p :
  let lines := ini_lines s in
  let good := good_lines lines in
  let '(p', err) := load_from_str s p in
  (forall sect k, ini_values (cp_config p') sect k
                  = ini_values (cp_config p) sect k ++ entry_values (ini_entries [] good) sect k) /\
  err = (bad ← lines !! length good; Some (InvalidLine (S (length good)) (trim_line bad))).
Proof.
  cbn zeta. destruct p as [d cfg f]. cbn [cp_config].
  change (load_from_str s (mkParser d cfg f))
    with (let '(c, err) := parse_lines 0 [] cfg (ini_lines s) in (mkParser s c f, err)).
  destruct (good_lines_spec (ini_lines s)) as (rest & Hr & Hg & Hb).
  destruct (parse_lines_values 0 [] cfg _ rest Hg) as (sect' & cfg' & Hp & Hv).
  rewrite <-Hr in Hp. rewrite Hp.
  assert (ini_lines s !! length (good_lines (ini_lines s)) = head rest) as ->.
  { clear -Hr. revert Hr. generalize (good_lines (ini_lines s)). intros good ->.
    rewrite lookup_app_r, Nat.sub_diag by lia. by destruct rest. }
  destruct rest as [|bad rest]; cbn [parse_lines]; [done|].
  unfold well_formed_line in Hb. destruct (classify (trim_line bad)); [done..|]. done.
Qed.

(** ** Writing lines

    The lines of a text whose lines are all ended by a line feed *)
Definition terminated (ls : list bytes) : bytes := concat ((fun l => l ++ [10]) <$> ls).

Definition no_eol (l : bytes) : bool := forallb (fun c => negb (is_eol c)) l.

Lemma find_first_app p l c r : forallb (fun x => negb (p x)) l = true -> p c = true ->
  find_first p (l ++ c :: r) = Some (length l).
Proof.
  intros Hl Hc. induction l as [|x l IH]; cbn [find_first app length]; [by rewrite Hc|].
  cbn [forallb] in Hl. apply andb_prop in Hl as [Hx Hl]. apply negb_true_iff in Hx. by rewrite Hx, IH.
Qed.

Lemma split_lines_terminated fuel ls : (length (terminated ls) <= fuel)%nat ->
  forallb no_eol ls = true -> split_lines fuel (terminated ls) = ls.
Proof.
  revert fuel. induction ls as [|l ls IH]; intros fuel Hf Hls; [by destruct fuel|].
  cbn [forallb] in Hls. apply andb_prop in Hls as [Hl Hls].
  unfold terminated in *. cbn [fmap list_fmap concat] in *. rewrite <-app_assoc in *. cbn [app] in *.
  rewrite length_app in Hf. cbn [length] in Hf.
  destruct fuel as [|fuel]; [lia|]. cbn [split_lines].
  rewrite (find_first_app is_eol l 10) by done.
  destruct (l ++ 10 :: _) eqn:E; [by destruct l|]. rewrite <-E.
  rewrite take_app_length. rewrite drop_app_ge by lia. replace (S (length l) - length l)%nat with 1%nat by lia.
  cbn [drop]. f_equal. rewrite drop_0. apply IH; [lia|done].
Qed.

Lemma ini_lines_terminated ls : forallb no_eol ls = true -> ini_lines (terminated ls) = ls.
Proof. by apply split_lines_terminated. Qed.

Lemma terminated_app l1 l2 : terminated (l1 ++ l2) = terminated l1 ++ terminated l2.
Proof. unfold terminated. by rewrite fmap_app, concat_app. Qed.

Lemma terminated_concat lls : terminated (concat lls) = concat (terminated <$> lls).
Proof. induction lls as [|l lls IH]; [done|]. cbn [concat fmap list_fmap]. by rewrite terminated_app, IH. Qed.

(** Lines that are each preceded by a line feed, and a last line feed *)
Lemma preceded_terminated ls :
  concat ((fun l => 10 :: l) <$> ls) ++ [10] = 10 :: terminated ls.
Proof.
  unfold terminated. induction ls as [|l ls IH]; [done|]. cbn [fmap list_fmap concat app].
  rewrite <-app_assoc, IH. by rewrite <-app_assoc.
Qed.

(** ** Lines that are written as they are read *)

(** No whitespace at either end *)
Definition trimmed (s : bytes) : bool :=
  match s with [] => true | c :: _ => negb (is_space c) end &&
  match last s with None => true | Some c => negb (is_space c) end.

(** A key that is read back: not empty, without [=] or an end of line, and not starting like
    a comment or a header; and a section and a value *)
Definition key_ok (k : bytes) : bool :=
  match k with [] => false | c :: _ => negb ((c =? 59) || (c =? 35) || (c =? 91)) end
  && trimmed k && no_eol k && forallb (fun c => negb (c =? 61)) k.
Definition value_ok (v : bytes) : bool := trimmed v && no_eol v.

Lemma trim_front_trimmed s : match s with [] => true | c :: _ => negb (is_space c) end = true -> trim_front s = s.
Proof. destruct s as [|c s]; [done|]. cbn [trim_front]. intros H%negb_true_iff. by rewrite H. Qed.

Lemma trim_back_trimmed s : match last s with None => true | Some c => negb (is_space c) end = true -> trim_back s = s.
Proof.
  unfold trim_back. intros H. rewrite trim_front_trimmed; [apply rev_involutive|].
  destruct s as [|x s _] using rev_ind; [done|]. rewrite rev_app_distr. cbn. by rewrite last_snoc in H.
Qed.

Lemma trim_line_trimmed s : trimmed s = true -> trim_line s = s.
Proof.
  intros [H1 H2]%andb_prop. unfold trim_line. rewrite trim_front_trimmed by done. by apply trim_back_trimmed.
Qed.

Lemma trim_front_snoc l c : is_space c = false -> trim_front (l ++ [c]) = trim_front l ++ [c].
Proof.
  intros Hc. induction l as [|x l IH]; cbn [app trim_front]; [by rewrite Hc|]. by destruct (is_space x).
Qed.

Lemma trim_line_head c s : is_space c = false -> exists s', trim_line (c :: s) = c :: s'.
Proof.
  intros Hc. unfold trim_line. cbn [trim_front]. rewrite Hc. unfold trim_back. cbn [rev].
  rewrite trim_front_snoc by done. rewrite rev_app_distr. cbn. by eexists.
Qed.

Lemma classify_comment s : classify (trim_line (35 :: s)) = Ignored.
Proof. destruct (trim_line_head 35 s) as [s' ->]; done. Qed.

Lemma classify_header s : classify (trim_line (91 :: s ++ [93])) = Header s.
Proof.
  rewrite trim_line_trimmed.
  - unfold classify. cbn [Z.eqb Pos.eqb orb andb].
    rewrite (app_comm_cons s [93] 91), last_snoc. rewrite bool_decide_true by done. cbn [drop app]. rewrite drop_0.
    unfold remove_suffix. rewrite length_app. cbn [length]. by rewrite Nat.add_sub, take_app_length.
  - unfold trimmed. by rewrite app_comm_cons, last_snoc.
Qed.

Lemma str_find_eq k v : forallb (fun c => negb (c =? 61)) k = true ->
  str_find (str "=") (k ++ 61 :: v) = Some (length k).
Proof.
  intros Hk. induction k as [|c k IH]; [done|]. cbn [forallb] in Hk. apply andb_prop in Hk as [Hc Hk].
  cbn [app str_find length]. rewrite IH by done.
  unfold starts_with. rewrite bool_decide_false; [done|]. cbn. intros [= ->]. done.
Qed.

Lemma classify_key_value k v : key_ok k = true -> value_ok v = true ->
  classify (trim_line (k ++ 61 :: v)) = KeyValue k v.
Proof.
  unfold key_ok, value_ok. intros [[[Hh [Hk1 Hk2]%andb_prop]%andb_prop Hke]%andb_prop Heq]%andb_prop.
  intros [[Hv1 Hv2]%andb_prop Hve]%andb_prop.
  destruct k as [|c k]; [done|]. rewrite trim_line_trimmed.
  - unfold classify. cbn [app]. apply negb_true_iff, orb_false_elim in Hh as [[H1 H2]%orb_false_elim H3].
    rewrite H1, H2, H3. cbn [orb andb]. rewrite app_comm_cons, str_find_eq by done.
    rewrite take_app_length, (drop_app_ge (c :: k)) by (cbn; lia).
    replace (S (length (c :: k)) - length (c :: k))%nat with 1%nat by lia. cbn [drop]. rewrite drop_0.
    rewrite trim_back_trimmed, trim_front_trimmed by done. by rewrite bool_decide_false.
  - unfold trimmed. cbn [app]. apply andb_true_intro. split; [done|].
    rewrite app_comm_cons. rewrite last_app_cons. destruct v as [|x v]; [done|].
    rewrite last_cons_cons. done.
Qed.
