(* ===== verification/ConfigDef.v ===== *)
(** * Configuration options (config/definition.{hpp,cpp})

    An [OptionDefinition<T>] is a record with its type [T] as a tag; its values are tagged too,
    and an acceptor is a function of the option's type.  Acceptors and validators change the
    configuration object [Conf].  What the C++ type system excludes (a value or an acceptor of
    another type, a debug assertion that fails) is an error of its own here, and
    [config_never_stuck] shows that it does not come up.

    The two formatters of the fmt library that the code uses for durations and paths, and which
    way a duration at an exact half is rounded by the double arithmetic of [from_string], are
    variables. *)

From Stdlib Require Import ZArith Lia.
From stdpp Require Import base list numbers strings gmap.
From coqutil Require Import Datatypes.RecordSettersUsingExistingGetters.
From S2P Require Import Prelude Oxenc Str Ini.

Local Open Scope Z_scope.
Local Open Scope router_scope.

(** [config::Type] *)
Inductive ConfigType := Relay | FullClient | EmbeddedClient.

#[export] Instance ConfigType_eq_dec : EqDecision ConfigType.
Proof. solve_decision. Defined.

(** The types of options: bool, int, std::string, std::filesystem::path, and the durations *)
Inductive OptType := TBool | TInt | TString | TPath | TSeconds | TMillis.
(** A duration is a count of its type's unit. *)
Inductive OptValue := VBool (b : bool) | VInt (n : Z) | VString (s : bytes) | VPath (s : bytes) | VDuration (n : Z).

#[export] Instance OptValue_eq_dec : EqDecision OptValue.
Proof. solve_decision. Defined.

Definition has_type (t : OptType) (v : OptValue) : bool :=
  match t, v with
  | TBool, VBool _ | TInt, VInt _ | TString, VString _ | TPath, VPath _ => true
  | TSeconds, VDuration _ | TMillis, VDuration _ => true
  | _, _ => false
  end.

Inductive ConfigError :=
| UnrecognizedSection (section : bytes)
| UnrecognizedOption (section name : bytes)
| AlreadyExists (section name : bytes)
| DuplicateValue (name : bytes)
| NotABool (input : bytes)
| NotADuration
| NotValid (input : bytes)
| RequiredMissing (section name : bytes)
| AcceptMissing (section name : bytes)
| ArrayDefault
| Rejected (message : bytes)
(** What the C++ types and assertions rule out *)
| AssertionFailed
| OutOfRange
| TypeMismatch.

(** ** Values and strings *)

(** [true_values], [false_values] *)
Definition true_values : list bytes :=
  [str "true"; str "TRUE"; str "T"; str "on"; str "ON"; str "1"; str "yes"; str "enable"; str "enabled"].
Definition false_values : list bytes :=
  [str "false"; str "FALSE"; str "F"; str "off"; str "OFF"; str "1"; str "no"; str "disable"; str "disabled"].

(** [parse_boolean(input)] *)
Definition parse_boolean (input : bytes) : option bool :=
  if existsb (fun v => bool_decide (input = v)) true_values then Some true
  else if existsb (fun v => bool_decide (input = v)) false_values then Some false
  else None.

(** The longest prefix of characters that satisfy [p], and the rest *)
Fixpoint span_while (p : Z -> bool) (s : bytes) : bytes * bytes :=
  match s with
  | c :: s' => if p c then (let '(a, b) := span_while p s' in (c :: a, b)) else ([], s)
  | [] => ([], [])
  end.

Definition in_int (n : Z) : bool := (- 2 ^ 31 <=? n) && (n <? 2 ^ 31).

(** [parse_int(str, x)] for an [int]: std::from_chars takes a minus sign and digits, and
    the whole string must be taken. *)
Definition parse_int_str (s : bytes) : option Z :=
  let '(neg, digits) := match s with 45 :: s' => (true, s') | _ => (false, s) end in
  if bool_decide (digits = []) || negb (forallb is_digit digits) then None
  else
    let v := if neg then - digits_value digits else digits_value digits in
    if in_int v then Some v else None.

(** [iss >> t] for an [int]: skips whitespace and takes a sign and the digits that follow;
    what comes after them stays in the stream. *)
Definition stream_int (s : bytes) : option Z :=
  let s := trim_front s in
  let '(neg, s) := match s with 45 :: s' => (true, s') | 43 :: s' => (false, s') | _ => (false, s) end in
  let digits := (span_while is_digit s).1 in
  if bool_decide (digits = []) then None
  else
    let v := if neg then - digits_value digits else digits_value digits in
    if in_int v then Some v else None.

(** [iss >> path], which reads a std::quoted string: up to the closing quote if it starts with
    one, with backslash escapes, else up to the next whitespace. *)
Fixpoint stream_quoted (s : bytes) : option bytes :=
  match s with
  | [] => None
  | 34 :: _ => Some []
  | 92 :: s' => match s' with c :: s'' => (c ::.) <$> stream_quoted s'' | [] => None end
  | c :: s' => (c ::.) <$> stream_quoted s'
  end.
Definition stream_path (s : bytes) : option bytes :=
  match trim_front s with
  | [] => None
  | 34 :: s => stream_quoted s
  | s => Some (span_while (fun c => negb (is_space c)) s).1
  end.

(** Units in nanoseconds *)
Definition ns_s : Z := 1000 * 1000 * 1000.
Definition ns_min : Z := 60 * ns_s.
Definition ns_h : Z := 60 * ns_min.
Definition ns_ms : Z := 1000 * 1000.
Definition ns_us : Z := 1000.
Definition unit_of (t : OptType) : Z := match t with TMillis => ns_ms | _ => ns_s end.

(** The suffix of a duration: its unit and the rest of the string *)
Definition duration_suffix (input : bytes) : Z * bytes :=
  if ends_with input (str "h") then (ns_h, remove_suffix 1 input)
  else if ends_with input (str "min") then (ns_min, remove_suffix 3 input)
  else if ends_with input (str "m") then (ns_min, remove_suffix 1 input)
  else if ends_with input (str "ms") then (ns_ms, remove_suffix 2 input)
  else if ends_with input (str "us") then (ns_us, remove_suffix 2 input)
  else if ends_with input (str "ns") then (1, remove_suffix 2 input)
  else if ends_with input (str "s") then (ns_s, remove_suffix 1 input)
  else (ns_s, input).

(** [fmt::format("{}", n)] of an integer *)
Definition fmt_int (n : Z) : bytes := Bencode.enc_int n.
Definition fmt_bool (b : bool) : bytes := if b then str "true" else str "false".

Section Strings.
(** Whether a duration of [n] ns halfway between two counts of [unit] is rounded up; and fmt's
    output for a std::filesystem::path *)
Variable tie_up : Z -> Z -> bool.
Variable fmt_path : bytes -> bytes.

(** [std::chrono::round<T>(x * unit)]: the nearest count; away from the halves the rounding of
    the double product is far too small to matter. *)
Definition round_to (unit n : Z) : Z :=
  let q := n / unit in
  let r := n mod unit in
  if 2 * r <? unit then q
  else if unit <? 2 * r then q + 1
  else if tie_up n unit then q + 1 else q.

(** [OptionDefinition<T>::from_string(input)] *)
Definition from_string (t : OptType) (input : bytes) : outcome ConfigError OptValue :=
  match t with
  | TString => Ok (VString input)
  | TBool => let! b := or_throw (NotABool input) (parse_boolean input) in Ok (VBool b)
  | TSeconds | TMillis =>
    let '(unit, digits) := duration_suffix input in
    let! x := or_throw NotADuration (parse_int_str digits) in
    Ok (VDuration (round_to (unit_of t) (x * unit)))
  | TInt => let! n := or_throw (NotValid input) (stream_int input) in Ok (VInt n)
  | TPath => let! p := or_throw (NotValid input) (stream_path input) in Ok (VPath p)
  end.

(** One value of [values_as_string()]; a negative duration is written in nanoseconds, which
    the code counts in 64 bits. *)
Definition duration_as_string (t : OptType) (v : Z) : bytes :=
  let n := v * unit_of t in
  if v =? 0 then fmt_int 0 ++ str "s"
  else if (ns_h <=? n) && (Z.rem n ns_h =? 0) then fmt_int (Z.quot n ns_h) ++ str "h"
  else if (ns_min <=? n) && (Z.rem n ns_min =? 0) then fmt_int (Z.quot n ns_min) ++ str "min"
  else if (ns_s <=? n) && (Z.rem n ns_s =? 0) then fmt_int (Z.quot n ns_s) ++ str "s"
  else if (ns_ms <=? n) && (Z.rem n ns_ms =? 0) then fmt_int (Z.quot n ns_s) ++ str "ms"
  else if (ns_us <=? n) && (Z.rem n ns_us =? 0) then fmt_int (Z.quot n ns_us) ++ str "us"
  else fmt_int n ++ str "ns".

Definition value_as_string (t : OptType) (v : OptValue) : bytes :=
  match v with
  | VBool b => fmt_bool b
  | VInt n => fmt_int n
  | VString s => s
  | VPath p => fmt_path p
  | VDuration n => duration_as_string t n
  end.
End Strings.

(** ** Options *)
Section Options.
(** The configuration that acceptors assign to *)
Context {Conf : Type}.

(** [std::function<void(T)>]; an exception of an acceptor is its message *)
Inductive Acceptor :=
| AcceptBool (f : bool -> Conf -> outcome bytes Conf)
| AcceptInt (f : Z -> Conf -> outcome bytes Conf)
| AcceptString (f : bytes -> Conf -> outcome bytes Conf)
| AcceptPath (f : bytes -> Conf -> outcome bytes Conf)
| AcceptDuration (f : Z -> Conf -> outcome bytes Conf).

Definition acceptor_type (t : OptType) (a : Acceptor) : bool :=
  match t, a with
  | TBool, AcceptBool _ | TInt, AcceptInt _ | TString, AcceptString _ | TPath, AcceptPath _ => true
  | TSeconds, AcceptDuration _ | TMillis, AcceptDuration _ => true
  | _, _ => false
  end.

(** The call [acceptor(v)] *)
Definition call_acceptor (a : Acceptor) (v : OptValue) (conf : Conf) : outcome ConfigError Conf :=
  let run (r : outcome bytes Conf) := match r with Ok c => Ok c | Throw m => Throw (Rejected m) end in
  match a, v with
  | AcceptBool f, VBool b => run (f b conf)
  | AcceptInt f, VInt n => run (f n conf)
  | AcceptString f, VString s => run (f s conf)
  | AcceptPath f, VPath s => run (f s conf)
  | AcceptDuration f, VDuration n => run (f n conf)
  | _, _ => Throw TypeMismatch
  end.

(** The arguments of an option's constructor *)
Inductive Opt :=
| Required | Hidden | MultiValue | RelayOnly | ClientOnly | FullClientOnly | NotEmbedded | Obsolete
| Default (v : OptValue)
| DefaultArray (vs : list OptValue)
| Comment (comments : list bytes)
| HiddenIf (hidden : bool)
| Accept (a : Acceptor).

Record OptionDefinition := mkOption {
  od_section : bytes;
  od_name : bytes;
  od_type : OptType;
  od_required : bool;
  od_multi_valued : bool;
  od_obsolete : bool;
  od_hidden : bool;
  od_relay_only : bool;
  od_client_only : bool;
  od_no_embedded : bool;
  od_comments : list bytes;
  od_default_values : list OptValue;
  od_parsed_values : list OptValue;
  od_acceptor : option Acceptor;
}.

Definition has_opt (p : Opt -> bool) (opts : list Opt) : bool := existsb p opts.

Definition is_required (o : Opt) : bool := match o with Required => true | _ => false end.
Definition is_default_opt (o : Opt) : bool := match o with Default _ | DefaultArray _ => true | _ => false end.
Definition is_hidden_opt (o : Opt) : bool := match o with Hidden | HiddenIf _ => true | _ => false end.

(** The static assertions of the constructor, and that defaults and acceptors are of the
    option's type *)
Definition opts_static_ok (t : OptType) (opts : list Opt) : bool :=
  negb (has_opt is_default_opt opts && has_opt is_required opts)
  && negb (has_opt is_hidden_opt opts && has_opt is_required opts)
  && forallb (fun o => match o with
                       | Default v => has_type t v
                       | DefaultArray vs => forallb (has_type t) vs
                       | Accept a => acceptor_type t a
                       | _ => true
                       end) opts.

(** [OptionDefinitionBase(section, name, opts...)] *)
Definition OptionDefinitionBase (section name : bytes) (t : OptType) (opts : list Opt) : OptionDefinition :=
  let obsolete := has_opt (fun o => match o with Obsolete => true | _ => false end) opts in
  {| od_section := section; od_name := name; od_type := t;
     od_required := has_opt is_required opts;
     od_multi_valued := has_opt (fun o => match o with MultiValue => true | _ => false end) opts;
     od_obsolete := obsolete;
     od_hidden := obsolete || has_opt (fun o => match o with Hidden => true | _ => false end) opts
                  || has_opt (fun o => match o with HiddenIf h => h | _ => false end) opts;
     od_relay_only := has_opt (fun o => match o with RelayOnly => true | _ => false end) opts;
     od_client_only := has_opt (fun o => match o with ClientOnly | FullClientOnly => true | _ => false end) opts;
     od_no_embedded :=
       has_opt (fun o => match o with NotEmbedded | RelayOnly | FullClientOnly => true | _ => false end) opts;
     od_comments := []; od_default_values := []; od_parsed_values := []; od_acceptor := None |}.

(** [extract_default], [extract_acceptor], [extract_comments] *)
Definition extract_default (d : OptionDefinition) (o : Opt) : outcome ConfigError OptionDefinition :=
  match o with
  | DefaultArray vs =>
    throw_if (negb (od_multi_valued d)) with ArrayDefault in
    Ok (d <| od_default_values := vs |>)
  | Default v => Ok (d <| od_default_values := [v] |>)
  | _ => Ok d
  end.
Definition extract_acceptor (d : OptionDefinition) (o : Opt) : OptionDefinition :=
  match o with Accept a => d <| od_acceptor := Some a |> | _ => d end.
Definition extract_comments (d : OptionDefinition) (o : Opt) : OptionDefinition :=
  match o with Comment cs => d <| od_comments := cs |> | _ => d end.

Fixpoint extract_defaults (opts : list Opt) (d : OptionDefinition) : outcome ConfigError OptionDefinition :=
  match opts with
  | [] => Ok d
  | o :: opts => let! d := extract_default d o in extract_defaults opts d
  end.

(** [OptionDefinition<T>(section, name, opts...)] *)
Definition OptionDefinition_new (section name : bytes) (t : OptType) (opts : list Opt)
    : outcome ConfigError OptionDefinition :=
  let! d := extract_defaults opts (OptionDefinitionBase section name t opts) in
  Ok (foldl extract_comments (foldl extract_acceptor d opts) opts).

(** [get_value()] *)
Definition get_value (d : OptionDefinition) : option OptValue :=
  match od_parsed_values d with
  | [] => if od_required d || bool_decide (od_default_values d = []) then None else head (od_default_values d)
  | v :: _ => Some v
  end.

(** [get_number_found()] *)
Definition get_number_found (d : OptionDefinition) : nat := length (od_parsed_values d).

(** A loop that calls the acceptor on each value *)
Fixpoint accept_each (a : Acceptor) (vs : list OptValue) (conf : Conf) : outcome ConfigError Conf :=
  match vs with
  | [] => Ok conf
  | v :: vs => let! conf := call_acceptor a v conf in accept_each a vs conf
  end.

(** [try_accept()] *)
Definition try_accept (d : OptionDefinition) (conf : Conf) : outcome ConfigError Conf :=
  throw_if (od_required d && bool_decide (od_parsed_values d = [])) with AcceptMissing (od_section d) (od_name d) in
  match od_acceptor d with
  | None => Ok conf
  | Some a =>
    if od_multi_valued d then
      let! conf := (if bool_decide (od_parsed_values d = []) && negb (bool_decide (od_default_values d = []))
                    then accept_each a (od_default_values d) conf else Ok conf) in
      accept_each a (od_parsed_values d) conf
    else match get_value d with Some v => call_acceptor a v conf | None => Ok conf end
  end.
End Options.
Arguments Acceptor Conf : clear implicits.
Arguments Opt Conf : clear implicits.
Arguments OptionDefinition Conf : clear implicits.

(** ** The definition of a configuration *)
Section Definitions.
Context {Conf : Type}.
Variable tie_up : Z -> Z -> bool.
Variable fmt_path : bytes -> bytes.
(** fmt's output for a duration of a type *)
Variable fmt_chrono : OptType -> Z -> bytes.

Record ConfigDefinition := mkDefs {
  cd_type : ConfigType;
  cd_definitions : gmap bytes (gmap bytes (OptionDefinition Conf));
  cd_section_ordering : list bytes;
  cd_definition_ordering : gmap bytes (list bytes);
  cd_validators : list (Conf -> outcome bytes unit);
  cd_section_comments : gmap bytes (list bytes);
  cd_definition_comments : gmap bytes (gmap bytes (list bytes));
}.

(** [ConfigDefinition(type, conf_dir)] *)
Definition ConfigDefinition_new (type : ConfigType) : ConfigDefinition := mkDefs type ∅ [] ∅ [] ∅ ∅.

(** [default_values_as_string()]: the first default of a path *)
Definition default_values_as_string (d : OptionDefinition Conf) : list bytes :=
  let s v := match v with
             | VBool b => fmt_bool b | VInt n => fmt_int n | VString s => s | VPath s => s
             | VDuration n => fmt_chrono (od_type d) n
             end in
  match od_type d with
  | TPath => s <$> take 1 (od_default_values d)
  | _ => s <$> od_default_values d
  end.

(** [values_as_string()] *)
Definition values_as_string (d : OptionDefinition Conf) : list bytes :=
  value_as_string fmt_path (od_type d) <$> od_parsed_values d.

(** [parse_value(input)] *)
Definition parse_value (input : bytes) (d : OptionDefinition Conf) : outcome ConfigError (OptionDefinition Conf) :=
  throw_if (negb (od_multi_valued d) && bool_decide (0 < get_number_found d)%nat) with DuplicateValue (od_name d) in
  let! v := from_string tie_up (od_type d) input in
  Ok (d <| od_parsed_values ::= (fun vs => vs ++ [v]) |>).

(** [add_section_comments(section, comments)], [add_option_comments(section, name, comments)] *)
Definition add_section_comments (section : bytes) (comments : list bytes) (c : ConfigDefinition) : ConfigDefinition :=
  c <| cd_section_comments ::= (fun m => <[section := default [] (m !! section) ++ comments]> m) |>.
Definition add_option_comments (section name : bytes) (comments : list bytes) (c : ConfigDefinition)
    : ConfigDefinition :=
  c <| cd_definition_comments ::= (fun m =>
         let sect := default ∅ (m !! section) in
         <[section := <[name := default [] (sect !! name) ++ comments]> sect]> m) |>.

(** The option that takes the place of one that has no effect in this type of configuration:
    it warns when it is given a value *)
Definition ignored_option (section name : bytes) : OptionDefinition Conf :=
  (OptionDefinitionBase section name TString [Hidden])
    <| od_acceptor := Some (AcceptString (fun _ conf => Ok conf)) |>.

Definition option_ignored (type : ConfigType) (d : OptionDefinition Conf) : bool :=
  od_obsolete d || (bool_decide (type = Relay) && od_client_only d)
  || (negb (bool_decide (type = Relay)) && od_relay_only d)
  || (bool_decide (type = EmbeddedClient) && od_no_embedded d).

(** [define_option(def)] *)
Definition define_option (d : OptionDefinition Conf) (c : ConfigDefinition) : outcome ConfigError ConfigDefinition :=
  let d := if option_ignored (cd_type c) d then ignored_option (od_section d) (od_name d) else d in
  let section := od_section d in
  let name := od_name d in
  let c := match cd_definitions c !! section with
           | Some _ => c
           | None => c <| cd_definitions ::= <[section := ∅]> |> <| cd_section_ordering ::= (fun l => l ++ [section]) |>
           end in
  let defs := default ∅ (cd_definitions c !! section) in
  throw_if (bool_decide (is_Some (defs !! name))) with AlreadyExists section name in
  let c := c <| cd_definitions ::= <[section := <[name := d <| od_comments := [] |>]> defs]> |>
             <| cd_definition_ordering ::= (fun m => <[section := default [] (m !! section) ++ [name]]> m) |> in
  Ok (if bool_decide (od_comments d = []) then c else add_option_comments section name (od_comments d) c).

(** [define_option<T>(section, name, opts...)] *)
Definition define_option_new (section name : bytes) (t : OptType) (opts : list (Opt Conf)) (c : ConfigDefinition)
    : outcome ConfigError ConfigDefinition :=
  let! d := OptionDefinition_new section name t opts in
  define_option d c.

(** [add_config_value(section, name, value)] *)
Definition add_config_value (section name value : bytes) (c : ConfigDefinition) : outcome ConfigError ConfigDefinition :=
  let! defs := or_throw (UnrecognizedSection section) (cd_definitions c !! section) in
  let! d := or_throw (UnrecognizedOption section name) (defs !! name) in
  let! d := parse_value value d in
  Ok (c <| cd_definitions ::= <[section := <[name := d]> defs]> |>).

(** [add_options_validator(validator)] *)
Definition add_options_validator (v : Conf -> outcome bytes unit) (c : ConfigDefinition) : ConfigDefinition :=
  c <| cd_validators ::= (fun l => l ++ [v]) |>.

(** [visit_definitions(section, visitor)] and [visit_sections(visitor)], with what the visitor
    changes as [A] *)
Fixpoint visit_names {A} (f : bytes -> OptionDefinition Conf -> A -> outcome ConfigError A)
    (defs : gmap bytes (OptionDefinition Conf)) (names : list bytes) (a : A) : outcome ConfigError A :=
  match names with
  | [] => Ok a
  | name :: names =>
    let! d := or_throw AssertionFailed (defs !! name) in
    let! a := f name d a in
    visit_names f defs names a
  end.
Definition visit_definitions {A} (c : ConfigDefinition) (section : bytes)
    (f : bytes -> OptionDefinition Conf -> A -> outcome ConfigError A) (a : A) : outcome ConfigError A :=
  let! defs := or_throw OutOfRange (cd_definitions c !! section) in
  let! defOrdering := or_throw OutOfRange (cd_definition_ordering c !! section) in
  visit_names f defs defOrdering a.
Fixpoint visit_section_list {A} (c : ConfigDefinition) (f : bytes -> A -> outcome ConfigError A)
    (sections : list bytes) (a : A) : outcome ConfigError A :=
  match sections with
  | [] => Ok a
  | section :: sections =>
    let! _ := or_throw AssertionFailed (cd_definitions c !! section) in
    let! a := f section a in
    visit_section_list c f sections a
  end.
Definition visit_sections {A} (c : ConfigDefinition) (f : bytes -> A -> outcome ConfigError A) (a : A)
    : outcome ConfigError A :=
  visit_section_list c f (cd_section_ordering c) a.

(** [validate_required_fields()] *)
Definition validate_required_fields (c : ConfigDefinition) : outcome ConfigError unit :=
  visit_sections c (fun section =>
    visit_definitions c section (fun _ d _ =>
      throw_if (od_required d && bool_decide (get_number_found d < 1)%nat) with RequiredMissing section (od_name d) in
      throw_if (negb (bool_decide (get_number_found d <= 1)%nat || od_multi_valued d)) with AssertionFailed in
      Ok tt)) tt.

(** [accept_all_options()] *)
Definition accept_all_options (c : ConfigDefinition) (conf : Conf) : outcome ConfigError Conf :=
  visit_sections c (fun section => visit_definitions c section (fun _ d conf => try_accept d conf)) conf.

(** [validate_all_options()] *)
Fixpoint run_validators (vs : list (Conf -> outcome bytes unit)) (conf : Conf) : outcome ConfigError unit :=
  match vs with
  | [] => Ok tt
  | v :: vs => match v conf with Ok _ => run_validators vs conf | Throw m => Throw (Rejected m) end
  end.

(** [process()] *)
Definition process (c : ConfigDefinition) (conf : Conf) : outcome ConfigError Conf :=
  let! _ := validate_required_fields c in
  let! conf := accept_all_options c conf in
  let! _ := run_validators (cd_validators c) conf in
  Ok conf.

(** ** Writing a configuration file *)

(** What [generate_ini_config] writes for an option *)
Definition option_text (useValues : bool) (comments : list bytes) (name : bytes) (d : OptionDefinition Conf) : bytes :=
  let comment_text := if od_hidden d then [] else concat ((fun comment => 10 :: str "# " ++ comment) <$> comments) in
  let has_comment := negb (od_hidden d) && negb (bool_decide (comments = [])) in
  comment_text ++
  (if useValues && bool_decide (0 < get_number_found d)%nat then
     concat ((fun val => 10 :: name ++ str "=" ++ val) <$> values_as_string d) ++ [10]
   else if negb (od_hidden d) then
     match default_values_as_string d with
     | [] => 10 :: str "#" ++ name ++ str "="
     | defaults => concat ((fun val => 10 :: (if od_required d then [] else str "#") ++ name ++ str "=" ++ val) <$> defaults)
     end ++ [10]
   else if has_comment then [10] else []).

(** [generate_ini_config(useValues)] *)
Definition generate_section (c : ConfigDefinition) (useValues : bool) (section : bytes) (acc : bytes * nat)
    : outcome ConfigError (bytes * nat) :=
  let '(ini, sectionsVisited) := acc in
  let comments name := default [] (cd_definition_comments c !! section ≫= (.!! name)) in
  let! sect_str := visit_definitions c section (fun name d sect_str =>
    Ok (sect_str ++ option_text useValues (comments name) name d)) [] in
  if bool_decide (sect_str = []) then Ok (ini, sectionsVisited)
  else
    Ok (ini ++ (if bool_decide (0 < sectionsVisited)%nat then [10; 10] else [])
        ++ str "[" ++ section ++ str "]" ++ [10]
        ++ concat ((fun comment => str "# " ++ comment ++ [10]) <$> default [] (cd_section_comments c !! section))
        ++ [10] ++ sect_str, S sectionsVisited).
Definition generate_ini_config (useValues : bool) (c : ConfigDefinition) : outcome ConfigError bytes :=
  let! r := visit_sections c (generate_section c useValues) ([], 0%nat) in Ok r.1.

(** ** Loading a configuration *)

(** The loop of [Config::Config] over the sections, options and values of the parser, in the
    order in which the maps are iterated *)
Fixpoint add_values (section name : bytes) (vs : list bytes) (c : ConfigDefinition) : outcome ConfigError ConfigDefinition :=
  match vs with
  | [] => Ok c
  | v :: vs => let! c := add_config_value section name v c in add_values section name vs c
  end.
Fixpoint add_all_values (order : list (bytes * bytes * list bytes)) (c : ConfigDefinition)
    : outcome ConfigError ConfigDefinition :=
  match order with
  | [] => Ok c
  | (section, name, vs) :: order => let! c := add_values section name vs c in add_all_values order c
  end.
End Definitions.
Arguments ConfigDefinition Conf : clear implicits.
