(* ===== verification/ConfigTyped.v ===== *)
(** * Configurations are well formed (config/definition.{hpp,cpp})

    Whatever options are defined and whatever values are added, the orderings of a
    [ConfigDefinition] list exactly its sections and options, the values and the acceptor of an
    option are of its type, and an option that is not multi-valued has one value at most.  So
    processing the configuration fails only for the reasons a user can be told about. *)

From Stdlib Require Import ZArith Lia.
From stdpp Require Import base list numbers strings gmap.
From coqutil Require Import Datatypes.RecordSettersUsingExistingGetters.
From S2P Require Import Prelude Oxenc Str Ini ConfigDef.

Local Open Scope Z_scope.
Local Open Scope router_scope.

Section WellFormed.
Context {Conf : Type}.
Variable tie_up : Z -> Z -> bool.
Variable fmt_path : bytes -> bytes.
Variable fmt_chrono : OptType -> Z -> bytes.

Record option_ok (section name : bytes) (d : OptionDefinition Conf) : Prop := {
  ok_section : od_section d = section;
  ok_name : od_name d = name;
  ok_defaults : forallb (has_type (od_type d)) (od_default_values d) = true;
  ok_parsed : forallb (has_type (od_type d)) (od_parsed_values d) = true;
  ok_single : od_multi_valued d = false -> (length (od_parsed_values d) <= 1)%nat;
  ok_required : od_required d = true -> od_default_values d = [];
  ok_acceptor : forall a, od_acceptor d = Some a -> acceptor_type (od_type d) a = true;
}.

(** The orderings of a section's options *)
Definition section_ok (c : ConfigDefinition Conf) (section : bytes) (defs : gmap bytes (OptionDefinition Conf)) : Prop :=
  exists order, cd_definition_ordering c !! section = Some order /\ NoDup order /\
    (forall name, name ∈ order <-> is_Some (defs !! name)) /\
    (forall name d, defs !! name = Some d -> option_ok section name d).

Record config_ok (c : ConfigDefinition Conf) : Prop := {
  ok_nodup : NoDup (cd_section_ordering c);
  ok_sections : forall s, s ∈ cd_section_ordering c <-> is_Some (cd_definitions c !! s);
  ok_unordered : forall s, cd_definitions c !! s = None -> cd_definition_ordering c !! s = None;
  ok_options : forall s defs, cd_definitions c !! s = Some defs -> section_ok c s defs;
}.

(** ** Constructing options *)

(** What the constructor's passes leave as it is *)
Definition same_base (d d' : OptionDefinition Conf) : Prop :=
  od_section d' = od_section d /\ od_name d' = od_name d /\ od_type d' = od_type d /\
  od_required d' = od_required d /\ od_multi_valued d' = od_multi_valued d /\
  od_parsed_values d' = od_parsed_values d.

Lemma extract_acceptors_ok t opts (d : OptionDefinition Conf) :
  forallb (fun o => match o with Accept a => acceptor_type t a | _ => true end) opts = true ->
  (forall a, od_acceptor d = Some a -> acceptor_type t a = true) ->
  let d' := foldl extract_acceptor d opts in
  same_base d d' /\ od_default_values d' = od_default_values d /\
  forall a, od_acceptor d' = Some a -> acceptor_type t a = true.
Proof.
  revert d. induction opts as [|o opts IH]; intros d Hopts Hd; [done|].
  cbn [forallb] in Hopts. apply andb_prop in Hopts as [Ho Hopts]. cbn [foldl].
  specialize (IH (extract_acceptor d o) Hopts).
  destruct o; cbn [extract_acceptor] in *; try (by apply IH).
  apply IH. cbn. by intros ? [= <-].
Qed.

Lemma extract_comments_same opts (d : OptionDefinition Conf) :
  let d' := foldl extract_comments d opts in
  same_base d d' /\ od_default_values d' = od_default_values d /\ od_acceptor d' = od_acceptor d.
Proof.
  revert d. induction opts as [|o opts IH]; intros d; [done|]. cbn [foldl].
  specialize (IH (extract_comments d o)). by destruct o.
Qed.

Lemma extract_defaults_ok t opts (d d' : OptionDefinition Conf) :
  forallb (fun o => match o with Default v => has_type t v | DefaultArray vs => forallb (has_type t) vs | _ => true end)
    opts = true ->
  forallb (has_type t) (od_default_values d) = true ->
  extract_defaults opts d = Ok d' ->
  same_base d d' /\ od_acceptor d' = od_acceptor d /\ forallb (has_type t) (od_default_values d') = true /\
  (has_opt is_default_opt opts = false -> od_default_values d' = od_default_values d).
Proof.
  revert d. induction opts as [|o opts IH]; intros d Hopts Hd H; cbn [extract_defaults] in H.
  - by injection H as <-.
  - cbn [forallb] in Hopts. apply andb_prop in Hopts as [Ho Hopts]. apply outcome_bind_Ok in H as (d1 & H1 & H).
    unfold has_opt. cbn [existsb]. specialize (IH d1 Hopts).
    destruct o; cbn [extract_default is_default_opt orb] in *; simplify_eq;
      try (by apply IH).
    + destruct IH as ((Hb & ?) & Ha & Ht & _); [cbn; by rewrite Ho|done|]. done.
    + outcome_inv H1. simplify_eq. destruct IH as ((Hb & ?) & Ha & Ht & _); [done|done|]. done.
Qed.

Lemma option_new_ok section name t opts (d : OptionDefinition Conf) :
  opts_static_ok t opts = true -> OptionDefinition_new section name t opts = Ok d -> option_ok section name d.
Proof.
  intros [[Hdr Hhr]%andb_prop Hopts]%andb_prop H. unfold OptionDefinition_new in H.
  apply outcome_bind_Ok in H as (d1 & H1 & [= <-]).
  apply (extract_defaults_ok t) in H1 as ((Hs & Hn & Ht & Hr & Hm & Hp) & Ha & Hd & Hnone); [|clear -Hopts..|done].
  2:{ induction opts as [|o opts IH]; [done|]. cbn [forallb] in *. apply andb_prop in Hopts as [Ho Hopts].
      rewrite IH by done. by destruct o; rewrite ?Ho. }
  assert (Hacc : forallb (fun o => match o with Accept a => acceptor_type t a | _ => true end) opts = true).
  { clear -Hopts. induction opts as [|o opts IH]; [done|]. cbn [forallb] in *. apply andb_prop in Hopts as [Ho Hopts].
    rewrite IH by done. by destruct o; rewrite ?Ho. }
  pose proof (extract_acceptors_ok t opts d1 Hacc) as ((As & An & At & Ar & Am & Ap) & Ad & Aa); [by rewrite Ha|].
  pose proof (extract_comments_same opts (foldl extract_acceptor d1 opts)) as ((Cs & Cn & Ct & Cr & Cm & Cp) & Cd & Ca).
  cbn zeta in *. split.
  - by rewrite Cs, As, Hs.
  - by rewrite Cn, An, Hn.
  - rewrite Cd, Ad, Ct, At, Ht. done.
  - by rewrite Cp, Ap, Hp.
  - intros _. rewrite Cp, Ap, Hp. cbn. lia.
  - rewrite Cr, Ar, Hr, Cd, Ad. cbn [od_required OptionDefinitionBase]. intros Hreq. rewrite Hreq, andb_true_r in Hdr.
    by rewrite (Hnone (proj1 (negb_true_iff _) Hdr)).
  - intros a. rewrite Ca, Ct, At, Ht. apply Aa.
Qed.

(** ** Operations *)

Lemma config_new_ok type : config_ok (ConfigDefinition_new (Conf := Conf) type).
Proof. split; cbn; [constructor|..]; intros; [|done|done]. rewrite lookup_empty. split; [by intros ?%elem_of_nil|by intros []]. Qed.

Lemma ignored_option_ok section name : option_ok section name (ignored_option (Conf := Conf) section name).
Proof. split; try done; cbn; [lia|]. by intros ? [= <-]. Qed.

(** Adding an option to a section, known or new *)
Lemma add_definition_ok (c c' : ConfigDefinition Conf) section name d :
  config_ok c -> option_ok section name d ->
  let defs := default ∅ (cd_definitions c !! section) in
  defs !! name = None ->
  cd_definitions c' = <[section := <[name := d]> defs]> (cd_definitions c) ->
  cd_section_ordering c' = (if cd_definitions c !! section then cd_section_ordering c
                            else cd_section_ordering c ++ [section]) ->
  cd_definition_ordering c' = <[section := default [] (cd_definition_ordering c !! section) ++ [name]]>
                                (cd_definition_ordering c) ->
  config_ok c'.
Proof.
  intros Hc Hd defs Hnew Hdefs Hsec Hord. split.
  - rewrite Hsec. destruct (cd_definitions c !! section) eqn:E; [apply Hc|].
    apply NoDup_app. split; [apply Hc|]. split; [|apply NoDup_singleton].
    intros s Hs ->%list_elem_of_singleton. apply (ok_sections c Hc) in Hs. rewrite E in Hs. by destruct Hs.
  - intros s. rewrite Hsec, Hdefs. pose proof (ok_sections c Hc s) as Hs.
    destruct (decide (s = section)) as [->|Hne].
    + rewrite lookup_insert_eq. split; [by eexists|]. intros _.
      destruct (cd_definitions c !! section) eqn:E; [by apply Hs|]. set_solver.
    + rewrite lookup_insert_ne by done. rewrite <-Hs. destruct (cd_definitions c !! section); set_solver.
  - intros s. rewrite Hdefs, Hord. destruct (decide (s = section)) as [->|Hne]; [by rewrite lookup_insert_eq|].
    rewrite !lookup_insert_ne by done. apply Hc.
  - intros s m. rewrite Hdefs. destruct (decide (s = section)) as [->|Hne].
    + rewrite lookup_insert_eq. intros [= <-]. unfold section_ok. rewrite Hord, lookup_insert_eq. eexists. split; [done|].
      assert (exists order, default [] (cd_definition_ordering c !! section) = order /\ NoDup order /\
        (forall n, n ∈ order <-> is_Some (defs !! n)) /\ (forall n d, defs !! n = Some d -> option_ok section n d))
        as (order & -> & Hnd & Hin & Hok).
      { subst defs. destruct (cd_definitions c !! section) as [m|] eqn:E.
        - destruct (ok_options c Hc _ _ E) as (order & -> & ?). by exists order.
        - rewrite (ok_unordered c Hc _ E). exists []. cbn. split; [done|]. split; [constructor|].
          split; intros n; rewrite lookup_empty; [|done]. split; [by intros ?%elem_of_nil|by intros []]. }
      split_and!.
      * apply NoDup_app. split; [done|]. split; [|apply NoDup_singleton].
        intros n Hn ->%list_elem_of_singleton. apply Hin in Hn. rewrite Hnew in Hn. by destruct Hn.
      * intros n. rewrite elem_of_app, list_elem_of_singleton, Hin.
        destruct (decide (n = name)) as [->|]; [rewrite lookup_insert_eq|rewrite lookup_insert_ne by done]; naive_solver.
      * intros n d'. destruct (decide (n = name)) as [->|]; [rewrite lookup_insert_eq|rewrite lookup_insert_ne by done];
          naive_solver.
    + rewrite lookup_insert_ne by done. intros (order & Ho & Hr)%(ok_options c Hc). exists order.
      split; [|done]. by rewrite Hord, lookup_insert_ne.
Qed.

Lemma option_ok_comments section name (d : OptionDefinition Conf) :
  option_ok section name d -> option_ok section name (d <| od_comments := [] |>).
Proof. intros []. by split. Qed.

Lemma define_option_ok (d : OptionDefinition Conf) c c' : config_ok c -> option_ok (od_section d) (od_name d) d ->
  define_option d c = Ok c' -> config_ok c'.
Proof.
  intros Hc Hd H. unfold define_option in H. cbn zeta in H.
  set (d' := if option_ignored (cd_type c) d then _ else d) in H.
  assert (Hd' : option_ok (od_section d') (od_name d') d').
  { subst d'. destruct (option_ignored _ d); [apply ignored_option_ok|done]. }
  generalize dependent d'. clear d Hd. intros d H Hd.
  outcome_inv H. injection H as <-. apply bool_decide_eq_false in Hg.
  eapply (add_definition_ok c _ (od_section d) (od_name d) _ Hc (option_ok_comments _ _ _ Hd)); cbn zeta.
  - destruct (cd_definitions c !! od_section d) eqn:E; [rewrite E in Hg|cbn in Hg; rewrite lookup_insert_eq in Hg];
      cbn in *; [by apply eq_None_not_Some|by rewrite lookup_empty].
  - destruct (cd_definitions c !! od_section d) eqn:E; destruct (bool_decide (od_comments d = [])); cbn;
      rewrite ?E, ?lookup_insert_eq, ?insert_insert_eq; done.
  - destruct (cd_definitions c !! od_section d) eqn:E; by destruct (bool_decide (od_comments d = [])).
  - destruct (cd_definitions c !! od_section d) eqn:E; by destruct (bool_decide (od_comments d = [])).
Qed.

Lemma from_string_typed t input v : from_string tie_up t input = Ok v -> has_type t v = true.
Proof.
  unfold from_string. destruct t; intros H; simplify_eq; try done;
    try (destruct (duration_suffix input)); apply outcome_bind_Ok in H as (x & _ & [= <-]); done.
Qed.

Lemma parse_value_ok section name input (d d' : OptionDefinition Conf) :
  option_ok section name d -> parse_value tie_up input d = Ok d' -> option_ok section name d'.
Proof.
  intros [] H. unfold parse_value in H. outcome_inv H. injection H as <-. apply from_string_typed in Ha.
  split; cbn; try done.
  - rewrite forallb_app, ok_parsed0. cbn. by rewrite Ha.
  - intros Hm. rewrite Hm in Hg. cbn in Hg. apply bool_decide_eq_false in Hg.
    unfold get_number_found in Hg. rewrite length_app. cbn. lia.
Qed.

Lemma add_config_value_ok section name value (c c' : ConfigDefinition Conf) :
  config_ok c -> add_config_value tie_up section name value c = Ok c' -> config_ok c'.
Proof.
  intros Hc H. unfold add_config_value in H.
  apply outcome_bind_Ok in H as (defs & Hs%or_throw_Ok & H).
  apply outcome_bind_Ok in H as (d & Hn%or_throw_Ok & H).
  apply outcome_bind_Ok in H as (d' & Hp & [= <-]).
  destruct (ok_options c Hc _ _ Hs) as (order & Ho & Hnd & Hin & Hok).
  apply (parse_value_ok section name) in Hp; [|by apply Hok].
  split; cbn; [apply Hc|..].
  - intros s. destruct (decide (s = section)) as [->|]; [rewrite lookup_insert_eq|rewrite lookup_insert_ne by done; apply Hc].
    rewrite (ok_sections c Hc), Hs. naive_solver.
  - intros s. destruct (decide (s = section)) as [->|]; [by rewrite lookup_insert_eq|].
    rewrite lookup_insert_ne by done. apply Hc.
  - intros s m. destruct (decide (s = section)) as [->|]; [|rewrite lookup_insert_ne by done; apply Hc].
    rewrite lookup_insert_eq. intros [= <-]. exists order. cbn. split_and!; [done..| |].
    + intros n. rewrite Hin. destruct (decide (n = name)) as [->|]; [rewrite lookup_insert_eq, Hn|by rewrite lookup_insert_ne].
      naive_solver.
    + intros n e. destruct (decide (n = name)) as [->|]; [rewrite lookup_insert_eq|rewrite lookup_insert_ne by done];
        naive_solver.
Qed.

(** ** Visits *)

Definition defined (c : ConfigDefinition Conf) (s n : bytes) (d : OptionDefinition Conf) : Prop :=
  exists defs, cd_definitions c !! s = Some defs /\ defs !! n = Some d.

Lemma defined_ok c s n d : config_ok c -> defined c s n d -> option_ok s n d.
Proof. intros Hc (defs & Hs & Hn). destruct (ok_options c Hc _ _ Hs) as (? & _ & _ & _ & Hok). by apply Hok. Qed.

Lemma visit_names_throw {A} (f : bytes -> OptionDefinition Conf -> A -> outcome ConfigError A) defs names a e :
  (forall n, n ∈ names -> is_Some (defs !! n)) -> visit_names f defs names a = Throw e ->
  exists n d a', defs !! n = Some d /\ f n d a' = Throw e.
Proof.
  revert a. induction names as [|n names IH]; intros a Hin H; cbn [visit_names] in H; [done|].
  destruct (Hin n) as [d Hd]; [set_solver|]. rewrite Hd in H. cbn in H.
  destruct (f n d a) as [a'|e'] eqn:E; cbn in H; [|by simplify_eq; eauto].
  eapply IH; [|done]. set_solver.
Qed.

Lemma visit_definitions_throw {A} c s (f : bytes -> OptionDefinition Conf -> A -> outcome ConfigError A) a e :
  config_ok c -> is_Some (cd_definitions c !! s) -> visit_definitions c s f a = Throw e ->
  exists n d a', defined c s n d /\ f n d a' = Throw e.
Proof.
  intros Hc [defs Hs] H. unfold visit_definitions in H. rewrite Hs in H. cbn in H.
  destruct (ok_options c Hc _ _ Hs) as (order & Ho & _ & Hin & _). rewrite Ho in H. cbn in H.
  apply visit_names_throw in H as (n & d & a' & Hn & H); [|by intros; apply Hin].
  exists n, d, a'. split; [by exists defs|done].
Qed.

Lemma visit_sections_throw {A} c (f : bytes -> A -> outcome ConfigError A) a e :
  config_ok c -> visit_sections c f a = Throw e -> exists s a', is_Some (cd_definitions c !! s) /\ f s a' = Throw e.
Proof.
  intros Hc. unfold visit_sections. assert (Hin : forall s, s ∈ cd_section_ordering c -> is_Some (cd_definitions c !! s)).
  { intros. by apply Hc. }
  revert a. induction (cd_section_ordering c) as [|s l IH]; intros a H; cbn [visit_section_list] in H; [done|].
  destruct (Hin s) as [defs Hs]; [set_solver|]. rewrite Hs in H. cbn in H.
  destruct (f s a) as [a'|e'] eqn:E; cbn in H; [|simplify_eq; by eauto].
  eapply IH; [|done]. set_solver.
Qed.

Lemma visit_names_Ok {A} (f : bytes -> OptionDefinition Conf -> A -> outcome ConfigError A) defs names a r n d :
  n ∈ names -> defs !! n = Some d -> visit_names f defs names a = Ok r -> exists a1 a2, f n d a1 = Ok a2.
Proof.
  revert a. induction names as [|m names IH]; intros a Hin Hn H; cbn [visit_names] in H; [by apply elem_of_nil in Hin|].
  apply outcome_bind_Ok in H as (d' & Hd'%or_throw_Ok & H). apply outcome_bind_Ok in H as (a' & Ha & H).
  apply elem_of_cons in Hin as [->|Hin]; [|by eapply IH]. simplify_eq. eauto.
Qed.

Lemma visit_sections_Ok {A} (c : ConfigDefinition Conf) (f : bytes -> A -> outcome ConfigError A) a r s :
  s ∈ cd_section_ordering c -> visit_sections c f a = Ok r -> exists a1 a2, f s a1 = Ok a2.
Proof.
  unfold visit_sections. revert a.
  induction (cd_section_ordering c) as [|s' l IH]; intros a Hin H; [by apply elem_of_nil in Hin|].
  cbn [visit_section_list] in H. apply outcome_bind_Ok in H as (d' & _ & H). apply outcome_bind_Ok in H as (a' & Ha & H).
  apply elem_of_cons in Hin as [->|Hin]; [by eauto|by eapply IH].
Qed.

(** A visit of all options that succeeds has succeeded on each of them. *)
Lemma visit_all_Ok {A} c (f : bytes -> bytes -> OptionDefinition Conf -> A -> outcome ConfigError A) a r s n d :
  config_ok c -> visit_sections c (fun s => visit_definitions c s (f s)) a = Ok r -> defined c s n d ->
  exists a1 a2, f s n d a1 = Ok a2.
Proof.
  intros Hc H (defs & Hs & Hn). destruct (visit_sections_Ok c (fun s => visit_definitions c s (f s)) a r s) as (a1 & a2 & H1); [|done|].
  { apply Hc. by eexists. }
  unfold visit_definitions in H1. rewrite Hs in H1. cbn in H1.
  destruct (ok_options c Hc _ _ Hs) as (order & Ho & _ & Hin & _). rewrite Ho in H1. cbn in H1.
  eapply visit_names_Ok; [|done..]. apply Hin. by eexists.
Qed.

(** ** Processing *)

Lemma call_acceptor_typed t (a : Acceptor Conf) v conf e : acceptor_type t a = true -> has_type t v = true ->
  call_acceptor a v conf = Throw e -> exists m, e = Rejected m.
Proof.
  destruct t, a, v; try done; cbn; intros _ _ H; case_match; simplify_eq; eauto.
Qed.

Lemma accept_each_typed t (a : Acceptor Conf) vs conf e : acceptor_type t a = true -> forallb (has_type t) vs = true ->
  accept_each a vs conf = Throw e -> exists m, e = Rejected m.
Proof.
  intros Ha. revert conf. induction vs as [|v vs IH]; intros conf Hvs H; cbn in H; [done|].
  cbn [forallb] in Hvs. apply andb_prop in Hvs as [Hv Hvs].
  destruct (call_acceptor a v conf) eqn:E; cbn in H; [by eapply IH|].
  simplify_eq. by eapply call_acceptor_typed.
Qed.

Lemma get_value_typed s n (d : OptionDefinition Conf) v : option_ok s n d -> get_value d = Some v ->
  has_type (od_type d) v = true.
Proof.
  intros Hd. unfold get_value. pose proof (ok_parsed _ _ _ Hd) as Hp. pose proof (ok_defaults _ _ _ Hd) as Hf.
  destruct (od_parsed_values d) as [|v0 vs].
  - destruct (od_required d || _); [done|]. destruct (od_default_values d); [done|]. cbn in *.
    intros [= <-]. by apply andb_prop in Hf as [].
  - intros [= <-]. by apply andb_prop in Hp as [].
Qed.

Lemma try_accept_throw s n (d : OptionDefinition Conf) conf e : option_ok s n d ->
  (od_required d = true -> od_parsed_values d <> []) -> try_accept d conf = Throw e -> exists m, e = Rejected m.
Proof.
  intros Hd Hreq H. unfold try_accept in H.
  destruct (od_required d && bool_decide (od_parsed_values d = [])) eqn:E.
  { apply andb_prop in E as [E1 E2%bool_decide_eq_true]. by destruct (Hreq E1). }
  destruct (od_acceptor d) as [a|] eqn:Ea; [|done]. apply (ok_acceptor _ _ _ Hd) in Ea.
  destruct (od_multi_valued d).
  - destruct (if bool_decide _ && _ then _ else _) as [conf'|e'] eqn:E2; cbn in H.
    + eapply accept_each_typed; [done|apply (ok_parsed _ _ _ Hd)|done].
    + simplify_eq. destruct (bool_decide _ && _); [|done]. eapply accept_each_typed; [done|apply (ok_defaults _ _ _ Hd)|done].
  - destruct (get_value d) eqn:Ev; [|done]. eapply call_acceptor_typed; [done| |done]. by eapply get_value_typed.
Qed.

Lemma process_throw c conf e : config_ok c -> process c conf = Throw e ->
  (exists s n, e = RequiredMissing s n) \/ (exists m, e = Rejected m).
Proof.
  intros Hc H. unfold process in H. destruct (validate_required_fields c) as [u|e'] eqn:Ev; cbn in H; simplify_eq.
  2:{ apply visit_sections_throw in Ev as (s & u & Hs & Ev); [|done].
      apply visit_definitions_throw in Ev as (n & d & u' & Hd & Ev); [|done..].
      apply defined_ok in Hd; [|done]. case_match_eq; [by eauto|]. case_match_eq.
      apply negb_true_iff, orb_false_elim in H0 as [Hl%bool_decide_eq_false Hm].
      apply (ok_single _ _ _ Hd) in Hm. unfold get_number_found in Hl. lia. }
  destruct (accept_all_options c conf) as [conf'|e'] eqn:Ea; cbn in H; simplify_eq; right.
  2:{ apply visit_sections_throw in Ea as (s & u' & Hs & Ea); [|done].
      apply visit_definitions_throw in Ea as (n & d & conf' & Hd & Ea); [|done..].
      eapply try_accept_throw; [by eapply defined_ok| |done].
      edestruct (visit_all_Ok c (fun s _ d _ => _) tt u s n d Hc Ev Hd) as (? & ? & H). intros Hreq Hp.
      rewrite Hreq in H. unfold get_number_found in H. rewrite Hp in H. done. }
  destruct (run_validators _ conf') eqn:Er; cbn in H; simplify_eq.
  induction (cd_validators c) as [|v vs IH]; cbn in Er; [done|]. case_match; simplify_eq; eauto.
Qed.

Lemma generate_never_throws useValues c : config_ok c ->
  exists ini, generate_ini_config fmt_path fmt_chrono useValues c = Ok ini.
Proof.
  intros Hc. unfold generate_ini_config. destruct (visit_sections c _ _) as [r|e] eqn:E; [by eexists|].
  apply visit_sections_throw in E as (s & [ini k] & Hs & E); [|done]. unfold generate_section in E. cbn zeta in E.
  destruct (visit_definitions c s _ _) eqn:E2; cbn in E; [by case_match|].
  by apply visit_definitions_throw in E2 as (? & ? & ? & _ & ?).
Qed.

(** ** Any sequence of operations *)
Inductive ConfigOp :=
| Define (section name : bytes) (t : OptType) (opts : list (Opt Conf))
| AddValue (section name value : bytes)
| SectionComments (section : bytes) (comments : list bytes)
| OptionComments (section name : bytes) (comments : list bytes)
| Validator (v : Conf -> outcome bytes unit).

Definition run_op (c : ConfigDefinition Conf) (op : ConfigOp) : outcome ConfigError (ConfigDefinition Conf) :=
  match op with
  | Define section name t opts => define_option_new section name t opts c
  | AddValue section name value => add_config_value tie_up section name value c
  | SectionComments section comments => Ok (add_section_comments section comments c)
  | OptionComments section name comments => Ok (add_option_comments section name comments c)
  | Validator v => Ok (add_options_validator v c)
  end.

(** An operation that throws leaves the definition as it was. *)
Definition apply_op (c : ConfigDefinition Conf) (op : ConfigOp) : ConfigDefinition Conf :=
  match run_op c op with Ok c' => c' | Throw _ => c end.

(** The definitions compile. *)
Definition op_compiles (op : ConfigOp) : bool :=
  match op with Define _ _ t opts => opts_static_ok t opts | _ => true end.

Lemma config_ok_same c c' : config_ok c -> cd_definitions c' = cd_definitions c ->
  cd_section_ordering c' = cd_section_ordering c -> cd_definition_ordering c' = cd_definition_ordering c -> config_ok c'.
Proof.
  intros [H1 H2 H3 H4] Hd Hs Ho. split; rewrite ?Hd, ?Hs, ?Ho; try done.
  intros s defs (order & Hrest)%H4. exists order. by rewrite Ho.
Qed.

Lemma apply_op_ok c op : config_ok c -> op_compiles op = true -> config_ok (apply_op c op).
Proof.
  intros Hc Hop. unfold apply_op. destruct op; cbn [run_op op_compiles] in *.
  - destruct (define_option_new _ _ _ _ _) eqn:E; [|done]. unfold define_option_new in E.
    apply outcome_bind_Ok in E as (d & Hd & E). apply option_new_ok in Hd; [|done].
    eapply define_option_ok; [done| |done]. by rewrite (ok_section _ _ _ Hd), (ok_name _ _ _ Hd).
  - destruct (add_config_value _ _ _ _ _) eqn:E; [|done]. by eapply add_config_value_ok.
  - by eapply config_ok_same.
  - by eapply config_ok_same.
  - by eapply config_ok_same.
Qed.

Lemma apply_ops_ok c ops : config_ok c -> forallb op_compiles ops = true -> config_ok (foldl apply_op c ops).
Proof.
  revert c. induction ops as [|op ops IH]; intros c Hc Hops; [done|]. cbn [forallb] in Hops.
  apply andb_prop in Hops as [Hop Hops]. cbn [foldl]. apply IH; [by apply apply_op_ok|done].
Qed.

(** C28. Well-typed option definitions do not go wrong: whatever options are defined and whatever
    values are added, processing the configuration either succeeds or fails because a required
    option is missing or because an acceptor or a validator rejects a value.  No assertion
    fails, no acceptor gets a value of another type, and the configuration can be written. *)
Theorem config_never_stuck type ops conf : forallb op_compiles ops = true ->
  let c := foldl apply_op (ConfigDefinition_new type) ops in
  (forall e, process c conf = Throw e -> (exists s n, e = RequiredMissing s n) \/ (exists m, e = Rejected m)) /\
  (forall useValues, exists ini, generate_ini_config fmt_path fmt_chrono useValues c = Ok ini).
Proof.
  intros Hops c. assert (config_ok c) as Hc by (apply apply_ops_ok; [apply config_new_ok|done]). split.
  - intros e. by apply process_throw.
  - intros useValues. by apply generate_never_throws.
Qed.
End WellFormed.

(** A configuration with a value that its acceptor rejects *)
Definition example_ops : list (ConfigOp (Conf := Z)) :=
  [Define (str "paths") (str "hops") TInt
     [Default (VInt 3); ClientOnly;
      Accept (AcceptInt (fun n _ => if n <? 1 then Throw (str "too few") else Ok n))];
   Define (str "paths") (str "hops") TString []; AddValue (str "paths") (str "hops") (str "0");
   AddValue (str "paths") (str "hops") (str "4")].

Lemma config_never_stuck_witness :
  process (foldl (apply_op (fun _ _ => true)) (ConfigDefinition_new FullClient) example_ops) 3 = Throw (Rejected (str "too few")) /\
  ((exists s n, Rejected (str "too few") = RequiredMissing s n) \/ (exists m, Rejected (str "too few") = Rejected m)).
Proof.
  assert (process (foldl (apply_op (fun _ _ => true)) (ConfigDefinition_new FullClient) example_ops) 3
          = Throw (Rejected (str "too few"))) as H by (vm_compute; reflexivity).
  split; [exact H|].
  exact (proj1 (config_never_stuck (fun _ _ => true) (fun p => p) (fun _ _ => []) FullClient example_ops 3
                  ltac:(vm_compute; reflexivity)) _ H).
Defined.
