(* ===== verification/ConfigText.v ===== *)
(** * Configuration files are read back (config/definition.{hpp,cpp}, config/ini.cpp)

    [generate_ini_config(true)], which session-router-config writes a configuration with, and the
    parser are inverse to each other for the values that [value_writable] describes.  The values
    that are not are the subject of the last section. *)

From Stdlib Require Import ZArith Lia DecimalPos DecimalZ.
From stdpp Require Import base list numbers strings gmap.
From coqutil Require Import Datatypes.RecordSettersUsingExistingGetters.
From S2P Require Import Prelude Oxenc Str Ini ConfigDef ConfigTyped.

Local Open Scope Z_scope.
Local Open Scope router_scope.

(** ** Decimal numbers *)

Lemma digits_acc u p : foldl (fun v c => 10 * v + (c - 48)) (Zpos p) (uint_bytes u) = Zpos (Pos.of_uint_acc u p).
Proof.
  revert p. induction u as [|u IH|u IH|u IH|u IH|u IH|u IH|u IH|u IH|u IH|u IH]; intros p; [done|..];
    cbn [uint_bytes foldl Pos.of_uint_acc]; rewrite <-IH; f_equal; lia.
Qed.

Lemma digits_value_uint u : digits_value (uint_bytes u) = Z.of_uint u.
Proof.
  unfold digits_value. induction u as [|u IH|u IH|u IH|u IH|u IH|u IH|u IH|u IH|u IH|u IH]; [done|apply IH|..];
    cbn [uint_bytes foldl]; apply (digits_acc u).
Qed.

Lemma digits_uint u : forallb is_digit (uint_bytes u) = true.
Proof. induction u; cbn; done. Qed.

Lemma fmt_int_cases n : exists u, uint_bytes u <> [] /\
  ((0 <= n /\ fmt_int n = uint_bytes u /\ digits_value (uint_bytes u) = n) \/
   (n < 0 /\ fmt_int n = 45 :: uint_bytes u /\ digits_value (uint_bytes u) = - n)).
Proof.
  unfold fmt_int, Bencode.enc_int. pose proof (DecimalZ.of_to n) as Hn.
  assert (Hnil : forall p, uint_bytes (Pos.to_uint p) <> []).
  { intros p Hp. pose proof (DecimalPos.Unsigned.to_uint_nonnil p). by destruct (Pos.to_uint p). }
  destruct n as [|p|p]; cbn [Z.to_int] in *.
  - exists (Decimal.D0 Decimal.Nil). split; [done|]. left. done.
  - exists (Pos.to_uint p). split; [done|]. left. split; [lia|]. split; [done|]. by rewrite digits_value_uint.
  - exists (Pos.to_uint p). split; [done|]. right. split; [lia|]. split; [done|]. rewrite digits_value_uint.
    cbn [Z.of_int] in Hn. lia.
Qed.

Lemma digits_head s : s <> [] -> forallb is_digit s = true -> exists c s', s = c :: s' /\ is_digit c = true.
Proof. destruct s as [|c s]; [done|]. cbn. intros _ [H _]%andb_prop. eauto. Qed.

Lemma span_while_all p s : forallb p s = true -> span_while p s = (s, []).
Proof. induction s as [|c s IH]; [done|]. cbn. intros [-> Hs]%andb_prop. by rewrite IH. Qed.

Lemma is_digit_bounds c : is_digit c = true -> 48 <= c <= 57.
Proof. unfold is_digit. lia. Qed.

Lemma is_digit_not_space c : is_digit c = true -> is_space c = false.
Proof. intros H%is_digit_bounds. unfold is_space. lia. Qed.

(** A number is read back by both ways of reading one. *)
Lemma parse_int_fmt n : in_int n = true -> parse_int_str (fmt_int n) = Some n.
Proof.
  intros Hn. destruct (fmt_int_cases n) as (u & Hu & [(H0 & -> & Hv)|(H0 & -> & Hv)]); unfold parse_int_str.
  - destruct (digits_head (uint_bytes u) Hu (digits_uint u)) as (c & s & E & Hc%is_digit_bounds).
    assert (match uint_bytes u with 45 :: s' => (true, s') | _ => (false, uint_bytes u) end = (false, uint_bytes u)) as ->.
    { rewrite E. repeat case_match; simplify_eq; first [done|lia]. }
    rewrite bool_decide_false, digits_uint, Hv by done. cbn. by rewrite Hn.
  - rewrite bool_decide_false, digits_uint, Hv by done. cbn [negb orb]. by rewrite Z.opp_involutive, Hn.
Qed.

Lemma stream_int_fmt n : in_int n = true -> stream_int (fmt_int n) = Some n.
Proof.
  intros Hn. destruct (fmt_int_cases n) as (u & Hu & [(H0 & -> & Hv)|(H0 & -> & Hv)]); unfold stream_int.
  - destruct (digits_head (uint_bytes u) Hu (digits_uint u)) as (c & s & E & Hc).
    rewrite trim_front_trimmed by (rewrite E; by rewrite is_digit_not_space).
    assert (match uint_bytes u with 45 :: s' => (true, s') | 43 :: s' => (false, s') | _ => (false, uint_bytes u) end
            = (false, uint_bytes u)) as ->.
    { apply is_digit_bounds in Hc. rewrite E. repeat case_match; simplify_eq; first [done|lia]. }
    rewrite span_while_all by apply digits_uint. cbn [fst]. rewrite bool_decide_false, Hv by done. by rewrite Hn.
  - cbn [trim_front is_space Z.eqb Pos.eqb orb]. rewrite span_while_all by apply digits_uint. cbn [fst].
    rewrite bool_decide_false, Hv by done. by rewrite Z.opp_involutive, Hn.
Qed.

(** Characters that a written number is made of *)
Lemma forallb_value_ok s : s <> [] -> forallb (fun c => negb (is_space c)) s = true -> value_ok s = true.
Proof.
  intros Hs Hall. rewrite forallb_forall in Hall. unfold value_ok, trimmed, no_eol. apply andb_true_intro. split.
  - apply andb_true_intro. split.
    + destruct s as [|c s]; [done|]. apply Hall. by left.
    + destruct (last s) as [c|] eqn:E; [|done]. apply Hall. apply list_elem_of_In. by apply last_Some_elem_of.
  - apply forallb_forall. intros c Hc%Hall. unfold is_space, is_eol in *. lia.
Qed.

Lemma fmt_int_chars n : fmt_int n <> [] /\ forallb (fun c => negb (is_space c)) (fmt_int n) = true.
Proof.
  destruct (fmt_int_cases n) as (u & Hu & [(H0 & -> & Hv)|(H0 & -> & Hv)]); (split; [done|]);
    cbn [forallb is_space Z.eqb Pos.eqb orb negb andb]; apply forallb_forall; intros c Hc;
    pose proof (proj1 (forallb_forall _ _) (digits_uint u) c Hc) as Hd; by rewrite is_digit_not_space.
Qed.

Lemma number_value_ok n suffix : forallb (fun c => negb (is_space c)) suffix = true ->
  value_ok (fmt_int n ++ suffix) = true.
Proof.
  intros Hs. destruct (fmt_int_chars n) as [H1 H2]. apply forallb_value_ok.
  - by destruct (fmt_int n).
  - by rewrite forallb_app, H2, Hs.
Qed.

(** ** Values *)

Lemma ends_with_spec s p : ends_with s p = true <-> exists r, s = r ++ p.
Proof.
  unfold ends_with. rewrite andb_true_iff, !bool_decide_eq_true. split.
  - intros [Hl Hd]. exists (take (length s - length p) s). rewrite <-Hd at 2. by rewrite take_drop.
  - intros [r ->]. rewrite length_app. split; [lia|]. rewrite drop_app_ge by lia.
    by replace (length r + length p - length p - length r)%nat with 0%nat by lia.
Qed.

Lemma not_ends_with s c p d : c <> d -> ends_with (s ++ [c]) (p ++ [d]) = false.
Proof.
  intros Hne. apply not_true_iff_false. rewrite ends_with_spec. intros [r Hr]. rewrite app_assoc in Hr.
  by apply app_inj_tail in Hr as [_ ?].
Qed.

Lemma remove_suffix_app s p : remove_suffix (length p) (s ++ p) = s.
Proof. unfold remove_suffix. by rewrite length_app, Nat.add_sub, take_app_length. Qed.

Lemma suffix_h s : duration_suffix (s ++ str "h") = (ns_h, s).
Proof.
  unfold duration_suffix. rewrite (proj2 (ends_with_spec _ _)) by (by exists s).
  f_equal. apply (remove_suffix_app s (str "h")).
Qed.

Lemma suffix_min s : duration_suffix (s ++ str "min") = (ns_min, s).
Proof.
  unfold duration_suffix.
  assert (ends_with (s ++ str "min") (str "h") = false) as ->.
  { change (str "min") with (str "mi" ++ str "n"). rewrite app_assoc. by apply (not_ends_with _ _ []). }
  rewrite (proj2 (ends_with_spec _ _)) by (by exists s). f_equal. apply (remove_suffix_app s (str "min")).
Qed.

Lemma suffix_s s : (forall c, In c s -> is_digit c || (c =? 45) = true) -> duration_suffix (s ++ str "s") = (ns_s, s).
Proof.
  intros Hs. unfold duration_suffix.
  assert (Hu : forall c, c = 109 \/ c = 110 \/ c = 117 -> ends_with (s ++ str "s") [c; 115] = false).
  { intros c Hc. apply not_true_iff_false. rewrite ends_with_spec. intros [r Hr].
    change (s ++ [115] = r ++ [c] ++ [115]) in Hr. rewrite app_assoc in Hr. apply app_inj_tail in Hr as [-> _].
    assert (is_digit c || (c =? 45) = true) as Hd by (apply Hs; rewrite in_app_iff; right; by left).
    destruct Hc as [->|[->| ->]]; discriminate Hd. }
  assert (ends_with (s ++ str "s") (str "h") = false) as -> by (by apply (not_ends_with s 115 [] 104)).
  assert (ends_with (s ++ str "s") (str "min") = false) as -> by (by apply (not_ends_with s 115 (str "mi") 110)).
  assert (ends_with (s ++ str "s") (str "m") = false) as -> by (by apply (not_ends_with s 115 [] 109)).
  assert (ends_with (s ++ str "s") (str "ms") = false) as -> by (apply Hu; tauto).
  assert (ends_with (s ++ str "s") (str "us") = false) as -> by (apply Hu; tauto).
  assert (ends_with (s ++ str "s") (str "ns") = false) as -> by (apply Hu; tauto).
  rewrite (proj2 (ends_with_spec _ _)) by (by exists s). f_equal. apply (remove_suffix_app s (str "s")).
Qed.

Section Values.
Variable tie_up : Z -> Z -> bool.
Variable fmt_path : bytes -> bytes.
(** fmt writes a path as it is. *)
Hypothesis fmt_path_plain : forall p, fmt_path p = p.

(** The values that are read back from what is written: numbers of an [int], durations of a
    whole number of seconds, trimmed strings of a single line, and paths without whitespace *)
Definition value_writable (t : OptType) (v : OptValue) : bool :=
  match t, v with
  | TBool, VBool _ => true
  | TInt, VInt n => in_int n
  | TString, VString s => value_ok s
  | TPath, VPath p =>
    match p with [] => false | c :: _ => negb (c =? 34) end && forallb (fun c => negb (is_space c)) p
  | TSeconds, VDuration n => (0 <=? n) && (n <? 2 ^ 31)
  | TMillis, VDuration n => (n mod 1000 =? 0) && (0 <=? n / 1000) && (n / 1000 <? 2 ^ 31)
  | _, _ => false
  end.

Lemma fmt_int_digits n c : In c (fmt_int n) -> is_digit c || (c =? 45) = true.
Proof.
  destruct (fmt_int_cases n) as (u & _ & [(_ & -> & _)|(_ & -> & _)]); [|intros [<-|Hc]; [done|revert Hc]]; intros Hc;
    by rewrite (proj1 (forallb_forall _ _) (digits_uint u) c Hc).
Qed.

Lemma round_to_exact u q : 0 < u -> round_to tie_up u (q * u) = q.
Proof.
  intros Hu. unfold round_to. rewrite Z.div_mul, Z.mod_mul by lia.
  destruct (Z.ltb_spec (2 * 0) u); [done|lia].
Qed.

(** A whole number of seconds *)
Lemma duration_read_back t n m : 0 < unit_of t -> n * unit_of t = m * ns_s -> 0 <= m < 2 ^ 31 ->
  (t = TSeconds \/ t = TMillis) -> from_string tie_up t (duration_as_string t n) = Ok (VDuration n).
Proof.
  intros Hu Hnm Hm Ht.
  assert (Hread : forall k unit suffix, in_int k = true -> duration_suffix (fmt_int k ++ suffix) = (unit, fmt_int k) ->
    k * unit = n * unit_of t -> from_string tie_up t (fmt_int k ++ suffix) = Ok (VDuration n)).
  { intros k unit suffix Hk Hsuf Heq. unfold from_string.
    destruct Ht as [-> | ->]; rewrite Hsuf, parse_int_fmt by done; cbn [or_throw outcome_bind];
      rewrite Heq, round_to_exact by done; done. }
  assert (Hint : forall k, 0 <= k <= m -> in_int k = true) by (unfold in_int; intros; lia).
  unfold duration_as_string. cbn zeta. rewrite Hnm. unfold ns_h, ns_min in *.
  destruct (Z.eqb_spec n 0) as [->|Hn].
  { apply (Hread 0 ns_s); [done|apply suffix_s, fmt_int_digits|]. lia. }
  assert (0 < m) by (destruct Ht as [-> | ->]; cbn in *; unfold ns_s, ns_ms in *; lia).
  destruct ((_ <=? _) && _) eqn:E1.
  { apply andb_prop in E1 as [_ E1%Z.eqb_eq]. apply Z.rem_divide in E1 as [k Hk]; [|done].
    rewrite Hk, Z.quot_mul by done. apply (Hread k ns_h); [|apply suffix_h|by rewrite Hnm].
    apply Hint. unfold ns_s in *. lia. }
  clear E1. destruct ((_ <=? _) && _) eqn:E1.
  { apply andb_prop in E1 as [_ E1%Z.eqb_eq]. apply Z.rem_divide in E1 as [k Hk]; [|done].
    rewrite Hk, Z.quot_mul by done. apply (Hread k ns_min); [|apply suffix_min|by rewrite Hnm].
    apply Hint. unfold ns_s in *. lia. }
  clear E1. rewrite Z.rem_mul by done. replace (ns_s <=? m * ns_s) with true by (symmetry; unfold ns_s; lia).
  cbn [andb Z.eqb]. rewrite Z.quot_mul by done.
  apply (Hread m ns_s); [apply Hint; lia|apply suffix_s, fmt_int_digits|by rewrite Hnm].
Qed.

Lemma duration_value_ok t n : value_ok (duration_as_string t n) = true.
Proof. unfold duration_as_string. cbn zeta. repeat case_match; by apply number_value_ok. Qed.

Lemma value_read_back t v : value_writable t v = true ->
  from_string tie_up t (value_as_string fmt_path t v) = Ok v /\ value_ok (value_as_string fmt_path t v) = true.
Proof.
  destruct t, v; try done; cbn [value_writable value_as_string]; intros Hw.
  - by destruct b.
  - split; [|rewrite <-(app_nil_r (fmt_int n)); by apply number_value_ok].
    unfold from_string. by rewrite stream_int_fmt.
  - rewrite fmt_path_plain. apply andb_prop in Hw as [Hq Hs]. destruct s as [|c s]; [done|].
    split; [|by apply forallb_value_ok]. unfold from_string, stream_path.
    rewrite trim_front_trimmed by (cbn [forallb] in Hs; by apply andb_prop in Hs as []).
    apply negb_true_iff, Z.eqb_neq in Hq.
    assert (match c :: s with [] => None | 34 :: s => stream_quoted s
            | s => Some (span_while (fun c => negb (is_space c)) s).1 end
            = Some (span_while (fun c => negb (is_space c)) (c :: s)).1) as ->.
    { repeat case_match; simplify_eq; first [done|lia]. }
    by rewrite span_while_all.
  - split; [|apply duration_value_ok]. apply (duration_read_back TSeconds n n); [done|done|lia|by left].
  - split; [|apply duration_value_ok]. apply (duration_read_back TMillis n (n / 1000)); [done| |lia|by right].
    cbn [unit_of]. unfold ns_s, ns_ms. pose proof (Z.div_mod n 1000). lia.
Qed.
End Values.

(** ** The lines of a configuration file *)
Section Text.
Context {Conf : Type}.
Variable tie_up : Z -> Z -> bool.
Variable fmt_path : bytes -> bytes.
Hypothesis fmt_path_plain : forall p, fmt_path p = p.
Variable fmt_chrono : OptType -> Z -> bytes.

(** What can be written of an option and be read back *)
Definition option_writable (d : OptionDefinition Conf) : bool :=
  forallb (value_writable (od_type d)) (od_parsed_values d)
  && forallb no_eol (default_values_as_string fmt_chrono d) && key_ok (od_name d).

Definition config_writable (c : ConfigDefinition Conf) : bool :=
  forallb (fun sd : bytes * gmap bytes (OptionDefinition Conf) =>
             no_eol sd.1 && forallb (fun nd => option_writable nd.2) (map_to_list sd.2)) (map_to_list (cd_definitions c))
  && forallb (fun sc : bytes * list bytes => forallb no_eol sc.2) (map_to_list (cd_section_comments c))
  && forallb (fun sd : bytes * gmap bytes (list bytes) => forallb (fun nc => forallb no_eol nc.2) (map_to_list sd.2))
       (map_to_list (cd_definition_comments c)).

Definition comment_line (comment : bytes) : bytes := str "# " ++ comment.
Definition value_line (name val : bytes) : bytes := name ++ str "=" ++ val.

(** The lines of an option *)
Definition option_lines (comments : list bytes) (name : bytes) (d : OptionDefinition Conf) : list bytes :=
  let comment_lines := if od_hidden d then [] else comment_line <$> comments in
  if bool_decide (0 < get_number_found d)%nat then [] :: comment_lines ++ (value_line name <$> values_as_string fmt_path d)
  else if od_hidden d then []
  else [] :: comment_lines ++
    match default_values_as_string fmt_chrono d with
    | [] => [str "#" ++ name ++ str "="]
    | defaults => (fun val => (if od_required d then [] else str "#") ++ value_line name val) <$> defaults
    end.

Lemma option_text_lines comments name d :
  option_text fmt_path fmt_chrono true comments name d = terminated (option_lines comments name d).
Proof.
  assert (Hnl : forall ls, terminated ([] :: ls) = concat ((fun l => 10 :: l) <$> ls) ++ [10]).
  { intros. by rewrite preceded_terminated. }
  assert (Hc : (if od_hidden d then [] else concat ((fun comment => 10 :: str "# " ++ comment) <$> comments))
             = concat ((fun l => 10 :: l) <$> (if od_hidden d then [] else comment_line <$> comments))).
  { destruct (od_hidden d); [done|]. by rewrite <-list_fmap_compose. }
  unfold option_text, option_lines. cbn zeta. rewrite Hc. cbn [andb].
  destruct (bool_decide (0 < get_number_found d)%nat).
  - rewrite Hnl, fmap_app, concat_app, <-app_assoc. by rewrite <-list_fmap_compose.
  - destruct (od_hidden d) eqn:Eh; cbn [negb andb]; [done|].
    rewrite Hnl, fmap_app, concat_app, <-app_assoc. do 2 f_equal.
    destruct (default_values_as_string fmt_chrono d) as [|v vs]; [by cbn; rewrite app_nil_r|].
    by rewrite <-list_fmap_compose.
Qed.

Definition comments_of (c : ConfigDefinition Conf) (s n : bytes) : list bytes :=
  default [] (cd_definition_comments c !! s ≫= (.!! n)).

(** The options of a section in the order of their definition *)
Definition section_options (c : ConfigDefinition Conf) (s : bytes) : list (bytes * OptionDefinition Conf) :=
  match cd_definitions c !! s, cd_definition_ordering c !! s with
  | Some defs, Some order => omap (fun n => (fun d => (n, d)) <$> defs !! n) order
  | _, _ => []
  end.

Definition options_lines (c : ConfigDefinition Conf) (s : bytes) : list bytes :=
  concat ((fun nd : bytes * OptionDefinition Conf => option_lines (comments_of c s nd.1) nd.1 nd.2) <$> section_options c s).

Definition section_lines (c : ConfigDefinition Conf) (visited : nat) (s : bytes) : list bytes :=
  match options_lines c s with
  | [] => []
  | ls => (if bool_decide (0 < visited)%nat then [[]; []] else []) ++
    [str "[" ++ s ++ str "]"] ++ (comment_line <$> default [] (cd_section_comments c !! s)) ++ [] :: ls
  end.

Fixpoint config_lines (c : ConfigDefinition Conf) (visited : nat) (sections : list bytes) : list bytes :=
  match sections with
  | [] => []
  | s :: sections =>
    section_lines c visited s ++ config_lines c (match options_lines c s with [] => visited | _ => S visited end) sections
  end.

Lemma visit_names_concat (g : bytes -> OptionDefinition Conf -> bytes) defs order acc :
  (forall n, n ∈ order -> is_Some (defs !! n)) ->
  visit_names (fun n d a => Ok (a ++ g n d)) defs order acc
  = Ok (acc ++ concat ((fun nd => g nd.1 nd.2) <$> omap (fun n => (fun d => (n, d)) <$> defs !! n) order)).
Proof.
  revert acc. induction order as [|n order IH]; intros acc Hin; cbn [visit_names omap list_omap]; [by rewrite app_nil_r|].
  destruct (Hin n) as [d Hd]; [set_solver|]. rewrite Hd. cbn. rewrite IH by set_solver. by rewrite <-app_assoc.
Qed.

Lemma visit_definitions_concat c s (g : bytes -> OptionDefinition Conf -> bytes) : config_ok c -> is_Some (cd_definitions c !! s) ->
  visit_definitions c s (fun n d a => Ok (a ++ g n d)) [] = Ok (concat ((fun nd => g nd.1 nd.2) <$> section_options c s)).
Proof.
  intros Hc [defs Hs]. unfold visit_definitions, section_options. rewrite Hs. cbn.
  destruct (ok_options c Hc _ _ Hs) as (order & -> & _ & Hin & _). cbn.
  apply visit_names_concat. intros. by apply Hin.
Qed.

Lemma terminated_nil ls : terminated ls = [] <-> ls = [].
Proof. split; [|by intros ->]. destruct ls as [|l ls]; [done|]. unfold terminated. cbn. by destruct l. Qed.

Lemma terminated_comments cs :
  terminated (comment_line <$> cs) = concat ((fun comment => str "# " ++ comment ++ [10]) <$> cs).
Proof. unfold terminated. by rewrite <-list_fmap_compose. Qed.

Lemma terminated_cons l ls : terminated (l :: ls) = l ++ 10 :: terminated ls.
Proof. unfold terminated. cbn. by rewrite <-app_assoc. Qed.

Lemma generate_section_lines c s ini k : config_ok c -> is_Some (cd_definitions c !! s) ->
  generate_section fmt_path fmt_chrono c true s (ini, k)
  = Ok (ini ++ terminated (section_lines c k s), match options_lines c s with [] => k | _ => S k end).
Proof.
  intros Hc Hs. unfold generate_section. cbn zeta.
  pose proof (visit_definitions_concat c s (fun n d => option_text fmt_path fmt_chrono true (comments_of c s n) n d) Hc Hs) as Hv.
  unfold comments_of at 1 in Hv. rewrite Hv. clear Hv.
  cbn [outcome_bind].
  assert (concat ((fun nd => option_text fmt_path fmt_chrono true (comments_of c s nd.1) nd.1 nd.2) <$> section_options c s)
          = terminated (options_lines c s)) as ->.
  { unfold options_lines. rewrite terminated_concat, <-list_fmap_compose. f_equal. apply list_fmap_ext.
    intros _ [n d] _. apply option_text_lines. }
  unfold section_lines. destruct (options_lines c s) as [|l ls] eqn:E.
  - rewrite bool_decide_true by done. by rewrite app_nil_r.
  - rewrite bool_decide_false by (by intros ?%terminated_nil). do 2 f_equal. f_equal.
    rewrite !terminated_app. f_equal; [by destruct (bool_decide _)|].
    rewrite terminated_comments, terminated_cons. cbn [terminated fmap list_fmap concat app].
    rewrite <-!app_assoc. done.
Qed.

Lemma generate_config_lines c : config_ok c ->
  generate_ini_config fmt_path fmt_chrono true c = Ok (terminated (config_lines c 0 (cd_section_ordering c))).
Proof.
  intros Hc. unfold generate_ini_config, visit_sections.
  assert (Hin : forall s, s ∈ cd_section_ordering c -> is_Some (cd_definitions c !! s)) by (intros; by apply Hc).
  assert (forall sections ini k, (forall s, s ∈ sections -> is_Some (cd_definitions c !! s)) ->
    exists k', visit_section_list c (generate_section fmt_path fmt_chrono c true) sections (ini, k)
      = Ok (ini ++ terminated (config_lines c k sections), k')) as Hvisit.
  { induction sections as [|s l IH]; intros ini k Hl; cbn [visit_section_list config_lines].
    - exists k. by rewrite app_nil_r.
    - destruct (Hl s) as [defs Hs]; [set_solver|]. rewrite Hs. cbn [or_throw outcome_bind].
      rewrite generate_section_lines by done. cbn [outcome_bind]. rewrite terminated_app.
      destruct (IH (ini ++ terminated (section_lines c k s)) (match options_lines c s with [] => k | _ => S k end))
        as [k' ->]; [set_solver|]. exists k'. by rewrite <-app_assoc. }
  destruct (Hvisit _ [] 0%nat Hin) as [k' ->]. done.
Qed.

(** ** What the lines mean *)
Definition quiet (l : bytes) : Prop := no_eol l = true /\ classify (trim_line l) = Ignored.

Lemma no_eol_app a b : no_eol (a ++ b) = no_eol a && no_eol b.
Proof. apply forallb_app. Qed.

Lemma quiet_nil : quiet [].
Proof. done. Qed.

Lemma quiet_hash s : no_eol s = true -> quiet (35 :: s).
Proof. intros Hs. split; [done|apply classify_comment]. Qed.

Lemma quiet_comments cs : forallb no_eol cs = true -> Forall quiet (comment_line <$> cs).
Proof.
  intros Hcs. apply Forall_fmap, Forall_forall. intros c Hc. apply list_elem_of_In in Hc.
  apply (quiet_hash (32 :: c)). by apply (proj1 (forallb_forall _ _) Hcs c).
Qed.

Lemma ini_entries_quiet s ls rest : Forall quiet ls -> ini_entries s (ls ++ rest) = ini_entries s rest.
Proof. induction 1 as [|l ls [_ Hl] _ IH]; [done|]. cbn [app ini_entries]. by rewrite Hl. Qed.

Lemma classify_value_line n v : key_ok n = true -> value_ok v = true ->
  classify (trim_line (value_line n v)) = KeyValue n v.
Proof. apply classify_key_value. Qed.

Lemma ini_entries_values s n vs rest : key_ok n = true -> forallb value_ok vs = true ->
  ini_entries s ((value_line n <$> vs) ++ rest) = ((fun v => (s, n, v)) <$> vs) ++ ini_entries s rest.
Proof.
  intros Hn. induction vs as [|v vs IH]; [done|]. cbn [forallb]. intros [Hv Hvs]%andb_prop.
  cbn [fmap list_fmap app ini_entries]. rewrite classify_value_line by done. by rewrite IH.
Qed.

Definition good_line (l : bytes) : bool := no_eol l && well_formed_line l.

Lemma quiet_good ls : Forall quiet ls -> forallb good_line ls = true.
Proof.
  induction 1 as [|l ls [Hn Hl] _ IH]; [done|]. cbn [forallb]. unfold good_line, well_formed_line. by rewrite Hn, Hl.
Qed.

Lemma values_good n vs : key_ok n = true -> forallb value_ok vs = true -> forallb good_line (value_line n <$> vs) = true.
Proof.
  intros Hn. induction vs as [|v vs IH]; [done|]. cbn [forallb]. intros [Hv Hvs]%andb_prop.
  cbn [fmap list_fmap forallb]. rewrite IH by done. rewrite andb_true_r.
  unfold good_line, well_formed_line. rewrite classify_value_line by done. unfold value_line. rewrite !no_eol_app. unfold key_ok in Hn. unfold value_ok in Hv.
  apply andb_prop in Hn as [[_ Hn]%andb_prop _]. apply andb_prop in Hv as [_ Hv].
  by rewrite Hn, Hv.
Qed.

Lemma values_writable d : forallb (value_writable (od_type d)) (od_parsed_values d) = true ->
  forallb value_ok (values_as_string (Conf := Conf) fmt_path d) = true.
Proof.
  unfold values_as_string. induction (od_parsed_values d) as [|v vs IH]; [done|]. cbn [forallb].
  intros [Hv Hvs]%andb_prop. cbn [fmap list_fmap forallb]. rewrite IH by done.
  destruct (value_read_back tie_up fmt_path fmt_path_plain _ _ Hv) as [_ ->]. done.
Qed.

(** Lines that carry no value, and then the values *)
Lemma option_lines_split s n d cs : option_ok s n d -> option_writable d = true -> forallb no_eol cs = true ->
  exists q, option_lines cs n d = q ++ (value_line n <$> values_as_string fmt_path d) /\ Forall quiet q.
Proof.
  intros Hok [[_ Hdef]%andb_prop Hk]%andb_prop Hcs. unfold option_lines. cbn zeta.
  rewrite (ok_name _ _ _ Hok) in Hk.
  assert (Hq : Forall quiet (if od_hidden d then [] else comment_line <$> cs)).
  { destruct (od_hidden d); [done|by apply quiet_comments]. }
  assert (Hn : no_eol n = true).
  { unfold key_ok in Hk. by apply andb_prop in Hk as [[_ Hk]%andb_prop _]. }
  destruct (bool_decide (0 < get_number_found d)%nat) eqn:Ef.
  { eexists (_ :: _). split; [done|]. constructor; [apply quiet_nil|done]. }
  apply bool_decide_eq_false in Ef. unfold get_number_found in Ef. unfold values_as_string.
  destruct (od_parsed_values d) eqn:Ep; [|cbn in Ef; lia]. cbn [fmap list_fmap].
  destruct (od_hidden d); [by exists []|]. eexists. rewrite app_nil_r. split; [done|].
  constructor; [apply quiet_nil|]. apply Forall_app. split; [done|].
  destruct (od_required d) eqn:Er.
  - apply (ok_required _ _ _ Hok) in Er. unfold default_values_as_string. rewrite Er.
    destruct (od_type d); (constructor; [|done]); apply (quiet_hash (n ++ str "=")); by rewrite no_eol_app, Hn.
  - destruct (default_values_as_string fmt_chrono d) as [|v vs].
    { constructor; [|done]. apply (quiet_hash (n ++ str "=")). by rewrite no_eol_app, Hn. }
    change (Forall quiet ((fun val => str "#" ++ value_line n val) <$> (v :: vs))).
    apply Forall_fmap, Forall_forall. intros x Hx%list_elem_of_In. apply (quiet_hash (n ++ str "=" ++ x)).
    rewrite !no_eol_app, Hn. cbn [andb]. by apply (proj1 (forallb_forall _ _) Hdef x).
Qed.

(** The entries of a section *)
Definition option_entries (s : bytes) (nd : bytes * OptionDefinition Conf) : list (bytes * bytes * bytes) :=
  (fun v => (s, nd.1, v)) <$> values_as_string fmt_path nd.2.
Definition section_entries (c : ConfigDefinition Conf) (s : bytes) : list (bytes * bytes * bytes) :=
  concat (option_entries s <$> section_options c s).

Lemma forallb_map_to_list {A} (f : bytes * A -> bool) (m : gmap bytes A) k x :
  forallb f (map_to_list m) = true -> m !! k = Some x -> f (k, x) = true.
Proof. intros Hf Hk. apply (proj1 (forallb_forall _ _) Hf). apply list_elem_of_In. by apply elem_of_map_to_list. Qed.

Lemma config_writable_option c s n d : config_writable c = true -> defined c s n d ->
  no_eol s = true /\ option_writable d = true.
Proof.
  intros [[Hw _]%andb_prop _]%andb_prop (defs & Hs & Hn).
  apply (forallb_map_to_list _ _ s defs) in Hw; [|done]. apply andb_prop in Hw as [Hw1 Hw2].
  split; [done|]. by apply (forallb_map_to_list _ _ n d) in Hw2.
Qed.

Lemma config_writable_comments c s n : config_writable c = true ->
  forallb no_eol (comments_of c s n) = true /\ forallb no_eol (default [] (cd_section_comments c !! s)) = true.
Proof.
  intros [[_ Hs]%andb_prop Hn]%andb_prop. split.
  - unfold comments_of. destruct (cd_definition_comments c !! s) as [m|] eqn:E; [|done]. cbn.
    destruct (m !! n) as [cs|] eqn:E2; [|done]. apply (forallb_map_to_list _ _ s m) in Hn; [|done].
    by apply (forallb_map_to_list _ _ n cs) in Hn.
  - destruct (cd_section_comments c !! s) as [cs|] eqn:E; [|done]. by apply (forallb_map_to_list _ _ s cs) in Hs.
Qed.

Lemma section_options_defined c s n d : config_ok c -> (n, d) ∈ section_options c s <-> defined c s n d.
Proof.
  intros Hc. unfold section_options, defined. destruct (cd_definitions c !! s) as [defs|] eqn:Hs.
  2:{ split; [by intros ?%elem_of_nil|]. by intros (? & ? & _). }
  destruct (ok_options c Hc _ _ Hs) as (order & -> & _ & Hin & _). rewrite list_elem_of_omap. split.
  - intros (m & _ & Hm). destruct (defs !! m) eqn:E; [|done]. cbn in Hm. simplify_eq. eauto.
  - intros (? & [= <-] & Hn). exists n. split; [apply Hin; by eexists|]. by rewrite Hn.
Qed.

Lemma options_lines_spec c s opts : config_ok c -> config_writable c = true ->
  (forall n d, (n, d) ∈ opts -> defined c s n d) ->
  let ls := concat ((fun nd => option_lines (comments_of c s nd.1) nd.1 nd.2) <$> opts) in
  forallb good_line ls = true /\
  forall rest, ini_entries s (ls ++ rest) = concat (option_entries s <$> opts) ++ ini_entries s rest.
Proof.
  intros Hc Hw. induction opts as [|[n d] opts IH]; intros Hin; [done|].
  destruct IH as [IHg IHe]; [set_solver|]. cbn [fmap list_fmap concat fst snd].
  assert (Hd : defined c s n d) by (apply Hin; set_solver).
  destruct (config_writable_option c s n d Hw Hd) as [_ Hdw].
  destruct (option_lines_split s n d (comments_of c s n)) as (q & -> & Hq);
    [by eapply defined_ok|done|by eapply config_writable_comments|].
  pose proof (defined_ok c s n d Hc Hd) as Hok.
  unfold option_writable in Hdw. apply andb_prop in Hdw as [[Hv _]%andb_prop Hk].
  rewrite (ok_name _ _ _ Hok) in Hk. apply values_writable in Hv. split.
  - by rewrite !forallb_app, quiet_good, values_good, IHg.
  - intros rest. rewrite <-!app_assoc, ini_entries_quiet, ini_entries_values, IHe by done. done.
Qed.

Lemma options_lines_nil c s : options_lines c s = [] -> section_entries c s = [].
Proof.
  unfold options_lines, section_entries. induction (section_options c s) as [|[n d] opts IH]; [done|].
  cbn [fmap list_fmap concat fst snd]. intros [H1 H2]%app_eq_nil. rewrite IH by done. rewrite app_nil_r.
  unfold option_lines in H1. cbn zeta in H1. unfold option_entries, values_as_string. cbn [fst snd].
  unfold get_number_found in H1. by destruct (od_parsed_values d).
Qed.

Lemma classify_header_line s : classify (trim_line (str "[" ++ s ++ str "]")) = Header s.
Proof. apply classify_header. Qed.

Lemma ini_entries_header s0 s rest : ini_entries s0 ([str "[" ++ s ++ str "]"] ++ rest) = ini_entries s rest.
Proof. cbn [app ini_entries]. by rewrite (classify_header_line s). Qed.

Lemma section_lines_spec c k s : config_ok c -> config_writable c = true -> s ∈ cd_section_ordering c ->
  forallb good_line (section_lines c k s) = true /\
  forall s0 rest, exists s', ini_entries s0 (section_lines c k s ++ rest) = section_entries c s ++ ini_entries s' rest.
Proof.
  intros Hc Hw Hs. unfold section_lines.
  destruct (options_lines_spec c s (section_options c s) Hc Hw) as [Hg He].
  { intros n d. by apply section_options_defined. }
  cbn zeta in *. fold (options_lines c s) in *. fold (section_entries c s) in *.
  destruct (options_lines c s) as [|l ls] eqn:E.
  { split; [done|]. intros s0 rest. exists s0. by rewrite options_lines_nil. }
  destruct (config_writable_comments c s [] Hw) as [_ Hcm]. apply quiet_comments in Hcm.
  assert (no_eol s = true) as Hse.
  { apply (ok_sections c Hc) in Hs as [defs Hs]. apply andb_prop in Hw as [[Hw _]%andb_prop _].
    apply (forallb_map_to_list _ _ s defs) in Hw; [|done]. by apply andb_prop in Hw as []. }
  assert (Hq0 : Forall quiet (if bool_decide (0 < k)%nat then [[]; []] else [])).
  { destruct (bool_decide _); repeat constructor; done. }
  assert (Hh : good_line (str "[" ++ s ++ str "]") = true).
  { unfold good_line, well_formed_line. rewrite classify_header_line, !no_eol_app, Hse. done. }
  split.
  - rewrite !forallb_app, quiet_good by done. cbn [forallb]. rewrite Hh. rewrite quiet_good by done. done.
  - intros s0 rest. exists s. rewrite <-!app_assoc, ini_entries_quiet by done.
    rewrite ini_entries_header, <-?app_assoc, ini_entries_quiet by done. apply He.
Qed.

Lemma config_lines_spec c k sections : config_ok c -> config_writable c = true ->
  (forall s, s ∈ sections -> s ∈ cd_section_ordering c) ->
  forallb good_line (config_lines c k sections) = true /\
  forall s0, ini_entries s0 (config_lines c k sections) = concat (section_entries c <$> sections).
Proof.
  intros Hc Hw. revert k. induction sections as [|s sections IH]; intros k Hin; [done|]. cbn [config_lines].
  destruct (section_lines_spec c k s Hc Hw) as [Hg He]; [set_solver|].
  destruct (IH (match options_lines c s with [] => k | _ => S k end)) as [IHg IHe]; [set_solver|].
  split; [by rewrite forallb_app, Hg, IHg|]. intros s0.
  destruct (He s0 (config_lines c (match options_lines c s with [] => k | _ => S k end) sections)) as [s' ->].
  by rewrite IHe.
Qed.

(** ** The values that are read *)

(** The strings written for an option *)
Definition written_values (c : ConfigDefinition Conf) (s n : bytes) : list bytes :=
  match cd_definitions c !! s ≫= (.!! n) with Some d => values_as_string fmt_path d | None => [] end.

Lemma entry_values_app e1 e2 s n : entry_values (e1 ++ e2) s n = entry_values e1 s n ++ entry_values e2 s n.
Proof. unfold entry_values. by rewrite filter_app, fmap_app. Qed.

Lemma entry_values_option s' nd s n :
  entry_values (option_entries s' nd) s n = if decide (s = s' /\ n = nd.1) then values_as_string fmt_path nd.2 else [].
Proof.
  unfold option_entries. induction (values_as_string fmt_path nd.2) as [|v vs IH]; [by case_decide|].
  cbn [fmap list_fmap]. rewrite entry_values_cons, IH. cbn [fst snd]. by case_decide.
Qed.

Lemma entry_values_none s' opts s n : (s <> s' \/ n ∉ opts.*1) -> entry_values (concat (option_entries s' <$> opts)) s n = [].
Proof.
  intros Hne. induction opts as [|nd opts IH]; [done|]. cbn [fmap list_fmap concat].
  rewrite entry_values_app, entry_values_option, decide_False, IH by set_solver. done.
Qed.

Lemma entry_values_one s opts n d : NoDup opts.*1 -> (n, d) ∈ opts ->
  entry_values (concat (option_entries s <$> opts)) s n = values_as_string fmt_path d.
Proof.
  induction opts as [|[m e] opts IH]; intros Hnd Hin; [by apply elem_of_nil in Hin|].
  cbn [fmap list_fmap concat fst] in *. apply NoDup_cons in Hnd as [Hm Hnd].
  rewrite entry_values_app, entry_values_option. cbn [fst snd].
  apply elem_of_cons in Hin as [[= -> ->]|Hin].
  - rewrite decide_True, entry_values_none by auto. by rewrite app_nil_r.
  - rewrite decide_False, IH by (done || intros [_ ->]; apply Hm; apply list_elem_of_fmap; by exists (m, d)). done.
Qed.

Lemma section_options_nodup c s : config_ok c -> NoDup (section_options c s).*1.
Proof.
  intros Hc. unfold section_options. destruct (cd_definitions c !! s) as [defs|] eqn:Hs; [|constructor].
  destruct (ok_options c Hc _ _ Hs) as (order & -> & Hnd & _ & _).
  induction Hnd as [|n order Hn Hnd IH]; [constructor|]. cbn [omap list_omap].
  destruct (defs !! n) as [d|]; [|done]. cbn. constructor; [|done].
  intros ([m d'] & -> & (m' & Hm' & Hd')%list_elem_of_omap)%list_elem_of_fmap. destruct (defs !! m'); [|done].
  cbn in Hd'. by simplify_eq.
Qed.

Lemma entry_values_section c s' s n : config_ok c ->
  entry_values (section_entries c s') s n = if decide (s = s') then written_values c s n else [].
Proof.
  intros Hc. unfold section_entries. case_decide as Hs; [subst s'|apply entry_values_none; by left].
  unfold written_values. destruct (cd_definitions c !! s ≫= (.!! n)) as [d|] eqn:E.
  - apply entry_values_one; [by apply section_options_nodup|]. apply section_options_defined; [done|].
    apply bind_Some in E as (defs & Hs & Hn). by exists defs.
  - apply entry_values_none. right. intros ([m d] & -> & Hin)%list_elem_of_fmap.
    apply section_options_defined in Hin as (defs & Hs & Hn); [|done]. cbn in E. rewrite Hs in E. cbn in E. congruence.
Qed.

Lemma entry_values_config c s n : config_ok c ->
  entry_values (concat (section_entries c <$> cd_section_ordering c)) s n = written_values c s n.
Proof.
  intros Hc.
  assert (forall l, NoDup l -> entry_values (concat (section_entries c <$> l)) s n
                    = if decide (s ∈ l) then written_values c s n else []) as Hl.
  { induction 1 as [|s' l Hs' Hnd IH]; [done|]. cbn [fmap list_fmap concat].
    rewrite entry_values_app, entry_values_section, IH by done.
    destruct (decide (s = s')) as [->|].
    - rewrite (decide_False (P := s' ∈ l)), decide_True by set_solver. by rewrite app_nil_r.
    - cbn [app]. destruct (decide (s ∈ l)); [rewrite decide_True|rewrite decide_False]; set_solver. }
  rewrite Hl by apply Hc. case_decide as Hs; [done|]. unfold written_values.
  destruct (cd_definitions c !! s) eqn:E; [|done]. destruct Hs. apply Hc. by eexists.
Qed.

(** Loading the text that is written for a configuration gives the values of its options. *)
Lemma generated_text_loaded c desc : config_ok c -> config_writable c = true ->
  exists ini p, generate_ini_config fmt_path fmt_chrono true c = Ok ini /\
    load_from_str ini (ConfigParser_new desc) = (p, None) /\
    forall s n, ini_values (cp_config p) s n = written_values c s n.
Proof.
  intros Hc Hw. rewrite generate_config_lines by done. eexists.
  destruct (config_lines_spec c 0 (cd_section_ordering c) Hc Hw) as [Hg He]; [done|].
  set (ls := config_lines c 0 (cd_section_ordering c)) in *.
  assert (Hn : forallb no_eol ls = true /\ forallb well_formed_line ls = true).
  { clear -Hg. induction ls as [|l ls IH]; [done|]. cbn [forallb] in *.
    apply andb_prop in Hg as [[Hl1 Hl2]%andb_prop Hg]. rewrite Hl1, Hl2. by destruct (IH Hg) as [-> ->]. }
  destruct Hn as [Hn1 Hn2].
  destruct (parse_lines_values 0 [] ∅ ls [] Hn2) as (s' & cfg & Hp & Hv). rewrite app_nil_r in Hp.
  exists (mkParser (terminated ls) cfg desc). split; [done|]. split.
  - transitivity (let '(cfg, err) := parse_lines 0 [] ∅ (ini_lines (terminated ls)) in
                  (mkParser (terminated ls) cfg desc, err)); [done|].
    by rewrite ini_lines_terminated, Hp.
  - intros s n. cbn [cp_config]. rewrite Hv, He, entry_values_config by done. done.
Qed.

(** ** Adding the values again *)

Definition clear_values (d : OptionDefinition Conf) : OptionDefinition Conf := d <| od_parsed_values := [] |>.

(** The definitions with the values of the options in [done] only *)
Definition keep_values (done : list (bytes * bytes)) (m : gmap bytes (gmap bytes (OptionDefinition Conf)))
    : gmap bytes (gmap bytes (OptionDefinition Conf)) :=
  map_imap (fun s defs => Some (map_imap (fun n d => Some (if decide ((s, n) ∈ done) then d else clear_values d)) defs)) m.

(** The definition before any value was added *)
Definition forget_values (c : ConfigDefinition Conf) : ConfigDefinition Conf :=
  c <| cd_definitions ::= keep_values [] |>.

(** An order in which the sections and options of the parser's maps are visited *)
Definition visit_order (order : list (bytes * bytes * list bytes)) (cfg : gmap bytes (gmap bytes (list bytes))) : Prop :=
  NoDup order.*1 /\ forall s n vs, (s, n, vs) ∈ order <-> cfg !! s ≫= (.!! n) = Some vs.

Lemma lookup_keep done m s n defs d : m !! s = Some defs -> defs !! n = Some d ->
  exists defs', keep_values done m !! s = Some defs' /\
    defs' !! n = Some (if decide ((s, n) ∈ done) then d else clear_values d).
Proof. intros Hs Hn. unfold keep_values. rewrite map_lookup_imap, Hs. eexists. split; [done|]. by rewrite map_lookup_imap, Hn. Qed.

Lemma set_definitions (c : ConfigDefinition Conf) f :
  c <| cd_definitions ::= f |> = mkDefs (cd_type c) (f (cd_definitions c)) (cd_section_ordering c)
    (cd_definition_ordering c) (cd_validators c) (cd_section_comments c) (cd_definition_comments c).
Proof. done. Qed.

(** The values of one option *)
Lemma add_values_written (c : ConfigDefinition Conf) s n d vs pre defs :
  cd_definitions c !! s = Some defs -> defs !! n = Some (d <| od_parsed_values := pre |>) ->
  (od_multi_valued d = false -> (length (pre ++ vs) <= 1)%nat) -> forallb (value_writable (od_type d)) vs = true ->
  add_values tie_up s n (value_as_string fmt_path (od_type d) <$> vs) c
  = Ok (c <| cd_definitions ::= <[s := <[n := d <| od_parsed_values := pre ++ vs |>]> defs]> |>).
Proof.
  revert c pre defs. induction vs as [|v vs IH]; intros c pre defs Hs Hn Hm Hw; cbn [fmap list_fmap add_values].
  - rewrite app_nil_r. f_equal. rewrite set_definitions, (insert_id defs), insert_id by done. by destruct c.
  - cbn [forallb] in Hw. apply andb_prop in Hw as [Hv Hw].
    unfold add_config_value. rewrite Hs. cbn [or_throw outcome_bind]. rewrite Hn. cbn [or_throw outcome_bind].
    destruct (value_read_back tie_up fmt_path fmt_path_plain _ _ Hv) as [Hr _].
    assert (parse_value tie_up (value_as_string fmt_path (od_type d) v) (d <| od_parsed_values := pre |>)
            = Ok (d <| od_parsed_values := pre ++ [v] |>)) as ->.
    { unfold parse_value. cbn. rewrite Hr. cbn.
      destruct (negb (od_multi_valued d) && _) eqn:E; [|done].
      apply andb_prop in E as [E1%negb_true_iff E2%bool_decide_eq_true]. apply Hm in E1.
      change (0 < length pre)%nat in E2. rewrite length_app in E1. cbn [length] in E1. lia. }
    cbn [outcome_bind].
    erewrite (IH _ (pre ++ [v]) (<[n := d <| od_parsed_values := pre ++ [v] |>]> defs)).
    + rewrite <-app_assoc, !set_definitions. cbn. by rewrite !insert_insert_eq.
    + cbn. by rewrite lookup_insert_eq.
    + by rewrite lookup_insert_eq.
    + intros Hf. rewrite <-app_assoc. by apply Hm.
    + done.
Qed.

Lemma keep_values_cons done m s n d defs defs' : m !! s = Some defs -> defs !! n = Some d ->
  keep_values done m !! s = Some defs' ->
  <[s := <[n := d]> defs']> (keep_values done m) = keep_values ((s, n) :: done) m.
Proof.
  intros Hs Hn Hk. unfold keep_values in *. rewrite map_lookup_imap, Hs in Hk. cbn in Hk. injection Hk as <-.
  apply map_eq. intros s'. rewrite map_lookup_imap. destruct (decide (s' = s)) as [->|Hne].
  - rewrite lookup_insert_eq, Hs. cbn. f_equal. apply map_eq. intros n'. rewrite map_lookup_imap.
    destruct (decide (n' = n)) as [->|Hn'].
    + rewrite lookup_insert_eq, Hn. cbn. rewrite decide_True by set_solver. done.
    + rewrite lookup_insert_ne, map_lookup_imap by done. destruct (defs !! n'); [|done]. cbn. f_equal.
      apply decide_ext. set_solver.
  - rewrite lookup_insert_ne, map_lookup_imap by done. destruct (m !! s') as [defs2|]; [|done]. cbn. f_equal.
    apply map_eq. intros n'. rewrite !map_lookup_imap. destruct (defs2 !! n'); [|done]. cbn. f_equal.
    apply decide_ext. set_solver.
Qed.

Lemma keep_values_all done m : (forall s n defs d, m !! s = Some defs -> defs !! n = Some d ->
    od_parsed_values d <> [] -> (s, n) ∈ done) -> keep_values done m = m.
Proof.
  intros Hall. unfold keep_values. apply map_eq. intros s. rewrite map_lookup_imap.
  destruct (m !! s) as [defs|] eqn:Hs; [|done]. cbn. f_equal. apply map_eq. intros n. rewrite map_lookup_imap.
  destruct (defs !! n) as [d|] eqn:Hn; [|done]. cbn. f_equal. case_decide as Hd; [done|].
  destruct d as [? ? ? ? ? ? ? ? ? ? ? ? parsed ?]. unfold clear_values. cbn.
  destruct parsed; [done|]. destruct Hd. by eapply Hall.
Qed.

Lemma option_with_values (d : OptionDefinition Conf) : d <| od_parsed_values := [] ++ od_parsed_values d |> = d.
Proof. by destruct d. Qed.

Lemma add_option_written c s n done : config_ok c -> config_writable c = true -> (s, n) ∉ done ->
  add_values tie_up s n (written_values c s n) (c <| cd_definitions ::= keep_values done |>)
  = Ok (c <| cd_definitions ::= keep_values ((s, n) :: done) |>).
Proof.
  intros Hc Hw Hnew. unfold written_values.
  destruct (cd_definitions c !! s ≫= (.!! n)) as [d|] eqn:E.
  - apply bind_Some in E as (defs & Hs & Hn).
    destruct (config_writable_option c s n d Hw) as [_ Hdw]; [by exists defs|].
    unfold option_writable in Hdw. apply andb_prop in Hdw as [[Hv _]%andb_prop _].
    assert (option_ok s n d) as Hok by (apply (defined_ok c); [done|by exists defs]).
    destruct (lookup_keep done _ s n defs d Hs Hn) as (defs' & Hs' & Hn'). rewrite decide_False in Hn' by done.
    unfold values_as_string.
    rewrite (add_values_written _ s n d (od_parsed_values d) [] defs'); [|done|done|apply (ok_single _ _ _ Hok)|done].
    f_equal. rewrite option_with_values, !set_definitions. cbn. by rewrite (keep_values_cons done _ s n d defs).
  - cbn [add_values]. f_equal. rewrite !set_definitions. f_equal. unfold keep_values. apply map_eq. intros s'.
    rewrite !map_lookup_imap. destruct (cd_definitions c !! s') as [defs|] eqn:Hs; [|done]. cbn. f_equal.
    apply map_eq. intros n'. rewrite !map_lookup_imap. destruct (defs !! n') as [d|] eqn:Hn; [|done]. cbn. f_equal.
    apply decide_ext. rewrite elem_of_cons. split; [by right|]. intros [[= -> ->]|?]; [|done].
    rewrite Hs in E. cbn in E. congruence.
Qed.

Lemma add_all_written c order done : config_ok c -> config_writable c = true -> NoDup order.*1 ->
  (forall k, k ∈ order.*1 -> k ∉ done) -> (forall s n vs, (s, n, vs) ∈ order -> vs = written_values c s n) ->
  exists done', (forall k, k ∈ done' <-> k ∈ done \/ k ∈ order.*1) /\
    add_all_values tie_up order (c <| cd_definitions ::= keep_values done |>)
    = Ok (c <| cd_definitions ::= keep_values done' |>).
Proof.
  intros Hc Hw. revert done. induction order as [|[[s n] vs] order IH]; intros done Hnd Hdis Hvs.
  { exists done. split; [|done]. intros k. split; [by left|]. by intros [?|?%elem_of_nil]. }
  cbn [fmap list_fmap fst] in *. apply NoDup_cons in Hnd as [Hk Hnd]. cbn [add_all_values].
  rewrite (Hvs s n vs) by set_solver. rewrite add_option_written; [|done|done|apply Hdis; set_solver].
  cbn [outcome_bind]. destruct (IH ((s, n) :: done) Hnd) as (done' & Hd' & ->); [set_solver|set_solver|].
  exists done'. split; [|done]. intros k. rewrite Hd', !elem_of_cons. tauto.
Qed.

Lemma written_values_added c cfg order : config_ok c -> config_writable c = true ->
  (forall s n, ini_values cfg s n = written_values c s n) -> visit_order order cfg ->
  add_all_values tie_up order (forget_values c) = Ok c.
Proof.
  intros Hc Hw Hcfg [Hnd Hord].
  destruct (add_all_written c order [] Hc Hw Hnd) as (done & Hdone & Hadd).
  - intros k _. apply not_elem_of_nil.
  - intros s n vs Hin%Hord. rewrite <-Hcfg. unfold ini_values. by rewrite Hin.
  - unfold forget_values. rewrite Hadd. f_equal. rewrite set_definitions, keep_values_all; [by destruct c|].
    intros s n defs d Hs Hn Hp. apply Hdone. right. apply list_elem_of_fmap.
    specialize (Hcfg s n). unfold ini_values, written_values in Hcfg. rewrite Hs in Hcfg. cbn in Hcfg.
    rewrite Hn in Hcfg. destruct (cfg !! s ≫= (.!! n)) as [vs|] eqn:E.
    + exists (s, n, vs). split; [done|by apply Hord].
    + cbn in Hcfg. unfold values_as_string in Hcfg. by destruct (od_parsed_values d).
Qed.

(** C29. Writing a configuration with its values and loading the text gives the configuration
    back: the text parses without an error, and adding the values that were read to the
    definition without values, in any order of the parser's maps, restores every option. This
    is for configurations whose values can be written: integers of an [int], booleans, trimmed
    strings of one line, non-empty paths without whitespace that do not start with a quote, and
    durations of a whole non-negative number of seconds below 2^31; whose option names are keys
    of the format; and whose sections, comments and defaults are of one line. Other values do
    not come back: [milliseconds_lost], [rest_of_value_dropped]. *)
Theorem config_round_trip type ops desc : forallb op_compiles ops = true ->
  let c := foldl (apply_op tie_up) (ConfigDefinition_new type) ops in
  config_writable c = true ->
  exists ini p, generate_ini_config fmt_path fmt_chrono true c = Ok ini /\
    load_from_str ini (ConfigParser_new desc) = (p, None) /\
    forall order, visit_order order (cp_config p) -> add_all_values tie_up order (forget_values c) = Ok c.
Proof.
  intros Hops c Hw. assert (config_ok c) as Hc by (apply (apply_ops_ok tie_up fmt_path); [apply config_new_ok|done]).
  destruct (generated_text_loaded c desc Hc Hw) as (ini & p & Hgen & Hload & Hvals).
  exists ini, p. split; [done|]. split; [done|]. intros order. by apply written_values_added.
Qed.
End Text.

(** A client's configuration with values of several types, comments and an option that is
    ignored *)
Definition text_example_ops : list (ConfigOp (Conf := unit)) :=
  [SectionComments (str "paths") [str "Paths"];
   Define (str "paths") (str "client-hops") TInt [Default (VInt 3); ClientOnly; Comment [str "Number of hops"; []]];
   Define (str "paths") (str "strict-edge") TString [MultiValue; ClientOnly];
   Define (str "paths") (str "relay-only") TString [RelayOnly];
   Define (str "dns") (str "enabled") TBool [Hidden];
   Define (str "dns") (str "timeout") TSeconds [Default (VDuration 5)];
   AddValue (str "paths") (str "client-hops") (str " 4");
   AddValue (str "paths") (str "strict-edge") (str "abc=d"); AddValue (str "paths") (str "strict-edge") (str "[x]");
   AddValue (str "dns") (str "enabled") (str "off"); AddValue (str "dns") (str "timeout") (str "120")].

Lemma config_round_trip_witness : exists ini p,
  generate_ini_config (fun p => p) (fun _ _ => []) true
    (foldl (apply_op (fun _ _ => true)) (ConfigDefinition_new FullClient) text_example_ops) = Ok ini /\
  load_from_str ini (ConfigParser_new []) = (p, None) /\
  forall order, visit_order order (cp_config p) ->
    add_all_values (fun _ _ => true) order
      (forget_values (foldl (apply_op (fun _ _ => true)) (ConfigDefinition_new FullClient) text_example_ops))
    = Ok (foldl (apply_op (fun _ _ => true)) (ConfigDefinition_new FullClient) text_example_ops).
Proof.
  exact (config_round_trip (fun _ _ => true) (fun p => p) (fun p => eq_refl) (fun _ _ => []) FullClient
           text_example_ops [] ltac:(vm_compute; reflexivity) ltac:(vm_compute; reflexivity)).
Defined.

(** ** Values that are not read back *)

Lemma suffix_ms s : duration_suffix (s ++ str "ms") = (ns_ms, s).
Proof.
  unfold duration_suffix. change (str "ms") with ([109] ++ [115]). rewrite app_assoc.
  assert (ends_with ((s ++ [109]) ++ [115]) (str "h") = false) as -> by (by apply (not_ends_with _ 115 [] 104)).
  assert (ends_with ((s ++ [109]) ++ [115]) (str "min") = false) as -> by (by apply (not_ends_with _ 115 (str "mi") 110)).
  assert (ends_with ((s ++ [109]) ++ [115]) (str "m") = false) as -> by (by apply (not_ends_with _ 115 [] 109)).
  rewrite <-app_assoc, (proj2 (ends_with_spec _ _)) by (by exists s). f_equal. apply (remove_suffix_app s (str "ms")).
Qed.

(** A number of milliseconds that is not one of whole seconds is written as its
    number of seconds, and so read back as a thousandth. *)
Lemma milliseconds_lost tie_up n : 0 < n -> n mod 1000 <> 0 -> n / 1000 < 2 ^ 31 ->
  duration_as_string TMillis n = fmt_int (n / 1000) ++ str "ms" /\
  from_string tie_up TMillis (duration_as_string TMillis n) = Ok (VDuration (n / 1000)).
Proof.
  intros Hn Hm Hi. pose proof (Z.div_pos n 1000 ltac:(lia) ltac:(lia)) as Hq.
  assert (duration_as_string TMillis n = fmt_int (n / 1000) ++ str "ms") as E.
  { assert (Hrem : forall k, 0 < k -> Z.rem (n * ns_ms) (k * ns_s) <> 0).
    { intros k Hk Hr. apply Z.rem_divide in Hr as [x Hx]; [|unfold ns_s; lia]. unfold ns_ms, ns_s in Hx.
      apply Hm. replace n with ((x * k) * 1000) by lia. apply Z.mod_mul. lia. }
    unfold duration_as_string. cbn [unit_of]. rewrite (proj2 (Z.eqb_neq n 0)) by lia.
    rewrite (proj2 (Z.eqb_neq (Z.rem _ ns_h) 0)) by (apply (Hrem 3600); lia).
    rewrite (proj2 (Z.eqb_neq (Z.rem _ ns_min) 0)) by (apply (Hrem 60); lia).
    rewrite (proj2 (Z.eqb_neq (Z.rem _ ns_s) 0)) by (apply (Hrem 1); lia).
    rewrite !andb_false_r, Z.rem_mul by done. rewrite (proj2 (Z.leb_le _ _)) by (unfold ns_ms; lia). cbn [andb Z.eqb].
    rewrite Z.quot_div_nonneg by (unfold ns_ms, ns_s; lia).
    replace ns_s with (1000 * ns_ms) by done. by rewrite Z.div_mul_cancel_r. }
  split; [done|]. rewrite E. unfold from_string. rewrite suffix_ms, parse_int_fmt by (unfold in_int; lia).
  cbn [or_throw outcome_bind unit_of]. by rewrite round_to_exact.
Qed.

(** "0" is not a boolean, although "1" is. *)
Lemma zero_not_false tie_up :
  from_string tie_up TBool (str "1") = Ok (VBool true) /\ from_string tie_up TBool (str "0") = Throw (NotABool (str "0")).
Proof. split; vm_compute; reflexivity. Qed.

(** A path is cut at its first space, and what follows a number is ignored. *)
Lemma rest_of_value_dropped tie_up :
  from_string tie_up TPath (str "/home/my user/data") = Ok (VPath (str "/home/my")) /\
  from_string tie_up TInt (str "12 of 20") = Ok (VInt 12).
Proof. split; vm_compute; reflexivity. Qed.

(** An option that may be given several times is rejected the second time where it should be
    ignored with a warning. *)
Lemma ignored_multi_value_rejected tie_up :
  let c := foldl (apply_op tie_up) (ConfigDefinition_new (Conf := unit) Relay)
             [Define (str "paths") (str "strict-edge") TString [MultiValue; ClientOnly];
              AddValue (str "paths") (str "strict-edge") (str "a")] in
  add_config_value tie_up (str "paths") (str "strict-edge") (str "b") c = Throw (DuplicateValue (str "strict-edge")).
Proof. vm_compute. reflexivity. Qed.
