(* ===== verification/ConfigPaths.v ===== *)
(** * The [paths] section of the configuration (config/config.{hpp,cpp})

    [PathConfig], the definitions of its options with their acceptors and validators, and the
    constructor of [Config], which defines the options of all sections, loads the file, adds its
    values and processes them.  The sections defined before and after [paths] are arguments; the
    texts of the comments are left out.  The decoders of oxenc are variables. *)

From Stdlib Require Import ZArith Lia.
From stdpp Require Import base list numbers strings gmap.
From coqutil Require Import Datatypes.RecordSettersUsingExistingGetters.
From S2P Require Import Prelude Oxenc Str Ini ConfigDef ConfigTyped.

Local Open Scope Z_scope.
Local Open Scope router_scope.

Definition CLIENT_ROUTER_CONNECTIONS : Z := 4.
Definition BUILD_LENGTH : Z := 8.
(** In seconds *)
Definition PATH_MAX_LIFETIME : Z := 20 * 60.

(** [PathConfig]; durations in their unit *)
Record PathConfig := mkPathConfig {
  edge_connections : Z;
  strict_edges : gset bytes;
  snode_blacklist : gset bytes;
  inbound_paths : Z;
  inbound_paths_extra : Z;
  inbound_pivot_reuse : Z;
  inbound_hops_ : option Z;
  outbound_paths : Z;
  relay_hops_ : option Z;
  client_hops : Z;
  unique_hop_netmask : Z;
  pc_min_expiry : Z;
  pc_acceptable_expiry : Z;
  build_timeout : Z;
  ping_interval : Z;
  max_missed_pings : Z;
}.

Definition PathConfig_default : PathConfig :=
  mkPathConfig CLIENT_ROUTER_CONNECTIONS ∅ ∅ 4 0 1 None 2 None 3 0 60 300 10000 5 5.

(** [inbound_hops()], [relay_hops()] *)
Definition inbound_hops (p : PathConfig) : Z := default (client_hops p) (inbound_hops_ p).
Definition relay_hops (p : PathConfig) : Z := default (Z.min (client_hops p + 1) BUILD_LENGTH) (relay_hops_ p).

Section Acceptors.
Context {Conf : Type}.
(** fmt's output for the type of the option *)
Variable show : Z -> bytes.

(** [bounded_assignment_acceptor], [lower_bounded_assignment_acceptor] *)
Definition bounded_assignment_acceptor (set : Z -> Conf -> Conf) (min max : Z) (name : bytes) (arg : Z) (conf : Conf)
    : outcome bytes Conf :=
  throw_if (arg <? min) || (max <? arg)
    with name ++ str " must be >= " ++ show min ++ str " and <= " ++ show max in
  Ok (set arg conf).
Definition lower_bounded_assignment_acceptor (set : Z -> Conf -> Conf) (min : Z) (name : bytes) (arg : Z) (conf : Conf)
    : outcome bytes Conf :=
  throw_if (arg <? min) with name ++ str " must be >= " ++ show min in
  Ok (set arg conf).
End Acceptors.

Section Paths.
(** [oxenc::is_hex] and [from_hex], [is_base32z] and [from_base32z] *)
Variable is_hex : bytes -> bool.
Variable from_hex : bytes -> bytes.
Variable is_base32z : bytes -> bool.
Variable from_base32z : bytes -> bytes.
Variable fmt_chrono : OptType -> Z -> bytes.

(** [to_base32z_size(32)] *)
Definition B32Z_ID_SIZE : nat := 52.

(** [RouterID::from_relay_address(str)] *)
Definition from_relay_address (s : bytes) : option bytes :=
  if negb (ends_with s (str ".snode")) then None
  else
    let s := remove_suffix 6 s in
    if negb (bool_decide (length s = B32Z_ID_SIZE)) || negb (is_base32z s)
       || negb (bool_decide (last s = Some 111) || bool_decide (last s = Some 121)) then None
    else Some (from_base32z s).

(** The whole configuration, of which [PathConfig] is a member *)
Context {Config : Type}.
Variable paths : Config -> PathConfig.
Variable set_paths : PathConfig -> Config -> Config.

Definition upd (f : Z -> PathConfig -> PathConfig) (z : Z) (conf : Config) : Config := set_paths (f z (paths conf)) conf.

(** The acceptors of unique-range-size, strict-edge and blacklist-snode *)
Definition accept_range_size (arg : Z) (conf : Config) : outcome bytes Config :=
  throw_if (32 <? arg) || ((arg <? 4) && negb (arg =? 0))
    with str "[paths]:unique-range-size must be between 4 and 32, or 0" in
  Ok (upd (fun z p => p <| unique_hop_netmask := wrap 8 z |>) arg conf).

Definition accept_strict_edge (value : bytes) (conf : Config) : outcome bytes Config :=
  let! router := (if bool_decide (length value = 64%nat) && is_hex value then Ok (from_hex value)
                  else or_throw (str "[paths]:strict-edge: Invalid .snode pubkey: " ++ value) (from_relay_address value)) in
  throw_if (bool_decide (router ∈ strict_edges (paths conf)))
    with str "[paths]:strict-edge: Duplicate strict connect .snode value: " ++ value in
  Ok (set_paths ((paths conf) <| strict_edges ::= ({[router]} ∪.) |>) conf).

Definition accept_blacklist (arg : bytes) (conf : Config) : outcome bytes Config :=
  let! id := or_throw (str "Invalid RouterID: " ++ arg) (from_relay_address arg) in
  throw_if (bool_decide (id ∈ snode_blacklist (paths conf))) with str "Duplicate blacklist-snode: " ++ arg in
  Ok (set_paths ((paths conf) <| snode_blacklist ::= ({[id]} ∪.) |>) conf).

(** The two validators *)
Definition validate_expiries (conf : Config) : outcome bytes unit :=
  throw_if pc_acceptable_expiry (paths conf) <? pc_min_expiry (paths conf)
    with str "[paths]:min-expiry cannot be longer than [paths]:acceptable-expiry" in
  Ok tt.
Definition validate_strict_edges (conf : Config) : outcome bytes unit :=
  if bool_decide (strict_edges (paths conf) = ∅) then Ok tt
  else
    throw_if (client_hops (paths conf) =? 1)
      with str "[paths]:strict-edge cannot be used with [paths]:client-hops=1 single hop mode" in
    throw_if (match relay_hops_ (paths conf) with Some h => h =? 1 | None => false end)
      with str "[paths]:strict-edge cannot be used with [paths]:relay-hops=1 single hop mode" in
    Ok tt.

(** [PathConfig::define_config_options(conf)] *)
Definition bounded_int (f : Z -> PathConfig -> PathConfig) (min max : Z) (name : bytes) : Opt Config :=
  Accept (AcceptInt (bounded_assignment_acceptor fmt_int (upd f) min max name)).
Definition at_least_int (f : Z -> PathConfig -> PathConfig) (min : Z) (name : bytes) : Opt Config :=
  Accept (AcceptInt (lower_bounded_assignment_acceptor fmt_int (upd f) min name)).
Definition bounded_duration (t : OptType) (f : Z -> PathConfig -> PathConfig) (min max : Z) (name : bytes) : Opt Config :=
  Accept (AcceptDuration (bounded_assignment_acceptor (fmt_chrono t) (upd f) min max name)).

Definition hop_options : list (ConfigOp (Conf := Config)) :=
  [SectionComments (str "paths") [];
   Define (str "paths") (str "edge-connections") TInt
     [Default (VInt CLIENT_ROUTER_CONNECTIONS); ClientOnly;
      at_least_int (fun z p => p <| edge_connections := z |>) 1 (str "[paths]:edge-connections")];
   Define (str "paths") (str "outbound-paths") TInt
     [ClientOnly; Default (VInt 2);
      bounded_int (fun z p => p <| outbound_paths := z |>) 1 4 (str "[paths]:outbound-paths")];
   Define (str "paths") (str "client-hops") TInt
     [ClientOnly; Default (VInt 3);
      bounded_int (fun z p => p <| client_hops := z |>) 1 BUILD_LENGTH (str "[paths]:client-hops")];
   Define (str "paths") (str "relay-hops") TInt
     [ClientOnly; bounded_int (fun z p => p <| relay_hops_ := Some z |>) 1 BUILD_LENGTH (str "[paths]:relay-hops")];
   Define (str "paths") (str "inbound-paths") TInt
     [ClientOnly; Default (VInt 4);
      bounded_int (fun z p => p <| inbound_paths := z |>) 1 10 (str "[paths]:local-paths")];
   Define (str "paths") (str "inbound-paths-extra") TInt
     [FullClientOnly; Hidden; Default (VInt 0);
      at_least_int (fun z p => p <| inbound_paths_extra := z |>) 0 (str "[paths]:inbound-paths-extra")];
   Define (str "paths") (str "inbound-hops") TInt
     [ClientOnly; bounded_int (fun z p => p <| inbound_hops_ := Some z |>) 1 BUILD_LENGTH (str "[paths]:inbound-hops")];
   Define (str "paths") (str "inbound-pivot-reuse") TInt
     [ClientOnly; Default (VInt 1);
      at_least_int (fun z p => p <| inbound_pivot_reuse := z |>) 1 (str "[paths]:inbound-pivot-reuse")];
   Define (str "paths") (str "unique-range-size") TInt
     [Default (VInt 24); ClientOnly; Accept (AcceptInt accept_range_size)]].
Definition time_options : list (ConfigOp (Conf := Config)) :=
  [Define (str "paths") (str "acceptable-expiry") TSeconds
     [Default (VDuration 300); ClientOnly;
      bounded_duration TSeconds (fun z p => p <| pc_acceptable_expiry := z |>) 0 (PATH_MAX_LIFETIME / 2) (str "acceptable-expiry")];
   Define (str "paths") (str "min-expiry") TSeconds
     [Default (VDuration 60); ClientOnly;
      bounded_duration TSeconds (fun z p => p <| pc_min_expiry := z |>) 0 (PATH_MAX_LIFETIME / 2) (str "min-expiry")];
   Define (str "paths") (str "build-timeout") TMillis
     [ClientOnly; Default (VDuration 10000);
      bounded_duration TMillis (fun z p => p <| build_timeout := z |>) 1 60000 (str "[paths]:build-timeout")];
   Validator validate_expiries;
   Define (str "paths") (str "ping-interval") TSeconds
     [Default (VDuration 5); ClientOnly;
      Accept (AcceptDuration (lower_bounded_assignment_acceptor (fmt_chrono TSeconds) (upd (fun z p => p <| ping_interval := z |>)) 1
                                (str "[paths]:ping-interval")))];
   Define (str "paths") (str "max-missed-pings") TInt
     [Default (VInt 5); ClientOnly;
      at_least_int (fun z p => p <| max_missed_pings := z |>) 0 (str "[paths]:max-missed-pings")]].
Definition edge_options : list (ConfigOp (Conf := Config)) :=
  [Define (str "paths") (str "strict-edge") TString [ClientOnly; MultiValue; Accept (AcceptString accept_strict_edge)];
   Validator validate_strict_edges;
   Define (str "paths") (str "blacklist-snode") TString [ClientOnly; MultiValue; Accept (AcceptString accept_blacklist)]].
Definition path_options : list (ConfigOp (Conf := Config)) := hop_options ++ time_options ++ edge_options.
End Paths.

(** ** The constructor of [Config] *)
Section Load.
Context {Config : Type}.
Variable tie_up : Z -> Z -> bool.

Fixpoint run_ops (ops : list (ConfigOp (Conf := Config))) (c : ConfigDefinition Config)
    : outcome ConfigError (ConfigDefinition Config) :=
  match ops with
  | [] => Ok c
  | op :: ops => let! c := run_op tie_up c op in run_ops ops c
  end.

(** The errors of the parser and of the definitions *)
Inductive LoadError := ParseError (e : IniError) | DefError (e : ConfigError).

Definition lift {A} (r : outcome ConfigError A) : outcome LoadError A :=
  match r with Ok a => Ok a | Throw e => Throw (DefError e) end.

(** [Config(type, ini, conf_dir, config_for_debug)]: [options] are those of all sections, and
    [order] lists the parser's maps in the order they are iterated in. *)
Definition Config_load (type : ConfigType) (options : list (ConfigOp (Conf := Config)))
    (order : gmap bytes (gmap bytes (list bytes)) -> list (bytes * bytes * list bytes)) (ini desc : bytes) (conf : Config)
    : outcome LoadError Config :=
  let! defs := lift (run_ops options (ConfigDefinition_new type)) in
  let '(parser, err) := load_from_str ini (ConfigParser_new desc) in
  match err with
  | Some e => Throw (ParseError e)
  | None =>
    let! defs := lift (add_all_values tie_up (order (cp_config parser)) defs) in
    lift (process defs conf)
  end.
End Load.

(** ** Configurations that load are valid *)

(** What the other parts of the program rely on *)
Record path_bounds (p : PathConfig) : Prop := {
  pb_edges : 1 <= edge_connections p;
  pb_outbound : 1 <= outbound_paths p <= 4;
  pb_client_hops : 1 <= client_hops p <= BUILD_LENGTH;
  pb_relay_hops : forall h, relay_hops_ p = Some h -> 1 <= h <= BUILD_LENGTH;
  pb_inbound_hops : forall h, inbound_hops_ p = Some h -> 1 <= h <= BUILD_LENGTH;
  pb_inbound : 1 <= inbound_paths p <= 10;
  pb_extra : 0 <= inbound_paths_extra p;
  pb_reuse : 1 <= inbound_pivot_reuse p;
  pb_netmask : unique_hop_netmask p = 0 \/ 4 <= unique_hop_netmask p <= 32;
  pb_acceptable : 0 <= pc_acceptable_expiry p <= PATH_MAX_LIFETIME / 2;
  pb_min : 0 <= pc_min_expiry p <= PATH_MAX_LIFETIME / 2;
  pb_timeout : 1 <= build_timeout p <= 60000;
  pb_ping : 1 <= ping_interval p;
  pb_missed : 0 <= max_missed_pings p;
}.

Section Valid.
Context {Config : Type}.
Variable tie_up : Z -> Z -> bool.
(** A property of the configuration that acceptors keep *)
Variable I : Config -> Prop.

Definition acceptor_keeps (a : Acceptor Config) : Prop :=
  forall v conf conf', I conf -> call_acceptor a v conf = Ok conf' -> I conf'.

Definition op_keeps (op : ConfigOp (Conf := Config)) : Prop :=
  match op with
  | Define _ _ _ opts => Forall (fun o => match o with Accept a => acceptor_keeps a | _ => True end) opts
  | _ => True
  end.

Definition config_keeps (c : ConfigDefinition Config) : Prop :=
  forall s n d a, defined c s n d -> od_acceptor d = Some a -> acceptor_keeps a.

Lemma option_new_acceptor section name t opts (d : OptionDefinition Config) a :
  OptionDefinition_new section name t opts = Ok d -> od_acceptor d = Some a -> Accept a ∈ opts.
Proof.
  intros H Ha. unfold OptionDefinition_new in H. apply outcome_bind_Ok in H as (d1 & H1 & [= <-]).
  assert (od_acceptor d1 = None) as Hnone.
  { assert (forall opts' d0, od_acceptor d0 = None -> extract_defaults opts' d0 = Ok d1 -> od_acceptor d1 = None) as Hd.
    { induction opts' as [|o opts' IH]; intros d0 H0 H; cbn in H; [by injection H as <-|].
      apply outcome_bind_Ok in H as (d2 & H2 & H). apply (IH d2); [|done].
      destruct o; cbn in H2; simplify_eq; try done. outcome_inv H2. by simplify_eq. }
    by apply (Hd opts (OptionDefinitionBase section name t opts)). }
  destruct (extract_comments_same opts (foldl extract_acceptor d1 opts)) as (_ & _ & Hc). cbn zeta in Hc.
  rewrite Hc in Ha. clear Hc H1.
  assert (forall opts' d0, od_acceptor (foldl extract_acceptor d0 opts') = Some a ->
    od_acceptor d0 = Some a \/ Accept a ∈ opts') as Hacc.
  { induction opts' as [|o opts' IH]; intros d0 H; [by left|]. cbn [foldl] in H.
    apply IH in H as [H|H]; [|right; by apply elem_of_cons; right].
    destruct o; cbn in H; try (by left). injection H as ->. right. apply elem_of_cons. by left. }
  apply Hacc in Ha as [Ha|Ha]; [congruence|done].
Qed.

Lemma define_option_defined (d : OptionDefinition Config) c c' s n e : define_option d c = Ok c' -> defined c' s n e ->
  defined c s n e \/ od_acceptor e = od_acceptor d \/ (forall a, od_acceptor e = Some a -> acceptor_keeps a).
Proof.
  intros H (defs & Hs & Hn). unfold define_option in H. cbn zeta in H. outcome_inv H. injection H as <-.
  assert (Hign : forall x y a, od_acceptor (ignored_option (Conf := Config) x y) = Some a -> acceptor_keeps a).
  { intros x y a [= <-] v conf conf' Hi Hcall. destruct v; cbn in Hcall; by simplify_eq. }
  set (d' := if option_ignored (cd_type c) d then _ else d) in *.
  assert (Hd' : od_acceptor d' = od_acceptor d \/ forall a, od_acceptor d' = Some a -> acceptor_keeps a).
  { subst d'. destruct (option_ignored _ d); [right; apply Hign|by left]. }
  clearbody d'. destruct (bool_decide (od_comments d' = [])); cbn in Hs;
    destruct (cd_definitions c !! od_section d') as [m|] eqn:E; cbn in Hs;
    rewrite ?E, ?lookup_insert_eq in Hs; cbn in Hs;
    (destruct (decide (s = od_section d')) as [->|Hne];
     [rewrite lookup_insert_eq in Hs; injection Hs as <-;
      destruct (decide (n = od_name d')) as [->|Hn'];
      [rewrite lookup_insert_eq in Hn; injection Hn as <-; right; done
      |rewrite lookup_insert_ne in Hn by done; first [by rewrite lookup_empty in Hn|left; by exists m]]
     |rewrite !lookup_insert_ne in Hs by done; left; by exists defs]).
Qed.

Lemma add_config_value_defined s0 n0 v c c' s n (e : OptionDefinition Config) :
  add_config_value tie_up s0 n0 v c = Ok c' -> defined c' s n e ->
  exists d, defined c s n d /\ od_acceptor e = od_acceptor d.
Proof.
  intros H (defs & Hs & Hn). unfold add_config_value in H.
  apply outcome_bind_Ok in H as (defs0 & Hs0%or_throw_Ok & H).
  apply outcome_bind_Ok in H as (d0 & Hn0%or_throw_Ok & H).
  apply outcome_bind_Ok in H as (d1 & Hp & [= <-]). cbn in Hs.
  assert (od_acceptor d1 = od_acceptor d0) as Ha.
  { unfold parse_value in Hp. outcome_inv Hp. by injection Hp as <-. }
  destruct (decide (s = s0)) as [->|]; [|rewrite lookup_insert_ne in Hs by done; exists e; split; [by exists defs|done]].
  rewrite lookup_insert_eq in Hs. injection Hs as <-. destruct (decide (n = n0)) as [->|].
  - rewrite lookup_insert_eq in Hn. injection Hn as <-. exists d0. split; [by exists defs0|done].
  - rewrite lookup_insert_ne in Hn by done. exists e. split; [by exists defs0|done].
Qed.

Lemma run_op_keeps op c c' : op_keeps op -> config_keeps c -> run_op tie_up c op = Ok c' -> config_keeps c'.
Proof.
  intros Hop Hc H. destruct op; cbn [run_op op_keeps] in *; simplify_eq; try done.
  - unfold define_option_new in H. apply outcome_bind_Ok in H as (d & Hd & H). intros s n e a He Ha.
    destruct (define_option_defined d c c' s n e H He) as [He'|[Heq|Hk]]; [by eapply Hc| |by apply Hk].
    apply (proj1 (Forall_forall _ _) Hop (Accept a)). eapply option_new_acceptor; [done|]. by rewrite <-Heq.
  - intros s n e a He Ha. destruct (add_config_value_defined _ _ _ _ _ s n e H He) as (d & Hd & Heq).
    apply (Hc s n d); [done|]. by rewrite <-Heq.
Qed.

Lemma run_op_validators op (c c' : ConfigDefinition Config) : run_op tie_up c op = Ok c' ->
  forall v, v ∈ cd_validators c \/ op = Validator v -> v ∈ cd_validators c'.
Proof.
  intros H v Hv. destruct op; cbn [run_op] in H; simplify_eq.
  - unfold define_option_new in H. apply outcome_bind_Ok in H as (d & Hd & H). unfold define_option in H. cbn zeta in H.
    outcome_inv H. injection H as <-. destruct Hv as [Hv|[=]].
    set (d' := if option_ignored (cd_type c) d then _ else d) in *. clearbody d'.
    destruct (bool_decide (od_comments d' = [])), (cd_definitions c !! od_section d'); done.
  - unfold add_config_value in H. outcome_inv H. injection H as <-. by destruct Hv as [Hv|[=]].
  - by destruct Hv as [Hv|[=]].
  - by destruct Hv as [Hv|[=]].
  - cbn. apply elem_of_app. destruct Hv as [Hv|[= ->]]; [by left|]. right. by apply list_elem_of_singleton.
Qed.

Lemma run_ops_spec ops (c c' : ConfigDefinition Config) : Forall op_keeps ops -> config_keeps c ->
  run_ops tie_up ops c = Ok c' ->
  config_keeps c' /\ forall v, v ∈ cd_validators c \/ Validator v ∈ ops -> v ∈ cd_validators c'.
Proof.
  intros Hops. revert c. induction Hops as [|op ops Hop Hops IH]; intros c Hc H; cbn [run_ops] in H.
  - injection H as <-. split; [done|]. by intros v [Hv|Hv%elem_of_nil].
  - apply outcome_bind_Ok in H as (c1 & H1 & H). destruct (IH c1) as [Hk Hv]; [by eapply run_op_keeps|done|].
    split; [done|]. intros v Hin. apply Hv. rewrite elem_of_cons in Hin.
    destruct Hin as [Hin|[Hin|Hin]]; [left; eapply run_op_validators; eauto|left; eapply run_op_validators; eauto|by right].
Qed.

Lemma add_all_keeps order (c c' : ConfigDefinition Config) : config_keeps c -> add_all_values tie_up order c = Ok c' ->
  config_keeps c' /\ cd_validators c' = cd_validators c.
Proof.
  assert (Hone : forall s n v c1 c2, config_keeps c1 -> add_config_value tie_up s n v c1 = Ok c2 ->
    config_keeps c2 /\ cd_validators c2 = cd_validators c1).
  { intros s n v c1 c2 Hc1 H. split; [by apply (run_op_keeps (AddValue s n v) c1)|].
    unfold add_config_value in H. outcome_inv H. by injection H as <-. }
  assert (Hvs : forall s n vs c1 c2, config_keeps c1 -> add_values tie_up s n vs c1 = Ok c2 ->
    config_keeps c2 /\ cd_validators c2 = cd_validators c1).
  { intros s n vs. induction vs as [|v vs IH]; intros c1 c2 Hc1 H; cbn in H; [by injection H as <-|].
    apply outcome_bind_Ok in H as (c3 & H3 & H). apply Hone in H3 as [Hk <-]; [|done]. by apply IH. }
  revert c. induction order as [|[[s n] vs] order IH]; intros c Hc H; cbn in H; [by injection H as <-|].
  apply outcome_bind_Ok in H as (c3 & H3 & H). apply Hvs in H3 as [Hk <-]; [|done]. by apply IH.
Qed.

Lemma accept_each_keeps a vs conf conf' : acceptor_keeps a -> I conf -> accept_each a vs conf = Ok conf' -> I conf'.
Proof.
  intros Ha. revert conf. induction vs as [|v vs IH]; intros conf Hi H; cbn in H; [by injection H as <-|].
  apply outcome_bind_Ok in H as (c & Hc & H). apply (IH c); [by eapply Ha|done].
Qed.

Lemma try_accept_keeps d conf conf' : (forall a, od_acceptor d = Some a -> acceptor_keeps a) -> I conf ->
  try_accept d conf = Ok conf' -> I conf'.
Proof.
  intros Ha Hi H. unfold try_accept in H. apply throw_if_Ok in H as [_ H].
  destruct (od_acceptor d) as [a|]; [|by injection H as <-]. specialize (Ha a eq_refl).
  destruct (od_multi_valued d).
  - apply outcome_bind_Ok in H as (c & Hc & H). eapply accept_each_keeps; [done| |done].
    destruct (_ && _); [by eapply accept_each_keeps|by injection Hc as <-].
  - destruct (get_value d); [by eapply Ha|by injection H as <-].
Qed.

Lemma accept_all_keeps c conf conf' : config_keeps c -> I conf -> accept_all_options c conf = Ok conf' -> I conf'.
Proof.
  intros Hc. unfold accept_all_options, visit_sections. revert conf.
  induction (cd_section_ordering c) as [|s l IH]; intros conf Hi H; cbn [visit_section_list] in H; [by injection H as <-|].
  apply outcome_bind_Ok in H as (defs & Hs%or_throw_Ok & H). apply outcome_bind_Ok in H as (c1 & H1 & H).
  apply (IH c1); [|done]. clear IH H. unfold visit_definitions in H1. rewrite Hs in H1. cbn in H1.
  apply outcome_bind_Ok in H1 as (order & _ & H1). revert conf Hi H1.
  induction order as [|n order IH]; intros conf Hi H1; cbn [visit_names] in H1; [by injection H1 as <-|].
  apply outcome_bind_Ok in H1 as (d & Hd%or_throw_Ok & H1). apply outcome_bind_Ok in H1 as (c2 & H2 & H1).
  apply (IH c2); [|done]. eapply try_accept_keeps; [|done..]. intros a. apply (Hc s n d). by exists defs.
Qed.

Lemma run_validators_all vs (conf : Config) : run_validators vs conf = Ok tt -> forall v, v ∈ vs -> v conf = Ok tt.
Proof.
  induction vs as [|w vs IH]; intros H v Hv; [by apply elem_of_nil in Hv|]. cbn in H.
  destruct (w conf) as [[]|] eqn:E; [|done]. apply elem_of_cons in Hv as [->|Hv]; [done|by apply IH].
Qed.

(** What the acceptors keep and the validators check holds of a configuration that loads. *)
Lemma Config_load_spec type options order ini desc conf conf' : Forall op_keeps options -> I conf ->
  Config_load tie_up type options order ini desc conf = Ok conf' ->
  I conf' /\ forall v, Validator v ∈ options -> v conf' = Ok tt.
Proof.
  intros Hops Hi H. unfold Config_load in H. destruct (run_ops tie_up options _) as [c|] eqn:E; [|done]. cbn in H.
  apply run_ops_spec in E as [Hk Hv]; [|done|by intros ? ? ? ? (? & ? & _)].
  destruct (load_from_str ini _) as [p [e|]]; [done|].
  destruct (add_all_values tie_up _ c) as [c'|] eqn:Ea; [|done]. cbn in H.
  apply add_all_keeps in Ea as [Hk' Hv']; [|done].
  destruct (process c' conf) as [cf|] eqn:Ep; [|done]. injection H as <-. unfold process in Ep.
  apply outcome_bind_Ok in Ep as (u & _ & Ep). apply outcome_bind_Ok in Ep as (cf' & Hacc & Ep).
  apply outcome_bind_Ok in Ep as ([] & Hval & [= ->]). split; [by eapply accept_all_keeps|].
  intros v Hin. eapply run_validators_all; [done|]. rewrite Hv'. apply Hv. by right.
Qed.
End Valid.

Section PathsValid.
Context {Config : Type}.
Variable tie_up : Z -> Z -> bool.
Variables (is_hex is_base32z : bytes -> bool) (from_hex from_base32z : bytes -> bytes).
Variable fmt_chrono : OptType -> Z -> bytes.
Variable paths : Config -> PathConfig.
Variable set_paths : PathConfig -> Config -> Config.
Hypothesis paths_set : forall p conf, paths (set_paths p conf) = p.

(** The options of the other sections leave [paths] alone. *)
Definition op_elsewhere (op : ConfigOp (Conf := Config)) : Prop :=
  match op with
  | Define _ _ _ opts => forall a v conf conf', Accept a ∈ opts -> call_acceptor a v conf = Ok conf' -> paths conf' = paths conf
  | _ => True
  end.

Abbreviation Bounds := (fun conf => path_bounds (paths conf)).
Abbreviation options := (path_options is_hex from_hex is_base32z from_base32z fmt_chrono paths set_paths).

Lemma op_elsewhere_keeps op : op_elsewhere op -> op_keeps Bounds op.
Proof.
  destruct op; cbn; [|done..]. intros H. apply Forall_forall. intros [] Ha; try done.
  intros v conf conf' Hi Hc. by rewrite (H a v conf conf').
Qed.

(** An acceptor of an integer that checks its argument before it assigns it *)
Lemma int_acceptor_keeps f : (forall z conf conf', Bounds conf -> f z conf = Ok conf' -> Bounds conf') ->
  acceptor_keeps Bounds (AcceptInt f) /\ acceptor_keeps Bounds (AcceptDuration f).
Proof. intros Hf. split; intros [] conf conf' Hi H; cbn in H; try done; destruct (f _ conf) eqn:E; simplify_eq; by eapply Hf. Qed.

Lemma string_acceptor_keeps f : (forall s conf conf', Bounds conf -> f s conf = Ok conf' -> Bounds conf') ->
  acceptor_keeps Bounds (AcceptString f).
Proof. intros Hf [] conf conf' Hi H; cbn in H; try done; destruct (f _ conf) eqn:E; simplify_eq; by eapply Hf. Qed.

Lemma bounded_keeps show f min max name z conf conf' :
  (forall p, path_bounds p -> min <= z <= max -> path_bounds (f z p)) -> Bounds conf ->
  bounded_assignment_acceptor show (upd paths set_paths f) min max name z conf = Ok conf' -> Bounds conf'.
Proof.
  intros Hf Hi H. unfold bounded_assignment_acceptor in H. outcome_inv H. injection H as <-.
  unfold upd. rewrite paths_set. apply Hf; [done|]. lia.
Qed.

Lemma lower_bounded_keeps show f min name z conf conf' :
  (forall p, path_bounds p -> min <= z -> path_bounds (f z p)) -> Bounds conf ->
  lower_bounded_assignment_acceptor show (upd paths set_paths f) min name z conf = Ok conf' -> Bounds conf'.
Proof.
  intros Hf Hi H. unfold lower_bounded_assignment_acceptor in H. outcome_inv H. injection H as <-.
  unfold upd. rewrite paths_set. apply Hf; [done|]. lia.
Qed.

Lemma range_size_keeps z conf conf' : Bounds conf -> accept_range_size paths set_paths z conf = Ok conf' -> Bounds conf'.
Proof.
  intros Hi H. unfold accept_range_size in H. outcome_inv H. injection H as <-. unfold upd. rewrite paths_set.
  assert (z = 0 \/ 4 <= z <= 32) as Hz.
  { destruct (Z.ltb_spec 32 z), (Z.ltb_spec z 4), (Z.eqb_spec z 0); cbn in Hg; try done; lia. }
  destruct Hi. split; try done. change (z mod 2 ^ 8 = 0 \/ 4 <= z mod 2 ^ 8 <= 32).
  rewrite Z.mod_small by lia. lia.
Qed.

Lemma strict_edge_keeps s conf conf' : Bounds conf ->
  accept_strict_edge is_hex from_hex is_base32z from_base32z paths set_paths s conf = Ok conf' -> Bounds conf'.
Proof.
  intros Hi H. unfold accept_strict_edge in H. apply outcome_bind_Ok in H as (r & _ & H). outcome_inv H.
  injection H as <-. rewrite paths_set. destruct Hi. by split.
Qed.

Lemma blacklist_keeps s conf conf' : Bounds conf ->
  accept_blacklist is_base32z from_base32z paths set_paths s conf = Ok conf' -> Bounds conf'.
Proof.
  intros Hi H. unfold accept_blacklist in H. apply outcome_bind_Ok in H as (r & _ & H). outcome_inv H.
  injection H as <-. rewrite paths_set. destruct Hi. by split.
Qed.

Ltac keeps_bounds :=
  first [ exact I
        | apply string_acceptor_keeps; intros s conf conf' ?; first [by apply strict_edge_keeps|by apply blacklist_keeps]
        | apply int_acceptor_keeps; intros z conf conf' ?;
          first [ by apply range_size_keeps
                | apply bounded_keeps; [|assumption]; intros p [] ?; split; try assumption; by intros ? [= <-]
                | apply lower_bounded_keeps; [|assumption]; intros p [] ?; split; assumption ] ].

Lemma path_options_keep : Forall (op_keeps Bounds) options.
Proof.
  unfold path_options. repeat apply Forall_app_2;
    unfold hop_options, time_options, edge_options, bounded_int, at_least_int, bounded_duration;
    repeat apply Forall_cons_2; cbn [op_keeps]; repeat apply Forall_cons_2; try apply Forall_nil_2; try exact I; keeps_bounds.
Qed.

(** C30. A configuration that loads has valid path settings: whatever the file says, every
    setting is within the bounds that the rest of the program relies on, the minimum expiry is
    at most the acceptable one, and strict edges are never combined with single hop outbound
    paths, to clients or to relays. (Single hop inbound paths are not excluded.) *)
Theorem path_config_valid type before after order ini desc conf conf' :
  Forall op_elsewhere before -> Forall op_elsewhere after -> paths conf = PathConfig_default ->
  Config_load tie_up type (before ++ options ++ after) order ini desc conf = Ok conf' ->
  let p := paths conf' in
  path_bounds p /\ pc_min_expiry p <= pc_acceptable_expiry p /\
  1 <= relay_hops p <= BUILD_LENGTH /\ 1 <= inbound_hops p <= BUILD_LENGTH /\
  (strict_edges p <> ∅ -> client_hops p <> 1 /\ relay_hops p <> 1).
Proof.
  intros Hb Ha Hconf H p. apply (Config_load_spec tie_up Bounds) in H as [Hi Hv].
  2:{ apply Forall_app. split; [|apply Forall_app; split].
      - eapply Forall_impl; [done|]. apply op_elsewhere_keeps.
      - apply path_options_keep.
      - eapply Forall_impl; [done|]. apply op_elsewhere_keeps. }
  2:{ rewrite Hconf. by split; cbn; try lia. }
  assert (H1 : validate_expiries paths conf' = Ok tt) by (apply Hv, elem_of_app; right; apply elem_of_app; left; by apply (list_elem_of_lookup_2 _ 13)).
  assert (H2 : validate_strict_edges paths conf' = Ok tt) by (apply Hv, elem_of_app; right; apply elem_of_app; left; by apply (list_elem_of_lookup_2 _ 17)).
  fold p in Hi. unfold validate_expiries in H1. unfold validate_strict_edges in H2. fold p in H1, H2.
  outcome_inv H1. split; [done|]. split; [lia|]. destruct Hi. unfold relay_hops, inbound_hops, BUILD_LENGTH in *.
  split; [|split].
  - destruct (relay_hops_ p) as [h|]; cbn; [by apply pb_relay_hops0|lia].
  - destruct (inbound_hops_ p) as [h|]; cbn; [by apply pb_inbound_hops0|lia].
  - intros Hne. rewrite bool_decide_false in H2 by done. outcome_inv H2. split; [lia|].
    destruct (relay_hops_ p) as [h|]; cbn; lia.
Qed.
End PathsValid.

(** A client's file with some of the settings *)
Definition flat_order (cfg : gmap bytes (gmap bytes (list bytes))) : list (bytes * bytes * list bytes) :=
  concat ((fun sm : bytes * gmap bytes (list bytes) => (fun nv => (sm.1, nv.1, nv.2)) <$> map_to_list sm.2) <$> map_to_list cfg).

Definition example_ini : bytes :=
  str "; a client" ++ [10] ++ str "[paths]" ++ [10] ++ str "client-hops = 4" ++ [13; 10] ++ str "min-expiry=2min" ++ [10]
  ++ str "strict-edge=" ++ replicate 64 97 ++ [10].

Definition example_load : outcome LoadError PathConfig :=
  Config_load (fun _ _ => true) FullClient
    ([] ++ path_options (fun _ => true) (fun s => take 32 s) (fun _ => true) (fun s => s) (fun _ _ => []) (fun c => c) (fun p _ => p) ++ [])
    flat_order example_ini [] PathConfig_default.
Definition example_config : PathConfig := match example_load with Ok c => c | Throw _ => PathConfig_default end.

Lemma path_config_valid_witness :
  client_hops example_config = 4 /\ size (strict_edges example_config) = 1%nat /\
  path_bounds example_config /\ pc_min_expiry example_config <= pc_acceptable_expiry example_config /\
  1 <= relay_hops example_config <= BUILD_LENGTH /\ 1 <= inbound_hops example_config <= BUILD_LENGTH /\
  (strict_edges example_config <> ∅ -> client_hops example_config <> 1 /\ relay_hops example_config <> 1).
Proof.
  assert (example_load = Ok example_config) as H by (vm_compute; reflexivity).
  split; [vm_compute; reflexivity|]. split; [vm_compute; reflexivity|].
  exact (path_config_valid (fun _ _ => true) (fun _ => true) (fun _ => true) (fun s => take 32 s) (fun s => s) (fun _ _ => [])
           (fun c => c) (fun p _ => p) (fun p conf => eq_refl) FullClient [] [] flat_order example_ini [] PathConfig_default
           example_config (Forall_nil_2 _) (Forall_nil_2 _) eq_refl H).
Defined.

(** A strict edge and single hop inbound paths: this file loads. *)
Definition inbound_ini : bytes :=
  str "[paths]" ++ [10] ++ str "inbound-hops=1" ++ [10] ++ str "strict-edge=" ++ replicate 64 97 ++ [10].

Lemma strict_edge_single_hop_inbound :
  exists p, Config_load (fun _ _ => true) FullClient
    ([] ++ path_options (fun _ => true) (fun s => take 32 s) (fun _ => true) (fun s => s) (fun _ _ => []) (fun c => c) (fun p _ => p) ++ [])
    flat_order inbound_ini [] PathConfig_default = Ok p
  /\ inbound_hops p = 1 /\ size (strict_edges p) = 1%nat.
Proof. eexists. split; [vm_compute; reflexivity|]. split; vm_compute; reflexivity. Qed.
