(* ===== verification/RcFetch.v ===== *)
(** * Synchronising relay contacts between nodes

    The RC fetch of a client ([NodeDB::fetch_rcs], [lookup_rc]) against a relay's
    [Manager::handle_fetch_rcs], the bootstrap fetch
    ([Manager::handle_fetch_bootstrap_rcs], [NodeDB::handle_bootstrap_result],
    [on_bootstrap_done]) and RC gossip between relays ([gossip_rc],
    [handle_gossip_rc]); nodedb.cpp and link/link_manager.cpp. *)

From Stdlib Require Import ZArith Lia.
From stdpp Require Import base list numbers strings gmap.
From S2P Require Import Prelude Oxenc Messages Crypto RelayContact RcStore NodeDB.

Local Open Scope Z_scope.
Local Open Scope router_scope.

(** zstd (util/zstd.cpp over libzstd): a whole frame; [None] is an error. *)
Class Zstd := {
  zstd_compress : bytes -> option bytes;
  zstd_decompress : bytes -> option bytes;
}.

Class ZstdLaws `{Zstd} : Prop := {
  zstd_decompress_compress d c : zstd_compress d = Some c -> zstd_decompress c = Some d;
}.

(** [compress(buffers, level, prefix)] and [decompress(compressed, max_size)]. *)
Definition compress_piecewise `{Zstd} (buffers : list bytes) (prefix : bytes) : outcome string bytes :=
  let! c := or_throw "Compression failed"%string (zstd_compress (concat buffers)) in
  Ok (prefix ++ c).

Definition decompress `{Zstd} (compressed : bytes) (max_size : Z) : option bytes :=
  match zstd_decompress compressed with
  | Some d => if (0 <? max_size) && (max_size <? Z.of_nat (length d)) then None else Some d
  | None => None
  end.

(** The members of NodeDB a fetch uses. *)
Record FetchDB := mkFetchDB {
  store : RCStore;
  known_rids : gset bytes;
  last_rc_fetch : Z;
  (** queued lookups: the router ID and the callback *)
  pending_rc_lookups : list (bytes * nat);
}.

Definition with_store (db : FetchDB) (st : RCStore) : FetchDB :=
  mkFetchDB st (known_rids db) (last_rc_fetch db) (pending_rc_lookups db).

(** A call of a lookup callback with the RC found, if any. *)
Definition LookupCall : Type := nat * option RelayContact.

Section Fetch.
Context `{Sodium} `{Oxenc} `{Zstd}.
Context (is_public : Address -> bool) (BLOCK_BOGONS : bool).
(** The iteration orders of the hash buckets and of the RC table. *)
Context (bucket_order : gmap bytes bytes -> list (bytes * bytes)).
Context (rcs_order : gmap bytes RelayContact -> list (bytes * RelayContact)).

(** [fetch_rcs]: the request body. *)
Definition fetch_rcs_request (st : RCStore) : bytes :=
  bt_dict_produce [(str "b", BList (BStr <$> rc_bucket_hashes st))].

(** [consume_span<std::byte, 8>] on the list of hashes. *)
Definition consume_hash (args : list btval) : option (bytes * list btval) :=
  match args with
  | BStr h :: args => if decide (length h = RCHASH_SIZE) then Some (h, args) else None
  | _ => None
  end.

(** The loop of [handle_fetch_rcs] over the buckets from [i] on: the RCs sent. *)
Fixpoint fetch_buckets (st : RCStore) (n i : nat) (args : list btval) (acc : list bytes)
    : outcome string (list bytes * list btval) :=
  match n with
  | O => Ok (acc, args)
  | S n =>
      let! (h, args) := or_throw "bad hash"%string (consume_hash args) in
      let acc := if bool_decide (rc_bucket_hashes st !!! i <> h)
                 then acc ++ (rc_payload <$> omap (get_rc st) (bucket_order (rc_hashes st !!! i)).*1)
                 else acc in
      fetch_buckets st n (S i) args acc
  end.

Definition handle_fetch_rcs_try (st : RCStore) (body : bytes) : outcome string bytes :=
  let! btdc := or_throw "not a dict"%string (bt_dict_open body) in
  let! (v, _) := or_throw "b"%string (bt_require (str "b") btdc) in
  match v with
  | BList args =>
      let! (rcs, rest) := fetch_buckets st NUM_BUCKETS 0 args [] in
      throw_if negb (bool_decide (rest = [])) with "trailing hashes"%string in
      Ok (bt_dict_produce [(str "r", BList (BStr <$> rcs))])
  | _ => Throw "not a list"%string
  end.

(** [Manager::handle_fetch_rcs]: the response. *)
Definition handle_fetch_rcs (st : RCStore) (body : bytes) : bytes :=
  match handle_fetch_rcs_try st body with
  | Ok resp => resp
  | Throw _ => ERROR_RESPONSE
  end.

(** One round of the loop over the RCs of the response. *)
Definition fetched_rc (env : RouterEnv) (netid now : Z) (db : FetchDB) (v : btval)
    : FetchDB * outcome string unit :=
  match v with
  | BStr data =>
      match rc_parse is_public BLOCK_BOGONS data netid false now with
      | Throw e => (db, Throw e)
      | Ok rc =>
          if bool_decide (rc_router_id rc ∉ known_rids db) then (db, Ok tt)
          else
            (* the comparison with the recorded hash, for the statistics *)
            match rc_hashes (store db) !!! bucket_of (rc_router_id rc) !! rc_router_id rc,
                  bucket_hash (rc_payload rc) with
            | Some _, Throw e => (db, Throw e)
            | _, _ => let '(st, r) := put_rc env (store db) rc in
                      (with_store db st, match r with Ok _ => Ok tt | Throw e => Throw e end)
            end
      end
  | _ => (db, Throw "not a string"%string)
  end.

Fixpoint fetched_rcs (env : RouterEnv) (netid now : Z) (db : FetchDB) (l : list btval)
    : FetchDB * outcome string unit :=
  match l with
  | [] => (db, Ok tt)
  | v :: l =>
      match fetched_rc env netid now db v with
      | (db, Ok _) => fetched_rcs env netid now db l
      | (db, Throw e) => (db, Throw e)
      end
  end.

(** The status of a response that has one; the exception's message is the status. *)
Definition check_status (status : option bytes) : outcome bytes unit :=
  match status with
  | Some sv => if bool_decide (sv = str "OK") then Ok tt else Throw sv
  | None => Ok tt
  end.

(** The try block of the response handler of [fetch_rcs] up to the lookups; an
    exception is its message. *)
Definition fetch_response_try (env : RouterEnv) (netid now : Z) (db : FetchDB) (body : bytes)
    : FetchDB * outcome bytes unit :=
  match (let! btdc := or_throw (str "not a dict") (bt_dict_open body) in
         let! (status, btdc) := or_throw (str "!") (bt_maybe_string (str "!") btdc) in
         let! _ := check_status status in
         let! (v, _) := or_throw (str "r") (bt_require (str "r") btdc) in
         match v with BList l => Ok l | _ => Throw (str "not a list") end) with
  | Throw e => (db, Throw e)
  | Ok l => match fetched_rcs env netid now db l with
            | (db, Ok _) => (db, Ok tt)
            | (db, Throw e) => (db, Throw (str "bad RC"))
            end
  end.

(** Fails the queued lookups. *)
Definition fail_lookups (db : FetchDB) : FetchDB * list LookupCall :=
  (mkFetchDB (store db) (known_rids db) (last_rc_fetch db) [],
   (fun '(_, cb) => (cb, None)) <$> pending_rc_lookups db).

(** The response handler of [fetch_rcs]; [None]: failed or timed out.  The
    result also gives the calls of the queued callbacks and of [on_done]. *)
Definition fetch_rcs_response (env : RouterEnv) (netid now : Z) (db : FetchDB) (resp : option bytes)
    : FetchDB * list LookupCall * bool :=
  match resp with
  | Some body =>
      match fetch_response_try env netid now db body with
      | (db, Ok _) =>
          (mkFetchDB (store db) (known_rids db) now [],
           (fun '(rid, cb) => (cb, get_rc (store db) rid)) <$> pending_rc_lookups db, true)
      | (db, Throw error) =>
          if bool_decide (error = []) then (db, [], true)
          else (fail_lookups db, false)
      end
  | None => (fail_lookups db, false)
  end.

(** [lookup_rc]: the immediate calls of the callback. *)
Definition lookup_rc (db : FetchDB) (rid : bytes) (func : nat) : FetchDB * list LookupCall :=
  match get_rc (store db) rid with
  | Some rc => (db, [(func, Some rc)])
  | None =>
      if last_rc_fetch db =? 0
      then (mkFetchDB (store db) (known_rids db) (last_rc_fetch db)
              (pending_rc_lookups db ++ [(rid, func)]), [])
      else (db, [(func, None)])
  end.

(** ** Gossip *)

(** [gossip_rc]: the connections the RC is sent on; [conns] are the relay
    connections, with their reference IDs, and [sender] the one it came from. *)
Definition gossip_rc (conns : list (bytes * nat)) (rc : RelayContact) (sender : option nat)
    : list (bytes * nat) :=
  filter (fun '(rid, conn) => rid <> rc_router_id rc /\ sender <> Some conn) conns.

(** [handle_gossip_rc]: the store after it and the connections sent on. *)
Definition handle_gossip_rc (env : RouterEnv) (netid now : Z) (registered : gset bytes) (st : RCStore)
    (conns : list (bytes * nat)) (body : bytes) (conn : nat) : RCStore * outcome string (list (bytes * nat)) :=
  match rc_parse is_public BLOCK_BOGONS body netid false now with
  | Throw _ => (st, Ok [])
  | Ok rc =>
      match verify_store_gossip_rc env registered st rc with
      | (st, Ok (_, gossip)) => (st, Ok (if gossip then gossip_rc conns rc (Some conn) else []))
      | (st, Throw e) => (st, Throw e)
      end
  end.

(** ** Bootstrap *)

Definition compress_prefix : bytes := str "d1:z999999999:".

(** [handle_fetch_bootstrap_rcs]: the body and whether it is an error. *)
Definition handle_fetch_bootstrap_rcs (st : RCStore) (now : Z) : bytes * bool :=
  let rcs := rc_payload <$> filter (fun rc => rc_is_expired rc now = false) (rcs_order (known_rcs st)).*2 in
  let rcs := [str "l"] ++ rcs ++ [str "e"] in
  if bool_decide (length rcs = 2%nat) then (str "No RCs", true)
  else
    match compress_piecewise rcs compress_prefix with
    | Throw _ => (str "Compress failed", true)
    | Ok response_raw =>
        let comp_size := (length response_raw - length compress_prefix)%nat in
        let actual := str "d1:Z" ++ str_header comp_size in
        let skip := (length compress_prefix - length actual)%nat in
        let response_raw := write_at skip actual response_raw ++ str "e" in
        (drop skip response_raw, false)
    end.

(** The loop of [handle_bootstrap_result] over the dicts of the list. *)
Fixpoint bootstrap_rcs (env : RouterEnv) (netid now : Z) (db : FetchDB) (l : list bytes)
    : FetchDB * outcome string unit :=
  match l with
  | [] => (db, Ok tt)
  | data :: l =>
      match rc_parse is_public BLOCK_BOGONS data netid false now with
      | Throw e => (db, Throw e)
      | Ok rc =>
          let db := mkFetchDB (store db) ({[rc_router_id rc]} ∪ known_rids db) (last_rc_fetch db)
                      (pending_rc_lookups db) in
          match put_rc env (store db) rc with
          | (st, Ok _) => bootstrap_rcs env netid now (with_store db st) l
          | (st, Throw e) => (with_store db st, Throw e)
          end
      end
  end.

Definition handle_bootstrap_result (env : RouterEnv) (netid now : Z) (db : FetchDB) (body : bytes)
    : FetchDB * bool :=
  match (let! btdc := or_throw "not a dict"%string (bt_dict_open body) in
         let! (compressed_rcs, btdc) := or_throw "Z"%string (bt_require_string (str "Z") btdc) in
         throw_if negb (bt_finish btdc) with "trailing data"%string in
         or_throw "Failed to decompress RC list"%string (decompress compressed_rcs 20000000)) with
  | Throw _ => (db, false)
  | Ok rcs_data =>
      let '(dicts, finished) := bt_list_dict_data rcs_data in
      match bootstrap_rcs env netid now db dicts with
      | (db, Ok _) => (db, finished)
      | (db, Throw _) => (db, false)
      end
  end.
End Fetch.

(** ** A fetch brings the client up to date *)
Section FetchProofs.
Context `{SodiumLaws} `{OxencLaws}.
Context (is_public : Address -> bool) (BLOCK_BOGONS : bool).
Context (bucket_order : gmap bytes bytes -> list (bytes * bytes)).
Context (Hbucket_order : forall m, bucket_order m ≡ₚ map_to_list m).

(** An RC that its own encoding parses back to, and that can be hashed. *)
Definition rc_valid (netid now : Z) (rc : RelayContact) : Prop :=
  rc_parse is_public BLOCK_BOGONS (rc_payload rc) netid false now = Ok rc
  /\ is_Some (rc_hash_of rc).

Lemma put_rc_mono env st rc :
  store_wf st -> is_Some (rc_hash_of rc) ->
  exists st' r, put_rc env st rc = (st', Ok r) /\ store_wf st'
    /\ (exists new, known_rcs st' !! rc_router_id rc = Some new /\ rc_timestamp rc - rc_timestamp new < 60)
    /\ (forall rid old, known_rcs st !! rid = Some old ->
         exists new, known_rcs st' !! rid = Some new /\ rc_timestamp old <= rc_timestamp new)
    /\ (forall rid, rid <> rc_router_id rc -> known_rcs st' !! rid = known_rcs st !! rid).
Proof.
  intros Hwf Hh. destruct (put_rc_ok env st rc Hwf Hh) as (st' & E & Hwf' & Hk & _).
  assert (forall rid old, known_rcs st !! rid = Some old -> stores st rc = true -> rid = rc_router_id rc ->
    60 <= rc_timestamp rc - rc_timestamp old) as Hnew.
  { unfold stores. intros rid old Ho Hs ->. rewrite Ho in Hs. unfold newer_than, MIN_GOSSIP_RC_AGE in Hs. lia. }
  assert (stores st rc = false -> exists old, known_rcs st !! rc_router_id rc = Some old
    /\ rc_timestamp rc - rc_timestamp old < 60) as Hold.
  { unfold stores, newer_than, MIN_GOSSIP_RC_AGE.
    destruct (known_rcs st !! rc_router_id rc) as [old|]; [|done]. intros. exists old. split; [done|lia]. }
  eexists st', _. split_and!; [done|done|..]; rewrite Hk; destruct (stores st rc).
  - exists rc. rewrite lookup_insert_eq. split; [done|lia].
  - by apply Hold.
  - intros rid old Ho. destruct (decide (rid = rc_router_id rc)) as [->|].
    + exists rc. rewrite lookup_insert_eq. specialize (Hnew _ _ Ho eq_refl eq_refl). split; [done|lia].
    + exists old. rewrite lookup_insert_ne by congruence. split; [done|lia].
  - intros rid old Ho. exists old. split; [done|lia].
  - intros rid Hne. by rewrite lookup_insert_ne by congruence.
  - done.
Qed.

Lemma fetched_rc_spec env netid now db rc :
  store_wf (store db) -> rc_valid netid now rc ->
  exists st', fetched_rc is_public BLOCK_BOGONS env netid now db (BStr (rc_payload rc)) = (with_store db st', Ok tt)
    /\ store_wf st'
    /\ (rc_router_id rc ∈ known_rids db ->
         exists new, known_rcs st' !! rc_router_id rc = Some new /\ rc_timestamp rc - rc_timestamp new < 60)
    /\ (forall rid old, known_rcs (store db) !! rid = Some old ->
         exists new, known_rcs st' !! rid = Some new /\ rc_timestamp old <= rc_timestamp new)
    /\ (forall rid, rid <> rc_router_id rc -> known_rcs st' !! rid = known_rcs (store db) !! rid).
Proof.
  intros Hwf [Hp Hh]. unfold fetched_rc. rewrite Hp. case_bool_decide.
  { exists (store db). split_and!; [by destruct db|done|done| |done]. intros rid old Ho. eauto with lia. }
  destruct (put_rc_mono env (store db) rc Hwf Hh) as (st' & r & E & Hwf' & H1' & H2' & H3').
  exists st'. destruct Hh as [h Hh]. rewrite (proj1 (rc_hash_of_Ok _ _) Hh), E.
  split_and!; try done. by case_match.
Qed.

Lemma fetched_rcs_spec env netid now db rcs :
  store_wf (store db) -> Forall (rc_valid netid now) rcs ->
  exists st', fetched_rcs is_public BLOCK_BOGONS env netid now db ((BStr ∘ rc_payload) <$> rcs) = (with_store db st', Ok tt)
    /\ store_wf st'
    /\ (forall rc, rc ∈ rcs -> rc_router_id rc ∈ known_rids db ->
         exists new, known_rcs st' !! rc_router_id rc = Some new /\ rc_timestamp rc - rc_timestamp new < 60)
    /\ (forall rid old, known_rcs (store db) !! rid = Some old ->
         exists new, known_rcs st' !! rid = Some new /\ rc_timestamp old <= rc_timestamp new)
    /\ (forall rid, rid ∉ rc_router_id <$> rcs -> known_rcs st' !! rid = known_rcs (store db) !! rid).
Proof.
  intros Hwf Hv. revert db Hwf. induction Hv as [|rc rcs Hrc _ IH]; intros db Hwf; cbn [fmap list_fmap fetched_rcs].
  { exists (store db). split_and!; [by destruct db|done| | |done].
    - intros rc Hrc. by apply elem_of_nil in Hrc.
    - intros rid old Ho. exists old. split; [done|lia]. }
  destruct (fetched_rc_spec env netid now db rc Hwf Hrc) as (st1 & E1 & Hwf1 & Hin1 & Hm1 & Ho1).
  unfold compose at 1. rewrite E1.
  destruct (IH (with_store db st1) Hwf1) as (st2 & E2 & Hwf2 & Hin2 & Hm2 & Ho2).
  cbn [store with_store known_rids] in *. exists st2. split_and!; try done.
  - intros rc' [->|Hr]%elem_of_cons Hk; [|by apply Hin2].
    destruct (Hin1 Hk) as (n1 & Hn1 & ?). destruct (Hm2 _ _ Hn1) as (n2 & Hn2 & ?).
    exists n2. split; [done|lia].
  - intros rid old Ho. destruct (Hm1 _ _ Ho) as (n1 & Hn1 & ?). destruct (Hm2 _ _ Hn1) as (n2 & Hn2 & ?).
    exists n2. split; [done|lia].
  - intros rid Hn. rewrite elem_of_cons in Hn. rewrite Ho2, Ho1; naive_solver.
Qed.

(** The RCs a relay sends for the digests [hs]. *)
Lemma fetch_buckets_spec st n i hs rest acc :
  length hs = n -> Forall (fun h => length h = RCHASH_SIZE) hs ->
  exists rcs, fetch_buckets bucket_order st n i ((BStr <$> hs) ++ rest) acc
      = Ok (acc ++ (rc_payload <$> rcs), rest)
    /\ forall rc, rc ∈ rcs <-> exists j h rid, hs !! j = Some h /\ rc_bucket_hashes st !!! (i + j)%nat <> h
         /\ is_Some (rc_hashes st !!! (i + j)%nat !! rid) /\ get_rc st rid = Some rc.
Proof.
  revert i hs acc. induction n as [|n IH]; intros i hs acc Hl Hh.
  { destruct hs; [|done]. exists []. rewrite app_nil_r. split; [done|]. intros rc. split; [set_solver|].
    intros (j & h & rid & Hj & _). done. }
  destruct hs as [|h hs]; [done|]. apply Forall_cons in Hh as [Hh Hhs].
  cbn [fetch_buckets fmap list_fmap app consume_hash]. rewrite decide_True by done.
  cbn [or_throw outcome_bind].
  set (here := if bool_decide (rc_bucket_hashes st !!! i <> h)
               then omap (get_rc st) (bucket_order (rc_hashes st !!! i)).*1 else []).
  edestruct (IH (S i) hs) as (rcs & E & Hin); [simpl in Hl; lia|done|].
  exists (here ++ rcs). rewrite E. split.
  { do 2 f_equal. rewrite fmap_app, app_assoc. f_equal. subst here. case_bool_decide; [done|by rewrite app_nil_r]. }
  intros rc. rewrite elem_of_app, Hin. clear E Hin IH. split.
  - intros [Hrc|(j & h' & rid & Hj & Hd & Hb)]; [|exists (S j), h', rid; rewrite Nat.add_succ_r; done].
    subst here. case_bool_decide as Hne; [|by apply elem_of_nil in Hrc].
    apply list_elem_of_omap in Hrc as (rid & Hrid & Hg). exists 0%nat, h, rid. rewrite Nat.add_0_r.
    split_and!; [done..| |done]. apply list_elem_of_fmap in Hrid as ([rid' x] & -> & Hx).
    rewrite Hbucket_order in Hx. apply elem_of_map_to_list in Hx. by exists x.
  - intros ([|j] & h' & rid & Hj & Hd & [x Hb] & Hg).
    + left. simpl in Hj. injection Hj as <-. rewrite Nat.add_0_r in *. subst here.
      rewrite bool_decide_true by done. apply list_elem_of_omap. exists rid. split; [|done].
      apply list_elem_of_fmap. exists (rid, x). split; [done|]. rewrite Hbucket_order.
      by apply elem_of_map_to_list.
    + right. exists j, h', rid. rewrite Nat.add_succ_r in *. split_and!; eauto.
Qed.

Lemma store_digests_length st b h : store_wf st -> rc_bucket_hashes st !! b = Some h -> length h = RCHASH_SIZE.
Proof.
  intros [_ Hb] Hh. destruct (Hb b) as [_ Hd]. rewrite Hd in Hh. case_decide; [|done].
  injection Hh as <-. apply xor_all_length, bucket_spec_hashes.
Qed.

Lemma store_digests_count st : store_wf st -> length (rc_bucket_hashes st) = NUM_BUCKETS.
Proof.
  intros [_ Hb]. apply Nat.le_antisymm.
  - apply lookup_ge_None. destruct (Hb NUM_BUCKETS) as [_ ->]. by rewrite decide_False by lia.
  - destruct (Hb (NUM_BUCKETS - 1)%nat) as [_ Hd]. rewrite decide_True in Hd by (unfold NUM_BUCKETS; lia).
    apply lookup_lt_Some in Hd. unfold NUM_BUCKETS in *. lia.
Qed.

(** The relay's answer to a client's digests: the RCs of the buckets that differ. *)
Lemma handle_fetch_rcs_answer sr sc :
  store_wf sr -> store_wf sc ->
  exists rcs, handle_fetch_rcs bucket_order sr (fetch_rcs_request sc)
      = bt_dict_produce [(str "r", BList (BStr <$> (rc_payload <$> rcs)))]
    /\ forall rc, rc ∈ rcs <-> exists rid, known_rcs sr !! rid = Some rc
         /\ rc_bucket_hashes sr !!! bucket_of rid <> rc_bucket_hashes sc !!! bucket_of rid.
Proof.
  intros Hr Hc.
  destruct (fetch_buckets_spec sr NUM_BUCKETS 0 (rc_bucket_hashes sc) [] []) as (rcs & E & Hin).
  { by apply store_digests_count. }
  { apply Forall_lookup. intros b h. by apply store_digests_length. }
  exists rcs. unfold handle_fetch_rcs, handle_fetch_rcs_try, fetch_rcs_request.
  rewrite bt_open_produce. cbn [or_throw outcome_bind]. rewrite bt_require_next.
  cbn [or_throw outcome_bind]. rewrite app_nil_r in E. rewrite E. cbn [outcome_bind].
  rewrite bool_decide_true by done. split; [done|]. intros rc. rewrite Hin. destruct Hr as [Hrcs Hb]. split.
  - intros (j & h & rid & Hj & Hne & Hs & Hg). exists rid. split; [done|]. clear E. rewrite Nat.add_0_l in Hne, Hs.
    destruct (Hb j) as [Hbj _]. rewrite decide_True in Hbj
      by (apply lookup_lt_Some in Hj; by rewrite (store_digests_count sc Hc) in Hj).
    rewrite (list_lookup_total_correct _ _ _ Hbj) in Hs. rewrite bucket_spec_lookup in Hs.
    case_decide as Hbk; [|by destruct Hs]. subst j. by rewrite (list_lookup_total_correct _ _ _ Hj).
  - intros (rid & Hk & Hne). exists (bucket_of rid), (rc_bucket_hashes sc !!! bucket_of rid), rid.
    pose proof (bucket_of_lt rid) as Hlt. rewrite Nat.add_0_l. clear E. split_and!; [|done| |done].
    + apply list_lookup_lookup_total_lt. by rewrite store_digests_count.
    + destruct (Hb (bucket_of rid)) as [Hbj _]. rewrite decide_True in Hbj by done.
      rewrite (list_lookup_total_correct _ _ _ Hbj), bucket_spec_lookup, decide_True by done.
      rewrite Hk. cbn [mbind option_bind]. by destruct (Hrcs _ _ Hk).
Qed.

Lemma fetch_rcs_response_ok env netid now db rcs :
  store_wf (store db) -> Forall (rc_valid netid now) rcs ->
  exists st', fetch_rcs_response is_public BLOCK_BOGONS env netid now db
      (Some (bt_dict_produce [(str "r", BList (BStr <$> (rc_payload <$> rcs)))]))
      = (mkFetchDB st' (known_rids db) now [],
         (fun '(rid, cb) => (cb, get_rc st' rid)) <$> pending_rc_lookups db, true)
    /\ fetched_rcs is_public BLOCK_BOGONS env netid now db ((BStr ∘ rc_payload) <$> rcs) = (with_store db st', Ok tt).
Proof.
  intros Hwf Hv. destruct (fetched_rcs_spec env netid now db rcs Hwf Hv) as (st' & E & _).
  exists st'. split; [|done]. unfold fetch_rcs_response, fetch_response_try.
  rewrite bt_open_produce. cbn [or_throw outcome_bind].
  rewrite bt_maybe_string_absent by done. cbn [or_throw outcome_bind check_status].
  rewrite bt_require_next. cbn [or_throw outcome_bind].
  rewrite list_fmap_compose in E. by rewrite E.
Qed.
End FetchProofs.


(** ** Queued lookups *)

(** An RC fetch that ends, well or badly, answers every queued lookup exactly
    once, except when the relay's status is the empty string. *)
Lemma fetch_answers_lookups `{Sodium} `{Oxenc} is_public BLOCK_BOGONS env netid now db resp db' calls ok :
  fetch_rcs_response is_public BLOCK_BOGONS env netid now db resp = (db', calls, ok) ->
  calls.*1 = (pending_rc_lookups db).*2 /\ pending_rc_lookups db' = []
  \/ ok = true /\ calls = [] /\ pending_rc_lookups db' = pending_rc_lookups db.
Proof.
  assert (forall db v db1 r, fetched_rc is_public BLOCK_BOGONS env netid now db v = (db1, r) ->
    pending_rc_lookups db1 = pending_rc_lookups db) as Hone.
  { intros d v d1 r. unfold fetched_rc, with_store. intros. repeat case_match; by simplify_eq/=. }
  assert (forall l db db1 r, fetched_rcs is_public BLOCK_BOGONS env netid now db l = (db1, r) ->
    pending_rc_lookups db1 = pending_rc_lookups db) as Hall.
  { induction l as [|v l IH]; intros d d1 r; cbn [fetched_rcs]; [congruence|].
    destruct (fetched_rc _ _ _ _ _ _ _) as [d2 [?|?]] eqn:E; apply Hone in E; [|congruence].
    intros E2%IH. congruence. }
  assert (forall body db1 r, fetch_response_try is_public BLOCK_BOGONS env netid now db body = (db1, r) ->
    pending_rc_lookups db1 = pending_rc_lookups db) as Htry.
  { intros body d1 r. unfold fetch_response_try. case_match; [|congruence].
    destruct (fetched_rcs _ _ _ _ _ _ _) as [d2 [?|?]] eqn:E; apply Hall in E; congruence. }
  assert (forall (l : list (bytes * nat)) (f : bytes -> option RelayContact),
    ((fun '(rid, cb) => (cb, f rid)) <$> l).*1 = l.*2) as Hcb.
  { intros l f. rewrite <-list_fmap_compose. apply list_fmap_ext. by intros ? [??] _. }
  unfold fetch_rcs_response, fail_lookups. destruct resp as [body|].
  - destruct (fetch_response_try _ _ _ _ _ _ _) as [d1 [?|e]] eqn:E; apply Htry in E.
    + intros [= <- <- <-]. left. by rewrite Hcb, E.
    + case_bool_decide; intros [= <- <- <-]; [right; done|left].
      by rewrite (Hcb _ (fun _ => None)), E.
  - intros [= <- <- <-]. left. by rewrite (Hcb _ (fun _ => None)).
Qed.

(** An empty status string makes the client take the failed fetch for a
    successful one: [on_done(true)], and the queued lookups stay unanswered. *)
Lemma empty_status_taken_for_success `{Sodium} `{OxencLaws} is_public BLOCK_BOGONS env netid now db :
  fetch_rcs_response is_public BLOCK_BOGONS env netid now db (Some (serialize_status_response []))
  = (db, [], true).
Proof.
  unfold fetch_rcs_response, fetch_response_try, serialize_status_response.
  rewrite bt_open_produce. cbn [or_throw outcome_bind]. rewrite bt_maybe_string_next.
  cbn [or_throw outcome_bind check_status]. rewrite bool_decide_false by done. cbn [outcome_bind].
  by rewrite bool_decide_true.
Qed.

(** ** Gossip *)
Section GossipProofs.
Context `{SodiumLaws} `{Oxenc}.
Context (is_public : Address -> bool) (BLOCK_BOGONS : bool) (env : RouterEnv).

(** The store holds an RC of the relay that makes [rc] too recent to store. *)
Definition held (st : RCStore) (rc : RelayContact) : Prop :=
  exists old, known_rcs st !! rc_router_id rc = Some old /\ rc_timestamp rc - rc_timestamp old < 60.

(** The ways a purge of [st] can remove the RC that makes [rc] too recent: its
    address is not public, it has expired, or, on a relay that has a list of the
    registered relays, its relay is not on it. *)
Definition purged (st st' : RCStore) (rc : RelayContact) : Prop :=
  exists order registered now old,
    order ≡ₚ map_to_list (known_rcs st)
    /\ st' = remove_rcs_if (purge_pred is_public env registered now) order st
    /\ known_rcs st !! rc_router_id rc = Some old /\ known_rcs st' !! rc_router_id rc = None
    /\ (is_public (rc_addr old) = false \/ rc_is_expired old now = true
        \/ is_service_node env = true /\ registered <> ∅ /\ rc_router_id rc ∉ registered).

Lemma put_rc_keeps_held st rc rc' st' r :
  store_wf st -> is_Some (rc_hash_of rc') -> put_rc env st rc' = (st', r) -> held st rc -> held st' rc.
Proof.
  intros Hwf Hh E (old & Ho & Ht).
  destruct (put_rc_mono env st rc' Hwf Hh) as (st1' & r' & E1 & Hwf1 & _ & Hm & _).
  rewrite E in E1. injection E1 as -> _. destruct (Hm _ _ Ho) as (new & Hn & ?). exists new. split; [done|lia].
Qed.

Lemma store_step_held st st' rc :
  store_step is_public env st st' -> store_wf st -> held st rc -> held st' rc \/ purged st st' rc.
Proof.
  intros Hstep Hwf Hheld. destruct Hstep as [st rc' st' r Hh E|st rc' registered st' r Hh E|st order registered now Hord].
  - left. by eapply put_rc_keeps_held.
  - left. unfold verify_store_gossip_rc in E. case_match; [congruence|]. by eapply put_rc_keeps_held.
  - destruct (remove_rcs_if_ok (purge_pred is_public env registered now) order st Hwf Hord) as [_ Hk].
    destruct Hheld as (old & Ho & Ht). destruct (wf_rcs _ Hwf _ _ Ho) as [Hrid _].
    destruct (purge_pred is_public env registered now old) eqn:Ep.
    + right. exists order, registered, now, old. split_and!; [done..| |].
      * rewrite Hk. apply map_lookup_filter_None. right. intros ? Hl. simpl. congruence.
      * unfold purge_pred in Ep. destruct (is_public (rc_addr old)); [|by left].
        destruct (rc_is_expired old now); [by right; left|]. destruct (is_service_node env); [|done].
        case_bool_decide; [done|]. apply bool_decide_eq_true_1 in Ep. rewrite Hrid in Ep. auto.
    + left. exists old. split; [|done]. rewrite Hk. by apply map_lookup_filter_Some.
Qed.

(** Once an RC is held, the relay's RC stays too recent for it until a purge
    removes that. *)
Lemma store_steps_held st st' rc :
  rtc (store_step is_public env) st st' -> store_wf st -> held st rc ->
  held st' rc \/ exists st1 st2, rtc (store_step is_public env) st st1 /\ purged st1 st2 rc
                 /\ rtc (store_step is_public env) st2 st'.
Proof.
  induction 1 as [st|st st1 st2 Hstep Hrest IH]; [by left|]. intros Hwf Hheld.
  destruct (store_step_held st st1 rc Hstep Hwf Hheld) as [Hh|Hp]; [|right; by exists st, st1].
  destruct (IH (store_step_wf _ _ _ _ Hstep Hwf) Hh) as [?|(sta & stb & ? & ? & ?)]; [by left|].
  right. exists sta, stb. split_and!; try done. by eapply rtc_l.
Qed.

Lemma put_rc_held st rc : held st rc -> put_rc env st rc = (st, Ok (false, false)).
Proof.
  intros (old & Ho & Ht). unfold put_rc. rewrite Ho. unfold newer_than, MIN_GOSSIP_RC_AGE.
  by rewrite (proj2 (Z.leb_gt 60 _)) by lia.
Qed.

Lemma handle_gossip_held netid now registered st conns body conn rc :
  rc_parse is_public BLOCK_BOGONS body netid false now = Ok rc ->
  held st rc \/ rc_router_id rc ∉ registered \/ rc_router_id rc = self_id env ->
  handle_gossip_rc is_public BLOCK_BOGONS env netid now registered st conns body conn = (st, Ok []).
Proof.
  intros Hp Hc. unfold handle_gossip_rc, verify_store_gossip_rc. rewrite Hp.
  destruct (_ || _) eqn:E; [done|]. apply orb_false_iff in E as [E1 E2].
  apply bool_decide_eq_false_1 in E1, E2. destruct Hc as [Hc|[?|?]]; [|done..].
  by rewrite put_rc_held.
Qed.
End GossipProofs.


(** ** Bootstrap *)
Section BootstrapProofs.
Context `{SodiumLaws} `{OxencLaws} `{ZstdLaws}.
Context (is_public : Address -> bool) (BLOCK_BOGONS : bool).
Context (rcs_order : gmap bytes RelayContact -> list (bytes * RelayContact)).

(** Writing the size over the end of the placeholder gives the encoding of a
    dict with the compressed data under "Z". *)
Lemma bootstrap_body (c : bytes) :
  Z.of_nat (length c) < 10 ^ 9 ->
  let actual := str "d1:Z" ++ str_header (length c) in
  let skip := (length compress_prefix - length actual)%nat in
  drop skip (write_at skip actual (compress_prefix ++ c) ++ str "e") = bt_dict_produce [(str "Z", BStr c)].
Proof.
  intros Hc. pose proof (str_header_length (length c) 9 Hc ltac:(lia)) as Hh.
  assert (length compress_prefix = 14%nat) as Hp by done.
  intros actual skip.
  assert (length actual = 4 + length (str_header (length c)))%nat as Ha by (unfold actual; by rewrite length_app).
  assert (skip + length actual = 14)%nat as Hs by (unfold skip; lia).
  unfold write_at. rewrite Hs, (drop_app_length' compress_prefix c 14) by done.
  rewrite <-!app_assoc. rewrite drop_app_length' by (rewrite length_take, length_app; lia).
  rewrite bt_produce_signed. change [(str "Z", BStr c)] with ([] ++ [(str "Z", BStr c)]).
  rewrite bt_signed_snoc, bt_signed_nil, !bt_value_str. unfold actual. by rewrite <-!app_assoc.
Qed.

Lemma bootstrap_rcs_spec env netid now db rcs :
  store_wf (store db) -> Forall (rc_valid is_public BLOCK_BOGONS netid now) rcs ->
  exists db', bootstrap_rcs is_public BLOCK_BOGONS env netid now db (rc_payload <$> rcs) = (db', Ok tt)
    /\ store_wf (store db')
    /\ (forall rc, rc ∈ rcs -> rc_router_id rc ∈ known_rids db' /\ held (store db') rc)
    /\ (forall rid, rid ∈ known_rids db -> rid ∈ known_rids db')
    /\ (forall rc, held (store db) rc -> held (store db') rc).
Proof.
  intros Hwf Hv. revert db Hwf. induction Hv as [|rc rcs [Hp Hh] _ IH]; intros db Hwf; cbn [fmap list_fmap bootstrap_rcs].
  { exists db. split_and!; try done. intros rc Hin. by apply elem_of_nil in Hin. }
  rewrite Hp. cbn [store].
  destruct (put_rc_mono env (store db) rc Hwf Hh) as (st1 & r & -> & Hwf1 & Hnew & Hm & _).
  edestruct (IH (with_store (mkFetchDB (store db) ({[rc_router_id rc]} ∪ known_rids db) (last_rc_fetch db)
    (pending_rc_lookups db)) st1)) as (db' & -> & Hwf' & Hin & Hr & Hheld); [done|].
  cbn [store with_store known_rids] in *. exists db'. split_and!; try done.
  - intros rc' [->|?]%elem_of_cons; [|by apply Hin]. split; [apply Hr; set_solver|].
    apply Hheld. exact Hnew.
  - intros rid Hrid. apply Hr. set_solver.
  - intros rc' (old & Ho & Ht). apply Hheld. destruct (Hm _ _ Ho) as (new & Hn & ?).
    exists new. split; [done|lia].
Qed.
End BootstrapProofs.


(** ** Bootstrap attempts and the purge timer *)

(** Milliseconds. *)
Definition BOOTSTRAP_COOLDOWN : Z := 3000.
Definition BOOTSTRAP_COOLDOWN_MAX : Z := 60000.
Definition MIN_ACTIVE_RCS : Z := 6.

Record BootState := mkBoot {
  bootstrap_running : bool;
  bootstrap_fails : Z;
}.

(** [on_bootstrap_done]: the new state and the delay before the next attempt. *)
Definition on_bootstrap_done (num_rcs : Z) (b : BootState) (success : bool) : BootState * option Z :=
  let b := mkBoot false (if success then 0 else bootstrap_fails b + 1) in
  if MIN_ACTIVE_RCS <=? num_rcs then (b, None)
  else (b, Some (Z.min (BOOTSTRAP_COOLDOWN * (if success then 1 else bootstrap_fails b)) BOOTSTRAP_COOLDOWN_MAX)).

Section Attempts.
Context `{Sodium} `{Oxenc} `{Zstd}.
Context (is_public : Address -> bool) (BLOCK_BOGONS : bool).
Context (env : RouterEnv) (netid now : Z).

(** [bs_data::try_next] from one bootstrap to the next; [answer] is each
    bootstrap's response ([None]: an error or a timeout), and [stopping i] whether
    the router is stopping when number [i] is tried. *)
Fixpoint try_next (stopping : nat -> bool) (answer : RelayContact -> option bytes)
    (bootstraps : list RelayContact) (i : nat) (db : FetchDB) (b : BootState)
    : FetchDB * BootState * option Z :=
  if stopping i then (db, b, None)
  else match bootstraps with
       | [] => let '(b, next) := on_bootstrap_done (num_rcs env (store db) true) b false in (db, b, next)
       | rc :: bootstraps =>
           match answer rc with
           | None => try_next stopping answer bootstraps (S i) db b
           | Some body =>
               match handle_bootstrap_result is_public BLOCK_BOGONS env netid now db body with
               | (db, true) => let '(b, next) := on_bootstrap_done (num_rcs env (store db) true) b true in (db, b, next)
               | (db, false) => try_next stopping answer bootstraps (S i) db b
               end
           end
       end.

(** [NodeDB::bootstrap] *)
Definition bootstrap (stopping : nat -> bool) (answer : RelayContact -> option bytes)
    (bootstraps : list RelayContact) (db : FetchDB) (b : BootState) : FetchDB * BootState * option Z :=
  try_next stopping answer bootstraps 0 db (mkBoot true (bootstrap_fails b)).

(** [purge_rcs]: the store, the bootstrap state and whether it starts a bootstrap. *)
Definition purge_rcs (stopping running : bool) (registered : gset bytes)
    (order : list (bytes * RelayContact)) (st : RCStore) (bootstraps : list RelayContact) (b : BootState)
    : RCStore * BootState * bool :=
  if stopping || negb running then (st, b, false)
  else
    let st := remove_rcs_if (purge_pred is_public env registered now) order st in
    if (num_rcs env st true <? MIN_ACTIVE_RCS) && negb (bool_decide (bootstraps = []))
       && negb (bootstrap_running b)
    then (st, mkBoot (bootstrap_running b) 0, true)
    else (st, b, false).

Lemma on_bootstrap_done_spec n b success :
  0 <= bootstrap_fails b ->
  let '(b', next) := on_bootstrap_done n b success in
  bootstrap_running b' = false /\ 0 <= bootstrap_fails b'
  /\ (next = None <-> MIN_ACTIVE_RCS <= n)
  /\ (forall d, next = Some d -> BOOTSTRAP_COOLDOWN <= d <= BOOTSTRAP_COOLDOWN_MAX).
Proof.
  intros Hf. unfold on_bootstrap_done, BOOTSTRAP_COOLDOWN, BOOTSTRAP_COOLDOWN_MAX.
  destruct (Z.leb_spec MIN_ACTIVE_RCS n); cbn [bootstrap_running bootstrap_fails];
    (split_and!; [done|destruct success; lia| |]).
  - naive_solver.
  - done.
  - split; [done|lia].
  - intros d [= <-]. destruct success; cbn [bootstrap_fails]; lia.
Qed.
End Attempts.

(** C26. While the router is not stopping, a bootstrap attempt always ends: the
    running flag is cleared, and another attempt is scheduled, between 3 and 60
    seconds later, exactly when there are still fewer than six RCs. *)
Theorem bootstrap_ends `{Sodium} `{Oxenc} `{Zstd} is_public BLOCK_BOGONS env netid now answer bootstraps db b :
  0 <= bootstrap_fails b ->
  let '(db', b', next) :=
    bootstrap is_public BLOCK_BOGONS env netid now (fun _ => false) answer bootstraps db b in
  bootstrap_running b' = false /\ 0 <= bootstrap_fails b'
  /\ (next = None <-> MIN_ACTIVE_RCS <= num_rcs env (store db') true)
  /\ (forall d, next = Some d -> BOOTSTRAP_COOLDOWN <= d <= BOOTSTRAP_COOLDOWN_MAX).
Proof.
  intros Hf. unfold bootstrap.
  assert (0 <= bootstrap_fails (mkBoot true (bootstrap_fails b))) as Hb by done.
  revert Hb. generalize (mkBoot true (bootstrap_fails b)) as b0. generalize 0%nat as i.
  revert db. induction bootstraps as [|rc l IH]; intros db i b0 Hb; cbn [try_next].
  - pose proof (on_bootstrap_done_spec (num_rcs env (store db) true) b0 false Hb) as Hs.
    by destruct (on_bootstrap_done _ _ _).
  - destruct (answer rc) as [body|]; [|by apply IH].
    destruct (handle_bootstrap_result _ _ _ _ _ _ _) as [db1 [|]]; [|by apply IH].
    pose proof (on_bootstrap_done_spec (num_rcs env (store db1) true) b0 true Hb) as Hs.
    by destruct (on_bootstrap_done _ _ _).
Qed.

(** ** Concrete instances *)
Module FetchDemo.
#[local] Existing Instance toy.
#[local] Existing Instance bencode.

Definition copy_zstd : Zstd := {| zstd_compress := Some; zstd_decompress := Some |}.
Lemma copy_zstd_laws : @ZstdLaws copy_zstd.
Proof. constructor. simpl. congruence. Qed.

(** A client that holds an old RC of relay 1 and has never heard of relay 2. *)
Definition client_env : RouterEnv := mkEnv false [] ∅ ∅.
Definition client : FetchDB :=
  mkFetchDB StoreDemo.store1 {[StoreDemo.rid 1; StoreDemo.rid 2]} 0 [(StoreDemo.rid 2, 5%nat)].
Definition public (a : Address) : bool := true.

Lemma client_wf : store_wf (store client).
Proof.
  apply (@reachable_wf toy toy_laws bencode (fun _ => true) StoreDemo.env). apply rtc_once.
  eapply step_put; [apply (StoreDemo.rc_of_built 1 1000); auto | apply surjective_pairing].
Qed.

Lemma relay_rcs rid rc :
  known_rcs StoreDemo.store2 !! rid = Some rc -> rc = StoreDemo.rc_of 1 1000 \/ rc = StoreDemo.rc_of 2 2000.
Proof.
  assert (known_rcs StoreDemo.store2 =
    <[StoreDemo.rid 2 := StoreDemo.rc_of 2 2000]> {[StoreDemo.rid 1 := StoreDemo.rc_of 1 1000]}) as ->
    by (vm_compute; reflexivity).
  intros [[_ <-]|[_ Hr]]%lookup_insert_Some; [auto|].
  apply lookup_singleton_Some in Hr as [_ <-]. auto.
Qed.

Lemma relay_rcs_valid rid rc :
  known_rcs StoreDemo.store2 !! rid = Some rc -> rc_valid public true 0 3000000 rc.
Proof.
  intros [-> | ->]%relay_rcs; (split; [vm_compute; reflexivity | apply StoreDemo.rc_of_built; auto]).
Qed.
End FetchDemo.




Lemma bootstrap_ends_witness :
  bootstrap_running (@bootstrap toy bencode FetchDemo.copy_zstd FetchDemo.public true FetchDemo.client_env 0 3000000
    (fun _ => false) (fun _ => None) [StoreDemo.rc_of 1 1000] FetchDemo.client (mkBoot false 2)).1.2 = false.
Proof.
  pose proof (@bootstrap_ends toy bencode FetchDemo.copy_zstd FetchDemo.public true FetchDemo.client_env 0 3000000
    (fun _ => None) [StoreDemo.rc_of 1 1000] FetchDemo.client (mkBoot false 2) ltac:(simpl; lia)) as Hb.
  destruct (bootstrap _ _ _ _ _ _ _ _ _ _) as [[db' b'] next]. exact (proj1 Hb).
Defined.
