(* ===== verification/NodeDisk.v ===== *)
(** * What the node database keeps on disk (nodedb.cpp)

    The 0-RTT tickets ([store_0rtt], [extract_0rtt], [_0rtt_save]) and
    [load_from_disk], which reads the RC and ticket files back. *)

From Stdlib Require Import ZArith Lia.
From stdpp Require Import base list numbers strings gmap.
From S2P Require Import Prelude Oxenc Crypto RelayContact RcStore.

Local Open Scope Z_scope.
Local Open Scope router_scope.

Definition MAX_0RTT_TICKETS : nat := 2.

(** The time system_clock gives, in nanoseconds; expiries are in seconds. *)
Definition ns (expiry : Z) : Z := expiry * 1000000000.

Record Tickets := mkTickets {
  zrtt_tickets : gmap bytes (list (bytes * Z));
  zrtt_dirty : gset bytes;
  (** whether the saver exists, and the wakes it was given *)
  zrtt_saver : bool;
  zrtt_wakes : nat;
}.

Definition wake_saver (z : Tickets) : Tickets :=
  mkTickets (zrtt_tickets z) (zrtt_dirty z) (zrtt_saver z)
    (if zrtt_saver z then S (zrtt_wakes z) else zrtt_wakes z).

(** [while (tickets.size() >= MAX_0RTT_TICKETS) tickets.pop_front();] *)
Fixpoint trim_tickets (l : list (bytes * Z)) : list (bytes * Z) :=
  match l with
  | [] => []
  | _ :: l' => if bool_decide (MAX_0RTT_TICKETS <= length l)%nat then trim_tickets l' else l
  end.

Definition store_0rtt (z : Tickets) (rid data : bytes) (expiry : Z) : Tickets :=
  let tickets := trim_tickets (default [] (zrtt_tickets z !! rid)) ++ [(data, expiry)] in
  wake_saver (mkTickets (<[rid := tickets]> (zrtt_tickets z)) ({[rid]} ∪ zrtt_dirty z)
    (zrtt_saver z) (zrtt_wakes z)).

(** [while (!tickets.empty() && tickets.front().second < now) tickets.pop_front();] *)
Fixpoint drop_expired (now : Z) (l : list (bytes * Z)) : list (bytes * Z) :=
  match l with
  | [] => []
  | (d, e) :: l' => if ns e <? now then drop_expired now l' else l
  end.

Definition extract_0rtt (z : Tickets) (rid : bytes) (now : Z) : Tickets * option bytes :=
  match zrtt_tickets z !! rid with
  | None => (z, None)
  | Some tickets =>
      let '(tickets, ret) := match drop_expired now tickets with
                             | [] => ([], None)
                             | (d, _) :: l => (l, Some d)
                             end in
      (wake_saver (mkTickets (<[rid := tickets]> (zrtt_tickets z)) ({[rid]} ∪ zrtt_dirty z)
         (zrtt_saver z) (zrtt_wakes z)), ret)
  end.

(** ** Files *)
Inductive FileExt := RC_FILE_EXT | ZRTT_FILE_EXT | OTHER_EXT.

#[export] Instance FileExt_eq_dec : EqDecision FileExt.
Proof. solve_decision. Defined.

Inductive FileOp : Type :=
| FileErase (rid : bytes) (ext : FileExt)
| FileWrite (rid : bytes) (ext : FileExt) (content : bytes).

Section Disk.
Context `{Sodium} `{Oxenc}.
Context (is_public : Address -> bool) (BLOCK_BOGONS : bool).
Context (env : RouterEnv).

(** The ticket file [_0rtt_save] writes. *)
Definition zrtt_encode (rid : bytes) (tickets : list (bytes * Z)) : bytes :=
  bt_dict_produce
    ([(str "@", BStr rid)]
     ++ (if is_service_node env then [(str "R", BStr (self_id env))] else [])
     ++ [(str "r", BList ((fun '(data, exp) => BDict [(str "d", BStr data); (str "e", BInt exp)]) <$> tickets))]).

(** [_0rtt_save] for the dirty relays, in the order of the set: the tickets
    left, the files erased and the files written. *)
Fixpoint save_loop (now : Z) (dirty : list bytes) (tickets : gmap bytes (list (bytes * Z)))
    (erase rewrite : list FileOp) : gmap bytes (list (bytes * Z)) * list FileOp :=
  match dirty with
  | [] => (tickets, erase ++ rewrite)
  | rid :: dirty =>
      match tickets !! rid with
      | None => save_loop now dirty tickets (erase ++ [FileErase rid ZRTT_FILE_EXT]) rewrite
      | Some l =>
          match drop_expired now l with
          | [] => save_loop now dirty (delete rid tickets) (erase ++ [FileErase rid ZRTT_FILE_EXT]) rewrite
          | l => save_loop now dirty (<[rid := l]> tickets) erase
                   (rewrite ++ [FileWrite rid ZRTT_FILE_EXT (zrtt_encode rid l)])
          end
      end
  end.

Definition _0rtt_save (now : Z) (dirty_order : list bytes) (z : Tickets) : Tickets * list FileOp :=
  let '(tickets, ops) := save_loop now dirty_order (zrtt_tickets z) [] [] in
  (mkTickets tickets ∅ (zrtt_saver z) (zrtt_wakes z), ops).

(** One record of a ticket file. *)
Definition load_ticket (v : btval) : outcome string (bytes * Z) :=
  match v with
  | BDict d =>
      let! (data, rec) := or_throw "d"%string (bt_require_string (str "d") (bt_reading [] d)) in
      let! (e, rec) := or_throw "e"%string (bt_require_int (str "e") rec) in
      throw_if negb (in_range (- 2 ^ 63) (2 ^ 63 - 1) e) with "e"%string in
      throw_if negb (bt_finish rec) with "trailing data"%string in
      Ok (data, e)
  | _ => Throw "not a dict"%string
  end.

Fixpoint load_tickets (real_now : Z) (l : list btval) (tickets : list (bytes * Z))
    : outcome string (list (bytes * Z)) :=
  match l with
  | [] => Ok tickets
  | v :: l =>
      let! (data, e) := load_ticket v in
      load_tickets real_now l (if real_now <? ns e then tickets ++ [(data, e)] else tickets)
  end.

(** The ticket file branch of [load_from_disk]: the tickets, or an exception. *)
Definition load_zrtt_file (filename_rid content : bytes) (real_now : Z) : outcome string (list (bytes * Z)) :=
  let! top := or_throw "not a dict"%string (bt_dict_open content) in
  let! (rid, top) := or_throw "@"%string (bt_require_span 32 (str "@") top) in
  throw_if negb (bool_decide (rid = filename_rid)) with "pubkey does not match filename"%string in
  let! (found, top) := or_throw "R"%string (bt_skip_until (str "R") top) in
  let! top :=
    if found then
      throw_if negb (is_service_node env) with "ticket is for a relay but we are a client"%string in
      let! (_, check_rid, top) := or_throw "R"%string (bt_next_string top) in
      throw_if negb (bool_decide (length check_rid = 32%nat)) with "R"%string in
      throw_if negb (bool_decide (check_rid = self_id env)) with "ticket is for a different relay"%string in
      Ok top
    else
      throw_if is_service_node env with "ticket is for a client but we are a relay"%string in
      Ok top in
  let! (_, recs, top) := or_throw "r"%string (bt_next_list top) in
  let! tickets := load_tickets real_now recs [] in
  throw_if negb (bt_finish top) with "trailing data"%string in
  Ok tickets.

(** A directory entry: whether it is a regular file, the router ID its stem
    encodes (if it is the base32z of one), its extension and its content. *)
Record DirEntry := mkEntry {
  is_regular_file : bool;
  stem_rid : option bytes;
  extension : FileExt;
  content : bytes;
}.

Record Loaded := mkLoaded {
  ld_rids : gset bytes;
  ld_rcs : gmap bytes RelayContact;
  ld_tickets : gmap bytes (list (bytes * Z));
  ld_purge : list DirEntry;
}.

(** One file; [now] is in milliseconds and [real_now] in nanoseconds. *)
Definition load_file (netid now real_now : Z) (ld : Loaded) (f : DirEntry) : Loaded :=
  let purge := mkLoaded (ld_rids ld) (ld_rcs ld) (ld_tickets ld) (ld_purge ld ++ [f]) in
  if negb (is_regular_file f) then ld
  else match stem_rid f with
  | None => ld
  | Some filename_rid =>
      match extension f with
      | RC_FILE_EXT =>
          match rc_load is_public BLOCK_BOGONS (content f) netid false now with
          | Throw _ => purge
          | Ok rc =>
              if rc_is_expired rc now then purge
              else if bool_decide (rc_router_id rc <> filename_rid) then purge
              else mkLoaded (if is_service_node env then ld_rids ld else {[rc_router_id rc]} ∪ ld_rids ld)
                     (match ld_rcs ld !! rc_router_id rc with
                      | Some _ => ld_rcs ld
                      | None => <[rc_router_id rc := rc]> (ld_rcs ld)
                      end) (ld_tickets ld) (ld_purge ld)
          end
      | ZRTT_FILE_EXT =>
          match load_zrtt_file filename_rid (content f) real_now with
          | Throw _ => purge
          | Ok [] => purge
          | Ok tickets => mkLoaded (ld_rids ld) (ld_rcs ld) (<[filename_rid := tickets]> (ld_tickets ld)) (ld_purge ld)
          end
      | OTHER_EXT => ld
      end
  end.

(** [load_from_disk] on a fresh database: the router IDs, the store with its
    buckets, the tickets and the files removed. *)
Definition load_from_disk (netid now real_now : Z)
    (rcs_order : gmap bytes RelayContact -> list (bytes * RelayContact)) (dir : list DirEntry)
    : outcome string (gset bytes * RCStore * gmap bytes (list (bytes * Z)) * list DirEntry) :=
  let ld := foldl (load_file netid now real_now) (mkLoaded ∅ ∅ ∅ []) dir in
  let st := mkStore (ld_rcs ld) (rc_hashes empty_store) (rc_bucket_hashes empty_store) [] in
  match init_buckets (rcs_order (ld_rcs ld)) st with
  | (st, Ok _) => Ok (ld_rids ld, st, ld_tickets ld, ld_purge ld)
  | (_, Throw e) => Throw e
  end.
End Disk.

(** ** Tickets *)
Lemma trim_tickets_length l : (length (trim_tickets l) < MAX_0RTT_TICKETS)%nat.
Proof.
  unfold MAX_0RTT_TICKETS. induction l as [|t l IH]; cbn [trim_tickets]; [simpl; lia|].
  case_bool_decide; [done|]. unfold MAX_0RTT_TICKETS in *. lia.
Qed.

Definition unexpired (now : Z) (t : bytes * Z) : Prop := now <= ns t.2.

#[export] Instance unexpired_dec now t : Decision (unexpired now t).
Proof. unfold unexpired. apply _. Defined.

Lemma drop_expired_spec now l :
  exists pre, l = pre ++ drop_expired now l /\ Forall (fun t => ~ unexpired now t) pre
    /\ (forall t, head (drop_expired now l) = Some t -> unexpired now t).
Proof.
  induction l as [|[d e] l (pre & El & Hp & Hh)]; cbn [drop_expired].
  - exists []. split_and!; [done|constructor|done].
  - destruct (Z.ltb_spec (ns e) now).
    + exists ((d, e) :: pre). split_and!; [by rewrite El at 1|constructor; [unfold unexpired; simpl; lia|done]|done].
    + exists []. split_and!; [done|constructor|]. intros t [= <-]. done.
Qed.

Lemma drop_expired_length now l : (length (drop_expired now l) <= length l)%nat.
Proof. destruct (drop_expired_spec now l) as (pre & E & _). rewrite E at 2. rewrite length_app. lia. Qed.

(** [extract_0rtt] hands out the oldest ticket of the relay that has not
    expired and removes it together with the expired ones before it, so that no
    ticket is handed out twice; it gives nothing only when every ticket has
    expired; the other relays' tickets stay. *)
Theorem extract_0rtt_spec z rid now tickets :
  zrtt_tickets z !! rid = Some tickets ->
  let '(z', ret) := extract_0rtt z rid now in
  match ret with
  | Some d => exists pre e rest, tickets = pre ++ (d, e) :: rest
      /\ Forall (fun t => ~ unexpired now t) pre /\ unexpired now (d, e)
      /\ zrtt_tickets z' !! rid = Some rest
  | None => Forall (fun t => ~ unexpired now t) tickets /\ zrtt_tickets z' !! rid = Some []
  end
  /\ rid ∈ zrtt_dirty z'
  /\ (forall rid', rid' <> rid -> zrtt_tickets z' !! rid' = zrtt_tickets z !! rid').
Proof.
  intros Ht. unfold extract_0rtt. rewrite Ht. destruct (drop_expired_spec now tickets) as (pre & E & Hp & Hh).
  destruct (drop_expired now tickets) as [|[d e] rest]; cbn [zrtt_tickets zrtt_dirty wake_saver].
  - rewrite app_nil_r in E. subst pre. split_and!; [done|by rewrite lookup_insert_eq|set_solver|].
    intros. by rewrite lookup_insert_ne.
  - split_and!; [|set_solver|intros; by rewrite lookup_insert_ne].
    exists pre, e, rest. rewrite lookup_insert_eq. split_and!; try done. by apply Hh.
Qed.

Definition demo_tickets : Tickets := mkTickets {[ [1] := [([10], 5); ([11], 50)] ]} ∅ true 0.

Lemma extract_0rtt_spec_witness :
  (extract_0rtt demo_tickets [1] 6000000000).2 = Some [11]
  /\ exists pre e rest, [([10], 5); ([11], 50)] = pre ++ ([11], e) :: rest /\ unexpired 6000000000 ([11], e).
Proof.
  pose proof (extract_0rtt_spec demo_tickets [1] 6000000000 [([10], 5); ([11], 50)] eq_refl) as Hs.
  assert (extract_0rtt demo_tickets [1] 6000000000 =
    (mkTickets {[ [1] := [] ]} {[ [1] ]} true 1, Some [11])) as E by (vm_compute; reflexivity).
  rewrite E in Hs |- *. destruct Hs as [(pre & e & rest & E1 & _ & E2 & _) _].
  split; [reflexivity|]. exists pre, e, rest. split; assumption.
Defined.

(** ** The tickets and their files *)
Definition apply_op (disk : gmap bytes bytes) (op : FileOp) : gmap bytes bytes :=
  match op with
  | FileErase rid _ => delete rid disk
  | FileWrite rid _ c => <[rid := c]> disk
  end.

Section TicketFiles.
Context `{Oxenc} (env : RouterEnv).

(** What [_0rtt_save] keeps of a relay's tickets. *)
Definition kept (now : Z) (tickets : gmap bytes (list (bytes * Z))) (rid : bytes) : option (list (bytes * Z)) :=
  match tickets !! rid with
  | Some l => match drop_expired now l with [] => None | l => Some l end
  | None => None
  end.

(** The file operations of a save over the relays [dirty]. *)
Definition erases now tickets (dirty : list bytes) : list FileOp :=
  (fun rid => FileErase rid ZRTT_FILE_EXT) <$> filter (fun rid => kept now tickets rid = None) dirty.

Definition rewrites now tickets (dirty : list bytes) : list FileOp :=
  (fun rid => FileWrite rid ZRTT_FILE_EXT (zrtt_encode env rid (default [] (kept now tickets rid))))
    <$> filter (fun rid => kept now tickets rid <> None) dirty.

Section Agree.
Context (now : Z) (rid : bytes) (dirty : list bytes) (t1 t2 : gmap bytes (list (bytes * Z))).
Context (Hrid : rid ∉ dirty) (Heq : forall k, k <> rid -> t2 !! k = t1 !! k).

Lemma kept_agree k : k ∈ dirty -> kept now t2 k = kept now t1 k.
Proof. intros Hin. unfold kept. rewrite Heq; [done|]. by intros ->. Qed.

Lemma erases_agree : erases now t2 dirty = erases now t1 dirty.
Proof. unfold erases. f_equal. apply filter_iff_in. intros r Hr. by rewrite kept_agree. Qed.

Lemma rewrites_agree : rewrites now t2 dirty = rewrites now t1 dirty.
Proof.
  unfold rewrites.
  rewrite (filter_iff_in (fun r => kept now t2 r <> None) (fun r => kept now t1 r <> None))
    by (intros r Hr; by rewrite kept_agree).
  apply list_fmap_ext. intros i r Hr. apply list_elem_of_lookup_2, list_elem_of_filter in Hr as [_ Hr].
  by rewrite kept_agree.
Qed.

Lemma saved_agree (t' : gmap bytes (list (bytes * Z))) :
  t2 !! rid = kept now t1 rid ->
  (forall k, t' !! k = if decide (k ∈ dirty) then kept now t2 k else t2 !! k) ->
  forall k, t' !! k = if decide (k ∈ rid :: dirty) then kept now t1 k else t1 !! k.
Proof.
  intros Hr Ht k. rewrite Ht. destruct (decide (k = rid)) as [->|Hk].
  - rewrite decide_False by done. by rewrite decide_True by set_solver.
  - destruct (decide (k ∈ dirty)).
    + rewrite decide_True by set_solver. by apply kept_agree.
    + rewrite decide_False by set_solver. by apply Heq.
Qed.
End Agree.

Lemma save_loop_spec now dirty tickets erase rewrite :
  NoDup dirty ->
  exists tickets', save_loop env now dirty tickets erase rewrite =
      (tickets', (erase ++ erases now tickets dirty) ++ rewrite ++ rewrites now tickets dirty)
    /\ forall rid, tickets' !! rid = if decide (rid ∈ dirty) then kept now tickets rid else tickets !! rid.
Proof.
  revert tickets erase rewrite. induction dirty as [|rid dirty IH]; intros tickets erase rewrite Hnd.
  { exists tickets. unfold erases, rewrites. rewrite !filter_nil, !app_nil_r. split; [done|]. intros rid.
    by rewrite decide_False by set_solver. }
  apply NoDup_cons in Hnd as [Hrid Hnd]. cbn [save_loop].
  assert (forall t2 er rw, (forall k, k <> rid -> t2 !! k = tickets !! k) -> t2 !! rid = kept now tickets rid ->
    exists tickets', save_loop env now dirty t2 er rw =
      (tickets', (er ++ erases now tickets dirty) ++ rw ++ rewrites now tickets dirty)
    /\ forall k, tickets' !! k = if decide (k ∈ rid :: dirty) then kept now tickets k else tickets !! k) as Hstep.
  { intros t2 er rw Heq Hr. destruct (IH t2 er rw Hnd) as (t' & -> & Ht). exists t'.
    rewrite (erases_agree now rid dirty tickets t2), (rewrites_agree now rid dirty tickets t2) by done.
    split; [done|]. by eapply saved_agree. }
  unfold erases at 1, rewrites at 1. destruct (kept now tickets rid) as [l|] eqn:Ek.
  - rewrite filter_cons_False, filter_cons_True by congruence. rewrite fmap_cons, Ek.
    fold (erases now tickets dirty) (rewrites now tickets dirty). pose proof Ek as Ek'. unfold kept in Ek'.
    destruct (tickets !! rid) as [l0|] eqn:El; [|done].
    destruct (drop_expired now l0) as [|t l1] eqn:Ed; [done|]. injection Ek' as <-.
    edestruct (Hstep (<[rid := t :: l1]> tickets)) as (t' & -> & Ht);
      [intros; by rewrite lookup_insert_ne|by rewrite lookup_insert_eq|].
    exists t'. rewrite <-!app_assoc. done.
  - rewrite filter_cons_True, filter_cons_False by (try done; tauto). rewrite fmap_cons.
    fold (erases now tickets dirty) (rewrites now tickets dirty). pose proof Ek as Ek'. unfold kept in Ek'.
    destruct (tickets !! rid) as [l0|] eqn:El.
    + destruct (drop_expired now l0) as [|t l1] eqn:Ed; [|done].
      edestruct (Hstep (delete rid tickets)) as (t' & -> & Ht);
        [intros; by rewrite lookup_delete_ne|by rewrite lookup_delete_eq|].
      exists t'. rewrite <-!app_assoc. done.
    + edestruct (Hstep tickets) as (t' & -> & Ht); [done|done|].
      exists t'. rewrite <-!app_assoc. done.
Qed.

Lemma apply_erases now tickets dirty disk rid :
  foldl apply_op disk (erases now tickets dirty) !! rid =
  if decide (rid ∈ dirty /\ kept now tickets rid = None) then None else disk !! rid.
Proof.
  unfold erases. revert disk. induction dirty as [|r dirty IH]; intros disk.
  { rewrite filter_nil, decide_False by set_solver. done. }
  destruct (decide (kept now tickets r = None)) as [Hr|Hr].
  - rewrite filter_cons_True by done. rewrite fmap_cons. cbn [foldl apply_op]. rewrite IH. destruct (decide (rid = r)) as [->|].
    + rewrite lookup_delete_eq. repeat case_decide; try done; set_solver.
    + rewrite lookup_delete_ne by done. repeat case_decide; try done; set_solver.
  - rewrite filter_cons_False by done. rewrite IH. apply decide_ext. set_solver.
Qed.

Lemma apply_rewrites now tickets dirty disk rid :
  foldl apply_op disk (rewrites now tickets dirty) !! rid =
  if decide (rid ∈ dirty /\ kept now tickets rid <> None)
  then Some (zrtt_encode env rid (default [] (kept now tickets rid))) else disk !! rid.
Proof.
  unfold rewrites. revert disk. induction dirty as [|r dirty IH]; intros disk.
  { rewrite filter_nil, decide_False by set_solver. done. }
  destruct (decide (kept now tickets r <> None)) as [Hr|Hr].
  - rewrite filter_cons_True by done. rewrite fmap_cons. cbn [foldl apply_op]. rewrite IH. destruct (decide (rid = r)) as [->|].
    + rewrite lookup_insert_eq. repeat case_decide; try done; set_solver.
    + rewrite lookup_insert_ne by done. repeat case_decide; try done; set_solver.
  - rewrite filter_cons_False by done. rewrite IH. apply decide_ext. set_solver.
Qed.

(** One operation on the tickets and their files. *)
Inductive zrtt_step : Tickets * gmap bytes bytes -> Tickets * gmap bytes bytes -> Prop :=
| zrtt_store z disk rid data expiry :
    zrtt_step (z, disk) (store_0rtt z rid data expiry, disk)
| zrtt_extract z disk rid now :
    zrtt_step (z, disk) ((extract_0rtt z rid now).1, disk)
| zrtt_save z disk now order :
    order ≡ₚ elements (zrtt_dirty z) ->
    zrtt_step (z, disk)
      ((_0rtt_save env now order z).1, foldl apply_op disk (_0rtt_save env now order z).2).

Definition zrtt_inv (s : Tickets * gmap bytes bytes) : Prop :=
  (forall rid, rid ∉ zrtt_dirty s.1 -> s.2 !! rid = zrtt_encode env rid <$> zrtt_tickets s.1 !! rid)
  /\ (forall rid l, zrtt_tickets s.1 !! rid = Some l -> (length l <= MAX_0RTT_TICKETS)%nat).

Lemma bounded_insert (m : gmap bytes (list (bytes * Z))) rid l :
  (forall rid l, m !! rid = Some l -> (length l <= MAX_0RTT_TICKETS)%nat) ->
  (length l <= MAX_0RTT_TICKETS)%nat ->
  forall rid' l', <[rid := l]> m !! rid' = Some l' -> (length l' <= MAX_0RTT_TICKETS)%nat.
Proof. intros Hm Hl rid' l' [[_ <-]|[_ ?]]%lookup_insert_Some; eauto. Qed.

Lemma kept_bounded now m rid l :
  (forall rid l, m !! rid = Some l -> (length l <= MAX_0RTT_TICKETS)%nat) ->
  kept now m rid = Some l -> (length l <= MAX_0RTT_TICKETS)%nat.
Proof.
  intros Hm. unfold kept. destruct (m !! rid) as [l0|] eqn:E; [|done].
  pose proof (drop_expired_length now l0). apply Hm in E. case_match; [done|]. intros [= <-]. lia.
Qed.

Lemma extract_0rtt_inv z disk rid now : zrtt_inv (z, disk) -> zrtt_inv ((extract_0rtt z rid now).1, disk).
Proof.
  intros [Hf Hb]. unfold extract_0rtt. destruct (zrtt_tickets z !! rid) as [l|] eqn:El; [|done].
  pose proof (drop_expired_length now l) as Hd. apply Hb in El.
  destruct (drop_expired now l) as [|[d e] rest]; cbn [fst].
  all: split; cbn [zrtt_tickets zrtt_dirty wake_saver fst snd];
    [intros r Hr; rewrite lookup_insert_ne by set_solver; apply Hf; set_solver|].
  all: apply bounded_insert; [done|simpl in *; lia].
Qed.

Lemma save_inv z disk now order :
  order ≡ₚ elements (zrtt_dirty z) -> zrtt_inv (z, disk) ->
  zrtt_inv ((_0rtt_save env now order z).1, foldl apply_op disk (_0rtt_save env now order z).2).
Proof.
  intros Hord [Hf Hb]. unfold _0rtt_save.
  destruct (save_loop_spec now order (zrtt_tickets z) [] []) as (t' & -> & Ht);
    [rewrite Hord; apply NoDup_elements|].
  assert (forall rid, rid ∈ order <-> rid ∈ zrtt_dirty z) as Hin by (intros; by rewrite Hord, elem_of_elements).
  split; cbn [zrtt_tickets zrtt_dirty fst snd app].
  - intros rid _. rewrite foldl_app, apply_rewrites, apply_erases, Ht.
    destruct (decide (rid ∈ order)) as [Hr|Hr].
    + destruct (kept now (zrtt_tickets z) rid) eqn:Ek; [rewrite decide_True by naive_solver; done|].
      rewrite decide_False by naive_solver. by rewrite decide_True.
    + rewrite !decide_False by naive_solver. apply Hf. by rewrite <-Hin.
  - intros rid l. rewrite Ht. case_decide; [by apply kept_bounded|apply Hb].
Qed.
End TicketFiles.

(** Through any sequence of stored tickets, extractions and saves, from an
    empty database and disk: no relay ever has more than two tickets, and every
    relay without unsaved changes has on disk exactly the encoding of its
    tickets, or no file when it has none. *)
Theorem zrtt_files_consistent `{Oxenc} env saver z disk :
  rtc (zrtt_step env) (mkTickets ∅ ∅ saver 0, ∅) (z, disk) ->
  (forall rid l, zrtt_tickets z !! rid = Some l -> (length l <= MAX_0RTT_TICKETS)%nat)
  /\ (forall rid, rid ∉ zrtt_dirty z -> disk !! rid = zrtt_encode env rid <$> zrtt_tickets z !! rid).
Proof.
  intros Hr. assert (zrtt_inv env (z, disk)) as [? ?]; [|done].
  revert Hr. apply (rtc_ind_r (zrtt_inv env)).
  - split; cbn [fst snd zrtt_tickets]; intros; by rewrite ?lookup_empty in *.
  - intros s1 s2 _ Hstep Hinv. destruct Hstep.
    + destruct Hinv as [Hf Hb]. split; cbn [store_0rtt wake_saver zrtt_tickets zrtt_dirty fst snd].
      * intros r Hn. rewrite lookup_insert_ne by set_solver. apply Hf. set_solver.
      * apply bounded_insert; [done|]. rewrite length_app.
        pose proof (trim_tickets_length (default [] (zrtt_tickets z0 !! rid))). simpl. lia.
    + by apply extract_0rtt_inv.
    + by apply save_inv.
Qed.

Definition demo_env : RouterEnv := mkEnv true [9] ∅ ∅.
Definition demo_stored : Tickets := store_0rtt (mkTickets ∅ ∅ true 0) [1] [10] 100.

Lemma zrtt_files_consistent_witness :
  foldl apply_op ∅ (@_0rtt_save bencode demo_env 0 [[1]] demo_stored).2 !! [1] = Some (@zrtt_encode bencode demo_env [1] [([10], 100)]).
Proof.
  destruct (@zrtt_files_consistent bencode demo_env true (@_0rtt_save bencode demo_env 0 [[1]] demo_stored).1
    (foldl apply_op ∅ (@_0rtt_save bencode demo_env 0 [[1]] demo_stored).2)) as [_ Hf].
  - eapply rtc_l; [apply zrtt_store|]. apply rtc_once. apply zrtt_save. vm_compute. reflexivity.
  - rewrite Hf; [vm_compute; reflexivity|]. vm_compute. intros Hin. inversion Hin.
Defined.

(** ** Reading the files back *)
Section Reload.
Context `{OxencLaws} (env : RouterEnv).

Lemma load_tickets_encoded real_now tickets acc :
  Forall (fun t => - 2 ^ 63 <= t.2 < 2 ^ 63) tickets ->
  load_tickets real_now ((fun '(data, exp) => BDict [(str "d", BStr data); (str "e", BInt exp)]) <$> tickets) acc
  = Ok (acc ++ filter (fun t => real_now < ns t.2) tickets).
Proof.
  intros Ht. revert acc. induction Ht as [|[d e] tickets He _ IH]; intros acc.
  { by rewrite filter_nil, app_nil_r. }
  cbn [fmap list_fmap load_tickets load_ticket]. repeat bt_step. simpl in He.
  replace (in_range (- 2 ^ 63) (2 ^ 63 - 1) e) with true by (symmetry; unfold in_range; lia).
  cbn [outcome_bind negb]. repeat bt_step.
  cbn [negb outcome_bind]. rewrite IH. destruct (Z.ltb_spec real_now (ns e)).
  - rewrite filter_cons_True by done. by rewrite <-app_assoc.
  - rewrite filter_cons_False by (simpl; lia). done.
Qed.

Lemma load_zrtt_encoded rid tickets real_now :
  length rid = 32%nat -> length (self_id env) = 32%nat ->
  Forall (fun t => - 2 ^ 63 <= t.2 < 2 ^ 63) tickets ->
  load_zrtt_file env rid (zrtt_encode env rid tickets) real_now
  = Ok (filter (fun t => real_now < ns t.2) tickets).
Proof.
  intros Hrid Hself Ht. unfold load_zrtt_file, zrtt_encode. repeat bt_step.
  rewrite (bool_decide_true (rid = rid)) by done. cbn [negb].
  destruct (is_service_node env); cbn [app].
  - rewrite bt_skip_until_here. cbn [or_throw outcome_bind negb]. rewrite bt_next_string_next.
    cbn [or_throw outcome_bind]. rewrite !bool_decide_true by done. cbn [negb outcome_bind].
    rewrite bt_next_list_next. cbn [or_throw outcome_bind]. rewrite load_tickets_encoded by done.
    repeat bt_step. done.
  - rewrite bt_skip_until_absent by done. cbn [or_throw outcome_bind negb].
    rewrite bt_next_list_next. cbn [or_throw outcome_bind]. rewrite load_tickets_encoded by done.
    repeat bt_step. done.
Qed.
End Reload.

(** A ticket file written by [_0rtt_save] is read back by [load_from_disk]
    on the same node with exactly the tickets that have not expired since; on a
    node of another kind, or on another relay, it is refused. *)
Theorem zrtt_file_round_trip `{OxencLaws} env env' rid tickets real_now :
  length rid = 32%nat -> length (self_id env) = 32%nat ->
  Forall (fun t => - 2 ^ 63 <= t.2 < 2 ^ 63) tickets ->
  load_zrtt_file env rid (zrtt_encode env rid tickets) real_now
    = Ok (filter (fun t => real_now < ns t.2) tickets)
  /\ (is_service_node env' <> is_service_node env \/ is_service_node env = true /\ self_id env' <> self_id env ->
      exists e, load_zrtt_file env' rid (zrtt_encode env rid tickets) real_now = Throw e).
Proof.
  intros Hrid Hself Ht. split; [by apply load_zrtt_encoded|].
  intros Hne. unfold load_zrtt_file, zrtt_encode. repeat bt_step.
  rewrite (bool_decide_true (rid = rid)) by done. cbn [negb].
  destruct (is_service_node env); cbn [app].
  - rewrite bt_skip_until_here. cbn [or_throw outcome_bind negb].
    destruct (is_service_node env') eqn:E; cbn [negb outcome_bind]; [|by eexists].
    rewrite bt_next_string_next. cbn [or_throw outcome_bind]. rewrite (bool_decide_true (length _ = _)) by done.
    cbn [negb]. rewrite bool_decide_false by naive_solver. cbn [negb outcome_bind]. by eexists.
  - rewrite bt_skip_until_absent by done. cbn [or_throw outcome_bind negb].
    destruct (is_service_node env') eqn:E; [cbn [outcome_bind]; by eexists|]. naive_solver.
Qed.

Lemma zrtt_file_round_trip_witness :
  @load_zrtt_file bencode (mkEnv true (replicate 32 9) ∅ ∅) (replicate 32 1)
    (@zrtt_encode bencode (mkEnv true (replicate 32 9) ∅ ∅) (replicate 32 1) [([10], 5); ([11], 50)]) 6000000000
  = Ok [([11], 50)].
Proof.
  destruct (@zrtt_file_round_trip bencode bencode_laws (mkEnv true (replicate 32 9) ∅ ∅)
    (mkEnv false [] ∅ ∅) (replicate 32 1) [([10], 5); ([11], 50)] 6000000000) as [E _].
  - reflexivity.
  - reflexivity.
  - repeat constructor; simpl; lia.
  - rewrite E. vm_compute. reflexivity.
Defined.

(** ** A restart *)
Section Restart.
Context `{SodiumLaws} `{Oxenc}.
Context (is_public : Address -> bool) (BLOCK_BOGONS : bool) (env : RouterEnv).

(** Only the expiry check of the RC parser depends on the time. *)
Lemma rc_load_later payload netid now0 now rc :
  rc_load is_public BLOCK_BOGONS payload netid false now0 = Ok rc ->
  if rc_is_expired rc now
  then exists e, rc_load is_public BLOCK_BOGONS payload netid false now = Throw e
  else rc_load is_public BLOCK_BOGONS payload netid false now = Ok rc.
Proof.
  unfold rc_load. intros Hl. outcome_inv Hl.
  repeat match goal with
  | Ha : ?m = Some _ |- context [or_throw _ ?m] => rewrite Ha; cbn [or_throw outcome_bind]
  | Hg : ?c = false |- context [if ?c then Throw _ else _] => rewrite Hg
  | Ha : _ = Ok _ |- _ => progress (rewrite Ha; cbn [outcome_bind])
  end.
  cbn [negb andb]. injection Hl as <-.
  destruct (rc_is_expired _ now); [by eexists|].
  repeat match goal with Hg : ?c = false |- context [if ?c then Throw _ else _] => rewrite Hg end. done.
Qed.

Definition rc_entry (kv : bytes * RelayContact) : DirEntry :=
  mkEntry true (Some kv.1) RC_FILE_EXT (rc_payload kv.2).

Lemma load_rc_files netid now real_now l ld :
  Forall (fun kv => rc_router_id kv.2 = kv.1
    /\ exists now0, rc_load is_public BLOCK_BOGONS (rc_payload kv.2) netid false now0 = Ok kv.2) l ->
  NoDup l.*1 -> (forall rid, rid ∈ l.*1 -> ld_rcs ld !! rid = None) ->
  let live := filter (fun kv => rc_is_expired kv.2 now = false) l in
  foldl (load_file is_public BLOCK_BOGONS env netid now real_now) ld (rc_entry <$> l) =
  mkLoaded (if is_service_node env then ld_rids ld else list_to_set live.*1 ∪ ld_rids ld)
    (foldl (fun m kv => <[kv.1 := kv.2]> m) (ld_rcs ld) live) (ld_tickets ld)
    (ld_purge ld ++ (rc_entry <$> filter (fun kv => rc_is_expired kv.2 now = true) l)).
Proof.
  intros Hl. revert ld. induction Hl as [|[rid rc] l [Hrid [now0 Hload]] _ IH]; intros ld Hnd Hld.
  { rewrite !filter_nil. simpl. rewrite app_nil_r. destruct ld. simpl. case_match; f_equal. set_solver. }
  apply NoDup_cons in Hnd as [Hn Hnd]. cbn [fmap list_fmap foldl]. cbn [snd fst] in *.
  pose proof (rc_load_later _ _ _ now _ Hload) as Hlater.
  assert (load_file is_public BLOCK_BOGONS env netid now real_now ld (rc_entry (rid, rc)) =
    if rc_is_expired rc now
    then mkLoaded (ld_rids ld) (ld_rcs ld) (ld_tickets ld) (ld_purge ld ++ [rc_entry (rid, rc)])
    else mkLoaded (if is_service_node env then ld_rids ld else {[rid]} ∪ ld_rids ld)
           (<[rid := rc]> (ld_rcs ld)) (ld_tickets ld) (ld_purge ld)) as ->.
  { unfold load_file, rc_entry. cbn [is_regular_file negb stem_rid extension content fst snd].
    destruct (rc_is_expired rc now) eqn:Ee.
    - destruct Hlater as [e ->]. done.
    - rewrite Hlater, Ee, Hrid. rewrite bool_decide_false by (intros Hc; by apply Hc).
      by rewrite (Hld rid) by (simpl; set_solver). }
  destruct (rc_is_expired rc now) eqn:Ee.
  - rewrite IH; [|done|intros r Hr; apply Hld; set_solver]. cbn [ld_rids ld_rcs ld_tickets ld_purge].
    rewrite filter_cons_False, filter_cons_True by (simpl; congruence). rewrite fmap_cons, <-app_assoc. done.
  - rewrite IH; [|done|].
    + cbn [ld_rids ld_rcs ld_tickets ld_purge]. rewrite filter_cons_True, filter_cons_False by (simpl; congruence).
      cbn [foldl fmap list_fmap fst snd]. f_equal. case_match; [done|]. simpl. set_solver.
    + intros r Hr. cbn [ld_rcs]. rewrite lookup_insert_ne by (intros ->; done). apply Hld. simpl. set_solver.
Qed.
End Restart.

(** C25. A restart: from a directory with the files of all the RCs of a
    well-formed store, in any order, [load_from_disk] restores exactly the RCs
    that have not expired, with right buckets, gives a client their router IDs,
    and removes the files of the expired ones. *)
Theorem load_from_disk_restores `{SodiumLaws} `{Oxenc} is_public BLOCK_BOGONS env netid now real_now
    rcs_order st files :
  store_wf st -> (forall m, rcs_order m ≡ₚ map_to_list m) ->
  files ≡ₚ map_to_list (known_rcs st) ->
  (forall rid rc, known_rcs st !! rid = Some rc ->
     exists now0, rc_load is_public BLOCK_BOGONS (rc_payload rc) netid false now0 = Ok rc) ->
  exists rids st' purge,
    load_from_disk is_public BLOCK_BOGONS env netid now real_now rcs_order (rc_entry <$> files)
      = Ok (rids, st', ∅, purge)
    /\ store_wf st'
    /\ known_rcs st' = filter (fun kv => rc_is_expired kv.2 now = false) (known_rcs st)
    /\ rids = (if is_service_node env then ∅ else dom (known_rcs st'))
    /\ purge = rc_entry <$> filter (fun kv => rc_is_expired kv.2 now = true) files.
Proof.
  intros Hwf Hord Hfiles Hload. unfold load_from_disk.
  set (live := filter (fun kv => rc_is_expired kv.2 now = false) files).
  assert (live ≡ₚ map_to_list (filter (fun kv => rc_is_expired kv.2 now = false) (known_rcs st))) as Hlive.
  { subst live. rewrite Hfiles, map_filter_alt. symmetry. apply map_to_list_to_map.
    eapply sublist_NoDup; [apply (NoDup_fst_map_to_list (known_rcs st))|apply filter_fst_sublist]. }
  rewrite load_rc_files.
  - cbn [ld_rcs ld_rids ld_tickets ld_purge app]. fold live.
    rewrite (foldl_insert_map_to_list _ _ Hlive).
    set (m := filter (fun kv => rc_is_expired kv.2 now = false) (known_rcs st)) in *.
    destruct (init_buckets_wf m (rcs_order m) []) as (st' & -> & Hk & Hwf'); [|apply Hord|].
    { intros rid rc [Hk _]%map_lookup_filter_Some. by apply (wf_rcs _ Hwf). }
    eexists _, st', _. split_and!; [done|done|done| |done].
    case_match; [done|]. rewrite Hk. apply set_eq. intros rid.
    rewrite elem_of_union, elem_of_list_to_set, elem_of_dom, list_elem_of_fmap. setoid_rewrite Hlive. split.
    + intros [([r c] & -> & Hin%elem_of_map_to_list)|Hin]; [by exists c|set_solver].
    + intros [c Hc]. left. exists (rid, c). split; [done|]. by apply elem_of_map_to_list.
  - apply Forall_forall. intros [rid rc] Hin. rewrite Hfiles in Hin. apply elem_of_map_to_list in Hin.
    split; [by apply (wf_rcs _ Hwf)|by eapply Hload].
  - rewrite Hfiles. apply NoDup_fst_map_to_list.
  - intros. apply lookup_empty.
Qed.

Lemma load_from_disk_restores_witness :
  exists rids st' purge,
    @load_from_disk toy bencode (fun _ => true) true StoreDemo.env 0 3000000 0 map_to_list
      (rc_entry <$> map_to_list (known_rcs StoreDemo.store2)) = Ok (rids, st', ∅, purge).
Proof.
  destruct (@load_from_disk_restores toy toy_laws bencode (fun _ => true) true StoreDemo.env 0 3000000 0
    map_to_list StoreDemo.store2 (map_to_list (known_rcs StoreDemo.store2))) as (rids & st' & purge & E & _).
  - exact StoreDemo.store2_wf.
  - reflexivity.
  - reflexivity.
  - assert (known_rcs StoreDemo.store2 =
      <[StoreDemo.rid 2 := StoreDemo.rc_of 2 2000]> {[StoreDemo.rid 1 := StoreDemo.rc_of 1 1000]}) as ->
      by (vm_compute; reflexivity).
    intros rid rc Hrc. exists 0. apply lookup_insert_Some in Hrc as [[_ <-]|[_ Hrc]]; [vm_compute; reflexivity|].
    apply lookup_singleton_Some in Hrc as [_ <-]. vm_compute. reflexivity.
  - exists rids, st', purge. exact E.
Defined.
