(* ===== verification/DnsWire.v ===== *)
(** * DNS wire format: names, integers and rdata

    The codec of dns/encode.cpp and dns/encode.hpp.  A [Writer] is the state of
    an encoder: the vector being filled, where the span [buf] starts, the map of
    names already written and [buf_offset]; an operation that throws leaves the
    state as it was at that point.  [name_at] is the format of RFC 1035, section
    4.1.4, that a receiver follows: labels, the root, and pointers to earlier
    names.  [encode_name_spec] relates the two. *)

From Stdlib Require Import ZArith Lia.
From stdpp Require Import base list numbers gmap strings.
From S2P Require Import Prelude Oxenc.

Open Scope router_scope.
Open Scope Z_scope.

Definition dot : Z := 46.
Definition out_of_range : string := "out_of_range".

(** ** Writing *)
Record Writer := mkWriter {
  w_tmp : bytes;
  w_pos : nat;
  w_names : gmap bytes Z;
  w_off : Z;
}.

(** [buf.size()] *)
Definition space (w : Writer) : nat := (length (w_tmp w) - w_pos w)%nat.

(** The bytes in front of [buf]. *)
Definition written (w : Writer) : bytes := take (w_pos w) (w_tmp w).

(** Copies [data] to the beginning of [buf] and takes it off [buf]. *)
Definition emit (data : bytes) (w : Writer) : Writer :=
  mkWriter (write_at (w_pos w) data (w_tmp w)) (w_pos w + length data) (w_names w) (w_off w).

(** [buf_offset += n] *)
Definition add_off (n : Z) (w : Writer) : Writer :=
  mkWriter (w_tmp w) (w_pos w) (w_names w) (wrap 16 (w_off w + n)).

Definition add_name (name : bytes) (off : Z) (w : Writer) : Writer :=
  mkWriter (w_tmp w) (w_pos w) (<[name := off]> (w_names w)) (w_off w).

(** Encoders as state and exception: [w] is what is left when one throws. *)
Definition wbind {A B} (m : Writer * outcome string A) (k : Writer -> A -> Writer * outcome string B)
    : Writer * outcome string B :=
  match m with
  | (w, Ok a) => k w a
  | (w, Throw e) => (w, Throw e)
  end.
Notation "'let*' ( w , x ) ':=' m 'in' k" := (wbind m (fun w x => k))
  (at level 10, w name, x pattern, m at level 100, k at level 200) : router_scope.

Section Encode.
Context `{Oxenc}.

Definition write_int_into (size : nat) (value : Z) (w : Writer) : Writer * outcome string unit :=
  if decide (space w < size)%nat then (w, Throw out_of_range)
  else (emit (write_host_as_big size value) w, Ok tt).

(** [write_ints_into]: sizes and values, from left to right. *)
Fixpoint write_ints_into (values : list (nat * Z)) (w : Writer) : Writer * outcome string unit :=
  match values with
  | [] => (w, Ok tt)
  | (size, value) :: values =>
      let* (w, _) := write_int_into size value w in write_ints_into values w
  end.

(** [buf_offset += write_ints_into(buf, values...)] *)
Definition write_ints_counted (values : list (nat * Z)) (w : Writer) : Writer * outcome string unit :=
  let* (w, _) := write_ints_into values w in
  (add_off (Z.of_nat (sum_list (values.*1))) w, Ok tt).

(** *** Names

    [s.find('.')], as what is before the dot and after it. *)
Fixpoint break_dot (s : bytes) : bytes * option bytes :=
  match s with
  | [] => ([], None)
  | c :: s => if c =? dot then ([], Some s) else let '(a, b) := break_dot s in (c :: a, b)
  end.

(** One turn of the loop of [encode_name] for [check = name.substr(pos)]: [part],
    which ends at the first dot after its first character, and the next [check]. *)
Definition split_part (check : bytes) : bytes * option bytes :=
  match check with
  | [] => ([], None)
  | c :: s => let '(a, b) := break_dot s in (c :: a, b)
  end.

(** The pairs ([check], [part]) the loop goes through. *)
Fixpoint parts_loop (fuel : nat) (check : bytes) : list (bytes * bytes) :=
  match fuel with
  | O => []
  | S fuel =>
      let '(part, next) := split_part check in
      (check, part) :: match next with Some check => parts_loop fuel check | None => [] end
  end.

Definition name_parts (name : bytes) : list (bytes * bytes) := parts_loop (S (length name)) name.

(** [if (name.size() && name.back() == '.') name.remove_suffix(1)] *)
Definition strip_dot (name : bytes) : bytes :=
  if bool_decide (last name = Some dot) then removelast name else name.

(** The loop; [track] is whether [prev_names] and [buf_offset] are given.  The
    result is whether it returned from the function after writing a pointer. *)
Fixpoint encode_parts (track : bool) (parts : list (bytes * bytes)) (w : Writer) : Writer * outcome string bool :=
  match parts with
  | [] => (w, Ok false)
  | (check, part) :: parts =>
      match (if track then w_names w !! check else None) with
      | Some off =>
          if decide (space w < 2)%nat then (w, Throw out_of_range)
          else (add_off 2 (emit (write_host_as_big 2 (wrap 16 (Z.lor 49152 off))) w), Ok true)
      | None =>
          if decide (63 < length part \/ space w <= length part)%nat then (w, Throw out_of_range)
          else
            let w' := emit (Z.of_nat (length part) :: part) w in
            let w' := if track then add_off (1 + Z.of_nat (length part)) (add_name check (w_off w) w') else w' in
            encode_parts track parts w'
      end
  end.

(** What follows the loop: a null byte, unless it ended in a pointer. *)
Definition end_name (track pointer : bool) (w : Writer) : Writer * outcome string unit :=
  if pointer then (w, Ok tt)
  else if decide (space w = 0)%nat then (w, Throw out_of_range)
  else let w := emit [0] w in (if track then add_off 1 w else w, Ok tt).

Definition encode_name (track : bool) (name : bytes) (w : Writer) : Writer * outcome string unit :=
  let name := strip_dot name in
  let* (w, pointer) := encode_parts track (if bool_decide (name = []) then [] else name_parts name) w in
  end_name track pointer w.

(** ** Reading: each reader returns what is left of the span *)

(** The loop of [extract_name]. *)
Fixpoint name_loop (fuel : nat) (b name : bytes) : option (bytes * bytes) :=
  match fuel with
  | O => None
  | S fuel =>
      match b with
      | [] => None
      | len :: b =>
          if len =? 0 then Some (name, b)
          else if decide (length b <= Z.to_nat len)%nat then None
          else name_loop fuel (drop (Z.to_nat len) b) (name ++ take (Z.to_nat len) b ++ [dot])
      end
  end.

Definition extract_name (buf : bytes) : option (bytes * bytes) :=
  match name_loop (S (length buf)) buf [] with
  | Some (name, rest) => Some (if bool_decide (name = []) then [dot] else name, rest)
  | None => None
  end.

(** The loop of [extract_name_data]: the number of bytes of the encoded name. *)
Fixpoint name_data_loop (fuel : nat) (p : bytes) (n : nat) : option nat :=
  match fuel with
  | O => None
  | S fuel =>
      match p with
      | [] => None
      | len :: p =>
          if 63 <? len then match p with [] => None | _ :: _ => Some (n + 2)%nat end
          else if len =? 0 then Some (n + 1)%nat
          else if decide (length p <= Z.to_nat len)%nat then None
          else name_data_loop fuel (drop (Z.to_nat len) p) (n + 1 + Z.to_nat len)%nat
      end
  end.

Definition extract_name_data (buf : bytes) : option (bytes * bytes) :=
  match name_data_loop (S (length buf)) buf 0 with
  | Some n => Some (take n buf, drop n buf)
  | None => None
  end.

Definition extract_int (size : nat) (buf : bytes) : option (Z * bytes) :=
  if decide (length buf < size)%nat then None else Some (load_big_to_host size buf, drop size buf).

Fixpoint extract_each (sizes : list nat) (buf : bytes) : option (list Z * bytes) :=
  match sizes with
  | [] => Some ([], buf)
  | size :: sizes =>
      match extract_int size buf with
      | Some (v, buf) =>
          match extract_each sizes buf with
          | Some (vs, buf) => Some (v :: vs, buf)
          | None => None
          end
      | None => None
      end
  end.

Definition extract_ints (sizes : list nat) (buf : bytes) : option (list Z * bytes) :=
  if decide (length buf < sum_list sizes)%nat then None else extract_each sizes buf.
End Encode.

(** ** The format a receiver reads (RFC 1035, section 4.1.4)

    [name_at msg off labels e]: at [off] the message holds a name with these
    labels, and the name's own bytes end at [e]. *)
Inductive name_at (msg : bytes) : nat -> list bytes -> nat -> Prop :=
| name_root off : msg !! off = Some 0 -> name_at msg off [] (off + 1)
| name_label off label labels e :
    (1 <= length label <= 63)%nat -> msg !! off = Some (Z.of_nat (length label)) ->
    subspan (off + 1) (length label) msg = label ->
    name_at msg (off + 1 + length label) labels e -> name_at msg off (label :: labels) e
| name_pointer off p labels e :
    0 <= p < 16384 -> subspan off 2 msg = be_bytes 2 (49152 + p) ->
    name_at msg (Z.to_nat p) labels e -> name_at msg off labels (off + 2).

(** The labels of a dotted name, with or without the dot at the end. *)
Definition labels (name : bytes) : list bytes :=
  let name := strip_dot name in if bool_decide (name = []) then [] else (name_parts name).*2.

(** A name without an empty label. *)
Definition name_ok (name : bytes) : Prop := Forall (fun l => l <> []) (labels name).

Definition expansion (check : bytes) : list bytes := (name_parts check).*2.

(** *** The parts of a name *)
Lemma break_dot_length s a r : break_dot s = (a, Some r) -> (length r < length s)%nat.
Proof.
  revert a. induction s as [|c s IH]; intros a; simpl; [done|].
  destruct (c =? dot); [intros [= <- <-]; lia|]. destruct (break_dot s) as [a' b] eqn:E.
  intros [= <- ->]. specialize (IH _ eq_refl). lia.
Qed.

Lemma split_part_length s a r : split_part s = (a, Some r) -> (S (length r) < length s)%nat.
Proof.
  destruct s as [|c s]; simpl; [done|]. destruct (break_dot s) as [a' b] eqn:E. intros [= <- ->].
  apply break_dot_length in E. lia.
Qed.

(** Any fuel above the length gives the whole list. *)
Lemma parts_loop_fuel fuel check : (length check < fuel)%nat -> parts_loop fuel check = name_parts check.
Proof.
  unfold name_parts. remember (S (length check)) as fuel' eqn:E. assert (length check < fuel')%nat as Hf by lia.
  clear E. revert fuel' check Hf. induction fuel as [|fuel IH]; intros [|fuel'] check Hf Hl; try lia.
  cbn [parts_loop]. destruct (split_part check) as [part [r|]] eqn:E; [|done].
  apply split_part_length in E. f_equal. apply IH; lia.
Qed.

Lemma name_parts_eq check :
  name_parts check = (check, (split_part check).1) ::
    match (split_part check).2 with Some r => name_parts r | None => [] end.
Proof.
  unfold name_parts at 1. cbn [parts_loop]. destruct (split_part check) as [part [r|]] eqn:E; [|done].
  cbn [fst snd]. f_equal. apply parts_loop_fuel. apply split_part_length in E. lia.
Qed.

(** The list of the turns of a loop that starts at [check]: it is [name_parts] of its head. *)
Lemma name_parts_tail check part parts :
  name_parts check = (check, part) :: parts -> parts = [] \/ exists c, parts = name_parts c /\ (length c < length check)%nat.
Proof.
  rewrite name_parts_eq. destruct (split_part check) as [p [r|]] eqn:E; cbn [fst snd]; intros [= -> <-]; [|by left].
  right. exists r. split; [done|]. apply split_part_length in E. lia.
Qed.

Lemma name_parts_shorter check c p : (c, p) ∈ name_parts check -> (length c <= length check)%nat.
Proof.
  remember (length check) as n eqn:E. revert check E. induction n as [n IH] using lt_wf_ind. intros check ->.
  rewrite name_parts_eq. destruct (split_part check) as [p' [r|]] eqn:Es; cbn [fst snd]; rewrite elem_of_cons.
  - apply split_part_length in Es. intros [[= -> ->]|Hc]; [lia|].
    specialize (IH (length r) ltac:(lia) r eq_refl Hc). lia.
  - intros [[= -> ->]|Hc]; [lia|]. by apply elem_of_nil in Hc.
Qed.

(** *** Writers *)
Definition w_wf (w : Writer) : Prop :=
  (w_pos w <= length (w_tmp w))%nat /\ Z.of_nat (length (w_tmp w)) < 65536 /\ w_off w = Z.of_nat (w_pos w).

(** What writing does to a writer: the vector keeps its size and what was written. *)
Definition grows (w w' : Writer) : Prop :=
  length (w_tmp w') = length (w_tmp w) /\ (w_pos w <= w_pos w' <= length (w_tmp w))%nat
  /\ written w `prefix_of` written w'.

Lemma length_written w : (w_pos w <= length (w_tmp w))%nat -> length (written w) = w_pos w.
Proof. intros. unfold written. rewrite length_take. lia. Qed.

Lemma written_emit d w :
  (length d <= space w)%nat -> (w_pos w <= length (w_tmp w))%nat -> written (emit d w) = written w ++ d.
Proof.
  unfold space, written, emit, write_at. cbn [w_pos w_tmp]. intros.
  assert (length (take (w_pos w) (w_tmp w)) = w_pos w) as L by (rewrite length_take; lia).
  rewrite app_assoc, take_app_length' by (rewrite length_app; lia). done.
Qed.

Lemma length_emit d w : (length d <= space w)%nat -> (w_pos w <= length (w_tmp w))%nat ->
  length (w_tmp (emit d w)) = length (w_tmp w).
Proof. unfold space, emit. cbn. intros. apply length_write_at. lia. Qed.

Lemma grows_refl w : (w_pos w <= length (w_tmp w))%nat -> grows w w.
Proof. repeat split; (lia || done). Qed.

Lemma grows_trans w1 w2 w3 : grows w1 w2 -> grows w2 w3 -> grows w1 w3.
Proof. intros (? & ? & ?) (? & ? & ?). repeat split; [congruence|lia|lia|by etrans]. Qed.

Lemma emit_grows d w : (length d <= space w)%nat -> (w_pos w <= length (w_tmp w))%nat -> grows w (emit d w).
Proof.
  intros H1 H2. split; [by apply length_emit|]. split; [unfold space in H1; cbn; lia|].
  rewrite written_emit by done. by apply prefix_app_r.
Qed.

Lemma name_at_mono msg msg' off ls e : msg `prefix_of` msg' -> name_at msg off ls e -> name_at msg' off ls e.
Proof.
  intros [x ->]. induction 1 as [off Hb|off label labels e Hl Hb Hs Hn IH|off p labels e Hp Hs Hn IH].
  - constructor. by apply lookup_app_l_Some.
  - constructor; [done|by apply lookup_app_l_Some| |done].
    assert (off + 1 + length label <= length msg)%nat.
    { apply (f_equal length) in Hs. unfold subspan in Hs. rewrite length_take, length_drop in Hs. lia. }
    rewrite <-Hs at 2. unfold subspan. rewrite drop_app_le, take_app_le; [done|rewrite length_drop; lia|lia].
  - econstructor; [done| |done]. rewrite <-Hs. unfold subspan.
    assert (off + 2 <= length msg)%nat.
    { apply (f_equal length) in Hs. unfold subspan in Hs.
      rewrite length_take, length_drop, length_be_bytes in Hs. lia. }
    rewrite drop_app_le, take_app_le; [done|rewrite length_drop; lia|lia].
Qed.

(** *** Compressed names *)

(** Every recorded name, except those in [P], is where the map says. *)
Definition names_ok (P : bytes -> Prop) (w : Writer) : Prop :=
  forall check off, w_names w !! check = Some off -> ~ P check ->
    0 <= off < 16384 /\ exists e, name_at (written w) (Z.to_nat off) (expansion check) e.

(** The turns of a loop that starts somewhere in a name. *)
Definition is_parts (parts : list (bytes * bytes)) : Prop :=
  parts = [] \/ exists check, parts = name_parts check.

Lemma is_parts_tail check part parts :
  is_parts ((check, part) :: parts) ->
  is_parts parts /\ expansion check = part :: parts.*2
  /\ forall c p, (c, p) ∈ parts -> (length c < length check)%nat.
Proof.
  intros [?|[c0 Hc]]; [done|]. pose proof Hc as Hc'. rewrite name_parts_eq in Hc'.
  injection Hc' as <- _ _. split_and!.
  - destruct (name_parts_tail _ _ _ (eq_sym Hc)) as [?|(c & -> & _)]; [by left|right; eauto].
  - unfold expansion. by rewrite <-Hc.
  - intros c p Hin. destruct (name_parts_tail _ _ _ (eq_sym Hc)) as [->|(c' & -> & Hl)]; [by apply elem_of_nil in Hin|].
    apply name_parts_shorter in Hin. lia.
Qed.

Lemma names_ok_grows P w w' :
  grows w w' -> w_names w' = w_names w -> names_ok P w -> names_ok P w'.
Proof.
  intros (_ & _ & Hp) Hn Hok c o Hc HP. rewrite Hn in Hc. destruct (Hok c o Hc HP) as [? [e He]].
  split; [done|]. exists e. by eapply name_at_mono.
Qed.

Lemma written_add_off n w : written (add_off n w) = written w.
Proof. done. Qed.
Lemma written_add_name c o w : written (add_name c o w) = written w.
Proof. done. Qed.

Lemma lookup_written_app w d i b rest :
  (w_pos w <= length (w_tmp w))%nat -> (length d <= space w)%nat -> d !! i = Some b ->
  written (emit d w) `prefix_of` rest -> rest !! (w_pos w + i)%nat = Some b.
Proof.
  intros Hw Hd Hb [x ->]. rewrite written_emit, <-app_assoc by done.
  rewrite lookup_app_r by (rewrite length_written by done; lia).
  rewrite length_written by done. replace (w_pos w + i - w_pos w)%nat with i by lia. by apply lookup_app_l_Some.
Qed.

Lemma subspan_written_app w a b rest :
  (w_pos w <= length (w_tmp w))%nat -> (length (a ++ b) <= space w)%nat ->
  written (emit (a ++ b) w) `prefix_of` rest -> subspan (w_pos w + length a) (length b) rest = b.
Proof.
  intros Hw Hd [x ->]. rewrite written_emit, <-!app_assoc by done. rewrite (app_assoc (written w)).
  apply subspan_app; [|done]. rewrite length_app, length_written by done. lia.
Qed.

(** The two bits of a pointer are above any offset it can hold. *)
Lemma pointer_bits off : 0 <= off < 16384 -> Z.lor 49152 off = 49152 + off.
Proof.
  intros Hoff. assert (Z.land 49152 off = 0) as Hland.
  { rewrite <-(Z.mod_small off (2 ^ 14)) by lia. rewrite <-Z.land_ones by lia.
    rewrite (Z.land_comm off), Z.land_assoc. change (Z.land 49152 (Z.ones 14)) with 0. apply Z.land_0_l. }
  rewrite Z.add_nocarry_lxor by done. by rewrite <-Z.lxor_lor.
Qed.

Section EncodeProofs.
Context `{OxencLaws}.

Lemma add_off_wf d w :
  w_wf w -> (length d <= space w)%nat -> w_wf (add_off (Z.of_nat (length d)) (emit d w)).
Proof.
  intros (H1' & H2' & H3') Hd. unfold w_wf. cbn [add_off w_pos w_tmp w_off].
  rewrite length_emit by done. unfold space in Hd. cbn [emit w_pos w_off]. rewrite H3'.
  unfold wrap. rewrite Z.mod_small by lia. split_and!; lia.
Qed.

(** A pointer to a recorded name stands for that name. *)
Lemma emit_pointer_spec P check off w :
  w_wf w -> names_ok P w -> (2 <= space w)%nat -> w_names w !! check = Some off -> ~ P check ->
  let w' := add_off 2 (emit (write_host_as_big 2 (wrap 16 (Z.lor 49152 off))) w) in
  w_wf w' /\ grows w w' /\ names_ok P w' /\ name_at (written w') (w_pos w) (expansion check) (w_pos w').
Proof.
  intros Hw Hok Hs Hl HP. pose proof Hw as (? & ? & ?). destruct (Hok check off Hl HP) as (Hoff & e & Hn).
  rewrite write_big_spec. set (d := be_bytes 2 _). assert (length d = 2%nat) as Ld by apply length_be_bytes.
  assert (grows w (emit d w)) as Hg by (apply emit_grows; lia).
  cbv zeta. split_and!; [|done|by eapply names_ok_grows|].
  - change 2 with (Z.of_nat 2). rewrite <-Ld. apply add_off_wf; [done|lia].
  - rewrite written_add_off. cbn [add_off emit w_pos]. rewrite Ld.
    eapply name_pointer; [exact Hoff| |eapply name_at_mono; [apply Hg|exact Hn]].
    rewrite <-(Z.mod_small (49152 + off) (2 ^ 16)), <-pointer_bits by lia.
    change (subspan (w_pos w) 2 (written (emit d w)) = d).
    rewrite <-(Nat.add_0_r (w_pos w)), <-Ld at 1. by apply (subspan_written_app w [] d); [|cbn [app]; lia|].
Qed.

(** A label, recorded and written, in front of the rest of a name. *)
Lemma emit_label_spec check part w (w2 := add_off (1 + Z.of_nat (length part))
    (add_name check (w_off w) (emit (Z.of_nat (length part) :: part) w))) :
  w_wf w -> (length part < space w)%nat -> w_names w !! check = None ->
  w_wf w2 /\ grows w w2 /\ w_pos w2 = (w_pos w + 1 + length part)%nat
  /\ w_names w ⊆ w_names w2 /\ w_names w2 !! check = Some (Z.of_nat (w_pos w))
  /\ forall msg ls e, (1 <= length part <= 63)%nat -> written w2 `prefix_of` msg ->
       name_at msg (w_pos w2) ls e -> name_at msg (w_pos w) (part :: ls) e.
Proof.
  intros Hw Hs Hnone. pose proof Hw as (? & ? & Hoff). set (d := Z.of_nat (length part) :: part) in *.
  assert (length d = S (length part)) as Ld by done.
  assert (grows w (emit d w)) as Hg by (apply emit_grows; lia).
  assert (w_pos w2 = w_pos w + 1 + length part)%nat as Hpos by (cbn; lia).
  split_and!; try done.
  - subst w2. replace (1 + Z.of_nat (length part)) with (Z.of_nat (length d)) by lia. apply (add_off_wf d); [done|lia].
  - by apply insert_subseteq.
  - cbn. by rewrite lookup_insert_eq, Hoff.
  - intros msg ls e Hl Hpre Hn. apply name_label; [done| | |by rewrite <-Hpos].
    + rewrite <-(Nat.add_0_r (w_pos w)). by eapply (lookup_written_app w d); [done|lia|..].
    + by apply (subspan_written_app w [Z.of_nat (length part)] part); [|cbn [length app] in *; lia|].
Qed.

(** The end of a name, from any turn of the loop on: the written bytes hold the
    rest of the name, and the names recorded on the way are right. *)
Lemma encode_tail_spec P parts w w1 ptr w' :
  w_wf w -> is_parts parts -> Forall (fun l => l <> []) parts.*2 ->
  (forall c p, (c, p) ∈ parts -> ~ P c) -> names_ok P w ->
  encode_parts true parts w = (w1, Ok ptr) -> end_name true ptr w1 = (w', Ok tt) ->
  Z.of_nat (w_pos w') <= 16384 ->
  w_wf w' /\ grows w w' /\ names_ok P w' /\ name_at (written w') (w_pos w) parts.*2 (w_pos w')
  /\ w_names w ⊆ w_names w'.
Proof.
  revert P w. induction parts as [|[check part] parts IH]; intros P w Hw Hparts Hne HP Hok Hp He Hsize.
  - cbn in Hp. injection Hp as <- <-. unfold end_name in He. destruct (decide _) as [|Hs]; [done|].
    injection He as <-. pose proof Hw as (? & ? & ?). assert (length [0] <= space w)%nat by (simpl; lia).
    assert (grows w (emit [0] w)) as Hg by (by apply emit_grows).
    split_and!; [by apply (add_off_wf [0])|done|by eapply names_ok_grows| |done].
    apply name_root. rewrite <-(Nat.add_0_r (w_pos w)). by eapply (lookup_written_app w [0]).
  - destruct (is_parts_tail _ _ _ Hparts) as (Htail & Hexp & Hshort).
    cbn [fmap list_fmap snd] in Hne |- *. apply Forall_cons in Hne as [Hpart Hne].
    cbn [encode_parts] in Hp. destruct (w_names w !! check) as [off|] eqn:Hl; (destruct (decide _) as [|Hs]; [done|]).
    + injection Hp as <- <-. injection He as <-.
      destruct (emit_pointer_spec P check off w) as (? & ? & ? & ?); [done|done|lia|done|apply (HP check part); set_solver|].
      rewrite <-Hexp. done.
    + apply Decidable.not_or in Hs. destruct (emit_label_spec check part w) as (Hw2 & Hg2 & Hpos & Hsub & Hin & Hlab); [done|lia|done|].
      cbv zeta in Hp. set (w2 := add_off _ _) in *.
      destruct (IH (fun c => P c \/ c = check) w2) as (Hw' & Hg' & Hok' & Hn' & Hsub'); try done.
      * intros c p Hc [Hc'| ->]; [by eapply HP; [right|]|]. specialize (Hshort _ _ Hc). lia.
      * intros c o Hc Hex. cbn [w_names w2 add_off add_name] in Hc. rewrite lookup_insert_ne in Hc by naive_solver.
        destruct (Hok c o Hc) as [? [e He']]; [naive_solver|]. split; [done|]. exists e. by eapply name_at_mono; [apply Hg2|].
      * apply (Hlab (written w')) in Hn'; [|destruct part; [done|simpl in *; lia]|apply Hg'].
        split_and!; [done|by eapply grows_trans| |done|by etrans].
        intros c o Hc HPc. destruct (decide (c = check)) as [->|Hne']; [|apply Hok'; [done|naive_solver]].
        eapply lookup_weaken in Hin; [|exact Hsub']. assert (o = Z.of_nat (w_pos w)) as -> by congruence.
        destruct Hg' as (_ & Hlt & _). rewrite Hpos in Hlt. rewrite Nat2Z.id, Hexp. split; [lia|eauto].
Qed.

(** [encode_name] with compression: what a receiver reads at the place of the
    name is the name, and all names recorded so far can be pointed to. *)
Lemma encode_name_spec name w w' :
  w_wf w -> name_ok name -> names_ok (fun _ => False) w ->
  encode_name true name w = (w', Ok tt) -> Z.of_nat (w_pos w') <= 16384 ->
  w_wf w' /\ grows w w' /\ names_ok (fun _ => False) w'
  /\ name_at (written w') (w_pos w) (labels name) (w_pos w').
Proof.
  unfold name_ok, encode_name, labels. intros Hw Hne Hok. set (parts := if bool_decide _ then [] else name_parts _).
  assert ((if bool_decide (strip_dot name = []) then [] else (name_parts (strip_dot name)).*2) = parts.*2) as E.
  { subst parts. by case_bool_decide. }
  rewrite E in *. destruct (encode_parts true parts w) as [w1 [ptr|]] eqn:Hp; [|done]. cbn [wbind]. intros He Hsize.
  destruct (encode_tail_spec (fun _ => False) parts w w1 ptr w') as (? & ? & ? & ? & ?); try done; [|naive_solver].
  subst parts. case_bool_decide; [by left|right; eauto].
Qed.
End EncodeProofs.

(** ** Names without compression *)

(** A name on the wire, and as extracted: its labels each with a dot after it. *)
Definition flat (ls : list bytes) : bytes := mbind (fun l => Z.of_nat (length l) :: l) ls ++ [0].
Definition dots (ls : list bytes) : bytes := mbind (fun l => l ++ [dot]) ls.
Definition dotted (ls : list bytes) : bytes := if bool_decide (ls = []) then [dot] else dots ls.

(** Labels that survive both notations. *)
Definition good_label (l : bytes) : Prop := (1 <= length l <= 63)%nat /\ dot ∉ l.

Lemma flat_cons l ls rest : flat (l :: ls) ++ rest = Z.of_nat (length l) :: l ++ flat ls ++ rest.
Proof. unfold flat. cbn [mbind list_bind]. simpl. by rewrite <-!app_assoc. Qed.

Lemma length_flat_cons l ls : length (flat (l :: ls)) = S (length l + length (flat ls)).
Proof. rewrite <-(app_nil_r (flat (l :: ls))), flat_cons, app_nil_r. cbn [length]. by rewrite length_app. Qed.

(** [extract_name] reads a name exactly when one is there; the fuel is enough. *)
Lemma name_loop_flat ls fuel name rest :
  (length (flat ls) <= fuel)%nat -> Forall (fun l => 1 <= length l)%nat ls ->
  name_loop fuel (flat ls ++ rest) name = Some (name ++ dots ls, rest).
Proof.
  revert fuel name. induction ls as [|l ls IH]; intros [|fuel] name Hf Hls.
  - simpl in Hf. lia.
  - cbn. by rewrite app_nil_r.
  - rewrite length_flat_cons in Hf. lia.
  - rewrite length_flat_cons in Hf. apply Forall_cons in Hls as [Hl Hls].
    rewrite flat_cons. cbn [name_loop]. destruct (Z.eqb_spec (Z.of_nat (length l)) 0); [lia|].
    rewrite Nat2Z.id. destruct (decide _) as [Hle|_].
    { rewrite !length_app in Hle. assert (0 < length (flat ls))%nat by (unfold flat; rewrite length_app; simpl; lia). lia. }
    rewrite take_app_length, drop_app_length, IH by (done || lia). cbn [dots mbind list_bind].
    by rewrite <-!app_assoc.
Qed.

Lemma name_loop_sound fuel b name n rest :
  is_bytes b -> name_loop fuel b name = Some (n, rest) ->
  exists ls, Forall (fun l => 1 <= length l)%nat ls /\ b = flat ls ++ rest /\ n = name ++ dots ls.
Proof.
  revert b name. induction fuel as [|fuel IH]; intros [|len b] name Hb; cbn [name_loop]; try done.
  apply Forall_cons in Hb as [Hlen Hb]. unfold is_byte in Hlen. destruct (Z.eqb_spec len 0) as [->|Hnz].
  - intros [= <- <-]. exists []. cbn. by rewrite app_nil_r.
  - destruct (decide _) as [|Hle]; [done|]. intros (ls & Hls & Hd & ->)%IH; [|by apply Forall_drop].
    assert (length (take (Z.to_nat len) b) = Z.to_nat len) as Lt by (rewrite length_take; lia).
    exists (take (Z.to_nat len) b :: ls). split; [constructor; [lia|done]|]. split.
    + rewrite flat_cons, Lt, <-Hd, take_drop, Z2Nat.id by lia. done.
    + cbn [dots mbind list_bind]. by rewrite <-!app_assoc.
Qed.

Lemma length_flat_le ls rest : (length (flat ls) <= length (flat ls ++ rest))%nat.
Proof. rewrite length_app. lia. Qed.

Lemma dots_nil ls : dots ls = [] <-> ls = [].
Proof. destruct ls as [|l ls]; [done|]. cbn. split; [|done]. by destruct l. Qed.

Lemma extract_name_flat ls rest :
  Forall (fun l => 1 <= length l)%nat ls -> extract_name (flat ls ++ rest) = Some (dotted ls, rest).
Proof.
  intros Hls. unfold extract_name. rewrite name_loop_flat by (done || (pose proof (length_flat_le ls rest); lia)).
  cbn [app]. unfold dotted. by rewrite (bool_decide_ext _ _ (dots_nil ls)).
Qed.

Lemma extract_name_sound b n rest :
  is_bytes b -> extract_name b = Some (n, rest) ->
  exists ls, Forall (fun l => 1 <= length l)%nat ls /\ b = flat ls ++ rest /\ n = dotted ls.
Proof.
  intros Hb. unfold extract_name. destruct (name_loop _ _ _) as [[n' r]|] eqn:E; [|done].
  apply name_loop_sound in E as (ls & Hls & Hd & ->); [|done]. intros [= <- <-]. exists ls. split_and!; try done.
  cbn [app]. unfold dotted. by rewrite (bool_decide_ext _ _ (dots_nil ls)).
Qed.

Lemma name_data_loop_flat ls fuel n rest :
  (length (flat ls) <= fuel)%nat -> Forall (fun l => 1 <= length l <= 63)%nat ls ->
  name_data_loop fuel (flat ls ++ rest) n = Some (n + length (flat ls))%nat.
Proof.
  revert fuel n. induction ls as [|l ls IH]; intros [|fuel] n Hf Hls.
  - simpl in Hf. lia.
  - done.
  - rewrite length_flat_cons in Hf. lia.
  - rewrite length_flat_cons in Hf |- *. apply Forall_cons in Hls as [Hl Hls].
    rewrite flat_cons. cbn [name_data_loop]. destruct (Z.ltb_spec 63 (Z.of_nat (length l))); [lia|].
    destruct (Z.eqb_spec (Z.of_nat (length l)) 0); [lia|]. rewrite Nat2Z.id. destruct (decide _) as [Hle|_].
    { rewrite !length_app in Hle. assert (0 < length (flat ls))%nat by (unfold flat; rewrite length_app; simpl; lia). lia. }
    rewrite drop_app_length, IH by (done || lia). f_equal. lia.
Qed.

(** *** From labels to a dotted name and back *)
Lemma break_dot_app l s : dot ∉ l -> break_dot (l ++ dot :: s) = (l, Some s).
Proof.
  induction l as [|c l IH]; intros Hl; simpl; [done|]. destruct (Z.eqb_spec c dot); [set_solver|].
  by rewrite IH by set_solver.
Qed.

Lemma break_dot_none l : dot ∉ l -> break_dot l = (l, None).
Proof.
  induction l as [|c l IH]; intros Hl; simpl; [done|]. destruct (Z.eqb_spec c dot); [set_solver|].
  by rewrite IH by set_solver.
Qed.

Lemma strip_dot_snoc s : strip_dot (s ++ [dot]) = s.
Proof. unfold strip_dot. rewrite last_snoc, bool_decide_true by done. apply removelast_last. Qed.

Lemma strip_dot_last s c : last s = Some c -> c <> dot -> strip_dot s = s.
Proof. intros Hl Hc. unfold strip_dot. rewrite Hl, bool_decide_false by congruence. done. Qed.

(** The labels with dots in between. *)
Fixpoint joined (ls : list bytes) : bytes :=
  match ls with
  | [] => []
  | [l] => l
  | l :: ls => l ++ dot :: joined ls
  end.

Lemma dots_joined ls : ls <> [] -> dots ls = joined ls ++ [dot].
Proof.
  induction ls as [|l [|l2 ls] IH]; [done|..]; intros _.
  - cbn. by rewrite app_nil_r.
  - change (joined (l :: l2 :: ls)) with (l ++ dot :: joined (l2 :: ls)).
    change (dots (l :: l2 :: ls)) with ((l ++ [dot]) ++ dots (l2 :: ls)).
    rewrite IH by done. by rewrite <-!app_assoc.
Qed.

Lemma name_parts_joined ls : ls <> [] -> Forall good_label ls -> (name_parts (joined ls)).*2 = ls.
Proof.
  induction ls as [|l [|l2 ls] IH]; [done|..]; intros _ [[Hlen Hdot] Hls]%Forall_cons.
  - rewrite name_parts_eq. cbn [joined]. destruct l as [|c l]; [simpl in Hlen; lia|].
    cbn [split_part]. rewrite break_dot_none by set_solver. done.
  - rewrite name_parts_eq. change (joined (l :: l2 :: ls)) with (l ++ dot :: joined (l2 :: ls)).
    destruct l as [|c l]; [simpl in Hlen; lia|]. cbn [app split_part]. rewrite break_dot_app by set_solver.
    cbn [fst snd fmap list_fmap]. f_equal. by apply IH.
Qed.

Lemma joined_last ls : ls <> [] -> Forall good_label ls -> exists c, last (joined ls) = Some c /\ c <> dot.
Proof.
  induction ls as [|l [|l2 ls] IH]; [done|..]; intros _ [[Hlen Hdot] Hls]%Forall_cons.
  - cbn [joined]. destruct (last l) as [c|] eqn:E; [|apply last_None in E; subst; simpl in Hlen; lia].
    exists c. split; [done|]. intros ->. apply Hdot. apply last_Some in E as [l' ->]. set_solver.
  - destruct IH as (c & Hc & Hne); [done..|]. exists c. split; [|done].
    change (joined (l :: l2 :: ls)) with (l ++ dot :: joined (l2 :: ls)).
    rewrite last_app, last_cons, Hc. done.
Qed.

Lemma labels_strip_dotted ls :
  Forall good_label ls -> labels (dotted ls) = ls /\ labels (strip_dot (dotted ls)) = ls.
Proof.
  intros Hls. unfold dotted. case_bool_decide as E; [by subst|]. rewrite dots_joined, strip_dot_snoc by done.
  destruct (joined_last ls) as (c & Hc & Hne); [done..|].
  assert (joined ls <> []) by (intros E'; by rewrite E' in Hc).
  unfold labels. rewrite strip_dot_snoc, (strip_dot_last _ c) by done.
  rewrite bool_decide_false by done. by rewrite name_parts_joined.
Qed.

Section PlainProofs.
Context `{OxencLaws}.

(** Without a name to point to, a name is written label by label. *)
Lemma encode_parts_flat track parts w :
  is_parts parts -> (w_pos w <= length (w_tmp w))%nat ->
  (track = true -> forall c p, (c, p) ∈ parts -> w_names w !! c = None) ->
  Forall (fun l => length l <= 63)%nat parts.*2 -> (length (flat parts.*2) <= space w)%nat ->
  exists w', encode_parts track parts w = (w', Ok false) /\ grows w w'
    /\ written w' = written w ++ mbind (fun l => Z.of_nat (length l) :: l) parts.*2.
Proof.
  revert w. induction parts as [|[check part] parts IH]; intros w Hparts Hpos Hn Hl Hsp.
  - exists w. split; [done|]. split; [by apply grows_refl|]. cbn. by rewrite app_nil_r.
  - destruct (is_parts_tail _ _ _ Hparts) as (Htail & _ & Hshort).
    cbn [fmap list_fmap snd] in *. apply Forall_cons in Hl as [Hp Hl]. rewrite length_flat_cons in Hsp.
    assert (0 < length (flat parts.*2))%nat by (unfold flat; rewrite length_app; simpl; lia).
    set (d := Z.of_nat (length part) :: part). assert (length d = S (length part)) by done.
    cbn [encode_parts]. assert ((if track then w_names w !! check else None) = None) as ->.
    { destruct track; [|done]. apply (Hn eq_refl check part). set_solver. }
    destruct (decide _) as [[?|?]|_]; [lia..|]. fold d. set (w2 := if track then _ else _).
    assert (grows w w2) as Hg by (destruct track; apply (emit_grows d w); lia).
    assert (w_pos w2 = (w_pos w + length d)%nat) as Hp2 by (by destruct track).
    assert (written w2 = written w ++ d) as Hw2 by (destruct track; apply (written_emit d w); lia).
    destruct (IH w2) as (w' & -> & Hg' & Hw').
    + done.
    + destruct Hg as (? & ? & _). lia.
    + intros Ht c p Hc. specialize (Hshort _ _ Hc). subst w2 track. cbn [add_off add_name w_names emit].
      rewrite lookup_insert_ne by (intros ->; lia). apply (Hn eq_refl c p). set_solver.
    + done.
    + destruct Hg as (? & ? & _). unfold space in *. lia.
    + exists w'. split; [done|]. split; [by eapply grows_trans|]. rewrite Hw', Hw2, <-app_assoc. done.
Qed.

Lemma encode_name_flat track name w :
  (w_pos w <= length (w_tmp w))%nat -> (track = true -> w_names w = ∅) ->
  Forall (fun l => length l <= 63)%nat (labels name) -> (length (flat (labels name)) <= space w)%nat ->
  exists w', encode_name track name w = (w', Ok tt) /\ grows w w' /\ written w' = written w ++ flat (labels name).
Proof.
  intros Hpos Hn Hl Hsp. unfold encode_name, labels in *. set (parts := if bool_decide _ then [] else name_parts _).
  assert ((if bool_decide (strip_dot name = []) then [] else (name_parts (strip_dot name)).*2) = parts.*2) as E.
  { subst parts. by case_bool_decide. }
  rewrite E in *. destruct (encode_parts_flat track parts w) as (w1 & -> & Hg & Hw1); try done.
  { subst parts. case_bool_decide; [by left|right; eauto]. }
  { intros Ht c p _. by rewrite Hn, lookup_empty. }
  assert (w_pos w1 + 1 <= length (w_tmp w1))%nat as Hp1.
  { destruct Hg as (L & ? & _). apply (f_equal length) in Hw1. revert Hsp. unfold flat, space. rewrite !length_app in *.
    rewrite !length_written in Hw1 by lia. simpl. lia. }
  cbn [wbind]. unfold end_name. destruct (decide _) as [Hz|_]; [unfold space in Hz; lia|].
  assert (length [0] <= space w1)%nat by (unfold space; simpl; lia).
  eexists. split; [done|]. split.
  - eapply grows_trans; [exact Hg|]. assert (grows w1 (emit [0] w1)) by (apply emit_grows; [done|lia]). by destruct track.
  - transitivity (written (emit [0] w1)); [by destruct track|]. rewrite written_emit, Hw1, <-app_assoc by (done || lia). done.
Qed.
End PlainProofs.

(** ** Appending to a writer *)
Definition appends (d : bytes) (w w' : Writer) : Prop := grows w w' /\ written w' = written w ++ d.

Lemma appends_nil w : (w_pos w <= length (w_tmp w))%nat -> appends [] w w.
Proof. intros. split; [by apply grows_refl|by rewrite app_nil_r]. Qed.

Lemma appends_trans d1 d2 w1 w2 w3 : appends d1 w1 w2 -> appends d2 w2 w3 -> appends (d1 ++ d2) w1 w3.
Proof. intros [? E1] [? E2]. split; [by eapply grows_trans|]. by rewrite E2, E1, app_assoc. Qed.

Lemma appends_emit d w : (length d <= space w)%nat -> (w_pos w <= length (w_tmp w))%nat -> appends d w (emit d w).
Proof. intros. split; [by apply emit_grows|by apply written_emit]. Qed.

Lemma appends_pos d w w' :
  appends d w w' -> w_pos w' = (w_pos w + length d)%nat /\ (w_pos w' <= length (w_tmp w'))%nat
  /\ space w' = (space w - length d)%nat.
Proof.
  intros [(L & Hp & _) E]. apply (f_equal length) in E. rewrite length_app, !length_written in E by lia.
  unfold space. lia.
Qed.

Section IntProofs.
Context `{OxencLaws}.

Definition ints_bytes (values : list (nat * Z)) : bytes := mbind (fun v => be_bytes v.1 v.2) values.

Lemma length_ints_bytes values : length (ints_bytes values) = sum_list (values.*1).
Proof.
  induction values as [|[n v] values IH]; [done|]. cbn [ints_bytes mbind list_bind fmap list_fmap fst snd].
  rewrite length_app, length_be_bytes. cbn. by f_equal.
Qed.

Lemma write_ints_appends values w :
  (w_pos w <= length (w_tmp w))%nat ->
  if decide (sum_list (values.*1) <= space w)%nat
  then exists w', write_ints_into values w = (w', Ok tt) /\ appends (ints_bytes values) w w'
         /\ w_names w' = w_names w /\ w_off w' = w_off w
  else exists w', write_ints_into values w = (w', Throw out_of_range).
Proof.
  revert w. induction values as [|[n v] values IH]; intros w Hw.
  - cbn. destruct (decide _); [|lia]. exists w. split; [done|]. split; [by apply appends_nil|done].
  - cbn [write_ints_into fmap list_fmap fst]. unfold write_int_into. cbn [sum_list]. rewrite write_big_spec.
    destruct (decide (space w < n)%nat) as [Hn|Hn]; cbn [wbind].
    { destruct (decide _); [simpl in *; lia|]. eauto. }
    assert (appends (be_bytes n v) w (emit (be_bytes n v) w)) as Ha.
    { apply appends_emit; [rewrite length_be_bytes; lia|done]. }
    pose proof (appends_pos _ _ _ Ha) as (_ & Hp & Hs). rewrite length_be_bytes in Hs.
    specialize (IH _ Hp). rewrite Hs in IH. cbn [sum_list] in *.
    destruct (decide (sum_list _ <= space w - n)%nat), (decide (_ <= space w)%nat); simpl in *; try lia; [|done].
    destruct IH as (w' & -> & Ha' & Hnm & Ho). exists w'. split; [done|]. split; [|done].
    by eapply (appends_trans (be_bytes n v)).
Qed.

(** Reading integers that were written. *)
Lemma extract_ints_app sizes vs rest :
  length vs = length sizes ->
  extract_ints sizes (ints_bytes (zip sizes vs) ++ rest)
  = Some (zip_with (fun n v => v mod 256 ^ Z.of_nat n) sizes vs, rest).
Proof.
  intros Hl. unfold extract_ints. rewrite decide_False.
  2:{ rewrite length_app, length_ints_bytes, fst_zip by lia. lia. }
  revert vs Hl. induction sizes as [|n sizes IH]; intros [|v vs] Hl; try done.
  cbn [zip zip_with ints_bytes mbind list_bind fst snd extract_each]. unfold extract_int.
  rewrite <-app_assoc, decide_False by (rewrite length_app, length_be_bytes; lia).
  rewrite drop_app_length', load_big_spec, take_app_length' by (by rewrite length_be_bytes).
  rewrite be_value_be_bytes. fold (ints_bytes (zip sizes vs)). rewrite IH by (simpl in Hl; lia). done.
Qed.

Lemma extract_ints_sound sizes buf vs rest :
  is_bytes buf -> extract_ints sizes buf = Some (vs, rest) ->
  length vs = length sizes /\ buf = ints_bytes (zip sizes vs) ++ rest
  /\ Forall2 (fun n v => 0 <= v < 256 ^ Z.of_nat n) sizes vs.
Proof.
  unfold extract_ints. destruct (decide _) as [|_]; [done|]. revert buf vs.
  induction sizes as [|n sizes IH]; intros buf vs Hb; cbn [extract_each].
  - intros [= <- <-]. split_and!; [done|done|constructor].
  - unfold extract_int. destruct (decide _) as [|Hn]; [done|].
    destruct (extract_each sizes (drop n buf)) as [[vs' r]|] eqn:E; [|done]. intros [= <- <-].
    destruct (IH _ _ (Forall_drop _ _ _ Hb) E) as (Hl & Hd & Hv).
    assert (length (take n buf) = n) as Lt by (rewrite length_take; lia).
    assert (is_bytes (take n buf)) as Ht by by apply Forall_take.
    split_and!; [simpl; lia| |constructor; [|done]].
    + cbn [zip zip_with ints_bytes mbind list_bind fst snd]. rewrite load_big_spec.
      pose proof (be_bytes_be_value _ Ht) as Hbe. rewrite Lt in Hbe. rewrite Hbe, <-app_assoc.
      fold (ints_bytes (zip sizes vs')). by rewrite <-Hd, take_drop.
    + rewrite load_big_spec. pose proof (be_value_bound _ Ht) as Hbv. by rewrite Lt in Hbv.
Qed.
End IntProofs.
