(* ===== verification/DnsMessage.v ===== *)
(** * DNS messages

    Questions, resource records and messages of dns/question.cpp, dns/rr.cpp,
    dns/rr.hpp, dns/message.cpp and dns/message.hpp: building a response and
    encoding it, parsing a query with its EDNS record and cookie, and passing an
    upstream response through as a [RawMessage].

    The SipHash of libsodium is the parameter [siphash24]; the clock is an
    argument of the operations that read it. *)

From Stdlib Require Import ZArith Lia.
From stdpp Require Import base list numbers gmap strings.
From S2P Require Import Prelude Oxenc DnsWire.

Open Scope router_scope.
Open Scope Z_scope.

(** ** Flags and types (dns/flags.hpp, dns/rr.hpp) *)
Definition flags_QR : Z := 32768.
Definition flags_AA : Z := 1024.
Definition flags_TC : Z := 512.
Definition flags_RD : Z := 256.
Definition flags_RA : Z := 128.
Definition flags_AD : Z := 32.
Definition flags_CD : Z := 16.
Definition flags_RCODE_mask : Z := 65520.
Definition RCODE_Refused : Z := 5.
Definition RCODE_NxDomain : Z := 3.
Definition RCODE_ServFail : Z := 2.
Definition RCODE_FormErr : Z := 1.

(** [flags & ~mask] on uint16_t *)
Definition clear_flags (flags mask : Z) : Z := wrap 16 (Z.ldiff flags mask).
Definition set_rcode (flags rcode : Z) : Z := Z.lor (Z.land flags flags_RCODE_mask) rcode.

Definition RRClass_IN : Z := 1.
Definition RRType_A : Z := 1.
Definition RRType_CNAME : Z := 5.
Definition RRType_SOA : Z := 6.
Definition RRType_PTR : Z := 12.
Definition RRType_TXT : Z := 16.
Definition RRType_AAAA : Z := 28.
Definition RRType_SRV : Z := 33.
Definition RRType_OPT : Z := 41.
Definition RRType_TSIG : Z := 250.

Definition OPT_COOKIE : Z := 10.
Definition EXT_RCODE_BADCOOKIE : Z := 23.
Definition DO_BIT : Z := 32768.

(** ** Data *)
Record Question := mkQuestion { qname : bytes; qtype : Z; qclass : Z }.
Definition empty_question : Question := mkQuestion [] 0 0.

(** What the subclasses of [ResourceRecord] hold. *)
Inductive RRData :=
| RR_bytes (type : Z) (rData : bytes)
| RR_target (type : Z) (name : bytes)
| RR_SRV (priority weight port : Z) (target : bytes)
| RR_OPT (cookie : option bytes).

Record ResourceRecord := mkRR { rr_name : bytes; rr_class : Z; rr_ttl : Z; rr_data : RRData }.

Definition rr_type (r : ResourceRecord) : Z :=
  match rr_data r with
  | RR_bytes t _ | RR_target t _ => t
  | RR_SRV _ _ _ _ => RRType_SRV
  | RR_OPT _ => RRType_OPT
  end.

Record PRR_EDNS := mkEDNS { max_payload : Z; edns_ttl : Z; cookie : option bytes; bad_cookie : bool }.

(** The constructor of [PRR_EDNS]. *)
Definition new_edns (max_payload pttl : Z) : PRR_EDNS :=
  mkEDNS max_payload (if Z.land pttl DO_BIT =? 0 then 0 else DO_BIT) None false.

Definition edns_DO_bit (e : PRR_EDNS) : bool := negb (Z.land (edns_ttl e) DO_BIT =? 0).

(** A [PRR_EDNS] as the [ResourceRecord] it derives from. *)
Definition edns_rr (e : PRR_EDNS) : ResourceRecord :=
  mkRR [] (max_payload e) (edns_ttl e) (RR_OPT (cookie e)).

Record Message := mkMessage {
  bad_extract : bool;
  hdr_id : Z;
  hdr_fields : Z;
  question : option Question;
  answers : list ResourceRecord;
  authorities : list ResourceRecord;
  additional_edns : option PRR_EDNS;
  rr_name_override : option bytes;
}.

Definition set_hdr_fields (f : Z) (m : Message) : Message :=
  mkMessage (bad_extract m) (hdr_id m) f (question m) (answers m) (authorities m) (additional_edns m) (rr_name_override m).
Definition set_answers (a : list ResourceRecord) (m : Message) : Message :=
  mkMessage (bad_extract m) (hdr_id m) (hdr_fields m) (question m) a (authorities m) (additional_edns m) (rr_name_override m).

(** ** Building a response *)
Definition reply_flags : Z := Z.lor (Z.lor flags_QR flags_AA) flags_RA.

Definition clone (m : Message) : Message :=
  mkMessage false (hdr_id m) (hdr_fields m) (question m) [] [] (additional_edns m) None.

Definition set_rr_name (name : option bytes) (m : Message) : Message :=
  mkMessage (bad_extract m) (hdr_id m) (hdr_fields m) (question m) (answers m) (authorities m) (additional_edns m) name.

Definition get_rr_name (m : Message) : bytes :=
  match rr_name_override m with
  | Some name => name
  | None => match question m with Some q => qname q | None => [] end
  end.

Definition add_nodata_reply (m : Message) : Message :=
  match question m with
  | Some _ => set_hdr_fields (Z.lor (hdr_fields m) reply_flags) m
  | None => m
  end.

Definition make_reply (m : Message) (ttl : Z) (d : RRData) : Message :=
  match question m with
  | None => m
  | Some _ =>
      let m := set_hdr_fields (Z.lor (hdr_fields m) reply_flags) m in
      set_answers (answers m ++ [mkRR (get_rr_name m) RRClass_IN ttl d]) m
  end.

(** [RR_TXT]: chunks of at most 255 bytes, each after its length. *)
Fixpoint txt_chunks (fuel : nat) (value : bytes) : bytes :=
  match fuel with
  | O => []
  | S fuel =>
      let size := (255 `min` length value)%nat in
      Z.of_nat size :: take size value ++
      (if bool_decide (drop size value = []) then [] else txt_chunks fuel (drop size value))
  end.

Definition txt_data (value : bytes) : RRData := RR_bytes RRType_TXT (txt_chunks (S (length value)) value).

Definition add_cname_reply (m : Message) (name : bytes) (ttl : Z) := make_reply m ttl (RR_target RRType_CNAME name).
Definition add_ptr_reply (m : Message) (name : bytes) (ttl : Z) := make_reply m ttl (RR_target RRType_PTR name).
Definition add_txt_reply (m : Message) (txt : bytes) (ttl : Z) := make_reply m ttl (txt_data txt).
Definition add_srv_reply (m : Message) (priority weight port : Z) (target : bytes) (ttl : Z) :=
  make_reply m ttl (RR_SRV priority weight port target).

Definition apply_rcode (m : Message) (rcode : Z) (authoritative : bool) : Message :=
  let m := set_hdr_fields (set_rcode (hdr_fields m) rcode) m in
  match question m with
  | None => m
  | Some _ =>
      let f := Z.lor (hdr_fields m) reply_flags in
      set_hdr_fields (if authoritative then Z.lor f flags_AA else clear_flags f flags_AA) m
  end.

Definition servfail (m : Message) : Message := apply_rcode (set_answers [] m) RCODE_ServFail false.
Definition formerr (m : Message) : Message := apply_rcode (set_answers [] m) RCODE_FormErr false.
Definition refused (m : Message) : Message := apply_rcode (set_answers [] m) RCODE_Refused false.
Definition nxdomain (m : Message) (authoritative : bool) : Message := apply_rcode m RCODE_NxDomain authoritative.

Section Codec.
Context `{Oxenc}.

(** The addresses of [add_reply]: an ipv4 is a 32-bit integer, an ipv6 two of 64 bits. *)
Definition add_reply_v4 (m : Message) (addr ttl : Z) : Message :=
  make_reply m ttl (RR_bytes RRType_A (write_host_as_big 4 addr)).
Definition add_reply_v6 (m : Message) (hi lo ttl : Z) : Message :=
  make_reply m ttl (RR_bytes RRType_AAAA (write_host_as_big 8 hi ++ write_host_as_big 8 lo)).

(** ** Encoding *)
Definition question_encode (q : Question) (w : Writer) : Writer * outcome string unit :=
  let* (w, _) := encode_name true (qname q) w in
  write_ints_counted [(2%nat, qtype q); (2%nat, qclass q)] w.

(** [memcpy] after [check_buf_size], and [buf_offset += size] *)
Definition write_data (data : bytes) (w : Writer) : Writer * outcome string unit :=
  if decide (space w < length data)%nat then (w, Throw out_of_range)
  else (add_off (Z.of_nat (length data)) (emit data w), Ok tt).

Definition cookie_option (c : bytes) : bytes :=
  write_host_as_big 2 OPT_COOKIE ++ write_host_as_big 2 (Z.of_nat (length c)) ++ c.

(** The overrides of [encode_data]. *)
Definition encode_data (d : RRData) (w : Writer) : Writer * outcome string unit :=
  match d with
  | RR_bytes _ rData => write_data rData w
  | RR_target _ name => encode_name true name w
  | RR_SRV priority weight port target =>
      let* (w, _) := write_ints_counted [(2%nat, priority); (2%nat, weight); (2%nat, port)] w in
      encode_name true target w
  | RR_OPT (Some c) => write_data (cookie_option c) w
  | RR_OPT None => (w, Ok tt)
  end.

(** [buf = buf.subspan(n)] without a write *)
Definition skip (n : nat) (w : Writer) : Writer := mkWriter (w_tmp w) (w_pos w + n) (w_names w) (w_off w).

(** Overwrites [data] at [p]. *)
Definition patch (p : nat) (data : bytes) (w : Writer) : Writer :=
  mkWriter (write_at p data (w_tmp w)) (w_pos w) (w_names w) (w_off w).

Definition rr_encode (r : ResourceRecord) (w : Writer) : Writer * outcome string unit :=
  let* (w, _) := encode_name true (rr_name r) w in
  let* (w, _) := write_ints_counted [(2%nat, rr_type r); (2%nat, rr_class r); (4%nat, rr_ttl r)] w in
  if decide (space w < 2)%nat then (w, Throw out_of_range)
  else
    let size_buf := w_pos w in
    let w := skip 2 (add_off 2 w) in
    let* (w, _) := encode_data (rr_data r) w in
    let size := Z.of_nat (w_pos w - size_buf - 2) in
    (patch size_buf (write_host_as_big 2 size) w, Ok tt).

Fixpoint encode_rrs (rrs : list ResourceRecord) (w : Writer) : Writer * outcome string unit :=
  match rrs with
  | [] => (w, Ok tt)
  | r :: rrs => let* (w, _) := rr_encode r w in encode_rrs rrs w
  end.

Definition new_writer (size : nat) : Writer := mkWriter (zero_buf size) 0 ∅ 0.

(** [RR_SOA]: the two names without compression, in a buffer of the size they
    should take, and five integers after them. *)
Definition soa_data (mname rname : bytes) (serial minimum refresh retry expire : Z) : outcome string (deref RRData) :=
  let name_size (name : bytes) := (length name + (if bool_decide (last name = Some dot) then 0 else 1) + 1)%nat in
  let w := new_writer (name_size mname + name_size rname + 20) in
  match (let* (w, _) := encode_name false mname w in encode_name false rname w) with
  | (_, Throw e) => Throw e
  | (w, Ok _) =>
      if decide (space w < 20)%nat then Ok Undefined
      else
        let ints := mbind (write_host_as_big 4) [serial; refresh; retry; expire; minimum] in
        Ok (Value (RR_bytes RRType_SOA (w_tmp (emit ints w))))
  end.

(** The size of the vector a response is encoded into. *)
Definition encode_limit (max_size : bool) (edns : option PRR_EDNS) : nat :=
  if max_size then Z.to_nat 65535
  else match edns with Some e => Z.to_nat (max_payload e) | None => 512%nat end.

Definition response_fields (m : Message) : Z := clear_flags (Z.lor (hdr_fields m) flags_QR) flags_AD.

Definition header_ints (id fields qd an ns ar : Z) : list (nat * Z) :=
  [(2%nat, id); (2%nat, fields); (2%nat, qd); (2%nat, an); (2%nat, ns); (2%nat, ar)].

(** Everything before the [try] of [Message::encode]. *)
Definition encode_head (m : Message) (w : Writer) : Writer * outcome string unit :=
  let* (w, _) := write_ints_counted
    (header_ints (hdr_id m) (response_fields m) (if question m then 1 else 0)
       (Z.of_nat (length (answers m))) (Z.of_nat (length (authorities m)))
       (if additional_edns m then 1 else 0)) w in
  match question m with
  | Some q => question_encode q w
  | None => (w, Ok tt)
  end.

(** The records of the [try], in order. *)
Definition body_rrs (m : Message) : list ResourceRecord :=
  answers m ++ authorities m ++ match additional_edns m with Some e => [edns_rr e] | None => [] end.

(** Back to [initial_len] on the vector [tmp]. *)
Definition rewind (tmp : bytes) (initial_len : Z) (w : Writer) : Writer :=
  mkWriter tmp (Z.to_nat initial_len) (w_names w) initial_len.

(** The handler of [std::out_of_range].  The values written here have type int:
    [fields | flags_TC] is promoted, and [0] is a literal. *)
Definition encode_truncated (m : Message) (initial_len : Z) (w : Writer) : deref bytes :=
  let tmp := write_at 2 (write_host_as_big 4 (Z.lor (response_fields m) flags_TC)) (w_tmp w) in
  let tmp := write_at 6 (write_host_as_big 4 0) tmp in
  let w := rewind tmp initial_len w in
  match additional_edns m with
  | None => Value (written w)
  | Some e =>
      match rr_encode (edns_rr e) w with
      | (w, Ok _) => Value (written w)
      | (w, Throw _) =>
          if decide (length (w_tmp w) < 10 + 4)%nat then Undefined
          else Value (written (rewind (write_at 10 (write_host_as_big 4 0) (w_tmp w)) initial_len w))
      end
  end.

(** [Message::encode(max_size)] *)
Definition message_encode (max_size : bool) (m : Message) : outcome string (deref bytes) :=
  match encode_head m (new_writer (encode_limit max_size (additional_edns m))) with
  | (_, Throw e) => Throw e
  | (w, Ok _) =>
      let initial_len := w_off w in
      match encode_rrs (body_rrs m) w with
      | (w, Ok _) => Ok (Value (written w))
      | (w, Throw _) => Ok (encode_truncated m initial_len w)
      end
  end.

(** ** Parsing a query *)

(** [Question::extract]: on failure the question is unchanged, but a name that
    was read is gone from the span. *)
Definition question_extract (buf : bytes) : option Question * bytes :=
  match extract_name buf with
  | None => (None, buf)
  | Some (name, buf) =>
      match extract_ints [2%nat; 2%nat] buf with
      | Some ([t; c], buf) => (Some (mkQuestion name t c), buf)
      | _ => (None, buf)
      end
  end.

Record ParsedRR := mkParsedRR { p_name : bytes; p_type : Z; p_class : Z; p_ttl : Z; p_rdata : bytes }.

Definition parsed_rr_extract (buf : bytes) : option (ParsedRR * bytes) :=
  match extract_name buf with
  | None => None
  | Some (name, buf) =>
      if decide (length buf < 10)%nat then None
      else
        let typ := load_big_to_host 2 buf in
        let cls := load_big_to_host 2 (drop 2 buf) in
        let ttl := load_big_to_host 4 (drop 4 buf) in
        let len := Z.to_nat (load_big_to_host 2 (drop 8 buf)) in
        let buf := drop 10 buf in
        if decide (length buf < len)%nat then None
        else Some (mkParsedRR name typ cls ttl (take len buf), drop len buf)
  end.

Fixpoint skip_rrs (n : nat) (buf : bytes) : outcome string bytes :=
  match n with
  | O => Ok buf
  | S n => let! (_, buf) := or_throw "invalid RR"%string (parsed_rr_extract buf) in skip_rrs n buf
  end.

Section Query.
Context (siphash24 : bytes -> bytes -> bytes) (server_cookie_secret client_ip : bytes) (now : Z).

Definition make_server_cookie (client_cookie : bytes) (ts : Z) : bytes :=
  let scookie := [1; 0; 0; 0] ++ write_host_as_big 4 (wrap 32 ts) in
  client_cookie ++ scookie ++ siphash24 (client_cookie ++ scookie ++ client_ip) server_cookie_secret.

Definition set_cookie (c : bytes) (bad : bool) (e : PRR_EDNS) : PRR_EDNS :=
  mkEDNS (max_payload e)
    (if bad then Z.shiftl (Z.shiftr EXT_RCODE_BADCOOKIE 4) 24 else edns_ttl e) (Some c) (bad || bad_cookie e).

(** The value of a cookie option. *)
Definition handle_cookie (value : bytes) (e : PRR_EDNS) : outcome string PRR_EDNS :=
  if cookie e then Throw "Duplicate OPT client cookies"%string
  else if decide (length value = 8%nat) then Ok (set_cookie (make_server_cookie value now) false e)
  else if decide (length value = 24%nat) then
    let ccookie := take 8 value in
    let ts := load_big_to_host 4 (drop 12 value) in
    let wrong := negb (bool_decide (value = make_server_cookie ccookie ts)) in
    if negb wrong && (now - 1800 <=? ts) && (ts <=? now + 300) then Ok (set_cookie value false e)
    else
      let bad := wrong || (ts <? now - 3600) || (now + 300 <? ts) in
      Ok (set_cookie (make_server_cookie ccookie now) bad e)
  else Ok e.

(** The options of an OPT record: the record as far as it was filled in, and
    whether the loop threw. *)
Fixpoint opt_loop (fuel : nat) (optbuf : bytes) (e : PRR_EDNS) : PRR_EDNS * outcome string unit :=
  match fuel with
  | O => (e, Ok tt)
  | S fuel =>
      if bool_decide (optbuf = []) then (e, Ok tt)
      else if decide (length optbuf < 4)%nat then (e, Throw "additional OPT data section too small"%string)
      else
        let opt_code := load_big_to_host 2 optbuf in
        let opt_len := Z.to_nat (load_big_to_host 2 (drop 2 optbuf)) in
        let optbuf := drop 4 optbuf in
        if decide (length optbuf < opt_len)%nat then (e, Throw "additional OPT option value length too small"%string)
        else
          let value := take opt_len optbuf in
          let optbuf := drop opt_len optbuf in
          match (if opt_code =? OPT_COOKIE then handle_cookie value e else Ok e) with
          | Ok e => opt_loop fuel optbuf e
          | Throw x => (e, Throw x)
          end
  end.

(** The additional section.  When an exception is thrown the EDNS record found
    so far stays in the message. *)
Fixpoint additional_loop (n : nat) (buf : bytes) (edns : option PRR_EDNS) : option PRR_EDNS * outcome string unit :=
  match n with
  | O => (edns, Ok tt)
  | S n =>
      match parsed_rr_extract buf with
      | None => (edns, Throw "invalid additional RR"%string)
      | Some (a, buf) =>
          if negb (bool_decide (p_name a = [dot])) || negb (p_type a =? RRType_OPT) then additional_loop n buf edns
          else match edns with
               | Some _ => (edns, Throw "found invalid multiple additional OPT records"%string)
               | None =>
                   match opt_loop (S (length (p_rdata a))) (p_rdata a) (new_edns (p_class a `min` 1232) (p_ttl a)) with
                   | (e, Ok _) => additional_loop n buf (Some e)
                   | (e, Throw x) => (Some e, Throw x)
                   end
               end
      end
  end.

(** The [try] block: the question (the empty one when it cannot be read), the
    EDNS record, and whether it threw. *)
Definition extract_body (qd an ns ar : Z) (buf : bytes)
    : option Question * option PRR_EDNS * outcome string unit :=
  let '(q, ok, buf) :=
    if qd =? 0 then (None, true, buf)
    else match question_extract buf with
         | (Some q, buf) => (Some q, true, buf)
         | (None, buf) => (Some empty_question, false, buf)
         end in
  if negb ok then (q, None, Throw "invalid question"%string)
  else match (let! buf := skip_rrs (Z.to_nat an) buf in skip_rrs (Z.to_nat ns) buf) with
       | Throw x => (q, None, Throw x)
       | Ok buf => let '(edns, r) := additional_loop (Z.to_nat ar) buf None in (q, edns, r)
       end.

(** [Message::extract_question] *)
Definition extract_question (buf : bytes) : outcome string (option Message) :=
  if negb (bool_decide (length client_ip = 4%nat \/ length client_ip = 16%nat))
  then Throw "Invalid client IP"%string
  else
    match extract_ints [2; 2; 2; 2; 2; 2]%nat buf with
    | Some ([id; fields; qd; an; ns; ar], buf) =>
        if 1 <? qd then Ok (Some (formerr (mkMessage true id fields None [] [] None None)))
        else
          let '(q, edns, r) := extract_body qd an ns ar buf in
          match r with
          | Ok _ => Ok (Some (mkMessage false id fields q [] [] edns None))
          | Throw _ => Ok (Some (formerr (mkMessage true id fields q [] [] edns None)))
          end
    | _ => Ok None
    end.
End Query.

(** ** Passing a message through *)
Record RawRR := mkRawRR { raw_name : bytes; raw_type : Z; raw_cls : Z; raw_ttl : Z; raw_rdata : bytes }.

Record RawMessage := mkRaw {
  raw_id : Z;
  raw_fields : Z;
  questions : list Question;
  raw_answers : list RawRR;
  raw_authorities : list RawRR;
  additional : list RawRR;
  raw_edns : option PRR_EDNS;
}.

(** [RawRR::write_to]: on [false] nothing is written. *)
Definition raw_bytes (r : RawRR) : bytes :=
  raw_name r ++ write_host_as_big 2 (raw_type r) ++ write_host_as_big 2 (raw_cls r) ++
  write_host_as_big 4 (raw_ttl r) ++ write_host_as_big 2 (Z.of_nat (length (raw_rdata r))) ++ raw_rdata r.

Definition raw_write_to (r : RawRR) (w : Writer) : Writer * bool :=
  if decide (space w < length (raw_name r) + 10 + length (raw_rdata r))%nat then (w, false)
  else (emit (raw_bytes r) w, true).

(** [PRR_EDNS::to_raw] *)
Definition edns_to_raw (e : PRR_EDNS) : RawRR :=
  mkRawRR [0] RRType_OPT (max_payload e) (edns_ttl e) (match cookie e with Some c => cookie_option c | None => [] end).

(** One record of [RawMessage::parse]. *)
Definition raw_rr_parse (buf : bytes) : option (RawRR * bytes) :=
  match extract_name_data buf with
  | None => None
  | Some (name, buf) =>
      match extract_ints [2; 2; 4; 2]%nat buf with
      | Some ([typ; cls; ttl; rdlen], buf) =>
          if decide (length buf < Z.to_nat rdlen)%nat then None
          else Some (mkRawRR name typ cls ttl (take (Z.to_nat rdlen) buf), drop (Z.to_nat rdlen) buf)
      | _ => None
      end
  end.

Fixpoint raw_section (n : nat) (buf : bytes) : option (list RawRR * bytes) :=
  match n with
  | O => Some ([], buf)
  | S n =>
      match raw_rr_parse buf with
      | None => None
      | Some (r, buf) =>
          match raw_section n buf with
          | None => None
          | Some (rs, buf) => Some (r :: rs, buf)
          end
      end
  end.

(** The questions: a failed [q.extract(buf)] leaves the empty question. *)
Fixpoint raw_questions (n : nat) (buf : bytes) : list Question * bytes :=
  match n with
  | O => ([], buf)
  | S n =>
      let '(q, buf) := question_extract buf in
      let '(qs, buf) := raw_questions n buf in
      (default empty_question q :: qs, buf)
  end.

Definition raw_parse (buf : bytes) : option RawMessage :=
  match extract_ints [2; 2; 2; 2; 2; 2]%nat buf with
  | Some ([id; fields; qd; an; ns; ar], buf) =>
      let '(qs, buf) := raw_questions (Z.to_nat qd) buf in
      match raw_section (Z.to_nat an) buf with
      | None => None
      | Some (ans, buf) =>
          match raw_section (Z.to_nat ns) buf with
          | None => None
          | Some (auth, buf) =>
              match raw_section (Z.to_nat ar) buf with
              | None => None
              | Some (add, _) => Some (mkRaw id fields qs ans auth add None)
              end
          end
      end
  | _ => None
  end.

(** [RawMessage::rewrite_for] *)
Definition rewrite_for (orig : Message) (m : RawMessage) : RawMessage :=
  let f := raw_fields m in
  let f := if match additional_edns orig with Some e => edns_DO_bit e | None => false end
           then f else clear_flags f flags_AD in
  let f := clear_flags f (Z.lor (Z.lor flags_CD flags_RD) flags_TC) in
  let f := Z.lor f (Z.land (hdr_fields orig) flags_CD) in
  let f := Z.lor f (Z.land (hdr_fields orig) flags_RD) in
  mkRaw (hdr_id orig) f (questions m) (raw_answers m) (raw_authorities m)
    (filter (fun r => ~ (raw_type r = RRType_OPT \/ raw_type r = RRType_TSIG)) (additional m))
    (additional_edns orig).

(** The loop over the questions: whether the [try] block threw. *)
Fixpoint raw_encode_questions (qs : list Question) (w : Writer) : Writer * bool :=
  match qs with
  | [] => (w, false)
  | q :: qs =>
      match (let* (w, _) := encode_name false (strip_dot (qname q)) w in
             write_ints_into [(2%nat, qtype q); (2%nat, qclass q)] w) with
      | (w, Ok _) => raw_encode_questions qs w
      | (w, Throw _) => (w, true)
      end
  end.

(** [write_section]; the result is [truncate]. *)
Fixpoint write_section (rrs : list RawRR) (w : Writer) : Writer * bool :=
  match rrs with
  | [] => (w, false)
  | r :: rrs => match raw_write_to r w with
                | (w, true) => write_section rrs w
                | (w, false) => (w, true)
                end
  end.

(** The [if (truncate)] block; [hdr_fields | flags_TC] is an int. *)
Definition raw_truncated (m : RawMessage) (header_end q_end : nat) (w : Writer) : bytes :=
  let tmp := write_at 2 (write_host_as_big 4 (Z.lor (raw_fields m) flags_TC)) (w_tmp w) in
  let tmp := if bool_decide (q_end = 0%nat) then write_at 4 (write_host_as_big 2 0) tmp else tmp in
  let pos := if bool_decide (q_end = 0%nat) then header_end else q_end in
  let tmp := write_at 6 (write_host_as_big 2 0) tmp in
  let tmp := write_at 8 (write_host_as_big 2 0) tmp in
  let tmp := write_at 10 (write_host_as_big 2 (if raw_edns m then 1 else 0)) tmp in
  let w := mkWriter tmp pos ∅ 0 in
  match raw_edns m with
  | None => written w
  | Some e =>
      match raw_write_to (edns_to_raw e) w with
      | (w, true) => written w
      | (w, false) => written (patch 10 (write_host_as_big 2 0) w)
      end
  end.

Definition raw_encode (max_size : bool) (m : RawMessage) : outcome string bytes :=
  let edns := match raw_edns m with Some e => [edns_to_raw e] | None => [] end in
  match write_ints_into
          (header_ints (raw_id m) (raw_fields m) (Z.of_nat (length (questions m)))
             (Z.of_nat (length (raw_answers m))) (Z.of_nat (length (raw_authorities m)))
             (Z.of_nat (length (additional m) + length edns))) (new_writer (encode_limit max_size (raw_edns m))) with
  | (_, Throw e) => Throw e
  | (w, Ok _) =>
      let header_end := w_pos w in
      match raw_encode_questions (questions m) w with
      | (w, true) => Ok (raw_truncated m header_end 0 w)
      | (w, false) =>
          let q_end := w_pos w in
          match write_section (raw_answers m ++ raw_authorities m ++ additional m ++ edns) w with
          | (w, true) => Ok (raw_truncated m header_end q_end w)
          | (w, false) => Ok (written w)
          end
      end
  end.
End Codec.

(** ** A message passed through is byte-exact *)
Section RawProofs.
Context `{OxencLaws}.

Definition raws (rs : list RawRR) : bytes := mbind raw_bytes rs.

Lemma length_raw_bytes r : length (raw_bytes r) = (length (raw_name r) + 10 + length (raw_rdata r))%nat.
Proof. unfold raw_bytes. rewrite !length_app, !write_big_spec, !length_be_bytes. lia. Qed.

Lemma raw_rr_parse_sound buf r rest :
  is_bytes buf -> raw_rr_parse buf = Some (r, rest) -> buf = raw_bytes r ++ rest.
Proof.
  intros Hb. unfold raw_rr_parse, extract_name_data.
  destruct (name_data_loop _ _ _) as [n|]; [|done].
  destruct (extract_ints _ (drop n buf)) as [[vs b2]|] eqn:E; [|done].
  apply extract_ints_sound in E as (Hl & Hd & Hv); [|by apply Forall_drop].
  destruct vs as [|typ [|cls [|ttl [|rdlen [|]]]]]; try done.
  destruct (decide _) as [|Hlen]; [done|]. intros [= <- <-].
  rewrite <-(take_drop n buf) at 1. rewrite Hd. unfold raw_bytes. cbn [raw_name raw_type raw_cls raw_ttl raw_rdata].
  rewrite <-!app_assoc, !write_big_spec. f_equal. cbn [zip zip_with ints_bytes mbind list_bind fst snd].
  do 4 (apply Forall2_cons in Hv as [? Hv]).
  rewrite (length_take_le b2), Z2Nat.id by lia. by rewrite app_nil_r, <-!app_assoc, take_drop.
Qed.

Lemma raw_section_sound n buf rs rest :
  is_bytes buf -> raw_section n buf = Some (rs, rest) -> length rs = n /\ buf = raws rs ++ rest.
Proof.
  revert buf rs. induction n as [|n IH]; intros buf rs Hb; cbn [raw_section].
  - intros [= <- <-]. done.
  - destruct (raw_rr_parse buf) as [[r b2]|] eqn:Er; [|done]. apply raw_rr_parse_sound in Er; [|done].
    destruct (raw_section n b2) as [[rs' b3]|] eqn:Es; [|done]. intros [= <- <-].
    destruct (IH b2 rs') as [? Hb2]; [rewrite Er in Hb; by apply Forall_app in Hb as [_ ?]|done|].
    split; [simpl; lia|]. cbn [raws mbind list_bind]. fold (raws rs'). by rewrite Er, Hb2, app_assoc.
Qed.

(** A question in the form a resolver sends: labels of 1 to 63 bytes without dots. *)
Definition question_ok (q : Question) : Prop :=
  (exists ls, Forall good_label ls /\ qname q = dotted ls) /\ 0 <= qtype q < 65536 /\ 0 <= qclass q < 65536.

Definition question_bytes (q : Question) : bytes :=
  flat (labels (qname q)) ++ ints_bytes [(2%nat, qtype q); (2%nat, qclass q)].

Lemma question_extract_bytes q rest :
  question_ok q -> question_extract (question_bytes q ++ rest) = (Some q, rest).
Proof.
  intros ((ls & Hls & Hq) & Ht & Hc). unfold question_extract, question_bytes.
  rewrite Hq, (proj1 (labels_strip_dotted ls Hls)), <-app_assoc.
  rewrite extract_name_flat by (eapply Forall_impl; [exact Hls|intros l [? ?]; lia]).
  rewrite (extract_ints_app [2; 2]%nat [qtype q; qclass q]) by done.
  cbn [zip_with]. rewrite !Z.mod_small by (change (256 ^ Z.of_nat 2) with 65536; lia).
  rewrite <-Hq. by destruct q.
Qed.

Lemma raw_questions_bytes qs rest :
  Forall question_ok qs -> raw_questions (length qs) (mbind question_bytes qs ++ rest) = (qs, rest).
Proof.
  induction 1 as [|q qs Hq Hqs IH]; [done|]. cbn [length raw_questions mbind list_bind].
  rewrite <-app_assoc, question_extract_bytes by done. change (list_bind _ _ question_bytes qs) with (mbind question_bytes qs).
  by rewrite IH.
Qed.

Lemma raw_encode_questions_appends qs w :
  Forall question_ok qs -> (w_pos w <= length (w_tmp w))%nat -> (length (mbind question_bytes qs) <= space w)%nat ->
  exists w', raw_encode_questions qs w = (w', false) /\ appends (mbind question_bytes qs) w w'.
Proof.
  intros Hqs. revert w. induction Hqs as [|q qs Hq Hqs IH]; intros w Hw Hs.
  - exists w. split; [done|by apply appends_nil].
  - cbn [raw_encode_questions mbind list_bind] in *. change (list_bind _ _ question_bytes qs) with (mbind question_bytes qs) in *.
    set (tl := mbind question_bytes qs) in *. rewrite length_app in Hs. destruct Hq as ((ls & Hls & Hq) & _).
    assert (Forall (fun l => length l <= 63)%nat ls) as Hls' by (eapply Forall_impl; [exact Hls|intros l [? ?]; lia]).
    destruct (labels_strip_dotted ls Hls) as [E1 E2]. unfold question_bytes in Hs |- *. rewrite Hq, E1 in *.
    rewrite length_app in Hs.
    destruct (encode_name_flat false (strip_dot (dotted ls)) w) as (w1 & -> & Hg & Hw1); [done|done|by rewrite E2|rewrite E2; lia|].
    rewrite E2 in Hw1. assert (appends (flat ls) w w1) as Ha by done.
    pose proof (appends_pos _ _ _ Ha) as (_ & Hp1 & Hs1).
    cbn [wbind]. pose proof (write_ints_appends [(2%nat, qtype q); (2%nat, qclass q)] w1 Hp1) as Hi.
    rewrite <-length_ints_bytes in Hi. destruct (decide _) as [_|?]; [|lia]. destruct Hi as (w2 & -> & Ha2 & _).
    pose proof (appends_pos _ _ _ Ha2) as (_ & Hp2 & Hs2).
    destruct (IH w2) as (w' & -> & Ha'); [done|lia|]. exists w'. split; [done|].
    eapply appends_trans; [|exact Ha']. by eapply appends_trans.
Qed.

Lemma write_section_appends rs w :
  (w_pos w <= length (w_tmp w))%nat -> (length (raws rs) <= space w)%nat ->
  exists w', write_section rs w = (w', false) /\ appends (raws rs) w w'.
Proof.
  revert w. induction rs as [|r rs IH]; intros w Hw Hs.
  - exists w. split; [done|by apply appends_nil].
  - cbn [write_section raws mbind list_bind] in *. fold (raws rs) in *. rewrite length_app, length_raw_bytes in Hs.
    unfold raw_write_to. destruct (decide _) as [|_]; [lia|].
    assert (appends (raw_bytes r) w (emit (raw_bytes r) w)) as Ha by (apply appends_emit; [rewrite length_raw_bytes; lia|done]).
    pose proof (appends_pos _ _ _ Ha) as (_ & Hp & Hs'). rewrite length_raw_bytes in Hs'.
    destruct (IH _ Hp) as (w' & -> & Ha'); [lia|]. exists w'. split; [done|]. by eapply appends_trans.
Qed.

Lemma raws_app a b : raws (a ++ b) = raws a ++ raws b.
Proof. apply bind_app. Qed.

Lemma new_writer_ok n : (w_pos (new_writer n) <= length (w_tmp (new_writer n)))%nat
  /\ space (new_writer n) = n /\ written (new_writer n) = [].
Proof. unfold space, new_writer, zero_buf. cbn. rewrite length_replicate. split_and!; [lia|lia|done]. Qed.

(** A message that fits is written section after section. *)
Lemma raw_encode_fits max_size m :
  Forall question_ok (questions m) ->
  let edns := match raw_edns m with Some e => [edns_to_raw e] | None => [] end in
  let body := mbind question_bytes (questions m) ++ raws (raw_answers m ++ raw_authorities m ++ additional m ++ edns) in
  (12 + length body <= encode_limit max_size (raw_edns m))%nat ->
  raw_encode max_size m = Ok (ints_bytes
    (header_ints (raw_id m) (raw_fields m) (Z.of_nat (length (questions m))) (Z.of_nat (length (raw_answers m)))
       (Z.of_nat (length (raw_authorities m))) (Z.of_nat (length (additional m) + length edns))) ++ body).
Proof.
  intros Hq edns body Hfit. unfold raw_encode. fold edns. set (hdr := header_ints _ _ _ _ _ _).
  destruct (new_writer_ok (encode_limit max_size (raw_edns m))) as (Hp0 & Hs0 & Hw0).
  set (w0 := new_writer _) in *. subst body. rewrite length_app in Hfit.
  pose proof (write_ints_appends hdr w0 Hp0) as Hi. destruct (decide _) as [_|Hd]; [|change (sum_list (hdr.*1)) with 12%nat in Hd; lia].
  destruct Hi as (w1 & -> & Ha1 & _). pose proof (appends_pos _ _ _ Ha1) as (_ & Hp1 & Hs1).
  rewrite length_ints_bytes in Hs1. change (sum_list (hdr.*1)) with 12%nat in Hs1.
  destruct (raw_encode_questions_appends (questions m) w1) as (w2 & -> & Ha2); [done|done|lia|].
  pose proof (appends_pos _ _ _ Ha2) as (_ & Hp2 & Hs2).
  destruct (write_section_appends (raw_answers m ++ raw_authorities m ++ additional m ++ edns) w2)
    as (w3 & -> & Ha3); [done|lia|].
  pose proof (appends_trans _ _ _ _ _ (appends_trans _ _ _ _ _ Ha1 Ha2) Ha3) as [_ ->].
  by rewrite Hw0, <-app_assoc.
Qed.
End RawProofs.

(** The flags of a rewritten message, bit by bit. *)
Lemma rewrite_for_bits orig m i :
  0 <= i < 16 ->
  Z.testbit (raw_fields (rewrite_for orig m)) i =
    if i =? 9 then false
    else if (i =? 4) || (i =? 8) then Z.testbit (hdr_fields orig) i
    else if i =? 5 then Z.testbit (raw_fields m) i
           && match additional_edns orig with Some e => edns_DO_bit e | None => false end
    else Z.testbit (raw_fields m) i.
Proof.
  intros Hi. unfold rewrite_for. cbn [raw_fields]. set (do_bit := match additional_edns orig with Some _ => _ | None => _ end).
  unfold clear_flags, wrap. rewrite !Z.lor_spec, !Z.land_spec, Z.mod_pow2_bits_low, Z.ldiff_spec by lia.
  assert (Z.testbit (if do_bit then raw_fields m else Z.ldiff (raw_fields m) flags_AD mod 2 ^ 16) i
    = if do_bit then Z.testbit (raw_fields m) i else Z.testbit (raw_fields m) i && negb (Z.testbit flags_AD i)) as ->.
  { destruct do_bit; [done|]. by rewrite Z.mod_pow2_bits_low, Z.ldiff_spec by lia. }
  assert (i = 0 \/ i = 1 \/ i = 2 \/ i = 3 \/ i = 4 \/ i = 5 \/ i = 6 \/ i = 7 \/ i = 8 \/ i = 9 \/ i = 10 \/ i = 11
    \/ i = 12 \/ i = 13 \/ i = 14 \/ i = 15) as Hcases by lia.
  destruct do_bit; repeat (destruct Hcases as [->|Hcases]; [cbn; by rewrite ?andb_true_r, ?andb_false_r, ?orb_false_r|]);
    subst i; cbn; by rewrite ?andb_true_r, ?andb_false_r, ?orb_false_r.
Qed.

Section RawTheorem.
Context `{OxencLaws}.

Lemma raw_parse_sound id fields qs an ns ar tail m :
  0 <= id < 65536 -> 0 <= fields < 65536 -> Z.of_nat (length qs) < 65536 -> 0 <= an < 65536 -> 0 <= ns < 65536 ->
  0 <= ar < 65536 -> Forall question_ok qs -> is_bytes tail ->
  raw_parse (ints_bytes (header_ints id fields (Z.of_nat (length qs)) an ns ar) ++ mbind question_bytes qs ++ tail) = Some m ->
  raw_id m = id /\ raw_fields m = fields /\ questions m = qs /\ raw_edns m = None
  /\ length (raw_answers m) = Z.to_nat an /\ length (raw_authorities m) = Z.to_nat ns
  /\ exists rest, tail = raws (raw_answers m ++ raw_authorities m ++ additional m) ++ rest.
Proof.
  intros Hid Hf Hq Han Hns Har Hqs Hb. unfold raw_parse.
  change (header_ints id fields (Z.of_nat (length qs)) an ns ar)
    with (zip [2; 2; 2; 2; 2; 2]%nat [id; fields; Z.of_nat (length qs); an; ns; ar]).
  rewrite extract_ints_app by done. cbn [zip_with].
  rewrite !Z.mod_small by (change (256 ^ Z.of_nat 2) with 65536; lia).
  rewrite Nat2Z.id, raw_questions_bytes by done.
  destruct (raw_section (Z.to_nat an) tail) as [[ans b1]|] eqn:E1; [|done].
  apply raw_section_sound in E1 as [L1 ->]; [|done]. apply Forall_app in Hb as [_ Hb].
  destruct (raw_section (Z.to_nat ns) b1) as [[auth b2]|] eqn:E2; [|done].
  apply raw_section_sound in E2 as [L2 ->]; [|done]. apply Forall_app in Hb as [_ Hb].
  destruct (raw_section (Z.to_nat ar) b2) as [[add b3]|] eqn:E3; [|done].
  apply raw_section_sound in E3 as [L3 ->]; [|done]. intros [= <-].
  cbn [raw_id raw_fields questions raw_answers raw_authorities additional raw_edns]. split_and!; try done. exists b3. by rewrite !raws_app, <-!app_assoc.
Qed.
End RawTheorem.

(** An upstream response is passed on byte for byte.  [tail] are the bytes
    after the questions of a message that [RawMessage::parse] accepts; after
    [rewrite_for] the encoding has the client's id and flags, and then exactly
    the bytes of the questions, answers and authorities, at the offsets they had,
    so that name pointers inside them stay right; only the OPT and TSIG records
    at the end are replaced.  This holds whenever the result fits the limit. *)
Theorem raw_message_passed_through `{OxencLaws} id fields qs an ns ar tail m orig max_size :
  0 <= id < 65536 -> 0 <= fields < 65536 -> Z.of_nat (length qs) < 65536 -> 0 <= an < 65536 -> 0 <= ns < 65536 ->
  0 <= ar < 65536 -> Forall question_ok qs -> is_bytes tail ->
  let buf := ints_bytes (header_ints id fields (Z.of_nat (length qs)) an ns ar) ++ mbind question_bytes qs ++ tail in
  raw_parse buf = Some m ->
  exists body rest,
    buf = ints_bytes (header_ints id fields (Z.of_nat (length qs)) an ns ar) ++ body ++ raws (additional m) ++ rest
    /\ let m' := rewrite_for orig m in
       let edns := match additional_edns orig with Some e => [edns_to_raw e] | None => [] end in
       let out := ints_bytes (header_ints (hdr_id orig) (raw_fields m') (Z.of_nat (length qs)) an ns
                     (Z.of_nat (length (additional m') + length edns))) ++ body ++ raws (additional m' ++ edns) in
       (length out <= encode_limit max_size (additional_edns orig))%nat ->
       raw_encode max_size m' = Ok out /\ Forall (fun r => raw_type r <> RRType_OPT) (additional m').
Proof.
  intros Hid Hf Hq Han Hns Har Hqs Hb buf Hp.
  destruct (raw_parse_sound id fields qs an ns ar tail m) as (_ & _ & Eq & _ & La & Lt & rest & ->); try done.
  exists (mbind question_bytes qs ++ raws (raw_answers m ++ raw_authorities m)), rest.
  split; [subst buf; by rewrite !raws_app, <-!app_assoc|]. intros m' edns out Hfit.
  assert (questions m' = qs) as Eq' by done. split.
  - subst out edns. rewrite (raw_encode_fits max_size m').
    + cbn [m' rewrite_for raw_id raw_fields questions raw_answers raw_authorities raw_edns].
      rewrite La, Lt, !Z2Nat.id, Eq by lia. by rewrite !raws_app, <-!app_assoc.
    + by rewrite Eq'.
    + cbn [m' rewrite_for raw_id raw_fields questions raw_answers raw_authorities raw_edns].
      rewrite Eq. etrans; [|exact Hfit]. rewrite !length_app, length_ints_bytes, !raws_app, !length_app. cbn. lia.
  - subst m'. cbn [rewrite_for additional]. apply Forall_forall. intros r [Hr _]%list_elem_of_filter. tauto.
Qed.

(** The answer 1.2.3.4 for "a.", its name a pointer to the question, and an OPT
    record that is replaced by the client's. *)
Module RawDemo.
Definition q : Question := mkQuestion [97; 46] 1 1.
Definition tail : bytes := [192; 12; 0; 1; 0; 1; 0; 0; 0; 10; 0; 4; 1; 2; 3; 4; 0; 0; 41; 4; 208; 0; 0; 0; 0; 0; 0].
Definition ans : RawRR := mkRawRR [192; 12] 1 1 10 [1; 2; 3; 4].
Definition opt : RawRR := mkRawRR [0] 41 1232 0 [].
Definition raw : RawMessage := mkRaw 7 33152 [q] [ans] [] [opt] None.
Definition orig : Message := mkMessage false 9 256 (Some q) [] [] (Some (new_edns 512 32768)) None.
End RawDemo.

Lemma raw_message_passed_through_witness :
  exists out, @raw_encode bencode false (rewrite_for RawDemo.orig RawDemo.raw) = Ok out
    /\ drop 12 out = [1; 97; 0; 0; 1; 0; 1; 192; 12; 0; 1; 0; 1; 0; 0; 0; 10; 0; 4; 1; 2; 3; 4;
                      0; 0; 41; 2; 0; 0; 0; 128; 0; 0; 0].
Proof.
  destruct (@raw_message_passed_through bencode bencode_laws 7 33152 [RawDemo.q] 1 0 1 RawDemo.tail RawDemo.raw
    RawDemo.orig false) as (body & rest & Eb & Hout); try lia.
  - simpl. lia.
  - constructor; [|constructor]. split; [|simpl; lia]. exists [[97]]. split; [|reflexivity].
    constructor; [|constructor]. split; [simpl; lia|]. unfold dot. set_solver.
  - apply (bool_decide_unpack (is_bytes RawDemo.tail)). vm_compute. reflexivity.
  - vm_compute. reflexivity.
  - destruct Hout as [E _].
    + assert (length body <= 40)%nat as Hlen.
      { apply (f_equal length) in Eb. rewrite !length_app in Eb.
        change (length RawDemo.tail) with 27%nat in Eb. change (length (mbind _ _)) with 7%nat in Eb. lia. }
      rewrite !length_app, !length_ints_bytes. change (sum_list _) with 12%nat. change (length (raws _)) with 11%nat.
      transitivity 63%nat; [lia|]. apply Nat.leb_le. vm_compute. reflexivity.
    + eexists. split; [exact E|]. vm_compute in E. injection E as E. vm_compute. rewrite <-E. reflexivity.
Defined.
