(* ===== verification/DnsResponse.v ===== *)
(** * DNS responses on the wire

    What [Message::encode] (dns/message.cpp) sends, for the definitions of
    [DnsMessage]: [rr_at] and [response_at] are what a receiver reads in a
    message of RFC 1035, names followed through their pointers.  A response that
    fits its limit reads back as the message it was made from; the ones that do
    not fit are the subject of the last section. *)

From Stdlib Require Import ZArith Lia.
From stdpp Require Import base list numbers gmap strings.
From S2P Require Import Prelude Oxenc DnsWire DnsMessage.

Open Scope router_scope.
Open Scope Z_scope.

(** ** Records as a receiver reads them *)
Definition data_at (msg : bytes) (off : nat) (d : RRData) (e : nat) : Prop :=
  match d with
  | RR_bytes _ b => subspan off (length b) msg = b /\ e = (off + length b)%nat
  | RR_target _ name => name_at msg off (labels name) e
  | RR_SRV priority weight port target =>
      subspan off 6 msg = ints_bytes [(2%nat, priority); (2%nat, weight); (2%nat, port)]
      /\ name_at msg (off + 6) (labels target) e
  | RR_OPT None => e = off
  | RR_OPT (Some c) =>
      subspan off (4 + length c) msg = ints_bytes [(2%nat, OPT_COOKIE); (2%nat, Z.of_nat (length c))] ++ c
      /\ e = (off + 4 + length c)%nat
  end.

(** A record from [off] to [e]: its name, type, class, TTL, the length of the
    data and the data, which ends where the length says. *)
Definition rr_at (msg : bytes) (off : nat) (r : ResourceRecord) (e : nat) : Prop :=
  exists o, name_at msg off (labels (rr_name r)) o
    /\ subspan o 10 msg = ints_bytes [(2%nat, rr_type r); (2%nat, rr_class r); (4%nat, rr_ttl r);
                                      (2%nat, Z.of_nat (e - (o + 10)))]
    /\ (o + 10 <= e)%nat /\ data_at msg (o + 10) (rr_data r) e.

Fixpoint rrs_at (msg : bytes) (off : nat) (rs : list ResourceRecord) (e : nat) : Prop :=
  match rs with
  | [] => e = off
  | r :: rs => exists o, rr_at msg off r o /\ rrs_at msg o rs e
  end.

Definition question_at (msg : bytes) (off : nat) (q : Question) (e : nat) : Prop :=
  exists o, name_at msg off (labels (qname q)) o
    /\ subspan o 4 msg = ints_bytes [(2%nat, qtype q); (2%nat, qclass q)] /\ e = (o + 4)%nat.

(** A whole response: the header, the question and all the records, up to the end. *)
Definition response_at (msg : bytes) (m : Message) : Prop :=
  subspan 0 12 msg = ints_bytes (header_ints (hdr_id m) (response_fields m) (if question m then 1 else 0)
    (Z.of_nat (length (answers m))) (Z.of_nat (length (authorities m))) (if additional_edns m then 1 else 0))
  /\ exists o, (match question m with Some q => question_at msg 12 q o | None => o = 12%nat end)
       /\ rrs_at msg o (body_rrs m) (length msg).

(** *** More bytes at the end do not change what is read *)
Lemma subspan_prefix msg msg' off b :
  msg `prefix_of` msg' -> subspan off (length b) msg = b -> subspan off (length b) msg' = b.
Proof.
  intros [x ->] Hb. destruct b as [|c b]; [done|].
  assert (off + length (c :: b) <= length msg)%nat.
  { apply (f_equal length) in Hb. unfold subspan in Hb. rewrite length_take, length_drop in Hb. cbn [length] in *. lia. }
  rewrite <-Hb at 2. unfold subspan. rewrite drop_app_le, take_app_le; [done|rewrite length_drop; lia|lia].
Qed.

(** The same, for a length that is that of the value. *)
Lemma subspan_prefix' msg msg' off n b :
  msg `prefix_of` msg' -> length b = n -> subspan off n msg = b -> subspan off n msg' = b.
Proof. intros ? <-. by apply subspan_prefix. Qed.

Lemma data_at_mono msg msg' off d e : msg `prefix_of` msg' -> data_at msg off d e -> data_at msg' off d e.
Proof.
  intros Hp. destruct d as [t b|t n|p w q t|[c|]]; cbn [data_at].
  - intros [? ?]. split; [by eapply subspan_prefix|done].
  - by apply name_at_mono.
  - intros [? ?]. split; [by eapply subspan_prefix'; [| |]|by eapply name_at_mono].
  - intros [? ?]. split; [|done]. by eapply subspan_prefix'; [| |].
  - done.
Qed.

Lemma rr_at_mono msg msg' off r e : msg `prefix_of` msg' -> rr_at msg off r e -> rr_at msg' off r e.
Proof.
  intros Hp (o & Hn & Hs & Hle & Hd). exists o. split_and!; [by eapply name_at_mono| |done|by eapply data_at_mono].
  by eapply subspan_prefix'; [| |].
Qed.

(** ** Writing a field that comes before what follows it

    [rr_encode] skips the length and fills it in later: writing behind a place
    does not depend on what is there. *)
Lemma write_at_comm p d q x b :
  (p + length d <= q)%nat -> (q + length x <= length b)%nat ->
  write_at p d (write_at q x b) = write_at q x (write_at p d b).
Proof.
  intros H1 H2.
  assert (exists b1 b2 b3 b4 b5, b = b1 ++ b2 ++ b3 ++ b4 ++ b5 /\ length b1 = p /\ length b2 = length d
    /\ length (b1 ++ b2 ++ b3) = q /\ length b4 = length x) as (b1 & b2 & b3 & b4 & b5 & -> & L1 & L2 & L3 & L4).
  { exists (take p b), (subspan p (length d) b), (subspan (p + length d) (q - (p + length d)) b),
      (subspan q (length x) b), (drop (q + length x) b). unfold subspan.
    rewrite !length_app, !length_take, !length_drop. split_and!; try lia.
    rewrite <-(take_drop p b) at 1. f_equal. rewrite <-(take_drop (length d) (drop p b)) at 1. f_equal.
    rewrite drop_drop. rewrite <-(take_drop (q - (p + length d)) (drop (p + length d) b)) at 1. f_equal.
    rewrite drop_drop. replace (p + length d + (q - (p + length d)))%nat with q by lia.
    rewrite <-(take_drop (length x) (drop q b)) at 1. f_equal. by rewrite drop_drop. }
  assert (forall c2, length c2 = length d -> write_at q x (b1 ++ c2 ++ b3 ++ b4 ++ b5) = b1 ++ c2 ++ b3 ++ x ++ b5) as Hq.
  { intros c2 L. replace (b1 ++ c2 ++ b3 ++ b4 ++ b5) with ((b1 ++ c2 ++ b3) ++ b4 ++ b5) by by rewrite <-!app_assoc.
    rewrite write_at_app; [by rewrite <-!app_assoc| |done]. rewrite !length_app in *. lia. }
  rewrite Hq by done. rewrite !(write_at_app p d b1 b2) by done. by rewrite Hq.
Qed.

(** [f] does the same whatever [d] is written at [p]. *)
Definition oblivious {A} (f : Writer -> Writer * outcome string A) (w : Writer) : Prop :=
  forall p d, (p + length d <= w_pos w)%nat -> f (patch p d w) = (patch p d (f w).1, (f w).2).

Lemma space_patch p d w : (p + length d <= w_pos w <= length (w_tmp w))%nat -> space (patch p d w) = space w.
Proof. intros. unfold space, patch. cbn. rewrite length_write_at by lia. done. Qed.

Lemma emit_patch p d x w :
  (p + length d <= w_pos w)%nat -> (length x <= space w)%nat -> (w_pos w <= length (w_tmp w))%nat ->
  emit x (patch p d w) = patch p d (emit x w).
Proof.
  intros Hp Hx Hw. unfold space in Hx. unfold emit, patch. cbn [w_tmp w_pos w_names w_off].
  f_equal. symmetry. apply write_at_comm; lia.
Qed.

Section Oblivious.
Context `{OxencLaws}.

Lemma write_ints_oblivious values w : (w_pos w <= length (w_tmp w))%nat -> oblivious (write_ints_into values) w.
Proof.
  revert w. induction values as [|[n v] values IH]; intros w Hw p d Hp; [done|].
  cbn [write_ints_into]. unfold write_int_into. rewrite space_patch by lia.
  destruct (decide _) as [|Hn]; [done|]. cbn [wbind]. rewrite write_big_spec.
  assert (appends (be_bytes n v) w (emit (be_bytes n v) w)) as Ha by (apply appends_emit; [rewrite length_be_bytes; lia|done]).
  pose proof (appends_pos _ _ _ Ha) as (Hpos & Hle & _).
  rewrite emit_patch by (rewrite ?length_be_bytes; lia). apply IH; lia.
Qed.

Lemma write_ints_counted_oblivious values w :
  (w_pos w <= length (w_tmp w))%nat -> oblivious (write_ints_counted values) w.
Proof.
  intros Hw p d Hp. unfold write_ints_counted. rewrite (write_ints_oblivious values w Hw p d Hp).
  by destruct (write_ints_into values w) as [w' [[]|]].
Qed.

Lemma write_data_oblivious data w : (w_pos w <= length (w_tmp w))%nat -> oblivious (write_data data) w.
Proof.
  intros Hw p d Hp. unfold write_data. rewrite space_patch by lia. destruct (decide _) as [|Hn]; [done|].
  rewrite emit_patch by lia. done.
Qed.

Lemma encode_parts_oblivious track parts w : (w_pos w <= length (w_tmp w))%nat -> oblivious (encode_parts track parts) w.
Proof.
  revert w. induction parts as [|[check part] parts IH]; intros w Hw p d Hp; [done|].
  cbn [encode_parts]. rewrite space_patch by lia. change (w_names (patch p d w)) with (w_names w).
  destruct (if track then w_names w !! check else None) as [off|]; (destruct (decide _) as [|Hs]; [done|]).
  - rewrite emit_patch; [done|done| |done]. rewrite write_big_spec, length_be_bytes. lia.
  - apply Decidable.not_or in Hs. cbv zeta. set (x := Z.of_nat (length part) :: part).
    assert (length x = S (length part)) as Lx by done. rewrite emit_patch by lia.
    assert (appends x w (emit x w)) as Ha by (apply appends_emit; lia).
    pose proof (appends_pos _ _ _ Ha) as (Hpos & Hle & _).
    destruct track; apply (IH (add_off _ (add_name check (w_off w) (emit x w)))) || apply (IH (emit x w)); cbn in *; lia.
Qed.

Lemma encode_parts_pos track parts w :
  (w_pos w <= length (w_tmp w))%nat ->
  let w' := (encode_parts track parts w).1 in
  (w_pos w <= w_pos w' <= length (w_tmp w'))%nat.
Proof.
  revert w. induction parts as [|[check part] parts IH]; intros w Hw; [cbn; lia|].
  cbn [encode_parts]. destruct (if track then w_names w !! check else None) as [off|]; (destruct (decide _) as [|Hs]; [cbn; lia|]).
  - cbn [fst add_off w_pos w_tmp]. set (x := write_host_as_big _ _).
    assert (length x = 2%nat) as Lx by (subst x; by rewrite write_big_spec, length_be_bytes).
    assert (appends x w (emit x w)) as Ha by (apply appends_emit; lia).
    pose proof (appends_pos _ _ _ Ha) as (Hpos & Hle & _). lia.
  - apply Decidable.not_or in Hs. cbv zeta. set (x := Z.of_nat (length part) :: part).
    assert (length x = S (length part)) as Lx by done.
    assert (appends x w (emit x w)) as Ha by (apply appends_emit; lia).
    pose proof (appends_pos _ _ _ Ha) as (Hpos & Hle & _).
    destruct track.
    + specialize (IH (add_off (1 + Z.of_nat (length part)) (add_name check (w_off w) (emit x w))) Hle). cbn in *. lia.
    + specialize (IH (emit x w) Hle). cbn in *. lia.
Qed.

Lemma encode_name_oblivious track name w : (w_pos w <= length (w_tmp w))%nat -> oblivious (encode_name track name) w.
Proof.
  intros Hw p d Hp. unfold encode_name. set (parts := if bool_decide _ then [] else _).
  rewrite (encode_parts_oblivious track parts w Hw p d Hp).
  pose proof (encode_parts_pos track parts w Hw) as Hpos. cbv zeta in Hpos.
  destruct (encode_parts track parts w) as [w1 [ptr|]]; [|done]. cbn [fst snd wbind] in *.
  unfold end_name. destruct ptr; [done|]. rewrite space_patch by lia. destruct (decide _) as [|Hs]; [done|].
  rewrite emit_patch; [|lia|cbn; lia|lia]. by destruct track.
Qed.

Lemma encode_data_oblivious x w : (w_pos w <= length (w_tmp w))%nat -> oblivious (encode_data x) w.
Proof.
  intros Hw p d Hp. destruct x as [t b|t n|a b c t|[c|]]; cbn [encode_data].
  - by apply write_data_oblivious.
  - by apply encode_name_oblivious.
  - rewrite (write_ints_counted_oblivious _ w Hw p d Hp). unfold write_ints_counted.
    pose proof (write_ints_appends [(2%nat, a); (2%nat, b); (2%nat, c)] w Hw) as Hi.
    destruct (decide _) as [_|_]; [|destruct Hi as [w' ->]; done]. destruct Hi as (w' & -> & Ha & _).
    pose proof (appends_pos _ _ _ Ha) as (Hpos & Hle & _). cbn [wbind fst snd].
    apply (encode_name_oblivious true t (add_off _ w')); cbn in *; lia.
  - by apply write_data_oblivious.
  - done.
Qed.
End Oblivious.

(** ** Encoding steps *)
Definition good (w : Writer) : Prop := w_wf w /\ names_ok (fun _ => False) w.

Definition data_names_ok (d : RRData) : Prop :=
  match d with
  | RR_target _ name => name_ok name
  | RR_SRV _ _ _ target => name_ok target
  | _ => True
  end.
Definition rr_ok (r : ResourceRecord) : Prop := name_ok (rr_name r) /\ data_names_ok (rr_data r).

Lemma good_append d w w' :
  good w -> appends d w w' -> w_names w' = w_names w -> w_off w' = wrap 16 (w_off w + Z.of_nat (length d)) -> good w'.
Proof.
  intros [(H1 & H2 & H3) Hn] Ha En Eo. pose proof (appends_pos _ _ _ Ha) as (Hp & Hle & _).
  destruct Ha as [Hg _]. split; [|by eapply names_ok_grows]. destruct Hg as (L & _ & _).
  split_and!; [done|by rewrite L|]. rewrite Eo, H3, Hp. unfold wrap. rewrite Z.mod_small; lia.
Qed.

Lemma good_bound w : good w -> (w_pos w <= length (w_tmp w))%nat.
Proof. by intros [(? & _) _]. Qed.

(** What was appended is there for a receiver. *)
Lemma appends_subspan d w w' msg :
  appends d w w' -> (w_pos w <= length (w_tmp w))%nat -> written w' `prefix_of` msg ->
  subspan (w_pos w) (length d) msg = d.
Proof.
  intros [_ E] Hw [x ->]. rewrite E, <-app_assoc. apply subspan_app; [by apply length_written|done].
Qed.

Section Steps.
Context `{OxencLaws}.

Lemma write_ints_counted_spec values w w' :
  good w -> write_ints_counted values w = (w', Ok tt) -> good w' /\ appends (ints_bytes values) w w'.
Proof.
  intros Hw. unfold write_ints_counted. pose proof (write_ints_appends values w (good_bound w Hw)) as Hi.
  destruct (decide _) as [_|_]; [|by destruct Hi as [w1 ->]]. destruct Hi as (w1 & -> & Ha & En & Eo).
  cbn [wbind]. intros [= <-]. assert (appends (ints_bytes values) w (add_off (Z.of_nat (sum_list values.*1)) w1)) as Ha' by done.
  split; [|done]. apply (good_append _ _ _ Hw Ha'); [done|]. cbn [add_off w_off]. by rewrite Eo, length_ints_bytes.
Qed.

Lemma write_data_spec data w w' :
  good w -> write_data data w = (w', Ok tt) -> good w' /\ appends data w w'.
Proof.
  intros Hw. unfold write_data. destruct (decide _) as [|Hn]; [done|]. intros [= <-].
  assert (appends data w (add_off (Z.of_nat (length data)) (emit data w))) as Ha.
  { apply (appends_emit data w); [lia|by apply good_bound]. }
  split; [|done]. by apply (good_append _ _ _ Hw Ha).
Qed.

Lemma encode_name_good name w w' :
  good w -> name_ok name -> encode_name true name w = (w', Ok tt) -> Z.of_nat (w_pos w') <= 16384 ->
  good w' /\ grows w w' /\ name_at (written w') (w_pos w) (labels name) (w_pos w').
Proof. intros [Hw Hn] Hok He Hs. destruct (encode_name_spec name w w') as (? & ? & ? & ?); done. Qed.

Lemma cookie_option_eq c :
  cookie_option c = ints_bytes [(2%nat, OPT_COOKIE); (2%nat, Z.of_nat (length c))] ++ c.
Proof. unfold cookie_option. rewrite !write_big_spec. cbn [ints_bytes mbind list_bind fst snd]. by rewrite app_nil_r, <-app_assoc. Qed.

Lemma encode_data_spec d w w' :
  good w -> data_names_ok d -> encode_data d w = (w', Ok tt) -> Z.of_nat (w_pos w') <= 16384 ->
  good w' /\ grows w w' /\ data_at (written w') (w_pos w) d (w_pos w').
Proof.
  intros Hw Hn He Hs. destruct d as [t b|t n|a b c t|[c|]]; cbn [encode_data data_at data_names_ok] in *.
  - apply write_data_spec in He as [Hg Ha]; [|done]. split_and!; [done|apply Ha| |by apply appends_pos in Ha as (? & _)].
    by eapply appends_subspan; [|apply good_bound|].
  - by apply encode_name_good.
  - destruct (write_ints_counted _ w) as [w1 [[]|]] eqn:Ei; [|done]. cbn [wbind] in He.
    apply write_ints_counted_spec in Ei as [Hg1 Ha1]; [|done].
    apply encode_name_good in He as (Hg2 & Hgr & Hna); [|done..].
    pose proof (appends_pos _ _ _ Ha1) as (Hp1 & _). rewrite length_ints_bytes in Hp1. cbn in Hp1.
    split_and!; [done|by eapply grows_trans; [apply Ha1|]| |].
    + apply (appends_subspan _ _ _ (written w') Ha1); [by apply good_bound|apply Hgr].
    + replace (w_pos w + 6)%nat with (w_pos w1) by lia. done.
  - apply write_data_spec in He as [Hg Ha]; [|done].
    pose proof (appends_pos _ _ _ Ha) as (Hp & _). pose proof (cookie_option_eq c) as Ec.
    assert (length (cookie_option c) = 4 + length c)%nat as Lc by (rewrite Ec, length_app, length_ints_bytes; done).
    split_and!; [done|apply Ha| |lia]. rewrite <-Ec, <-Lc. eapply appends_subspan; [exact Ha|by apply good_bound|done].
  - injection He as <-. split_and!; [done|by apply grows_refl, good_bound|done].
Qed.

(** Positions only advance. *)
Definition advances (w w' : Writer) : Prop := (w_pos w <= w_pos w' <= length (w_tmp w'))%nat.

Lemma write_ints_counted_pos values w w' :
  (w_pos w <= length (w_tmp w))%nat -> write_ints_counted values w = (w', Ok tt) -> advances w w'.
Proof.
  intros Hw. unfold write_ints_counted. pose proof (write_ints_appends values w Hw) as Hi.
  destruct (decide _) as [_|_]; [|by destruct Hi as [w1 ->]]. destruct Hi as (w1 & -> & Ha & _).
  cbn [wbind]. intros [= <-]. apply appends_pos in Ha as (? & ? & _). unfold advances. cbn in *. lia.
Qed.

Lemma write_data_pos data w w' :
  (w_pos w <= length (w_tmp w))%nat -> write_data data w = (w', Ok tt) -> advances w w'.
Proof.
  intros Hw. unfold write_data. destruct (decide _) as [|Hn]; [done|]. intros [= <-].
  assert (appends data w (emit data w)) as Ha by (apply appends_emit; lia).
  apply appends_pos in Ha as (? & ? & _). unfold advances. cbn in *. lia.
Qed.

Lemma encode_name_pos track name w w' :
  (w_pos w <= length (w_tmp w))%nat -> encode_name track name w = (w', Ok tt) -> advances w w'.
Proof.
  intros Hw. unfold encode_name. set (parts := if bool_decide _ then [] else _).
  pose proof (encode_parts_pos track parts w Hw) as Hpos. cbv zeta in Hpos.
  destruct (encode_parts track parts w) as [w1 [ptr|]]; [|done]. cbn [fst wbind] in *.
  unfold end_name. destruct ptr; [by intros [= <-]|]. destruct (decide _) as [|Hs]; [done|]. intros [= <-].
  assert (appends [0] w1 (emit [0] w1)) as Ha by (apply appends_emit; cbn; lia).
  apply appends_pos in Ha as (? & ? & _). unfold advances. destruct track; cbn in *; lia.
Qed.

Lemma encode_data_pos d w w' :
  (w_pos w <= length (w_tmp w))%nat -> encode_data d w = (w', Ok tt) -> advances w w'.
Proof.
  intros Hw. destruct d as [t b|t n|a b c t|[c|]]; cbn [encode_data].
  - by apply write_data_pos.
  - by apply encode_name_pos.
  - destruct (write_ints_counted _ w) as [w1 [[]|]] eqn:Ei; [|done]. cbn [wbind]. intros He.
    apply write_ints_counted_pos in Ei; [|done]. unfold advances in *. apply encode_name_pos in He; [|lia].
    unfold advances in *. lia.
  - by apply write_data_pos.
  - intros [= <-]. unfold advances. lia.
Qed.

(** The record as if its length had been known from the start. *)
Lemma rr_length_first d w w3 :
  (w_pos w <= length (w_tmp w))%nat -> (2 <= space w)%nat ->
  encode_data d (skip 2 (add_off 2 w)) = (w3, Ok tt) ->
  let size := be_bytes 2 (Z.of_nat (w_pos w3 - w_pos w - 2)) in
  encode_data d (add_off 2 (emit size w)) = (patch (w_pos w) size w3, Ok tt).
Proof.
  intros Hw Hs He size. assert (length size = 2%nat) as Ls by apply length_be_bytes. unfold space in Hs.
  assert (add_off 2 (emit size w) = patch (w_pos w) size (skip 2 (add_off 2 w))) as ->.
  { unfold emit, patch, skip, add_off. cbn [w_tmp w_pos w_names w_off]. by rewrite Ls. }
  rewrite encode_data_oblivious; [by rewrite He|cbn; lia|cbn; lia].
Qed.

Lemma rr_encode_spec r w w' :
  good w -> rr_ok r -> rr_encode r w = (w', Ok tt) -> Z.of_nat (w_pos w') <= 16384 ->
  good w' /\ grows w w' /\ rr_at (written w') (w_pos w) r (w_pos w').
Proof.
  intros Hw [Hname Hdata] He Hsize. unfold rr_encode in He.
  destruct (encode_name true (rr_name r) w) as [w1 [[]|]] eqn:En; [|done]. cbn [wbind] in He.
  destruct (write_ints_counted _ w1) as [w2 [[]|]] eqn:Ei; [|done]. cbn [wbind] in He.
  destruct (decide _) as [|Hsp]; [done|]. cbv zeta in He.
  destruct (encode_data _ _) as [w3 [[]|]] eqn:Ed; [|done]. cbn [wbind] in He. injection He as <-.
  assert (w_pos w1 <= w_pos w2 /\ w_pos w2 + 2 <= w_pos w3)%nat as Hord.
  { pose proof (encode_name_pos _ _ _ _ (good_bound w Hw) En) as [_ B1].
    pose proof (write_ints_counted_pos _ _ _ B1 Ei) as [? B2].
    apply encode_data_pos in Ed as [B3 _]; [cbn in B3; lia|]. cbn. unfold space in Hsp. lia. }
  change (w_pos (patch _ _ w3)) with (w_pos w3) in *.
  apply encode_name_good in En as (Hg1 & Hgr1 & Hn1); [|done|done|lia].
  apply write_ints_counted_spec in Ei as [Hg2 Ha2]; [|done].
  rewrite write_big_spec. apply rr_length_first in Ed; [|by apply good_bound|lia]. cbv zeta in Ed.
  set (size := be_bytes 2 _) in *. set (w' := patch _ size w3) in *.
  assert (length size = 2%nat) as Ls by apply length_be_bytes.
  set (w2' := add_off 2 (emit size w2)) in *.
  assert (appends size w2 w2') as Hs2 by (apply (appends_emit size w2); [lia|by apply good_bound]).
  assert (good w2') as Hg2' by (apply (good_append _ _ _ Hg2 Hs2); [done|by rewrite Ls]).
  apply encode_data_spec in Ed as (Hg3 & Hgr3 & Hd3); [|done|done|done].
  pose proof (appends_trans _ _ _ _ _ Ha2 Hs2) as Ha. pose proof (appends_pos _ _ _ Ha2) as (Hp2 & _).
  rewrite length_ints_bytes in Hp2. cbn in Hp2. assert (w_pos w2' = w_pos w1 + 10)%nat as Hp2' by (cbn; lia).
  split_and!; [done|by eapply grows_trans; [exact Hgr1|eapply grows_trans; [apply Ha|]]|].
  exists (w_pos w1). assert (grows w1 w') as Hg1' by (eapply grows_trans; [apply Ha|done]).
  split_and!; [by eapply name_at_mono; [apply Hg1'|]| |cbn in *; lia|by rewrite <-Hp2'].
  assert (ints_bytes [(2%nat, rr_type r); (2%nat, rr_class r); (4%nat, rr_ttl r); (2%nat, Z.of_nat (w_pos w3 - (w_pos w1 + 10)))]
    = ints_bytes [(2%nat, rr_type r); (2%nat, rr_class r); (4%nat, rr_ttl r)] ++ size) as ->.
  { cbn [ints_bytes mbind list_bind fst snd]. rewrite !app_nil_r, <-!app_assoc. do 4 f_equal. subst size. f_equal. cbn. lia. }
  apply (appends_subspan _ _ _ (written w')) in Ha; [|by apply good_bound|apply Hgr3].
  by rewrite length_app, Ls, length_ints_bytes in Ha.
Qed.
End Steps.

(** ** Sizes

    A name that a DNS message can carry, and the sizes without compression. *)
Definition sendable (name : bytes) : Prop := Forall (fun l => 1 <= length l <= 63)%nat (labels name).

Definition data_sendable (d : RRData) : Prop :=
  match d with
  | RR_target _ name => sendable name
  | RR_SRV _ _ _ target => sendable target
  | _ => True
  end.
Definition rr_sendable (r : ResourceRecord) : Prop := sendable (rr_name r) /\ data_sendable (rr_data r).

Definition name_size (name : bytes) : nat := length (flat (labels name)).
Definition data_size (d : RRData) : nat :=
  match d with
  | RR_bytes _ b => length b
  | RR_target _ name => name_size name
  | RR_SRV _ _ _ target => 6 + name_size target
  | RR_OPT (Some c) => 4 + length c
  | RR_OPT None => 0
  end.
Definition rr_size (r : ResourceRecord) : nat := name_size (rr_name r) + 10 + data_size (rr_data r).
Definition rrs_size (rs : list ResourceRecord) : nat := sum_list (rr_size <$> rs).

Lemma sendable_ok name : sendable name -> name_ok name.
Proof. intros Hs. eapply Forall_impl; [exact Hs|]. intros [|]; simpl; [lia|done]. Qed.

Lemma rr_sendable_ok r : rr_sendable r -> rr_ok r.
Proof. intros [? Hd]. split; [by apply sendable_ok|]. destruct (rr_data r); cbn in *; auto using sendable_ok. Qed.

(** *** Sizes with compression

    What is written depends on the suffixes of names written before: a size takes
    the set of those and gives the number of bytes and the set afterwards. A name
    ends in a pointer of two bytes at its first suffix that is known, otherwise in
    a null byte; its other suffixes become known. *)
Definition Size : Type := gset bytes -> nat * gset bytes.
Definition octet_count (n : nat) : Size := fun known => (n, known).
Definition size_seq (s1 s2 : Size) : Size := fun known =>
  let '(n1, known) := s1 known in let '(n2, known) := s2 known in ((n1 + n2)%nat, known).

Fixpoint suffixes_csize (parts : list (bytes * bytes)) : Size := fun known =>
  match parts with
  | [] => (1%nat, known)
  | (suffix, label) :: parts =>
      if decide (suffix ∈ known) then (2%nat, known)
      else let '(n, known) := suffixes_csize parts ({[suffix]} ∪ known) in ((1 + length label + n)%nat, known)
  end.
Definition name_csize (name : bytes) : Size :=
  suffixes_csize (if bool_decide (strip_dot name = []) then [] else name_parts (strip_dot name)).
Definition data_csize (d : RRData) : Size :=
  match d with
  | RR_bytes _ b => octet_count (length b)
  | RR_target _ name => name_csize name
  | RR_SRV _ _ _ target => size_seq (octet_count 6) (name_csize target)
  | RR_OPT (Some c) => octet_count (4 + length c)
  | RR_OPT None => octet_count 0
  end.
Definition rr_csize (r : ResourceRecord) : Size :=
  size_seq (name_csize (rr_name r)) (size_seq (octet_count 8) (size_seq (octet_count 2) (data_csize (rr_data r)))).
Fixpoint rrs_csize (rs : list ResourceRecord) : Size :=
  match rs with
  | [] => octet_count 0
  | r :: rs => size_seq (rr_csize r) (rrs_csize rs)
  end.
Definition head_csize (m : Message) : Size :=
  size_seq (octet_count 12)
    match question m with Some q => size_seq (name_csize (qname q)) (octet_count 4) | None => octet_count 0 end.

(** The number of bytes of a whole response. *)
Definition response_size (m : Message) : nat := (size_seq (head_csize m) (rrs_csize (body_rrs m)) ∅).1.

(** [f] writes exactly [sz] bytes if there is room for them, and throws if not. *)
Definition sized (sz : Size) (f : Writer -> Writer * outcome string unit) (w : Writer) : Prop :=
  let '(n, known) := sz (dom (w_names w)) in
  if decide (w_pos w + n <= length (w_tmp w))%nat then
    exists w', f w = (w', Ok tt) /\ w_pos w' = (w_pos w + n)%nat /\ dom (w_names w') = known
      /\ length (w_tmp w') = length (w_tmp w)
  else exists w' e, f w = (w', Throw e).

Lemma sized_bind s1 s2 f g w :
  sized s1 f w -> (forall w', (w_pos w' <= length (w_tmp w'))%nat -> sized s2 g w') ->
  sized (size_seq s1 s2) (fun w => let* (w, _) := f w in g w) w.
Proof.
  intros Hf Hg. unfold sized, size_seq in *. destruct (s1 (dom (w_names w))) as [n1 k1].
  destruct (decide (w_pos w + n1 <= length (w_tmp w))%nat) as [Hn1|Hn1].
  - destruct Hf as (w1 & -> & P1 & <- & L1). cbn [wbind]. specialize (Hg w1 ltac:(lia)).
    destruct (s2 (dom (w_names w1))) as [n2 k2]. rewrite P1, L1 in Hg.
    destruct (decide (w_pos w + n1 + n2 <= _)%nat) as [Hn2|Hn2], (decide (w_pos w + (n1 + n2) <= _)%nat); try lia; [|done].
    destruct Hg as (w2 & -> & P2 & <- & L2). exists w2. split_and!; [done|lia|done|congruence].
  - destruct Hf as (w1 & e & ->). destruct (s2 k1) as [n2 k2]. rewrite decide_False by lia. by exists w1, e.
Qed.

Section Sized.
Context `{OxencLaws}.

Lemma suffixes_sized parts w :
  (w_pos w <= length (w_tmp w))%nat -> Forall (fun l => length l <= 63)%nat parts.*2 ->
  sized (suffixes_csize parts) (fun w => let* (w, ptr) := encode_parts true parts w in end_name true ptr w) w.
Proof.
  revert w. induction parts as [|[suffix label] parts IH]; intros w Hw Hl; unfold sized; cbn [suffixes_csize encode_parts].
  - cbn [wbind]. unfold end_name, space. destruct (decide (_ - _ = 0)%nat), (decide (_ + 1 <= _)%nat); try lia; [eauto|].
    eexists. split; [done|]. cbn. rewrite length_write_at by (cbn; lia). done.
  - cbn [fmap list_fmap snd] in Hl. apply Forall_cons in Hl as [Hl Hls]. unfold space.
    destruct (w_names w !! suffix) as [off|] eqn:En.
    { rewrite decide_True by (apply elem_of_dom; eauto).
      destruct (decide (_ - _ < 2)%nat), (decide (_ + 2 <= _)%nat); try lia; [eauto|].
      eexists. split; [done|]. cbn. rewrite write_big_spec, length_write_at, length_be_bytes; [done|].
      rewrite length_be_bytes. lia. }
    rewrite decide_False by (by apply not_elem_of_dom). cbv zeta.
    set (x := Z.of_nat (length label) :: label). assert (length x = S (length label)) as Lx by done.
    set (w2 := add_off _ (add_name suffix (w_off w) (emit x w))).
    specialize (IH w2). unfold sized in IH.
    assert (dom (w_names w2) = {[suffix]} ∪ dom (w_names w)) as Ed by (cbn; apply dom_insert_L). rewrite Ed in IH.
    destruct (suffixes_csize parts ({[suffix]} ∪ dom (w_names w))) as [n known].
    destruct (decide (_ \/ _)%nat) as [Ho|Ho]; [rewrite decide_False by lia; eauto|].
    assert (w_pos w2 = w_pos w + S (length label))%nat as P2 by (cbn; lia).
    assert (length (w_tmp w2) = length (w_tmp w)) as L2 by (cbn; apply length_write_at; lia).
    rewrite P2, L2 in IH. specialize (IH ltac:(lia) Hls).
    destruct (decide (w_pos w + S (length label) + n <= _)%nat), (decide (w_pos w + (1 + length label + n) <= _)%nat); try lia; [|done].
    destruct IH as (w' & -> & P' & <- & L'). exists w'. split_and!; [done|lia|done|done].
Qed.

Lemma name_sized name w :
  (w_pos w <= length (w_tmp w))%nat -> sendable name -> sized (name_csize name) (encode_name true name) w.
Proof.
  unfold name_csize, sendable, labels, encode_name. intros Hw Hl. set (parts := if bool_decide _ then [] else name_parts _).
  assert ((if bool_decide (strip_dot name = []) then [] else (name_parts (strip_dot name)).*2) = parts.*2) as E.
  { subst parts. by case_bool_decide. }
  rewrite E in Hl. apply suffixes_sized; [done|]. eapply Forall_impl; [exact Hl|]. simpl. lia.
Qed.

Lemma ints_sized values w :
  (w_pos w <= length (w_tmp w))%nat -> sized (octet_count (sum_list values.*1)) (write_ints_counted values) w.
Proof.
  intros Hw. unfold sized, octet_count, write_ints_counted. pose proof (write_ints_appends values w Hw) as Hi. unfold space in Hi.
  destruct (decide (_ <= _ - _)%nat) as [Hd|Hd], (decide (_ + _ <= _)%nat); try lia.
  - destruct Hi as (w1 & -> & Ha & En & _). eexists. split; [done|]. pose proof Ha as [(L & _) _].
    apply appends_pos in Ha as (Hp & _). rewrite length_ints_bytes in Hp. cbn [add_off w_pos w_names w_tmp].
    split_and!; [done|by rewrite En|done].
  - destruct Hi as [w1 ->]. cbn [wbind]. eauto.
Qed.

Lemma bytes_sized data w :
  (w_pos w <= length (w_tmp w))%nat -> sized (octet_count (length data)) (write_data data) w.
Proof.
  intros Hw. unfold sized, octet_count, write_data, space.
  destruct (decide (_ - _ < _)%nat), (decide (_ + _ <= _)%nat); try lia; [eauto|].
  eexists. split; [done|]. cbn. rewrite length_write_at by lia. done.
Qed.

Lemma data_sized d w :
  (w_pos w <= length (w_tmp w))%nat -> data_sendable d -> sized (data_csize d) (encode_data d) w.
Proof.
  intros Hw Hd. destruct d as [t b|t n|a b c t|[c|]]; cbn [data_csize data_sendable encode_data] in *.
  - by apply bytes_sized.
  - by apply name_sized.
  - apply sized_bind; [by apply (ints_sized [(2%nat, a); (2%nat, b); (2%nat, c)])|]. intros. by apply name_sized.
  - assert (length (cookie_option c) = 4 + length c)%nat as <- by (rewrite cookie_option_eq, length_app, length_ints_bytes; done).
    by apply bytes_sized.
  - unfold sized, octet_count. rewrite decide_True by lia. exists w. split_and!; [done|lia|done|done].
Qed.

Lemma rr_sized r w :
  (w_pos w <= length (w_tmp w))%nat -> rr_sendable r -> sized (rr_csize r) (rr_encode r) w.
Proof.
  intros Hw [Hn Hd]. apply sized_bind; [by apply name_sized|]. intros w1 H1.
  apply (sized_bind (octet_count 8) _ _ (fun w => if decide (space w < 2)%nat then _ else _)).
  { by apply (ints_sized [(2%nat, rr_type r); (2%nat, rr_class r); (4%nat, rr_ttl r)]). }
  intros w2 H2. unfold sized, size_seq, octet_count, space. set (w3 := skip 2 (add_off 2 w2)).
  destruct (decide (_ - _ < 2)%nat) as [Hz|Hz]; [destruct (data_csize _ _); rewrite decide_False by lia; eauto|].
  pose proof (data_sized (rr_data r) w3 ltac:(cbn; lia) Hd) as Hs. unfold sized in Hs.
  change (dom (w_names w3)) with (dom (w_names w2)) in Hs. destruct (data_csize (rr_data r) (dom (w_names w2))) as [n known].
  change (w_pos w3) with (w_pos w2 + 2)%nat in Hs. change (length (w_tmp w3)) with (length (w_tmp w2)) in Hs.
  destruct (decide (w_pos w2 + 2 + n <= _)%nat), (decide (w_pos w2 + (2 + n) <= _)%nat); try lia.
  - destruct Hs as (w4 & -> & P4 & <- & L4). eexists. split; [done|]. cbn. rewrite P4, write_big_spec.
    rewrite length_write_at by (rewrite length_be_bytes; lia). split_and!; [lia|done|done].
  - destruct Hs as (w4 & e & ->). cbn [wbind]. eauto.
Qed.

Lemma rrs_sized rs w :
  (w_pos w <= length (w_tmp w))%nat -> Forall rr_sendable rs -> sized (rrs_csize rs) (encode_rrs rs) w.
Proof.
  intros Hw Hr. revert w Hw. induction Hr as [|r rs Hr Hrs IH]; intros w Hw.
  - unfold sized. cbn. rewrite decide_True by lia. exists w. split_and!; [done|lia|done|done].
  - apply sized_bind; [by apply rr_sized|apply IH].
Qed.

Lemma head_sized m w :
  (w_pos w <= length (w_tmp w))%nat -> (forall q, question m = Some q -> sendable (qname q)) ->
  sized (head_csize m) (encode_head m) w.
Proof.
  intros Hw Hq. apply sized_bind.
  - match goal with |- sized _ (write_ints_counted ?v) _ => by apply (ints_sized v) end.
  - intros w1 H1. destruct (question m) as [q|].
    + apply sized_bind; [by apply name_sized, Hq|]. intros w2 H2. by apply (ints_sized [(2%nat, qtype q); (2%nat, qclass q)]).
    + unfold sized. cbn. rewrite decide_True by lia. exists w1. split_and!; [done|lia|done|done].
Qed.
End Sized.

(** Compression only makes a response shorter. *)
Lemma suffixes_csize_le parts known : ((suffixes_csize parts known).1 <= length (flat parts.*2))%nat.
Proof.
  revert known. induction parts as [|[suffix label] parts IH]; intros known; cbn [suffixes_csize fmap list_fmap snd]; [done|].
  rewrite length_flat_cons. assert (0 < length (flat parts.*2))%nat by (unfold flat; rewrite length_app; simpl; lia).
  destruct (decide _); [cbn [fst]; lia|]. specialize (IH ({[suffix]} ∪ known)).
  destruct (suffixes_csize parts _) as [sz k]. cbn [fst] in *. lia.
Qed.

Lemma name_csize_le name known : ((name_csize name known).1 <= name_size name)%nat.
Proof.
  unfold name_csize, name_size, labels. destruct (bool_decide _); [apply (suffixes_csize_le [])|apply suffixes_csize_le].
Qed.

Lemma size_seq_le s1 s2 n1 n2 known :
  (forall k, (s1 k).1 <= n1)%nat -> (forall k, (s2 k).1 <= n2)%nat -> ((size_seq s1 s2 known).1 <= n1 + n2)%nat.
Proof.
  intros H1 H2. unfold size_seq. specialize (H1 known). destruct (s1 known) as [m1 k1]. specialize (H2 k1).
  destruct (s2 k1) as [m2 k2]. cbn [fst] in *. lia.
Qed.

Lemma rrs_csize_le rs known : ((rrs_csize rs known).1 <= rrs_size rs)%nat.
Proof.
  revert known. induction rs as [|r rs IH]; intros known; [done|]. apply size_seq_le; [|done]. intros k.
  unfold rr_csize, rr_size. rewrite <-Nat.add_assoc. apply size_seq_le; [intros; apply name_csize_le|]. intros k1.
  change (10 + data_size (rr_data r))%nat with (8 + (2 + data_size (rr_data r)))%nat.
  apply size_seq_le; [done|]. intros k2. apply size_seq_le; [done|]. intros k3.
  destruct (rr_data r) as [t b|t n|a b c t|[c|]]; try done; [apply name_csize_le|].
  apply (size_seq_le _ _ 6); [done|apply name_csize_le].
Qed.

(** Success within [n] bytes. *)
Definition fits (n : nat) (f : Writer -> Writer * outcome string unit) (w : Writer) : Prop :=
  exists w', f w = (w', Ok tt) /\ advances w w' /\ (w_pos w' <= w_pos w + n)%nat /\ length (w_tmp w') = length (w_tmp w).

Lemma sized_fits sz n f w :
  (w_pos w + n <= length (w_tmp w))%nat -> ((sz (dom (w_names w))).1 <= n)%nat -> sized sz f w -> fits n f w.
Proof.
  intros Hn Hle Hs. unfold sized, fits, advances in *. destruct (sz (dom (w_names w))) as [k known]. cbn [fst] in Hle.
  rewrite decide_True in Hs by lia. destruct Hs as (w' & E & P & _ & L). exists w'. split_and!; [done|lia..].
Qed.

Lemma encode_rrs_fits `{OxencLaws} rs w :
  (w_pos w + rrs_size rs <= length (w_tmp w))%nat -> Forall rr_sendable rs -> fits (rrs_size rs) (encode_rrs rs) w.
Proof. intros Hs Hr. eapply sized_fits; [done|apply rrs_csize_le|]. apply rrs_sized; [lia|done]. Qed.

(** ** Responses that fit *)
Section Responses.
Context `{OxencLaws}.

Lemma new_writer_good n : Z.of_nat n < 65536 -> good (new_writer n).
Proof.
  intros Hn. split; [|intros c o; cbn; by rewrite lookup_empty].
  unfold w_wf, new_writer, zero_buf. cbn. rewrite length_replicate. split_and!; [lia|lia|done].
Qed.

Lemma rr_encode_pos r w w' :
  (w_pos w <= length (w_tmp w))%nat -> rr_encode r w = (w', Ok tt) -> advances w w'.
Proof.
  intros Hw. unfold rr_encode. destruct (encode_name true (rr_name r) w) as [w1 [[]|]] eqn:En; [|done]. cbn [wbind].
  destruct (write_ints_counted _ w1) as [w2 [[]|]] eqn:Ei; [|done]. cbn [wbind].
  destruct (decide _) as [|Hsp]; [done|]. cbv zeta.
  destruct (encode_data _ _) as [w3 [[]|]] eqn:Ed; [|done]. intros [= <-].
  apply encode_name_pos in En as [A1 B1]; [|done]. apply write_ints_counted_pos in Ei as [A2 B2]; [|done].
  apply encode_data_pos in Ed as [A3 B3]; [|cbn; unfold space in Hsp; lia]. unfold advances. cbn in *.
  rewrite write_big_spec, length_write_at by (rewrite length_be_bytes; lia). lia.
Qed.

Lemma encode_rrs_pos rs w w' :
  (w_pos w <= length (w_tmp w))%nat -> encode_rrs rs w = (w', Ok tt) -> advances w w'.
Proof.
  revert w. induction rs as [|r rs IH]; intros w Hw; cbn [encode_rrs]; [intros [= <-]; unfold advances; lia|].
  destruct (rr_encode r w) as [w1 [[]|]] eqn:E1; [|done]. cbn [wbind]. intros E2.
  apply rr_encode_pos in E1 as [A1 B1]; [|done]. apply IH in E2 as [A2 B2]; [|done]. unfold advances. lia.
Qed.

Lemma encode_rrs_spec rs w w' :
  good w -> Forall rr_ok rs -> encode_rrs rs w = (w', Ok tt) -> Z.of_nat (w_pos w') <= 16384 ->
  good w' /\ grows w w' /\ rrs_at (written w') (w_pos w) rs (w_pos w').
Proof.
  intros Hw Hok. revert w Hw. induction Hok as [|r rs Hr Hrs IH]; intros w Hw He Hs.
  - injection He as <-. split_and!; [done|by apply grows_refl, good_bound|done].
  - cbn [encode_rrs] in He. destruct (rr_encode r w) as [w1 [[]|]] eqn:E1; [|done]. cbn [wbind] in He.
    pose proof (rr_encode_pos _ _ _ (good_bound w Hw) E1) as [A1 B1].
    pose proof (encode_rrs_pos _ _ _ B1 He) as [A2 _].
    apply rr_encode_spec in E1 as (Hg1 & Hgr1 & Hr1); [|done|done|lia].
    destruct (IH w1 Hg1 He Hs) as (Hg' & Hgr' & Hrs').
    split_and!; [done|by eapply grows_trans|]. exists (w_pos w1). split; [|done].
    by eapply rr_at_mono; [apply Hgr'|].
Qed.

Definition head_size (m : Message) : nat := 12 + match question m with Some q => name_size (qname q) + 4 | None => 0 end.

Lemma head_csize_le m known : ((head_csize m known).1 <= head_size m)%nat.
Proof.
  apply size_seq_le; [done|]. intros k. destruct (question m); [|done]. apply size_seq_le; [intros; apply name_csize_le|done].
Qed.

Lemma encode_head_fits m w :
  (w_pos w + head_size m <= length (w_tmp w))%nat -> (forall q, question m = Some q -> sendable (qname q)) ->
  fits (head_size m) (encode_head m) w.
Proof. intros Hs Hq. eapply sized_fits; [done|apply head_csize_le|]. apply head_sized; [lia|done]. Qed.

(** What the header and the question look like to a receiver of [msg]. *)
Definition head_at (msg : bytes) (m : Message) (e : nat) : Prop :=
  subspan 0 12 msg = ints_bytes (header_ints (hdr_id m) (response_fields m) (if question m then 1 else 0)
    (Z.of_nat (length (answers m))) (Z.of_nat (length (authorities m))) (if additional_edns m then 1 else 0))
  /\ match question m with Some q => question_at msg 12 q e | None => e = 12%nat end.

Lemma encode_head_spec m w w' :
  good w -> w_pos w = 0%nat -> (forall q, question m = Some q -> name_ok (qname q)) ->
  encode_head m w = (w', Ok tt) -> Z.of_nat (w_pos w') <= 16384 ->
  good w' /\ grows w w' /\ forall msg, written w' `prefix_of` msg -> head_at msg m (w_pos w').
Proof.
  intros Hw H0' Hq He Hs. unfold encode_head in He.
  destruct (write_ints_counted _ w) as [w1 [[]|]] eqn:E1; [|done]. cbn [wbind] in He.
  apply write_ints_counted_spec in E1 as [Hg1 Ha1]; [|done].
  pose proof (appends_pos _ _ _ Ha1) as (Hp1 & Hb1 & _). rewrite length_ints_bytes, H0' in Hp1. cbn in Hp1.
  set (hdr := header_ints _ _ _ _ _ _) in Ha1.
  assert (forall msg, written w1 `prefix_of` msg -> subspan 0 12 msg = ints_bytes hdr) as Hhdr.
  { intros msg Hm. pose proof (appends_subspan _ _ _ msg Ha1 (good_bound w Hw) Hm) as E.
    rewrite length_ints_bytes, H0' in E. exact E. }
  unfold head_at. fold hdr. destruct (question m) as [q|] eqn:Eq.
  - unfold question_encode in He. destruct (encode_name true (qname q) w1) as [w2 [[]|]] eqn:E2; [|done]. cbn [wbind] in He.
    pose proof (encode_name_pos _ _ _ _ Hb1 E2) as [_ B2]. pose proof (write_ints_counted_pos _ _ _ B2 He) as [A3 _].
    apply encode_name_good in E2 as (Hg2 & Hgr2 & Hn2); [|done|by apply Hq|lia].
    apply write_ints_counted_spec in He as [Hg3 Ha3]; [|done]. pose proof (appends_pos _ _ _ Ha3) as (Hp3 & _).
    rewrite length_ints_bytes in Hp3. cbn in Hp3.
    split_and!; [done|eapply grows_trans; [apply Ha1|eapply grows_trans; [done|apply Ha3]]|].
    intros msg Hm. split; [apply Hhdr; etrans; [apply Hgr2|etrans; [apply Ha3|done]]|].
    exists (w_pos w2). rewrite <-Hp1. split_and!; [by eapply name_at_mono; [etrans; [apply Ha3|]|]| |lia].
    pose proof (appends_subspan _ _ _ msg Ha3 (good_bound w2 Hg2) Hm) as E. by rewrite length_ints_bytes in E.
  - injection He as <-. split_and!; [done|apply Ha1|]. intros msg Hm. split; [by apply Hhdr|done].
Qed.
End Responses.


(** A response with a CNAME and an address, whose names share suffixes. *)
Module ResponseDemo.
Definition q : Question := mkQuestion (str "localhost.sesh.") 1 1.
Definition m : Message :=
  make_reply (set_rr_name (Some (str "pubkey.sesh"))
    (add_cname_reply (mkMessage false 7 256 (Some q) [] [] (Some (new_edns 1232 0)) None) (str "pubkey.sesh") 10))
    10 (RR_bytes RRType_A [10; 0; 0; 1]).
End ResponseDemo.


(** ** Responses that do not fit *)
Lemma oblivious_bind {A B} (f : Writer -> Writer * outcome string A) (g : Writer -> A -> Writer * outcome string B) w :
  oblivious f w ->
  (forall w' a, f w = (w', Ok a) -> (w_pos w <= w_pos w')%nat /\ oblivious (fun w => g w a) w') ->
  oblivious (fun w => wbind (f w) g) w.
Proof.
  intros Hf Hg p d Hp. rewrite (Hf p d Hp). destruct (f w) as [w' [a|e]]; [|done]. cbn [wbind fst snd].
  destruct (Hg w' a eq_refl) as [? Hg']. apply Hg'. lia.
Qed.

(** What is in front of [buf] stays, whatever the outcome. *)
Lemma oblivious_kept {A} (f : Writer -> Writer * outcome string A) w p n :
  oblivious f w -> (p + S n <= w_pos w)%nat -> (w_pos w <= length (w_tmp w))%nat ->
  (p + S n <= length (w_tmp (f w).1))%nat /\ subspan p (S n) (w_tmp (f w).1) = subspan p (S n) (w_tmp w).
Proof.
  intros Hf Hp Hw. set (d := subspan p (S n) (w_tmp w)).
  assert (length d = S n) as Ld by (subst d; unfold subspan; rewrite length_take, length_drop; lia).
  assert (patch p d w = w) as Ew.
  { unfold patch. replace (write_at p d (w_tmp w)) with (w_tmp w); [by destruct w|].
    unfold write_at. rewrite Ld. subst d. unfold subspan. rewrite <-drop_drop, take_drop. by rewrite take_drop. }
  specialize (Hf p d ltac:(lia)). rewrite Ew in Hf. destruct (f w) as [w' r]. cbn [fst snd] in *.
  injection Hf as Hf. assert (w_tmp w' = write_at p d (w_tmp w')) as Et by (by rewrite Hf at 1).
  assert (p + S n <= length (w_tmp w'))%nat as Hl.
  { apply (f_equal length) in Et. unfold write_at in Et. rewrite !length_app, length_take, length_drop, Ld in Et. lia. }
  split; [done|]. rewrite Et. unfold write_at. rewrite <-Ld. apply subspan_app; [rewrite length_take; lia|done].
Qed.

Lemma subspan_write_at_before p n q x b :
  (p + n <= q)%nat -> (q <= length b)%nat -> subspan p n (write_at q x b) = subspan p n b.
Proof.
  intros H1 H2. unfold subspan, write_at. rewrite drop_app_le, take_app_le by (rewrite ?length_drop, ?length_take; lia).
  rewrite <-(take_drop q b) at 2. by rewrite drop_app_le, take_app_le by (rewrite ?length_drop, ?length_take; lia).
Qed.

Lemma subspan_write_at_here p x b : (p <= length b)%nat -> subspan p (length x) (write_at p x b) = x.
Proof. intros. unfold write_at. apply subspan_app; [rewrite length_take; lia|done]. Qed.

Lemma subspan_take p n m b : (p + n <= m)%nat -> subspan p n (take m b) = subspan p n b.
Proof. intros. unfold subspan. rewrite !take_drop_commute, take_take. by rewrite Nat.min_l by lia. Qed.

Section Truncated.
Context `{OxencLaws}.

Lemma rr_encode_oblivious r w : (w_pos w <= length (w_tmp w))%nat -> oblivious (rr_encode r) w.
Proof.
  intros Hw. unfold rr_encode. apply oblivious_bind; [by apply encode_name_oblivious|].
  intros w1 [] E1. pose proof (encode_name_pos _ _ _ _ Hw E1) as [A1 B1]. split; [done|].
  apply oblivious_bind; [by apply write_ints_counted_oblivious|].
  intros w2 [] E2. pose proof (write_ints_counted_pos _ _ _ B1 E2) as [A2 B2]. split; [done|].
  intros p d Hp. rewrite space_patch by lia. destruct (decide _) as [|Hs]; [done|]. cbv zeta. unfold space in Hs.
  change (skip 2 (add_off 2 (patch p d w2))) with (patch p d (skip 2 (add_off 2 w2))).
  rewrite (encode_data_oblivious (rr_data r) (skip 2 (add_off 2 w2))) by (cbn; lia).
  destruct (encode_data _ _) as [w3 [[]|]] eqn:E3; [|done]. cbn [wbind fst snd].
  apply encode_data_pos in E3 as [A3 B3]; [|cbn; lia]. cbn in A3. f_equal. unfold patch. cbn [w_tmp w_pos w_names w_off].
  f_equal. symmetry. apply write_at_comm; [done|]. rewrite write_big_spec, length_be_bytes. lia.
Qed.

Lemma encode_rrs_oblivious rs w : (w_pos w <= length (w_tmp w))%nat -> oblivious (encode_rrs rs) w.
Proof.
  revert w. induction rs as [|r rs IH]; intros w Hw; [done|]. apply oblivious_bind; [by apply rr_encode_oblivious|].
  intros w1 [] E1. pose proof (rr_encode_pos _ _ _ Hw E1) as [A1 B1]. split; [done|]. by apply IH.
Qed.

(** The bytes from 2 to 6 after the handler of [std::out_of_range]. *)
Lemma encode_truncated_bytes m len w msg :
  (12 <= Z.to_nat len <= length (w_tmp w))%nat -> encode_truncated m len w = Value msg ->
  subspan 2 4 msg = be_bytes 4 (Z.lor (response_fields m) flags_TC).
Proof.
  intros Hlen. unfold encode_truncated. rewrite !write_big_spec.
  set (x := be_bytes 4 (Z.lor _ _)). assert (length x = 4%nat) as Lx by apply length_be_bytes.
  set (tmp := write_at 6 (be_bytes 4 0) (write_at 2 x (w_tmp w))).
  assert (length (write_at 2 x (w_tmp w)) = length (w_tmp w)) as L1 by (apply length_write_at; lia).
  assert (length tmp = length (w_tmp w)) as L2 by (subst tmp; rewrite length_write_at by (rewrite length_be_bytes; lia); done).
  assert (subspan 2 4 tmp = x) as Hx.
  { subst tmp. rewrite subspan_write_at_before by lia. rewrite <-Lx. apply subspan_write_at_here. lia. }
  set (w1 := rewind tmp len w). assert (w_pos w1 = Z.to_nat len /\ w_tmp w1 = tmp) as [P1 T1] by done.
  destruct (additional_edns m) as [e|].
  - assert (w_pos w1 <= length (w_tmp w1))%nat as B1 by (rewrite P1, T1; lia).
    destruct (oblivious_kept (rr_encode (edns_rr e)) w1 2 3) as [Hl Hk]; [by apply rr_encode_oblivious|lia|done|].
    destruct (oblivious_kept (rr_encode (edns_rr e)) w1 0 9) as [Hl' _]; [by apply rr_encode_oblivious|lia|done|].
    destruct (rr_encode (edns_rr e) w1) as [w2 [[]|]] eqn:Ee; cbn [fst] in *.
    + intros [= <-]. apply rr_encode_pos in Ee as [A _]; [|done]. unfold written. rewrite subspan_take by lia.
      by rewrite Hk, T1.
    + destruct (decide _) as [|_]; [done|]. intros [= <-]. unfold written, rewind. cbn [w_pos w_tmp].
      rewrite subspan_take, subspan_write_at_before by lia. by rewrite Hk, T1.
  - intros [= <-]. unfold written. rewrite subspan_take by lia. by rewrite T1.
Qed.
End Truncated.

Lemma lor_16 a b : 0 <= a < 65536 -> 0 <= b < 65536 -> 0 <= Z.lor a b < 65536.
Proof.
  intros Ha Hb. assert (0 <= Z.lor a b) by (apply Z.lor_nonneg; lia). split; [done|].
  assert (Z.lor a b / 2 ^ 16 = 0) as E.
  { rewrite <-Z.shiftr_div_pow2, Z.shiftr_lor, !Z.shiftr_div_pow2, !Z.div_small by lia. done. }
  apply Z.div_small_iff in E; lia.
Qed.

Lemma be_bytes_4_2 v : 0 <= v < 65536 -> be_bytes 4 v = [0; 0] ++ be_bytes 2 v.
Proof.
  intros Hv. unfold be_bytes. cbn [le_bytes rev app]. assert (v / 256 / 256 = 0) as ->; [|done].
  rewrite Z.div_div by lia. apply Z.div_small. lia.
Qed.

(** A response that has to be truncated goes out with a broken header: the
    flags and the truncation bit are written as a four-byte integer, so that the
    flags of the message are all zero (it does not even claim to be a response)
    and the flags stand where the number of questions should be. *)
Theorem truncated_header_broken `{OxencLaws} max_size m w w' e msg :
  (forall q, question m = Some q -> sendable (qname q)) ->
  Z.of_nat (encode_limit max_size (additional_edns m)) < 65536 ->
  encode_head m (new_writer (encode_limit max_size (additional_edns m))) = (w, Ok tt) ->
  Z.of_nat (w_pos w) <= 16384 -> encode_rrs (body_rrs m) w = (w', Throw e) ->
  message_encode max_size m = Ok (Value msg) ->
  subspan 2 2 msg = [0; 0] /\ subspan 4 2 msg = be_bytes 2 (Z.lor (response_fields m) flags_TC).
Proof.
  intros Hq Hlim Eh Hsz Er. unfold message_encode. rewrite Eh, Er. intros [= Ht].
  apply encode_head_spec in Eh as (Hg & _ & Hhead);
    [|by apply new_writer_good|done|intros q Eq; by apply sendable_ok, Hq|done].
  pose proof (good_bound w Hg) as Hb. destruct Hg as [(_ & _ & Eo) _].
  assert (12 <= w_pos w)%nat as Hp.
  { destruct (Hhead (written w)) as [Hh _]; [done|]. apply (f_equal length) in Hh. rewrite length_ints_bytes in Hh.
    unfold subspan in Hh. rewrite length_take, length_drop, length_written in Hh by done. change (sum_list _) with 12%nat in Hh. lia. }
  destruct (oblivious_kept (encode_rrs (body_rrs m)) w 0 (w_pos w - 1)) as [Hl _]; [by apply encode_rrs_oblivious|lia|done|].
  rewrite Er in Hl. cbn [fst] in Hl.
  assert (subspan 2 4 msg = be_bytes 4 (Z.lor (response_fields m) flags_TC)) as H4.
  { eapply encode_truncated_bytes; [|exact Ht]. rewrite Eo, Nat2Z.id. lia. }
  rewrite be_bytes_4_2 in H4.
  2:{ apply lor_16; [|unfold flags_TC; lia]. unfold response_fields, clear_flags, wrap. apply Z.mod_pos_bound. lia. }
  split.
  - transitivity (take 2 (subspan 2 4 msg)); [unfold subspan; by rewrite take_take|]. by rewrite H4.
  - transitivity (drop 2 (subspan 2 4 msg)); [|by rewrite H4].
    pose proof (take_drop_commute (drop 2 msg) 2 2) as E. by rewrite drop_drop in E.
Qed.

(** Fifty addresses do not fit 512 bytes. *)
Module TruncatedDemo.
Definition m : Message :=
  mkMessage false 7 34176 (Some (mkQuestion (str "a.sesh.") 1 1))
    (replicate 50 (mkRR (str "a.sesh.") RRClass_IN 10 (RR_bytes RRType_A [10; 0; 0; 1]))) [] None None.
Definition head : Writer * outcome string unit := @encode_head bencode m (new_writer 512).
Definition run : Writer * outcome string unit := @encode_rrs bencode (body_rrs m) head.1.
End TruncatedDemo.

Lemma truncated_header_broken_witness :
  exists msg, @message_encode bencode false TruncatedDemo.m = Ok (Value msg)
    /\ subspan 2 2 msg = [0; 0] /\ subspan 4 2 msg = [135; 128].
Proof.
  destruct (@message_encode bencode false TruncatedDemo.m) as [[msg|]|] eqn:E; [|vm_compute in E; discriminate..].
  exists msg. split; [reflexivity|]. replace [135; 128] with (be_bytes 2 (Z.lor (response_fields TruncatedDemo.m) flags_TC))
    by (vm_compute; reflexivity).
  apply (@truncated_header_broken bencode bencode_laws false TruncatedDemo.m TruncatedDemo.head.1 TruncatedDemo.run.1
    out_of_range msg).
  - intros q [= <-]. repeat constructor; cbn; lia.
  - apply Z.ltb_lt. vm_compute. reflexivity.
  - vm_compute. reflexivity.
  - apply Z.leb_le. vm_compute. reflexivity.
  - vm_compute. reflexivity.
  - exact E.
Defined.

(** *** Payload sizes below a header

    A client chooses the size of the buffer through its EDNS record. *)
Section Small.
Context `{OxencLaws}.

(** The EDNS record does not fit into a byte or less. *)
Lemma edns_needs_space e w :
  (w_pos w <= length (w_tmp w))%nat -> (space w <= 1)%nat ->
  exists w', rr_encode (edns_rr e) w = (w', Throw out_of_range) /\ length (w_tmp w') = length (w_tmp w).
Proof.
  intros Hw Hs. unfold rr_encode, encode_name. cbn [rr_name edns_rr strip_dot last option_map].
  rewrite bool_decide_true by done. cbn [encode_parts wbind end_name].
  destruct (decide (space w = 0)%nat) as [|Hz]; [eauto|]. cbn [wbind].
  assert (appends [0] w (emit [0] w)) as Ha by (apply appends_emit; cbn; lia).
  pose proof (appends_pos _ _ _ Ha) as (_ & Hp & Hsp). cbn [length] in Hsp.
  unfold write_ints_counted. cbn [write_ints_into]. unfold write_int_into.
  change (space (add_off 1 (emit [0] w))) with (space (emit [0] w)). destruct (decide _) as [_|?]; [|lia].
  cbn [wbind]. eexists. split; [done|]. cbn [add_off w_tmp]. by apply length_emit; [cbn; lia|].
Qed.

(** The header of a message without a question. *)
Lemma encode_head_plain m n :
  question m = None -> Z.of_nat n < 65536 ->
  if decide (12 <= n)%nat
  then exists w, encode_head m (new_writer n) = (w, Ok tt) /\ w_pos w = 12%nat /\ w_off w = 12 /\ length (w_tmp w) = n
  else exists w, encode_head m (new_writer n) = (w, Throw out_of_range).
Proof.
  intros Hq Hn. unfold encode_head, write_ints_counted. rewrite Hq. set (hdr := header_ints _ _ _ _ _ _).
  destruct (new_writer_ok n) as (Hp0 & Hs0 & _). pose proof (write_ints_appends hdr (new_writer n) Hp0) as Hi.
  rewrite Hs0 in Hi. change (sum_list (hdr.*1)) with 12%nat in *. destruct (decide (12 <= n)%nat) as [Hle|Hle].
  - destruct Hi as (w & -> & Ha & _ & Eo). cbn [wbind]. eexists. split; [done|].
    pose proof Ha as [(L & _) _]. apply appends_pos in Ha as (P & _). rewrite length_ints_bytes in P.
    change (sum_list (hdr.*1)) with 12%nat in P. cbn [add_off w_pos w_off w_tmp]. rewrite P, Eo, L. split_and!; [done|done|].
    unfold new_writer, zero_buf. cbn [w_tmp]. apply length_replicate.
  - destruct Hi as (w & ->). eauto.
Qed.
End Small.

(** A query without a question is answered with its EDNS record only, in a
    buffer of the size the client announced.  Below twelve bytes the encoder
    throws, outside its own handler; with twelve or thirteen the count it resets
    at the end is written as four bytes at offset ten, past the end. *)
Theorem small_payload_undefined `{OxencLaws} m e :
  question m = None -> answers m = [] -> authorities m = [] -> additional_edns m = Some e ->
  0 <= max_payload e <= 13 ->
  message_encode false m = if max_payload e <? 12 then Throw out_of_range else Ok Undefined.
Proof.
  intros Hq Ha Hn He Hp. unfold message_encode, encode_limit, body_rrs. rewrite Ha, Hn, He. cbn [app].
  pose proof (encode_head_plain m (Z.to_nat (max_payload e)) Hq ltac:(lia)) as Hh.
  destruct (decide _) as [Hle|Hle]; destruct (Z.ltb_spec (max_payload e) 12); try lia.
  - destruct Hh as (w & -> & P & O & L). cbn [encode_rrs].
    destruct (edns_needs_space e w) as (w' & -> & L'); [lia|unfold space; lia|]. cbn [wbind].
    unfold encode_truncated. rewrite He, O. set (tmp := write_at 6 _ _).
    assert (length tmp = length (w_tmp w)) as Lt.
    { subst tmp. rewrite !write_big_spec. rewrite !length_write_at; rewrite ?length_be_bytes; [lia..|].
      rewrite length_write_at; rewrite ?length_be_bytes; lia. }
    destruct (edns_needs_space e (rewind tmp 12 w')) as (w2 & -> & L2); [cbn; lia|unfold space; cbn; lia|].
    destruct (decide _) as [_|Hd]; [done|]. cbn [rewind w_tmp] in L2. lia.
  - by destruct Hh as (w & ->).
Qed.

(** A query of a client that announces 12 bytes and asks nothing. *)
Lemma small_payload_undefined_witness :
  @message_encode bencode false (mkMessage false 7 256 None [] [] (Some (new_edns 12 0)) None) = Ok Undefined.
Proof.
  apply (@small_payload_undefined bencode bencode_laws (mkMessage false 7 256 None [] [] (Some (new_edns 12 0)) None)
    (new_edns 12 0)); try reflexivity. cbn. lia.
Defined.
