(* ===== verification/DnsQuery.v ===== *)
(** * DNS queries and cookies

    Properties of [Message::extract_question] (dns/message.cpp), as defined in
    [DnsMessage]: what a well-formed query is read as, how a malformed one is
    answered, and the life of the server cookies of RFC 9018. *)

From Stdlib Require Import ZArith Lia.
From stdpp Require Import base list numbers gmap strings.
From S2P Require Import Prelude Oxenc DnsWire DnsMessage.

Open Scope router_scope.
Open Scope Z_scope.

(** The SipHash of libsodium has eight bytes. *)
Definition siphash_ok (siphash24 : bytes -> bytes -> bytes) : Prop :=
  forall m k, length (siphash24 m k) = 8%nat.

(** ** Cookies *)
Section Cookies.
Context `{OxencLaws} (siphash24 : bytes -> bytes -> bytes) (secret client_ip : bytes).

Lemma length_server_cookie (c : bytes) (ts : Z) :
  siphash_ok siphash24 -> length c = 8%nat ->
  length (make_server_cookie siphash24 secret client_ip c ts) = 24%nat.
Proof.
  intros Hs Hc. unfold make_server_cookie. rewrite !length_app, Hs, write_big_spec, length_be_bytes. cbn [length]. lia.
Qed.

Lemma server_cookie_time (c : bytes) (ts : Z) :
  length c = 8%nat -> 0 <= ts < 2 ^ 32 ->
  load_big_to_host 4 (drop 12 (make_server_cookie siphash24 secret client_ip c ts)) = ts
  /\ take 8 (make_server_cookie siphash24 secret client_ip c ts) = c.
Proof.
  intros Hc Ht. unfold make_server_cookie. split; [|by rewrite take_app_length'].
  rewrite load_big_spec, write_big_spec. replace (drop 12 _) with
    (be_bytes 4 (wrap 32 ts) ++ siphash24 (c ++ ([1; 0; 0; 0] ++ be_bytes 4 (wrap 32 ts)) ++ client_ip) secret).
  - rewrite take_app_length' by (by rewrite length_be_bytes). rewrite be_value_be_bytes. unfold wrap.
    rewrite (Z.mod_small ts) by lia. apply Z.mod_small. lia.
  - replace 12%nat with (length c + 4)%nat by lia. rewrite <-drop_drop, drop_app_length. by rewrite <-app_assoc.
Qed.
End Cookies.

(** The life of a DNS cookie.  A client that sends its eight bytes gets a
    cookie made of them, the time and a hash bound to its address.  When it comes
    back, the server keeps it if it was issued within the last half hour (and not
    more than five minutes ahead), replaces it without an error up to an hour, and
    after that answers BADCOOKIE with a new one.  Any other 24 bytes, in
    particular a cookie issued to an address with another hash, are BADCOOKIE. *)
Theorem cookie_lifecycle `{OxencLaws} siphash24 secret ip (c : bytes) (ts now : Z) (e : PRR_EDNS) :
  siphash_ok siphash24 -> length c = 8%nat -> 0 <= ts < 2 ^ 32 -> cookie e = None -> bad_cookie e = false ->
  let issue t := make_server_cookie siphash24 secret ip c t in
  let answer value := handle_cookie siphash24 secret ip now value e in
  answer c = Ok (set_cookie (issue now) false e)
  /\ answer (issue ts) =
       (if (now - 1800 <=? ts) && (ts <=? now + 300) then Ok (set_cookie (issue ts) false e)
        else Ok (set_cookie (issue now) ((ts <? now - 3600) || (now + 300 <? ts)) e))
  /\ (forall value, length value = 24%nat -> (forall c' t, value <> make_server_cookie siphash24 secret ip c' t) ->
        exists e', answer value = Ok e' /\ bad_cookie e' = true /\ edns_ttl e' = 2 ^ 24)
  /\ (forall ip', let stamp := [1; 0; 0; 0] ++ be_bytes 4 ts in
        siphash24 (c ++ stamp ++ ip') secret <> siphash24 (c ++ stamp ++ ip) secret ->
        exists e', answer (make_server_cookie siphash24 secret ip' c ts) = Ok e' /\ bad_cookie e' = true).
Proof.
  intros Hs Hc Ht He Hb issue answer. subst issue answer. unfold handle_cookie. rewrite He. split_and!.
  - by rewrite decide_True by done.
  - rewrite decide_False, decide_True by (rewrite length_server_cookie; done).
    destruct (server_cookie_time siphash24 secret ip c ts Hc Ht) as [-> ->].
    rewrite bool_decide_true by done. cbn [negb andb orb]. done.
  - intros value Hl Hne. rewrite decide_False, decide_True by lia. rewrite bool_decide_false by apply Hne.
    cbn [negb andb orb]. eexists. split; [done|done].
  - intros ip' Hh. rewrite decide_False, decide_True by (rewrite length_server_cookie; done).
    destruct (server_cookie_time siphash24 secret ip' c ts Hc Ht) as [-> ->].
    rewrite bool_decide_false.
    + cbn [negb andb orb]. eexists. split; done.
    + unfold make_server_cookie, wrap. rewrite write_big_spec, Z.mod_small by lia. intros E.
      apply app_inv_head, app_inv_head in E. done.
Qed.

(** A hash of eight times the sum of its input. *)
Definition demo_siphash (m k : bytes) : bytes := replicate 8 (foldr Z.add 0 (m ++ k) mod 256).

Lemma cookie_lifecycle_witness :
  @handle_cookie bencode demo_siphash [9] [1; 2; 3; 4] 2000
    (@make_server_cookie bencode demo_siphash [9] [1; 2; 3; 4] (replicate 8 7) 1000) (new_edns 512 0)
  = Ok (set_cookie (@make_server_cookie bencode demo_siphash [9] [1; 2; 3; 4] (replicate 8 7) 1000) false (new_edns 512 0)).
Proof.
  destruct (@cookie_lifecycle bencode bencode_laws demo_siphash [9] [1; 2; 3; 4] (replicate 8 7) 1000 2000 (new_edns 512 0))
    as (_ & E & _).
  - intros m k. apply length_replicate.
  - reflexivity.
  - lia.
  - reflexivity.
  - reflexivity.
  - exact E.
Defined.

(** ** Queries *)

Ltac int_range :=
  first [ done | change (256 ^ Z.of_nat 2) with 65536; lia | change (256 ^ Z.of_nat 4) with (2 ^ 32); lia ].

(** The options of an OPT record: codes and values. *)
Definition opt_bytes (opts : list (Z * bytes)) : bytes :=
  mbind (fun o => ints_bytes [(2%nat, o.1); (2%nat, Z.of_nat (length o.2))] ++ o.2) opts.

Definition opts_ok (opts : list (Z * bytes)) : Prop :=
  Forall (fun o => 0 <= o.1 < 65536 /\ Z.of_nat (length o.2) < 65536) opts.

(** The EDNS record of a query: payload size, flags and options. *)
Definition client_opt (payload pttl : Z) (opts : list (Z * bytes)) : bytes :=
  [0] ++ ints_bytes [(2%nat, RRType_OPT); (2%nat, payload); (4%nat, pttl); (2%nat, Z.of_nat (length (opt_bytes opts)))]
      ++ opt_bytes opts.

Section Queries.
Context `{OxencLaws} (siphash24 : bytes -> bytes -> bytes) (secret client_ip : bytes) (now : Z).

(** What the options make of a new record: cookies one after the other. *)
Fixpoint apply_opts (opts : list (Z * bytes)) (e : PRR_EDNS) : PRR_EDNS * outcome string unit :=
  match opts with
  | [] => (e, Ok tt)
  | (code, value) :: opts =>
      match (if code =? OPT_COOKIE then handle_cookie siphash24 secret client_ip now value e else Ok e) with
      | Ok e => apply_opts opts e
      | Throw x => (e, Throw x)
      end
  end.

Lemma load_ints_at n (v : Z) (pre rest : bytes) k :
  length pre = k -> 0 <= v < 256 ^ Z.of_nat n -> load_big_to_host n (drop k (pre ++ be_bytes n v ++ rest)) = v.
Proof.
  intros <- Hv. rewrite drop_app_length, load_big_spec, take_app_length' by by rewrite length_be_bytes.
  rewrite be_value_be_bytes. by apply Z.mod_small.
Qed.

Lemma opt_loop_apply opts fuel e :
  opts_ok opts -> (length (opt_bytes opts) < fuel)%nat ->
  opt_loop siphash24 secret client_ip now fuel (opt_bytes opts) e = apply_opts opts e.
Proof.
  intros Hok. revert fuel e. induction Hok as [|[code value] opts [Hc Hl] Hok IH]; intros [|fuel] e Hf; try (cbn in Hf; lia); [done|].
  cbn [fst snd] in *. change (opt_bytes ((code, value) :: opts)) with
    ((ints_bytes [(2%nat, code); (2%nat, Z.of_nat (length value))] ++ value) ++ opt_bytes opts) in *.
  set (tl := opt_bytes opts) in *. cbn [ints_bytes mbind list_bind fst snd] in *. rewrite app_nil_r in *.
  pose proof (length_be_bytes 2 code) as L1. pose proof (length_be_bytes 2 (Z.of_nat (length value))) as L2.
  rewrite <-!app_assoc in *. rewrite !length_app, L1, L2 in Hf.
  cbn [opt_loop]. rewrite bool_decide_false by (intros E; apply (f_equal length) in E; rewrite length_app, L1 in E; done).
  rewrite decide_False by (rewrite !length_app, L1, L2; lia).
  pose proof (load_ints_at 2 code [] (be_bytes 2 (Z.of_nat (length value)) ++ value ++ tl) 0 eq_refl ltac:(int_range)) as E1.
  rewrite drop_0 in E1. cbn [app] in E1. rewrite E1.
  rewrite (load_ints_at 2 (Z.of_nat (length value)) (be_bytes 2 code)) by int_range. rewrite Nat2Z.id.
  assert (drop 4 (be_bytes 2 code ++ be_bytes 2 (Z.of_nat (length value)) ++ value ++ tl) = value ++ tl) as ->.
  { rewrite app_assoc, drop_app_length'; [done|]. rewrite length_app, L1, L2. done. }
  rewrite decide_False by (rewrite length_app; lia). rewrite take_app_length, drop_app_length. cbn [apply_opts].
  destruct (if code =? OPT_COOKIE then _ else _); [|done]. apply IH. lia.
Qed.

Lemma client_opt_extract payload pttl opts rest :
  0 <= payload < 65536 -> 0 <= pttl < 2 ^ 32 -> Z.of_nat (length (opt_bytes opts)) < 65536 ->
  parsed_rr_extract (client_opt payload pttl opts ++ rest)
  = Some (mkParsedRR [dot] RRType_OPT payload pttl (opt_bytes opts), rest).
Proof.
  intros Hp Ht Hl. unfold parsed_rr_extract, client_opt. rewrite <-!app_assoc.
  change [0] with (flat []). rewrite extract_name_flat by constructor.
  cbn [ints_bytes mbind list_bind fst snd]. rewrite app_nil_r. set (tl := opt_bytes opts) in *.
  set (len := Z.of_nat (length tl)) in *. assert (0 <= len < 256 ^ Z.of_nat 2) as Hlen by (subst len; change (256 ^ Z.of_nat 2) with 65536; lia).
  pose proof (length_be_bytes 2 RRType_OPT) as L1. pose proof (length_be_bytes 2 payload) as L2.
  pose proof (length_be_bytes 4 pttl) as L3. pose proof (length_be_bytes 2 len) as L4. rewrite <-!app_assoc.
  rewrite decide_False by (rewrite !length_app, L1, L2, L3, L4; lia).
  pose proof (load_ints_at 2 RRType_OPT [] (be_bytes 2 payload ++ be_bytes 4 pttl ++ be_bytes 2 len ++ tl ++ rest) 0
    eq_refl ltac:(done)) as E1.
  rewrite drop_0 in E1. cbn [app] in E1. rewrite E1. rewrite (load_ints_at 2 payload (be_bytes 2 RRType_OPT) _ 2) by int_range.
  rewrite (app_assoc (be_bytes 2 RRType_OPT)).
  rewrite (load_ints_at 4 pttl (be_bytes 2 RRType_OPT ++ be_bytes 2 payload) _ 4) by int_range.
  rewrite (app_assoc _ (be_bytes 4 pttl)).
  rewrite (load_ints_at 2 len ((be_bytes 2 RRType_OPT ++ be_bytes 2 payload) ++ be_bytes 4 pttl) _ 8) by int_range.
  rewrite (app_assoc _ (be_bytes 2 len) (tl ++ rest)), drop_app_length' by (by rewrite !length_app, L1, L2, L3, L4).
  subst len. rewrite Nat2Z.id, decide_False by (rewrite length_app; lia). by rewrite take_app_length, drop_app_length.
Qed.
End Queries.

(** A query in standard form, a question and possibly an EDNS record with
    options, is read as just that: the id and flags, the name with a dot at the
    end, the payload size capped at 1232, the DO flag, and the cookie answered.
    An option that cannot be accepted turns the message into a FORMERR reply. *)
Theorem query_read `{OxencLaws} siphash24 secret ip now id fields q (edns : option (Z * Z * list (Z * bytes))) rest :
  length ip = 4%nat \/ length ip = 16%nat -> 0 <= id < 65536 -> 0 <= fields < 65536 -> question_ok q ->
  (forall p t opts, edns = Some (p, t, opts) ->
     0 <= p < 65536 /\ 0 <= t < 2 ^ 32 /\ opts_ok opts /\ Z.of_nat (length (opt_bytes opts)) < 65536) ->
  extract_question siphash24 secret ip now
    (ints_bytes (header_ints id fields 1 0 0 (if edns then 1 else 0)) ++ question_bytes q ++
     match edns with Some (p, t, opts) => client_opt p t opts | None => [] end ++ rest)
  = Ok (Some
     match edns with
     | None => mkMessage false id fields (Some q) [] [] None None
     | Some (p, t, opts) =>
         match apply_opts siphash24 secret ip now opts (new_edns (p `min` 1232) t) with
         | (e, Ok _) => mkMessage false id fields (Some q) [] [] (Some e) None
         | (e, Throw _) => formerr (mkMessage true id fields (Some q) [] [] (Some e) None)
         end
     end).
Proof.
  intros Hip Hid Hf Hq He. unfold extract_question. rewrite bool_decide_true by done. cbn [negb].
  set (ar := if edns then 1 else 0). assert (0 <= ar < 65536) as Har by (destruct edns; subst ar; lia).
  change (header_ints id fields 1 0 0 ar) with (zip [2; 2; 2; 2; 2; 2]%nat [id; fields; 1; 0; 0; ar]).
  rewrite extract_ints_app by done. cbn [zip_with].
  rewrite !Z.mod_small by (change (256 ^ Z.of_nat 2) with 65536; lia). cbn [Z.ltb Z.compare Pos.compare].
  unfold extract_body. change (1 =? 0) with false. change (1 <? 1) with false. cbn match.
  rewrite question_extract_bytes by done. cbn [negb skip_rrs outcome_bind]. change (Z.to_nat 0) with 0%nat.
  cbn [skip_rrs outcome_bind]. subst ar. destruct edns as [[[p t] opts]|].
  - destruct (He p t opts eq_refl) as (Hp & Ht & Hok & Hl). change (Z.to_nat 1) with 1%nat. cbn [additional_loop].
    rewrite client_opt_extract by done. cbn [p_name p_type p_rdata p_class p_ttl].
    rewrite bool_decide_true by done. change (RRType_OPT =? RRType_OPT) with true. cbn [negb orb].
    rewrite opt_loop_apply by (done || lia). destruct (apply_opts _ _ _ _ _ _) as [e [[]|]]; done.
  - done.
Qed.

Lemma query_read_witness :
  @extract_question bencode demo_siphash [9] [1; 2; 3; 4] 2000
    [0; 7; 1; 0; 0; 1; 0; 0; 0; 0; 0; 1; 1; 97; 0; 0; 1; 0; 1; 0; 0; 41; 16; 0; 0; 0; 128; 0; 0; 12;
     0; 10; 0; 8; 7; 7; 7; 7; 7; 7; 7; 7]
  = Ok (Some (mkMessage false 7 256 (Some (mkQuestion [97; 46] 1 1)) [] []
      (Some (set_cookie (@make_server_cookie bencode demo_siphash [9] [1; 2; 3; 4] (replicate 8 7) 2000) false
         (new_edns 1232 32768))) None)).
Proof.
  apply (@query_read bencode bencode_laws demo_siphash [9] [1; 2; 3; 4] 2000 7 256 (mkQuestion [97; 46] 1 1)
    (Some (4096, 32768, [(10, replicate 8 7)])) []).
  - left. reflexivity.
  - lia.
  - lia.
  - split; [|simpl; lia]. exists [[97]]. split; [|reflexivity].
    constructor; [|constructor]. split; [simpl; lia|]. unfold dot. set_solver.
  - intros p t opts [= <- <- <-]. split; [lia|]. split; [lia|]. split; [|simpl; lia].
    constructor; [simpl; lia|constructor].
Defined.

(** ** Malformed queries *)

(** The response code is the low four bits of the flags. *)
Lemma apply_rcode_bits m rcode authoritative i :
  0 <= i < 4 -> Z.testbit (hdr_fields (apply_rcode m rcode authoritative)) i = Z.testbit rcode i.
Proof.
  intros Hi. unfold apply_rcode, set_rcode.
  assert (i = 0 \/ i = 1 \/ i = 2 \/ i = 3) as Hcases by lia.
  assert (Z.testbit (Z.lor (Z.land (hdr_fields m) flags_RCODE_mask) rcode) i = Z.testbit rcode i) as Hr.
  { rewrite Z.lor_spec, Z.land_spec. destruct Hcases as [->|[->|[->| ->]]]; by rewrite andb_false_r. }
  cbn [set_hdr_fields question hdr_fields]. destruct (question m); cbn [hdr_fields set_hdr_fields]; [|done].
  destruct authoritative; [|unfold clear_flags, wrap; rewrite Z.mod_pow2_bits_low, Z.ldiff_spec by lia];
    rewrite ?Z.lor_spec, ?Z.land_spec; destruct Hcases as [->|[->|[->| ->]]]; cbn;
    by rewrite ?andb_false_r, ?orb_false_r, ?andb_true_r.
Qed.

(** Every datagram is answered safely: without twelve bytes it is ignored;
    anything longer gives a message with the sender's id and no answers, and when
    the rest cannot be read as one question with records after it, that message
    is a FORMERR reply.  No input makes the parser throw. *)
Theorem malformed_query_answered `{OxencLaws} siphash24 secret ip now buf :
  length ip = 4%nat \/ length ip = 16%nat -> is_bytes buf ->
  if decide (length buf < 12)%nat then extract_question siphash24 secret ip now buf = Ok None
  else exists m, extract_question siphash24 secret ip now buf = Ok (Some m)
    /\ hdr_id m = be_value (take 2 buf) /\ answers m = [] /\ authorities m = []
    /\ (bad_extract m = true -> forall i, 0 <= i < 4 -> Z.testbit (hdr_fields m) i = Z.testbit RCODE_FormErr i)
    /\ (1 < be_value (subspan 4 2 buf) -> bad_extract m = true)
    /\ (bad_extract m = false -> hdr_fields m = be_value (subspan 2 2 buf)).
Proof.
  intros Hip Hb. unfold extract_question. rewrite bool_decide_true by done. cbn [negb].
  destruct (extract_ints _ buf) as [[vs rest]|] eqn:E; unfold extract_ints in E.
  2:{ change (sum_list _) with 12%nat in E. destruct (decide (length buf < 12)%nat) as [?|Hd]; [done|exfalso].
      cbn [extract_each] in E. unfold extract_int in E.
      repeat (destruct (decide (_ < 2)%nat) as [Hs|_] in E; [rewrite ?length_drop in Hs; lia|]). done. }
  change (sum_list _) with 12%nat in E. destruct (decide (length buf < 12)%nat) as [?|Hd]; [done|].
  assert (vs = [be_value (take 2 buf); be_value (subspan 2 2 buf); be_value (subspan 4 2 buf);
                be_value (subspan 6 2 buf); be_value (subspan 8 2 buf); be_value (subspan 10 2 buf)]) as ->.
  { cbn [extract_each] in E. unfold extract_int in E.
    repeat (destruct (decide (_ < 2)%nat) as [Hs|_] in E; [rewrite ?length_drop in Hs; lia|]). injection E as <- _.
    rewrite !load_big_spec, !drop_drop. done. }
  destruct (Z.ltb_spec 1 (be_value (subspan 4 2 buf))).
  - eexists. split; [done|]. split_and!; try done. intros _ i Hi. by apply apply_rcode_bits.
  - destruct (extract_body _ _ _ _ _ _ _ _ _) as [[q e] [[]|]]; (eexists; split; [done|]); [split_and!; (done || lia)|].
    assert (forall i, 0 <= i < 4 -> Z.testbit (hdr_fields (formerr (mkMessage true (be_value (take 2 buf))
      (be_value (subspan 2 2 buf)) q [] [] e None))) i = Z.testbit RCODE_FormErr i) by (intros; by apply apply_rcode_bits).
    destruct q; by split_and!.
Qed.

Lemma malformed_query_answered_witness :
  exists m, @extract_question bencode demo_siphash [9] [1; 2; 3; 4] 2000 [0; 7; 1; 0; 0; 1; 0; 0; 0; 0; 0; 0; 5; 97] = Ok (Some m)
    /\ bad_extract m = true /\ Z.testbit (hdr_fields m) 0 = true.
Proof.
  pose proof (@malformed_query_answered bencode bencode_laws demo_siphash [9] [1; 2; 3; 4] 2000
    [0; 7; 1; 0; 0; 1; 0; 0; 0; 0; 0; 0; 5; 97] (or_introl eq_refl)) as Hm.
  destruct Hm as (m & E & _ & _ & _ & Hbad & _).
  - apply (bool_decide_unpack (is_bytes [0; 7; 1; 0; 0; 1; 0; 0; 0; 0; 0; 0; 5; 97])). vm_compute. reflexivity.
  - exists m. split; [exact E|]. assert (bad_extract m = true) as Hb by (vm_compute in E; injection E as <-; reflexivity).
    split; [exact Hb|]. rewrite (Hbad Hb) by lia. reflexivity.
Defined.
