(* ===== verification/DnsName.v ===== *)
(** * Names of the router in DNS (address/address.cpp, contact/router_id.cpp, dns/question.cpp,
    dns/encode.cpp)

    Network addresses as text, questions' names and top level domains, and the names of reverse
    lookups.  base32z is oxenc's: the class [Base32z]. *)

From Stdlib Require Import ZArith Lia.
From stdpp Require Import base list numbers strings.
From S2P Require Import Prelude Oxenc Str Session IpPacket DnsWire DnsMessage.

Local Open Scope Z_scope.
Local Open Scope router_scope.

(** ** base32z *)
Class Base32z := {
  to_base32z : bytes -> bytes;
  is_base32z : bytes -> bool;
  from_base32z : bytes -> bytes;
}.

Definition is_alnum (c : Z) : bool := is_digit c || is_lower c || ((65 <=? c) && (c <=? 90)).

Class Base32zLaws `{Base32z} := {
  b32z_length b : length b = 32%nat -> length (to_base32z b) = 52%nat;
  b32z_valid b : is_bytes b -> is_base32z (to_base32z b) = true;
  b32z_decode b : is_bytes b -> from_base32z (to_base32z b) = b;
  b32z_chars s : is_base32z s = true -> forallb is_alnum s = true;
}.

(** [to_base32z_size(32)] *)
Definition to_base32z_size : nat := 52.

Definition RELAY_TLD : bytes := str "snode".
Definition CLIENT_TLD : bytes := str "sesh".
Definition RELAY_DOT_TLD : bytes := str ".snode".
Definition CLIENT_DOT_TLD : bytes := str ".sesh".

Section Addresses.
Context `{Base32z}.

(** [AlignedBuffer<32>::from_base32z(b32z)] *)
Definition buf_from_base32z (b32z : bytes) : option bytes :=
  if negb (bool_decide (length b32z = to_base32z_size)) || negb (is_base32z b32z) then None
  else Some (from_base32z b32z).

(** [NetworkAddress(arg)] *)
Definition NetworkAddress_of_string (arg : bytes) : outcome string NetworkAddress :=
  let! p := if ends_with arg RELAY_DOT_TLD then Ok (false, remove_suffix 6 arg)
            else if ends_with arg CLIENT_DOT_TLD then Ok (true, remove_suffix 5 arg)
            else if ends_with arg (str ".loki") then Ok (true, remove_suffix 5 arg)
            else Throw "expected *.sesh or *.snode"%string in
  let '(is_client, arg) := p in
  match buf_from_base32z arg with
  | Some pubkey => Ok (mkNetAddr pubkey is_client)
  | None => Throw "expected full pubkey"%string
  end.

(** [NetworkAddress(arg, is_client)] *)
Definition NetworkAddress_of_pubkey (arg : bytes) (is_client : bool) : outcome string NetworkAddress :=
  match buf_from_base32z arg with
  | Some pubkey => Ok (mkNetAddr pubkey is_client)
  | None => Throw "Invalid NetworkAddress pubkey"%string
  end.

(** [NetworkAddress::to_string()] *)
Definition na_to_string (a : NetworkAddress) : bytes :=
  to_base32z (na_pubkey a) ++ str "." ++ (if na_client a then CLIENT_TLD else RELAY_TLD).

(** [RouterID::from_network_address(str)] *)
Definition from_network_address (s : bytes) : outcome string bytes :=
  let! s := if ends_with s RELAY_DOT_TLD then Ok (remove_suffix 6 s)
            else if ends_with s CLIENT_DOT_TLD then Ok (remove_suffix 5 s)
            else Throw "Did not find expected TLD"%string in
  throw_if negb (bool_decide (length s = to_base32z_size)) || negb (is_base32z s)
           || negb (bool_decide (last s = Some 111) || bool_decide (last s = Some 121))
    with "RouterID input is incorrect"%string in
  Ok (from_base32z s).
End Addresses.

(** ** Questions *)

(** [Question::name()], [has_tld(tld)] *)
Definition question_name (q : Question) : bytes :=
  let name := qname q in if ends_with name (str ".") then remove_suffix 1 name else name.
Definition has_tld (tld : bytes) (q : Question) : bool :=
  let tld := if starts_with tld (str ".") then drop 1 tld else tld in
  let qnodot := question_name q in
  bool_decide (length tld < length qnodot)%nat && ends_with qnodot tld
  && bool_decide (qnodot !! (length qnodot - length tld - 1)%nat = Some dot).

(** ** Reverse names *)
Inductive ip_variant := IPv4 (a : Z) | IPv6 (a : ipv6).

(** The loop over the four octets, the last one first *)
Fixpoint ptr_octets (n : nat) (name : bytes) : option (list Z) :=
  match n with
  | O => Some []
  | S n =>
    match str_find (str ".") name with
    | None => o ← parse_uint_str 8 name; rest ← ptr_octets n name; Some (o :: rest)
    | Some pos => o ← parse_uint_str 8 (take pos name); rest ← ptr_octets n (drop (S pos) name); Some (o :: rest)
    end
  end.

(** The loop over the nybbles and the hex decoding of what it collects, by pairs *)
Fixpoint ptr_nybbles (n : nat) (name : bytes) : option bytes :=
  match n with
  | O => Some []
  | S n =>
    match name with
    | lo :: d1 :: hi :: d2 :: name =>
      if (d1 =? dot) && (d2 =? dot) then
        l ← hex_digit lo; h ← hex_digit hi; rest ← ptr_nybbles n name; Some (16 * h + l :: rest)
      else None
    | _ => None
    end
  end.

(** [decode_ptr(name)] *)
Definition decode_ptr (name : bytes) : option ip_variant :=
  let '(pos, isV6) := match str_find (str ".in-addr.arpa") name with
                      | Some pos => (Some pos, false)
                      | None => (str_find (str ".ip6.arpa") name, true)
                      end in
  pos ← pos;
  let name := take (S pos) name in
  let numdots := length (filter (fun c => c = dot) name) in
  if bool_decide (numdots = 4%nat) && negb isV6 then
    match ptr_octets 4 name with
    | Some [q3; q2; q1; q0] => Some (IPv4 (q0 * 2 ^ 24 + q1 * 2 ^ 16 + q2 * 2 ^ 8 + q3))
    | _ => None
    end
  else if bool_decide (numdots = 32%nat) && bool_decide (length name = 64%nat) && isV6 then
    b ← ptr_nybbles 16 name;
    Some (IPv6 (mkIPv6 (le_value (drop 8 b)) (le_value (take 8 b))))
  else None.

(** ** Labels *)
Lemma join_last d l t : l <> [] -> join [d] (l ++ [t]) = join [d] l ++ [d] ++ t.
Proof.
  intros Hl. destruct l as [|p l _] using rev_ind; [done|].
  rewrite !join_snoc. rewrite fmap_app, concat_app. cbn. by rewrite app_nil_r, <-!app_assoc.
Qed.

Lemma split_last x t : dot ∉ t -> rev (split (x ++ str "." ++ t) (str ".") false) = t :: rev (split x (str ".") false).
Proof.
  intros Ht. change (str ".") with [dot]. destruct (split_spec x [dot]) as (Hj & Hf & Hn); [done|].
  rewrite <-Hj at 1. rewrite <-join_last by done. rewrite split_join; [by rewrite rev_app_distr|by destruct (split x _ _)|].
  apply Forall_app. split; [|by apply Forall_singleton]. eapply Forall_impl; [exact Hf|]. intros p. apply str_find_char.
Qed.

Lemma dot_notin_tld (relay : bool) : dot ∉ (if relay then RELAY_TLD else CLIENT_TLD).
Proof. apply (bool_decide_eq_false_1 (dot ∈ _)). by destruct relay. Qed.

(** ** Reverse names are read back *)
Definition hex_char (d : Z) : Z := if d <? 10 then 48 + d else 87 + d.

(** The name under which the address is looked up, nybbles from the least significant one *)
Definition nybbles (b : bytes) : bytes := mbind (fun x => [hex_char (x mod 16); dot; hex_char (x / 16); dot]) b.
Definition ptr_name6 (a : ipv6) : bytes := nybbles (le_bytes 8 (lo a) ++ le_bytes 8 (hi a)) ++ str "ip6.arpa.".

Lemma hex_char_digit d : 0 <= d < 16 -> hex_digit (hex_char d) = Some d /\ hex_char d < 105 /\ hex_char d <> dot.
Proof.
  intros Hd. unfold hex_char, hex_digit, is_digit, is_lower, dot. destruct (Z.ltb_spec d 10).
  - destruct (Z.leb_spec 48 (48 + d)); [|lia]. destruct (Z.leb_spec (48 + d) 57); [|lia]. cbn. split; [f_equal; lia|lia].
  - destruct (Z.leb_spec 48 (87 + d)); [|lia]. destruct (Z.leb_spec (87 + d) 57); [lia|]. cbn.
    destruct (Z.leb_spec 97 (87 + d)); [|lia]. destruct (Z.leb_spec (87 + d) 122); [|lia].
    destruct (Z.leb_spec (87 + d) 102); [|lia]. cbn. split; [f_equal; lia|lia].
Qed.

Lemma nybble_bounds x : 0 <= x < 256 -> (0 <= x mod 16 < 16 /\ 0 <= x / 16 < 16) /\ 16 * (x / 16) + x mod 16 = x.
Proof.
  intros Hx. pose proof (Z.mod_pos_bound x 16 ltac:(lia)). pose proof (Z.div_mod x 16 ltac:(lia)).
  split; [|lia]. split; [lia|]. split; [apply Z.div_pos; lia|apply Z.div_lt_upper_bound; lia].
Qed.

Lemma ptr_nybbles_of b rest : is_bytes b -> ptr_nybbles (length b) (nybbles b ++ rest) = Some b.
Proof.
  induction b as [|x b IH]; intros Hb; [done|]. apply Forall_cons in Hb as [Hx Hb].
  destruct (nybble_bounds x Hx) as ([H1 H2] & Hsum). cbn.
  rewrite (proj1 (hex_char_digit (x mod 16) H1)), (proj1 (hex_char_digit (x / 16) H2)). cbn.
  specialize (IH Hb). unfold nybbles in IH. rewrite IH. cbn [mbind option_bind]. by rewrite Hsum.
Qed.

Lemma nybbles_chars b : is_bytes b -> length (nybbles b) = (4 * length b)%nat /\
  length (filter (fun c => c = dot) (nybbles b)) = (2 * length b)%nat /\ Forall (fun c => c < 105) (nybbles b).
Proof.
  induction b as [|x b IH]; intros Hb; [done|]. apply Forall_cons in Hb as [Hx Hb]. destruct (IH Hb) as (Hl & Hd & Hf).
  destruct (nybble_bounds x Hx) as ([H1 H2] & _).
  destruct (hex_char_digit (x mod 16) H1) as (_ & L1 & D1). destruct (hex_char_digit (x / 16) H2) as (_ & L2 & D2).
  change (nybbles (x :: b)) with ([hex_char (x mod 16); dot; hex_char (x / 16); dot] ++ nybbles b).
  rewrite filter_app, !length_app, Hl, Hd, Forall_app. cbn [length]. split; [lia|]. split.
  - rewrite filter_cons_False, filter_cons_True, filter_cons_False, filter_cons_True by done. cbn. lia.
  - split; [|done]. repeat constructor; done || (unfold dot; lia).
Qed.

(** The first place where [d] can start is after [l]. *)
Lemma str_find_at d c d' l rest : d = [dot; c] ++ d' -> Forall (fun x => x < c) (l ++ [dot]) ->
  str_find d (l ++ d ++ rest) = Some (length l).
Proof.
  intros -> Hl. induction l as [|x l IH].
  - cbn [app]. unfold str_find. fold str_find. replace (starts_with _ _) with true; [done|].
    symmetry. apply starts_with_spec. by exists rest.
  - cbn [app length]. cbn [app] in Hl, IH. apply Forall_cons in Hl as [Hx Hl]. cbn [str_find].
    replace (starts_with _ _) with false; [by rewrite IH|].
    symmetry. apply not_true_iff_false. intros [r E]%starts_with_spec. cbn [app] in E. injection E as -> E.
    destruct l as [|y l]; cbn [app] in E, Hl.
    + injection E as E _. apply Forall_cons in Hl as [Hdot _]. unfold dot in *. lia.
    + injection E as -> _. apply Forall_cons in Hl as [Hy _]. lia.
Qed.

Lemma decode_ptr_name6 a : is_ipv6_addr a -> decode_ptr (ptr_name6 a) = Some (IPv6 a).
Proof.
  intros [Hh Hl]. unfold ptr_name6. set (b := le_bytes 8 (lo a) ++ le_bytes 8 (hi a)).
  assert (is_bytes b) as Hb by (apply Forall_app; split; apply is_bytes_le_bytes).
  assert (length b = 16%nat) as Lb by (subst b; by rewrite length_app, !length_le_bytes).
  destruct (nybbles_chars b Hb) as (Ln & Dn & Cn). rewrite Lb in Ln, Dn.
  assert (exists l, nybbles b = l ++ [dot]) as [l El].
  { destruct b as [|x b] using rev_ind; [done|]. unfold nybbles. rewrite bind_app. cbn.
    exists (nybbles b ++ [hex_char (x mod 16); dot; hex_char (x / 16)]). by rewrite <-app_assoc. }
  assert (length l = 63%nat) as Ll by (rewrite El, length_app in Ln; cbn in Ln; lia).
  assert (nybbles b ++ str "ip6.arpa." = l ++ str ".ip6.arpa" ++ str ".") as Es by (rewrite El, <-app_assoc; done).
  unfold decode_ptr.
  assert (str_find (str ".in-addr.arpa") (nybbles b ++ str "ip6.arpa.") = None) as ->.
  { destruct (str_find _ _) as [p|] eqn:Ef; [exfalso|done]. apply str_find_Some in Ef as (Ef & _).
    assert (110 ∈ nybbles b ++ str "ip6.arpa.") as [Hin|Hin]%elem_of_app.
    { rewrite Ef, !elem_of_app. right. left. apply (bool_decide_eq_true_1 (_ ∈ _)). reflexivity. }
    - rewrite Forall_forall in Cn. specialize (Cn _ Hin). lia.
    - revert Hin. apply (bool_decide_eq_false_1 (110 ∈ str "ip6.arpa.")). reflexivity. }
  rewrite Es at 1. rewrite (str_find_at _ 105 (str "p6.arpa")) by (done || by rewrite <-El). rewrite Ll. cbn [mbind option_bind].
  assert (take 64 (nybbles b ++ str "ip6.arpa.") = nybbles b) as -> by (apply take_app_length'; lia).
  rewrite Dn, Ln. cbn [bool_decide decide_rel andb negb]. change (bool_decide (2 * 16 = 4)%nat) with false.
  change (bool_decide (2 * 16 = 32)%nat) with true. change (bool_decide (4 * 16 = 64)%nat) with true. cbn [andb negb].
  pose proof (ptr_nybbles_of b [] Hb) as Hn. rewrite app_nil_r, Lb in Hn. rewrite Hn. cbn [mbind option_bind].
  subst b. rewrite take_app_length', drop_app_length' by (by rewrite length_le_bytes). rewrite !le_value_le_bytes.
  change (256 ^ Z.of_nat 8) with (2 ^ 64). rewrite !Z.mod_small by done. by destruct a.
Qed.

(** ** Addresses are read back *)
Section AddressProofs.
Context `{Base32zLaws}.

Lemma ends_with_app (s p : bytes) : ends_with (s ++ p) p = true.
Proof.
  unfold ends_with. rewrite length_app. rewrite bool_decide_true by lia. cbn [andb].
  apply bool_decide_true. by rewrite Nat.add_sub, drop_app_length.
Qed.

Lemma b32z_no_dot b : is_bytes b -> dot ∉ to_base32z b.
Proof.
  intros Hb Hin. pose proof (b32z_chars _ (b32z_valid b Hb)) as Hc. rewrite forallb_forall in Hc.
  apply list_elem_of_In, Hc in Hin. done.
Qed.

Lemma address_round_trip a : is_buf 32 (na_pubkey a) -> NetworkAddress_of_string (na_to_string a) = Ok a.
Proof.
  intros [Hl Hb]. unfold NetworkAddress_of_string, na_to_string. destruct a as [pk []]; cbn [na_pubkey na_client] in *.
  - assert (ends_with (to_base32z pk ++ str "." ++ CLIENT_TLD) RELAY_DOT_TLD = false) as ->.
    { apply not_true_iff_false. unfold ends_with. rewrite andb_true_iff, !bool_decide_eq_true. intros [_ E].
      set (s := to_base32z pk ++ _) in E. pose proof (take_drop (length s - length RELAY_DOT_TLD) s) as Es. rewrite E in Es.
      apply (f_equal last) in Es. subst s. rewrite !last_app in Es. done. }
    change (str "." ++ CLIENT_TLD) with CLIENT_DOT_TLD. rewrite ends_with_app. cbn [outcome_bind].
    unfold remove_suffix. rewrite length_app. change (length CLIENT_DOT_TLD) with 5%nat. rewrite Nat.add_sub, take_app_length.
    unfold buf_from_base32z. rewrite b32z_length, b32z_valid, b32z_decode by done. done.
  - change (str "." ++ RELAY_TLD) with RELAY_DOT_TLD. rewrite ends_with_app. cbn [outcome_bind].
    unfold remove_suffix. rewrite length_app. change (length RELAY_DOT_TLD) with 6%nat. rewrite Nat.add_sub, take_app_length.
    unfold buf_from_base32z. rewrite b32z_length, b32z_valid, b32z_decode by done. done.
Qed.
End AddressProofs.

(** ** An instance of base32z *)
Definition b32_alphabet : bytes := str "ybndrfg8ejkmcpqxot1uwisza345h769".

Fixpoint le_digits32 (n : nat) (x : Z) : list Z :=
  match n with O => [] | S n => x mod 32 :: le_digits32 n (x / 32) end.
Fixpoint le_value32 (l : list Z) : Z := match l with [] => 0 | d :: l => d + 32 * le_value32 l end.

Definition b32_index (c : Z) : Z := match list_find (c =.) b32_alphabet with Some (i, _) => Z.of_nat i | None => 0 end.

#[export] Instance base32z_plain : Base32z := {
  to_base32z b :=
    let n := ((8 * length b + 4) / 5)%nat in
    (fun d => b32_alphabet !!! Z.to_nat d) <$> rev (le_digits32 n (be_value b * 2 ^ Z.of_nat (5 * n - 8 * length b)));
  is_base32z s := forallb (fun c => bool_decide (c ∈ b32_alphabet)) s;
  from_base32z s :=
    let len := (5 * length s / 8)%nat in
    be_bytes len (le_value32 (rev (b32_index <$> s)) / 2 ^ Z.of_nat (5 * length s - 8 * len));
}.

Lemma le_digits32_value n x : le_value32 (le_digits32 n x) = x mod 32 ^ Z.of_nat n.
Proof.
  revert x. induction n as [|n IH]; intros x; [by rewrite Z.mod_1_r|]. cbn [le_digits32 le_value32]. rewrite IH.
  replace (Z.of_nat (S n)) with (1 + Z.of_nat n) by lia. rewrite Z.pow_add_r, Z.pow_1_r by lia.
  rewrite Z.rem_mul_r by (try apply Z.pow_pos_nonneg; lia). lia.
Qed.
Lemma le_digits32_bound n x : Forall (fun d => 0 <= d < 32) (le_digits32 n x).
Proof. revert x. induction n as [|n IH]; intros x; constructor; [apply Z.mod_pos_bound; lia|apply IH]. Qed.
Lemma length_le_digits32 n x : length (le_digits32 n x) = n.
Proof. revert x. induction n as [|n IH]; intros x; [done|]. cbn. by rewrite IH. Qed.

Lemma rev_fmap {A B} (f : A -> B) l : rev (f <$> l) = f <$> rev l.
Proof. induction l as [|x l IH]; [done|]. cbn [fmap list_fmap rev]. by rewrite fmap_app, <-IH. Qed.

(** Every digit, by enumeration *)
Lemma b32_digit d : 0 <= d < 32 -> b32_index (b32_alphabet !!! Z.to_nat d) = d /\ b32_alphabet !!! Z.to_nat d ∈ b32_alphabet.
Proof.
  intros Hd.
  assert (Forall (fun i => b32_index (b32_alphabet !!! i) = Z.of_nat i /\ b32_alphabet !!! i ∈ b32_alphabet) (seq 0 32)) as Hall
    by (apply (bool_decide_eq_true_1 (Forall _ _)); vm_compute; reflexivity).
  rewrite Forall_forall in Hall. specialize (Hall (Z.to_nat d)). rewrite Z2Nat.id in Hall by lia. apply Hall.
  apply elem_of_seq. lia.
Qed.

#[export] Instance base32z_plain_laws : Base32zLaws.
Proof.
  split.
  - intros b Hl. cbn [to_base32z base32z_plain]. rewrite length_fmap, length_rev, length_le_digits32, Hl. done.
  - intros b Hb. cbn [is_base32z to_base32z base32z_plain]. apply forallb_forall. intros c Hc%list_elem_of_In.
    apply list_elem_of_fmap in Hc as (d & -> & Hd). rewrite list_elem_of_In, <-in_rev, <-list_elem_of_In in Hd.
    apply bool_decide_true, b32_digit. revert d Hd. apply Forall_forall, le_digits32_bound.
  - intros b Hb. cbn [from_base32z to_base32z base32z_plain]. set (n := ((8 * length b + 4) / 5)%nat).
    rewrite length_fmap, length_rev, length_le_digits32.
    assert (8 * length b <= 5 * n < 8 * length b + 5)%nat as Hn.
    { subst n. pose proof (Nat.div_mod_eq (8 * length b + 4) 5). pose proof (Nat.mod_upper_bound (8 * length b + 4) 5). lia. }
    assert (5 * n / 8 = length b)%nat as -> by (symmetry; apply Nat.div_unique with (r := (5 * n - 8 * length b)%nat); lia).
    rewrite !rev_fmap, rev_involutive, <-list_fmap_compose. set (v := be_value b * _).
    assert ((b32_index ∘ (fun d => b32_alphabet !!! Z.to_nat d)) <$> le_digits32 n v = le_digits32 n v) as ->.
    { rewrite <-(list_fmap_id (le_digits32 n v)) at 2. apply list_fmap_ext. intros i d Hd. cbn.
      pose proof (le_digits32_bound n v) as Hbd. rewrite Forall_lookup in Hbd. by apply b32_digit, (Hbd i). }
    pose proof (be_value_bound b Hb) as Hbound. rewrite le_digits32_value, Z.mod_small.
    + subst v. rewrite Z.div_mul by (apply Z.pow_nonzero; lia). by apply be_bytes_be_value.
    + subst v. change 32 with (2 ^ 5). change 256 with (2 ^ 8) in Hbound. rewrite <-Z.pow_mul_r in Hbound |- * by lia.
      replace (5 * Z.of_nat n) with (8 * Z.of_nat (length b) + Z.of_nat (5 * n - 8 * length b)) by lia.
      rewrite Z.pow_add_r by lia. assert (0 < 2 ^ Z.of_nat (5 * n - 8 * length b)) by (apply Z.pow_pos_nonneg; lia). nia.
  - intros s. cbn [is_base32z base32z_plain]. rewrite !forallb_forall. intros Hs c Hc. specialize (Hs c Hc).
    apply bool_decide_eq_true in Hs. clear Hc. revert c Hs. rewrite <-(Forall_forall (fun c => is_alnum c = true)).
    apply (bool_decide_eq_true_1 (Forall _ _)). reflexivity.
Qed.
