(* ===== verification/DnsHandler.v ===== *)
(** * Answering DNS requests (dns/handler.cpp)

    The handler answers names of the router's domains and reverse lookups of tun addresses
    itself, and forwards the rest.  It is written in the monad [Dns] of a state (the tun endpoint
    and the serial of SOA records), a list of effects and a result that may be an exception.
    Answers that come later ([resolve_sns], [lookup_client_intro], the upstream resolver) are
    effects that hold what the callback captured, and each callback is a definition.

    [Env] is what the handler asks of the router: its own address, RCs and paths as the text that
    TXT records show, and whether a session can be initiated, which may change the tun endpoint. *)

From Stdlib Require Import ZArith Lia.
From stdpp Require Import base list numbers strings gmap.
From coqutil Require Import Datatypes.RecordSettersUsingExistingGetters.
From S2P Require Import Prelude Oxenc Str ClientContact Session IpPacket Tun DnsWire DnsMessage DnsResponse DnsQuery DnsName.

Local Open Scope Z_scope.
Local Open Scope router_scope.

(** ** The monad *)
Section Handler.
Context {ox : Oxenc} {b32 : Base32z}.
Context `{!IPAddress Z} `{!IPAddress ipv6}.

Inductive result (A : Type) := Returns (a : A) | Throws (e : string) | Undef.
Arguments Returns {A} a.
Arguments Throws {A} e.
Arguments Undef {A}.

Record DnsState := mkDnsState { soa_serial : Z; tun : TunEndpoint }.

(** What the callbacks capture *)
Inductive Pending :=
| ResolveSns (lookup : bytes) (sub : list bytes) (msg : Message) (cname_only tcp : bool)
| LookupIntro (rid : bytes) (sub : list bytes) (msg : Message) (tcp : bool)
| QueryUpstream (orig : Message) (tcp : bool).

Inductive DnsEffect :=
| Reply (data : bytes)
| Initiate (remote : NetworkAddress)
| Wait (p : Pending).

Definition Dns (A : Type) : Type := DnsState -> DnsState * list DnsEffect * result A.

Definition dret {A} (a : A) : Dns A := fun s => (s, [], Returns a).
Definition dbind {A B} (m : Dns A) (k : A -> Dns B) : Dns B := fun s =>
  match m s with
  | (s, es, Returns a) => let '(s, es', r) := k a s in (s, es ++ es', r)
  | (s, es, Throws e) => (s, es, Throws e)
  | (s, es, Undef) => (s, es, Undef)
  end.
Definition deffect (e : DnsEffect) : Dns unit := fun s => (s, [e], Returns tt).
Definition dundef {A} : Dns A := fun s => (s, [], Undef).
Local Notation "'let%' x ':=' m 'in' k" := (dbind m (fun x => k)) (at level 200, x name, k at level 200).

Record Env := mkEnv {
  env_id : bytes;
  env_is_service_node : bool;
  env_info : bytes;
  env_upstream : bool;
  env_random_rc : option bytes;
  env_rc_text : bytes -> option bytes;
  env_path_text : NetworkAddress -> option bytes;
  env_initiate : NetworkAddress -> TunEndpoint -> bool * TunEndpoint;
  env_contains4 : Z -> bool;
  env_contains6 : ipv6 -> bool;
}.

(** ** Helpers *)
Definition DEFAULT_ANSWER_TTL : Z := 10.

(** [reply(msg.encode(tcp))] *)
Definition reply (msg : Message) (tcp : bool) : Dns unit :=
  match message_encode tcp msg with
  | Ok (Value data) => deffect (Reply data)
  | Ok Undefined => dundef
  | Throw e => fun s => (s, [], Throws e)
  end.

Definition add_authority (r : ResourceRecord) (m : Message) : Message :=
  mkMessage (bad_extract m) (hdr_id m) (hdr_fields m) (question m) (answers m) (authorities m ++ [r])
    (additional_edns m) (rr_name_override m).

(** [add_nx_soa(m, domain, ttl)] *)
Definition add_nx_soa (m : Message) (domain : bytes) (ttl : Z) : Dns Message := fun s =>
  let serial := soa_serial s in
  let s := s <| soa_serial := wrap 32 (serial + 1) |> in
  match soa_data (str "localhost.sesh") (str "sr.localhost.sesh") serial ttl 3600 900 1209600 with
  | Ok (Value d) => (s, [], Returns (add_authority (mkRR domain RRClass_IN 600 d) m))
  | Ok Undefined => (s, [], Undef)
  | Throw e => (s, [], Throws e)
  end.

Definition random_snode : bytes := str "random." ++ RELAY_TLD.

(** [is_localhost(qname)], [is_snode(name)] *)
Definition is_localhost (name : bytes) : bool :=
  bool_decide (name = str "localhost.loki") || ends_with name (str ".localhost.loki")
  || bool_decide (name = str "localhost." ++ CLIENT_TLD) || ends_with name (str ".localhost." ++ CLIENT_TLD).
Definition is_snode (name : bytes) : option bytes :=
  if ends_with name RELAY_DOT_TLD then buf_from_base32z (remove_suffix 6 name) else None.

(** [sub.empty() ? name : "{}.{}"_format(fmt::join(sub, "."), name)] *)
Definition with_sub (sub : list bytes) (name : bytes) : bytes :=
  match sub with [] => name | _ => join (str ".") sub ++ str "." ++ name end.

(** [try_making<NetworkAddress>("{}.{}"_format(hostname, tld))] *)
Definition try_address (hostname tld : bytes) : option NetworkAddress :=
  match NetworkAddress_of_string (hostname ++ str "." ++ tld) with Ok a => Some a | Throw _ => None end.

(** [tun.map6(remote)], [tun.map4(remote)] *)
Definition tun_map6 (remote : NetworkAddress) : Dns ipv6 := fun s =>
  match map6 remote (tun s) with
  | Some (Ok ip, t) => (s <| tun := t |>, [], Returns ip)
  | Some (Throw _, t) => (s <| tun := t |>, [], Throws "could not allocate an IPv6"%string)
  | None => (s, [], Undef)
  end.
Definition tun_map4 (remote : NetworkAddress) : Dns (option Z) := fun s =>
  match map4 remote (tun s) with
  | Some (Ok ip, t) => (s <| tun := t |>, [], Returns ip)
  | Some (Throw _, t) => (s <| tun := t |>, [], Throws "Unable to add address map"%string)
  | None => (s, [], Undef)
  end.

(** [initiate_remote_session(remote, nullptr)], whose exceptions are caught *)
Definition initiate (env : Env) (remote : NetworkAddress) : Dns bool := fun s =>
  let '(created, t) := env_initiate env remote (tun s) in (s <| tun := t |>, [Initiate remote], Returns created).

(** ** Reverse lookups *)

(** The zone of an address in the SOA record: its octets, or nybbles, under the rounded mask *)
Fixpoint zone4_octets (n : nat) (soa_addr : Z) : bytes :=
  match n with
  | O => []
  | S n => Bencode.enc_int (soa_addr mod 256) ++ str "." ++ zone4_octets n (Z.shiftr soa_addr 8)
  end.
Definition zone4 (mask addr : Z) : bytes :=
  let mask_up := (Z.max 1 (Z.min 32 mask) + 7) / 8 * 8 in
  zone4_octets (Z.to_nat (mask_up / 8)) (Z.shiftr addr (32 - mask_up)) ++ str ".in-addr.arpa".

(** [{:016x}] *)
Definition hex16 (x : Z) : bytes := (fun i => hex_char (Z.shiftr x (4 * Z.of_nat i) mod 16)) <$> rev (seq 0 16).
Definition zone6 (mask : Z) (addr : ipv6) : bytes :=
  let mask_up := (Z.max 1 (Z.min 128 mask) + 3) / 4 * 4 in
  let full := take (Z.to_nat (mask_up / 4)) (hex16 (hi addr) ++ hex16 (lo addr)) in
  join (str ".") ((fun c => [c]) <$> rev full) ++ str ".ip6.arpa".

(** [handle_local_ptr(msg, reply, tcp)] *)
Definition handle_local_ptr (env : Env) (msg : Message) (tcp : bool) : Dns bool := fun s =>
  match question msg with
  | None => (s, [], Undef)
  | Some q =>
    if negb (qtype q =? RRType_PTR) then (s, [], Returns false)
    else
      match decode_ptr (qname q) with
      | None => (s, [], Returns false)
      | Some ip =>
        let '(mapped, is_ours) := match ip with
                                  | IPv4 a => reverse_lookup (ipv4_mapping (tun s)) (env_contains4 env) a
                                  | IPv6 a => reverse_lookup (ipv6_mapping (tun s)) (env_contains6 env) a
                                  end in
        if negb is_ours then (s, [], Returns false)
        else
          (let% msg := match mapped with
                       | Some a => dret (add_ptr_reply msg (na_to_string a) DEFAULT_ANSWER_TTL)
                       | None =>
                         let auth_name := match ip with
                                          | IPv4 a => zone4 (net_mask (local_net (tun s))) a
                                          | IPv6 a => zone6 (net_mask (local_ipv6_net (tun s))) a
                                          end in
                         add_nx_soa (nxdomain msg true) auth_name 5
                       end in
           let% _ := reply msg tcp in dret true) s
      end
  end.

(** ** The records of a name *)

(** TXT: the text, or no such name *)
Definition answer_txt (env : Env) (localhost : bool) (msg : Message) (name hostname tld : bytes) (sub : list bytes)
    (tcp : bool) : Dns unit :=
  let% msg :=
    if localhost && bool_decide (sub = []) then dret (add_txt_reply msg (env_info env) DEFAULT_ANSWER_TTL)
    else match is_snode name with
    | Some rid =>
      match env_rc_text env rid with
      | Some text => dret (add_txt_reply msg text DEFAULT_ANSWER_TTL)
      | None => let% msg := add_nx_soa msg RELAY_TLD 5 in dret (nxdomain msg true)
      end
    | None =>
      if bool_decide (sub = [str "path"]) then
        match try_address hostname tld with
        | Some a => dret match env_path_text env a with
                         | Some text => add_txt_reply msg text 0
                         | None => add_txt_reply msg (str "d=none") DEFAULT_ANSWER_TTL
                         end
        | None => let% msg := add_nx_soa msg tld 30 in dret (nxdomain msg true)
        end
      else let% msg := add_nx_soa msg tld 30 in dret (nxdomain msg true)
    end in
  reply msg tcp.

(** A and AAAA: a session and the remote's local address *)
Definition answer_address (env : Env) (aaaa : bool) (msg : Message) (hostname tld : bytes) (sub : list bytes) (tcp : bool)
    : Dns unit :=
  match try_address hostname tld with
  | Some remote =>
    let% created_session := initiate env remote in
    let% msg :=
      if created_session : bool then
        if aaaa then
          let% ip := tun_map6 remote in dret (add_reply_v6 msg (hi ip) (lo ip) DEFAULT_ANSWER_TTL)
        else if bool_decide (last sub = Some (str "ipv4")) then
          let% ip := tun_map4 remote in
          dret match ip with
               | Some v4_addr => add_reply_v4 msg v4_addr DEFAULT_ANSWER_TTL
               | None => servfail msg
               end
        else add_nx_soa (add_nodata_reply msg) tld 300
      else let% msg := add_nx_soa msg tld 15 in dret (nxdomain msg true) in
    reply msg tcp
  | None => let% msg := add_nx_soa msg tld 30 in reply (nxdomain msg true) tcp
  end.

(** The end of [handle_local], once CNAMEs are resolved: by the type of the question *)
Definition answer_name (env : Env) (localhost : bool) (msg : Message) (q : Question) (name hostname tld : bytes)
    (sub : list bytes) (tcp : bool) : Dns unit :=
  let nothing := let% msg := add_nx_soa msg tld 30 in reply (nxdomain msg true) tcp in
  if qtype q =? RRType_TXT then answer_txt env localhost msg name hostname tld sub tcp
  else if (qtype q =? RRType_AAAA) || (qtype q =? RRType_A) then
    answer_address env (qtype q =? RRType_AAAA) msg hostname tld sub tcp
  else if (qtype q =? RRType_SRV) && (bool_decide (tld = CLIENT_TLD) || bool_decide (tld = str "loki")) then
    match sub with
    | [service; proto] =>
      if starts_with service (str "_") && starts_with proto (str "_") then
        match buf_from_base32z hostname with
        | Some rid => deffect (Wait (LookupIntro rid sub msg tcp))
        | None => nothing
        end
      else nothing
    | _ => nothing
    end
  else nothing.

(** ** Names of the router's domains *)

(** [handle_local(reply, msg, qname, tcp)] *)
Definition handle_local (env : Env) (msg : Message) (name : bytes) (tcp : bool) : Dns bool :=
  let% handled := handle_local_ptr env msg tcp in
  if handled : bool then dret true
  else match question msg with
  | None => dundef
  | Some q =>
    if negb (has_tld CLIENT_TLD q || has_tld RELAY_TLD q || has_tld (str "loki") q) then dret false
    else match rev (split name (str ".") false) with
    | tld :: hostname :: rsub =>
      let sub := rev rsub in
      if is_localhost name then
        let our_hostname := to_base32z (env_id env) in
        let our_tld := if env_is_service_node env then RELAY_TLD else CLIENT_TLD in
        let our_name := our_hostname ++ str "." ++ our_tld in
        let msg := if bool_decide (tld = str "loki")
                   then add_cname_reply (set_rr_name (Some (str "localhost.loki")) msg) (str "localhost." ++ our_tld) DEFAULT_ANSWER_TTL
                   else msg in
        let msg := add_cname_reply (set_rr_name (Some (str "localhost." ++ our_tld)) msg) our_name DEFAULT_ANSWER_TTL in
        if qtype q =? RRType_CNAME then let% _ := reply msg tcp in dret true
        else
          let name := with_sub sub our_name in
          let% _ := answer_name env true (set_rr_name (Some name) msg) q name our_hostname our_tld sub tcp in dret true
      else if bool_decide (name = random_snode) then
        match env_random_rc env with
        | Some rid =>
          let hostname := to_base32z rid in
          let name := hostname ++ str "." ++ RELAY_TLD in
          let msg := add_cname_reply msg name 1 in
          if qtype q =? RRType_CNAME then let% _ := reply msg tcp in dret true
          else let% _ := answer_name env false (set_rr_name (Some name) msg) q name hostname tld sub tcp in dret true
        | None => let% _ := reply (nxdomain msg true) tcp in dret true
        end
      else if bool_decide (tld = str "loki") && negb (bool_decide (length hostname = to_base32z_size)) then
        let% _ := deffect (Wait (ResolveSns (hostname ++ str ".loki") sub msg (qtype q =? RRType_CNAME) tcp)) in dret true
      else let% _ := answer_name env false msg q name hostname tld sub tcp in dret true
    | _ => let% _ := reply (formerr msg) tcp in dret true
    end
  end.

(** ** The callbacks *)

(** The callback of [resolve_sns]; [ttl] in milliseconds *)
Definition sns_resolved (env : Env) (lookup : bytes) (sub : list bytes) (msg : Message) (cname_only tcp : bool)
    (maybe_netaddr : option NetworkAddress) (assertive : bool) (ttl : Z) : Dns unit :=
  let msg := set_rr_name (Some lookup) msg in
  match maybe_netaddr with
  | Some a =>
    let target := na_to_string a in
    let msg := add_cname_reply msg target (ttl / 1000) in
    if cname_only then reply msg tcp
    else
      let name := with_sub sub target in
      let msg := set_rr_name (Some name) msg in
      let% handled := handle_local env msg name tcp in
      if handled : bool then dret tt else reply (servfail msg) tcp
  | None =>
    let% msg := if assertive then add_nx_soa msg (str "loki") (ttl / 1000) else dret msg in
    reply (nxdomain msg true) tcp
  end.

(** The callback of [lookup_client_intro] *)
Definition intro_found (sub : list bytes) (msg : Message) (tcp : bool) (SRVs : option (list SRVData)) : Dns unit :=
  match SRVs with
  | Some srvs =>
    let found := filter (fun srv => Some (srv_service srv) = sub !! 0%nat /\ Some (srv_proto srv) = sub !! 1%nat) srvs in
    let msg := foldl (fun msg srv =>
                 add_srv_reply msg (srv_priority srv) (srv_weight srv) (srv_port srv) (srv_target srv) DEFAULT_ANSWER_TTL)
                 msg found in
    reply (match found with [] => add_nodata_reply msg | _ => msg end) tcp
  | None => reply (nxdomain msg true) tcp
  end.

(** The callback of [Unbound::query] *)
Definition upstream_answered (orig : Message) (tcp : bool) (response : bytes) : Dns unit :=
  if bool_decide (response = []) then reply (servfail orig) tcp
  else match raw_parse response with
  | None => reply (servfail orig) tcp
  | Some msg =>
    match raw_encode tcp (rewrite_for orig msg) with
    | Ok data => deffect (Reply data)
    | Throw e => fun s => (s, [], Throws e)
    end
  end.

(** ** Requests *)

(** [forward(m, reply, tcp)] *)
Definition forward (env : Env) (m : Message) (tcp : bool) : Dns unit :=
  if env_upstream env then deffect (Wait (QueryUpstream (clone m) tcp)) else reply (refused m) tcp.

(** [operator()(request, from, reply, tcp)] *)
Definition handle_request (env : Env) (siphash24 : bytes -> bytes -> bytes) (cookie_secret client_ip : bytes) (now : Z)
    (request : bytes) (tcp : bool) : Dns unit :=
  match extract_question siphash24 cookie_secret client_ip now request with
  | Throw e => fun s => (s, [], Throws e)
  | Ok None => dret tt
  | Ok (Some msg) =>
    if bad_extract msg then reply msg tcp
    else if match additional_edns msg with Some e => bad_cookie e | None => false end then
      let f := Z.lor (hdr_fields msg) (Z.land EXT_RCODE_BADCOOKIE 15) in
      let f := Z.lor f (Z.lor flags_QR flags_RA) in
      reply (set_hdr_fields (clear_flags f flags_AA) msg) tcp
    else match question msg with
    | None => reply msg tcp
    | Some q =>
      let% handled := handle_local env msg (question_name q) tcp in
      if handled : bool then dret tt
      else if bool_decide (question_name q = str "use-application-dns.net") then
        let% msg := add_nx_soa msg (str "use-application-dns.net") 30 in reply (nxdomain msg true) tcp
      else forward env msg tcp
    end
  end.

(** ** Until everything is answered *)

(** The answers of the other parts *)
Record Answers := mkAnswers {
  on_sns : bytes -> option NetworkAddress * bool * Z;
  on_intro : bytes -> option (list SRVData);
  on_upstream : Message -> bytes;
}.

Definition resume (env : Env) (ans : Answers) (p : Pending) : Dns unit :=
  match p with
  | ResolveSns lookup sub msg cname_only tcp =>
    let '(a, assertive, ttl) := on_sns ans lookup in sns_resolved env lookup sub msg cname_only tcp a assertive ttl
  | LookupIntro rid sub msg tcp => intro_found sub msg tcp (on_intro ans rid)
  | QueryUpstream orig tcp => upstream_answered orig tcp (on_upstream ans orig)
  end.

Definition is_wait (e : DnsEffect) : Prop := match e with Wait _ => True | _ => False end.
#[local] Instance is_wait_dec e : Decision (is_wait e).
Proof. destruct e; apply _. Defined.

(** Runs [m], and the callback of what it waits for, up to [n] times *)
Fixpoint serve (n : nat) (env : Env) (ans : Answers) (m : Dns unit) : Dns unit := fun s =>
  match n, m s with
  | S n, (s, es, Returns _) =>
    match filter is_wait es with
    | [Wait p] => let '(s, es', r) := serve n env ans (resume env ans p) s in (s, filter (fun e => ~ is_wait e) es ++ es', r)
    | _ => (s, es, Returns tt)
    end
  | _, r => r
  end.
End Handler.
Arguments Returns {A} a.
Arguments Throws {A} e.
Arguments Undef {A}.
#[export] Existing Instance is_wait_dec.

Local Notation "'let%' x ':=' m 'in' k" := (dbind m (fun x => k)) (at level 200, x name, k at level 200).

(** ** Responses that can be encoded *)
Lemma name_at_end msg off ls e : name_at msg off ls e -> (off < e)%nat.
Proof. induction 1; lia. Qed.

Section EncodeTotal.
Context `{OxencLaws}.

(** The question fits the size of the response, and so does all of it when there is none. *)
Definition encodable (tcp : bool) (m : Message) : Prop :=
  let limit := encode_limit tcp (additional_edns m) in
  Z.of_nat limit < 65536 /\
  match question m with
  | Some q => sendable (qname q) /\ (head_size m <= limit)%nat /\ Z.of_nat (head_size m) <= 16384
  | None => (12 + rrs_size (body_rrs m) <= limit)%nat /\ Forall rr_sendable (body_rrs m)
  end.

(** Truncation does not fail. *)
Lemma truncated_total m len w : (14 <= Z.to_nat len <= length (w_tmp w))%nat -> exists b, encode_truncated m len w = Value b.
Proof.
  intros Hlen. unfold encode_truncated. destruct (additional_edns m) as [e|]; [|by eexists].
  set (w1 := rewind _ len w). assert (w_pos w1 <= length (w_tmp w1))%nat as B1.
  { cbn. rewrite !write_big_spec. rewrite !length_write_at; rewrite ?length_be_bytes; [lia..|].
    rewrite length_write_at; rewrite ?length_be_bytes; lia. }
  destruct (oblivious_kept (rr_encode (edns_rr e)) w1 0 13) as [Hl _]; [by apply rr_encode_oblivious|cbn; lia|done|].
  destruct (rr_encode (edns_rr e) w1) as [w2 [[]|]]; cbn [fst] in Hl; [by eexists|].
  destruct (decide _); [lia|by eexists].
Qed.

Lemma encode_total tcp m : encodable tcp m -> exists b, message_encode tcp m = Ok (Value b).
Proof.
  intros [Hlim Henc]. unfold message_encode. set (w0 := new_writer _).
  destruct (new_writer_ok (encode_limit tcp (additional_edns m))) as (_ & Hs0 & _). fold w0 in Hs0. unfold space in Hs0.
  assert (w_pos w0 = 0%nat) as P0 by done. pose proof (new_writer_good _ Hlim) as Hg0. fold w0 in Hg0.
  assert (Hq : forall q, question m = Some q -> sendable (qname q)) by (intros q E; rewrite E in Henc; apply Henc).
  assert (head_size m <= encode_limit tcp (additional_edns m))%nat as Hfit.
  { unfold head_size in *. destruct (question m); [apply Henc|lia]. }
  destruct (encode_head_fits m w0) as (w1 & E1 & [A1 B1] & P1 & L1); [lia|done|]. rewrite E1.
  destruct (question m) as [q|] eqn:Eq.
  - destruct Henc as (Hsend & _ & Hsz).
    apply encode_head_spec in E1 as (Hg1 & Hgr & Hhead); [|done|done|intros q' E'; rewrite Eq in E'; by apply sendable_ok, Hq|lia].
    destruct (Hhead (written w1)) as [_ Hqa]; [done|]. rewrite Eq in Hqa. destruct Hqa as (o & Hn & _ & He).
    apply name_at_end in Hn. destruct Hg1 as [(_ & _ & Eo) _].
    destruct (oblivious_kept (encode_rrs (body_rrs m)) w1 0 (w_pos w1 - 1)) as [Hl _]; [by apply encode_rrs_oblivious|lia|done|].
    destruct (encode_rrs (body_rrs m) w1) as [w2 [[]|]]; cbn [fst] in Hl; [by eexists|].
    destruct (truncated_total m (w_off w1) w2) as [b ->]; [rewrite Eo, Nat2Z.id; lia|by eexists].
  - destruct Henc as [Hsz Hrs]. unfold head_size in P1. rewrite Eq in P1.
    destruct (encode_rrs_fits (body_rrs m) w1) as (w2 & E2 & _); [lia|done|]. rewrite E2. by eexists.
Qed.

(** The response keeps the question and the EDNS record of its request. *)
Definition same_query (m m' : Message) : Prop := question m' = question m /\ additional_edns m' = additional_edns m.

Definition askable (tcp : bool) (m : Message) : Prop := encodable tcp m /\ is_Some (question m).

Lemma askable_same tcp m m' : same_query m m' -> askable tcp m -> askable tcp m'.
Proof.
  intros [Hq He] [[Hlim Henc] [q Eq]]. unfold askable, encodable, head_size in *. rewrite Hq, He, Eq in *. done.
Qed.

Lemma same_refl m : same_query m m.
Proof. done. Qed.
Lemma same_trans m1 m2 m3 : same_query m1 m2 -> same_query m2 m3 -> same_query m1 m3.
Proof. unfold same_query. intros [-> ->] [-> ->]. done. Qed.
Lemma same_hdr f m : same_query m (set_hdr_fields f m).
Proof. done. Qed.
Lemma same_rr_name n m : same_query m (set_rr_name n m).
Proof. done. Qed.
Lemma same_make_reply m ttl d : same_query m (make_reply m ttl d).
Proof. unfold same_query, make_reply. by destruct (question m) eqn:E; cbn. Qed.
Lemma same_nodata m : same_query m (add_nodata_reply m).
Proof. unfold same_query, add_nodata_reply. by destruct (question m) eqn:E; cbn. Qed.
Lemma same_rcode m rcode a : same_query m (apply_rcode m rcode a).
Proof. unfold same_query, apply_rcode. cbn. by destruct (question m) eqn:E; cbn. Qed.
Lemma same_rcode_answers m rcode a : same_query m (apply_rcode (set_answers [] m) rcode a).
Proof. eapply same_trans; [|apply same_rcode]. done. Qed.
Lemma same_clone m : same_query m (clone m).
Proof. done. Qed.
End EncodeTotal.

(** ** Exactly one answer *)
Section Answered.
Context {ox : Oxenc} {oxl : OxencLaws} {b32 : Base32z}.
Context `{IPAddressLaws Z} `{IPAddressLaws ipv6}.

Definition is_answer (e : DnsEffect) : Prop := match e with Initiate _ => False | _ => True end.
#[local] Instance is_answer_dec e : Decision (is_answer e).
Proof. destruct e; apply _. Defined.

Definition local_question (m : Message) : Prop :=
  exists q, question m = Some q /\ has_tld CLIENT_TLD q || has_tld RELAY_TLD q || has_tld (str "loki") q = true.

(** How many callbacks an answer may still take, and that they can reply *)
Definition answer_ok (k : nat) (e : DnsEffect) : Prop :=
  match e with
  | Reply _ => True
  | Initiate _ => False
  | Wait (LookupIntro _ _ msg tcp) | Wait (QueryUpstream msg tcp) => (1 <= k)%nat /\ askable tcp msg
  | Wait (ResolveSns _ _ msg _ tcp) => (2 <= k)%nat /\ askable tcp msg /\ local_question msg
  end.

(** Every IPv6 address of the tun device is taken. *)
Definition exhausted6 (t : TunEndpoint) : Prop :=
  forall a, in_range (range_of (local_ipv6_net t)) a -> is_Some (remote_of (ipv6_mapping t) a).

(** [m] returns, answering when [R] says [true] and silent when it says [false], or there is
    no IPv6 address left. *)
Definition answers_by {A} (k : nat) (m : Dns A) (R : bool -> A -> Prop) : Prop := forall s, tun_ok (tun s) ->
  let '(s', es, r) := m s in
  tun_ok (tun s') /\
  match r with
  | Returns a => exists b, R b a /\
      if b : bool then exists e, filter is_answer es = [e] /\ answer_ok k e else filter is_answer es = []
  | Throws _ => exhausted6 (tun s')
  | Undef => False
  end.

Lemma by_ret {A} k (a : A) R : R false a -> answers_by k (dret a) R.
Proof. intros HR s Hs. split; [done|]. by exists false. Qed.

Lemma by_effect k e (R : bool -> unit -> Prop) : is_answer e -> answer_ok k e -> R true tt -> answers_by k (deffect e) R.
Proof.
  intros Ha Hk HR s Hs. split; [done|]. exists true. split; [done|]. exists e. by rewrite filter_cons_True.
Qed.

Lemma by_bind {A B} k (m : Dns A) (f : A -> Dns B) R R' :
  answers_by k m R -> (forall b a, R b a -> answers_by k (f a) (fun b' c => b && b' = false /\ R' (b || b') c)) ->
  answers_by k (dbind m f) R'.
Proof.
  intros Hm Hf s Hs. specialize (Hm s Hs). unfold dbind. destruct (m s) as [[s1 es1] [a|e|]]; [|done|by destruct Hm].
  destruct Hm as (Hs1 & b & HR & Hes1). specialize (Hf b a HR s1 Hs1). destruct (f a s1) as [[s2 es2] [c|e|]]; [|done|done].
  destruct Hf as (Hs2 & b' & [Hb HR'] & Hes2). split; [done|]. exists (b || b'). split; [done|]. rewrite filter_app.
  destruct b, b'; try done; cbn [orb].
  - destruct Hes1 as (e & -> & He). rewrite Hes2. by exists e.
  - destruct Hes2 as (e & -> & He). rewrite Hes1. by exists e.
  - by rewrite Hes1, Hes2.
Qed.

Lemma by_weaken {A} k k' (m : Dns A) (R R' : bool -> A -> Prop) :
  answers_by k m R -> (k <= k')%nat -> (forall b a, R b a -> R' b a) -> answers_by k' m R'.
Proof.
  intros Hm Hk HR s Hs. specialize (Hm s Hs). destruct (m s) as [[s1 es] [a|e|]]; [|done|done].
  destruct Hm as (Hs1 & b & Hb & Hes). split; [done|]. exists b. split; [by apply HR|]. destruct b; [|done].
  destruct Hes as (e & -> & He). exists e. split; [done|]. destruct e as [| |[]]; cbn in *; (done || (split; [lia|apply He])).
Qed.

(** Silent, with the message's question and EDNS record kept *)
Definition keeps (m : Message) : bool -> Message -> Prop := fun b m' => b = false /\ same_query m m'.
Definition once {A} : bool -> A -> Prop := fun b _ => b = true.

Lemma by_silent {A B} k (m : Dns A) (f : A -> Dns B) (P : A -> Prop) R :
  answers_by k m (fun b a => b = false /\ P a) -> (forall a, P a -> answers_by k (f a) R) -> answers_by k (dbind m f) R.
Proof.
  intros Hm Hf. eapply by_bind; [done|]. intros b a [-> HP]. eapply by_weaken; [by apply Hf|done|]. by intros [] c.
Qed.

Lemma by_after {A B} k (m : Dns A) (f : A -> Dns B) (R : bool -> B -> Prop) :
  answers_by k m once -> (forall a, answers_by k (f a) (fun b c => b = false /\ R true c)) -> answers_by k (dbind m f) R.
Proof.
  intros Hm Hf. eapply by_bind; [done|]. intros b a Hb. unfold once in Hb. subst b.
  eapply by_weaken; [by apply Hf|done|]. by intros b c [-> HR].
Qed.

Lemma by_reply k m tcp : encodable tcp m -> answers_by k (reply m tcp) once.
Proof. intros He. unfold reply. destruct (encode_total tcp m He) as [b ->]. by apply by_effect. Qed.

Lemma by_reply_same k m m' tcp : askable tcp m -> same_query m m' -> answers_by k (reply m' tcp) once.
Proof. intros Ha Hs. apply by_reply. eapply askable_same in Ha; [|done]. apply Ha. Qed.

(** The SOA record is always constructed. *)
Lemma soa_total serial ttl : exists d,
  soa_data (str "localhost.sesh") (str "sr.localhost.sesh") serial ttl 3600 900 1209600 = Ok (Value d).
Proof.
  unfold soa_data. cbn zeta. set (w := new_writer _).
  assert ((let* (w, _) := encode_name false (str "localhost.sesh") w in encode_name false (str "sr.localhost.sesh") w) =
    (mkWriter ([9] ++ str "localhost" ++ [4] ++ str "sesh" ++ [0] ++ [2] ++ str "sr" ++ [9] ++ str "localhost" ++ [4] ++
       str "sesh" ++ [0] ++ replicate 20 0) 35 ∅ 0, Ok tt)) as -> by (subst w; vm_compute; reflexivity).
  destruct (decide _) as [Hd|_]; [vm_compute in Hd; lia|]. by eexists.
Qed.

Lemma by_nx_soa k m domain ttl : answers_by k (add_nx_soa m domain ttl) (keeps m).
Proof.
  intros s Hs. unfold add_nx_soa. destruct (soa_total (soa_serial s) ttl) as [d ->]. split; [done|].
  exists false. by split.
Qed.

(** *** The tun endpoint *)
Definition env_ok (env : Env) : Prop := forall remote t, tun_ok t -> tun_ok (env_initiate env remote t).2.

Lemma map6_throw remote t t' : tun_ok t -> map6 remote t = Some (Throw tt, t') -> exhausted6 t'.
Proof.
  intros Ht Hm. destruct (map6_spec remote t Ht) as (r & t2 & Hm2 & _ & _ & _ & _ & Hr). rewrite Hm in Hm2. simplify_eq.
  unfold map6 in Hm. destruct (local_of _ remote) eqn:El; [done|]. unfold get_next_local_ipv6 in Hm. cbn zeta in Hm.
  destruct (negb (map_contains _ _) && _ && _) eqn:Etry.
  { apply andb_prop in Etry as [[Hfree%negb_true_iff _]%andb_prop _]. cbn in Hm.
    destruct (map_insert_new (ipv6_mapping t) _ remote (Tun.tun_map6 _ Ht) Hfree El) as (m' & Hi & _).
    rewrite Hi in Hm. done. }
  destruct (get_next_local _ _) as [[[ip|] r']|] eqn:Eg; [| |done]; cbn in Hm.
  - destruct (get_next_local_spec (ipv6_mapping t) (range6 t)) as (res & r2 & Hg & _ & _ & Hs); [apply Ht|].
    rewrite Eg in Hg. simplify_eq. destruct Hs as [_ Hfree].
    destruct (map_insert_new (ipv6_mapping t) _ remote (Tun.tun_map6 _ Ht) Hfree El) as (m' & Hi & _). rewrite Hi in Hm. done.
  - injection Hm as <-. exact Hr.
Qed.

Lemma by_map6 k remote : answers_by k (tun_map6 remote) (fun b _ => b = false /\ True).
Proof.
  intros s Hs. unfold tun_map6. destruct (map6_spec remote (tun s) Hs) as ([ip|[]] & t' & Hm & Ht' & _); rewrite Hm.
  - split; [done|]. by exists false.
  - split; [done|]. by apply (map6_throw remote (tun s)).
Qed.

Lemma by_map4 k remote : answers_by k (tun_map4 remote) (fun b _ => b = false /\ True).
Proof.
  intros s Hs. unfold tun_map4. destruct (map4_spec remote (tun s) Hs) as (r & t' & -> & Ht' & _).
  split; [done|]. by exists false.
Qed.

Lemma by_initiate k env remote : env_ok env -> answers_by k (initiate env remote) (fun b _ => b = false /\ True).
Proof.
  intros He s Hs. unfold initiate. specialize (He remote (tun s) Hs). destruct (env_initiate _ _ _) as [c t].
  split; [done|]. exists false. split; [done|]. by rewrite filter_cons_False by (intros []).
Qed.

(** *** Names *)
Ltac keep_step :=
  match goal with
  | H : same_query ?a ?b |- same_query ?a ?b => exact H
  | |- same_query ?a ?a => apply same_refl
  | |- same_query _ (make_reply _ _ _) => eapply same_trans; [|apply same_make_reply]
  | |- same_query _ (set_rr_name _ _) => eapply same_trans; [|apply same_rr_name]
  | |- same_query _ (add_nodata_reply _) => eapply same_trans; [|apply same_nodata]
  | |- same_query _ (apply_rcode (set_answers [] _) _ _) => eapply same_trans; [|apply same_rcode_answers]
  | |- same_query _ (apply_rcode _ _ _) => eapply same_trans; [|apply same_rcode]
  end.
Ltac keep := unfold add_txt_reply, add_cname_reply, add_ptr_reply, add_srv_reply, add_reply_v6, add_reply_v4, nxdomain,
  servfail, formerr, refused; repeat keep_step.

Lemma by_nxdomain k m tld ttl : answers_by k (let% msg := add_nx_soa m tld ttl in dret (nxdomain msg true)) (keeps m).
Proof.
  eapply by_silent; [apply by_nx_soa|]. intros m' Hm'. apply by_ret. split; [done|]. eapply same_trans; [done|]. keep.
Qed.

Lemma by_nothing k tcp m tld ttl : askable tcp m ->
  answers_by k (let% msg := add_nx_soa m tld ttl in reply (nxdomain msg true) tcp) once.
Proof.
  intros Ha. eapply by_silent; [apply by_nx_soa|]. intros m' Hm'. eapply by_reply_same; [done|].
  eapply same_trans; [done|]. keep.
Qed.

Lemma by_keep k m m' : same_query m m' -> answers_by k (dret m') (keeps m).
Proof. intros Hm. by apply by_ret. Qed.

Lemma by_txt k env localhost m name hostname tld sub tcp : askable tcp m ->
  answers_by k (answer_txt env localhost m name hostname tld sub tcp) once.
Proof.
  intros Ha. unfold answer_txt. eapply (by_silent _ _ _ (same_query m)); [|intros m' Hm'; by eapply by_reply_same].
  destruct (localhost && _); [apply by_keep; keep|]. destruct (is_snode name) as [rid|].
  - destruct (env_rc_text env rid); [apply by_keep; keep|apply by_nxdomain].
  - destruct (bool_decide _); [|apply by_nxdomain]. destruct (try_address _ _); [|apply by_nxdomain].
    apply by_keep. destruct (env_path_text _ _); keep.
Qed.

Lemma by_address k env aaaa m hostname tld sub tcp : env_ok env -> askable tcp m ->
  answers_by k (answer_address env aaaa m hostname tld sub tcp) once.
Proof.
  intros He Ha. unfold answer_address. destruct (try_address _ _) as [remote|]; [|by apply by_nothing].
  eapply by_silent; [by apply by_initiate|]. intros created _.
  eapply (by_silent _ _ _ (same_query m)); [|intros m' Hm'; by eapply by_reply_same].
  destruct created; [|apply by_nxdomain]. destruct aaaa.
  { eapply by_silent; [apply by_map6|]. intros ip _. apply by_keep. keep. }
  destruct (bool_decide _).
  { eapply by_silent; [apply by_map4|]. intros [ip|] _; apply by_keep; keep. }
  eapply by_weaken; [apply by_nx_soa|done|]. intros b m' [-> Hm']. split; [done|]. eapply same_trans; [|done]. keep.
Qed.

Lemma by_name k env localhost m q name hostname tld sub tcp : (1 <= k)%nat -> env_ok env -> askable tcp m ->
  answers_by k (answer_name env localhost m q name hostname tld sub tcp) once.
Proof.
  intros Hk He Ha. unfold answer_name. destruct (qtype q =? RRType_TXT); [by apply by_txt|].
  destruct (_ || _); [by apply by_address|]. destruct (_ && _); [|by apply by_nothing].
  destruct sub as [|service [|proto [|]]]; [by apply by_nothing..| |by apply by_nothing].
  destruct (_ && _); [|by apply by_nothing].
  destruct (buf_from_base32z hostname) as [rid|]; [|by apply by_nothing]. by apply by_effect.
Qed.

Lemma by_true {A} k (m : Dns A) : answers_by k m once -> answers_by k (let% _ := m in dret true) (fun b a => a = b).
Proof. intros Hm. eapply by_after; [done|]. intros a. by apply by_ret. Qed.

Lemma by_ptr k env m tcp : askable tcp m -> answers_by k (handle_local_ptr env m tcp) (fun b a => a = b).
Proof.
  intros Ha s Hs. unfold handle_local_ptr. destruct (proj2 Ha) as [q ->].
  assert (Hno : answers_by k (dret false) (fun b a => a = b)) by by apply by_ret.
  assert (Hyes : forall mapped zone, answers_by k
    (let% msg := match mapped with
                 | Some a => dret (add_ptr_reply m (na_to_string a) DEFAULT_ANSWER_TTL)
                 | None => add_nx_soa (nxdomain m true) zone 5
                 end in
     let% _ := reply msg tcp in dret true) (fun b a => a = b)).
  { intros mapped zone. eapply (by_silent _ _ _ (same_query m)); [|intros m' Hm'; apply by_true; by eapply by_reply_same].
    destruct mapped; [apply by_keep; keep|]. eapply by_weaken; [apply by_nx_soa|done|].
    intros b m' [-> Hm']. split; [done|]. eapply same_trans; [|done]. keep. }
  destruct (negb _); [apply (Hno s Hs)|]. destruct (decode_ptr _) as [ip|]; [|apply (Hno s Hs)].
  destruct (match ip with IPv4 a => _ | IPv6 a => _ end) as [mapped is_ours]. destruct (negb is_ours); [apply (Hno s Hs)|].
  apply (Hyes mapped _ s Hs).
Qed.

Lemma by_local env m name tcp : env_ok env -> askable tcp m ->
  answers_by 2 (handle_local env m name tcp) (fun b a => a = b).
Proof.
  intros He Ha. unfold handle_local. eapply by_bind; [by apply by_ptr|]. intros b a ->. destruct b.
  { apply by_ret. by split. }
  destruct (proj2 Ha) as [q Eq]. rewrite Eq.
  destruct (_ || _) eqn:Etld; cbn [negb]; [|apply by_ret; by split].
  eapply (by_weaken 2 2 _ (fun b a => a = b)); [|done|by intros b c ->].
  destruct (rev (split _ _ _)) as [|tld [|hostname rsub]]; [apply by_true; eapply by_reply_same; [done|]; keep..|]. cbn zeta.
  assert (Hname : forall m' localhost name hostname tld, same_query m m' ->
    answers_by 2 (let% _ := answer_name env localhost m' q name hostname tld (rev rsub) tcp in dret true) (fun b a => a = b)).
  { intros m' ???? Hm'. apply by_true, by_name; [lia|done|by eapply askable_same]. }
  destruct (is_localhost name).
  { set (m1 := if bool_decide _ then _ else m). assert (same_query m m1) by (subst m1; destruct (bool_decide _); keep).
    destruct (_ =? _); [apply by_true; eapply by_reply_same; [done|]; keep|]. apply Hname. keep. }
  destruct (bool_decide (name = random_snode)).
  { destruct (env_random_rc env) as [rid|]; [|apply by_true; eapply by_reply_same; [done|]; keep].
    destruct (_ =? _); [apply by_true; eapply by_reply_same; [done|]; keep|]. apply Hname. keep. }
  destruct (_ && _); [|by apply Hname]. apply by_true, by_effect; [done| |done]. cbn. split; [lia|]. split; [done|]. by exists q.
Qed.

(** *** The callbacks *)
Lemma by_local_resolved env m x (relay : bool) tcp : env_ok env -> askable tcp m -> local_question m ->
  answers_by 1 (handle_local env m (x ++ str "." ++ (if relay then RELAY_TLD else CLIENT_TLD)) tcp) (fun b a => b = true /\ a = true).
Proof.
  intros He Ha (q & Eq & Htld). unfold handle_local. eapply by_bind; [by apply by_ptr|]. intros b a ->. destruct b.
  { apply by_ret. by split. }
  rewrite Eq, Htld. cbn [negb]. set (tld := if relay then RELAY_TLD else CLIENT_TLD).
  rewrite (split_last x tld) by apply dot_notin_tld.
  eapply (by_weaken 1 1 _ (fun b a => a = b /\ b = true)); [|done|by intros b c [-> ->]].
  assert (Htrue : forall m' : Dns unit, answers_by 1 m' once -> answers_by 1 (let% _ := m' in dret true) (fun b a => a = b /\ b = true)).
  { intros m' Hm'. eapply by_after; [done|]. intros a. by apply by_ret. }
  destruct (rev (split x _ _)) as [|hostname rsub]; [apply Htrue; eapply by_reply_same; [done|]; keep|]. cbn zeta.
  assert (Hname : forall m' localhost name hostname tld, same_query m m' ->
    answers_by 1 (let% _ := answer_name env localhost m' q name hostname tld (rev rsub) tcp in dret true) (fun b a => a = b /\ b = true)).
  { intros m' ???? Hm'. apply Htrue, by_name; [lia|done|by eapply askable_same]. }
  destruct (is_localhost _).
  { set (m1 := if bool_decide _ then _ else m). assert (same_query m m1) by (subst m1; destruct (bool_decide _); keep).
    destruct (_ =? _); [apply Htrue; eapply by_reply_same; [done|]; keep|]. apply Hname. keep. }
  destruct (bool_decide (_ = random_snode)).
  { destruct (env_random_rc env) as [rid|]; [|apply Htrue; eapply by_reply_same; [done|]; keep].
    destruct (_ =? _); [apply Htrue; eapply by_reply_same; [done|]; keep|]. apply Hname. keep. }
  rewrite (bool_decide_false (tld = str "loki")) by (subst tld; by destruct relay). by apply Hname.
Qed.

Lemma with_sub_tld sub a : exists x, with_sub sub (na_to_string a) = x ++ str "." ++ (if negb (na_client a) then RELAY_TLD else CLIENT_TLD).
Proof.
  unfold na_to_string. assert ((if na_client a then CLIENT_TLD else RELAY_TLD) = (if negb (na_client a) then RELAY_TLD else CLIENT_TLD)) as ->
    by by destruct (na_client a).
  destruct sub as [|s sub]; cbn [with_sub]; [by eexists|]. exists (join (str ".") (s :: sub) ++ str "." ++ to_base32z (na_pubkey a)).
  by rewrite <-!app_assoc.
Qed.

Lemma by_sns env lookup sub m cname_only tcp a assertive ttl : env_ok env -> askable tcp m -> local_question m ->
  answers_by 1 (sns_resolved env lookup sub m cname_only tcp a assertive ttl) once.
Proof.
  intros He Ha Hl. unfold sns_resolved. destruct a as [a|].
  - destruct cname_only; [eapply by_reply_same; [done|]; keep|]. cbn zeta.
    set (m1 := set_rr_name (Some (with_sub _ _)) _). assert (same_query m m1) as Hm1 by (subst m1; keep).
    destruct (with_sub_tld sub a) as [x ->].
    eapply by_bind; [apply by_local_resolved; [done|by eapply askable_same|]|].
    { destruct Hl as (q & Eq & Ht). exists q. by rewrite (proj1 Hm1). }
    intros b c [-> ->]. by apply by_ret.
  - eapply (by_silent _ _ _ (same_query m)).
    + destruct assertive; [|apply by_keep; keep]. eapply by_weaken; [apply by_nx_soa|done|].
      intros b m' [-> Hm']. split; [done|]. eapply same_trans; [|done]. keep.
    + intros m' Hm'. eapply by_reply_same; [done|]. keep.
Qed.

Lemma by_intro sub m tcp srvs : askable tcp m -> answers_by 0 (intro_found sub m tcp srvs) once.
Proof.
  intros Ha. unfold intro_found. destruct srvs as [srvs|]; [|eapply by_reply_same; [done|]; keep].
  set (found := filter _ srvs). clearbody found. eapply by_reply_same; [done|].
  assert (Hfold : forall m0, same_query m m0 -> same_query m (foldl (fun msg srv =>
    add_srv_reply msg (srv_priority srv) (srv_weight srv) (srv_port srv) (srv_target srv) DEFAULT_ANSWER_TTL) m0 found)).
  { induction found as [|srv found IH]; intros m0 Hm0; [done|]. apply IH. keep. }
  specialize (Hfold m (same_refl m)). destruct found; [|done]. cbn in *. keep.
Qed.

(** A response that is passed on is encoded, too. *)
Lemma raw_encode_total tcp m : (12 <= encode_limit tcp (raw_edns m))%nat -> exists b, raw_encode tcp m = Ok b.
Proof.
  intros Hl. unfold raw_encode. cbn zeta. set (w0 := new_writer _). set (hdr := header_ints _ _ _ _ _ _).
  destruct (new_writer_ok (encode_limit tcp (raw_edns m))) as (Hp & Hs0 & _). fold w0 in Hp, Hs0.
  pose proof (write_ints_appends hdr w0 Hp) as Hi. destruct (decide _) as [_|Hd]; [|change (sum_list _) with 12%nat in Hd; lia].
  destruct Hi as (w1 & -> & _). destruct (raw_encode_questions _ w1) as [w2 []]; [by eexists|].
  destruct (write_section _ w2) as [w3 []]; by eexists.
Qed.

Lemma by_upstream m tcp response : askable tcp m -> answers_by 0 (upstream_answered m tcp response) once.
Proof.
  intros Ha. unfold upstream_answered. destruct (bool_decide _); [eapply by_reply_same; [done|]; keep|].
  destruct (raw_parse response) as [raw|]; [|eapply by_reply_same; [done|]; keep].
  destruct (raw_encode_total tcp (rewrite_for m raw)) as [b ->]; [|by apply by_effect].
  destruct Ha as [[_ Henc] [q Eq]]. rewrite Eq in Henc. destruct Henc as (_ & Hsz & _). unfold head_size in Hsz. cbn [rewrite_for raw_edns].
  lia.
Qed.

Lemma by_request env siphash24 secret ip now request tcp msg : env_ok env ->
  extract_question siphash24 secret ip now request = Ok (Some msg) -> encodable tcp msg ->
  answers_by 2 (handle_request env siphash24 secret ip now request tcp) once.
Proof.
  intros He Ex Henc. unfold handle_request. rewrite Ex. destruct (bad_extract msg); [by apply by_reply|].
  destruct (match additional_edns msg with Some e => _ | None => _ end); [by apply by_reply|].
  destruct (question msg) as [q|] eqn:Eq; [|by apply by_reply].
  assert (askable tcp msg) as Ha by (split; [done|by rewrite Eq]).
  eapply by_bind; [by apply by_local|]. intros b a ->. destruct b; [by apply by_ret|].
  eapply (by_weaken 2 2 _ once); [|done|by intros [] c]. destruct (bool_decide _); [by apply by_nothing|].
  unfold forward. destruct (env_upstream env); [|eapply by_reply_same; [done|]; keep].
  apply by_effect; [done| |done]. split; [lia|]. by apply (askable_same tcp msg (clone msg) (same_clone msg)).
Qed.

Lemma by_resume n env ans p : env_ok env -> answer_ok (S n) (Wait p) -> answers_by n (resume env ans p) once.
Proof.
  intros He Hp. destruct p as [lookup sub msg cname tcp|rid sub msg tcp|orig tcp]; cbn in Hp |- *.
  - destruct Hp as (Hn & Ha & Hl). destruct (on_sns ans lookup) as [[a assertive] ttl].
    eapply by_weaken; [by apply by_sns|lia|done].
  - eapply by_weaken; [apply by_intro, Hp|lia|done].
  - eapply by_weaken; [apply by_upstream, Hp|lia|done].
Qed.

Lemma waits_of (es : list DnsEffect) : filter is_wait es = filter is_wait (filter is_answer es).
Proof. rewrite list_filter_filter. apply list_filter_iff. intros [| |p]; cbn; tauto. Qed.
Lemma answers_of_rest (es : list DnsEffect) : filter is_answer (filter (fun e => ~ is_wait e) es) = filter (fun e => ~ is_wait e) (filter is_answer es).
Proof. rewrite !list_filter_filter. apply list_filter_iff. tauto. Qed.

Lemma by_serve n env ans m : env_ok env -> answers_by n m once -> answers_by 0 (serve n env ans m) once.
Proof.
  intros He. revert m. induction n as [|n IH]; intros m Hm s Hs; [exact (Hm s Hs)|]. specialize (Hm s Hs). cbn [serve].
  destruct (m s) as [[s1 es] [[]|e|]]; [|done|done]. destruct Hm as (Hs1 & b & Hb & Hes). unfold once in Hb. subst b.
  destruct Hes as (e & Ees & Hok). rewrite waits_of, Ees. destruct e as [data| |p]; [|done|].
  - split; [done|]. exists true. split; [done|]. exists (Reply data). by rewrite Ees.
  - cbn [filter list_filter]. rewrite decide_True by done.
    specialize (IH _ (by_resume n env ans p He Hok) s1 Hs1). destruct (serve n env ans _ s1) as [[s2 es2] [[]|e|]]; [|done|done].
    destruct IH as (Hs2 & b & Hb & Hes2). split; [done|]. exists b. split; [done|]. unfold once in Hb. subst b.
    rewrite filter_app, answers_of_rest, Ees. exact Hes2.
Qed.

(** C39. Every DNS request that can be parsed and whose question fits a response is answered
    exactly once: whatever the name and type, whatever the lookups and the upstream resolver
    answer and in whatever state the router is, one reply is sent, after at most two callbacks,
    unless the tun device has no IPv6 address left. *)
Theorem request_answered_once env ans siphash24 secret ip now request tcp msg s :
  env_ok env -> tun_ok (tun s) ->
  extract_question siphash24 secret ip now request = Ok (Some msg) -> encodable tcp msg ->
  let '(s', es, r) := serve 2 env ans (handle_request env siphash24 secret ip now request tcp) s in
  match r with
  | Returns _ => exists data, filter is_answer es = [Reply data]
  | Throws _ => exhausted6 (tun s')
  | Undef => False
  end.
Proof.
  intros He Hs Ex Henc.
  pose proof (by_serve 2 env ans _ He (by_request env siphash24 secret ip now request tcp msg He Ex Henc) s Hs) as Hserve.
  destruct (serve 2 _ _ _ s) as [[s' es] [[]|e|]]; [|apply Hserve..].
  destruct Hserve as (_ & b & Hb & Hes). unfold once in Hb. subst b. destruct Hes as ([data| |[]] & -> & Hok); cbn in Hok.
  - by exists data.
  - done.
  - lia.
  - lia.
  - lia.
Qed.

(** ** Names and addresses *)
Context {b32l : Base32zLaws}.

Lemma question_name_dot x t c : question_name (mkQuestion (x ++ str ".") t c) = x.
Proof.
  unfold question_name. cbn [qname]. rewrite ends_with_app. unfold remove_suffix. rewrite length_app.
  change (length (str ".")) with 1%nat. by rewrite Nat.add_sub, take_app_length.
Qed.

Lemma address_split a : is_buf 32 (na_pubkey a) ->
  rev (split (na_to_string a) (str ".") false) = [if na_client a then CLIENT_TLD else RELAY_TLD; to_base32z (na_pubkey a)].
Proof.
  intros [Hl Hb]. unfold na_to_string. rewrite split_last; [|by destruct (na_client a); apply (bool_decide_eq_false_1 (_ ∈ _))].
  change (str ".") with [dot]. pose proof (split_join dot [to_base32z (na_pubkey a)] ltac:(done)) as Hj. cbn [join] in Hj.
  rewrite Hj; [done|]. apply Forall_singleton, b32z_no_dot, Hb.
Qed.

Lemma address_not_special a : is_buf 32 (na_pubkey a) -> is_localhost (na_to_string a) = false /\ na_to_string a <> random_snode.
Proof.
  intros [Hl Hb]. pose proof (b32z_length _ Hl) as L. pose proof (b32z_no_dot _ Hb) as Hd. unfold na_to_string.
  set (tld := if na_client a then CLIENT_TLD else RELAY_TLD). set (pk := to_base32z (na_pubkey a)) in *.
  assert (length tld <= 5)%nat as Lt by (subst tld; destruct (na_client a); cbn; lia).
  assert (Hshort : forall x, (length x <= 20)%nat -> pk ++ str "." ++ tld <> x).
  { intros x Hx E. apply (f_equal length) in E. rewrite length_app in E. lia. }
  assert (Hends : forall u, ends_with (pk ++ str "." ++ tld) (str ".localhost." ++ u) = true -> (length u <= 5)%nat -> False).
  { intros u He Hu. unfold ends_with in He. apply andb_prop in He as [He1%bool_decide_eq_true He2%bool_decide_eq_true].
    rewrite drop_app_le in He2 by (rewrite !length_app in *; cbn in *; lia).
    assert (dot ∉ drop (length (pk ++ str "." ++ tld) - length (str ".localhost." ++ u)) pk) as Hd2.
    { intros Hin. apply Hd. rewrite list_elem_of_lookup in Hin |- *. destruct Hin as [i Hi]. rewrite lookup_drop in Hi. by eexists. }
    destruct (drop _ pk) as [|c l] eqn:El.
    - apply (f_equal length) in El. rewrite length_drop, !length_app in El. cbn in El. lia.
    - cbn [app] in He2. injection He2 as -> _. apply Hd2. left. }
  split; [|apply Hshort; vm_compute; lia]. unfold is_localhost.
  rewrite !orb_false_iff, !bool_decide_eq_false. split_and!; try (apply Hshort; vm_compute; lia).
  - apply not_true_iff_false. intros Ht. apply (Hends (str "loki") Ht). cbn. lia.
  - apply not_true_iff_false. intros Ht. apply (Hends CLIENT_TLD Ht). cbn. lia.
Qed.

Lemma has_tld_of x tld t c : starts_with tld (str ".") = false -> has_tld tld (mkQuestion ((x ++ str "." ++ tld) ++ str ".") t c) = true.
Proof.
  intros Ht. unfold has_tld. rewrite question_name_dot, Ht. rewrite !length_app. change (length (str ".")) with 1%nat.
  rewrite bool_decide_true by lia. rewrite app_assoc, ends_with_app. cbn [andb]. apply bool_decide_true.
  replace (length x + (1 + length tld) - length tld - 1)%nat with (length x + 0)%nat by lia.
  rewrite <-app_assoc, lookup_app_r by lia. by replace (length x + 0 - length x)%nat with 0%nat by lia.
Qed.

(** [request] is read as the question [q], and has no bad cookie. *)
Definition asks siphash24 secret ip now (request : bytes) (m : Message) (q : Question) : Prop :=
  extract_question siphash24 secret ip now request = Ok (Some m) /\ question m = Some q /\ bad_extract m = false /\
  match additional_edns m with Some e => bad_cookie e | None => false end = false.

Lemma request_local env siphash24 secret ip now request tcp m q s s' es :
  asks siphash24 secret ip now request m q -> handle_local env m (question_name q) tcp s = (s', es, Returns true) ->
  handle_request env siphash24 secret ip now request tcp s = (s', es, Returns tt).
Proof.
  intros (Ex & Eq & Hbad & Hck) Hl. unfold handle_request. rewrite Ex, Hbad, Hck, Eq. unfold dbind. rewrite Hl. cbn. by rewrite app_nil_r.
Qed.

Lemma reply_total tcp m : encodable tcp m -> exists data, message_encode tcp m = Ok (Value data) /\
  forall s, reply m tcp s = (s, [Reply data], Returns tt).
Proof. intros He. destruct (encode_total tcp m He) as [data E]. exists data. split; [done|]. intros s. unfold reply. by rewrite E. Qed.

Lemma encodable_same tcp m m' q : encodable tcp m -> question m = Some q -> same_query m m' -> encodable tcp m'.
Proof. intros He Eq Hs. apply (askable_same tcp m m' Hs). split; [done|by rewrite Eq]. Qed.

(** A forward lookup of an address in its textual form *)
Lemma aaaa_local env s tcp m remote t1 addr t2 c : is_buf 32 (na_pubkey remote) ->
  env_initiate env remote (tun s) = (true, t1) -> map6 remote t1 = Some (Ok addr, t2) ->
  question m = Some (mkQuestion (na_to_string remote ++ str ".") RRType_AAAA c) -> encodable tcp m ->
  exists data, message_encode tcp (add_reply_v6 m (hi addr) (lo addr) DEFAULT_ANSWER_TTL) = Ok (Value data) /\
    handle_local env m (na_to_string remote) tcp s = (mkDnsState (soa_serial s) t2, [Initiate remote; Reply data], Returns true).
Proof.
  intros Hpk Hinit Hmap Eq He.
  destruct (reply_total tcp (add_reply_v6 m (hi addr) (lo addr) DEFAULT_ANSWER_TTL)) as (data & Hd & Hrep).
  { eapply encodable_same; [done|done|]. keep. }
  exists data. split; [done|]. unfold handle_local, handle_local_ptr. rewrite Eq. unfold dbind at 1. cbn [qtype].
  change (negb (RRType_AAAA =? RRType_PTR)) with true. cbn match. cbn [app].
  assert (has_tld CLIENT_TLD _ || has_tld RELAY_TLD _ = true) as ->.
  { unfold na_to_string. destruct (na_client remote); rewrite has_tld_of by done; [done|by rewrite orb_true_r]. }
  cbn [orb negb]. rewrite address_split by done. destruct (address_not_special remote Hpk) as [-> Hrand].
  rewrite bool_decide_false by done. cbn [rev app]. rewrite (bool_decide_false (_ = str "loki")) by by destruct (na_client remote).
  cbn [andb]. unfold answer_name. cbn [qtype]. change (RRType_AAAA =? RRType_TXT) with false.
  change ((RRType_AAAA =? RRType_AAAA) || (RRType_AAAA =? RRType_A)) with true. change (RRType_AAAA =? RRType_AAAA) with true.
  cbn match. unfold answer_address, try_address. fold (na_to_string remote). rewrite address_round_trip by done.
  unfold dbind, initiate. rewrite Hinit. cbn match. unfold tun_map6. change (tun (s <| tun := t1 |>)) with t1.
  rewrite Hmap. cbn match. unfold dret at 1. rewrite Hrep. done.
Qed.

(** A reverse lookup of a mapped address *)
Lemma ptr_local env s tcp m remote addr name c : is_ipv6_addr addr -> remote_of (ipv6_mapping (tun s)) addr = Some remote ->
  question m = Some (mkQuestion (ptr_name6 addr) RRType_PTR c) -> encodable tcp m ->
  exists data, message_encode tcp (add_ptr_reply m (na_to_string remote) DEFAULT_ANSWER_TTL) = Ok (Value data) /\
    handle_local env m name tcp s = (s, [Reply data], Returns true).
Proof.
  intros Ha Hr Eq He. destruct (reply_total tcp (add_ptr_reply m (na_to_string remote) DEFAULT_ANSWER_TTL)) as (data & Hd & Hrep).
  { eapply encodable_same; [done|done|]. keep. }
  exists data. split; [done|]. unfold handle_local, handle_local_ptr. rewrite Eq. unfold dbind at 1. cbn [qtype qname].
  change (negb (RRType_PTR =? RRType_PTR)) with false. cbn match. rewrite decode_ptr_name6 by done.
  unfold reverse_lookup. rewrite Hr. rewrite bool_decide_true by done. cbn [orb negb]. unfold dbind, dret at 1. rewrite Hrep. done.
Qed.

(** C40. Looking up the IPv6 address of a remote by its name gives an address of the tun device
    that leads to that remote: the reply holds it, packets sent to it go to the session with the
    remote, and a reverse lookup of it gives the name back. *)
Theorem lookup_reach_reverse env s tcp siphash24 secret ip now request1 request2 m1 m2 remote t1 addr t2 :
  is_buf 32 (na_pubkey remote) -> is_ipv6_addr addr ->
  env_initiate env remote (tun s) = (true, t1) -> tun_ok t1 -> map6 remote t1 = Some (Ok addr, t2) ->
  asks siphash24 secret ip now request1 m1 (mkQuestion (na_to_string remote ++ str ".") RRType_AAAA RRClass_IN) ->
  asks siphash24 secret ip now request2 m2 (mkQuestion (ptr_name6 addr) RRType_PTR RRClass_IN) ->
  encodable tcp m1 -> encodable tcp m2 ->
  let s2 := mkDnsState (soa_serial s) t2 in
  exists data1 data2,
    handle_request env siphash24 secret ip now request1 tcp s = (s2, [Initiate remote; Reply data1], Returns tt) /\
    message_encode tcp (add_reply_v6 m1 (hi addr) (lo addr) DEFAULT_ANSWER_TTL) = Ok (Value data1) /\
    (forall session proto off pkt, plain6 proto off pkt -> dest_ipv6 pkt = Some addr -> session remote = true ->
       exists data, handle_outbound_packet session pkt t2 = Value [SendSessionData remote data (protocol data)]) /\
    handle_request env siphash24 secret ip now request2 tcp s2 = (s2, [Reply data2], Returns tt) /\
    message_encode tcp (add_ptr_reply m2 (na_to_string remote) DEFAULT_ANSWER_TTL) = Ok (Value data2).
Proof.
  intros Hpk Ha Hinit Ht1 Hmap A1 A2 E1 E2 s2.
  assert (remote_of (ipv6_mapping t2) addr = Some remote) as Hr.
  { destruct (map6_spec remote t1 Ht1) as (r & t' & Hm & Hok & _ & _ & _ & Hr). rewrite Hmap in Hm. simplify_eq.
    apply (Tun.tun_map6 _ Hok), Hr. }
  destruct (aaaa_local env s tcp m1 remote t1 addr t2 RRClass_IN Hpk Hinit Hmap (proj1 (proj2 A1)) E1) as (data1 & D1 & R1).
  destruct (ptr_local env s2 tcp m2 remote addr (question_name (mkQuestion (ptr_name6 addr) RRType_PTR RRClass_IN)) RRClass_IN
              Ha Hr (proj1 (proj2 A2)) E2) as (data2 & D2 & R2).
  exists data1, data2. split; [eapply request_local; [exact A1|by rewrite question_name_dot]|]. split; [done|].
  split; [|split; [by eapply request_local|done]]. intros session proto off pkt Hp Hd Hs.
  destruct (outbound_plain6 session proto off pkt remote addr t2 Hp Hd Hr Hs) as (data & Hdata & _). by exists data.
Qed.
End Answered.
#[export] Existing Instance is_answer_dec.

(** ** Examples *)
Definition env_example : Env :=
  mkEnv (replicate 32 1) false (str "sessionrouter=client") true None (fun _ => None) (fun _ => None) (fun _ t => (true, t))
    (fun a => Z.shiftr a 3 =? Z.shiftr 0xac100000 3) (fun a => hi a =? 0xfd2e736573680000).

(** A request for one name, as a client sends it *)
Definition request_of (name : list bytes) (type : Z) : bytes :=
  [0; 7; 1; 0; 0; 1; 0; 0; 0; 0; 0; 0] ++ mbind (fun l => Z.of_nat (length l) :: l) name ++ [0] ++ be_bytes 2 type ++ [0; 1].
Definition asked (name : bytes) (type : Z) : Message := mkMessage false 7 256 (Some (mkQuestion name type 1)) [] [] None None.

Definition sns_answers : Answers :=
  mkAnswers (fun _ => (Some (some_remote 2), true, 60000))
    (fun _ => Some [mkSRV (str "_http") (str "_tcp") 1 2 80 (str "a.sesh")]) (fun _ => []).

Ltac decide_encodable :=
  split; [apply Z.ltb_lt; vm_compute; reflexivity|]; split;
    [apply (bool_decide_eq_true_1 (Forall _ _)); vm_compute; reflexivity|];
  split; [apply Nat.leb_le; vm_compute; reflexivity|apply Z.leb_le; vm_compute; reflexivity].

(** The SRV records of a name: it is resolved, and the contact that it stands for looked up. *)
Lemma request_answered_once_witness : exists data,
  filter is_answer (serve (ox := bencode) 2 env_example sns_answers
    (handle_request (ox := bencode) env_example demo_siphash [9] [1; 2; 3; 4] 2000
       (request_of [str "_http"; str "_tcp"; str "name"; str "loki"] RRType_SRV) false)
    (mkDnsState 1 (tun_example 1))).1.2 = [Reply data].
Proof.
  pose proof (request_answered_once (ox := bencode) (oxl := bencode_laws) env_example sns_answers demo_siphash [9] [1; 2; 3; 4] 2000
    (request_of [str "_http"; str "_tcp"; str "name"; str "loki"] RRType_SRV) false
    (asked (str "_http._tcp.name.loki.") RRType_SRV) (mkDnsState 1 (tun_example 1))) as Hs.
  specialize (Hs ltac:(intros r t Ht; exact Ht) (tun_reached_ok 1 _ (tun_example_reached 1 1)) ltac:(vm_compute; reflexivity)).
  assert (encodable false (asked (str "_http._tcp.name.loki.") RRType_SRV)) as He by decide_encodable.
  specialize (Hs He).
  assert ((serve (ox := bencode) 2 env_example sns_answers
    (handle_request (ox := bencode) env_example demo_siphash [9] [1; 2; 3; 4] 2000
       (request_of [str "_http"; str "_tcp"; str "name"; str "loki"] RRType_SRV) false)
    (mkDnsState 1 (tun_example 1))).2 = Returns tt) as Hr by (vm_compute; reflexivity).
  destruct (serve _ _ _ _ _) as [[s' es] r]. cbn [fst snd] in *. subst r. exact Hs.
Defined.

Definition lookup_tun : TunEndpoint :=
  match map6 (ox := bencode) (some_remote 2) (tun_example 1) with Some (_, t) => t | None => tun_example 1 end.

Lemma lookup_reach_reverse_witness : exists data1 data2,
  handle_request (ox := bencode) env_example demo_siphash [9] [1; 2; 3; 4] 2000
    (request_of [to_base32z (replicate 32 2); str "sesh"] RRType_AAAA) true (mkDnsState 1 (tun_example 1))
  = (mkDnsState 1 lookup_tun, [Initiate (some_remote 2); Reply data1], Returns tt) /\
  handle_request (ox := bencode) env_example demo_siphash [9] [1; 2; 3; 4] 2000
    (request_of (labels (ptr_name6 (ip_at 1 2))) RRType_PTR) true (mkDnsState 1 lookup_tun)
  = (mkDnsState 1 lookup_tun, [Reply data2], Returns tt).
Proof.
  assert (is_buf 32 (na_pubkey (some_remote 2))) as Hpk by (split; [reflexivity|repeat constructor; lia]).
  assert (is_ipv6_addr (ip_at 1 2)) as Hip by (apply (bool_decide_eq_true_1 ((_ <= _ < _) /\ (_ <= _ < _))); vm_compute; reflexivity).
  assert (map6 (ox := bencode) (some_remote 2) (tun_example 1) = Some (Ok (ip_at 1 2), lookup_tun)) as Hmap
    by (vm_compute; reflexivity).
  destruct (lookup_reach_reverse (ox := bencode) (oxl := bencode_laws) env_example (mkDnsState 1 (tun_example 1)) true demo_siphash [9] [1; 2; 3; 4] 2000
    (request_of [to_base32z (replicate 32 2); str "sesh"] RRType_AAAA) (request_of (labels (ptr_name6 (ip_at 1 2))) RRType_PTR)
    (asked (na_to_string (some_remote 2) ++ str ".") RRType_AAAA) (asked (ptr_name6 (ip_at 1 2)) RRType_PTR) (some_remote 2)
    (tun_example 1) (ip_at 1 2) lookup_tun Hpk Hip eq_refl (tun_reached_ok 1 _ (tun_example_reached 1 1)) Hmap)
    as (data1 & data2 & H1 & _ & _ & H2 & _).
  - split; [vm_compute; reflexivity|]. split; [reflexivity|]. split; reflexivity.
  - split; [vm_compute; reflexivity|]. split; [reflexivity|]. split; reflexivity.
  - decide_encodable.
  - decide_encodable.
  - exists data1, data2. split; [exact H1|exact H2].
Defined.

(** ** Reverse names that are not *)

(** The end of a reverse name is not looked at. *)
Lemma ptr_suffix_ignored : decode_ptr (str "2.0.16.172.in-addr.arpa.example.com.") = Some (IPv4 0xac100002).
Proof. vm_compute. reflexivity. Qed.

(** The zone of an IPv4 address has two dots in a row, which make a label with a dot in it. *)
Lemma zone4_broken : labels (zone4 16 0xac100002) = [str "16"; str "172"; str ".in-addr"; str "arpa"].
Proof. vm_compute. reflexivity. Qed.
