(* ===== verification/QueueManager.v ===== *)
(** The index manager of the bounded lock-free queue
    (util/thread/queue_manager.{hpp,cpp}).

    A cell of the circular buffer has a state word (generation, element
    state); the push and the pop index are combined indices
    [generation * capacity + cell].  Each operation of the manager is modelled
    as a small machine whose step is one atomic access of the source, so that
    the operations of several threads interleave at every access.  An atomic
    index is its modification order: an atomic read-modify-write and a
    sequentially consistent load see its last value, a relaxed load any value
    the thread's own view of the order still admits.

    The file also holds the arithmetic of the combined indices: an index that
    wraps at [numGenerations * capacity] stands for an unbounded position. *)
From Stdlib Require Import ZArith Lia.
From stdpp Require Import base list numbers.
From S2P Require Import Prelude.

Local Open Scope Z_scope.

(** ** Machine integers *)
Definition u32 (x : Z) : Z := wrap 32 x.
Definition i32 (x : Z) : Z := if u32 x <? 2 ^ 31 then u32 x else u32 x - 2 ^ 32.

(** ** Element states *)
Inductive ElementState : Type :=
| ES_Empty
| ES_Writing
| ES_Full
| ES_Reading.

#[export] Instance ElementState_eq_dec : EqDecision ElementState.
Proof. solve_decision. Defined.

Definition to_underlying (s : ElementState) : Z :=
  match s with ES_Empty => 0 | ES_Writing => 1 | ES_Full => 2 | ES_Reading => 3 end.

Inductive QueueReturn : Type :=
| Success
| QueueDisabled
| QueueEmpty
| QueueFull.

#[export] Instance QueueReturn_eq_dec : EqDecision QueueReturn.
Proof. solve_decision. Defined.

Definition GENERATION_COUNT_SHIFT : Z := 2.
Definition NUM_ELEMENT_GENERATIONS : Z := Z.shiftl 1 (4 * 8 - 2).
Definition ELEMENT_STATE_MASK : Z := 3.
Definition DISABLED_STATE_MASK : Z := Z.shiftl 1 (4 * 8 - 1).
Definition NUM_COMBINED_INDEXES : Z := DISABLED_STATE_MASK.
Definition MAX_CAPACITY : Z := Z.shiftl 1 (4 * 8 - 2).

Definition isDisabledFlagSet (encodedIndex : Z) : bool :=
  negb (Z.land encodedIndex DISABLED_STATE_MASK =? 0).

Definition discardDisabledFlag (encodedIndex : Z) : Z :=
  Z.land encodedIndex (u32 (Z.lnot DISABLED_STATE_MASK)).

Definition encodeElement (generation : Z) (state : ElementState) : Z :=
  Z.lor (u32 (Z.shiftl generation GENERATION_COUNT_SHIFT)) (to_underlying state).

Definition decodeGenerationFromElementState (state : Z) : Z :=
  Z.shiftr state GENERATION_COUNT_SHIFT.

Definition decodeStateFromElementState (state : Z) : ElementState :=
  let s := Z.land state ELEMENT_STATE_MASK in
  if s =? 0 then ES_Empty else if s =? 1 then ES_Writing
  else if s =? 2 then ES_Full else ES_Reading.

(** ** Atomic indices

    The modification order of the index, oldest value first.  [seen] is the
    position of the newest value a thread has read or written: by coherence a
    later load of the same thread does not return an older one. *)
Abbreviation AtomicIndex := (list Z) (only parsing).

Definition latest (a : AtomicIndex) : Z := List.last a 0.

Definition load_relaxed (a : AtomicIndex) (seen at_ : nat) : option Z :=
  if (seen <=? at_)%nat then a !! at_ else None.

(** [compare_exchange_strong]: the outcome's last component is the value left
    in [expected]. *)
Definition compare_exchange (a : AtomicIndex) (expected desired : Z) : AtomicIndex * Z :=
  if latest a =? expected then (a ++ [desired], expected) else (a, latest a).

(** [fetch_add] and [fetch_sub]: they act on the newest value. *)
Definition fetch_add (a : AtomicIndex) (n : Z) : AtomicIndex := a ++ [u32 (latest a + n)].

Definition newest (a : AtomicIndex) : nat := pred (length a).

(** What a thread has seen of the two indices, and of the counters of waiting
    readers and writers of the queue. *)
Record View := mkView {
  seen_push : nat;
  seen_pop : nat;
  seen_poppers : nat;
  seen_pushers : nat
}.

Definition saw_push (n : nat) (vw : View) : View :=
  mkView n (seen_pop vw) (seen_poppers vw) (seen_pushers vw).
Definition saw_pop (n : nat) (vw : View) : View :=
  mkView (seen_push vw) n (seen_poppers vw) (seen_pushers vw).
Definition saw_poppers (n : nat) (vw : View) : View :=
  mkView (seen_push vw) (seen_pop vw) n (seen_pushers vw).
Definition saw_pushers (n : nat) (vw : View) : View :=
  mkView (seen_push vw) (seen_pop vw) (seen_poppers vw) n.

(** ** The manager *)
Record QueueManager := mkManager {
  m_pushIndex : AtomicIndex;
  m_popIndex : AtomicIndex;
  m_capacity : Z;
  m_maxGeneration : Z;
  m_maxCombinedIndex : Z;
  m_states : list Z
}.

Definition set_push (q : QueueManager) (a : AtomicIndex) : QueueManager :=
  mkManager a (m_popIndex q) (m_capacity q) (m_maxGeneration q) (m_maxCombinedIndex q) (m_states q).
Definition set_pop (q : QueueManager) (a : AtomicIndex) : QueueManager :=
  mkManager (m_pushIndex q) a (m_capacity q) (m_maxGeneration q) (m_maxCombinedIndex q) (m_states q).
Definition set_state (q : QueueManager) (i s : Z) : QueueManager :=
  mkManager (m_pushIndex q) (m_popIndex q) (m_capacity q) (m_maxGeneration q) (m_maxCombinedIndex q)
    (<[Z.to_nat i := s]> (m_states q)).

Definition nextCombinedIndex (q : QueueManager) (index : Z) : Z :=
  if m_maxCombinedIndex q =? index then 0 else u32 (index + 1).

Definition nextGeneration (q : QueueManager) (generation : Z) : Z :=
  if m_maxGeneration q =? generation then 0 else u32 (generation + 1).

Definition circularDifference (startingValue subtractValue modulo : Z) : Z :=
  let difference := i32 (startingValue - subtractValue) in
  if difference >? i32 (modulo / 2) then i32 (difference - modulo)
  else if difference <? - i32 (modulo / 2) then i32 (difference + modulo)
  else difference.

(** The preconditions [circularDifference] asserts. *)
Definition circular_ok (startingValue subtractValue modulo : Z) : bool :=
  (modulo <=? 2 ^ 31) && (startingValue <? modulo) && (subtractValue <? modulo).

Definition numGenerations (capacity : Z) : Z :=
  u32 (Z.min (NUM_COMBINED_INDEXES / capacity) NUM_ELEMENT_GENERATIONS).

(** The constructor; [None] is a failing assertion. *)
Definition QueueManager_new (capacity : Z) : option QueueManager :=
  if (0 <? capacity) && (capacity <=? MAX_CAPACITY)
  then Some (mkManager [0] [0] capacity
               (u32 (numGenerations capacity - 1))
               (u32 (u32 (numGenerations capacity * u32 capacity) - 1))
               (replicate (Z.to_nat capacity) 0))
  else None.

(** [size] once both indices are loaded. *)
Definition size_of (q : QueueManager) (loadedPush loadedPop : Z) : Z :=
  let combinedPushIndex := discardDisabledFlag loadedPush in
  let difference := i32 (combinedPushIndex - loadedPop) in
  if 0 <=? difference
  then if difference >? i32 (m_capacity q) then 0 else difference
  else if difference <? - i32 (m_maxCombinedIndex q / 2)
  then Z.min (wrap 64 (i32 (difference + u32 (m_maxCombinedIndex q + 1)))) (m_capacity q)
  else 0.

(** ** The operations as machines

    [MPc] is where an operation stands, with its local variables: each
    constructor is the next atomic access the thread performs. *)
Inductive MPc : Type :=
| RPushLoad (saved : Z)
| RPushCell (saved loaded : Z)
| RPushHelp (saved combined : Z)
| RPushInc (generation index combined : Z)
| CommitPush (generation index : Z)
| RPopStart
| RPopLoad (saved : Z)
| RPopCell (saved loaded : Z)
| RPopHelp (saved loaded : Z)
| RPopInc (generation index loaded : Z)
| CommitPop (generation index : Z)
| DisableLoad
| DisableSet (index : Z)
| EnableLoad
| EnableSet (index : Z)
| RClearLoad (endGeneration endIndex : Z)
| RClearCell (endGeneration endIndex loaded : Z)
| RClearHelp (endGeneration endIndex loaded : Z)
| RClearInc (generation index loaded : Z)
| AbortLoad (generation index : Z)
| AbortReading (generation index loaded : Z)
| AbortInc (generation index loaded : Z)
| AbortEmpty (generation index : Z)
| SizePush
| SizePop (loadedPush : Z)
| EnabledLoad.

(** What an operation returns. *)
Inductive MResult : Type :=
| Reserved (generation index : Z)
| Failed (r : QueueReturn)
| Nothing
| Size (n : Z)
| Enabled (b : bool).

(** A step of a thread: it may have to wait, do something the language does
    not define, or move on. *)
Inductive step_result (B : Type) : Type :=
| Blocked
| Undef
| Stepped (b : B).
Arguments Blocked {B}.
Arguments Undef {B}.
Arguments Stepped {B} b.

(** [index] starts at [-1] in the variables that remember the last failure. *)
Definition NOT_SAVED : Z := u32 (-1).

Definition reservePushIndex : MPc := RPushLoad NOT_SAVED.
Definition reservePopIndex : MPc := RPopStart.

(** The head of the loop of [reservePushIndex]. *)
Definition push_top (saved loaded : Z) : MPc + MResult :=
  if isDisabledFlagSet loaded then inr (Failed QueueDisabled) else inl (RPushCell saved loaded).

Definition gen_of (q : QueueManager) (combined : Z) : Z := u32 (combined / m_capacity q).
Definition idx_of (q : QueueManager) (combined : Z) : Z := u32 (combined mod m_capacity q).

(** The two tests that recognise a cell of the generation before. *)
Definition previous_generation (q : QueueManager) (currGen elemGen : Z) : bool :=
  let difference := i32 (currGen - elemGen) in
  (difference =? 1) || (difference =? - i32 (m_maxGeneration q)).

(** The exchange of the cell's state in [reservePushIndex], and what follows it
    up to the next access. *)
Definition push_cell (q : QueueManager) (saved loaded s : Z) : QueueManager * (MPc + MResult) :=
  let combinedIndex := discardDisabledFlag loaded in
  let currGen := gen_of q combinedIndex in
  let currIdx := idx_of q combinedIndex in
  if s =? encodeElement currGen ES_Empty
  then (set_state q currIdx (encodeElement currGen ES_Writing),
        inl (RPushInc currGen currIdx combinedIndex))
  else if previous_generation q currGen (decodeGenerationFromElementState s)
  then match decodeStateFromElementState s with
       | ES_Reading => (q, inl (RPushLoad saved))
       | _ => if negb (saved =? loaded) then (q, inl (RPushLoad loaded))
              else (q, inr (Failed QueueFull))
       end
  else (q, inl (RPushHelp saved combinedIndex)).

(** The same of [reservePopIndex]. *)
Definition pop_cell (q : QueueManager) (saved loaded s : Z) : QueueManager * (MPc + MResult) :=
  let currGen := gen_of q loaded in
  let currIdx := idx_of q loaded in
  if s =? encodeElement currGen ES_Full
  then (set_state q currIdx (encodeElement currGen ES_Reading),
        inl (RPopInc currGen currIdx loaded))
  else
    let elemGen := decodeGenerationFromElementState s in
    let state := decodeStateFromElementState s in
    let difference := i32 (currGen - elemGen) in
    if previous_generation q currGen elemGen then (q, inr (Failed QueueEmpty))
    else if (difference =? 0) && bool_decide (state = ES_Empty)
    then if negb (saved =? loaded) then (q, inl (RPopLoad loaded))
         else (q, inr (Failed QueueEmpty))
    else if negb (difference =? 0) || bool_decide (state = ES_Writing)
    then (q, inl (RPopLoad saved))
    else (q, inl (RPopHelp saved loaded)).

(** The head of the loop of [reservePopForClear]; it returns [false] as [Nothing]. *)
Definition clear_top (q : QueueManager) (endGeneration endIndex loaded : Z) : MPc + MResult :=
  let endCombinedIndex := u32 (endGeneration * u32 (m_capacity q) + endIndex) in
  if circularDifference endCombinedIndex loaded (u32 (m_maxCombinedIndex q + 1)) =? 0
  then inr Nothing else inl (RClearCell endGeneration endIndex loaded).

Definition clear_cell (q : QueueManager) (endGeneration endIndex loaded s : Z)
  : QueueManager * (MPc + MResult) :=
  let currIdx := idx_of q loaded in
  let currGen := gen_of q loaded in
  if s =? encodeElement currGen ES_Full
  then (set_state q currIdx (encodeElement currGen ES_Reading),
        inl (RClearInc currGen currIdx loaded))
  else match decodeStateFromElementState s with
       | ES_Writing | ES_Full => (q, inl (RClearLoad endGeneration endIndex))
       | _ => (q, inl (RClearHelp endGeneration endIndex loaded))
       end.

(** An access of [m_states[i]]. *)
Definition on_cell {B} (q : QueueManager) (i : Z) (f : Z -> B) : step_result B :=
  match m_states q !! Z.to_nat i with Some s => Stepped (f s) | None => Undef end.

(** An exchange of the push (pop) index by its successor, which leaves the last
    value in the variable. *)
Definition advance_push (q : QueueManager) (vw : View) (combined : Z) : QueueManager * View * Z :=
  let '(a, observed) := compare_exchange (m_pushIndex q) combined (nextCombinedIndex q combined) in
  (set_push q a, saw_push (newest a) vw, observed).

Definition advance_pop (q : QueueManager) (vw : View) (loaded : Z) : QueueManager * View * Z :=
  let '(a, observed) := compare_exchange (m_popIndex q) loaded (nextCombinedIndex q loaded) in
  (set_pop q a, saw_pop (newest a) vw, observed).

(** An exchange that sets or clears the disabled flag: done, or try again. *)
Definition flag_push (q : QueueManager) (vw : View) (index desired : Z) (again : MPc)
  : QueueManager * View * (MPc + MResult) :=
  let '(a, _) := compare_exchange (m_pushIndex q) index desired in
  (set_push q a, saw_push (newest a) vw,
   if latest (m_pushIndex q) =? index then inr Nothing else inl again).

(** One step of an operation.  [at_] is the position in the modification order a
    relaxed load reads. *)
Definition mstep (at_ : nat) (q : QueueManager) (vw : View) (pc : MPc)
  : step_result (QueueManager * View * (MPc + MResult)) :=
  match pc with
  | RPushLoad saved =>
      match load_relaxed (m_pushIndex q) (seen_push vw) at_ with
      | Some loaded => Stepped (q, saw_push at_ vw, push_top saved loaded)
      | None => Blocked
      end
  | RPushCell saved loaded =>
      on_cell q (idx_of q (discardDisabledFlag loaded)) (fun s =>
        let '(q', r) := push_cell q saved loaded s in (q', vw, r))
  | RPushHelp saved combined =>
      let '(q', vw', observed) := advance_push q vw combined in
      Stepped (q', vw', push_top saved observed)
  | RPushInc generation index combined =>
      let '(q', vw', _) := advance_push q vw combined in
      Stepped (q', vw', inr (Reserved generation index))
  | CommitPush generation index =>
      on_cell q index (fun _ =>
        (set_state q index (encodeElement generation ES_Full), vw, inr Nothing))
  | RPopStart =>
      let loaded := latest (m_popIndex q) in
      Stepped (q, saw_pop (newest (m_popIndex q)) vw, inl (RPopCell NOT_SAVED loaded))
  | RPopLoad saved =>
      match load_relaxed (m_popIndex q) (seen_pop vw) at_ with
      | Some loaded => Stepped (q, saw_pop at_ vw, inl (RPopCell saved loaded))
      | None => Blocked
      end
  | RPopCell saved loaded =>
      on_cell q (idx_of q loaded) (fun s =>
        let '(q', r) := pop_cell q saved loaded s in (q', vw, r))
  | RPopHelp saved loaded =>
      let '(q', vw', observed) := advance_pop q vw loaded in
      Stepped (q', vw', inl (RPopCell saved observed))
  | RPopInc generation index loaded =>
      let '(q', vw', _) := advance_pop q vw loaded in
      Stepped (q', vw', inr (Reserved generation index))
  | CommitPop generation index =>
      on_cell q index (fun _ =>
        (set_state q index (encodeElement (nextGeneration q generation) ES_Empty), vw, inr Nothing))
  | DisableLoad =>
      let index := latest (m_pushIndex q) in
      Stepped (q, saw_push (newest (m_pushIndex q)) vw,
               if isDisabledFlagSet index then inr Nothing else inl (DisableSet index))
  | DisableSet index =>
      Stepped (flag_push q vw index (Z.lor index DISABLED_STATE_MASK) DisableLoad)
  | EnableLoad =>
      let index := latest (m_pushIndex q) in
      Stepped (q, saw_push (newest (m_pushIndex q)) vw,
               if isDisabledFlagSet index then inl (EnableSet index) else inr Nothing)
  | EnableSet index =>
      Stepped (flag_push q vw index (discardDisabledFlag index) EnableLoad)
  | RClearLoad endGeneration endIndex =>
      match load_relaxed (m_popIndex q) (seen_pop vw) at_ with
      | Some loaded => Stepped (q, saw_pop at_ vw, clear_top q endGeneration endIndex loaded)
      | None => Blocked
      end
  | RClearCell endGeneration endIndex loaded =>
      on_cell q (idx_of q loaded) (fun s =>
        let '(q', r) := clear_cell q endGeneration endIndex loaded s in (q', vw, r))
  | RClearHelp endGeneration endIndex loaded =>
      let '(q', vw', observed) := advance_pop q vw loaded in
      Stepped (q', vw', clear_top q endGeneration endIndex observed)
  | RClearInc generation index loaded =>
      let '(q', vw', _) := advance_pop q vw loaded in
      Stepped (q', vw', inr (Reserved generation index))
  | AbortLoad generation index =>
      match load_relaxed (m_popIndex q) (seen_pop vw) at_ with
      | Some loaded => Stepped (q, saw_pop at_ vw, inl (AbortReading generation index loaded))
      | None => Blocked
      end
  | AbortReading generation index loaded =>
      on_cell q index (fun _ =>
        (set_state q index (encodeElement generation ES_Reading), vw,
         inl (AbortInc generation index loaded)))
  | AbortInc generation index loaded =>
      let '(q', vw', _) := advance_pop q vw loaded in
      Stepped (q', vw', inl (AbortEmpty generation index))
  | AbortEmpty generation index =>
      on_cell q index (fun _ =>
        (set_state q index (encodeElement (nextGeneration q generation) ES_Empty), vw, inr Nothing))
  | SizePush =>
      Stepped (q, saw_push (newest (m_pushIndex q)) vw, inl (SizePop (latest (m_pushIndex q))))
  | SizePop loadedPush =>
      Stepped (q, saw_pop (newest (m_popIndex q)) vw,
               inr (Size (size_of q loadedPush (latest (m_popIndex q)))))
  | EnabledLoad =>
      Stepped (q, saw_push (newest (m_pushIndex q)) vw,
               inr (Enabled (negb (isDisabledFlagSet (latest (m_pushIndex q))))))
  end.

(** ** The assertions

    The conditions the operations assert on the access they are about to make. *)
Definition cell_is (q : QueueManager) (generation index : Z) (st : ElementState) : bool :=
  match m_states q !! Z.to_nat index with
  | Some s => (generation <=? m_maxGeneration q) && (index <? m_capacity q)
              && bool_decide (decodeStateFromElementState s = st)
              && (generation =? decodeGenerationFromElementState s)
  | None => false
  end.

Definition circular (start sub modulo : Z) (p : Z -> bool) : bool :=
  circular_ok start sub modulo && p (circularDifference start sub modulo).

Definition push_cell_asserts (q : QueueManager) (loaded s : Z) : bool :=
  let currGen := gen_of q (discardDisabledFlag loaded) in
  let elemGen := decodeGenerationFromElementState s in
  let modulo := u32 (m_maxGeneration q + 1) in
  if s =? encodeElement currGen ES_Empty then true
  else if previous_generation q currGen elemGen
  then circular currGen elemGen modulo (Z.eqb 1)
       && negb (bool_decide (decodeStateFromElementState s = ES_Empty))
  else circular currGen elemGen modulo (fun d => d <=? 0).

Definition pop_cell_asserts (q : QueueManager) (loaded s : Z) : bool :=
  let currGen := gen_of q loaded in
  let elemGen := decodeGenerationFromElementState s in
  if s =? encodeElement currGen ES_Full then true
  else if previous_generation q currGen elemGen
  then bool_decide (decodeStateFromElementState s = ES_Reading)
       && circular currGen elemGen (u32 (m_maxGeneration q + 1)) (Z.eqb 1)
  else true.

Definition size_asserts (q : QueueManager) (loadedPush loadedPop : Z) : bool :=
  let combinedPushIndex := discardDisabledFlag loadedPush in
  let difference := i32 (combinedPushIndex - loadedPop) in
  let modulo := u32 (m_maxCombinedIndex q + 1) in
  if 0 <=? difference
  then if difference >? i32 (m_capacity q)
       then circular combinedPushIndex loadedPop modulo (fun d => d <? 0) else true
  else if difference <? - i32 (m_maxCombinedIndex q / 2)
  then circular combinedPushIndex loadedPop modulo (fun d => 0 <? d) else true.

(** The arguments of [reservePopForClear], and the preconditions of the
    difference at the head of its loop. *)
Definition clear_arguments (q : QueueManager) (endGeneration endIndex : Z) : bool :=
  (endGeneration <=? m_maxGeneration q) && (endIndex <? m_capacity q).

Definition clear_top_ok (q : QueueManager) (endGeneration endIndex loaded : Z) : bool :=
  circular_ok (u32 (endGeneration * u32 (m_capacity q) + endIndex)) loaded
    (u32 (m_maxCombinedIndex q + 1)).

(** [RClearLoad] may load any value of the pop index; the exchange of
    [RClearHelp] leaves the value it expected or the newest one. *)
Definition masserts (q : QueueManager) (pc : MPc) : bool :=
  match pc with
  | RPushCell _ loaded =>
      match m_states q !! Z.to_nat (idx_of q (discardDisabledFlag loaded)) with
      | Some s => push_cell_asserts q loaded s | None => true end
  | RPopCell _ loaded =>
      match m_states q !! Z.to_nat (idx_of q loaded) with
      | Some s => pop_cell_asserts q loaded s | None => true end
  | CommitPush generation index => cell_is q generation index ES_Writing
  | CommitPop generation index => cell_is q generation index ES_Reading
  | RClearLoad endGeneration endIndex =>
      clear_arguments q endGeneration endIndex
      && forallb (clear_top_ok q endGeneration endIndex) (m_popIndex q)
  | RClearHelp endGeneration endIndex loaded =>
      clear_top_ok q endGeneration endIndex
        (compare_exchange (m_popIndex q) loaded (nextCombinedIndex q loaded)).2
  | RClearCell endGeneration endIndex loaded =>
      clear_arguments q endGeneration endIndex
      && circular (u32 (endGeneration * u32 (m_capacity q) + endIndex)) loaded
           (u32 (m_maxCombinedIndex q + 1)) (fun d => 0 <? d)
  | AbortReading generation index loaded =>
      cell_is q generation index ES_Writing
      && (u32 (generation * m_capacity q + index) =? loaded)
      && (generation =? loaded / m_capacity q) && (index =? loaded mod m_capacity q)
  | SizePop loadedPush => size_asserts q loadedPush (latest (m_popIndex q))
  | _ => true
  end.

(** ** Encodings *)
Lemma u32_small x : 0 <= x < 2 ^ 32 -> u32 x = x.
Proof. intros. unfold u32, wrap. apply Z.mod_small. lia. Qed.

Lemma i32_small x : - 2 ^ 31 <= x < 2 ^ 31 -> i32 x = x.
Proof.
  intros. unfold i32, u32, wrap. destruct (decide (0 <= x)).
  - rewrite Z.mod_small by lia. case_match eqn:E; lia.
  - replace (x mod 2 ^ 32) with (x + 2 ^ 32).
    + case_match eqn:E; lia.
    + apply (Z.mod_unique _ _ (-1)); lia.
Qed.

Lemma land_pow2_small x n : 0 <= x < 2 ^ n -> 0 <= n -> Z.land x (2 ^ n) = 0.
Proof.
  intros Hx Hn. apply Z.bits_inj'. intros k Hk. rewrite Z.land_spec, Z.bits_0, Z.pow2_bits_eqb by done.
  destruct (Z.eqb_spec n k) as [<-|]; [|apply andb_false_r]. rewrite andb_true_r.
  destruct (decide (x = 0)) as [->|]; [apply Z.bits_0|].
  apply Z.bits_above_log2; [lia|]. apply Z.log2_lt_pow2; lia.
Qed.

Lemma lor_pow2_small x n : 0 <= x < 2 ^ n -> 0 <= n -> Z.lor x (2 ^ n) = x + 2 ^ n.
Proof. intros. rewrite <- Z.add_lor_land, land_pow2_small by done. lia. Qed.

Lemma encodeElement_sum g s : 0 <= g < 2 ^ 30 -> encodeElement g s = 4 * g + to_underlying s.
Proof.
  intros. unfold encodeElement, GENERATION_COUNT_SHIFT. rewrite Z.shiftl_mul_pow2 by lia.
  rewrite u32_small by lia. pose proof (Z.add_lor_land (g * 2 ^ 2) (to_underlying s)) as E.
  assert (Z.land (g * 2 ^ 2) (to_underlying s) = 0); [|lia]. apply Z.bits_inj'. intros k Hk.
  rewrite Z.bits_0, Z.land_spec. destruct (decide (k < 2)).
  - by rewrite Z.mul_pow2_bits_low by lia.
  - rewrite (Z.bits_above_log2 (to_underlying s)), ?andb_false_r; [done|destruct s; simpl; lia|].
    destruct s; cbn; lia.
Qed.

Lemma to_underlying_range s : 0 <= to_underlying s < 4.
Proof. destruct s; simpl; lia. Qed.

Lemma encodeElement_inj g s g' s' :
  0 <= g < 2 ^ 30 -> 0 <= g' < 2 ^ 30 ->
  encodeElement g s = encodeElement g' s' -> g = g' /\ s = s'.
Proof.
  intros Hg Hg'. rewrite !encodeElement_sum by done. intros H.
  pose proof (to_underlying_range s). pose proof (to_underlying_range s').
  split; [lia|]. destruct s, s'; simpl in *; try done; lia.
Qed.

Lemma decode_encode_gen g s :
  0 <= g < 2 ^ 30 -> decodeGenerationFromElementState (encodeElement g s) = g.
Proof.
  intros. rewrite encodeElement_sum by done. unfold decodeGenerationFromElementState.
  rewrite Z.shiftr_div_pow2 by done. unfold GENERATION_COUNT_SHIFT.
  pose proof (to_underlying_range s). change (2 ^ 2) with 4.
  symmetry. apply (Z.div_unique _ _ _ (to_underlying s)); lia.
Qed.

Lemma decode_encode_state g s :
  0 <= g < 2 ^ 30 -> decodeStateFromElementState (encodeElement g s) = s.
Proof.
  intros. rewrite encodeElement_sum by done. unfold decodeStateFromElementState, ELEMENT_STATE_MASK.
  change 3 with (Z.ones 2). rewrite Z.land_ones by done. change (2 ^ 2) with 4.
  replace ((4 * g + to_underlying s) mod 4) with (to_underlying s).
  - by destruct s.
  - pose proof (to_underlying_range s). apply (Z.mod_unique _ _ g); lia.
Qed.

Lemma not_disabled x : 0 <= x < 2 ^ 31 -> isDisabledFlagSet x = false.
Proof.
  intros. unfold isDisabledFlagSet. change DISABLED_STATE_MASK with (2 ^ 31).
  by rewrite land_pow2_small by lia.
Qed.

Lemma disabled x : 0 <= x < 2 ^ 31 -> isDisabledFlagSet (x + 2 ^ 31) = true.
Proof.
  intros. unfold isDisabledFlagSet. change DISABLED_STATE_MASK with (2 ^ 31).
  rewrite <- lor_pow2_small by lia.
  rewrite Z.land_comm, Z.lor_comm. by rewrite Z.land_lor_distr_r, Z.land_diag, (Z.land_comm _ x), land_pow2_small by lia.
Qed.

Lemma discard_small x : 0 <= x < 2 ^ 31 -> discardDisabledFlag x = x.
Proof.
  intros. unfold discardDisabledFlag. change (u32 (Z.lnot DISABLED_STATE_MASK)) with (Z.ones 31).
  rewrite Z.land_ones by lia. apply Z.mod_small. lia.
Qed.

Lemma discard_flag x : 0 <= x < 2 ^ 31 -> discardDisabledFlag (x + 2 ^ 31) = x.
Proof.
  intros. unfold discardDisabledFlag. change (u32 (Z.lnot DISABLED_STATE_MASK)) with (Z.ones 31).
  rewrite Z.land_ones by lia. symmetry. apply (Z.mod_unique _ _ 1); lia.
Qed.

(** The circular difference is the representative of the difference that is
    nearest to zero. *)
Lemma circularDifference_spec a b m :
  0 < m <= 2 ^ 31 -> 0 <= a < m -> 0 <= b < m ->
  exists k, circularDifference a b m = a - b + k * m
            /\ - (m / 2) <= circularDifference a b m <= m / 2.
Proof.
  intros. unfold circularDifference. rewrite (i32_small (a - b)) by lia.
  assert (0 <= m / 2 /\ 2 * (m / 2) <= m /\ m < 2 * (m / 2) + 2) as (?&?&?).
  { pose proof (Z.div_mod m 2). pose proof (Z.mod_pos_bound m 2). lia. }
  rewrite (i32_small (m / 2)) by lia. case_match eqn:E1.
  - exists (-1). rewrite i32_small by lia. lia.
  - case_match eqn:E2.
    + exists 1. rewrite i32_small by lia. lia.
    + exists 0. lia.
Qed.

(** ** Positions

    [comb c] is the combined index, and [pgen c], [pidx c] the generation and
    the cell, of the unbounded position [c]. *)
Definition wf_manager (q : QueueManager) : Prop :=
  0 < m_capacity q <= MAX_CAPACITY
  /\ m_maxGeneration q + 1 = numGenerations (m_capacity q)
  /\ m_maxCombinedIndex q + 1 = numGenerations (m_capacity q) * m_capacity q
  /\ length (m_states q) = Z.to_nat (m_capacity q).

Definition gens (q : QueueManager) : Z := m_maxGeneration q + 1.
Definition comb (q : QueueManager) (c : Z) : Z := c mod (gens q * m_capacity q).
Definition pgen (q : QueueManager) (c : Z) : Z := (c / m_capacity q) mod gens q.
Definition pidx (q : QueueManager) (c : Z) : Z := c mod m_capacity q.

Lemma numGenerations_range capacity :
  0 < capacity <= MAX_CAPACITY ->
  2 <= numGenerations capacity <= 2 ^ 30 /\ numGenerations capacity * capacity <= 2 ^ 31.
Proof.
  change MAX_CAPACITY with (2 ^ 30). intros H. unfold numGenerations.
  change NUM_COMBINED_INDEXES with (2 ^ 31). change NUM_ELEMENT_GENERATIONS with (2 ^ 30).
  assert (2 <= 2 ^ 31 / capacity) by (apply Z.div_le_lower_bound; lia).
  pose proof (Z.mul_div_le (2 ^ 31) capacity ltac:(lia)).
  rewrite u32_small by lia. split; [lia|]. nia.
Qed.

Lemma QueueManager_new_ok capacity q : QueueManager_new capacity = Some q -> wf_manager q.
Proof.
  unfold QueueManager_new. intros H. case_match eqn:E; simplify_eq/=.
  assert (0 < capacity <= MAX_CAPACITY) as Hc by lia.
  destruct (numGenerations_range capacity Hc) as [Hg Hn].
  change MAX_CAPACITY with (2 ^ 30) in Hc. unfold wf_manager. simpl.
  rewrite length_replicate, (u32_small capacity), (u32_small (numGenerations capacity * capacity)) by nia.
  rewrite !u32_small by nia. change MAX_CAPACITY with (2 ^ 30). split_and!; lia.
Qed.

Section Positions.
Context (q : QueueManager) (Hq : wf_manager q).

Lemma wf_bounds :
  0 < m_capacity q <= 2 ^ 30 /\ 2 <= gens q <= 2 ^ 30 /\ 0 < gens q * m_capacity q <= 2 ^ 31.
Proof using Hq.
  destruct Hq as (Hc & Hg & _). destruct (numGenerations_range _ Hc) as [? ?].
  unfold gens. rewrite Hg. change MAX_CAPACITY with (2 ^ 30) in Hc. nia.
Qed.

Lemma maxCombined_gens : m_maxCombinedIndex q = gens q * m_capacity q - 1.
Proof using Hq. destruct Hq as (_ & Hg & Hn & _). unfold gens. rewrite Hg. lia. Qed.

Lemma maxGeneration_gens : m_maxGeneration q = gens q - 1.
Proof. unfold gens. lia. Qed.

Lemma comb_range c : 0 <= comb q c < gens q * m_capacity q.
Proof using Hq. pose proof wf_bounds. apply Z.mod_pos_bound. lia. Qed.

Lemma comb_bound c : 0 <= comb q c < 2 ^ 31.
Proof using Hq. pose proof wf_bounds. pose proof (comb_range c). lia. Qed.

Lemma pgen_range c : 0 <= pgen q c < gens q.
Proof using Hq. pose proof wf_bounds. apply Z.mod_pos_bound. lia. Qed.

Lemma pgen_bound c : 0 <= pgen q c < 2 ^ 30.
Proof using Hq. pose proof wf_bounds. pose proof (pgen_range c). lia. Qed.

Lemma pidx_range c : 0 <= pidx q c < m_capacity q.
Proof using Hq. pose proof wf_bounds. apply Z.mod_pos_bound. lia. Qed.

Lemma comb_split c : comb q c = pgen q c * m_capacity q + pidx q c.
Proof using Hq.
  pose proof wf_bounds. unfold comb, pgen, pidx. rewrite Z.mul_comm, Z.rem_mul_r by lia. lia.
Qed.

Lemma gen_of_comb c : gen_of q (comb q c) = pgen q c.
Proof using Hq.
  pose proof wf_bounds. pose proof (pgen_range c). pose proof (pidx_range c).
  unfold gen_of. rewrite comb_split, Z.add_comm, Z.div_add by lia.
  rewrite Z.div_small by lia. apply u32_small. lia.
Qed.

Lemma idx_of_comb c : idx_of q (comb q c) = pidx q c.
Proof using Hq.
  pose proof wf_bounds. pose proof (pidx_range c).
  unfold idx_of. rewrite comb_split, Z.add_comm, Z.mod_add by lia.
  rewrite Z.mod_small by lia. apply u32_small. lia.
Qed.

Lemma next_comb c : nextCombinedIndex q (comb q c) = comb q (c + 1).
Proof using Hq.
  pose proof wf_bounds. pose proof (comb_range c). unfold nextCombinedIndex.
  rewrite maxCombined_gens. unfold comb in *.
  rewrite <- (Z.add_mod_idemp_l c 1) by lia. destruct (Z.eqb_spec (gens q * m_capacity q - 1) (c mod (gens q * m_capacity q))) as [E|E].
  - rewrite <- E. replace (_ - 1 + 1) with (gens q * m_capacity q) by lia. by rewrite Z.mod_same by lia.
  - rewrite u32_small by lia. rewrite (Z.mod_small (_ + 1)); lia.
Qed.

Lemma next_pgen c : nextGeneration q (pgen q c) = pgen q (c + m_capacity q).
Proof using Hq.
  pose proof wf_bounds. pose proof (pgen_range c). unfold nextGeneration.
  rewrite maxGeneration_gens. unfold pgen in *.
  replace (c + m_capacity q) with (c + 1 * m_capacity q) by lia. rewrite Z.div_add by lia.
  rewrite <- (Z.add_mod_idemp_l _ 1) by lia.
  destruct (Z.eqb_spec (gens q - 1) ((c / m_capacity q) mod gens q)) as [E|E].
  - rewrite <- E. replace (_ - 1 + 1) with (gens q) by lia. by rewrite Z.mod_same by lia.
  - rewrite u32_small by lia. rewrite (Z.mod_small (_ + 1)); lia.
Qed.

(** Two positions of the same cell differ by whole generations. *)
Lemma same_cell c d :
  pidx q c = pidx q d ->
  exists k, d = c + k * m_capacity q /\ exists j, pgen q c - pgen q d = - k + j * gens q.
Proof using Hq.
  pose proof wf_bounds. intros E. exists (d / m_capacity q - c / m_capacity q). unfold pidx in E.
  pose proof (Z.div_mod c (m_capacity q)). pose proof (Z.div_mod d (m_capacity q)).
  split; [lia|]. unfold pgen.
  exists ((d / m_capacity q) / gens q - (c / m_capacity q) / gens q).
  pose proof (Z.div_mod (c / m_capacity q) (gens q)).
  pose proof (Z.div_mod (d / m_capacity q) (gens q)). lia.
Qed.

Lemma pgen_inj c d :
  pidx q c = pidx q d -> pgen q c = pgen q d ->
  Z.abs (c - d) < gens q * m_capacity q -> c = d.
Proof using Hq.
  pose proof wf_bounds. intros (k & -> & j & Hj)%same_cell E Hw.
  assert (k = j * gens q) as -> by lia. assert (Z.abs j < 1) by nia. nia.
Qed.

Lemma encode_pos_inj c s d s' :
  encodeElement (pgen q c) s = encodeElement (pgen q d) s' -> pgen q c = pgen q d /\ s = s'.
Proof using Hq. apply encodeElement_inj; apply pgen_bound. Qed.

(** A cell at position [c] seen by a thread that stands at position [l]. *)
Lemma previous_generation_spec l c k :
  c = l + k * m_capacity q -> -1 <= k < gens q - 1 ->
  previous_generation q (pgen q l) (pgen q c) = bool_decide (k = -1).
Proof using Hq.
  pose proof wf_bounds. intros Hc Hk.
  destruct (same_cell l c) as (k' & Hc' & j & Hj).
  { subst c. unfold pidx. by rewrite Z.mod_add by lia. }
  assert (k' = k) as -> by nia.
  pose proof (pgen_range l). pose proof (pgen_range c). unfold previous_generation.
  rewrite i32_small, maxGeneration_gens, i32_small by lia.
  assert (-1 <= j <= 1) by nia.
  case_bool_decide; [subst k|];
    assert (j = 0 \/ j = -1 \/ j = 1) as [-> | [-> | ->]] by lia; lia.
Qed.

Lemma generation_difference l c k :
  c = l + k * m_capacity q -> -1 <= k < gens q - 1 ->
  (i32 (pgen q l - pgen q c) =? 0) = bool_decide (k = 0).
Proof using Hq.
  pose proof wf_bounds. intros Hc Hk.
  destruct (same_cell l c) as (k' & Hc' & j & Hj).
  { subst c. unfold pidx. by rewrite Z.mod_add by lia. }
  assert (k' = k) as -> by nia.
  pose proof (pgen_range l). pose proof (pgen_range c).
  rewrite i32_small by lia. assert (-1 <= j <= 1) by nia.
  case_bool_decide; assert (j = 0 \/ j = -1 \/ j = 1) as [-> | [-> | ->]] by lia; lia.
Qed.

Lemma circular_generations l c k :
  c = l + k * m_capacity q -> 2 * Z.abs k < gens q ->
  circularDifference (pgen q l) (pgen q c) (gens q) = - k.
Proof using Hq.
  pose proof wf_bounds. intros Hc Hk.
  destruct (same_cell l c) as (k' & Hc' & j & Hj).
  { subst c. unfold pidx. by rewrite Z.mod_add by lia. }
  assert (k' = k) as -> by nia.
  destruct (circularDifference_spec (pgen q l) (pgen q c) (gens q)) as (i & Hi & Hb);
    [lia|apply pgen_range..|].
  pose proof (Z.div_mod (gens q) 2). pose proof (Z.mod_pos_bound (gens q) 2).
  assert (circularDifference (pgen q l) (pgen q c) (gens q) = - k + (i + j) * gens q) as E by lia.
  assert (i + j = 0) by nia. lia.
Qed.

Lemma comb_diff c d :
  exists j, comb q c - comb q d = c - d + j * (gens q * m_capacity q).
Proof using Hq.
  pose proof wf_bounds. set (n := gens q * m_capacity q) in *.
  exists (d / n - c / n). unfold comb. fold n.
  pose proof (Z.div_mod c n). pose proof (Z.div_mod d n). lia.
Qed.

Lemma circular_combined e l :
  2 * Z.abs (e - l) < gens q * m_capacity q ->
  circularDifference (comb q e) (comb q l) (gens q * m_capacity q) = e - l.
Proof using Hq.
  pose proof wf_bounds. intros Hk.
  destruct (circularDifference_spec (comb q e) (comb q l) (gens q * m_capacity q)) as (i & Hi & Hb);
    [lia|apply comb_range..|].
  destruct (comb_diff e l) as (j & Hj). rewrite Hi in *. rewrite Hj in *.
  pose proof (Z.div_mod (gens q * m_capacity q) 2). pose proof (Z.mod_pos_bound (gens q * m_capacity q) 2).
  set (n := gens q * m_capacity q) in *.
  assert (i + j = 0) by nia. nia.
Qed.

(** [size] of indices that are not further apart than the buffer (or that were
    read so late that the pop index overtook the push index). *)
Lemma size_of_spec p r (flag : bool) :
  3 <= gens q -> p - r <= m_capacity q -> 2 * (r - p) < gens q * m_capacity q - 1 ->
  size_of q (comb q p + if flag then 2 ^ 31 else 0) (comb q r) = Z.max 0 (p - r).
Proof using Hq.
  pose proof wf_bounds. intros HG Hd Hw. pose proof (comb_bound p).
  assert (3 * m_capacity q <= gens q * m_capacity q) by nia.
  assert (discardDisabledFlag (comb q p + if flag then 2 ^ 31 else 0) = comb q p) as Hdis.
  { destruct flag; [by apply discard_flag|]. rewrite Z.add_0_r. by apply discard_small. }
  unfold size_of. rewrite Hdis, maxCombined_gens.
  pose proof (comb_range p). pose proof (comb_range r).
  destruct (comb_diff p r) as (j & Hj). assert (-1 <= j <= 1) by nia.
  set (n := gens q * m_capacity q) in *.
  pose proof (Z.div_mod (n - 1) 2). pose proof (Z.mod_pos_bound (n - 1) 2).
  rewrite (i32_small (comb q p - comb q r)), (i32_small (m_capacity q)), (i32_small ((n - 1) / 2)) by lia.
  replace (n - 1 + 1) with n by lia. rewrite (u32_small n) by lia.
  destruct (Z.leb_spec 0 (comb q p - comb q r)).
  - destruct (comb q p - comb q r >? m_capacity q) eqn:E; assert (j = 0 \/ j = 1 \/ j = -1) as [-> | [-> | ->]]; lia.
  - destruct (Z.ltb_spec (comb q p - comb q r) (- ((n - 1) / 2))).
    + rewrite i32_small by lia. unfold wrap. rewrite Z.mod_small by lia.
      assert (j = 0 \/ j = 1 \/ j = -1) as [-> | [-> | ->]]; lia.
    + assert (j = 0 \/ j = 1 \/ j = -1) as [-> | [-> | ->]]; lia.
Qed.

(** The assertions of [size] hold on the same indices. *)
Lemma size_asserts_spec p r (flag : bool) :
  3 <= gens q -> p - r <= m_capacity q -> 2 * (r - p) < gens q * m_capacity q - 1 ->
  size_asserts q (comb q p + if flag then 2 ^ 31 else 0) (comb q r) = true.
Proof using Hq.
  pose proof wf_bounds. intros HG Hd Hw. pose proof (comb_bound p).
  assert (3 * m_capacity q <= gens q * m_capacity q) by nia.
  assert (discardDisabledFlag (comb q p + if flag then 2 ^ 31 else 0) = comb q p) as Hdis.
  { destruct flag; [by apply discard_flag|]. rewrite Z.add_0_r. by apply discard_small. }
  unfold size_asserts, circular. rewrite Hdis, maxCombined_gens.
  replace (gens q * m_capacity q - 1 + 1) with (gens q * m_capacity q) by lia.
  rewrite (u32_small (gens q * m_capacity q)), circular_combined by lia.
  pose proof (comb_range p). pose proof (comb_range r).
  destruct (comb_diff p r) as (j & Hj). assert (-1 <= j <= 1) by nia.
  set (n := gens q * m_capacity q) in *.
  assert (circular_ok (comb q p) (comb q r) n = true) as -> by (unfold circular_ok; lia).
  pose proof (Z.div_mod (n - 1) 2). pose proof (Z.mod_pos_bound (n - 1) 2).
  rewrite (i32_small (comb q p - comb q r)), (i32_small (m_capacity q)), (i32_small ((n - 1) / 2)) by lia.
  assert (j = 0 \/ j = 1 \/ j = -1) as [-> | [-> | ->]] by lia; repeat case_match; lia.
Qed.

End Positions.

(** ** Ranges of the indices *)
Definition pop_val (q : QueueManager) (v : Z) : Prop := 0 <= v < gens q * m_capacity q.
Definition push_val (q : QueueManager) (v : Z) : Prop :=
  exists d (flag : bool), pop_val q d /\ v = d + if flag then 2 ^ 31 else 0.

Definition vals_ok (q : QueueManager) : Prop :=
  Forall (push_val q) (m_pushIndex q) /\ Forall (pop_val q) (m_popIndex q).

Definition pc_vals (q : QueueManager) (pc : MPc) : Prop :=
  match pc with
  | RPushCell _ v | RPushHelp _ v | RPushInc _ _ v => pop_val q v
  | RPopCell _ v | RPopHelp _ v | RPopInc _ _ v => pop_val q v
  | RClearCell _ _ v | RClearHelp _ _ v | RClearInc _ _ v => pop_val q v
  | AbortReading _ _ v | AbortInc _ _ v => pop_val q v
  | DisableSet v => pop_val q v
  | EnableSet v | SizePop v => push_val q v
  | _ => True
  end.

Definition same_params (q q' : QueueManager) : Prop :=
  m_capacity q' = m_capacity q /\ m_maxGeneration q' = m_maxGeneration q
  /\ m_maxCombinedIndex q' = m_maxCombinedIndex q /\ length (m_states q') = length (m_states q).

Lemma same_params_wf q q' : same_params q q' -> wf_manager q -> wf_manager q'.
Proof. intros (Hc & Hg & Hn & Hl). unfold wf_manager. by rewrite Hc, Hg, Hn, Hl. Qed.

Lemma advance_push_eq q vw v :
  exists a observed, compare_exchange (m_pushIndex q) v (nextCombinedIndex q v) = (a, observed)
    /\ advance_push q vw v = (set_push q a, saw_push (newest a) vw, observed).
Proof. unfold advance_push. destruct (compare_exchange _ _ _) as [a o]. by exists a, o. Qed.

Lemma advance_pop_eq q vw v :
  exists a observed, compare_exchange (m_popIndex q) v (nextCombinedIndex q v) = (a, observed)
    /\ advance_pop q vw v = (set_pop q a, saw_pop (newest a) vw, observed).
Proof. unfold advance_pop. destruct (compare_exchange _ _ _) as [a o]. by exists a, o. Qed.

Lemma compare_exchange_cases a e d a' o :
  compare_exchange a e d = (a', o) ->
  (latest a = e /\ a' = a ++ [d] /\ o = e) \/ (latest a <> e /\ a' = a /\ o = latest a).
Proof. unfold compare_exchange. destruct (Z.eqb_spec (latest a) e); naive_solver. Qed.

Lemma push_cell_params q saved loaded s q' r :
  push_cell q saved loaded s = (q', r) ->
  same_params q q' /\ m_pushIndex q' = m_pushIndex q /\ m_popIndex q' = m_popIndex q.
Proof.
  unfold push_cell, same_params. intros H.
  repeat case_match; simplify_eq/=; rewrite ?length_insert; done.
Qed.

Lemma pop_cell_params q saved loaded s q' r :
  pop_cell q saved loaded s = (q', r) ->
  same_params q q' /\ m_pushIndex q' = m_pushIndex q /\ m_popIndex q' = m_popIndex q.
Proof.
  unfold pop_cell, same_params. intros H.
  repeat case_match; simplify_eq/=; rewrite ?length_insert; done.
Qed.

Lemma clear_cell_params q g i loaded s q' r :
  clear_cell q g i loaded s = (q', r) ->
  same_params q q' /\ m_pushIndex q' = m_pushIndex q /\ m_popIndex q' = m_popIndex q.
Proof.
  unfold clear_cell, same_params. intros H.
  repeat case_match; simplify_eq/=; rewrite ?length_insert; done.
Qed.

(** Takes a step of the manager apart. *)
Ltac mstep_inv H :=
  repeat match type of H with
  | context [on_cell ?q ?i ?f] =>
      let s := fresh "s" in let Hs := fresh "Hs" in
      unfold on_cell in H; destruct (m_states q !! Z.to_nat i) as [s|] eqn:Hs; [|discriminate H]
  | context [push_cell ?q ?a ?b ?s] =>
      let Hc := fresh "Hcell" in destruct (push_cell q a b s) as [? ?] eqn:Hc
  | context [pop_cell ?q ?a ?b ?s] =>
      let Hc := fresh "Hcell" in destruct (pop_cell q a b s) as [? ?] eqn:Hc
  | context [clear_cell ?q ?a ?b ?l ?s] =>
      let Hc := fresh "Hcell" in destruct (clear_cell q a b l s) as [? ?] eqn:Hc
  | context [load_relaxed ?a ?n ?k] =>
      let Hl := fresh "Hload" in destruct (load_relaxed a n k) as [?|] eqn:Hl; [|discriminate H]
  | context [advance_push ?q ?vw ?v] =>
      let a := fresh "a" in let o := fresh "o" in let Hcas := fresh "Hcas" in let E := fresh "E" in
      destruct (advance_push_eq q vw v) as (a & o & Hcas & E); rewrite E in H; clear E
  | context [advance_pop ?q ?vw ?v] =>
      let a := fresh "a" in let o := fresh "o" in let Hcas := fresh "Hcas" in let E := fresh "E" in
      destruct (advance_pop_eq q vw v) as (a & o & Hcas & E); rewrite E in H; clear E
  | context [flag_push ?q ?vw ?v ?d ?m] =>
      unfold flag_push in H
  | context [compare_exchange ?a ?e ?d] =>
      let Hcas := fresh "Hcas" in destruct (compare_exchange a e d) as [? ?] eqn:Hcas
  end; simplify_eq/=.

Lemma mstep_params at_ q vw pc q' vw' r :
  mstep at_ q vw pc = Stepped (q', vw', r) -> same_params q q'.
Proof.
  intros H. destruct pc; cbn [mstep] in H; mstep_inv H;
    first [ by eapply push_cell_params | by eapply pop_cell_params | by eapply clear_cell_params
          | unfold same_params; simpl; rewrite ?length_insert; done ].
Qed.

Section Values.
Context (q : QueueManager) (Hq : wf_manager q).

Lemma pop_val_bound v : pop_val q v -> 0 <= v < 2 ^ 31.
Proof using Hq. pose proof (wf_bounds q Hq). unfold pop_val. lia. Qed.

Lemma pop_val_comb v : pop_val q v -> comb q v = v.
Proof using Hq. intros. by apply Z.mod_small. Qed.

Lemma pop_val_next v : pop_val q v -> pop_val q (nextCombinedIndex q v).
Proof using Hq.
  intros Hv. rewrite <- (pop_val_comb v Hv), next_comb by done. by apply comb_range.
Qed.

Lemma pop_val_push v : pop_val q v -> push_val q v.
Proof. intros. exists v, false. split; [done|lia]. Qed.

Lemma push_val_flag v :
  push_val q v -> isDisabledFlagSet v = false -> pop_val q v.
Proof using Hq.
  intros (d & [] & Hd & ->) Hf.
  - by rewrite disabled in Hf by (by apply pop_val_bound).
  - by rewrite Z.add_0_r.
Qed.

Lemma push_val_discard v : push_val q v -> pop_val q (discardDisabledFlag v).
Proof using Hq.
  intros (d & [] & Hd & ->).
  - by rewrite discard_flag by (by apply pop_val_bound).
  - rewrite Z.add_0_r. by rewrite discard_small by (by apply pop_val_bound).
Qed.

Lemma push_val_set v : pop_val q v -> push_val q (Z.lor v DISABLED_STATE_MASK).
Proof using Hq.
  intros Hv. exists v, true. split; [done|].
  change DISABLED_STATE_MASK with (2 ^ 31). apply lor_pow2_small; [|lia]. by apply pop_val_bound.
Qed.

Lemma latest_fetch_add a n : latest (fetch_add a n) = u32 (latest a + n).
Proof. unfold fetch_add. unfold latest at 1. apply List.last_last. Qed.

Lemma load_relaxed_lookup a seen at_ v : load_relaxed a seen at_ = Some v -> a !! at_ = Some v.
Proof. unfold load_relaxed. by destruct (_ <=? _)%nat. Qed.

Lemma latest_ok (P : Z -> Prop) (a : list Z) : Forall P a -> P 0 -> P (latest a).
Proof.
  intros Ha H0. unfold latest. destruct (decide (a = [])) as [->|Hne]; [done|].
  destruct (exists_last Hne) as (l & x & ->). rewrite List.last_last.
  apply List.Forall_app in Ha as [_ Ha]. by inversion Ha.
Qed.

Lemma pop_val_0 : pop_val q 0.
Proof using Hq. pose proof (wf_bounds q Hq). unfold pop_val. lia. Qed.

Lemma cell_gen v : pop_val q v -> 0 <= gen_of q v < gens q.
Proof using Hq. intros Hv. rewrite <- (pop_val_comb v Hv), gen_of_comb by done. by apply pgen_range. Qed.

Lemma cell_idx v : pop_val q v -> 0 <= idx_of q v < m_capacity q.
Proof using Hq. intros Hv. rewrite <- (pop_val_comb v Hv), idx_of_comb by done. by apply pidx_range. Qed.

Lemma gen_bound g : 0 <= g < gens q -> 0 <= g < 2 ^ 30.
Proof using Hq. pose proof (wf_bounds q Hq). lia. Qed.

Lemma next_gen_range g : 0 <= g < gens q -> 0 <= nextGeneration q g < gens q.
Proof using Hq.
  pose proof (wf_bounds q Hq). intros. unfold nextGeneration. case_match eqn:E; [lia|].
  rewrite u32_small by lia. rewrite maxGeneration_gens in E. lia.
Qed.

End Values.

Lemma load_relaxed_elem a n k v : load_relaxed a n k = Some v -> (n <= k)%nat /\ a !! k = Some v.
Proof. unfold load_relaxed. case_match eqn:E; [|done]. apply Nat.leb_le in E. done. Qed.

Lemma Forall_load {P : Z -> Prop} a n k v : Forall P a -> load_relaxed a n k = Some v -> P v.
Proof. intros Ha (_ & Hk)%load_relaxed_elem. by eapply Forall_lookup_1. Qed.

(** Compares and swaps keep the values of an index in range. *)
Lemma Forall_cas {P : Z -> Prop} a e d a' o :
  Forall P a -> P 0 -> P d -> compare_exchange a e d = (a', o) -> Forall P a' /\ P o.
Proof.
  intros Ha H0 Hd [(He & -> & ->)|(_ & -> & ->)]%compare_exchange_cases.
  - split; [|rewrite <- He; by apply latest_ok]. apply Forall_app_2; [done|]. by constructor.
  - split; [done|by apply latest_ok].
Qed.

Lemma push_top_vals q saved v :
  wf_manager q -> push_val q v ->
  match push_top saved v with inl m => pc_vals q m | inr _ => True end.
Proof.
  intros Hq Hv. unfold push_top. destruct (isDisabledFlagSet v) eqn:E; [done|].
  simpl. by apply push_val_flag.
Qed.

Lemma clear_top_vals q g i v :
  pop_val q v -> match clear_top q g i v with inl m => pc_vals q m | inr _ => True end.
Proof. intros Hv. unfold clear_top. by destruct (_ =? 0). Qed.

Lemma vals_set_push q a :
  Forall (push_val q) a -> vals_ok q -> vals_ok (set_push q a).
Proof. by intros ? [_ ?]. Qed.

Lemma vals_set_pop q a :
  Forall (pop_val q) a -> vals_ok q -> vals_ok (set_pop q a).
Proof. by intros ? [? _]. Qed.

Lemma push_cell_vals q saved loaded s q' r :
  wf_manager q -> pop_val q loaded -> push_cell q saved loaded s = (q', r) ->
  match r with inl m => pc_vals q' m | inr _ => True end.
Proof.
  intros Hq Hv. unfold push_cell. rewrite discard_small by (by eapply pop_val_bound).
  intros H. repeat case_match; simplify_eq/=; done.
Qed.

Lemma pop_cell_vals q saved loaded s q' r :
  pop_val q loaded -> pop_cell q saved loaded s = (q', r) ->
  match r with inl m => pc_vals q' m | inr _ => True end.
Proof. intros Hv. unfold pop_cell. intros H. repeat case_match; simplify_eq/=; done. Qed.

Lemma clear_cell_vals q g i loaded s q' r :
  pop_val q loaded -> clear_cell q g i loaded s = (q', r) ->
  match r with inl m => pc_vals q' m | inr _ => True end.
Proof. intros Hv. unfold clear_cell. intros H. repeat case_match; simplify_eq/=; done. Qed.

Lemma vals_cells q q' :
  same_params q q' -> m_pushIndex q' = m_pushIndex q -> m_popIndex q' = m_popIndex q ->
  vals_ok q -> vals_ok q'.
Proof.
  intros (Hc & Hg & _) H1 H2. unfold vals_ok, push_val, pop_val, gens. by rewrite H1, H2, Hc, Hg.
Qed.

(** Every index an operation stores or keeps is in range. *)
Lemma mstep_vals at_ q vw pc q' vw' r :
  wf_manager q -> vals_ok q -> pc_vals q pc -> mstep at_ q vw pc = Stepped (q', vw', r) ->
  vals_ok q' /\ match r with inl m => pc_vals q' m | inr _ => True end.
Proof.
  intros Hq Hv Hpc H. pose proof Hv as [Hpush Hpop].
  pose proof (pop_val_0 q Hq) as H0. pose proof (pop_val_push q _ H0) as H0'.
  destruct pc; cbn [mstep] in H; mstep_inv H; simpl in Hpc;
    try match goal with
    | Hc : push_cell _ _ _ _ = _ |- _ =>
        pose proof (push_cell_vals _ _ _ _ _ _ Hq Hpc Hc); apply push_cell_params in Hc as (?&?&?);
        split; [by eapply vals_cells|done]
    | Hc : pop_cell _ _ _ _ = _ |- _ =>
        pose proof (pop_cell_vals _ _ _ _ _ _ Hpc Hc); apply pop_cell_params in Hc as (?&?&?);
        split; [by eapply vals_cells|done]
    | Hc : clear_cell _ _ _ _ _ = _ |- _ =>
        pose proof (clear_cell_vals _ _ _ _ _ _ _ Hpc Hc); apply clear_cell_params in Hc as (?&?&?);
        split; [by eapply vals_cells|done]
    | Hl : load_relaxed (m_pushIndex _) _ _ = _ |- _ =>
        split; [done|]; by apply push_top_vals; [|eapply Forall_load]
    | Hl : load_relaxed (m_popIndex _) _ _ = _ |- _ =>
        split; [done|]; first [by apply clear_top_vals; eapply Forall_load | by eapply (Forall_load _ _ _ _ Hpop)]
    | Hl : compare_exchange (m_popIndex _) _ _ = _ |- _ =>
        destruct (Forall_cas _ _ _ _ _ Hpop H0 (pop_val_next _ Hq _ Hpc) Hl);
        split; [by apply vals_set_pop|]; done
    end; try done.
  - destruct (Forall_cas _ _ _ _ _ Hpush H0' (pop_val_push _ _ (pop_val_next _ Hq _ Hpc)) Hcas).
    split; [by apply vals_set_push|]. by apply push_top_vals.
  - destruct (Forall_cas _ _ _ _ _ Hpush H0' (pop_val_push _ _ (pop_val_next _ Hq _ Hpc)) Hcas).
    split; [by apply vals_set_push|done].
  - split; [done|]. by apply latest_ok.
  - split; [done|]. destruct (isDisabledFlagSet _) eqn:E; [done|].
    apply push_val_flag; [done| |done]. by apply latest_ok.
  - destruct (Forall_cas _ _ _ _ _ Hpush H0' (push_val_set _ Hq _ Hpc) Hcas).
    split; [by apply vals_set_push|]. by destruct (_ =? _).
  - split; [done|]. destruct (isDisabledFlagSet _) eqn:E; [|done]. by apply latest_ok.
  - destruct (Forall_cas _ _ _ _ _ Hpush H0' (pop_val_push _ _ (push_val_discard _ Hq _ Hpc)) Hcas).
    split; [by apply vals_set_push|]. by destruct (_ =? _).
  - destruct (Forall_cas _ _ _ _ _ Hpop H0 (pop_val_next _ Hq _ Hpc) Hcas) as [? Ho].
    split; [by apply vals_set_pop|]. exact (clear_top_vals (set_pop q a) _ _ _ Ho).
  - split; [done|]. by apply latest_ok.
Qed.

(** ** The exchange of a cell's state: reserved, or the cell is left alone *)
Lemma push_cell_cases q saved loaded s q' r :
  wf_manager q -> pop_val q loaded -> push_cell q saved loaded s = (q', r) ->
  (s = encodeElement (gen_of q loaded) ES_Empty
   /\ q' = set_state q (idx_of q loaded) (encodeElement (gen_of q loaded) ES_Writing)
   /\ r = inl (RPushInc (gen_of q loaded) (idx_of q loaded) loaded))
  \/ (q' = q /\ (r = inl (RPushLoad saved) \/ r = inl (RPushLoad loaded)
                 \/ r = inl (RPushHelp saved loaded) \/ r = inr (Failed QueueFull))).
Proof.
  intros Hq Hv. unfold push_cell. rewrite discard_small by (by eapply pop_val_bound).
  destruct (Z.eqb_spec s (encodeElement (gen_of q loaded) ES_Empty)) as [->|]; intros H;
    [left; naive_solver|right]. repeat case_match; simplify_eq/=; naive_solver.
Qed.

Lemma pop_cell_cases q saved loaded s q' r :
  pop_cell q saved loaded s = (q', r) ->
  (s = encodeElement (gen_of q loaded) ES_Full
   /\ q' = set_state q (idx_of q loaded) (encodeElement (gen_of q loaded) ES_Reading)
   /\ r = inl (RPopInc (gen_of q loaded) (idx_of q loaded) loaded))
  \/ (q' = q /\ (r = inl (RPopLoad saved) \/ r = inl (RPopLoad loaded)
                 \/ r = inl (RPopHelp saved loaded) \/ r = inr (Failed QueueEmpty))).
Proof.
  unfold pop_cell.
  destruct (Z.eqb_spec s (encodeElement (gen_of q loaded) ES_Full)) as [->|]; intros H;
    [left; naive_solver|right]. repeat case_match; simplify_eq/=; naive_solver.
Qed.

Lemma clear_cell_cases q g i loaded s q' r :
  clear_cell q g i loaded s = (q', r) ->
  (s = encodeElement (gen_of q loaded) ES_Full
   /\ q' = set_state q (idx_of q loaded) (encodeElement (gen_of q loaded) ES_Reading)
   /\ r = inl (RClearInc (gen_of q loaded) (idx_of q loaded) loaded))
  \/ (q' = q /\ (r = inl (RClearLoad g i) \/ r = inl (RClearHelp g i loaded))).
Proof.
  unfold clear_cell.
  destruct (Z.eqb_spec s (encodeElement (gen_of q loaded) ES_Full)) as [->|]; intros H;
    [left; naive_solver|right]. repeat case_match; simplify_eq/=; naive_solver.
Qed.
