(* ===== verification/Queue.v ===== *)
(** The bounded lock-free queue (util/thread/queue.hpp) on top of its index
    manager, with the semaphores its blocking operations wait on
    (util/thread/threading.hpp).

    The state of a thread inside an operation is where it stands in the source
    ([QPc]); a step performs one access of shared memory, or runs one step of
    the manager operation the thread has called.  A configuration is the queue
    and its threads; [perform] lets one thread call an operation or make a
    step, so that a list of actions is an interleaving.  The labels of a step
    are the effects on the abstract queue (a value enters at the tail, a value
    leaves at the head, a full or an empty queue is met) and the answers given
    to the callers.

    The relaxed loads of the two indices may read old values.  So may the loads
    of the counters of waiting threads: the counters are changed by relaxed
    operations, and a relaxed operation has no place in the order of the
    sequentially consistent ones, so that a load is bound only by coherence.
    A semaphore is its counter, as its mutex makes each operation atomic. *)
From Stdlib Require Import ZArith Lia.
From stdpp Require Import base list numbers.
From S2P Require Import Prelude QueueManager.

Local Open Scope Z_scope.

Section Queue.
Context {A : Type}.

(** [m_data] is raw memory: a cell holds an object or none. *)
Record Queue := mkQueue {
  m_data : list (option A);
  m_manager : QueueManager;
  m_waitingPoppers : AtomicIndex;
  m_popSemaphore : Z;
  m_waitingPushers : AtomicIndex;
  m_pushSemaphore : Z
}.

Definition set_data (q : Queue) (d : list (option A)) : Queue :=
  mkQueue d (m_manager q) (m_waitingPoppers q) (m_popSemaphore q) (m_waitingPushers q) (m_pushSemaphore q).
Definition set_manager (q : Queue) (m : QueueManager) : Queue :=
  mkQueue (m_data q) m (m_waitingPoppers q) (m_popSemaphore q) (m_waitingPushers q) (m_pushSemaphore q).
Definition set_poppers (q : Queue) (waiting : AtomicIndex) (semaphore : Z) : Queue :=
  mkQueue (m_data q) (m_manager q) waiting semaphore (m_waitingPushers q) (m_pushSemaphore q).
Definition set_pushers (q : Queue) (waiting : AtomicIndex) (semaphore : Z) : Queue :=
  mkQueue (m_data q) (m_manager q) (m_waitingPoppers q) (m_popSemaphore q) waiting semaphore.

(** The constructor of the queue. *)
Definition Queue_new (capacity : Z) : option Queue :=
  m ← QueueManager_new capacity;
  Some (mkQueue (replicate (Z.to_nat capacity) None) m [0] 0 [0] 0).

Definition capacity (q : Queue) : Z := m_capacity (m_manager q).

(** ** Operations and answers *)
Inductive Op : Type :=
| PushBack (value : A)
| TryPushBack (value : A)
| PopFront
| PopFrontWithTimeout
| TryPopFront
| RemoveAll
| Disable
| Enable
| GetSize
| GetEnabled
| GetFull
| GetEmpty.

Inductive Response : Type :=
| RetPush (r : QueueReturn)
| RetPop (value : option A)
| RetVoid
| RetThrow
| RetSize (n : Z)
| RetBool (b : bool).

Inductive Label : Type :=
| LCall (op : Op)
| LPush (value : A)
| LPop (value : A)
| LDrop (value : A)
| LFull
| LEmpty
| LDisabled
| LRet (r : Response).

(** Which of the three pop operations reserves an element; [secondTry] of
    [popFrontWithTimeout]. *)
Inductive PopMode : Type :=
| TryPop
| BlockPop
| TimedPop (secondTry : bool).

(** What the caller of a manager operation does with its result. *)
Inductive Frame : Type :=
| KPush (value : A) (blocking : bool)
| KPushCommit
| KPushFull (value : A)
| KPushEnabled (value : A)
| KPop (mode : PopMode)
| KPopEmpty (mode : PopMode)
| KPopCommit (r : Response)
| KRemoveSize
| KRemove (elemCount poppedItems : Z)
| KRemoveCommit (elemCount poppedItems : Z)
| KGuard (value : A) (generation index poppedItems : Z)
| KGuardCommit (value : A) (generation index poppedItems : Z)
| KAbort (value : A) (poppedItems : Z)
| KDisable
| KEnable
| KSize
| KEnabled
| KFull
| KEmpty.

Inductive QPc : Type :=
| Idle
| Run (m : MPc) (k : Frame)
| PushConstruct (value : A) (generation index : Z)
| PushPoppers
| PushNotify
| PushRegister (value : A)
| PushWait (value : A)
| PushUnregister (value : A)
| PopTake (generation index : Z)
| PopDestroy (generation index : Z) (r : Response)
| PopPushers (r : Response)
| PopRegister (mode : PopMode)
| PopWait (mode : PopMode)
| PopUnregister (mode : PopMode)
| RemoveDestroy (generation index elemCount poppedItems : Z)
| RemovePushers (poppedItems : Z)
| GuardDestroy (value : A) (generation index endGeneration endIndex poppedItems : Z)
| DisablePushers
| NotifyPushers (n : Z) (r : Response).

Record Thread := mkThread {
  th_view : View;
  th_pc : QPc
}.

(** ** The operations *)
Definition start (op : Op) : QPc :=
  match op with
  | PushBack value => Run reservePushIndex (KPush value true)
  | TryPushBack value => Run reservePushIndex (KPush value false)
  | PopFront => Run reservePopIndex (KPop BlockPop)
  | PopFrontWithTimeout => Run reservePopIndex (KPop (TimedPop false))
  | TryPopFront => Run reservePopIndex (KPop TryPop)
  | RemoveAll => Run SizePush KRemoveSize
  | Disable => Run DisableLoad KDisable
  | Enable => Run EnableLoad KEnable
  | GetSize => Run SizePush KSize
  | GetEnabled => Run EnabledLoad KEnabled
  | GetFull => Run SizePush KFull
  | GetEmpty => Run SizePush KEmpty
  end.

Definition finish (r : Response) : QPc * list Label := (Idle, [LRet r]).

(** [while (n--) m_pushSemaphore.notify();], then return. *)
Definition notify_pushers (n : Z) (r : Response) : QPc * list Label :=
  if n <=? 0 then finish r else (NotifyPushers n r, []).

(** The loop condition [poppedItems++ < elemCount] of [removeAll]. *)
Definition removeAll_loop (elemCount poppedItems : Z) : QPc :=
  if poppedItems <? elemCount
  then Run reservePopIndex (KRemove elemCount (u32 (poppedItems + 1)))
  else RemovePushers (u32 (poppedItems + 1)).

(** [full()] and [empty()] of a size. *)
Definition is_full (q : Queue) (n : Z) : bool := capacity q <=? n.
Definition is_empty (n : Z) : bool := n <=? 0.

(** What the caller does when a manager operation returns. *)
Definition resume (q : Queue) (k : Frame) (r : MResult) : QPc * list Label :=
  match k, r with
  | KPush value _, Reserved generation index => (PushConstruct value generation index, [])
  | KPush value blocking, Failed r =>
      match r, blocking with
      | QueueDisabled, _ | Success, _ => finish (RetPush r)
      | _, true => (PushRegister value, [])
      | _, false => finish (RetPush r)
      end
  | KPushCommit, _ => (PushPoppers, [])
  | KPushFull value, Size n =>
      (if is_full q n then Run EnabledLoad (KPushEnabled value) else PushUnregister value, [])
  | KPushEnabled value, Enabled b => (if b then PushWait value else PushUnregister value, [])
  | KPop _, Reserved generation index => (PopTake generation index, [])
  | KPop mode, Failed _ =>
      match mode with
      | TryPop | TimedPop true => finish (RetPop None)
      | BlockPop | TimedPop false => (PopRegister mode, [])
      end
  | KPopEmpty mode, Size n => (if is_empty n then PopWait mode else PopUnregister mode, [])
  | KPopCommit r, _ => (PopPushers r, [])
  | KRemoveSize, Size n => (removeAll_loop n 0, [])
  | KRemove elemCount poppedItems, Reserved generation index =>
      (RemoveDestroy generation index elemCount poppedItems, [])
  | KRemove _ poppedItems, Failed _ => (RemovePushers poppedItems, [])
  | KRemoveCommit elemCount poppedItems, _ => (removeAll_loop elemCount poppedItems, [])
  | KGuard value endGeneration endIndex poppedItems, Reserved generation index =>
      (GuardDestroy value generation index endGeneration endIndex poppedItems, [])
  | KGuard value generation index poppedItems, Nothing =>
      (Run (AbortLoad generation index) (KAbort value poppedItems), [])
  | KGuardCommit value generation index poppedItems, _ =>
      (Run (RClearLoad generation index) (KGuard value generation index poppedItems), [])
  | KAbort _ poppedItems, _ => notify_pushers poppedItems RetThrow
  | KDisable, _ => (DisablePushers, [])
  | KEnable, _ => finish RetVoid
  | KSize, Size n => finish (RetSize n)
  | KEnabled, Enabled b => finish (RetBool b)
  | KFull, Size n => finish (RetBool (is_full q n))
  | KEmpty, Size n => finish (RetBool (is_empty n))
  | _, _ => (Idle, [])
  end.

(** The object in a cell. *)
Definition object_at (q : Queue) (index : Z) : option A := mjoin (m_data q !! Z.to_nat index).

Definition label_of (f : A -> Label) (o : option A) : list Label :=
  match o with Some v => [f v] | None => [] end.

(** The point at which a manager operation takes effect. *)
Definition effect (q : Queue) (k : Frame) (m : MPc) (r : MPc + MResult) : list Label :=
  match m, r with
  | RPushCell _ _, inl (RPushInc _ _ _) => match k with KPush value _ => [LPush value] | _ => [] end
  | RPushCell _ _, inr _ => [LFull]
  | RPushLoad _, inr _ | RPushHelp _ _, inr _ => [LDisabled]
  | RPopCell _ _, inl (RPopInc _ index _) =>
      label_of (match k with KPop _ => LPop | _ => LDrop end) (object_at q index)
  | RPopCell _ _, inr _ => [LEmpty]
  | RClearCell _ _ _, inl (RClearInc _ index _) => label_of LDrop (object_at q index)
  | AbortReading _ _ _, _ => match k with KAbort value _ => [LDrop value] | _ => [] end
  | _, _ => []
  end.

(** The destructor of the object in a cell: it must exist. *)
Definition destroy (q : Queue) (index : Z) : step_result Queue :=
  match m_data q !! Z.to_nat index with
  | Some (Some _) => Stepped (set_data q (<[Z.to_nat index := None]> (m_data q)))
  | _ => Undef
  end.

(** One step of a thread inside an operation.  [choice] is the value a load of
    an index or of a counter reads, whether a constructor of the element type throws (not 0), and
    whether a wait that finds no signal runs into its timeout (not 0). *)
Definition qstep (choice : nat) (q : Queue) (th : Thread)
  : step_result (Queue * Thread * list Label) :=
  let go q' pc ls := Stepped (q', mkThread (th_view th) pc, ls) in
  let go' q' (r : QPc * list Label) := go q' r.1 r.2 in
  let vw := th_view th in
  let go_saw vw' q' pc := Stepped (q', mkThread vw' pc, []) in
  let add_poppers n := fetch_add (m_waitingPoppers q) n in
  let add_pushers n := fetch_add (m_waitingPushers q) n in
  let load_poppers (k : Z -> QPc * list Label) :=
    match load_relaxed (m_waitingPoppers q) (seen_poppers vw) choice with
    | Some n => Stepped (q, mkThread (saw_poppers choice vw) (k n).1, (k n).2)
    | None => Blocked
    end in
  let load_pushers (k : Z -> QPc * list Label) :=
    match load_relaxed (m_waitingPushers q) (seen_pushers vw) choice with
    | Some n => Stepped (q, mkThread (saw_pushers choice vw) (k n).1, (k n).2)
    | None => Blocked
    end in
  match th_pc th with
  | Idle => Blocked
  | Run m k =>
      match mstep choice (m_manager q) vw m with
      | Blocked => Blocked
      | Undef => Undef
      | Stepped (mgr, vw', r) =>
          let ls := effect q k m r in
          match r with
          | inl m' => Stepped (set_manager q mgr, mkThread vw' (Run m' k), ls)
          | inr res =>
              let '(pc, rs) := resume q k res in
              Stepped (set_manager q mgr, mkThread vw' pc, ls ++ rs)
          end
      end
  | PushConstruct value generation index =>
      if (choice =? 0)%nat
      then match m_data q !! Z.to_nat index with
           | Some _ => go (set_data q (<[Z.to_nat index := Some value]> (m_data q)))
                         (Run (CommitPush generation index) KPushCommit) []
           | None => Undef
           end
      else go q (Run (RClearLoad generation index) (KGuard value generation index 1)) []
  | PushPoppers =>
      load_poppers (fun n => if 0 <? n then (PushNotify, []) else finish (RetPush Success))
  | PushNotify =>
      go' (set_poppers q (m_waitingPoppers q) (m_popSemaphore q + 1)) (finish (RetPush Success))
  | PushRegister value =>
      go_saw (saw_pushers (newest (add_pushers 1)) vw) (set_pushers q (add_pushers 1) (m_pushSemaphore q))
        (Run SizePush (KPushFull value))
  | PushWait value =>
      if 0 <? m_pushSemaphore q
      then go (set_pushers q (m_waitingPushers q) (m_pushSemaphore q - 1)) (PushUnregister value) []
      else Blocked
  | PushUnregister value =>
      go_saw (saw_pushers (newest (add_pushers (-1))) vw) (set_pushers q (add_pushers (-1)) (m_pushSemaphore q))
        (Run reservePushIndex (KPush value true))
  | PopTake generation index =>
      match object_at q index with
      | Some v => go q (PopDestroy generation index
                          (if (choice =? 0)%nat then RetPop (Some v) else RetThrow)) []
      | None => Undef
      end
  | PopDestroy generation index r =>
      match destroy q index with
      | Stepped q' => go q' (Run (CommitPop generation index) (KPopCommit r)) []
      | _ => Undef
      end
  | PopPushers r =>
      load_pushers (fun n => if 0 <? n then notify_pushers 1 r else finish r)
  | PopRegister mode =>
      go_saw (saw_poppers (newest (add_poppers 1)) vw) (set_poppers q (add_poppers 1) (m_popSemaphore q))
        (Run SizePush (KPopEmpty mode))
  | PopWait mode =>
      let mode' := match mode with TimedPop _ => TimedPop true | _ => mode end in
      if 0 <? m_popSemaphore q
      then go (set_poppers q (m_waitingPoppers q) (m_popSemaphore q - 1)) (PopUnregister mode') []
      else match mode, choice with
           | TimedPop _, S _ => go q (PopUnregister mode') []
           | _, _ => Blocked
           end
  | PopUnregister mode =>
      go_saw (saw_poppers (newest (add_poppers (-1))) vw) (set_poppers q (add_poppers (-1)) (m_popSemaphore q))
        (Run reservePopIndex (KPop mode))
  | RemoveDestroy generation index elemCount poppedItems =>
      match destroy q index with
      | Stepped q' => go q' (Run (CommitPop generation index) (KRemoveCommit elemCount poppedItems)) []
      | _ => Undef
      end
  | RemovePushers poppedItems =>
      load_pushers (fun n => notify_pushers (Z.min poppedItems n) RetVoid)
  | GuardDestroy value generation index endGeneration endIndex poppedItems =>
      match destroy q index with
      | Stepped q' => go q' (Run (CommitPop generation index)
                               (KGuardCommit value endGeneration endIndex (poppedItems + 1))) []
      | _ => Undef
      end
  | DisablePushers => load_pushers (fun n => notify_pushers n RetVoid)
  | NotifyPushers n r =>
      go' (set_pushers q (m_waitingPushers q) (m_pushSemaphore q + 1)) (notify_pushers (n - 1) r)
  end.

(** ** Interleavings *)
Record Config := mkConfig {
  queue : Queue;
  threads : list Thread
}.

(** A thread calls an operation, or makes a step with a choice. *)
Inductive Action : Type :=
| Call (op : Op)
| Go (choice : nat).

Definition perform (c : Config) (i : nat) (a : Action) : step_result (Config * list Label) :=
  match threads c !! i with
  | None => Blocked
  | Some th =>
      match a with
      | Call op =>
          match th_pc th with
          | Idle => Stepped (mkConfig (queue c) (<[i := mkThread (th_view th) (start op)]> (threads c)),
                             [LCall op])
          | _ => Blocked
          end
      | Go choice =>
          match qstep choice (queue c) th with
          | Stepped (q, th', ls) => Stepped (mkConfig q (<[i := th']> (threads c)), ls)
          | Blocked => Blocked
          | Undef => Undef
          end
      end
  end.

(** The queue with [n] threads that have not called anything. *)
Definition init (cap : Z) (n : nat) : option Config :=
  q ← Queue_new cap; Some (mkConfig q (replicate n (mkThread (mkView 0 0 0 0) Idle))).

(** Executions whose steps satisfy [p], with their traces, last step first. *)
Abbreviation Trace := (list (nat * list Label)) (only parsing).
Abbreviation Policy := (Config -> nat -> Action -> bool) (only parsing).

Definition any_step : Policy := fun _ _ _ => true.

Inductive reaches (p : Policy) (c0 : Config) : Trace -> Config -> Prop :=
| reaches_nil : reaches p c0 [] c0
| reaches_step tr c i a c' ls :
    reaches p c0 tr c -> p c i a = true -> perform c i a = Stepped (c', ls) ->
    reaches p c0 ((i, ls) :: tr) c'.

(** A schedule run as a function. *)
Fixpoint run (p : Policy) (c : Config) (sched : list (nat * Action)) : option (Trace * Config) :=
  match sched with
  | [] => Some ([], c)
  | (i, a) :: sched =>
      if p c i a
      then match perform c i a with
           | Stepped (c', ls) => '(tr, c'') ← run p c' sched; Some (tr ++ [(i, ls)], c'')
           | _ => None
           end
      else None
  end.

Lemma reaches_app p c0 tr c tr' c' :
  reaches p c0 tr c -> reaches p c tr' c' -> reaches p c0 (tr' ++ tr) c'.
Proof. intros H. induction 1; simpl; [done|]. by econstructor. Qed.

Lemma run_reaches p c sched tr c' : run p c sched = Some (tr, c') -> reaches p c tr c'.
Proof.
  revert c tr. induction sched as [|[i a] sched IH]; intros c tr; simpl.
  - intros. simplify_eq. constructor.
  - destruct (p c i a) eqn:Hp; [|done]. destruct (perform c i a) as [| |[c1 ls]] eqn:Hc; [done..|].
    destruct (run p c1 sched) as [[tr1 c2]|] eqn:Hr; [|done]. intros. simplify_eq/=.
    eapply reaches_app; [|by apply IH]. by eapply (reaches_step _ _ []); [constructor|..].
Qed.

End Queue.
Arguments Queue A : clear implicits.
Arguments Config A : clear implicits.
Arguments Thread A : clear implicits.
Arguments Op A : clear implicits.
Arguments Label A : clear implicits.
Arguments Response A : clear implicits.
Arguments Action A : clear implicits.
Arguments QPc A : clear implicits.
Arguments Frame A : clear implicits.
