(* ===== verification/QueueSafe.v ===== *)
(** Ownership of the cells of the lock-free queue, for any number of threads,
    any interleaving and any delay.

    A thread that has reserved a cell owns it until it commits.  The invariant
    says that no two threads own the same cell, that the state word of an owned
    cell is the one its owner left there, and that the cell holds an object
    exactly when the protocol says so; it follows that the queue never reads,
    destroys or overwrites what it must not. *)
From Stdlib Require Import ZArith Lia.
From stdpp Require Import base list numbers sets.
From S2P Require Import Prelude QueueManager Queue.

Local Open Scope Z_scope.

(** Splits on the conditions of the goal. *)
Ltac split_ifs :=
  repeat (cbn; match goal with
    | |- context [if ?b then _ else _] => destruct b
    | m : PopMode |- context [match ?m with _ => _ end] => destruct m
    end).

Section Ownership.
Context {A : Type}.
Implicit Types (q : Queue A) (th : Thread A) (c : Config A) (pc : QPc A) (k : Frame A).

(** ** Claims

    A reserved cell: its state, generation and index, and whether the object is
    there. *)
Record Claim := mkClaim {
  cl_state : ElementState;
  cl_gen : Z;
  cl_idx : Z;
  cl_live : bool
}.

Definition claims_of_call (m : MPc) : list Claim :=
  match m with
  | RPushInc g i _ => [mkClaim ES_Writing g i false]
  | CommitPush g i => [mkClaim ES_Writing g i true]
  | RPopInc g i _ | RClearInc g i _ => [mkClaim ES_Reading g i true]
  | CommitPop g i => [mkClaim ES_Reading g i false]
  | AbortLoad g i | AbortReading g i _ => [mkClaim ES_Writing g i false]
  | AbortInc g i _ | AbortEmpty g i => [mkClaim ES_Reading g i false]
  | _ => []
  end.

Definition claims_of_frame k : list Claim :=
  match k with
  | KGuard _ g i _ | KGuardCommit _ g i _ => [mkClaim ES_Writing g i false]
  | _ => []
  end.

Definition claims pc : list Claim :=
  match pc with
  | Run m k => claims_of_call m ++ claims_of_frame k
  | PushConstruct _ g i => [mkClaim ES_Writing g i false]
  | PopTake g i | PopDestroy g i _ | RemoveDestroy g i _ _ => [mkClaim ES_Reading g i true]
  | GuardDestroy _ g i eg ei _ => [mkClaim ES_Reading g i true; mkClaim ES_Writing eg ei false]
  | _ => []
  end.

(** Which frame may wait for which manager operation. *)
Definition frame_ok pc : Prop :=
  match pc with
  | Run m k =>
      match m, k with
      | (RPushLoad _ | RPushCell _ _ | RPushHelp _ _ | RPushInc _ _ _), KPush _ _
      | CommitPush _ _, KPushCommit
      | (RPopStart | RPopLoad _ | RPopCell _ _ | RPopHelp _ _ | RPopInc _ _ _), (KPop _ | KRemove _ _)
      | CommitPop _ _, (KPopCommit _ | KRemoveCommit _ _ | KGuardCommit _ _ _ _)
      | (DisableLoad | DisableSet _), KDisable
      | (EnableLoad | EnableSet _), KEnable
      | RClearInc _ _ _, KGuard _ _ _ _
      | (AbortLoad _ _ | AbortReading _ _ _ | AbortInc _ _ _ | AbortEmpty _ _), KAbort _ _
      | (SizePush | SizePop _), (KPushFull _ | KPopEmpty _ | KRemoveSize | KSize | KFull | KEmpty)
      | EnabledLoad, (KPushEnabled _ | KEnabled) => True
      | (RClearLoad g i | RClearCell g i _ | RClearHelp g i _), KGuard _ g' i' _ => g = g' /\ i = i'
      | _, _ => False
      end
  | _ => True
  end.

(** ** The invariant *)
Definition state_at q (i : Z) : option Z := m_states (m_manager q) !! Z.to_nat i.
Definition cell_at q (i : Z) : option (option A) := m_data q !! Z.to_nat i.
Definition in_range q (i : Z) : Prop := 0 <= i < capacity q.
Definition gen_ok q (g : Z) : Prop := 0 <= g < gens (m_manager q).

Definition claim_ok q (owner : Z -> option nat) (j : nat) (cl : Claim) : Prop :=
  in_range q (cl_idx cl) /\ gen_ok q (cl_gen cl)
  /\ state_at q (cl_idx cl) = Some (encodeElement (cl_gen cl) (cl_state cl))
  /\ (exists o, cell_at q (cl_idx cl) = Some o /\ (is_Some o <-> cl_live cl = true))
  /\ owner (cl_idx cl) = Some j.

(** A cell nobody owns is empty or full; an owned one is being written or read. *)
Definition cell_ok q (owner : Z -> option nat) (i : Z) : Prop :=
  exists g s o, gen_ok q g /\ state_at q i = Some (encodeElement g s) /\ cell_at q i = Some o
  /\ match s with
     | ES_Empty => owner i = None /\ o = None
     | ES_Full => owner i = None /\ is_Some o
     | _ => is_Some (owner i)
     end.

Definition pc_ok q pc : Prop :=
  frame_ok pc /\ match pc with Run m _ => pc_vals (m_manager q) m | _ => True end.

Definition thread_ok q (owner : Z -> option nat) (j : nat) th : Prop :=
  pc_ok q (th_pc th) /\ Forall (claim_ok q owner j) (claims (th_pc th))
  /\ forall i, owner i = Some j -> exists cl, cl ∈ claims (th_pc th) /\ cl_idx cl = i.

Record Safe (owner : Z -> option nat) (c : Config A) : Prop := {
  safe_manager : wf_manager (m_manager (queue c));
  safe_vals : vals_ok (m_manager (queue c));
  safe_data : length (m_data (queue c)) = Z.to_nat (capacity (queue c));
  safe_cells : forall i, in_range (queue c) i -> cell_ok (queue c) owner i;
  safe_threads : forall j th, threads c !! j = Some th -> thread_ok (queue c) owner j th;
  safe_owner : forall i j, owner i = Some j -> (j < length (threads c))%nat
}.

Lemma pc_ok_params q q' pc :
  m_capacity (m_manager q') = m_capacity (m_manager q) ->
  m_maxGeneration (m_manager q') = m_maxGeneration (m_manager q) ->
  pc_ok q' pc <-> pc_ok q pc.
Proof.
  intros Hc Hg. unfold pc_ok. destruct pc; try done.
  destruct m; unfold pc_vals, push_val, pop_val, gens; by rewrite ?Hc, ?Hg.
Qed.

(** ** Frames

    [same_cells q q']: the cells, and the parameters, are the same. *)
Definition same_cells q q' : Prop :=
  m_data q' = m_data q /\ m_states (m_manager q') = m_states (m_manager q)
  /\ m_capacity (m_manager q') = m_capacity (m_manager q)
  /\ m_maxGeneration (m_manager q') = m_maxGeneration (m_manager q)
  /\ m_maxCombinedIndex (m_manager q') = m_maxCombinedIndex (m_manager q).

(** [same_but q q' x]: they are the same but for the cell [x]. *)
Definition same_but q q' (x : Z) : Prop :=
  (forall i, 0 <= i -> i <> x -> state_at q' i = state_at q i /\ cell_at q' i = cell_at q i)
  /\ length (m_data q') = length (m_data q)
  /\ length (m_states (m_manager q')) = length (m_states (m_manager q))
  /\ m_capacity (m_manager q') = m_capacity (m_manager q)
  /\ m_maxGeneration (m_manager q') = m_maxGeneration (m_manager q)
  /\ m_maxCombinedIndex (m_manager q') = m_maxCombinedIndex (m_manager q).

Lemma same_cells_but q q' x : same_cells q q' -> same_but q q' x.
Proof.
  intros (Hd & Hs & ?). unfold same_but, state_at, cell_at. rewrite Hd, Hs. naive_solver.
Qed.

Lemma same_but_params q q' x :
  same_but q q' x -> capacity q' = capacity q /\ gens (m_manager q') = gens (m_manager q).
Proof. intros (_&_&_&?&?&_). unfold capacity, gens. split; congruence. Qed.

Lemma same_but_wf q q' x :
  same_but q q' x -> wf_manager (m_manager q) -> wf_manager (m_manager q').
Proof. intros (_&_&Hl&Hc&Hg&Hn). unfold wf_manager. by rewrite Hl, Hc, Hg, Hn. Qed.

Lemma claim_ok_other q q' x owner owner' j cl :
  same_but q q' x -> claim_ok q owner j cl -> cl_idx cl <> x -> owner' (cl_idx cl) = owner (cl_idx cl) ->
  claim_ok q' owner' j cl.
Proof.
  intros Hsame (Hr & Hg & Hs & Ho & Hj) Hx Hown. pose proof (same_but_params _ _ _ Hsame) as [Hc Hgs].
  destruct Hsame as (Hcells & _). destruct (Hcells (cl_idx cl)) as [E1 E2]; [by destruct Hr|done|].
  unfold claim_ok, in_range, gen_ok. rewrite Hc, Hgs, E1, E2, Hown. done.
Qed.

(** A thread moves and changes at most the cell [x], which nobody else owns. *)
Lemma safe_move owner c j th q' th' x o' :
  Safe owner c -> threads c !! j = Some th -> same_but (queue c) q' x -> vals_ok (m_manager q') ->
  (owner x = None \/ owner x = Some j) -> (o' = None \/ o' = Some j) ->
  let owner' := fun i => if decide (i = x) then o' else owner i in
  (in_range (queue c) x -> cell_ok q' owner' x) ->
  thread_ok q' owner' j th' ->
  Safe owner' (mkConfig q' (<[j := th']> (threads c))).
Proof.
  intros [Hm Hv Hd Hc Ht Ho] Hj Hsame Hv' Hx Ho' owner' Hcx Hth.
  pose proof (same_but_params _ _ _ Hsame) as [Ecap Egen].
  pose proof Hsame as (Hcells & Hld & _ & Ec & Eg & _).
  assert (forall i, i <> x -> owner' i = owner i) as Hother.
  { intros i ?. unfold owner'. by rewrite decide_False. }
  split; simpl.
  - by eapply same_but_wf.
  - done.
  - by rewrite Hld, Ecap.
  - intros i Hi. unfold in_range in *. rewrite Ecap in Hi.
    destruct (decide (i = x)) as [->|Hne]; [by apply Hcx|].
    destruct (Hc i Hi) as (g & s & o & Hg & Hs & Hcell & Hm').
    destruct (Hcells i) as [E1 E2]; [by destruct Hi|done|].
    exists g, s, o. unfold gen_ok. rewrite E1, E2, Egen, Hother by done. done.
  - intros k thk [[-> [<- _]]|[Hne Hk]]%list_lookup_insert_Some; [done|].
    destruct (Ht k thk Hk) as (Hf & Hcl & Hown).
    assert (owner x <> Some k) as Hxk by (destruct Hx; congruence).
    split; [by eapply pc_ok_params|]. split.
    + revert Hcl. apply List.Forall_impl. intros cl Hok.
      assert (cl_idx cl <> x) by (intros E; destruct Hok as (_&_&_&_&?); congruence).
      eapply claim_ok_other; eauto.
    + intros i Hi. apply Hown. rewrite <- Hi. symmetry. apply Hother. intros ->.
      unfold owner' in Hi. rewrite decide_True in Hi by done. destruct Ho'; congruence.
  - intros i k Hi. rewrite length_insert. destruct (decide (i = x)) as [->|Hne].
    + unfold owner' in Hi. rewrite decide_True in Hi by done. apply lookup_lt_Some in Hj.
      destruct Ho'; congruence.
    + rewrite Hother in Hi by done. by eapply Ho.
Qed.

(** A thread moves and leaves the cells and its claims alone. *)
Lemma safe_stay owner c j th q' th' :
  Safe owner c -> threads c !! j = Some th -> same_cells (queue c) q' -> vals_ok (m_manager q') ->
  pc_ok q' (th_pc th') -> claims (th_pc th') = claims (th_pc th) ->
  Safe owner (mkConfig q' (<[j := th']> (threads c))).
Proof.
  intros [Hm Hv Hd Hc Ht Ho] Hj Hsame Hv' Hf Hcl. pose proof Hsame as (Ed & Es & Ec & Eg & En).
  assert (forall j cl, claim_ok q' owner j cl <-> claim_ok (queue c) owner j cl) as Hclaim.
  { intros. unfold claim_ok, in_range, gen_ok, capacity, gens, state_at, cell_at.
    by rewrite Ed, Es, Ec, Eg. }
  split; simpl.
  - unfold wf_manager. by rewrite Es, Ec, Eg, En.
  - done.
  - unfold capacity. by rewrite Ed, Ec.
  - intros i. unfold in_range, cell_ok, gen_ok, capacity, gens, state_at, cell_at.
    rewrite Ed, Es, Ec, Eg. apply Hc.
  - intros k thk [[-> [<- _]]|[Hne Hk]]%list_lookup_insert_Some.
    + destruct (Ht _ _ Hj) as (_ & Hcl' & Hown). unfold thread_ok. rewrite Hcl.
      split_and!; [done| |done]. revert Hcl'. apply List.Forall_impl. intros. by apply Hclaim.
    + destruct (Ht _ _ Hk) as (? & Hcl' & Hown). split_and!; [by eapply pc_ok_params| |done].
      revert Hcl'. apply List.Forall_impl. intros. by apply Hclaim.
  - intros. rewrite length_insert. eauto.
Qed.

(** ** Moves of one cell *)
Definition cell_free q (x : Z) : Prop :=
  exists g s o, gen_ok q g /\ state_at q x = Some (encodeElement g s) /\ cell_at q x = Some o
  /\ ((s = ES_Empty /\ o = None) \/ (s = ES_Full /\ is_Some o)).

Definition cell_claimed q (cl : Claim) : Prop :=
  in_range q (cl_idx cl) /\ gen_ok q (cl_gen cl)
  /\ state_at q (cl_idx cl) = Some (encodeElement (cl_gen cl) (cl_state cl))
  /\ (exists o, cell_at q (cl_idx cl) = Some o /\ (is_Some o <-> cl_live cl = true))
  /\ (cl_state cl = ES_Writing \/ cl_state cl = ES_Reading).

Lemma claim_state_inj q owner j g s cl :
  wf_manager (m_manager q) -> claim_ok q owner j cl -> gen_ok q g ->
  state_at q (cl_idx cl) = Some (encodeElement g s) -> g = cl_gen cl /\ s = cl_state cl.
Proof.
  intros Hwf (_ & Hg & Hs & _) Hg' E. rewrite Hs in E. injection E as E.
  apply encodeElement_inj in E as [<- <-]; [done|by eapply gen_bound..].
Qed.

(** A thread trades the claim [old] on the cell [x] for the claim [new]. *)
Lemma safe_exchange owner c j th q' th' x old new rest :
  Safe owner c -> threads c !! j = Some th -> same_but (queue c) q' x -> vals_ok (m_manager q') ->
  claims (th_pc th) = old ++ rest -> claims (th_pc th') = new ++ rest ->
  ((old = [] /\ owner x = None)
   \/ exists cl, old = [cl] /\ cl_idx cl = x /\ Forall (fun r => cl_state r <> cl_state cl) rest) ->
  ((new = [] /\ cell_free q' x) \/ exists cl, new = [cl] /\ cl_idx cl = x /\ cell_claimed q' cl) ->
  pc_ok q' (th_pc th') ->
  exists owner', Safe owner' (mkConfig q' (<[j := th']> (threads c))).
Proof.
  intros HS Hj Hsame Hv' Eold Enew Hold Hnew Hpc.
  destruct (safe_threads _ _ HS _ _ Hj) as (_ & Hcl & Hown). rewrite Eold in Hcl, Hown.
  apply Forall_app in Hcl as [Hclold Hclrest].
  set (o' := match new with [] => None | _ => Some j end).
  exists (fun i => if decide (i = x) then o' else owner i).
  assert (owner x = None \/ owner x = Some j) as Hx.
  { destruct Hold as [[_ ?]|(cl & -> & <- & _)]; [by left|]. right.
    apply Forall_inv in Hclold. apply Hclold. }
  assert (Forall (fun r => cl_idx r <> x) rest) as Hrest.
  { destruct Hold as [[_ Hn]|(cl & -> & <- & Hr)].
    - revert Hclrest. apply List.Forall_impl. intros r (_&_&_&_&?) ?. congruence.
    - apply Forall_inv in Hclold. rewrite Forall_forall in *. intros r Hin E.
      specialize (Hclrest r Hin). destruct Hclrest as (_ & Hg & Hs & _). rewrite E in Hs.
      edestruct (claim_state_inj _ _ _ _ _ _ (safe_manager _ _ HS) Hclold Hg Hs) as [_ ?].
      by eapply Hr. }
  eapply safe_move; eauto.
  - unfold o'. destruct new; auto.
  - intros _. destruct Hnew as [(-> & Hfree)|(cl & -> & <- & Hc)].
    + destruct Hfree as (g & s & o & ?&?&? & Hs). exists g, s, o. rewrite decide_True by done.
      destruct Hs as [[-> ?]|[-> ?]]; naive_solver.
    + destruct Hc as (?&?&?&(o & ? & ?)&Hs). exists (cl_gen cl), (cl_state cl), o.
      rewrite decide_True by done. split_and!; [done..|]. by destruct Hs as [-> | ->]; eexists.
  - split; [done|]. rewrite Enew. split.
    + apply Forall_app. split.
      * destruct Hnew as [(-> & _)|(cl & -> & <- & (?&?&?&?&_))]; [constructor|].
        apply Forall_cons_2; [|constructor]. unfold claim_ok. rewrite decide_True by done. done.
      * rewrite Forall_forall in *. intros r Hin. eapply claim_ok_other; eauto.
        by rewrite decide_False by auto.
    + intros i. case_decide as Hix.
      * unfold o'. destruct Hnew as [(-> & _)|(cl & -> & <- & _)]; [done|]. intros _.
        exists cl. set_solver.
      * intros Hi. destruct (Hown i Hi) as (cl & Hin & <-). exists cl. split; [|done].
        apply elem_of_app in Hin as [Hin|Hin]; [|set_solver].
        destruct Hold as [[-> _]|(cl' & -> & <- & _)]; set_solver.
Qed.

Lemma same_but_state q i s :
  0 <= i -> same_but q (set_manager q (set_state (m_manager q) i s)) i.
Proof.
  intros Hi. split; [|by simpl; rewrite length_insert]. intros i' ? ?. split; [|done].
  unfold state_at. simpl. apply list_lookup_insert_ne. lia.
Qed.

Lemma same_but_data q i o :
  0 <= i -> same_but q (set_data q (<[Z.to_nat i := o]> (m_data q))) i.
Proof.
  intros Hi. split; [|by simpl; rewrite length_insert]. intros i' ? ?. split; [done|].
  unfold cell_at. simpl. apply list_lookup_insert_ne. lia.
Qed.

Lemma state_at_set q i s :
  wf_manager (m_manager q) -> in_range q i ->
  state_at (set_manager q (set_state (m_manager q) i s)) i = Some s.
Proof.
  intros (_ & _ & _ & Hl) Hi. unfold state_at. simpl. apply list_lookup_insert_eq.
  unfold in_range, capacity in Hi. lia.
Qed.

Lemma cell_at_set q i o :
  length (m_data q) = Z.to_nat (capacity q) -> in_range q i ->
  cell_at (set_data q (<[Z.to_nat i := o]> (m_data q))) i = Some o.
Proof.
  intros Hl Hi. unfold cell_at. simpl. apply list_lookup_insert_eq. unfold in_range in Hi. lia.
Qed.

(** ** Steps of the manager *)
Lemma resume_ok q k r : pc_ok q (resume q k r).1.
Proof.
  destruct k, r as [| []| | |]; simpl; unfold notify_pushers, removeAll_loop; simpl;
    repeat (simpl; case_match); done.
Qed.

Lemma mstep_frame at_ mgr vw m k mgr' vw' m' :
  frame_ok (Run (A:=A) m k) -> mstep at_ mgr vw m = Stepped (mgr', vw', inl m') ->
  frame_ok (Run m' k).
Proof.
  intros Hf H. destruct m; cbn [mstep] in H; mstep_inv H;
    unfold push_top, clear_top, push_cell, pop_cell, clear_cell in *;
    repeat (case_match; simplify_eq/=); done.
Qed.

Lemma run_pc_ok at_ q vw m k mgr vw' r :
  wf_manager (m_manager q) -> vals_ok (m_manager q) -> pc_ok q (Run m k) ->
  mstep at_ (m_manager q) vw m = Stepped (mgr, vw', r) ->
  vals_ok mgr /\
  pc_ok (set_manager q mgr) (match r with inl m' => Run m' k | inr res => (resume q k res).1 end).
Proof.
  intros Hwf Hv [Hf Hpc] H. destruct (mstep_vals _ _ _ _ _ _ _ Hwf Hv Hpc H) as [? Hr].
  split; [done|]. destruct r as [m'|res].
  - split; [by eapply mstep_frame|done].
  - eapply pc_ok_params; [..|apply resume_ok]; by apply mstep_params in H as (?&?&?&?).
Qed.

Lemma safe_acquire owner c j th i g s s' live th' :
  Safe owner c -> threads c !! j = Some th -> in_range (queue c) i -> gen_ok (queue c) g ->
  state_at (queue c) i = Some (encodeElement g s) ->
  (s = ES_Empty /\ s' = ES_Writing /\ live = false) \/ (s = ES_Full /\ s' = ES_Reading /\ live = true) ->
  claims (th_pc th') = mkClaim s' g i live :: claims (th_pc th) ->
  let q' := set_manager (queue c) (set_state (m_manager (queue c)) i (encodeElement g s')) in
  pc_ok q' (th_pc th') ->
  exists owner', Safe owner' (mkConfig q' (<[j := th']> (threads c))).
Proof.
  intros HS Hj Hi Hg Hs Hcase Hcl q' Hpc. subst q'. pose proof (safe_manager _ _ HS) as Hwf.
  destruct (safe_cells _ _ HS i Hi) as (g0 & s0 & o & Hg0 & Hs0 & Ho & Hm).
  assert (s0 = s) as ->.
  { rewrite Hs in Hs0. injection Hs0 as E. symmetry.
    by eapply encodeElement_inj in E as [_ ?]; [done|eapply gen_bound..]. }
  eapply (safe_exchange _ _ _ _ _ _ i [] [_] (claims (th_pc th))); eauto.
  - apply same_but_state. by destruct Hi.
  - exact (safe_vals _ _ HS).
  - left. split; [done|]. destruct Hcase as [(-> & _)|(-> & _)]; naive_solver.
  - right. eexists. split_and!; [done..|]. unfold cell_claimed. simpl.
    rewrite state_at_set by done. split_and!; [done..| |naive_solver].
    exists o. split; [done|]. destruct Hcase as [(-> & -> & ->)|(-> & -> & ->)].
    + destruct Hm as [_ ->]. split; [by intros [? [=]]|done].
    + by destruct Hm.
Qed.

Lemma safe_release owner c j th s g i live rest g' s' th' :
  Safe owner c -> threads c !! j = Some th ->
  claims (th_pc th) = mkClaim s g i live :: rest -> claims (th_pc th') = rest ->
  Forall (fun r => cl_state r <> s) rest -> gen_ok (queue c) g' ->
  (s' = ES_Full /\ live = true) \/ (s' = ES_Empty /\ live = false) ->
  let q' := set_manager (queue c) (set_state (m_manager (queue c)) i (encodeElement g' s')) in
  pc_ok q' (th_pc th') ->
  exists owner', Safe owner' (mkConfig q' (<[j := th']> (threads c))).
Proof.
  intros HS Hj Hcl Hcl' Hrest Hg' Hcase q' Hpc. subst q'. pose proof (safe_manager _ _ HS) as Hwf.
  destruct (safe_threads _ _ HS _ _ Hj) as (_ & Hok & _). rewrite Hcl in Hok.
  apply Forall_inv in Hok as (Hi & Hg & Hs & (o & Ho & Hlive) & _). simpl in *.
  eapply (safe_exchange _ _ _ _ _ _ i [_] [] rest); eauto.
  - apply same_but_state. by destruct Hi.
  - exact (safe_vals _ _ HS).
  - left. split; [done|]. exists g', s', o. rewrite state_at_set by done. split_and!; [done..|].
    destruct Hcase as [(-> & ->)|(-> & ->)]; [right|left]; split; try done.
    + by apply Hlive.
    + destruct o as [a|]; [|done]. exfalso. by discriminate (proj1 Hlive (ex_intro _ a eq_refl)).
Qed.

Lemma safe_retag owner c j th cl cl' rest q' th' :
  Safe owner c -> threads c !! j = Some th ->
  claims (th_pc th) = cl :: rest -> claims (th_pc th') = cl' :: rest -> cl_idx cl' = cl_idx cl ->
  Forall (fun r => cl_state r <> cl_state cl) rest ->
  same_but (queue c) q' (cl_idx cl) -> vals_ok (m_manager q') -> cell_claimed q' cl' ->
  pc_ok q' (th_pc th') ->
  exists owner', Safe owner' (mkConfig q' (<[j := th']> (threads c))).
Proof.
  intros. eapply (safe_exchange _ _ _ _ _ _ (cl_idx cl) [_] [_] rest); eauto.
Qed.

(** The claim at the head of a thread's claims. *)
Lemma safe_claim owner c j th cl rest :
  Safe owner c -> threads c !! j = Some th -> claims (th_pc th) = cl :: rest ->
  claim_ok (queue c) owner j cl.
Proof.
  intros HS Hj Hcl. destruct (safe_threads _ _ HS _ _ Hj) as (_ & Hok & _). rewrite Hcl in Hok.
  by apply Forall_inv in Hok.
Qed.

(** A reader opens its cell for the next generation. *)
Lemma safe_reopen owner c j th gen i rest th' :
  let mgr := m_manager (queue c) in
  let q' := set_manager (queue c) (set_state mgr i (encodeElement (nextGeneration mgr gen) ES_Empty)) in
  Safe owner c -> threads c !! j = Some th ->
  claims (th_pc th) = mkClaim ES_Reading gen i false :: rest -> claims (th_pc th') = rest ->
  Forall (fun r => cl_state r <> ES_Reading) rest -> pc_ok q' (th_pc th') ->
  exists owner', Safe owner' (mkConfig q' (<[j := th']> (threads c))).
Proof.
  intros mgr q' HS Hj Hcl Hcl' Hrest Hok. destruct (safe_claim _ _ _ _ _ _ HS Hj Hcl) as (_ & Hg & _).
  eapply (safe_release _ _ _ _ ES_Reading gen i false rest); eauto. apply next_gen_range; [apply (safe_manager _ _ HS)|done].
Qed.

(** A step of a manager operation that leaves the cells and the claims. *)
Lemma safe_run_stay owner c j th at_ m k mgr vw r pc :
  Safe owner c -> threads c !! j = Some th -> th_pc th = Run m k ->
  mstep at_ (m_manager (queue c)) (th_view th) m = Stepped (mgr, vw, r) ->
  m_states mgr = m_states (m_manager (queue c)) -> claims pc = claims (Run m k) ->
  vals_ok mgr -> pc_ok (set_manager (queue c) mgr) pc ->
  exists owner', Safe owner' (mkConfig (set_manager (queue c) mgr) (<[j := mkThread vw pc]> (threads c))).
Proof.
  intros HS Hj Hpc H Es Ecl Hv Hok. exists owner. eapply safe_stay; eauto; simpl.
  - apply mstep_params in H as (?&?&?&_). by split_and!.
  - by rewrite Hpc.
Qed.

Lemma safe_run owner c j th at_ m k mgr vw r :
  Safe owner c -> threads c !! j = Some th -> th_pc th = Run m k ->
  mstep at_ (m_manager (queue c)) (th_view th) m = Stepped (mgr, vw, r) ->
  exists owner', Safe owner' (mkConfig (set_manager (queue c) mgr)
    (<[j := mkThread vw (match r with inl m' => Run m' k | inr res => (resume (queue c) k res).1 end)]>
       (threads c))).
Proof.
  intros HS Hj Hpc H. pose proof (safe_manager _ _ HS) as Hwf. pose proof (safe_vals _ _ HS) as Hv.
  destruct (safe_threads _ _ HS _ _ Hj) as (Hok & _ & _). rewrite Hpc in Hok.
  destruct (run_pc_ok _ _ _ _ _ _ _ _ Hwf Hv Hok H) as [Hv' Hpc'].
  destruct Hok as [Hf Hvals].
  pose proof (fun Es Ecl => safe_run_stay _ _ _ _ _ _ _ _ _ _
    (match r with inl m' => Run m' k | inr res => (resume (queue c) k res).1 end)
    HS Hj Hpc H Es Ecl Hv' Hpc') as Hstay.
  destruct m; cbn [mstep] in H; mstep_inv H.
  all: try (apply Hstay; [done|]; destruct k; simpl in Hf; try done;
    unfold push_top, clear_top; simpl; unfold notify_pushers, removeAll_loop; split_ifs; done).
  - rewrite discard_small in Hs by (by eapply pop_val_bound).
    destruct k; simpl in Hf; try done.
    apply push_cell_cases in Hcell as [(-> & -> & ->)|(-> & Hr)]; [|apply Hstay; [done|]; destruct Hr as [-> | [-> | [-> | ->]]]; split_ifs; done|done..].
    eapply safe_acquire; eauto; first [by apply cell_idx | by apply cell_gen | by left | by rewrite Hpc].
  - destruct k; simpl in Hf; try done.
    destruct (safe_claim _ _ _ _ (mkClaim ES_Writing generation index true) [] HS Hj ltac:(by rewrite Hpc))
      as (_ & Hg & _).
    eapply (safe_release _ _ _ _ ES_Writing generation index true []); eauto. by rewrite Hpc.
  - apply pop_cell_cases in Hcell as [(-> & -> & ->)|(-> & Hr)].
    + eapply safe_acquire; eauto; first [by apply cell_idx | by apply cell_gen | by right | by rewrite Hpc].
    + destruct k; simpl in Hf; try done; (apply Hstay; [done|]);
        destruct Hr as [-> | [-> | [-> | ->]]]; split_ifs; done.
  - eapply safe_reopen; [done..|by rewrite Hpc| | |done].
    + destruct k; simpl in Hf; try done; simpl; unfold removeAll_loop; split_ifs; done.
    + destruct k; simpl; repeat constructor; done.
  - apply clear_cell_cases in Hcell as [(-> & -> & ->)|(-> & Hr)].
    + eapply safe_acquire; eauto; first [by apply cell_idx | by apply cell_gen | by right | by rewrite Hpc].
    + apply Hstay; [done|]. by destruct Hr as [-> | ->].
  - destruct (safe_claim _ _ _ _ (mkClaim ES_Writing generation index false) (claims_of_frame k) HS Hj
      ltac:(by rewrite Hpc)) as (Hi & Hg & _ & Ho & _).
    eapply (safe_retag _ _ _ _ (mkClaim ES_Writing generation index false)
              (mkClaim ES_Reading generation index false) (claims_of_frame k)); eauto; simpl.
    + by rewrite Hpc.
    + by destruct k.
    + apply same_but_state. by destruct Hi.
    + unfold cell_claimed. simpl in *. rewrite state_at_set by done. split_and!; auto.
  - eapply safe_reopen; [done..|by rewrite Hpc| | |done].
    + destruct k; simpl in Hf; try done; simpl; unfold notify_pushers; split_ifs; done.
    + by destruct k; simpl in Hf.
Qed.

(** ** Steps of the queue *)
Lemma destroy_step q i q' :
  destroy q i = Stepped q' -> q' = set_data q (<[Z.to_nat i := None]> (m_data q)).
Proof. unfold destroy. intros H. repeat case_match; simplify_eq/=; done. Qed.

Lemma destroy_defined owner c j th cl rest :
  Safe owner c -> threads c !! j = Some th -> claims (th_pc th) = cl :: rest -> cl_live cl = true ->
  exists q', destroy (queue c) (cl_idx cl) = Stepped q'.
Proof.
  intros HS Hj Hcl Hlive. destruct (safe_claim _ _ _ _ _ _ HS Hj Hcl) as (_&_&_&(o & Ho & Hl)&_).
  destruct (proj2 Hl Hlive) as [v ->]. unfold cell_at in Ho. unfold destroy. rewrite Ho. by eexists.
Qed.

(** A thread constructs or destroys the object in the cell of its first claim. *)
Lemma safe_data_step owner c j th s g i live live' rest o th' :
  Safe owner c -> threads c !! j = Some th ->
  claims (th_pc th) = mkClaim s g i live :: rest -> claims (th_pc th') = mkClaim s g i live' :: rest ->
  Forall (fun r => cl_state r <> s) rest -> (s = ES_Writing \/ s = ES_Reading) ->
  (is_Some o <-> live' = true) ->
  let q' := set_data (queue c) (<[Z.to_nat i := o]> (m_data (queue c))) in
  pc_ok q' (th_pc th') ->
  exists owner', Safe owner' (mkConfig q' (<[j := th']> (threads c))).
Proof.
  intros HS Hj Hcl Hcl' Hrest Hs Ho q' Hpc. subst q'.
  destruct (safe_claim _ _ _ _ _ _ HS Hj Hcl) as (Hi & Hg & Hst & _). simpl in *.
  eapply (safe_retag _ _ _ _ _ (mkClaim s g i live') rest); eauto; simpl.
  - apply same_but_data. by destruct Hi.
  - exact (safe_vals _ _ HS).
  - unfold cell_claimed. simpl. split_and!; [done..| |done]. exists o.
    split; [|done]. apply cell_at_set; [|done]. apply (safe_data _ _ HS).
Qed.

Lemma safe_qstep owner c j th choice q' th' ls :
  Safe owner c -> threads c !! j = Some th -> qstep choice (queue c) th = Stepped (q', th', ls) ->
  exists owner', Safe owner' (mkConfig q' (<[j := th']> (threads c))).
Proof.
  intros HS Hj H. pose proof (safe_vals _ _ HS) as Hv. unfold qstep in H.
  destruct (th_pc th) eqn:Hpc.
  2: { destruct (mstep _ _ _ _) as [| |[[mgr vw] r]] eqn:Hm; [done..|].
    destruct (safe_run _ _ _ _ _ _ _ _ _ _ HS Hj Hpc Hm) as (owner' & HS').
    destruct r as [m'|res]; simplify_eq/=; [by exists owner'|].
    destruct (resume _ _ _) as [pc rs]. simplify_eq/=. by exists owner'. }
  all: unfold finish, notify_pushers, removeAll_loop in H; simpl in H.
  all: try (destruct (destroy _ _) as [| |q''] eqn:Hd; [done..|]; apply destroy_step in Hd as ->).
  all: repeat match type of H with
    | (if ?b then _ else _) = _ => destruct b
    | (match ?x with _ => _ end) = _ => destruct x eqn:?
    | Stepped (_, mkThread _ ((if ?b then _ else _).1), _) = _ => destruct b
    end; simplify_eq/=.
  all: try (exists owner; eapply safe_stay; eauto; [by split_and! | by split_and! | by rewrite Hpc]).
  - eapply (safe_data_step _ _ _ _ ES_Writing generation index false true []); eauto;
      first [by rewrite Hpc | by split].
  - eapply (safe_data_step _ _ _ _ ES_Reading generation index true false []); eauto;
      first [by rewrite Hpc | by split; [intros [? [=]]|] | by split].
  - eapply (safe_data_step _ _ _ _ ES_Reading generation index true false []); eauto;
      first [by rewrite Hpc | by split; [intros [? [=]]|] | by split].
  - eapply (safe_data_step _ _ _ _ ES_Reading generation index true false [_]); eauto;
      first [by rewrite Hpc | by repeat constructor | by split; [intros [? [=]]|] | by split].
Qed.

Lemma safe_perform owner c i a c' ls :
  Safe owner c -> perform c i a = Stepped (c', ls) -> exists owner', Safe owner' c'.
Proof.
  intros HS H. unfold perform in H. destruct (threads c !! i) as [th|] eqn:Hi; [|done].
  destruct a as [op|choice].
  - destruct (th_pc th) eqn:Hpc; simplify_eq/=. exists owner.
    eapply safe_stay; eauto; [by split_and!|apply (safe_vals _ _ HS)|by destruct op|].
    by rewrite Hpc; destruct op.
  - destruct (qstep _ _ _) as [| |[[q' th'] ls']] eqn:Hq; simplify_eq/=. by eapply safe_qstep.
Qed.

Lemma safe_init cap n c : init cap n = Some c -> Safe (fun _ => None) c.
Proof.
  unfold init, Queue_new. intros H.
  destruct (QueueManager_new cap) as [mgr|] eqn:Hm; [|done]. simplify_eq/=.
  pose proof (QueueManager_new_ok _ _ Hm) as Hwf. pose proof (wf_bounds _ Hwf) as (?&?&?).
  unfold QueueManager_new in Hm. destruct (_ && _) eqn:E; simplify_eq/=.
  split; simpl; [done|..].
  - pose proof (pop_val_0 _ Hwf) as Hz. split; apply Forall_cons_2; [|done| |done]; [|done].
    by apply pop_val_push.
  - by rewrite length_replicate.
  - intros i Hi. unfold in_range, capacity in Hi. simpl in Hi.
    exists 0, ES_Empty, None. unfold gen_ok, state_at, cell_at. simpl.
    rewrite !lookup_replicate_2 by lia. split_and!; [lia|lia|done..].
  - intros j th Hj. apply lookup_replicate_1 in Hj as [-> _]. split; [done|]. split; [constructor|done].
  - done.
Qed.

Lemma safe_reaches P cap n c0 tr c :
  init cap n = Some c0 -> reaches P c0 tr c -> exists owner, Safe owner c.
Proof.
  intros Hi Hr. induction Hr as [|tr c i a c' ls Hr (owner & IH) _ Hp].
  - eexists. by eapply safe_init.
  - by eapply safe_perform.
Qed.

(** ** Nothing undefined *)
Lemma on_cell_defined (mgr : QueueManager) i {B} (f : Z -> B) :
  wf_manager mgr -> 0 <= i < m_capacity mgr -> on_cell mgr i f <> Undef.
Proof.
  intros (_&_&_&Hl) Hi. unfold on_cell.
  destruct (lookup_lt_is_Some_2 (m_states mgr) (Z.to_nat i)) as [s ->]; [lia|done].
Qed.

Lemma mstep_defined owner c j th at_ m k :
  Safe owner c -> threads c !! j = Some th -> th_pc th = Run m k ->
  mstep at_ (m_manager (queue c)) (th_view th) m <> Undef.
Proof.
  intros HS Hj Hpc. pose proof (safe_manager _ _ HS) as Hwf.
  destruct (safe_threads _ _ HS _ _ Hj) as ([_ Hvals] & Hcl & _). rewrite Hpc in Hvals, Hcl.
  destruct m; cbn [mstep];
    try (apply on_cell_defined; [done|]; simpl in Hvals;
         rewrite ?discard_small by (by eapply pop_val_bound);
         first [by apply cell_idx | by apply Forall_inv in Hcl as (? & _)]).
  all: repeat match goal with
    | |- context [load_relaxed ?a ?n ?x] => by destruct (load_relaxed a n x)
    | |- context [advance_push ?q ?vw ?v] => destruct (advance_push q vw v) as [[? ?] ?]
    | |- context [advance_pop ?q ?vw ?v] => destruct (advance_pop q vw v) as [[? ?] ?]
    end; done.
Qed.

Lemma perform_defined owner c i a : Safe owner c -> perform c i a <> Undef.
Proof.
  intros HS H. unfold perform in H. destruct (threads c !! i) as [th|] eqn:Hi; [|done].
  destruct a as [op|choice]; [by destruct (th_pc th)|].
  destruct (qstep choice (queue c) th) as [| |[[? ?] ?]] eqn:Hq; [done| |done]. clear H.
  destruct (safe_threads _ _ HS _ _ Hi) as (_ & Hcl & _).
  unfold qstep in Hq. destruct (th_pc th) eqn:Hpc; simpl in Hq; try done;
    try (by destruct (load_relaxed _ _ _)).
  - destruct (mstep _ _ _ _) as [| |[[? ?] [?|?]]] eqn:Hm; try done.
    + by eapply mstep_defined.
    + by destruct (resume _ _ _).
  - destruct (choice =? 0)%nat; [|done]. apply Forall_inv in Hcl as (_&_&_&(o & Ho & _)&_).
    unfold cell_at in Ho. simpl in Ho. by rewrite Ho in Hq.
  - by destruct (0 <? _).
  - apply Forall_inv in Hcl as (_&_&_&(o & Ho & Hl)&_). destruct (proj2 Hl eq_refl) as [v ->].
    unfold cell_at in Ho. simpl in Ho. unfold object_at in Hq. by rewrite Ho in Hq.
  - destruct (destroy_defined _ _ _ _ _ _ HS Hi ltac:(by rewrite Hpc) eq_refl) as [q' E].
    simpl in E. by rewrite E in Hq.
  - repeat case_match; done.
  - destruct (destroy_defined _ _ _ _ _ _ HS Hi ltac:(by rewrite Hpc) eq_refl) as [q' E].
    simpl in E. by rewrite E in Hq.
  - destruct (destroy_defined _ _ _ _ _ _ HS Hi ltac:(by rewrite Hpc) eq_refl) as [q' E].
    simpl in E. by rewrite E in Hq.
Qed.

(** What a claim says of its cell. *)
Lemma claim_cell_is owner c j cl :
  Safe owner c -> claim_ok (queue c) owner j cl ->
  cell_is (m_manager (queue c)) (cl_gen cl) (cl_idx cl) (cl_state cl) = true.
Proof.
  intros HS (Hi & Hg & Hs & _). unfold in_range, capacity in Hi. unfold gen_ok in Hg.
  pose proof (gen_bound _ (safe_manager _ _ HS) _ Hg) as Hb.
  unfold state_at in Hs. unfold cell_is. rewrite Hs, decode_encode_state, decode_encode_gen by done.
  rewrite maxGeneration_gens, bool_decide_eq_true_2 by done. lia.
Qed.

Lemma claims_disjoint owner c (j k : nat) th th' cl cl' :
  Safe owner c -> threads c !! j = Some th -> threads c !! k = Some th' -> j <> k ->
  cl ∈ claims (th_pc th) -> cl' ∈ claims (th_pc th') -> cl_idx cl <> cl_idx cl'.
Proof.
  intros HS Hj Hk Hne Hcl Hcl' E.
  destruct (safe_threads _ _ HS _ _ Hj) as (_ & Hok & _).
  destruct (safe_threads _ _ HS _ _ Hk) as (_ & Hok' & _).
  rewrite Forall_forall in Hok, Hok'.
  destruct (Hok _ Hcl) as (_&_&_&_&H1). destruct (Hok' _ Hcl') as (_&_&_&_&H2). congruence.
Qed.

(** When no thread is inside an operation every cell is empty or full. *)
Lemma quiet_cells owner c i :
  Safe owner c -> Forall (fun th => th_pc th = Idle) (threads c) -> in_range (queue c) i ->
  exists s, state_at (queue c) i = Some s
  /\ ((decodeStateFromElementState s = ES_Full /\ is_Some (object_at (queue c) i))
      \/ (decodeStateFromElementState s = ES_Empty /\ object_at (queue c) i = None)).
Proof.
  intros HS Hidle Hi. destruct (safe_cells _ _ HS i Hi) as (g & s & o & Hg & Hs & Ho & Hm).
  exists (encodeElement g s). split; [done|].
  rewrite decode_encode_state by (by eapply gen_bound; [apply (safe_manager _ _ HS)|]).
  unfold object_at. unfold cell_at in Ho. rewrite Ho. simpl.
  assert (owner i = None) as Hn.
  { destruct (owner i) as [j|] eqn:E; [|done]. pose proof (safe_owner _ _ HS _ _ E) as Hlt.
    apply lookup_lt_is_Some_2 in Hlt as [th Hth].
    destruct (safe_threads _ _ HS _ _ Hth) as (_ & _ & Hown). destruct (Hown _ E) as (cl & Hcl & _).
    rewrite Forall_lookup in Hidle. rewrite (Hidle _ _ Hth) in Hcl. by apply not_elem_of_nil in Hcl. }
  rewrite Hn in Hm. destruct s; destruct Hm as [? Hm]; try done; [right; by subst|by left].
Qed.

(** C35. Memory safety of the lock-free queue under every interleaving of any
    number of threads that push, pop, clear, disable and enable it, with
    throwing constructors and with relaxed loads that return any value
    coherence allows: no step destroys or moves from raw memory or leaves the
    buffer, an object is only constructed in raw memory, two threads never work
    on the same cell, the cell a thread commits is still in the state and
    generation it reserved, and once no thread is inside an operation every
    cell is either full with an object in it or empty and raw. *)
Theorem queue_memory_safe cap n (c0 : Config A) tr c :
  init cap n = Some c0 -> reaches any_step c0 tr c ->
  (forall i a, perform c i a <> Undef)
  /\ (forall j th v g i, threads c !! j = Some th -> th_pc th = PushConstruct v g i ->
        object_at (queue c) i = None)
  /\ (forall (j k : nat) th th' cl cl', threads c !! j = Some th -> threads c !! k = Some th' -> j <> k ->
        cl ∈ claims (th_pc th) -> cl' ∈ claims (th_pc th') -> cl_idx cl <> cl_idx cl')
  /\ (forall j th m k g i, threads c !! j = Some th -> th_pc th = Run m k ->
        m = CommitPush g i \/ m = CommitPop g i -> masserts (m_manager (queue c)) m = true)
  /\ (Forall (fun th => th_pc th = Idle) (threads c) -> forall i, 0 <= i < capacity (queue c) ->
        exists s, m_states (m_manager (queue c)) !! Z.to_nat i = Some s
        /\ ((decodeStateFromElementState s = ES_Full /\ is_Some (object_at (queue c) i))
            \/ (decodeStateFromElementState s = ES_Empty /\ object_at (queue c) i = None))).
Proof.
  intros Hi Hr. destruct (safe_reaches _ _ _ _ _ _ Hi Hr) as (owner & HS). split_and!.
  - intros. by eapply perform_defined.
  - intros j th v g i Hj Hpc.
    destruct (safe_claim _ _ _ _ _ _ HS Hj ltac:(by rewrite Hpc)) as (_&_&_&(o & Ho & Hl)&_).
    unfold object_at. unfold cell_at in Ho. simpl in *. rewrite Ho. destruct o as [a|]; [|done].
    exfalso. by discriminate (proj1 Hl (ex_intro _ a eq_refl)).
  - intros j k th th' cl cl' Hj Hk. exact (claims_disjoint _ _ _ _ _ _ _ _ HS Hj Hk).
  - intros j th m k g i Hj Hpc Hm.
    destruct Hm as [-> | ->]; simpl; eapply (claim_cell_is _ _ _ (mkClaim _ _ _ _) HS), (safe_claim _ _ _ _ _ _ HS Hj);
      by rewrite Hpc.
  - intros. by eapply quiet_cells.
Qed.

End Ownership.

(** Two threads push at the same time, a third pops. *)
Definition two_pushes_and_a_pop : list (nat * Action Z) :=
  [(0%nat, Call (TryPushBack 7)); (1%nat, Call (PushBack 8)); (0%nat, Go 0); (1%nat, Go 0);
   (0%nat, Go 0); (1%nat, Go 0); (1%nat, Go 0); (1%nat, Go 0); (1%nat, Go 0); (1%nat, Go 0); (1%nat, Go 0); (0%nat, Go 0);
   (0%nat, Go 0); (0%nat, Go 0); (2%nat, Call TryPopFront); (2%nat, Go 0); (2%nat, Go 0); (2%nat, Go 0)].

Lemma queue_memory_safe_witness :
  match init 2 3 with
  | Some c0 =>
      match run any_step c0 two_pushes_and_a_pop with
      | Some (_, c) =>
          map th_pc (threads c) = [PushPoppers; PushConstruct 8 0 1; PopTake 0 0]
          /\ (forall i a, perform c i a <> Undef) /\ object_at (queue c) 1 = None
      | None => False
      end
  | None => False
  end.
Proof.
  destruct (init 2 3) as [c0|] eqn:Hi; [|by vm_compute in Hi].
  destruct (run any_step c0 two_pushes_and_a_pop) as [[tr c]|] eqn:Hr;
    [|by vm_compute in Hi; injection Hi as <-; vm_compute in Hr].
  pose proof (queue_memory_safe 2 3 c0 tr c Hi (run_reaches _ _ _ _ _ Hr)) as (H1 & H2 & _).
  assert (map th_pc (threads c) = [PushPoppers; PushConstruct 8 0 1; PopTake 0 0]) as Hpc.
  { vm_compute in Hi. injection Hi as <-. vm_compute in Hr. injection Hr as _ <-. reflexivity. }
  split; [done|]. split; [done|].
  destruct (threads c) as [|t0 [|t1 ?]] eqn:Ht; [done..|]. injection Hpc as _ Hpc _.
  exact (H2 1%nat t1 8 0 1 eq_refl Hpc).
Defined.
