(* ===== verification/QueuePlace.v ===== *)
(** Where the cells of the lock-free queue stand.

    Unbounded positions are attached to the cells, to the values of the two
    indices and to the head and the tail of the queue; the combined indices
    and generations of the program are these positions modulo the number of
    generations.  As long as no thread sleeps through half of the generations
    (the [window]), a thread that compares a wrapped index with a wrapped
    generation learns where the head or the tail is. *)
From Stdlib Require Import ZArith Lia.
From stdpp Require Import base list numbers.
From S2P Require Import Prelude QueueManager.

Local Open Scope Z_scope.

(** The tail [gT] (positions below it have been reserved for pushing), the head
    [gH] (positions below it have been reserved for popping), the position of
    every cell, and the position behind every value of the push index. *)
Record Ghost := mkGhost {
  gT : Z;
  gH : Z;
  gpos : Z -> Z;
  gpush : list Z
}.

Definition set_pos (g : Ghost) (i p : Z) : Z -> Z := fun i' => if decide (i' = i) then p else gpos g i'.

(** What the state of a cell says about its position. *)
Definition stage (T H cap : Z) (s : ElementState) (p : Z) : Prop :=
  match s with
  | ES_Empty => T <= p < H + cap
  | ES_Writing | ES_Full => H <= p < T
  | ES_Reading => T - cap <= p < H
  end.

Record Placed (m : QueueManager) (g : Ghost) : Prop := {
  pl_order : 0 <= gH g <= gT g /\ gT g <= gH g + m_capacity m;
  pl_cells : forall i, 0 <= i < m_capacity m -> exists s,
    m_states m !! Z.to_nat i = Some (encodeElement (pgen m (gpos g i)) s)
    /\ pidx m (gpos g i) = i /\ stage (gT g) (gH g) (m_capacity m) s (gpos g i);
  pl_pop : forall k v, m_popIndex m !! k = Some v -> v = comb m (Z.of_nat k);
  pl_head : (0 < length (m_popIndex m))%nat
    /\ Z.of_nat (newest (m_popIndex m)) <= gH g <= Z.of_nat (newest (m_popIndex m)) + 1;
  pl_lag : Z.of_nat (newest (m_popIndex m)) = gH g - 1 -> gpos g (pidx m (gH g - 1)) = gH g - 1;
  pl_push_len : length (gpush g) = length (m_pushIndex m);
  pl_push : forall k a v, gpush g !! k = Some a -> m_pushIndex m !! k = Some v ->
    exists flag : bool, v = comb m a + if flag then 2 ^ 31 else 0;
  pl_mono : forall k a b, gpush g !! k = Some a -> gpush g !! S k = Some b -> a <= b <= a + 1;
  pl_tail : exists a, list.last (gpush g) = Some a /\ a <= gT g <= a + 1
}.

(** How many changes of an index a thread may sleep through. *)
Definition window (m : QueueManager) : Z := (gens m - 3) / 2 * m_capacity m - 2.

(** ** The histories of the indices *)
Lemma latest_last (a : list Z) v : list.last a = Some v -> latest a = v.
Proof.
  intros H. apply last_Some in H as [l ->]. unfold latest. apply List.last_last.
Qed.

Lemma latest_lookup (a : list Z) : (0 < length a)%nat -> a !! newest a = Some (latest a).
Proof.
  intros H. unfold newest. rewrite <- last_lookup. destruct (list.last a) eqn:E.
  - by rewrite (latest_last _ _ E).
  - apply last_None in E as ->. simpl in H. lia.
Qed.

Lemma newest_app (a : list Z) v : newest (a ++ [v]) = length a.
Proof. unfold newest. rewrite length_app. simpl. lia. Qed.

Lemma set_push_same m : set_push m (m_pushIndex m) = m.
Proof. by destruct m. Qed.
Lemma set_pop_same m : set_pop m (m_popIndex m) = m.
Proof. by destruct m. Qed.
Lemma ghost_eta g : mkGhost (gT g) (gH g) (gpos g) (gpush g) = g.
Proof. by destruct g. Qed.

Section Placed.
Context (m : QueueManager) (g : Ghost) (Hm : wf_manager m) (Hg : Placed m g).

Lemma push_nonempty : (0 < length (m_pushIndex m))%nat.
Proof using Hg.
  destruct (pl_tail _ _ Hg) as (a & Ha & _). rewrite <- (pl_push_len _ _ Hg).
  destruct (gpush g); [done|]. simpl. lia.
Qed.

Lemma gpush_newest a : list.last (gpush g) = Some a -> gpush g !! newest (m_pushIndex m) = Some a.
Proof using Hg. unfold newest. rewrite <- (pl_push_len _ _ Hg), <- last_lookup. done. Qed.

Lemma gpush_mono k k' a b :
  (k <= k')%nat -> gpush g !! k = Some a -> gpush g !! k' = Some b ->
  a <= b <= a + Z.of_nat (k' - k).
Proof using Hg.
  intros Hk. revert b. induction Hk as [|k' Hk IH]; intros b Ha Hb; [simplify_eq; lia|].
  destruct (lookup_lt_is_Some_2 (gpush g) k') as [c Hc]; [apply lookup_lt_Some in Hb; lia|].
  specialize (IH c Ha Hc). pose proof (pl_mono _ _ Hg _ _ _ Hc Hb). lia.
Qed.

(** A value of the push index a thread read is at most as far behind the tail as
    the thread's view is old. *)
Lemma push_read k a (seen : nat) :
  gpush g !! k = Some a -> (seen <= S k)%nat ->
  Z.of_nat (newest (m_pushIndex m)) <= Z.of_nat seen + window m ->
  a <= gT g /\ gT g - a <= window m + 2.
Proof using Hg.
  intros Hk Hseen Hw. destruct (pl_tail _ _ Hg) as (b & Hb & Htail).
  apply gpush_newest in Hb. pose proof (lookup_lt_Some _ _ _ Hk) as Hlt.
  rewrite (pl_push_len _ _ Hg) in Hlt.
  assert (k <= newest (m_pushIndex m))%nat as Hle by (unfold newest; lia).
  pose proof (gpush_mono _ _ _ _ Hle Hk Hb). lia.
Qed.

Lemma pop_read k v (seen : nat) :
  m_popIndex m !! k = Some v -> (seen <= S k)%nat ->
  Z.of_nat (newest (m_popIndex m)) <= Z.of_nat seen + window m ->
  Z.of_nat k <= gH g /\ gH g - Z.of_nat k <= window m + 2.
Proof using Hg.
  intros Hk Hseen Hw. destruct (pl_head _ _ Hg) as (? & Hhead).
  apply lookup_lt_Some in Hk. unfold newest in *. lia.
Qed.

(** The cell a thread meets at the position [l] it holds: the same position or
    one of the same cell, at most one generation back and not half of the
    generations ahead. *)
Lemma seen_cell l :
  5 <= gens m -> l <= gT g -> gH g - l <= window m + 2 ->
  (gT g - l <= window m + 2 \/ l <= gH g) ->
  exists s k, m_states m !! Z.to_nat (pidx m l) = Some (encodeElement (pgen m (l + k * m_capacity m)) s)
  /\ gpos g (pidx m l) = l + k * m_capacity m
  /\ stage (gT g) (gH g) (m_capacity m) s (l + k * m_capacity m)
  /\ -1 <= k /\ 2 * (k + 1) < gens m.
Proof using Hm Hg.
  intros HG Hl Hw Hl'. pose proof (wf_bounds m Hm). pose proof (pidx_range m Hm l) as Hi.
  destruct (pl_cells _ _ Hg _ Hi) as (s & Hs & Hidx & Hst).
  destruct (same_cell m Hm l (gpos g (pidx m l))) as (k & Hk & _); [by rewrite Hidx|].
  exists s, k. rewrite <- Hk. split_and!; [done..| |].
  - destruct (pl_order _ _ Hg). destruct s; simpl in Hst; nia.
  - assert (gpos g (pidx m l) < gH g + m_capacity m) as Hup.
    { destruct (pl_order _ _ Hg). destruct s; simpl in Hst; lia. }
    unfold window in Hw. set (w := (gens m - 3) / 2) in *.
    assert (2 * w <= gens m - 3) by (unfold w; pose proof (Z.div_mod (gens m - 3) 2); pose proof (Z.mod_pos_bound (gens m - 3) 2); lia).
    assert (k * m_capacity m < (w + 1) * m_capacity m) by lia. assert (k < w + 1) by nia. lia.
Qed.

(** The state word of a cell [k] generations ahead of the position [l]. *)
Lemma state_word_eq l k s s' :
  -1 <= k < gens m ->
  (encodeElement (pgen m (l + k * m_capacity m)) s =? encodeElement (pgen m l) s')
  = bool_decide (k = 0 /\ s = s').
Proof using Hm.
  intros Hk. pose proof (wf_bounds m Hm). case_bool_decide as E.
  - destruct E as [-> ->]. rewrite Z.mul_0_l, Z.add_0_r. apply Z.eqb_refl.
  - apply Z.eqb_neq. intros (Hp & ->)%encode_pos_inj; [|done]. apply E. split; [|done].
    assert (l + k * m_capacity m = l); [|nia]. symmetry. apply (pgen_inj m Hm); [|done|nia].
    unfold pidx. by rewrite Z.mod_add by lia.
Qed.

Lemma circular_ok_gens a b :
  circular_ok (pgen m a) (pgen m b) (gens m) = true.
Proof using Hm.
  pose proof (wf_bounds m Hm). pose proof (pgen_range m Hm a). pose proof (pgen_range m Hm b).
  unfold circular_ok. lia.
Qed.

(** ** What a thread learns from a cell *)
Lemma push_cell_view l saved s q' r :
  5 <= gens m -> l <= gT g -> gT g - l <= window m + 2 ->
  m_states m !! Z.to_nat (pidx m l) = Some s -> push_cell m saved (comb m l) s = (q', r) ->
  push_cell_asserts m (comb m l) s = true /\
  ((l = gT g /\ gT g < gH g + m_capacity m /\ gpos g (pidx m l) = l
    /\ s = encodeElement (pgen m l) ES_Empty
    /\ q' = set_state m (pidx m l) (encodeElement (pgen m l) ES_Writing)
    /\ r = inl (RPushInc (pgen m l) (pidx m l) (comb m l)))
   \/ (q' = m /\ ((r = inl (RPushLoad saved) \/ r = inl (RPushLoad (comb m l)))
                  \/ (r = inl (RPushHelp saved (comb m l)) /\ l < gT g)
                  \/ (r = inr (Failed QueueFull) /\ gT g = gH g + m_capacity m)))).
Proof using Hm Hg.
  intros HG Hl Hw Hs H. pose proof (wf_bounds m Hm). destruct (pl_order _ _ Hg) as [? ?].
  destruct (seen_cell l HG Hl ltac:(lia) ltac:(by left)) as (s0 & k & Hs0 & Hpos & Hst & Hk & Hk').
  rewrite Hs in Hs0. injection Hs0 as ->.
  assert (u32 (m_maxGeneration m + 1) = gens m) as Eg by (unfold gens in *; apply u32_small; lia).
  unfold push_cell_asserts, push_cell in *.
  rewrite (discard_small (comb m l)), gen_of_comb, ?idx_of_comb, decode_encode_gen, decode_encode_state,
    (previous_generation_spec m Hm l _ k), state_word_eq, Eg in *
    by first [done | lia | apply comb_bound; done | apply pgen_bound; done].
  unfold circular. rewrite circular_ok_gens, (circular_generations m Hm l _ k) by first [done | lia].
  case_bool_decide as E0; [destruct E0 as [-> ->]|].
  { rewrite Z.mul_0_l, Z.add_0_r in *. split; [done|]. left. simpl in Hst. simplify_eq.
    split_and!; try done; lia. }
  case_bool_decide as E1; simpl in H.
  - subst k. split.
    + rewrite bool_decide_eq_false_2; [done|]. intros ->. simpl in Hst. lia.
    + right. destruct s0; simpl in Hst; try lia; repeat case_match; simplify_eq/=;
        (split; [done|]); first [by left; left | by left; right | right; right; split; [done|lia]].
  - split; [apply Z.leb_le; lia|]. right. injection H as <- <-. split; [done|]. right. left. split; [done|].
    destruct (decide (k = 0)) as [->|].
    + destruct s0; simpl in Hst; [naive_solver|lia..].
    + assert (1 * m_capacity m <= k * m_capacity m) by (apply Z.mul_le_mono_nonneg_r; lia).
      destruct s0; simpl in Hst; lia.
Qed.

Lemma pop_cell_view l saved s q' r :
  5 <= gens m -> l <= gH g -> gH g - l <= window m + 2 ->
  m_states m !! Z.to_nat (pidx m l) = Some s -> pop_cell m saved (comb m l) s = (q', r) ->
  pop_cell_asserts m (comb m l) s = true /\
  ((l = gH g /\ gH g < gT g /\ gpos g (pidx m l) = l
    /\ s = encodeElement (pgen m l) ES_Full
    /\ q' = set_state m (pidx m l) (encodeElement (pgen m l) ES_Reading)
    /\ r = inl (RPopInc (pgen m l) (pidx m l) (comb m l)))
   \/ (q' = m /\ ((r = inl (RPopLoad saved) \/ r = inl (RPopLoad (comb m l)))
                  \/ (r = inl (RPopHelp saved (comb m l)) /\ l < gH g)
                  \/ (r = inr (Failed QueueEmpty) /\ gT g = gH g)))).
Proof using Hm Hg.
  intros HG Hl Hw Hs H. pose proof (wf_bounds m Hm). destruct (pl_order _ _ Hg) as [? ?].
  destruct (seen_cell l HG ltac:(lia) Hw ltac:(by right)) as (s0 & k & Hs0 & Hpos & Hst & Hk & Hk').
  rewrite Hs in Hs0. injection Hs0 as ->.
  assert (u32 (m_maxGeneration m + 1) = gens m) as Eg by (unfold gens in *; apply u32_small; lia).
  unfold pop_cell_asserts, pop_cell in *.
  rewrite gen_of_comb, ?idx_of_comb, decode_encode_gen, decode_encode_state,
    (previous_generation_spec m Hm l _ k), state_word_eq, Eg in *
    by first [done | lia | apply pgen_bound; done].
  rewrite (generation_difference m Hm l _ k) in H by first [done | lia].
  unfold circular. rewrite circular_ok_gens, (circular_generations m Hm l _ k) by first [done | lia].
  case_bool_decide as E0; [destruct E0 as [-> ->]|].
  { rewrite Z.mul_0_l, Z.add_0_r in *. split; [done|]. left. simpl in Hst. simplify_eq.
    split_and!; try done; lia. }
  case_bool_decide as E1.
  - subst k. injection H as <- <-. assert (s0 = ES_Reading) as -> by (destruct s0; simpl in Hst; try done; lia).
    rewrite bool_decide_eq_true_2 by done. split; [done|]. right. split; [done|]. right. right.
    simpl in Hst. split; [done|lia].
  - split; [done|]. right. case_bool_decide as E2; simpl in H.
    + subst k. rewrite Z.mul_0_l, Z.add_0_r in *.
      destruct s0; simpl in Hst; repeat case_match; simplify_eq/=; try done;
        (split; [done|]);
        first [ by left; left | by left; right | right; right; split; [done|lia]
              | right; left; split; [done|lia] | naive_solver ].
    + injection H as <- <-. split; [done|]. by left; left.
Qed.

Lemma clear_cell_view l e eg ei s q' r :
  5 <= gens m -> l <= gH g -> gH g - l <= window m + 2 -> l < e -> e < gT g ->
  m_states m !! Z.to_nat (pidx m l) = Some s -> clear_cell m eg ei (comb m l) s = (q', r) ->
  (l = gH g /\ gpos g (pidx m l) = l
    /\ s = encodeElement (pgen m l) ES_Full
    /\ q' = set_state m (pidx m l) (encodeElement (pgen m l) ES_Reading)
    /\ r = inl (RClearInc (pgen m l) (pidx m l) (comb m l)))
   \/ (q' = m /\ (r = inl (RClearLoad eg ei) \/ (r = inl (RClearHelp eg ei (comb m l)) /\ l < gH g))).
Proof using Hm Hg.
  intros HG Hl Hw He HeT Hs H. pose proof (wf_bounds m Hm). destruct (pl_order _ _ Hg) as [? ?].
  destruct (seen_cell l HG ltac:(lia) Hw ltac:(by right)) as (s0 & k & Hs0 & Hpos & Hst & Hk & Hk').
  rewrite Hs in Hs0. injection Hs0 as ->. unfold clear_cell in H.
  rewrite gen_of_comb, ?idx_of_comb, decode_encode_state, state_word_eq in H
    by first [done | lia | apply pgen_bound; done].
  case_bool_decide as E0; [destruct E0 as [-> ->]|].
  { rewrite Z.mul_0_l, Z.add_0_r in *. left. simpl in Hst. simplify_eq. split_and!; try done; lia. }
  right. assert (k <> -1).
  { intros ->. destruct s0; simpl in Hst; lia. }
  assert (0 <= k * m_capacity m) by (apply Z.mul_nonneg_nonneg; lia).
  assert (k = 0 \/ m_capacity m <= k * m_capacity m) by (destruct (decide (k = 0)); [by left|right; nia]).
  destruct s0; simpl in *; injection H as <- <-; (split; [done|]);
    first [by left | right; split; [done|lia]].
Qed.

(** ** Moves *)
Lemma pidx_add c : pidx m (c + m_capacity m) = pidx m c.
Proof using Hm.
  pose proof (wf_bounds m Hm). unfold pidx.
  replace (c + m_capacity m) with (c + 1 * m_capacity m) by lia. apply Z.mod_add. lia.
Qed.

(** Another cell stands neither at the position [c] nor a generation before it. *)
Lemma other_cell i c :
  0 <= i < m_capacity m -> i <> pidx m c -> gpos g i <> c /\ gpos g i <> c - m_capacity m.
Proof using Hm Hg.
  intros Hi Hne. destruct (pl_cells _ _ Hg i Hi) as (_ & _ & Hidx & _).
  split; intros E; apply Hne; rewrite <- Hidx, E; [done|].
  rewrite <- (pidx_add (c - m_capacity m)). f_equal. lia.
Qed.

(** The cell [i] moves to the state [s'] and the position [p']. *)
Lemma placed_cell i p' s' T' H' pos' :
  0 <= i < m_capacity m -> pidx m p' = i -> pos' i = p' -> (forall i', i' <> i -> pos' i' = gpos g i') ->
  stage T' H' (m_capacity m) s' p' -> 0 <= H' <= T' -> T' <= H' + m_capacity m ->
  (forall i' s0, 0 <= i' < m_capacity m -> i' <> i ->
     stage (gT g) (gH g) (m_capacity m) s0 (gpos g i') -> stage T' H' (m_capacity m) s0 (gpos g i')) ->
  Z.of_nat (newest (m_popIndex m)) <= H' <= Z.of_nat (newest (m_popIndex m)) + 1 ->
  (Z.of_nat (newest (m_popIndex m)) = H' - 1 -> pos' (pidx m (H' - 1)) = H' - 1) ->
  (exists a, list.last (gpush g) = Some a /\ a <= T' <= a + 1) ->
  Placed (set_state m i (encodeElement (pgen m p') s')) (mkGhost T' H' pos' (gpush g)).
Proof using Hm Hg.
  intros Hi Hp Hpos Hother Hst Hord Hcap Hstages Hhead Hlag Htail.
  assert (length (m_states m) = Z.to_nat (m_capacity m)) as Hlen by apply Hm.
  split; simpl; try done; try apply Hg.
  - intros i' Hi'. destruct (decide (i' = i)) as [->|Hne].
    + exists s'. rewrite Hpos. split_and!; [|done..]. apply list_lookup_insert_eq. lia.
    + destruct (pl_cells _ _ Hg i' Hi') as (s0 & Hs0 & Hidx & Hs0'). exists s0.
      rewrite (Hother i') by done. split_and!; [|done|by apply Hstages].
      rewrite list_lookup_insert_ne by lia. done.
  - split; [apply Hg|done].
Qed.

Lemma placed_reserve_push :
  gT g < gH g + m_capacity m -> gpos g (pidx m (gT g)) = gT g -> list.last (gpush g) = Some (gT g) ->
  Placed (set_state m (pidx m (gT g)) (encodeElement (pgen m (gT g)) ES_Writing))
         (mkGhost (gT g + 1) (gH g) (gpos g) (gpush g)).
Proof using Hm Hg.
  intros Hlt Hpos Hlast. destruct (pl_order _ _ Hg). pose proof (pl_head _ _ Hg) as [_ ?].
  apply placed_cell; try done; try lia.
  - by apply pidx_range.
  - simpl. lia.
  - intros i' s0 Hi' Hne Hst. destruct (other_cell i' (gT g) Hi' Hne). destruct s0; simpl in *; lia.
  - apply Hg.
  - eexists. split; [done|]. lia.
Qed.

Lemma placed_commit_push i :
  0 <= i < m_capacity m -> gH g <= gpos g i < gT g ->
  Placed (set_state m i (encodeElement (pgen m (gpos g i)) ES_Full))
         (mkGhost (gT g) (gH g) (gpos g) (gpush g)).
Proof using Hm Hg.
  intros Hi Hst. destruct (pl_order _ _ Hg). destruct (pl_cells _ _ Hg i Hi) as (_ & _ & Hidx & _).
  pose proof (pl_head _ _ Hg) as [_ ?]. apply placed_cell; try done; try lia; apply Hg.
Qed.

(** A reserved position leaves the queue at its head. *)
Lemma placed_reserve_pop :
  gH g < gT g -> gpos g (pidx m (gH g)) = gH g -> Z.of_nat (newest (m_popIndex m)) = gH g ->
  Placed (set_state m (pidx m (gH g)) (encodeElement (pgen m (gH g)) ES_Reading))
         (mkGhost (gT g) (gH g + 1) (gpos g) (gpush g)).
Proof using Hm Hg.
  intros Hlt Hpos Hnew. destruct (pl_order _ _ Hg).
  apply placed_cell; try done; try lia.
  - by apply pidx_range.
  - simpl. lia.
  - intros i' s0 Hi' Hne Hst. destruct (other_cell i' (gH g) Hi' Hne). destruct s0; simpl in *; lia.
  - intros _. replace (gH g + 1 - 1) with (gH g) by lia. done.
  - apply Hg.
Qed.

Lemma placed_commit_pop i :
  0 <= i < m_capacity m -> gT g - m_capacity m <= gpos g i < gH g ->
  gpos g i < Z.of_nat (newest (m_popIndex m)) ->
  Placed (set_state m i (encodeElement (pgen m (gpos g i + m_capacity m)) ES_Empty))
         (mkGhost (gT g) (gH g) (set_pos g i (gpos g i + m_capacity m)) (gpush g)).
Proof using Hm Hg.
  intros Hi Hst Hnew. destruct (pl_order _ _ Hg). destruct (pl_cells _ _ Hg i Hi) as (_ & _ & Hidx & _).
  pose proof (pl_head _ _ Hg) as [_ ?]. apply placed_cell; try done; try lia.
  - by rewrite pidx_add.
  - unfold set_pos. by rewrite decide_True.
  - intros i' ?. unfold set_pos. by rewrite decide_False.
  - simpl. lia.
  - intros Hlag. pose proof (pl_lag _ _ Hg Hlag) as Hl. unfold set_pos. case_decide as E; [|done].
    rewrite E in Hl. lia.
  - apply Hg.
Qed.

Lemma placed_push_index v a b :
  list.last (gpush g) = Some b -> b <= a <= b + 1 -> a <= gT g <= a + 1 ->
  (exists flag : bool, v = comb m a + if flag then 2 ^ 31 else 0) ->
  Placed (set_push m (m_pushIndex m ++ [v])) (mkGhost (gT g) (gH g) (gpos g) (gpush g ++ [a])).
Proof using Hg.
  intros Hb Hab Ha Hv. split; simpl; try apply Hg.
  - rewrite !length_app, (pl_push_len _ _ Hg). done.
  - intros k a' v'. rewrite !lookup_app, (pl_push_len _ _ Hg).
    destruct (gpush g !! k) as [x|] eqn:E1; destruct (m_pushIndex m !! k) as [y|] eqn:E2.
    + intros [= <-] [= <-]. by eapply (pl_push _ _ Hg).
    + apply lookup_lt_Some in E1. apply lookup_ge_None in E2. rewrite (pl_push_len _ _ Hg) in E1. lia.
    + apply lookup_lt_Some in E2. apply lookup_ge_None in E1. rewrite (pl_push_len _ _ Hg) in E1. lia.
    + intros H1 H2. apply list_lookup_singleton_Some in H1 as [_ <-].
      by apply list_lookup_singleton_Some in H2 as [_ <-].
  - intros k x y Hx Hy. apply lookup_snoc_Some in Hx as [[? Hx]|[-> <-]];
      apply lookup_snoc_Some in Hy as [[? Hy]|[Hk <-]].
    + by eapply (pl_mono _ _ Hg).
    + rewrite last_lookup, <- Hk in Hb. simpl in Hb. simplify_eq. lia.
    + lia.
    + lia.
  - exists a. rewrite last_snoc. done.
Qed.

Lemma placed_pop_index :
  Z.of_nat (newest (m_popIndex m)) < gH g ->
  Placed (set_pop m (m_popIndex m ++ [comb m (Z.of_nat (newest (m_popIndex m)) + 1)])) g.
Proof using Hg.
  intros Hlt. destruct (pl_head _ _ Hg) as [Hlen Hhead]. split; simpl; try apply Hg.
  - intros k v Hk. apply lookup_snoc_Some in Hk as [[? Hk]|[-> <-]]; [by eapply (pl_pop _ _ Hg)|].
    unfold comb. simpl. f_equal. unfold newest. lia.
  - rewrite length_app, newest_app. unfold newest in *. simpl. lia.
  - rewrite newest_app. unfold newest in *. lia.
Qed.

Lemma window_lt : window m + 2 < gens m * m_capacity m.
Proof using Hm.
  pose proof (wf_bounds m Hm). unfold window.
  assert ((gens m - 3) / 2 < gens m).
  { pose proof (Z.div_mod (gens m - 3) 2). pose proof (Z.mod_pos_bound (gens m - 3) 2). lia. }
  nia.
Qed.

Lemma comb_inj c d : Z.abs (c - d) < gens m * m_capacity m -> comb m c = comb m d -> c = d.
Proof using Hm.
  intros Hw E. destruct (comb_diff m Hm c d) as (j & Hj). pose proof (wf_bounds m Hm).
  assert (j = 0) by nia. lia.
Qed.

Lemma flagged_comb a b (flag : bool) :
  comb m a = comb m b + (if flag then 2 ^ 31 else 0) -> flag = false /\ comb m a = comb m b.
Proof using Hm. pose proof (comb_bound m Hm a). pose proof (comb_bound m Hm b). destruct flag; lia. Qed.

(** The exchange of the push index by its successor. *)
Lemma placed_advance_push k a (seen : nat) A o :
  gpush g !! k = Some a -> a < gT g -> (seen <= S k)%nat ->
  Z.of_nat (newest (m_pushIndex m)) <= Z.of_nat seen + window m ->
  compare_exchange (m_pushIndex m) (comb m a) (nextCombinedIndex m (comb m a)) = (A, o) ->
  exists push', Placed (set_push m A) (mkGhost (gT g) (gH g) (gpos g) push')
  /\ gpush g `prefix_of` push' /\ m_pushIndex m `prefix_of` A
  /\ (exists k' a', push' !! k' = Some a' /\ A !! k' = Some o /\ (newest A <= S k')%nat)
  /\ (exists b, list.last push' = Some b /\ (isDisabledFlagSet (latest A) = false -> a < b)).
Proof using Hm Hg.
  intros Hk Ha Hseen Hw Hcas. destruct (push_read _ _ _ Hk Hseen Hw) as [_ Hfar].
  pose proof window_lt as Hwin. pose proof (latest_lookup _ push_nonempty) as Hlat.
  destruct (pl_tail _ _ Hg) as (b & Hb & HT). pose proof (gpush_newest _ Hb) as Hb'.
  assert (a <= b) as Hab.
  { apply lookup_lt_Some in Hk as Hlt. rewrite (pl_push_len _ _ Hg) in Hlt.
    apply (gpush_mono k (newest (m_pushIndex m))); [unfold newest; lia|done..]. }
  destruct (pl_push _ _ Hg _ _ _ Hb' Hlat) as [flag Hflag].
  apply compare_exchange_cases in Hcas as [(He & -> & ->)|(He & -> & ->)].
  - rewrite He in Hflag. apply flagged_comb in Hflag as [-> Hc].
    assert (a = b) as -> by (apply comb_inj; [lia|done]).
    exists (gpush g ++ [b + 1]). split_and!.
    + rewrite next_comb by done. eapply placed_push_index; [done|lia|lia|]. exists false. lia.
    + by apply prefix_app_r.
    + by apply prefix_app_r.
    + exists (newest (m_pushIndex m)), b. rewrite newest_app. split_and!.
      * by apply lookup_app_l_Some.
      * apply lookup_app_l_Some. by rewrite Hlat, He.
      * unfold newest. lia.
    + exists (b + 1). rewrite last_snoc. split; [done|]. lia.
  - exists (gpush g). rewrite set_push_same, ghost_eta. split_and!; try done.
    + exists (newest (m_pushIndex m)), b. split_and!; [done..|lia].
    + exists b. split; [done|]. rewrite Hflag. destruct flag.
      * by rewrite disabled by (by apply comb_bound).
      * intros _. assert (a <> b); [|lia]. intros ->. apply He. rewrite Hflag. lia.
Qed.

(** The exchange of the pop index by its successor. *)
Lemma placed_advance_pop k (seen : nat) A o :
  m_popIndex m !! k = Some (comb m (Z.of_nat k)) -> Z.of_nat k < gH g -> (seen <= S k)%nat ->
  Z.of_nat (newest (m_popIndex m)) <= Z.of_nat seen + window m ->
  compare_exchange (m_popIndex m) (comb m (Z.of_nat k)) (nextCombinedIndex m (comb m (Z.of_nat k))) = (A, o) ->
  Placed (set_pop m A) g /\ m_popIndex m `prefix_of` A
  /\ (exists k', A !! k' = Some o /\ (newest A <= S k')%nat
        /\ ((newest A <= k')%nat \/ (k' = k /\ o = comb m (Z.of_nat k))))
  /\ (k < newest A)%nat.
Proof using Hm Hg.
  intros Hk Ha Hseen Hw Hcas. destruct (pop_read _ _ _ Hk Hseen Hw) as [_ Hfar].
  pose proof window_lt as Hwin. destruct (pl_head _ _ Hg) as [Hlen Hhead].
  pose proof (latest_lookup _ Hlen) as Hlat. pose proof (pl_pop _ _ Hg _ _ Hlat) as Hval.
  assert (k <= newest (m_popIndex m))%nat as Hle by (apply lookup_lt_Some in Hk; unfold newest; lia).
  apply compare_exchange_cases in Hcas as [(He & -> & ->)|(He & -> & ->)].
  - assert (Z.of_nat k = Z.of_nat (newest (m_popIndex m))) as E by (apply comb_inj; [lia|congruence]).
    rewrite newest_app. split_and!.
    + rewrite next_comb by done. rewrite E. apply placed_pop_index. lia.
    + by apply prefix_app_r.
    + exists k. split_and!; [by apply lookup_app_l_Some|unfold newest in *; lia|by right].
    + unfold newest in *. lia.
  - rewrite set_pop_same. split_and!; try done.
    + exists (newest (m_popIndex m)). split_and!; [done|lia|by left].
    + destruct (decide (k = newest (m_popIndex m))); [subst k; congruence|lia].
Qed.

(** An exchange that only changes the disabled flag. *)
Lemma placed_flag v d A o :
  (latest (m_pushIndex m) = v -> discardDisabledFlag d = discardDisabledFlag v /\ push_val m d) ->
  compare_exchange (m_pushIndex m) v d = (A, o) ->
  exists push', Placed (set_push m A) (mkGhost (gT g) (gH g) (gpos g) push')
  /\ gpush g `prefix_of` push' /\ m_pushIndex m `prefix_of` A.
Proof using Hm Hg.
  intros Hd Hcas. destruct (pl_tail _ _ Hg) as (b & Hb & HT).
  pose proof (gpush_newest _ Hb) as Hb'.
  pose proof (latest_lookup _ push_nonempty) as Hlat.
  destruct (pl_push _ _ Hg _ _ _ Hb' Hlat) as [flag Hflag]. pose proof (comb_bound m Hm b).
  apply compare_exchange_cases in Hcas as [(He & -> & _)|(He & -> & _)].
  - destruct (Hd He) as [Hdis (x & flag' & Hx & ->)]. exists (gpush g ++ [b]). split_and!.
    + eapply placed_push_index; [done|lia|lia|]. exists flag'. f_equal.
      assert (discardDisabledFlag (x + (if flag' then 2 ^ 31 else 0)) = x) as E1.
      { pose proof (pop_val_bound m Hm x Hx). destruct flag'; [by apply discard_flag|].
        rewrite Z.add_0_r. by apply discard_small. }
      assert (discardDisabledFlag (comb m b + (if flag then 2 ^ 31 else 0)) = comb m b) as E2.
      { destruct flag; [by apply discard_flag|]. rewrite Z.add_0_r. by apply discard_small. }
      congruence.
    + by apply prefix_app_r.
    + by apply prefix_app_r.
  - exists (gpush g). by rewrite set_push_same, ghost_eta.
Qed.

End Placed.
