(* ===== verification/QueueFifo.v ===== *)
(** The lock-free queue is linearizable: it implements a bounded first-in
    first-out queue.

    [Fifo] is the abstract queue: its contents and, for every thread inside an
    operation, the answer the operation already owes its caller.  Each access
    that decides an operation (the exchange of a cell's state) is one atomic
    step of the abstract queue, every other access is none.  The simulation
    holds for all executions in which no thread sleeps through half of the
    generations of the indices. *)
From Stdlib Require Import ZArith Lia.
From stdpp Require Import base list numbers sets gmap.
From S2P Require Import Prelude QueueManager Queue QueueSafe QueuePlace.

Local Open Scope Z_scope.

Section Fifo.
Context {A : Type}.
Implicit Types (q : Queue A) (th : Thread A) (c : Config A) (pc : QPc A).

(** ** The abstract queue *)
Record Fifo := mkFifo {
  contents : list A;
  owed : gmap nat (Response A)
}.

(** The answers that depend on the abstract queue. *)
Definition answers (r : Response A) : Prop :=
  match r with RetPush _ | RetPop _ => True | _ => False end.

Inductive fifo_step (cap : Z) (i : nat) : Fifo -> Label A -> Fifo -> Prop :=
| fifo_call f op : fifo_step cap i f (LCall op) (mkFifo (contents f) (delete i (owed f)))
| fifo_push f v :
    Z.of_nat (length (contents f)) < cap ->
    fifo_step cap i f (LPush v) (mkFifo (contents f ++ [v]) (<[i := RetPush Success]> (owed f)))
| fifo_pop v l o :
    fifo_step cap i (mkFifo (v :: l) o) (LPop v) (mkFifo l (<[i := RetPop (Some v)]> o))
| fifo_drop v l o : fifo_step cap i (mkFifo (v :: l) o) (LDrop v) (mkFifo l o)
| fifo_full f :
    Z.of_nat (length (contents f)) = cap ->
    fifo_step cap i f LFull (mkFifo (contents f) (<[i := RetPush QueueFull]> (owed f)))
| fifo_empty f :
    contents f = [] ->
    fifo_step cap i f LEmpty (mkFifo [] (<[i := RetPop None]> (owed f)))
| fifo_disabled f :
    fifo_step cap i f LDisabled (mkFifo (contents f) (<[i := RetPush QueueDisabled]> (owed f)))
| fifo_ret f r :
    (answers r -> owed f !! i = Some r) ->
    fifo_step cap i f (LRet r) (mkFifo (contents f) (delete i (owed f))).

Inductive fifo_labels (cap : Z) (i : nat) : Fifo -> list (Label A) -> Fifo -> Prop :=
| fifo_labels_nil f : fifo_labels cap i f [] f
| fifo_labels_cons f l f' ls f'' :
    fifo_step cap i f l f' -> fifo_labels cap i f' ls f'' -> fifo_labels cap i f (l :: ls) f''.

(** A trace of the concurrent queue, last step first. *)
Inductive fifo_trace (cap : Z) (f0 : Fifo) : list (nat * list (Label A)) -> Fifo -> Prop :=
| fifo_trace_nil : fifo_trace cap f0 [] f0
| fifo_trace_step tr f i ls f' :
    fifo_trace cap f0 tr f -> fifo_labels cap i f ls f' -> fifo_trace cap f0 ((i, ls) :: tr) f'.

(** ** Threads that do not sleep too long *)
Definition holds_push (m : MPc) : bool :=
  match m with RPushCell _ _ | RPushHelp _ _ | RPushInc _ _ _ | SizePop _ => true | _ => false end.
Definition holds_pop (m : MPc) : bool :=
  match m with
  | RPopCell _ _ | RPopHelp _ _ | RPopInc _ _ _ | RClearCell _ _ _ | RClearHelp _ _ _
  | RClearInc _ _ _ | AbortReading _ _ _ | AbortInc _ _ _ => true
  | _ => false
  end.

(** A thread that uses a value it read of an index has not slept through more
    than [window] changes of it; a relaxed load whose value is used at once does
    not return an older one. *)
Definition timely c (i : nat) (a : Action A) : bool :=
  match a, threads c !! i with
  | Go choice, Some th =>
      let m := m_manager (queue c) in
      match th_pc th with
      | Run (RClearLoad _ _) _ =>
          Z.of_nat (newest (m_popIndex m)) <=? Z.of_nat choice + window m
      | Run pc _ =>
          (negb (holds_push pc)
           || (Z.of_nat (newest (m_pushIndex m)) <=? Z.of_nat (seen_push (th_view th)) + window m))
          && (negb (holds_pop pc)
              || (Z.of_nat (newest (m_popIndex m)) <=? Z.of_nat (seen_pop (th_view th)) + window m))
      | _ => true
      end
  | _, _ => true
  end.

(** ** What the threads know *)
Definition push_loaded (m : QueueManager) (g : Ghost) (vw : View) (v a : Z) : Prop :=
  exists k, gpush g !! k = Some a /\ m_pushIndex m !! k = Some v /\ (seen_push vw <= S k)%nat.

Definition pop_loaded (m : QueueManager) (vw : View) (v : Z) (k : nat) : Prop :=
  m_popIndex m !! k = Some v /\ (seen_pop vw <= S k)%nat.

Definition call_ok (m : QueueManager) (g : Ghost) (vw : View) (pc : MPc) : Prop :=
  match pc with
  | RPushCell _ v | SizePop v => exists a, push_loaded m g vw v a
  | RPushHelp _ v => exists a, push_loaded m g vw v a /\ a < gT g
  | RPushInc _ i v => exists a, push_loaded m g vw v a /\ gpos g i = a
  | RPopCell _ v => exists k, pop_loaded m vw v k
  | RPopHelp _ v | RClearHelp _ _ v => exists k, pop_loaded m vw v k /\ Z.of_nat k < gH g
  | RPopInc _ i v | RClearInc _ i v | AbortInc _ i v =>
      exists k, pop_loaded m vw v k /\ gpos g i = Z.of_nat k
  | RClearCell _ i v => exists k, pop_loaded m vw v k /\ Z.of_nat k < gpos g i
  | AbortLoad _ i => gpos g i <= gH g /\ gpos g i <= Z.of_nat (seen_pop vw)
  | AbortReading _ i v => exists k, pop_loaded m vw v k /\ gpos g i = Z.of_nat k
  | CommitPop _ i | AbortEmpty _ i => gpos g i < Z.of_nat (newest (m_popIndex m))
  | _ => True
  end.

Definition local_ok (m : QueueManager) (g : Ghost) th : Prop :=
  match th_pc th with
  | Run pc _ => call_ok m g (th_view th) pc
  | PopTake _ i | PopDestroy _ i _ | RemoveDestroy _ i _ _ | GuardDestroy _ _ i _ _ _ =>
      gpos g i < Z.of_nat (newest (m_popIndex m))
  | _ => True
  end.

(** The value a thread is about to put into the cell it writes. *)
Definition writes pc : option (Z * A) :=
  match pc with
  | Run (RPushInc _ i _) (KPush v _) | PushConstruct v _ i
  | Run _ (KGuard v _ i _) | Run _ (KGuardCommit v _ i _) | GuardDestroy v _ _ _ i _
  | Run (AbortLoad _ i) (KAbort v _) | Run (AbortReading _ i _) (KAbort v _) => Some (i, v)
  | _ => None
  end.

(** The answer a thread owes. *)
Definition owes (o : option (Response A)) q pc : Prop :=
  match pc with
  | Run (RPushInc _ _ _) (KPush _ _) | PushConstruct _ _ _ | Run (CommitPush _ _) _
  | PushPoppers | PushNotify => o = Some (RetPush Success)
  | Run (RPopInc _ i _) (KPop _) | PopTake _ i =>
      exists v, object_at q i = Some v /\ o = Some (RetPop (Some v))
  | PopDestroy _ _ r | Run _ (KPopCommit r) | PopPushers r | NotifyPushers _ r => answers r -> o = Some r
  | _ => True
  end.

(** The value at a position of the queue. *)
Definition value_at (g : Ghost) (f : Fifo) (p : Z) (v : A) : Prop :=
  contents f !! Z.to_nat (p - gH g) = Some v.

(** ** The simulation relation *)
Record Sim (g : Ghost) c (f : Fifo) : Prop := {
  sim_placed : Placed (m_manager (queue c)) g;
  sim_local : forall j th, threads c !! j = Some th -> local_ok (m_manager (queue c)) g th;
  sim_length : Z.of_nat (length (contents f)) = gT g - gH g;
  sim_objects : forall i v, in_range (queue c) i -> gH g <= gpos g i < gT g ->
    object_at (queue c) i = Some v -> value_at g f (gpos g i) v;
  sim_writes : forall j th i v, threads c !! j = Some th -> writes (th_pc th) = Some (i, v) ->
    value_at g f (gpos g i) v;
  sim_owes : forall j th, threads c !! j = Some th -> owes (owed f !! j) (queue c) (th_pc th)
}.

(** What a step of another thread may do to the positions. *)
Definition extends (m m' : QueueManager) (g g' : Ghost) : Prop :=
  gT g <= gT g' /\ gH g <= gH g' /\ gpush g `prefix_of` gpush g'
  /\ m_pushIndex m `prefix_of` m_pushIndex m' /\ m_popIndex m `prefix_of` m_popIndex m'.

Lemma extends_push m m' g g' vw v a :
  extends m m' g g' -> push_loaded m g vw v a -> push_loaded m' g' vw v a.
Proof.
  intros (_ & _ & H1 & H2 & _) (k & Hg & Hm & Hs). exists k.
  split_and!; [by eapply prefix_lookup_Some..|done].
Qed.

Lemma extends_pop m m' g g' vw v k :
  extends m m' g g' -> pop_loaded m vw v k -> pop_loaded m' vw v k.
Proof. intros (_ & _ & _ & _ & H) (Hm & Hs). split; [by eapply prefix_lookup_Some|done]. Qed.

Lemma extends_newest m m' g g' :
  extends m m' g g' -> (newest (m_popIndex m) <= newest (m_popIndex m'))%nat.
Proof. intros (_ & _ & _ & _ & H). apply prefix_length in H. unfold newest. lia. Qed.

Lemma local_extends m m' g g' th :
  extends m m' g g' -> frame_ok (th_pc th) ->
  (forall i, i ∈ map cl_idx (claims (th_pc th)) -> gpos g' i = gpos g i) ->
  local_ok m g th -> local_ok m' g' th.
Proof.
  intros Hext Hf Hpos. pose proof (extends_newest _ _ _ _ Hext). pose proof Hext as (? & ? & _).
  unfold local_ok. destruct (th_pc th) as [|pc k| | | | | | | | | | | | | | | | |]; try done.
  2-5: intros Hlt; rewrite Hpos by set_solver; lia.
  destruct pc; simpl; try done.
  all: try (intros (a & Ha); exists a; by eapply extends_push).
  all: try (intros (a & Ha & ?); exists a; split; [by eapply extends_push|lia]).
  all: try (intros (a & Ha & ?); exists a; split; [by eapply extends_push|rewrite Hpos by set_solver; done]).
  all: try (intros (a & Ha); exists a; by eapply extends_pop).
  all: try (intros (a & Ha & ?); exists a; split; [by eapply extends_pop|lia]).
  all: try (intros (a & Ha & ?); exists a; split; [by eapply extends_pop|rewrite Hpos by set_solver; done]).
  all: try (rewrite Hpos by set_solver; lia).
  - destruct k; simpl in Hf; try done. destruct Hf as [-> ->].
    intros (a & Ha & ?); exists a; split; [by eapply extends_pop|rewrite Hpos by set_solver; done].
Qed.

(** ** What a step does to the positions *)
Definition pushes (ls : list (Label A)) : Z :=
  Z.of_nat (length (List.filter (fun l => match l with LPush _ => true | _ => false end) ls)).
Definition pops (ls : list (Label A)) : Z :=
  Z.of_nat (length (List.filter (fun l => match l with LPop _ | LDrop _ => true | _ => false end) ls)).

Definition quiet (ls : list (Label A)) : bool :=
  forallb (fun l => match l with LPush _ | LPop _ | LDrop _ => false | _ => true end) ls.

Lemma quiet_counts ls : quiet ls = true -> pushes ls = 0 /\ pops ls = 0.
Proof.
  induction ls as [|l ls IH]; [done|]. unfold quiet, pushes, pops in *. simpl.
  intros [Hl Hls]%andb_true_iff. destruct l; try done; by apply IH.
Qed.

(** The tail moves with the values that enter, the head with those that leave,
    and the cells between them stay where they are. *)
Definition tracks (m m' : QueueManager) (g g' : Ghost) (ls : list (Label A)) (pc' : QPc A) : Prop :=
  extends m m' g g' /\ gT g' = gT g + pushes ls /\ gH g' = gH g + pops ls
  /\ (forall i, gH g <= gpos g i -> gpos g' i = gpos g i)
  /\ (pushes ls = 0 \/ pushes ls = 1 /\ exists gen i v k, pc' = Run (RPushInc gen i v) k /\ gpos g' i = gT g).

Lemma tracks_quiet m m' g g' ls pc' :
  extends m m' g g' -> quiet ls = true -> gT g' = gT g -> gH g' = gH g ->
  (forall i, gH g <= gpos g i -> gpos g' i = gpos g i) -> tracks m m' g g' ls pc'.
Proof.
  intros Hext Hq HT HH Hpos. destruct (quiet_counts _ Hq) as [Hpu Hpo].
  unfold tracks. rewrite Hpu, Hpo. split_and!; try done; first [lia | by left].
Qed.

(** ** A step of one thread *)
Lemma claim_stage owner c g j th cl :
  Safe owner c -> Placed (m_manager (queue c)) g -> threads c !! j = Some th -> cl ∈ claims (th_pc th) ->
  stage (gT g) (gH g) (capacity (queue c)) (cl_state cl) (gpos g (cl_idx cl))
  /\ cl_gen cl = pgen (m_manager (queue c)) (gpos g (cl_idx cl))
  /\ pidx (m_manager (queue c)) (gpos g (cl_idx cl)) = cl_idx cl.
Proof.
  intros HS Hg Hj Hcl. destruct (safe_threads _ _ HS _ _ Hj) as (_ & Hok & _).
  rewrite Forall_forall in Hok. destruct (Hok _ Hcl) as (Hi & Hgen & Hs & _).
  destruct (pl_cells _ _ Hg _ Hi) as (s & Hs' & Hidx & Hst). unfold state_at in Hs.
  rewrite Hs in Hs'. injection Hs' as E.
  apply encodeElement_inj in E as [-> ->]; [done| |].
  - by eapply gen_bound; [apply (safe_manager _ _ HS)|].
  - apply pgen_bound, (safe_manager _ _ HS).
Qed.

Lemma writes_claim pc i v :
  frame_ok pc -> writes pc = Some (i, v) ->
  exists cl, cl ∈ claims pc /\ cl_idx cl = i /\ cl_state cl = ES_Writing.
Proof.
  intros Hf Hw. destruct pc as [|m k| | | | | | | | | | | | | | | | |]; simplify_eq/=.
  - destruct m, k; simplify_eq/=; try done; try (destruct Hf as [-> ->]);
      first [by eexists; split; [apply list_elem_of_here|]
            |by eexists; split; [apply list_elem_of_further, list_elem_of_here|]].
  - by eexists; split; [apply list_elem_of_here|].
  - by eexists; split; [apply list_elem_of_further, list_elem_of_here|].
Qed.

(** Thread [j] moves; it touches at most the cell [x]. *)
Lemma sim_move owner owner' g g' c f f' j th q' th' x :
  let m := m_manager (queue c) in let m' := m_manager q' in
  let c' := mkConfig q' (<[j := th']> (threads c)) in
  Sim g c f -> Safe owner c -> Safe owner' c' -> threads c !! j = Some th ->
  Placed m' g' -> extends m m' g g' -> capacity q' = capacity (queue c) ->
  (forall i, i <> x -> gpos g' i = gpos g i) ->
  (forall i, in_range q' i -> i <> x -> object_at q' i = object_at (queue c) i) ->
  (forall k thk cl, k <> j -> threads c !! k = Some thk -> cl ∈ claims (th_pc thk) -> cl_idx cl <> x) ->
  (gT g' = gT g \/ (gT g' = gT g + 1 /\ x = pidx m (gT g))) ->
  Z.of_nat (length (contents f')) = gT g' - gH g' ->
  (forall p v, gH g' <= p < gT g -> value_at g f p v -> value_at g' f' p v) ->
  (forall k, k <> j -> owed f' !! k = owed f !! k) ->
  local_ok m' g' th' -> owes (owed f' !! j) q' (th_pc th') ->
  (forall i v, writes (th_pc th') = Some (i, v) -> value_at g' f' (gpos g' i) v) ->
  (forall v, in_range q' x -> gH g' <= gpos g' x < gT g' -> object_at q' x = Some v ->
     value_at g' f' (gpos g' x) v) ->
  Sim g' c' f'.
Proof.
  intros m m' c' [Hpl Hlo Hlen Hob Hwr How] HS HS' Hj Hpl' Hext Hcap Hpos Hobj Hdisj HT Hlen' Hval Howed
    Hloc Howes Hwrites Hx. subst m m'.
  assert (forall k thk, k <> j -> threads c !! k = Some thk ->
    forall i, i ∈ map cl_idx (claims (th_pc thk)) -> i <> x) as Hne.
  { intros k thk Hk Hthk i Hi. apply list_elem_of_fmap in Hi as (cl & -> & Hcl). by eapply Hdisj. }
  split; simpl; try done.
  - intros k thk [[-> [<- _]]|[Hk Hthk]]%list_lookup_insert_Some; [done|].
    eapply local_extends; [done| | |by eapply Hlo].
    + by destruct (safe_threads _ _ HS _ _ Hthk) as ([? _] & _).
    + intros i Hi. apply Hpos. by eapply Hne.
  - intros i v Hi Hp Ho. destruct (decide (i = x)) as [->|Hix]; [by apply Hx|].
    rewrite Hpos in * by done. rewrite Hobj in Ho by done. apply Hval.
    + destruct HT as [HT|[HT Hxx]]; [lia|]. assert (gpos g i <> gT g); [|lia]. intros E.
      unfold in_range in Hi. rewrite Hcap in Hi. destruct (pl_cells _ _ Hpl i Hi) as (_ & _ & Hidx & _).
      apply Hix. by rewrite Hxx, <- E, Hidx.
    + destruct Hext as (? & ? & _). apply Hob; [by unfold in_range in *; rewrite <- Hcap| |done].
      destruct HT as [HT|[HT Hxx]]; [lia|]. assert (gpos g i <> gT g); [|lia]. intros E.
      unfold in_range in Hi. rewrite Hcap in Hi. destruct (pl_cells _ _ Hpl i Hi) as (_ & _ & Hidx & _).
      apply Hix. by rewrite Hxx, <- E, Hidx.
  - intros k thk i v [[-> [<- _]]|[Hk Hthk]]%list_lookup_insert_Some Hw; [by apply Hwrites|].
    destruct (safe_threads _ _ HS _ _ Hthk) as ([Hf _] & _).
    destruct (writes_claim _ _ _ Hf Hw) as (cl & Hcl & <- & Hst).
    pose proof (Hdisj _ _ _ (not_eq_sym Hk) Hthk Hcl). rewrite Hpos by done. apply Hval; [|by eapply Hwr].
    destruct (claim_stage _ _ _ _ _ _ HS Hpl Hthk Hcl) as (Hs1 & _).
    destruct (claim_stage owner' c' g' k thk cl HS' Hpl') as (Hs2 & _); [|done|].
    { simpl. by rewrite list_lookup_insert_ne. }
    rewrite Hst in Hs1, Hs2. simpl in *. rewrite Hpos in Hs2 by done. lia.
  - intros k thk [[-> [<- _]]|[Hk Hthk]]%list_lookup_insert_Some; [done|].
    rewrite Howed by done. specialize (How _ _ Hthk).
    assert (forall i, i ∈ map cl_idx (claims (th_pc thk)) -> object_at q' i = object_at (queue c) i) as Ho.
    { intros i Hi. apply Hobj; [|by eapply Hne]. apply list_elem_of_fmap in Hi as (cl & -> & Hcl).
      destruct (safe_threads _ _ HS _ _ Hthk) as (_ & Hok & _). rewrite Forall_forall in Hok.
      destruct (Hok _ Hcl) as (Hi & _). unfold in_range in *. by rewrite Hcap. }
    destruct (th_pc thk) as [|pc kk| | | | | | | | | | | | | | | | |]; try done.
    + destruct pc, kk; try done. simpl in *. rewrite Ho by set_solver. done.
    + simpl in *. rewrite Ho by set_solver. done.
Qed.

Lemma fifo_labels_app cap i f ls f' ls' f'' :
  fifo_labels cap i f ls f' -> fifo_labels cap i f' ls' f'' -> fifo_labels cap i f (ls ++ ls') f''.
Proof. induction 1; simpl; [done|]. intros. by econstructor; eauto. Qed.

Lemma fifo_labels_one cap i f l f' : fifo_step cap i f l f' -> fifo_labels cap i f [l] f'.
Proof. intros. by econstructor; [|constructor]. Qed.

(** ** Steps that leave the cells alone *)
Section Step.
Context (owner : Z -> option nat) (g : Ghost) (c : Config A) (f : Fifo) (j : nat) (th : Thread A).
Context (HS : Safe owner c) (Hsim : Sim g c f) (Hj : threads c !! j = Some th).
Context (HG : 5 <= gens (m_manager (queue c))).
Local Abbreviation q := (queue c).
Local Abbreviation mgr := (m_manager (queue c)).

(** Thread [j] moves on to [th'] with the labels [ls], and the abstract queue follows. *)
Definition goes (q' : Queue A) (th' : Thread A) (ls : list (Label A)) : Prop :=
  forall owner', Safe owner' (mkConfig q' (<[j := th']> (threads c))) ->
  exists g' f', fifo_labels (capacity q) j f ls f' /\ Sim g' (mkConfig q' (<[j := th']> (threads c))) f'
  /\ tracks mgr (m_manager q') g g' ls (th_pc th').

Lemma goes_quiet q' th' ls o' push' :
  quiet ls = true ->
  fifo_labels (capacity q) j f ls (mkFifo (contents f) o') ->
  (forall k, k <> j -> o' !! k = owed f !! k) ->
  m_data q' = m_data q -> capacity q' = capacity q ->
  Placed (m_manager q') (mkGhost (gT g) (gH g) (gpos g) push') ->
  gpush g `prefix_of` push' -> m_pushIndex mgr `prefix_of` m_pushIndex (m_manager q') ->
  m_popIndex mgr `prefix_of` m_popIndex (m_manager q') ->
  local_ok (m_manager q') (mkGhost (gT g) (gH g) (gpos g) push') th' ->
  owes (o' !! j) q' (th_pc th') ->
  (writes (th_pc th') = None \/ writes (th_pc th') = writes (th_pc th)) ->
  goes q' th' ls.
Proof using HS Hsim Hj.
  intros Hquiet Hls Ho Hdata Hcap Hpl H1 H2 H3 Hloc Howes Hwr owner' HS'.
  exists (mkGhost (gT g) (gH g) (gpos g) push'), (mkFifo (contents f) o'). split; [done|].
  split; [|by apply tracks_quiet; [split_and!; simpl|..]].
  eapply (sim_move owner owner' g _ c f _ j th q' th' (-1)); try done; simpl.
  - intros i _ _. unfold object_at. by rewrite Hdata.
  - intros k thk cl _ Hk Hcl E. destruct (safe_threads _ _ HS _ _ Hk) as (_ & Hok & _).
    rewrite Forall_forall in Hok. destruct (Hok _ Hcl) as ([? _] & _). lia.
  - by left.
  - apply (sim_length _ _ _ Hsim).
  - intros i v Hw. destruct Hwr as [E|E]; rewrite E in Hw; [done|].
    by eapply (sim_writes _ _ _ Hsim).
  - intros v [Hx _]. lia.
Qed.

(** A load: the manager stays as it is. *)
Lemma goes_load q' th' ls o' :
  quiet ls = true ->
  fifo_labels (capacity q) j f ls (mkFifo (contents f) o') ->
  (forall k, k <> j -> o' !! k = owed f !! k) ->
  m_data q' = m_data q -> m_manager q' = mgr ->
  local_ok mgr g th' -> owes (o' !! j) q' (th_pc th') ->
  (writes (th_pc th') = None \/ writes (th_pc th') = writes (th_pc th)) ->
  goes q' th' ls.
Proof using HS Hsim Hj.
  intros Hquiet Hls Ho Hdata Hm Hloc Howes Hwr.
  apply (goes_quiet q' th' ls o' (gpush g)); rewrite ?Hm, ?ghost_eta; try done.
  - unfold capacity. by rewrite Hm.
  - apply Hsim.
Qed.

(** A step without labels. *)
Lemma goes_silent q' th' :
  m_data q' = m_data q -> m_manager q' = mgr ->
  local_ok mgr g th' -> owes (owed f !! j) q' (th_pc th') ->
  (writes (th_pc th') = None \/ writes (th_pc th') = writes (th_pc th)) ->
  goes q' th' [].
Proof using HS Hsim Hj.
  intros. eapply (goes_load q' th' [] (owed f)); try done. destruct f. constructor.
Qed.

(** A thread returns to its caller, after [ls]. *)
Lemma goes_return q' vw ls o' r :
  quiet ls = true ->
  fifo_labels (capacity q) j f ls (mkFifo (contents f) o') ->
  (forall k, k <> j -> o' !! k = owed f !! k) ->
  (answers r -> o' !! j = Some r) ->
  m_data q' = m_data q -> m_manager q' = mgr ->
  goes q' (mkThread vw Idle) (ls ++ [LRet r]).
Proof using HS Hsim Hj.
  intros Hquiet Hls Ho Hr Hd Hm. eapply (goes_load _ _ _ (delete j o')); try done.
  - unfold quiet in *. by rewrite forallb_app, Hquiet.
  - eapply fifo_labels_app; [done|]. apply fifo_labels_one. by apply fifo_ret.
  - intros k Hk. rewrite lookup_delete_ne by done. by apply Ho.
  - by left.
Qed.

(** ** Values read *)
Lemma push_loaded_at (k : nat) v :
  m_pushIndex mgr !! k = Some v -> exists a, push_loaded mgr g (saw_push k (th_view th)) v a.
Proof using Hsim.
  intros Hk. pose proof (pl_push_len _ _ (sim_placed _ _ _ Hsim)) as Hl.
  destruct (lookup_lt_is_Some_2 (gpush g) k) as [a Ha]; [rewrite Hl; by eapply lookup_lt_Some|].
  exists a, k. split_and!; [done..|simpl; lia].
Qed.

(** An unflagged value of the push index is the combined index of its position. *)
Lemma push_loaded_comb vw v a :
  push_loaded mgr g vw v a -> pop_val mgr v -> v = comb mgr a.
Proof using HS Hsim.
  intros (k & Ha & Hv & _) Hval. destruct (pl_push _ _ (sim_placed _ _ _ Hsim) _ _ _ Ha Hv) as [flag ->].
  destruct flag; [|lia]. pose proof (pop_val_bound _ (safe_manager _ _ HS) _ Hval).
  pose proof (comb_bound _ (safe_manager _ _ HS) a). lia.
Qed.

Lemma pop_loaded_comb vw v k : pop_loaded mgr vw v k -> v = comb mgr (Z.of_nat k).
Proof using Hsim. intros [Hv _]. by eapply (pl_pop _ _ (sim_placed _ _ _ Hsim)). Qed.

Lemma thread_call m k :
  th_pc th = Run m k -> frame_ok (Run m k) /\ pc_vals mgr m /\ call_ok mgr g (th_view th) m
    /\ owes (owed f !! j) q (Run m k).
Proof using HS Hsim Hj.
  intros Hpc. destruct (safe_threads _ _ HS _ _ Hj) as ([Hf Hv] & _). rewrite Hpc in Hf, Hv.
  pose proof (sim_local _ _ _ Hsim _ _ Hj) as Hl. unfold local_ok in Hl. rewrite Hpc in Hl.
  pose proof (sim_owes _ _ _ Hsim _ _ Hj) as Ho. by rewrite Hpc in Ho.
Qed.

(** The head of the push loop, on a value the thread has just read. *)
Lemma goes_push_top q' vw saved v a (value : A) blocking push' :
  m_data q' = m_data q -> capacity q' = capacity q ->
  Placed (m_manager q') (mkGhost (gT g) (gH g) (gpos g) push') ->
  gpush g `prefix_of` push' -> m_pushIndex mgr `prefix_of` m_pushIndex (m_manager q') ->
  m_popIndex mgr `prefix_of` m_popIndex (m_manager q') ->
  push_loaded (m_manager q') (mkGhost (gT g) (gH g) (gpos g) push') vw v a ->
  forall m, (exists s l, m = RPushLoad s \/ m = RPushHelp s l) ->
  match push_top saved v with
  | inl m' => goes q' (mkThread vw (Run m' (KPush value blocking)))
                 (effect q (KPush value blocking) m (inl m'))
  | inr res => goes q' (mkThread vw (resume q (KPush value blocking) res).1)
                 (effect q (KPush value blocking) m (inr res) ++ (resume q (KPush value blocking) res).2)
  end.
Proof using HS Hsim Hj.
  intros Hd Hc Hpl H1 H2 H3 Hld m (s & l & Hm). unfold push_top.
  destruct (isDisabledFlagSet v) eqn:E.
  - assert (effect q (KPush value blocking) m (inr (Failed QueueDisabled)) = [LDisabled]) as ->
      by (destruct Hm as [-> | ->]; done).
    eapply (goes_quiet q' _ _ (delete j (<[j := RetPush QueueDisabled]> (owed f))) push'); try done.
    + simpl. eapply fifo_labels_cons; [apply fifo_disabled|]. apply fifo_labels_one, fifo_ret. simpl.
      intros _. by rewrite lookup_insert_eq.
    + intros k Hk. by rewrite lookup_delete_ne, lookup_insert_ne.
    + by left.
  - assert (effect q (KPush value blocking) m (inl (RPushCell saved v)) = []) as ->
      by (destruct Hm as [-> | ->]; done).
    eapply (goes_quiet q' _ _ (owed f) push'); try done.
    + destruct f. constructor.
    + by exists a.
    + by left.
Qed.

(** ** Steps that change a cell *)
Lemma owned_alone owner' c' th' cl :
  Safe owner' c' -> threads c' !! j = Some th' -> cl ∈ claims (th_pc th') ->
  (forall k, k <> j -> threads c' !! k = threads c !! k) ->
  forall k thk cl', k <> j -> threads c !! k = Some thk -> cl' ∈ claims (th_pc thk) ->
  cl_idx cl' <> cl_idx cl.
Proof.
  intros HS' Hth' Hcl Hsame k thk cl' Hk Hthk Hcl'. rewrite <- Hsame in Hthk by done.
  by eapply (claims_disjoint owner' c' k j).
Qed.

Lemma insert_others th' k : k <> j -> <[j := th']> (threads c) !! k = threads c !! k.
Proof. intros. by rewrite list_lookup_insert_ne. Qed.

Lemma insert_self th' : <[j := th']> (threads c) !! j = Some th'.
Proof using Hj. apply list_lookup_insert_eq. by eapply lookup_lt_Some. Qed.

Lemma cell_object i gen s :
  in_range q i -> gen_ok q gen -> state_at q i = Some (encodeElement gen s) ->
  match s with
  | ES_Empty => object_at q i = None
  | ES_Full => exists v, object_at q i = Some v
  | _ => True
  end.
Proof using HS.
  intros Hi Hgen Hs. destruct (safe_cells _ _ HS i Hi) as (gen' & s' & o & Hgen' & Hs' & Ho & Hcase).
  rewrite Hs in Hs'. injection Hs' as E.
  apply encodeElement_inj in E as [<- <-]; [|by eapply gen_bound; [apply (safe_manager _ _ HS)|]..].
  unfold object_at. unfold cell_at in Ho. rewrite Ho. destruct s; try done; destruct Hcase as [_ Hcase]; simpl.
  - done.
  - destruct Hcase as [v ->]. by exists v.
Qed.

Lemma goes_reserve_push v value blocking saved k :
  push_loaded mgr g (th_view th) v (gT g) -> v = comb mgr (gT g) ->
  gT g < gH g + capacity q -> gpos g (pidx mgr (gT g)) = gT g ->
  state_at q (pidx mgr (gT g)) = Some (encodeElement (pgen mgr (gT g)) ES_Empty) ->
  k = KPush value blocking ->
  goes (set_manager q (set_state mgr (pidx mgr (gT g)) (encodeElement (pgen mgr (gT g)) ES_Writing)))
    (mkThread (th_view th) (Run (RPushInc (pgen mgr (gT g)) (pidx mgr (gT g)) v) k))
    (effect q k (RPushCell saved v) (inl (RPushInc (pgen mgr (gT g)) (pidx mgr (gT g)) v))).
Proof using HS Hsim Hj.
  intros Hld Hv Hroom Hpos Hs -> owner' HS'. pose proof (safe_manager _ _ HS) as Hwf.
  pose proof (sim_placed _ _ _ Hsim) as Hpl. pose proof (sim_length _ _ _ Hsim) as Hlen.
  destruct (pl_order _ _ Hpl) as [? ?].
  assert (list.last (gpush g) = Some (gT g)) as Hlast.
  { destruct Hld as (kk & Hkk & _ & _). destruct (pl_tail _ _ Hpl) as (b & Hb & HT).
    pose proof (gpush_newest _ _ Hpl _ Hb) as Hb'. rewrite Hb. f_equal.
    apply lookup_lt_Some in Hkk as Hlt. rewrite (pl_push_len _ _ Hpl) in Hlt.
    assert (kk <= newest (m_pushIndex mgr))%nat as Hle by (unfold newest; lia).
    pose proof (gpush_mono _ _ Hpl _ _ _ _ Hle Hkk Hb'). lia. }
  exists (mkGhost (gT g + 1) (gH g) (gpos g) (gpush g)),
    (mkFifo (contents f ++ [value]) (<[j := RetPush Success]> (owed f))).
  split; [apply fifo_labels_one, fifo_push; lia|].
  assert (extends mgr (set_state mgr (pidx mgr (gT g)) (encodeElement (pgen mgr (gT g)) ES_Writing)) g
    (mkGhost (gT g + 1) (gH g) (gpos g) (gpush g))) as Hext by (split_and!; simpl; try done; lia).
  split.
  2: { unfold tracks, pushes, pops. simpl. split_and!; [done|lia|lia|done|].
    right. split; [done|]. by do 4 eexists. }
  assert (value_at (mkGhost (gT g + 1) (gH g) (gpos g) (gpush g))
    (mkFifo (contents f ++ [value]) (<[j := RetPush Success]> (owed f))) (gT g) value) as Hnew.
  { unfold value_at. simpl. apply lookup_snoc_Some. right. split; [lia|done]. }
  eapply (sim_move owner owner' _ _ _ _ _ j th _ _ (pidx mgr (gT g))); try done; simpl.
  - by apply placed_reserve_push.
  - eapply owned_alone with (cl := mkClaim ES_Writing _ (pidx mgr (gT g)) _);
      [apply HS'|apply insert_self|apply list_elem_of_here|apply insert_others].
  - by right.
  - rewrite length_app. simpl. lia.
  - intros p w Hp. unfold value_at. simpl. by apply lookup_app_l_Some.
  - intros k Hk. by rewrite lookup_insert_ne.
  - exists (gT g). by split.
  - by rewrite lookup_insert_eq.
  - intros i w [= <- <-]. by rewrite Hpos.
  - intros w Hi _ Ho.
    pose proof (cell_object _ _ _ (pidx_range _ Hwf _) (pgen_range _ Hwf _) Hs) as Hn. simpl in Hn.
    unfold object_at in *. simpl in Ho. congruence.
Qed.

(** A position leaves at the head: popped, or dropped. *)
Lemma goes_reserve_pop i gen s' th' v ls o' :
  i = pidx mgr (gH g) -> gen = pgen mgr (gH g) -> s' = ES_Reading ->
  gH g < gT g -> gpos g i = gH g -> Z.of_nat (newest (m_popIndex mgr)) = gH g ->
  value_at g f (gH g) v ->
  pushes ls = 0 -> pops ls = 1 ->
  (forall l, contents f = v :: l -> fifo_labels (capacity q) j f ls (mkFifo l o')) ->
  (forall k, k <> j -> o' !! k = owed f !! k) ->
  (exists cl, cl ∈ claims (th_pc th') /\ cl_idx cl = i) ->
  let q' := set_manager q (set_state mgr i (encodeElement gen s')) in
  local_ok (m_manager q') (mkGhost (gT g) (gH g + 1) (gpos g) (gpush g)) th' ->
  owes (o' !! j) q' (th_pc th') ->
  (writes (th_pc th') = None \/ (writes (th_pc th') = writes (th_pc th)
     /\ forall i' w, writes (th_pc th') = Some (i', w) -> gH g + 1 <= gpos g i' < gT g)) ->
  goes q' th' ls.
Proof using HS Hsim Hj.
  intros -> -> -> Hlt Hpos Hnew Hv Hpu Hpo Hls Ho (cl & Hcl & Hidx) q' Hloc Howes Hwr owner' HS'.
  pose proof (safe_manager _ _ HS) as Hwf.
  pose proof (sim_placed _ _ _ Hsim) as Hpl. pose proof (sim_length _ _ _ Hsim) as Hlen.
  assert (exists l, contents f = v :: l) as (l & Hl).
  { unfold value_at in Hv. rewrite Z.sub_diag in Hv. destruct (contents f) as [|w l]; [done|].
    injection Hv as ->. by exists l. }
  exists (mkGhost (gT g) (gH g + 1) (gpos g) (gpush g)), (mkFifo l o').
  split; [by apply Hls|]. rewrite Hl in Hlen. simpl in Hlen.
  assert (extends mgr (m_manager q') g (mkGhost (gT g) (gH g + 1) (gpos g) (gpush g))) as Hext
    by (split_and!; simpl; try done; lia).
  split; [|unfold tracks; rewrite Hpu, Hpo; split_and!; simpl; try done; first [lia | by left]].
  assert (forall p w, gH g + 1 <= p < gT g -> value_at g f p w ->
    value_at (mkGhost (gT g) (gH g + 1) (gpos g) (gpush g)) (mkFifo l o') p w) as Hval.
  { intros p w Hp. unfold value_at. simpl. rewrite Hl.
    replace (Z.to_nat (p - gH g)) with (S (Z.to_nat (p - (gH g + 1)))) by lia. done. }
  eapply (sim_move owner owner' _ _ _ _ _ j th _ _ (pidx mgr (gH g))); try done; simpl.
  - by apply placed_reserve_pop.
  - rewrite <- Hidx. eapply owned_alone; [apply HS'|apply insert_self|done|apply insert_others].
  - by left.
  - lia.
  - intros i w Hw. destruct Hwr as [E|[E Hr]]; [congruence|].
    apply Hval; [by eapply Hr|]. rewrite E in Hw. by eapply (sim_writes _ _ _ Hsim).
  - intros w _ Hp. rewrite Hpos in Hp. lia.
Qed.

(** A thread changes the state or the object of a cell it owns. *)
Lemma goes_touch q' th' cl :
  cl ∈ claims (th_pc th) -> capacity q' = capacity q ->
  m_pushIndex (m_manager q') = m_pushIndex mgr -> m_popIndex (m_manager q') = m_popIndex mgr ->
  Placed (m_manager q') g ->
  (forall i, in_range q' i -> i <> cl_idx cl -> object_at q' i = object_at q i) ->
  local_ok (m_manager q') g th' -> owes (owed f !! j) q' (th_pc th') ->
  (writes (th_pc th') = None \/ writes (th_pc th') = writes (th_pc th)) ->
  (forall v, gH g <= gpos g (cl_idx cl) < gT g -> object_at q' (cl_idx cl) = Some v ->
     value_at g f (gpos g (cl_idx cl)) v) ->
  goes q' th' [].
Proof using HS Hsim Hj.
  intros Hcl Hcap Hpush Hpop Hpl Hobj Hloc Howes Hwr Hv owner' HS'.
  exists g, f. split; [constructor|].
  assert (extends mgr (m_manager q') g g) as Hext
    by (unfold extends; rewrite Hpush, Hpop; by split_and!).
  split; [|by apply tracks_quiet].
  eapply (sim_move owner owner' _ _ _ _ _ j th _ _ (cl_idx cl)); try done; simpl.
  - exact (owned_alone _ _ _ _ HS Hj Hcl (fun _ _ => eq_refl)).
  - by left.
  - apply (sim_length _ _ _ Hsim).
  - intros i w Hw. destruct Hwr as [E|E]; rewrite E in Hw; [done|]. by eapply (sim_writes _ _ _ Hsim).
  - intros v _. apply Hv.
Qed.

Lemma goes_commit_push gen i :
  th_pc th = Run (CommitPush gen i) KPushCommit ->
  goes (set_manager q (set_state mgr i (encodeElement gen ES_Full))) (mkThread (th_view th) PushPoppers) [].
Proof using HS Hsim Hj.
  intros Hpc. pose proof (sim_placed _ _ _ Hsim) as Hpl. pose proof (safe_manager _ _ HS) as Hwf.
  assert (mkClaim ES_Writing gen i true ∈ claims (th_pc th)) as Hcl by (rewrite Hpc; apply list_elem_of_here).
  destruct (claim_stage _ _ _ _ _ _ HS Hpl Hj Hcl) as (Hst & Hgen & Hidx). simpl in *.
  assert (in_range q i) as Hi by (rewrite <- Hidx; by apply pidx_range).
  destruct (thread_call _ _ Hpc) as (_ & _ & _ & Ho).
  apply (goes_touch _ _ (mkClaim ES_Writing gen i true)); try done; simpl.
  - rewrite <- (ghost_eta g), Hgen. by apply placed_commit_push.
  - by left.
  - intros v Hp Hv. by apply (sim_objects _ _ _ Hsim).
Qed.

(** A reader hands its cell back, for the next generation. *)
Lemma goes_commit_pop gen i th' ls :
  mkClaim ES_Reading gen i false ∈ claims (th_pc th) ->
  gpos g i < Z.of_nat (newest (m_popIndex mgr)) ->
  let q' := set_manager q (set_state mgr i (encodeElement (nextGeneration mgr gen) ES_Empty)) in
  (ls = [] \/ exists r, ls = [LRet r] /\ ~ answers r) ->
  (forall m' g', extends mgr m' g g' -> gH g' = gH g ->
     (forall i', i' <> i -> gpos g' i' = gpos g i') -> local_ok m' g' th') ->
  (ls = [] -> owes (owed f !! j) q' (th_pc th')) -> (ls <> [] -> th_pc th' = Idle) ->
  (writes (th_pc th') = None \/ (writes (th_pc th') = writes (th_pc th))) ->
  goes q' th' ls.
Proof using HS Hsim Hj.
  intros Hcl Hnew q' Hls Hloc Howes Hidle Hwr owner' HS'.
  pose proof (sim_placed _ _ _ Hsim) as Hpl. pose proof (safe_manager _ _ HS) as Hwf.
  destruct (claim_stage _ _ _ _ _ _ HS Hpl Hj Hcl) as (Hst & Hgen & Hidx).
  simpl in Hst, Hgen, Hidx. subst gen.
  assert (in_range q i) as Hi by (rewrite <- Hidx; by apply pidx_range).
  assert (object_at q i = None) as Hnone.
  { destruct (safe_threads _ _ HS _ _ Hj) as (_ & Hok & _). rewrite Forall_forall in Hok.
    destruct (Hok _ Hcl) as (_ & _ & _ & (o & Ho & Hl) & _). unfold object_at. unfold cell_at in Ho.
    simpl in *. rewrite Ho. destruct o as [a|]; [|done].
    by discriminate (proj1 Hl (ex_intro _ a eq_refl)). }
  set (g' := mkGhost (gT g) (gH g) (set_pos g i (gpos g i + m_capacity mgr)) (gpush g)).
  assert (forall i', i' <> i -> gpos g' i' = gpos g i') as Hpos.
  { intros i' ?. simpl. unfold set_pos. by rewrite decide_False. }
  assert (extends mgr (m_manager q') g g') as Hext by (split_and!; simpl; try done; lia).
  set (f' := mkFifo (contents f) (if ls then owed f else delete j (owed f))).
  exists g', f'. split.
  { destruct Hls as [-> |(r & -> & Hr)]; subst f'; simpl; [destruct f; constructor|].
    apply fifo_labels_one. by apply fifo_ret. }
  split.
  2: { apply tracks_quiet; try done; [by destruct Hls as [-> |(r & -> & _)]|].
    intros i' Hi'. apply Hpos. intros ->. lia. }
  eapply (sim_move owner owner' _ _ _ _ _ j th _ _ i); try done.
  - subst q' g'. simpl. rewrite next_pgen by done. by apply placed_commit_pop.
  - intros k thk cl' Hk Hthk Hcl'. by apply (owned_alone _ _ _ _ HS Hj Hcl (fun _ _ => eq_refl) _ _ _ Hk Hthk Hcl').
  - by left.
  - apply (sim_length _ _ _ Hsim).
  - intros k Hk. subst f'. simpl. destruct ls; [done|]. by rewrite lookup_delete_ne.
  - by apply Hloc.
  - destruct ls as [|l ls]; [by apply Howes|]. by rewrite Hidle.
  - intros i' w Hw. destruct Hwr as [E|E]; [congruence|].
    assert (i' <> i) as Hne.
    { intros ->. rewrite E in Hw. destruct (safe_threads _ _ HS _ _ Hj) as ([Hf _] & _).
      destruct (writes_claim _ _ _ Hf Hw) as (cl & Hcl' & E' & Hw').
      destruct (claim_stage _ _ _ _ _ _ HS Hpl Hj Hcl') as (Hst' & _). rewrite Hw', E' in Hst'.
      simpl in Hst'. lia. }
    rewrite Hpos by done. rewrite E in Hw. by eapply (sim_writes _ _ _ Hsim).
  - intros v _ _ Ho. unfold object_at in *. simpl in Ho. congruence.
Qed.

(** The object of an owned cell is constructed or destroyed. *)
Lemma goes_data cl o th' :
  cl ∈ claims (th_pc th) ->
  let q' := set_data q (<[Z.to_nat (cl_idx cl) := o]> (m_data q)) in
  local_ok mgr g th' -> owes (owed f !! j) q' (th_pc th') ->
  (writes (th_pc th') = None \/ writes (th_pc th') = writes (th_pc th)) ->
  (forall v, o = Some v -> value_at g f (gpos g (cl_idx cl)) v) ->
  goes q' th' [].
Proof using HS Hsim Hj.
  intros Hcl q' Hloc Howes Hwr Hv.
  assert (in_range q (cl_idx cl)) as Hi.
  { destruct (safe_threads _ _ HS _ _ Hj) as (_ & Hok & _). rewrite Forall_forall in Hok.
    by destruct (Hok _ Hcl) as (? & _). }
  apply (goes_touch q' th' cl); try done.
  - apply Hsim.
  - intros i [Hi' _] Hne. unfold object_at, q'. simpl. destruct Hi. by rewrite list_lookup_insert_ne by lia.
  - intros v _ Ho. apply Hv. unfold object_at, q' in Ho. simpl in Ho.
    rewrite list_lookup_insert_eq in Ho; [done|]. rewrite (safe_data _ _ HS). unfold in_range in Hi. lia.
Qed.

(** ** Steps of the manager *)
Definition goes_run (k : Frame A) (m : MPc) (mgr' : QueueManager) (vw : View) (r : MPc + MResult) : Prop :=
  match r with
  | inl m' => goes (set_manager q mgr') (mkThread vw (Run m' k)) (effect q k m r)
  | inr res => goes (set_manager q mgr') (mkThread vw (resume q k res).1)
                 (effect q k m r ++ (resume q k res).2)
  end.

Definition push_timely : Prop :=
  Z.of_nat (newest (m_pushIndex mgr)) <= Z.of_nat (seen_push (th_view th)) + window mgr.
Definition pop_timely : Prop :=
  Z.of_nat (newest (m_popIndex mgr)) <= Z.of_nat (seen_pop (th_view th)) + window mgr.

Lemma fifo_labels_same : fifo_labels (capacity q) j f [] (mkFifo (contents f) (owed f)).
Proof. destruct f. constructor. Qed.

Lemma run_push_load saved k at_ mgr' vw r :
  th_pc th = Run (RPushLoad saved) k ->
  mstep at_ mgr (th_view th) (RPushLoad saved) = Stepped (mgr', vw, r) ->
  goes_run k (RPushLoad saved) mgr' vw r.
Proof using HS Hsim Hj.
  intros Hpc H. destruct (thread_call _ _ Hpc) as (Hf & _). simpl in Hf.
  destruct k; try done. cbn [mstep] in H. mstep_inv H.
  apply load_relaxed_elem in Hload as [_ Hload]. destruct (push_loaded_at _ _ Hload) as (a & Ha).
  pose proof (goes_push_top (set_manager q mgr) (saw_push at_ (th_view th)) saved z a value blocking (gpush g)
    eq_refl eq_refl) as Hgo.
  rewrite ghost_eta in Hgo.
  specialize (Hgo (sim_placed _ _ _ Hsim) (reflexivity _) (reflexivity _) (reflexivity _) Ha
    (RPushLoad saved) ltac:(by exists saved, 0; left)).
  unfold goes_run. by destruct (push_top saved z).
Qed.

Lemma run_push_cell saved v k at_ mgr' vw r :
  th_pc th = Run (RPushCell saved v) k -> push_timely ->
  mstep at_ mgr (th_view th) (RPushCell saved v) = Stepped (mgr', vw, r) ->
  goes_run k (RPushCell saved v) mgr' vw r.
Proof using HS Hsim Hj HG.
  intros Hpc Ht H. destruct (thread_call _ _ Hpc) as (Hf & Hval & (a & Ha) & _). simpl in Hf, Hval.
  destruct k; try done. pose proof (safe_manager _ _ HS) as Hwf. pose proof (sim_placed _ _ _ Hsim) as Hpl.
  pose proof (push_loaded_comb _ _ _ Ha Hval) as ->. pose proof Ha as (n & Hn & _ & Hseen).
  destruct (push_read _ _ Hpl _ _ _ Hn Hseen Ht) as [Hle Hfar].
  cbn [mstep] in H. mstep_inv H.
  rewrite discard_small, idx_of_comb in Hs by (done || by apply comb_bound).
  destruct (push_cell_view _ _ Hwf Hpl _ _ _ _ _ HG Hle Hfar Hs Hcell) as [_ Hcase].
  destruct Hcase as [(-> & Hroom & Hpos & -> & -> & ->)|(-> & Hcase)].
  - by eapply goes_reserve_push.
  - destruct Hcase as [[-> | ->]|[(-> & Hlt)|(-> & Hfull)]]; simpl.
    + apply goes_silent; try done. by left.
    + apply goes_silent; try done. by left.
    + apply goes_silent; try done; [|by left]. exists a. by split.
    + assert (fifo_labels (capacity q) j f [LFull] (mkFifo (contents f) (<[j := RetPush QueueFull]> (owed f))))
        as Hls.
      { apply fifo_labels_one, fifo_full. rewrite (sim_length _ _ _ Hsim). unfold capacity. lia. }
      assert (forall k, k <> j -> <[j := RetPush QueueFull]> (owed f) !! k = owed f !! k) as Ho.
      { intros k Hk. by rewrite lookup_insert_ne. }
      destruct blocking.
      * eapply goes_load; try done. by left.
      * eapply (goes_return _ _ [LFull]); try done. intros _. by rewrite lookup_insert_eq.
Qed.

Lemma run_push_advance v a A' o :
  push_timely -> push_loaded mgr g (th_view th) v a -> pop_val mgr v -> a < gT g ->
  compare_exchange (m_pushIndex mgr) v (nextCombinedIndex mgr v) = (A', o) ->
  exists push' a', Placed (set_push mgr A') (mkGhost (gT g) (gH g) (gpos g) push')
  /\ gpush g `prefix_of` push' /\ m_pushIndex mgr `prefix_of` A'
  /\ push_loaded (set_push mgr A') (mkGhost (gT g) (gH g) (gpos g) push') (saw_push (newest A') (th_view th)) o a'.
Proof using HS Hsim.
  intros Ht Ha Hval Hlt Hcas. pose proof (safe_manager _ _ HS) as Hwf.
  pose proof (sim_placed _ _ _ Hsim) as Hpl.
  pose proof (push_loaded_comb _ _ _ Ha Hval) as ->. pose proof Ha as (n & Hn & _ & Hseen).
  destruct (placed_advance_push _ _ Hwf Hpl _ _ _ _ _ Hn Hlt Hseen Ht Hcas)
    as (push' & Hpl' & H1 & H2 & (k' & a' & Hk & Hk' & Hnew) & _).
  exists push', a'. split_and!; try done. by exists k'.
Qed.

Lemma run_push_help saved v k at_ mgr' vw r :
  th_pc th = Run (RPushHelp saved v) k -> push_timely ->
  mstep at_ mgr (th_view th) (RPushHelp saved v) = Stepped (mgr', vw, r) ->
  goes_run k (RPushHelp saved v) mgr' vw r.
Proof using HS Hsim Hj.
  intros Hpc Ht H. destruct (thread_call _ _ Hpc) as (Hf & Hval & (a & Ha & Hlt) & _). simpl in Hf, Hval.
  destruct k; try done. cbn [mstep] in H. mstep_inv H.
  destruct (run_push_advance _ _ _ _ Ht Ha Hval Hlt Hcas) as (push' & a' & Hpl & H1 & H2 & Hld).
  pose proof (goes_push_top (set_manager q (set_push mgr a0)) _ saved o a' value blocking push'
    eq_refl eq_refl Hpl H1 H2 (reflexivity _) Hld (RPushHelp saved v) ltac:(by exists saved, v; right)) as Hgo.
  unfold goes_run. by destruct (push_top saved o).
Qed.

Lemma run_push_inc gen i v k at_ mgr' vw r :
  th_pc th = Run (RPushInc gen i v) k -> push_timely ->
  mstep at_ mgr (th_view th) (RPushInc gen i v) = Stepped (mgr', vw, r) ->
  goes_run k (RPushInc gen i v) mgr' vw r.
Proof using HS Hsim Hj.
  intros Hpc Ht H. destruct (thread_call _ _ Hpc) as (Hf & Hval & (a & Ha & Hpos) & Ho). simpl in Hf, Hval.
  assert (a < gT g) as Hlt.
  { assert (mkClaim ES_Writing gen i false ∈ claims (th_pc th)) as Hcl by (rewrite Hpc; apply list_elem_of_here).
    destruct (claim_stage _ _ _ _ _ _ HS (sim_placed _ _ _ Hsim) Hj Hcl) as (Hst & _). simpl in Hst. lia. }
  destruct k; try done. cbn [mstep] in H. mstep_inv H.
  destruct (run_push_advance _ _ _ _ Ht Ha Hval Hlt Hcas) as (push' & a' & Hpl & H1 & H2 & Hld).
  apply (goes_quiet _ _ _ (owed f) push'); try done; [apply fifo_labels_same|].
  right. by rewrite Hpc.
Qed.

Lemma pop_newest_loaded vw : pop_loaded mgr (saw_pop (newest (m_popIndex mgr)) vw) (latest (m_popIndex mgr))
  (newest (m_popIndex mgr)).
Proof using Hsim.
  destruct (pl_head _ _ (sim_placed _ _ _ Hsim)) as [Hlen _]. split; [by apply latest_lookup|]. simpl. lia.
Qed.

Lemma pop_loaded_newest vw v k : pop_loaded mgr vw v k -> (k <= newest (m_popIndex mgr))%nat.
Proof. intros [Hk _]. apply lookup_lt_Some in Hk. unfold newest. lia. Qed.

Lemma run_pop_read m k at_ mgr' vw r :
  th_pc th = Run m k -> (m = RPopStart \/ exists saved, m = RPopLoad saved) ->
  mstep at_ mgr (th_view th) m = Stepped (mgr', vw, r) -> goes_run k m mgr' vw r.
Proof using HS Hsim Hj.
  intros Hpc Hm H. destruct (thread_call _ _ Hpc) as (Hf & _).
  destruct Hm as [-> |(saved & ->)]; simpl in Hf; cbn [mstep] in H; mstep_inv H.
  - destruct k; try done; (apply goes_silent; try done; [|by left]);
      eexists; apply pop_newest_loaded.
  - apply load_relaxed_elem in Hload as [_ Hload].
    destruct k; try done; (apply goes_silent; try done; [|by left]);
      exists at_; (split; [done|]); simpl; lia.
Qed.

(** A full cell met at the head. *)
Lemma head_object i v k :
  pop_loaded mgr (th_view th) v k -> Z.of_nat k = gH g -> gH g < gT g -> gpos g i = gH g ->
  i = pidx mgr (gH g) -> state_at q i = Some (encodeElement (pgen mgr (gH g)) ES_Full) ->
  exists w, object_at q i = Some w /\ value_at g f (gH g) w
  /\ Z.of_nat (newest (m_popIndex mgr)) = gH g.
Proof using HS Hsim.
  intros Hld Hk Hlt Hpos -> Hs. pose proof (safe_manager _ _ HS) as Hwf.
  destruct (cell_object _ _ _ (pidx_range _ Hwf _) (pgen_range _ Hwf _) Hs) as (w & Hw).
  exists w. split; [done|]. split.
  - rewrite <- Hpos. apply (sim_objects _ _ _ Hsim); [by apply pidx_range|rewrite Hpos; lia|done].
  - pose proof (pop_loaded_newest _ _ _ Hld). destruct (pl_head _ _ (sim_placed _ _ _ Hsim)) as [_ ?]. lia.
Qed.

Lemma run_pop_cell saved v k at_ mgr' vw r :
  th_pc th = Run (RPopCell saved v) k -> pop_timely ->
  mstep at_ mgr (th_view th) (RPopCell saved v) = Stepped (mgr', vw, r) ->
  goes_run k (RPopCell saved v) mgr' vw r.
Proof using HS Hsim Hj HG.
  intros Hpc Ht H. destruct (thread_call _ _ Hpc) as (Hf & Hval & (n & Hn) & _). simpl in Hf, Hval.
  pose proof (safe_manager _ _ HS) as Hwf. pose proof (sim_placed _ _ _ Hsim) as Hpl.
  pose proof (pop_loaded_comb _ _ _ Hn) as ->. pose proof Hn as (Hn' & Hseen).
  destruct (pop_read _ _ Hpl _ _ _ Hn' Hseen Ht) as [Hle Hfar].
  cbn [mstep] in H. mstep_inv H. rewrite idx_of_comb in Hs by done.
  destruct (pop_cell_view _ _ Hwf Hpl _ _ _ _ _ HG Hle Hfar Hs Hcell) as [_ Hcase].
  destruct Hcase as [(Hk & Hlt & Hpos & -> & -> & ->)|(-> & Hcase)].
  - unfold goes_run. rewrite Hk in *.
    destruct (head_object _ _ _ Hn Hk Hlt Hpos eq_refl Hs) as (w & Hw & Hv & Hnew).
    destruct k; try done; simpl; rewrite Hw; simpl.
    + eapply (goes_reserve_pop _ _ _ _ w _ (<[j := RetPop (Some w)]> (owed f))); try done.
      * intros l Hl. destruct f. simpl in Hl. subst. apply fifo_labels_one, fifo_pop.
      * intros k Hk'. by rewrite lookup_insert_ne.
      * eexists. split; [apply list_elem_of_here|done].
      * exists n. split; [done|]. simpl. lia.
      * exists w. by rewrite lookup_insert_eq.
      * by left.
    + eapply (goes_reserve_pop _ _ _ _ w _ (owed f)); try done.
      * intros l Hl. destruct f. simpl in Hl. subst. apply fifo_labels_one, fifo_drop.
      * eexists. split; [apply list_elem_of_here|done].
      * exists n. split; [done|]. simpl. lia.
      * by left.
  - destruct Hcase as [[-> | ->]|[(-> & Hlt)|(-> & Hempty)]]; simpl.
    + destruct k; try done; apply goes_silent; try done; by left.
    + destruct k; try done; apply goes_silent; try done; by left.
    + destruct k; try done; (apply goes_silent; try done; [|by left]); exists n; by split.
    + assert (contents f = []) as Hnil.
      { apply nil_length_inv. pose proof (sim_length _ _ _ Hsim). lia. }
      assert (fifo_labels (capacity q) j f [LEmpty] (mkFifo (contents f) (<[j := RetPop None]> (owed f))))
        as Hls by (rewrite Hnil; by apply fifo_labels_one, fifo_empty).
      assert (forall k, k <> j -> <[j := RetPop None]> (owed f) !! k = owed f !! k) as Ho.
      { intros k' Hk'. by rewrite lookup_insert_ne. }
      destruct k as [| | | |mode| | | | | | | | | | | | | |]; try done.
      * destruct mode as [| |[]]; simpl;
          first [ by eapply goes_load; try done; left
                | by eapply (goes_return _ _ [LEmpty]); try done; intros _; rewrite lookup_insert_eq ].
      * eapply goes_load; try done. by left.
Qed.

Lemma run_pop_advance v k A' o :
  pop_timely -> pop_loaded mgr (th_view th) v k -> Z.of_nat k < gH g ->
  compare_exchange (m_popIndex mgr) v (nextCombinedIndex mgr v) = (A', o) ->
  Placed (set_pop mgr A') g /\ m_popIndex mgr `prefix_of` A'
  /\ (exists k', pop_loaded (set_pop mgr A') (saw_pop (newest A') (th_view th)) o k'
        /\ ((newest A' <= k')%nat \/ k' = k))
  /\ (k < newest A')%nat.
Proof using HS Hsim.
  intros Ht Hk Hlt Hcas. pose proof (safe_manager _ _ HS) as Hwf.
  pose proof (sim_placed _ _ _ Hsim) as Hpl.
  pose proof (pop_loaded_comb _ _ _ Hk) as ->. pose proof Hk as (Hn & Hseen).
  destruct (placed_advance_pop _ _ Hwf Hpl _ _ _ _ Hn Hlt Hseen Ht Hcas)
    as (Hpl' & H1 & (k' & Hk' & Hnew & Hcase) & H2).
  split_and!; try done. exists k'. split; [by split|]. naive_solver.
Qed.

(** The exchange of the pop index: the cells stay. *)
Lemma goes_pop_index A' vw pc :
  Placed (set_pop mgr A') g -> m_popIndex mgr `prefix_of` A' ->
  local_ok (set_pop mgr A') g (mkThread vw pc) ->
  owes (owed f !! j) q pc -> (writes pc = None \/ writes pc = writes (th_pc th)) ->
  goes (set_manager q (set_pop mgr A')) (mkThread vw pc) [].
Proof using HS Hsim Hj.
  intros Hpl Hpre Hloc Howes Hwr.
  apply (goes_quiet _ _ _ (owed f) (gpush g)); rewrite ?ghost_eta; try done. apply fifo_labels_same.
Qed.

Lemma run_pop_help saved v k at_ mgr' vw r :
  th_pc th = Run (RPopHelp saved v) k -> pop_timely ->
  mstep at_ mgr (th_view th) (RPopHelp saved v) = Stepped (mgr', vw, r) ->
  goes_run k (RPopHelp saved v) mgr' vw r.
Proof using HS Hsim Hj.
  intros Hpc Ht H. destruct (thread_call _ _ Hpc) as (Hf & Hval & (n & Hn & Hlt) & _). simpl in Hf.
  cbn [mstep] in H. mstep_inv H.
  destruct (run_pop_advance _ _ _ _ Ht Hn Hlt Hcas) as (Hpl & Hpre & (k' & Hk' & _) & _).
  destruct k; try done; (apply goes_pop_index; try done; [|by left]); by exists k'.
Qed.

Lemma run_pop_inc gen i v k at_ mgr' vw r :
  th_pc th = Run (RPopInc gen i v) k -> pop_timely ->
  mstep at_ mgr (th_view th) (RPopInc gen i v) = Stepped (mgr', vw, r) ->
  goes_run k (RPopInc gen i v) mgr' vw r.
Proof using HS Hsim Hj.
  intros Hpc Ht H. destruct (thread_call _ _ Hpc) as (Hf & Hval & (n & Hn & Hpos) & Ho). simpl in Hf.
  assert (gpos g i < gH g) as Hlt.
  { assert (mkClaim ES_Reading gen i true ∈ claims (th_pc th)) as Hcl by (rewrite Hpc; apply list_elem_of_here).
    destruct (claim_stage _ _ _ _ _ _ HS (sim_placed _ _ _ Hsim) Hj Hcl) as (Hst & _). simpl in Hst. lia. }
  cbn [mstep] in H. mstep_inv H.
  destruct (run_pop_advance _ _ _ _ Ht Hn ltac:(lia) Hcas) as (Hpl & Hpre & _ & Hnew).
  destruct k; try done; (apply goes_pop_index; try done; [|by left]); unfold local_ok; simpl; lia.
Qed.

Lemma run_commit_pop gen i k at_ mgr' vw r :
  th_pc th = Run (CommitPop gen i) k ->
  mstep at_ mgr (th_view th) (CommitPop gen i) = Stepped (mgr', vw, r) ->
  goes_run k (CommitPop gen i) mgr' vw r.
Proof using HS Hsim Hj.
  intros Hpc H. destruct (thread_call _ _ Hpc) as (Hf & _ & Hnew & Ho). simpl in Hf, Hnew.
  cbn [mstep] in H. mstep_inv H.
  assert (mkClaim ES_Reading gen i false ∈ claims (th_pc th)) as Hcl
    by (rewrite Hpc; apply list_elem_of_here).
  destruct k; try done; simpl; apply goes_commit_pop; try done; try (by left).
  - unfold removeAll_loop. intros. by destruct (_ <? _).
  - unfold removeAll_loop. intros. by destruct (_ <? _).
  - unfold removeAll_loop. left. by destruct (_ <? _).
  - right. by rewrite Hpc.
Qed.

(** The head of the loop that clears the queue up to a reserved cell. *)
Lemma clear_top_view mgr' e (k : nat) :
  wf_manager mgr' -> 0 <= e -> Z.of_nat k <= e -> 2 * (e - Z.of_nat k) < gens mgr' * m_capacity mgr' ->
  clear_top mgr' (pgen mgr' e) (pidx mgr' e) (comb mgr' (Z.of_nat k))
  = if decide (Z.of_nat k = e) then inr Nothing
    else inl (RClearCell (pgen mgr' e) (pidx mgr' e) (comb mgr' (Z.of_nat k))).
Proof.
  intros Hwf He Hk Hw. pose proof (wf_bounds _ Hwf). unfold clear_top.
  pose proof (pgen_range _ Hwf e). pose proof (pidx_range _ Hwf e). pose proof (comb_bound _ Hwf e).
  rewrite maxCombined_gens by done.
  replace (gens mgr' * m_capacity mgr' - 1 + 1) with (gens mgr' * m_capacity mgr') by lia.
  rewrite (u32_small (m_capacity mgr')), <- comb_split, (u32_small (comb mgr' e)),
    (u32_small (gens mgr' * m_capacity mgr')) by (done || lia).
  rewrite circular_combined by (done || lia).
  case_decide; destruct (Z.eqb_spec (e - Z.of_nat k) 0); first [done | lia].
Qed.

Lemma guard_cell value eg ei p m :
  th_pc th = Run m (KGuard value eg ei p) ->
  eg = pgen mgr (gpos g ei) /\ ei = pidx mgr (gpos g ei) /\ gH g <= gpos g ei < gT g
  /\ value_at g f (gpos g ei) value.
Proof using HS Hsim Hj.
  intros Hpc. destruct (thread_call _ _ Hpc) as (Hf & _).
  assert (writes (th_pc th) = Some (ei, value)) as Hw by (rewrite Hpc; by destruct m).
  assert (mkClaim ES_Writing eg ei false ∈ claims (th_pc th)) as Hcl.
  { rewrite Hpc. simpl. apply elem_of_app. right. apply list_elem_of_here. }
  destruct (claim_stage _ _ _ _ _ _ HS (sim_placed _ _ _ Hsim) Hj Hcl) as (Hst & Hgen & Hidx). simpl in *.
  split_and!; try done; [lia..|]. by eapply (sim_writes _ _ _ Hsim).
Qed.

Lemma goes_clear_top A' vw v k value eg ei p m :
  th_pc th = Run m (KGuard value eg ei p) -> (exists l, m = RClearLoad eg ei \/ m = RClearHelp eg ei l) ->
  Placed (set_pop mgr A') g -> m_popIndex mgr `prefix_of` A' ->
  pop_loaded (set_pop mgr A') vw v k -> (k <= seen_pop vw)%nat ->
  (Z.of_nat (newest A') <= Z.of_nat k + 1 \/ Z.of_nat (newest A') <= Z.of_nat k + window mgr) ->
  goes_run (KGuard value eg ei p) m (set_pop mgr A') vw (clear_top mgr eg ei v).
Proof using HS Hsim Hj HG.
  intros Hpc Hm Hpl Hpre Hk Hseen Hwin. pose proof (safe_manager _ _ HS) as Hwf.
  destruct (guard_cell _ _ _ _ _ Hpc) as (Heg & Hei & He & Hv).
  pose proof (wf_bounds _ Hwf) as (Hb1 & Hb2 & Hb3).
  assert (v = comb mgr (Z.of_nat k)) as -> by (destruct Hk as [Hk _]; by apply (pl_pop _ _ Hpl) in Hk).
  assert (k <= newest A')%nat as Hle.
  { destruct Hk as [Hk _]. apply lookup_lt_Some in Hk. simpl in Hk. unfold newest. lia. }
  destruct (pl_head _ _ Hpl) as [_ Hhead]. destruct (pl_order _ _ Hpl) as [Hord Hcap]. simpl in Hhead, Hcap.
  assert (2 * (gpos g ei - Z.of_nat k) < gens mgr * m_capacity mgr) as Hfar.
  { unfold window in Hwin. pose proof (Z.div_mod (gens mgr - 3) 2). pose proof (Z.mod_pos_bound (gens mgr - 3) 2).
    assert (5 * m_capacity mgr <= gens mgr * m_capacity mgr) by (apply Z.mul_le_mono_nonneg_r; lia).
    assert (2 * ((gens mgr - 3) / 2) * m_capacity mgr <= (gens mgr - 3) * m_capacity mgr)
      by (apply Z.mul_le_mono_nonneg_r; lia). lia. }
  pose proof (clear_top_view mgr (gpos g ei) k Hwf ltac:(lia) ltac:(lia) Hfar) as Htop.
  rewrite <- Heg, <- Hei in Htop. rewrite Htop.
  assert (forall r, effect q (KGuard value eg ei p) m r = []) as Heff
    by (intros r; destruct Hm as (l & [-> | ->]); done).
  case_decide as E; simpl; rewrite Heff.
  - apply goes_pop_index; try done; [|right; by rewrite Hpc; destruct m].
    unfold local_ok. simpl. lia.
  - apply goes_pop_index; try done; [|right; by rewrite Hpc; destruct m].
    exists k. split; [done|lia].
Qed.

Lemma run_clear_load eg ei k at_ mgr' vw r :
  th_pc th = Run (RClearLoad eg ei) k ->
  Z.of_nat (newest (m_popIndex mgr)) <= Z.of_nat at_ + window mgr ->
  mstep at_ mgr (th_view th) (RClearLoad eg ei) = Stepped (mgr', vw, r) ->
  goes_run k (RClearLoad eg ei) mgr' vw r.
Proof using HS Hsim Hj HG.
  intros Hpc Ht H. destruct (thread_call _ _ Hpc) as (Hf & _). simpl in Hf.
  destruct k; try done. destruct Hf as [-> ->]. cbn [mstep] in H. mstep_inv H.
  apply load_relaxed_elem in Hload as [_ Hload].
  pose proof (goes_clear_top (m_popIndex mgr) (saw_pop at_ (th_view th)) z at_ value generation index poppedItems
    _ Hpc) as Hgo. rewrite set_pop_same in Hgo.
  apply Hgo; try done; [by exists 0; left|apply Hsim|split; [done|simpl; lia]|by right].
Qed.

Lemma run_clear_cell eg ei v k at_ mgr' vw r :
  th_pc th = Run (RClearCell eg ei v) k -> pop_timely ->
  mstep at_ mgr (th_view th) (RClearCell eg ei v) = Stepped (mgr', vw, r) ->
  goes_run k (RClearCell eg ei v) mgr' vw r.
Proof using HS Hsim Hj HG.
  intros Hpc Ht H. destruct (thread_call _ _ Hpc) as (Hf & Hval & (n & Hn & Hbelow) & _). simpl in Hf, Hval.
  destruct k; try done. destruct Hf as [-> ->].
  destruct (guard_cell _ _ _ _ _ Hpc) as (Heg & Hei & He & _).
  pose proof (safe_manager _ _ HS) as Hwf. pose proof (sim_placed _ _ _ Hsim) as Hpl.
  pose proof (pop_loaded_comb _ _ _ Hn) as ->. pose proof Hn as (Hn' & Hseen).
  destruct (pop_read _ _ Hpl _ _ _ Hn' Hseen Ht) as [Hle Hfar].
  cbn [mstep] in H. mstep_inv H. rewrite idx_of_comb in Hs by done.
  destruct (clear_cell_view _ _ Hwf Hpl _ _ _ _ _ _ _ HG Hle Hfar Hbelow ltac:(lia) Hs Hcell)
    as [(Hk & Hpos & -> & -> & ->)|(-> & [-> |(-> & Hlt)])].
  - unfold goes_run. rewrite Hk in *.
    destruct (head_object _ _ _ Hn Hk ltac:(lia) Hpos eq_refl Hs) as (w & Hw & Hv & Hnew).
    simpl. rewrite Hw. simpl.
    eapply (goes_reserve_pop _ _ _ _ w _ (owed f)); try done; try lia.
    + intros l Hl. destruct f. simpl in Hl. subst. apply fifo_labels_one, fifo_drop.
    + eexists. split; [apply list_elem_of_here|done].
    + exists n. split; [done|]. simpl. lia.
    + right. rewrite Hpc. split; [done|]. intros i' w' [= <- <-]. lia.
  - apply goes_silent; try done. right. by rewrite Hpc.
  - apply goes_silent; try done; [|right; by rewrite Hpc]. exists n. by split.
Qed.

Lemma run_clear_help eg ei v k at_ mgr' vw r :
  th_pc th = Run (RClearHelp eg ei v) k -> pop_timely ->
  mstep at_ mgr (th_view th) (RClearHelp eg ei v) = Stepped (mgr', vw, r) ->
  goes_run k (RClearHelp eg ei v) mgr' vw r.
Proof using HS Hsim Hj HG.
  intros Hpc Ht H. destruct (thread_call _ _ Hpc) as (Hf & _ & (n & Hn & Hlt) & _). simpl in Hf.
  destruct k; try done. destruct Hf as [-> ->]. cbn [mstep] in H. mstep_inv H.
  destruct (run_pop_advance _ _ _ _ Ht Hn Hlt Hcas) as (Hpl & Hpre & (k' & Hk' & _) & _).
  apply goes_clear_top with (k := k'); try done; [by eexists; right| |].
  - destruct Hk' as [Hk' _]. apply lookup_lt_Some in Hk'. simpl in *. unfold newest. lia.
  - left. destruct Hk' as [_ Hk']. simpl in Hk'. lia.
Qed.

Lemma run_clear_inc gen i v k at_ mgr' vw r :
  th_pc th = Run (RClearInc gen i v) k -> pop_timely ->
  mstep at_ mgr (th_view th) (RClearInc gen i v) = Stepped (mgr', vw, r) ->
  goes_run k (RClearInc gen i v) mgr' vw r.
Proof using HS Hsim Hj.
  intros Hpc Ht H. destruct (thread_call _ _ Hpc) as (Hf & Hval & (n & Hn & Hpos) & Ho). simpl in Hf.
  assert (gpos g i < gH g) as Hlt.
  { assert (mkClaim ES_Reading gen i true ∈ claims (th_pc th)) as Hcl by (rewrite Hpc; apply list_elem_of_here).
    destruct (claim_stage _ _ _ _ _ _ HS (sim_placed _ _ _ Hsim) Hj Hcl) as (Hst & _). simpl in Hst. lia. }
  cbn [mstep] in H. mstep_inv H.
  destruct (run_pop_advance _ _ _ _ Ht Hn ltac:(lia) Hcas) as (Hpl & Hpre & _ & Hnew).
  destruct k; try done. apply goes_pop_index; try done; [|right; by rewrite Hpc].
  unfold local_ok; simpl; lia.
Qed.

Lemma run_abort_load gen i k at_ mgr' vw r :
  th_pc th = Run (AbortLoad gen i) k ->
  mstep at_ mgr (th_view th) (AbortLoad gen i) = Stepped (mgr', vw, r) ->
  goes_run k (AbortLoad gen i) mgr' vw r.
Proof using HS Hsim Hj.
  intros Hpc H. destruct (thread_call _ _ Hpc) as (Hf & _ & (Hle & Hseen) & _). simpl in Hf.
  assert (mkClaim ES_Writing gen i false ∈ claims (th_pc th)) as Hcl by (rewrite Hpc; apply list_elem_of_here).
  destruct (claim_stage _ _ _ _ _ _ HS (sim_placed _ _ _ Hsim) Hj Hcl) as (Hst & _). simpl in Hst.
  destruct (pl_head _ _ (sim_placed _ _ _ Hsim)) as [_ Hhead].
  cbn [mstep] in H. mstep_inv H. apply load_relaxed_elem in Hload as [Hat Hload].
  destruct k; try done. apply goes_silent; try done; [|right; by rewrite Hpc].
  exists at_. split; [split; [done|simpl; lia]|]. apply lookup_lt_Some in Hload. unfold newest in Hhead. lia.
Qed.

(** The reservation that is given up is at the head by then. *)
Lemma run_abort_reading gen i v k at_ mgr' vw r :
  th_pc th = Run (AbortReading gen i v) k ->
  mstep at_ mgr (th_view th) (AbortReading gen i v) = Stepped (mgr', vw, r) ->
  goes_run k (AbortReading gen i v) mgr' vw r.
Proof using HS Hsim Hj.
  intros Hpc H. destruct (thread_call _ _ Hpc) as (Hf & _ & (n & Hn & Hpos) & _). simpl in Hf.
  assert (mkClaim ES_Writing gen i false ∈ claims (th_pc th)) as Hcl by (rewrite Hpc; apply list_elem_of_here).
  destruct (claim_stage _ _ _ _ _ _ HS (sim_placed _ _ _ Hsim) Hj Hcl) as (Hst & Hgen & Hidx). simpl in *.
  destruct (pl_head _ _ (sim_placed _ _ _ Hsim)) as [_ Hhead]. pose proof (pop_loaded_newest _ _ _ Hn).
  cbn [mstep] in H. mstep_inv H. destruct k; try done. simpl.
  assert (gpos g i = gH g) as E by lia.
  assert (value_at g f (gH g) value) as Hv.
  { rewrite <- E. eapply (sim_writes _ _ _ Hsim _ _ _ _ Hj). by rewrite Hpc. }
  eapply (goes_reserve_pop _ _ _ _ value _ (owed f)); try done; rewrite <- ?E; try done; try lia.
  - intros l Hl. destruct f. simpl in Hl. subst. apply fifo_labels_one, fifo_drop.
  - eexists. split; [apply list_elem_of_here|done].
  - exists n. split; [done|]. simpl. lia.
  - by left.
Qed.

Lemma run_abort_inc gen i v k at_ mgr' vw r :
  th_pc th = Run (AbortInc gen i v) k -> pop_timely ->
  mstep at_ mgr (th_view th) (AbortInc gen i v) = Stepped (mgr', vw, r) ->
  goes_run k (AbortInc gen i v) mgr' vw r.
Proof using HS Hsim Hj.
  intros Hpc Ht H. destruct (thread_call _ _ Hpc) as (Hf & Hval & (n & Hn & Hpos) & Ho). simpl in Hf.
  assert (gpos g i < gH g) as Hlt.
  { assert (mkClaim ES_Reading gen i false ∈ claims (th_pc th)) as Hcl by (rewrite Hpc; apply list_elem_of_here).
    destruct (claim_stage _ _ _ _ _ _ HS (sim_placed _ _ _ Hsim) Hj Hcl) as (Hst & _). simpl in Hst. lia. }
  cbn [mstep] in H. mstep_inv H.
  destruct (run_pop_advance _ _ _ _ Ht Hn ltac:(lia) Hcas) as (Hpl & Hpre & _ & Hnew).
  destruct k; try done. apply goes_pop_index; try done; [|by left]. unfold local_ok; simpl; lia.
Qed.

Lemma run_abort_empty gen i k at_ mgr' vw r :
  th_pc th = Run (AbortEmpty gen i) k ->
  mstep at_ mgr (th_view th) (AbortEmpty gen i) = Stepped (mgr', vw, r) ->
  goes_run k (AbortEmpty gen i) mgr' vw r.
Proof using HS Hsim Hj.
  intros Hpc H. destruct (thread_call _ _ Hpc) as (Hf & _ & Hnew & Ho). simpl in Hf, Hnew.
  cbn [mstep] in H. mstep_inv H.
  assert (mkClaim ES_Reading gen i false ∈ claims (th_pc th)) as Hcl
    by (rewrite Hpc; apply list_elem_of_here).
  destruct k; try done; simpl. unfold notify_pushers.
  destruct (_ <=? _); simpl; apply goes_commit_pop; try done; try (by left).
  - right. exists RetThrow. split; [done|]. intros [].
  - by intros _ [].
Qed.

(** Setting and clearing the disabled flag. *)
Lemma run_flag v d again k (vw : View) A' o m :
  th_pc th = Run m k -> (m = DisableSet v /\ k = KDisable /\ again = DisableLoad)
    \/ (m = EnableSet v /\ k = KEnable /\ again = EnableLoad) ->
  (latest (m_pushIndex mgr) = v -> discardDisabledFlag d = discardDisabledFlag v /\ push_val mgr d) ->
  compare_exchange (m_pushIndex mgr) v d = (A', o) ->
  goes_run k m (set_push mgr A') vw (if latest (m_pushIndex mgr) =? v then inr Nothing else inl again).
Proof using HS Hsim Hj.
  intros Hpc Hm Hd Hcas.
  destruct (placed_flag _ _ (safe_manager _ _ HS) (sim_placed _ _ _ Hsim) _ _ _ _ Hd Hcas)
    as (push' & Hpl & H1 & H2).
  assert (forall pc ls o', quiet ls = true -> fifo_labels (capacity q) j f ls (mkFifo (contents f) o') ->
    (forall k, k <> j -> o' !! k = owed f !! k) ->
    pc = Idle \/ pc = DisablePushers \/ pc = Run again k ->
    goes (set_manager q (set_push mgr A')) (mkThread vw pc) ls) as Hgo.
  { intros pc ls o' Hq Hls Ho Hcase. apply (goes_quiet _ _ _ o' push'); try done;
      destruct Hcase as [-> |[-> | ->]]; try done; try (by left);
      destruct Hm as [(-> & -> & ->)|(-> & -> & ->)]; try done; by left. }
  unfold goes_run. destruct (_ =? _); destruct Hm as [(-> & -> & ->)|(-> & -> & ->)]; simpl.
  - apply (Hgo _ _ (owed f)); [done|apply fifo_labels_same|done|auto].
  - apply (Hgo _ _ (delete j (owed f))); [done|by apply fifo_labels_one, fifo_ret| |auto].
    intros. by rewrite lookup_delete_ne.
  - apply (Hgo _ _ (owed f)); [done|apply fifo_labels_same|done|auto].
  - apply (Hgo _ _ (owed f)); [done|apply fifo_labels_same|done|auto].
Qed.

Lemma run_disable_set v k at_ mgr' vw r :
  th_pc th = Run (DisableSet v) k ->
  mstep at_ mgr (th_view th) (DisableSet v) = Stepped (mgr', vw, r) ->
  goes_run k (DisableSet v) mgr' vw r.
Proof using HS Hsim Hj.
  intros Hpc H. destruct (thread_call _ _ Hpc) as (Hf & Hval & _). simpl in Hf, Hval.
  pose proof (safe_manager _ _ HS) as Hwf. pose proof (pop_val_bound _ Hwf _ Hval) as Hb.
  cbn [mstep] in H. mstep_inv H. destruct k; try done.
  eapply (run_flag _ (Z.lor v DISABLED_STATE_MASK) _ _ _ _ _ _ Hpc); [by left| |done]. intros _.
  split; [|by apply push_val_set]. change DISABLED_STATE_MASK with (2 ^ 31).
  by rewrite lor_pow2_small, discard_flag, discard_small by lia.
Qed.

Lemma run_enable_set v k at_ mgr' vw r :
  th_pc th = Run (EnableSet v) k ->
  mstep at_ mgr (th_view th) (EnableSet v) = Stepped (mgr', vw, r) ->
  goes_run k (EnableSet v) mgr' vw r.
Proof using HS Hsim Hj.
  intros Hpc H. destruct (thread_call _ _ Hpc) as (Hf & Hval & _). simpl in Hf, Hval.
  pose proof (safe_manager _ _ HS) as Hwf. pose proof (push_val_discard _ Hwf _ Hval) as Hd.
  cbn [mstep] in H. mstep_inv H. destruct k; try done.
  eapply (run_flag _ (discardDisabledFlag v) _ _ _ _ _ _ Hpc); [by right| |done]. intros _.
  split; [|by apply pop_val_push]. by rewrite discard_small by (by eapply pop_val_bound).
Qed.

(** Operations that only read. *)
Definition reads (m : MPc) : bool :=
  match m with DisableLoad | EnableLoad | SizePush | SizePop _ | EnabledLoad => true | _ => false end.

Lemma goes_stop vw r : ~ answers r -> goes (set_manager q mgr) (mkThread vw Idle) [LRet r].
Proof using HS Hsim Hj. intros Hr. by apply (goes_return _ _ [] (owed f)); [done|apply fifo_labels_same|..]. Qed.

Lemma run_reads m k at_ mgr' vw r :
  th_pc th = Run m k -> reads m = true ->
  mstep at_ mgr (th_view th) m = Stepped (mgr', vw, r) -> goes_run k m mgr' vw r.
Proof using HS Hsim Hj.
  intros Hpc Hm H. destruct (thread_call _ _ Hpc) as (Hf & _).
  destruct m; try done; simpl in Hf; destruct k; try done; cbn [mstep] in H; mstep_inv H;
    unfold goes_run; simpl; unfold removeAll_loop, is_full, is_empty;
    repeat (match goal with |- context [if ?b then _ else _] => destruct b end; simpl);
    try (apply goes_stop; intros []); try (by apply goes_silent; try done; left).
  all: apply goes_silent; try done; [|by left]; unfold local_ok; simpl;
    destruct (push_loaded_at (newest (m_pushIndex mgr)) (latest (m_pushIndex mgr))) as (a & Ha);
    [apply latest_lookup, (push_nonempty _ _ (sim_placed _ _ _ Hsim))|by exists a].
Qed.

Lemma timely_run choice m k :
  timely c j (Go choice) = true -> th_pc th = Run m k ->
  (holds_push m = true -> push_timely) /\ (holds_pop m = true -> pop_timely)
  /\ (forall eg ei, m = RClearLoad eg ei ->
        Z.of_nat (newest (m_popIndex mgr)) <= Z.of_nat choice + window mgr).
Proof using Hj.
  unfold timely, push_timely, pop_timely. rewrite Hj. intros Ht Hpc. rewrite Hpc in Ht.
  destruct m; simpl in Ht; split_and!; intros; try done; simplify_eq; lia.
Qed.

Lemma run_goes choice m k mgr' vw r :
  timely c j (Go choice) = true -> th_pc th = Run m k ->
  mstep choice mgr (th_view th) m = Stepped (mgr', vw, r) -> goes_run k m mgr' vw r.
Proof using HS Hsim Hj HG.
  intros Ht Hpc H. destruct (timely_run _ _ _ Ht Hpc) as (Hpush & Hpop & Hclear).
  destruct m; try (by eapply run_reads); simpl in Hpush, Hpop.
  - by eapply run_push_load.
  - by eapply run_push_cell; eauto.
  - by eapply run_push_help; eauto.
  - by eapply run_push_inc; eauto.
  - destruct (thread_call _ _ Hpc) as (Hf & _). simpl in Hf. destruct k; try done.
    cbn [mstep] in H. mstep_inv H. by apply goes_commit_push.
  - eapply run_pop_read; eauto.
  - eapply run_pop_read; eauto.
  - by eapply run_pop_cell; eauto.
  - by eapply run_pop_help; eauto.
  - by eapply run_pop_inc; eauto.
  - by eapply run_commit_pop.
  - by eapply run_disable_set.
  - by eapply run_enable_set.
  - by eapply run_clear_load; eauto.
  - by eapply run_clear_cell; eauto.
  - by eapply run_clear_help; eauto.
  - by eapply run_clear_inc; eauto.
  - by eapply run_abort_load.
  - by eapply run_abort_reading.
  - by eapply run_abort_inc; eauto.
  - by eapply run_abort_empty.
Qed.

(** ** Sizes and assertions *)
Lemma pop_room : gT g <= Z.of_nat (newest (m_popIndex mgr)) + m_capacity mgr.
Proof using HS Hsim.
  pose proof (sim_placed _ _ _ Hsim) as Hpl. pose proof (safe_manager _ _ HS) as Hwf.
  destruct (pl_head _ _ Hpl) as [_ Hhead]. destruct (pl_order _ _ Hpl).
  destruct (decide (Z.of_nat (newest (m_popIndex mgr)) = gH g - 1)) as [E|]; [|lia].
  pose proof (pl_lag _ _ Hpl E) as Hpos.
  destruct (pl_cells _ _ Hpl (pidx mgr (gH g - 1)) (pidx_range _ Hwf _)) as (s & _ & _ & Hst).
  rewrite Hpos in Hst. destruct s; simpl in Hst; lia.
Qed.

Lemma window_half : 2 * (window mgr + 2) + 2 * m_capacity mgr < gens mgr * m_capacity mgr.
Proof using HS HG.
  pose proof (wf_bounds _ (safe_manager _ _ HS)) as (? & ? & ?). unfold window.
  pose proof (Z.div_mod (gens mgr - 3) 2). pose proof (Z.mod_pos_bound (gens mgr - 3) 2).
  assert (2 * ((gens mgr - 3) / 2) * m_capacity mgr <= (gens mgr - 3) * m_capacity mgr)
    by (apply Z.mul_le_mono_nonneg_r; lia). lia.
Qed.

(** The two indices [size] has loaded. *)
Lemma size_loaded v a :
  push_timely -> push_loaded mgr g (th_view th) v a ->
  exists flag : bool, v = comb mgr a + (if flag then 2 ^ 31 else 0)
  /\ latest (m_popIndex mgr) = comb mgr (Z.of_nat (newest (m_popIndex mgr)))
  /\ a - Z.of_nat (newest (m_popIndex mgr)) <= m_capacity mgr
  /\ 2 * (Z.of_nat (newest (m_popIndex mgr)) - a) < gens mgr * m_capacity mgr - 1.
Proof using HS Hsim HG.
  intros Ht (n & Hn & Hv & Hseen). pose proof (sim_placed _ _ _ Hsim) as Hpl.
  destruct (push_read _ _ Hpl _ _ _ Hn Hseen Ht) as [Hle Hfar].
  destruct (pl_push _ _ Hpl _ _ _ Hn Hv) as [flag Hflag]. exists flag. split; [done|].
  destruct (pl_head _ _ Hpl) as [Hlen Hhead]. destruct (pl_order _ _ Hpl).
  pose proof pop_room. pose proof window_half. pose proof (wf_bounds _ (safe_manager _ _ HS)).
  split_and!; [|lia..]. apply (pl_pop _ _ Hpl). by apply latest_lookup.
Qed.

(** [size] is the distance of the indices it has loaded. *)
Lemma size_view v a :
  push_timely -> push_loaded mgr g (th_view th) v a ->
  size_of mgr v (latest (m_popIndex mgr)) = Z.max 0 (a - Z.of_nat (newest (m_popIndex mgr))).
Proof using HS Hsim HG.
  intros Ht Ha. destruct (size_loaded _ _ Ht Ha) as (flag & -> & -> & H1 & H2).
  apply size_of_spec; [apply (safe_manager _ _ HS)|lia|done|done].
Qed.

Lemma claim_is cl :
  cl ∈ claims (th_pc th) -> cell_is mgr (cl_gen cl) (cl_idx cl) (cl_state cl) = true.
Proof using HS Hj.
  intros Hin. destruct (safe_threads _ _ HS _ _ Hj) as (_ & Hok & _). rewrite Forall_forall in Hok.
  eapply claim_cell_is; [done|by apply Hok].
Qed.

(** The assertions on a cell that is tried. *)
Lemma push_asserts_hold saved v a :
  push_timely -> push_loaded mgr g (th_view th) v a -> pop_val mgr v ->
  masserts mgr (RPushCell saved v) = true.
Proof using HS Hsim Hj HG.
  intros Ht Ha Hval. pose proof (safe_manager _ _ HS) as Hwf. pose proof (sim_placed _ _ _ Hsim) as Hpl.
  pose proof (push_loaded_comb _ _ _ Ha Hval) as ->. destruct Ha as (n & Hn & _ & Hseen).
  destruct (push_read _ _ Hpl _ _ _ Hn Hseen Ht) as [Hle Hfar]. simpl.
  rewrite discard_small, idx_of_comb by (done || by apply comb_bound).
  destruct (m_states mgr !! _) as [s|] eqn:Hs; [|done].
  destruct (push_cell mgr saved (comb mgr a) s) as [q' r] eqn:Hcell.
  by destruct (push_cell_view _ _ Hwf Hpl _ _ _ _ _ HG Hle Hfar Hs Hcell) as [? _].
Qed.

Lemma pop_asserts_hold saved v n :
  pop_timely -> pop_loaded mgr (th_view th) v n -> masserts mgr (RPopCell saved v) = true.
Proof using HS Hsim Hj HG.
  intros Ht Hn. pose proof (safe_manager _ _ HS) as Hwf. pose proof (sim_placed _ _ _ Hsim) as Hpl.
  pose proof (pop_loaded_comb _ _ _ Hn) as ->. destruct Hn as (Hn & Hseen).
  destruct (pop_read _ _ Hpl _ _ _ Hn Hseen Ht) as [Hle Hfar]. simpl. rewrite idx_of_comb by done.
  destruct (m_states mgr !! _) as [s|] eqn:Hs; [|done].
  destruct (pop_cell mgr saved (comb mgr (Z.of_nat n)) s) as [q' r] eqn:Hcell.
  by destruct (pop_cell_view _ _ Hwf Hpl _ _ _ _ _ HG Hle Hfar Hs Hcell) as [? _].
Qed.

(** The arguments of a clearing guard are the cell of its push, so that the
    difference at the head of the loop has its preconditions. *)
Lemma clear_end m value gen i popped :
  th_pc th = Run m (KGuard value gen i popped) ->
  clear_arguments mgr gen i = true
  /\ u32 (gen * u32 (m_capacity mgr) + i) = comb mgr (gpos g i)
  /\ u32 (m_maxCombinedIndex mgr + 1) = gens mgr * m_capacity mgr.
Proof using HS Hsim Hj.
  intros Hpc. pose proof (safe_manager _ _ HS) as Hwf.
  destruct (guard_cell _ _ _ _ _ Hpc) as (Heg & Hei & _). pose proof (wf_bounds _ Hwf) as (? & ? & ?).
  pose proof (pgen_range _ Hwf (gpos g i)) as Hpg. pose proof (pidx_range _ Hwf (gpos g i)) as Hpi.
  pose proof (comb_range _ Hwf (gpos g i)) as Hc1. rewrite <- Heg in Hpg. rewrite <- Hei in Hpi.
  unfold clear_arguments. rewrite maxGeneration_gens, maxCombined_gens by done. split_and!; [lia| |].
  - rewrite (u32_small (m_capacity mgr)) by lia. rewrite Heg at 1. rewrite Hei at 2.
    rewrite <- comb_split by done. apply u32_small. lia.
  - rewrite u32_small; lia.
Qed.

Lemma clear_top_holds m value gen i popped v :
  th_pc th = Run m (KGuard value gen i popped) -> pop_val mgr v -> clear_top_ok mgr gen i v = true.
Proof using HS Hsim Hj.
  intros Hpc Hv. pose proof (safe_manager _ _ HS) as Hwf. destruct (clear_end _ _ _ _ _ Hpc) as (_ & E1 & E2).
  unfold clear_top_ok, circular_ok. rewrite E1, E2. pose proof (wf_bounds _ Hwf) as (? & ? & ?).
  pose proof (comb_range _ Hwf (gpos g i)). unfold pop_val in Hv. lia.
Qed.

(** The end of a clearing guard is ahead of the index it has loaded. *)
Lemma clear_asserts_hold gen i v value popped n :
  th_pc th = Run (RClearCell gen i v) (KGuard value gen i popped) ->
  pop_timely -> pop_loaded mgr (th_view th) v n -> Z.of_nat n < gpos g i ->
  masserts mgr (RClearCell gen i v) = true.
Proof using HS Hsim Hj HG.
  intros Hpc Ht Hn Hlt. pose proof (safe_manager _ _ HS) as Hwf. pose proof (sim_placed _ _ _ Hsim) as Hpl.
  destruct (guard_cell _ _ _ _ _ Hpc) as (_ & _ & He & _). destruct (clear_end _ _ _ _ _ Hpc) as (E0 & E1 & E2).
  pose proof (pop_loaded_comb _ _ _ Hn) as ->. destruct Hn as (Hn & Hseen).
  destruct (pop_read _ _ Hpl _ _ _ Hn Hseen Ht) as [Hle Hfar].
  pose proof (wf_bounds _ Hwf) as (? & ? & ?). pose proof window_half. destruct (pl_order _ _ Hpl).
  pose proof (comb_range _ Hwf (gpos g i)) as Hc1. pose proof (comb_range _ Hwf (Z.of_nat n)) as Hc2.
  simpl. rewrite E0, E1, E2. simpl.
  unfold circular. rewrite circular_combined by (done || lia). unfold circular_ok. lia.
Qed.

Lemma clear_load_asserts gen i value popped :
  th_pc th = Run (RClearLoad gen i) (KGuard value gen i popped) -> masserts mgr (RClearLoad gen i) = true.
Proof using HS Hsim Hj.
  intros Hpc. simpl. rewrite (proj1 (clear_end _ _ _ _ _ Hpc)). simpl. apply forallb_forall.
  intros v Hv. destruct (safe_vals _ _ HS) as [_ Hp]. rewrite Forall_forall in Hp.
  eapply clear_top_holds; [done|]. apply Hp. by apply list_elem_of_In.
Qed.

Lemma clear_help_asserts gen i v value popped :
  th_pc th = Run (RClearHelp gen i v) (KGuard value gen i popped) -> pop_val mgr v ->
  masserts mgr (RClearHelp gen i v) = true.
Proof using HS Hsim Hj.
  intros Hpc Hv. simpl. eapply clear_top_holds; [done|].
  unfold compare_exchange. destruct (_ =? _); simpl; [done|].
  destruct (safe_vals _ _ HS) as [_ Hp]. apply (latest_ok (pop_val mgr)); [done|]. apply pop_val_0, (safe_manager _ _ HS).
Qed.

(** A reservation is given up at the head. *)
Lemma abort_asserts_hold gen i v k n :
  th_pc th = Run (AbortReading gen i v) k ->
  pop_loaded mgr (th_view th) v n -> gpos g i = Z.of_nat n -> masserts mgr (AbortReading gen i v) = true.
Proof using HS Hsim Hj.
  intros Hpc Hn Hpos. pose proof (safe_manager _ _ HS) as Hwf. pose proof (sim_placed _ _ _ Hsim) as Hpl.
  pose proof (pop_loaded_comb _ _ _ Hn) as ->.
  assert (mkClaim ES_Writing gen i false ∈ claims (th_pc th)) as Hin by (rewrite Hpc; apply list_elem_of_here).
  destruct (claim_stage _ _ _ _ _ _ HS Hpl Hj Hin) as (_ & Hgen & Hidx). simpl in Hgen, Hidx.
  pose proof (claim_is _ Hin) as Hcell. simpl in Hcell. simpl. rewrite Hcell.
  rewrite Hpos in Hgen, Hidx. pose proof (wf_bounds _ Hwf) as (? & ? & ?).
  pose proof (comb_range _ Hwf (Z.of_nat n)).
  rewrite <- (gen_of_comb _ Hwf) in Hgen. rewrite <- (idx_of_comb _ Hwf) in Hidx.
  pose proof (comb_split _ Hwf (Z.of_nat n)) as Hsplit.
  rewrite <- (gen_of_comb _ Hwf), <- (idx_of_comb _ Hwf), <- Hgen, Hidx in Hsplit.
  rewrite <- Hsplit, u32_small by lia. rewrite Z.eqb_refl. simpl. rewrite Hsplit.
  assert (0 <= i < m_capacity mgr) by (rewrite <- Hidx, idx_of_comb by done; by apply pidx_range).
  rewrite Z.add_comm, Z.div_add, Z.mod_add, Z.div_small, Z.mod_small by lia. lia.
Qed.

Lemma asserts_hold choice m k :
  timely c j (Go choice) = true -> th_pc th = Run m k -> masserts mgr m = true.
Proof using HS Hsim Hj HG.
  intros Ht Hpc. destruct (timely_run _ _ _ Ht Hpc) as (Hpush & Hpop & _).
  destruct (thread_call _ _ Hpc) as (Hf & Hval & Hcall & _).
  destruct m; try done; simpl in Hval, Hcall, Hpush, Hpop.
  - destruct Hcall as (a & Ha). by eapply push_asserts_hold; [apply Hpush|..].
  - apply (claim_is (mkClaim ES_Writing generation index true)). rewrite Hpc. apply list_elem_of_here.
  - destruct Hcall as (n & Hn). by eapply pop_asserts_hold; [apply Hpop|].
  - apply (claim_is (mkClaim ES_Reading generation index false)). rewrite Hpc. apply list_elem_of_here.
  - simpl in Hf. destruct k; try done. destruct Hf as [-> ->]. by eapply clear_load_asserts.
  - simpl in Hf. destruct k; try done. destruct Hf as [-> ->]. destruct Hcall as (n & Hn & Hlt).
    by eapply clear_asserts_hold; [|apply Hpop|..].
  - simpl in Hf. destruct k; try done. destruct Hf as [-> ->]. by eapply clear_help_asserts.
  - destruct Hcall as (n & Hn & Hpos). by eapply abort_asserts_hold.
  - destruct Hcall as (a & Ha). simpl.
    destruct (size_loaded _ _ (Hpush eq_refl) Ha) as (flag & -> & -> & H1 & H2).
    apply size_asserts_spec; try done; [apply (safe_manager _ _ HS)|lia].
Qed.

(** ** Steps of the queue *)
Lemma goes_answer q' vw r :
  m_data q' = m_data q -> m_manager q' = mgr -> (answers r -> owed f !! j = Some r) ->
  goes q' (mkThread vw Idle) [LRet r].
Proof using HS Hsim Hj. intros. by apply (goes_return _ _ [] (owed f)); [done|apply fifo_labels_same|..]. Qed.

Lemma goes_notify q' vw n r :
  m_data q' = m_data q -> m_manager q' = mgr -> (answers r -> owed f !! j = Some r) ->
  goes q' (mkThread vw (notify_pushers n r).1) (notify_pushers n r).2.
Proof using HS Hsim Hj.
  intros. unfold notify_pushers. destruct (_ <=? _); simpl; [by apply goes_answer|].
  apply goes_silent; try done. by left.
Qed.

Lemma qstep_goes choice q' th' ls :
  timely c j (Go choice) = true -> qstep choice q th = Stepped (q', th', ls) -> goes q' th' ls.
Proof using HS Hsim Hj HG.
  intros Ht H. unfold qstep in H.
  pose proof (sim_owes _ _ _ Hsim _ _ Hj) as Ho. pose proof (sim_local _ _ _ Hsim _ _ Hj) as Hl.
  unfold local_ok in Hl.
  destruct (th_pc th) eqn:Hpc; simpl in Hl, Ho.
  2: { destruct (mstep _ _ _ _) as [| |[[mgr' vw] r]] eqn:Hm; [done..|].
    pose proof (run_goes _ _ _ _ _ _ Ht Hpc Hm) as Hgo.
    destruct r as [m'|res]; [by simplify_eq/=|]. unfold goes_run in Hgo.
    destruct (resume q k res) as [pc rs]. by simplify_eq/=. }
  all: clear Ht; try (destruct (destroy _ _) as [| |q''] eqn:Hd; [done..|]; apply destroy_step in Hd as ->).
  all: simpl in H; try (destruct (load_relaxed _ _ _); [|done]).
  all: try (match type of H with context [Nat.eqb ?x ?y] => destruct (Nat.eqb x y) end).
  all: try (destruct (m_data q !! Z.to_nat index) eqn:Hcell; [|done]).
  all: try (destruct (0 <? _); simpl in H).
  all: try (destruct mode; destruct choice; try done; simpl in H).
  all: try (destruct (object_at q index) as [w|] eqn:Hobj; [|done]).
  all: simplify_eq/=.
  all: try (by apply goes_notify; simpl; try done; intros []).
  all: try (by apply goes_notify).
  all: try (by apply goes_answer; simpl; try done).
  all: try (by apply goes_silent; try done; left).
  - apply (goes_data (mkClaim ES_Writing generation index false) (Some value)); try done.
    + rewrite Hpc. apply list_elem_of_here.
    + by left.
    + intros v [= <-]. eapply (sim_writes _ _ _ Hsim _ _ _ _ Hj). by rewrite Hpc.
  - apply goes_silent; try done. right. by rewrite Hpc.
  - apply goes_silent; try done; [|by left]. destruct Ho as (w' & Hw' & Ho). intros _. congruence.
  - apply goes_silent; try done; [|by left]. by intros [].
  - apply (goes_data (mkClaim ES_Reading generation index true) None); try done; [|by left].
    rewrite Hpc. apply list_elem_of_here.
  - apply (goes_data (mkClaim ES_Reading generation index true) None); try done; [|by left].
    rewrite Hpc. apply list_elem_of_here.
  - apply (goes_data (mkClaim ES_Reading generation index true) None); try done; [|by right; rewrite Hpc].
    rewrite Hpc. apply list_elem_of_here.
Qed.

End Step.

(** ** Every step of the concurrent queue is a step of the abstract one *)
Lemma sim_perform owner g c f i a c' ls :
  5 <= gens (m_manager (queue c)) ->
  Safe owner c -> Sim g c f -> timely c i a = true -> perform c i a = Stepped (c', ls) ->
  exists g' f', fifo_labels (capacity (queue c)) i f ls f' /\ Sim g' c' f'
  /\ (forall th', threads c' !! i = Some th' ->
        tracks (m_manager (queue c)) (m_manager (queue c')) g g' ls (th_pc th')).
Proof.
  intros HG HS Hsim Ht H. destruct (safe_perform _ _ _ _ _ _ HS H) as (owner' & HS').
  assert (exists th q' th', threads c !! i = Some th /\ c' = mkConfig q' (<[i := th']> (threads c))
    /\ goes g c f i q' th' ls) as (th & q' & th' & Hi & -> & Hgo).
  { unfold perform in H. destruct (threads c !! i) as [th|] eqn:Hi; [|done].
    destruct a as [op|choice].
    - destruct (th_pc th) eqn:Hpc; simplify_eq/=. eexists _, _, _. split; [done|]. split; [done|].
      eapply (goes_load owner g c f i th HS Hsim Hi) with (o' := delete i (owed f)); try done.
      + apply fifo_labels_one, fifo_call.
      + intros k Hk. by rewrite lookup_delete_ne.
      + by destruct op.
      + by destruct op.
      + left. by destruct op.
    - destruct (qstep _ _ _) as [| |[[q' th'] ls']] eqn:Hq; simplify_eq/=.
      eexists _, _, _. split; [done|]. split; [done|].
      by eapply (qstep_goes owner g c f i th HS Hsim Hi HG). }
  destruct (Hgo _ HS') as (g' & f' & Hls & Hsim' & Htr). exists g', f'. split_and!; try done.
  intros th2. simpl. rewrite (insert_self c i th Hi). by intros [= <-].
Qed.

Lemma sim_init cap n c :
  init cap n = Some c -> Sim (mkGhost 0 0 (fun i => i) [0]) c (mkFifo [] ∅) /\ capacity (queue c) = cap.
Proof.
  intros H. pose proof (safe_init _ _ _ H) as HS. pose proof (safe_manager _ _ HS) as Hwf.
  pose proof (wf_bounds _ Hwf) as (Hb1 & Hb2 & Hb3).
  unfold init, Queue_new in H. destruct (QueueManager_new cap) as [m|] eqn:Hm; [|done]. simplify_eq/=.
  unfold QueueManager_new in Hm. destruct (_ && _) eqn:E; [|done]. injection Hm as Hm.
  assert (m_capacity m = cap /\ m_states m = replicate (Z.to_nat cap) 0 /\ m_popIndex m = [0]
    /\ m_pushIndex m = [0]) as (Ec & Es & Epop & Epush) by (by rewrite <- Hm). clear Hm E.
  split; [|done]. split; simpl; try done.
  - split; simpl; rewrite ?Epop, ?Epush; try done.
    + lia.
    + intros i Hi. exists ES_Empty. assert (pgen m i = 0) as ->.
      { unfold pgen. rewrite Z.div_small by lia. apply Z.mod_small. lia. }
      split_and!; [|unfold pidx; by apply Z.mod_small|simpl; lia..].
      rewrite Es. apply lookup_replicate. split; [done|lia].
    + intros k v. rewrite list_lookup_singleton_Some. intros [-> <-]. unfold comb. by rewrite Z.mod_0_l by lia.
    + unfold newest. simpl. lia.
    + intros k a v. rewrite !list_lookup_singleton_Some. intros [-> <-] [_ <-]. exists false.
      unfold comb. by rewrite Z.mod_0_l by lia.
    + exists 0. split; [done|lia].
  - intros j th Hj. apply lookup_replicate in Hj as [-> _]. done.
  - intros i v Hi Hp. lia.
  - intros j th i v Hj. apply lookup_replicate in Hj as [-> _]. done.
  - intros j th Hj. apply lookup_replicate in Hj as [-> _]. done.
Qed.

Lemma perform_capacity c i a c' ls :
  perform c i a = Stepped (c', ls) -> capacity (queue c') = capacity (queue c).
Proof.
  intros H. unfold perform in H. destruct (threads c !! i) as [th|]; [|done].
  destruct a as [op|choice]; [by destruct (th_pc th); simplify_eq/=|].
  destruct (qstep choice (queue c) th) as [| |[[q' th'] ls']] eqn:Hq; simplify_eq/=.
  unfold qstep in Hq. destruct (th_pc th); simpl in Hq.
  2: { destruct (mstep _ _ _ _) as [| |[[m' vw] r]] eqn:Hm; [done..|].
    apply mstep_params in Hm as (Hc & _). unfold capacity.
    destruct r; [by simplify_eq/=|]. destruct (resume _ _ _). by simplify_eq/=. }
  all: try (destruct (destroy _ _) as [| |q''] eqn:Hd; [done..|]; apply destroy_step in Hd as ->).
  all: repeat case_match; simplify_eq/=; done.
Qed.

Lemma sim_reaches cap n c0 tr c :
  init cap n = Some c0 -> 5 <= numGenerations cap -> reaches timely c0 tr c ->
  exists owner g f, Safe owner c /\ Sim g c f /\ capacity (queue c) = cap
  /\ 5 <= gens (m_manager (queue c)) /\ fifo_trace cap (mkFifo [] ∅) tr f.
Proof.
  intros Hi HG Hr. assert (forall owner c, Safe owner c -> capacity (queue c) = cap ->
    5 <= gens (m_manager (queue c))) as Hgens.
  { intros owner c1 HS Hc. destruct (safe_manager _ _ HS) as (_ & Hg & _).
    unfold gens. unfold capacity in Hc. by rewrite Hg, Hc. }
  induction Hr as [|tr c i a c' ls Hr (owner & g & f & HS & Hsim & Hcap & Hgen & Htr) Ht Hp].
  - destruct (sim_init _ _ _ Hi) as [Hsim Hcap]. pose proof (safe_init _ _ _ Hi) as HS.
    eexists _, _, _. split_and!; try done; [by eapply Hgens|constructor].
  - destruct (safe_perform _ _ _ _ _ _ HS Hp) as (owner' & HS').
    destruct (sim_perform _ _ _ _ _ _ _ _ Hgen HS Hsim Ht Hp) as (g' & f' & Hls & Hsim' & _).
    pose proof (perform_capacity _ _ _ _ _ Hp) as Hcap'. rewrite Hcap in Hcap'.
    exists owner', g', f'. split_and!; try done; [by eapply Hgens|].
    econstructor; [done|]. by rewrite <- Hcap.
Qed.

(** When no thread is inside an operation the buffer holds the contents, from
    the cell of the head on. *)
Lemma quiet_contents owner g c f (k : nat) :
  Safe owner c -> Sim g c f -> Forall (fun th => th_pc th = Idle) (threads c) ->
  Z.of_nat k < capacity (queue c) ->
  object_at (queue c) ((gH g + Z.of_nat k) mod capacity (queue c)) = contents f !! k.
Proof.
  intros HS Hsim Hidle Hk. pose proof (safe_manager _ _ HS) as Hwf. pose proof (sim_placed _ _ _ Hsim) as Hpl.
  pose proof (wf_bounds _ Hwf) as (Hb & _). pose proof (sim_length _ _ _ Hsim) as Hlen.
  destruct (pl_order _ _ Hpl) as [Hord Hcap].
  set (p := gH g + Z.of_nat k). change (p mod capacity (queue c)) with (pidx (m_manager (queue c)) p).
  set (i := pidx (m_manager (queue c)) p).
  assert (in_range (queue c) i) as Hi by (apply pidx_range; done).
  destruct (quiet_cells _ _ _ HS Hidle Hi) as (s & Hs & Hcase).
  destruct (pl_cells _ _ Hpl i Hi) as (st & Hst & Hidx & Hstage). unfold state_at in Hs.
  rewrite Hs in Hst. injection Hst as ->. rewrite decode_encode_state in Hcase by (by apply pgen_bound).
  destruct (same_cell _ Hwf p (gpos g i)) as (d & Hd & _); [by rewrite Hidx|]. unfold capacity in *.
  destruct Hcase as [[-> (v & Hv)]|[-> Hv]]; simpl in Hstage.
  - assert (d = 0) as -> by nia. rewrite Z.mul_0_l, Z.add_0_r in Hd.
    pose proof (sim_objects _ _ _ Hsim i v Hi ltac:(lia) Hv) as Hval. unfold value_at in Hval.
    rewrite Hv, <- Hval. f_equal. lia.
  - rewrite Hv. symmetry. apply lookup_ge_None.
    assert (d < 1) by (subst p; nia). assert (-1 < d) by (subst p; nia). assert (d = 0) as -> by lia. lia.
Qed.

(** C34. The lock-free queue is a linearizable bounded queue.  In every execution
    of any number of threads in which no thread sleeps through half of the
    generations of the indices, the accesses that decide the operations form a
    history of a first-in first-out queue of at most [capacity] elements: a
    value enters at the tail when there is room and leaves at the head, a push
    finds the queue full and a pop finds it empty only when it is, every answer
    is the one decided between the call and the return, and an element
    constructor that throws drops the reserved position at the head.  Once no
    thread is inside an operation, the cells hold the contents in order. *)
Theorem queue_linearizable cap n (c0 : Config A) tr c :
  init cap n = Some c0 -> 5 <= numGenerations cap -> reaches timely c0 tr c ->
  exists f, fifo_trace cap (mkFifo [] ∅) tr f
  /\ Z.of_nat (length (contents f)) <= cap
  /\ (Forall (fun th => th_pc th = Idle) (threads c) ->
      exists head, forall k : nat, Z.of_nat k < cap ->
        object_at (queue c) ((head + Z.of_nat k) mod cap) = contents f !! k).
Proof.
  intros Hi HG Hr. destruct (sim_reaches _ _ _ _ _ Hi HG Hr) as (owner & g & f & HS & Hsim & Hcap & _ & Htr).
  exists f. split_and!; [done| |].
  - rewrite (sim_length _ _ _ Hsim), <- Hcap. destruct (pl_order _ _ (sim_placed _ _ _ Hsim)).
    unfold capacity. lia.
  - intros Hidle. exists (gH g). intros k Hk. rewrite <- Hcap in *. by eapply quiet_contents.
Qed.

(** C37. No assertion of the index manager fails, under the same conditions: what
    a thread finds in a cell is never a generation ahead of the index it read,
    the full and the empty answer are decided on the cells they assert, a
    reservation is given up only at the head, and the distances of the indices
    have the sign [size] expects. *)
Theorem queue_assertions_hold cap n (c0 : Config A) tr c i th m k choice :
  init cap n = Some c0 -> 5 <= numGenerations cap -> reaches timely c0 tr c ->
  threads c !! i = Some th -> th_pc th = Run m k -> timely c i (Go choice) = true ->
  masserts (m_manager (queue c)) m = true.
Proof.
  intros Hi HG Hr Hth Hpc Ht.
  destruct (sim_reaches _ _ _ _ _ Hi HG Hr) as (owner & g & f & HS & Hsim & _ & Hgen & _).
  by eapply asserts_hold.
Qed.

End Fifo.
Arguments Fifo A : clear implicits.

(** Both pushes of [two_pushes_and_a_pop] and the pop run to their ends. *)
Definition pushes_and_pop_done : list (nat * Action Z) :=
  two_pushes_and_a_pop ++ [(0%nat, Go 0)] ++ replicate 3 (1%nat, Go 0) ++ replicate 4 (2%nat, Go 0).

Lemma queue_linearizable_witness :
  match init 2 3 with
  | Some c0 =>
      match run timely c0 pushes_and_pop_done with
      | Some (tr, c) =>
          object_at (queue c) 1 = Some 8
          /\ exists f head, fifo_trace 2 (mkFifo [] ∅) tr f
             /\ forall k : nat, Z.of_nat k < 2 -> object_at (queue c) ((head + Z.of_nat k) mod 2) = contents f !! k
      | None => False
      end
  | None => False
  end.
Proof.
  destruct (init 2 3) as [c0|] eqn:Hi; [|by vm_compute in Hi].
  destruct (run timely c0 pushes_and_pop_done) as [[tr c]|] eqn:Hr;
    [|by vm_compute in Hi; injection Hi as <-; vm_compute in Hr].
  destruct (queue_linearizable 2 3 c0 tr c Hi ltac:(by vm_compute) (run_reaches _ _ _ _ _ Hr))
    as (f & Hf & _ & Hcells).
  vm_compute in Hi. injection Hi as <-. vm_compute in Hr. injection Hr as _ <-.
  split; [reflexivity|]. destruct Hcells as (head & Hcells); [by repeat constructor|]. by exists f, head.
Defined.

(** A push that meets a full queue of one cell. *)
Definition push_when_full : list (nat * Action Z) :=
  [(0%nat, Call (TryPushBack 7))] ++ replicate 6 (0%nat, Go 0) ++ [(1%nat, Call (TryPushBack 8)); (1%nat, Go 1)].

Lemma queue_assertions_hold_witness :
  match init 1 2 with
  | Some c0 =>
      match run timely c0 push_when_full with
      | Some (tr, c) =>
          map th_pc (threads c) = [Idle; Run (RPushCell NOT_SAVED 1) (KPush 8 false)]
          /\ masserts (m_manager (queue c)) (RPushCell NOT_SAVED 1) = true
      | None => False
      end
  | None => False
  end.
Proof.
  destruct (init 1 2) as [c0|] eqn:Hi; [|by vm_compute in Hi].
  destruct (run timely c0 push_when_full) as [[tr c]|] eqn:Hr;
    [|by vm_compute in Hi; injection Hi as <-; vm_compute in Hr].
  pose proof (queue_assertions_hold 1 2 c0 tr c 1 (mkThread (mkView 1 0 0 0) (Run (RPushCell NOT_SAVED 1) (KPush 8 false)))
    (RPushCell NOT_SAVED 1) (KPush 8 false) 0 Hi ltac:(by vm_compute) (run_reaches _ _ _ _ _ Hr)) as H.
  vm_compute in Hi. injection Hi as <-. vm_compute in Hr. injection Hr as _ <-.
  split; [reflexivity|]. apply H; reflexivity.
Defined.
