(* ===== verification/QueueWake.v ===== *)
(** Blocked readers of the lock-free queue are woken.

    [popFront] registers as waiting, looks at the size and then waits on the
    semaphore; a writer that has committed signals the semaphore if somebody is
    registered.  As long as the queue is never disabled and no writer reads an
    old count that hides the registered readers, the values in the queue are
    always covered by pending signals, by writers that are still to signal and
    by readers that are awake, so that no reader is left waiting beside a value.
    Both conditions are needed: disabling the queue at the wrong moment breaks
    this, and so does an old count, which the relaxed registration allows. *)
From Stdlib Require Import ZArith Lia.
From stdpp Require Import base list numbers sets gmap.
From S2P Require Import Prelude QueueManager Queue QueueSafe QueuePlace QueueFifo.

Local Open Scope Z_scope.

Section Wake.
Context {A : Type}.
Implicit Types (q : Queue A) (th : Thread A) (c : Config A) (pc : QPc A).

(** ** Sums over the threads *)
Definition total (w : QPc A -> Z) (ths : list (Thread A)) : Z :=
  foldr (fun th s => w (th_pc th) + s) 0 ths.

Lemma total_insert (w w' : QPc A -> Z) ths j th th' :
  ths !! j = Some th ->
  (forall k thk, k <> j -> ths !! k = Some thk -> w' (th_pc thk) = w (th_pc thk)) ->
  total w' (<[j := th']> ths) = total w ths - w (th_pc th) + w' (th_pc th').
Proof.
  revert j. induction ths as [|t ths IH]; intros j Hj Hsame; [done|].
  destruct j as [|j]; simpl in *.
  - simplify_eq. assert (total w' ths = total w ths); [|lia].
    clear IH. assert (forall k thk, ths !! k = Some thk -> w' (th_pc thk) = w (th_pc thk)) as H
      by (intros k thk Hk; by apply (Hsame (S k))).
    clear Hsame. induction ths as [|t ths IH]; [done|]. simpl. rewrite (H 0%nat t eq_refl), IH; [done|].
    intros k thk Hk. by apply (H (S k)).
  - rewrite (IH j Hj).
    + rewrite (Hsame 0%nat t) by done. lia.
    + intros k thk Hk Hth. apply (Hsame (S k)); [congruence|done].
Qed.

Lemma total_nonneg w ths : (forall pc, 0 <= w pc) -> 0 <= total w ths.
Proof. intros Hw. induction ths as [|t ths IH]; simpl; [lia|]. pose proof (Hw (th_pc t)). lia. Qed.

Lemma total_ge w ths j th : (forall pc, 0 <= w pc) -> ths !! j = Some th -> w (th_pc th) <= total w ths.
Proof.
  intros Hw. revert j. induction ths as [|t ths IH]; intros j Hj; [done|]. destruct j as [|j]; simplify_eq/=.
  - pose proof (total_nonneg w ths Hw). lia.
  - pose proof (Hw (th_pc t)). specialize (IH j Hj). lia.
Qed.

Lemma total_le w ths : (forall pc, w pc <= 1) -> total w ths <= Z.of_nat (length ths).
Proof. intros Hw. induction ths as [|t ths IH]; simpl; [lia|]. pose proof (Hw (th_pc t)). lia. Qed.

Lemma total_mono w w' ths : (forall pc, w pc <= w' pc) -> total w ths <= total w' ths.
Proof. intros Hw. induction ths as [|t ths IH]; simpl; [lia|]. pose proof (Hw (th_pc t)). lia. Qed.

Lemma total_zero w ths :
  Forall (fun th => w (th_pc th) = 0) ths -> total w ths = 0.
Proof. induction 1; simpl; lia. Qed.

(** ** Who is where *)

(** Readers counted in [m_waitingPoppers]. *)
Definition registered pc : Z :=
  match pc with
  | Run (SizePush | SizePop _) (KPopEmpty _) | PopWait _ | PopUnregister _ => 1
  | _ => 0
  end.

(** Readers that are about to look for a value. *)
Definition awake pc : Z :=
  match pc with
  | PopUnregister _ | Run (RPopStart | RPopLoad _ | RPopCell _ _ | RPopHelp _ _) (KPop _) => 1
  | _ => 0
  end.

(** Writers that are past the point where they could give up, and have not
    looked for waiting readers yet. *)
Definition notifying pc : Z :=
  match pc with Run (CommitPush _ _) _ | PushPoppers | PushNotify => 1 | _ => 0 end.

(** Writers that have reserved a position, and those of them at or behind [p]. *)
Definition writing pc : Z := match writes pc with Some _ => 1 | None => 0 end.
Definition writing_from (g : Ghost) (p : Z) pc : Z :=
  match writes pc with Some (i, _) => if p <=? gpos g i then 1 else 0 | None => 0 end.

Definition cover pc : Z := awake pc + notifying pc + writing pc.
Definition signal (g : Ghost) (p : Z) pc : Z := notifying pc + writing_from g p pc.

(** Every value in the queue is covered. *)
Definition covered (g : Ghost) c : Prop :=
  gT g - gH g <= m_popSemaphore (queue c) + total cover (threads c).

(** Every value at or behind [p] is covered without the readers. *)
Definition covered_from (g : Ghost) c (p : Z) : Prop :=
  gT g - Z.max (gH g) p <= m_popSemaphore (queue c) + total (signal g p) (threads c).

(** A writer does not read a count of zero while readers are registered. *)
Definition sees_readers c (i : nat) (a : Action A) : bool :=
  match a, th_pc <$> threads c !! i with
  | Go choice, Some PushPoppers =>
      (latest (m_waitingPoppers (queue c)) <=? 0)
      || (0 <? default 0 (m_waitingPoppers (queue c) !! choice))
  | _, _ => true
  end.

(** Steps of a queue that is never disabled. *)
Definition never_disabled (a : Action A) : bool := match a with Call Disable => false | _ => true end.

Definition undisturbed c (i : nat) (a : Action A) : bool :=
  timely c i a && sees_readers c i a && never_disabled a.

Definition enabled_pc pc : Prop :=
  match pc with Run (DisableLoad | DisableSet _ | EnableSet _) _ => False | _ => True end.

Record Wake (g : Ghost) c : Prop := {
  wk_flags : Forall (fun v => isDisabledFlagSet v = false) (m_pushIndex (m_manager (queue c)));
  wk_pcs : forall j th, threads c !! j = Some th -> enabled_pc (th_pc th);
  wk_tail : list.last (gpush g) = Some (gT g) \/ exists j th gen i v k,
    threads c !! j = Some th /\ th_pc th = Run (RPushInc gen i v) k /\ gpos g i = gT g - 1;
  wk_count : latest (m_waitingPoppers (queue c)) = total registered (threads c);
  wk_semaphore : 0 <= m_popSemaphore (queue c);
  wk_wait : forall j th mode, threads c !! j = Some th -> th_pc th = PopWait mode -> covered g c;
  wk_look : forall j th v mode, threads c !! j = Some th ->
    th_pc th = Run (SizePop v) (KPopEmpty mode) ->
    exists a, push_loaded (m_manager (queue c)) g (th_view th) v a
    /\ (covered g c \/ covered_from g c a)
}.

Lemma registered_range pc : 0 <= registered pc <= 1.
Proof. unfold registered. repeat case_match; lia. Qed.
Lemma cover_nonneg pc : 0 <= cover pc.
Proof. unfold cover, awake, notifying, writing. repeat case_match; lia. Qed.
Lemma signal_nonneg g p pc : 0 <= signal g p pc.
Proof. unfold signal, notifying, writing_from. repeat case_match; lia. Qed.
Lemma signal_cover g p pc : signal g p pc <= cover pc.
Proof. unfold cover, signal, awake, notifying, writing, writing_from. repeat case_match; lia. Qed.


(** ** What a step does to the covers *)
Section Account.
Context (owner owner' : Z -> option nat) (g g' : Ghost) (c : Config A) (f f' : Fifo A) (j : nat).
Context (th th' : Thread A) (q' : Queue A) (ls : list (Label A)).
Local Abbreviation c' := (mkConfig q' (<[j := th']> (threads c))).
Context (HS : Safe owner c) (HS' : Safe owner' c') (Hsim : Sim g c f) (Hsim' : Sim g' c' f').
Context (Hj : threads c !! j = Some th).
Context (Hls : fifo_labels (capacity (queue c)) j f ls f').
Context (Htr : tracks (m_manager (queue c)) (m_manager q') g g' ls (th_pc th')).

(** The values that come or go are paid for by the thread that moves. *)
Definition pays_cover : Prop :=
  gT g' = gH g' \/ pushes ls - pops ls
    <= m_popSemaphore q' - m_popSemaphore (queue c) + cover (th_pc th') - cover (th_pc th).

Definition pays_from : Prop := forall p, p <= gT g ->
  (exists mode, th_pc th = PopWait mode) \/ gT g' = gH g'
  \/ (gT g' - Z.max (gH g') p) - (gT g - Z.max (gH g) p)
     <= m_popSemaphore q' - m_popSemaphore (queue c) + signal g' p (th_pc th') - signal g p (th_pc th).

(** A step that moves no value and keeps the cell the thread writes. *)
Lemma pays_quiet :
  quiet ls = true -> m_popSemaphore q' = m_popSemaphore (queue c) ->
  notifying (th_pc th) <= notifying (th_pc th') -> awake (th_pc th) <= awake (th_pc th') ->
  writes (th_pc th') = writes (th_pc th) ->
  pays_cover /\ pays_from.
Proof using HS Hsim Hj Htr.
  intros Hq Hsem Hn Haw Hw. destruct (quiet_counts _ Hq) as [Hpu Hpo].
  destruct Htr as (_ & HT & HH & Hpos & _). rewrite Hpu in HT. rewrite Hpo in HH. split.
  - right. unfold cover, writing. rewrite Hpu, Hpo, Hw. lia.
  - intros p _. right. right. unfold signal, writing_from. rewrite Hw.
    destruct (writes (th_pc th)) as [[i v]|] eqn:E; [|rewrite HT, HH; lia].
    destruct (safe_threads _ _ HS _ _ Hj) as ([Hf _] & _).
    destruct (writes_claim _ _ _ Hf E) as (cl & Hcl & <- & Hst).
    destruct (claim_stage _ _ _ _ _ _ HS (sim_placed _ _ _ Hsim) Hj Hcl) as (Hs & _).
    rewrite Hst in Hs. simpl in Hs. rewrite (Hpos (cl_idx cl)) by lia. rewrite HT, HH. lia.
Qed.

(** A step that moves no value but passes on what covers it. *)
Lemma pays_balance :
  quiet ls = true ->
  0 <= m_popSemaphore q' - m_popSemaphore (queue c) + cover (th_pc th') - cover (th_pc th) ->
  (forall p, (exists mode, th_pc th = PopWait mode) \/
     0 <= m_popSemaphore q' - m_popSemaphore (queue c) + signal g' p (th_pc th') - signal g p (th_pc th)) ->
  pays_cover /\ pays_from.
Proof using Htr.
  intros Hq Hc Hs. destruct (quiet_counts _ Hq) as [Hpu Hpo]. destruct Htr as (_ & HT & HH & _).
  split; [right; lia|]. intros p _. destruct (Hs p); [by left|]. right. right. lia.
Qed.

(** A reader meets an empty queue. *)
Lemma pays_empty ls1 ls2 : ls = ls1 ++ LEmpty :: ls2 -> quiet ls = true -> pays_cover /\ pays_from.
Proof using Hsim Htr Hls.
  intros Els Hq. assert (gT g' = gH g') as E.
  { destruct (quiet_counts _ Hq) as [Hpu Hpo]. destruct Htr as (_ & HT & HH & _).
    assert (contents f = []) as Hnil.
    { clear -Hls Els Hq. subst ls. revert Hls Hq. generalize f. induction ls1 as [|l ls1 IH]; intros f0 H Hq.
      - inversion H as [|? ? ? ? ? Hst]; subst. by inversion Hst.
      - inversion H as [|? ? f1 ? ? Hst Hrest]; subst. simpl in Hq. apply andb_true_iff in Hq as [Hl Hq].
        specialize (IH _ Hrest Hq). by inversion Hst; subst. }
    pose proof (sim_length _ _ _ Hsim) as Hlen. rewrite Hnil in Hlen. simpl in Hlen. lia. }
  split; [by left|]. intros p _. right. by left.
Qed.

(** A writer reserves the position at the tail. *)
Lemma pays_enter saved v gen i l value blocking :
  th_pc th = Run (RPushCell saved v) (KPush value blocking) ->
  th_pc th' = Run (RPushInc gen i l) (KPush value blocking) -> ls = [LPush value] ->
  m_popSemaphore q' = m_popSemaphore (queue c) -> pays_cover /\ pays_from.
Proof using Hsim Htr.
  intros Hpc Hpc' Els Hsem. destruct Htr as (_ & HT & HH & Hpos & Hnew).
  assert (pushes ls = 1) as Hpu by (by rewrite Els). assert (pops ls = 0) as Hpo by (by rewrite Els).
  destruct Hnew as [?|(_ & gen' & i' & v' & k' & E & Hi)]; [lia|]. rewrite Hpc' in E. injection E as <- <- <- _.
  destruct (pl_order _ _ (sim_placed _ _ _ Hsim)).
  unfold pays_cover, pays_from, cover, signal, writing, writing_from. rewrite Hpc, Hpc', Hpu, Hpo. simpl.
  split; [right; lia|]. intros p Hp. right. right. rewrite Hi. destruct (Z.leb_spec p (gT g)); lia.
Qed.

(** A value leaves at the head: the thread that takes it was awake, or does not
    count. *)
Lemma pays_leave v0 :
  pushes ls = 0 -> pops ls = 1 -> m_popSemaphore q' = m_popSemaphore (queue c) ->
  notifying (th_pc th) = 0 -> notifying (th_pc th') = 0 ->
  awake (th_pc th) - awake (th_pc th') <= 1 - writing (th_pc th) + writing (th_pc th') ->
  (writes (th_pc th') = writes (th_pc th)
   \/ (exists i, writes (th_pc th) = Some (i, v0) /\ gpos g i = gH g /\ writes (th_pc th') = None)) ->
  pays_cover /\ pays_from.
Proof using HS Hsim Hj Htr.
  intros Hpu Hpo Hsem Hn Hn' Haw Hw. destruct Htr as (_ & HT & HH & Hpos & _). rewrite Hpu in HT. rewrite Hpo in HH.
  unfold pays_cover, pays_from, cover, signal. rewrite Hpu, Hpo, Hn, Hn'. split; [right; lia|].
  intros p Hp. right. right. unfold writing_from. destruct Hw as [Hw|(i & Hw & Hi & Hw')].
  - rewrite Hw. destruct (writes (th_pc th)) as [[i v]|] eqn:E; [|lia].
    destruct (safe_threads _ _ HS _ _ Hj) as ([Hf _] & _).
    destruct (writes_claim _ _ _ Hf E) as (cl & Hcl & <- & Hst).
    destruct (claim_stage _ _ _ _ _ _ HS (sim_placed _ _ _ Hsim) Hj Hcl) as (Hs & _).
    rewrite Hst in Hs. simpl in Hs. rewrite (Hpos (cl_idx cl)) by lia. lia.
  - rewrite Hw, Hw', Hi. destruct (Z.leb_spec p (gH g)); lia.
Qed.

(** A reader's claim in the new configuration shows that the cell was full. *)
Lemma reader_object gen i :
  m_data q' = m_data (queue c) -> mkClaim ES_Reading gen i true ∈ claims (th_pc th') ->
  exists w, object_at (queue c) i = Some w.
Proof using HS' Hj.
  intros Hd Hcl. destruct (safe_threads _ _ HS' j th' (insert_self _ _ _ Hj _)) as (_ & Hok & _).
  rewrite Forall_forall in Hok. destruct (Hok _ Hcl) as (_ & _ & _ & (o & Ho & Hl) & _).
  destruct (proj2 Hl eq_refl) as [w ->]. exists w. unfold cell_at in Ho. simpl in Ho.
  unfold object_at. by rewrite <- Hd, Ho.
Qed.

(** Splits on the conditions a step depends on, and applies [pays_quiet]. *)
Ltac quiet_case Els Epc Hpc :=
  unfold push_top, clear_top in Els, Epc; simpl in Els, Epc;
  unfold removeAll_loop, notify_pushers in Els, Epc; simpl in Els, Epc;
  repeat (match type of Epc with context [if ?b then _ else _] => destruct b end; simpl in Els, Epc);
  apply pays_quiet; rewrite ?Els, ?Epc, ?Hpc; simpl; first [done | lia].

Lemma account_run choice m k mgr' vw r :
  th_pc th = Run m k -> enabled_pc (th_pc th) ->
  mstep choice (m_manager (queue c)) (th_view th) m = Stepped (mgr', vw, r) ->
  q' = set_manager (queue c) mgr' ->
  th_pc th' = match r with inl m' => Run m' k | inr res => (resume (queue c) k res).1 end ->
  ls = effect (queue c) k m r ++ match r with inl _ => [] | inr res => (resume (queue c) k res).2 end ->
  pays_cover /\ pays_from.
Proof using HS HS' Hsim Hj Hls Htr.
  intros Hpc Hen H Eq Epc Els. destruct (safe_threads _ _ HS _ _ Hj) as ([Hf Hvals] & _).
  rewrite Hpc in Hf, Hen, Hvals. pose proof (safe_manager _ _ HS) as Hwf.
  assert (m_popSemaphore q' = m_popSemaphore (queue c)) as Hsem by (by rewrite Eq).
  assert (m_data q' = m_data (queue c)) as Hdata by (by rewrite Eq).
  destruct m; try done; cbn [mstep] in H; mstep_inv H.
  all: try (destruct k; try done; quiet_case Els Epc Hpc).
  - destruct k; try done.
    apply push_cell_cases in Hcell as [(_ & _ & ->)|(_ & Hr)]; [by eapply pays_enter| |done..].
    destruct Hr as [-> | [-> | [-> | ->]]]; quiet_case Els Epc Hpc.
  - apply pop_cell_cases in Hcell as [(_ & _ & ->)|(_ & Hr)].
    + destruct (reader_object _ _ Hdata ltac:(rewrite Epc; apply list_elem_of_here)) as (w & Hw).
      destruct k as [| | | |mode| | | |? ?| | | | | | | | | |]; try done; simpl in Els; rewrite Hw in Els;
        (apply (pays_leave w); [by rewrite Els..|done|by rewrite Hpc|by rewrite Epc
          |by rewrite Epc, Hpc|left; by rewrite Epc, Hpc]).
    + destruct Hr as [-> | [-> | [-> | ->]]]; [destruct k; try done; quiet_case Els Epc Hpc..|].
      apply (pays_empty [] (resume (queue c) k (Failed QueueEmpty)).2); [exact Els|]. rewrite Els. destruct k as [| | | |[| |[]]| | | | | | | | | | | | | |]; done.
  - apply clear_cell_cases in Hcell as [(_ & _ & ->)|(_ & Hr)].
    + destruct (reader_object _ _ Hdata ltac:(rewrite Epc; apply list_elem_of_here)) as (w & Hw).
      destruct k; try done; simpl in Els; rewrite Hw in Els;
        (apply (pays_leave w); [by rewrite Els..|done|by rewrite Hpc|by rewrite Epc
          |by rewrite Epc, Hpc|left; by rewrite Epc, Hpc]).
    + destruct k; try done; destruct Hr as [-> | ->]; quiet_case Els Epc Hpc.
  - destruct k; try done. simpl in Els, Epc.
    apply (pays_leave value); try (by rewrite Els); try done; rewrite ?Epc, ?Hpc; try done.
    right. exists index. split_and!; [done| |done].
    pose proof (sim_local _ _ _ Hsim _ _ Hj) as Hl. unfold local_ok in Hl. rewrite Hpc in Hl.
    destruct Hl as (n & Hn & Hpos). pose proof (pop_loaded_newest _ _ _ _ Hn).
    assert (mkClaim ES_Writing generation index false ∈ claims (th_pc th)) as Hcl
      by (rewrite Hpc; apply list_elem_of_here).
    destruct (claim_stage _ _ _ _ _ _ HS (sim_placed _ _ _ Hsim) Hj Hcl) as (Hst & _). simpl in Hst.
    destruct (pl_head _ _ (sim_placed _ _ _ Hsim)) as [_ ?]. lia.
Qed.

(** A step of the queue pays, as long as somebody is registered and seen. *)
Lemma account_go choice :
  enabled_pc (th_pc th) -> 0 < latest (m_waitingPoppers (queue c)) -> sees_readers c j (Go choice) = true ->
  qstep choice (queue c) th = Stepped (q', th', ls) -> pays_cover /\ pays_from.
Proof using HS HS' Hsim Hj Hls Htr.
  intros Hen HW Hsees H. unfold sees_readers in Hsees. rewrite Hj in Hsees. simpl in Hsees.
  unfold qstep in H. destruct (th_pc th) eqn:Hpc; try done.
  { destruct (mstep _ _ _ _) as [| |[[mgr' vw] r]] eqn:Hm; [done..|].
    apply (account_run choice m k mgr' vw r); [done|by rewrite Hpc|done|..]; destruct r as [m'|res];
      try destruct (resume (queue c) k res) eqn:E; injection H as E1 E2 E3; rewrite <- ?E1, <- ?E2, <- ?E3, ?app_nil_r;
      by rewrite ?E. }
  all: unfold finish, notify_pushers in H; simpl in H.
  all: try (destruct (load_relaxed _ _ _) eqn:Hload; [apply load_relaxed_lookup in Hload|done]).
  all: try (rewrite Hload in Hsees; simpl in Hsees).
  all: try (destruct (destroy _ _) as [| |q''] eqn:Hd; [done..|]; apply destroy_step in Hd as ->).
  all: try (match type of H with context [Nat.eqb ?x ?y] => destruct (Nat.eqb x y) end).
  all: try (destruct (m_data (queue c) !! Z.to_nat index) eqn:Hcell; [|done]).
  all: try (destruct (object_at (queue c) index) as [w|] eqn:Hobj; [|done]).
  all: repeat (match type of H with context [if ?b then _ else _] => destruct b eqn:?; simpl in H end).
  all: try (destruct mode; destruct choice; try done; simpl in H).
  all: try done.
  all: injection H as E1 E2 E3.
  all: try (apply pays_quiet; rewrite <- ?E1, <- ?E2, <- ?E3, ?Hpc; simpl; first [done | lia]).
  all: try lia.
  all: apply pays_balance; unfold cover, signal, writing, writing_from;
    rewrite <- ?E1, <- ?E2, <- ?E3, ?Hpc; simpl; [done|lia|].
  all: intros p; first [by left; eexists | right; repeat case_match; lia].
Qed.

End Account.

(** ** Registrations, the flag and the tail *)
Lemma count_go owner c j th q' th' ls choice :
  Safe owner c -> threads c !! j = Some th -> qstep choice (queue c) th = Stepped (q', th', ls) ->
  (m_waitingPoppers q' = m_waitingPoppers (queue c) /\ registered (th_pc th') = registered (th_pc th))
  \/ latest (m_waitingPoppers q') = u32 (latest (m_waitingPoppers (queue c)) + registered (th_pc th') - registered (th_pc th)).
Proof.
  intros HS Hj H. destruct (safe_threads _ _ HS _ _ Hj) as ([Hf _] & _).
  unfold qstep in H. destruct (th_pc th) eqn:Hpc; try done.
  { destruct (mstep _ _ _ _) as [| |[[mgr' vw] r]] eqn:Hm; [done..|]. left.
    assert (m_waitingPoppers q' = m_waitingPoppers (queue c) /\
      th_pc th' = match r with inl m' => Run m' k | inr res => (resume (queue c) k res).1 end) as [-> ->].
    { destruct r as [m'|res]; [by injection H as <- <- _|].
      destruct (resume (queue c) k res). by injection H as <- <- _. }
    split; [done|]. clear H.
    destruct m; cbn [mstep] in Hm; mstep_inv Hm; destruct k; try done;
      unfold push_top, clear_top, push_cell, pop_cell, clear_cell in *; simpl;
      unfold notify_pushers, removeAll_loop in *;
      repeat (simpl; case_match; simplify_eq/=); done. }
  all: unfold finish, notify_pushers in H; simpl in H.
  all: try (destruct (destroy _ _) as [| |q''] eqn:Hd; [done..|]; apply destroy_step in Hd as ->).
  all: repeat case_match; try done; injection H as <- <- _; simpl; first [by left | right; rewrite latest_fetch_add; f_equal; lia].
Qed.

Definition unflagged (a : list Z) : Prop := Forall (fun v => isDisabledFlagSet v = false) a.

Lemma latest_unflagged a : unflagged a -> isDisabledFlagSet (latest a) = false.
Proof. intros Ha. by apply (latest_ok (fun v => isDisabledFlagSet v = false)). Qed.

Lemma cas_unflagged mgr v a o :
  wf_manager mgr -> pop_val mgr v -> unflagged (m_pushIndex mgr) ->
  compare_exchange (m_pushIndex mgr) v (nextCombinedIndex mgr v) = (a, o) -> unflagged a.
Proof.
  intros Hwf Hv Hun Hcas. eapply (Forall_cas (P := fun v => isDisabledFlagSet v = false)); [done|done| |done].
  apply not_disabled, (pop_val_bound mgr Hwf), pop_val_next; done.
Qed.

(** A queue that is never disabled stays so. *)
Lemma enabled_mstep at_ mgr vw m mgr' vw' r (k : Frame A) :
  wf_manager mgr -> pc_vals mgr m -> unflagged (m_pushIndex mgr) -> enabled_pc (Run m k) ->
  mstep at_ mgr vw m = Stepped (mgr', vw', r) ->
  unflagged (m_pushIndex mgr') /\ match r with inl m' => enabled_pc (Run m' k) | inr _ => True end.
Proof.
  intros Hwf Hv Hun Hen H. pose proof (latest_unflagged _ Hun) as Hl.
  destruct m; try done; cbn [mstep] in H; mstep_inv H; simpl in Hv;
    try (apply push_cell_params in Hcell as Hp; destruct Hp as (_ & -> & _));
    try (apply pop_cell_params in Hcell as Hp; destruct Hp as (_ & -> & _));
    try (apply clear_cell_params in Hcell as Hp; destruct Hp as (_ & -> & _));
    (split; [first [done | by eapply cas_unflagged]|]);
    unfold push_top, clear_top, push_cell, pop_cell, clear_cell in *;
    rewrite ?Hl; repeat (simpl; case_match; simplify_eq/=); done.
Qed.

Lemma resume_enabled q k r : enabled_pc (resume q k r).1.
Proof.
  destruct k, r as [| []| | |]; simpl; unfold notify_pushers, removeAll_loop; simpl;
    repeat (simpl; case_match); done.
Qed.

Lemma enabled_go owner c j th q' th' ls choice :
  Safe owner c -> threads c !! j = Some th -> unflagged (m_pushIndex (m_manager (queue c))) ->
  enabled_pc (th_pc th) -> qstep choice (queue c) th = Stepped (q', th', ls) ->
  unflagged (m_pushIndex (m_manager q')) /\ enabled_pc (th_pc th').
Proof.
  intros HS Hj Hun Hen H. destruct (safe_threads _ _ HS _ _ Hj) as ([_ Hv] & _).
  unfold qstep in H. destruct (th_pc th) eqn:Hpc; try done.
  { destruct (mstep _ _ _ _) as [| |[[mgr' vw] r]] eqn:Hm; [done..|].
    destruct (enabled_mstep _ _ _ _ _ _ _ _ (safe_manager _ _ HS) Hv Hun Hen Hm) as [Hun' Hen'].
    destruct r as [m'|res]; [by injection H as <- <- _|].
    pose proof (resume_enabled (queue c) k res) as Hr.
    destruct (resume (queue c) k res). by injection H as <- <- _. }
  all: unfold finish, notify_pushers in H; simpl in H.
  all: try (destruct (destroy _ _) as [| |q''] eqn:Hd; [done..|]; apply destroy_step in Hd as ->).
  all: repeat case_match; try done; by injection H as <- <- _.
Qed.

Lemma semaphore_go c th q' th' ls choice :
  0 <= m_popSemaphore (queue c) -> qstep choice (queue c) th = Stepped (q', th', ls) ->
  0 <= m_popSemaphore q'.
Proof.
  intros Hsem H. unfold qstep in H. destruct (th_pc th) eqn:Hpc; try done.
  { destruct (mstep _ _ _ _) as [| |[[mgr' vw] r]] eqn:Hm; [done..|].
    destruct r as [m'|res]; [by injection H as <- _ _|].
    destruct (resume (queue c) k res). by injection H as <- _ _. }
  all: unfold finish, notify_pushers in H; simpl in H.
  all: try (destruct (destroy _ _) as [| |q''] eqn:Hd; [done..|]; apply destroy_step in Hd as ->).
  all: repeat case_match; try done; injection H as <- _ _; simpl; lia.
Qed.

(** A writer past its reservation has moved the push index past its position. *)
Lemma inc_tail owner g c f j th gen i v k choice q' th' ls g' :
  Safe owner c -> Sim g c f -> threads c !! j = Some th -> th_pc th = Run (RPushInc gen i v) k ->
  timely c j (Go choice) = true -> qstep choice (queue c) th = Stepped (q', th', ls) ->
  Placed (m_manager q') g' -> gT g' = gT g -> unflagged (m_pushIndex (m_manager q')) ->
  exists b, list.last (gpush g') = Some b /\ gpos g i < b.
Proof.
  intros HS Hsim Hj Hpc Ht H Hpl' HT Hun. pose proof (safe_manager _ _ HS) as Hwf.
  destruct (timely_run _ _ _ Hj _ _ _ Ht Hpc) as (Hpush & _ & _).
  destruct (thread_call _ _ _ _ _ _ HS Hsim Hj _ _ Hpc) as (_ & Hval & (a & Ha & Hpos) & _). simpl in Hval.
  assert (mkClaim ES_Writing gen i false ∈ claims (th_pc th)) as Hcl by (rewrite Hpc; apply list_elem_of_here).
  destruct (claim_stage _ _ _ _ _ _ HS (sim_placed _ _ _ Hsim) Hj Hcl) as (Hst & _). simpl in Hst.
  pose proof (push_loaded_comb _ _ _ _ HS Hsim _ _ _ Ha Hval) as ->. destruct Ha as (n & Hn & _ & Hseen).
  destruct (push_read _ _ (sim_placed _ _ _ Hsim) _ _ _ Hn Hseen (Hpush eq_refl)) as [_ Hfar].
  pose proof (window_lt _ Hwf) as Hwin.
  destruct (pl_tail _ _ Hpl') as (b & Hb & Htail). exists b. split; [done|].
  pose proof (latest_lookup _ (push_nonempty _ _ Hpl')) as Hlat.
  destruct (pl_push _ _ Hpl' _ _ _ (gpush_newest _ _ Hpl' _ Hb) Hlat) as [flag Hflag].
  unfold qstep in H. rewrite Hpc in H. cbn [mstep] in H.
  destruct (advance_push_eq (m_manager (queue c)) (th_view th) (comb (m_manager (queue c)) a))
    as (A' & o & Hcas & E). rewrite E in H. destruct (resume _ _ _) as [pc rs]. injection H as <- _ _.
  simpl in *. destruct flag.
  { pose proof (latest_unflagged _ Hun) as Hl. rewrite Hflag in Hl.
    by rewrite disabled in Hl by (apply (comb_bound (m_manager (queue c)) Hwf)). }
  rewrite Z.add_0_r in Hflag. change (comb (set_push (m_manager (queue c)) A') b) with (comb (m_manager (queue c)) b) in Hflag.
  apply compare_exchange_cases in Hcas as [(_ & -> & _)|(Hne & -> & _)].
  - unfold latest in Hflag. rewrite List.last_last, next_comb in Hflag by done.
    assert (a + 1 = b) by (eapply comb_inj; [apply Hwf| |done]; lia). lia.
  - rewrite Hflag in Hne. assert (a <> b) by (by intros ->). lia.
Qed.

Lemma push_loaded_le m g vw v a : Placed m g -> push_loaded m g vw v a -> a <= gT g.
Proof.
  intros Hpl (k & Hk & _). destruct (pl_tail _ _ Hpl) as (b & Hb & Htl).
  assert (a <= b); [|lia]. eapply (gpush_mono _ _ Hpl); [|exact Hk|by apply gpush_newest].
  apply lookup_lt_Some in Hk. rewrite (pl_push_len _ _ Hpl) in Hk. unfold newest. lia.
Qed.

(** ** The invariant *)
Section WakeStep.
Context (owner owner' : Z -> option nat) (g g' : Ghost) (c : Config A) (f f' : Fifo A) (j : nat).
Context (th th' : Thread A) (q' : Queue A) (ls : list (Label A)).
Local Abbreviation c' := (mkConfig q' (<[j := th']> (threads c))).
Context (HS : Safe owner c) (HS' : Safe owner' c') (Hsim : Sim g c f) (Hsim' : Sim g' c' f') (Hj : threads c !! j = Some th).
Context (Htr : tracks (m_manager (queue c)) (m_manager q') g g' ls (th_pc th')).
Context (Hwake : Wake g c).

(** What the step of the thread has to do. *)
Context (Hpays : 0 < latest (m_waitingPoppers (queue c)) ->
  pays_cover g' c th th' q' ls /\ pays_from g g' c th th' q').
Context (Hsem : 0 <= m_popSemaphore q').
Context (Hflags : unflagged (m_pushIndex (m_manager q'))) (Henabled : enabled_pc (th_pc th')).
Context (Hinc : forall gen i v k, th_pc th = Run (RPushInc gen i v) k -> gT g' = gT g ->
  exists b, list.last (gpush g') = Some b /\ gpos g i < b).
Context (Hcount : latest (m_waitingPoppers q')
  = latest (m_waitingPoppers (queue c)) + registered (th_pc th') - registered (th_pc th)).
Context (Hwaits : forall mode, th_pc th' = PopWait mode -> 0 < latest (m_waitingPoppers (queue c)) /\ covered g c).
Context (Hlooks : forall v mode, th_pc th' = Run (SizePop v) (KPopEmpty mode) ->
  v = latest (m_pushIndex (m_manager q')) /\ seen_push (th_view th') = newest (m_pushIndex (m_manager q'))).

Lemma someone_registered k thk :
  threads c !! k = Some thk -> registered (th_pc thk) = 1 -> 0 < latest (m_waitingPoppers (queue c)).
Proof using Hwake.
  intros Hk Hr. rewrite (wk_count _ _ Hwake).
  pose proof (total_ge registered _ _ _ (fun pc => proj1 (registered_range pc)) Hk). lia.
Qed.

Lemma covered_go : 0 < latest (m_waitingPoppers (queue c)) -> covered g c -> covered g' c'.
Proof using Hj Htr Hpays Hsem.
  intros HW Hc. destruct (Hpays HW) as [[E|Hpay] _]; unfold covered in *; simpl.
  - pose proof (total_nonneg cover (<[j := th']> (threads c)) cover_nonneg). lia.
  - rewrite (total_insert cover cover _ _ _ _ Hj) by done. destruct Htr as (_ & HT & HH & _). lia.
Qed.

Lemma signal_other p k thk :
  k <> j -> threads c !! k = Some thk -> signal g' p (th_pc thk) = signal g p (th_pc thk).
Proof using HS Hsim Htr.
  intros Hk Hthk. unfold signal, writing_from. destruct (writes (th_pc thk)) as [[i v]|] eqn:E; [|done].
  destruct (safe_threads _ _ HS _ _ Hthk) as ([Hf _] & _).
  destruct (writes_claim _ _ _ Hf E) as (cl & Hcl & <- & Hst).
  destruct (claim_stage _ _ _ _ _ _ HS (sim_placed _ _ _ Hsim) Hthk Hcl) as (Hs & _).
  rewrite Hst in Hs. simpl in Hs. destruct Htr as (_ & _ & _ & Hpos & _). by rewrite Hpos by lia.
Qed.

Lemma covered_from_go p :
  0 < latest (m_waitingPoppers (queue c)) -> p <= gT g -> covered g c \/ covered_from g c p ->
  covered g' c' \/ covered_from g' c' p.
Proof using HS Hsim Hj Htr Hwake Hpays Hsem.
  intros HW Hp [Hc|Hc]; [left; by apply covered_go|]. destruct (Hpays HW) as [_ Hpay].
  destruct (Hpay p Hp) as [(mode & Hpc)|[E|Hpay']].
  - left. apply covered_go; [done|]. by eapply (wk_wait _ _ Hwake).
  - left. unfold covered. simpl.
    pose proof (total_nonneg cover (<[j := th']> (threads c)) cover_nonneg). lia.
  - right. unfold covered_from in *. simpl.
    rewrite (total_insert (signal g p) (signal g' p) _ _ _ _ Hj (signal_other p)). lia.
Qed.

Lemma wake_tail :
  list.last (gpush g') = Some (gT g') \/ exists j th gen i v k,
    threads c' !! j = Some th /\ th_pc th = Run (RPushInc gen i v) k /\ gpos g' i = gT g' - 1.
Proof using HS Hsim Hsim' Hj Htr Hwake Hpays Hinc Hcount.
  destruct (pl_tail _ _ (sim_placed _ _ _ Hsim')) as (b' & Hb' & Htl').
  destruct (decide (b' = gT g')) as [->|Hne]; [by left|]. right.
  destruct Htr as (Hext & HT & HH & Hpos & [Hpu|(Hpu & gen & i & v & k & Hpc & Hi)]).
  - destruct (pl_tail _ _ (sim_placed _ _ _ Hsim)) as (b & Hb & Htl).
    assert (b <= b') as Hbb.
    { pose proof (gpush_newest _ _ (sim_placed _ _ _ Hsim) _ Hb) as H1.
      pose proof (gpush_newest _ _ (sim_placed _ _ _ Hsim') _ Hb') as H2.
      destruct Hext as (_ & _ & Hpre & _). eapply prefix_lookup_Some in H1; [|done].
      eapply (gpush_mono _ _ (sim_placed _ _ _ Hsim')); [|done..].
      apply lookup_lt_Some in H1. rewrite (pl_push_len _ _ (sim_placed _ _ _ Hsim')) in H1.
      unfold newest in *. lia. }
    destruct (wk_tail _ _ Hwake) as [Hl|(k & thk & gen & i & v & kk & Hk & Hpc & Hi)].
    { rewrite Hb in Hl. injection Hl as ->. lia. }
    assert (gpos g' i = gpos g i) as Hsame.
    { assert (mkClaim ES_Writing gen i false ∈ claims (th_pc thk)) as Hcl by (rewrite Hpc; apply list_elem_of_here).
      destruct (claim_stage _ _ _ _ _ _ HS (sim_placed _ _ _ Hsim) Hk Hcl) as (Hst & _). simpl in Hst.
      apply Hpos. lia. }
    destruct (decide (k = j)) as [->|Hkj].
    + rewrite Hj in Hk. injection Hk as ->.
      destruct (Hinc _ _ _ _ Hpc ltac:(lia)) as (b'' & Hb'' & Hlt).
      rewrite Hb' in Hb''. injection Hb'' as ->. lia.
    + exists k, thk, gen, i, v, kk. split_and!; [|done|rewrite Hsame; lia].
      simpl. by rewrite list_lookup_insert_ne.
  - exists j, th', gen, i, v, k. split_and!; [by eapply insert_self|done|lia].
Qed.

(** What a reader that has just read the push index knows. *)
Lemma look_starts vw :
  seen_push vw = newest (m_pushIndex (m_manager q')) ->
  exists a, push_loaded (m_manager q') g' vw (latest (m_pushIndex (m_manager q'))) a /\ covered_from g' c' a.
Proof using HS HS' Hsim Hsim' Hj Htr Hwake Hpays Hinc Hsem Hcount.
  intros Hvw. pose proof (sim_placed _ _ _ Hsim') as Hpl. simpl in Hpl.
  destruct (pl_tail _ _ Hpl) as (b & Hb & Htl). exists b. split.
  - exists (newest (m_pushIndex (m_manager q'))). split_and!; [by apply gpush_newest| |lia].
    apply latest_lookup. by eapply push_nonempty.
  - unfold covered_from. simpl. pose proof (signal_nonneg g' b) as Hnn. destruct (pl_order _ _ Hpl).
    destruct wake_tail as [Hl|(k & thk & gen & i & v & kk & Hk & Hpc & Hi)].
    + rewrite Hb in Hl. injection Hl as ->.
      pose proof (total_nonneg (signal g' (gT g')) (<[j := th']> (threads c)) Hnn). lia.
    + destruct (decide (b = gT g')) as [->|].
      { pose proof (total_nonneg (signal g' (gT g')) (<[j := th']> (threads c)) Hnn). lia. }
      pose proof (total_ge (signal g' b) _ _ _ Hnn Hk) as Hge. rewrite Hpc in Hge. cbn [threads] in Hge.
      destruct (safe_threads _ _ HS' _ _ Hk) as ([Hf _] & _). rewrite Hpc in Hf. destruct kk; try done.
      assert (signal g' b (Run (RPushInc gen i v) (KPush value blocking)) = 1); [|lia].
      unfold signal, writing_from. simpl. rewrite Hi. destruct (Z.leb_spec b (gT g' - 1)); lia.
Qed.

(** A step of the queue keeps the invariant. *)
Lemma wake_step : Wake g' c'.
Proof.
  split; simpl.
  - done.
  - intros k thk Hk. destruct (decide (k = j)) as [->|Hkj].
    + rewrite (insert_self _ _ _ Hj) in Hk. by injection Hk as <-.
    + rewrite list_lookup_insert_ne in Hk by done. by apply (wk_pcs _ _ Hwake _ _ Hk).
  - apply wake_tail.
  - rewrite (total_insert registered registered _ _ _ _ Hj) by done. rewrite Hcount, (wk_count _ _ Hwake). lia.
  - done.
  - intros k thk mode Hk Hpc. destruct (decide (k = j)) as [->|Hkj].
    + rewrite (insert_self _ _ _ Hj) in Hk. injection Hk as <-. destruct (Hwaits _ Hpc). by apply covered_go.
    + rewrite list_lookup_insert_ne in Hk by done.
      apply covered_go; [|by eapply (wk_wait _ _ Hwake)].
      eapply someone_registered; [done|]. by rewrite Hpc.
  - intros k thk v mode Hk Hpc. destruct (decide (k = j)) as [->|Hkj].
    + rewrite (insert_self _ _ _ Hj) in Hk. injection Hk as <-. destruct (Hlooks _ _ Hpc) as [-> Hseen].
      destruct (look_starts _ Hseen) as (a & Ha & Hc). exists a. auto.
    + rewrite list_lookup_insert_ne in Hk by done. destruct (wk_look _ _ Hwake _ _ _ _ Hk Hpc) as (a & Ha & Hc).
      exists a. split; [by eapply extends_push; [apply Htr|]|].
      apply covered_from_go; [|by eapply push_loaded_le; [apply (sim_placed _ _ _ Hsim)|]|done].
      eapply someone_registered; [done|]. by rewrite Hpc.
Qed.

End WakeStep.

(** Where a reader starts to look, and where it starts to wait. *)
Lemma enters_look owner c j th q' th' ls choice v mode :
  Safe owner c -> threads c !! j = Some th -> qstep choice (queue c) th = Stepped (q', th', ls) ->
  th_pc th' = Run (SizePop v) (KPopEmpty mode) ->
  v = latest (m_pushIndex (m_manager q')) /\ seen_push (th_view th') = newest (m_pushIndex (m_manager q')).
Proof.
  intros HS Hj H Hpc'. destruct (safe_threads _ _ HS _ _ Hj) as ([Hf _] & _).
  unfold qstep in H. destruct (th_pc th) eqn:Hpc; try done.
  { destruct (mstep _ _ _ _) as [| |[[mgr' vw] r]] eqn:Hm; [done..|].
    destruct r as [m'|res].
    - injection H as <- <- _. simpl in Hpc'. injection Hpc' as -> ->.
      destruct m; try done; cbn [mstep] in Hm; mstep_inv Hm; try done.
    - exfalso. destruct (resume (queue c) k res) as [pc l] eqn:E. injection H as _ E2 _. rewrite <- E2 in Hpc'.
      simpl in Hpc'. subst pc. clear Hm Hf Hpc E2. destruct k, res as [| []| | |]; simpl in E;
        unfold notify_pushers, removeAll_loop in E; repeat (simpl in E; case_match); simplify_eq. }
  all: exfalso; unfold finish, notify_pushers in H; simpl in H; repeat case_match; simplify_eq/=.
Qed.

Lemma enters_wait owner c j th q' th' ls choice mode :
  Safe owner c -> threads c !! j = Some th ->
  qstep choice (queue c) th = Stepped (q', th', ls) -> th_pc th' = PopWait mode ->
  exists v, th_pc th = Run (SizePop v) (KPopEmpty mode)
  /\ size_of (m_manager (queue c)) v (latest (m_popIndex (m_manager (queue c)))) <= 0.
Proof.
  intros HS Hj H Hpc'. destruct (safe_threads _ _ HS _ _ Hj) as ([Hf _] & _).
  unfold qstep in H. destruct (th_pc th) eqn:Hpc; try done.
  { destruct (mstep _ _ _ _) as [| |[[mgr' vw] r]] eqn:Hm; [done..|].
    destruct r as [m'|res]; [injection H as E1 E2 _; by rewrite <- E2 in Hpc'|].
    destruct (resume (queue c) k res) as [pc l] eqn:E. injection H as _ E2 _. rewrite <- E2 in Hpc'.
    simpl in Hpc'. subst pc. clear E2.
    destruct k as [| | | |[| |[]]| | | | | | | | | | | | | |], res as [| []| | |]; simpl in E; unfold notify_pushers, removeAll_loop in E;
      repeat (simpl in E; match type of E with context [if ?b then _ else _] => destruct b eqn:? end);
      simplify_eq.
    destruct m; try done; cbn [mstep] in Hm; mstep_inv Hm.
    eexists. split; [done|]. apply Z.leb_le. done. }
  all: exfalso; unfold finish, notify_pushers in H; simpl in H; repeat case_match; simplify_eq/=.
Qed.

(** A step inside an operation keeps the invariant. *)
Lemma wake_go owner owner' g g' c f f' j th th' q' ls choice :
  let c' := mkConfig q' (<[j := th']> (threads c)) in
  5 <= gens (m_manager (queue c)) -> Z.of_nat (length (threads c)) < 2 ^ 32 ->
  Safe owner c -> Safe owner' c' -> Sim g c f -> Sim g' c' f' -> threads c !! j = Some th ->
  fifo_labels (capacity (queue c)) j f ls f' ->
  tracks (m_manager (queue c)) (m_manager q') g g' ls (th_pc th') ->
  timely c j (Go choice) = true -> sees_readers c j (Go choice) = true ->
  qstep choice (queue c) th = Stepped (q', th', ls) -> Wake g c -> Wake g' c'.
Proof.
  intros c' HG Hn HS HS' Hsim Hsim' Hj Hls Htr Ht Hsees H Hw.
  destruct (enabled_go _ _ _ _ _ _ _ _ HS Hj (wk_flags _ _ Hw) (wk_pcs _ _ Hw _ _ Hj) H) as [Hun Hen].
  eapply (wake_step owner owner' g g' c f f'); try done.
  - intros HW. eapply account_go; [exact HS|exact HS'|done..| |done|done|done]. by apply (wk_pcs _ _ Hw _ _ Hj).
  - eapply semaphore_go; [|done]. apply (wk_semaphore _ _ Hw).
  - intros. eapply (inc_tail owner g c f); try done. apply (sim_placed _ _ _ Hsim').
  - destruct (count_go _ _ _ _ _ _ _ _ HS Hj H) as [[-> ->]|E]; [lia|]. rewrite E. apply u32_small.
    pose proof (total_insert registered registered _ _ _ th' Hj ltac:(done)) as Ht'.
    pose proof (total_nonneg registered (threads c') (fun pc => proj1 (registered_range pc))).
    pose proof (total_le registered (threads c') (fun pc => proj2 (registered_range pc))) as Hle.
    simpl in *. rewrite length_insert in Hle. rewrite (wk_count _ _ Hw). lia.
  - intros mode Hpc'. destruct (enters_wait _ _ _ _ _ _ _ _ _ HS Hj H Hpc') as (v & Hpc & Hsz).
    split; [eapply someone_registered; [done..|by rewrite Hpc]|].
    destruct (wk_look _ _ Hw _ _ _ _ Hj Hpc) as (a & Ha & [Hc|Hc]); [done|].
    destruct (timely_run _ _ _ Hj _ _ _ Ht Hpc) as (Hpush & _).
    rewrite (size_view _ _ _ _ _ HS Hsim HG _ _ (Hpush eq_refl) Ha) in Hsz.
    pose proof (pl_head _ _ (sim_placed _ _ _ Hsim)) as [_ Hhead].
    pose proof (total_mono _ _ (threads c) (signal_cover g a)). unfold covered, covered_from in *. lia.
  - intros v mode Hpc'. by eapply (enters_look owner c j th).
Qed.

(** So does a call. *)
Lemma wake_call owner owner' g g' c f f' j th op :
  let th' := mkThread (th_view th) (start op) in
  let c' := mkConfig (queue c) (<[j := th']> (threads c)) in
  Safe owner c -> Safe owner' c' -> Sim g c f -> Sim g' c' f' -> threads c !! j = Some th ->
  tracks (m_manager (queue c)) (m_manager (queue c)) g g' [LCall op] (start op) ->
  th_pc th = Idle -> op <> Disable -> Wake g c -> Wake g' c'.
Proof.
  intros th' c' HS HS' Hsim Hsim' Hj Htr Hpc Hop Hw.
  eapply (wake_step owner owner' g g' c f f'); try done; simpl.
  - intros _. eapply pays_quiet; try done; rewrite Hpc; by destruct op.
  - apply (wk_semaphore _ _ Hw).
  - apply (wk_flags _ _ Hw).
  - by destruct op.
  - intros. congruence.
  - rewrite Hpc. destruct op; simpl; lia.
  - by destruct op.
  - by destruct op.
Qed.

Lemma wake_init cap n c :
  init cap n = Some c -> Wake (mkGhost 0 0 (fun i => i) [0]) c.
Proof.
  unfold init, Queue_new, QueueManager_new. intros H. destruct (_ && _); [|done]. simplify_eq/=.
  assert (forall j th, replicate n (mkThread (mkView 0 0 0 0) (@Idle A)) !! j = Some th -> th_pc th = Idle) as Hidle
    by (intros j th [-> _]%lookup_replicate; done).
  split; simpl; try done.
  - by apply Forall_singleton.
  - intros j th Hj. by rewrite (Hidle _ _ Hj).
  - by left.
  - symmetry. apply total_zero, Forall_lookup. intros j th Hj. by rewrite (Hidle _ _ Hj).
  - intros j th mode Hj Hpc. by rewrite (Hidle _ _ Hj) in Hpc.
  - intros j th v mode Hj Hpc. by rewrite (Hidle _ _ Hj) in Hpc.
Qed.

Lemma wake_perform owner g c f i a c' ls :
  5 <= gens (m_manager (queue c)) -> Z.of_nat (length (threads c)) < 2 ^ 32 ->
  Safe owner c -> Sim g c f -> Wake g c ->
  undisturbed c i a = true -> perform c i a = Stepped (c', ls) ->
  exists owner' g' f', Safe owner' c' /\ fifo_labels (capacity (queue c)) i f ls f'
  /\ Sim g' c' f' /\ Wake g' c' /\ length (threads c') = length (threads c).
Proof.
  intros HG Hn HS Hsim Hw [[Ht Hsees]%andb_true_iff Hop]%andb_true_iff Hp.
  destruct (safe_perform _ _ _ _ _ _ HS Hp) as (owner' & HS').
  destruct (sim_perform _ _ _ _ _ _ _ _ HG HS Hsim Ht Hp) as (g' & f' & Hls & Hsim' & Htr).
  exists owner', g', f'. unfold perform in Hp. destruct (threads c !! i) as [th|] eqn:Hi; [|done].
  assert (Wake g' c' /\ length (threads c') = length (threads c)) as [??]; [|done].
  destruct a as [op|choice].
  - destruct (th_pc th) eqn:Hpc; try done. injection Hp as <- <-.
    split; [|apply length_insert]. eapply wake_call; try done; [|by intros ->].
    apply (Htr _ (insert_self _ _ _ Hi _)).
  - destruct (qstep _ _ _) as [| |[[q' th'] ls']] eqn:Hq; try done. injection Hp as <- <-.
    split; [|apply length_insert]. eapply wake_go; try done. apply (Htr _ (insert_self _ _ _ Hi _)).
Qed.

Lemma wake_reaches cap n c0 tr c :
  init cap n = Some c0 -> 5 <= numGenerations cap -> Z.of_nat n < 2 ^ 32 ->
  reaches undisturbed c0 tr c ->
  exists owner g f, Safe owner c /\ Sim g c f /\ Wake g c
  /\ capacity (queue c) = cap /\ length (threads c) = n /\ fifo_trace cap (mkFifo [] ∅) tr f.
Proof.
  intros Hi HG Hn Hr. induction Hr as [|tr c i a c' ls Hr (owner & g & f & HS & Hsim & Hw & Hcap & Hlen & Htr) Ht Hp].
  - destruct (sim_init _ _ _ Hi) as [Hsim Hcap]. pose proof (safe_init _ _ _ Hi) as HS.
    eexists _, _, _. split_and!; try done; [by eapply wake_init| |constructor].
    unfold init in Hi. destruct (Queue_new cap); [|done]. simplify_eq/=. apply length_replicate.
  - assert (5 <= gens (m_manager (queue c))) as Hgens.
    { destruct (safe_manager _ _ HS) as (_ & Hg & _). unfold gens. unfold capacity in Hcap. by rewrite Hg, Hcap. }
    destruct (wake_perform _ _ _ _ _ _ _ _ Hgens ltac:(lia) HS Hsim Hw Ht Hp)
      as (owner' & g' & f' & HS' & Hls & Hsim' & Hw' & Hlen').
    pose proof (perform_capacity _ _ _ _ _ Hp) as Hcap'. rewrite Hcap in Hcap', Hls.
    exists owner', g', f'. split_and!; try done; [lia|]. by econstructor.
Qed.

(** ** No reader is left behind *)

(** A thread that is outside the queue, or waits on one of its semaphores. *)
Definition resting pc : bool :=
  match pc with Idle | PopWait _ | PushWait _ => true | _ => false end.

(** C36. Blocked readers are woken.  Take any interleaving of any operations but
    [disable], in which no thread sleeps through half of the generations of the
    indices, and in which a writer that has committed does not read an old count
    of zero while readers are registered: the counter behaves in that load as if
    the registrations were not relaxed.  When every thread is outside the queue
    or waits on a semaphore, and a reader waits in [popFront] or
    [popFrontWithTimeout] with no signal pending, then the queue is empty: no
    value is left beside a sleeping reader. *)
Theorem no_lost_wakeup cap n (c0 : Config A) tr c j th mode :
  init cap n = Some c0 -> 5 <= numGenerations cap -> Z.of_nat n < 2 ^ 32 ->
  reaches undisturbed c0 tr c ->
  Forall (fun th => resting (th_pc th) = true) (threads c) ->
  threads c !! j = Some th -> th_pc th = PopWait mode -> m_popSemaphore (queue c) = 0 ->
  exists f, fifo_trace cap (mkFifo [] ∅) tr f /\ contents f = [].
Proof.
  intros Hi HG Hn Hr Hrest Hj Hpc Hsem.
  destruct (wake_reaches _ _ _ _ _ Hi HG Hn Hr) as (owner & g & f & _ & Hsim & Hw & _ & _ & Htr).
  exists f. split; [done|]. pose proof (wk_wait _ _ Hw _ _ _ Hj Hpc) as Hc. unfold covered in Hc.
  rewrite (total_zero cover) in Hc.
  - pose proof (sim_length _ _ _ Hsim) as Hlen. destruct (contents f); [done|]. simpl in Hlen. lia.
  - revert Hrest. apply List.Forall_impl. intros t Ht. by destruct (th_pc t).
Qed.

End Wake.

(** A reader waits, is woken by a push, takes the value and waits again. *)
Definition read_and_wait : list (nat * Action Z) :=
  [(0%nat, Call PopFront)] ++ replicate 7 (0%nat, Go 0)
  ++ [(1%nat, Call (TryPushBack 7))] ++ replicate 5 (1%nat, Go 0) ++ [(1%nat, Go 1); (1%nat, Go 0)] ++ replicate 9 (0%nat, Go 0)
  ++ [(0%nat, Call PopFront)] ++ replicate 4 (0%nat, Go 1) ++ replicate 3 (0%nat, Go 0).

Lemma no_lost_wakeup_witness :
  match init 2 2 with
  | Some c0 =>
      match run undisturbed c0 read_and_wait with
      | Some (tr, c) =>
          map th_pc (threads c) = [PopWait BlockPop; Idle]
          /\ exists f, fifo_trace 2 (mkFifo [] ∅) tr f /\ contents f = []
      | None => False
      end
  | None => False
  end.
Proof.
  destruct (init 2 2) as [c0|] eqn:Hi; [|by vm_compute in Hi].
  destruct (run undisturbed c0 read_and_wait) as [[tr c]|] eqn:Hr;
    [|by vm_compute in Hi; injection Hi as <-; vm_compute in Hr].
  pose proof (no_lost_wakeup 2 2 c0 tr c 0 (mkThread (mkView 1 1 3 0) (PopWait BlockPop)) BlockPop
    Hi ltac:(by vm_compute) ltac:(by vm_compute) (run_reaches _ _ _ _ _ Hr)) as H.
  vm_compute in Hi. injection Hi as <-. vm_compute in Hr. injection Hr as _ <-.
  split; [reflexivity|]. apply H; [by repeat constructor|reflexivity..].
Defined.

(** A reader registers, finds the queue empty and waits; then a writer pushes and
    reads the count from before the registration. *)
Definition old_count : list (nat * Action Z) :=
  [(0%nat, Call PopFront)] ++ replicate 7 (0%nat, Go 0)
  ++ [(1%nat, Call (TryPushBack 7))] ++ replicate 6 (1%nat, Go 0).

(** The registration is a relaxed [fetch_add], which the load of the push index
    in [empty] does not order before the writer's load of the count.  Coherence
    alone lets the writer miss the reader, which then waits beside the value. *)
Theorem relaxed_count_strands_reader :
  match init 2 2 with
  | Some c0 =>
      match run timely c0 old_count with
      | Some (_, c) =>
          map th_pc (threads c) = [PopWait BlockPop; Idle]
          /\ latest (m_waitingPoppers (queue c)) = 1 /\ m_popSemaphore (queue c) = 0
          /\ object_at (queue c) 0 = Some 7
          /\ (forall choice, perform c 0 (Go choice) = Blocked)
      | None => False
      end
  | None => False
  end.
Proof. vm_compute. by repeat split. Qed.

(** Disabling the queue between the load of a push and its exchange of the push
    index leaves the index behind the committed value. *)
Definition disable_during_push : list (nat * Action Z) :=
  [(1%nat, Call PopFront)] ++ replicate 4 (1%nat, Go 0)
  ++ [(0%nat, Call (TryPushBack 7)); (0%nat, Go 0); (2%nat, Call Disable)] ++ replicate 3 (2%nat, Go 0)
  ++ replicate 5 (0%nat, Go 0) ++ replicate 3 (1%nat, Go 0).

(** A reader that looks at the size afterwards waits beside the value, and
    [removeAll], which the destructor of the queue relies on, leaves the value
    in the buffer. *)
Theorem disable_strands_value :
  match init 2 3 with
  | Some c0 =>
      match run timely c0 disable_during_push with
      | Some (_, c) =>
          map th_pc (threads c) = [Idle; PopWait BlockPop; Idle]
          /\ object_at (queue c) 0 = Some 7
          /\ (forall choice, perform c 1 (Go choice) = Blocked)
          /\ match run timely c ((2%nat, Call RemoveAll) :: replicate 3 (2%nat, Go 0)) with
             | Some (_, c') => map th_pc (threads c') = [Idle; PopWait BlockPop; Idle]
                               /\ object_at (queue c') 0 = Some 7
             | None => False
             end
      | None => False
      end
  | None => False
  end.
Proof.
  destruct (init 2 3) as [c0|] eqn:Hi; [|by vm_compute in Hi]. vm_compute in Hi. injection Hi as <-.
  destruct (run timely _ disable_during_push) as [[tr c]|] eqn:Hr; [|by vm_compute in Hr].
  vm_compute in Hr. injection Hr as _ <-. split_and!; [reflexivity..| |by vm_compute].
  intros choice. reflexivity.
Qed.
